(* ===== verification/_CoqProject ===== *)
-Q . S2P
Prelude.v
Slices.v
Maps.v
GoSet.v
Buffer.v
Prog.v
RingCore.v
RingSlots.v
RingSpec.v
RingCalls.v
DpdkOptions.v
DpdkSPSC.v
DpdkRing.v
DpdkMPMC.v
DpdkMPSC.v
DpdkSPMC.v
FrontierCore.v
FrontierMPMC.v
FrontierMPSC.v
FrontierSPMC.v
Triple.v
WaitSide.v
Workq.v
WorkqSpec.v
WorkqWait.v
WorkqEngine.v
WaitConc.v
WaitTriples.v
WorkqConc.v
WorkqLive.v
RunnerCore.v
RunnerSpec.v
Runner.v
RunnerGhost.v
RunnerNew.v
RunnerLife.v
RunnerWork.v
RunnerHeld.v
RunnerRun.v
RunnerEnd.v
RunnerSubmit.v
RunnerLive.v
RunnerRuns.v
DurableCore.v
DurableSpec.v
DurableStore.v
DurableInv.v
DurableTx.v
DurableGroup.v
DurableCleanup.v
DurableMem.v
DurableOpen.v
DurableDelivery.v
DurableStart.v
DurableSound.v
DurableDemo.v
