(* ===== verification/Prelude.v ===== *)
(** * go-data-structures: a verification library

    The repository is a Go library: collection helpers ([xslices], [xmaps]), a map-backed [set],
    fixed-capacity buffers ([buffer]), bounded concurrent rings ([ring/dpdk], [ring/frontier]), a
    blocking work queue on top of them ([workq]), a worker pool on top of the queue
    ([workq/runner]) and a durable queue on SQLite ([workq/durable]). This library models the Go code, function by function, and proves that it
    does what it promises. This first file is the prelude; each other file opens with what it holds.

    ** Files and the code they model

    - [Prelude]: machine integers with their wrap-around, errors and [errors.Is], slices, maps with
      an arbitrary iteration order, the monad [GoM] of sequential code that may panic, hints.
    - [Slices] ([XSlices], src/xslices), [Maps] ([XMaps], src/xmaps), [GoSet] (src/set/set.go, on a
      store of set locations, so that a set can be its own argument), [Buffer] (src/buffer: buffer,
      bytes buffer and pool).
    - [Prog]: programs of concurrent goroutines. A program is a tree of actions; an action reads or
      changes the shared state in one step, may have several outcomes (the runtime chooses) or none
      (a panic); [Wait] is an action that blocks while it has no outcome (a mutex, a channel, a
      [select]); [Loop] is Go's [for]. [conf_step] interleaves goroutines; [ends] says that a program
      running alone returns, whatever is chosen, with a postcondition; [safe] says that a program
      among others keeps an invariant and is never stuck. [Triple]: rely-guarantee triples over
      [safe], with ghost state.
    - [RingCore] (src/ring/errors.go, internal/shared), [RingSlots], [RingSpec] (the interface
      [queue_api] of a bounded FIFO and the class [FifoQueue] of its promises), [RingCalls].
    - [DpdkOptions], [DpdkRing], [DpdkSPSC], [DpdkMPMC], [DpdkMPSC], [DpdkSPMC] (src/ring/dpdk).
    - [FrontierCore], [FrontierMPMC], [FrontierMPSC], [FrontierSPMC] (src/ring/frontier).
    - [WaitSide] (src/workq/waitside.go: the state word, the linked list of parked waiters, tokens),
      [Workq] (push.go, receive.go, wait.go, consumer_wake.go, queue.go, workq.go), [WorkqEngine]
      (engine.go, [New]).
    - [WorkqSpec], [WorkqWait]: the calls of a work queue that run alone. [WaitConc], [WaitTriples],
      [WorkqConc], [WorkqLive]: the work queue under every interleaving.
    - [RunnerCore] (config.go, result.go, the pure parts of summary.go and retry.go), [Runner]
      (runner.go, lifecycle.go, worker.go, retry.go, summary.go as programs), [RunnerNew] ([New] and
      adapters.go), [RunnerSpec] (the pure parts), and the run under every interleaving: [RunnerGhost]
      (ghost state and invariant), [RunnerLife], [RunnerWork], [RunnerHeld], [RunnerRun], [RunnerEnd],
      [RunnerSubmit] (triples per operation), [RunnerLive] (the whole system), [RunnerRuns].
    - [DurableCore] (src/workq/durable: types, sentinels, encoding.go, config.go, accounting.go, the
      validation of submissions), [DurableStore] (the tables of schema.go, the SQL statements, and the
      transactions of group.go, submit.go, ack.go, retire.go, cleanup.go with lookup.go),
      [DurableOpen] (validation.go, startup.go). [DurableSpec]: encodings and budgets. [DurableInv]
      (the invariant of a store and what it says of an identity), [DurableTx] (the abstract store, one
      command), [DurableGroup] (groups of commands), [DurableCleanup], [DurableStart] (startup),
      [DurableSound] (what validation guarantees). [DurableMem]: a connection in memory where every
      statement may fail; [DurableDemo]: the theorems applied to it.

    ** Interfaces

    [queue_api]/[FifoQueue]: what a ring queue promises to its callers; the seven ring queues and the
    engine of the work queue are instances, and the sequential theorems on the work queue are proved
    from the class. [FreshEngine]: what the concurrent theorems on the work queue ask of an engine
    (the assumptions A1 and A4 of src/workq/wakeup.md, for calls that take effect at one instant).
    [Around]: what the code around a work queue promises to it; the clients of [WorkqLive] and the
    runner are instances, so the triples of the queue are proved once. [Setup]: the parameters of a
    run of the runner, with what the handler, the terminal callback and the retry policy may do.
    [Connection]: what SQLite and database/sql promise to the durable queue. A statement that reports
    success has the effect of its SQL text on the tables; one that fails changes nothing, or the whole
    transaction is gone; a commit that fails may have happened; reading rows may stop after any row.
    [DurableMem] is the instance that shows these laws can hold with all these failures.

    ** What the theorems show

    - Work queue, every interleaving of any number of goroutines and calls ([WorkqLive]): no wake-up
      is lost, no item is lost, duplicated or invented, no call panics, the wait sides stay well formed.
    - Runner, every interleaving of workers, coordinator, callbacks and clients ([RunnerRuns]): no
      panic; no deadlock, so a run that is stopped or aborted completes and everybody returns; a
      complete run has balanced books, and each accepted item reached the terminal callback once.
    - Durable queue, wherever its SQL statements fail: a group of commands is one atomic step of an
      abstract store that maps identities to absent, pending, acknowledged or retired, and the outcomes
      that callers get say what happened ([DurableGroup]); cleanup changes no identity and terminates
      ([DurableCleanup]); startup creates an empty store, or reopens what any crash left without losing
      anything ([DurableStart]); validation accepts every consistent store and no other ([DurableStart],
      [DurableSound]); stored encodings are read back and the memory budget of a valid configuration
      admits every legal submission ([DurableSpec]).
    - Rings: every queue refines the bounded FIFO for calls that run alone, including wrapped indices;
      [spsc_concurrent_fifo] is the SPSC queue under every interleaving. Record discovery of the
      frontier queues equals the plain chain of records.
    - Work queue calls that run alone ([WorkqWait], [WorkqEngine]): results, errors and wakes of every
      branch, for every wait strategy; construction.
    - Buffer: refinement of a deque over arbitrary sequences of operations, no stale data after the
      wiping operations, pools, byte streams, and an [int] overflow of [grow]. Sets, maps, slices:
      functional correctness, with aliasing and any iteration order.
    - Pieces of the runner: compaction, validation of results, construction, adapters.

    ** Integers, fuel and bounds

    [int] is 64 bits wide; wrapped operations are written [+i], [+32], [+64]. Capacities are those
    the code accepts (1 to 2^30). The frontier queues use 64-bit positions that the code never lets
    wrap: their theorems hold while positions stay below 2^64. The concurrent theorems allow fewer
    than 2^31 goroutines, which the packed counters need. No theorem is weakened by fuel: [ends] and
    [safe] are about all executions, loops included; [exec] and [drive] take fuel and are used only to
    run examples. [compactLoop] and similar bounded loops get the length of their slice, which is
    exactly the number of iterations. A timer of the runner fires when the clock of the model reaches
    its deadline, and the clock moves when a client ticks: [runner_completes] therefore asks for
    goroutines that are stuck at every later time.

    ** Assumptions and what is left out

    Atomic accesses are sequentially consistent, and so are the plain accesses they order.
    [runtime.Gosched] does nothing, test hooks and diagnostics are nil. The handler, the terminal
    callback and the retry policy of a run may do anything to the application's own state, but do not
    block or panic, and the callback records its item in one step. A critical section of
    [accounting.mu] is one action. The engine of a concurrent work queue is assumed to be atomic
    ([FreshEngine]); the real rings are proved to meet [FifoQueue], and the SPSC queue under
    interleavings, but not that the other rings are linearizable. Formatting methods ([String]) of
    the buffers are left out.

    Of the durable queue, SQLite, the SHA-256 function, the random source and the caller's context are
    parameters: the hash has 32 bytes, random identities have 16 bytes, the context may be cancelled at
    any time, and [DurableSound] assumes of the tables what the CHECK and UNIQUE clauses of schema.go
    make SQLite guarantee. Left out are the loops around the transactions (admission slots, the
    coordinator goroutine, delivery to receivers, shutdown), pragmas, the integrity check and the text of
    the schema, file locks and synchronization, maintenance, inspection and snapshots.

    Not modelled: the diagnostics of the work queue (src/workq/diagnostics and related files), which
    count and time calls without changing them; the fault injection of the durable queue; benchmarks,
    the benchmark metadata script and example programs, which are I/O. *)

From Stdlib Require Import ZArith Lia.
From stdpp Require Import prelude list gmap strings.

(** ** Go machine integers *)

Declare Scope go_scope.
Delimit Scope go_scope with go.
Open Scope Z_scope.

(** [uint32], [uint64], [int32] and [int] (64 bits) wrap around. *)
Definition u32 (x : Z) : Z := x mod 2 ^ 32.
Definition u64 (x : Z) : Z := x mod 2 ^ 64.
Definition i32 (x : Z) : Z := (x + 2 ^ 31) mod 2 ^ 32 - 2 ^ 31.
Definition i64 (x : Z) : Z := (x + 2 ^ 63) mod 2 ^ 64 - 2 ^ 63.

Definition maxInt : Z := 2 ^ 63 - 1.
Definition minInt : Z := - 2 ^ 63.

Notation "a +32 b" := (u32 (a + b)) (at level 50, left associativity) : go_scope.
Notation "a -32 b" := (u32 (a - b)) (at level 50, left associativity) : go_scope.
Notation "a +64 b" := (u64 (a + b)) (at level 50, left associativity) : go_scope.
Notation "a -64 b" := (u64 (a - b)) (at level 50, left associativity) : go_scope.
Notation "a +i b" := (i64 (a + b)) (at level 50, left associativity) : go_scope.
Notation "a -i b" := (i64 (a - b)) (at level 50, left associativity) : go_scope.
Open Scope go_scope.

Definition is_u32 (x : Z) : Prop := 0 <= x < 2 ^ 32.
Definition is_u64 (x : Z) : Prop := 0 <= x < 2 ^ 64.
Definition is_int (x : Z) : Prop := minInt <= x <= maxInt.

(** [wrap_lia] decides goals that mix wrapped arithmetic with bounds: it turns the remainders
    into linear constraints over fresh quotients. *)
Ltac wrap_unfold :=
  unfold is_u32, is_u64, is_int, u32, u64, i32, i64, maxInt, minInt in *;
  change (2 ^ 64) with 18446744073709551616 in *;
  change (2 ^ 63) with 9223372036854775808 in *;
  change (2 ^ 32) with 4294967296 in *;
  change (2 ^ 31) with 2147483648 in *;
  change (2 ^ 30) with 1073741824 in *.

Ltac wrap_lia := wrap_unfold; Z.div_mod_to_equations; lia.

Lemma u32_range x : is_u32 (u32 x).
Proof. wrap_lia. Qed.

Lemma u64_range x : is_u64 (u64 x).
Proof. wrap_lia. Qed.

Lemma i64_range x : is_int (i64 x).
Proof. wrap_lia. Qed.

Lemma u32_small x : is_u32 x → u32 x = x.
Proof. wrap_lia. Qed.

Lemma u64_small x : is_u64 x → u64 x = x.
Proof. wrap_lia. Qed.

Lemma i64_small x : is_int x → i64 x = x.
Proof. wrap_lia. Qed.

Lemma i32_small x : - 2 ^ 31 <= x < 2 ^ 31 → i32 x = x.
Proof. wrap_lia. Qed.

(** [int_simpl] drops the wrap of every [int] expression that is in range. *)
Ltac int_simpl :=
  repeat match goal with
  | |- context [i64 ?x] =>
      rewrite (i64_small x) by (unfold is_int, minInt, maxInt in *; lia)
  end.

(** Sums of wrapped values wrap once. *)
Lemma u32_add_l x y : u32 (u32 x + y) = u32 (x + y).
Proof. unfold u32. by rewrite Zplus_mod_idemp_l. Qed.

Lemma u32_add_r x y : u32 (x + u32 y) = u32 (x + y).
Proof. unfold u32. by rewrite Zplus_mod_idemp_r. Qed.

Lemma u32_sub_l x y : u32 (u32 x - y) = u32 (x - y).
Proof. unfold u32. by rewrite Zminus_mod_idemp_l. Qed.

Lemma u32_sub_r x y : u32 (x - u32 y) = u32 (x - y).
Proof. unfold u32. by rewrite Zminus_mod_idemp_r. Qed.

Lemma u64_add_r x y : u64 (x + u64 y) = u64 (x + y).
Proof. unfold u64. by rewrite Zplus_mod_idemp_r. Qed.

(** Ranges of wrapped values, and sums that wrap once. *)
Create HintDb go_int.
#[export] Hint Resolve u32_range u64_range i64_range : go_int.
#[export] Hint Rewrite u32_add_l u32_add_r u32_sub_l u32_sub_r u64_add_r : go_int.

(** Two 32-bit halves of a 64-bit word. *)
Lemma join32_eq hi lo :
  is_u32 hi → is_u32 lo → Z.lor (u64 (Z.shiftl hi 32)) lo = hi * 2 ^ 32 + lo.
Proof.
  intros Hp Hc. rewrite Z.shiftl_mul_pow2 by lia.
  rewrite u64_small by (unfold is_u32, is_u64 in *; lia). rewrite <- Z.add_lor_land.
  assert (Z.land (hi * 2 ^ 32) lo = 0) as ->; [|lia].
  apply Z.bits_inj'. intros n Hn. rewrite Z.land_spec, Z.bits_0. destruct (decide (n < 32)).
  - by rewrite Z.mul_pow2_bits_low by lia.
  - rewrite <- (Z.mod_small lo (2 ^ 32)) by done. rewrite Z.mod_pow2_bits_high by lia.
    apply andb_false_r.
Qed.

Lemma join32_hi hi lo : is_u32 hi → is_u32 lo → u32 (Z.shiftr (hi * 2 ^ 32 + lo) 32) = hi.
Proof.
  intros Hp Hc. rewrite Z.shiftr_div_pow2 by lia. unfold is_u32 in *.
  rewrite Z.div_add_l, Z.div_small, Z.add_0_r by lia. by apply u32_small.
Qed.

Lemma join32_lo hi lo : is_u32 hi → is_u32 lo → u32 (hi * 2 ^ 32 + lo) = lo.
Proof.
  intros Hp Hc. unfold u32, is_u32 in *. rewrite Z.add_comm, Z.mod_add by lia. by apply Z.mod_small.
Qed.

(** ** Errors

    [errors.New] gives a sentinel, told apart here by its text, and [fmt.Errorf] gives a message or,
    with a [%w] verb, wraps a cause under a format string and its other arguments. [errors.Join] of more
    than two errors is nested. [ArgVal] is a [%v] argument of a
    generic comparable type, by its code. *)
Inductive errarg :=
| ArgInt (n : Z)
| ArgStr (s : string)
| ArgVal (code : positive).

Inductive error :=
| New (text : string)
| Message (format : string) (args : list errarg)
| Errorf (format : string) (args : list errarg) (cause : error)
| Join (first second : error).

#[export] Instance errarg_eq_dec : EqDecision errarg.
Proof. solve_decision. Defined.

#[export] Instance error_eq_dec : EqDecision error.
Proof. solve_decision. Defined.

(** [errors.Is]: the target or anything the error wraps. *)
Fixpoint errors_Is (e target : error) : bool :=
  bool_decide (e = target) ||
  match e with
  | New _ | Message _ _ => false
  | Errorf _ _ cause => errors_Is cause target
  | Join first second => errors_Is first target || errors_Is second target
  end.

(** [errors.Join] of two errors; nil errors are dropped. *)
Definition errors_join (first second : option error) : option error :=
  match first, second with
  | Some e, Some e' => Some (Join e e')
  | None, e | e, None => e
  end.

Lemma errors_Is_refl e : errors_Is e e = true.
Proof. destruct e; simpl; by rewrite bool_decide_true. Qed.

Lemma errors_Is_wrap fmt args e target :
  errors_Is e target = true → errors_Is (Errorf fmt args e) target = true.
Proof. intros H. simpl. rewrite H. apply orb_true_r. Qed.

Lemma errors_Is_join_l e e' target : errors_Is e target = true → errors_Is (Join e e') target = true.
Proof. intros H. simpl. rewrite H. apply orb_true_r. Qed.

Lemma errors_Is_join_r e e' target : errors_Is e' target = true → errors_Is (Join e e') target = true.
Proof. intros H. simpl. rewrite H, orb_true_r. apply orb_true_r. Qed.

(** An error is found in its own chain and in the errors that wrap it. *)
Create HintDb go_err.
#[export] Hint Resolve errors_Is_refl errors_Is_wrap errors_Is_join_l errors_Is_join_r : go_err.

(** ** State and panics

    A Go method on a receiver of type [S] either returns or panics, and the receiver keeps the
    writes made before a panic. *)
Inductive outcome (A : Type) :=
| Returned (a : A)
| Panicked (message : string).
Arguments Returned {A} _.
Arguments Panicked {A} _.

Definition GoM (S A : Type) : Type := S → outcome A * S.

#[export] Instance GoM_ret S : MRet (GoM S) := λ A a s, (Returned a, s).
#[export] Instance GoM_bind S : MBind (GoM S) := λ A B k m s,
  match m s with
  | (Returned a, s') => k a s'
  | (Panicked msg, s') => (Panicked msg, s')
  end.

Definition go_panic {S A} (msg : string) : GoM S A := λ s, (Panicked msg, s).
Definition go_get {S} : GoM S S := λ s, (Returned s, s).
Definition go_modify {S} (f : S → S) : GoM S unit := λ s, (Returned tt, f s).
Definition go_when {S} (b : bool) (m : GoM S unit) : GoM S unit :=
  if b then m else mret ().

(** Symbolic execution: [go_step] runs the first action of a bind whose result is known. *)
Lemma bind_returned {S A B} (m : GoM S A) (k : A → GoM S B) s a s' :
  m s = (Returned a, s') → (m ≫= k) s = k a s'.
Proof. unfold mbind, GoM_bind. by intros ->. Qed.

Lemma bind_panicked {S A B} (m : GoM S A) (k : A → GoM S B) s msg s' :
  m s = (Panicked msg, s') → (m ≫= k) s = (Panicked msg, s').
Proof. unfold mbind, GoM_bind. by intros ->. Qed.

Tactic Notation "go_step" "by" tactic3(tac) := erewrite bind_returned; [|solve [tac]].

(** The runtime's panic for a slice expression out of range. *)
Definition slice_bounds : string := "runtime error: slice bounds out of range".

(** ** Slices

    [sub l i j] is the slice expression [l[i:j]] on a slice whose length is its capacity. *)
Section slices.
Context {T : Type}.
Implicit Types l : list T.

Definition len l : Z := Z.of_nat (length l).

Definition in_slice l (i j : Z) : bool := (0 <=? i) && (i <=? j) && (j <=? len l).

Definition sub l (i j : Z) : list T := take (Z.to_nat (j - i)) (drop (Z.to_nat i) l).

(** [copy(l[i:], xs)]: the prefix of [xs] that fits is written at [i]. *)
Definition copy_at (i : Z) (xs l : list T) : list T := list_inserts (Z.to_nat i) xs l.

(** [clear(l[i:j])]. *)
Definition clear_range (zero : T) (i j : Z) l : list T :=
  list_inserts (Z.to_nat i) (replicate (Z.to_nat (j - i)) zero) l.

Lemma len_copy_at i xs l : len (copy_at i xs l) = len l.
Proof. unfold len, copy_at. by rewrite length_inserts. Qed.

Lemma len_clear_range z i j l : len (clear_range z i j l) = len l.
Proof. unfold len, clear_range. by rewrite length_inserts. Qed.

Lemma len_sub l i j : 0 <= i <= j → j <= len l → len (sub l i j) = j - i.
Proof. unfold len, sub. intros. rewrite length_take, length_drop. lia. Qed.

Lemma len_app l1 l2 : len (l1 ++ l2) = len l1 + len l2.
Proof. unfold len. rewrite length_app. lia. Qed.

Lemma len_take n l : 0 <= n <= len l → len (take (Z.to_nat n) l) = n.
Proof. unfold len. rewrite length_take. lia. Qed.

Lemma len_drop n l : 0 <= n <= len l → len (drop (Z.to_nat n) l) = len l - n.
Proof. unfold len. rewrite length_drop. lia. Qed.

Lemma len_nonneg l : 0 <= len l.
Proof. unfold len. lia. Qed.

Lemma len_0_nil l : len l = 0 → l = [].
Proof. destruct l; unfold len; simpl; [done | lia]. Qed.

Lemma in_slice_true l i j : in_slice l i j = true ↔ 0 <= i <= j ∧ j <= len l.
Proof. unfold in_slice. rewrite !andb_true_iff, !Z.leb_le. tauto. Qed.

Lemma in_slice_false l i j : in_slice l i j = false ↔ ¬ (0 <= i <= j ∧ j <= len l).
Proof. rewrite <- in_slice_true. destruct (in_slice l i j); naive_solver. Qed.

Lemma lookup_sub l i j k :
  0 <= i → sub l i j !! k =
    if decide (Z.of_nat k < j - i) then l !! (Z.to_nat i + k)%nat else None.
Proof.
  intros Hi. unfold sub. case_decide.
  - rewrite lookup_take_lt by lia. by rewrite lookup_drop.
  - rewrite lookup_take_ge by lia. done.
Qed.

Lemma lookup_copy_at i xs l k :
  0 <= i → i + len xs <= len l →
  copy_at i xs l !! k =
    if decide (i <= Z.of_nat k < i + len xs) then xs !! (k - Z.to_nat i)%nat else l !! k.
Proof.
  intros Hi Hl. unfold copy_at, len in *. case_decide.
  - apply list_lookup_inserts; lia.
  - destruct (decide (k < Z.to_nat i)%nat).
    + by apply list_lookup_inserts_lt.
    + apply list_lookup_inserts_ge. lia.
Qed.

Lemma lookup_clear_range z i j l k :
  0 <= i <= j → j <= len l →
  clear_range z i j l !! k = if decide (i <= Z.of_nat k < j) then Some z else l !! k.
Proof.
  intros Hi Hj. unfold clear_range. fold (copy_at i (replicate (Z.to_nat (j - i)) z) l).
  assert (len (replicate (Z.to_nat (j - i)) z) = j - i) as Hr.
  { unfold len. rewrite length_replicate. lia. }
  rewrite lookup_copy_at by lia. rewrite Hr.
  case_decide; case_decide; try lia; [|done].
  apply lookup_replicate_2. lia.
Qed.
End slices.

(** Reading a range back after a write. *)
Ltac slice_lookup :=
  repeat first
    [ rewrite lookup_sub by lia
    | rewrite lookup_copy_at by (rewrite ?len_sub by lia; lia)
    | rewrite lookup_clear_range by lia
    | rewrite len_sub by lia ];
  repeat case_decide; try lia; try done; try (f_equal; lia).

Section slices_read.
Context {T : Type}.
Implicit Types l : list T.

Lemma sub_copy_append l s e xs :
  0 <= s <= e → e + len xs <= len l →
  sub (copy_at e xs l) s (e + len xs) = sub l s e ++ xs.
Proof.
  intros Hs He. pose proof (len_nonneg xs). apply list_eq. intros k.
  destruct (decide (Z.of_nat k < e - s)).
  - rewrite lookup_app_l by (pose proof (len_sub l s e); unfold len in *; lia). slice_lookup.
  - assert (length (sub l s e) = Z.to_nat (e - s)) as Hl
      by (pose proof (len_sub l s e); unfold len in *; lia).
    rewrite lookup_app_r by lia. rewrite Hl. slice_lookup.
    symmetry. apply lookup_ge_None_2. unfold len in *. lia.
Qed.

Lemma copy_front xs l : len xs <= len l → copy_at 0 xs l = xs ++ drop (length xs) l.
Proof.
  intros Hl. apply list_eq. intros k. rewrite lookup_copy_at by lia. unfold len in *.
  case_decide.
  - rewrite lookup_app_l by lia. f_equal. lia.
  - rewrite lookup_app_r, lookup_drop by lia. f_equal. lia.
Qed.

Lemma sub_clear_disjoint z i j l s e :
  0 <= i <= j → j <= len l → 0 <= s → (e <= i ∨ j <= s) →
  sub (clear_range z i j l) s e = sub l s e.
Proof. intros. apply list_eq. intros k. slice_lookup. Qed.

Lemma sub_clear_inside z i j l :
  0 <= i <= j → j <= len l → sub (clear_range z i j l) i j = replicate (Z.to_nat (j - i)) z.
Proof.
  intros. apply list_eq. intros k. slice_lookup.
  - symmetry. apply lookup_replicate_2. lia.
  - symmetry. apply lookup_ge_None_2. rewrite length_replicate. lia.
Qed.

Lemma sub_drop l s e c :
  0 <= s → 0 <= c → sub l (s + c) e = drop (Z.to_nat c) (sub l s e).
Proof.
  intros. apply list_eq. intros k. rewrite lookup_drop. slice_lookup.
Qed.

Lemma sub_take l s e m : 0 <= s → m <= e - s → sub l s (s + m) = take (Z.to_nat m) (sub l s e).
Proof.
  intros. unfold sub. rewrite take_take. f_equal. lia.
Qed.

Lemma sub_copy_front l s e :
  0 <= s <= e → e <= len l → sub (copy_at 0 (sub l s e) l) 0 (e - s) = sub l s e.
Proof. intros. apply list_eq. intros k. slice_lookup. Qed.
End slices_read.

(** ** Lists *)

Lemma filter_all {A} (P : A → Prop) `{∀ x, Decision (P x)} (l : list A) :
  (∀ x, P x) → filter P l = l.
Proof.
  intros HP. induction l as [|x l IH]; [done|].
  rewrite filter_cons_True by auto. by rewrite IH.
Qed.

Lemma snoc_fold {A} (l acc : list A) : foldl (λ acc x, acc ++ [x]) acc l = acc ++ l.
Proof.
  revert acc. induction l as [|x l IH]; intros acc; simpl; [by rewrite app_nil_r|].
  rewrite IH. by rewrite <- app_assoc.
Qed.

(** ** Ranging over maps

    Go leaves the iteration order of a map unspecified, and two loops over one map may use
    different orders. A loop is a fold over [map_range i m], where [i] numbers the loop in its
    function; the theorems hold for every order. *)
Class MapRange (K V : Type) `{Countable K} := {
  map_range : nat → gmap K V → list (K * V);
  map_range_perm i m : map_range i m ≡ₚ map_to_list m;
}.

Class SetRange (K : Type) `{Countable K} := {
  set_range : nat → gset K → list K;
  set_range_perm i X : set_range i X ≡ₚ elements X;
}.

(** Such orders exist: the one stdpp lists, and its reverse at every odd loop. *)
Definition listing_range {K V} `{Countable K} : MapRange K V :=
  {| map_range i m := map_to_list m; map_range_perm i m := reflexivity _ |}.

Program Definition alternating_range {K} `{Countable K} : SetRange K :=
  {| set_range i X := if Nat.even i then elements X else reverse (elements X) |}.
Next Obligation.
  intros K ? ? i X. simpl. destruct (Nat.even i); [done|]. apply reverse_Permutation.
Qed.

Section range_facts.
Context {K V : Type} `{Countable K} `{!MapRange K V}.

Lemma map_range_NoDup i (m : gmap K V) : NoDup (map_range i m).*1.
Proof. rewrite map_range_perm. apply NoDup_fst_map_to_list. Qed.

Lemma elem_of_map_range i (m : gmap K V) k v : (k, v) ∈ map_range i m ↔ m !! k = Some v.
Proof. rewrite map_range_perm. apply elem_of_map_to_list. Qed.

Lemma map_range_list_to_map i (m : gmap K V) : list_to_map (map_range i m) = m.
Proof.
  rewrite <- (list_to_map_to_list m) at 2. apply list_to_map_proper; [apply map_range_NoDup|].
  apply map_range_perm.
Qed.
End range_facts.

Section set_range_facts.
Context {K : Type} `{Countable K} `{!SetRange K}.

Lemma set_range_NoDup i (X : gset K) : NoDup (set_range i X).
Proof. rewrite set_range_perm. apply NoDup_elements. Qed.

Lemma elem_of_set_range i (X : gset K) k : k ∈ set_range i X ↔ k ∈ X.
Proof. rewrite set_range_perm. apply elem_of_elements. Qed.
End set_range_facts.
