(* ===== verification/Slices.v ===== *)
(** * Package xslices (src/xslices/slices.go)

    The slice helpers as list functions.  A loop over a slice is a fold of its body in index
    order, with the loop's variables as the accumulator.  [slices.Reverse], [slices.Index] and
    [slices.Contains], which three of the helpers only call, are the standard library's and are
    modelled by their own loops. *)

From stdpp Require Import prelude list sorting gmap.
From S2P Require Import Prelude.

Module XSlices.

Section comparable.
Context {E : Type} `{Countable E}.
Implicit Types inSlice : list E.

(** The loop body of [Unique] on the pair [(seen, unique)]. *)
Definition unique_step (acc : gset E * list E) (item : E) : gset E * list E :=
  let '(seen, unique) := acc in
  if decide (item ∈ seen) then (seen, unique)
  else ({[item]} ∪ seen, unique ++ [item]).

Definition Unique (inSlice : list E) : list E :=
  (foldl unique_step (∅, []) inSlice).2.

(** [slices.Index]: the first index holding [element], or -1. *)
Fixpoint index_from (i : Z) (inSlice : list E) (element : E) : Z :=
  match inSlice with
  | [] => -1
  | item :: rest => if decide (item = element) then i else index_from (i + 1) rest element
  end.

Definition IndexOf (inSlice : list E) (element : E) : Z := index_from 0 inSlice element.

Definition Contains (inSlice : list E) (element : E) : bool := 0 <=? IndexOf inSlice element.

(** [LastIndexOf] walks down from [len - 1]; [n] is one more than the loop's [i]. *)
Fixpoint last_index_loop (inSlice : list E) (element : E) (n : nat) : Z :=
  match n with
  | O => -1
  | S i =>
      if decide (inSlice !! i = Some element) then Z.of_nat i
      else last_index_loop inSlice element i
  end.

Definition LastIndexOf (inSlice : list E) (element : E) : Z :=
  last_index_loop inSlice element (length inSlice).

Definition indices_step (element : E) (acc : Z * list Z) (item : E) : Z * list Z :=
  let '(i, indices) := acc in
  (i + 1, if decide (item = element) then indices ++ [i] else indices).

Definition IndicesOf (inSlice : list E) (element : E) : list Z :=
  (foldl (indices_step element) (0, []) inSlice).2.
End comparable.

Section any.
Context {E : Type}.
Implicit Types inSlice : list E.

(** [slices.Reverse]: swap the ends and move inwards. *)
Fixpoint reverse_loop (fuel i j : nat) inSlice : list E :=
  match fuel with
  | O => inSlice
  | S fuel =>
      if decide (i < j)%nat then
        match inSlice !! i, inSlice !! j with
        | Some x, Some y => reverse_loop fuel (S i) (j - 1)%nat (<[i:=y]> (<[j:=x]> inSlice))
        | _, _ => inSlice
        end
      else inSlice
  end.

Definition Reverse inSlice : list E :=
  reverse_loop (length inSlice) 0 (length inSlice - 1)%nat inSlice.

(** [reversed[len(inSlice)-1-i] = item] for each [i], over a fresh zeroed slice. *)
Definition reversed_step (n : nat) (acc : nat * list E) (item : E) : nat * list E :=
  let '(i, reversed) := acc in (S i, <[(n - 1 - i)%nat := item]> reversed).

Definition Reversed (zero : E) inSlice : list E :=
  (foldl (reversed_step (length inSlice)) (0%nat, replicate (length inSlice) zero) inSlice).2.

Definition partition_step (predicate : E → bool) (acc : list E * list E) (item : E)
    : list E * list E :=
  let '(trueSlice, falseSlice) := acc in
  if predicate item then (trueSlice ++ [item], falseSlice)
  else (trueSlice, falseSlice ++ [item]).

Definition Partition inSlice (predicate : E → bool) : list E * list E :=
  foldl (partition_step predicate) ([], []) inSlice.
End any.

(** ** Reference definitions *)

(** The elements of a list at their first occurrence, defined by removing later copies. *)
Fixpoint first_seen {E} `{EqDecision E} (l : list E) : list E :=
  match l with
  | [] => []
  | x :: rest => x :: filter (λ y, y ≠ x) (first_seen rest)
  end.

(** The positions, counted from [k], that hold [element]. *)
Fixpoint positions {E} `{EqDecision E} (k : nat) (l : list E) (element : E) : list Z :=
  match l with
  | [] => []
  | x :: rest =>
      if decide (x = element) then Z.of_nat k :: positions (S k) rest element
      else positions (S k) rest element
  end.

(** ** Unique *)

Section unique_facts.
Context {E : Type} `{Countable E}.
Implicit Types l : list E.

(** The loop invariant: what is still to be appended is [first_seen] less the elements seen. *)
Lemma unique_fold l seen unique :
  (foldl unique_step (seen, unique) l).2 = unique ++ filter (λ y, y ∉ seen) (first_seen l).
Proof.
  revert seen unique. induction l as [|x l IH]; intros seen unique; simpl.
  - by rewrite app_nil_r.
  - case_decide as Hx; rewrite IH.
    + rewrite filter_cons_False by tauto. f_equal.
      rewrite list_filter_filter_l; [done|]. intros y Hy ->. tauto.
    + rewrite filter_cons_True by done. rewrite <- app_assoc. simpl. do 2 f_equal.
      rewrite list_filter_filter. apply list_filter_iff. set_solver.
Qed.

Lemma first_seen_elem l x : x ∈ first_seen l ↔ x ∈ l.
Proof.
  induction l as [|y l IH]; simpl; [done|].
  rewrite !elem_of_cons, list_elem_of_filter, IH.
  destruct (decide (x = y)); naive_solver.
Qed.

Lemma first_seen_NoDup l : NoDup (first_seen l).
Proof.
  induction l as [|y l IH]; simpl; constructor; [|by apply NoDup_filter].
  rewrite list_elem_of_filter. naive_solver.
Qed.

(** C39. [Unique] returns exactly the elements of its input, each once, in first-seen order: it
    equals the reference [first_seen], which has no duplicates and the same elements. *)
Theorem Unique_spec l :
  Unique l = first_seen l ∧ NoDup (Unique l) ∧ ∀ x, x ∈ Unique l ↔ x ∈ l.
Proof.
  assert (Unique l = first_seen l) as ->.
  { unfold Unique. rewrite unique_fold. simpl. apply filter_all. set_solver. }
  split_and!; auto using first_seen_NoDup, first_seen_elem.
Qed.
End unique_facts.

(** ** Searching *)

Section index_facts.
Context {E : Type} `{Countable E}.
Implicit Types l : list E.

Lemma positions_elem k l x i :
  i ∈ positions k l x ↔ ∃ n, i = Z.of_nat (k + n) ∧ l !! n = Some x.
Proof.
  revert k. induction l as [|y l IH]; intros k; simpl.
  - split; [by intros ?%elem_of_nil | naive_solver].
  - assert (i ∈ positions (S k) l x ↔ ∃ n, i = Z.of_nat (k + S n) ∧ l !! n = Some x) as HI.
    { rewrite IH. by setoid_rewrite (Nat.add_succ_r k). }
    case_decide as Hy; [rewrite elem_of_cons|]; rewrite HI; split.
    + intros [->|(n & -> & Hn)]; [exists 0%nat | by exists (S n)]. simpl. split; [lia|congruence].
    + intros ([|n] & -> & Hn); [left; lia | right; by exists n].
    + intros (n & -> & Hn). by exists (S n).
    + intros ([|n] & -> & Hn); [simpl in Hn; congruence | by exists n].
Qed.

Lemma positions_sorted k l x : StronglySorted Z.lt (positions k l x).
Proof.
  revert k. induction l as [|y l IH]; intros k; simpl; [constructor|].
  case_decide; [|done]. constructor; [done|]. apply Forall_forall.
  intros i (n & -> & _)%positions_elem. lia.
Qed.

Lemma indices_fold l x k acc :
  foldl (indices_step x) (Z.of_nat k, acc) l = (Z.of_nat (k + length l), acc ++ positions k l x).
Proof.
  revert k acc. induction l as [|y l IH]; intros k acc; simpl.
  - by rewrite app_nil_r, Nat.add_0_r.
  - replace (Z.of_nat k + 1) with (Z.of_nat (S k)) by lia. rewrite IH, Nat.add_succ_r.
    f_equal. case_decide; [|done]. by rewrite <- app_assoc.
Qed.

Lemma index_from_positions k l x :
  index_from (Z.of_nat k) l x = default (-1) (head (positions k l x)).
Proof.
  revert k. induction l as [|y l IH]; intros k; simpl; [done|].
  case_decide; [done|]. replace (Z.of_nat k + 1) with (Z.of_nat (S k)) by lia. apply IH.
Qed.

Lemma last_index_app l l' x n :
  (n ≤ length l)%nat → last_index_loop (l ++ l') x n = last_index_loop l x n.
Proof.
  induction n as [|n IH]; intros Hn; [done|]. simpl.
  rewrite lookup_app_l by lia. rewrite IH by lia. done.
Qed.

Lemma positions_snoc k l y x :
  positions k (l ++ [y]) x =
    positions k l x ++ (if decide (y = x) then [Z.of_nat (k + length l)] else []).
Proof.
  revert k. induction l as [|z l IH]; intros k; simpl; [by rewrite Nat.add_0_r|].
  rewrite IH, Nat.add_succ_r. by destruct (decide (z = x)).
Qed.

Lemma last_index_positions l x :
  last_index_loop l x (length l) = default (-1) (last (positions 0 l x)).
Proof.
  induction l as [|y l IH] using rev_ind; [done|].
  rewrite length_app, positions_snoc. simpl. rewrite Nat.add_1_r. simpl.
  rewrite list_lookup_middle by done. rewrite last_index_app, IH by lia.
  destruct (decide (y = x)) as [->|Hne].
  - rewrite decide_True by done. by rewrite last_snoc.
  - rewrite decide_False by (intros [=]; done). by rewrite app_nil_r.
Qed.

(** [IndicesOf] lists, in increasing order, exactly the positions that hold the element;
    [IndexOf] is the first of them, [LastIndexOf] the last, -1 when there is none, and [Contains]
    says whether there is one. *)
Lemma index_functions_spec l x :
  (∀ i, i ∈ IndicesOf l x ↔ ∃ n : nat, i = Z.of_nat n ∧ l !! n = Some x) ∧
  StronglySorted Z.lt (IndicesOf l x) ∧
  IndexOf l x = default (-1) (head (IndicesOf l x)) ∧
  LastIndexOf l x = default (-1) (last (IndicesOf l x)) ∧
  Contains l x = bool_decide (x ∈ l).
Proof.
  assert (IndicesOf l x = positions 0 l x) as Hi.
  { unfold IndicesOf. change (0, []) with (Z.of_nat 0, @nil Z). by rewrite indices_fold. }
  assert (IndexOf l x = default (-1) (head (IndicesOf l x))) as Hf.
  { rewrite Hi. apply (index_from_positions 0). }
  split_and!; [| |done| |].
  - intros i. rewrite Hi. apply positions_elem.
  - rewrite Hi. apply positions_sorted.
  - rewrite Hi. apply last_index_positions.
  - unfold Contains. rewrite Hf, Hi. apply eq_bool_prop_intro.
    rewrite bool_decide_spec, Is_true_true, Z.leb_le, list_elem_of_lookup.
    destruct (positions 0 l x) as [|i rest] eqn:Hp; simpl.
    + split; [lia|]. intros [n Hn].
      assert (Z.of_nat n ∈ positions 0 l x) as Hin by (apply positions_elem; naive_solver).
      rewrite Hp in Hin. by apply elem_of_nil in Hin.
    + assert (i ∈ positions 0 l x) as (n & -> & Hn)%positions_elem by (rewrite Hp; left).
      split; [naive_solver | lia].
Qed.
End index_facts.

(** ** Partition and reversal *)

Section order_facts.
Context {E : Type}.
Implicit Types l : list E.

Lemma partition_fold p l ts fs :
  foldl (partition_step p) (ts, fs) l =
    (ts ++ filter (λ x, p x = true) l, fs ++ filter (λ x, p x = false) l).
Proof.
  revert ts fs. induction l as [|x l IH]; intros ts fs; simpl.
  - by rewrite !app_nil_r.
  - destruct (p x) eqn:Hp; rewrite IH.
    + rewrite filter_cons_True, filter_cons_False by congruence. by rewrite <- app_assoc.
    + rewrite filter_cons_False, filter_cons_True by congruence. by rewrite <- app_assoc.
Qed.

(** [Partition] splits its input into the elements that satisfy the predicate and those that
    do not, each in its original order, and together they are a permutation of the input. *)
Lemma Partition_spec p l :
  Partition l p = (filter (λ x, p x = true) l, filter (λ x, p x = false) l) ∧
  (Partition l p).1 ++ (Partition l p).2 ≡ₚ l.
Proof.
  assert (Partition l p = (filter (λ x, p x = true) l, filter (λ x, p x = false) l)) as ->
    by apply partition_fold.
  split; [done|]. simpl.
  induction l as [|x l IH]; [done|]. rewrite !filter_cons.
  destruct (p x); simpl; rewrite <- IH at 3; [done|]. by rewrite <- Permutation_middle.
Qed.

(** After [i] rounds the outer [i] elements of each end are reversed and the middle is kept. *)
Lemma reverse_loop_spec fuel l1 l2 l3 i j :
  length l1 = i → length l3 = i → (j + 1 = i + length l2)%nat → (length l2 <= 2 * fuel)%nat →
  reverse_loop fuel i j (l1 ++ l2 ++ l3) = l1 ++ reverse l2 ++ l3.
Proof.
  revert l1 l2 l3 i j. induction fuel as [|fuel IH]; intros l1 l2 l3 i j H1 H3 Hj Hf.
  { destruct l2; [done|simpl in *; lia]. }
  destruct l2 as [|x l2]; simpl in Hj.
  { simpl. by rewrite decide_False by lia. }
  destruct l2 as [|y l2 _] using rev_ind; simpl in Hj.
  { simpl. by rewrite decide_False by lia. }
  rewrite length_app in Hj. simpl in *. rewrite length_app in Hf. simpl in Hf.
  rewrite decide_True by lia.
  rewrite list_lookup_middle by done.
  assert ((l1 ++ x :: (l2 ++ [y]) ++ l3) = (l1 ++ x :: l2) ++ y :: l3) as Heq.
  { by rewrite <- !app_assoc. }
  rewrite Heq, list_lookup_middle by (rewrite length_app; simpl; lia).
  replace j with (length (l1 ++ x :: l2) + 0)%nat at 2 by (rewrite length_app; simpl; lia).
  rewrite insert_app_r. simpl. rewrite <- app_assoc. simpl.
  replace i with (length l1 + 0)%nat at 2 by lia. rewrite insert_app_r. simpl.
  specialize (IH (l1 ++ [y]) l2 (x :: l3) (S i) (j - 1)%nat).
  rewrite <- !app_assoc in IH. simpl in IH. rewrite IH.
  - rewrite reverse_cons, reverse_snoc. simpl. by rewrite <- app_assoc.
  - rewrite length_app. simpl. lia.
  - simpl. lia.
  - lia.
  - lia.
Qed.

Lemma reversed_fold n l done k z :
  n = (length done + k + length l)%nat → k = 0%nat →
  foldl (reversed_step n) (length done, replicate (length l) z ++ reverse done) l =
    (n, reverse (done ++ l)).
Proof.
  revert done. induction l as [|x l IH]; intros done Hn ->; simpl in *.
  - rewrite app_nil_r. f_equal. lia.
  - replace (n - 1 - length done)%nat with (length l) by lia.
    assert (z :: replicate (length l) z ++ reverse done
            = replicate (length l) z ++ z :: reverse done) as ->.
    { change (z :: replicate (length l) z ++ reverse done)
        with ((z :: replicate (length l) z) ++ reverse done).
      rewrite replicate_cons_app. by rewrite <- app_assoc. }
    replace (length l) with (length (replicate (length l) z) + 0)%nat at 1
      by (rewrite length_replicate; lia).
    rewrite insert_app_r. simpl.
    specialize (IH (done ++ [x])). rewrite length_app, reverse_snoc in IH. simpl in IH.
    rewrite Nat.add_1_r in IH. rewrite <- app_assoc in IH. apply IH; simpl; lia.
Qed.

(** [Reverse] in place and [Reversed] into a fresh slice both give the elements in reverse
    order, so reversing twice is the identity. *)
Lemma reverse_functions_spec z l :
  Reverse l = reverse l ∧ Reversed z l = reverse l ∧ Reverse (Reverse l) = l.
Proof.
  assert (∀ l : list E, Reverse l = reverse l) as HR.
  { intros k. unfold Reverse. destruct k as [|x k]; [done|].
    pose proof (reverse_loop_spec (length (x :: k)) [] (x :: k) []
      0 (length (x :: k) - 1)) as Hl. simpl in *.
    rewrite !app_nil_r in Hl. apply Hl; simpl; lia. }
  split_and!; [done| |by rewrite !HR, reverse_involutive].
  unfold Reversed. pose proof (reversed_fold (length l) l [] 0 z) as Hf. simpl in Hf.
  rewrite app_nil_r in Hf. by rewrite Hf.
Qed.
End order_facts.
End XSlices.
