(* ===== verification/Maps.v ===== *)
(** * Package xmaps (src/xmaps/maps.go)

    The map helpers on stdpp's finite maps, with every [range] loop a fold in an arbitrary
    iteration order ([MapRange]). *)

From stdpp Require Import prelude list gmap strings.
From S2P Require Import Prelude.

Module XMaps.

Definition ErrDuplicateValue : error := New "xmaps: map has duplicate values".

Section maps.
Context {K V : Type} `{Countable K} `{Countable V} `{!MapRange K V}.
Implicit Types source : gmap K V.

Definition Keys source : list K :=
  foldl (λ keys '(key, _), keys ++ [key]) [] (map_range 0 source).

Definition Values source : list V :=
  foldl (λ values '(_, value), values ++ [value]) [] (map_range 0 source).

(** The loop of [Invert], which returns early at the first repeated value. *)
Fixpoint invert_loop (es : list (K * V)) (inverted : gmap V K) : error + gmap V K :=
  match es with
  | [] => inr inverted
  | (key, value) :: rest =>
      match inverted !! value with
      | Some _ =>
          inl (Errorf "invert: value %v: %w" [ArgVal (encode value)] ErrDuplicateValue)
      | None => invert_loop rest (<[value := key]> inverted)
      end
  end.

Definition Invert source : error + gmap V K := invert_loop (map_range 0 source) ∅.

Definition merge_source (merged source : gmap K V) : gmap K V :=
  foldl (λ merged '(key, value), <[key := value]> merged) merged (map_range 0 source).

Definition Merge (sources : list (gmap K V)) : gmap K V := foldl merge_source ∅ sources.

(** ** Lemmas *)

Lemma keys_fold (es : list (K * V)) acc :
  foldl (λ keys '(key, _), keys ++ [key]) acc es = acc ++ es.*1.
Proof.
  revert acc. induction es as [|[k v] es IH]; intros acc; simpl; [by rewrite app_nil_r|].
  rewrite IH. by rewrite <- app_assoc.
Qed.

Lemma values_fold (es : list (K * V)) acc :
  foldl (λ values '(_, value), values ++ [value]) acc es = acc ++ es.*2.
Proof.
  revert acc. induction es as [|[k v] es IH]; intros acc; simpl; [by rewrite app_nil_r|].
  rewrite IH. by rewrite <- app_assoc.
Qed.

(** [Keys] holds every key of the map exactly once, and [Values] the value of every entry as
    often as it occurs, whatever the iteration order; both have the map's length. *)
Lemma Keys_Values_spec source :
  NoDup (Keys source) ∧ (∀ k, k ∈ Keys source ↔ is_Some (source !! k)) ∧
  Values source ≡ₚ (map_to_list source).*2 ∧
  length (Keys source) = size source ∧ length (Values source) = size source.
Proof.
  unfold Keys, Values. rewrite keys_fold, values_fold. simpl.
  assert (length (map_range 0 source) = size source) as Hl.
  { by rewrite map_range_perm, length_map_to_list. }
  split_and!; [apply map_range_NoDup| | |by rewrite length_fmap..].
  - intros k. rewrite list_elem_of_fmap. split.
    + intros ([k' v] & -> & Hin%elem_of_map_range). by exists v.
    + intros [v Hv]. exists (k, v). by rewrite elem_of_map_range.
  - by rewrite map_range_perm.
Qed.

(** The loop of [Invert] finishes exactly when the values still to come are distinct and new. *)
Lemma invert_loop_ok es inverted :
  NoDup es.*2 → (∀ v, v ∈ es.*2 → inverted !! v = None) →
  invert_loop es inverted = inr (list_to_map ((λ '(k, v), (v, k)) <$> es) ∪ inverted).
Proof.
  revert inverted. induction es as [|[k v] es IH]; intros inverted Hn Hfresh; simpl.
  - by rewrite map_empty_union.
  - apply NoDup_cons in Hn as [Hv Hn]. rewrite (Hfresh v) by (simpl; left). rewrite IH.
    + f_equal. rewrite <- insert_union_l. rewrite insert_union_r; [done|].
      apply not_elem_of_list_to_map_1. intros Hin. apply Hv.
      apply list_elem_of_fmap in Hin as ([v' k'] & -> & Hin).
      apply list_elem_of_fmap in Hin as ([k2 v2] & [= -> ->] & Hin).
      apply list_elem_of_fmap. by exists (k2, v2).
    + done.
    + intros w Hw. rewrite lookup_insert_ne by (intros ->; done).
      apply Hfresh. simpl. by right.
Qed.

Lemma invert_loop_dup es inverted :
  (¬ NoDup es.*2 ∨ ∃ v, v ∈ es.*2 ∧ is_Some (inverted !! v)) →
  ∃ err, invert_loop es inverted = inl err ∧ errors_Is err ErrDuplicateValue = true.
Proof.
  revert inverted. induction es as [|[k v] es IH]; intros inverted Hbad; simpl.
  - destruct Hbad as [Hn|(v & Hv & _)]; [destruct Hn; constructor | by apply elem_of_nil in Hv].
  - destruct (inverted !! v) eqn:Hv.
    + eexists. split; [done|]. auto with go_err.
    + apply IH. simpl in Hbad.
      destruct (decide (v ∈ es.*2)) as [Hin|Hnin].
      { right. exists v. split; [done|]. rewrite lookup_insert_eq. by eexists. }
      destruct Hbad as [Hn|(w & Hw & Hsome)].
      { left. intros Hd. apply Hn. by constructor. }
      right. exists w. apply elem_of_cons in Hw as [->|Hw].
      { rewrite Hv in Hsome. by destruct Hsome. }
      split; [done|]. rewrite lookup_insert_ne; [done|]. by intros ->.
Qed.

(** [source] maps distinct keys to distinct values. *)
Definition injective_map source : Prop :=
  ∀ k1 k2 v, source !! k1 = Some v → source !! k2 = Some v → k1 = k2.

Lemma injective_map_NoDup source : injective_map source ↔ NoDup (map_range 0 source).*2.
Proof.
  pose proof (map_range_NoDup 0 source) as Hk. split.
  - intros Hinj. apply NoDup_fmap_2_strong; [|by eapply NoDup_fmap_1].
    intros [k1 v1] [k2 v2] H1%elem_of_map_range H2%elem_of_map_range ?; simpl in *; subst.
    f_equal. by eapply Hinj.
  - intros Hn k1 k2 v H1 H2.
    apply (elem_of_map_range 0), list_elem_of_lookup in H1 as [i Hi].
    apply (elem_of_map_range 0), list_elem_of_lookup in H2 as [j Hj].
    assert (i = j) as ->; [|congruence].
    eapply NoDup_lookup; [done|by rewrite list_lookup_fmap, Hi|by rewrite list_lookup_fmap, Hj].
Qed.

(** C38. [Invert] succeeds exactly on a map whose values are distinct, and then the result maps a
    value to a key exactly when the input maps that key to that value; otherwise the error wraps
    [ErrDuplicateValue]. Neither depends on the iteration order. *)
Theorem Invert_spec source :
  (injective_map source ∧ ∃ inverted, Invert source = inr inverted ∧
     ∀ k v, inverted !! v = Some k ↔ source !! k = Some v) ∨
  (¬ injective_map source ∧ ∃ err, Invert source = inl err ∧
     errors_Is err ErrDuplicateValue = true).
Proof.
  destruct (decide (NoDup (map_range 0 source).*2)) as [Hn|Hn].
  - left. split; [by apply injective_map_NoDup|]. unfold Invert.
    rewrite invert_loop_ok by (auto; intros; apply lookup_empty). eexists. split; [done|].
    intros k v. rewrite map_union_empty. rewrite <- elem_of_list_to_map.
    + rewrite <- (elem_of_map_range 0). rewrite list_elem_of_fmap. split.
      * by intros ([k' v'] & [= -> ->] & Hin).
      * intros Hin. by exists (k, v).
    + rewrite <- list_fmap_compose. erewrite list_fmap_ext; [done|]. by intros i [].
  - right. split; [by rewrite injective_map_NoDup|]. apply invert_loop_dup. by left.
Qed.

Lemma insert_fold (es : list (K * V)) (merged : gmap K V) :
  NoDup es.*1 →
  foldl (λ merged '(key, value), <[key := value]> merged) merged es = list_to_map es ∪ merged.
Proof.
  revert merged. induction es as [|[k v] es IH]; intros merged Hn; simpl.
  - by rewrite map_empty_union.
  - apply NoDup_cons in Hn as [Hk Hn]. rewrite IH by done.
    rewrite <- insert_union_l. rewrite insert_union_r; [done|]. by apply not_elem_of_list_to_map_1.
Qed.

Lemma merge_source_eq merged source : merge_source merged source = source ∪ merged.
Proof.
  unfold merge_source. rewrite insert_fold by apply map_range_NoDup.
  by rewrite map_range_list_to_map.
Qed.

Lemma merge_fold sources merged :
  foldl merge_source merged sources = foldl (λ acc m, m ∪ acc) merged sources.
Proof.
  revert merged. induction sources as [|m sources IH]; intros merged; simpl; [done|].
  by rewrite merge_source_eq.
Qed.

(** In [Merge] the last source that has a key decides its value, and a key no source has is
    absent. *)
Lemma Merge_spec sources k :
  Merge sources !! k = default None (last (filter is_Some ((λ m : gmap K V, m !! k) <$> sources))).
Proof.
  unfold Merge. rewrite merge_fold. induction sources as [|m sources IH] using rev_ind; [done|].
  rewrite foldl_app, fmap_app, filter_app. simpl. destruct (m !! k) as [v|] eqn:Hm.
  - rewrite filter_cons_True by eauto. rewrite last_app. simpl.
    by apply lookup_union_Some_l.
  - rewrite filter_cons_False by (intros [? ?]; congruence).
    rewrite app_nil_r, <- IH. by apply lookup_union_r.
Qed.
End maps.
End XMaps.
