(* ===== verification/GoSet.v ===== *)
(** * Package set (src/set/set.go)

    A [*Set] is a location of a store whose cells hold the [entries] field: [None] for the nil
    map of a zero value, [Some X] for a map with key set [X]. The methods take locations, so a
    call that passes the receiver as its own argument is one of the cases covered. A loop over a
    map follows an arbitrary order ([SetRange]) and, as in Go, skips an entry that was deleted
    before it was reached. *)

From stdpp Require Import prelude list gmap strings.
From S2P Require Import Prelude.

Module GoSet.

Definition loc := positive.

(** An [iter.Seq]: the values of some list, or [All] of a set, read while the loop runs. *)
Inductive Seq (K : Type) :=
| SeqList (yields : list K)
| SeqAll (s : loc).
Arguments SeqList {K} _.
Arguments SeqAll {K} _.

Section set.
Context {K : Type} `{Countable K} `{!SetRange K}.

Abbreviation cell := (option (gset K)).
Abbreviation store := (gmap loc cell).
Abbreviation M := (GoM store).

(** ** Memory *)

Definition load (s : loc) : M cell := λ st,
  match st !! s with
  | Some e => (Returned e, st)
  | None => (Panicked "runtime error: invalid memory address or nil pointer dereference", st)
  end.

Definition assign (s : loc) (e : cell) : M unit := _ ← load s; go_modify <[s := e]>.

Definition alloc (e : cell) : M loc := λ st,
  let s := fresh (dom st) in (Returned s, <[s := e]> st).

(** [entries[element] = struct{}{}], which panics on a nil map. *)
Definition put (s : loc) (element : K) : M unit :=
  e ← load s;
  match e with
  | Some X => assign s (Some ({[element]} ∪ X))
  | None => go_panic "assignment to entry in nil map"
  end.

(** [delete(entries, element)], a no-op on a nil map. *)
Definition del (s : loc) (element : K) : M unit :=
  e ← load s; assign s ((λ X, X ∖ {[element]}) <$> e).

Definition keys (e : cell) : gset K := default ∅ e.

Definition len_entries (s : loc) : M nat := e ← load s; mret (size (keys e)).

(** The rest of a loop over [s.entries]: the body returns [Some r] to leave the loop. *)
Fixpoint range_loop {R} (s : loc) (body : K → M (option R)) (todo : list K) : M (option R) :=
  match todo with
  | [] => mret None
  | element :: todo =>
      e ← load s;
      if decide (element ∈ keys e) then
        r ← body element;
        match r with
        | Some _ => mret r
        | None => range_loop s body todo
        end
      else range_loop s body todo
  end.

Definition for_entries {R} (i : nat) (s : loc) (body : K → M (option R)) : M (option R) :=
  e ← load s; range_loop s body (set_range i (keys e)).

Fixpoint list_loop {R} (body : K → M (option R)) (todo : list K) : M (option R) :=
  match todo with
  | [] => mret None
  | element :: todo =>
      r ← body element;
      match r with
      | Some _ => mret r
      | None => list_loop body todo
      end
  end.

(** [for element := range seq]. *)
Definition for_seq {R} (i : nat) (seq : Seq K) (body : K → M (option R)) : M (option R) :=
  match seq with
  | SeqList yields => list_loop body yields
  | SeqAll s => for_entries i s body
  end.

(** A body that never leaves its loop. *)
Definition continue (m : M unit) : M (option Empty_set) := _ ← m; mret None.
Definition ignore {R} (m : M R) : M unit := _ ← m; mret ().

(** ** The methods *)

Definition New : M loc := alloc (Some ∅).

Definition ensureEntries (s : loc) : M unit :=
  e ← load s; match e with None => assign s (Some ∅) | Some _ => mret () end.

Definition Add (s : loc) (element : K) : M unit := _ ← ensureEntries s; put s element.

Definition Of (elements : list K) : M loc :=
  result ← alloc (Some ∅);
  _ ← list_loop (λ element, continue (Add result element)) elements;
  mret result.

Definition FromSlice (ks : list K) : M loc := Of ks.

Definition AddAll (s : loc) (seq : Seq K) : M unit :=
  _ ← ensureEntries s;
  ignore (for_seq 0 seq (λ element, continue (put s element))).

Definition Collect (seq : Seq K) : M loc :=
  result ← New;
  _ ← AddAll result seq;
  mret result.

Definition Remove (s : loc) (element : K) : M unit := del s element.

Definition RemoveFunc (s : loc) (predicate : K → bool) : M unit :=
  ignore (for_entries 0 s (λ element, continue (go_when (predicate element) (del s element)))).

Definition smallerFirst (first second : loc) : M (loc * loc) :=
  n1 ← len_entries first;
  n2 ← len_entries second;
  mret (if (n1 <? n2)%nat then (first, second) else (second, first)).

Definition Contains (s : loc) (element : K) : M bool :=
  e ← load s; mret (bool_decide (element ∈ keys e)).

Definition Difference (s other : loc) : M loc :=
  result ← New;
  _ ← for_entries 0 s (λ element, continue (
        c ← Contains other element;
        if c : bool then mret () else put result element));
  mret result.

Definition Intersection (s other : loc) : M loc :=
  p ← smallerFirst s other;
  result ← New;
  _ ← for_entries 0 p.1 (λ element, continue (
        c ← Contains p.2 element;
        if c : bool then put result element else mret ()));
  mret result.

Definition Clone (s : loc) : M loc :=
  result ← alloc (Some ∅);
  _ ← for_entries 0 s (λ element, continue (put result element));
  mret result.

Definition Union (s other : loc) : M loc :=
  p ← smallerFirst s other;
  result ← Clone p.2;
  _ ← for_entries 1 p.1 (λ element, continue (put result element));
  mret result.

Definition Disjunction (s other : loc) : M loc :=
  result ← Union s other;
  intersection ← Intersection s other;
  _ ← for_entries 2 intersection (λ element, continue (Remove result element));
  mret result.

Definition ContainsFunc (s : loc) (predicate : K → bool) : M bool :=
  r ← for_entries 0 s (λ element, mret (if predicate element then Some true else None));
  mret (default false r).

Definition Filter (s : loc) (predicate : K → bool) : M loc :=
  result ← New;
  _ ← for_entries 0 s (λ element, continue (go_when (predicate element) (put result element)));
  mret result.

Definition ContainsAll (s : loc) (seq : Seq K) : M bool :=
  r ← for_seq 0 seq (λ element, c ← Contains s element;
                      mret (if c : bool then None else Some false));
  mret (default true r).

Definition All (s : loc) : Seq K := SeqAll s.

Definition IsSubset (s other : loc) : M bool :=
  n1 ← len_entries s;
  n2 ← len_entries other;
  if (n2 <? n1)%nat then mret false else ContainsAll other (All s).

Definition Equals (s other : loc) : M bool :=
  n1 ← len_entries s;
  n2 ← len_entries other;
  if (n1 =? n2)%nat then IsSubset s other else mret false.

Definition IsSuperset (s other : loc) : M bool := IsSubset other s.

Definition IsDisjoint (s other : loc) : M bool :=
  p ← smallerFirst s other;
  r ← for_entries 0 p.1 (λ element, c ← Contains p.2 element;
                          mret (if c : bool then Some false else None));
  mret (default true r).

Definition IsEmpty (s : loc) : M bool := n ← len_entries s; mret (n =? 0)%nat.

Definition Len (s : loc) : M nat := len_entries s.

Definition ToSlice (s : loc) : M (list K) :=
  e ← load s;
  mret (foldl (λ elements element, elements ++ [element]) [] (set_range 0 (keys e))).

Definition Clear (s : loc) : M unit := assign s (Some ∅).

Definition Update (s other : loc) : M unit :=
  _ ← ensureEntries s;
  ignore (for_entries 0 other (λ element, continue (put s element))).

Definition DifferenceUpdate (s other : loc) : M unit :=
  ignore (for_entries 0 other (λ element, continue (del s element))).

Definition RemoveAll (s : loc) (seq : Seq K) : M unit :=
  ignore (for_seq 0 seq (λ element, continue (del s element))).

(** [kept] is a map of its own until the last line installs it; it lives in a cell no [Set]
    names. *)
Definition IntersectionUpdate (s other : loc) : M unit :=
  p ← smallerFirst s other;
  kept ← alloc (Some ∅);
  _ ← for_entries 0 p.1 (λ element, continue (
        c ← Contains p.2 element;
        if c : bool then put kept element else mret ()));
  e ← load kept;
  assign s e.

Definition DisjunctionUpdate (s other : loc) : M unit :=
  if decide (other = s) then Clear s
  else
    _ ← ensureEntries s;
    ignore (for_entries 0 other (λ element, continue (
      c ← Contains s element;
      if c : bool then del s element else put s element))).

(** ** Lemmas *)

Implicit Types (st : store) (e : cell).

Lemma load_ok st s e : st !! s = Some e → load s st = (Returned e, st).
Proof. unfold load. by intros ->. Qed.

Lemma assign_ok st s e e' : st !! s = Some e → assign s e' st = (Returned tt, <[s := e']> st).
Proof. intros Hs. unfold assign. go_step by (by apply load_ok). done. Qed.

Lemma put_ok st s X x :
  st !! s = Some (Some X) → put s x st = (Returned tt, <[s := Some ({[x]} ∪ X)]> st).
Proof.
  intros Hs. unfold put. go_step by (by apply load_ok). by eapply assign_ok.
Qed.

Lemma del_ok st s e x :
  st !! s = Some e → del s x st = (Returned tt, <[s := (λ X, X ∖ {[x]}) <$> e]> st).
Proof.
  intros Hs. unfold del. go_step by (by apply load_ok). by eapply assign_ok.
Qed.

Lemma Contains_ok st s e x :
  st !! s = Some e → Contains s x st = (Returned (bool_decide (x ∈ keys e)), st).
Proof. intros Hs. unfold Contains. by go_step by (by apply load_ok). Qed.

Lemma len_entries_ok st s e :
  st !! s = Some e → len_entries s st = (Returned (size (keys e)), st).
Proof. intros Hs. unfold len_entries. by go_step by (by apply load_ok). Qed.

Lemma ensureEntries_ok st s e :
  st !! s = Some e → ensureEntries s st = (Returned tt, <[s := Some (keys e)]> st).
Proof.
  intros Hs. unfold ensureEntries. go_step by (by apply load_ok).
  destruct e as [X|]; [|by eapply assign_ok]. simpl. by rewrite insert_id.
Qed.

Lemma alloc_ok st e :
  ∃ s, alloc e st = (Returned s, <[s := e]> st) ∧ st !! s = None.
Proof.
  eexists. split; [done|]. apply not_elem_of_dom. apply is_fresh.
Qed.

(** The order in which two arguments are taken does not matter, so one lemma states what
    [smallerFirst] returns. *)
Lemma smallerFirst_ok st s1 s2 e1 e2 :
  st !! s1 = Some e1 → st !! s2 = Some e2 →
  ∃ a b ea eb, smallerFirst s1 s2 st = (Returned (a, b), st) ∧
    st !! a = Some ea ∧ st !! b = Some eb ∧
    ((a, b, ea, eb) = (s1, s2, e1, e2) ∨ (a, b, ea, eb) = (s2, s1, e2, e1)).
Proof.
  intros H1 H2. unfold smallerFirst. go_step by (by apply len_entries_ok).
  go_step by (by apply len_entries_ok). destruct (_ <? _)%nat; naive_solver.
Qed.

(** The loop rule: an invariant [I visited st] that every visit and every skip preserve. *)
Lemma range_loop_inv {R} s (body : K → M (option R)) (I : list K → store → Prop) l visited st :
  I visited st →
  (∀ visited st, I visited st → is_Some (st !! s)) →
  (∀ v x todo st e, visited ++ l = v ++ x :: todo → I v st → st !! s = Some e → x ∈ keys e →
     ∃ st', body x st = (Returned None, st') ∧ I (v ++ [x]) st') →
  (∀ v x todo st e, visited ++ l = v ++ x :: todo → I v st → st !! s = Some e → x ∉ keys e →
     I (v ++ [x]) st) →
  ∃ st', range_loop s body l st = (Returned None, st') ∧ I (visited ++ l) st'.
Proof.
  intros HI Hs Hbody Hskip. revert visited st HI Hbody Hskip.
  induction l as [|x l IH]; intros visited st HI Hbody Hskip; simpl.
  { exists st. by rewrite app_nil_r. }
  destruct (Hs _ _ HI) as [e He]. go_step by (by apply load_ok).
  replace (visited ++ x :: l) with ((visited ++ [x]) ++ l) in * by by rewrite <- app_assoc.
  case_decide as Hx.
  - destruct (Hbody visited x l st e) as (st' & Hb & HI'); [by rewrite <- app_assoc|done..|].
    go_step by (apply Hb). by apply IH.
  - apply IH; [|done..]. eapply Hskip; eauto. by rewrite <- app_assoc.
Qed.

(** A loop over [s] that builds, in another cell [r], the set of the visited elements the body
    keeps. *)
Lemma range_collect i s r e X (keep : K → bool) (body : K → M (option Empty_set)) st :
  s ≠ r → st !! s = Some e → st !! r = Some (Some X) →
  (∀ x Y, body x (<[r := Some Y]> st) =
     (Returned None, <[r := Some (if keep x then {[x]} ∪ Y else Y)]> st)) →
  for_entries i s body st =
    (Returned None, <[r := Some (filter (λ x, keep x = true) (keys e) ∪ X)]> st).
Proof.
  intros Hne Hs Hr Hbody. unfold for_entries. go_step by (by apply load_ok).
  destruct (range_loop_inv s body (λ v st', st' =
      <[r := Some (list_to_set (filter (λ x, keep x = true) v) ∪ X)]> st)
    (set_range i (keys e)) [] st) as (st' & Hl & HI).
  - simpl. rewrite insert_id; [done|]. by rewrite (left_id_L ∅ _).
  - intros v ? ->. rewrite lookup_insert_ne by done. by eexists.
  - intros v x todo ? e' _ -> He Hx. eexists. split; [apply Hbody|]. f_equal. f_equal.
    rewrite filter_app, list_to_set_app_L. destruct (keep x) eqn:Hk.
    + rewrite filter_cons_True, filter_nil by done. set_solver.
    + rewrite filter_cons_False, filter_nil by congruence. set_solver.
  - intros v x todo ? e' Hv -> He Hx. exfalso. apply Hx.
    rewrite lookup_insert_ne in He by done. simplify_eq.
    apply (elem_of_set_range i). simpl in Hv. rewrite Hv. set_solver.
  - rewrite Hl, HI. do 4 f_equal. simpl. apply set_eq. intros x.
    rewrite elem_of_list_to_set, list_elem_of_filter, elem_of_filter, elem_of_set_range. done.
Qed.

Lemma range_collect_all i s r e X (body : K → M (option Empty_set)) st :
  s ≠ r → st !! s = Some e → st !! r = Some (Some X) →
  (∀ x Y, body x (<[r := Some Y]> st) = (Returned None, <[r := Some ({[x]} ∪ Y)]> st)) →
  for_entries i s body st = (Returned None, <[r := Some (keys e ∪ X)]> st).
Proof.
  intros Hne Hs Hr Hbody.
  rewrite (range_collect i s r e X (λ _, true) body st) by done. do 4 f_equal. set_solver.
Qed.

(** A loop over [s] whose body rewrites the cell [t], which may be [s] itself, to [upd] of the
    visited elements, as long as an entry not yet visited is still there. *)
Lemma range_update i s t e e' (upd : list K → cell) (body : K → M (option Empty_set)) st :
  st !! s = Some e → st !! t = Some e' → upd [] = e' →
  (s = t → ∀ v x todo, set_range i (keys e) = v ++ x :: todo → x ∈ keys (upd v)) →
  (∀ v x todo, set_range i (keys e) = v ++ x :: todo →
     body x (<[t := upd v]> st) = (Returned None, <[t := upd (v ++ [x])]> st)) →
  for_entries i s body st = (Returned None, <[t := upd (set_range i (keys e))]> st).
Proof.
  intros Hs Ht Hnil Hself Hbody. unfold for_entries. go_step by (by apply load_ok).
  destruct (range_loop_inv s body (λ v st', st' = <[t := upd v]> st)
    (set_range i (keys e)) [] st) as (st' & Hl & HI).
  - by rewrite Hnil, insert_id.
  - intros v ? ->. destruct (decide (s = t)) as [->|];
      [rewrite lookup_insert_eq | rewrite lookup_insert_ne by done]; by eexists.
  - intros v x todo ? e2 Hv -> He Hx. eauto.
  - intros v x todo ? e2 Hv -> He Hx. simpl in Hv. exfalso. apply Hx.
    destruct (decide (s = t)) as [->|Hne].
    + rewrite lookup_insert_eq in He. simplify_eq. by eapply Hself.
    + rewrite lookup_insert_ne in He by done. simplify_eq.
      apply (elem_of_set_range i). rewrite Hv. set_solver.
  - by rewrite Hl, HI.
Qed.

Lemma range_split_fresh i (X : gset K) v x todo :
  set_range i X = v ++ x :: todo → x ∈ X ∧ x ∉ v.
Proof.
  intros Hv. split.
  - apply (elem_of_set_range i). rewrite Hv. set_solver.
  - pose proof (set_range_NoDup i X) as Hn. rewrite Hv in Hn.
    apply NoDup_app in Hn as (_ & Hd & _). intros Hx. apply (Hd x Hx). set_solver.
Qed.

Lemma set_range_to_set i (X : gset K) : list_to_set (set_range i X) = X.
Proof. apply set_eq. intros x. by rewrite elem_of_list_to_set, elem_of_set_range. Qed.

(** The loop bodies, run in a store whose cell [r] holds [Y]. *)
Lemma put_body r x Y st :
  continue (put r x) (<[r := Some Y]> st) = (Returned None, <[r := Some ({[x]} ∪ Y)]> st).
Proof.
  unfold continue. go_step by (apply put_ok, lookup_insert_eq). by rewrite insert_insert_eq.
Qed.

Lemma put_if_body (b : bool) r x Y st :
  continue (go_when b (put r x)) (<[r := Some Y]> st) =
    (Returned None, <[r := Some (if b then {[x]} ∪ Y else Y)]> st).
Proof. destruct b; [apply put_body | done]. Qed.

Lemma contains_body {A} o e2 x r Y st (k : bool → M A) :
  o ≠ r → st !! o = Some e2 →
  (c ← Contains o x; k c) (<[r := Some Y]> st) =
    k (bool_decide (x ∈ keys e2)) (<[r := Some Y]> st).
Proof.
  intros Hne Ho. by go_step by (apply Contains_ok; by rewrite lookup_insert_ne).
Qed.

Lemma put_in_body o e2 x r Y st :
  o ≠ r → st !! o = Some e2 →
  continue (c ← Contains o x; if c : bool then put r x else mret ()) (<[r := Some Y]> st) =
    (Returned None, <[r := Some (if bool_decide (x ∈ keys e2) then {[x]} ∪ Y else Y)]> st).
Proof.
  intros Hne Ho. unfold continue. unfold mbind at 1, GoM_bind at 1.
  rewrite (contains_body _ e2) by done. destruct (bool_decide _); [|done].
  rewrite put_ok with (X := Y) by apply lookup_insert_eq. by rewrite insert_insert_eq.
Qed.

Lemma put_out_body o e2 x r Y st :
  o ≠ r → st !! o = Some e2 →
  continue (c ← Contains o x; if c : bool then mret () else put r x) (<[r := Some Y]> st) =
    (Returned None, <[r := Some (if bool_decide (x ∉ keys e2) then {[x]} ∪ Y else Y)]> st).
Proof.
  intros Hne Ho. unfold continue. unfold mbind at 1, GoM_bind at 1.
  rewrite (contains_body _ e2) by done. rewrite bool_decide_not.
  destruct (bool_decide _); [done|].
  rewrite put_ok with (X := Y) by apply lookup_insert_eq. by rewrite insert_insert_eq.
Qed.

(** Deleting the elements of [s] from [t], which may be [s]. *)
Lemma range_delete i s t e e' st :
  st !! s = Some e → st !! t = Some e' →
  for_entries i s (λ x, continue (del t x)) st =
    (Returned None, <[t := (λ X, X ∖ keys e) <$> e']> st).
Proof.
  intros Hs Ht.
  rewrite (range_update i s t e e' (λ v, (λ X, X ∖ list_to_set v) <$> e')).
  - do 2 f_equal. destruct e'; simpl; [|done]. by rewrite set_range_to_set.
  - done.
  - done.
  - destruct e'; simpl; [|done]. f_equal. set_solver.
  - intros <- v x todo [Hx Hv]%range_split_fresh. simplify_eq.
    destruct e as [X|]; simpl in *; [|done]. set_solver.
  - intros v x todo _. unfold continue. go_step by (apply del_ok, lookup_insert_eq).
    rewrite insert_insert_eq. unfold mret, GoM_ret. do 2 f_equal.
    destruct e'; simpl; [|done]. f_equal. set_solver.
Qed.

(** Adding the elements of [s] to [t], which may be [s]. *)
Lemma range_add i s t e X st :
  st !! s = Some e → st !! t = Some (Some X) →
  for_entries i s (λ x, continue (put t x)) st = (Returned None, <[t := Some (X ∪ keys e)]> st).
Proof.
  intros Hs Ht.
  rewrite (range_update i s t e (Some X) (λ v, Some (X ∪ list_to_set v))).
  - by rewrite set_range_to_set.
  - done.
  - done.
  - f_equal. set_solver.
  - intros <- v x todo [Hx Hv]%range_split_fresh. simplify_eq. simpl in *. set_solver.
  - intros v x todo _. rewrite put_body. do 3 f_equal. set_solver.
Qed.

(** *** Methods that return a new set *)

(** [builds m X st]: [m] returns a fresh set with elements [X] and changes nothing else. *)
Definition builds (m : M loc) (X : gset K) st : Prop :=
  ∃ r, m st = (Returned r, <[r := Some X]> st) ∧ st !! r = None.

(** Allocate a result and fill it by one filtering loop over [s]. *)
Lemma builds_loop i s e (keep : K → bool) (body : loc → K → M (option Empty_set)) st :
  st !! s = Some e →
  (∀ r x Y, st !! r = None → body r x (<[r := Some Y]> st) =
     (Returned None, <[r := Some (if keep x then {[x]} ∪ Y else Y)]> st)) →
  builds (result ← alloc (Some ∅); _ ← for_entries i s (body result); mret result)
    (filter (λ x, keep x = true) (keys e)) st.
Proof.
  intros Hs Hbody. destruct (alloc_ok st (Some ∅)) as (r & Hr & Hf).
  exists r. split; [|done]. go_step by (apply Hr).
  assert (s ≠ r) as Hne by congruence.
  go_step by (eapply (range_collect i s r e ∅ keep);
    [done | by rewrite lookup_insert_ne | apply lookup_insert_eq |];
    intros x Y; rewrite !insert_insert_eq; by apply Hbody).
  rewrite insert_insert_eq. unfold mret, GoM_ret. do 4 f_equal. apply (right_id_L ∅ _).
Qed.

Lemma builds_eq m X Y st : builds m X st → X = Y → builds m Y st.
Proof. by intros ? <-. Qed.

Lemma Difference_ok st s other e1 e2 :
  st !! s = Some e1 → st !! other = Some e2 →
  builds (Difference s other) (keys e1 ∖ keys e2) st.
Proof.
  intros H1 H2. eapply builds_eq.
  - apply (builds_loop 0 s e1 (λ x, bool_decide (x ∉ keys e2))); [done|].
    intros r x Y Hr. apply put_out_body; congruence.
  - apply set_eq. intros x. rewrite elem_of_filter, bool_decide_eq_true. set_solver.
Qed.

Lemma Filter_ok st s e p :
  st !! s = Some e → builds (Filter s p) (filter (λ x, p x = true) (keys e)) st.
Proof.
  intros Hs. apply builds_loop; [done|]. intros r x Y Hr. apply put_if_body.
Qed.

Lemma Clone_ok st s e : st !! s = Some e → builds (Clone s) (keys e) st.
Proof.
  intros Hs. eapply builds_eq; [apply (builds_loop 0 s e (λ _, true)); [done|]|].
  - intros r x Y Hr. apply put_body.
  - set_solver.
Qed.

Lemma Intersection_ok st s other e1 e2 :
  st !! s = Some e1 → st !! other = Some e2 →
  builds (Intersection s other) (keys e1 ∩ keys e2) st.
Proof.
  intros H1 H2. destruct (smallerFirst_ok st s other e1 e2) as (a & b & ea & eb & Hs & Ha & Hb & Hor);
    [done..|]. unfold Intersection, builds. rewrite (bind_returned _ _ _ _ _ Hs). simpl.
  fold (builds (result ← New; _ ← for_entries 0 a (λ element, continue (
        c ← Contains b element; if c : bool then put result element else mret ()));
      mret result) (keys e1 ∩ keys e2) st).
  eapply builds_eq.
  - apply (builds_loop 0 a ea (λ x, bool_decide (x ∈ keys eb))); [done|].
    intros r x Y Hr. apply put_in_body; congruence.
  - apply set_eq. intros x. rewrite elem_of_filter, bool_decide_eq_true.
    destruct Hor; simplify_eq; set_solver.
Qed.

Lemma Union_ok st s other e1 e2 :
  st !! s = Some e1 → st !! other = Some e2 →
  builds (Union s other) (keys e1 ∪ keys e2) st.
Proof.
  intros H1 H2. destruct (smallerFirst_ok st s other e1 e2) as (a & b & ea & eb & Hs & Ha & Hb & Hor);
    [done..|]. unfold Union, builds. rewrite (bind_returned _ _ _ _ _ Hs). simpl.
  destruct (Clone_ok st b eb Hb) as (r & Hr & Hf). exists r. split; [|done].
  go_step by (apply Hr). assert (a ≠ r) as Hne by congruence.
  go_step by (eapply range_collect_all;
    [done | by rewrite lookup_insert_ne | apply lookup_insert_eq |];
    intros x Y; rewrite !insert_insert_eq; by apply put_body).
  rewrite insert_insert_eq. unfold mret, GoM_ret. do 3 f_equal.
  destruct Hor; simplify_eq; set_solver.
Qed.

Lemma Disjunction_ok st s other e1 e2 :
  st !! s = Some e1 → st !! other = Some e2 →
  ∃ r t, Disjunction s other st =
      (Returned r, <[r := Some ((keys e1 ∪ keys e2) ∖ (keys e1 ∩ keys e2))]>
                   (<[t := Some (keys e1 ∩ keys e2)]> st)) ∧
    st !! r = None ∧ st !! t = None ∧ r ≠ t.
Proof.
  intros H1 H2. unfold Disjunction.
  destruct (Union_ok st s other e1 e2) as (r & Hr & Hf); [done..|]. go_step by (apply Hr).
  destruct (Intersection_ok (<[r := Some (keys e1 ∪ keys e2)]> st) s other e1 e2)
    as (t & Ht & Hft); [by rewrite lookup_insert_ne by congruence..|].
  go_step by (apply Ht).
  assert (r ≠ t) as Hne by (intros ->; by rewrite lookup_insert_eq in Hft).
  exists r, t. rewrite lookup_insert_ne in Hft by done. split_and!; [|done..].
  rewrite insert_insert_ne by done.
  go_step by (eapply range_delete; [by rewrite lookup_insert_ne, lookup_insert_eq |
    apply lookup_insert_eq]).
  by rewrite insert_insert_eq.
Qed.

(** *** Methods that update the receiver *)

Lemma Update_ok st s other e1 e2 :
  st !! s = Some e1 → st !! other = Some e2 →
  Update s other st = (Returned tt, <[s := Some (keys e1 ∪ keys e2)]> st).
Proof.
  intros H1 H2. unfold Update, ignore. go_step by (by apply ensureEntries_ok).
  destruct (decide (s = other)) as [<-|Hne].
  - simplify_eq. go_step by (eapply range_add; apply lookup_insert_eq).
    by rewrite insert_insert_eq.
  - go_step by (eapply range_add; [by rewrite lookup_insert_ne | apply lookup_insert_eq]).
    by rewrite insert_insert_eq.
Qed.

Lemma DifferenceUpdate_ok st s other e1 e2 :
  st !! s = Some e1 → st !! other = Some e2 →
  DifferenceUpdate s other st = (Returned tt, <[s := (λ X, X ∖ keys e2) <$> e1]> st).
Proof.
  intros H1 H2. unfold DifferenceUpdate, ignore. by go_step by (by eapply range_delete).
Qed.

Lemma RemoveFunc_ok st s e p :
  st !! s = Some e →
  RemoveFunc s p st = (Returned tt, <[s := (filter (λ x, p x = false)) <$> e]> st).
Proof.
  intros Hs. unfold RemoveFunc, ignore.
  assert (for_entries 0 s (λ x, continue (go_when (p x) (del s x))) st =
    (Returned None, <[s := (λ X, X ∖ list_to_set (filter (λ x, p x = true)
      (set_range 0 (keys e)))) <$> e]> st)) as Hl.
  { apply (range_update 0 s s e e (λ v, (λ X, X ∖ list_to_set (filter (λ x, p x = true) v))
      <$> e)); [done|done| | |].
    - destruct e; simpl; [|done]. f_equal. set_solver.
    - intros _ v x todo [Hx Hv]%range_split_fresh. destruct e as [X|]; simpl in *; [|done].
      rewrite elem_of_difference, elem_of_list_to_set, list_elem_of_filter. tauto.
    - intros v x todo _. unfold continue, go_when. rewrite filter_app. destruct (p x) eqn:Hp.
      + go_step by (apply del_ok, lookup_insert_eq).
        rewrite insert_insert_eq. unfold mret, GoM_ret. do 2 f_equal.
        rewrite filter_cons_True, filter_nil by done. destruct e; simpl; [|done]. f_equal. set_solver.
      + rewrite filter_cons_False, filter_nil, app_nil_r by congruence. done. }
  go_step by (apply Hl). unfold mret, GoM_ret. do 2 f_equal. destruct e as [X|]; simpl; [|done].
  f_equal. apply set_eq. intros x.
  rewrite elem_of_difference, elem_of_list_to_set, list_elem_of_filter, elem_of_filter,
    elem_of_set_range. simpl. destruct (p x); naive_solver.
Qed.

Lemma IntersectionUpdate_ok st s other e1 e2 :
  st !! s = Some e1 → st !! other = Some e2 →
  ∃ t, IntersectionUpdate s other st =
      (Returned tt, <[s := Some (keys e1 ∩ keys e2)]> (<[t := Some (keys e1 ∩ keys e2)]> st)) ∧
    st !! t = None.
Proof.
  intros H1 H2. destruct (smallerFirst_ok st s other e1 e2) as (a & b & ea & eb & Hs & Ha & Hb & Hor);
    [done..|]. unfold IntersectionUpdate. rewrite (bind_returned _ _ _ _ _ Hs). simpl.
  destruct (alloc_ok st (Some ∅)) as (t & Ht & Hf). exists t. split; [|done].
  go_step by (apply Ht). assert (a ≠ t ∧ b ≠ t ∧ s ≠ t) as (Hat & Hbt & Hst) by (split_and!; congruence).
  go_step by (eapply (range_collect 0 a t ea ∅ (λ x, bool_decide (x ∈ keys eb)));
    [done | by rewrite lookup_insert_ne | apply lookup_insert_eq |];
    intros x Y; rewrite !insert_insert_eq; by apply put_in_body).
  rewrite insert_insert_eq. go_step by (apply load_ok, lookup_insert_eq).
  erewrite assign_ok by by rewrite lookup_insert_ne.
  assert (filter (λ x, bool_decide (x ∈ keys eb) = true) (keys ea) ∪ ∅ = keys e1 ∩ keys e2) as ->;
    [|done].
  apply set_eq. intros x. rewrite elem_of_union, elem_of_filter, bool_decide_eq_true.
  destruct Hor; simplify_eq; set_solver.
Qed.

(** The receiver after [DisjunctionUpdate] has visited the elements [v]. *)
Definition toggle (X : gset K) (v : list K) : cell :=
  Some ((X ∖ list_to_set v) ∪ (list_to_set v ∖ X)).

Lemma toggle_body s X v x st :
  x ∉ v →
  continue (c ← Contains s x; if c : bool then del s x else put s x) (<[s := toggle X v]> st) =
    (Returned None, <[s := toggle X (v ++ [x])]> st).
Proof.
  intros Hv. unfold continue, toggle. unfold mbind at 1, GoM_bind at 1.
  rewrite (bind_returned _ _ _ _ _ (Contains_ok _ s _ x (lookup_insert_eq _ _ _))).
  case_bool_decide as Hx; simpl in Hx;
    [erewrite del_ok by apply lookup_insert_eq | erewrite put_ok by apply lookup_insert_eq];
    rewrite !insert_insert_eq; unfold mret, GoM_ret; simpl; do 3 f_equal;
    rewrite list_to_set_app_L; apply set_eq; intros y; destruct (decide (y = x)); set_solver.
Qed.

Lemma DisjunctionUpdate_ok st s other e1 e2 :
  st !! s = Some e1 → st !! other = Some e2 →
  DisjunctionUpdate s other st =
    (Returned tt, <[s := Some ((keys e1 ∖ keys e2) ∪ (keys e2 ∖ keys e1))]> st).
Proof.
  intros H1 H2. unfold DisjunctionUpdate. case_decide as Heq.
  { subst. simplify_eq. unfold Clear. erewrite assign_ok by done. do 3 f_equal. set_solver. }
  go_step by (by apply ensureEntries_ok). unfold ignore.
  go_step by (apply (range_update 0 other s e2 (Some (keys e1)) (toggle (keys e1)));
    [by rewrite lookup_insert_ne | apply lookup_insert_eq | unfold toggle; f_equal; set_solver |
     done |]; intros v x todo [_ Hv]%range_split_fresh; rewrite !insert_insert_eq;
     by apply toggle_body).
  unfold toggle.
  rewrite insert_insert_eq, set_range_to_set. done.
Qed.

(** *** Sequences *)

(** The values a sequence yields, as a set. *)
Definition yields st (seq : Seq K) : gset K :=
  match seq with
  | SeqList l => list_to_set l
  | SeqAll s => default ∅ (keys <$> st !! s)
  end.

(** Every set the sequence reads is allocated. *)
Definition seq_valid st (seq : Seq K) : Prop :=
  match seq with SeqList _ => True | SeqAll s => is_Some (st !! s) end.

Lemma list_loop_update t (upd : list K → cell) (body : K → M (option Empty_set)) l v st :
  (∀ v x, body x (<[t := upd v]> st) = (Returned None, <[t := upd (v ++ [x])]> st)) →
  list_loop body l (<[t := upd v]> st) = (Returned None, <[t := upd (v ++ l)]> st).
Proof.
  intros Hb. revert v. induction l as [|x l IH]; intros v; simpl; [by rewrite app_nil_r|].
  go_step by (apply Hb). rewrite IH. by rewrite <- app_assoc.
Qed.

Lemma AddAll_ok st s e seq :
  st !! s = Some e → seq_valid st seq →
  AddAll s seq st = (Returned tt, <[s := Some (keys e ∪ yields st seq)]> st).
Proof.
  intros Hs Hv. destruct seq as [l|t]; [|destruct Hv as [e' He']].
  - unfold AddAll, ignore. go_step by (by apply ensureEntries_ok). simpl.
    pose proof (list_loop_update s (λ v, Some (keys e ∪ list_to_set v))
      (λ x, continue (put s x)) l [] st) as Hl. simpl in Hl. rewrite (right_id_L ∅ _) in Hl.
    go_step by (apply Hl; intros v x; rewrite put_body; do 3 f_equal; set_solver). done.
  - simpl. rewrite He'. simpl. by apply Update_ok.
Qed.

Lemma RemoveAll_ok st s e seq :
  st !! s = Some e → seq_valid st seq →
  RemoveAll s seq st = (Returned tt, <[s := (λ X, X ∖ yields st seq) <$> e]> st).
Proof.
  intros Hs Hv. destruct seq as [l|t]; [|destruct Hv as [e' He']].
  - unfold RemoveAll, ignore. simpl.
    pose proof (list_loop_update s (λ v, (λ X, X ∖ list_to_set v) <$> e)
      (λ x, continue (del s x)) l [] st) as Hl. simpl in Hl.
    assert ((λ X : gset K, X ∖ ∅) <$> e = e) as Hnil.
    { destruct e; simpl; [|done]. f_equal. set_solver. }
    rewrite Hnil, insert_id in Hl by done.
    go_step by (apply Hl; intros v x; unfold continue;
      go_step by (apply del_ok, lookup_insert_eq); rewrite insert_insert_eq;
      unfold mret, GoM_ret; do 2 f_equal; destruct e; simpl; [|done]; f_equal; set_solver).
    done.
  - simpl. rewrite He'. simpl. by apply DifferenceUpdate_ok.
Qed.

Lemma Of_ok st l : builds (Of l) (list_to_set l) st.
Proof.
  destruct (alloc_ok st (Some ∅)) as (r & Hr & Hf). exists r. split; [|done].
  unfold Of. go_step by (apply Hr).
  pose proof (list_loop_update r (λ v, Some (list_to_set v)) (λ x, continue (Add r x)) l [] st)
    as Hl. simpl in Hl.
  go_step by (apply Hl; intros v x; unfold continue, Add; unfold mbind at 1, GoM_bind at 1;
    rewrite (bind_returned _ _ _ _ _ (ensureEntries_ok _ r _ (lookup_insert_eq _ _ _)));
    rewrite insert_insert_eq; erewrite put_ok by apply lookup_insert_eq;
    rewrite insert_insert_eq; unfold mret, GoM_ret; do 3 f_equal; simpl; set_solver).
  done.
Qed.

Lemma Collect_ok st seq :
  seq_valid st seq → builds (Collect seq) (yields st seq) st.
Proof.
  intros Hv. destruct (alloc_ok st (Some ∅)) as (r & Hr & Hf). exists r. split; [|done].
  unfold Collect, New. go_step by (apply Hr).
  assert (seq_valid (<[r := Some ∅]> st) seq ∧ yields (<[r := Some ∅]> st) seq = yields st seq)
    as [Hv' Hy].
  { destruct seq as [|s]; [done|]. simpl in *. destruct Hv as [e He].
    rewrite lookup_insert_ne by congruence. rewrite He. split; [by eexists|done]. }
  go_step by (eapply AddAll_ok; [apply lookup_insert_eq | done]).
  rewrite insert_insert_eq, Hy. simpl. by rewrite (left_id_L ∅ _).
Qed.

(** *** Queries *)

(** A search loop, which reads the store and leaves at the first hit. *)
Lemma range_loop_search {R} s e (test : K → bool) (v : R) body l st :
  st !! s = Some e → (∀ x, x ∈ l → x ∈ keys e) →
  (∀ x, body x st = (Returned (if test x then Some v else None), st)) →
  range_loop s body l st =
    (Returned (if existsb test l then Some v else None), st).
Proof.
  intros Hs Hin Hb. induction l as [|x l IH]; simpl; [done|].
  go_step by (by apply load_ok). rewrite decide_True by (apply Hin; left).
  go_step by (apply Hb). destruct (test x); simpl; [done|]. apply IH. set_solver.
Qed.

Lemma for_entries_search {R} i s e (test : K → bool) (v : R) body st :
  st !! s = Some e →
  (∀ x, body x st = (Returned (if test x then Some v else None), st)) →
  for_entries i s body st =
    (Returned (if bool_decide (∃ x, x ∈ keys e ∧ test x = true) then Some v else None), st).
Proof.
  intros Hs Hb. unfold for_entries. go_step by (by apply load_ok).
  erewrite range_loop_search by (done || intros x Hx; by apply (elem_of_set_range i)).
  do 2 f_equal. assert (existsb test (set_range i (keys e)) = true ↔
    ∃ x, x ∈ keys e ∧ test x = true) as Hiff.
  { rewrite existsb_exists. setoid_rewrite <- (elem_of_set_range i).
    by setoid_rewrite list_elem_of_In. }
  case_bool_decide; destruct (existsb _ _); naive_solver.
Qed.

Lemma contains_all_ok st s e1 seq :
  st !! s = Some e1 → seq_valid st seq →
  ContainsAll s seq st = (Returned (bool_decide (yields st seq ⊆ keys e1)), st).
Proof.
  intros Hs Hv. unfold ContainsAll.
  assert (∀ x, (c ← Contains s x; mret (if c : bool then None else Some false)) st =
    (Returned (if bool_decide (x ∉ keys e1) then Some false else None), st)) as Hb.
  { intros x. go_step by (by apply Contains_ok). rewrite bool_decide_not.
    by destruct (bool_decide _). }
  destruct seq as [l|t]; simpl.
  - assert (list_loop (λ x, c ← Contains s x; mret (if c : bool then None else Some false)) l st =
      (Returned (if bool_decide (list_to_set l ⊆ keys e1) then None else Some false), st)) as Hl.
    { induction l as [|x l IH]; simpl.
      - by rewrite bool_decide_true by set_solver.
      - go_step by (apply Hb). destruct (bool_decide (x ∉ keys e1)) eqn:Hx;
          [apply bool_decide_eq_true in Hx | apply bool_decide_eq_false in Hx].
        + rewrite bool_decide_false; [done|]. intros Hsub. set_solver.
        + rewrite IH by done.
          assert (list_to_set l ⊆ keys e1 ↔ {[x]} ∪ list_to_set l ⊆ keys e1) as Hiff.
          { apply dec_stable in Hx. set_solver. }
          by rewrite (bool_decide_ext _ _ Hiff). }
    go_step by (apply Hl). by destruct (bool_decide _).
  - destruct Hv as [e2 He]. rewrite He. simpl.
    go_step by (by eapply (for_entries_search 0 t e2 (λ x, bool_decide (x ∉ keys e1)))).
    unfold mret, GoM_ret. do 2 f_equal.
    case_bool_decide as H1; case_bool_decide as H2; try done; exfalso.
    + destruct H1 as (x & Hx & Hn%bool_decide_eq_true). set_solver.
    + apply H2. intros x Hx. destruct (decide (x ∈ keys e1)); [done|]. destruct H1.
      exists x. by rewrite bool_decide_true.
Qed.

Lemma IsSubset_ok st s other e1 e2 :
  st !! s = Some e1 → st !! other = Some e2 →
  IsSubset s other st = (Returned (bool_decide (keys e1 ⊆ keys e2)), st).
Proof.
  intros H1 H2. unfold IsSubset, All. go_step by (by apply len_entries_ok).
  go_step by (by apply len_entries_ok). destruct (_ <? _)%nat eqn:Hlt.
  - apply Nat.ltb_lt in Hlt. rewrite bool_decide_false; [done|].
    intros ?%subseteq_size. lia.
  - rewrite (contains_all_ok st other e2) by (done || by eexists). simpl. by rewrite H1.
Qed.

Lemma Equals_ok st s other e1 e2 :
  st !! s = Some e1 → st !! other = Some e2 →
  Equals s other st = (Returned (bool_decide (keys e1 = keys e2)), st).
Proof.
  intros H1 H2. unfold Equals. go_step by (by apply len_entries_ok).
  go_step by (by apply len_entries_ok). destruct (_ =? _)%nat eqn:Heq.
  - apply Nat.eqb_eq in Heq. erewrite IsSubset_ok by done. do 2 f_equal.
    apply bool_decide_ext. split; [|set_solver].
    intros Hsub. apply set_subseteq_size_eq; [done|lia].
  - apply Nat.eqb_neq in Heq. rewrite bool_decide_false; [done|]. congruence.
Qed.

Lemma IsDisjoint_ok st s other e1 e2 :
  st !! s = Some e1 → st !! other = Some e2 →
  IsDisjoint s other st = (Returned (bool_decide (keys e1 ## keys e2)), st).
Proof.
  intros H1 H2. destruct (smallerFirst_ok st s other e1 e2) as (a & b & ea & eb & Hs & Ha & Hb & Hor);
    [done..|]. unfold IsDisjoint. rewrite (bind_returned _ _ _ _ _ Hs). simpl.
  go_step by (eapply (for_entries_search 0 a ea (λ x, bool_decide (x ∈ keys eb))); [done|];
    intros x; by go_step by (by apply Contains_ok)).
  unfold mret, GoM_ret. do 2 f_equal.
  assert ((∃ x, x ∈ keys ea ∧ bool_decide (x ∈ keys eb) = true) ↔ ¬ keys e1 ## keys e2) as Hiff.
  { assert ((∃ x, x ∈ keys ea ∧ bool_decide (x ∈ keys eb) = true) ↔ keys e1 ∩ keys e2 ≢ ∅) as ->.
    { setoid_rewrite bool_decide_eq_true. split.
      - intros (x & Hx & Hy). destruct Hor; simplify_eq; set_solver.
      - intros [x Hx]%set_choose. exists x. destruct Hor; simplify_eq; set_solver. }
    by rewrite disjoint_intersection. }
  case_bool_decide; case_bool_decide; naive_solver.
Qed.

Lemma ContainsFunc_ok st s e p :
  st !! s = Some e →
  ContainsFunc s p st = (Returned (bool_decide (∃ x, x ∈ keys e ∧ p x = true)), st).
Proof.
  intros Hs. unfold ContainsFunc. go_step by (by eapply (for_entries_search 0 s e p true)).
  by destruct (bool_decide _).
Qed.

Lemma ToSlice_ok st s e :
  st !! s = Some e → ToSlice s st = (Returned (set_range 0 (keys e)), st).
Proof.
  intros Hs. unfold ToSlice. go_step by (by apply load_ok). unfold mret, GoM_ret. do 2 f_equal.
  by rewrite snoc_fold.
Qed.

(** ** Properties *)

(** C35. The set operations that return a new set compute union, intersection, difference,
    symmetric difference, a copy, and the elements that satisfy a predicate. The result is a
    fresh set, no existing set changes, and the receiver may be its own argument. [Disjunction]
    also leaves behind the intersection it allocated. *)
Theorem set_algebra_spec st s other e1 e2 p :
  st !! s = Some e1 → st !! other = Some e2 →
  builds (Difference s other) (keys e1 ∖ keys e2) st ∧
  builds (Intersection s other) (keys e1 ∩ keys e2) st ∧
  builds (Union s other) (keys e1 ∪ keys e2) st ∧
  builds (Clone s) (keys e1) st ∧
  builds (Filter s p) (filter (λ x, p x = true) (keys e1)) st ∧
  ∃ r t, Disjunction s other st =
      (Returned r, <[r := Some ((keys e1 ∪ keys e2) ∖ (keys e1 ∩ keys e2))]>
                   (<[t := Some (keys e1 ∩ keys e2)]> st)) ∧
    st !! r = None ∧ st !! t = None ∧ r ≠ t.
Proof.
  intros H1 H2. split_and!; eauto using Difference_ok, Intersection_ok, Union_ok, Clone_ok,
    Filter_ok, Disjunction_ok.
Qed.

(** C36. The in-place operations change the receiver alone, to the union, difference,
    intersection, symmetric difference or filtered set; this holds also when the receiver is
    passed as its own argument. Removing from a zero-value set leaves its nil map, and
    [IntersectionUpdate] leaves only the replaced map behind. *)
Theorem set_update_spec st s other e1 e2 p :
  st !! s = Some e1 → st !! other = Some e2 →
  Update s other st = (Returned tt, <[s := Some (keys e1 ∪ keys e2)]> st) ∧
  DifferenceUpdate s other st = (Returned tt, <[s := (λ X, X ∖ keys e2) <$> e1]> st) ∧
  DisjunctionUpdate s other st =
    (Returned tt, <[s := Some ((keys e1 ∖ keys e2) ∪ (keys e2 ∖ keys e1))]> st) ∧
  RemoveFunc s p st = (Returned tt, <[s := filter (λ x, p x = false) <$> e1]> st) ∧
  ∃ t, IntersectionUpdate s other st =
      (Returned tt, <[s := Some (keys e1 ∩ keys e2)]> (<[t := Some (keys e1 ∩ keys e2)]> st)) ∧
    st !! t = None.
Proof.
  intros H1 H2. split_and!; eauto using Update_ok, DifferenceUpdate_ok, DisjunctionUpdate_ok,
    RemoveFunc_ok, IntersectionUpdate_ok.
Qed.

(** C37. The queries decide membership, inclusion both ways, equality and disjointness of the
    element sets without changing the store, and [ToSlice] lists every element once. *)
Theorem set_query_spec st s other e1 e2 x p :
  st !! s = Some e1 → st !! other = Some e2 →
  Contains s x st = (Returned (bool_decide (x ∈ keys e1)), st) ∧
  ContainsFunc s p st = (Returned (bool_decide (∃ y, y ∈ keys e1 ∧ p y = true)), st) ∧
  IsSubset s other st = (Returned (bool_decide (keys e1 ⊆ keys e2)), st) ∧
  IsSuperset s other st = (Returned (bool_decide (keys e2 ⊆ keys e1)), st) ∧
  Equals s other st = (Returned (bool_decide (keys e1 = keys e2)), st) ∧
  IsDisjoint s other st = (Returned (bool_decide (keys e1 ## keys e2)), st) ∧
  Len s st = (Returned (size (keys e1)), st) ∧
  ∃ l, ToSlice s st = (Returned l, st) ∧ NoDup l ∧ ∀ y, y ∈ l ↔ y ∈ keys e1.
Proof.
  intros H1 H2. unfold IsSuperset, Len.
  split_and!; eauto using Contains_ok, ContainsFunc_ok, IsSubset_ok, Equals_ok, IsDisjoint_ok,
    len_entries_ok.
  eexists. split_and!; [by apply ToSlice_ok | apply set_range_NoDup | apply elem_of_set_range].
Qed.

(** The sequence forms: [Of] and [Collect] build the set of the yielded values, [AddAll]
    and [RemoveAll] add and remove them, and [ContainsAll] tests them, for a list of values and
    for [All] of any set, so [s.AddAll(s.All())] keeps [s] and [s.RemoveAll(s.All())] empties it. *)
Theorem set_seq_spec st s e1 seq :
  st !! s = Some e1 → seq_valid st seq →
  builds (Collect seq) (yields st seq) st ∧
  AddAll s seq st = (Returned tt, <[s := Some (keys e1 ∪ yields st seq)]> st) ∧
  RemoveAll s seq st = (Returned tt, <[s := (λ X, X ∖ yields st seq) <$> e1]> st) ∧
  ContainsAll s seq st = (Returned (bool_decide (yields st seq ⊆ keys e1)), st) ∧
  (∀ l, builds (Of l) (list_to_set l) st) ∧
  RemoveAll s (All s) st = (Returned tt, <[s := (λ _, ∅) <$> e1]> st).
Proof.
  intros H1 Hv. split_and!; eauto using Collect_ok, AddAll_ok, RemoveAll_ok, contains_all_ok, Of_ok.
  unfold All. rewrite (RemoveAll_ok st s e1) by (done || by eexists). simpl. rewrite H1. simpl.
  do 2 f_equal. destruct e1; simpl; [|done]. f_equal. set_solver.
Qed.
End set.

(** ** Witnesses *)

Section witnesses.

Definition demo_store : gmap loc (option (gset nat)) :=
  {[1%positive := Some {[1; 2]}%nat; 2%positive := Some {[2; 3]}%nat; 3%positive := None]}.

#[local] Existing Instance alternating_range.

Lemma set_algebra_witness :
  ∃ r, Difference 1%positive 2%positive demo_store =
         (Returned r, <[r := Some ({[1; 2]} ∖ {[2; 3]})%nat]> demo_store).
Proof.
  destruct (set_algebra_spec demo_store 1%positive 2%positive (Some {[1; 2]})%nat
    (Some {[2; 3]})%nat (λ _, true)) as ((r & Hr & _) & _); [reflexivity | reflexivity |].
  exists r. exact Hr.
Defined.

Lemma set_update_witness :
  Update 3%positive 1%positive demo_store =
    (Returned tt, <[3%positive := Some (∅ ∪ {[1; 2]})%nat]> demo_store).
Proof.
  destruct (set_update_spec demo_store 3%positive 1%positive None (Some {[1; 2]})%nat
    (λ _, true)) as (Hu & _); [reflexivity | reflexivity |]. exact Hu.
Defined.

Lemma set_query_witness :
  IsSubset 1%positive 2%positive demo_store =
    (Returned (bool_decide (({[1%nat; 2%nat]} : gset nat) ⊆ {[2%nat; 3%nat]})), demo_store).
Proof.
  destruct (set_query_spec demo_store 1%positive 2%positive (Some {[1; 2]})%nat
    (Some {[2; 3]})%nat 0%nat (λ _, true)) as (_ & _ & Hq & _); [reflexivity | reflexivity |].
  exact Hq.
Defined.

Lemma set_seq_witness :
  RemoveAll 1%positive (All 1%positive) demo_store =
    (Returned tt, <[1%positive := Some ∅]> demo_store).
Proof.
  destruct (set_seq_spec demo_store 1%positive (Some {[1; 2]})%nat (SeqList [4%nat]))
    as (_ & _ & _ & _ & _ & Hr); [reflexivity | exact I |]. exact Hr.
Defined.
End witnesses.
End GoSet.
