(* ===== verification/Buffer.v ===== *)
(** * Package buffer (src/buffer/buffer.go, pool.go, bytes_buffer.go)

    [Buffer] is the struct, and its methods are in the state-and-panic monad, with [int] arithmetic
    wrapping at 64 bits and every slice expression checked against the bounds Go checks. A slice
    that shares the backing array ([Slice], [Grow], [AvailableBuffer]) is a [view] of it: an
    offset, a length and a capacity. *)

From Stdlib Require Import Strings.Byte.
From stdpp Require Import prelude list gmap strings.
From S2P Require Import Prelude.

Module Buffer.

Record Buffer (T : Type) := MkBuffer {
  data : list T;
  start : Z;
  length_ : Z;
  highWater : Z;
}.
Arguments MkBuffer {T} _ _ _ _.
Arguments data {T} _.
Arguments start {T} _.
Arguments length_ {T} _.
Arguments highWater {T} _.

Record view := View { off : Z; vlen : Z; vcap : Z }.

(** What a caller hands to [Append]: a slice of its own, or a view of the same backing array. *)
Inductive source (T : Type) :=
| Outside (values : list T)
| Inside (v : view).
Arguments Outside {T} _.
Arguments Inside {T} _.

Section buffer.
Context {T : Type} (zero : T).
Abbreviation M := (GoM (Buffer T)).
Implicit Types b : Buffer T.

Definition set_data (d : list T) b := MkBuffer d (start b) (length_ b) (highWater b).
Definition set_start (s : Z) b := MkBuffer (data b) s (length_ b) (highWater b).
Definition set_length (n : Z) b := MkBuffer (data b) (start b) n (highWater b).
Definition set_highWater (h : Z) b := MkBuffer (data b) (start b) (length_ b) h.

Definition NewBuffer (capacity : Z) : outcome (Buffer T) :=
  if capacity <? 0 then Panicked "buffer: negative capacity"
  else Returned (MkBuffer (replicate (Z.to_nat capacity) zero) 0 0 0).

Definition Len b : Z := length_ b.
Definition Cap b : Z := len (data b).
Definition Available b : Z := Cap b -i length_ b.

(** The bounds check of [b.data[i:j]]. *)
Definition check_slice (i j : Z) : M unit :=
  b ← go_get; if in_slice (data b) i j then mret () else go_panic slice_bounds.

(** [clear(b.data[i:j])]. *)
Definition clear_slice (i j : Z) : M unit :=
  _ ← check_slice i j; go_modify (λ b, set_data (clear_range zero i j (data b)) b).

Definition raiseHighWater (end_ : Z) : M unit :=
  b ← go_get; go_when (highWater b <? end_) (go_modify (set_highWater end_)).

Definition checkCount (count : Z) (operation : string) : M unit :=
  b ← go_get;
  if (count <? 0) || (length_ b <? count)
  then go_panic ("buffer: " +:+ operation +:+ " out of range") else mret ().

Definition resetStartIfEmpty : M unit :=
  b ← go_get; go_when (length_ b =? 0) (go_modify (set_start 0)).

Definition AvailableBuffer : M view :=
  b ← go_get;
  let end_ := start b +i length_ b in
  _ ← raiseHighWater (Cap b);
  _ ← check_slice end_ end_;
  mret (View end_ 0 (Cap b -i end_)).

Definition Slice : M view :=
  b ← go_get;
  let end_ := start b +i length_ b in
  _ ← check_slice (start b) end_;
  mret (View (start b) (end_ -i start b) (end_ -i start b)).

Definition Reset : M unit := go_modify (λ b, set_length 0 (set_start 0 b)).

Definition ResetAndZero : M unit :=
  b ← go_get;
  _ ← clear_slice (start b) (start b +i length_ b);
  go_modify (λ b, set_length 0 (set_start 0 b)).

Definition Truncate (newLength : Z) : M unit :=
  _ ← checkCount newLength "truncate";
  _ ← go_modify (set_length newLength);
  resetStartIfEmpty.

Definition TruncateAndZero (newLength : Z) : M unit :=
  _ ← checkCount newLength "truncate";
  b ← go_get;
  _ ← clear_slice (start b +i newLength) (start b +i length_ b);
  _ ← go_modify (set_length newLength);
  resetStartIfEmpty.

Definition Consume (count : Z) : M unit :=
  _ ← checkCount count "consume";
  _ ← go_modify (λ b, set_start (start b +i count) b);
  _ ← go_modify (λ b, set_length (length_ b -i count) b);
  resetStartIfEmpty.

Definition ConsumeAndZero (count : Z) : M unit :=
  _ ← checkCount count "consume";
  b ← go_get;
  _ ← clear_slice (start b) (start b +i count);
  _ ← go_modify (λ b, set_start (start b +i count) b);
  _ ← go_modify (λ b, set_length (length_ b -i count) b);
  resetStartIfEmpty.

Definition ConsumeRight (count : Z) : M unit :=
  _ ← checkCount count "consume";
  b ← go_get;
  Truncate (length_ b -i count).

Definition ConsumeRightAndZero (count : Z) : M unit :=
  _ ← checkCount count "consume";
  b ← go_get;
  TruncateAndZero (length_ b -i count).

(** The elements [copy] reads when it runs. *)
Definition source_values b (src : source T) : list T :=
  match src with
  | Outside values => values
  | Inside v => sub (data b) (off v) (off v + vlen v)
  end.

Definition source_len (src : source T) : Z :=
  match src with Outside values => len values | Inside v => vlen v end.

(** [copy] moves overlapping ranges as if through a temporary. *)
Definition Compact : M unit :=
  b ← go_get;
  if (start b =? 0) || (length_ b =? 0) then go_modify (set_start 0)
  else
    let oldStart := start b in
    let oldLength := length_ b in
    _ ← check_slice 0 oldLength;
    _ ← check_slice oldStart (oldStart +i oldLength);
    _ ← go_modify (λ b,
          set_data (copy_at 0 (sub (data b) oldStart (oldStart +i oldLength)) (data b)) b);
    go_modify (set_start 0).

Definition CompactAndZero : M unit :=
  b ← go_get;
  _ ← go_when ((0 <? start b) && (0 <? length_ b)) (
        _ ← check_slice 0 (length_ b);
        _ ← check_slice (start b) (start b +i length_ b);
        go_modify (λ b,
          set_data (copy_at 0 (sub (data b) (start b) (start b +i length_ b)) (data b)) b));
  _ ← go_modify (set_start 0);
  b ← go_get;
  _ ← go_when (length_ b <? highWater b) (clear_slice (length_ b) (highWater b));
  go_modify (λ b, set_highWater (length_ b) b).

Definition Append (src : source T) : M unit :=
  b ← go_get;
  let count := source_len src in
  if count =? 0 then mret ()
  else if Cap b <? length_ b +i count then go_panic "buffer: append would exceed capacity"
  else
    let tail := Cap b -i (start b +i length_ b) in
    _ ← go_when (tail <? count) Compact;
    b ← go_get;
    _ ← check_slice (start b +i length_ b) (Cap b);
    _ ← go_modify (λ b,
          set_data (copy_at (start b +i length_ b) (source_values b src) (data b)) b);
    _ ← go_modify (λ b, set_length (length_ b +i count) b);
    b ← go_get;
    raiseHighWater (start b +i length_ b).

Definition grow (count : Z) (shouldZero : bool) : M view :=
  b ← go_get;
  if count <? 0 then go_panic "buffer: negative grow"
  else if Cap b <? length_ b +i count then go_panic "buffer: grow would exceed capacity"
  else
    let tail := Cap b -i (start b +i length_ b) in
    _ ← go_when (tail <? count) (if shouldZero then CompactAndZero else Compact);
    b ← go_get;
    let start_ := start b +i length_ b in
    let end_ := start_ +i count in
    _ ← go_modify (λ b, set_length (length_ b +i count) b);
    _ ← go_when shouldZero (clear_slice start_ end_);
    _ ← raiseHighWater end_;
    _ ← check_slice start_ end_;
    mret (View start_ (end_ -i start_) (end_ -i start_)).

Definition Grow (count : Z) : M view := grow count false.
Definition GrowAndZero (count : Z) : M view := grow count true.

Definition resetAndZeroAll : M unit :=
  b ← go_get;
  _ ← clear_slice 0 (highWater b);
  go_modify (λ b, set_highWater 0 (set_length 0 (set_start 0 b))).

(** A store through a view at index [i], as the holder of the slice makes it. *)
Definition view_store (v : view) (i : Z) (x : T) : M unit :=
  if (0 <=? i) && (i <? vlen v) then
    go_modify (λ b, set_data (<[Z.to_nat (off v + i) := x]> (data b)) b)
  else go_panic "runtime error: index out of range".

(** [append(v, xs...)] on a view with room: it extends the view over the backing array. *)
Definition view_append (v : view) (xs : list T) : M view :=
  _ ← go_modify (λ b, set_data (copy_at (off v + vlen v) xs (data b)) b);
  mret (View (off v) (vlen v + len xs) (vcap v)).

(** ** Well-formed buffers *)

(** The comment on [highWater] as an invariant, with the offsets in range and an empty buffer at
    offset 0. *)
Record wf b : Prop := {
  wf_start : 0 <= start b;
  wf_length : 0 <= length_ b;
  wf_live : start b + length_ b <= highWater b;
  wf_high : highWater b <= Cap b;
  wf_cap : Cap b <= maxInt;
  wf_empty : length_ b = 0 → start b = 0;
  wf_zero : ∀ (i : nat) x, highWater b <= Z.of_nat i → data b !! i = Some x → x = zero;
}.

(** The live elements. *)
Definition contents b : list T := sub (data b) (start b) (start b + length_ b).

(** *** Closed forms of the methods on a well-formed buffer *)

Definition norm (s n : Z) : Z := if n =? 0 then 0 else s.

Ltac wf_facts Hwf :=
  pose proof (wf_start _ Hwf); pose proof (wf_length _ Hwf); pose proof (wf_live _ Hwf);
  pose proof (wf_high _ Hwf); pose proof (wf_cap _ Hwf); pose proof (wf_empty _ Hwf).

Lemma check_slice_ok b i j :
  0 <= i <= j → j <= Cap b → check_slice i j b = (Returned tt, b).
Proof.
  intros Hi Hj. unfold check_slice. go_step by done.
  by rewrite (proj2 (in_slice_true _ _ _)).
Qed.

Lemma check_slice_bad b i j :
  ¬ (0 <= i <= j ∧ j <= Cap b) → check_slice i j b = (Panicked slice_bounds, b).
Proof.
  intros Hi. unfold check_slice. go_step by done. by rewrite (proj2 (in_slice_false _ _ _)).
Qed.

Lemma clear_slice_ok b i j :
  0 <= i <= j → j <= Cap b →
  clear_slice i j b = (Returned tt, set_data (clear_range zero i j (data b)) b).
Proof. intros Hi Hj. unfold clear_slice. by go_step by (by apply check_slice_ok). Qed.

Lemma raiseHighWater_eq b e :
  raiseHighWater e b = (Returned tt, set_highWater (Z.max (highWater b) e) b).
Proof.
  unfold raiseHighWater. go_step by done. destruct b as [d s n h]; simpl.
  unfold go_when. destruct (Z.ltb_spec h e); simpl.
  - unfold go_modify, set_highWater; simpl. do 2 f_equal. lia.
  - unfold set_highWater, mret, GoM_ret; simpl. do 2 f_equal. lia.
Qed.

Lemma checkCount_ok b c op : 0 <= c <= length_ b → checkCount c op b = (Returned tt, b).
Proof.
  intros Hc. unfold checkCount. go_step by done.
  destruct (Z.ltb_spec c 0); [lia|]. destruct (Z.ltb_spec (length_ b) c); [lia|]. done.
Qed.

Lemma checkCount_bad b c op :
  ¬ (0 <= c <= length_ b) →
  checkCount c op b = (Panicked ("buffer: " +:+ op +:+ " out of range"), b).
Proof.
  intros Hc. unfold checkCount. go_step by done.
  destruct (Z.ltb_spec c 0); [done|]. destruct (Z.ltb_spec (length_ b) c); [done|]. lia.
Qed.

Lemma resetStartIfEmpty_eq b :
  resetStartIfEmpty b = (Returned tt, set_start (norm (start b) (length_ b)) b).
Proof.
  unfold resetStartIfEmpty, norm. go_step by done. destruct b as [d s n h]; simpl.
  by destruct (n =? 0).
Qed.

Lemma Truncate_ok b m :
  0 <= m <= length_ b →
  Truncate m b = (Returned tt, MkBuffer (data b) (norm (start b) m) m (highWater b)).
Proof.
  intros Hm. unfold Truncate. go_step by (by apply checkCount_ok). go_step by done.
  by rewrite resetStartIfEmpty_eq.
Qed.

Lemma TruncateAndZero_ok b m :
  wf b → 0 <= m <= length_ b →
  TruncateAndZero m b = (Returned tt,
    MkBuffer (clear_range zero (start b + m) (start b + length_ b) (data b))
      (norm (start b) m) m (highWater b)).
Proof.
  intros Hwf Hm. wf_facts Hwf. unfold TruncateAndZero. go_step by (by apply checkCount_ok).
  go_step by done. int_simpl. go_step by (apply clear_slice_ok; lia). go_step by done.
  by rewrite resetStartIfEmpty_eq.
Qed.

Lemma Consume_ok b c :
  wf b → 0 <= c <= length_ b →
  Consume c b = (Returned tt, MkBuffer (data b) (norm (start b + c) (length_ b - c))
    (length_ b - c) (highWater b)).
Proof.
  intros Hwf Hc. wf_facts Hwf. unfold Consume. go_step by (by apply checkCount_ok).
  do 2 go_step by done. rewrite resetStartIfEmpty_eq. simpl. by int_simpl.
Qed.

Lemma ConsumeAndZero_ok b c :
  wf b → 0 <= c <= length_ b →
  ConsumeAndZero c b = (Returned tt,
    MkBuffer (clear_range zero (start b) (start b + c) (data b))
      (norm (start b + c) (length_ b - c)) (length_ b - c) (highWater b)).
Proof.
  intros Hwf Hc. wf_facts Hwf. unfold ConsumeAndZero. go_step by (by apply checkCount_ok).
  go_step by done. int_simpl. go_step by (apply clear_slice_ok; lia).
  do 2 go_step by done. rewrite resetStartIfEmpty_eq. simpl. by int_simpl.
Qed.

Lemma ConsumeRight_ok b c :
  wf b → 0 <= c <= length_ b → ConsumeRight c b = Truncate (length_ b - c) b.
Proof.
  intros Hwf Hc. wf_facts Hwf. unfold ConsumeRight. go_step by (by apply checkCount_ok).
  go_step by done. by int_simpl.
Qed.

Lemma ConsumeRightAndZero_ok b c :
  wf b → 0 <= c <= length_ b → ConsumeRightAndZero c b = TruncateAndZero (length_ b - c) b.
Proof.
  intros Hwf Hc. wf_facts Hwf. unfold ConsumeRightAndZero. go_step by (by apply checkCount_ok).
  go_step by done. by int_simpl.
Qed.

(** The backing array with the live elements moved to the front. *)
Definition moved b : list T :=
  if (start b =? 0) || (length_ b =? 0) then data b
  else copy_at 0 (contents b) (data b).

Lemma Compact_ok b :
  wf b → Compact b = (Returned tt, MkBuffer (moved b) 0 (length_ b) (highWater b)).
Proof.
  intros Hwf. wf_facts Hwf. unfold Compact, moved, contents. go_step by done.
  destruct (_ || _); [done|]. int_simpl. go_step by (apply check_slice_ok; lia).
  go_step by (apply check_slice_ok; lia). done.
Qed.

Lemma len_moved b : len (moved b) = Cap b.
Proof. unfold moved. destruct (_ || _); [done|]. apply len_copy_at. Qed.

Lemma CompactAndZero_ok b :
  wf b → CompactAndZero b = (Returned tt,
    MkBuffer (clear_range zero (length_ b) (highWater b) (moved b)) 0 (length_ b) (length_ b)).
Proof.
  intros Hwf. wf_facts Hwf. unfold CompactAndZero, moved, contents. go_step by done.
  assert (go_when ((0 <? start b) && (0 <? length_ b)) (
        _ ← check_slice 0 (length_ b);
        _ ← check_slice (start b) (start b +i length_ b);
        go_modify (λ b,
          set_data (copy_at 0 (sub (data b) (start b) (start b +i length_ b)) (data b)) b)) b
    = (Returned tt, set_data (moved b) b)) as Hm.
  { unfold moved, contents. destruct (Z.ltb_spec 0 (start b)), (Z.ltb_spec 0 (length_ b)); simpl;
      destruct (Z.eqb_spec (start b) 0), (Z.eqb_spec (length_ b) 0); try lia; simpl;
      try (by destruct b).
    int_simpl. go_step by (apply check_slice_ok; lia). go_step by (apply check_slice_ok; lia).
    unfold go_modify. by int_simpl. }
  go_step by (apply Hm). go_step by done. go_step by done. fold (moved b). simpl.
  pose proof (len_moved b) as Hlen. unfold go_when.
  destruct (Z.ltb_spec (length_ b) (highWater b)).
  - go_step by (apply clear_slice_ok; unfold Cap; simpl; lia). done.
  - go_step by done. unfold go_modify. simpl.
    assert (highWater b = length_ b) as -> by lia. do 2 f_equal. unfold set_highWater; simpl.
    f_equal. unfold clear_range. by rewrite Z.sub_diag.
Qed.

(** *** Preservation of well-formedness *)

Definition zero_from (h : Z) (d : list T) : Prop :=
  ∀ (i : nat) x, h <= Z.of_nat i → d !! i = Some x → x = zero.

Lemma zero_from_copy h d i xs :
  zero_from h d → 0 <= i → i + len xs <= len d → i + len xs <= h → zero_from h (copy_at i xs d).
Proof.
  intros Hz Hi Hl Hh k x Hk. rewrite lookup_copy_at by lia. case_decide; [lia|]. by apply Hz.
Qed.

Lemma zero_from_clear h d i j :
  zero_from h d → 0 <= i <= j → j <= len d → zero_from h (clear_range zero i j d).
Proof.
  intros Hz Hi Hj k x Hk. rewrite lookup_clear_range by lia. case_decide; [congruence|].
  by apply Hz.
Qed.

Lemma zero_from_mono h h' d : zero_from h d → h <= h' → zero_from h' d.
Proof. intros Hz Hh i x Hi. apply Hz. lia. Qed.

Lemma len_contents b : wf b → len (contents b) = length_ b.
Proof. intros Hwf. wf_facts Hwf. unfold contents. rewrite len_sub; unfold Cap in *; lia. Qed.

(** A narrower live region over an array that is still zero above the mark. *)
Lemma wf_narrow b d s n :
  wf b → len d = Cap b → zero_from (highWater b) d → 0 <= s → 0 <= n →
  s + n <= start b + length_ b →
  wf (MkBuffer d (norm s n) n (highWater b)) ∧
  contents (MkBuffer d (norm s n) n (highWater b)) = sub d s (s + n).
Proof.
  intros Hwf Hd Hz Hs Hn Hle. wf_facts Hwf. unfold norm. destruct (Z.eqb_spec n 0) as [->|].
  - split; [constructor; unfold Cap in *; simpl; try lia; exact Hz|].
    unfold contents, sub; simpl. rewrite !Z.add_simpl_l. done.
  - split; [constructor; unfold Cap in *; simpl; try lia; exact Hz|]. done.
Qed.

Lemma zero_from_moved b : wf b → zero_from (highWater b) (moved b).
Proof.
  intros Hwf. wf_facts Hwf. unfold moved. destruct (_ || _); [exact (wf_zero _ Hwf)|].
  apply zero_from_copy; [exact (wf_zero _ Hwf)|lia|..]; rewrite len_contents by done; unfold Cap in *; lia.
Qed.

Lemma sub_moved b : wf b → sub (moved b) 0 (length_ b) = contents b.
Proof.
  intros Hwf. wf_facts Hwf. unfold moved, contents.
  destruct (Z.eqb_spec (start b) 0) as [->|]; simpl; [done|].
  destruct (Z.eqb_spec (length_ b) 0) as [->|]; simpl; [unfold sub; by rewrite Z.add_simpl_l, Z.sub_0_r|].
  replace (length_ b) with (start b + length_ b - start b) at 2 by lia.
  rewrite sub_copy_front; unfold Cap in *; [done|lia..].
Qed.

Lemma Compact_wf b :
  wf b → let b' := MkBuffer (moved b) 0 (length_ b) (highWater b) in
  wf b' ∧ contents b' = contents b.
Proof.
  intros Hwf b'. wf_facts Hwf. pose proof (len_moved b). split.
  - constructor; unfold Cap in *; simpl; try lia. by apply zero_from_moved.
  - unfold contents at 1; simpl. by apply sub_moved.
Qed.

Lemma CompactAndZero_zero b :
  wf b → zero_from (length_ b) (clear_range zero (length_ b) (highWater b) (moved b)).
Proof.
  intros Hwf i x Hi. wf_facts Hwf. pose proof (len_moved b).
  rewrite lookup_clear_range by (unfold Cap in *; lia). case_decide; [congruence|].
  apply zero_from_moved; [done|lia].
Qed.

Lemma CompactAndZero_wf b :
  wf b →
  let b' := MkBuffer (clear_range zero (length_ b) (highWater b) (moved b)) 0
              (length_ b) (length_ b) in
  wf b' ∧ contents b' = contents b.
Proof.
  intros Hwf b'. wf_facts Hwf. pose proof (len_moved b). split.
  - constructor; unfold Cap in *; simpl; rewrite ?len_clear_range; try lia.
    by apply CompactAndZero_zero.
  - unfold contents at 1; simpl. rewrite sub_clear_disjoint by (unfold Cap in *; lia).
    by apply sub_moved.
Qed.

(** The buffer [Append] and [grow] write to: compacted when the tail is too short. *)
Definition prepared (count : Z) (zeroing : bool) b : Buffer T :=
  if Cap b - (start b + length_ b) <? count then
    if zeroing then
      MkBuffer (clear_range zero (length_ b) (highWater b) (moved b)) 0 (length_ b) (length_ b)
    else MkBuffer (moved b) 0 (length_ b) (highWater b)
  else b.

Lemma prepared_spec count zeroing b :
  wf b → 0 <= count → length_ b + count <= Cap b →
  let b' := prepared count zeroing b in
  wf b' ∧ contents b' = contents b ∧ length_ b' = length_ b ∧ Cap b' = Cap b ∧
  start b' + length_ b' + count <= Cap b'.
Proof.
  intros Hwf Hc Hle b'. subst b'. wf_facts Hwf. unfold prepared.
  destruct (Z.ltb_spec (Cap b - (start b + length_ b)) count).
  - destruct zeroing.
    + destruct (CompactAndZero_wf b Hwf) as [??]. split_and!; try done; unfold Cap in *; simpl;
        rewrite ?len_clear_range; pose proof (len_moved b); unfold Cap in *; lia.
    + destruct (Compact_wf b Hwf) as [??]. split_and!; try done; unfold Cap in *; simpl;
        pose proof (len_moved b); unfold Cap in *; lia.
  - split_and!; try done; lia.
Qed.

(** [wf_widen]: extend the live region of [b] by [count] elements of an array [d] that agrees
    with [b]'s above the new end. *)
Lemma wf_widen b d count :
  wf b → len d = Cap b → 0 <= count → start b + length_ b + count <= Cap b →
  (length_ b + count = 0 → start b = 0) →
  zero_from (Z.max (highWater b) (start b + length_ b + count)) d →
  wf (MkBuffer d (start b) (length_ b + count)
       (Z.max (highWater b) (start b + length_ b + count))).
Proof.
  intros Hwf Hd Hc Hle He Hz. wf_facts Hwf. constructor; unfold Cap in *; simpl; try lia. exact Hz.
Qed.

Lemma Append_ok b xs :
  wf b → len xs <> 0 → length_ b + len xs <= Cap b →
  let b1 := prepared (len xs) false b in
  Append (Outside xs) b = (Returned tt,
    MkBuffer (copy_at (start b1 + length_ b1) xs (data b1)) (start b1) (length_ b1 + len xs)
      (Z.max (highWater b1) (start b1 + length_ b1 + len xs))).
Proof.
  intros Hwf Hne Hle b1. wf_facts Hwf. pose proof (len_nonneg xs).
  destruct (prepared_spec (len xs) false b) as (Hwf1 & _ & Hl1 & Hc1 & Hfit); [done|lia|done|].
  fold b1 in Hwf1, Hl1, Hc1, Hfit. wf_facts Hwf1.
  unfold Append. go_step by done. simpl.
  destruct (Z.eqb_spec (len xs) 0); [done|]. int_simpl.
  destruct (Z.ltb_spec (Cap b) (length_ b + len xs)); [lia|].
  assert (go_when (Cap b - (start b + length_ b) <? len xs) Compact b = (Returned tt, b1)) as Hp.
  { unfold b1, prepared. destruct (_ <? _); [by apply Compact_ok | done]. }
  go_step by (apply Hp). go_step by done. int_simpl. go_step by (apply check_slice_ok; lia).
  go_step by done. go_step by done. go_step by done. rewrite raiseHighWater_eq.
  unfold set_highWater, set_length, set_data; simpl. int_simpl.
  by rewrite Z.add_assoc.
Qed.

Lemma grow_ok b count z :
  wf b → 0 <= count → length_ b + count <= Cap b →
  let b1 := prepared count z b in
  let s := start b1 + length_ b1 in
  grow count z b = (Returned (View s count count),
    MkBuffer (if z then clear_range zero s (s + count) (data b1) else data b1) (start b1)
      (length_ b1 + count) (Z.max (highWater b1) (s + count))).
Proof.
  intros Hwf Hc Hle b1 s. wf_facts Hwf.
  destruct (prepared_spec count z b) as (Hwf1 & _ & Hl1 & Hc1 & Hfit); [done..|].
  fold b1 in Hwf1, Hl1, Hc1, Hfit. wf_facts Hwf1.
  unfold grow. go_step by done. destruct (Z.ltb_spec count 0); [lia|]. int_simpl.
  destruct (Z.ltb_spec (Cap b) (length_ b + count)); [lia|].
  assert (go_when (Cap b - (start b + length_ b) <? count)
    (if z then CompactAndZero else Compact) b = (Returned tt, b1)) as Hp.
  { unfold b1, prepared. destruct (_ <? _); [|done].
    destruct z; [by apply CompactAndZero_ok | by apply Compact_ok]. }
  go_step by (apply Hp). go_step by done. int_simpl. go_step by done. fold s.
  destruct z; simpl.
  - go_step by (apply clear_slice_ok; unfold Cap, s in *; simpl; lia).
    go_step by (apply raiseHighWater_eq).
    go_step by (apply check_slice_ok; unfold Cap, s in *; simpl; rewrite ?len_clear_range; lia).
    int_simpl. unfold mret, GoM_ret. rewrite Z.add_simpl_l. done.
  - go_step by done. go_step by (apply raiseHighWater_eq).
    go_step by (apply check_slice_ok; unfold Cap, s in *; simpl; lia).
    int_simpl. unfold mret, GoM_ret. rewrite Z.add_simpl_l. done.
Qed.

(** ** The abstract deque

    The methods a caller can apply, and what each promises about the live elements; [None] is a
    panic. *)
Inductive op :=
| OAppend (xs : list T)
| OGrowAndZero (count : Z)
| OConsume (count : Z)
| OConsumeAndZero (count : Z)
| OConsumeRight (count : Z)
| OConsumeRightAndZero (count : Z)
| OTruncate (n : Z)
| OTruncateAndZero (n : Z)
| OReset
| OResetAndZero
| OCompact
| OCompactAndZero.

Definition run_op (o : op) : M unit :=
  match o with
  | OAppend xs => Append (Outside xs)
  | OGrowAndZero count => _ ← GrowAndZero count; mret ()
  | OConsume count => Consume count
  | OConsumeAndZero count => ConsumeAndZero count
  | OConsumeRight count => ConsumeRight count
  | OConsumeRightAndZero count => ConsumeRightAndZero count
  | OTruncate n => Truncate n
  | OTruncateAndZero n => TruncateAndZero n
  | OReset => Reset
  | OResetAndZero => ResetAndZero
  | OCompact => Compact
  | OCompactAndZero => CompactAndZero
  end.

Definition in_range (n : Z) (l : list T) : bool := (0 <=? n) && (n <=? len l).

Definition spec_op (capacity : Z) (o : op) (l : list T) : option (list T) :=
  match o with
  | OAppend xs => if len l + len xs <=? capacity then Some (l ++ xs) else None
  | OGrowAndZero n =>
      if (0 <=? n) && (len l + n <=? capacity) then Some (l ++ replicate (Z.to_nat n) zero)
      else None
  | OConsume n | OConsumeAndZero n => if in_range n l then Some (drop (Z.to_nat n) l) else None
  | OConsumeRight n | OConsumeRightAndZero n =>
      if in_range n l then Some (take (Z.to_nat (len l - n)) l) else None
  | OTruncate n | OTruncateAndZero n => if in_range n l then Some (take (Z.to_nat n) l) else None
  | OReset | OResetAndZero => Some []
  | OCompact | OCompactAndZero => Some l
  end.

(** A request whose sum with the capacity is an [int]. *)
Definition op_fits (capacity : Z) (o : op) : Prop :=
  match o with
  | OAppend xs => capacity + len xs <= maxInt
  | OGrowAndZero n => minInt <= n ∧ capacity + n <= maxInt
  | _ => True
  end.

(** [refines_op b o]: running [o] on [b] does what the deque does, or panics and changes
    nothing. *)
Definition refines_op b (o : op) : Prop :=
  match spec_op (Cap b) o (contents b) with
  | Some l => ∃ b', run_op o b = (Returned tt, b') ∧ wf b' ∧ contents b' = l ∧ Cap b' = Cap b
  | None => ∃ msg, run_op o b = (Panicked msg, b)
  end.

Lemma in_range_spec b n : wf b → in_range n (contents b) = true ↔ 0 <= n <= length_ b.
Proof.
  intros Hwf. unfold in_range. rewrite andb_true_iff, !Z.leb_le, len_contents by done. done.
Qed.

(** The six removals: an array [d] zero above the mark and the elements [s, s+n) of it. *)
Lemma refines_narrow b o n msg d s k :
  wf b →
  (0 <= n <= length_ b →
     run_op o b = (Returned tt, MkBuffer d (norm s k) k (highWater b)) ∧
     len d = Cap b ∧ zero_from (highWater b) d ∧ 0 <= s ∧ 0 <= k ∧
     s + k <= start b + length_ b ∧ Some (sub d s (s + k)) = spec_op (Cap b) o (contents b)) →
  (¬ (0 <= n <= length_ b) →
     spec_op (Cap b) o (contents b) = None ∧ run_op o b = (Panicked msg, b)) →
  refines_op b o.
Proof.
  intros Hwf Hok Hbad. unfold refines_op.
  destruct (decide (0 <= n <= length_ b)) as [Hn|Hn].
  - destruct (Hok Hn) as (Hrun & Hd & Hz & Hs & Hk & Hle & <-).
    destruct (wf_narrow b d s k) as [Hwf' Hc]; [done..|]. eauto.
  - destruct (Hbad Hn) as [-> Hp]. eauto.
Qed.

Lemma spec_out b n (x : option (list T)) :
  wf b → ¬ (0 <= n <= length_ b) → (if in_range n (contents b) then x else None) = None.
Proof.
  intros Hwf Hn. destruct (in_range n (contents b)) eqn:He; [|done].
  by apply in_range_spec in He.
Qed.

Lemma spec_in {A} b n (x y : A) :
  wf b → 0 <= n <= length_ b → (if in_range n (contents b) then x else y) = x.
Proof. intros Hwf Hn. by rewrite (proj2 (in_range_spec b n Hwf) Hn). Qed.

Lemma refines_consume b n : wf b → refines_op b (OConsume n) ∧ refines_op b (OConsumeAndZero n).
Proof.
  intros Hwf. wf_facts Hwf. split.
  - eapply (refines_narrow b _ n _ (data b) (start b + n) (length_ b - n)); [done| |]; intros Hn.
    + split_and!; try (unfold Cap in *; lia); [by apply Consume_ok|exact (wf_zero _ Hwf)|].
      simpl. rewrite spec_in by done. f_equal. unfold contents. rewrite <- sub_drop by lia.
      f_equal; lia.
    + simpl. rewrite spec_out by done. split; [done|]. unfold Consume.
      apply bind_panicked. by apply checkCount_bad.
  - eapply (refines_narrow b _ n _ (clear_range zero (start b) (start b + n) (data b))
      (start b + n) (length_ b - n)); [done| |]; intros Hn.
    + split_and!; try (unfold Cap in *; lia);
        [by apply ConsumeAndZero_ok | apply len_clear_range |
         apply zero_from_clear; [exact (wf_zero _ Hwf) | unfold Cap in *; lia..] |].
      simpl. rewrite spec_in by done. f_equal. unfold contents. rewrite <- sub_drop by lia.
      rewrite sub_clear_disjoint by (unfold Cap in *; lia). f_equal; lia.
    + simpl. rewrite spec_out by done. split; [done|]. unfold ConsumeAndZero.
      apply bind_panicked. by apply checkCount_bad.
Qed.

Lemma refines_truncate b n : wf b → refines_op b (OTruncate n) ∧ refines_op b (OTruncateAndZero n).
Proof.
  intros Hwf. wf_facts Hwf. split.
  - eapply (refines_narrow b _ n _ (data b) (start b) n); [done| |]; intros Hn.
    + split_and!; try (unfold Cap in *; lia); [by apply Truncate_ok|exact (wf_zero _ Hwf)|].
      simpl. rewrite spec_in by done. f_equal. apply sub_take; lia.
    + simpl. rewrite spec_out by done. split; [done|]. unfold Truncate.
      apply bind_panicked. by apply checkCount_bad.
  - eapply (refines_narrow b _ n _
      (clear_range zero (start b + n) (start b + length_ b) (data b)) (start b) n);
      [done| |]; intros Hn.
    + split_and!; try (unfold Cap in *; lia);
        [by apply TruncateAndZero_ok | apply len_clear_range |
         apply zero_from_clear; [exact (wf_zero _ Hwf) | unfold Cap in *; lia..] |].
      simpl. rewrite spec_in by done. f_equal.
      rewrite sub_clear_disjoint by (unfold Cap in *; lia). apply sub_take; lia.
    + simpl. rewrite spec_out by done. split; [done|]. unfold TruncateAndZero.
      apply bind_panicked. by apply checkCount_bad.
Qed.

Lemma refines_consume_right b n :
  wf b → refines_op b (OConsumeRight n) ∧ refines_op b (OConsumeRightAndZero n).
Proof.
  intros Hwf. wf_facts Hwf. destruct (decide (0 <= n <= length_ b)) as [Hn|Hn].
  - destruct (refines_truncate b (length_ b - n) Hwf) as [Ht1 Ht2].
    unfold refines_op in *. simpl in *. rewrite spec_in in Ht1, Ht2 by (done || lia).
    rewrite !spec_in by done. rewrite len_contents by done.
    rewrite ConsumeRight_ok, ConsumeRightAndZero_ok by done. done.
  - unfold refines_op; simpl. rewrite !spec_out by done.
    split; eexists; apply bind_panicked; by apply checkCount_bad.
Qed.

Lemma append_fits b xs :
  wf b → length_ b + len xs <= Cap b →
  ∃ b', Append (Outside xs) b = (Returned tt, b') ∧ wf b' ∧
    contents b' = contents b ++ xs ∧ Cap b' = Cap b.
Proof.
  intros Hwf Hle. wf_facts Hwf. pose proof (len_nonneg xs).
  destruct (decide (len xs = 0)) as [Hnil|Hne].
  { apply len_0_nil in Hnil as ->. exists b. rewrite app_nil_r. done. }
  destruct (prepared_spec (len xs) false b) as (Hwf1 & Hc1 & Hl1 & Hcap1 & Hfit1); [done|lia|done|].
  wf_facts Hwf1. eexists. split; [by apply Append_ok|]. split_and!.
  - apply wf_widen; try lia; [done | by rewrite len_copy_at |].
    apply zero_from_copy; unfold Cap in *; try lia.
    eapply zero_from_mono; [exact (wf_zero _ Hwf1) | lia].
  - rewrite <- Hc1. unfold contents; simpl. rewrite Z.add_assoc.
    apply sub_copy_append; unfold Cap in *; lia.
  - rewrite <- Hcap1. unfold Cap. simpl. by rewrite len_copy_at.
Qed.

Lemma refines_append b xs :
  wf b → Cap b + len xs <= maxInt → refines_op b (OAppend xs).
Proof.
  intros Hwf Hfit. wf_facts Hwf. pose proof (len_nonneg xs). unfold refines_op. simpl.
  rewrite len_contents by done.
  destruct (Z.leb_spec (length_ b + len xs) (Cap b)) as [Hle|Hgt]; [by apply append_fits|].
  exists "buffer: append would exceed capacity". unfold Append. go_step by done. simpl.
  destruct (Z.eqb_spec (len xs) 0); [lia|]. int_simpl.
  destruct (Z.ltb_spec (Cap b) (length_ b + len xs)); [done|lia].
Qed.

Lemma refines_grow_zero b n :
  wf b → minInt <= n → Cap b + n <= maxInt → refines_op b (OGrowAndZero n).
Proof.
  intros Hwf Hmin Hfit. wf_facts Hwf. unfold refines_op. simpl. rewrite len_contents by done.
  unfold GrowAndZero.
  destruct (Z.leb_spec 0 n) as [Hn|Hn]; simpl.
  - destruct (Z.leb_spec (length_ b + n) (Cap b)) as [Hle|Hgt].
    + destruct (prepared_spec n true b) as (Hwf1 & Hc1 & Hl1 & Hcap1 & Hfit1); [done|lia|done|].
      wf_facts Hwf1. eexists. split; [by go_step by (by apply grow_ok)|]. split_and!.
      * apply wf_widen; try lia; [done | by rewrite len_clear_range |].
        apply zero_from_clear; unfold Cap in *; try lia.
        eapply zero_from_mono; [exact (wf_zero _ Hwf1) | lia].
      * rewrite <- Hc1. unfold contents; simpl. set (b1 := prepared n true b) in *.
        rewrite Z.add_assoc. rewrite <- (take_drop (Z.to_nat (length_ b1))
          (sub _ (start b1) (start b1 + length_ b1 + n))).
        rewrite <- sub_take, <- sub_drop by lia.
        rewrite sub_clear_disjoint, sub_clear_inside by (unfold Cap in *; lia).
        do 2 f_equal. lia.
      * rewrite <- Hcap1. unfold Cap. simpl. by rewrite len_clear_range.
    + exists "buffer: grow would exceed capacity". apply bind_panicked. unfold grow.
      go_step by done. destruct (Z.ltb_spec n 0); [lia|]. int_simpl.
      destruct (Z.ltb_spec (Cap b) (length_ b + n)); [done|lia].
  - exists "buffer: negative grow". apply bind_panicked. unfold grow. go_step by done.
    by destruct (Z.ltb_spec n 0); [|lia].
Qed.

Lemma refines_reset b : wf b → refines_op b OReset ∧ refines_op b OResetAndZero.
Proof.
  intros Hwf. wf_facts Hwf. split; eexists.
  - split; [done|]. destruct (wf_narrow b (data b) 0 0) as [??]; try done; try lia.
    exact (wf_zero _ Hwf).
  - split.
    { simpl. unfold ResetAndZero. go_step by done. int_simpl.
      go_step by (apply clear_slice_ok; lia). done. }
    destruct (wf_narrow b (clear_range zero (start b) (start b + length_ b) (data b)) 0 0)
      as [??]; try lia; [done | apply len_clear_range | | ].
    + apply zero_from_clear; [exact (wf_zero _ Hwf) | unfold Cap in *; lia..].
    + split_and!; [done..|]. unfold Cap. simpl. apply len_clear_range.
Qed.

Lemma refines_compact b : wf b → refines_op b OCompact ∧ refines_op b OCompactAndZero.
Proof.
  intros Hwf. split; eexists.
  - split; [by apply Compact_ok|]. destruct (Compact_wf b Hwf) as [??].
    split_and!; [done..|]. apply len_moved.
  - split; [by apply CompactAndZero_ok|]. destruct (CompactAndZero_wf b Hwf) as [??].
    split_and!; [done..|]. unfold Cap; simpl. rewrite len_clear_range. apply len_moved.
Qed.

(** Every operation on a well-formed buffer refines the deque. *)
Lemma refines_any b o : wf b → op_fits (Cap b) o → refines_op b o.
Proof.
  intros Hwf Hfit. destruct o; simpl in Hfit;
    [by apply refines_append | by apply refines_grow_zero; destruct Hfit | ..];
    first [ by apply refines_consume | by apply refines_consume_right
          | by apply refines_truncate | by apply refines_reset | by apply refines_compact ].
Qed.

(** ** Properties *)

Lemma NewBuffer_wf capacity b :
  capacity <= maxInt → NewBuffer capacity = Returned b → wf b ∧ contents b = [] ∧ Cap b = capacity.
Proof.
  unfold NewBuffer. destruct (Z.ltb_spec capacity 0); [done|]. intros Hmax [= <-].
  assert (Cap (MkBuffer (replicate (Z.to_nat capacity) zero) 0 0 0) = capacity) as Hc.
  { unfold Cap, len; simpl. rewrite length_replicate. lia. }
  split_and!; [|done..]. constructor; rewrite ?Hc; simpl; try lia.
  intros i x _ Hi%lookup_replicate. naive_solver.
Qed.

(** A run of operations from a fresh buffer, stopping at the first panic. *)
Fixpoint run_ops (os : list op) : M unit :=
  match os with
  | [] => mret ()
  | o :: os => _ ← run_op o; run_ops os
  end.

Fixpoint spec_ops (capacity : Z) (os : list op) (l : list T) : option (list T) :=
  match os with
  | [] => Some l
  | o :: os => l' ← spec_op capacity o l; spec_ops capacity os l'
  end.


(** C33. The wiping methods leave nothing behind: after [CompactAndZero] every element outside
    the live region is zero, and [resetAndZeroAll] zeroes the whole backing array, although both
    clear only up to the high-water mark; the live elements survive the first. *)
Theorem wipe_leaves_zero b :
  wf b →
  (∃ b', CompactAndZero b = (Returned tt, b') ∧ wf b' ∧ contents b' = contents b ∧
     ∀ (i : nat) x, length_ b' <= Z.of_nat i → data b' !! i = Some x → x = zero) ∧
  (∃ b', resetAndZeroAll b = (Returned tt, b') ∧ wf b' ∧ contents b' = [] ∧ Cap b' = Cap b ∧
     ∀ (i : nat) x, data b' !! i = Some x → x = zero).
Proof.
  intros Hwf. wf_facts Hwf. split.
  - eexists. split; [by apply CompactAndZero_ok|]. destruct (CompactAndZero_wf b Hwf) as [??].
    split_and!; [done..|]. exact (CompactAndZero_zero b Hwf).
  - assert (∀ (i : nat) x, clear_range zero 0 (highWater b) (data b) !! i = Some x → x = zero)
      as Hz.
    { intros i x. rewrite lookup_clear_range by (unfold Cap in *; lia).
      case_decide; [congruence|]. apply (wf_zero b Hwf). lia. }
    eexists. split.
    { unfold resetAndZeroAll. go_step by done. go_step by (apply clear_slice_ok; lia). done. }
    split_and!; [|done| |done].
    + constructor; unfold Cap in *; simpl; rewrite ?len_clear_range; try lia. eauto.
    + unfold Cap; simpl. apply len_clear_range.
Qed.

Lemma view_append_available b xs :
  wf b → start b + length_ b + len xs <= Cap b →
  (v ← AvailableBuffer; view_append v xs) b =
    (Returned (View (start b + length_ b) (len xs) (Cap b - (start b + length_ b))),
     MkBuffer (copy_at (start b + length_ b) xs (data b)) (start b) (length_ b) (Cap b)).
Proof.
  intros Hwf Hfit. wf_facts Hwf. pose proof (len_nonneg xs). unfold AvailableBuffer, view_append.
  assert (∀ {A} (k : view → M A), (v ← (b ← go_get;
      let end_ := start b +i length_ b in
      _ ← raiseHighWater (Cap b); _ ← check_slice end_ end_;
      mret (View end_ 0 (Cap b -i end_))); k v) b =
    k (View (start b + length_ b) 0 (Cap b - (start b + length_ b)))
      (set_highWater (Z.max (highWater b) (Cap b)) b)) as Hav.
  { intros A k. apply bind_returned. go_step by done. int_simpl.
    go_step by (apply raiseHighWater_eq). go_step by (apply check_slice_ok; unfold Cap in *; simpl; lia).
    by int_simpl. }
  rewrite Hav. go_step by done. unfold mret, GoM_ret. simpl. rewrite Z.add_0_r.
  do 2 f_equal. unfold set_data, set_highWater; simpl. f_equal. lia.
Qed.

Lemma fill_available b xs :
  wf b → len xs <> 0 → start b + length_ b + len xs <= Cap b →
  ∃ b', (v ← AvailableBuffer; w ← view_append v xs; Append (Inside w)) b = (Returned tt, b') ∧
    wf b' ∧ contents b' = contents b ++ xs.
Proof.
  intros Hwf Hne Hfit. wf_facts Hwf. pose proof (len_nonneg xs).
  set (b1 := MkBuffer (copy_at (start b + length_ b) xs (data b)) (start b) (length_ b) (Cap b)).
  assert (Cap b1 = Cap b) as Hcap by apply len_copy_at.
  assert (∀ {A} (k : view → M A), (v ← AvailableBuffer; w ← view_append v xs; k w) b =
    k (View (start b + length_ b) (len xs) (Cap b - (start b + length_ b))) b1) as Hseq.
  { intros A k. pose proof (view_append_available b xs Hwf Hfit) as Hv.
    unfold mbind, GoM_bind in *. destruct (AvailableBuffer b) as [[v|] b0]; [|done].
    by rewrite Hv. }
  rewrite Hseq. clear Hseq. unfold Append. go_step by done. simpl.
  destruct (Z.eqb_spec (len xs) 0); [done|]. rewrite Hcap. int_simpl.
  destruct (Z.ltb_spec (Cap b) (length_ b + len xs)); [lia|].
  destruct (Z.ltb_spec (Cap b - (start b + length_ b)) (len xs)); [lia|]. simpl.
  go_step by done. go_step by done. rewrite Hcap. simpl. int_simpl.
  go_step by (apply check_slice_ok; lia). go_step by done. go_step by done. go_step by done.
  rewrite raiseHighWater_eq. unfold set_highWater, set_length, set_data; simpl. int_simpl.
  assert (sub (copy_at (start b + length_ b) xs (data b)) (start b + length_ b)
    (start b + length_ b + len xs) = xs) as Hread.
  { pose proof (sub_copy_append (data b) (start b + length_ b) (start b + length_ b) xs) as Hs.
    rewrite Hs by (unfold Cap in *; lia). unfold sub. by rewrite Z.sub_diag. }
  rewrite Hread. eexists. split; [done|]. split.
  + constructor; unfold Cap in *; simpl; rewrite ?len_copy_at; try lia.
    intros i x Hi Hlk. apply lookup_lt_Some in Hlk. exfalso.
    unfold copy_at in Hlk. rewrite !length_inserts in Hlk. unfold len in *. lia.
  + unfold contents; simpl. rewrite Z.add_assoc.
    rewrite sub_copy_append by (rewrite ?len_copy_at; unfold Cap in *; lia). f_equal.
    pose proof (sub_copy_append (data b) (start b) (start b + length_ b) xs) as Hs.
    rewrite (sub_take _ _ (start b + length_ b + len xs)) by lia.
    rewrite Hs by (unfold Cap in *; lia). apply take_app_length'.
    pose proof (len_contents b Hwf) as Hlc. unfold len, contents in Hlc. lia.
Qed.

Lemma fill_grow b xs :
  wf b → len xs <> 0 → length_ b + len xs <= Cap b →
  ∃ v b1, Grow (len xs) b = (Returned v, b1) ∧ vlen v = len xs ∧
    let b' := set_data (copy_at (off v) xs (data b1)) b1 in
    wf b' ∧ contents b' = contents b ++ xs.
Proof.
  intros Hwf Hne Hfit. wf_facts Hwf. pose proof (len_nonneg xs).
  destruct (prepared_spec (len xs) false b) as (Hwf1 & Hc1 & Hl1 & Hcap1 & Hfit1);
    [done|lia|done|]. wf_facts Hwf1.
  do 2 eexists. split; [by apply grow_ok|]. unfold set_data. simpl. split; [done|]. split.
  + apply (wf_widen (prepared (len xs) false b)); try lia; [done | by rewrite len_copy_at |].
    apply zero_from_copy; unfold Cap in *; try lia.
    eapply zero_from_mono; [exact (wf_zero _ Hwf1) | lia].
  + rewrite <- Hc1. unfold contents; simpl. rewrite Z.add_assoc.
    apply sub_copy_append; unfold Cap in *; lia.
Qed.

(** The two ways to fill the buffer through its own memory. Appending to the slice
    [AvailableBuffer] returns and passing the result to [Append] adds exactly those values, with
    no copy left behind elsewhere, and storing through the slice [Grow] returns fills exactly the
    new elements; both keep the buffer well formed. *)
Theorem fill_through_views b xs :
  wf b → len xs <> 0 →
  (start b + length_ b + len xs <= Cap b →
   ∃ b', (v ← AvailableBuffer; w ← view_append v xs; Append (Inside w)) b = (Returned tt, b') ∧
     wf b' ∧ contents b' = contents b ++ xs) ∧
  (length_ b + len xs <= Cap b →
   ∃ v b1, Grow (len xs) b = (Returned v, b1) ∧ vlen v = len xs ∧
     let b' := set_data (copy_at (off v) xs (data b1)) b1 in
     wf b' ∧ contents b' = contents b ++ xs).
Proof.
  intros Hwf Hne. split; intros Hfit; [by apply fill_available | by apply fill_grow].
Qed.

(** C34. [Grow] and [GrowAndZero] of a count whose sum with [Len] overflows [int] pass the
    capacity check: on a non-empty buffer a request for the largest [int] panics with a slice
    bounds error after the length has become negative, so the panic does not leave the buffer as
    it was. *)
Theorem grow_overflow_corrupts b z :
  wf b → 0 < length_ b →
  ∃ b', grow maxInt z b = (Panicked slice_bounds, b') ∧ length_ b' < 0.
Proof.
  intros Hwf Hpos. wf_facts Hwf.
  assert (length_ b <= maxInt) as Hlm by (unfold maxInt in *; lia).
  assert (i64 (length_ b + maxInt) < 0) as Hneg by wrap_lia.
  unfold grow. go_step by done.
  destruct (Z.ltb_spec maxInt 0) as [Hm|_]; [by unfold maxInt in Hm|].
  destruct (Z.ltb_spec (Cap b) (length_ b +i maxInt)); [lia|]. int_simpl.
  destruct (Z.ltb_spec (Cap b - (start b + length_ b)) maxInt) as [_|]; [|lia]. simpl.
  set (b1 := prepared maxInt z b).
  assert ((if z then CompactAndZero else Compact) b = (Returned tt, b1) ∧
    start b1 = 0 ∧ length_ b1 = length_ b) as (Hc & Hs1 & Hl1).
  { unfold b1, prepared. rewrite (proj2 (Z.ltb_lt _ _)) by lia.
    destruct z; (split; [|done]); [by apply CompactAndZero_ok | by apply Compact_ok]. }
  go_step by (apply Hc). go_step by done. rewrite Hs1, Hl1, Z.add_0_l.
  rewrite (i64_small (length_ b)) by (unfold is_int, minInt in *; lia). go_step by done.
  destruct z; simpl.
  - eexists. split.
    + apply bind_panicked. unfold clear_slice. apply bind_panicked, check_slice_bad. lia.
    + simpl. by rewrite Hl1.
  - eexists. go_step by done. go_step by (apply raiseHighWater_eq). split.
    + apply bind_panicked, check_slice_bad. lia.
    + simpl. by rewrite Hl1.
Qed.
End buffer.
Arguments op : clear implicits.

Ltac wf_facts Hwf :=
  pose proof (wf_start _ _ Hwf); pose proof (wf_length _ _ Hwf); pose proof (wf_live _ _ Hwf);
  pose proof (wf_high _ _ Hwf); pose proof (wf_cap _ _ Hwf); pose proof (wf_empty _ _ Hwf).

(** ** BytesBuffer *)

Section bytes.
Abbreviation byte := Byte.byte.
Abbreviation nul := Byte.x00.
Abbreviation M := (GoM (Buffer byte)).

Definition ErrFull : error := New "buffer: full".
Definition io_EOF : error := New "EOF".

Definition NewBytesBuffer (capacity : Z) : outcome (Buffer byte) := NewBuffer nul capacity.

Definition Write (p : list byte) : M (Z * option error) :=
  b ← go_get;
  let available := Available b in
  if available <? len p then
    if in_slice p 0 available then
      _ ← Append (Outside (sub p 0 available));
      mret (available, Some ErrFull)
    else go_panic slice_bounds
  else
    _ ← Append (Outside p);
    mret (len p, None).

Definition WriteString (text : list byte) : M (Z * option error) := Write text.

Definition WriteByte (value : byte) : M (option error) :=
  b ← go_get;
  if Available b =? 0 then mret (Some ErrFull)
  else _ ← Append (Outside [value]); mret None.

(** [Read] returns the caller's slice [p] as it is afterwards. *)
Definition Read (p : list byte) : M (Z * option error * list byte) :=
  b ← go_get;
  if len p =? 0 then mret (0, None, p)
  else if Len b =? 0 then mret (0, Some io_EOF, p)
  else
    v ← Slice;
    b ← go_get;
    let n := Z.min (len p) (vlen v) in
    let p' := copy_at 0 (sub (data b) (off v) (off v + n)) p in
    _ ← Consume n;
    mret (n, None, p').

Definition Bytes : M view := Slice.

Definition String_ : M (list byte) :=
  v ← Slice; b ← go_get; mret (sub (data b) (off v) (off v + vlen v)).

Lemma Slice_ok b :
  wf nul b → Slice b = (Returned (View (start b) (length_ b) (length_ b)), b).
Proof.
  intros Hwf. wf_facts Hwf. unfold Slice. go_step by done. int_simpl.
  go_step by (apply check_slice_ok; lia). int_simpl. by rewrite Z.add_simpl_l.
Qed.

Lemma Write_ok b p :
  wf nul b →
  let n := Z.min (len p) (Cap b - length_ b) in
  ∃ b', Write p b = (Returned (n, if n <? len p then Some ErrFull else None), b') ∧
    wf nul b' ∧ contents b' = contents b ++ take (Z.to_nat n) p ∧ WriteString p b = Write p b.
Proof.
  intros Hwf. wf_facts Hwf. pose proof (len_nonneg p).
  intros n. unfold Write, WriteString, Available.
  destruct (append_fits nul b (take (Z.to_nat n) p)) as (b' & Ha & Hwf' & Hc & _);
    [done | rewrite len_take; lia |].
  exists b'. split_and!; [|done..]. go_step by done. int_simpl.
  destruct (Z.ltb_spec (Cap b - length_ b) (len p)).
  + rewrite (proj2 (in_slice_true p 0 (Cap b - length_ b))) by lia.
    assert (sub p 0 (Cap b - length_ b) = take (Z.to_nat n) p) as ->.
    { unfold sub, n. rewrite drop_0. f_equal. lia. }
    go_step by (apply Ha). unfold mret, GoM_ret.
    rewrite (proj2 (Z.ltb_lt n (len p))) by lia. do 3 f_equal. lia.
  + rewrite take_ge in Ha by (unfold n, len in *; lia).
    go_step by (apply Ha). unfold mret, GoM_ret.
    rewrite (proj2 (Z.ltb_ge n (len p))) by lia. do 3 f_equal. lia.
Qed.

Lemma Read_ok b p :
  wf nul b → len p <> 0 →
  let n := Z.min (len p) (length_ b) in
  ∃ b', Read p b =
      (Returned (n, if length_ b =? 0 then Some io_EOF else None,
                 take (Z.to_nat n) (contents b) ++ drop (Z.to_nat n) p), b') ∧
    wf nul b' ∧ contents b' = drop (Z.to_nat n) (contents b).
Proof.
  intros Hwf. wf_facts Hwf. pose proof (len_nonneg p).
  intros Hp n. unfold Read, Len.
  destruct (Z.eqb_spec (length_ b) 0) as [Hemp|Hemp].
  + exists b. go_step by done. destruct (Z.eqb_spec (len p) 0); [done|].
    rewrite (proj2 (Z.eqb_eq (length_ b) 0)) by done.
    assert (n = 0) as -> by lia. rewrite drop_0. done.
  + pose proof (proj1 (refines_consume nul b n Hwf)) as Hr. unfold refines_op in Hr.
    simpl in Hr. rewrite (spec_in nul) in Hr by (done || lia).
    destruct Hr as (b' & Hrun & Hwf' & Hc & _). exists b'. split_and!; [|done..].
    go_step by done. destruct (Z.eqb_spec (len p) 0); [done|].
    destruct (Z.eqb_spec (length_ b) 0); [done|].
    go_step by (by apply Slice_ok). go_step by done. simpl. fold n. go_step by (apply Hrun).
    unfold mret, GoM_ret. do 3 f_equal. unfold contents. rewrite <- sub_take by lia.
    assert (len (sub (data b) (start b) (start b + n)) = n) as Hls
      by (rewrite len_sub; unfold Cap in *; lia).
    apply list_eq. intros k.
    rewrite lookup_copy_at by (rewrite ?len_sub by (unfold Cap in *; lia); lia).
    rewrite len_sub by (unfold Cap in *; lia). case_decide.
    * rewrite Nat.sub_0_r. rewrite lookup_app_l; [done|].
      pose proof Hls. unfold len, Cap in *. lia.
    * rewrite lookup_app_r by (pose proof Hls; unfold len, Cap in *; lia).
      rewrite lookup_drop. f_equal.
      pose proof Hls. unfold len, Cap in *. lia.
Qed.

Lemma WriteByte_ok b c :
  wf nul b →
  ∃ b', WriteByte c b = (Returned (if Cap b =? length_ b then Some ErrFull else None), b') ∧
    contents b' = contents b ++ (if Cap b =? length_ b then [] else [c]).
Proof.
  intros Hwf. wf_facts Hwf.
  unfold WriteByte, Available.
  destruct (Z.eqb_spec (Cap b) (length_ b)) as [He|He].
  + exists b. rewrite app_nil_r. split; [|done]. go_step by done. int_simpl.
    by rewrite (proj2 (Z.eqb_eq (Cap b - length_ b) 0)) by lia.
  + destruct (append_fits nul b [c]) as (b' & Ha & Hwf' & Hc & _);
      [done | unfold len; simpl; lia |].
    exists b'. split; [|done]. go_step by done. int_simpl.
    rewrite (proj2 (Z.eqb_neq (Cap b - length_ b) 0)) by lia.
    by go_step by (apply Ha).
Qed.

(** [Write] appends the prefix that fits and reports [ErrFull] exactly when it is shorter
    than the input; [WriteByte] and [WriteString] agree with it. [Read] hands out the oldest bytes
    in order, at most as many as the destination holds, leaves the rest of the destination, and
    reports [io.EOF] exactly on an empty buffer. *)
Theorem bytes_stream_spec b p :
  wf nul b →
  (let n := Z.min (len p) (Cap b - length_ b) in
   ∃ b', Write p b = (Returned (n, if n <? len p then Some ErrFull else None), b') ∧
    wf nul b' ∧ contents b' = contents b ++ take (Z.to_nat n) p ∧ WriteString p b = Write p b) ∧
  (len p <> 0 →
   let n := Z.min (len p) (length_ b) in
   ∃ b', Read p b =
      (Returned (n, if length_ b =? 0 then Some io_EOF else None,
                 take (Z.to_nat n) (contents b) ++ drop (Z.to_nat n) p), b') ∧
    wf nul b' ∧ contents b' = drop (Z.to_nat n) (contents b)) ∧
  (∀ c, ∃ b', WriteByte c b = (Returned (if Cap b =? length_ b then Some ErrFull else None), b') ∧
    contents b' = contents b ++ (if Cap b =? length_ b then [] else [c])).
Proof.
  intros Hwf. split_and!; [by apply Write_ok | intros; by apply Read_ok | intros; by apply WriteByte_ok].
Qed.
End bytes.

(** ** Pool

    [sync.Pool] keeps some of the buffers put into it and may drop any of them at any time; [Get]
    takes an arbitrary kept buffer or calls [New]. *)
Section pool.
Context {T : Type} (zero : T).

Record Pool := MkPool {
  pooled : list (Buffer T);
  capacity : Z;
  zeroOnPut : bool;
}.

Definition NewPool (capacity : Z) (zeroOnPut : bool) : outcome Pool :=
  if capacity <? 0 then Panicked "buffer: negative capacity"
  else Returned (MkPool [] capacity zeroOnPut).

(** [pick] is the runtime's choice. *)
Definition Get (pick : option nat) (p : Pool) : outcome (Buffer T * Pool) :=
  match pick ≫= λ i, pair i <$> pooled p !! i with
  | Some (i, b) => Returned (b, MkPool (delete i (pooled p)) (capacity p) (zeroOnPut p))
  | None =>
      match NewBuffer zero (capacity p) with
      | Returned b => Returned (b, p)
      | Panicked msg => Panicked msg
      end
  end.

Definition accepts (p : Pool) (released : Buffer T) : bool := Cap released =? capacity p.

Definition Put (released : option (Buffer T)) (p : Pool) : outcome Pool :=
  match released with
  | None => Returned p
  | Some b =>
      match (if zeroOnPut p then resetAndZeroAll zero b else Reset b) with
      | (Returned _, b') =>
          Returned (if accepts p b' then MkPool (b' :: pooled p) (capacity p) (zeroOnPut p) else p)
      | (Panicked msg, _) => Panicked msg
      end
  end.

(** The life of a pool: callers get buffers, put back any well-formed buffer, and the runtime
    drops kept ones. *)
Inductive pool_step : Pool → Pool → Prop :=
| step_get pick p b p' : Get pick p = Returned (b, p') → pool_step p p'
| step_put p b p' : wf zero b → Put (Some b) p = Returned p' → pool_step p p'
| step_evict p i :
    pool_step p (MkPool (delete i (pooled p)) (capacity p) (zeroOnPut p)).

Definition all_zero (b : Buffer T) : Prop := ∀ (i : nat) x, data b !! i = Some x → x = zero.

(** What the pool hands out: an empty buffer of its capacity, wiped when it wipes on [Put]. *)
Definition fresh_buffer (c : Z) (wiped : bool) (b : Buffer T) : Prop :=
  wf zero b ∧ Len b = 0 ∧ Cap b = c ∧ (wiped = true → all_zero b).

Definition pool_ok (c : Z) (z : bool) (p : Pool) : Prop :=
  capacity p = c ∧ zeroOnPut p = z ∧ Forall (fresh_buffer c z) (pooled p).

Lemma new_buffer_fresh c z b :
  c <= maxInt → NewBuffer zero c = Returned b → fresh_buffer c z b.
Proof.
  intros Hc Hb. destruct (NewBuffer_wf zero c b Hc Hb) as (Hwf & _ & Hcap).
  unfold NewBuffer in Hb. destruct (c <? 0); [done|]. injection Hb as <-.
  split_and!; [done..|]. intros _ i x Hi%lookup_replicate. naive_solver.
Qed.

Lemma get_fresh c z p pick b p' :
  c <= maxInt → pool_ok c z p → Get pick p = Returned (b, p') →
  fresh_buffer c z b ∧ pool_ok c z p'.
Proof.
  intros Hc (Hcap & Hz & Hall) Hget. unfold Get in Hget.
  assert (∀ i, Forall (fresh_buffer c z) (delete i (pooled p))) as Hdel.
  { intros i. by apply Forall_delete. }
  destruct (pick ≫= _) as [[i b0]|] eqn:Hpick.
  - simplify_eq. split; [|split_and!; [done..|apply Hdel]].
    destruct pick as [j|]; simpl in Hpick; [|done].
    destruct (pooled p !! j) as [b1|] eqn:Hj; simpl in Hpick; simplify_eq.
    eapply Forall_lookup_1 in Hall; done.
  - rewrite Hcap in Hget. destruct (NewBuffer zero c) as [b0|] eqn:Hn; simplify_eq.
    split; [by eapply new_buffer_fresh | done].
Qed.

Lemma put_fresh c z p b p' :
  pool_ok c z p → wf zero b → Put (Some b) p = Returned p' → pool_ok c z p'.
Proof.
  intros (Hcap & Hz & Hall) Hwf Hput. simpl in Hput. wf_facts Hwf.
  assert (∃ b', (if zeroOnPut p then resetAndZeroAll zero b else Reset b) = (Returned tt, b') ∧
    wf zero b' ∧ Len b' = 0 ∧ (z = true → all_zero b')) as (b' & Hrun & Hwf' & Hlen & Hzero).
  { rewrite Hz. destruct z.
    - assert (resetAndZeroAll zero b =
        (Returned tt, MkBuffer (clear_range zero 0 (highWater b) (data b)) 0 0 0)) as Hr.
      { unfold resetAndZeroAll. go_step by done. go_step by (apply clear_slice_ok; lia). done. }
      assert (all_zero (MkBuffer (clear_range zero 0 (highWater b) (data b)) 0 0 0)) as Haz.
      { intros i x. simpl. rewrite lookup_clear_range by (unfold Cap in *; lia).
        case_decide; [congruence|]. apply (wf_zero zero b Hwf). lia. }
      eexists. split_and!; [exact Hr| |done|done].
      constructor; unfold Cap in *; simpl; rewrite ?len_clear_range; try lia. eauto.
    - destruct (wf_narrow zero b (data b) 0 0) as [Hw _]; try lia; [done..| |].
      { exact (wf_zero zero b Hwf). }
      eexists. split_and!; [done|exact Hw|done|done]. }
  rewrite Hrun in Hput. simplify_eq. unfold accepts.
  destruct (Z.eqb_spec (Cap b') (capacity p)) as [He|]; [|done].
  split_and!; [done..|]. constructor; [|done]. split_and!; done.
Qed.

(** Whatever buffers callers put back and the runtime drops, [Get] returns a well-formed
    buffer with no elements and the pool's capacity, and when the pool was built with
    [zeroOnPut], one whose backing array is all zero: no value put into a buffer earlier can be
    read from it. *)
Theorem pool_get_fresh c z p0 p pick b p' :
  c <= maxInt → NewPool c z = Returned p0 → rtc pool_step p0 p →
  Get pick p = Returned (b, p') → fresh_buffer c z b.
Proof.
  intros Hc Hnew Hreach Hget. cut (pool_ok c z p).
  { intros Hok. by eapply get_fresh. }
  assert (pool_ok c z p0) as Hok0.
  { unfold NewPool in Hnew. destruct (c <? 0); by simplify_eq. }
  clear Hnew Hget. induction Hreach as [|x y w Hstep _ IH]; [done|]. apply IH.
  destruct Hstep as [pk q b' q' Hg|q b' q' Hwf Hput|q i].
  - by eapply get_fresh.
  - by eapply put_fresh.
  - destruct Hok0 as (Hcap & Hz & Hall). split_and!; try done. simpl. by apply Forall_delete.
Qed.
End pool.

(** ** Witnesses *)

(** Five slots, of which slot 0 was consumed, 1 and 2 are live and 3 was written and removed. *)
Definition demo : Buffer Z := MkBuffer [9; 7; 8; 6; 0] 1 2 4.

Lemma demo_wf : wf 0 demo.
Proof.
  constructor; unfold Cap, len, maxInt; simpl; try lia.
  intros i x Hi Hx. do 5 (destruct i as [|i]; [simpl in *; try lia; congruence|]). done.
Qed.


Lemma wipe_witness :
  ∃ b', CompactAndZero 0 demo = (Returned tt, b') ∧ contents b' = [7; 8].
Proof.
  destruct (wipe_leaves_zero 0 demo demo_wf) as ((b' & Hrun & _ & Hc & _) & _).
  exists b'. split; [exact Hrun | exact Hc].
Defined.

Lemma fill_views_witness :
  ∃ b', (v ← AvailableBuffer; w ← view_append v [1; 2]; Append (Inside w)) demo =
    (Returned tt, b') ∧ contents b' = [7; 8; 1; 2].
Proof.
  destruct (fill_through_views 0 demo [1; 2] demo_wf) as [Ha _]; [discriminate|].
  destruct Ha as (b' & Hrun & _ & Hc); [unfold Cap, len; simpl; lia|].
  exists b'. split; [exact Hrun | exact Hc].
Defined.

Lemma grow_overflow_witness :
  ∃ b', grow 0 maxInt false demo = (Panicked slice_bounds, b') ∧ length_ b' < 0.
Proof. apply (grow_overflow_corrupts 0 demo false demo_wf). simpl. lia. Defined.

Definition demo_bytes : Buffer Byte.byte :=
  MkBuffer [Byte.x00; Byte.x41; Byte.x42; Byte.x00] 1 2 3.

Lemma demo_bytes_wf : wf Byte.x00 demo_bytes.
Proof.
  constructor; unfold Cap, len, maxInt; simpl; try lia.
  intros i x Hi Hx. do 4 (destruct i as [|i]; [simpl in *; try lia; congruence|]). done.
Qed.

Lemma bytes_stream_witness :
  ∃ b', Write [Byte.x43; Byte.x44; Byte.x45] demo_bytes = (Returned (2, Some ErrFull), b') ∧
    contents b' = [Byte.x41; Byte.x42; Byte.x43; Byte.x44].
Proof.
  destruct (bytes_stream_spec demo_bytes [Byte.x43; Byte.x44; Byte.x45] demo_bytes_wf)
    as ((b' & Hrun & _ & Hc & _) & _).
  exists b'. split; [exact Hrun | exact Hc].
Defined.

Lemma pool_get_witness :
  fresh_buffer 0 5 true (MkBuffer (replicate 5 0) 0 0 0).
Proof.
  set (p0 := MkPool [] 5 true : Pool (T := Z)).
  set (p1 := MkPool [MkBuffer (replicate 5 0) 0 0 0] 5 true).
  apply (pool_get_fresh 0 5 true p0 p1 (Some 0%nat) _ p0).
  - unfold maxInt. lia.
  - reflexivity.
  - apply rtc_once. apply (step_put 0 p0 demo p1 demo_wf). reflexivity.
  - reflexivity.
Defined.
End Buffer.
