(* ===== verification/Prog.v ===== *)
(** * Concurrent programs

    The concurrent queues are written as programs of atomic actions on a shared state. An action
    is one access to memory that another goroutine may touch (an atomic load, store or
    compare-and-swap, or the read or write of one slot), together with accesses to fields only
    the calling side owns. An action lists its possible results: one for a deterministic access,
    none when it panics, several when the runtime chooses. Go's [for] loops are [Loop], so a
    program may run forever.

    The file gives such programs two semantics, a run of one goroutine alone ([exec]) with
    a total correctness logic ([ends]), and the interleaving of many ([conf_step]) with a
    rely-guarantee logic with ghost state ([safe]) that is sound for it ([safe_threads]). Memory is sequentially consistent: Go's
    [sync/atomic] operations are, and the plain slot accesses are shown to be ordered by them. *)

From Stdlib Require Import FunctionalExtensionality.
From stdpp Require Import prelude list relations.
From S2P Require Import Prelude.

Module Prog.

Inductive prog (S A : Type) : Type :=
| Ret (a : A)
| Act {B : Type} (f : S → list (S * B)) (k : B → prog S A)
| Loop {I B : Type} (body : I → prog S (I + B)) (i : I) (k : B → prog S A)
| Wait {B : Type} (f : S → list (S * B)) (k : B → prog S A).
Arguments Ret {S A} _.
Arguments Act {S A B} _ _.
Arguments Loop {S A I B} _ _ _.
Arguments Wait {S A B} _ _.

Fixpoint bind {S A B} (p : prog S A) (k : A → prog S B) : prog S B :=
  match p with
  | Ret a => k a
  | Act f k' => Act f (λ b, bind (k' b) k)
  | Loop body i k' => Loop body i (λ b, bind (k' b) k)
  | Wait f k' => Wait f (λ b, bind (k' b) k)
  end.

#[export] Instance prog_ret S : MRet (prog S) := λ A a, Ret a.
#[export] Instance prog_bind S : MBind (prog S) := λ A B k p, bind p k.

(** ** Actions *)

Definition act {S B} (f : S → S * B) : prog S B := Act (λ s, [f s]) Ret.
Definition load {S B} (get : S → B) : prog S B := act (λ s, (s, get s)).
Definition modify {S} (f : S → S) : prog S unit := act (λ s, (f s, tt)).

(** An access that panics when it has no result, such as a slice index out of range: the
    goroutine is stuck. *)
Definition access {S B} (f : S → option (S * B)) : prog S B :=
  Act (λ s, match f s with Some r => [r] | None => [] end) Ret.

(** [cell.CompareAndSwap(old, new)]. *)
Definition cas {S} (get : S → Z) (set : Z → S → S) (old new : Z) : prog S bool :=
  act (λ s, if get s =? old then (set new s, true) else (s, false)).

(** An action the goroutine waits for: it is blocked while there is no result, as on a locked
    mutex or an empty channel. *)
Definition await {S B} (f : S → list (S * B)) : prog S B := Wait f Ret.

(** [for i := init; ; { body }], where the body continues with [inl] and leaves with [inr]. *)
Definition loop {S I B} (body : I → prog S (I + B)) (init : I) : prog S B := Loop body init Ret.

Definition forever {S B} (body : prog S (option B)) : prog S B :=
  loop (λ _ : unit, r ← body; mret (match r with Some b => inr b | None => inl tt end)) tt.

(** [for range list { body }]. *)
Fixpoint for_each {S X} (l : list X) (body : X → prog S unit) : prog S unit :=
  match l with
  | [] => Ret tt
  | x :: l => bind (body x) (λ _, for_each l body)
  end.

Fixpoint collect {S X B} (l : list X) (body : X → prog S B) : prog S (list B) :=
  match l with
  | [] => Ret []
  | x :: l => bind (body x) (λ b, bind (collect l body) (λ bs, Ret (b :: bs)))
  end.

(** ** One goroutine alone *)

Definition step {S A} (p : prog S A) (s : S) : list (S * prog S A) :=
  match p with
  | Ret _ => []
  | Act f k => (λ '(s', b), (s', k b)) <$> f s
  | Loop body i k =>
      [(s, bind (body i) (λ r, match r with inl i' => Loop body i' k | inr b => k b end))]
  | Wait f k => (λ '(s', b), (s', k b)) <$> f s
  end.

(** The goroutine is at a point where it may be blocked. *)
Definition waits {S A} (p : prog S A) : bool :=
  match p with Wait _ _ => true | _ => false end.

Definition result {S A} (p : prog S A) : option A :=
  match p with Ret a => Some a | _ => None end.

Fixpoint exec {S A} (fuel : nat) (p : prog S A) (s : S) : option (S * A) :=
  match result p with
  | Some a => Some (s, a)
  | None =>
      match fuel, step p s with
      | Datatypes.S fuel, (s', p') :: _ => exec fuel p' s'
      | _, _ => None
      end
  end.

Section ends.
Context {S : Type}.
Implicit Types s : S.

(** ** Binding *)

Lemma bind_assoc {A B C} (p : prog S A) (k : A → prog S B) (h : B → prog S C) :
  bind (bind p k) h = bind p (λ a, bind (k a) h).
Proof.
  induction p as [A a|A B' f k' IH|A I B' body _ i k' IH|A B' f k' IH]; simpl; [done|..];
    f_equal; apply functional_extensionality; intros b; apply IH.
Qed.

Lemma step_bind {A B} (p : prog S A) (k : A → prog S B) s :
  result p = None → step (bind p k) s = (λ '(s', p'), (s', bind p' k)) <$> step p s.
Proof.
  destruct p as [a|B' f k'|I B' body i k'|B' f k']; intros Hr; simpl; [done|..].
  - rewrite <- list_fmap_compose. apply list_fmap_ext. by intros ? [].
  - rewrite bind_assoc. do 3 f_equal. apply functional_extensionality. by intros [].
  - rewrite <- list_fmap_compose. apply list_fmap_ext. by intros ? [].
Qed.

Lemma waits_bind {A B} (p : prog S A) (k : A → prog S B) :
  waits p = true → waits (bind p k) = true.
Proof. by destruct p. Qed.

Lemma result_bind {A B} (p : prog S A) (k : A → prog S B) :
  result p = None → result (bind p k) = None.
Proof. by destruct p. Qed.

(** ** Total correctness of a run alone

    [ends p s Q]: started in [s] with no other goroutine running, [p] returns, whatever the runtime
    chooses, and [Q] holds of its result and final state. *)
Inductive returns {A} (Q : A → S → Prop) (p : prog S A) (s : S) : Prop :=
| returns_now a : result p = Some a → Q a s → returns Q p s
| returns_later :
    result p = None → step p s ≠ [] → (∀ s' p', (s', p') ∈ step p s → returns Q p' s') →
    returns Q p s.

Definition ends {A} (p : prog S A) (s : S) (Q : A → S → Prop) : Prop := returns Q p s.

(** What [ends] promises can be observed by executing the program. *)
Lemma ends_exec {A} (p : prog S A) s (Q : A → S → Prop) :
  ends p s Q → ∃ fuel s' a, exec fuel p s = Some (s', a) ∧ Q a s'.
Proof.
  induction 1 as [p s a Hr HQ|p s Hr Hne _ IH].
  - exists 0%nat, s, a. simpl. by rewrite Hr.
  - destruct (step p s) as [|[s1 p1] rest] eqn:Hs; [done|].
    destruct (IH s1 p1) as (n & s' & a & Hn & HQ); [by left|].
    exists (Datatypes.S n), s', a. simpl. by rewrite Hr, Hs.
Qed.

Lemma ends_ret {A} (a : A) s (Q : A → S → Prop) : Q a s → ends (mret a) s Q.
Proof. intros HQ. by eapply returns_now. Qed.

Lemma ends_bind {A B} (p : prog S A) (k : A → prog S B) s (Q : B → S → Prop) :
  ends p s (λ a s', ends (k a) s' Q) → ends (p ≫= k) s Q.
Proof.
  unfold mbind, prog_bind. intros H.
  remember (λ a s', ends (k a) s' Q) as R eqn:HR. induction H as [p s a Hr HQ|p s Hr Hne _ IH]; subst R.
  - destruct p; simpl in Hr; by simplify_eq.
  - apply returns_later; [by apply result_bind|..]; rewrite step_bind by done.
    + by intros ?%fmap_nil_inv.
    + intros s' p' ([s1 p1] & [= -> ->] & Hin)%list_elem_of_fmap. by apply IH.
Qed.

Lemma ends_mono {A} (p : prog S A) s (Q Q' : A → S → Prop) :
  ends p s Q → (∀ a s', Q a s' → Q' a s') → ends p s Q'.
Proof.
  intros H HQ'. induction H; [eapply returns_now|eapply returns_later]; eauto.
Qed.

Lemma ends_seq {A B} (p : prog S A) (k : A → prog S B) s (R : A → S → Prop)
    (Q : B → S → Prop) :
  ends p s R → (∀ a s', R a s' → ends (k a) s' Q) → ends (p ≫= k) s Q.
Proof. intros Hp Hk. apply ends_bind. by eapply ends_mono. Qed.

(** An access whose result the runtime chooses. *)
Lemma ends_choose {B} (f : S → list (S * B)) s (Q : B → S → Prop) :
  f s ≠ [] → (∀ s' b, (s', b) ∈ f s → Q b s') → ends (Act f Ret) s Q.
Proof.
  intros Hne HQ. apply returns_later; [done|simpl; by intros ?%fmap_nil_inv|].
  intros s' p' ([s1 b] & [= -> ->] & Hin)%list_elem_of_fmap. apply ends_ret. by apply HQ.
Qed.

(** A wait that finds a result at once. *)
Lemma ends_await {B} (f : S → list (S * B)) s (Q : B → S → Prop) :
  f s ≠ [] → (∀ s' b, (s', b) ∈ f s → Q b s') → ends (await f) s Q.
Proof.
  intros Hne HQ. apply returns_later; [done|simpl; by intros ?%fmap_nil_inv|].
  intros s' p' ([s1 b] & [= -> ->] & Hin)%list_elem_of_fmap. apply ends_ret. by apply HQ.
Qed.

Lemma ends_act {B} (f : S → S * B) s (Q : B → S → Prop) :
  Q (f s).2 (f s).1 → ends (act f) s Q.
Proof.
  intros HQ. apply ends_choose; [done|]. intros s' b Hin%list_elem_of_singleton.
  by rewrite <- Hin in HQ.
Qed.

Lemma ends_load {B} (get : S → B) s (Q : B → S → Prop) : Q (get s) s → ends (load get) s Q.
Proof. exact (ends_act (λ s, (s, get s)) s Q). Qed.

Lemma ends_modify (f : S → S) s (Q : unit → S → Prop) : Q tt (f s) → ends (modify f) s Q.
Proof. exact (ends_act (λ s, (f s, tt)) s Q). Qed.

Lemma ends_access {B} (f : S → option (S * B)) s s' b (Q : B → S → Prop) :
  f s = Some (s', b) → Q b s' → ends (access f) s Q.
Proof.
  intros Hf HQ. apply ends_choose; rewrite Hf; [done|]. intros s1 b1 Hin%list_elem_of_singleton.
  by simplify_eq.
Qed.

Lemma ends_cas (get : S → Z) set old new s (Q : bool → S → Prop) :
  get s = old → Q true (set new s) → ends (cas get set old new) s Q.
Proof. intros Hg HQ. apply ends_act. by rewrite Hg, Z.eqb_refl. Qed.

Lemma ends_loop {I B} (body : I → prog S (I + B)) i s (Q : B → S → Prop) :
  ends (body i) s (λ r s', match r with inl i' => ends (loop body i') s' Q | inr b => Q b s' end) →
  ends (loop body i) s Q.
Proof.
  intros H. apply returns_later; [done..|]. intros s' p' Hin%list_elem_of_singleton. simplify_eq.
  apply (ends_bind (body i)). eapply ends_mono; [exact H|].
  intros [i'|b] s1 HQ; [exact HQ|by apply ends_ret].
Qed.

(** A loop with an invariant that bounds the rounds left. *)
Lemma ends_loop_wf {I B} (P : nat → I → S → Prop) (body : I → prog S (I + B)) n i s
    (Q : B → S → Prop) :
  (∀ n i s, P n i s → ends (body i) s (λ r s',
     match r with inl i' => ∃ m, P m i' s' ∧ (m < n)%nat | inr b => Q b s' end)) →
  P n i s → ends (loop body i) s Q.
Proof.
  intros Hbody. revert i s. induction (lt_wf n) as [n _ IH]. intros i s HP.
  apply ends_loop. eapply ends_mono; [by apply (Hbody n)|]. intros [i'|b] s'; [|done].
  intros (m & HP' & Hlt). by apply (IH m).
Qed.

(** The same with a measure of the loop's variable. *)
Lemma ends_loop_inv {I B} (P : I → S → Prop) (m : I → nat) (body : I → prog S (I + B)) i s
    (Q : B → S → Prop) :
  (∀ i s, P i s → ends (body i) s (λ r s',
     match r with inl i' => P i' s' ∧ (m i' < m i)%nat | inr b => Q b s' end)) →
  P i s → ends (loop body i) s Q.
Proof.
  intros Hbody HP. apply (ends_loop_wf (λ n i s, n = m i ∧ P i s) _ (m i)); [|done].
  intros n j s' [-> HP']. eapply ends_mono; [by apply Hbody|]. intros [i'|b] s1; [|done].
  intros [HP1 Hlt]. by eexists.
Qed.

(** A loop that leaves in its first round, as a retry loop does when nothing interferes. *)
Lemma ends_forever {B} (body : prog S (option B)) s (Q : B → S → Prop) :
  ends body s (λ r s', ∃ b, r = Some b ∧ Q b s') → ends (forever body) s Q.
Proof.
  intros H. apply ends_loop, ends_bind. eapply ends_mono; [exact H|].
  intros r s' (b & -> & HQ). by apply ends_ret.
Qed.

(** A [for range] with an invariant over the items done. *)
Lemma ends_for_each {X} (l : list X) (body : X → prog S unit) (I : list X → S → Prop) s :
  I [] s →
  (∀ done x rest s, l = done ++ x :: rest → I done s → ends (body x) s (λ _ s', I (done ++ [x]) s')) →
  ends (for_each l body) s (λ _ s', I l s').
Proof.
  intros H0 Hbody.
  cut (∀ rest done s, l = done ++ rest → I done s → ends (for_each rest body) s (λ _ s', I l s')).
  { intros H. by apply (H l []). }
  induction rest as [|x rest IH]; intros done s' Hl HI; simpl.
  - apply ends_ret. by rewrite Hl, app_nil_r.
  - apply (ends_seq (body x) _ _ (λ _ s', I (done ++ [x]) s')); [by eapply Hbody|].
    intros _ s1 HI1. apply (IH (done ++ [x])); [by rewrite <- app_assoc|done].
Qed.

Lemma ends_collect {X B} (l : list X) (body : X → prog S B) (I : list B → S → Prop) s :
  I [] s →
  (∀ i x bs s, l !! i = Some x → length bs = i → I bs s →
     ends (body x) s (λ b s', I (bs ++ [b]) s')) →
  ends (collect l body) s (λ bs s', length bs = length l ∧ I bs s').
Proof.
  intros H0 Hbody.
  cut (∀ rest pre bs s, l = pre ++ rest → length bs = length pre → I bs s →
         ends (collect rest body) s
           (λ bs' s', length bs' = length rest ∧ I (bs ++ bs') s')).
  { intros H. apply (H l [] []); done. }
  induction rest as [|x rest IH]; intros pre bs s' Hl Hlen HI; simpl.
  - apply ends_ret. by rewrite app_nil_r.
  - apply (ends_seq (body x) _ _ (λ b s', I (bs ++ [b]) s')).
    { apply (Hbody (length pre)); [|done..]. rewrite Hl. by apply list_lookup_middle. }
    intros b s1 HI1. eapply (ends_seq (collect rest body)).
    { apply (IH (pre ++ [x]) (bs ++ [b])); [by rewrite <- app_assoc| |done].
      rewrite !length_app. simpl. lia. }
    intros bs' s2 [Hl2 HI2]. apply ends_ret. rewrite <- app_assoc in HI2. simpl. auto.
Qed.
End ends.

(** ** Interleaving *)

(** One step of one of the goroutines. *)
Definition conf (S A : Type) : Type := S * list (prog S A).

Inductive conf_step {S A} : conf S A → conf S A → Prop :=
| conf_step_at s ts i p s' p' :
    ts !! i = Some p → (s', p') ∈ step p s → conf_step (s, ts) (s', <[i := p']> ts).

(** One goroutine may run while the others wait. *)
Lemma exec_conf {S A} n (p : prog S A) (s s' : S) (a : A) ts i :
  exec n p s = Some (s', a) → ts !! i = Some p →
  rtc conf_step (s, ts) (s', <[i := Ret a]> ts).
Proof.
  revert p s ts. induction n as [|n IH]; intros p s ts Hn Hp; simpl in Hn.
  - destruct p; simpl in Hn; simplify_eq. by rewrite list_insert_id.
  - destruct (result p) as [a'|] eqn:Hr.
    + destruct p; simpl in *; simplify_eq. by rewrite list_insert_id.
    + destruct (step p s) as [|[s1 p1] rest] eqn:Hs; [done|].
      eapply rtc_l; [apply (conf_step_at _ _ i p s1 p1); [done|rewrite Hs; by left]|].
      rewrite <- (list_insert_insert_eq ts i (Ret a) p1). apply (IH p1); [done|].
      apply list_lookup_insert_eq. by eapply lookup_lt_Some.
Qed.

(** The first [n] steps of a goroutine, as far as it gets. *)
Fixpoint drive {S A} (n : nat) (p : prog S A) (s : S) : S * prog S A :=
  match n with
  | O => (s, p)
  | Datatypes.S n => match step p s with (s', p') :: _ => drive n p' s' | [] => (s, p) end
  end.

Lemma drive_conf {S A} n (p : prog S A) (s : S) ts i :
  ts !! i = Some p → rtc conf_step (s, ts) ((drive n p s).1, <[i := (drive n p s).2]> ts).
Proof.
  revert p s ts. induction n as [|n IH]; intros p s ts Hp; simpl; [by rewrite list_insert_id|].
  destruct (step p s) as [|[s1 p1] more] eqn:Hs; simpl; [by rewrite list_insert_id|].
  eapply rtc_l; [apply (conf_step_at _ _ i p s1 p1); [done|rewrite Hs; by left]|].
  rewrite <- (list_insert_insert_eq ts i (drive n p1 s1).2 p1). apply IH.
  apply list_lookup_insert_eq. by eapply lookup_lt_Some.
Qed.

(** ** Rely and guarantee

    [G] is ghost state, chosen anew at each step. [safe n p sg] says that for [n] steps of [p]
    interleaved with steps of the others that respect [rely] and [inv], [p] has returned, has a
    step to take (it never panics) or is blocked and [quiet] holds, each of its steps respects
    [guar] and [inv], and if it returns, its result satisfies [post]. *)
Definition never {X : Type} : X → Prop := λ _, False.

Section safe.
Context {S G : Type} (inv : S → G → Prop) {quiet : S * G → Prop}.

Fixpoint safe {A} (rely guar : S * G → S * G → Prop) (post : A → S * G → Prop)
    (n : nat) (p : prog S A) (sg : S * G) : Prop :=
  match n with
  | O => True
  | Datatypes.S n =>
      ∀ s g, rely sg (s, g) → inv s g →
      (∀ a, result p = Some a → post a (s, g)) ∧
      (result p = None → step p s = [] → waits p = true ∧ quiet (s, g)) ∧
      (∀ s' p', (s', p') ∈ step p s →
         ∃ g', guar (s, g) (s', g') ∧ inv s' g' ∧ safe rely guar post n p' (s', g'))
  end.

Section rules.
Context {A : Type} (rely guar : S * G → S * G → Prop) `{!PreOrder rely}.
Implicit Types post : A → S * G → Prop.

Lemma safe_rely post n (p : prog S A) sg sg' :
  safe rely guar post n p sg → rely sg sg' → safe rely guar post n p sg'.
Proof.
  destruct n as [|n]; [done|]. intros Hs Hr s g Hr' Hi. apply Hs; [|done]. by trans sg'.
Qed.

Lemma safe_less post n m (p : prog S A) sg :
  safe rely guar post n p sg → (m ≤ n)%nat → safe rely guar post m p sg.
Proof.
  revert m p sg. induction n as [|n IH]; intros m p sg Hs Hle.
  - by replace m with 0%nat by lia.
  - destruct m as [|m]; [done|]. intros s g Hr Hi.
    destruct (Hs s g Hr Hi) as (Hpost & Hprog & Hstep). split_and!; [done..|].
    intros s' p' Hin. destruct (Hstep s' p' Hin) as (g' & Hg & Hi' & Hs').
    exists g'. split_and!; [done..|]. apply IH; [done|lia].
Qed.
End rules.

Section composition.
Context (rely guar : S * G → S * G → Prop) `{!PreOrder rely}.

Lemma safe_ret {A} (post : A → S * G → Prop) n a sg :
  (∀ s g, rely sg (s, g) → inv s g → post a (s, g)) →
  safe rely guar post n (Ret a) sg.
Proof.
  intros Hp. destruct n as [|n]; [done|]. intros s g Hr Hi. split_and!; [|done|].
  - intros a' [= <-]. by apply Hp.
  - intros s' p' Hin. by apply elem_of_nil in Hin.
Qed.

Lemma safe_post {A} (post post' : A → S * G → Prop) n (p : prog S A) sg :
  safe rely guar post n p sg → (∀ a sg, post a sg → post' a sg) →
  safe rely guar post' n p sg.
Proof.
  revert p sg. induction n as [|n IH]; intros p sg Hs Hp; [done|]. intros s g Hr Hi.
  destruct (Hs s g Hr Hi) as (Hpost & Hprog & Hstep). split_and!; [eauto..|].
  intros s' p' Hin. destruct (Hstep s' p' Hin) as (g' & ? & ? & ?). exists g'. eauto.
Qed.

(** One access that does not panic, after which [k] continues. *)
Lemma safe_access {A B} (post : A → S * G → Prop) n (f : S → option (S * B))
    (k : B → prog S A) sg :
  (∀ s g, rely sg (s, g) → inv s g →
     ∃ s' b g', f s = Some (s', b) ∧ guar (s, g) (s', g') ∧ inv s' g' ∧
       safe rely guar post n (k b) (s', g')) →
  safe rely guar post n (access f ≫= k) sg.
Proof.
  intros Hk. destruct n as [|n]; [done|]. intros s g Hr Hi.
  destruct (Hk s g Hr Hi) as (s1 & b & g' & Hf & Hg & Hi' & Hs).
  split_and!; [done|by simpl; rewrite Hf|].
  intros s' p' Hin. simpl in Hin. rewrite Hf in Hin. apply list_elem_of_singleton in Hin.
  simplify_eq. exists g'. split_and!; [done..|]. eapply safe_less; [done|lia].
Qed.

(** One deterministic action, after which [k] continues. *)
Lemma safe_act {A B} (post : A → S * G → Prop) n (f : S → S * B) (k : B → prog S A) sg :
  (∀ s g, rely sg (s, g) → inv s g →
     ∃ g', guar (s, g) ((f s).1, g') ∧ inv (f s).1 g' ∧
       safe rely guar post n (k (f s).2) ((f s).1, g')) →
  safe rely guar post n (act f ≫= k) sg.
Proof.
  intros Hk. apply (safe_access post n (λ s, Some (f s))). intros s g Hr Hi.
  destruct (Hk s g Hr Hi) as (g' & ? & ? & ?). exists (f s).1, (f s).2, g'.
  split_and!; [by destruct (f s)|done..].
Qed.

(** An action whose result the runtime chooses, and one that may block, as the last action. *)
Lemma safe_choose_last {B} (post : B → S * G → Prop) n (f : S → list (S * B)) sg :
  (∀ s g, rely sg (s, g) → inv s g → f s ≠ [] ∧
     ∀ s' b, (s', b) ∈ f s → ∃ g', guar (s, g) (s', g') ∧ inv s' g' ∧
       ∀ sg', rely (s', g') sg' → inv sg'.1 sg'.2 → post b sg') →
  safe rely guar post n (Act f Ret) sg.
Proof.
  intros Hk. destruct n as [|n]; [done|]. intros s g Hr Hi. destruct (Hk s g Hr Hi) as [Hne Hst].
  split_and!; [done|by simpl; intros _ ?%fmap_nil_inv|].
  intros s' p' ([s1 b] & [= -> ->] & Hin)%list_elem_of_fmap.
  destruct (Hst s1 b Hin) as (g' & Hg & Hi' & Hp). exists g'. split_and!; [done..|].
  apply safe_ret. intros s2 g2 Hr2 Hi2. by apply Hp.
Qed.

Lemma safe_await_last {B} (post : B → S * G → Prop) n (f : S → list (S * B)) sg :
  (∀ s g, rely sg (s, g) → inv s g → (f s = [] → quiet (s, g)) ∧
     ∀ s' b, (s', b) ∈ f s → ∃ g', guar (s, g) (s', g') ∧ inv s' g' ∧
       ∀ sg', rely (s', g') sg' → inv sg'.1 sg'.2 → post b sg') →
  safe rely guar post n (await f) sg.
Proof.
  intros Hk. destruct n as [|n]; [done|]. intros s g Hr Hi. destruct (Hk s g Hr Hi) as [Hne Hst].
  split_and!; [done|intros _ Hnil%fmap_nil_inv; by split; [|apply Hne]|].
  intros s' p' ([s1 b] & [= -> ->] & Hin)%list_elem_of_fmap.
  destruct (Hst s1 b Hin) as (g' & Hg & Hi' & Hp). exists g'. split_and!; [done..|].
  apply safe_ret. intros s2 g2 Hr2 Hi2. by apply Hp.
Qed.

Lemma safe_bind {A B} (mid : A → S * G → Prop) (post : B → S * G → Prop) n
    (p : prog S A) (k : A → prog S B) sg :
  safe rely guar mid n p sg →
  (∀ a sg m, (m ≤ n)%nat → mid a sg → safe rely guar post m (k a) sg) →
  safe rely guar post n (p ≫= k) sg.
Proof.
  unfold mbind, prog_bind. revert p sg. induction n as [|n IH]; intros p sg Hs Hk; [done|].
  destruct (result p) as [a|] eqn:Hres.
  - destruct p; simpl in *; simplify_eq. intros s g Hr Hi.
    destruct (Hs s g Hr Hi) as (Hmid & _ & _).
    assert (safe rely guar post (Datatypes.S n) (k a) (s, g)) as Hka.
    { apply Hk; [done|]. by apply Hmid. }
    by apply (Hka s g).
  - intros s g Hr Hi. destruct (Hs s g Hr Hi) as (_ & Hprog & Hstep). split_and!.
    { intros b Hb. rewrite result_bind in Hb by done. done. }
    { intros _. rewrite step_bind by done. intros Hnil%fmap_nil_inv.
      destruct (Hprog Hres Hnil) as [Hw Hq]. split; [by apply waits_bind|done]. }
    intros s' p' Hin. rewrite step_bind in Hin by done.
    apply list_elem_of_fmap in Hin as ([s1 p1] & [= -> ->] & Hin).
    destruct (Hstep _ _ Hin) as (g' & Hg & Hi' & Hs'). exists g'. split_and!; [done..|].
    apply IH; [done|]. intros a sg' m Hle. apply Hk. lia.
Qed.

(** The same rules for a last action, and for the actions by name. *)
Lemma safe_access_last {B} (post : B → S * G → Prop) n (f : S → option (S * B)) sg :
  (∀ s g, rely sg (s, g) → inv s g →
     ∃ s' b g', f s = Some (s', b) ∧ guar (s, g) (s', g') ∧ inv s' g' ∧
       ∀ sg', rely (s', g') sg' → inv sg'.1 sg'.2 → post b sg') →
  safe rely guar post n (access f) sg.
Proof.
  intros Hk. apply (safe_access post n f mret). intros s g Hr Hi.
  destruct (Hk s g Hr Hi) as (s' & b & g' & Hf & Hg & Hi' & Hp). exists s', b, g'.
  split_and!; [done..|]. apply safe_ret. intros s1 g1 Hr1 Hi1. by apply Hp.
Qed.

Lemma safe_modify {A} (post : A → S * G → Prop) n (f : S → S) (k : unit → prog S A) sg :
  (∀ s g, rely sg (s, g) → inv s g →
     ∃ g', guar (s, g) (f s, g') ∧ inv (f s) g' ∧ safe rely guar post n (k tt) (f s, g')) →
  safe rely guar post n (modify f ≫= k) sg.
Proof. intros Hk. by apply safe_act. Qed.

Lemma safe_modify_last (post : unit → S * G → Prop) n (f : S → S) sg :
  (∀ s g, rely sg (s, g) → inv s g →
     ∃ g', guar (s, g) (f s, g') ∧ inv (f s) g' ∧
       ∀ sg', rely (f s, g') sg' → inv sg'.1 sg'.2 → post tt sg') →
  safe rely guar post n (modify f) sg.
Proof.
  intros Hk. apply (safe_access_last post n (λ s, Some (f s, tt))). intros s g Hr Hi.
  destruct (Hk s g Hr Hi) as (g' & ? & ? & ?). by exists (f s), tt, g'.
Qed.

(** A load changes nothing. *)
Lemma safe_load {A B} (post : A → S * G → Prop) n (get : S → B) (k : B → prog S A) sg :
  Reflexive guar →
  (∀ s g, rely sg (s, g) → inv s g → safe rely guar post n (k (get s)) (s, g)) →
  safe rely guar post n (load get ≫= k) sg.
Proof. intros Hrefl Hk. apply safe_act. intros s g Hr Hi. exists g. by split_and!; [..|apply Hk]. Qed.

(** A [for range] and a collecting loop with an invariant over the items done. *)
Lemma safe_for_each {X} (l : list X) (body : X → prog S unit) (I : list X → S * G → Prop) n sg :
  (∀ l sg sg', I l sg → rely sg sg' → I l sg') →
  I [] sg →
  (∀ done x rest sg m, l = done ++ x :: rest → I done sg →
     safe rely guar (λ _, I (done ++ [x])) m (body x) sg) →
  safe rely guar (λ _, I l) n (for_each l body) sg.
Proof.
  intros Hstable H0 Hbody.
  cut (∀ rest done m sg, l = done ++ rest → I done sg →
    safe rely guar (λ _, I l) m (for_each rest body) sg); [intros H; by apply (H l [])|].
  induction rest as [|x rest IH]; intros done m sg' Hl HI; simpl.
  - apply safe_ret. intros s g Hr _. rewrite Hl, app_nil_r. by eapply Hstable.
  - eapply (safe_bind _ _ m (body x)); [by eapply Hbody|].
    intros u sg1 m' _ HI1. apply (IH (done ++ [x])); [by rewrite <- app_assoc|done].
Qed.

Lemma safe_collect {X B} (l : list X) (body : X → prog S B) (I : list B → S * G → Prop) n sg :
  (∀ bs sg sg', I bs sg → rely sg sg' → I bs sg') →
  I [] sg →
  (∀ i x bs sg m, l !! i = Some x → length bs = i → I bs sg →
     safe rely guar (λ b, I (bs ++ [b])) m (body x) sg) →
  safe rely guar (λ bs sg, length bs = length l ∧ I bs sg) n (collect l body) sg.
Proof.
  intros Hstable H0 Hbody.
  cut (∀ rest pre bs m sg, l = pre ++ rest → length bs = length pre → I bs sg →
    safe rely guar (λ bs' sg, length bs' = length rest ∧ I (bs ++ bs') sg) m
      (collect rest body) sg); [intros H; by apply (H l [] [])|].
  induction rest as [|x rest IH]; intros pre bs m sg' Hl Hlen HI; simpl.
  - apply safe_ret. intros s g Hr _. rewrite app_nil_r. split; [done|]. by eapply Hstable.
  - eapply (safe_bind _ _ m (body x)).
    { apply (Hbody (length pre)); [|done..]. rewrite Hl. by apply list_lookup_middle. }
    intros b sg1 m1 _ HI1. eapply (safe_bind _ _ m1 (collect rest body)).
    { apply (IH (pre ++ [x]) (bs ++ [b])); [by rewrite <- app_assoc| |done].
      rewrite !length_app. simpl. lia. }
    intros bs' sg2 m2 _ [Hl2 HI2]. apply safe_ret. intros s g Hr _. rewrite <- app_assoc in HI2.
    simpl. split; [lia|]. by eapply Hstable.
Qed.

(** A loop with invariant [I] over its variable. *)
Lemma safe_loop {X B} (I : X → S * G → Prop) (post : B → S * G → Prop) n
    (body : X → prog S (X + B)) i sg :
  (∀ i sg m, I i sg → safe rely guar
     (λ r sg, match r with inl i' => I i' sg | inr b =>
        ∀ sg', rely sg sg' → inv sg'.1 sg'.2 → post b sg' end) m (body i) sg) →
  (∀ sg, guar sg sg) → (∀ i sg sg', I i sg → rely sg sg' → I i sg') → I i sg →
  safe rely guar post n (loop body i) sg.
Proof.
  intros Hbody Hrefl Hstable. revert i sg. induction n as [n IH] using lt_wf_ind.
  intros i sg HI. destruct n as [|n]; [done|]. intros s g Hr Hi. split_and!; [done..|].
  intros s' p' Hin. simpl in Hin. apply list_elem_of_singleton in Hin. simplify_eq.
  exists g. split_and!; [by apply Hrefl|done|].
  eapply (safe_bind _ post n (body i)).
  - apply Hbody. by eapply Hstable.
  - intros [i'|b] sg' m Hle Hmid; simpl in Hmid.
    + apply IH; [lia|done].
    + apply safe_ret. intros s1 g1 Hr1 Hi1. by apply Hmid.
Qed.

(** ** From interleaved to alone

    A program without loops that is safe among other goroutines also returns when it runs alone,
    with its postcondition. *)
Inductive loop_free {A} : prog S A → Prop :=
| loop_free_ret a : loop_free (Ret a)
| loop_free_act {B} (f : S → list (S * B)) k : (∀ b, loop_free (k b)) → loop_free (Act f k).

Lemma loop_free_bind {A B} (p : prog S A) (k : A → prog S B) :
  loop_free p → (∀ a, loop_free (k a)) → loop_free (p ≫= k).
Proof.
  unfold mbind, prog_bind. intros Hp Hk. induction Hp; simpl; [done|]. by constructor.
Qed.

Lemma loop_free_for_each {X} (l : list X) (body : X → prog S unit) :
  (∀ x, loop_free (body x)) → loop_free (for_each l body).
Proof.
  intros Hb. induction l as [|x l IH]; simpl; [constructor|]. by apply loop_free_bind.
Qed.

Lemma loop_free_collect {X B} (l : list X) (body : X → prog S B) :
  (∀ x, loop_free (body x)) → loop_free (collect l body).
Proof.
  intros Hb. induction l as [|x l IH]; simpl; [constructor|].
  apply loop_free_bind; [done|]. intros b. apply loop_free_bind; [done|]. constructor.
Qed.

Lemma loop_free_atom {B} (f : S → list (S * B)) : loop_free (Act f Ret).
Proof. by do 2 constructor. Qed.

Lemma safe_ends {A} (post : A → S * G → Prop) (p : prog S A) s g :
  loop_free p → inv s g → (∀ n, safe rely guar post n p (s, g)) →
  ends p s (λ a s', ∃ g', inv s' g' ∧ post a (s', g') ∧ rtc guar (s, g) (s', g')).
Proof.
  intros Hlf Hi Hsafe.
  cut (∃ n, ∀ g, inv s g → safe rely guar post n p (s, g) →
         ends p s (λ a s', ∃ g', inv s' g' ∧ post a (s', g') ∧ rtc guar (s, g) (s', g'))).
  { intros [n Hn]. by apply Hn. }
  clear g Hi Hsafe. revert s. induction Hlf as [a|B f k Hk IH]; intros s.
  - exists 1%nat. intros g Hi Hs. destruct (Hs s g) as (Hpost & _); [reflexivity|done|].
    apply ends_ret. exists g. split_and!; [done|by apply Hpost|done].
  - assert (∃ n, ∀ s' b, (s', b) ∈ f s → ∀ g, inv s' g → safe rely guar post n (k b) (s', g) →
      ends (k b) s' (λ a s2, ∃ g', inv s2 g' ∧ post a (s2, g') ∧ rtc guar (s', g) (s2, g'))) as [n Hn].
    { induction (f s) as [|[s1 b1] l IHl]; [exists 0%nat; by intros ? ? ?%elem_of_nil|].
      destruct IHl as [n Hn]. destruct (IH b1 s1) as [n1 Hn1]. exists (n `max` n1)%nat.
      intros s' b [[= -> ->]|Hin]%elem_of_cons g Hi Hs.
      - apply Hn1; [done|]. eapply safe_less; [done|lia].
      - apply Hn; [done..|]. eapply safe_less; [done|lia]. }
    exists (Datatypes.S n). intros g Hi Hs.
    destruct (Hs s g) as (_ & Hprog & Hst); [reflexivity|done|].
    apply returns_later; [done|intros Hnil; by destruct (Hprog eq_refl Hnil)|]. intros s' p' Hin.
    destruct (Hst s' p' Hin) as (g' & Hg & Hi' & Hs').
    apply list_elem_of_fmap in Hin as ([s1 b] & [= -> ->] & Hin).
    eapply ends_mono; [by apply (Hn s1 b)|]. intros a s2 (g2 & ? & ? & ?). exists g2.
    split_and!; [done..|]. by eapply rtc_l.
Qed.
End composition.

End safe.

(** ** Soundness

    Threads [i] with relies [rely i], each guaranteeing the relies of all others. *)
Section threads.
Context {S G A : Type} (inv : S → G → Prop) (quiet : nat → S * G → Prop).
Context (rely guar : nat → S * G → S * G → Prop)
  (post : nat → A → S * G → Prop).
Context `{!∀ i, PreOrder (rely i)}.
Hypothesis guar_rely : ∀ i j sg sg', i ≠ j → guar i sg sg' → rely j sg sg'.

Definition safe_conf (n : nat) (g : G) (c : conf S A) : Prop :=
  inv c.1 g ∧ ∀ i p, c.2 !! i = Some p →
    safe inv (quiet := quiet i) (rely i) (guar i) (post i) n p (c.1, g).

Lemma safe_conf_step n g c c' :
  safe_conf (Datatypes.S n) g c → conf_step c c' → ∃ g', safe_conf n g' c'.
Proof.
  intros [Hi Hall] Hstep. destruct Hstep as [s ts i p s' p' Hp Hin]. simpl in *.
  destruct (Hall i p Hp s g) as (_ & _ & Hst); [reflexivity|done|].
  destruct (Hst s' p' Hin) as (g' & Hg & Hi' & Hs'). exists g'. split; [done|]. simpl.
  intros j q Hq. destruct (decide (i = j)) as [<-|Hne].
  - rewrite list_lookup_insert_eq in Hq by (by eapply lookup_lt_Some). by simplify_eq.
  - rewrite list_lookup_insert_ne in Hq by done.
    eapply safe_rely; [apply _| |by eapply guar_rely].
    apply (safe_less _ _ _ _ (Datatypes.S n)); [exact (Hall j q Hq)|lia].
Qed.

(** After any finite execution the invariant holds, every thread that has returned satisfies its
    postcondition, and every other thread can take a step or is quietly blocked; so it is in any
    state that the environment may change this one to. *)
Lemma safe_threads_later g c c' :
  (∀ n, safe_conf n g c) → rtc conf_step c c' →
  ∃ g', inv c'.1 g' ∧
    (∀ i a, c'.2 !! i = Some (Ret a) → post i a (c'.1, g')) ∧
    (∀ i p s, c'.2 !! i = Some p → result p = None → rely i (c'.1, g') (s, g') → inv s g' → step p s = [] →
       waits p = true ∧ quiet i (s, g')).
Proof.
  intros Hsafe Hreach. apply rtc_nsteps in Hreach as [n Hn].
  assert (∃ g', safe_conf 1 g' c') as (g' & Hi & Hall).
  { specialize (Hsafe (n + 1)%nat). clear -Hsafe Hn guar_rely H. revert g Hsafe.
    induction Hn as [c|n c c1 c2 Hst Hn IH]; intros g Hsafe; [by exists g|].
    destruct (safe_conf_step (n + 1) g c c1) as [g' Hg']; [done..|]. by eapply IH. }
  exists g'. split_and!; [done| |].
  - intros i a Ha. destruct (Hall i (Ret a) Ha c'.1 g') as (Hpost & _); [reflexivity|done|].
    by apply Hpost.
  - intros i p s Hp Hr Hrely His. by destruct (Hall i p Hp s g') as (_ & Hprog & _); [..|apply Hprog].
Qed.

Lemma safe_threads g c c' :
  (∀ n, safe_conf n g c) → rtc conf_step c c' →
  ∃ g', inv c'.1 g' ∧
    (∀ i a, c'.2 !! i = Some (Ret a) → post i a (c'.1, g')) ∧
    (∀ i p, c'.2 !! i = Some p → result p = None → step p c'.1 = [] →
       waits p = true ∧ quiet i (c'.1, g')).
Proof.
  intros Hsafe Hreach. destruct (safe_threads_later g c c' Hsafe Hreach) as (g' & Hi & Hpost & Hblk).
  exists g'. split_and!; [done..|]. intros i p Hp Hr. apply (Hblk i p c'.1 Hp Hr); [reflexivity|done].
Qed.
End threads.

(** ** Atomic cells

    A pointer to an atomic field of the shared state. *)
Record cell (S : Type) := Cell { cget : S → Z; cset : Z → S → S }.
Arguments Cell {S} _ _.
Arguments cget {S} _ _.
Arguments cset {S} _ _ _.

Section cells.
Context {S : Type}.
Implicit Types (c : cell S) (s : S).

Definition Load (c : cell S) : prog S Z := load (cget c).
Definition Store (c : cell S) (x : Z) : prog S unit := modify (cset c x).
Definition CompareAndSwap (c : cell S) (old new : Z) : prog S bool := cas (cget c) (cset c) old new.

Lemma ends_Load c s (Q : Z → S → Prop) : Q (cget c s) s → ends (Load c) s Q.
Proof. apply ends_load. Qed.

Lemma ends_Store c x s (Q : unit → S → Prop) : Q tt (cset c x s) → ends (Store c x) s Q.
Proof. apply ends_modify. Qed.

Lemma ends_CompareAndSwap c old new s (Q : bool → S → Prop) :
  cget c s = old → Q true (cset c new s) → ends (CompareAndSwap c old new) s Q.
Proof. apply ends_cas. Qed.

End cells.

(** ** Programs on a part of the state

    [look] finds the part, or nothing when the state has another shape, and [put_back] replaces
    it; [zoom] runs a program of the part on the whole. *)
Record focus (S X : Type) := Focus {
  look : S → option X;
  put_back : X → S → S;
  look_put s x x' : look s = Some x → look (put_back x' s) = Some x';
  put_put s x x' : put_back x (put_back x' s) = put_back x s;
  put_look s x : look s = Some x → put_back x s = s;
}.
Arguments Focus {S X} _ _ _ _ _.
Arguments look {S X} _ _.
Arguments put_back {S X} _ _ _.
Arguments look_put {S X} _ _ _ _ _.
Arguments put_put {S X} _ _ _ _.
Arguments put_look {S X} _ _ _ _.

Fixpoint zoom {S X A} (l : focus S X) (p : prog X A) : prog S A :=
  match p with
  | Ret a => Ret a
  | Act f k =>
      Act (λ s, match look l s with
                | Some x => (λ '(x', b), (put_back l x' s, b)) <$> f x
                | None => []
                end) (λ b, zoom l (k b))
  | Loop body i k => Loop (λ i, zoom l (body i)) i (λ b, zoom l (k b))
  | Wait f k =>
      Wait (λ s, match look l s with
                 | Some x => (λ '(x', b), (put_back l x' s, b)) <$> f x
                 | None => []
                 end) (λ b, zoom l (k b))
  end.

Section zoom.
Context {S X : Type} (l : focus S X).

Lemma zoom_bind {A B} (p : prog X A) (k : A → prog X B) :
  zoom l (bind p k) = bind (zoom l p) (λ a, zoom l (k a)).
Proof.
  induction p as [A a|A B' f k' IH|A I B' body _ i k' IH|A B' f k' IH]; simpl; [done|..];
    f_equal; apply functional_extensionality; intros b; apply IH.
Qed.

Lemma zoom_result {A} (p : prog X A) : result (zoom l p) = result p.
Proof. by destruct p. Qed.

Lemma zoom_step {A} (p : prog X A) s x :
  look l s = Some x →
  step (zoom l p) s = (λ '(x', p'), (put_back l x' s, zoom l p')) <$> step p x.
Proof.
  intros Hx. destruct p as [a|B f k|I B body i k|B f k]; simpl; [done|..].
  - rewrite Hx, <- !list_fmap_compose. apply list_fmap_ext. by intros ? [].
  - rewrite zoom_bind, (put_look l s x Hx). do 3 f_equal.
    apply functional_extensionality. by intros [].
  - rewrite Hx, <- !list_fmap_compose. apply list_fmap_ext. by intros ? [].
Qed.

Lemma zoom_waits {A} (p : prog X A) : waits (zoom l p) = waits p.
Proof. by destruct p. Qed.

Lemma ends_zoom {A} (p : prog X A) s x (Q : A → S → Prop) :
  look l s = Some x → ends p x (λ a x', Q a (put_back l x' s)) → ends (zoom l p) s Q.
Proof.
  intros Hx Hp. rewrite <- (put_look l s x Hx). unfold ends in *.
  assert (∃ z, look l s = Some z) as [z Hz] by eauto. clear Hx.
  remember (λ a x', Q a (put_back l x' s)) as R eqn:HR.
  induction Hp as [p y a Hr HQ|p y Hr Hne _ IH]; subst R.
  - eapply returns_now; [by rewrite zoom_result|done].
  - assert (look l (put_back l y s) = Some y) as Hy by (by eapply look_put).
    apply returns_later; [by rewrite zoom_result|..]; rewrite (zoom_step p _ y Hy).
    + by intros ?%fmap_nil_inv.
    + intros s' p' ([y' p1] & [= -> ->] & Hin)%list_elem_of_fmap. rewrite put_put.
      by apply IH.
Qed.

(** A program of the part changes nothing else. *)
Lemma ends_zoom_frame {A} (p : prog X A) s x (Q : A → S → Prop) :
  look l s = Some x → ends (zoom l p) s Q →
  ends (zoom l p) s (λ a s', Q a s' ∧ ∃ x', s' = put_back l x' s ∧ look l s' = Some x').
Proof.
  intros Hx Hp.
  cut (∀ s0, (∃ x', s = put_back l x' s0 ∧ look l s = Some x') →
    ends (zoom l p) s (λ a s', Q a s' ∧ ∃ x', s' = put_back l x' s0 ∧ look l s' = Some x')).
  { intros H. apply (H s). exists x. by rewrite (put_look l s x Hx). }
  intros s0 Hs. clear Hx x. remember (zoom l p) as p0 eqn:Hp0. revert p Hp0 Hs.
  induction Hp as [p0 s a Hr HQ|p0 s Hr Hne _ IH]; intros p -> (x & Hs & Hx).
  - eapply returns_now; [done|]. split; [done|]. by exists x.
  - apply returns_later; [done..|]. intros s' p' Hin. pose proof Hin as Hin'.
    rewrite (zoom_step p s x Hx) in Hin. apply list_elem_of_fmap in Hin as ([x' p1] & [= -> ->] & Hin).
    eapply IH; [done..|]. exists x'. split; [|by eapply look_put]. rewrite Hs. by rewrite put_put.
Qed.
End zoom.

(** [safe_seq by tac] reasons about the first program of a sequence. *)
Tactic Notation "safe_seq" "by" tactic3(tac) :=
  eapply safe_bind; [typeclasses eauto|solve [tac]|].
End Prog.
