(* ===== verification/RingCore.v ===== *)
(** * Package ring and ring/internal/shared (src/ring/errors.go, src/ring/internal/shared/shared.go)

    The sentinels and the checks every queue family shares, the arithmetic of positions in a
    power-of-two ring, and the bounded FIFO that every queue refines. *)

From Stdlib Require Import ZArith Lia Znumtheory.
From stdpp Require Import prelude list gmap strings.
From S2P Require Import Prelude.

Module Ring.

(** ** Sentinels *)

Definition ErrInvalidCount : error :=
  New "ring: count must be a power of two between 1 and 2^30".
Definition ErrFull : error := New "ring: not enough free slots".
Definition ErrEmpty : error := New "ring: not enough occupied entries".
Definition ErrExceedsCapacity : error :=
  New "ring: requested count exceeds the ring's capacity".
Definition ErrInvalidMaxBatch : error :=
  New "ring: max batch must be between 1 and the ring's count".
Definition ErrExceedsMaxBatch : error :=
  New "ring: requested count exceeds the ring's maximum batch size".

(** ** Shared checks; [None] is Go's nil error *)

Definition MaxCount : Z := 2 ^ 30.

Definition CheckCapacity (count : Z) : option error :=
  let inRange := (1 <=? count) && (count <=? MaxCount) in
  let isPowerOfTwo := Z.land count (count -i 1) =? 0 in
  if negb inRange || negb isPowerOfTwo
  then Some (Errorf "new ring with count %d: %w" [ArgInt count] ErrInvalidCount)
  else None.

Definition CheckMaxBatch (op : string) (maxBatch count : Z) : option error :=
  if (1 <=? maxBatch) && (maxBatch <=? count) then None
  else Some (Errorf "new ring with count %d and max %s batch %d: %w"
         [ArgInt count; ArgStr op; ArgInt maxBatch] ErrInvalidMaxBatch).

Definition BatchLengthError (op : string) (length maxBatch capacity : Z) : error :=
  if capacity <? length
  then Errorf "%s %d elements, capacity %d: %w"
         [ArgStr op; ArgInt length; ArgInt capacity] ErrExceedsCapacity
  else Errorf "%s %d elements, max %s batch %d: %w"
         [ArgStr op; ArgInt length; ArgStr op; ArgInt maxBatch] ErrExceedsMaxBatch.

(** ** Powers of two *)

Lemma land_pred_pow2 k : 0 <= k → Z.land (2 ^ k) (2 ^ k - 1) = 0.
Proof.
  intros Hk. replace (2 ^ k - 1) with (Z.ones k) by (rewrite Z.ones_equiv; lia).
  rewrite Z.land_ones by done. apply Z.mod_same. lia.
Qed.

Lemma land_pred_zero n : 1 <= n → Z.land n (n - 1) = 0 → n = 2 ^ Z.log2 n.
Proof.
  intros Hn Hl. pose proof (Z.log2_nonneg n) as Hk.
  destruct (Z.log2_spec n ltac:(lia)) as [Hlo Hhi].
  rewrite Z.pow_succ_r in Hhi by done.
  destruct (decide (n = 2 ^ Z.log2 n)) as [|Hne]; [done|]. exfalso.
  assert (∀ m, 2 ^ Z.log2 n <= m < 2 * 2 ^ Z.log2 n → Z.testbit m (Z.log2 n) = true) as Hbit.
  { intros m Hm. apply Z.testbit_true; [done|].
    assert (m / 2 ^ Z.log2 n = 1) as ->; [|done].
    symmetry. apply (Z.div_unique_pos _ _ 1 (m - 2 ^ Z.log2 n)); lia. }
  assert (Z.testbit (Z.land n (n - 1)) (Z.log2 n) = true) as Ht.
  { rewrite Z.land_spec, !Hbit by lia. done. }
  by rewrite Hl, Z.bits_0 in Ht.
Qed.

Lemma CheckCapacity_pow2 count :
  CheckCapacity count = None ↔ ∃ k, 0 <= k <= 30 ∧ count = 2 ^ k.
Proof.
  unfold CheckCapacity. destruct (Z.leb_spec 1 count) as [Hlo|Hlo]; simpl.
  - destruct (Z.leb_spec count MaxCount) as [Hhi|Hhi]; simpl.
    + rewrite i64_small by (unfold is_int, minInt, maxInt, MaxCount in *; lia).
      destruct (Z.eqb_spec (Z.land count (count - 1)) 0) as [He|He]; simpl; (split; [|done || idtac]).
      * intros _. exists (Z.log2 count). split; [|by apply land_pred_zero].
        split; [apply Z.log2_nonneg|]. apply (Z.log2_le_mono count (2 ^ 30)) in Hhi.
        by rewrite Z.log2_pow2 in Hhi.
      * done.
      * intros (k & Hk & ->). by rewrite land_pred_pow2 in He by lia.
    + split; [done|]. intros (k & Hk & ->). unfold MaxCount in Hhi.
      assert (2 ^ k <= 2 ^ 30); [apply Z.pow_le_mono_r|]; lia.
  - split; [done|]. intros (k & Hk & ->). lia.
Qed.

(** The capacity check accepts exactly the powers of two from 1 to 2^30 and otherwise
    returns an error that wraps [ErrInvalidCount]. *)
Lemma CheckCapacity_spec count :
  (CheckCapacity count = None ↔ ∃ k, 0 <= k <= 30 ∧ count = 2 ^ k) ∧
  (∀ err, CheckCapacity count = Some err → errors_Is err ErrInvalidCount = true).
Proof.
  split; [apply CheckCapacity_pow2|]. unfold CheckCapacity.
  intros err. destruct (_ || _); [|done]. intros [= <-].
  auto with go_err.
Qed.
End Ring.
