(* ===== verification/RingSlots.v ===== *)
(** * Slots of a ring

    Every queue keeps its values in a slice of 2^k entries and addresses it with 32-bit positions
    that wrap around. This file has the arithmetic of positions, the programs that read, write
    and clear slots (shared by all queues through the class [Slots]), and the relation [holds]
    between a run of positions and the values stored there.

    Positions in specifications are unbounded: a queue that has moved [n] values in its life is at
    position [n], and the machine keeps [u32 n]. *)

From Stdlib Require Import ZArith Lia FunctionalExtensionality.
From stdpp Require Import prelude list.
From S2P Require Import Prelude Prog RingCore.

Module Slots.
Import Prog.

(** ** Positions *)

Definition pow2_cap (cap : Z) : Prop := ∃ k, 0 <= k <= 30 ∧ cap = 2 ^ k.

Lemma pow2_cap_range cap : pow2_cap cap → 1 <= cap <= 2 ^ 30.
Proof.
  intros (k & Hk & ->). split.
  - pose proof (Z.pow_pos_nonneg 2 k). lia.
  - apply Z.pow_le_mono_r; lia.
Qed.

Lemma mask_index cap p : pow2_cap cap → Z.land (u32 p) (cap - 1) = p mod cap.
Proof.
  intros (k & Hk & ->). replace (2 ^ k - 1) with (Z.ones k) by (rewrite Z.ones_equiv; lia).
  rewrite Z.land_ones by lia. unfold u32. symmetry. apply Znumtheory.Zmod_div_mod; [lia..|].
  exists (2 ^ (32 - k)). rewrite <- Z.pow_add_r by lia. f_equal. lia.
Qed.

(** The distance between two positions survives the wrap-around. *)
Lemma u32_distance a b : 0 <= a - b < 2 ^ 32 → u32 (u32 a - u32 b) = a - b.
Proof. intros H. autorewrite with go_int. by apply u32_small. Qed.

Lemma u32_same a b : - 2 ^ 32 < a - b < 2 ^ 32 → u32 a = u32 b → a = b.
Proof. wrap_lia. Qed.

(** [pos_simpl] turns wrapped arithmetic on positions into plain arithmetic. *)
Ltac pos_simpl :=
  repeat first
    [ rewrite u32_add_l | rewrite u32_add_r | rewrite u32_sub_l | rewrite u32_sub_r ];
  repeat match goal with
  | |- context [u32 ?x] => rewrite (u32_small x) by (unfold is_u32 in *; lia)
  end.

Lemma mod_range cap p : 0 < cap → 0 <= p mod cap < cap.
Proof. intros. by apply Z.mod_pos_bound. Qed.

Lemma mod_apart cap p q : 0 < cap → - cap < p - q < cap → p mod cap = q mod cap → p = q.
Proof.
  intros Hc Hd He. rewrite (Z.div_mod p cap), (Z.div_mod q cap) in Hd by lia.
  rewrite (Z.div_mod p cap), (Z.div_mod q cap), He by lia. rewrite He in Hd.
  assert (p / cap - q / cap = 0) as Hq by nia. f_equal. lia.
Qed.

Lemma mod_near cap p i : 0 < cap → 0 <= i → p mod cap + i < cap → (p + i) mod cap = p mod cap + i.
Proof.
  intros Hc Hi Hlt. pose proof (mod_range cap p Hc).
  rewrite Z.add_mod by lia. rewrite Z.add_mod_idemp_r by lia. apply Z.mod_small. lia.
Qed.

Lemma mod_wrapped cap p i :
  0 < cap → cap <= p mod cap + i < 2 * cap → (p + i) mod cap = p mod cap + i - cap.
Proof.
  intros Hc Hlt. symmetry. apply (Z.mod_unique_pos _ _ (p / cap + 1)).
  - pose proof (mod_range cap p Hc). lia.
  - pose proof (Z.div_mod p cap). lia.
Qed.

(** ** Values at consecutive positions *)
Section holds.
Context {T : Type}.
Implicit Types (es xs : list T).

Definition slot es (p : Z) : option T := es !! Z.to_nat (p mod len es).
Definition put es (p : Z) (x : T) : list T := <[Z.to_nat (p mod len es) := x]> es.

(** [holds es p xs]: the slots from position [p] on hold [xs]. *)
Definition holds es (p : Z) xs : Prop :=
  ∀ (i : nat) x, xs !! i = Some x → slot es (p + Z.of_nat i) = Some x.

Lemma len_put es p x : len (put es p x) = len es.
Proof. unfold len, put. by rewrite length_insert. Qed.

Lemma slot_put es p x : 0 < len es → slot (put es p x) p = Some x.
Proof.
  intros Hc. unfold slot. rewrite len_put. unfold put. apply list_lookup_insert_eq.
  pose proof (mod_range (len es) p Hc). unfold len in *. lia.
Qed.

Lemma slot_put_ne es p q x :
  0 < len es → p <> q → - len es < p - q < len es → slot (put es p x) q = slot es q.
Proof.
  intros Hc Hne Hd. unfold slot. rewrite len_put. unfold put. apply list_lookup_insert_ne.
  pose proof (mod_range (len es) p Hc). pose proof (mod_range (len es) q Hc).
  intros He. apply Hne, (mod_apart (len es)); lia.
Qed.

Lemma slot_is_Some es p : 0 < len es → is_Some (slot es p).
Proof.
  intros Hc. unfold slot. apply lookup_lt_is_Some.
  pose proof (mod_range (len es) p Hc). unfold len in *. lia.
Qed.

Lemma slot_lap es p : 0 < len es → slot es (p + len es) = slot es p.
Proof.
  intros Hc. unfold slot. rewrite <- (Z.mul_1_l (len es)) at 1. by rewrite Z.mod_add by lia.
Qed.

Lemma holds_nil es p : holds es p [].
Proof. intros i x Hi. by rewrite lookup_nil in Hi. Qed.

Lemma holds_app es p xs ys :
  holds es p (xs ++ ys) ↔ holds es p xs ∧ holds es (p + len xs) ys.
Proof.
  unfold holds, len. split.
  - intros H. split; intros i x Hi.
    + apply H. by apply lookup_app_l_Some.
    + rewrite <- Z.add_assoc, <- Nat2Z.inj_add. apply H.
      rewrite lookup_app_r by lia. by replace (length xs + i - length xs)%nat with i by lia.
  - intros [Hx Hy] i x Hi. apply lookup_app_Some in Hi as [Hi|[Hl Hi]]; [by apply Hx|].
    specialize (Hy _ _ Hi). by replace (p + Z.of_nat i) with
      (p + Z.of_nat (length xs) + Z.of_nat (i - length xs)) by lia.
Qed.

Lemma holds_cons es p x xs : holds es p (x :: xs) ↔ slot es p = Some x ∧ holds es (p + 1) xs.
Proof.
  rewrite (holds_app es p [x] xs). unfold len; simpl. split; intros [H Hxs]; (split; [|done]).
  - rewrite <- (Z.add_0_r p). by apply (H 0%nat).
  - intros [|i] y Hi; simplify_eq/=. by rewrite Z.add_0_r.
Qed.

(** A write outside a run of positions keeps it. *)
Lemma holds_put_ne es p q x xs :
  0 < len es → (q < p ∨ p + len xs <= q) → p + len xs - len es <= q < p + len es →
  holds es p xs → holds (put es q x) p xs.
Proof.
  intros Hc Hout Hd Hh i y Hi. pose proof (lookup_lt_Some _ _ _ Hi) as Hl. unfold len in *.
  rewrite slot_put_ne; [by apply Hh|unfold len; lia..].
Qed.

Lemma holds_snoc es p x xs :
  len xs < len es → holds es p xs → holds (put es (p + len xs) x) p (xs ++ [x]).
Proof.
  intros Hl Hh. pose proof (len_nonneg xs). rewrite holds_app, holds_cons. split_and!.
  - apply holds_put_ne; [lia..|done].
  - apply slot_put. lia.
  - apply holds_nil.
Qed.

Lemma holds_drop es p n xs : 0 <= n <= len xs → holds es p xs → holds es (p + n) (drop (Z.to_nat n) xs).
Proof.
  intros Hn Hh. rewrite <- (take_drop (Z.to_nat n) xs) in Hh. apply holds_app in Hh as [_ Hh].
  unfold len in Hh. rewrite length_take in Hh. unfold len in Hn.
  by replace (Z.of_nat (Z.to_nat n `min` length xs)) with n in Hh by lia.
Qed.
End holds.

(** ** Slot programs *)

(** A queue's shared state gives access to the slice of its entries. *)
Class Slots (S T : Type) := {
  entries : S → list T;
  set_entries : list T → S → S;
  entries_set es s : entries (set_entries es s) = es;
  set_entries_set es es' s : set_entries es' (set_entries es s) = set_entries es' s;
  set_entries_same s : set_entries (entries s) s = s;
}.

Section programs.
Context {S T : Type} `{!Slots S T}.

(** [entries[i]] and [entries[i] = x]. *)
Definition slot_get (i : Z) : prog S T :=
  access (λ s, if i <? 0 then None else x ← entries s !! Z.to_nat i; Some (s, x)).

Definition slot_set (i : Z) (x : T) : prog S unit :=
  access (λ s, if in_slice (entries s) i (i + 1)
               then Some (set_entries (<[Z.to_nat i := x]> (entries s)) s, tt) else None).

(** [copy(entries[base:base+len(items)], items)], [copy(dst, entries[base:base+n])] and
    [clear(entries[base:base+n])], one slot at a time. *)
Definition copy_in (base : Z) (items : list T) : prog S unit :=
  for_each (zip (seqZ base (len items)) items) (λ '(i, x), slot_set i x).

Definition copy_out (base n : Z) : prog S (list T) := collect (seqZ base n) slot_get.

(** The values of two runs of slots, in the order the two copies put them in [dst]. *)
Definition copy_out_both (base first rest : Z) : prog S (list T) :=
  xs ← copy_out base first;
  ys ← copy_out 0 rest;
  mret (xs ++ ys).

Definition clear_slots (zero : T) (base n : Z) : prog S unit :=
  for_each (seqZ base n) (λ i, slot_set i zero).

(** [clear(entries)]. *)
Definition clear_all (zero : T) : prog S unit :=
  n ← load (λ s, len (entries s)); clear_slots zero 0 n.

(** ** The same accesses by position

    A queue splits a range of positions into the part before the end of the slice and the part
    that wrapped around. Together the two copies visit the slots of consecutive positions. *)
Definition write_at (cap p : Z) (items : list T) : prog S unit :=
  for_each (zip ((λ i, (p + i) mod cap) <$> seqZ 0 (len items)) items) (λ '(i, x), slot_set i x).

Definition read_at (cap p n : Z) : prog S (list T) :=
  collect ((λ i, (p + i) mod cap) <$> seqZ 0 n) slot_get.

Definition clear_at (zero : T) (cap p n : Z) : prog S unit :=
  for_each ((λ i, (p + i) mod cap) <$> seqZ 0 n) (λ i, slot_set i zero).
End programs.

Lemma split_positions cap p n :
  0 < cap → 0 <= n <= cap →
  let base := p mod cap in let first := Z.min n (cap - base) in
  (λ i, (p + i) mod cap) <$> seqZ 0 n = seqZ base first ++ seqZ 0 (n - first).
Proof.
  intros Hc Hn base first. pose proof (mod_range cap p Hc).
  replace n with (first + (n - first)) at 1 by lia. rewrite seqZ_app by lia.
  rewrite fmap_app. f_equal; apply list_eq; intros i; rewrite list_lookup_fmap.
  - destruct (decide (Z.of_nat i < first)).
    + rewrite !lookup_seqZ_lt by lia. simpl. f_equal. rewrite Z.add_0_l. apply mod_near; lia.
    + by rewrite !lookup_seqZ_ge by lia.
  - destruct (decide (Z.of_nat i < n - first)).
    + rewrite !lookup_seqZ_lt by lia. simpl. f_equal.
      rewrite mod_wrapped by lia. unfold base in *. lia.
    + by rewrite !lookup_seqZ_ge by lia.
Qed.

Section split.
Context {S T : Type} `{!Slots S T}.

Lemma for_each_app {X} (l1 l2 : list X) (body : X → prog S unit) :
  for_each (l1 ++ l2) body = (_ ← for_each l1 body; for_each l2 body).
Proof.
  induction l1 as [|x l1 IH]; [done|]. simpl. unfold mbind, prog_bind. rewrite bind_assoc.
  f_equal. apply functional_extensionality. intros _. apply IH.
Qed.

Lemma collect_app {X B} (l1 l2 : list X) (body : X → prog S B) :
  collect (l1 ++ l2) body = (xs ← collect l1 body; ys ← collect l2 body; mret (xs ++ ys)).
Proof.
  unfold mbind, prog_bind, mret, prog_ret. induction l1 as [|x l1 IH]; simpl.
  - induction (collect l2 body) as [?|? ? ? ? IHp|? ? ? ? _ ? ? IHp|? ? ? ? IHp]; simpl; [done|..];
      f_equal; apply functional_extensionality; intros b; apply IHp.
  - rewrite bind_assoc. f_equal. apply functional_extensionality. intros b.
    rewrite IH, !bind_assoc. f_equal. apply functional_extensionality. intros bs.
    by rewrite !bind_assoc.
Qed.

(** The two halves of a batch, as the queues write, read and clear them. *)
Lemma copy_in_split cap p (items : list T) :
  0 < cap → len items <= cap →
  let base := p mod cap in let first := Z.min (len items) (cap - base) in
  (_ ← copy_in base (take (Z.to_nat first) items); copy_in 0 (drop (Z.to_nat first) items)) =
  write_at (S := S) cap p items.
Proof.
  intros Hc Hn base first. pose proof (len_nonneg items). pose proof (mod_range cap p Hc).
  unfold write_at. rewrite split_positions by lia. fold base. fold first.
  assert (∀ l1 l2 : list Z, length l1 = Z.to_nat first → zip (l1 ++ l2) items =
    zip l1 (take (Z.to_nat first) items) ++ zip l2 (drop (Z.to_nat first) items)) as Hzip.
  { intros l1 l2 Hl. rewrite <- (take_drop (Z.to_nat first) items) at 1.
    apply zip_with_app. rewrite length_take. unfold len in *. lia. }
  rewrite Hzip by apply length_seqZ. rewrite for_each_app. unfold copy_in.
  by rewrite len_take, len_drop by lia.
Qed.

Lemma sub_0 (l : list T) k : sub l 0 k = take (Z.to_nat k) l.
Proof. unfold sub. simpl. by rewrite Z.sub_0_r. Qed.

(** The part of a slice's prefix not written, followed by what is behind the prefix. *)
Lemma sub_rest (l : list T) n k :
  0 <= n <= k → k <= len l →
  drop (Z.to_nat n) (sub l 0 k) ++ sub l k (len l) = drop (Z.to_nat n) l.
Proof.
  intros Hn Hk. rewrite sub_0. unfold sub.
  rewrite (take_ge (drop _ _)) by (rewrite length_drop; unfold len; lia).
  rewrite <- (take_drop (Z.to_nat k) l) at 3.
  rewrite drop_app_le; [done|]. rewrite length_take. unfold len in Hk. lia.
Qed.

(** The same for the slice expressions on the caller's items. *)
Lemma copy_in_sub cap p (items : list T) n :
  0 < cap → 0 <= n <= len items → n <= cap →
  let base := p mod cap in let first := Z.min n (cap - base) in
  (_ ← copy_in base (sub items 0 first); copy_in 0 (sub items first n)) =
  write_at (S := S) cap p (take (Z.to_nat n) items).
Proof.
  intros Hc Hn Hcap base first. pose proof (mod_range cap p Hc).
  assert (len (take (Z.to_nat n) items) = n) as Hl by (apply len_take; lia).
  rewrite <- (copy_in_split cap p (take (Z.to_nat n) items)) by lia. rewrite Hl.
  fold base. fold first. rewrite sub_0, take_take. unfold sub.
  replace (Z.to_nat first `min` Z.to_nat n)%nat with (Z.to_nat first) by lia.
  rewrite skipn_firstn_comm.
  by replace (Z.to_nat n - Z.to_nat first)%nat with (Z.to_nat (n - first)) by lia.
Qed.

Lemma copy_in_sub_split {A} cap p (items : list T) n (k : prog S A) :
  0 < cap → 0 <= n <= len items → n <= cap →
  let base := p mod cap in let first := Z.min n (cap - base) in
  (_ ← copy_in base (sub items 0 first); _ ← copy_in 0 (sub items first n); k) =
  (_ ← write_at cap p (take (Z.to_nat n) items); k).
Proof.
  intros Hc Hn Hcap base first. rewrite <- (copy_in_sub cap p items n) by lia.
  unfold mbind, prog_bind. by rewrite bind_assoc.
Qed.

Lemma copy_out_split cap p n :
  0 < cap → 0 <= n <= cap →
  let base := p mod cap in let first := Z.min n (cap - base) in
  copy_out_both base first (n - first) = read_at (S := S) (T := T) cap p n.
Proof.
  intros Hc Hn base first. unfold read_at. rewrite split_positions by lia.
  by rewrite collect_app.
Qed.

Lemma clear_split (zero : T) cap p n :
  0 < cap → 0 <= n <= cap →
  let base := p mod cap in let first := Z.min n (cap - base) in
  (_ ← clear_slots zero base first; clear_slots zero 0 (n - first)) =
  clear_at (S := S) zero cap p n.
Proof.
  intros Hc Hn base first. unfold clear_at. rewrite split_positions by lia.
  by rewrite for_each_app.
Qed.

Lemma clear_slots_all (zero : T) n :
  0 < n → clear_slots (S := S) zero 0 n = clear_at zero n 0 n.
Proof.
  intros Hn. unfold clear_at. rewrite split_positions by lia. rewrite Z.mod_0_l by lia.
  replace (Z.min n (n - 0)) with n by lia. by rewrite Z.sub_diag, app_nil_r.
Qed.

(** Clearing is writing zero values. *)
Lemma clear_at_write (zero : T) cap p n :
  0 <= n → clear_at zero cap p n = write_at cap p (replicate (Z.to_nat n) zero).
Proof.
  intros Hn. unfold clear_at, write_at.
  assert (len (replicate (Z.to_nat n) zero) = n) as -> by (unfold len; rewrite length_replicate; lia).
  assert (∀ l : list Z, for_each l (λ i, slot_set i zero) =
    for_each (zip l (replicate (length l) zero)) (λ '(i, x), slot_set (S := S) i x)) as ->.
  { induction l as [|i l IH]; [done|]. simpl. by rewrite IH. }
  by rewrite length_fmap, length_seqZ.
Qed.
End split.

(** ** What the slot programs do when run alone *)
Section alone.
Context {S T : Type} `{!Slots S T}.
Implicit Types (s : S) (es : list T).

Lemma slot_set_access cap p (x : T) s :
  0 < cap → len (entries s) = cap →
  in_slice (entries s) (p mod cap) (p mod cap + 1) = true ∧
  <[Z.to_nat (p mod cap) := x]> (entries s) = put (entries s) p x.
Proof.
  intros Hc Hl. pose proof (mod_range cap p Hc). split.
  - apply in_slice_true. lia.
  - unfold put. by rewrite Hl.
Qed.

Lemma ends_slot_set cap p x s (Q : unit → S → Prop) :
  0 < cap → len (entries s) = cap →
  Q tt (set_entries (put (entries s) p x) s) → ends (slot_set (p mod cap) x) s Q.
Proof.
  intros Hc Hl HQ. destruct (slot_set_access cap p x s) as [Hin Hput]; [done..|].
  eapply ends_access; [|exact HQ]. by rewrite Hin, Hput.
Qed.

Lemma slot_get_access cap p s v :
  0 < cap → len (entries s) = cap → slot (entries s) p = Some v →
  (if p mod cap <? 0 then None else x ← entries s !! Z.to_nat (p mod cap); Some (s, x)) =
  Some (s, v).
Proof.
  intros Hc Hl Hs. pose proof (mod_range cap p Hc).
  destruct (Z.ltb_spec (p mod cap) 0); [lia|]. unfold slot in Hs. rewrite Hl in Hs.
  by rewrite Hs.
Qed.

Lemma ends_slot_get cap p s v (Q : T → S → Prop) :
  0 < cap → len (entries s) = cap → slot (entries s) p = Some v → Q v s →
  ends (slot_get (p mod cap)) s Q.
Proof. intros Hc Hl Hs HQ. eapply ends_access; [|exact HQ]. by apply slot_get_access. Qed.

(** [after_write es p xs es']: [es'] is [es] with [xs] written from position [p] on. *)
Definition after_write es p (xs : list T) es' : Prop :=
  len es' = len es ∧ holds es' p xs ∧
  ∀ q, p + len xs <= q < p + len es → slot es' q = slot es q.

Lemma after_write_nil es p : after_write es p [] es.
Proof. split_and!; [done|apply holds_nil|done]. Qed.

Lemma after_write_snoc es p xs es' x :
  len xs < len es → after_write es p xs es' →
  after_write es p (xs ++ [x]) (put es' (p + len xs) x).
Proof.
  intros Hlt (Hl & Hh & Hf). pose proof (len_nonneg xs). split_and!.
  - by rewrite len_put.
  - apply holds_snoc; [lia|done].
  - rewrite len_app. change (len [x]) with 1. intros q Hq. rewrite slot_put_ne by lia.
    apply Hf. lia.
Qed.

Lemma after_write_one es p x : 0 < len es → after_write es p [x] (put es p x).
Proof.
  intros Hc. pose proof (after_write_snoc es p [] es x) as H. change (len []) with 0 in H.
  rewrite Z.add_0_r in H. apply H; [lia|apply after_write_nil].
Qed.

Lemma zip_prefix p cap (items : list T) pre i x rest :
  zip ((λ i, (p + i) mod cap) <$> seqZ 0 (len items)) items = pre ++ (i, x) :: rest →
  i = (p + len pre.*2) mod cap ∧ len pre.*2 < len items ∧
  take (length pre.*2) items = pre.*2 ∧ items !! length pre.*2 = Some x.
Proof.
  intros Hz. set (idx := (λ i, (p + i) mod cap) <$> seqZ 0 (len items)) in *.
  assert (length idx = length items) as Hlen.
  { unfold idx. rewrite length_fmap, length_seqZ. unfold len. lia. }
  assert (zip idx items !! length pre = Some (i, x)) as Hat.
  { rewrite Hz. by apply list_lookup_middle. }
  assert ((zip idx items).*2 = items) as Hsnd by (apply snd_zip; lia).
  rewrite Hz, fmap_app in Hsnd. simpl in Hsnd.
  apply lookup_zip_Some in Hat as [Hi Hx]. rewrite length_fmap.
  unfold idx in Hi. rewrite list_lookup_fmap in Hi. pose proof (lookup_lt_Some _ _ _ Hx).
  rewrite lookup_seqZ_lt in Hi by (unfold len; lia). injection Hi as <-.
  unfold len. rewrite length_fmap. split_and!; [done|lia| |done].
  rewrite <- Hsnd. apply take_app_length'. by rewrite length_fmap.
Qed.

Lemma ends_write_at cap p items s (Q : unit → S → Prop) :
  0 < cap → len (entries s) = cap → len items <= cap →
  (∀ es', after_write (entries s) p items es' → Q tt (set_entries es' s)) →
  ends (write_at cap p items) s Q.
Proof.
  intros Hc Hl Hn HQ. unfold write_at.
  eapply ends_mono; [apply (ends_for_each _ _ (λ done s1, ∃ es', s1 = set_entries es' s ∧
    after_write (entries s) p done.*2 es'))|].
  - exists (entries s). by rewrite set_entries_same.
  - intros done [i x] rest s1 Hz (es' & -> & Haw).
    apply zip_prefix in Hz as (-> & Hlt & _ & _).
    apply ends_slot_set; [done|rewrite entries_set; destruct Haw; lia|].
    rewrite entries_set, set_entries_set. eexists. split; [done|].
    rewrite fmap_app. apply after_write_snoc; [lia|done].
  - intros [] s1 (es' & -> & Haw). apply HQ.
    rewrite snd_zip in Haw; [done|]. rewrite length_fmap, length_seqZ. unfold len. lia.
Qed.

Lemma ends_read_at cap p n vs s (Q : list T → S → Prop) :
  0 < cap → len (entries s) = cap → holds (entries s) p vs → len vs = n → Q vs s →
  ends (read_at cap p n) s Q.
Proof.
  intros Hc Hl Hh Hn HQ. unfold read_at.
  eapply ends_mono; [apply (ends_collect _ _ (λ bs s1, s1 = s ∧ bs = take (length bs) vs))|].
  - done.
  - intros i j bs s1 Hi Hb [-> Hbs]. rewrite list_lookup_fmap in Hi.
    apply fmap_Some in Hi as (k & Hk & ->). apply lookup_seqZ in Hk as [-> Hk].
    destruct (lookup_lt_is_Some_2 vs i) as [v Hv]; [unfold len in *; lia|].
    eapply ends_slot_get; [done..|by apply Hh|]. split; [done|].
    rewrite length_app, Hb. simpl. rewrite Nat.add_1_r. rewrite (take_S_r _ _ v Hv).
    by rewrite Hb in Hbs; rewrite <- Hbs.
  - intros bs s1 (Hlen & -> & Hbs). rewrite length_fmap, length_seqZ in Hlen.
    rewrite take_ge in Hbs by (unfold len in *; lia). by subst bs.
Qed.

Lemma ends_clear_at zero cap p n s (Q : unit → S → Prop) :
  0 < cap → len (entries s) = cap → 0 <= n <= cap →
  (∀ es', after_write (entries s) p (replicate (Z.to_nat n) zero) es' → Q tt (set_entries es' s)) →
  ends (clear_at zero cap p n) s Q.
Proof.
  intros Hc Hl Hn HQ. rewrite clear_at_write by lia. apply ends_write_at; [done..| |done].
  unfold len. rewrite length_replicate. lia.
Qed.

(** [clear(entries)] leaves zero values. *)
Lemma ends_clear_all zero s (Q : unit → S → Prop) :
  0 < len (entries s) →
  Q tt (set_entries (replicate (length (entries s)) zero) s) → ends (clear_all zero) s Q.
Proof.
  intros Hc HQ. unfold clear_all. apply ends_bind, ends_load. rewrite clear_slots_all by done.
  apply ends_clear_at; [done|done|lia|]. intros es' (Hl & Hh & _).
  replace es' with (replicate (length (entries s)) zero); [done|].
  apply list_eq_same_length with (n := length (entries s));
    [by unfold len in Hl; lia|by rewrite length_replicate|].
  intros i x y Hi Hx%lookup_replicate Hy. destruct Hx as [-> _].
  pose proof (Hh i zero) as Hs. unfold slot in Hs. rewrite Hl in Hs.
  rewrite Z.mod_small in Hs by (unfold len; lia). rewrite Z.add_0_l, Nat2Z.id in Hs.
  rewrite Hs in Hy; [by simplify_eq|]. apply lookup_replicate_2. unfold len. lia.
Qed.
End alone.
End Slots.
