(* ===== verification/RingSpec.v ===== *)
(** * What every ring queue promises

    The window of a ring: the values between the consumer's and the producer's position, and how
    writing and reading an interval changes it. Then the interface [queue_api] of a queue, with
    the behaviour every queue of the ring packages promises for calls that run alone
    ([enqueue_spec], [dequeue_spec]); the queues are instances of [FifoQueue], and clients such
    as the work queue rely on the class only. *)

From Stdlib Require Import ZArith Lia.
From stdpp Require Import prelude list strings.
From S2P Require Import Prelude Prog RingCore RingSlots.

Module RingSpec.
Import Prog Ring Slots.

Section window.
Context {T : Type} (zero : T).
Implicit Types es xs l : list T.

(** The slots hold [l] from position [C] to [P]; with clearing on, the free slots are zero. *)
Record window (clear : bool) (cap : Z) (es : list T) (P C : Z) (l : list T) : Prop := {
  win_len : len es = cap;
  win_start : 0 <= C;
  win_end : P = C + len l;
  win_fits : len l <= cap;
  win_holds : holds es C l;
  win_clear : clear = true → ∀ q, P <= q < C + cap → slot es q = Some zero;
}.

(** What is left in the slots of [n] values read from [pos]. *)
Definition after_read (clear : bool) (es : list T) (pos n : Z) (es' : list T) : Prop :=
  if clear then after_write es pos (replicate (Z.to_nat n) zero) es' else es' = es.

(** Slots outside the written positions keep their values, also a lap earlier. *)
Lemma after_write_frame es p xs es' q :
  0 < len es → after_write es p xs es' →
  (p + len xs <= q < p + len es ∨ p + len xs <= q + len es < p + len es) →
  slot es' q = slot es q.
Proof.
  intros Hc (Hl & _ & Hf) [Hq|Hq]; [by apply Hf|].
  rewrite <- (slot_lap es), <- (slot_lap es') by lia. rewrite Hl. by apply Hf.
Qed.

Lemma window_write clear cap es P C l xs es' :
  0 < cap → window clear cap es P C l → len l + len xs <= cap →
  after_write es P xs es' → window clear cap es' (P + len xs) C (l ++ xs).
Proof.
  intros Hc [Hl HC HP Hf Hh Hz] Hfit Haw. pose proof (len_nonneg xs). pose proof (len_nonneg l).
  pose proof Haw as (Hl' & Hh' & _). constructor.
  - lia.
  - done.
  - rewrite len_app. lia.
  - rewrite len_app. lia.
  - rewrite holds_app, <- HP. split; [|done]. intros i x Hi.
    pose proof (lookup_lt_Some _ _ _ Hi). rewrite <- (Hh i x Hi).
    apply (after_write_frame es P xs); [lia|done|]. unfold len in *. lia.
  - intros Hcl q Hq. rewrite (after_write_frame es P xs) by (done || lia). apply Hz; [done|lia].
Qed.

Lemma window_read clear cap es P C l n es' :
  0 < cap → window clear cap es P C l → 0 <= n <= len l →
  after_read clear es C n es' → window clear cap es' P (C + n) (drop (Z.to_nat n) l).
Proof.
  intros Hc [Hl HC HP Hf Hh Hz] Hn Har.
  assert (len (drop (Z.to_nat n) l) = len l - n) as Hd by (apply len_drop; lia).
  unfold after_read in Har. destruct clear.
  - assert (len (replicate (Z.to_nat n) zero) = n) as Hr
      by (unfold len; rewrite length_replicate; lia).
    pose proof Har as (Hl' & Hw & _). constructor; [lia..| |].
    + intros i x Hi. pose proof (lookup_lt_Some _ _ _ Hi).
      rewrite <- (holds_drop es C n l ltac:(lia) Hh i x Hi).
      apply (after_write_frame es C (replicate (Z.to_nat n) zero)); [lia|done|]. unfold len in *. lia.
    + intros _ q Hq. destruct (decide (q < C + cap)).
      * rewrite (after_write_frame es C (replicate (Z.to_nat n) zero)) by (done || lia).
        apply Hz; [done|lia].
      * replace q with (q - cap + len es') by lia. rewrite slot_lap by lia.
        replace (q - cap) with (C + Z.of_nat (Z.to_nat (q - cap - C))) by lia. apply Hw.
        apply lookup_replicate_2. lia.
  - subst es'. constructor; [lia..| |done]. by apply holds_drop.
Qed.

Lemma window_prefix clear cap es P C l n :
  window clear cap es P C l → 0 <= n <= len l → holds es C (take (Z.to_nat n) l).
Proof.
  intros Hw Hn. pose proof (win_holds _ _ _ _ _ _ Hw) as Hh.
  rewrite <- (take_drop (Z.to_nat n) l) in Hh. by apply holds_app in Hh as [Hh _].
Qed.

Lemma window_empty clear cap P :
  0 < cap → 0 <= P → window clear cap (replicate (Z.to_nat cap) zero) P P [].
Proof.
  intros Hc HP.
  assert (len (replicate (Z.to_nat cap) zero) = cap) as Hl
    by (unfold len; rewrite length_replicate; lia).
  constructor; change (len []) with 0; try lia; [apply holds_nil|].
  intros _ q Hq. unfold slot. rewrite Hl. apply lookup_replicate_2.
  pose proof (mod_range cap q). lia.
Qed.
End window.

(** ** The interface of a queue *)
Record queue_api (S T : Type) := QueueApi {
  api_zero : T;
  (** the values in the queue, oldest first, and how many more may be enqueued before a position
      of the queue overflows; the dpdk positions wrap around and never do *)
  api_holds : S → Z → list T → Prop;
  api_same : S → S → Prop;              (** same capacity and configuration *)
  api_capacity : S → Z;
  api_maxEnqueue : S → Z;
  api_maxDequeue : S → Z;
  api_exactEnqueue : S → bool;
  api_exactDequeue : S → bool;
  api_Enqueue : T → prog S (option error);
  api_Dequeue : prog S (T * option error);
  api_EnqueueBulk : list T → prog S (Z * option error);
  api_EnqueueBurst : list T → prog S (Z * Z);
  api_DequeueBulk : list T → prog S (Z * option error * list T);
  api_DequeueBurst : list T → prog S (Z * Z * list T);
  api_Count : prog S Z;
}.
Arguments QueueApi {S T}.
Arguments api_zero {S T} _.
Arguments api_holds {S T} _ _ _ _.
Arguments api_same {S T} _ _ _.
Arguments api_capacity {S T} _ _.
Arguments api_maxEnqueue {S T} _ _.
Arguments api_maxDequeue {S T} _ _.
Arguments api_exactEnqueue {S T} _ _.
Arguments api_exactDequeue {S T} _ _.
Arguments api_Enqueue {S T} _ _.
Arguments api_Dequeue {S T} _.
Arguments api_EnqueueBulk {S T} _ _.
Arguments api_EnqueueBurst {S T} _ _.
Arguments api_DequeueBulk {S T} _ _.
Arguments api_DequeueBurst {S T} _ _.
Arguments api_Count {S T} _.

(** A count a call reports: never above the true one, and equal to it when the call is [exact]. *)
Definition reported (count actual : Z) (exact : Prop) : Prop :=
  count <= actual ∧ (exact → count = actual).

Section spec.
Context {S T : Type} (A : queue_api S T).

(** The producer calls on a queue that holds [l] with budget [k]: what each returns and what the
    queue holds afterwards. Every call returns. *)
Definition enqueue_spec (r : S) (k : Z) (l : list T) : Prop :=
  let cap := api_capacity A r in
  let exact := api_exactEnqueue A r = true in
  (∀ x, 1 <= k → ends (api_Enqueue A x) r (λ err r', api_same A r r' ∧
     if len l <? cap then err = None ∧ api_holds A r' (k - 1) (l ++ [x])
     else err = Some ErrFull ∧ api_holds A r' k l)) ∧
  (∀ xs, len xs <= k → ends (api_EnqueueBulk A xs) r (λ '(free, err) r', api_same A r r' ∧
     if api_maxEnqueue A r <? len xs
     then err = Some (BatchLengthError "enqueue" (len xs) (api_maxEnqueue A r) cap) ∧
          api_holds A r' k l ∧ free = cap - len l
     else if len l + len xs <=? cap
     then err = None ∧ api_holds A r' (k - len xs) (l ++ xs) ∧
          reported free (cap - len l - len xs) (exact ∨ xs = [])
     else err = Some ErrFull ∧ api_holds A r' k l ∧ free = cap - len l)) ∧
  (∀ xs, len xs <= k → ends (api_EnqueueBurst A xs) r (λ '(n, free) r', api_same A r r' ∧
     let want := Z.min (len xs) (api_maxEnqueue A r) in
     n = Z.min want (cap - len l) ∧ api_holds A r' (k - n) (l ++ take (Z.to_nat n) xs) ∧
     reported free (cap - len l - n) (exact ∨ n < want ∨ want = 0))).

(** The consumer calls; the last result of the batch calls is the destination slice. *)
Definition dequeue_spec (r : S) (k : Z) (l : list T) : Prop :=
  let exact := api_exactDequeue A r = true in
  ends (api_Dequeue A) r (λ '(v, err) r', api_same A r r' ∧
    match l with
    | x :: l' => v = x ∧ err = None ∧ api_holds A r' k l'
    | [] => v = api_zero A ∧ err = Some ErrEmpty ∧ api_holds A r' k []
    end) ∧
  (∀ dst, ends (api_DequeueBulk A dst) r (λ '(available, err, dst') r', api_same A r r' ∧
     if api_maxDequeue A r <? len dst
     then err = Some (BatchLengthError "dequeue" (len dst) (api_maxDequeue A r)
                        (api_capacity A r)) ∧
          dst' = dst ∧ api_holds A r' k l ∧ available = len l
     else if len dst <=? len l
     then err = None ∧ dst' = take (length dst) l ∧ api_holds A r' k (drop (length dst) l) ∧
          reported available (len l - len dst) (exact ∨ dst = [])
     else err = Some ErrEmpty ∧ dst' = dst ∧ api_holds A r' k l ∧ available = len l)) ∧
  (∀ dst, ends (api_DequeueBurst A dst) r (λ '(n, available, dst') r', api_same A r r' ∧
     let want := Z.min (len dst) (api_maxDequeue A r) in
     n = Z.min want (len l) ∧ dst' = take (Z.to_nat n) l ++ drop (Z.to_nat n) dst ∧
     api_holds A r' k (drop (Z.to_nat n) l) ∧
     reported available (len l - n) (exact ∨ n < want ∨ want = 0))) ∧
  ends (api_Count A) r (λ n r', api_same A r r' ∧ api_holds A r' k l ∧ n = len l).

(** A queue that keeps these promises whenever it holds some values. *)
Class FifoQueue : Prop := {
  fifo_enqueue r k l : api_holds A r k l → enqueue_spec r k l;
  fifo_dequeue r k l : api_holds A r k l → dequeue_spec r k l;
  fifo_fits r k l : api_holds A r k l → len l <= api_capacity A r;
  fifo_limits r k l : api_holds A r k l →
    1 <= api_capacity A r <= 2 ^ 30 ∧ 1 <= api_maxEnqueue A r <= api_capacity A r ∧
    1 <= api_maxDequeue A r <= api_capacity A r;
  fifo_same r r' : api_same A r r' →
    api_capacity A r' = api_capacity A r ∧ api_maxEnqueue A r' = api_maxEnqueue A r ∧
    api_maxDequeue A r' = api_maxDequeue A r;
}.
End spec.
End RingSpec.
