(* ===== verification/RingCalls.v ===== *)
(** * What the queues' batch calls share

    Writing and reading an interval of slots, the arithmetic of admission, and the calls of a
    side that reserves an interval, moves the values and publishes: given what the reservation
    promises, [Enqueue], [EnqueueBulk], [EnqueueBurst] and their dequeue counterparts meet the
    specification of [RingSpec]. *)

From Stdlib Require Import ZArith Lia.
From stdpp Require Import prelude list strings.
From S2P Require Import Prelude Prog RingCore RingSlots RingSpec.

Module RingCalls.
Import Prog Ring Slots RingSpec.

(** Writing an owned interval, and reading and clearing one: one slot directly, several as the
    run up to the end of the array and the run from its start. *)
Section slots.
Context {S T : Type} `{!Slots S T}.

Definition writeSlots (mask start : Z) (items : list T) : prog S unit :=
  let length := u32 (len items) in
  let base := Z.land start mask in
  match items with
  | [item] => slot_set base item
  | _ =>
      let first := Z.min length (mask +32 1 -32 base) in
      _ ← copy_in base (sub items 0 first);
      copy_in 0 (sub items first (len items))
  end.

Definition readSlots (mask : Z) (zero : T) (clearOnDequeue : bool) (start n : Z) : prog S (list T) :=
  let base := Z.land start mask in
  if n =? 1 then
    value ← slot_get base;
    _ ← (if clearOnDequeue then slot_set base zero else mret tt);
    mret [value]
  else
    let first := Z.min n (mask +32 1 -32 base) in
    values ← copy_out_both base first (n -32 first);
    _ ← (if clearOnDequeue
         then _ ← clear_slots zero base first; clear_slots zero 0 (n -32 first)
         else mret tt);
    mret values.
End slots.

(** ** Admission *)

(** How many positions a request gets. *)
Definition granted (fixed : bool) (requested available : Z) : Z :=
  if fixed && (available <? requested) then 0 else Z.min requested available.

Lemma granted_all fixed requested available :
  requested <= available → granted fixed requested available = requested.
Proof.
  intros H. unfold granted. rewrite (proj2 (Z.ltb_ge _ _)), andb_false_r by lia. lia.
Qed.

Lemma granted_none requested available :
  available < requested → granted true requested available = 0.
Proof. intros H. unfold granted. by rewrite (proj2 (Z.ltb_lt _ _)) by lia. Qed.

Lemma granted_part requested available :
  granted false requested available = Z.min requested available.
Proof. done. Qed.

(** The batch limit is never above the capacity, so its check decides. *)
Lemma orb_ltb_max cap max n : max <= cap → (cap <? n) || (max <? n) = (max <? n).
Proof. intros. apply eq_true_iff_eq. rewrite orb_true_iff, !Z.ltb_lt. lia. Qed.

(** What a reservation call reports. [rm] is the room it computed: never more than the room
    there is, and exactly that when it had reason to look. *)
Definition fresh_room (exact : bool) (requested n rm available : Z) : Prop :=
  n <= rm <= available ∧ (exact = true ∨ requested = 0 ∨ n < requested → rm = available).

(** A batch admitted by the cached room, or by the fresh room when the cached one does not do,
    gets what the fresh room grants. *)
Lemma admission fixed exact cap requested ca fresh :
  0 <= ca <= fresh → fresh <= cap → 0 <= requested →
  let refresh := exact || (requested =? 0) || (ca <? requested) || (cap <? ca) in
  let rm := if refresh then fresh else ca in
  let n := granted fixed requested fresh in
  n = granted fixed requested rm ∧ fresh_room exact requested n rm fresh.
Proof.
  intros Hca Hf Hr refresh rm n. subst rm. unfold fresh_room. destruct refresh eqn:Href.
  - split; [done|]. split; [|done]. unfold n, granted.
    destruct fixed; simpl; [destruct (Z.ltb_spec fresh requested)|]; lia.
  - unfold refresh in Href. rewrite !orb_false_iff, Z.eqb_neq, !Z.ltb_ge in Href.
    destruct Href as [[[-> Hz] Hs] _]. unfold n. rewrite !granted_all by lia.
    split_and!; [done|lia..|]. intros [?|[?|?]]; [done|lia..].
Qed.

(** The two counts of a call that got [n] of what it asked for. *)
Lemma fresh_reported exact requested n rm available (short : Prop) :
  fresh_room exact requested n rm available → (short → exact = true ∨ requested = 0 ∨ n < requested) →
  reported (rm - n) (available - n) short.
Proof. intros [Hb Hf] Hs. split; [lia|]. intros H. rewrite Hf; [done|auto]. Qed.

Section alone_slots.
Context {S T : Type} `{!Slots S T} (cap : Z) (Hcap : pow2_cap cap).
Implicit Types s : S.

Lemma mask_capacity m : m = cap - 1 → m +32 1 = cap.
Proof. intros ->. pose proof (pow2_cap_range cap Hcap). rewrite Z.sub_add. by pos_simpl. Qed.

Lemma ends_writeSlots m s pos items (Q : unit → S → Prop) :
  m = cap - 1 → len (entries s) = cap → len items <= cap →
  (∀ es', after_write (entries s) pos items es' → Q tt (set_entries es' s)) →
  ends (writeSlots m (u32 pos) items) s Q.
Proof.
  intros Hm Hl Hn HQ. pose proof (pow2_cap_range cap Hcap). pose proof (len_nonneg items).
  pose proof (mod_range cap pos ltac:(lia)).
  unfold writeSlots. rewrite (mask_capacity _ Hm), Hm, mask_index by done.
  rewrite (u32_small (len items)), (u32_small (cap - pos mod cap)) by (unfold is_u32; lia).
  assert (ends (_ ← copy_in (pos mod cap) (sub items 0 (Z.min (len items) (cap - pos mod cap)));
    copy_in 0 (sub items (Z.min (len items) (cap - pos mod cap)) (len items))) s Q) as Hgen.
  { rewrite copy_in_sub by lia. rewrite take_ge by (unfold len; lia). by apply ends_write_at; [lia|..]. }
  destruct items as [|x [|x' items]]; [done| |done].
  apply ends_slot_set; [lia|done|]. apply HQ.
  apply after_write_one. lia.
Qed.

(** Writing the first [n] of the given items, one slot directly or two runs. *)
Lemma ends_writeBatch s pos items n (Q : unit → S → Prop) :
  len (entries s) = cap → 0 < n <= len items → n <= cap →
  (∀ es', after_write (entries s) pos (take (Z.to_nat n) items) es' → Q tt (set_entries es' s)) →
  ends (if n =? 1 then
          item ← access (λ r, (λ item, (r, item)) <$> items !! 0%nat);
          slot_set (pos mod cap) item
        else
          let first := Z.min n (cap -32 pos mod cap) in
          _ ← copy_in (pos mod cap) (sub items 0 first);
          copy_in 0 (sub items first n)) s Q.
Proof.
  intros Hl Hn Hc HQ. pose proof (pow2_cap_range cap Hcap). pose proof (mod_range cap pos ltac:(lia)).
  destruct (Z.eqb_spec n 1) as [->|Hne].
  - destruct items as [|x items]; [unfold len in Hn; simpl in Hn; lia|].
    apply ends_bind. eapply ends_access; [done|]. apply ends_slot_set; [lia|done|]. apply HQ.
    simpl. rewrite take_0. apply after_write_one. lia.
  - rewrite (u32_small (cap - pos mod cap)) by (unfold is_u32; lia). cbv zeta.
    rewrite copy_in_sub by lia. apply ends_write_at; [lia|done|rewrite len_take; lia|done].
Qed.

Lemma ends_readSlots m s zero clear pos n vs (Q : list T → S → Prop) :
  m = cap - 1 → len (entries s) = cap → 0 <= n <= cap →
  holds (entries s) pos vs → len vs = n →
  (∀ es', after_read zero clear (entries s) pos n es' → Q vs (set_entries es' s)) →
  ends (readSlots m zero clear (u32 pos) n) s Q.
Proof.
  intros Hm Hl Hn Hh Hv HQ. pose proof (pow2_cap_range cap Hcap). pose proof (mod_range cap pos ltac:(lia)).
  unfold readSlots. rewrite (mask_capacity _ Hm), Hm, mask_index by done.
  destruct (Z.eqb_spec n 1) as [->|Hne].
  - destruct vs as [|v [|? ?]]; [done| |unfold len in Hv; simpl in Hv; lia].
    apply ends_bind. eapply ends_slot_get; [lia|done| |].
    { rewrite <- (Z.add_0_r pos). by apply (Hh 0%nat). }
    apply ends_bind. destruct clear.
    + apply ends_slot_set; [lia|done|]. apply ends_ret, HQ.
      apply after_write_one. lia.
    + apply ends_ret, ends_ret. rewrite <- (set_entries_same s). by apply HQ.
  - rewrite (u32_small (cap - pos mod cap)), (u32_small (n - _)) by (unfold is_u32; lia).
    rewrite copy_out_split by lia. apply ends_bind.
    eapply ends_read_at; [lia|done|done|done|]. apply ends_bind. destruct clear.
    + rewrite clear_split by lia. apply ends_clear_at; [lia|done|lia|]. intros es' Haw.
      by apply ends_ret, HQ.
    + apply ends_ret, ends_ret. rewrite <- (set_entries_same s). by apply HQ.
Qed.
End alone_slots.

(** ** A producer side that reserves

    [st r k l]: the queue [r] holds [l] with budget [k]. *)
Section producer.
Context {S T Pos : Type} (cap : Z) (Hcap : pow2_cap cap).
Context (same : S → S → Prop) (st : S → Z → list T → Prop).
Context (reserve : Z → bool → bool → prog S (Pos * Z * Z)).
Context (write : Pos → list T → prog S unit) (publish : Pos → Z → prog S unit).
Context (oversize : prog S Z).

(** What a reservation promises: how many positions it got, the room it reports, and that writing
    as many values and publishing them appends them. *)
Definition reserve_promise (r : S) (k : Z) (l : list T) (requested : Z) (fixed exact : bool)
    : Pos * Z * Z → S → Prop := λ '(start, n, rest) r1,
  n = granted fixed requested (cap - len l) ∧
  (∃ rm, rest = rm - n ∧ fresh_room exact requested n rm (cap - len l)) ∧
  (n = 0 → same r r1 ∧ st r1 k l) ∧
  (∀ xs, 0 < n → len xs = n →
     ends (_ ← write start xs; publish start n) r1
       (λ _ r', same r r' ∧ st r' (k - n) (l ++ xs))).

Context (Hfits : ∀ r k l, st r k l → len l <= cap).
Context (Hreserve : ∀ r k l requested fixed exact,
  st r k l → 0 <= requested <= cap → requested <= k →
  ends (reserve requested fixed exact) r (reserve_promise r k l requested fixed exact)).
Context (Hover : ∀ r k l, st r k l →
  ends oversize r (λ n r', same r r' ∧ st r' k l ∧ n = cap - len l)).

(** Moving the values, then returning. *)
Lemma ends_then {A B} (p : prog S A) (q : prog S unit) (b : B) r (Q : B → S → Prop) :
  ends (_ ← p; q) r (λ _ r', Q b r') → ends (_ ← p; _ ← q; mret b) r Q.
Proof.
  intros H. replace (_ ← p; _ ← q; mret b) with ((_ ← p; q) ≫= λ _, mret (M := prog S) b).
  - apply ends_bind. eapply ends_mono; [exact H|]. intros a r1 HQ. by apply ends_ret.
  - unfold mbind, prog_bind. by rewrite bind_assoc.
Qed.

Lemma calls_Enqueue r k l x :
  st r k l → 1 <= k →
  ends ('(start, count, _) ← reserve 1 true false;
        if count =? 0 then mret (Some ErrFull)
        else _ ← write start [x]; _ ← publish start count; mret None) r
    (λ err r', same r r' ∧
       if len l <? cap then err = None ∧ st r' (k - 1) (l ++ [x])
       else err = Some ErrFull ∧ st r' k l).
Proof.
  intros Hst Hk. pose proof (pow2_cap_range _ Hcap). apply ends_bind.
  eapply ends_mono; [by apply (Hreserve r k l 1); [|lia..]|].
  intros [[start n] rest] r1 (Hn & _ & Hnone & Hsome). destruct (Z.ltb_spec (len l) cap).
  - rewrite granted_all in Hn by lia. subst n. destruct (Z.eqb_spec 1 0); [lia|].
    apply ends_then. eapply ends_mono; [by apply (Hsome [x])|]. naive_solver.
  - rewrite granted_none in Hn by lia. subst n. destruct (Z.eqb_spec 0 0); [|lia].
    apply ends_ret. destruct Hnone; [done|]. by split_and!.
Qed.

Lemma calls_EnqueueBulk r k l xs max exact :
  st r k l → len xs <= k → max <= cap →
  ends (if (cap <? len xs) || (max <? len xs)
        then remaining ← oversize;
             mret (remaining, Some (BatchLengthError "enqueue" (len xs) max cap))
        else
          '(start, count, remaining) ← reserve (u32 (len xs)) true exact;
          if count =? 0 then mret (remaining, if len xs =? 0 then None else Some ErrFull)
          else _ ← write start xs; _ ← publish start count; mret (remaining, None)) r
    (λ '(free, err) r', same r r' ∧
       if max <? len xs
       then err = Some (BatchLengthError "enqueue" (len xs) max cap) ∧ st r' k l ∧
            free = cap - len l
       else if len l + len xs <=? cap
       then err = None ∧ st r' (k - len xs) (l ++ xs) ∧
            reported free (cap - len l - len xs) (exact = true ∨ xs = [])
       else err = Some ErrFull ∧ st r' k l ∧ free = cap - len l).
Proof.
  intros Hst Hk Hmax. pose proof (pow2_cap_range _ Hcap). pose proof (len_nonneg xs).
  pose proof (Hfits _ _ _ Hst). rewrite orb_ltb_max by done. destruct (Z.ltb_spec max (len xs)).
  { apply ends_bind. eapply ends_mono; [by apply Hover|]. intros n r' (Hs & Hst' & Hn).
    apply ends_ret. by split_and!. }
  rewrite (u32_small (len xs)) by (unfold is_u32; lia). apply ends_bind.
  eapply ends_mono; [by apply (Hreserve r k l (len xs) true exact); [|lia..]|].
  intros [[start n] rest] r1 (Hn & (rm & -> & Hf) & Hnone & Hsome).
  destruct (Z.leb_spec (len l + len xs) cap).
  - rewrite granted_all in Hn by lia. subst n.
    assert (reported (rm - len xs) (cap - len l - len xs) (exact = true ∨ xs = [])) as Hrep.
    { eapply fresh_reported; [done|]. intros [?| ->]; auto. }
    destruct (Z.eqb_spec (len xs) 0) as [Hz0|Hz0].
    + destruct Hnone as [Hs Hst']; [done|]. apply ends_ret. rewrite Hz0 in *.
      apply len_0_nil in Hz0 as ->. rewrite app_nil_r, (Z.sub_0_r k). by split_and!.
    + apply ends_then. eapply ends_mono; [by apply (Hsome xs); [lia|]|]. intros _ r' [Hs Hst'].
      by split_and!.
  - rewrite granted_none in Hn by lia. subst n. destruct (Z.eqb_spec 0 0); [|lia].
    destruct Hnone as [Hs Hst']; [done|]. apply ends_ret. split_and!; [done| |done|].
    + destruct (Z.eqb_spec (len xs) 0); [lia|done].
    + destruct Hf as [_ Hf]. rewrite Hf; lia.
Qed.

Lemma calls_EnqueueBurst r k l xs max exact :
  st r k l → len xs <= k → 0 <= max <= cap →
  ends ('(start, count, remaining) ← reserve (u32 (Z.min (len xs) max)) false exact;
        if count =? 0 then mret (0, remaining)
        else _ ← write start (sub xs 0 count); _ ← publish start count; mret (count, remaining)) r
    (λ '(n, free) r', same r r' ∧
       let want := Z.min (len xs) max in
       n = Z.min want (cap - len l) ∧ st r' (k - n) (l ++ take (Z.to_nat n) xs) ∧
       reported free (cap - len l - n) (exact = true ∨ n < want ∨ want = 0)).
Proof.
  intros Hst Hk Hmax. pose proof (pow2_cap_range _ Hcap). pose proof (len_nonneg xs).
  pose proof (Hfits _ _ _ Hst). set (want := Z.min (len xs) max).
  rewrite (u32_small want) by (unfold is_u32; lia). apply ends_bind.
  eapply ends_mono; [by apply (Hreserve r k l want false exact); [|lia..]|].
  intros [[start n] rest] r1 (Hn & (rm & -> & Hf) & Hnone & Hsome). rewrite granted_part in Hn.
  assert (reported (rm - n) (cap - len l - n) (exact = true ∨ n < want ∨ want = 0)) as Hrep.
  { eapply fresh_reported; [done|]. intros [?|[?|?]]; auto. }
  destruct (Z.eqb_spec n 0) as [Hz0|Hz0].
  - destruct Hnone as [Hs Hst']; [done|]. apply ends_ret. rewrite Hz0 in *.
    rewrite app_nil_r, (Z.sub_0_r k). by split_and!.
  - apply ends_then. rewrite sub_0.
    eapply ends_mono; [apply Hsome; [lia|apply len_take; lia]|].
    intros _ r' [Hs Hst']. by split_and!.
Qed.
End producer.

(** ** A consumer side that reserves *)
Section consumer.
Context {S T Pos : Type} (zero : T) (cap : Z) (Hcap : pow2_cap cap).
Context (same : S → S → Prop) (st : S → list T → Prop).
Context (reserve : Z → bool → bool → prog S (Pos * Z * Z)).
Context (readOne : Pos → prog S T) (read : Pos → Z → prog S (list T)).
Context (release : Pos → Z → prog S unit) (oversize : prog S Z).

(** What a reservation promises: how many positions it got, the count it reports, and that reading
    and releasing them removes that many values. *)
Definition claim_promise (r : S) (l : list T) (requested : Z) (fixed exact : bool)
    : Pos * Z * Z → S → Prop := λ '(start, n, rest) r1,
  n = granted fixed requested (len l) ∧
  (∃ rm, rest = rm - n ∧ fresh_room exact requested n rm (len l)) ∧
  (n = 0 → same r r1 ∧ st r1 l) ∧
  (0 < n → ends (read start n) r1 (λ vs r2, vs = take (Z.to_nat n) l ∧
     ends (release start n) r2 (λ _ r', same r r' ∧ st r' (drop (Z.to_nat n) l)))) ∧
  (n = 1 → ends (readOne start) r1 (λ v r2, take 1 l = [v] ∧
     ends (release start 1) r2 (λ _ r', same r r' ∧ st r' (drop 1 l)))).

Context (Hfits : ∀ r l, st r l → len l <= cap).
Context (Hreserve : ∀ r l requested fixed exact,
  st r l → 0 <= requested <= cap →
  ends (reserve requested fixed exact) r (claim_promise r l requested fixed exact)).
Context (Hover : ∀ r l, st r l → ends oversize r (λ n r', same r r' ∧ st r' l ∧ n = len l)).

Lemma calls_Dequeue r l :
  st r l →
  ends ('(start, count, _) ← reserve 1 true false;
        if count =? 0 then mret (zero, Some ErrEmpty)
        else value ← readOne start; _ ← release start count; mret (value, None)) r
    (λ '(v, err) r', same r r' ∧
       match l with
       | x :: l' => v = x ∧ err = None ∧ st r' l'
       | [] => v = zero ∧ err = Some ErrEmpty ∧ st r' []
       end).
Proof.
  intros Hst. pose proof (pow2_cap_range _ Hcap). apply ends_bind.
  eapply ends_mono; [by apply (Hreserve r l 1); [|lia..]|].
  intros [[start n] rest] r1 (Hn & _ & Hnone & _ & Hone). destruct l as [|x l'].
  - rewrite granted_none in Hn by done. subst n. destruct (Z.eqb_spec 0 0); [|lia].
    apply ends_ret. destruct Hnone; [done|]. by split_and!.
  - rewrite granted_all in Hn by (unfold len; simpl; lia). subst n. destruct (Z.eqb_spec 1 0); [lia|].
    apply ends_bind. eapply ends_mono; [by apply Hone|]. intros v r2 [[= <-] Hrel].
    apply ends_bind. eapply ends_mono; [exact Hrel|]. intros _ r' [Hs Hst']. apply ends_ret.
    by split_and!.
Qed.

Lemma calls_DequeueBulk r l dst max exact :
  st r l → max <= cap →
  ends (if (cap <? len dst) || (max <? len dst)
        then remaining ← oversize;
             mret (remaining, Some (BatchLengthError "dequeue" (len dst) max cap), dst)
        else
          '(start, count, remaining) ← reserve (u32 (len dst)) true exact;
          if count =? 0 then mret (remaining, if len dst =? 0 then None else Some ErrEmpty, dst)
          else values ← read start (len dst); _ ← release start count;
               mret (remaining, None, copy_at 0 values dst)) r
    (λ '(available, err, dst') r', same r r' ∧
       if max <? len dst
       then err = Some (BatchLengthError "dequeue" (len dst) max cap) ∧ dst' = dst ∧ st r' l ∧
            available = len l
       else if len dst <=? len l
       then err = None ∧ dst' = take (length dst) l ∧ st r' (drop (length dst) l) ∧
            reported available (len l - len dst) (exact = true ∨ dst = [])
       else err = Some ErrEmpty ∧ dst' = dst ∧ st r' l ∧ available = len l).
Proof.
  intros Hst Hmax. pose proof (pow2_cap_range _ Hcap). pose proof (len_nonneg dst).
  pose proof (len_nonneg l). pose proof (Hfits _ _ Hst). rewrite orb_ltb_max by done. destruct (Z.ltb_spec max (len dst)).
  { apply ends_bind. eapply ends_mono; [by apply Hover|]. intros n r' (Hs & Hst' & Hn).
    apply ends_ret. by split_and!. }
  rewrite (u32_small (len dst)) by (unfold is_u32; lia). apply ends_bind.
  eapply ends_mono; [by apply (Hreserve r l (len dst) true exact); [|lia..]|].
  intros [[start n] rest] r1 (Hn & (rm & -> & Hf) & Hnone & Hsome & _).
  assert (Z.to_nat (len dst) = length dst) as Hnat by (unfold len; lia).
  destruct (Z.leb_spec (len dst) (len l)).
  - rewrite granted_all in Hn by lia. subst n.
    assert (reported (rm - len dst) (len l - len dst) (exact = true ∨ dst = [])) as Hrep.
    { eapply fresh_reported; [done|]. intros [?| ->]; auto. }
    destruct (Z.eqb_spec (len dst) 0) as [Hz0|Hz0].
    + destruct Hnone as [Hs Hst']; [done|]. apply ends_ret. rewrite Hz0 in *.
      apply len_0_nil in Hz0 as ->. by split_and!.
    + apply ends_bind. eapply ends_mono; [apply Hsome; lia|]. intros vs r2 [-> Hrel].
      apply ends_bind. eapply ends_mono; [exact Hrel|]. intros _ r' [Hs Hst']. apply ends_ret.
      rewrite Hnat in *. rewrite copy_front, drop_ge, app_nil_r by (unfold len in *; rewrite ?length_take; lia).
      by split_and!.
  - rewrite granted_none in Hn by lia. subst n. destruct (Z.eqb_spec 0 0); [|lia].
    destruct Hnone as [Hs Hst']; [done|]. apply ends_ret. split_and!; [done| |done|done|].
    + destruct (Z.eqb_spec (len dst) 0); [lia|done].
    + destruct Hf as [_ Hf]. rewrite Hf; lia.
Qed.

Lemma calls_DequeueBurst r l dst max exact :
  st r l → 0 <= max <= cap →
  ends ('(start, count, remaining) ← reserve (u32 (Z.min (len dst) max)) false exact;
        if count =? 0 then mret (0, remaining, dst)
        else values ← read start count; _ ← release start count;
             mret (count, remaining, copy_at 0 values dst)) r
    (λ '(n, available, dst') r', same r r' ∧
       let want := Z.min (len dst) max in
       n = Z.min want (len l) ∧ dst' = take (Z.to_nat n) l ++ drop (Z.to_nat n) dst ∧
       st r' (drop (Z.to_nat n) l) ∧
       reported available (len l - n) (exact = true ∨ n < want ∨ want = 0)).
Proof.
  intros Hst Hmax. pose proof (pow2_cap_range _ Hcap). pose proof (len_nonneg dst).
  pose proof (Hfits _ _ Hst). set (want := Z.min (len dst) max).
  rewrite (u32_small want) by (unfold is_u32; lia). apply ends_bind.
  eapply ends_mono; [by apply (Hreserve r l want false exact); [|lia..]|].
  intros [[start n] rest] r1 (Hn & (rm & -> & Hf) & Hnone & Hsome & _). rewrite granted_part in Hn.
  assert (reported (rm - n) (len l - n) (exact = true ∨ n < want ∨ want = 0)) as Hrep.
  { eapply fresh_reported; [done|]. intros [?|[?|?]]; auto. }
  pose proof (len_nonneg l). destruct (Z.eqb_spec n 0) as [Hz0|Hz0].
  - destruct Hnone as [Hs Hst']; [done|]. apply ends_ret. rewrite Hz0 in *.
    by split_and!.
  - apply ends_bind. eapply ends_mono; [apply Hsome; lia|]. intros vs r2 [-> Hrel].
    apply ends_bind. eapply ends_mono; [exact Hrel|]. intros _ r' [Hs Hst']. apply ends_ret.
    assert (len (take (Z.to_nat n) l) = n) as Hl by (apply len_take; lia).
    rewrite copy_front by lia. unfold len in Hl.
    replace (length (take (Z.to_nat n) l)) with (Z.to_nat n) by lia. by split_and!.
Qed.
End consumer.
End RingCalls.
