(* ===== verification/DpdkOptions.v ===== *)
(** * Options of the dpdk queues (src/ring/dpdk/options.go, errors.go)

    The construction options, their defaults and the validation every constructor runs before it
    allocates. An option is a function on the configuration, as in the source. *)

From Stdlib Require Import ZArith Lia.
From stdpp Require Import prelude list strings.
From S2P Require Import Prelude RingCore RingSlots.

Module DpdkOptions.
Import Ring.

Inductive syncMode := modeSingle | modeMulti | modeRelaxed.

#[export] Instance syncMode_eq_dec : EqDecision syncMode.
Proof. solve_decision. Defined.

(** The number [fmt] prints for a mode. *)
Definition mode_number (mode : syncMode) : Z :=
  match mode with modeSingle => 0 | modeMulti => 1 | modeRelaxed => 2 end.

Definition mode_eqb (a b : syncMode) : bool := bool_decide (a = b).

Record config := MkConfig {
  prodMode : syncMode;
  consMode : syncMode;
  maxEnqueueBatch : Z;
  maxDequeueBatch : Z;
  keepDequeued : bool;
  exactBatchCounts : bool;
  spinsBeforeYield : Z;
  spinsBeforeYieldSet : bool;
  maxProducerHeadTailDistance : Z;
  maxConsumerHeadTailDistance : Z;
  producerHeadTailDistanceSet : bool;
  consumerHeadTailDistanceSet : bool;
}.

Definition Option := config → config.

(** ** Sentinels of this package *)

Definition ErrInvalidSpinsBeforeYield : error :=
  New "ring: spins before yield must be between 0 and math.MaxInt32".
Definition ErrInvalidMaxHeadTailDistance : error :=
  New "ring: invalid maximum head-to-tail distance".
Definition ErrHeadTailDistanceRequiresRelaxed : error :=
  New "ring: head-to-tail distance requires RTS".
Definition ErrUnsupportedOption : error := New "ring: option unsupported by queue topology".

(** ** Options *)

Definition WithRelaxedMultiProdEnqueue : Option := λ cfg,
  MkConfig modeRelaxed (consMode cfg) (maxEnqueueBatch cfg) (maxDequeueBatch cfg)
    (keepDequeued cfg) (exactBatchCounts cfg) (spinsBeforeYield cfg) (spinsBeforeYieldSet cfg)
    (maxProducerHeadTailDistance cfg) (maxConsumerHeadTailDistance cfg)
    (producerHeadTailDistanceSet cfg) (consumerHeadTailDistanceSet cfg).

Definition WithRelaxedMultiConsDequeue : Option := λ cfg,
  MkConfig (prodMode cfg) modeRelaxed (maxEnqueueBatch cfg) (maxDequeueBatch cfg)
    (keepDequeued cfg) (exactBatchCounts cfg) (spinsBeforeYield cfg) (spinsBeforeYieldSet cfg)
    (maxProducerHeadTailDistance cfg) (maxConsumerHeadTailDistance cfg)
    (producerHeadTailDistanceSet cfg) (consumerHeadTailDistanceSet cfg).

Definition WithMaxEnqueueBatch (n : Z) : Option := λ cfg,
  MkConfig (prodMode cfg) (consMode cfg) n (maxDequeueBatch cfg)
    (keepDequeued cfg) (exactBatchCounts cfg) (spinsBeforeYield cfg) (spinsBeforeYieldSet cfg)
    (maxProducerHeadTailDistance cfg) (maxConsumerHeadTailDistance cfg)
    (producerHeadTailDistanceSet cfg) (consumerHeadTailDistanceSet cfg).

Definition WithMaxDequeueBatch (n : Z) : Option := λ cfg,
  MkConfig (prodMode cfg) (consMode cfg) (maxEnqueueBatch cfg) n
    (keepDequeued cfg) (exactBatchCounts cfg) (spinsBeforeYield cfg) (spinsBeforeYieldSet cfg)
    (maxProducerHeadTailDistance cfg) (maxConsumerHeadTailDistance cfg)
    (producerHeadTailDistanceSet cfg) (consumerHeadTailDistanceSet cfg).

Definition WithMaxBatch (n : Z) : Option := λ cfg,
  MkConfig (prodMode cfg) (consMode cfg) n n
    (keepDequeued cfg) (exactBatchCounts cfg) (spinsBeforeYield cfg) (spinsBeforeYieldSet cfg)
    (maxProducerHeadTailDistance cfg) (maxConsumerHeadTailDistance cfg)
    (producerHeadTailDistanceSet cfg) (consumerHeadTailDistanceSet cfg).

Definition WithoutDequeueClearing : Option := λ cfg,
  MkConfig (prodMode cfg) (consMode cfg) (maxEnqueueBatch cfg) (maxDequeueBatch cfg)
    true (exactBatchCounts cfg) (spinsBeforeYield cfg) (spinsBeforeYieldSet cfg)
    (maxProducerHeadTailDistance cfg) (maxConsumerHeadTailDistance cfg)
    (producerHeadTailDistanceSet cfg) (consumerHeadTailDistanceSet cfg).

Definition WithExactBatchCounts : Option := λ cfg,
  MkConfig (prodMode cfg) (consMode cfg) (maxEnqueueBatch cfg) (maxDequeueBatch cfg)
    (keepDequeued cfg) true (spinsBeforeYield cfg) (spinsBeforeYieldSet cfg)
    (maxProducerHeadTailDistance cfg) (maxConsumerHeadTailDistance cfg)
    (producerHeadTailDistanceSet cfg) (consumerHeadTailDistanceSet cfg).

Definition WithSpinsBeforeYield (n : Z) : Option := λ cfg,
  MkConfig (prodMode cfg) (consMode cfg) (maxEnqueueBatch cfg) (maxDequeueBatch cfg)
    (keepDequeued cfg) (exactBatchCounts cfg) n true
    (maxProducerHeadTailDistance cfg) (maxConsumerHeadTailDistance cfg)
    (producerHeadTailDistanceSet cfg) (consumerHeadTailDistanceSet cfg).

Definition WithMaxProducerHeadTailDistance (distance : Z) : Option := λ cfg,
  MkConfig (prodMode cfg) (consMode cfg) (maxEnqueueBatch cfg) (maxDequeueBatch cfg)
    (keepDequeued cfg) (exactBatchCounts cfg) (spinsBeforeYield cfg) (spinsBeforeYieldSet cfg)
    distance (maxConsumerHeadTailDistance cfg) true (consumerHeadTailDistanceSet cfg).

Definition WithMaxConsumerHeadTailDistance (distance : Z) : Option := λ cfg,
  MkConfig (prodMode cfg) (consMode cfg) (maxEnqueueBatch cfg) (maxDequeueBatch cfg)
    (keepDequeued cfg) (exactBatchCounts cfg) (spinsBeforeYield cfg) (spinsBeforeYieldSet cfg)
    (maxProducerHeadTailDistance cfg) distance (producerHeadTailDistanceSet cfg) true.

(** ** Validation *)

Definition defaultSpinsBeforeYield : Z := 8192.
Definition maxInt32 : Z := 2 ^ 31 - 1.
Definition maxUint32 : Z := 2 ^ 32 - 1.

Definition checkCapacity (count : Z) : option error := CheckCapacity count.

Definition checkMaxBatch (op : string) (maxBatch count : Z) : option error :=
  CheckMaxBatch op maxBatch count.

Definition batchLengthError (op : string) (length maxBatch capacity : Z) : error :=
  BatchLengthError op length maxBatch capacity.

Definition defaultConfig (count : Z) (producerMode consumerMode : syncMode) : config :=
  MkConfig producerMode consumerMode count count false false defaultSpinsBeforeYield false
    0 0 false false.

Definition checkSpinsBeforeYield (spins count : Z) : option error :=
  if (0 <=? spins) && (spins <=? maxInt32) then None
  else Some (Errorf "new ring with count %d and spins before yield %d: %w"
         [ArgInt count; ArgInt spins] ErrInvalidSpinsBeforeYield).

Definition checkTopologyMode (constructor : string) (count : Z) (side : string)
    (mode initialMode : syncMode) : option error :=
  let compatible :=
    if mode_eqb initialMode modeSingle then mode_eqb mode modeSingle
    else mode_eqb mode modeMulti || mode_eqb mode modeRelaxed in
  if compatible then None
  else Some (Errorf "%s with count %d and %s mode %d: %w"
         [ArgStr constructor; ArgInt count; ArgStr side; ArgInt (mode_number mode)]
         ErrUnsupportedOption).

Definition checkHeadTailDistanceNumber (distance : Z) : option error :=
  if distance <? 0 then Some ErrInvalidMaxHeadTailDistance
  else if maxUint32 <? u64 distance then Some ErrInvalidMaxHeadTailDistance
  else None.

Definition checkHeadTailDistance (constructor : string) (count : Z) (side : string)
    (distance : Z) (explicit : bool) (mode : syncMode) (serialized : bool)
    (relaxedSelector : string) : option error :=
  let args := [ArgStr constructor; ArgInt count; ArgStr side; ArgInt distance] in
  if negb explicit then None
  else match checkHeadTailDistanceNumber distance with
  | Some err => Some (Errorf "%s with count %d and %s head-to-tail distance %d: %w" args err)
  | None =>
      if serialized
      then Some (Errorf "%s with count %d and %s head-to-tail distance %d: %w" args
             ErrUnsupportedOption)
      else if negb (mode_eqb mode modeRelaxed)
      then Some (Errorf "%s with count %d and %s head-to-tail distance %d requires %s: %w"
             (args ++ [ArgStr relaxedSelector]) ErrHeadTailDistanceRequiresRelaxed)
      else None
  end.

(** [if err := check; err != nil { return config{}, wrap(err) }; rest]. *)
Definition guard_err (check : option error) (wrap : error → error) (rest : error + config)
    : error + config :=
  match check with Some err => inl (wrap err) | None => rest end.

Definition resolveConfig (constructor : string) (count : Z)
    (producerMode consumerMode : syncMode) (fixedTopology : bool) (options : list Option)
    : error + config :=
  let named := Errorf "%s: %w" [ArgStr constructor] in
  guard_err (checkCapacity count) named
  (let cfg := foldl (λ cfg option, option cfg) (defaultConfig count producerMode consumerMode)
                options in
   let serialized := mode_eqb producerMode modeSingle && mode_eqb consumerMode modeSingle in
   guard_err (checkMaxBatch "enqueue" (maxEnqueueBatch cfg) count) named (
   guard_err (checkMaxBatch "dequeue" (maxDequeueBatch cfg) count) named (
   guard_err (checkSpinsBeforeYield (spinsBeforeYield cfg) count) named (
   guard_err (if fixedTopology
              then checkTopologyMode constructor count "producer" (prodMode cfg) producerMode
              else None) id (
   guard_err (if fixedTopology
              then checkTopologyMode constructor count "consumer" (consMode cfg) consumerMode
              else None) id (
   guard_err (if fixedTopology && (serialized && spinsBeforeYieldSet cfg)
              then Some (Errorf "%s with count %d and WithSpinsBeforeYield(%d): %w"
                     [ArgStr constructor; ArgInt count; ArgInt (spinsBeforeYield cfg)]
                     ErrUnsupportedOption)
              else None) id (
   guard_err (checkHeadTailDistance constructor count "producer"
                (maxProducerHeadTailDistance cfg) (producerHeadTailDistanceSet cfg)
                (prodMode cfg) (fixedTopology && mode_eqb producerMode modeSingle)
                "WithRelaxedMultiProdEnqueue") id (
   guard_err (checkHeadTailDistance constructor count "consumer"
                (maxConsumerHeadTailDistance cfg) (consumerHeadTailDistanceSet cfg)
                (consMode cfg) (fixedTopology && mode_eqb consumerMode modeSingle)
                "WithRelaxedMultiConsDequeue") id (
   inr cfg))))))))).

Definition resolveHeadTailDistance (mode : syncMode) (count distance : Z) (explicit : bool) : Z :=
  if negb (mode_eqb mode modeRelaxed) then 0
  else if explicit then u32 distance
  else u32 (count / 8).

(** ** Specification

    The checks of a constructor in the order the documentation of the constructors gives, each
    with the sentinel its error wraps. *)
Definition side_faults (initial mode : syncMode) (distance : Z) (explicit : bool)
    : list (bool * error) :=
  [(explicit && ((distance <? 0) || (maxUint32 <? distance)), ErrInvalidMaxHeadTailDistance);
   (explicit && mode_eqb initial modeSingle, ErrUnsupportedOption);
   (explicit && negb (mode_eqb mode modeRelaxed), ErrHeadTailDistanceRequiresRelaxed)].

Definition topology_ok (initial mode : syncMode) : bool :=
  match initial, mode with
  | modeSingle, modeSingle => true
  | modeSingle, _ | _, modeSingle => false
  | _, _ => true
  end.

Definition batch_ok (n count : Z) : bool := (1 <=? n) && (n <=? count).

Definition faults (count : Z) (pm cm : syncMode) (cfg : config) : list (bool * error) :=
  [(bool_decide (CheckCapacity count ≠ None), ErrInvalidCount);
   (negb (batch_ok (maxEnqueueBatch cfg) count), ErrInvalidMaxBatch);
   (negb (batch_ok (maxDequeueBatch cfg) count), ErrInvalidMaxBatch);
   (negb ((0 <=? spinsBeforeYield cfg) && (spinsBeforeYield cfg <=? maxInt32)),
      ErrInvalidSpinsBeforeYield);
   (negb (topology_ok pm (prodMode cfg)), ErrUnsupportedOption);
   (negb (topology_ok cm (consMode cfg)), ErrUnsupportedOption);
   (mode_eqb pm modeSingle && mode_eqb cm modeSingle && spinsBeforeYieldSet cfg,
      ErrUnsupportedOption)] ++
  side_faults pm (prodMode cfg) (maxProducerHeadTailDistance cfg)
    (producerHeadTailDistanceSet cfg) ++
  side_faults cm (consMode cfg) (maxConsumerHeadTailDistance cfg)
    (consumerHeadTailDistanceSet cfg).

Fixpoint first_fault (l : list (bool * error)) : option error :=
  match l with
  | [] => None
  | (fault, sentinel) :: l => if fault then Some sentinel else first_fault l
  end.

(** The configuration the options leave. *)
Definition configured (count : Z) (pm cm : syncMode) (options : list Option) : config :=
  foldl (λ cfg option, option cfg) (defaultConfig count pm cm) options.

(** An error of the model wraps [sentinel] at the end of its chain. *)
Definition reports (r : error + config) (sentinel : option error) (cfg : config) : Prop :=
  match sentinel with
  | Some sentinel => ∃ err, r = inl err ∧ errors_Is err sentinel = true
  | None => r = inr cfg
  end.

Lemma guard_reports check wrap rest fault sentinel faults cfg :
  (fault = false → check = None) →
  (fault = true → ∃ err, check = Some err ∧ errors_Is (wrap err) sentinel = true) →
  reports rest (first_fault faults) cfg →
  reports (guard_err check wrap rest) (first_fault ((fault, sentinel) :: faults)) cfg.
Proof.
  intros Hok Hbad Hrest. destruct fault; simpl.
  - destruct Hbad as (err & -> & Hw); [done|]. by eexists.
  - by rewrite Hok.
Qed.

Lemma CheckCapacity_wraps count err :
  CheckCapacity count = Some err → errors_Is err ErrInvalidCount = true.
Proof. unfold CheckCapacity. destruct (_ || _); [|done]. by intros [= <-]. Qed.

(** What every constructor may rely on. *)
Lemma resolveConfig_ok constructor count pm cm options cfg :
  resolveConfig constructor count pm cm true options = inr cfg →
  Slots.pow2_cap count ∧ 1 <= maxEnqueueBatch cfg <= count ∧ 1 <= maxDequeueBatch cfg <= count ∧
  0 <= spinsBeforeYield cfg <= maxInt32 ∧
  topology_ok pm (prodMode cfg) = true ∧ topology_ok cm (consMode cfg) = true.
Proof.
  unfold resolveConfig, checkCapacity, guard_err. destruct (CheckCapacity count) eqn:Hcc; [done|].
  apply CheckCapacity_pow2 in Hcc.
  set (cfg' := foldl _ _ _). unfold checkMaxBatch, CheckMaxBatch, checkSpinsBeforeYield.
  destruct ((1 <=? maxEnqueueBatch cfg') && _) eqn:He; [|done].
  destruct ((1 <=? maxDequeueBatch cfg') && _) eqn:Hd; [|done].
  destruct ((0 <=? spinsBeforeYield cfg') && _) eqn:Hs; [|done]. simpl.
  destruct (checkTopologyMode _ _ "producer" _ _) eqn:Hp; [done|].
  destruct (checkTopologyMode _ _ "consumer" _ _) eqn:Hc; [done|].
  destruct (_ && spinsBeforeYieldSet cfg'); [done|].
  destruct (checkHeadTailDistance _ _ "producer" _ _ _ _ _); [done|].
  destruct (checkHeadTailDistance _ _ "consumer" _ _ _ _ _); [done|]. intros [= <-].
  apply andb_true_iff in He, Hd, Hs. rewrite !Z.leb_le in He, Hd, Hs.
  split_and!; try lia; [done|..].
  - unfold checkTopologyMode in Hp. by destruct pm, (prodMode cfg').
  - unfold checkTopologyMode in Hc. by destruct cm, (consMode cfg').
Qed.

Lemma resolveConfig_configured constructor count pm cm fixedTopology options cfg :
  resolveConfig constructor count pm cm fixedTopology options = inr cfg →
  configured count pm cm options = cfg.
Proof.
  unfold resolveConfig, guard_err, configured. intros H.
  repeat match type of H with
  | context [match ?x with Some _ => _ | None => _ end] => destruct x; [done|]
  end. by injection H.
Qed.

Lemma batch_reports op n count wrap rest faults cfg :
  (∀ err, errors_Is err ErrInvalidMaxBatch = true → errors_Is (wrap err) ErrInvalidMaxBatch = true) →
  reports rest (first_fault faults) cfg →
  reports (guard_err (checkMaxBatch op n count) wrap rest)
    (first_fault ((negb (batch_ok n count), ErrInvalidMaxBatch) :: faults)) cfg.
Proof.
  intros Hwrap Hrest. apply guard_reports; [| |done];
    unfold checkMaxBatch, CheckMaxBatch, batch_ok; destruct (_ && _); try done.
  intros _. eexists. split; [done|]. by apply Hwrap.
Qed.

Lemma topology_reports ctor count side mode initial rest faults cfg :
  reports rest (first_fault faults) cfg →
  reports (guard_err (checkTopologyMode ctor count side mode initial) id rest)
    (first_fault ((negb (topology_ok initial mode), ErrUnsupportedOption) :: faults)) cfg.
Proof. intros Hrest. by destruct initial, mode; try done; eexists. Qed.

Lemma distance_reports ctor count side distance explicit mode initial selector rest faults cfg :
  is_int distance → reports rest (first_fault faults) cfg →
  reports (guard_err (checkHeadTailDistance ctor count side distance explicit mode
                        (mode_eqb initial modeSingle) selector) id rest)
    (first_fault (side_faults initial mode distance explicit ++ faults)) cfg.
Proof.
  intros Hint Hrest. unfold checkHeadTailDistance, checkHeadTailDistanceNumber.
  destruct explicit; simpl; [|done].
  destruct (Z.ltb_spec distance 0); simpl; [by eexists|].
  rewrite u64_small by (unfold is_int, is_u64, maxInt in *; lia).
  destruct (maxUint32 <? distance); simpl; [by eexists|].
  destruct (mode_eqb initial modeSingle); simpl; [by eexists|].
  destruct (mode_eqb mode modeRelaxed); simpl; [done|]. by eexists.
Qed.

(** C40. A constructor's validation. Options apply in argument order and only the final values
    count: the configuration is returned when none of the documented checks fails, and otherwise
    the error wraps the sentinel of the first failing check, in the documented order: capacity,
    enqueue batch, dequeue batch, spin number, producer and consumer topology, spins on a
    serialized queue, then producer and consumer distance, where numeric errors come before
    applicability errors. *)
Theorem resolveConfig_spec constructor count pm cm options :
  let cfg := configured count pm cm options in
  is_int (maxProducerHeadTailDistance cfg) → is_int (maxConsumerHeadTailDistance cfg) →
  reports (resolveConfig constructor count pm cm true options)
    (first_fault (faults count pm cm cfg)) cfg.
Proof.
  intros cfg Hp Hc. unfold resolveConfig, faults, checkCapacity. fold (configured count pm cm options).
  fold cfg. cbn [app andb]. apply guard_reports.
  { intros Hf%bool_decide_eq_false. destruct (CheckCapacity count); [|done]. by destruct Hf. }
  { intros Hf%bool_decide_eq_true. destruct (CheckCapacity count) as [err|] eqn:He; [|done].
    exists err. split; [done|]. by apply errors_Is_wrap, (CheckCapacity_wraps count). }
  apply batch_reports; [intros; by apply errors_Is_wrap|].
  apply batch_reports; [intros; by apply errors_Is_wrap|].
  apply guard_reports; [unfold checkSpinsBeforeYield; by destruct (_ && _)| |].
  { unfold checkSpinsBeforeYield. destruct (_ && _); [done|]. by eexists. }
  apply topology_reports, topology_reports.
  apply guard_reports; [by intros -> | intros ->; by eexists|].
  apply (distance_reports _ _ _ _ _ _ pm _ _ (side_faults _ _ _ _)); [done|].
  rewrite <- (app_nil_r (side_faults cm _ _ _)). by apply distance_reports.
Qed.

Lemma resolveConfig_witness :
  resolveConfig "NewMPMCQueue" 16 modeMulti modeMulti true
    [WithMaxBatch 4; WithMaxEnqueueBatch 8; WithRelaxedMultiProdEnqueue] =
  inr (configured 16 modeMulti modeMulti
    [WithMaxBatch 4; WithMaxEnqueueBatch 8; WithRelaxedMultiProdEnqueue]) ∧
  ∃ err, resolveConfig "NewSPSCQueue" 16 modeSingle modeSingle true
    [WithSpinsBeforeYield 5; WithMaxBatch 17] = inl err ∧ errors_Is err ErrInvalidMaxBatch = true.
Proof.
  split.
  - apply (resolveConfig_spec "NewMPMCQueue" 16 modeMulti modeMulti
      [WithMaxBatch 4; WithMaxEnqueueBatch 8; WithRelaxedMultiProdEnqueue]);
      unfold is_int, minInt, maxInt; simpl; lia.
  - apply (resolveConfig_spec "NewSPSCQueue" 16 modeSingle modeSingle
      [WithSpinsBeforeYield 5; WithMaxBatch 17]);
      unfold is_int, minInt, maxInt; simpl; lia.
Defined.
End DpdkOptions.
