(* ===== verification/DpdkSPSC.v ===== *)
(** * The single-producer single-consumer queue (src/ring/dpdk/spsc.go)

    Each side keeps private fields, which only its own goroutine touches, and publishes one
    position. A method reads its side's private fields when it starts; every access to the other
    side's published position, to a slot, and every store is an action of its own, so that the
    two sides interleave at the accesses the hardware interleaves. *)

From Stdlib Require Import ZArith Lia FunctionalExtensionality.
From stdpp Require Import prelude list strings.
From S2P Require Import Prelude Prog RingCore RingSlots RingSpec DpdkOptions.

Module SPSC.
Import Prog Ring Slots RingSpec DpdkOptions.

Record spscProducer := MkProducer {
  p_mask : Z;
  p_cursor : Z;
  p_cachedConsumer : Z;
  p_maxBatch : Z;
  p_exactBatchCounts : bool;
  p_published : Z;
}.

Record spscConsumer := MkConsumer {
  c_mask : Z;
  c_cursor : Z;
  c_cachedProducer : Z;
  c_clearOnDequeue : bool;
  c_maxBatch : Z;
  c_exactBatchCounts : bool;
  c_published : Z;
}.

(** The two sides share the backing array of [entries]. *)
Record SPSCQueue (T : Type) := MkQueue {
  producer : spscProducer;
  consumer : spscConsumer;
  q_entries : list T;
}.
Arguments MkQueue {T} _ _ _.
Arguments producer {T} _.
Arguments consumer {T} _.
Arguments q_entries {T} _.

#[export] Instance spsc_slots T : Slots (SPSCQueue T) T := {|
  entries := q_entries;
  set_entries es r := MkQueue (producer r) (consumer r) es;
  entries_set _ _ := eq_refl;
  set_entries_set _ _ _ := eq_refl;
  set_entries_same r := match r with MkQueue _ _ _ => eq_refl end;
|}.

Section queue.
Context {T : Type} (zero : T).
Implicit Types r : SPSCQueue T.
Abbreviation M := (prog (SPSCQueue T)).

(** ** Field updates *)

Definition set_producer (p : spscProducer) r := MkQueue p (consumer r) (q_entries r).
Definition set_consumer (c : spscConsumer) r := MkQueue (producer r) c (q_entries r).

Definition set_p_cursor (x : Z) r :=
  let p := producer r in
  set_producer (MkProducer (p_mask p) x (p_cachedConsumer p) (p_maxBatch p)
    (p_exactBatchCounts p) (p_published p)) r.
Definition set_p_cached (x : Z) r :=
  let p := producer r in
  set_producer (MkProducer (p_mask p) (p_cursor p) x (p_maxBatch p)
    (p_exactBatchCounts p) (p_published p)) r.
Definition set_p_published (x : Z) r :=
  let p := producer r in
  set_producer (MkProducer (p_mask p) (p_cursor p) (p_cachedConsumer p) (p_maxBatch p)
    (p_exactBatchCounts p) x) r.

Definition set_c_cursor (x : Z) r :=
  let c := consumer r in
  set_consumer (MkConsumer (c_mask c) x (c_cachedProducer c) (c_clearOnDequeue c) (c_maxBatch c)
    (c_exactBatchCounts c) (c_published c)) r.
Definition set_c_cached (x : Z) r :=
  let c := consumer r in
  set_consumer (MkConsumer (c_mask c) (c_cursor c) x (c_clearOnDequeue c) (c_maxBatch c)
    (c_exactBatchCounts c) (c_published c)) r.
Definition set_c_published (x : Z) r :=
  let c := consumer r in
  set_consumer (MkConsumer (c_mask c) (c_cursor c) (c_cachedProducer c) (c_clearOnDequeue c)
    (c_maxBatch c) (c_exactBatchCounts c) x) r.

(** ** Construction and queries *)

Definition NewSPSCQueue (count : Z) (options : list Option) : error + SPSCQueue T :=
  match resolveConfig "NewSPSCQueue" count modeSingle modeSingle true options with
  | inl err => inl err
  | inr cfg =>
      inr (MkQueue
        (MkProducer (u32 (count -i 1)) 0 0 (u32 (maxEnqueueBatch cfg)) (exactBatchCounts cfg) 0)
        (MkConsumer (u32 (count -i 1)) 0 0 (negb (keepDequeued cfg)) (u32 (maxDequeueBatch cfg))
           (exactBatchCounts cfg) 0)
        (replicate (Z.to_nat count) zero))
  end.

Definition Capacity r : Z := p_mask (producer r) +32 1.
Definition MaxEnqueueBatch r : Z := p_maxBatch (producer r).
Definition MaxDequeueBatch r : Z := c_maxBatch (consumer r).

Definition Count : M Z :=
  consumer ← load (λ r, c_published (consumer r));
  producer_ ← load (λ r, p_published (producer r));
  capacity ← load Capacity;
  mret (Z.min (producer_ -32 consumer) capacity).

Definition Free : M Z :=
  capacity ← load Capacity;
  count ← Count;
  mret (capacity -i count).

Definition Full : M bool :=
  count ← Count;
  capacity ← load Capacity;
  mret (count =? capacity).

Definition Empty : M bool := count ← Count; mret (count =? 0).

Definition Reset : M unit :=
  _ ← clear_all zero;
  _ ← modify (set_p_cursor 0);
  _ ← modify (set_p_cached 0);
  _ ← modify (set_p_published 0);
  _ ← modify (set_c_cursor 0);
  _ ← modify (set_c_cached 0);
  modify (set_c_published 0).

(** ** Producer methods *)

(** [producer.cachedConsumer = r.consumer.published.Load()], with the value loaded. *)
Definition refreshConsumer : M Z :=
  act (λ r, let published := c_published (consumer r) in (set_p_cached published r, published)).

(** The free slots by the cached position, or by a fresh one when the caller's condition
    [refresh] asks for it. *)
Definition freeSlots (refresh : bool) (producer : spscProducer) : M Z :=
  let capacity := p_mask producer +32 1 in
  if refresh then
    cachedConsumer ← refreshConsumer;
    mret (capacity +32 cachedConsumer -32 p_cursor producer)
  else mret (capacity +32 p_cachedConsumer producer -32 p_cursor producer).

(** [producer.cursor = x] and [producer.published.Store(producer.cursor)]. *)
Definition publishCursor (x : Z) : M unit :=
  _ ← modify (set_p_cursor x); modify (set_p_published x).

(** The slot of the cursor is written, then the cursor moves and is published. *)
Definition storeOne (producer : spscProducer) (item : T) : M unit :=
  _ ← slot_set (Z.land (p_cursor producer) (p_mask producer)) item;
  publishCursor (p_cursor producer +32 1).

Definition Enqueue (item : T) : M (option error) :=
  producer ← load producer;
  let capacity := p_mask producer +32 1 in
  let free := capacity +32 p_cachedConsumer producer -32 p_cursor producer in
  free ← freeSlots ((free =? 0) || (capacity <? free)) producer;
  if (free =? 0) || (capacity <? free) then mret (Some ErrFull)
  else _ ← storeOne producer item; mret None.

(** [enqueueOne] is the branch for one item that [EnqueueBulk] and [EnqueueBurst] share:
    whether the item was stored, and the free slots to report. *)
Definition enqueueOne (producer : spscProducer) (item : T) : M (bool * Z) :=
  let capacity := p_mask producer +32 1 in
  let free := capacity +32 p_cachedConsumer producer -32 p_cursor producer in
  free ← freeSlots (p_exactBatchCounts producer || (free =? 0) || (capacity <? free)) producer;
  if capacity <? free then mret (false, capacity)
  else if free =? 0 then mret (false, 0)
  else _ ← storeOne producer item; mret (true, free -32 1).

Definition enqueueBatch (items : list T) (fixed : bool) : M (Z * Z) :=
  producer ← load producer;
  let capacity := p_mask producer +32 1 in
  let length := u32 (len items) in
  let free := capacity +32 p_cachedConsumer producer -32 p_cursor producer in
  free ← freeSlots (p_exactBatchCounts producer || (length =? 0) || (free <? length) ||
                    (capacity <? free)) producer;
  if capacity <? free then mret (0, capacity)
  else if fixed && (free <? length) then mret (0, free)
  else
    let length := Z.min length free in
    if length =? 0 then mret (0, free)
    else
      let base := Z.land (p_cursor producer) (p_mask producer) in
      let first := Z.min length (capacity -32 base) in
      _ ← copy_in base (sub items 0 first);
      _ ← copy_in 0 (sub items first length);
      _ ← publishCursor (p_cursor producer +32 length);
      mret (length, free -32 length).

Definition EnqueueBulk (items : list T) : M (Z * option error) :=
  producer ← load producer;
  if p_maxBatch producer <? len items then
    published ← load (λ r, c_published (consumer r));
    let fresh := p_mask producer +32 1 +32 published -32 p_cursor producer in
    mret (Z.min fresh (p_mask producer +32 1),
          Some (batchLengthError "enqueue" (len items) (p_maxBatch producer)
                  (p_mask producer +32 1)))
  else match items with
  | [item] =>
      '(stored, free) ← enqueueOne producer item;
      mret (free, if stored : bool then None else Some ErrFull)
  | _ =>
      '(moved, remaining) ← enqueueBatch items true;
      mret (remaining, if moved =? len items then None else Some ErrFull)
  end.

Definition EnqueueBurst (items : list T) : M (Z * Z) :=
  producer ← load producer;
  let length := Z.min (len items) (p_maxBatch producer) in
  match sub items 0 length with
  | [item] =>
      '(stored, free) ← enqueueOne producer item;
      mret (if stored : bool then 1 else 0, free)
  | items => enqueueBatch items false
  end.

(** ** Consumer methods *)

(** [consumer.cachedProducer = r.producer.published.Load()], with the value loaded. *)
Definition refreshProducer : M Z :=
  act (λ r, let published := p_published (producer r) in (set_c_cached published r, published)).

(** The published entries by the cached position, or by a fresh one. *)
Definition availableEntries (refresh : bool) (consumer : spscConsumer) : M Z :=
  if refresh then
    cachedProducer ← refreshProducer;
    mret (cachedProducer -32 c_cursor consumer)
  else mret (c_cachedProducer consumer -32 c_cursor consumer).

(** [consumer.cursor = x] and [consumer.published.Store(consumer.cursor)]. *)
Definition releaseCursor (x : Z) : M unit :=
  _ ← modify (set_c_cursor x); modify (set_c_published x).

(** The slot of the cursor is read and, when configured, cleared, then released. *)
Definition takeOne (consumer : spscConsumer) : M T :=
  let index := Z.land (c_cursor consumer) (c_mask consumer) in
  value ← slot_get index;
  _ ← (if c_clearOnDequeue consumer then slot_set index zero else mret tt);
  _ ← releaseCursor (c_cursor consumer +32 1);
  mret value.

Definition Dequeue : M (T * option error) :=
  consumer ← load consumer;
  let capacity := c_mask consumer +32 1 in
  let available := c_cachedProducer consumer -32 c_cursor consumer in
  available ← availableEntries ((available =? 0) || (capacity <? available)) consumer;
  if (available =? 0) || (capacity <? available) then mret (zero, Some ErrEmpty)
  else value ← takeOne consumer; mret (value, None).

(** [dequeueOne] is the branch for one value that [DequeueBulk] and [DequeueBurst] share. *)
Definition dequeueOne (consumer : spscConsumer) : M (option T * Z) :=
  let capacity := c_mask consumer +32 1 in
  let available := c_cachedProducer consumer -32 c_cursor consumer in
  available ← availableEntries
    (c_exactBatchCounts consumer || (available =? 0) || (capacity <? available)) consumer;
  if capacity <? available then mret (None, capacity)
  else if available =? 0 then mret (None, 0)
  else value ← takeOne consumer; mret (Some value, available -32 1).

(** The caller's slice is returned as the last component, with the values read in its prefix. *)
Definition dequeueBatch (dst : list T) (fixed : bool) : M (Z * Z * list T) :=
  consumer ← load consumer;
  let capacity := c_mask consumer +32 1 in
  let length := u32 (len dst) in
  let available := c_cachedProducer consumer -32 c_cursor consumer in
  available ← availableEntries
    (c_exactBatchCounts consumer || (length =? 0) || (available <? length) ||
     (capacity <? available)) consumer;
  if capacity <? available then mret (0, capacity, dst)
  else if fixed && (available <? length) then mret (0, available, dst)
  else
    let length := Z.min length available in
    if length =? 0 then mret (0, available, dst)
    else
      let base := Z.land (c_cursor consumer) (c_mask consumer) in
      let first := Z.min length (capacity -32 base) in
      values ← copy_out_both base first (length -32 first);
      let dst := copy_at 0 values dst in
      _ ← (if c_clearOnDequeue consumer
           then _ ← clear_slots zero base first; clear_slots zero 0 (length -32 first)
           else mret tt);
      _ ← releaseCursor (c_cursor consumer +32 length);
      mret (length, available -32 length, dst).

Definition DequeueBulk (dst : list T) : M (Z * option error * list T) :=
  consumer ← load consumer;
  if c_maxBatch consumer <? len dst then
    published ← load (λ r, p_published (producer r));
    let fresh := published -32 c_cursor consumer in
    mret (Z.min fresh (c_mask consumer +32 1),
          Some (batchLengthError "dequeue" (len dst) (c_maxBatch consumer)
                  (c_mask consumer +32 1)), dst)
  else match dst with
  | [_] =>
      '(value, available) ← dequeueOne consumer;
      mret (match value with
            | Some value => (available, None, [value])
            | None => (available, Some ErrEmpty, dst)
            end)
  | _ =>
      '(moved, remaining, dst') ← dequeueBatch dst true;
      mret (remaining, if moved =? len dst then None else Some ErrEmpty, dst')
  end.

Definition DequeueBurst (dst : list T) : M (Z * Z * list T) :=
  consumer ← load consumer;
  let length := Z.min (len dst) (c_maxBatch consumer) in
  let rest := sub dst length (len dst) in
  match sub dst 0 length with
  | [_] =>
      '(value, available) ← dequeueOne consumer;
      mret (match value with
            | Some value => (1, available, value :: rest)
            | None => (0, available, dst)
            end)
  | front =>
      '(moved, remaining, front') ← dequeueBatch front false;
      mret (moved, remaining, front' ++ rest)
  end.

(** ** The protocol

    Ghost state: every value ever published, the values written but not yet published, how many
    positions have been released, and how many have been given up by the consumer, which runs
    ahead of the release while slots are cleared. *)
Record ghost := Ghost {
  hist : list T;
  pending : list T;
  taken : Z;
  wiped : Z;
}.

Section protocol.
Context (cap : Z) (Hcap : pow2_cap cap).

Lemma spsc_cap_range : 1 <= cap <= 2 ^ 30.
Proof. by apply pow2_cap_range. Qed.

Record inv r (g : ghost) : Prop := {
  inv_len : len (q_entries r) = cap;
  inv_p_mask : p_mask (producer r) = cap - 1;
  inv_c_mask : c_mask (consumer r) = cap - 1;
  inv_published : p_published (producer r) = u32 (len (hist g));
  inv_released : c_published (consumer r) = u32 (taken g);
  inv_bounds : 0 <= taken g <= wiped g ∧ wiped g <= len (hist g);
  inv_room : len (hist g) + len (pending g) <= taken g + cap;
  inv_holds : holds (q_entries r) (wiped g) (drop (Z.to_nat (wiped g)) (hist g) ++ pending g);
  inv_clear : c_clearOnDequeue (consumer r) = true →
    ∀ q, len (hist g) + len (pending g) <= q < wiped g + cap →
      slot (q_entries r) q = Some zero;
}.

(** What the producer may see change, and what it changes; and the other way round. *)
Definition rely_P (x y : SPSCQueue T * ghost) : Prop :=
  producer x.1 = producer y.1 ∧ hist x.2 = hist y.2 ∧ pending x.2 = pending y.2 ∧
  taken x.2 <= taken y.2.

Definition rely_C (x y : SPSCQueue T * ghost) : Prop :=
  consumer x.1 = consumer y.1 ∧ taken x.2 = taken y.2 ∧ wiped x.2 = wiped y.2 ∧
  hist x.2 `prefix_of` hist y.2.

#[export] Instance rely_P_preorder : PreOrder rely_P.
Proof.
  split; [by intros x; unfold rely_P; split_and!|].
  intros x y z (? & ? & ? & ?) (? & ? & ? & ?). split_and!; [congruence..|lia].
Qed.

#[export] Instance rely_C_preorder : PreOrder rely_C.
Proof.
  split; [by intros x; unfold rely_C; split_and!|].
  intros x y z (? & ? & ? & ?) (? & ? & ? & ?). split_and!; [congruence..|by trans (hist y.2)].
Qed.

(** *** The producer *)

(** The producer's private fields are [p], it has published [h] and written [pend], and at least
    [t] positions have been released. *)
Definition at_P (p : spscProducer) (h pend : list T) (t : Z) (x : SPSCQueue T * ghost) : Prop :=
  producer x.1 = p ∧ hist x.2 = h ∧ pending x.2 = pend ∧ t <= taken x.2.

Lemma at_P_rely p h pend t x y : at_P p h pend t x → rely_P x y → at_P p h pend t y.
Proof. intros (? & ? & ? & ?) (? & ? & ? & ?). split_and!; [congruence..|lia]. Qed.

Abbreviation safe_P := (safe inv (quiet := never) rely_P rely_C).

Lemma safe_refreshConsumer p h pend t n x :
  at_P p h pend t x →
  safe_P (λ c y, ∃ t', t <= t' ∧ c = u32 t' ∧ t' <= len h <= t' + cap ∧
      at_P (MkProducer (p_mask p) (p_cursor p) c (p_maxBatch p) (p_exactBatchCounts p)
              (p_published p)) h pend t' y) n refreshConsumer x.
Proof.
  intros Hat. apply (safe_access_last _ _ _ _ _ (λ r,
    Some (set_p_cached (c_published (consumer r)) r, c_published (consumer r)))).
  intros r g Hr Hi. destruct (at_P_rely _ _ _ _ _ _ Hat Hr) as (Hp & Hh & Hpe & Ht). simpl in *.
  exists (set_p_cached (c_published (consumer r)) r), (c_published (consumer r)), g.
  pose proof (inv_bounds _ _ Hi). pose proof (inv_room _ _ Hi). pose proof (len_nonneg (pending g)).
  split_and!; [done..|by destruct Hi; constructor|]. intros y Hy Hiy. exists (taken g).
  split_and!; [done|apply Hi|rewrite <- Hh; lia..|].
  eapply at_P_rely; [|exact Hy]. split_and!; [|done..]. simpl. by rewrite Hp.
Qed.

(** Writing the next free slot. *)
Lemma inv_write r g x :
  inv r g → len (hist g) + len (pending g) < taken g + cap →
  inv (set_entries (put (q_entries r) (len (hist g) + len (pending g)) x) r)
      (Ghost (hist g) (pending g ++ [x]) (taken g) (wiped g)).
Proof.
  intros [Hl Hpm Hcm Hpub Hrel Hb Hroom Hh Hz] Hlt. pose proof spsc_cap_range.
  pose proof (len_nonneg (pending g)) as Hpn.
  assert (len (drop (Z.to_nat (wiped g)) (hist g)) = len (hist g) - wiped g) as Hd
    by (apply len_drop; lia).
  assert (len (drop (Z.to_nat (wiped g)) (hist g) ++ pending g) =
    len (hist g) + len (pending g) - wiped g) as Hda by (rewrite len_app; lia).
  constructor; simpl; [by rewrite len_put|done..| | |].
  - rewrite len_app. change (len [x]) with 1. lia.
  - rewrite app_assoc. replace (len (hist g) + len (pending g)) with
      (wiped g + len (drop (Z.to_nat (wiped g)) (hist g) ++ pending g)) by lia.
    apply holds_snoc; [lia|done].
  - rewrite len_app. change (len [x]) with 1. intros Hc q Hq. rewrite slot_put_ne by lia.
    apply Hz; [done|lia].
Qed.

Lemma safe_slot_set_P p h pend t i x n y :
  at_P p h pend t y → len h + len pend < t + cap → i = (len h + len pend) mod cap →
  safe_P (λ _, at_P p h (pend ++ [x]) t) n (slot_set i x) y.
Proof.
  intros Hat Hlt ->. apply safe_access_last. intros r g Hr Hi.
  destruct (at_P_rely _ _ _ _ _ _ Hat Hr) as (Hp & Hh & Hpe & Ht). simpl in *.
  destruct (slot_set_access cap (len h + len pend) x r) as [Hin Hput];
    [pose proof spsc_cap_range; lia|apply Hi|]. simpl in Hin, Hput. rewrite Hin, Hput.
  subst h pend. eexists _, tt, (Ghost (hist g) (pending g ++ [x]) (taken g) (wiped g)).
  split_and!; [done|by split_and!|apply (inv_write r g x Hi); lia|].
  intros z Hz _. eapply at_P_rely; [|exact Hz]. by split_and!.
Qed.

Lemma safe_write_P p h t items n y :
  at_P p h [] t y → len h + len items <= t + cap →
  safe_P (λ _, at_P p h items t) n (write_at cap (len h) items) y.
Proof.
  intros Hat Hfit. unfold write_at. eapply safe_post.
  - apply (safe_for_each _ _ _ _ _ (λ done, at_P p h done.*2 t)).
    + intros l x z Hx Hr. by eapply at_P_rely.
    + done.
    + intros done [i x] rest z m Hz Hdone. apply zip_prefix in Hz as (-> & Hlt & _ & _).
      rewrite fmap_app. apply safe_slot_set_P; [done|lia|done].
  - intros [] z Hz. cbn beta in Hz. rewrite snd_zip in Hz; [done|].
    rewrite length_fmap, length_seqZ. unfold len. lia.
Qed.

(** The cursor moves, which only the producer sees, and the position is published. *)
Definition published_at (p : spscProducer) (x : Z) : spscProducer :=
  MkProducer (p_mask p) x (p_cachedConsumer p) (p_maxBatch p) (p_exactBatchCounts p) x.

Lemma safe_publish_P p h pend t x n y :
  at_P p h pend t y → x = u32 (len h + len pend) →
  safe_P (λ _, at_P (published_at p x) (h ++ pend) [] t) n (publishCursor x) y.
Proof.
  intros Hat ->. apply safe_modify. intros r g Hr Hi.
  destruct (at_P_rely _ _ _ _ _ _ Hat Hr) as (Hp & Hh & Hpe & Ht). simpl in *.
  exists g. split_and!; [done..|by destruct Hi; constructor|].
  apply safe_modify_last. intros r1 g1 Hr1 Hi1. destruct Hr1 as (Hp1 & Hh1 & Hpe1 & Ht1).
  simpl in *. exists (Ghost (h ++ pend) [] (taken g1) (wiped g1)). split_and!; simpl.
  - by split_and!; simpl; [..|rewrite <- Hh1, Hh; apply prefix_app_r].
  - destruct Hi1 as [Hl Hpm Hcm Hpub Hrel Hb Hroom Hho Hz].
    rewrite <- Hh1, <- Hpe1, Hh, Hpe in *.
    pose proof (len_nonneg pend). constructor; simpl; rewrite ?len_app; try done; try lia.
    + change (len []) with 0. lia.
    + rewrite app_nil_r, drop_app_le; [done|]. unfold len in *. lia.
    + change (len []) with 0. rewrite Z.add_0_r. done.
  - intros z Hz _. eapply at_P_rely; [|exact Hz]. split_and!; simpl; [|done..|lia].
    by rewrite <- Hp1; simpl; rewrite Hp.
Qed.

(** Between calls the cursor is the published position, and the cached position is one the
    consumer has released. *)
Definition idle_P (p : spscProducer) (h : list T) (t : Z) : Prop :=
  p_mask p = cap - 1 ∧ p_cursor p = u32 (len h) ∧ 1 <= p_maxBatch p <= cap ∧
  ∃ cc, p_cachedConsumer p = u32 cc ∧ cc <= t ∧ cc <= len h <= cc + cap.

(** A call leaves the configuration alone. *)
Definition same_P (p p' : spscProducer) : Prop :=
  p_maxBatch p' = p_maxBatch p ∧ p_exactBatchCounts p' = p_exactBatchCounts p.

Lemma spsc_capacity_eq p h t : idle_P p h t → p_mask p +32 1 = cap.
Proof. intros (-> & _). pose proof spsc_cap_range. rewrite Z.sub_add. by pos_simpl. Qed.

Lemma free_eq cc x : cc <= x <= cc + cap → cap +32 u32 cc -32 u32 x = cc + cap - x.
Proof.
  intros Hx. pose proof spsc_cap_range. rewrite u32_add_r, u32_sub_l, u32_sub_r.
  rewrite u32_small by (unfold is_u32; lia). lia.
Qed.

Lemma safe_freeSlots (refresh : bool) p h t n y :
  idle_P p h t → at_P p h [] t y →
  safe_P (λ free y, ∃ p' t' cc, free = cc + cap - len h ∧ cc <= len h <= cc + cap ∧
      p_mask p' = p_mask p ∧ p_cursor p' = p_cursor p ∧ same_P p p' ∧
      p_cachedConsumer p' = u32 cc ∧ cc <= t' ∧ t <= t' ∧
      (if refresh then t <= cc else cap +32 p_cachedConsumer p -32 p_cursor p = free) ∧ at_P p' h [] t' y)
    n (freeSlots refresh p) y.
Proof.
  intros Hidle Hat. pose proof (spsc_capacity_eq _ _ _ Hidle) as Hce.
  destruct Hidle as (Hm & Hcur & Hmb & cc & Hcc & Hct & Hch). unfold freeSlots. rewrite Hce.
  destruct refresh.
  - safe_seq by (by apply safe_refreshConsumer).
    intros c z m _ (t' & Ht' & -> & Hb & Hz). apply safe_ret. intros r g Hr _.
    eexists _, t', t'. rewrite Hcur, free_eq by lia.
    split_and!; [..|by eapply at_P_rely]; done || lia.
  - apply safe_ret. intros r g Hr _. eexists p, t, cc. rewrite Hcur, Hcc, free_eq by lia.
    split_and!; [..|by eapply at_P_rely]; done || lia.
Qed.

(** The result of a producer call that was offered [items]: [n] of them were published, in order,
    and [free] slots were reported. The report never exceeds the free slots, and counts every
    slot released before the call when the call is [exact], comes up short or is empty. *)
Definition enqueued (exact : bool) (p : spscProducer) (h : list T) (t : Z) (items : list T)
    (n free : Z) (y : SPSCQueue T * ghost) : Prop :=
  0 <= n <= len items ∧
  let h' := h ++ take (Z.to_nat n) items in
  ∃ p' t', same_P p p' ∧ idle_P p' h' t' ∧ at_P p' h' [] t' y ∧ t <= t' ∧
    0 <= free <= t' + cap - len h' ∧
    (exact = true ∨ n < len items ∨ items = [] → t + cap - len h' <= free).

Lemma enqueued_rely exact p h t items n free x y :
  enqueued exact p h t items n free x → rely_P x y → enqueued exact p h t items n free y.
Proof.
  intros (Hn & p' & t' & Hs & Hi & Hat & Hrest) Hr. split; [done|].
  exists p', t'. split_and!; [done|done|by eapply at_P_rely|apply Hrest..].
Qed.

Lemma safe_storeOne p h t cc item n y :
  idle_P p h t → p_cachedConsumer p = u32 cc → cc <= t → cc <= len h < cc + cap → at_P p h [] t y →
  safe_P (λ _, at_P (published_at p (u32 (len h + 1))) (h ++ [item]) [] t) n (storeOne p item) y.
Proof.
  intros Hidle Hcc Hct Hroom Hat. destruct Hidle as (Hm & Hcur & _). unfold storeOne.
  rewrite Hm, Hcur, mask_index, u32_add_l by done.
  safe_seq by (apply (safe_slot_set_P p h [] t); [done|..]; change (len []) with 0;
    [lia|by rewrite Z.add_0_r]).
  intros u z m _ Hz. apply (safe_publish_P p h [item] t); done.
Qed.

Lemma published_idle p p' h t cc k items :
  idle_P p h t → p_mask p' = p_mask p → same_P p p' → p_cachedConsumer p' = u32 cc →
  cc <= t → cc <= len h → len h + len items <= cc + cap → k = u32 (len h + len items) →
  idle_P (published_at p' k) (h ++ items) t.
Proof.
  intros (Hm & _ & Hmb & _) Hm' (Hmb' & _) Hcc Hct Hlo Hhi ->. pose proof (len_nonneg items).
  unfold idle_P. rewrite len_app. split_and!; simpl; [congruence|done|lia..|].
  exists cc. split_and!; [done|lia..].
Qed.

Lemma idle_admitted p p' h t t' cc :
  idle_P p h t → p_mask p' = p_mask p → p_cursor p' = p_cursor p → same_P p p' →
  p_cachedConsumer p' = u32 cc → cc <= t' → cc <= len h <= cc + cap → idle_P p' h t'.
Proof.
  intros (Hm & Hcur & Hmb & _) Hm' Hcur' [Hs _] Hcc Hct Hch.
  split_and!; [congruence..|lia|lia|]. by exists cc.
Qed.

Lemma idle_P_mono p h t t' : idle_P p h t → t <= t' → idle_P p h t'.
Proof.
  intros (Hm & Hcur & Hmb & cc & Hcc & Hct & Hch) Ht. split_and!; [done|done|lia|lia|].
  exists cc. split_and!; [done|lia..].
Qed.

(** Nothing published: the call reports and leaves. *)
Lemma enqueued_0 exact p p' h t t' items free y :
  same_P p p' → idle_P p' h t' → at_P p' h [] t' y → t <= t' →
  0 <= free <= t' + cap - len h →
  (exact = true ∨ 0 < len items ∨ items = [] → t + cap - len h <= free) →
  enqueued exact p h t items 0 free y.
Proof.
  intros Hs Hidle Hat Ht Hfree Hfresh. split; [pose proof (len_nonneg items); lia|].
  simpl. rewrite app_nil_r. by exists p', t'.
Qed.

Lemma enqueued_none exact p p' h t t' cc items free y :
  idle_P p h t → p_mask p' = p_mask p → p_cursor p' = p_cursor p → same_P p p' →
  p_cachedConsumer p' = u32 cc → cc <= t' → t <= t' → cc <= len h <= cc + cap →
  at_P p' h [] t' y → free = cc + cap - len h →
  (exact = true ∨ 0 < len items ∨ items = [] → t <= cc) →
  enqueued exact p h t items 0 free y.
Proof.
  intros Hidle Hm' Hcur' Hs Hcc Hct Htt Hb Hat -> Hfresh.
  apply (enqueued_0 _ _ p' _ _ t'); [done|by eapply (idle_admitted p p' h t t' cc)|done..|lia|].
  intros Hex. specialize (Hfresh Hex). lia.
Qed.

Lemma enqueued_some exact p p' h t t' cc items k free y :
  idle_P p h t → p_mask p' = p_mask p → same_P p p' → p_cachedConsumer p' = u32 cc →
  cc <= t' → t <= t' → cc <= len h → 0 <= k <= len items → len h + k <= cc + cap →
  at_P (published_at p' (u32 (len h + k))) (h ++ take (Z.to_nat k) items) [] t' y →
  free = cc + cap - (len h + k) →
  (exact = true ∨ k < len items ∨ items = [] → t <= cc) →
  enqueued exact p h t items k free y.
Proof.
  intros Hidle Hm' Hs Hcc Hct Htt Hlo Hk Hhi Hat -> Hfresh. split; [done|].
  pose proof (idle_P_mono _ _ _ _ Hidle Htt) as Hidle'.
  exists (published_at p' (u32 (len h + k))), t'. rewrite len_app, len_take by lia.
  split_and!; [exact Hs| |exact Hat|lia|lia|lia|].
  - apply (published_idle p p' h t' cc); rewrite ?len_take by lia; done || lia.
  - intros Hex. specialize (Hfresh Hex). lia.
Qed.

(** What a finished admission step leaves behind. *)
Ltac admitted H := destruct H as (p' & t' & cc & -> & Hch & Hm' & Hcur' & Hs' & Hcc' & Hct' & Htt & Hfr & Hz).

(** [storeOne] reads only the fields an admission step does not change. *)
Lemma storeOne_same p p' item :
  p_mask p' = p_mask p → p_cursor p' = p_cursor p → storeOne p item = storeOne p' item.
Proof. intros Hm Hc. unfold storeOne. by rewrite Hm, Hc. Qed.

Lemma safe_stored exact p p' h t t' cc item {A} (f : unit → A) (post : A → SPSCQueue T * ghost → Prop) n y :
  idle_P p h t → p_mask p' = p_mask p → p_cursor p' = p_cursor p → same_P p p' →
  p_cachedConsumer p' = u32 cc → cc <= t' → t <= t' → cc <= len h < cc + cap → at_P p' h [] t' y →
  (exact = true → t <= cc) →
  (∀ z, enqueued exact p h t [item] 1 (cc + cap - (len h + 1)) z → post (f tt) z) →
  safe_P post n (_ ← storeOne p item; mret (f tt)) y.
Proof.
  intros Hidle Hm' Hcur' Hs Hcc Hct Htt Hch Hat Hfr Hpost. rewrite (storeOne_same p p') by done.
  assert (idle_P p' h t') as Hidle' by (apply (idle_admitted p p' h t t' cc); done || lia).
  safe_seq by (by apply (safe_storeOne p' h t' cc)).
  intros u z m _ Hz. apply safe_ret. intros r g Hr _. apply Hpost.
  apply (enqueued_some exact p p' h t t' cc [item]); change (len [item]) with 1; try done; try lia.
  - eapply at_P_rely; [exact Hz|exact Hr].
  - intros [?|[?|?]]; [auto|lia|done].
Qed.

Lemma safe_Enqueue p h t item n y :
  idle_P p h t → at_P p h [] t y →
  safe_P (λ err y, match err with
    | None => ∃ free, enqueued false p h t [item] 1 free y
    | Some e => e = ErrFull ∧ t + cap <= len h ∧ ∃ free, enqueued false p h t [item] 0 free y
    end) n (Enqueue item) y.
Proof.
  intros Hidle Hat. unfold Enqueue. apply safe_load; [apply _|]. intros r g Hr Hi.
  pose proof (at_P_rely _ _ _ _ _ _ Hat Hr) as Hat'. destruct Hat' as (Hp & _). simpl in Hp.
  rewrite Hp. pose proof (spsc_capacity_eq _ _ _ Hidle) as Hce. rewrite Hce.
  safe_seq by (apply (safe_freeSlots _ p h t); [done|by eapply at_P_rely]).
  intros free z m _ Hadm. admitted Hadm.
  set (refresh := (_ || _)) in Hfr.
  destruct ((cc + cap - len h =? 0) || (cap <? cc + cap - len h)) eqn:Hfull.
  - assert (t <= cc) as Htc.
    { destruct refresh eqn:Href; [done|]. unfold refresh in Href. rewrite Hfr in Href. congruence. }
    apply orb_true_iff in Hfull. rewrite Z.eqb_eq, Z.ltb_lt in Hfull.
    apply safe_ret. intros r1 g1 Hr1 _. split_and!; [done|lia|]. eexists.
    eapply (enqueued_none false p p' h t t' cc); try done. by eapply at_P_rely.
  - apply orb_false_iff in Hfull. rewrite Z.eqb_neq, Z.ltb_ge in Hfull.
    apply (safe_stored false p p' h t t' cc _ (λ _, None)); try done; [lia|]. eauto.
Qed.

Lemma safe_enqueueOne p h t item n y :
  idle_P p h t → at_P p h [] t y →
  safe_P (λ '(stored, free) y,
      enqueued (p_exactBatchCounts p) p h t [item] (if stored : bool then 1 else 0) free y ∧
      (stored = false → t + cap <= len h)) n (enqueueOne p item) y.
Proof.
  intros Hidle Hat. unfold enqueueOne. pose proof (spsc_capacity_eq _ _ _ Hidle) as Hce. rewrite Hce.
  safe_seq by (apply (safe_freeSlots _ p h t); done).
  intros free z m _ Hadm. admitted Hadm. set (refresh := (_ || _)) in Hfr.
  destruct (Z.ltb_spec cap (cc + cap - len h)); [lia|].
  assert (p_exactBatchCounts p = true → t <= cc) as Hex.
  { intros He. unfold refresh in Hfr. by rewrite He in Hfr. }
  destruct (Z.eqb_spec (cc + cap - len h) 0) as [H0|H0].
  - assert (t <= cc) as Htc.
    { destruct refresh eqn:Href; [done|]. unfold refresh in Href. rewrite Hfr, H0 in Href.
      by destruct (p_exactBatchCounts p). }
    apply safe_ret. intros r1 g1 Hr1 _. split; [|lia].
    eapply (enqueued_none _ p p' h t t' cc); try done; by eapply at_P_rely.
  - apply (safe_stored (p_exactBatchCounts p) p p' h t t' cc _ (λ _, (true, _))); try done; [lia|].
    intros z' Hz'. split; [|done]. pose proof spsc_cap_range. pos_simpl.
    by replace (cc + cap - len h - 1) with (cc + cap - (len h + 1)) by lia.
Qed.

Lemma safe_enqueueBatch p h t items fixed n y :
  idle_P p h t → at_P p h [] t y → len items <= cap →
  safe_P (λ '(moved, free) y,
      enqueued (p_exactBatchCounts p) p h t items moved free y ∧
      (moved < len items →
         if fixed : bool then moved = 0 ∧ t + cap - len h < len items
         else t + cap <= len h + moved)) n (enqueueBatch items fixed) y.
Proof.
  intros Hidle Hat Hlen. pose proof spsc_cap_range. pose proof (len_nonneg items).
  unfold enqueueBatch. apply safe_load; [apply _|]. intros r g Hr Hi.
  pose proof (at_P_rely _ _ _ _ _ _ Hat Hr) as Hat'. destruct Hat' as (Hp & _). simpl in Hp.
  rewrite Hp. pose proof (spsc_capacity_eq _ _ _ Hidle) as Hce. rewrite Hce.
  rewrite (u32_small (len items)) by (unfold is_u32; lia).
  safe_seq by (apply (safe_freeSlots _ p h t); [done|by eapply at_P_rely]).
  intros free z m _ Hadm. admitted Hadm. set (refresh := (_ || _)) in Hfr.
  destruct (Z.ltb_spec cap (cc + cap - len h)); [lia|].
  assert (p_exactBatchCounts p = true ∨ items = [] ∨ cc + cap - len h < len items → t <= cc) as Hex.
  { intros He. destruct refresh eqn:Href; [done|]. unfold refresh in Href. rewrite Hfr in Href.
    apply orb_false_iff in Href as [Href _]. apply orb_false_iff in Href as [Href Hfl].
    apply orb_false_iff in Href as [Hef Hle]. apply Z.ltb_ge in Hfl. apply Z.eqb_neq in Hle.
    destruct He as [He|[->|He]]; [congruence|by destruct Hle|lia]. }
  destruct (fixed && (cc + cap - len h <? len items)) eqn:Hfix.
  { apply andb_true_iff in Hfix as [-> Hlt]. apply Z.ltb_lt in Hlt.
    apply safe_ret. intros r1 g1 Hr1 _. split; [|intros _; split; [done|specialize (Hex ltac:(auto)); lia]].
    eapply (enqueued_none _ p p' h t t' cc); try done; [by eapply at_P_rely|intros _; auto]. }
  destruct (Z.eqb_spec (Z.min (len items) (cc + cap - len h)) 0) as [Hm0|Hm0].
  { assert (t <= cc) as Htc.
    { apply Hex. destruct items as [|x items']; [auto|]. right; right. unfold len in *. simpl in *. lia. }
    apply safe_ret. intros r1 g1 Hr1 _. split.
    - eapply (enqueued_none _ p p' h t t' cc); try done; by eapply at_P_rely.
    - intros Hlt. destruct fixed; [|lia]. simpl in Hfix. apply Z.ltb_ge in Hfix. lia. }
  set (k := Z.min (len items) (cc + cap - len h)) in *.
  pose proof Hidle as (Hm & Hcur & _). rewrite Hm, Hcur, mask_index by done.
  pose proof (mod_range cap (len h)). rewrite !(u32_small (cap - _)) by (unfold is_u32; lia).
  rewrite copy_in_sub_split by lia.
  safe_seq by (apply (safe_write_P p' h t'); [done|]; rewrite len_take; lia).
  intros u z1 m1 _ Hz1. rewrite u32_add_l.
  safe_seq by (apply (safe_publish_P p' h (take (Z.to_nat k) items) t'); [done|];
    rewrite len_take; [done|lia]).
  intros u2 z2 m2 _ Hz2. apply safe_ret. intros r2 g2 Hr2 _. split.
  - apply (enqueued_some _ p p' h t t' cc); try done; try lia.
    + eapply at_P_rely; [exact Hz2|exact Hr2].
    + pos_simpl. lia.
    + intros [?|[?|?]]; apply Hex; [auto|right; right; lia|auto].
  - intros Hlt. destruct fixed; simpl in Hfix.
    + apply Z.ltb_ge in Hfix. lia.
    + specialize (Hex ltac:(right; right; lia)). lia.
Qed.

(** [EnqueueBulk] publishes all items or none, and fails only when they did not fit when it
    began. *)
Definition bulk_enqueued p h t items free (err : option error) y : Prop :=
  match err with
  | None => len items <= p_maxBatch p ∧
      enqueued (p_exactBatchCounts p) p h t items (len items) free y
  | Some e =>
      enqueued (p_exactBatchCounts p) p h t items 0 free y ∧
      if p_maxBatch p <? len items
      then e = batchLengthError "enqueue" (len items) (p_maxBatch p) cap
      else e = ErrFull ∧ t + cap - len h < len items
  end.

Lemma safe_bulk_batch p h t items n y :
  idle_P p h t → at_P p h [] t y → len items <= p_maxBatch p →
  safe_P (λ '(free, err) y, bulk_enqueued p h t items free err y) n
    ('(moved, remaining) ← enqueueBatch items true;
     mret (remaining, if moved =? len items then None else Some ErrFull)) y.
Proof.
  intros Hidle Hat Hshort. pose proof Hidle as (_ & _ & Hmb & _).
  safe_seq by (apply (safe_enqueueBatch p h t); [done|done|lia]).
  intros [moved free] z m _ [He Hf]. apply safe_ret. intros r1 g1 Hr1 _.
  apply (enqueued_rely _ _ _ _ _ _ _ _ _ He) in Hr1.
  unfold bulk_enqueued. rewrite (proj2 (Z.ltb_ge _ _) Hshort).
  destruct (Z.eqb_spec moved (len items)) as [->|Hne]; [done|].
  destruct Hf as [-> Hf]; [destruct Hr1; lia|done].
Qed.

Lemma safe_EnqueueBulk p h t items n y :
  idle_P p h t → at_P p h [] t y →
  safe_P (λ '(free, err) y, bulk_enqueued p h t items free err y) n (EnqueueBulk items) y.
Proof.
  intros Hidle Hat. pose proof spsc_cap_range. pose proof Hidle as (Hm & Hcur & Hmb & _).
  unfold EnqueueBulk. apply safe_load; [apply _|]. intros r g Hr Hi.
  pose proof (at_P_rely _ _ _ _ _ _ Hat Hr) as Hat'. pose proof Hat' as (Hp & _).
  simpl in Hp. rewrite Hp, (spsc_capacity_eq _ _ _ Hidle).
  destruct (Z.ltb_spec (p_maxBatch p) (len items)) as [Hlong|Hshort].
  - apply safe_load; [apply _|]. intros r1 g1 Hr1 Hi1. apply safe_ret. intros r2 g2 Hr2 Hi2.
    pose proof (at_P_rely _ _ _ _ _ _ Hat' Hr1) as Hat1. pose proof Hat1 as (Hp1 & Hh1 & Hpe1 & Ht1).
    pose proof (at_P_rely _ _ _ _ _ _ Hat1 Hr2) as Hat2. simpl in *.
    destruct Hr2 as (_ & _ & _ & Ht2). simpl in Ht2.
    pose proof (inv_bounds _ _ Hi1) as Hb. pose proof (inv_room _ _ Hi1) as Hroom.
    rewrite Hh1, Hpe1 in *. change (len []) with 0 in Hroom.
    rewrite (inv_released _ _ Hi1), Hcur, free_eq by lia.
    unfold bulk_enqueued. rewrite (proj2 (Z.ltb_lt _ _) Hlong). split; [|done].
    apply (enqueued_0 _ _ p _ _ (taken g2)); [done|apply (idle_P_mono p h t); [done|lia]| |lia|lia|lia].
    destruct Hat2 as (? & ? & ? & ?). by split_and!.
  - destruct items as [|x [|x' items']].
    2: { safe_seq by (by apply (safe_enqueueOne p h t x)).
         intros [stored free] z m _ [He Hf]. apply safe_ret. intros r1 g1 Hr1 _.
         unfold bulk_enqueued. destruct stored; [by split; [|eapply enqueued_rely]|].
         rewrite (proj2 (Z.ltb_ge _ _) Hshort). split_and!; [by eapply enqueued_rely|done|].
         specialize (Hf eq_refl). change (len [x]) with 1. lia. }
    all: by apply safe_bulk_batch.
Qed.

Lemma safe_EnqueueBurst p h t items n y :
  idle_P p h t → at_P p h [] t y →
  let offered := take (Z.to_nat (p_maxBatch p)) items in
  safe_P (λ '(moved, free) y,
      enqueued (p_exactBatchCounts p) p h t offered moved free y ∧
      (moved < len offered → t + cap <= len h + moved)) n (EnqueueBurst items) y.
Proof.
  intros Hidle Hat offered. pose proof Hidle as (Hm & Hcur & Hmb & _).
  unfold EnqueueBurst. apply safe_load; [apply _|]. intros r g Hr Hi.
  pose proof (at_P_rely _ _ _ _ _ _ Hat Hr) as Hat'. pose proof Hat' as (Hp & _).
  simpl in Hp. rewrite Hp.
  assert (sub items 0 (Z.min (len items) (p_maxBatch p)) = offered) as ->.
  { rewrite sub_0. unfold offered, len. destruct (decide (Z.of_nat (length items) <= p_maxBatch p)).
    - rewrite !take_ge by lia. done.
    - f_equal. lia. }
  assert (len offered <= cap) as Hlen.
  { unfold offered, len. rewrite length_take. lia. }
  clearbody offered. destruct offered as [|x [|x' offered]].
  2: { safe_seq by (by apply (safe_enqueueOne p h t x)).
       intros [stored free] z m _ [He Hf]. apply safe_ret. intros r1 g1 Hr1 _.
       split; [by eapply enqueued_rely|]. change (len [x]) with 1.
       destruct stored; [lia|]. specialize (Hf eq_refl). lia. }
  all: by apply (safe_enqueueBatch p h t _ false).
Qed.

(** *** The consumer *)

(** The consumer's private fields are [c], at least [h] has been published, [tk] positions are
    released and [w] given up. *)
Definition at_C (c : spscConsumer) (h : list T) (tk w : Z) (x : SPSCQueue T * ghost) : Prop :=
  consumer x.1 = c ∧ h `prefix_of` hist x.2 ∧ taken x.2 = tk ∧ wiped x.2 = w.

Lemma at_C_rely c h tk w x y : at_C c h tk w x → rely_C x y → at_C c h tk w y.
Proof.
  intros (? & ? & ? & ?) (? & ? & ? & ?). split_and!; [congruence| |congruence..].
  by trans (hist x.2).
Qed.

Abbreviation safe_C := (safe inv (quiet := never) rely_C rely_P).

Lemma prefix_len (h h' : list T) : h `prefix_of` h' → len h <= len h'.
Proof. intros Hp%prefix_length. unfold len. lia. Qed.

Lemma safe_refreshProducer c h tk w n x :
  at_C c h tk w x →
  safe_C (λ v y, ∃ h', h `prefix_of` h' ∧ v = u32 (len h') ∧ len h' <= tk + cap ∧
      at_C (MkConsumer (c_mask c) (c_cursor c) v (c_clearOnDequeue c) (c_maxBatch c)
              (c_exactBatchCounts c) (c_published c)) h' tk w y) n refreshProducer x.
Proof.
  intros Hat. apply (safe_access_last _ _ _ _ _ (λ r,
    Some (set_c_cached (p_published (producer r)) r, p_published (producer r)))).
  intros r g Hr Hi. destruct (at_C_rely _ _ _ _ _ _ Hat Hr) as (Hp & Hh & Ht & Hw). simpl in *.
  exists (set_c_cached (p_published (producer r)) r), (p_published (producer r)), g.
  pose proof (inv_room _ _ Hi). pose proof (len_nonneg (pending g)).
  split_and!; [done..|by destruct Hi; constructor|]. intros y Hy Hiy. exists (hist g).
  split_and!; [done|apply Hi|lia|].
  eapply at_C_rely; [|exact Hy]. split_and!; [|done..]. simpl. by rewrite Hp.
Qed.

Lemma inv_slot r g h q :
  inv r g → h `prefix_of` hist g → wiped g <= q < len h →
  ∃ v, h !! Z.to_nat q = Some v ∧ slot (q_entries r) q = Some v.
Proof.
  intros Hi [more Hh] Hq. pose proof (inv_bounds _ _ Hi) as Hb.
  destruct (lookup_lt_is_Some_2 h (Z.to_nat q)) as [v Hv]; [unfold len in *; lia|].
  exists v. split; [done|].
  pose proof (inv_holds _ _ Hi (Z.to_nat (q - wiped g)) v) as Hs.
  replace (wiped g + Z.of_nat (Z.to_nat (q - wiped g))) with q in Hs by lia. apply Hs.
  apply lookup_app_l_Some. rewrite lookup_drop, Hh.
  replace (Z.to_nat (wiped g) + Z.to_nat (q - wiped g))%nat with (Z.to_nat q) by lia.
  by apply lookup_app_l_Some.
Qed.

Lemma safe_slot_get_C c h tk w q i n y :
  at_C c h tk w y → w <= q < len h → i = q mod cap →
  safe_C (λ v y, h !! Z.to_nat q = Some v ∧ at_C c h tk w y) n (slot_get i) y.
Proof.
  intros Hat Hq ->. apply safe_access_last. intros r g Hr Hi.
  pose proof (at_C_rely _ _ _ _ _ _ Hat Hr) as Hat'. pose proof Hat' as (Hc & Hh & Ht & Hw).
  simpl in *. subst w. destruct (inv_slot r g h q Hi Hh Hq) as (v & Hv & Hs).
  exists r, v, g. split_and!.
  - refine (slot_get_access cap q r v _ _ _); [pose proof spsc_cap_range; lia|apply Hi|done].
  - done.
  - done.
  - intros z Hz _. split; [done|]. by eapply at_C_rely.
Qed.

Lemma safe_read_C c h tk k n y :
  at_C c h tk tk y → 0 <= tk → 0 <= k → tk + k <= len h →
  safe_C (λ vs y, len vs = k ∧ vs = take (Z.to_nat k) (drop (Z.to_nat tk) h) ∧ at_C c h tk tk y)
    n (read_at cap tk k) y.
Proof.
  intros Hat Htk Hk Hfit. unfold read_at. eapply safe_post.
  - apply (safe_collect _ _ _ _ _ (λ vs y,
      vs = take (length vs) (drop (Z.to_nat tk) h) ∧ at_C c h tk tk y)).
    + intros bs x z [Hb Hx] Hr. split; [done|]. by eapply at_C_rely.
    + done.
    + intros i j bs z m Hi Hb [Hbs Hz]. rewrite list_lookup_fmap in Hi.
      apply fmap_Some in Hi as (q & Hq & ->). apply lookup_seqZ in Hq as [-> Hq].
      eapply safe_post; [apply (safe_slot_get_C c h tk tk (tk + Z.of_nat i)); [done|lia|by simpl]|].
      intros v z' [Hv Hz']. split; [|done]. rewrite length_app, Hb. simpl. rewrite Nat.add_1_r.
      rewrite (take_S_r _ _ v); [by rewrite Hb in Hbs; rewrite <- Hbs|].
      rewrite lookup_drop. by replace (Z.to_nat tk + i)%nat with (Z.to_nat (tk + Z.of_nat i)) by lia.
  - intros vs z (Hl & Hvs & Hz). rewrite length_fmap, length_seqZ in Hl.
    split_and!; [unfold len; lia|by rewrite <- Hl|done].
Qed.

(** Clearing the oldest slot that is still held. *)
Lemma inv_wipe r g :
  inv r g → wiped g < len (hist g) →
  inv (set_entries (put (q_entries r) (wiped g) zero) r)
      (Ghost (hist g) (pending g) (taken g) (wiped g + 1)).
Proof.
  intros [Hl Hpm Hcm Hpub Hrel Hb Hroom Hh Hz] Hlt. pose proof spsc_cap_range.
  pose proof (len_nonneg (pending g)).
  assert (drop (Z.to_nat (wiped g)) (hist g) ++ pending g =
    take 1 (drop (Z.to_nat (wiped g)) (hist g)) ++
    drop (Z.to_nat (wiped g + 1)) (hist g) ++ pending g) as Hsplit.
  { rewrite app_assoc. f_equal. replace (Z.to_nat (wiped g + 1)) with (Z.to_nat (wiped g) + 1)%nat by lia.
    rewrite <- drop_drop. by rewrite take_drop. }
  assert (len (take 1 (drop (Z.to_nat (wiped g)) (hist g))) = 1) as Hone.
  { unfold len in *. rewrite length_take, length_drop. lia. }
  assert (len (drop (Z.to_nat (wiped g + 1)) (hist g) ++ pending g) =
    len (hist g) + len (pending g) - (wiped g + 1)) as Hrest.
  { rewrite len_app, len_drop by lia. lia. }
  rewrite Hsplit, holds_app, Hone in Hh. destruct Hh as [_ Hh].
  constructor; simpl; [by rewrite len_put|done..|lia|lia| |].
  - apply holds_put_ne; [lia..|done].
  - intros Hc q Hq. destruct (decide (q = wiped g + cap)) as [->|Hne].
    + rewrite <- Hl, <- (len_put _ (wiped g) zero), slot_lap by (rewrite len_put; lia).
      apply slot_put. lia.
    + rewrite slot_put_ne by lia. apply Hz; [done|lia].
Qed.

Lemma safe_wipe_C c h tk w i n y :
  at_C c h tk w y → w < len h → i = w mod cap →
  safe_C (λ _, at_C c h tk (w + 1)) n (slot_set i zero) y.
Proof.
  intros Hat Hlt ->. apply safe_access_last. intros r g Hr Hi.
  pose proof (at_C_rely _ _ _ _ _ _ Hat Hr) as (Hc & Hh & Ht & Hw). simpl in *. subst w.
  pose proof (prefix_len _ _ Hh).
  destruct (slot_set_access cap (wiped g) zero r) as [Hin Hput];
    [pose proof spsc_cap_range; lia|apply Hi|]. simpl in Hin, Hput. rewrite Hin, Hput.
  eexists _, tt, (Ghost (hist g) (pending g) (taken g) (wiped g + 1)).
  split_and!; [done|by split_and!|apply (inv_wipe r g Hi); lia|].
  intros z Hz _. eapply at_C_rely; [|exact Hz]. by split_and!.
Qed.

Lemma safe_clear_C c h tk k n y :
  at_C c h tk tk y → 0 <= k → tk + k <= len h →
  safe_C (λ _, at_C c h tk (tk + k)) n (clear_at zero cap tk k) y.
Proof.
  intros Hat Hk Hfit. unfold clear_at. eapply safe_post.
  - apply (safe_for_each _ _ _ _ _ (λ done, at_C c h tk (tk + len done))).
    + intros l x z Hx Hr. by eapply at_C_rely.
    + change (len []) with 0. by rewrite Z.add_0_r.
    + intros done i rest z m Hz Hdone. rewrite len_app. change (len [i]) with 1.
      rewrite Z.add_assoc.
      assert (((λ i, (tk + i) mod cap) <$> seqZ 0 k) !! length done = Some i) as Hi
        by (rewrite Hz; by apply list_lookup_middle).
      rewrite list_lookup_fmap in Hi. apply fmap_Some in Hi as (q & Hq & ->).
      apply lookup_seqZ in Hq as [-> Hq]. apply safe_wipe_C; [done|unfold len in *; lia|].
      unfold len. by rewrite Z.add_0_l.
  - intros [] z Hz. cbn beta in Hz. unfold len in Hz. rewrite length_fmap, length_seqZ in Hz.
    by rewrite Z2Nat.id in Hz by lia.
Qed.

Definition released_at (c : spscConsumer) (x : Z) : spscConsumer :=
  MkConsumer (c_mask c) x (c_cachedProducer c) (c_clearOnDequeue c) (c_maxBatch c)
    (c_exactBatchCounts c) x.

(** The cursor moves and is released: past the cleared slots, or past slots that keep their
    values when clearing is off. *)
Lemma safe_release_C c h tk w w' n y :
  at_C c h tk w y → tk <= w <= w' → w' <= len h → (w = w' ∨ c_clearOnDequeue c = false) →
  safe_C (λ _, at_C (released_at c (u32 w')) h w' w') n (releaseCursor (u32 w')) y.
Proof.
  intros Hat Hb Hfit Hkind. apply safe_modify. intros r g Hr Hi.
  destruct (at_C_rely _ _ _ _ _ _ Hat Hr) as (Hc & Hh & Ht & Hw). simpl in *.
  exists g. split_and!; [done..|by destruct Hi; constructor|].
  apply safe_modify_last. intros r1 g1 Hr1 Hi1. destruct Hr1 as (Hc1 & Ht1 & Hw1 & Hh1). simpl in *.
  assert (h `prefix_of` hist g1) as Hh' by (by trans (hist g)).
  pose proof (prefix_len _ _ Hh').
  exists (Ghost (hist g1) (pending g1) w' w'). split_and!; simpl.
  - split_and!; simpl; [done..|lia].
  - destruct Hi1 as [Hl Hpm Hcm Hpub Hrel Hbd Hroom Hho Hz].
    constructor; simpl; try done; try lia.
    + pose proof (len_nonneg (pending g1)).
      apply (holds_drop _ _ (w' - wiped g1)) in Hho as Hd; [|rewrite len_app, len_drop; lia].
      replace (wiped g1 + (w' - wiped g1)) with w' in Hd by lia.
      rewrite drop_app_le, drop_drop in Hd by (rewrite length_drop; unfold len in *; lia).
      by replace (Z.to_nat (wiped g1) + Z.to_nat (w' - wiped g1))%nat with (Z.to_nat w') in Hd by lia.
    + intros Hclear. destruct Hkind as [<-|Hoff].
      * rewrite <- Hw, Hw1. by apply Hz.
      * rewrite <- Hc1 in Hclear. simpl in Hclear. congruence.
  - intros z Hz _. eapply at_C_rely; [|exact Hz]. split_and!; simpl; [|done..].
    by rewrite <- Hc1; simpl; rewrite Hc.
Qed.

Definition idle_C (c : spscConsumer) (h : list T) (tk : Z) : Prop :=
  c_mask c = cap - 1 ∧ c_cursor c = u32 tk ∧ 1 <= c_maxBatch c <= cap ∧ 0 <= tk ∧
  ∃ cp, c_cachedProducer c = u32 cp ∧ tk <= cp <= len h ∧ cp <= tk + cap.

Definition same_C (c c' : spscConsumer) : Prop :=
  c_maxBatch c' = c_maxBatch c ∧ c_exactBatchCounts c' = c_exactBatchCounts c ∧
  c_clearOnDequeue c' = c_clearOnDequeue c.

Lemma capacity_eq_C c h tk : idle_C c h tk → c_mask c +32 1 = cap.
Proof. intros (-> & _). pose proof spsc_cap_range. rewrite Z.sub_add. by pos_simpl. Qed.

(** What a consumer's admission step leaves behind: [cp] is the published position it used. *)
Definition admitted_C (refresh : bool) (c : spscConsumer) (h : list T) (tk available : Z)
    (y : SPSCQueue T * ghost) : Prop :=
  ∃ c' h' cp, available = cp - tk ∧ tk <= cp <= len h' ∧ cp <= tk + cap ∧
    c_mask c' = c_mask c ∧ c_cursor c' = c_cursor c ∧ same_C c c' ∧ h `prefix_of` h' ∧
    (if refresh then len h <= cp else c_cachedProducer c -32 c_cursor c = available) ∧
    at_C c' h' tk tk y ∧ c_cachedProducer c' = u32 cp.

Lemma safe_availableEntries (refresh : bool) c h tk n y :
  idle_C c h tk → at_C c h tk tk y →
  safe_C (λ available, admitted_C refresh c h tk available) n (availableEntries refresh c) y.
Proof.
  intros Hidle Hat. pose proof spsc_cap_range.
  pose proof Hidle as (Hm & Hcur & Hmb & Htk & cp & Hcp & Hch & Hroom).
  unfold availableEntries. destruct refresh.
  - safe_seq by (by apply safe_refreshProducer).
    intros v z m _ (h' & Hh' & -> & Hb & Hz). pose proof (prefix_len _ _ Hh').
    apply safe_ret. intros r g Hr _.
    eexists _, h', (len h'). rewrite Hcur, u32_distance by lia.
    split_and!; [..|by eapply at_C_rely|]; done || lia.
  - apply safe_ret. intros r g Hr _. exists c, h, cp. rewrite Hcur, Hcp, u32_distance by lia.
    split_and!; [..|by eapply at_C_rely|]; done || lia.
Qed.

(** The result of a consumer call that asked for [want] values: it got [vs], the oldest values
    in order, and [available] entries were reported. *)
Definition dequeued (exact : bool) (c : spscConsumer) (h : list T) (tk want : Z) (vs : list T)
    (available : Z) (y : SPSCQueue T * ghost) : Prop :=
  let tk' := tk + len vs in
  len vs <= want ∧
  ∃ c' h', same_C c c' ∧ idle_C c' h' tk' ∧ at_C c' h' tk' tk' y ∧ h `prefix_of` h' ∧
    vs = take (length vs) (drop (Z.to_nat tk) h') ∧
    0 <= available <= len h' - tk' ∧
    (exact = true ∨ len vs < want ∨ want = 0 → len h - tk' <= available).

Lemma dequeued_rely exact c h tk want vs available x y :
  dequeued exact c h tk want vs available x → rely_C x y →
  dequeued exact c h tk want vs available y.
Proof.
  intros (Hn & c' & h' & Hs & Hi & Hat & Hrest) Hr. split; [done|].
  exists c', h'. split_and!; [done|done|by eapply at_C_rely|apply Hrest..].
Qed.

Lemma dequeued_0 exact c c' h h' tk want available y :
  0 <= want → same_C c c' → idle_C c' h' tk → at_C c' h' tk tk y → h `prefix_of` h' →
  0 <= available <= len h' - tk →
  (exact = true ∨ 0 < want ∨ want = 0 → len h - tk <= available) →
  dequeued exact c h tk want [] available y.
Proof.
  intros Hw Hs Hidle Hat Hh Hav Hfresh. unfold dequeued. change (len []) with 0.
  rewrite Z.add_0_r. split; [done|]. by exists c', h'.
Qed.

(** After admission and the release of [k] values the consumer is idle again. *)
Lemma idle_C_after c c' h h' tk cp :
  idle_C c h tk → c_mask c' = c_mask c → c_cursor c' = c_cursor c → same_C c c' →
  c_cachedProducer c' = u32 cp → tk <= cp <= len h' → cp <= tk + cap → idle_C c' h' tk.
Proof.
  intros (Hm & Hcur & Hmb & Htk & _) Hm' Hcur' (Hs & _) Hcp Hb Hroom.
  split_and!; [congruence|congruence|lia..|]. exists cp. split_and!; [done|lia..].
Qed.

Lemma idle_C_released c h tk k cp :
  idle_C c h tk → 0 <= k → c_cachedProducer c = u32 cp → tk + k <= cp <= len h → cp <= tk + cap →
  idle_C (released_at c (u32 (tk + k))) h (tk + k).
Proof.
  intros (Hm & Hcur & Hmb & Htk & _) Hk Hcp Hb Hroom.
  split_and!; [done|done|simpl; lia..|]. exists cp. split_and!; [done|lia..].
Qed.

(** [k] values were read after admission, and the slots are released. *)
Lemma dequeued_some exact c c' h h' tk cp want vs available y :
  idle_C c h tk → c_mask c' = c_mask c → c_cursor c' = c_cursor c → same_C c c' →
  c_cachedProducer c' = u32 cp → cp <= len h' → cp <= tk + cap → tk + len vs <= cp →
  h `prefix_of` h' → vs = take (length vs) (drop (Z.to_nat tk) h') → len vs <= want →
  at_C (released_at c' (u32 (tk + len vs))) h' (tk + len vs) (tk + len vs) y →
  available = cp - (tk + len vs) →
  (exact = true ∨ len vs < want ∨ want = 0 → len h <= cp) →
  dequeued exact c h tk want vs available y.
Proof.
  intros Hidle Hm Hcur Hs Hcp Hcl Hroom Hfit Hh Hvs Hwant Hat -> Hfresh. split; [done|].
  pose proof (len_nonneg vs).
  assert (idle_C c' h' tk) as Hidle' by (apply (idle_C_after c c' h h' tk cp); done || lia).
  exists (released_at c' (u32 (tk + len vs))), h'. split_and!; try done; try lia.
  - apply (idle_C_released c' h' tk (len vs) cp); done || lia.
  - intros Hex. specialize (Hfresh Hex). lia.
Qed.

Ltac admitted_C H := destruct H as
  (c' & h' & cp & -> & Hcp & Hroom & Hm' & Hcur' & Hs' & Hh' & Hfr & Hz & Hcc').

Lemma takeOne_same c c' :
  c_mask c' = c_mask c → c_cursor c' = c_cursor c → same_C c c' → takeOne c = takeOne c'.
Proof. intros Hm Hc (_ & _ & Hcl). unfold takeOne. by rewrite Hm, Hc, Hcl. Qed.

Lemma safe_takeOne c h tk n y :
  idle_C c h tk → at_C c h tk tk y → tk < len h →
  safe_C (λ v, λ y, h !! Z.to_nat tk = Some v ∧
      at_C (released_at c (u32 (tk + 1))) h (tk + 1) (tk + 1) y) n (takeOne c) y.
Proof.
  intros (Hm & Hcur & _ & Htk & _) Hat Hlt. unfold takeOne.
  rewrite Hm, Hcur, mask_index, u32_add_l by done.
  safe_seq by (apply (safe_slot_get_C c h tk tk tk); [done|lia|done]).
  intros v z m _ [Hv Hz].
  eapply (safe_bind _ _ _ (λ _ y, ∃ w, at_C c h tk w y ∧ tk <= w <= tk + 1 ∧
    (w = tk + 1 ∨ c_clearOnDequeue c = false))).
  { destruct (c_clearOnDequeue c) eqn:Hcl.
    - eapply safe_post; [by apply (safe_wipe_C c h tk tk)|]. intros u z1 Hz1. exists (tk + 1).
      split_and!; [done|lia..|auto].
    - apply safe_ret. intros r g Hr _. exists tk. split_and!; [by eapply at_C_rely|lia..|auto]. }
  intros u z1 m1 _ (w & Hz1 & Hw & Hkind).
  safe_seq by (apply (safe_release_C c h tk w (tk + 1)); [done|lia..|destruct Hkind; auto]).
  intros u2 z2 m2 _ Hz2. apply safe_ret. intros r g Hr _. split; [done|].
  eapply at_C_rely; [exact Hz2|exact Hr].
Qed.

Lemma safe_taken exact c c' h h' tk cp {A} (f : T → A) (post : A → SPSCQueue T * ghost → Prop) n y :
  idle_C c h tk → c_mask c' = c_mask c → c_cursor c' = c_cursor c → same_C c c' →
  c_cachedProducer c' = u32 cp → tk < cp <= len h' → cp <= tk + cap → h `prefix_of` h' →
  at_C c' h' tk tk y → (exact = true → len h <= cp) →
  (∀ v z, dequeued exact c h tk 1 [v] (cp - tk - 1) z → post (f v) z) →
  safe_C post n (v ← takeOne c; mret (f v)) y.
Proof.
  intros Hidle Hm Hcur Hs Hcc Hcp Hroom Hh Hat Hfr Hpost. rewrite (takeOne_same c c') by done.
  assert (idle_C c' h' tk) as Hidle' by (apply (idle_C_after c c' h h' tk cp); done || lia).
  safe_seq by (apply (safe_takeOne c' h' tk); [done|done|lia]).
  intros v z m _ [Hv Hz]. apply safe_ret. intros r g Hr _. apply Hpost.
  apply (dequeued_some exact c c' h h' tk cp); change (len [v]) with 1; try done; try lia.
  - simpl. rewrite (take_S_r _ 0 v); [done|]. by rewrite lookup_drop, Nat.add_0_r.
  - eapply at_C_rely; [exact Hz|exact Hr].
  - intros [?|[?|?]]; [auto|lia..].
Qed.

Lemma safe_Dequeue c h tk n y :
  idle_C c h tk → at_C c h tk tk y →
  safe_C (λ '(v, err) y, match err with
    | None => ∃ available, dequeued false c h tk 1 [v] available y
    | Some e => e = ErrEmpty ∧ v = zero ∧ len h <= tk ∧
        ∃ available, dequeued false c h tk 1 [] available y
    end) n Dequeue y.
Proof.
  intros Hidle Hat. unfold Dequeue. apply safe_load; [apply _|]. intros r g Hr Hi.
  pose proof (at_C_rely _ _ _ _ _ _ Hat Hr) as Hat'. pose proof Hat' as (Hc & _). simpl in Hc.
  rewrite Hc, (capacity_eq_C _ _ _ Hidle).
  safe_seq by (by apply (safe_availableEntries _ c h tk)).
  intros available z m _ Hadm. admitted_C Hadm. set (refresh := (_ || _)) in Hfr.
  destruct ((cp - tk =? 0) || (cap <? cp - tk)) eqn:Hempty.
  - assert (len h <= cp) as Htc.
    { destruct refresh eqn:Href; [done|]. unfold refresh in Href. rewrite Hfr in Href. congruence. }
    apply orb_true_iff in Hempty. rewrite Z.eqb_eq, Z.ltb_lt in Hempty.
    apply safe_ret. intros r1 g1 Hr1 _. split_and!; [done|done|lia|]. exists 0.
    apply (dequeued_0 _ c c' h h'); try done; try lia.
    + apply (idle_C_after c c' h h' tk cp); done || lia.
    + by eapply at_C_rely.
  - apply orb_false_iff in Hempty. rewrite Z.eqb_neq, Z.ltb_ge in Hempty.
    apply (safe_taken false c c' h h' tk cp (λ v, (v, None))); try done; [lia|]. eauto.
Qed.

Lemma safe_dequeueOne c h tk n y :
  idle_C c h tk → at_C c h tk tk y →
  safe_C (λ '(v, available) y,
      dequeued (c_exactBatchCounts c) c h tk 1 (option_list v) available y ∧
      (v = None → len h <= tk)) n (dequeueOne c) y.
Proof.
  intros Hidle Hat. pose proof spsc_cap_range. unfold dequeueOne.
  rewrite (capacity_eq_C _ _ _ Hidle).
  safe_seq by (by apply (safe_availableEntries _ c h tk)).
  intros available z m _ Hadm. admitted_C Hadm. set (refresh := (_ || _)) in Hfr.
  destruct (Z.ltb_spec cap (cp - tk)); [lia|].
  assert (c_exactBatchCounts c = true → len h <= cp) as Hex.
  { intros He. unfold refresh in Hfr. by rewrite He in Hfr. }
  destruct (Z.eqb_spec (cp - tk) 0) as [Hnone|Hsome].
  - assert (len h <= cp) as Htc.
    { destruct refresh eqn:Href; [done|]. unfold refresh in Href. rewrite Hfr, Hnone in Href.
      by destruct (c_exactBatchCounts c). }
    apply safe_ret. intros r1 g1 Hr1 _. split; [|lia].
    apply (dequeued_0 _ c c' h h'); try done; try lia.
    + apply (idle_C_after c c' h h' tk cp); done || lia.
    + by eapply at_C_rely.
  - apply (safe_taken (c_exactBatchCounts c) c c' h h' tk cp (λ v, (Some v, _))); try done; [lia|].
    intros v z' Hz'. split; [|done]. by pos_simpl.
Qed.

(** The clearing half of a batch. *)
Lemma safe_clear_batch c h tk k base first n y :
  at_C c h tk tk y → 0 <= k <= cap → tk + k <= len h →
  base = tk mod cap → first = Z.min k (cap - base) →
  safe_C (λ _ y, ∃ w, at_C c h tk w y ∧ tk <= w <= tk + k ∧
      (w = tk + k ∨ c_clearOnDequeue c = false)) n
    (if c_clearOnDequeue c
     then _ ← clear_slots zero base first; clear_slots zero 0 (k - first)
     else mret tt) y.
Proof.
  intros Hat Hk Hfit -> ->. pose proof spsc_cap_range. destruct (c_clearOnDequeue c) eqn:Hcl.
  - eapply safe_post; [|intros u z Hz; exists (tk + k); split_and!; [exact Hz|lia..|by left]].
    rewrite clear_split by lia. apply safe_clear_C; [done|lia..].
  - apply safe_ret. intros r g Hr _. exists tk. split_and!; [by eapply at_C_rely|lia..|auto].
Qed.

Lemma safe_dequeueBatch c h tk dst fixed n y :
  idle_C c h tk → at_C c h tk tk y → len dst <= cap →
  safe_C (λ '(moved, available, dst') y, ∃ vs, moved = len vs ∧
      dst' = vs ++ drop (length vs) dst ∧
      dequeued (c_exactBatchCounts c) c h tk (len dst) vs available y ∧
      (moved < len dst →
         if fixed : bool then moved = 0 ∧ len h - tk < len dst
         else len h <= tk + moved)) n (dequeueBatch dst fixed) y.
Proof.
  intros Hidle Hat Hlen. pose proof spsc_cap_range. pose proof (len_nonneg dst).
  unfold dequeueBatch. apply safe_load; [apply _|]. intros r g Hr Hi.
  pose proof (at_C_rely _ _ _ _ _ _ Hat Hr) as Hat'. pose proof Hat' as (Hc & _). simpl in Hc.
  rewrite Hc, (capacity_eq_C _ _ _ Hidle).
  rewrite (u32_small (len dst)) by (unfold is_u32; lia).
  safe_seq by (by apply (safe_availableEntries _ c h tk)).
  intros available z m _ Hadm. admitted_C Hadm. set (refresh := (_ || _)) in Hfr.
  assert (idle_C c' h' tk) as Hidle' by (apply (idle_C_after c c' h h' tk cp); done || lia).
  destruct (Z.ltb_spec cap (cp - tk)); [lia|].
  assert (c_exactBatchCounts c = true ∨ len dst = 0 ∨ cp - tk < len dst → len h <= cp) as Hex.
  { intros He. destruct refresh eqn:Href; [done|]. unfold refresh in Href. rewrite Hfr in Href.
    apply orb_false_iff in Href as [Href _]. apply orb_false_iff in Href as [Href Hfl].
    apply orb_false_iff in Href as [Hef Hle]. apply Z.ltb_ge in Hfl. apply Z.eqb_neq in Hle.
    destruct He as [He|[He|He]]; [congruence|lia..]. }
  destruct (fixed && (cp - tk <? len dst)) eqn:Hfix.
  { apply andb_true_iff in Hfix as [-> Hlt]. apply Z.ltb_lt in Hlt.
    apply safe_ret. intros r1 g1 Hr1 _. specialize (Hex ltac:(auto)). exists []. split_and!; [done|done| |].
    - apply (dequeued_0 _ c c' h h'); try done; try lia. by eapply at_C_rely.
    - intros _. split; [done|lia]. }
  destruct (Z.eqb_spec (Z.min (len dst) (cp - tk)) 0) as [Hm0|Hm0].
  { assert (len h <= cp) as Htc by (apply Hex; lia).
    apply safe_ret. intros r1 g1 Hr1 _. exists []. split_and!; [done|done| |].
    - apply (dequeued_0 _ c c' h h'); try done; try lia. by eapply at_C_rely.
    - intros Hlt. change (len []) with 0 in *. destruct fixed; [|lia]. simpl in Hfix.
      apply Z.ltb_ge in Hfix. lia. }
  set (k := Z.min (len dst) (cp - tk)) in *.
  pose proof Hidle as (Hm & Hcur & _ & Htk & _). rewrite Hm, Hcur, mask_index by done.
  pose proof (mod_range cap tk). rewrite !(u32_small (cap - _)), (u32_small (k - _)) by (unfold is_u32; lia).
  rewrite copy_out_split by lia.
  safe_seq by (apply (safe_read_C c' h' tk k); [done|lia..]).
  intros vs z1 m1 _ (Hvl & Hvs & Hz1). destruct Hs' as (Hs1 & Hs2 & Hs3).
  rewrite <- Hs3. safe_seq by (apply (safe_clear_batch c' h' tk k); [done|lia|lia|done|done]).
  intros u z2 m2 _ (w & Hz2 & Hw & Hkind). rewrite u32_add_l.
  safe_seq by (apply (safe_release_C c' h' tk w (tk + k)); [done|lia..|destruct Hkind; auto]).
  intros u2 z3 m3 _ Hz3. apply safe_ret. intros r3 g3 Hr3 _. exists vs. split_and!; [done| | |].
  - apply copy_front. lia.
  - apply (dequeued_some _ c c' h h' tk cp); rewrite ?Hvl; try done; try lia.
    + rewrite Hvs at 1. f_equal. unfold len in Hvl. lia.
    + eapply at_C_rely; [exact Hz3|exact Hr3].
    + pos_simpl. lia.
    + intros [?|[?|?]]; apply Hex; [auto|right; right; lia|auto].
  - intros Hlt. destruct fixed; simpl in Hfix.
    + apply Z.ltb_ge in Hfix. lia.
    + specialize (Hex ltac:(right; right; lia)). lia.
Qed.

(** [DequeueBulk] fills [dst] or leaves it alone, and fails only when the values were not there
    when it began. *)
Definition bulk_dequeued c h tk dst available (err : option error) dst' y : Prop :=
  match err with
  | None => len dst <= c_maxBatch c ∧ len dst' = len dst ∧
      dequeued (c_exactBatchCounts c) c h tk (len dst) dst' available y
  | Some e => dst' = dst ∧
      dequeued (c_exactBatchCounts c) c h tk (len dst) [] available y ∧
      if c_maxBatch c <? len dst
      then e = batchLengthError "dequeue" (len dst) (c_maxBatch c) cap
      else e = ErrEmpty ∧ len h - tk < len dst
  end.

Lemma drop_all_of (vs dst : list T) : len vs = len dst → vs ++ drop (length vs) dst = vs.
Proof. intros Hl. rewrite drop_ge, app_nil_r; [done|]. unfold len in *. lia. Qed.

Lemma len_nil_of (vs : list T) : len vs = 0 → vs = [].
Proof. apply len_0_nil. Qed.

Lemma safe_bulk_batch_C c h tk dst n y :
  idle_C c h tk → at_C c h tk tk y → len dst <= c_maxBatch c →
  safe_C (λ '(available, err, dst') y, bulk_dequeued c h tk dst available err dst' y) n
    ('(moved, remaining, dst') ← dequeueBatch dst true;
     mret (remaining, if moved =? len dst then None else Some ErrEmpty, dst')) y.
Proof.
  intros Hidle Hat Hshort. pose proof Hidle as (_ & _ & Hmb & _).
  safe_seq by (apply (safe_dequeueBatch c h tk); [done|done|lia]).
  intros [[moved available] dst'] z m _ (vs & -> & -> & He & Hf).
  apply safe_ret. intros r1 g1 Hr1 _.
  apply (dequeued_rely _ _ _ _ _ _ _ _ _ He) in Hr1.
  unfold bulk_dequeued. rewrite (proj2 (Z.ltb_ge _ _) Hshort).
  destruct (Z.eqb_spec (len vs) (len dst)) as [Heq|Hne]; [by rewrite drop_all_of|].
  destruct Hf as [H0 Hf]; [destruct Hr1; lia|]. apply len_0_nil in H0 as ->. by split_and!.
Qed.

Lemma safe_DequeueBulk c h tk dst n y :
  idle_C c h tk → at_C c h tk tk y →
  safe_C (λ '(available, err, dst') y, bulk_dequeued c h tk dst available err dst' y) n
    (DequeueBulk dst) y.
Proof.
  intros Hidle Hat. pose proof spsc_cap_range. pose proof Hidle as (Hm & Hcur & Hmb & Htk & _).
  unfold DequeueBulk. apply safe_load; [apply _|]. intros r g Hr Hi.
  pose proof (at_C_rely _ _ _ _ _ _ Hat Hr) as Hat'. pose proof Hat' as (Hc & _).
  simpl in Hc. rewrite Hc, (capacity_eq_C _ _ _ Hidle).
  destruct (Z.ltb_spec (c_maxBatch c) (len dst)) as [Hlong|Hshort].
  - apply safe_load; [apply _|]. intros r1 g1 Hr1 Hi1. apply safe_ret. intros r2 g2 Hr2 Hi2.
    pose proof (at_C_rely _ _ _ _ _ _ Hat' Hr1) as Hat1. pose proof Hat1 as (Hc1 & Hh1 & Ht1 & Hw1).
    pose proof (at_C_rely _ _ _ _ _ _ Hat1 Hr2) as (Hc2 & Hh2 & Ht2 & Hw2). simpl in *.
    destruct Hr2 as (_ & _ & _ & Hpre). simpl in Hpre.
    pose proof (inv_bounds _ _ Hi1) as Hb. pose proof (inv_room _ _ Hi1) as Hroom.
    pose proof (len_nonneg (pending g1)). pose proof (prefix_len _ _ Hpre). pose proof (prefix_len _ _ Hh1).
    rewrite (inv_published _ _ Hi1), Hcur, u32_distance by lia.
    unfold bulk_dequeued. rewrite (proj2 (Z.ltb_lt _ _) Hlong). split_and!; [done| |done].
    destruct Hidle as (_ & _ & _ & _ & cp & Hcp & Hcb & Hcr).
    apply (dequeued_0 _ c c h (hist g2)); [lia|done| |by split_and!|done|lia|lia].
    split_and!; [done|done|lia|lia|lia|]. exists cp. split_and!; [done|lia..].
  - destruct dst as [|x [|x' dst]].
    2: { safe_seq by (by apply (safe_dequeueOne c h tk)).
         intros [v available] z m _ [He Hf]. apply safe_ret. intros r1 g1 Hr1 _.
         apply (dequeued_rely _ _ _ _ _ _ _ _ _ He) in Hr1. unfold bulk_dequeued.
         destruct v as [v|]; [done|]. rewrite (proj2 (Z.ltb_ge _ _) Hshort). specialize (Hf eq_refl).
         split_and!; [done..|]. change (len [x]) with 1. lia. }
    all: by apply safe_bulk_batch_C.
Qed.

Lemma safe_DequeueBurst c h tk dst n y :
  idle_C c h tk → at_C c h tk tk y →
  let want := Z.min (len dst) (c_maxBatch c) in
  safe_C (λ '(moved, available, dst') y, ∃ vs, moved = len vs ∧
      dst' = vs ++ drop (length vs) dst ∧
      dequeued (c_exactBatchCounts c) c h tk want vs available y ∧
      (moved < want → len h <= tk + moved)) n (DequeueBurst dst) y.
Proof.
  intros Hidle Hat want. pose proof Hidle as (Hm & Hcur & Hmb & _). pose proof (len_nonneg dst).
  unfold DequeueBurst. apply safe_load; [apply _|]. intros r g Hr Hi.
  pose proof (at_C_rely _ _ _ _ _ _ Hat Hr) as Hat'. pose proof Hat' as (Hc & _).
  simpl in Hc. rewrite Hc. fold want. unfold sub. rewrite Z.sub_0_r. change (Z.to_nat 0) with 0%nat.
  rewrite drop_0, (take_ge (drop _ dst)) by (rewrite length_drop; unfold len in *; lia).
  assert (len (take (Z.to_nat want) dst) = want) as Hlen by (apply len_take; lia).
  pose proof (take_drop (Z.to_nat want) dst) as Hd.
  set (front := take (Z.to_nat want) dst) in *. set (rest := drop (Z.to_nat want) dst) in *.
  assert (∀ m, safe_C (λ '(moved, available, dst') y, ∃ vs, moved = len vs ∧
      dst' = vs ++ drop (length vs) dst ∧
      dequeued (c_exactBatchCounts c) c h tk want vs available y ∧
      (moved < want → len h <= tk + moved)) m
      ('(moved, remaining, front') ← dequeueBatch front false; mret (moved, remaining, front' ++ rest))
      (r, g)) as Hbatch.
  { intros m. safe_seq by (apply (safe_dequeueBatch c h tk); [done|done|lia]).
    intros [[moved available] dst'] z m' _ (vs & -> & -> & He & Hf).
    apply safe_ret. intros r1 g1 Hr1 _. exists vs. rewrite Hlen in *. split_and!; [done| | |done].
    - rewrite <- Hd, drop_app_le, app_assoc; [done|]. destruct He as [He _]. unfold len in *. lia.
    - by eapply dequeued_rely. }
  clearbody front rest. destruct front as [|x [|x' front]]; [done| |done].
  safe_seq by (by apply (safe_dequeueOne c h tk)).
  intros [v available] z m _ [He Hf]. apply safe_ret. intros r1 g1 Hr1 _.
  apply (dequeued_rely _ _ _ _ _ _ _ _ _ He) in Hr1. change (len [x]) with 1 in Hlen.
  rewrite <- Hlen. destruct v as [v|]; [exists [v]; by rewrite <- Hd|]. exists []. split_and!; [done|done|done|].
  intros _. specialize (Hf eq_refl). change (len []) with 0. lia.
Qed.
End protocol.

(** ** The abstract queue

    [queue_holds r l]: between calls, the queue [r] holds the values [l], oldest first. *)
Definition state_holds (cap : Z) r (g : ghost) : Prop :=
  inv cap r g ∧ idle_P cap (producer r) (hist g) (taken g) ∧
  idle_C cap (consumer r) (hist g) (taken g) ∧ pending g = [] ∧ wiped g = taken g.

Definition live (g : ghost) : list T := drop (Z.to_nat (taken g)) (hist g).

Definition queue_holds r (l : list T) : Prop :=
  pow2_cap (Capacity r) ∧ ∃ g, state_holds (Capacity r) r g ∧ l = live g.

(** A call changes neither the capacity nor the configuration. *)
Definition same_config r r' : Prop :=
  Capacity r' = Capacity r ∧ same_P (producer r) (producer r') ∧
  same_C (consumer r) (consumer r').

Lemma Capacity_eq cap r g : pow2_cap cap → inv cap r g → Capacity r = cap.
Proof.
  intros Hcap Hi. unfold Capacity. rewrite (inv_p_mask _ _ _ Hi), Z.sub_add.
  pose proof (pow2_cap_range _ Hcap). by pos_simpl.
Qed.

Lemma len_live cap r g : inv cap r g → len (live g) = len (hist g) - taken g.
Proof. intros Hi. pose proof (inv_bounds _ _ _ Hi). unfold live. apply len_drop. lia. Qed.

(** A producer call run alone. *)
Lemma alone_P {A} cap (p : M A) (post : A → SPSCQueue T * ghost → Prop) r g :
  inv cap r g → loop_free p → (∀ n, safe (inv cap) (quiet := never) rely_P rely_C post n p (r, g)) →
  ends p r (λ a r', ∃ g', inv cap r' g' ∧ post a (r', g') ∧ rely_C (r, g) (r', g')).
Proof.
  intros Hi Hlf Hsafe. eapply ends_mono; [by apply (safe_ends (inv cap) (quiet := never) rely_P rely_C post p r g)|].
  intros a r' (g' & Hi' & Hpost & Hrtc). exists g'. split_and!; [done..|].
  clear -Hrtc. induction Hrtc as [|x y z Hxy _ IH]; [done|]. by trans y.
Qed.

Lemma alone_C {A} cap (p : M A) (post : A → SPSCQueue T * ghost → Prop) r g :
  inv cap r g → loop_free p → (∀ n, safe (inv cap) (quiet := never) rely_C rely_P post n p (r, g)) →
  ends p r (λ a r', ∃ g', inv cap r' g' ∧ post a (r', g') ∧ rely_P (r, g) (r', g')).
Proof.
  intros Hi Hlf Hsafe. eapply ends_mono; [by apply (safe_ends (inv cap) (quiet := never) rely_C rely_P post p r g)|].
  intros a r' (g' & Hi' & Hpost & Hrtc). exists g'. split_and!; [done..|].
  clear -Hrtc. induction Hrtc as [|x y z Hxy _ IH]; [done|]. by trans y.
Qed.

Lemma enqueued_holds cap exact r g items n free r' g' :
  pow2_cap cap → state_holds cap r g → inv cap r' g' →
  enqueued cap exact (producer r) (hist g) (taken g) items n free (r', g') →
  rely_C (r, g) (r', g') →
  let l' := live g ++ take (Z.to_nat n) items in
  queue_holds r' l' ∧ same_config r r' ∧ free <= cap - len l' ∧
  (exact = true ∨ n < len items ∨ items = [] → free = cap - len l').
Proof.
  intros Hcap (Hi & HP & HC & Hpe & Hw) Hi' (Hn & p' & t' & Hs & Hidle & (Hp & Hh & Hpe' & Ht) & Htt & Hfree & Hex)
    (Hc & Htk & Hwi & Hpre) l'. simpl in *.
  pose proof (inv_bounds _ _ _ Hi) as Hb.
  assert (l' = live g') as Hl'.
  { unfold l', live. rewrite Hh, <- Htk, drop_app_le; [done|]. unfold len in *. lia. }
  assert (len l' = len (hist g') - taken g') as Hlen by (rewrite Hl'; by eapply len_live).
  pose proof (Capacity_eq cap r' g' Hcap Hi') as Hcr'.
  split_and!.
  - split; [by rewrite Hcr'|]. exists g'. split; [|done]. rewrite Hcr'. split_and!; [done| | |done|congruence].
    + rewrite Hp, Hh. eapply idle_P_mono; [done|lia].
    + rewrite <- Hc, <- Htk. destruct HC as (? & ? & ? & ? & cp & ? & ? & ?).
      pose proof (prefix_len _ _ Hpre). split_and!; [done|done|lia..|]. exists cp. split_and!; [done|lia..].
  - split_and!; [by rewrite Hcr', (Capacity_eq cap r g)|by rewrite Hp|by rewrite <- Hc].
  - rewrite Hlen, Hh. lia.
  - intros He. specialize (Hex He). rewrite Hlen, Hh. lia.
Qed.

Lemma dequeued_holds cap exact r g want vs available r' g' :
  pow2_cap cap → state_holds cap r g → inv cap r' g' →
  dequeued cap exact (consumer r) (hist g) (taken g) want vs available (r', g') →
  rely_P (r, g) (r', g') →
  let l' := drop (length vs) (live g) in
  queue_holds r' l' ∧ same_config r r' ∧ vs = take (length vs) (live g) ∧ available <= len l' ∧
  (exact = true ∨ len vs < want ∨ want = 0 → available = len l').
Proof.
  intros Hcap (Hi & HP & HC & Hpe & Hw) Hi'
    (Hwant & c' & h' & Hs & Hidle & (Hc & Hh & Ht & Hwi) & Hpre & Hvs & Hav & Hex)
    (Hp & Hhist & Hpe' & Htk) l'. simpl in *.
  pose proof (inv_bounds _ _ _ Hi) as Hb. pose proof (inv_bounds _ _ _ Hi') as Hb'.
  rewrite <- Hhist in Hh, Hb'. pose proof (len_nonneg vs).
  assert (h' = hist g) as -> by (by apply (anti_symm prefix)).
  assert (l' = live g') as Hl'.
  { unfold l', live. rewrite <- Hhist, drop_drop, Ht. f_equal. unfold len. lia. }
  assert (len l' = len (hist g) - (taken g + len vs)) as Hlen.
  { rewrite Hl', (len_live cap r' g'), <- Hhist by done. lia. }
  pose proof (Capacity_eq cap r' g' Hcap Hi') as Hcr'. split_and!.
  - split; [by rewrite Hcr'|]. exists g'. split; [|done]. rewrite Hcr'.
    split_and!; [done| | |congruence|congruence].
    + rewrite <- Hp, <- Hhist. eapply idle_P_mono; [done|lia].
    + by rewrite Hc, <- Hhist, Ht.
  - split_and!; [by rewrite Hcr', (Capacity_eq cap r g)|by rewrite <- Hp|by rewrite Hc].
  - done.
  - lia.
  - intros He. specialize (Hex He). lia.
Qed.

Lemma queue_holds_len r l : queue_holds r l → len l <= Capacity r.
Proof.
  intros (Hcap & g & (Hi & _ & _ & Hpe & _) & ->). rewrite (len_live _ _ _ Hi).
  pose proof (inv_room _ _ _ Hi) as Hroom. rewrite Hpe in Hroom. change (len []) with 0 in Hroom. lia.
Qed.

(** ** The methods have no loops *)
Ltac loop_free := repeat first
  [ apply loop_free_bind; [|intros ?] | apply loop_free_for_each; intros ?
  | apply loop_free_collect; intros ? | apply loop_free_atom | apply loop_free_ret
  | match goal with
    | |- loop_free (if ?b then _ else _) => destruct b
    | |- loop_free (match ?x with _ => _ end) => destruct x
    end
  | progress unfold freeSlots, availableEntries, storeOne, takeOne, publishCursor, releaseCursor,
      copy_in, copy_out, copy_out_both, clear_slots, slot_get, slot_set, refreshConsumer,
      refreshProducer, act, access, load, modify, mret, prog_ret ].

Lemma loop_free_Enqueue x : loop_free (Enqueue x).
Proof. unfold Enqueue. loop_free. Qed.

Lemma loop_free_enqueueOne p x : loop_free (enqueueOne p x).
Proof. unfold enqueueOne. loop_free. Qed.

Lemma loop_free_enqueueBatch items fixed : loop_free (enqueueBatch items fixed).
Proof. unfold enqueueBatch. loop_free. Qed.

Lemma loop_free_EnqueueBulk items : loop_free (EnqueueBulk items).
Proof.
  unfold EnqueueBulk. loop_free; apply loop_free_enqueueOne || apply loop_free_enqueueBatch.
Qed.

Lemma loop_free_EnqueueBurst items : loop_free (EnqueueBurst items).
Proof.
  unfold EnqueueBurst. loop_free; apply loop_free_enqueueOne || apply loop_free_enqueueBatch.
Qed.

Lemma loop_free_Dequeue : loop_free Dequeue.
Proof. unfold Dequeue. loop_free. Qed.

Lemma loop_free_dequeueOne c : loop_free (dequeueOne c).
Proof. unfold dequeueOne. loop_free. Qed.

Lemma loop_free_dequeueBatch dst fixed : loop_free (dequeueBatch dst fixed).
Proof. unfold dequeueBatch. loop_free. Qed.

Lemma loop_free_DequeueBulk dst : loop_free (DequeueBulk dst).
Proof.
  unfold DequeueBulk. loop_free; apply loop_free_dequeueOne || apply loop_free_dequeueBatch.
Qed.

Lemma loop_free_DequeueBurst dst : loop_free (DequeueBurst dst).
Proof.
  unfold DequeueBurst. loop_free; apply loop_free_dequeueOne || apply loop_free_dequeueBatch.
Qed.

(** ** Properties *)

Lemma at_P_start r g : pending g = [] → at_P (producer r) (hist g) [] (taken g) (r, g).
Proof. intros Hpe. by split_and!. Qed.

Lemma at_C_start r g : wiped g = taken g → at_C (consumer r) (hist g) (taken g) (taken g) (r, g).
Proof. intros Hw. by split_and!. Qed.

(** What a call sees of a queue that holds [l]. *)
Section calls.
Context (r : SPSCQueue T) (g : ghost).
Context (Hcap : pow2_cap (Capacity r)) (Hsh : state_holds (Capacity r) r g).

Lemma fits r' l' : queue_holds r' l' → same_config r r' → len l' <= Capacity r.
Proof. intros Hq (Hcr & _). apply queue_holds_len in Hq. lia. Qed.

Lemma live_len : len (live g) = len (hist g) - taken g ∧ 0 <= taken g.
Proof.
  destruct Hsh as (Hi & _). split; [by eapply len_live|].
  pose proof (inv_bounds _ _ _ Hi). lia.
Qed.

Lemma spsc_Enqueue x : ends (Enqueue x) r (λ err r', same_config r r' ∧
  if len (live g) <? Capacity r then err = None ∧ queue_holds r' (live g ++ [x])
  else err = Some ErrFull ∧ queue_holds r' (live g)).
Proof.
  pose proof Hsh as (Hi & HP & _ & Hpe & _). pose proof live_len. eapply ends_mono.
  { apply (alone_P (Capacity r)); [done|apply loop_free_Enqueue|]. intros n.
    by apply safe_Enqueue; [..|apply at_P_start]. }
  intros err r' (g' & Hi' & Hpost & Hr). destruct err as [e|].
  - destruct Hpost as (-> & Hfull & free & He).
    eapply enqueued_holds in He as (Hq & Hc & _); [|done..]. simpl in Hq. rewrite app_nil_r in Hq.
    split; [done|]. by rewrite (proj2 (Z.ltb_ge _ _)) by lia.
  - destruct Hpost as (free & He). eapply enqueued_holds in He as (Hq & Hc & _); [|done..].
    split; [done|]. pose proof (fits _ _ Hq Hc) as Hlen. rewrite len_app in Hlen.
    change (len (take (Z.to_nat 1) [x])) with 1 in Hlen. by rewrite (proj2 (Z.ltb_lt _ _)) by lia.
Qed.

Lemma spsc_EnqueueBulk xs : ends (EnqueueBulk xs) r (λ '(free, err) r', same_config r r' ∧
  if MaxEnqueueBatch r <? len xs
  then err = Some (batchLengthError "enqueue" (len xs) (MaxEnqueueBatch r) (Capacity r)) ∧
       queue_holds r' (live g) ∧ free = Capacity r - len (live g)
  else if len (live g) + len xs <=? Capacity r
  then err = None ∧ queue_holds r' (live g ++ xs) ∧
       reported free (Capacity r - len (live g) - len xs)
         (p_exactBatchCounts (producer r) = true ∨ xs = [])
  else err = Some ErrFull ∧ queue_holds r' (live g) ∧ free = Capacity r - len (live g)).
Proof.
  pose proof Hsh as (Hi & HP & _ & Hpe & _). pose proof live_len. pose proof (len_nonneg xs).
  eapply ends_mono.
  { apply (alone_P (Capacity r)); [done|apply loop_free_EnqueueBulk|]. intros n.
    by apply safe_EnqueueBulk; [..|apply at_P_start]. }
  intros [free err] r' (g' & Hi' & Hpost & Hr). unfold bulk_enqueued in Hpost.
  unfold MaxEnqueueBatch. destruct err as [e|].
  - destruct Hpost as (He & Hkind).
    eapply enqueued_holds in He as (Hq & Hc & Hle & Hex); [|done..]. simpl in *.
    rewrite app_nil_r in *. split; [done|]. assert (free = Capacity r - len (live g)) as Hfree.
    { apply Hex. destruct xs; [by right; right|]. right; left. unfold len. simpl. lia. }
    destruct (p_maxBatch (producer r) <? len xs); [by subst e|].
    destruct Hkind as [-> Hno]. by rewrite (proj2 (Z.leb_gt _ _)) by lia.
  - destruct Hpost as (Hshort & He).
    eapply enqueued_holds in He as (Hq & Hc & Hle & Hex); [|done..].
    rewrite take_ge in * by (unfold len; lia). split; [done|].
    pose proof (fits _ _ Hq Hc) as Hlen. rewrite len_app in *.
    rewrite (proj2 (Z.ltb_ge _ _)), (proj2 (Z.leb_le _ _)) by lia. split_and!; [done..|].
    split; [lia|]. intros He. rewrite Hex; [lia|]. destruct He; auto.
Qed.

Lemma spsc_EnqueueBurst xs : ends (EnqueueBurst xs) r (λ '(n, free) r', same_config r r' ∧
  let want := Z.min (len xs) (MaxEnqueueBatch r) in
  n = Z.min want (Capacity r - len (live g)) ∧
  queue_holds r' (live g ++ take (Z.to_nat n) xs) ∧
  reported free (Capacity r - len (live g) - n)
    (p_exactBatchCounts (producer r) = true ∨ n < want ∨ want = 0)).
Proof.
  pose proof Hsh as (Hi & HP & _ & Hpe & _). pose proof live_len. pose proof (len_nonneg xs).
  pose proof HP as (_ & _ & Hmb & _). eapply ends_mono.
  { apply (alone_P (Capacity r)); [done|apply loop_free_EnqueueBurst|]. intros n.
    by apply safe_EnqueueBurst; [..|apply at_P_start]. }
  intros [n free] r' (g' & Hi' & (He & Hshort) & Hr).
  pose proof He as [Hn _]. eapply enqueued_holds in He as (Hq & Hc & Hle & Hex); [|done..].
  split; [done|]. unfold MaxEnqueueBatch. set (want := Z.min (len xs) (p_maxBatch (producer r))).
  assert (len (take (Z.to_nat (p_maxBatch (producer r))) xs) = want) as Hwant.
  { unfold want, len in *. rewrite length_take. lia. }
  rewrite Hwant in *. rewrite take_take in *.
  replace (Z.to_nat n `min` Z.to_nat (p_maxBatch (producer r)))%nat with (Z.to_nat n) in * by lia.
  pose proof (fits _ _ Hq Hc) as Hlen. rewrite len_app, len_take in * by lia.
  split_and!; [lia|done|]. split; [lia|]. intros He. rewrite Hex; [lia|].
  destruct He as [|[|He]]; [auto..|]. right; right. apply len_0_nil. lia.
Qed.

Lemma spsc_Dequeue : ends Dequeue r (λ '(v, err) r', same_config r r' ∧
  match live g with
  | x :: l' => v = x ∧ err = None ∧ queue_holds r' l'
  | [] => v = zero ∧ err = Some ErrEmpty ∧ queue_holds r' []
  end).
Proof.
  pose proof Hsh as (Hi & _ & HC & _ & Hw). pose proof live_len. eapply ends_mono.
  { apply (alone_C (Capacity r)); [done|apply loop_free_Dequeue|]. intros n.
    by apply safe_Dequeue; [..|apply at_C_start]. }
  intros [v err] r' (g' & Hi' & Hpost & Hr). destruct err as [e|].
  - destruct Hpost as (-> & -> & Hempty & available & He).
    eapply dequeued_holds in He as (Hq & Hc & _); [|done..]. simpl in Hq.
    assert (live g = []) as Hnil by (apply len_0_nil; pose proof (len_nonneg (live g)); lia).
    rewrite Hnil in *. by split_and!.
  - destruct Hpost as (available & He).
    eapply dequeued_holds in He as (Hq & Hc & Hv & _); [|done..]. simpl in *.
    destruct (live g) as [|x l']; simplify_eq/=. by split_and!.
Qed.

Lemma spsc_DequeueBulk dst : ends (DequeueBulk dst) r (λ '(available, err, dst') r',
  same_config r r' ∧
  if MaxDequeueBatch r <? len dst
  then err = Some (batchLengthError "dequeue" (len dst) (MaxDequeueBatch r) (Capacity r)) ∧
       dst' = dst ∧ queue_holds r' (live g) ∧ available = len (live g)
  else if len dst <=? len (live g)
  then err = None ∧ dst' = take (length dst) (live g) ∧
       queue_holds r' (drop (length dst) (live g)) ∧
       reported available (len (live g) - len dst)
         (c_exactBatchCounts (consumer r) = true ∨ dst = [])
  else err = Some ErrEmpty ∧ dst' = dst ∧ queue_holds r' (live g) ∧ available = len (live g)).
Proof.
  pose proof Hsh as (Hi & _ & HC & _ & Hw). pose proof live_len. pose proof (len_nonneg dst).
  eapply ends_mono.
  { apply (alone_C (Capacity r)); [done|apply loop_free_DequeueBulk|]. intros n.
    by apply safe_DequeueBulk; [..|apply at_C_start]. }
  intros [[available err] dst'] r' (g' & Hi' & Hpost & Hr). unfold bulk_dequeued in Hpost.
  unfold MaxDequeueBatch. destruct err as [e|].
  - destruct Hpost as (-> & He & Hkind).
    eapply dequeued_holds in He as (Hq & Hc & _ & Hle & Hex); [|done..]. simpl in *.
    split; [done|]. assert (available = len (live g)) as Hav.
    { apply Hex. change (len []) with 0. lia. }
    destruct (c_maxBatch (consumer r) <? len dst); [by subst e|].
    destruct Hkind as [-> Hno]. by rewrite (proj2 (Z.leb_gt _ _)) by lia.
  - destruct Hpost as (Hshort & Hlen & He).
    eapply dequeued_holds in He as (Hq & Hc & Hv & Hle & Hex); [|done..].
    assert (length dst' = length dst) as Hl by (unfold len in Hlen; lia). rewrite Hl in *.
    assert (len dst <= len (live g)).
    { rewrite <- Hlen, Hv. unfold len. rewrite length_take. lia. }
    assert (len (drop (length dst) (live g)) = len (live g) - len dst) as Hd.
    { unfold len in *. rewrite length_drop. lia. }
    split; [done|]. rewrite (proj2 (Z.ltb_ge _ _)), (proj2 (Z.leb_le _ _)) by lia.
    split_and!; [done..|]. rewrite Hd in *. split; [lia|]. intros [?|Hnil]; [auto|].
    apply Hex. right; right. by rewrite Hnil.
Qed.

Lemma spsc_DequeueBurst dst : ends (DequeueBurst dst) r (λ '(n, available, dst') r',
  same_config r r' ∧
  let want := Z.min (len dst) (MaxDequeueBatch r) in
  n = Z.min want (len (live g)) ∧
  dst' = take (Z.to_nat n) (live g) ++ drop (Z.to_nat n) dst ∧
  queue_holds r' (drop (Z.to_nat n) (live g)) ∧
  reported available (len (live g) - n)
    (c_exactBatchCounts (consumer r) = true ∨ n < want ∨ want = 0)).
Proof.
  pose proof Hsh as (Hi & _ & HC & _ & Hw). pose proof live_len. pose proof (len_nonneg dst).
  eapply ends_mono.
  { apply (alone_C (Capacity r)); [done|apply loop_free_DequeueBurst|]. intros n.
    by apply safe_DequeueBurst; [..|apply at_C_start]. }
  intros [[n available] dst'] r' (g' & Hi' & (vs & -> & -> & He & Hshort) & Hr).
  pose proof He as [Hn _]. eapply dequeued_holds in He as (Hq & Hc & Hv & Hle & Hex); [|done..].
  split; [done|]. assert (Z.to_nat (len vs) = length vs) as -> by (unfold len; lia).
  assert (len vs <= len (live g)).
  { rewrite Hv. unfold len. rewrite length_take. lia. }
  assert (len (drop (length vs) (live g)) = len (live g) - len vs) as Hd.
  { unfold len in *. rewrite length_drop. lia. }
  rewrite Hd in *. unfold MaxDequeueBatch. split_and!; [lia|by rewrite <- Hv|done|].
  split; [lia|]. auto.
Qed.

Lemma spsc_Count : ends Count r (λ n r', r' = r ∧ n = len (live g)).
Proof.
  pose proof Hsh as (Hi & _ & _ & Hpe & _). pose proof live_len.
  pose proof (pow2_cap_range _ Hcap). pose proof (inv_bounds _ _ _ Hi).
  pose proof (inv_room _ _ _ Hi) as Hroom. rewrite Hpe in Hroom. change (len []) with 0 in Hroom.
  unfold Count. do 3 apply ends_bind, ends_load. apply ends_ret. split; [done|].
  rewrite (inv_released _ _ _ Hi), (inv_published _ _ _ Hi), u32_distance by lia. lia.
Qed.
End calls.

(** The queue as an implementation of the common interface. *)
Definition spsc_api : queue_api (SPSCQueue T) T :=
  QueueApi zero (λ r _ l, queue_holds r l) same_config Capacity MaxEnqueueBatch MaxDequeueBatch
    (λ r, p_exactBatchCounts (producer r)) (λ r, c_exactBatchCounts (consumer r))
    Enqueue Dequeue EnqueueBulk EnqueueBurst DequeueBulk DequeueBurst Count.

#[export] Instance spsc_fifo : FifoQueue spsc_api.
Proof.
  split.
  - intros r k l (Hcap & g & Hsh & ->). split_and!; intros;
      [by apply spsc_Enqueue | by apply spsc_EnqueueBulk | by apply spsc_EnqueueBurst].
  - intros r k l (Hcap & g & Hsh & ->). split_and!; intros;
      [by apply spsc_Dequeue | by apply spsc_DequeueBulk | by apply spsc_DequeueBurst|].
    eapply ends_mono; [by apply spsc_Count|]. intros n r' [-> ->].
    by split_and!; [|split; [|by eexists]|].
  - intros r k. apply queue_holds_len.
  - intros r k l (Hcap & g & (_ & HP & HC & _) & _). pose proof (pow2_cap_range _ Hcap).
    split; [done|]. split; [apply HP|apply HC].
  - intros r r' (? & [? _] & [? _]). by split_and!.
Qed.

(** The producer methods run to completion and act on the queue as the bounded FIFO does:
    [Enqueue] appends unless the queue is full; [EnqueueBulk] appends all items or none and
    rejects an oversized request with the batch length error; [EnqueueBurst] appends the longest
    prefix that fits the limit and the room. Reported free counts never exceed the free slots and
    are exact when configured, after a short or failed call, and for an empty request. *)
Theorem spsc_enqueue_spec r k l : queue_holds r l → enqueue_spec spsc_api r k l.
Proof. apply (fifo_enqueue spsc_api r k l). Qed.

(** The consumer methods run to completion and act on the queue as the bounded FIFO does:
    [Dequeue] returns the oldest value, or the zero value and [ErrEmpty]; [DequeueBulk] fills the
    destination with the oldest values or leaves it unchanged; [DequeueBurst] fills the longest
    prefix available and leaves the rest of the destination alone. Reported counts never exceed
    the entries left and are exact when configured, after a short or failed call, and for an
    empty request. *)
Theorem spsc_dequeue_spec r k l : queue_holds r l → dequeue_spec spsc_api r k l.
Proof. apply (fifo_dequeue spsc_api r k l). Qed.

(** ** Construction and reset *)

Definition empty_ghost : ghost := Ghost [] [] 0 0.

(** A queue at position zero whose slots are all zero. *)
Definition pristine (cap : Z) r : Prop :=
  q_entries r = replicate (Z.to_nat cap) zero ∧
  p_mask (producer r) = cap - 1 ∧ p_cursor (producer r) = 0 ∧ p_cachedConsumer (producer r) = 0 ∧
  p_published (producer r) = 0 ∧ 1 <= p_maxBatch (producer r) <= cap ∧
  c_mask (consumer r) = cap - 1 ∧ c_cursor (consumer r) = 0 ∧ c_cachedProducer (consumer r) = 0 ∧
  c_published (consumer r) = 0 ∧ 1 <= c_maxBatch (consumer r) <= cap.

Lemma pristine_holds cap r : pow2_cap cap → pristine cap r → state_holds cap r empty_ghost.
Proof.
  intros Hcap (He & Hpm & Hpc & Hpca & Hpp & Hpb & Hcm & Hcc & Hcca & Hcp & Hcb).
  pose proof (pow2_cap_range _ Hcap).
  assert (len (q_entries r) = cap) as Hl by (rewrite He; unfold len; rewrite length_replicate; lia).
  split_and!; [|split_and!..|done|done]; try done; try (simpl; change (len []) with 0; lia).
  - constructor; simpl; change (len []) with 0; try done; try lia.
    intros _ q Hq. unfold slot. rewrite Hl, He. apply lookup_replicate_2.
    pose proof (mod_range cap q). lia.
  - exists 0. simpl. change (len []) with 0. split_and!; [done|lia..].
  - exists 0. simpl. change (len []) with 0. split_and!; [done|lia..].
Qed.

Lemma pristine_queue cap r : pow2_cap cap → pristine cap r → queue_holds r [] ∧ Capacity r = cap.
Proof.
  intros Hcap Hp. pose proof (pristine_holds cap r Hcap Hp) as Hsh. pose proof Hsh as [Hi _].
  pose proof (Capacity_eq cap r _ Hcap Hi) as Hc. split; [|done]. split; [by rewrite Hc|].
  exists empty_ghost. by rewrite Hc.
Qed.

Lemma NewSPSCQueue_pristine count options r :
  NewSPSCQueue count options = inr r → pow2_cap count ∧ pristine count r.
Proof.
  unfold NewSPSCQueue. destruct (resolveConfig _ _ _ _ _ _) as [|cfg] eqn:Hcfg; [done|].
  intros [= <-]. apply resolveConfig_ok in Hcfg as (Hcap & He & Hd & _). split; [done|].
  pose proof (pow2_cap_range _ Hcap).
  assert (u32 (count -i 1) = count - 1) as Hm.
  { rewrite i64_small by (unfold is_int, minInt, maxInt; lia). by apply u32_small; unfold is_u32; lia. }
  unfold pristine. simpl. rewrite Hm, !u32_small by (unfold is_u32; lia). split_and!; done || lia.
Qed.

Lemma spsc_new_ok count options r :
  NewSPSCQueue count options = inr r →
  queue_holds r [] ∧ Capacity r = count ∧
  let cfg := configured count modeSingle modeSingle options in
  MaxEnqueueBatch r = maxEnqueueBatch cfg ∧ MaxDequeueBatch r = maxDequeueBatch cfg.
Proof.
  intros Hnew. pose proof Hnew as (Hcap & Hp)%NewSPSCQueue_pristine.
  destruct (pristine_queue count r Hcap Hp) as [Hq Hc]. split; [done|]. split; [done|].
  unfold NewSPSCQueue in Hnew. destruct (resolveConfig _ _ _ _ _ _) as [|cfg] eqn:Hcfg; [done|].
  rewrite (resolveConfig_configured _ _ _ _ _ _ _ Hcfg). injection Hnew as <-.
  apply resolveConfig_ok in Hcfg as (_ & He & Hd & _). pose proof (pow2_cap_range _ Hcap).
  split; apply u32_small; unfold is_u32; lia.
Qed.

(** A constructed queue is empty, has the requested capacity and keeps its batch limits;
    [Reset] returns any queue to that state, with every slot zero and the configuration kept. *)
Theorem spsc_new_reset_spec :
  (∀ count options r, NewSPSCQueue count options = inr r →
     queue_holds r [] ∧ Capacity r = count ∧
     1 <= MaxEnqueueBatch r <= count ∧ 1 <= MaxDequeueBatch r <= count) ∧
  (∀ r l, queue_holds r l →
     ends Reset r (λ _ r', queue_holds r' [] ∧ same_config r r' ∧
       q_entries r' = replicate (Z.to_nat (Capacity r)) zero)).
Proof.
  split.
  - intros count options r (Hcap & Hp)%NewSPSCQueue_pristine.
    destruct (pristine_queue count r Hcap Hp) as [Hq Hc].
    destruct Hp as (_ & _ & _ & _ & _ & Hpb & _ & _ & _ & _ & Hcb).
    unfold MaxEnqueueBatch, MaxDequeueBatch. split_and!; done || lia.
  - intros r l (Hcap & g & (Hi & HP & HC & _) & ->). unfold Reset.
    pose proof (inv_len _ _ _ Hi) as Hl. pose proof (pow2_cap_range _ Hcap).
    apply ends_bind, ends_clear_all; [simpl; lia|].
    do 5 apply ends_bind, ends_modify. apply ends_modify.
    assert (length (q_entries r) = Z.to_nat (Capacity r)) as Hlen by (unfold len in Hl; lia).
    set (r' := set_c_published _ _). assert (pristine (Capacity r) r') as Hp.
    { destruct HP as (Hpm & _ & Hpb & _), HC as (Hcm & _ & Hcb & _).
      split_and!; simpl; rewrite ?Hlen; done || lia. }
    destruct (pristine_queue _ _ Hcap Hp) as [Hq Hc]. split_and!; [done| |apply Hp].
    split_and!; done.
Qed.

(** ** A producer, a consumer and observers at the same time *)

Inductive enq_op := OEnqueue (item : T) | OEnqueueBulk (items : list T) | OEnqueueBurst (items : list T).
Inductive deq_op := ODequeue | ODequeueBulk (dst : list T) | ODequeueBurst (dst : list T).

(** [accepted err xs]: [xs] unless the call failed. *)
Definition accepted (err : option error) (xs : list T) : list T :=
  match err with None => xs | Some _ => [] end.

(** The items a producer call accepted, and the values a consumer call delivered. *)
Definition run_enq (o : enq_op) : M (list T) :=
  match o with
  | OEnqueue item => err ← Enqueue item; mret (accepted err [item])
  | OEnqueueBulk items => '(_, err) ← EnqueueBulk items; mret (accepted err items)
  | OEnqueueBurst items => '(n, _) ← EnqueueBurst items; mret (take (Z.to_nat n) items)
  end.

Definition run_deq (o : deq_op) : M (list T) :=
  match o with
  | ODequeue => '(v, err) ← Dequeue; mret (accepted err [v])
  | ODequeueBulk dst => '(_, err, dst') ← DequeueBulk dst; mret (accepted err dst')
  | ODequeueBurst dst => '(n, _, dst') ← DequeueBurst dst; mret (take (Z.to_nat n) dst')
  end.

(** A goroutine returns the values it moved, an observer the count it saw. *)
Definition producer_thread (os : list enq_op) : M (list T + Z) :=
  rs ← collect os run_enq; mret (inl (concat rs)).
Definition consumer_thread (os : list deq_op) : M (list T + Z) :=
  rs ← collect os run_deq; mret (inl (concat rs)).
Definition observer_thread : M (list T + Z) := n ← Count; mret (inr n).

Section threads.
Context (cap : Z) (Hcap : pow2_cap cap).

Definition producer_at (h : list T) (y : SPSCQueue T * ghost) : Prop :=
  ∃ p t, idle_P cap p h t ∧ at_P p h [] t y.

Definition consumer_at (vs : list T) (y : SPSCQueue T * ghost) : Prop :=
  ∃ c h, idle_C cap c h (len vs) ∧ at_C c h (len vs) (len vs) y ∧ vs = take (length vs) h.

Lemma producer_at_rely h x y : producer_at h x → rely_P x y → producer_at h y.
Proof. intros (p & t & Hi & Hat) Hr. exists p, t. split; [done|]. by eapply at_P_rely. Qed.

Lemma consumer_at_rely vs x y : consumer_at vs x → rely_C x y → consumer_at vs y.
Proof.
  intros (c & h & Hi & Hat & Hv) Hr. exists c, h. split_and!; [done| |done]. by eapply at_C_rely.
Qed.

Lemma enqueued_at exact p h t items n free y :
  enqueued cap exact p h t items n free y → producer_at (h ++ take (Z.to_nat n) items) y.
Proof. intros (_ & p' & t' & _ & Hi & Hat & _). by exists p', t'. Qed.

Lemma dequeued_at exact c h vs want got available y :
  vs = take (length vs) h → len vs <= len h →
  dequeued cap exact c h (len vs) want got available y → consumer_at (vs ++ got) y.
Proof.
  intros Hvs Hle (_ & c' & h' & _ & Hi & Hat & Hpre & Hgot & _). exists c', h'.
  rewrite len_app. split_and!; [done..|]. rewrite length_app, <- take_take_drop.
  rewrite Hgot at 1. unfold len. rewrite Nat2Z.id. f_equal. rewrite Hvs at 1.
  destruct Hpre as [k ->]. rewrite take_app_le; [done|]. unfold len in Hle. lia.
Qed.

Lemma safe_run_enq o h n y :
  producer_at h y → safe (inv cap) (quiet := never) rely_P rely_C (λ acc, producer_at (h ++ acc)) n (run_enq o) y.
Proof.
  intros (p & t & Hi & Hat). pose proof Hi as (_ & _ & Hmb & _). destruct o as [x|xs|xs]; cbn [run_enq].
  - safe_seq by (by apply (safe_Enqueue cap Hcap p h t)).
    intros err z m _ Hpost. apply safe_ret. intros r g Hr _. eapply producer_at_rely; [|exact Hr].
    destruct err as [e|].
    + destruct Hpost as (_ & _ & free & He). by apply enqueued_at in He.
    + destruct Hpost as (free & He). by apply enqueued_at in He.
  - safe_seq by (by apply (safe_EnqueueBulk cap Hcap p h t)).
    intros [free err] z m _ Hpost. apply safe_ret. intros r g Hr _.
    eapply producer_at_rely; [|exact Hr]. unfold bulk_enqueued in Hpost. destruct err as [e|].
    + destruct Hpost as (He & _). by apply enqueued_at in He.
    + destruct Hpost as (_ & He). apply enqueued_at in He.
      by rewrite take_ge in He by (unfold len; lia).
  - safe_seq by (by apply (safe_EnqueueBurst cap Hcap p h t)).
    intros [k free] z m _ [He _]. apply safe_ret. intros r g Hr _.
    eapply producer_at_rely; [|exact Hr]. pose proof He as [Hk _]. apply enqueued_at in He.
    rewrite take_take in He. unfold len in Hk. rewrite length_take in Hk.
    by replace (Z.to_nat k `min` Z.to_nat (p_maxBatch p))%nat with (Z.to_nat k) in He by lia.
Qed.

Lemma safe_run_deq o vs n y :
  consumer_at vs y → safe (inv cap) (quiet := never) rely_C rely_P (λ got, consumer_at (vs ++ got)) n (run_deq o) y.
Proof.
  intros (c & h & Hi & Hat & Hvs). pose proof Hi as (_ & _ & _ & _ & cp & _ & Hcp & _).
  destruct o as [|dst|dst]; cbn [run_deq].
  - safe_seq by (by apply (safe_Dequeue cap Hcap c h (len vs))).
    intros [v err] z m _ Hpost. apply safe_ret. intros r g Hr _. eapply consumer_at_rely; [|exact Hr].
    destruct err as [e|].
    + destruct Hpost as (_ & _ & _ & available & He). by eapply dequeued_at in He; [..|lia].
    + destruct Hpost as (available & He). by eapply dequeued_at in He; [..|lia].
  - safe_seq by (by apply (safe_DequeueBulk cap Hcap c h (len vs))).
    intros [[available err] dst'] z m _ Hpost. apply safe_ret. intros r g Hr _.
    eapply consumer_at_rely; [|exact Hr]. unfold bulk_dequeued in Hpost. destruct err as [e|].
    + destruct Hpost as (_ & He & _). by eapply dequeued_at in He; [..|lia].
    + destruct Hpost as (_ & _ & He). by eapply dequeued_at in He; [..|lia].
  - safe_seq by (by apply (safe_DequeueBurst cap Hcap c h (len vs))).
    intros [[k available] dst'] z m _ (got & -> & -> & He & _). apply safe_ret. intros r g Hr _.
    eapply consumer_at_rely; [|exact Hr]. eapply dequeued_at in He; [|done|lia].
    unfold len. by rewrite Nat2Z.id, take_app_length.
Qed.

Lemma concat_snoc (rs : list (list T)) xs : concat (rs ++ [xs]) = concat rs ++ xs.
Proof. rewrite concat_app. simpl. by rewrite app_nil_r. Qed.

Lemma safe_producer_thread os n y :
  producer_at [] y →
  safe (inv cap) (quiet := never) rely_P rely_C (λ a y, ∃ sent, a = inl sent ∧ producer_at sent y) n
    (producer_thread os) y.
Proof.
  intros Hy. unfold producer_thread.
  safe_seq by (apply (safe_collect _ _ _ _ _ (λ rs y, producer_at (concat rs) y));
    [intros; by eapply producer_at_rely|done|
     intros i o rs z m _ _ Hz; eapply safe_post; [by apply safe_run_enq|];
     intros acc z' Hz'; by rewrite concat_snoc]).
  intros rs z m _ [_ Hz]. apply safe_ret. intros r g Hr _. eexists. split; [done|].
  by eapply producer_at_rely.
Qed.

Lemma safe_consumer_thread os n y :
  consumer_at [] y →
  safe (inv cap) (quiet := never) rely_C rely_P (λ a y, ∃ got, a = inl got ∧ consumer_at got y) n
    (consumer_thread os) y.
Proof.
  intros Hy. unfold consumer_thread.
  safe_seq by (apply (safe_collect _ _ _ _ _ (λ rs y, consumer_at (concat rs) y));
    [intros; by eapply consumer_at_rely|done|
     intros i o rs z m _ _ Hz; eapply safe_post; [by apply safe_run_deq|];
     intros acc z' Hz'; by rewrite concat_snoc]).
  intros rs z m _ [_ Hz]. apply safe_ret. intros r g Hr _. eexists. split; [done|].
  by eapply consumer_at_rely.
Qed.

Definition rely_of (i : nat) : SPSCQueue T * ghost → SPSCQueue T * ghost → Prop :=
  match i with 0%nat => rely_P | 1%nat => rely_C | _ => λ _ _, True end.
Definition guar_of (i : nat) : SPSCQueue T * ghost → SPSCQueue T * ghost → Prop :=
  match i with 0%nat => rely_C | 1%nat => rely_P | _ => eq end.
Definition post_of (i : nat) (a : list T + Z) (y : SPSCQueue T * ghost) : Prop :=
  match i with
  | 0%nat => ∃ sent, a = inl sent ∧ producer_at sent y
  | 1%nat => ∃ got, a = inl got ∧ consumer_at got y
  | _ => ∃ n, a = inr n ∧ 0 <= n <= cap
  end.

#[export] Instance rely_of_preorder i : PreOrder (rely_of i).
Proof. destruct i as [|[|i]]; [apply _..|]. split; done. Qed.

Lemma guar_of_rely i j x y : i ≠ j → guar_of i x y → rely_of j x y.
Proof.
  intros Hij Hg. destruct i as [|[|i]], j as [|[|j]]; simpl in *; try done; by subst.
Qed.

Lemma safe_observer_thread n y :
  safe (inv cap) (quiet := never) (λ _ _, True) eq (λ a (_ : SPSCQueue T * ghost), ∃ k, a = inr k ∧ 0 <= k <= cap) n
    observer_thread y.
Proof.
  pose proof (pow2_cap_range _ Hcap).
  assert (PreOrder (λ _ _ : SPSCQueue T * ghost, True)) by (split; done).
  unfold observer_thread, Count.
  eapply safe_bind; [done| |].
  - apply safe_load; [apply _|]. intros r0 g0 _ Hi0. apply safe_load; [apply _|]. intros r1 g1 _ Hi1.
    apply safe_load; [apply _|]. intros r2 g2 _ Hi2. apply safe_ret. intros r3 g3 _ _.
    instantiate (1 := λ k _, 0 <= k <= cap). simpl. rewrite (Capacity_eq cap r2 g2) by done.
    pose proof (u32_range (p_published (producer r1) - c_published (consumer r0))).
    unfold is_u32 in *. lia.
  - intros k z m _ Hk. apply safe_ret. intros r g _ _. by exists k.
Qed.
End threads.

(** C14. First in, first out under concurrency. A producer making any sequence of calls, a consumer
    making any sequence of calls and any number of observers run interleaved at every memory
    access. At every moment of every execution there is one history of published values: a
    producer that has finished put exactly its accepted values there in order, a consumer that
    has finished received a prefix of it, and when both have finished the queue holds exactly the
    rest, so no value is lost, duplicated or reordered. Observers see counts between zero and the
    capacity, and no goroutine ever panics or gets stuck. *)
Theorem spsc_concurrent_fifo count options q enqs deqs observers r ts :
  NewSPSCQueue count options = inr q →
  rtc conf_step (q, producer_thread enqs :: consumer_thread deqs ::
                    replicate observers observer_thread) (r, ts) →
  (∃ history,
    (∀ sent, ts !! 0%nat = Some (Ret (inl sent)) → sent = history) ∧
    (∀ got, ts !! 1%nat = Some (Ret (inl got)) → got `prefix_of` history) ∧
    (∀ sent got, ts !! 0%nat = Some (Ret (inl sent)) → ts !! 1%nat = Some (Ret (inl got)) →
       queue_holds r (drop (length got) history))) ∧
  (∀ i n, ts !! i = Some (Ret (inr n)) → 0 <= n <= count) ∧
  (∀ i p, ts !! i = Some p → result p = None → step p r ≠ []).
Proof.
  intros (Hcap & Hpris)%NewSPSCQueue_pristine Hreach.
  pose proof (pristine_holds count q Hcap Hpris) as (Hi & HP & HC & _).
  destruct (safe_threads (inv count) (λ _, never) rely_of guar_of (post_of count) guar_of_rely empty_ghost
    (q, producer_thread enqs :: consumer_thread deqs :: replicate observers observer_thread) (r, ts))
    as (g & Hig & Hpost & Hprog); [|done|]; simpl in *.
  { intros n. split; [done|]. intros [|[|i]] p Hp; simpl in Hp; simplify_eq.
    - apply safe_producer_thread; [done|]. eexists _, _. split; [exact HP|by split_and!].
    - apply safe_consumer_thread; [done|]. eexists _, _. split_and!; [exact HC|by split_and!|done].
    - apply lookup_replicate in Hp as [-> _]. by apply safe_observer_thread. }
  split_and!; [|intros [|[|i]] n Hn; apply Hpost in Hn; simpl in Hn; naive_solver|].
  2: { intros i p Hp Hr Hnil. by destruct (Hprog i p Hp Hr Hnil). }
  exists (hist g). split_and!.
  - intros sent Hs. apply Hpost in Hs as (? & [= <-] & p & t & _ & (_ & <- & _)). done.
  - intros got Hg. apply Hpost in Hg as (? & [= <-] & c & h & _ & (_ & Hpre & _) & Hv).
    rewrite Hv. trans h; [apply prefix_take|done].
  - intros sent got Hs Hg.
    apply Hpost in Hs as (? & [= <-] & p & t & HiP & (HpP & Hh & Hpe & Ht)).
    apply Hpost in Hg as (? & [= <-] & c & h & HiC & (HcC & Hpre & Htk & Hw) & Hv). simpl in *.
    pose proof (Capacity_eq count r g Hcap Hig) as Hcr. split; [by rewrite Hcr|].
    exists g. split; [|unfold live; rewrite Htk; unfold len; by rewrite Nat2Z.id].
    unfold state_holds. rewrite Hcr, HpP, HcC, Hh, Htk. pose proof (prefix_len _ _ Hpre).
    split_and!; [done|apply (idle_P_mono _ p sent t); [done|lia]| |done|congruence].
    destruct HiC as (? & ? & ? & ? & cp & ? & ? & ?). split_and!; [done|done|lia..|].
    exists cp. rewrite <- Hh. split_and!; [done|lia..].
Qed.
End queue.

(** ** Witnesses *)

(** Four slots, dequeue batches of at most two. *)
Definition demo : SPSCQueue Z :=
  MkQueue (MkProducer 3 0 0 4 false 0) (MkConsumer 3 0 0 true 2 false 0) [0; 0; 0; 0].

Lemma spsc_demo_new : NewSPSCQueue 0 4 [WithMaxDequeueBatch 2] = inr demo.
Proof. reflexivity. Qed.

Lemma spsc_demo_holds : queue_holds 0 demo [].
Proof.
  destruct (NewSPSCQueue_pristine 0 4 _ _ spsc_demo_new) as [Hcap Hp].
  by apply (pristine_queue 0 4).
Qed.

Lemma spsc_enqueue_witness :
  ends (EnqueueBurst [7; 8; 9; 10; 11]) demo (λ '(n, free) r',
    n = 4 ∧ queue_holds 0 r' [7; 8; 9; 10] ∧ free <= 0).
Proof.
  destruct (spsc_enqueue_spec 0 demo 5 [] spsc_demo_holds) as (_ & _ & Hburst).
  eapply ends_mono; [apply (Hburst [7; 8; 9; 10; 11]); unfold len; simpl; lia|].
  intros [n free] r' (_ & Hn & Hq & Hle & _). change (n = 4) in Hn. subst n.
  split; [reflexivity|]. split; [exact Hq|exact Hle].
Defined.

Lemma spsc_dequeue_witness :
  ends (Dequeue 0) demo (λ '(v, err) r', v = 0 ∧ err = Some ErrEmpty).
Proof.
  destruct (spsc_dequeue_spec 0 demo 0 [] spsc_demo_holds) as (Hdeq & _).
  eapply ends_mono; [exact Hdeq|]. intros [v err] r' (_ & Hv & He & _). split; [exact Hv|exact He].
Defined.

(** The producer runs first, then the consumer, while an observer waits. *)
Definition demo_threads : list (prog (SPSCQueue Z) (list Z + Z)) :=
  [producer_thread [OEnqueue 7; OEnqueueBulk [8; 9]];
   consumer_thread 0 [ODequeueBurst [0; 0; 0]]; observer_thread].

Lemma demo_run : ∃ r, rtc conf_step (demo, demo_threads)
  (r, <[1%nat := Ret (inl [7; 8])]> (<[0%nat := Ret (inl [7; 8; 9])]> demo_threads)).
Proof.
  eexists. etrans.
  - eapply (exec_conf 100 _ _ _ _ _ 0); [|reflexivity]. vm_compute. reflexivity.
  - eapply (exec_conf 100 _ _ _ _ _ 1); [|reflexivity]. vm_compute. reflexivity.
Qed.

Lemma spsc_concurrent_witness : ∃ r, queue_holds 0 r [9].
Proof.
  destruct demo_run as [r Hr]. exists r.
  destruct (spsc_concurrent_fifo 0 4 [WithMaxDequeueBatch 2] demo
    [OEnqueue 7; OEnqueueBulk [8; 9]] [ODequeueBurst [0; 0; 0]] 1 r _ spsc_demo_new Hr)
    as ((h & Hs & _ & Hq) & _).
  rewrite <- (Hs [7; 8; 9] eq_refl) in Hq. exact (Hq [7; 8; 9] [7; 8] eq_refl eq_refl).
Defined.
End SPSC.
