(* ===== verification/DpdkRing.v ===== *)
(** * Concurrent sides of the dpdk queues (src/ring/dpdk/ring.go)

    The helpers of ring.go: packed index words, bounded spinning, the wait for the tail, the
    head-to-tail distance and relaxed tail sync. Then the concurrent side that MPMCQueue has
    twice, MPSCQueue for producers and SPMCQueue for consumers: reservation with
    compare-and-swap, slot access, and ordered or relaxed publication. The three sources repeat
    that code with other field names; here it is written once over a [side], and the queue files
    instantiate it. *)

From Stdlib Require Import ZArith Lia.
From stdpp Require Import prelude list strings.
From S2P Require Import Prelude Prog RingCore RingSlots RingSpec RingCalls DpdkOptions.

Module DpdkRing.
Import Prog Ring Slots RingSpec RingCalls DpdkOptions.

(** ** Packed index words *)

Definition pack (pos cnt : Z) : Z := Z.lor (u64 (Z.shiftl pos 32)) cnt.
Definition unpackPos (word : Z) : Z := u32 (Z.shiftr word 32).
Definition unpackCnt (word : Z) : Z := u32 word.

Definition nextTail (tail head : Z) : Z :=
  let cnt := unpackCnt tail +32 1 in
  let pos := unpackPos tail in
  let pos := if cnt =? unpackCnt head then unpackPos head else pos in
  pack pos cnt.

Lemma pack_eq pos cnt : is_u32 pos → is_u32 cnt → pack pos cnt = pos * 2 ^ 32 + cnt.
Proof. apply join32_eq. Qed.

Lemma unpackPos_pack pos cnt : is_u32 pos → is_u32 cnt → unpackPos (pack pos cnt) = pos.
Proof. intros Hp Hc. unfold unpackPos. rewrite pack_eq by done. by apply join32_hi. Qed.

Lemma unpackCnt_pack pos cnt : is_u32 pos → is_u32 cnt → unpackCnt (pack pos cnt) = cnt.
Proof. intros Hp Hc. unfold unpackCnt. rewrite pack_eq by done. by apply join32_lo. Qed.

Lemma pack_unpack word : is_u64 word → pack (unpackPos word) (unpackCnt word) = word.
Proof.
  intros Hw. rewrite pack_eq by apply u32_range. unfold unpackPos, unpackCnt.
  rewrite Z.shiftr_div_pow2 by lia. rewrite (u32_small (word / 2 ^ 32)).
  - unfold u32. pose proof (Z.div_mod word (2 ^ 32)). lia.
  - unfold is_u32, is_u64 in *. split; [apply Z.div_pos; lia|]. apply Z.div_lt_upper_bound; lia.
Qed.

(** Index words round trip: a packed position and counter unpack to themselves, and every
    64-bit word is the packing of its own halves. *)
Lemma pack_roundtrip :
  (∀ pos cnt, is_u32 pos → is_u32 cnt →
     unpackPos (pack pos cnt) = pos ∧ unpackCnt (pack pos cnt) = cnt ∧ is_u64 (pack pos cnt)) ∧
  (∀ word, is_u64 word → pack (unpackPos word) (unpackCnt word) = word).
Proof.
  split; [|apply pack_unpack]. intros pos cnt Hp Hc.
  split_and!; [by apply unpackPos_pack|by apply unpackCnt_pack|].
  rewrite pack_eq by done. unfold is_u32, is_u64 in *. lia.
Qed.

(** ** Waiting and tail sync *)
Section helpers.
Context {S : Type}.
Implicit Types head tail mirror : cell S.

(** [for range spins { ... }], leaving early with the [Some] of the body. *)
Definition for_spins {B} (spins : Z) (body : prog S (option B)) : prog S (option B) :=
  loop (λ i : Z,
    if spins <=? i then mret (inr None)
    else r ← body; mret (match r with Some b => inr (Some b) | None => inl (i + 1) end)) 0.

Definition spinForTail tail (want spins : Z) : prog S bool :=
  r ← for_spins spins (v ← Load tail; mret (if v =? want then Some tt else None));
  mret (match r with Some _ => true | None => false end).

(** [runtime.Gosched] only lets other goroutines run. *)
Definition waitForTail tail (want spins : Z) : prog S unit :=
  seen ← spinForTail tail want spins;
  if seen : bool then mret tt
  else forever (v ← Load tail; mret (if v =? want then Some tt else None)).

Definition headWithinDistance head tail (htdMax : Z) : prog S (Z * bool) :=
  t ← Load tail;
  let tailPos := unpackPos t in
  word ← Load head;
  mret (word, unpackPos word -32 tailPos <=? htdMax).

Definition waitHeadTailDistance head tail (htdMax spins : Z) : prog S Z :=
  let check := '(word, ok) ← headWithinDistance head tail htdMax;
               mret (if ok : bool then Some word else None) in
  r ← for_spins spins check;
  match r with
  | Some word => mret word
  | None => forever check
  end.

Definition publishRelaxed head tail : prog S bool :=
  forever (
    old ← Load tail;
    h ← Load head;
    let next := nextTail old h in
    swapped ← CompareAndSwap tail old next;
    mret (if swapped : bool then Some (negb (unpackPos next =? unpackPos old)) else None)).

Definition raiseMirror mirror tail : prog S unit :=
  forever (
    mirrorPos ← Load mirror;
    t ← Load tail;
    let tailPos := unpackPos t in
    if i32 (tailPos -32 mirrorPos) <=? 0 then mret (Some tt)
    else
      swapped ← CompareAndSwap mirror mirrorPos tailPos;
      mret (if swapped : bool then Some tt else None)).
End helpers.

(** ** A concurrent side *)

(** The reservation and publication words of a side ([cached] is [cachedConsumer] or
    [cachedProducer]) and its configuration. *)
Record sideWords := SideWords {
  headRTS : Z;
  head : Z;
  cached : Z;
  tailRTS : Z;
  published : Z;
}.

Record sideConfig := SideConfig {
  mask : Z;
  htdMax : Z;
  spinsBeforeYield : Z;
  relaxed : bool;
}.

Definition set_headRTS (x : Z) (w : sideWords) := SideWords x (head w) (cached w) (tailRTS w) (published w).
Definition set_head (x : Z) (w : sideWords) := SideWords (headRTS w) x (cached w) (tailRTS w) (published w).
Definition set_cached (x : Z) (w : sideWords) := SideWords (headRTS w) (head w) x (tailRTS w) (published w).
Definition set_tailRTS (x : Z) (w : sideWords) := SideWords (headRTS w) (head w) (cached w) x (published w).
Definition set_published (x : Z) (w : sideWords) := SideWords (headRTS w) (head w) (cached w) (tailRTS w) x.

Inductive role := Producer | Consumer.

(** Where a queue keeps a side, and the position the opposite side has published. *)
Record side (S T : Type) `{Slots S T} := Side {
  side_role : role;
  words : S → sideWords;
  set_words : sideWords → S → S;
  config : S → sideConfig;
  opposite : S → Z;
  words_set w s : words (set_words w s) = w;
  set_words_set w w' s : set_words w' (set_words w s) = set_words w' s;
  set_words_same s : set_words (words s) s = s;
  words_entries es s : words (set_entries es s) = words s;
  entries_words w s : entries (set_words w s) = entries s;
  words_commute w es s : set_words w (set_entries es s) = set_entries es (set_words w s);
  config_words w s : config (set_words w s) = config s;
  config_entries es s : config (set_entries es s) = config s;
  opposite_words w s : opposite (set_words w s) = opposite s;
}.
Arguments side_role {S T _} _.
Arguments words {S T _} _ _.
Arguments set_words {S T _} _ _ _.
Arguments config {S T _} _ _.
Arguments opposite {S T _} _ _.

(** A producer is free to use what the consumers released, a consumer what was published. *)
Definition room_of (r : role) (capacity published head : Z) : Z :=
  match r with
  | Producer => capacity +32 published -32 head
  | Consumer => published -32 head
  end.

(** The cached position does not admit the request. *)
Definition cache_short (r : role) (capacity cached head requested : Z) : bool :=
  match r with
  | Producer => capacity -32 requested <? head -32 cached
  | Consumer => capacity -32 requested <? cached -32 head -32 requested
  end.

Section sides.
Context {S T : Type} `{!Slots S T} (R : side S T).
Abbreviation M := (prog S).

Definition word_cell (get : sideWords → Z) (set : Z → sideWords → sideWords) : cell S :=
  Cell (λ s, get (words R s)) (λ x s, set_words R (set x (words R s)) s).

Definition headRTS_cell := word_cell headRTS set_headRTS.
Definition head_cell := word_cell head set_head.
Definition cached_cell := word_cell cached set_cached.
Definition tailRTS_cell := word_cell tailRTS set_tailRTS.
Definition published_cell := word_cell published set_published.

(** The head word an attempt starts from: after the distance wait on a relaxed side. *)
Definition captureHead : M Z :=
  cfg ← load (config R);
  if relaxed cfg
  then waitHeadTailDistance headRTS_cell tailRTS_cell (htdMax cfg) (spinsBeforeYield cfg)
  else Load head_cell.

(** One attempt to reserve [requested] positions from the head word [word]: the start, the
    positions reserved, the room left, and whether the caller should retry. *)
Definition attempt (word requested : Z) (fixed exact : bool) : M (Z * Z * Z * bool) :=
  cfg ← load (config R);
  let head := if relaxed cfg then unpackPos word else u32 word in
  let capacity := mask cfg +32 1 in
  cached ← Load cached_cell;
  published ← (if exact || (requested =? 0) ||
                  cache_short (side_role R) capacity cached head requested
               then published ← load (opposite R);
                    _ ← (if published =? cached then mret tt else Store cached_cell published);
                    mret published
               else mret cached);
  let room := room_of (side_role R) capacity published head in
  if capacity <? room then mret (head, 0, capacity, negb (requested =? 0))
  else if fixed && (room <? requested) then mret (head, 0, room, false)
  else
    let count := Z.min requested room in
    if count =? 0 then mret (head, 0, room, false)
    else
      swapped ← (if relaxed cfg
                 then CompareAndSwap headRTS_cell word
                        (pack (head +32 count) (unpackCnt word +32 1))
                 else CompareAndSwap head_cell head (head +32 count));
      mret (if swapped : bool then (head, count, room -32 count, false) else (head, 0, 0, true)).

(** Attempts until one does not ask for a retry. *)
Definition reserve (requested : Z) (fixed exact : bool) : M (Z * Z * Z) :=
  forever (
    word ← captureHead;
    '(start, count, remaining, retry) ← attempt word requested fixed exact;
    mret (if retry : bool then None else Some (start, count, remaining))).

(** The current head position. *)
Definition headPosition : M Z :=
  cfg ← load (config R);
  if relaxed cfg then word ← Load headRTS_cell; mret (unpackPos word)
  else Load head_cell.

Definition publishOrdered (start count : Z) : M unit :=
  cfg ← load (config R);
  _ ← waitForTail published_cell start (spinsBeforeYield cfg);
  Store published_cell (start +32 count).

Definition publishRelaxedSide : M unit :=
  moved ← publishRelaxed headRTS_cell tailRTS_cell;
  if moved : bool then raiseMirror published_cell tailRTS_cell else mret tt.

Definition publish (start count : Z) : M unit :=
  cfg ← load (config R);
  if relaxed cfg then publishRelaxedSide else publishOrdered start count.

Definition writeInterval (start : Z) (items : list T) : M unit :=
  cfg ← load (config R); writeSlots (mask cfg) start items.

Definition readInterval (zero : T) (clearOnDequeue : bool) (start n : Z) : M (list T) :=
  cfg ← load (config R); readSlots (mask cfg) zero clearOnDequeue start n.
End sides.

(** ** Runs alone *)
Section alone_helpers.
Context {S : Type}.
Implicit Types (c : cell S) (s : S).

(** A check that succeeds is seen by the spin loop, or by the caller when spinning is off. *)
Lemma ends_for_spins {B} spins (body : prog S (option B)) s (Q : option B → S → Prop) b :
  (∀ Q' : option B → S → Prop, Q' (Some b) s → ends body s Q') →
  Q (if spins <=? 0 then None else Some b) s → ends (for_spins spins body) s Q.
Proof.
  intros Hbody HQ. apply ends_loop. destruct (spins <=? 0); [by apply ends_ret|].
  apply ends_bind, Hbody. by apply ends_ret.
Qed.

Lemma ends_check_tail c s (Q : option unit → S → Prop) :
  Q (Some tt) s → ends (v ← Load c; mret (if v =? cget c s then Some tt else None)) s Q.
Proof. intros HQ. apply ends_bind, ends_Load, ends_ret. by rewrite Z.eqb_refl. Qed.

Lemma ends_waitForTail c want spins s (Q : unit → S → Prop) :
  cget c s = want → Q tt s → ends (waitForTail c want spins) s Q.
Proof.
  intros <- HQ. unfold waitForTail, spinForTail. apply ends_bind, ends_bind.
  apply (ends_for_spins _ _ _ _ tt); [intros Q'; apply ends_check_tail|].
  apply ends_ret. destruct (spins <=? 0); [|by apply ends_ret].
  apply ends_forever, ends_check_tail. by exists tt.
Qed.

Lemma ends_waitHeadTailDistance (h t : cell S) max spins s (Q : Z → S → Prop) :
  unpackPos (cget h s) -32 unpackPos (cget t s) <= max → Q (cget h s) s →
  ends (waitHeadTailDistance h t max spins) s Q.
Proof.
  intros Hd HQ. unfold waitHeadTailDistance.
  assert (∀ Q' : option Z → S → Prop, Q' (Some (cget h s)) s →
    ends ('(word, ok) ← headWithinDistance h t max; mret (if ok : bool then Some word else None)) s Q')
    as Hcheck.
  { intros Q' HQ'. apply ends_bind. unfold headWithinDistance. do 2 apply ends_bind, ends_Load.
    apply ends_ret, ends_ret. by rewrite (proj2 (Z.leb_le _ _) Hd). }
  apply ends_bind, (ends_for_spins _ _ _ _ (cget h s)); [done|].
  destruct (spins <=? 0); [|by apply ends_ret]. apply ends_forever, Hcheck. by eexists.
Qed.
End alone_helpers.

(** The room a side has at position [pos] when the opposite side is at [opp]. *)
Definition room (r : role) (cap opp pos : Z) : Z :=
  match r with Producer => cap + opp - pos | Consumer => opp - pos end.

Lemma room_of_eq r cap opp pos :
  0 <= cap <= 2 ^ 30 → 0 <= room r cap opp pos <= cap →
  room_of r cap (u32 opp) (u32 pos) = room r cap opp pos.
Proof.
  intros Hcap Hr. destruct r; simpl in *.
  - rewrite u32_add_r, u32_sub_l, u32_sub_r. apply u32_small. unfold is_u32. lia.
  - apply u32_distance. lia.
Qed.

Lemma cache_short_eq r cap ca pos req :
  0 <= cap <= 2 ^ 30 → 0 <= room r cap ca pos <= cap → 0 <= req <= cap →
  cache_short r cap (u32 ca) (u32 pos) req = (room r cap ca pos <? req).
Proof.
  intros Hcap Hr Hreq. destruct r; simpl in *.
  - rewrite u32_distance, (u32_small (cap - req)) by (unfold is_u32; lia).
    apply eq_true_iff_eq. rewrite !Z.ltb_lt. lia.
  - rewrite u32_distance, (u32_small (cap - req)) by (unfold is_u32; lia).
    apply eq_true_iff_eq. rewrite !Z.ltb_lt. destruct (decide (ca - pos < req)).
    + assert (u32 (ca - pos - req) = ca - pos - req + 2 ^ 32) as -> by wrap_lia. lia.
    + rewrite u32_small by (unfold is_u32; lia). lia.
Qed.

(** A side with no reservation in flight, at position [pos]; and one that has just reserved [n]
    positions from there. *)
Definition reserved_words (cfg : sideConfig) (w : sideWords) (pos n : Z) : Prop :=
  published w = u32 pos ∧
  if relaxed cfg
  then ∃ cnt, tailRTS w = pack (u32 pos) (u32 cnt) ∧
         headRTS w = if n =? 0 then tailRTS w else pack (u32 (pos + n)) (u32 (cnt + 1))
  else head w = u32 (pos + n).

Definition idle_words (cfg : sideConfig) (w : sideWords) (pos : Z) : Prop :=
  reserved_words cfg w pos 0.

(** All words zero: a side at position zero. *)
Definition zero_words : sideWords := SideWords 0 0 0 0 0.

Lemma idle_zero cfg : idle_words cfg zero_words 0.
Proof. split; [done|]. destruct (relaxed cfg); [|done]. by exists 0. Qed.

Lemma resolveHeadTailDistance_range mode count distance explicit :
  0 <= resolveHeadTailDistance mode count distance explicit.
Proof.
  unfold resolveHeadTailDistance. destruct (negb _); [lia|].
  destruct explicit; [pose proof (u32_range distance)|pose proof (u32_range (count / 8))];
    unfold is_u32 in *; lia.
Qed.

Section alone_sides.
Context {S T : Type} `{!Slots S T} (R : side S T).
Context (cap : Z) (Hcap : pow2_cap cap).
Implicit Types (s : S) (w : sideWords).

Lemma cap_range : 1 <= cap <= 2 ^ 30.
Proof. by apply pow2_cap_range. Qed.

Lemma capacity_eq cfg : mask cfg = cap - 1 → mask cfg +32 1 = cap.
Proof. by apply mask_capacity. Qed.

(** The head word of an idle side, and the position in it. *)
Definition head_word (cfg : sideConfig) w : Z := if relaxed cfg then headRTS w else head w.

Lemma head_word_pos cfg w pos :
  idle_words cfg w pos →
  (if relaxed cfg then unpackPos (head_word cfg w) else u32 (head_word cfg w)) = u32 pos.
Proof.
  intros (_ & Hw). unfold head_word. destruct (relaxed cfg).
  - destruct Hw as (cnt & Ht & ->). rewrite Ht. apply unpackPos_pack; apply u32_range.
  - rewrite Hw, Z.add_0_r. apply u32_small, u32_range.
Qed.

Lemma ends_captureHead s pos (Q : Z → S → Prop) :
  idle_words (config R s) (words R s) pos → 0 <= htdMax (config R s) →
  Q (head_word (config R s) (words R s)) s → ends (captureHead R) s Q.
Proof.
  intros (_ & Hw) Hh HQ. unfold captureHead, head_word in *. apply ends_bind, ends_load.
  destruct (relaxed (config R s)).
  - destruct Hw as (cnt & Ht & Hhd). apply ends_waitHeadTailDistance; [|done].
    simpl. rewrite Hhd. rewrite Z.sub_diag. done.
  - by apply ends_Load.
Qed.

(** The cached position is refreshed only when it differs. *)
Lemma ends_refresh s w opp (Q : Z → S → Prop) :
  opposite R s = opp →
  Q opp (set_words R (set_cached opp w) s) →
  ends (published ← load (opposite R);
        _ ← (if published =? cached w then mret tt else Store (cached_cell R) published);
        mret published) (set_words R w s) Q.
Proof.
  intros Ho HQ. apply ends_bind, ends_load. rewrite opposite_words, Ho. apply ends_bind.
  destruct (Z.eqb_spec opp (cached w)) as [->|Hne].
  - apply ends_ret, ends_ret. by replace w with (set_cached (cached w) w) at 2 by (by destruct w).
  - apply ends_Store, ends_ret. simpl. rewrite words_set, set_words_set. done.
Qed.

(** The compare-and-swap that takes [n] positions. *)
Lemma ends_advance s pos n (Q : bool → S → Prop) :
  let cfg := config R s in let w := words R s in
  idle_words cfg w pos → 0 < n →
  (∀ w', cached w' = cached w → reserved_words cfg w' pos n → Q true (set_words R w' s)) →
  ends (if relaxed cfg
        then CompareAndSwap (headRTS_cell R) (head_word cfg w)
               (pack (u32 pos +32 n) (unpackCnt (head_word cfg w) +32 1))
        else CompareAndSwap (head_cell R) (u32 pos) (u32 pos +32 n)) s Q.
Proof.
  intros cfg w [Hp Hw] Hn HQ. unfold head_word. destruct (relaxed cfg) eqn:Hrel.
  - destruct Hw as (cnt & Ht & Hh). simpl in Hh. rewrite Ht in Hh.
    apply ends_CompareAndSwap; [done|]. apply HQ; [done|]. split; [done|]. rewrite Hrel.
    exists cnt. split; [done|]. simpl. fold w. rewrite Hh, unpackCnt_pack, !u32_add_l by auto with go_int.
    destruct (Z.eqb_spec n 0); [lia|done].
  - rewrite Z.add_0_r in Hw. apply ends_CompareAndSwap; [done|]. apply HQ; [done|].
    split; [done|]. rewrite Hrel. simpl. by rewrite u32_add_l.
Qed.

Lemma ends_attempt s pos opp ca requested fixed exact (Q : Z * Z * Z * bool → S → Prop) :
  let r := side_role R in let cfg := config R s in let w := words R s in
  let n := granted fixed requested (room r cap opp pos) in
  mask cfg = cap - 1 → idle_words cfg w pos → opposite R s = u32 opp → cached w = u32 ca →
  0 <= room r cap ca pos <= room r cap opp pos → room r cap opp pos <= cap →
  0 <= requested <= cap →
  (∀ w' ca' rm, fresh_room exact requested n rm (room r cap opp pos) →
     0 <= room r cap ca' pos <= room r cap opp pos → n <= room r cap ca' pos →
     cached w' = u32 ca' → reserved_words cfg w' pos n →
     Q (u32 pos, n, rm - n, false) (set_words R w' s)) →
  ends (attempt R (head_word cfg w) requested fixed exact) s Q.
Proof.
  intros r cfg w n Hm Hidle Hopp Hca Hra Hro Hreq HQ. pose proof cap_range.
  unfold attempt. apply ends_bind, ends_load. fold cfg. rewrite (head_word_pos _ _ pos Hidle).
  rewrite (capacity_eq cfg Hm). apply ends_bind, ends_Load. simpl. fold w. fold r. rewrite Hca.
  rewrite cache_short_eq by lia.
  set (refresh := exact || (requested =? 0) || (room r cap ca pos <? requested)).
  (* the position used for admission *)
  apply (ends_seq _ _ _ (λ published s', ∃ ca', published = u32 ca' ∧
    s' = set_words R (set_cached (u32 ca') w) s ∧
    0 <= room r cap ca' pos <= room r cap opp pos ∧ (ca' = opp ∨ refresh = false ∧ ca' = ca))).
  { rewrite <- Hca. fold w. destruct refresh.
    - rewrite <- (set_words_same S T R s) at 1. fold w. apply (ends_refresh s w (u32 opp)); [done|].
      exists opp. split_and!; [done|done|lia..|by left].
    - apply ends_ret. exists ca. split_and!; [done| |lia..|by right].
      rewrite <- Hca. replace (set_cached (cached w) w) with w by (by destruct w).
      symmetry. apply set_words_same. }
  intros ? s' (ca' & -> & -> & Hrc & Hwhich). rewrite room_of_eq by lia.
  assert (fresh_room exact requested n (room r cap ca' pos) (room r cap opp pos) ∧
    n = granted fixed requested (room r cap ca' pos)) as [Hfresh Hn].
  { unfold fresh_room, n, granted. destruct Hwhich as [->|[Href ->]].
    - split; [|done]. split; [destruct fixed; simpl; [destruct (Z.ltb_spec (room r cap opp pos) requested)|]; lia|done].
    - unfold refresh in Href. apply orb_false_iff in Href as [Href Hs].
      apply orb_false_iff in Href as [He Hz]. apply Z.ltb_ge in Hs. apply Z.eqb_neq in Hz.
      rewrite !(proj2 (Z.ltb_ge _ _)) by lia. rewrite andb_false_r. split_and!; [lia|lia| |lia].
      intros [?|[?|?]]; [congruence|lia..]. }
  clearbody n. unfold granted in Hn.
  destruct (Z.ltb_spec cap (room r cap ca' pos)); [lia|].
  assert (n = 0 → ends (mret (u32 pos, 0, room r cap ca' pos, false))
    (set_words R (set_cached (u32 ca') w) s) Q) as Hzero.
  { intros Hn0. subst n. rewrite Hn0 in *. apply ends_ret. rewrite <- (Z.sub_0_r (room r cap ca' pos)).
    apply (HQ _ ca' (room r cap ca' pos)); [done|lia|lia|done..]. }
  destruct (fixed && _); [by apply Hzero|].
  destruct (Z.eqb_spec (Z.min requested (room r cap ca' pos)) 0); [apply Hzero; lia|].
  rewrite <- Hn. set (s1 := set_words R (set_cached (u32 ca') w) s) in *.
  assert (config R s1 = cfg) as Hc1 by apply config_words.
  assert (words R s1 = set_cached (u32 ca') w) as Hw1 by apply words_set.
  apply ends_bind. pose proof (ends_advance s1 pos n) as Hadv. rewrite Hc1, Hw1 in Hadv.
  replace (head_word cfg (set_cached (u32 ca') w)) with (head_word cfg w) in Hadv by done.
  apply Hadv; [done|lia|]. intros w' Hcw' Hres. apply ends_ret.
  rewrite (u32_small (room r cap ca' pos - n)) by (unfold is_u32; lia). unfold s1. rewrite set_words_set.
  apply (HQ w' ca'); [done|lia|lia|done..].
Qed.

Lemma ends_reserve s pos opp ca requested fixed exact (Q : Z * Z * Z → S → Prop) :
  let r := side_role R in let cfg := config R s in let w := words R s in
  let n := granted fixed requested (room r cap opp pos) in
  mask cfg = cap - 1 → 0 <= htdMax cfg → idle_words cfg w pos → opposite R s = u32 opp →
  cached w = u32 ca →
  0 <= room r cap ca pos <= room r cap opp pos → room r cap opp pos <= cap →
  0 <= requested <= cap →
  (∀ w' ca' rm, fresh_room exact requested n rm (room r cap opp pos) →
     0 <= room r cap ca' pos <= room r cap opp pos → n <= room r cap ca' pos →
     cached w' = u32 ca' → reserved_words cfg w' pos n →
     Q (u32 pos, n, rm - n) (set_words R w' s)) →
  ends (reserve R requested fixed exact) s Q.
Proof.
  intros r cfg w n Hm Hh Hidle Hopp Hca Hra Hro Hreq HQ.
  apply ends_forever, ends_bind, (ends_captureHead s pos); [done..|]. apply ends_bind.
  apply (ends_attempt s pos opp ca); try done.
  intros w' ca' rm Hf Hr1 Hr2 Hc Hres. apply ends_ret. eexists. split; [done|]. by apply (HQ w' ca').
Qed.

(** Publication after the copy: the side is idle again, [n] positions further. *)
Lemma ends_publish_mode s pos n (Q : unit → S → Prop) :
  let cfg := config R s in let w := words R s in
  reserved_words cfg w pos n → 0 < n <= cap →
  (∀ w', cached w' = cached w → idle_words cfg w' (pos + n) → Q tt (set_words R w' s)) →
  ends (if relaxed cfg then publishRelaxedSide R else publishOrdered R (u32 pos) n) s Q.
Proof.
  intros cfg w [Hp Hw] Hn HQ. pose proof cap_range. destruct (relaxed cfg) eqn:Hrel.
  - destruct Hw as (cnt & Ht & Hh). destruct (Z.eqb_spec n 0); [lia|].
    pose proof (u32_range cnt). pose proof (u32_range (cnt + 1)).
    pose proof (u32_range pos). pose proof (u32_range (pos + n)).
    unfold publishRelaxedSide, publishRelaxed. apply ends_bind, ends_forever.
    do 2 apply ends_bind, ends_Load.
    change (cget (tailRTS_cell R) s) with (tailRTS w).
    change (cget (headRTS_cell R) s) with (headRTS w). rewrite Ht, Hh.
    assert (nextTail (pack (u32 pos) (u32 cnt)) (pack (u32 (pos + n)) (u32 (cnt + 1))) =
      pack (u32 (pos + n)) (u32 (cnt + 1))) as Hnext.
    { unfold nextTail. rewrite !unpackCnt_pack, !unpackPos_pack, u32_add_l by done.
      by rewrite Z.eqb_refl. }
    cbv zeta. rewrite Hnext. apply ends_bind, ends_CompareAndSwap; [done|]. apply ends_ret.
    rewrite !unpackPos_pack by done. eexists. split; [done|].
    destruct (Z.eqb_spec (u32 (pos + n)) (u32 pos)) as [He|_]; [apply u32_same in He; lia|].
    cbn [negb]. set (s1 := cset (tailRTS_cell R) _ s).
    assert (words R s1 = set_tailRTS (pack (u32 (pos + n)) (u32 (cnt + 1))) w) as Hw1
      by apply words_set.
    apply ends_forever. do 2 apply ends_bind, ends_Load.
    assert (cget (published_cell R) s1 = u32 pos) as Hmir.
    { change (published (words R s1) = u32 pos). by rewrite Hw1. }
    assert (cget (tailRTS_cell R) s1 = pack (u32 (pos + n)) (u32 (cnt + 1))) as Htl.
    { change (tailRTS (words R s1) = pack (u32 (pos + n)) (u32 (cnt + 1))). by rewrite Hw1. }
    rewrite Hmir, Htl, unpackPos_pack by done. cbv zeta.
    rewrite u32_distance, Z.add_simpl_l, i32_small by lia.
    destruct (Z.leb_spec n 0); [lia|].
    apply ends_bind, ends_CompareAndSwap; [done|]. apply ends_ret. eexists. split; [done|].
    change (cset (published_cell R) (u32 (pos + n)) s1) with
      (set_words R (set_published (u32 (pos + n)) (words R s1)) s1).
    unfold s1 at 2. change (cset (tailRTS_cell R) ?x s) with (set_words R (set_tailRTS x w) s).
    rewrite set_words_set, Hw1. apply HQ; [done|].
    split; [done|]. rewrite Hrel. exists (cnt + 1). by split.
  - unfold publishOrdered. apply ends_bind, ends_load. apply ends_bind, ends_waitForTail; [done|].
    apply ends_Store. apply HQ; [done|]. rewrite u32_add_l. split; [done|]. rewrite Hrel.
    by rewrite Z.add_0_r.
Qed.

Lemma ends_publish s pos n (Q : unit → S → Prop) :
  let cfg := config R s in let w := words R s in
  reserved_words cfg w pos n → 0 < n <= cap →
  (∀ w', cached w' = cached w → idle_words cfg w' (pos + n) → Q tt (set_words R w' s)) →
  ends (publish R (u32 pos) n) s Q.
Proof.
  intros cfg w Hres Hn HQ. unfold publish. apply ends_bind, ends_load. by apply ends_publish_mode.
Qed.

Lemma ends_headPosition s pos (Q : Z → S → Prop) :
  idle_words (config R s) (words R s) pos → Q (u32 pos) s → ends (headPosition R) s Q.
Proof.
  intros (_ & Hw) HQ. unfold headPosition. apply ends_bind, ends_load.
  destruct (relaxed (config R s)).
  - destruct Hw as (cnt & Ht & Hh). cbn [Z.eqb] in Hh. apply ends_bind, ends_Load, ends_ret.
    change (cget (headRTS_cell R) s) with (headRTS (words R s)). rewrite Hh, Ht.
    by rewrite unpackPos_pack by auto with go_int.
  - apply ends_Load. change (cget (head_cell R) s) with (head (words R s)).
    by rewrite Hw, Z.add_0_r.
Qed.

Lemma ends_writeInterval s pos items (Q : unit → S → Prop) :
  mask (config R s) = cap - 1 → len (entries s) = cap → len items <= cap →
  (∀ es', after_write (entries s) pos items es' → Q tt (set_entries es' s)) →
  ends (writeInterval R (u32 pos) items) s Q.
Proof. intros Hm. unfold writeInterval. intros. apply ends_bind, ends_load. by apply (ends_writeSlots cap Hcap). Qed.

Lemma ends_readInterval s zero clear pos n vs (Q : list T → S → Prop) :
  mask (config R s) = cap - 1 → len (entries s) = cap → 0 <= n <= cap →
  holds (entries s) pos vs → len vs = n →
  (∀ es', after_read zero clear (entries s) pos n es' → Q vs (set_entries es' s)) →
  ends (readInterval R zero clear (u32 pos) n) s Q.
Proof. intros. unfold readInterval. apply ends_bind, ends_load. by apply (ends_readSlots cap Hcap _ _ _ _ _ _ vs). Qed.
End alone_sides.
End DpdkRing.
