(* ===== verification/DpdkMPMC.v ===== *)
(** * The multi-producer multi-consumer queue (src/ring/dpdk/mpmc.go)

    Both sides are concurrent sides of [DpdkRing]: [mpmc_producer] is built from
    mpmcProducerReservation and mpmcProducerPublication, [mpmc_consumer] from the consumer's. *)

From Stdlib Require Import ZArith Lia.
From stdpp Require Import prelude list strings.
From S2P Require Import Prelude Prog RingCore RingSlots RingSpec RingCalls DpdkOptions DpdkRing.

Module MPMC.
Import Prog Ring Slots RingSpec RingCalls DpdkOptions DpdkRing.

Record mpmcConfig := MkMpmcConfig {
  m_mask : Z;
  m_maxEnqueueBatch : Z;
  m_maxDequeueBatch : Z;
  prodHTDMax : Z;
  consHTDMax : Z;
  m_spinsBeforeYield : Z;
  producerRelaxed : bool;
  consumerRelaxed : bool;
  clearOnDequeue : bool;
  m_exactBatchCounts : bool;
}.

Record MPMCQueue (T : Type) := MkMPMC {
  m_config : mpmcConfig;
  m_producer : sideWords;
  m_consumer : sideWords;
  m_entries : list T;
}.
Arguments MkMPMC {T} _ _ _ _.
Arguments m_config {T} _.
Arguments m_producer {T} _.
Arguments m_consumer {T} _.
Arguments m_entries {T} _.

#[export] Instance mpmc_slots T : Slots (MPMCQueue T) T.
Proof.
  refine {| entries := m_entries;
            set_entries es r := MkMPMC (m_config r) (m_producer r) (m_consumer r) es |};
    try reflexivity. by intros [].
Defined.

Definition mpmc_producer T : side (MPMCQueue T) T.
Proof.
  refine {| side_role := Producer;
            words := m_producer;
            set_words w r := MkMPMC (m_config r) w (m_consumer r) (m_entries r);
            config r := SideConfig (m_mask (m_config r)) (prodHTDMax (m_config r))
              (m_spinsBeforeYield (m_config r)) (producerRelaxed (m_config r));
            opposite r := published (m_consumer r) |}; try reflexivity. by intros [].
Defined.

Definition mpmc_consumer T : side (MPMCQueue T) T.
Proof.
  refine {| side_role := Consumer;
            words := m_consumer;
            set_words w r := MkMPMC (m_config r) (m_producer r) w (m_entries r);
            config r := SideConfig (m_mask (m_config r)) (consHTDMax (m_config r))
              (m_spinsBeforeYield (m_config r)) (consumerRelaxed (m_config r));
            opposite r := published (m_producer r) |}; try reflexivity. by intros [].
Defined.

Section queue.
Context {T : Type} (zero : T).
Implicit Types r : MPMCQueue T.
Abbreviation M := (prog (MPMCQueue T)).
Abbreviation prod := (mpmc_producer T).
Abbreviation cons := (mpmc_consumer T).

Definition NewMPMCQueue (count : Z) (options : list Option) : error + MPMCQueue T :=
  match resolveConfig "NewMPMCQueue" count modeMulti modeMulti true options with
  | inl err => inl err
  | inr cfg =>
      inr (MkMPMC
        (MkMpmcConfig (u32 (count -i 1)) (u32 (maxEnqueueBatch cfg)) (u32 (maxDequeueBatch cfg))
           (resolveHeadTailDistance (prodMode cfg) count (maxProducerHeadTailDistance cfg)
              (producerHeadTailDistanceSet cfg))
           (resolveHeadTailDistance (consMode cfg) count (maxConsumerHeadTailDistance cfg)
              (consumerHeadTailDistanceSet cfg))
           (u32 (DpdkOptions.spinsBeforeYield cfg))
           (mode_eqb (prodMode cfg) modeRelaxed) (mode_eqb (consMode cfg) modeRelaxed)
           (negb (keepDequeued cfg)) (exactBatchCounts cfg))
        zero_words zero_words (replicate (Z.to_nat count) zero))
  end.

Definition Capacity r : Z := m_mask (m_config r) +32 1.
Definition MaxEnqueueBatch r : Z := m_maxEnqueueBatch (m_config r).
Definition MaxDequeueBatch r : Z := m_maxDequeueBatch (m_config r).

Definition Count : M Z :=
  consumer ← Load (published_cell cons);
  producer ← Load (published_cell prod);
  capacity ← load Capacity;
  mret (Z.min (producer -32 consumer) capacity).

Definition Free : M Z := capacity ← load Capacity; count ← Count; mret (capacity -i count).
Definition Full : M bool := count ← Count; capacity ← load Capacity; mret (count =? capacity).
Definition Empty : M bool := count ← Count; mret (count =? 0).

Definition Reset : M unit :=
  _ ← clear_all zero;
  _ ← Store (headRTS_cell prod) 0;
  _ ← Store (head_cell prod) 0;
  _ ← Store (cached_cell prod) 0;
  _ ← Store (tailRTS_cell prod) 0;
  _ ← Store (published_cell prod) 0;
  _ ← Store (headRTS_cell cons) 0;
  _ ← Store (head_cell cons) 0;
  _ ← Store (cached_cell cons) 0;
  _ ← Store (tailRTS_cell cons) 0;
  Store (published_cell cons) 0.

(** ** The producer side *)

(** With [retryOnConflict] the loop captures the head itself and goes around again on a
    conflict; without, the caller's [word] is used once. *)
Definition mpmcReserveProducerLoop (word requested : Z) (fixed exact retryOnConflict : bool)
    : M (Z * Z * Z * bool) :=
  forever (
    word ← (if retryOnConflict then captureHead prod else mret word);
    '(start, count, remaining, retry) ← attempt prod word requested fixed exact;
    mret (if (retryOnConflict && retry)%bool then None else Some (start, count, remaining, retry))).

Definition mpmcReserveProducer (requested : Z) (fixed exact : bool) : M (Z * Z * Z) :=
  '(start, count, remaining, _) ← mpmcReserveProducerLoop 0 requested fixed exact true;
  mret (start, count, remaining).

Definition mpmcAttemptProducer (word requested : Z) (fixed exact : bool) : M (Z * Z * Z * bool) :=
  mpmcReserveProducerLoop word requested fixed exact false.

Definition mpmcWriteProducer (start : Z) (items : list T) : M unit := writeInterval prod start items.

Definition mpmcPublishProducerOrdered (start count : Z) : M unit := publishOrdered prod start count.
Definition mpmcPublishProducerRelaxed : M unit := publishRelaxedSide prod.
Definition mpmcPublishProducer (start count : Z) : M unit := publish prod start count.
Definition mpmcProducerHead : M Z := headPosition prod.

Definition Enqueue (item : T) : M (option error) :=
  '(start, count, _) ← mpmcReserveProducer 1 true false;
  if count =? 0 then mret (Some ErrFull)
  else
    cfg ← load m_config;
    _ ← slot_set (Z.land start (m_mask cfg)) item;
    _ ← (if producerRelaxed cfg then mpmcPublishProducerRelaxed
         else mpmcPublishProducerOrdered start count);
    mret None.

Definition EnqueueBulk (items : list T) : M (Z * option error) :=
  cfg ← load m_config;
  let capacity := m_mask cfg +32 1 in
  if (capacity <? len items) || (m_maxEnqueueBatch cfg <? len items) then
    head ← mpmcProducerHead;
    consumer ← Load (published_cell cons);
    let fresh := capacity +32 consumer -32 head in
    mret (Z.min fresh capacity,
          Some (batchLengthError "enqueue" (len items) (m_maxEnqueueBatch cfg) capacity))
  else
    '(start, count, remaining) ← mpmcReserveProducer (u32 (len items)) true (m_exactBatchCounts cfg);
    if count =? 0 then
      mret (remaining, if len items =? 0 then None else Some ErrFull)
    else
      _ ← mpmcWriteProducer start items;
      _ ← (if producerRelaxed cfg then mpmcPublishProducerRelaxed
           else mpmcPublishProducerOrdered start count);
      mret (remaining, None).

Definition EnqueueBurst (items : list T) : M (Z * Z) :=
  cfg ← load m_config;
  let length := Z.min (len items) (m_maxEnqueueBatch cfg) in
  '(start, count, remaining) ← mpmcReserveProducer (u32 length) false (m_exactBatchCounts cfg);
  if count =? 0 then mret (0, remaining)
  else
    _ ← mpmcWriteProducer start (sub items 0 count);
    _ ← (if producerRelaxed cfg then mpmcPublishProducerRelaxed
         else mpmcPublishProducerOrdered start count);
    mret (count, remaining).

(** ** The consumer side *)

Definition mpmcReserveConsumerLoop (word requested : Z) (fixed exact retryOnConflict : bool)
    : M (Z * Z * Z * bool) :=
  forever (
    word ← (if retryOnConflict then captureHead cons else mret word);
    '(start, count, remaining, retry) ← attempt cons word requested fixed exact;
    mret (if (retryOnConflict && retry)%bool then None else Some (start, count, remaining, retry))).

Definition mpmcReserveConsumer (requested : Z) (fixed exact : bool) : M (Z * Z * Z) :=
  '(start, count, remaining, _) ← mpmcReserveConsumerLoop 0 requested fixed exact true;
  mret (start, count, remaining).

Definition mpmcAttemptConsumer (word requested : Z) (fixed exact : bool) : M (Z * Z * Z * bool) :=
  mpmcReserveConsumerLoop word requested fixed exact false.

Definition mpmcReadConsumer (start n : Z) : M (list T) :=
  cfg ← load m_config; readInterval cons zero (clearOnDequeue cfg) start n.

Definition mpmcReleaseConsumerOrdered (start count : Z) : M unit := publishOrdered cons start count.
Definition mpmcReleaseConsumerRelaxed : M unit := publishRelaxedSide cons.
Definition mpmcReleaseConsumer (start count : Z) : M unit := publish cons start count.
Definition mpmcConsumerHead : M Z := headPosition cons.

Definition Dequeue : M (T * option error) :=
  '(start, count, _) ← mpmcReserveConsumer 1 true false;
  if count =? 0 then mret (zero, Some ErrEmpty)
  else
    cfg ← load m_config;
    let index := Z.land start (m_mask cfg) in
    value ← slot_get index;
    _ ← (if clearOnDequeue cfg then slot_set index zero else mret tt);
    _ ← (if consumerRelaxed cfg then mpmcReleaseConsumerRelaxed
         else mpmcReleaseConsumerOrdered start count);
    mret (value, None).

Definition DequeueBulk (dst : list T) : M (Z * option error * list T) :=
  cfg ← load m_config;
  let capacity := m_mask cfg +32 1 in
  if (capacity <? len dst) || (m_maxDequeueBatch cfg <? len dst) then
    head ← mpmcConsumerHead;
    producer ← Load (published_cell prod);
    let fresh := producer -32 head in
    mret (Z.min fresh capacity,
          Some (batchLengthError "dequeue" (len dst) (m_maxDequeueBatch cfg) capacity), dst)
  else
    '(start, count, remaining) ← mpmcReserveConsumer (u32 (len dst)) true (m_exactBatchCounts cfg);
    if count =? 0 then
      mret (remaining, if len dst =? 0 then None else Some ErrEmpty, dst)
    else
      values ← mpmcReadConsumer start (len dst);
      _ ← (if consumerRelaxed cfg then mpmcReleaseConsumerRelaxed
           else mpmcReleaseConsumerOrdered start count);
      mret (remaining, None, copy_at 0 values dst).

Definition DequeueBurst (dst : list T) : M (Z * Z * list T) :=
  cfg ← load m_config;
  let length := Z.min (len dst) (m_maxDequeueBatch cfg) in
  '(start, count, remaining) ← mpmcReserveConsumer (u32 length) false (m_exactBatchCounts cfg);
  if count =? 0 then mret (0, remaining, dst)
  else
    values ← mpmcReadConsumer start count;
    _ ← (if consumerRelaxed cfg then mpmcReleaseConsumerRelaxed
         else mpmcReleaseConsumerOrdered start count);
    mret (count, remaining, copy_at 0 values dst).

(** ** The abstract queue *)

Record mpmc_state (cap : Z) r (P C : Z) (l : list T) : Prop := {
  ms_window : window zero (clearOnDequeue (m_config r)) cap (m_entries r) P C l;
  ms_mask : m_mask (m_config r) = cap - 1;
  ms_maxEnqueue : 1 <= m_maxEnqueueBatch (m_config r) <= cap;
  ms_maxDequeue : 1 <= m_maxDequeueBatch (m_config r) <= cap;
  ms_distance : 0 <= prodHTDMax (m_config r) ∧ 0 <= consHTDMax (m_config r);
  ms_producer : idle_words (config prod r) (m_producer r) P;
  ms_consumer : idle_words (config cons r) (m_consumer r) C;
  ms_cachedConsumer : ∃ cc, cached (m_producer r) = u32 cc ∧ cc <= C ∧ P <= cc + cap;
  ms_cachedProducer : ∃ cp, cached (m_consumer r) = u32 cp ∧ C <= cp <= P;
}.

Definition queue_holds r (l : list T) : Prop :=
  pow2_cap (Capacity r) ∧ ∃ P C, mpmc_state (Capacity r) r P C l.

Definition same_config r r' : Prop := m_config r' = m_config r.

Lemma mpmc_state_bounds cap r P C l :
  mpmc_state cap r P C l → 0 <= C ∧ P = C + len l ∧ 0 <= len l <= cap.
Proof. intros [[] _ _ _ _ _ _ _ _]. pose proof (len_nonneg l). lia. Qed.

Lemma mpmc_state_len cap r P C l : mpmc_state cap r P C l → len (m_entries r) = cap.
Proof. intros Hst. apply Hst. Qed.

(** The state after [xs] were enqueued, and after [n] values were dequeued. *)
Lemma mpmc_state_enqueued cap r P C l xs w es' cc :
  0 < cap → mpmc_state cap r P C l → len l + len xs <= cap →
  after_write (m_entries r) P xs es' →
  idle_words (config prod r) w (P + len xs) → cached w = u32 cc →
  cc <= C → P + len xs <= cc + cap →
  mpmc_state cap (MkMPMC (m_config r) w (m_consumer r) es') (P + len xs) C (l ++ xs).
Proof.
  intros Hc [Hw Hm He Hd Hh Hp Hco Hcc (cp & Hcp & Hcb)] Hfit Haw Hidle Hcw H1 H2.
  pose proof (len_nonneg xs). constructor; try done; [by eapply window_write| |].
  - by exists cc.
  - exists cp. split; [done|lia].
Qed.

Lemma mpmc_state_dequeued cap r P C l n w es' cp :
  0 < cap → mpmc_state cap r P C l → 0 <= n <= len l →
  after_read zero (clearOnDequeue (m_config r)) (m_entries r) C n es' →
  idle_words (config cons r) w (C + n) → cached w = u32 cp → C + n <= cp <= P →
  mpmc_state cap (MkMPMC (m_config r) (m_producer r) w es') P (C + n) (drop (Z.to_nat n) l).
Proof.
  intros Hc [Hw Hm He Hd Hh Hp Hco (cc & Hcc & Hcb) Hcp] Hn Har Hidle Hcw H1.
  constructor; try done; [by eapply window_read| |].
  - exists cc. split; [done|lia].
  - by exists cp.
Qed.

Section calls.
Context (cap : Z) (Hcap : pow2_cap cap).

Lemma mpmc_cap_bounds : 1 <= cap <= 2 ^ 30.
Proof. by apply pow2_cap_range. Qed.

Lemma mpmc_ends_reserveProducer r P C l requested fixed exact (Q : Z * Z * Z → MPMCQueue T → Prop) :
  mpmc_state cap r P C l → 0 <= requested <= cap →
  let n := granted fixed requested (cap - len l) in
  (∀ w cc rm, fresh_room exact requested n rm (cap - len l) →
     cc <= C → P + n <= cc + cap → cached w = u32 cc → reserved_words (config prod r) w P n →
     Q (u32 P, n, rm - n) (MkMPMC (m_config r) w (m_consumer r) (m_entries r))) →
  ends (mpmcReserveProducer requested fixed exact) r Q.
Proof.
  intros Hst Hreq n HQ. pose proof (mpmc_state_bounds _ _ _ _ _ Hst) as Hb. pose proof mpmc_cap_bounds.
  destruct Hst as [Hw Hm _ _ [Hh _] Hp [Hco _] (cc & Hcc & Hct & Hcr) _].
  assert (room Producer cap C P = cap - len l) as Hroom by (simpl; lia).
  unfold mpmcReserveProducer, mpmcReserveProducerLoop.
  apply ends_bind, ends_forever, ends_bind, (ends_captureHead prod r P); [done..|].
  apply ends_bind, (ends_attempt prod cap Hcap r P C cc); [done|done|done|done|simpl; lia..|].
  change (side_role prod) with Producer. rewrite Hroom. fold n. intros w' cc' rm Hf Hr1 Hr2 Hcw Hres. apply ends_ret. eexists.
  split; [done|]. apply ends_ret. apply (HQ w' cc'); [done|simpl in *; lia..|done|done].
Qed.

Lemma mpmc_ends_reserveConsumer r P C l requested fixed exact (Q : Z * Z * Z → MPMCQueue T → Prop) :
  mpmc_state cap r P C l → 0 <= requested <= cap →
  let n := granted fixed requested (len l) in
  (∀ w cp rm, fresh_room exact requested n rm (len l) →
     C + n <= cp <= P → cached w = u32 cp → reserved_words (config cons r) w C n →
     Q (u32 C, n, rm - n) (MkMPMC (m_config r) (m_producer r) w (m_entries r))) →
  ends (mpmcReserveConsumer requested fixed exact) r Q.
Proof.
  intros Hst Hreq n HQ. pose proof (mpmc_state_bounds _ _ _ _ _ Hst) as Hb. pose proof mpmc_cap_bounds.
  destruct Hst as [Hw Hm _ _ [_ Hh] [Hp _] Hco _ (cp & Hcp & Hcb)].
  assert (room Consumer cap P C = len l) as Hroom by (simpl; lia).
  unfold mpmcReserveConsumer, mpmcReserveConsumerLoop.
  apply ends_bind, ends_forever, ends_bind, (ends_captureHead cons r C); [done..|].
  apply ends_bind, (ends_attempt cons cap Hcap r C P cp); [done|done|done|done|simpl; lia..|].
  change (side_role cons) with Consumer. rewrite Hroom. fold n. intros w' cp' rm Hf Hr1 Hr2 Hcw Hres. apply ends_ret. eexists.
  split; [done|]. apply ends_ret. apply (HQ w' cp'); [done|simpl in *; lia|done|done].
Qed.

(** Publication and release, when the call ran alone. *)
Lemma ends_publishP r P C l xs n w cc es' (Q : unit → MPMCQueue T → Prop) :
  mpmc_state cap r P C l → n = len xs → 0 < len xs → len l + len xs <= cap →
  after_write (m_entries r) P xs es' → reserved_words (config prod r) w P (len xs) →
  cached w = u32 cc → cc <= C → P + len xs <= cc + cap →
  (∀ r', same_config r r' → mpmc_state cap r' (P + len xs) C (l ++ xs) → Q tt r') →
  ends (if producerRelaxed (m_config r) then mpmcPublishProducerRelaxed
        else mpmcPublishProducerOrdered (u32 P) n)
    (MkMPMC (m_config r) w (m_consumer r) es') Q.
Proof.
  intros Hst -> Hn Hfit Haw Hres Hcw H1 H2 HQ. pose proof mpmc_cap_bounds.
  pose proof (mpmc_state_bounds _ _ _ _ _ Hst).
  apply (ends_publish_mode prod cap Hcap (MkMPMC (m_config r) w (m_consumer r) es') P (len xs));
    [done|lia|]. intros w' Hcw' Hidle. apply HQ; [done|].
  apply (mpmc_state_enqueued cap r P C l xs w' es' cc); try done; [lia|]. by rewrite Hcw'.
Qed.

Lemma ends_releaseC r P C l n w cp es' (Q : unit → MPMCQueue T → Prop) :
  mpmc_state cap r P C l → 0 < n <= len l →
  after_read zero (clearOnDequeue (m_config r)) (m_entries r) C n es' →
  reserved_words (config cons r) w C n → cached w = u32 cp → C + n <= cp <= P →
  (∀ r', same_config r r' → mpmc_state cap r' P (C + n) (drop (Z.to_nat n) l) → Q tt r') →
  ends (if consumerRelaxed (m_config r) then mpmcReleaseConsumerRelaxed
        else mpmcReleaseConsumerOrdered (u32 C) n)
    (MkMPMC (m_config r) (m_producer r) w es') Q.
Proof.
  intros Hst Hn Har Hres Hcw Hcp HQ. pose proof mpmc_cap_bounds.
  pose proof (mpmc_state_bounds _ _ _ _ _ Hst).
  apply (ends_publish_mode cons cap Hcap (MkMPMC (m_config r) (m_producer r) w es') C n);
    [done|lia|]. intros w' Hcw' Hidle. apply HQ; [done|].
  apply (mpmc_state_dequeued cap r P C l n w' es' cp); try done; [lia|lia|]. by rewrite Hcw'.
Qed.

(** A call that reserved nothing may still have refreshed its cache. *)
Lemma mpmc_state_kept_P r P C l w cc :
  mpmc_state cap r P C l → reserved_words (config prod r) w P 0 → cached w = u32 cc →
  cc <= C → P <= cc + cap →
  mpmc_state cap (MkMPMC (m_config r) w (m_consumer r) (m_entries r)) P C l.
Proof. intros [Hw Hm He Hd Hh Hp Hco Hcc Hcp] Hidle Hcw H1 H2. constructor; try done. by exists cc. Qed.

Lemma mpmc_state_kept_C r P C l w cp :
  mpmc_state cap r P C l → reserved_words (config cons r) w C 0 → cached w = u32 cp →
  C <= cp <= P →
  mpmc_state cap (MkMPMC (m_config r) (m_producer r) w (m_entries r)) P C l.
Proof. intros [Hw Hm He Hd Hh Hp Hco Hcc Hcp] Hidle Hcw H1. constructor; try done. by exists cp. Qed.

Lemma mpmc_Enqueue r P C l x :
  mpmc_state cap r P C l →
  ends (Enqueue x) r (λ err r', same_config r r' ∧
    if len l <? cap then err = None ∧ ∃ P', mpmc_state cap r' P' C (l ++ [x])
    else err = Some ErrFull ∧ mpmc_state cap r' P C l).
Proof.
  intros Hst. pose proof mpmc_cap_bounds. pose proof (mpmc_state_bounds _ _ _ _ _ Hst).
  unfold Enqueue. apply ends_bind, (mpmc_ends_reserveProducer r P C l); [done|lia|].
  intros w cc rm Hf Hlo Hhi Hcw Hres. destruct (Z.ltb_spec (len l) cap) as [Hroom|Hfull].
  - rewrite granted_all in * by lia. destruct (Z.eqb_spec 1 0); [lia|].
    apply ends_bind, ends_load. cbn [m_config]. rewrite (ms_mask _ _ _ _ _ Hst), mask_index by done.
    apply ends_bind, ends_slot_set; [lia|apply Hst|].
    apply ends_bind, (ends_publishP r P C l [x] 1 w cc); try done; [change (len [x]) with 1; lia| |].
    + apply after_write_one. change (0 < len (m_entries r)). rewrite (mpmc_state_len _ _ _ _ _ Hst). lia.
    + intros r' Hs Hst'. apply ends_ret. split_and!; [done|done|]. by eexists.
  - rewrite granted_none in * by lia. destruct (Z.eqb_spec 0 0); [|lia]. apply ends_ret.
    split_and!; [done|done|]. rewrite Z.add_0_r in Hhi. by apply (mpmc_state_kept_P r P C l w cc).
Qed.

Lemma mpmc_capacity_of r P C l : mpmc_state cap r P C l → m_mask (m_config r) +32 1 = cap.
Proof. intros Hst. apply (capacity_eq cap Hcap (config prod r)). apply Hst. Qed.

(** The fresh counts of an oversized request. *)
Lemma mpmc_fresh_free r P C l :
  mpmc_state cap r P C l →
  Z.min (cap +32 published (m_consumer r) -32 u32 P) cap = cap - len l.
Proof.
  intros Hst. pose proof mpmc_cap_bounds. pose proof (mpmc_state_bounds _ _ _ _ _ Hst).
  rewrite (proj1 (ms_consumer _ _ _ _ _ Hst)).
  change (cap +32 u32 C -32 u32 P) with (room_of Producer cap (u32 C) (u32 P)).
  rewrite room_of_eq by (simpl; lia). simpl. lia.
Qed.

Lemma mpmc_fresh_available r P C l :
  mpmc_state cap r P C l → Z.min (published (m_producer r) -32 u32 C) cap = len l.
Proof.
  intros Hst. pose proof mpmc_cap_bounds. pose proof (mpmc_state_bounds _ _ _ _ _ Hst).
  rewrite (proj1 (ms_producer _ _ _ _ _ Hst)), u32_distance by lia. lia.
Qed.

Lemma mpmc_EnqueueBulk r P C l xs :
  mpmc_state cap r P C l →
  ends (EnqueueBulk xs) r (λ '(free, err) r', same_config r r' ∧
    if m_maxEnqueueBatch (m_config r) <? len xs
    then err = Some (batchLengthError "enqueue" (len xs) (m_maxEnqueueBatch (m_config r)) cap) ∧
         mpmc_state cap r' P C l ∧ free = cap - len l
    else if len l + len xs <=? cap
    then err = None ∧ mpmc_state cap r' (P + len xs) C (l ++ xs) ∧
         reported free (cap - len l - len xs) (m_exactBatchCounts (m_config r) = true ∨ xs = [])
    else err = Some ErrFull ∧ mpmc_state cap r' P C l ∧ free = cap - len l).
Proof.
  intros Hst. pose proof mpmc_cap_bounds. pose proof (mpmc_state_bounds _ _ _ _ _ Hst).
  pose proof (len_nonneg xs). pose proof (ms_maxEnqueue _ _ _ _ _ Hst).
  unfold EnqueueBulk. apply ends_bind, ends_load. rewrite (mpmc_capacity_of r P C l) by done.
  rewrite orb_ltb_max by lia.
  destruct (Z.ltb_spec (m_maxEnqueueBatch (m_config r)) (len xs)) as [Hlong|Hshort].
  { apply ends_bind, (ends_headPosition prod r P); [apply Hst|].
    apply ends_bind, ends_Load, ends_ret. split_and!; [done|done|done|]. by apply (mpmc_fresh_free r P C l). }
  rewrite (u32_small (len xs)) by (unfold is_u32; lia).
  apply ends_bind, (mpmc_ends_reserveProducer r P C l); [done|lia|].
  intros w cc rm Hf Hlo Hhi Hcw Hres. destruct (Z.leb_spec (len l + len xs) cap) as [Hroom|Hfull].
  - rewrite granted_all in * by lia. destruct (Z.eqb_spec (len xs) 0) as [Hz0|Hz0].
    + apply ends_ret. apply len_0_nil in Hz0 as ->. rewrite app_nil_r. change (len []) with 0 in *.
      rewrite Z.add_0_r in *. split_and!; [done|done|by apply (mpmc_state_kept_P r P C l w cc)|].
      eapply fresh_reported; [done|auto].
    + apply ends_bind, (ends_writeInterval prod cap Hcap); [apply Hst|apply (mpmc_state_len _ _ _ _ _ Hst)|lia|].
      intros es' Haw. apply ends_bind, (ends_publishP r P C l xs (len xs) w cc); try done; [lia|].
      intros r' Hs Hst'. apply ends_ret. split_and!; [done..|].
      eapply fresh_reported; [done|]. intros [?|?]; [auto|subst; by destruct Hz0].
  - rewrite granted_none in * by lia. destruct (Z.eqb_spec 0 0); [|lia]. apply ends_ret.
    rewrite Z.add_0_r in Hhi. split_and!; [done| |by apply (mpmc_state_kept_P r P C l w cc)|].
    + destruct (Z.eqb_spec (len xs) 0); [lia|done].
    + destruct Hf as [_ Hf]. rewrite Hf; lia.
Qed.

Lemma mpmc_EnqueueBurst r P C l xs :
  mpmc_state cap r P C l →
  ends (EnqueueBurst xs) r (λ '(n, free) r', same_config r r' ∧
    let want := Z.min (len xs) (m_maxEnqueueBatch (m_config r)) in
    n = Z.min want (cap - len l) ∧ mpmc_state cap r' (P + n) C (l ++ take (Z.to_nat n) xs) ∧
    reported free (cap - len l - n)
      (m_exactBatchCounts (m_config r) = true ∨ n < want ∨ want = 0)).
Proof.
  intros Hst. pose proof mpmc_cap_bounds. pose proof (mpmc_state_bounds _ _ _ _ _ Hst).
  pose proof (len_nonneg xs). pose proof (ms_maxEnqueue _ _ _ _ _ Hst).
  unfold EnqueueBurst. apply ends_bind, ends_load.
  set (want := Z.min (len xs) (m_maxEnqueueBatch (m_config r))).
  rewrite (u32_small want) by (unfold is_u32; lia).
  apply ends_bind, (mpmc_ends_reserveProducer r P C l); [done|lia|]. rewrite granted_part.
  set (n := Z.min want (cap - len l)). intros w cc rm Hf Hlo Hhi Hcw Hres.
  assert (reported (rm - n) (cap - len l - n)
    (m_exactBatchCounts (m_config r) = true ∨ n < want ∨ want = 0)) as Hrep.
  { eapply fresh_reported; [done|]. intros [?|[?|?]]; auto. }
  destruct (Z.eqb_spec n 0) as [Hz0|Hz0].
  - apply ends_ret. rewrite Hz0, Z.sub_0_r, Z.add_0_r in *. rewrite app_nil_r.
    split_and!; [done|done|by apply (mpmc_state_kept_P r P C l w cc)|done].
  - assert (len (take (Z.to_nat n) xs) = n) as Hl by (apply len_take; lia). rewrite sub_0.
    apply ends_bind, (ends_writeInterval prod cap Hcap); [apply Hst|apply (mpmc_state_len _ _ _ _ _ Hst)|lia|].
    intros es' Haw. rewrite <- Hl in Hhi, Hres.
    apply ends_bind, (ends_publishP r P C l (take (Z.to_nat n) xs) n w cc); try done; [lia|lia|].
    rewrite Hl. intros r' Hs Hst'. by apply ends_ret.
Qed.

Lemma mpmc_state_take r P C l n :
  mpmc_state cap r P C l → 0 <= n <= len l →
  holds (m_entries r) C (take (Z.to_nat n) l) ∧ len (take (Z.to_nat n) l) = n.
Proof.
  intros Hst Hn. split; [|by apply len_take].
  eapply window_prefix; [by apply (ms_window _ _ _ _ _ Hst)|done].
Qed.

Lemma mpmc_Dequeue r P C l :
  mpmc_state cap r P C l →
  ends Dequeue r (λ '(v, err) r', same_config r r' ∧
    match l with
    | x :: l' => v = x ∧ err = None ∧ mpmc_state cap r' P (C + 1) l'
    | [] => v = zero ∧ err = Some ErrEmpty ∧ mpmc_state cap r' P C []
    end).
Proof.
  intros Hst. pose proof mpmc_cap_bounds. pose proof (mpmc_state_bounds _ _ _ _ _ Hst).
  unfold Dequeue. apply ends_bind, (mpmc_ends_reserveConsumer r P C l); [done|lia|].
  intros w cp rm Hf Hcp Hcw Hres. destruct l as [|x l'].
  - change (len []) with 0 in *. rewrite granted_none in * by lia.
    destruct (Z.eqb_spec 0 0); [|lia]. apply ends_ret.
    split_and!; [done..|]. apply (mpmc_state_kept_C r P C [] w cp); try done. lia.
  - assert (len (x :: l') = 1 + len l') as Hl by (unfold len; simpl; lia).
    pose proof (len_nonneg l').
    rewrite granted_all in * by lia. destruct (Z.eqb_spec 1 0); [lia|].
    apply ends_bind, ends_load. cbn [m_config]. rewrite (ms_mask _ _ _ _ _ Hst), mask_index by done.
    apply ends_bind, (ends_slot_get cap C _ x); [lia|apply Hst| |].
    { rewrite <- (Z.add_0_r C). by apply (win_holds _ _ _ _ _ _ _ (ms_window _ _ _ _ _ Hst) 0%nat). }
    assert (∀ es', after_read zero (clearOnDequeue (m_config r)) (m_entries r) C 1 es' →
      ends (if consumerRelaxed (m_config r) then mpmcReleaseConsumerRelaxed
            else mpmcReleaseConsumerOrdered (u32 C) 1)
        (MkMPMC (m_config r) (m_producer r) w es') (λ _ s', ends (mret (x, @None error)) s'
          (λ '(v, err) r', same_config r r' ∧ v = x ∧ err = None ∧ mpmc_state cap r' P (C + 1) l')))
      as Hrel.
    { intros es' Har. apply (ends_releaseC r P C (x :: l') 1 w cp); try done; [lia|].
      intros r' Hs Hst'. by apply ends_ret. }
    apply ends_bind. destruct (clearOnDequeue (m_config r)) eqn:Hcl.
    + apply ends_slot_set; [lia|apply Hst|]. apply ends_bind. apply Hrel.
      apply after_write_one. change (0 < len (m_entries r)). rewrite (mpmc_state_len _ _ _ _ _ Hst). lia.
    + apply ends_ret, ends_bind. by apply Hrel.
Qed.

Lemma mpmc_DequeueBulk r P C l dst :
  mpmc_state cap r P C l →
  ends (DequeueBulk dst) r (λ '(available, err, dst') r', same_config r r' ∧
    if m_maxDequeueBatch (m_config r) <? len dst
    then err = Some (batchLengthError "dequeue" (len dst) (m_maxDequeueBatch (m_config r)) cap) ∧
         dst' = dst ∧ mpmc_state cap r' P C l ∧ available = len l
    else if len dst <=? len l
    then err = None ∧ dst' = take (length dst) l ∧
         mpmc_state cap r' P (C + len dst) (drop (length dst) l) ∧
         reported available (len l - len dst)
           (m_exactBatchCounts (m_config r) = true ∨ dst = [])
    else err = Some ErrEmpty ∧ dst' = dst ∧ mpmc_state cap r' P C l ∧ available = len l).
Proof.
  intros Hst. pose proof mpmc_cap_bounds. pose proof (mpmc_state_bounds _ _ _ _ _ Hst).
  pose proof (len_nonneg dst). pose proof (ms_maxDequeue _ _ _ _ _ Hst).
  unfold DequeueBulk. apply ends_bind, ends_load. rewrite (mpmc_capacity_of r P C l) by done.
  rewrite orb_ltb_max by lia.
  destruct (Z.ltb_spec (m_maxDequeueBatch (m_config r)) (len dst)) as [Hlong|Hshort].
  { apply ends_bind, (ends_headPosition cons r C); [apply Hst|].
    apply ends_bind, ends_Load, ends_ret. split_and!; [done|done|done|done|].
    by apply (mpmc_fresh_available r P C l). }
  rewrite (u32_small (len dst)) by (unfold is_u32; lia).
  apply ends_bind, (mpmc_ends_reserveConsumer r P C l); [done|lia|].
  intros w cp rm Hf Hcp Hcw Hres. assert (Z.to_nat (len dst) = length dst) as Hnat by (unfold len; lia).
  destruct (Z.leb_spec (len dst) (len l)) as [Hroom|Hempty].
  - rewrite granted_all in * by lia. destruct (Z.eqb_spec (len dst) 0) as [Hz0|Hz0].
    + apply ends_ret. apply len_0_nil in Hz0 as ->. change (len []) with 0 in *. simpl.
      rewrite Z.add_0_r, drop_0 in *.
      split_and!; [done..|by apply (mpmc_state_kept_C r P C l w cp)|]. eapply fresh_reported; [done|auto].
    + destruct (mpmc_state_take r P C l (len dst)) as [Hh Hlen]; [done|lia|].
      apply ends_bind, ends_bind, ends_load. cbn [m_config].
      apply (ends_readInterval cons cap Hcap _ _ _ C (len dst) (take (Z.to_nat (len dst)) l));
        [apply Hst|apply (mpmc_state_len _ _ _ _ _ Hst)|lia|done|done|].
      intros es' Har. apply ends_bind, (ends_releaseC r P C l (len dst) w cp); try done; [lia|].
      intros r' Hs Hst'. apply ends_ret. rewrite Hnat in *.
      rewrite copy_front, drop_ge, app_nil_r by (unfold len in *; lia).
      split_and!; [done..|]. eapply fresh_reported; [done|]. intros [?|?]; [auto|subst; by destruct Hz0].
  - rewrite granted_none in * by lia. destruct (Z.eqb_spec 0 0); [|lia]. apply ends_ret.
    rewrite Z.add_0_r in Hcp. split_and!; [done| |done|by apply (mpmc_state_kept_C r P C l w cp)|].
    + destruct (Z.eqb_spec (len dst) 0); [lia|done].
    + destruct Hf as [_ Hf]. rewrite Hf; lia.
Qed.

Lemma mpmc_DequeueBurst r P C l dst :
  mpmc_state cap r P C l →
  ends (DequeueBurst dst) r (λ '(n, available, dst') r', same_config r r' ∧
    let want := Z.min (len dst) (m_maxDequeueBatch (m_config r)) in
    n = Z.min want (len l) ∧ dst' = take (Z.to_nat n) l ++ drop (Z.to_nat n) dst ∧
    mpmc_state cap r' P (C + n) (drop (Z.to_nat n) l) ∧
    reported available (len l - n)
      (m_exactBatchCounts (m_config r) = true ∨ n < want ∨ want = 0)).
Proof.
  intros Hst. pose proof mpmc_cap_bounds. pose proof (mpmc_state_bounds _ _ _ _ _ Hst).
  pose proof (len_nonneg dst). pose proof (ms_maxDequeue _ _ _ _ _ Hst).
  unfold DequeueBurst. apply ends_bind, ends_load.
  set (want := Z.min (len dst) (m_maxDequeueBatch (m_config r))).
  rewrite (u32_small want) by (unfold is_u32; lia).
  apply ends_bind, (mpmc_ends_reserveConsumer r P C l); [done|lia|]. rewrite granted_part.
  set (n := Z.min want (len l)). intros w cp rm Hf Hcp Hcw Hres.
  assert (reported (rm - n) (len l - n)
    (m_exactBatchCounts (m_config r) = true ∨ n < want ∨ want = 0)) as Hrep.
  { eapply fresh_reported; [done|]. intros [?|[?|?]]; auto. }
  destruct (Z.eqb_spec n 0) as [Hz0|Hz0].
  - apply ends_ret. rewrite Hz0, Z.sub_0_r, Z.add_0_r in *.
    split_and!; [done..|by apply (mpmc_state_kept_C r P C l w cp)|done].
  - destruct (mpmc_state_take r P C l n) as [Hh Hlen]; [done|lia|].
    apply ends_bind, ends_bind, ends_load. cbn [m_config].
    apply (ends_readInterval cons cap Hcap _ _ _ C n (take (Z.to_nat n) l));
      [apply Hst|apply (mpmc_state_len _ _ _ _ _ Hst)|lia|done|done|].
    intros es' Har. apply ends_bind, (ends_releaseC r P C l n w cp); try done; [lia|].
    intros r' Hs Hst'. apply ends_ret. rewrite copy_front by lia.
    replace (length (take (Z.to_nat n) l)) with (Z.to_nat n) by (unfold len in Hlen; lia).
    by split_and!.
Qed.

Lemma mpmc_Count r P C l :
  mpmc_state cap r P C l → ends Count r (λ n r', r' = r ∧ n = len l).
Proof.
  intros Hst. unfold Count. do 2 apply ends_bind, ends_Load. apply ends_bind, ends_load, ends_ret.
  split; [done|]. unfold Capacity. rewrite (mpmc_capacity_of r P C l) by done.
  change (cget (published_cell cons) r) with (published (m_consumer r)).
  rewrite (proj1 (ms_consumer _ _ _ _ _ Hst)). by apply (mpmc_fresh_available r P C l).
Qed.
End calls.

Lemma mpmc_queue_holds_intro cap r P C l :
  pow2_cap cap → mpmc_state cap r P C l → queue_holds r l ∧ Capacity r = cap.
Proof.
  intros Hcap Hst. unfold queue_holds, Capacity. rewrite (mpmc_capacity_of cap Hcap r P C l) by done. eauto.
Qed.

Lemma mpmc_queue_holds_next cap r r' P C l :
  Capacity r = cap → pow2_cap cap → mpmc_state cap r' P C l → queue_holds r' l.
Proof. intros _ Hcap Hst. by eapply mpmc_queue_holds_intro. Qed.

(** The queue as an implementation of the common interface. *)
Definition mpmc_api : queue_api (MPMCQueue T) T :=
  QueueApi zero (λ r _ l, queue_holds r l) same_config Capacity MaxEnqueueBatch MaxDequeueBatch
    (λ r, m_exactBatchCounts (m_config r)) (λ r, m_exactBatchCounts (m_config r))
    Enqueue Dequeue EnqueueBulk EnqueueBurst DequeueBulk DequeueBurst Count.

Lemma mpmc_enqueues r k l : queue_holds r l → enqueue_spec mpmc_api r k l.
Proof.
  intros (Hcap & P & C & Hst). split_and!; [intros x _|intros xs _..].
  - eapply ends_mono; [by apply mpmc_Enqueue|]. intros err r' [Hs Hr]. split; [done|].
    change (api_capacity mpmc_api r) with (Capacity r). destruct (len l <? Capacity r).
    + destruct Hr as (? & P' & ?). split; [done|]. by eapply mpmc_queue_holds_next.
    + destruct Hr as (? & ?). split; [done|]. by eapply mpmc_queue_holds_next.
  - eapply ends_mono; [by apply (mpmc_EnqueueBulk _ Hcap)|]. intros [free err] r' [Hs Hr]. split; [done|].
    change (api_maxEnqueue mpmc_api r) with (m_maxEnqueueBatch (m_config r)).
    change (api_capacity mpmc_api r) with (Capacity r).
    destruct (_ <? _); [|destruct (_ <=? _)]; destruct Hr as (? & ? & ?);
      (split_and!; [done|by eapply mpmc_queue_holds_next|done]).
  - eapply ends_mono; [by apply (mpmc_EnqueueBurst _ Hcap)|]. intros [n free] r' (Hs & Hn & Hst' & Hr).
    split; [done|]. split; [done|]. split; [by eapply mpmc_queue_holds_next|done].
Qed.

Lemma mpmc_dequeues r k l : queue_holds r l → dequeue_spec mpmc_api r k l.
Proof.
  intros (Hcap & P & C & Hst). split_and!; [|intros dst..|].
  - eapply ends_mono; [by apply (mpmc_Dequeue _ Hcap)|]. intros [v err] r' [Hs Hr]. split; [done|].
    destruct l; destruct Hr as (? & ? & ?); (split_and!; [done..|by eapply mpmc_queue_holds_next]).
  - eapply ends_mono; [by apply (mpmc_DequeueBulk _ Hcap)|].
    intros [[available err] dst'] r' [Hs Hr]. split; [done|].
    change (api_maxDequeue mpmc_api r) with (m_maxDequeueBatch (m_config r)).
    destruct (_ <? _); [|destruct (_ <=? _)]; destruct Hr as (? & ? & ? & ?);
      (split_and!; [done|done|by eapply mpmc_queue_holds_next|done]).
  - eapply ends_mono; [by apply (mpmc_DequeueBurst _ Hcap)|].
    intros [[n available] dst'] r' (Hs & Hn & Hd & Hst' & Hr).
    split; [done|]. split; [done|]. split; [done|]. split; [by eapply mpmc_queue_holds_next|done].
  - eapply ends_mono; [by apply (mpmc_Count _ Hcap r P C l)|]. intros n r' [-> ->].
    by split_and!; [|split; [|by eexists _, _]|].
Qed.

#[export] Instance mpmc_fifo : FifoQueue mpmc_api.
Proof.
  split; [apply mpmc_enqueues|apply mpmc_dequeues|..].
  - intros r k l (Hcap & P & C & Hst). apply (mpmc_state_bounds _ _ _ _ _ Hst).
  - intros r k l (Hcap & P & C & Hst). pose proof (pow2_cap_range _ Hcap).
    split; [done|]. split; [apply (ms_maxEnqueue _ _ _ _ _ Hst)|apply (ms_maxDequeue _ _ _ _ _ Hst)].
  - intros r r' Hs. simpl. unfold same_config, Capacity, MaxEnqueueBatch, MaxDequeueBatch in *.
    naive_solver congruence.
Qed.

(** C25. On a quiescent MPMC queue, with ordered or relaxed publication on either side, every call
    returns and acts as the bounded FIFO does: the reservation, the copy in one or two runs of
    slots, the wait for the tail or the counter protocol and the mirror together append and
    remove exactly the values the specification says, with its errors and counts. *)
Theorem mpmc_fifo_spec r k l :
  queue_holds r l → enqueue_spec mpmc_api r k l ∧ dequeue_spec mpmc_api r k l.
Proof. intros Hq. split; [by apply mpmc_enqueues|by apply mpmc_dequeues]. Qed.

Lemma mpmc_pristine_state cap cfg :
  pow2_cap cap → m_mask cfg = cap - 1 → 1 <= m_maxEnqueueBatch cfg <= cap →
  1 <= m_maxDequeueBatch cfg <= cap → 0 <= prodHTDMax cfg → 0 <= consHTDMax cfg →
  mpmc_state cap (MkMPMC cfg zero_words zero_words (replicate (Z.to_nat cap) zero)) 0 0 [].
Proof.
  intros Hcap Hm He Hd Hp Hc. pose proof (pow2_cap_range _ Hcap).
  constructor; try done; [apply window_empty; lia|apply idle_zero|apply idle_zero|..].
  - exists 0. split_and!; [done|lia..].
  - exists 0. split_and!; [done|lia..].
Qed.

(** A constructed MPMC queue is empty, with the requested capacity and the options' limits and
    modes; [Reset] returns any quiescent queue to that state and clears every slot. *)
Theorem mpmc_new_reset_spec :
  (∀ count options r, NewMPMCQueue count options = inr r →
     queue_holds r [] ∧ Capacity r = count ∧
     let cfg := configured count modeMulti modeMulti options in
     MaxEnqueueBatch r = maxEnqueueBatch cfg ∧ MaxDequeueBatch r = maxDequeueBatch cfg ∧
     producerRelaxed (m_config r) = mode_eqb (prodMode cfg) modeRelaxed ∧
     consumerRelaxed (m_config r) = mode_eqb (consMode cfg) modeRelaxed) ∧
  (∀ r l, queue_holds r l →
     ends Reset r (λ _ r', queue_holds r' [] ∧ same_config r r' ∧
       m_entries r' = replicate (Z.to_nat (Capacity r)) zero)).
Proof.
  split.
  - intros count options r. unfold NewMPMCQueue.
    destruct (resolveConfig _ _ _ _ _ _) as [|cfg] eqn:Hcfg; [done|]. intros [= <-].
    pose proof (resolveConfig_configured _ _ _ _ _ _ _ Hcfg) as <-.
    apply resolveConfig_ok in Hcfg as (Hcap & He & Hd & _). pose proof (pow2_cap_range _ Hcap).
    set (r := MkMPMC _ _ _ _). assert (mpmc_state count r 0 0 []) as Hst.
    { apply mpmc_pristine_state; simpl; try done; try apply resolveHeadTailDistance_range.
      - rewrite i64_small by (unfold is_int, minInt, maxInt; lia). by apply u32_small; unfold is_u32; lia.
      - rewrite u32_small by (unfold is_u32; lia). lia.
      - rewrite u32_small by (unfold is_u32; lia). lia. }
    destruct (mpmc_queue_holds_intro count r 0 0 []) as [Hq Hc]; [done..|].
    split; [done|]. split; [done|]. cbv zeta.
    split_and!; [apply u32_small; unfold is_u32; lia..|done|done].
  - intros r l (Hcap & P & C & Hst). unfold Reset.
    pose proof (pow2_cap_range _ Hcap). pose proof (mpmc_state_len _ _ _ _ _ Hst) as Hlen.
    apply ends_bind, ends_clear_all; [change (0 < len (m_entries r)); lia|].
    do 9 apply ends_bind, ends_Store. apply ends_Store.
    set (r' := cset _ _ _). assert (r' = MkMPMC (m_config r) zero_words zero_words
      (replicate (Z.to_nat (Capacity r)) zero)) as ->.
    { unfold r'. simpl. do 2 f_equal. unfold len in Hlen. lia. }
    split_and!; [|done|done]. apply (mpmc_queue_holds_next (Capacity r) r _ 0 0); [done|done|].
    apply mpmc_pristine_state; try done; apply Hst.
Qed.
End queue.

(** ** Witnesses *)

(** Four slots, relaxed producers. *)
Definition demo : MPMCQueue Z :=
  MkMPMC (MkMpmcConfig 3 4 4 0 0 8192 true false true false) zero_words zero_words [0; 0; 0; 0].

Lemma mpmc_demo_new : NewMPMCQueue 0 4 [WithRelaxedMultiProdEnqueue] = inr demo.
Proof. reflexivity. Qed.

Lemma mpmc_demo_holds : queue_holds 0 demo [].
Proof.
  eapply (mpmc_queue_holds_next 0 4 demo); [reflexivity|exists 2; split; [lia|reflexivity]|].
  apply (mpmc_pristine_state 0 4); try (simpl; lia). exists 2. split; [lia|reflexivity].
Qed.

Lemma mpmc_fifo_witness :
  ends (EnqueueBulk [7; 8; 9]) demo (λ '(free, err) r', err = None ∧ queue_holds 0 r' [7; 8; 9]).
Proof.
  destruct (mpmc_fifo_spec 0 demo 3 [] mpmc_demo_holds) as ((_ & Hbulk & _) & _).
  eapply ends_mono; [apply (Hbulk [7; 8; 9]); unfold len; simpl; lia|].
  intros [free err] r' (_ & He & Hq & _). split; [exact He|exact Hq].
Defined.
End MPMC.
