(* ===== verification/DpdkMPSC.v ===== *)
(** * The multi-producer single-consumer queue (src/ring/dpdk/mpsc.go)

    The producers are a concurrent side of [DpdkRing]; the consumer keeps a private cursor and a
    cached producer position and publishes the positions it released. *)

From Stdlib Require Import ZArith Lia.
From stdpp Require Import prelude list strings.
From S2P Require Import Prelude Prog RingCore RingSlots RingSpec RingCalls DpdkOptions DpdkRing.

Module MPSC.
Import Prog Ring Slots RingSpec RingCalls DpdkOptions DpdkRing.

Record mpscProducerConfig := MkProducerConfig {
  pc_mask : Z;
  pc_maxBatch : Z;
  pc_spinsBeforeYield : Z;
  pc_htdMax : Z;
  pc_relaxed : bool;
  pc_exactBatchCounts : bool;
}.

Record mpscConsumer := MkConsumer {
  c_mask : Z;
  c_cursor : Z;
  c_cachedProducer : Z;
  c_clearOnDequeue : bool;
  c_maxBatch : Z;
  c_exactBatchCounts : bool;
}.

(** [q_producer] is producerReservation and producerPublication; both sides' [entries] are one
    backing array. *)
Record MPSCQueue (T : Type) := MkMPSC {
  producerConfig : mpscProducerConfig;
  q_producer : sideWords;
  q_consumer : mpscConsumer;
  consumerPublished : Z;
  q_entries : list T;
}.
Arguments MkMPSC {T} _ _ _ _ _.
Arguments producerConfig {T} _.
Arguments q_producer {T} _.
Arguments q_consumer {T} _.
Arguments consumerPublished {T} _.
Arguments q_entries {T} _.

#[export] Instance mpsc_slots T : Slots (MPSCQueue T) T.
Proof.
  refine {| entries := q_entries;
            set_entries es r :=
              MkMPSC (producerConfig r) (q_producer r) (q_consumer r) (consumerPublished r) es |};
    try reflexivity. by intros [].
Defined.

Definition mpsc_producer T : side (MPSCQueue T) T.
Proof.
  refine {| side_role := Producer;
            words := q_producer;
            set_words w r :=
              MkMPSC (producerConfig r) w (q_consumer r) (consumerPublished r) (q_entries r);
            config r := SideConfig (pc_mask (producerConfig r)) (pc_htdMax (producerConfig r))
              (pc_spinsBeforeYield (producerConfig r)) (pc_relaxed (producerConfig r));
            opposite := consumerPublished |}; try reflexivity. by intros [].
Defined.

Section queue.
Context {T : Type} (zero : T).
Implicit Types r : MPSCQueue T.
Abbreviation M := (prog (MPSCQueue T)).
Abbreviation prod := (mpsc_producer T).

(** ** Consumer fields *)

Definition set_consumer (c : mpscConsumer) r :=
  MkMPSC (producerConfig r) (q_producer r) c (consumerPublished r) (q_entries r).
Definition set_cursor (x : Z) r :=
  let c := q_consumer r in
  set_consumer (MkConsumer (c_mask c) x (c_cachedProducer c) (c_clearOnDequeue c)
    (c_maxBatch c) (c_exactBatchCounts c)) r.
Definition set_cachedProducer (x : Z) r :=
  let c := q_consumer r in
  set_consumer (MkConsumer (c_mask c) (c_cursor c) x (c_clearOnDequeue c)
    (c_maxBatch c) (c_exactBatchCounts c)) r.
Definition consumerPublished_cell : cell (MPSCQueue T) :=
  Cell consumerPublished
    (λ x r, MkMPSC (producerConfig r) (q_producer r) (q_consumer r) x (q_entries r)).

(** ** Construction and queries *)

Definition NewMPSCQueue (count : Z) (options : list Option) : error + MPSCQueue T :=
  match resolveConfig "NewMPSCQueue" count modeMulti modeSingle true options with
  | inl err => inl err
  | inr cfg =>
      inr (MkMPSC
        (MkProducerConfig (u32 (count -i 1)) (u32 (maxEnqueueBatch cfg))
           (u32 (DpdkOptions.spinsBeforeYield cfg))
           (resolveHeadTailDistance (prodMode cfg) count (maxProducerHeadTailDistance cfg)
              (producerHeadTailDistanceSet cfg))
           (mode_eqb (prodMode cfg) modeRelaxed) (exactBatchCounts cfg))
        zero_words
        (MkConsumer (u32 (count -i 1)) 0 0 (negb (keepDequeued cfg)) (u32 (maxDequeueBatch cfg))
           (exactBatchCounts cfg))
        0 (replicate (Z.to_nat count) zero))
  end.

Definition Capacity r : Z := pc_mask (producerConfig r) +32 1.
Definition MaxEnqueueBatch r : Z := pc_maxBatch (producerConfig r).
Definition MaxDequeueBatch r : Z := c_maxBatch (q_consumer r).

Definition Count : M Z :=
  consumer ← Load consumerPublished_cell;
  producer ← Load (published_cell prod);
  capacity ← load Capacity;
  mret (Z.min (producer -32 consumer) capacity).

Definition Free : M Z := capacity ← load Capacity; count ← Count; mret (capacity -i count).
Definition Full : M bool := count ← Count; capacity ← load Capacity; mret (count =? capacity).
Definition Empty : M bool := count ← Count; mret (count =? 0).

Definition Reset : M unit :=
  _ ← clear_all zero;
  _ ← Store (head_cell prod) 0;
  _ ← Store (headRTS_cell prod) 0;
  _ ← Store (tailRTS_cell prod) 0;
  _ ← Store (cached_cell prod) 0;
  _ ← Store (published_cell prod) 0;
  _ ← modify (set_cursor 0);
  _ ← modify (set_cachedProducer 0);
  Store consumerPublished_cell 0.

(** ** The producer side *)

Definition mpscAttemptProducer (word requested : Z) (fixed exact : bool) : M (Z * Z * Z * bool) :=
  attempt prod word requested fixed exact.

Definition mpscReserveProducer (requested : Z) (fixed exact : bool) : M (Z * Z * Z) :=
  forever (
    head ← captureHead prod;
    '(start, count, remaining, retry) ← mpscAttemptProducer head requested fixed exact;
    mret (if retry : bool then None else Some (start, count, remaining))).

Definition mpscWriteProducer (start : Z) (items : list T) : M unit := writeInterval prod start items.
Definition mpscPublishProducer (start count : Z) : M unit := publish prod start count.
Definition mpscProducerHead : M Z := headPosition prod.

Definition Enqueue (item : T) : M (option error) :=
  '(start, count, _) ← mpscReserveProducer 1 true false;
  if count =? 0 then mret (Some ErrFull)
  else
    producer ← load producerConfig;
    _ ← slot_set (Z.land start (pc_mask producer)) item;
    _ ← mpscPublishProducer start count;
    mret None.

Definition EnqueueBulk (items : list T) : M (Z * option error) :=
  producer ← load producerConfig;
  let capacity := pc_mask producer +32 1 in
  if (capacity <? len items) || (pc_maxBatch producer <? len items) then
    head ← mpscProducerHead;
    consumer ← Load consumerPublished_cell;
    let fresh := capacity +32 consumer -32 head in
    mret (Z.min fresh capacity,
          Some (batchLengthError "enqueue" (len items) (pc_maxBatch producer) capacity))
  else
    '(start, count, remaining) ←
      mpscReserveProducer (u32 (len items)) true (pc_exactBatchCounts producer);
    if count =? 0 then
      mret (remaining, if len items =? 0 then None else Some ErrFull)
    else
      _ ← mpscWriteProducer start items;
      _ ← mpscPublishProducer start count;
      mret (remaining, None).

Definition EnqueueBurst (items : list T) : M (Z * Z) :=
  producer ← load producerConfig;
  let length := Z.min (len items) (pc_maxBatch producer) in
  '(start, count, remaining) ←
    mpscReserveProducer (u32 length) false (pc_exactBatchCounts producer);
  if count =? 0 then mret (0, remaining)
  else
    _ ← mpscWriteProducer start (sub items 0 count);
    _ ← mpscPublishProducer start count;
    mret (count, remaining).

(** ** The consumer side *)

(** [consumer.cachedProducer = r.producerPublication.published.Load()], with the value loaded. *)
Definition refreshProducer : M Z :=
  producer ← Load (published_cell prod);
  _ ← modify (set_cachedProducer producer);
  mret producer.

Definition mpscReadConsumer (start n : Z) : M (list T) :=
  consumer ← load q_consumer;
  readSlots (c_mask consumer) zero (c_clearOnDequeue consumer) start n.

Definition mpscReleaseConsumer (count : Z) : M unit :=
  _ ← modify (λ r, set_cursor (c_cursor (q_consumer r) +32 count) r);
  cursor ← load (λ r, c_cursor (q_consumer r));
  Store consumerPublished_cell cursor.

Definition Dequeue : M (T * option error) :=
  consumer ← load q_consumer;
  let capacity := c_mask consumer +32 1 in
  let available := c_cachedProducer consumer -32 c_cursor consumer in
  available ← (if (available =? 0) || (capacity <? available)
               then producer ← refreshProducer; mret (producer -32 c_cursor consumer)
               else mret available);
  if (available =? 0) || (capacity <? available) then mret (zero, Some ErrEmpty)
  else
    let index := Z.land (c_cursor consumer) (c_mask consumer) in
    value ← slot_get index;
    _ ← (if c_clearOnDequeue consumer then slot_set index zero else mret tt);
    _ ← mpscReleaseConsumer 1;
    mret (value, None).

Definition mpscDequeueBatch (dst : list T) (fixed : bool) : M (Z * Z * list T) :=
  consumer ← load q_consumer;
  let capacity := c_mask consumer +32 1 in
  let length := u32 (len dst) in
  let available := c_cachedProducer consumer -32 c_cursor consumer in
  available ← (if c_exactBatchCounts consumer || (length =? 0) || (available <? length) ||
                  (capacity <? available)
               then producer ← refreshProducer; mret (producer -32 c_cursor consumer)
               else mret available);
  if capacity <? available then mret (0, capacity, dst)
  else if fixed && (available <? length) then mret (0, available, dst)
  else
    let length := Z.min length available in
    if length =? 0 then mret (0, available, dst)
    else
      values ← mpscReadConsumer (c_cursor consumer) length;
      _ ← mpscReleaseConsumer length;
      mret (length, available -32 length, copy_at 0 values dst).

Definition DequeueBulk (dst : list T) : M (Z * option error * list T) :=
  consumer ← load q_consumer;
  let capacity := c_mask consumer +32 1 in
  if (capacity <? len dst) || (c_maxBatch consumer <? len dst) then
    producer ← Load (published_cell prod);
    let fresh := producer -32 c_cursor consumer in
    mret (Z.min fresh capacity,
          Some (batchLengthError "dequeue" (len dst) (c_maxBatch consumer) capacity), dst)
  else
    '(moved, remaining, dst') ← mpscDequeueBatch dst true;
    mret (remaining, if moved =? len dst then None else Some ErrEmpty, dst').

Definition DequeueBurst (dst : list T) : M (Z * Z * list T) :=
  consumer ← load q_consumer;
  let length := Z.min (len dst) (c_maxBatch consumer) in
  '(moved, remaining, front) ← mpscDequeueBatch (sub dst 0 length) false;
  mret (moved, remaining, front ++ sub dst length (len dst)).

(** ** The abstract queue *)

Record mpsc_state (cap : Z) r (P C : Z) (l : list T) : Prop := {
  st_window : window zero (c_clearOnDequeue (q_consumer r)) cap (q_entries r) P C l;
  st_mask : pc_mask (producerConfig r) = cap - 1 ∧ c_mask (q_consumer r) = cap - 1;
  st_maxEnqueue : 1 <= pc_maxBatch (producerConfig r) <= cap;
  st_maxDequeue : 1 <= c_maxBatch (q_consumer r) <= cap;
  st_distance : 0 <= pc_htdMax (producerConfig r);
  st_producer : idle_words (config prod r) (q_producer r) P;
  st_consumer : c_cursor (q_consumer r) = u32 C ∧ consumerPublished r = u32 C;
  st_cachedConsumer : ∃ cc, cached (q_producer r) = u32 cc ∧ cc <= C ∧ P <= cc + cap;
  st_cachedProducer : ∃ cp, c_cachedProducer (q_consumer r) = u32 cp ∧ C <= cp <= P;
}.

Definition queue_holds r (l : list T) : Prop :=
  pow2_cap (Capacity r) ∧ ∃ P C, mpsc_state (Capacity r) r P C l.

Definition consumer_config (c : mpscConsumer) : Z * bool * Z * bool :=
  (c_mask c, c_clearOnDequeue c, c_maxBatch c, c_exactBatchCounts c).

Definition same_config r r' : Prop :=
  producerConfig r' = producerConfig r ∧
  consumer_config (q_consumer r') = consumer_config (q_consumer r).

(** The queue after a producer left the words [w], and after the consumer moved to [C]. *)
Definition produced r (w : sideWords) (es : list T) : MPSCQueue T :=
  MkMPSC (producerConfig r) w (q_consumer r) (consumerPublished r) es.

Definition consumed r (C cp : Z) (es : list T) : MPSCQueue T :=
  let c := q_consumer r in
  MkMPSC (producerConfig r) (q_producer r)
    (MkConsumer (c_mask c) (u32 C) (u32 cp) (c_clearOnDequeue c) (c_maxBatch c)
       (c_exactBatchCounts c)) (u32 C) es.

Lemma mpsc_state_bounds cap r P C l :
  mpsc_state cap r P C l → 0 <= C ∧ P = C + len l ∧ 0 <= len l <= cap.
Proof. intros [[] _ _ _ _ _ _ _ _]. pose proof (len_nonneg l). lia. Qed.

Lemma mpsc_state_len cap r P C l : mpsc_state cap r P C l → len (q_entries r) = cap.
Proof. intros Hst. apply Hst. Qed.

Lemma mpsc_state_produced cap r P C l xs w es' cc :
  0 < cap → mpsc_state cap r P C l → len l + len xs <= cap →
  after_write (q_entries r) P xs es' →
  idle_words (config prod r) w (P + len xs) → cached w = u32 cc →
  cc <= C → P + len xs <= cc + cap →
  mpsc_state cap (produced r w es') (P + len xs) C (l ++ xs).
Proof.
  intros Hc [Hw Hm He Hd Hh Hp Hco Hcc (cp & Hcp & Hcb)] Hfit Haw Hidle Hcw H1 H2.
  pose proof (len_nonneg xs). constructor; try done; [by eapply window_write| |].
  - by exists cc.
  - exists cp. split; [done|lia].
Qed.

Lemma mpsc_state_consumed cap r P C l n cp es' :
  0 < cap → mpsc_state cap r P C l → 0 <= n <= len l →
  after_read zero (c_clearOnDequeue (q_consumer r)) (q_entries r) C n es' → C + n <= cp <= P →
  mpsc_state cap (consumed r (C + n) cp es') P (C + n) (drop (Z.to_nat n) l).
Proof.
  intros Hc [Hw Hm He Hd Hh Hp Hco (cc & Hcc & Hcb) Hcp] Hn Har H1.
  constructor; try done; [by eapply window_read| |].
  - exists cc. split; [done|lia].
  - by exists cp.
Qed.

Lemma consumed_same r C cp es : same_config r (consumed r C cp es).
Proof. by split. Qed.

Section calls.
Context (cap : Z) (Hcap : pow2_cap cap).

Lemma mpsc_cap_bounds : 1 <= cap <= 2 ^ 30.
Proof. by apply pow2_cap_range. Qed.

Lemma mpsc_state_kept_P r P C l w cc :
  mpsc_state cap r P C l → reserved_words (config prod r) w P 0 → cached w = u32 cc →
  cc <= C → P <= cc + cap → mpsc_state cap (produced r w (q_entries r)) P C l.
Proof. intros [Hw Hm He Hd Hh Hp Hco Hcc Hcp] Hidle Hcw H1 H2. constructor; try done. by exists cc. Qed.

Lemma mpsc_state_kept_C r P C l cp :
  mpsc_state cap r P C l → C <= cp <= P → mpsc_state cap (consumed r C cp (q_entries r)) P C l.
Proof.
  intros [Hw Hm He Hd Hh Hp Hco Hcc Hcp] H1. constructor; try done. by exists cp.
Qed.

Lemma mpsc_capacity_of r P C l : mpsc_state cap r P C l → pc_mask (producerConfig r) +32 1 = cap.
Proof. intros Hst. apply (mask_capacity cap Hcap). apply Hst. Qed.

(** ** Producer calls *)

Lemma mpsc_ends_reserveProducer r P C l requested fixed exact (Q : Z * Z * Z → MPSCQueue T → Prop) :
  mpsc_state cap r P C l → 0 <= requested <= cap →
  let n := granted fixed requested (cap - len l) in
  (∀ w cc rm, fresh_room exact requested n rm (cap - len l) →
     cc <= C → P + n <= cc + cap → cached w = u32 cc → reserved_words (config prod r) w P n →
     Q (u32 P, n, rm - n) (produced r w (q_entries r))) →
  ends (mpscReserveProducer requested fixed exact) r Q.
Proof.
  intros Hst Hreq n HQ. pose proof (mpsc_state_bounds _ _ _ _ _ Hst) as Hb. pose proof mpsc_cap_bounds.
  destruct Hst as [Hw [Hm _] _ _ Hh Hp [_ Hco] (cc & Hcc & Hct & Hcr) _].
  assert (room Producer cap C P = cap - len l) as Hroom by (simpl; lia).
  apply (ends_reserve prod cap Hcap r P C cc); [done..|simpl; lia|simpl; lia|lia|].
  change (side_role prod) with Producer. rewrite Hroom. fold n.
  intros w' cc' rm Hf Hr1 Hr2 Hcw Hres. apply (HQ w' cc'); [done|simpl in *; lia..|done|done].
Qed.

Lemma ends_publishProducer r P C l xs n w cc es' (Q : unit → MPSCQueue T → Prop) :
  mpsc_state cap r P C l → n = len xs → 0 < len xs → len l + len xs <= cap →
  after_write (q_entries r) P xs es' → reserved_words (config prod r) w P (len xs) →
  cached w = u32 cc → cc <= C → P + len xs <= cc + cap →
  (∀ r', same_config r r' → mpsc_state cap r' (P + len xs) C (l ++ xs) → Q tt r') →
  ends (mpscPublishProducer (u32 P) n) (produced r w es') Q.
Proof.
  intros Hst -> Hn Hfit Haw Hres Hcw H1 H2 HQ. pose proof mpsc_cap_bounds.
  pose proof (mpsc_state_bounds _ _ _ _ _ Hst).
  apply (ends_publish prod cap Hcap (produced r w es') P (len xs)); [done|lia|].
  intros w' Hcw' Hidle. apply HQ; [done|].
  apply (mpsc_state_produced cap r P C l xs w' es' cc); try done; [lia|]. by rewrite Hcw'.
Qed.

Lemma mpsc_Enqueue r P C l x :
  mpsc_state cap r P C l →
  ends (Enqueue x) r (λ err r', same_config r r' ∧
    if len l <? cap then err = None ∧ mpsc_state cap r' (P + 1) C (l ++ [x])
    else err = Some ErrFull ∧ mpsc_state cap r' P C l).
Proof.
  intros Hst. pose proof mpsc_cap_bounds. pose proof (mpsc_state_bounds _ _ _ _ _ Hst).
  unfold Enqueue. apply ends_bind, (mpsc_ends_reserveProducer r P C l); [done|lia|].
  intros w cc rm Hf Hlo Hhi Hcw Hres. destruct (Z.ltb_spec (len l) cap) as [Hroom|Hfull].
  - rewrite granted_all in * by lia. destruct (Z.eqb_spec 1 0); [lia|].
    apply ends_bind, ends_load. change (producerConfig (produced _ _ _)) with (producerConfig r).
    rewrite (proj1 (st_mask _ _ _ _ _ Hst)), mask_index by done.
    apply ends_bind, ends_slot_set; [lia|apply Hst|].
    apply ends_bind, (ends_publishProducer r P C l [x] 1 w cc); try done;
      [change (len [x]) with 1; lia| |].
    + apply after_write_one. change (0 < len (q_entries r)). rewrite (mpsc_state_len _ _ _ _ _ Hst). lia.
    + intros r' Hs Hst'. by apply ends_ret.
  - rewrite granted_none in * by lia. destruct (Z.eqb_spec 0 0); [|lia]. apply ends_ret.
    split_and!; [done..|]. rewrite Z.add_0_r in Hhi. by apply (mpsc_state_kept_P r P C l w cc).
Qed.

(** The counts of an oversized request come from the published positions. *)
Lemma mpsc_fresh_free r P C l :
  mpsc_state cap r P C l →
  Z.min (cap +32 consumerPublished r -32 u32 P) cap = cap - len l.
Proof.
  intros Hst. pose proof mpsc_cap_bounds. pose proof (mpsc_state_bounds _ _ _ _ _ Hst).
  rewrite (proj2 (st_consumer _ _ _ _ _ Hst)).
  change (cap +32 u32 C -32 u32 P) with (room_of Producer cap (u32 C) (u32 P)).
  rewrite room_of_eq by (simpl; lia). simpl. lia.
Qed.

Lemma mpsc_fresh_available r P C l :
  mpsc_state cap r P C l → Z.min (published (q_producer r) -32 u32 C) cap = len l.
Proof.
  intros Hst. pose proof mpsc_cap_bounds. pose proof (mpsc_state_bounds _ _ _ _ _ Hst).
  rewrite (proj1 (st_producer _ _ _ _ _ Hst)), u32_distance by lia. lia.
Qed.

Lemma mpsc_EnqueueBulk r P C l xs :
  mpsc_state cap r P C l →
  ends (EnqueueBulk xs) r (λ '(free, err) r', same_config r r' ∧
    if pc_maxBatch (producerConfig r) <? len xs
    then err = Some (batchLengthError "enqueue" (len xs) (pc_maxBatch (producerConfig r)) cap) ∧
         mpsc_state cap r' P C l ∧ free = cap - len l
    else if len l + len xs <=? cap
    then err = None ∧ mpsc_state cap r' (P + len xs) C (l ++ xs) ∧
         reported free (cap - len l - len xs)
           (pc_exactBatchCounts (producerConfig r) = true ∨ xs = [])
    else err = Some ErrFull ∧ mpsc_state cap r' P C l ∧ free = cap - len l).
Proof.
  intros Hst. pose proof mpsc_cap_bounds. pose proof (mpsc_state_bounds _ _ _ _ _ Hst).
  pose proof (len_nonneg xs). pose proof (st_maxEnqueue _ _ _ _ _ Hst).
  unfold EnqueueBulk. apply ends_bind, ends_load. rewrite (mpsc_capacity_of r P C l) by done.
  rewrite orb_ltb_max by lia.
  destruct (Z.ltb_spec (pc_maxBatch (producerConfig r)) (len xs)) as [Hlong|Hshort].
  { apply ends_bind, (ends_headPosition prod r P); [apply Hst|].
    apply ends_bind, ends_Load, ends_ret. split_and!; [done..|]. by apply (mpsc_fresh_free r P C l). }
  rewrite (u32_small (len xs)) by (unfold is_u32; lia).
  apply ends_bind, (mpsc_ends_reserveProducer r P C l); [done|lia|].
  intros w cc rm Hf Hlo Hhi Hcw Hres. destruct (Z.leb_spec (len l + len xs) cap) as [Hroom|Hfull].
  - rewrite granted_all in * by lia. destruct (Z.eqb_spec (len xs) 0) as [Hz0|Hz0].
    + apply ends_ret. apply len_0_nil in Hz0 as ->. rewrite app_nil_r. change (len []) with 0 in *.
      rewrite Z.add_0_r in *. split_and!; [done..|by apply (mpsc_state_kept_P r P C l w cc)|].
      eapply fresh_reported; [done|auto].
    + apply ends_bind, (ends_writeInterval prod cap Hcap); [apply Hst|apply (mpsc_state_len _ _ _ _ _ Hst)|lia|].
      intros es' Haw. apply ends_bind, (ends_publishProducer r P C l xs (len xs) w cc); try done; [lia|].
      intros r' Hs Hst'. apply ends_ret. split_and!; [done..|].
      eapply fresh_reported; [done|]. intros [?|?]; [auto|subst; by destruct Hz0].
  - rewrite granted_none in * by lia. destruct (Z.eqb_spec 0 0); [|lia]. apply ends_ret.
    rewrite Z.add_0_r in Hhi. split_and!; [done| |by apply (mpsc_state_kept_P r P C l w cc)|].
    + destruct (Z.eqb_spec (len xs) 0); [lia|done].
    + destruct Hf as [_ Hf]. rewrite Hf; lia.
Qed.

Lemma mpsc_EnqueueBurst r P C l xs :
  mpsc_state cap r P C l →
  ends (EnqueueBurst xs) r (λ '(n, free) r', same_config r r' ∧
    let want := Z.min (len xs) (pc_maxBatch (producerConfig r)) in
    n = Z.min want (cap - len l) ∧ mpsc_state cap r' (P + n) C (l ++ take (Z.to_nat n) xs) ∧
    reported free (cap - len l - n)
      (pc_exactBatchCounts (producerConfig r) = true ∨ n < want ∨ want = 0)).
Proof.
  intros Hst. pose proof mpsc_cap_bounds. pose proof (mpsc_state_bounds _ _ _ _ _ Hst).
  pose proof (len_nonneg xs). pose proof (st_maxEnqueue _ _ _ _ _ Hst).
  unfold EnqueueBurst. apply ends_bind, ends_load.
  set (want := Z.min (len xs) (pc_maxBatch (producerConfig r))).
  rewrite (u32_small want) by (unfold is_u32; lia).
  apply ends_bind, (mpsc_ends_reserveProducer r P C l); [done|lia|]. rewrite granted_part.
  set (n := Z.min want (cap - len l)). intros w cc rm Hf Hlo Hhi Hcw Hres.
  assert (reported (rm - n) (cap - len l - n)
    (pc_exactBatchCounts (producerConfig r) = true ∨ n < want ∨ want = 0)) as Hrep.
  { eapply fresh_reported; [done|]. intros [?|[?|?]]; auto. }
  destruct (Z.eqb_spec n 0) as [Hz0|Hz0].
  - apply ends_ret. rewrite Hz0, Z.sub_0_r, Z.add_0_r in *. rewrite app_nil_r.
    split_and!; [done|done|by apply (mpsc_state_kept_P r P C l w cc)|done].
  - assert (len (take (Z.to_nat n) xs) = n) as Hl by (apply len_take; lia). rewrite sub_0.
    apply ends_bind, (ends_writeInterval prod cap Hcap); [apply Hst|apply (mpsc_state_len _ _ _ _ _ Hst)|lia|].
    intros es' Haw. rewrite <- Hl in Hhi, Hres.
    apply ends_bind, (ends_publishProducer r P C l (take (Z.to_nat n) xs) n w cc); try done; [lia|lia|].
    rewrite Hl. intros r' Hs Hst'. by apply ends_ret.
Qed.

(** ** Consumer calls *)

Lemma consumed_cached r P C l x :
  mpsc_state cap r P C l → set_cachedProducer (u32 x) r = consumed r C x (q_entries r).
Proof.
  intros Hst. destruct (st_consumer _ _ _ _ _ Hst) as [Hcu Hpu].
  unfold set_cachedProducer, set_consumer, consumed. by rewrite Hcu, Hpu.
Qed.

(** The available entries, by the cached position or by a fresh one. *)
Lemma ends_available r P C l (refresh : bool) cp0 (Q : Z → MPSCQueue T → Prop) :
  mpsc_state cap r P C l → c_cachedProducer (q_consumer r) = u32 cp0 → C <= cp0 <= P →
  (let cp := if refresh then P else cp0 in Q (cp - C) (consumed r C cp (q_entries r))) →
  ends (if refresh
        then producer ← refreshProducer; mret (producer -32 c_cursor (q_consumer r))
        else mret (cp0 - C)) r Q.
Proof.
  intros Hst Hcp Hb HQ. pose proof mpsc_cap_bounds. pose proof (mpsc_state_bounds _ _ _ _ _ Hst).
  destruct refresh.
  - apply ends_bind, ends_bind, ends_Load, ends_bind, ends_modify, ends_ret, ends_ret.
    change (cget (published_cell prod) r) with (published (q_producer r)).
    rewrite (proj1 (st_producer _ _ _ _ _ Hst)), (proj1 (st_consumer _ _ _ _ _ Hst)).
    rewrite u32_distance by lia. by rewrite (consumed_cached r P C l).
  - apply ends_ret. cbv zeta in HQ. rewrite <- (consumed_cached r P C l cp0), <- Hcp in HQ by done.
    by replace (set_cachedProducer (c_cachedProducer (q_consumer r)) r) with r in HQ
      by (by destruct r as [? ? [] ? ?]).
Qed.

Lemma ends_releaseConsumer r C cp es' n (Q : unit → MPSCQueue T → Prop) :
  Q tt (consumed r (C + n) cp es') → ends (mpscReleaseConsumer n) (consumed r C cp es') Q.
Proof.
  intros HQ. unfold mpscReleaseConsumer. apply ends_bind, ends_modify, ends_bind, ends_load, ends_Store.
  cbn. by autorewrite with go_int.
Qed.

Lemma mpsc_state_take r P C l n :
  mpsc_state cap r P C l → 0 <= n <= len l →
  holds (q_entries r) C (take (Z.to_nat n) l) ∧ len (take (Z.to_nat n) l) = n.
Proof.
  intros Hst Hn. split; [|by apply len_take].
  eapply window_prefix; [by apply (st_window _ _ _ _ _ Hst)|done].
Qed.

Lemma mpsc_Dequeue r P C l :
  mpsc_state cap r P C l →
  ends Dequeue r (λ '(v, err) r', same_config r r' ∧
    match l with
    | x :: l' => v = x ∧ err = None ∧ mpsc_state cap r' P (C + 1) l'
    | [] => v = zero ∧ err = Some ErrEmpty ∧ mpsc_state cap r' P C []
    end).
Proof.
  intros Hst. pose proof mpsc_cap_bounds. pose proof (mpsc_state_bounds _ _ _ _ _ Hst).
  destruct (st_cachedProducer _ _ _ _ _ Hst) as (cp0 & Hcp & Hb).
  destruct (st_mask _ _ _ _ _ Hst) as [_ Hmask]. destruct (st_consumer _ _ _ _ _ Hst) as [Hcu _].
  unfold Dequeue. apply ends_bind, ends_load.
  rewrite (mask_capacity cap Hcap) by done.
  replace (c_cachedProducer (q_consumer r) -32 c_cursor (q_consumer r)) with (cp0 - C)
    by (rewrite Hcp, Hcu, u32_distance; lia).
  apply ends_bind, (ends_available r P C l _ cp0); [done..|]. cbv zeta.
  set (cp := if (_ =? _) || (_ <? _) then P else cp0).
  assert (C <= cp <= P ∧ (len l <> 0 → cp <> C)) as [Hcb Hne].
  { unfold cp. destruct (Z.eqb_spec (cp0 - C) 0), (Z.ltb_spec cap (cp0 - C)); simpl; lia. }
  destruct (Z.ltb_spec cap (cp - C)); [lia|]. rewrite orb_false_r. destruct l as [|x l'].
  - change (len []) with 0 in *. destruct (Z.eqb_spec (cp - C) 0); [|lia]. apply ends_ret.
    split_and!; [done..|]. by apply mpsc_state_kept_C.
  - assert (len (x :: l') = 1 + len l') as Hl by (unfold len; simpl; lia).
    pose proof (len_nonneg l'). destruct (Z.eqb_spec (cp - C) 0); [lia|].
    rewrite Hcu, Hmask, mask_index by done.
    apply ends_bind, (ends_slot_get cap C _ x); [lia|apply Hst| |].
    { rewrite <- (Z.add_0_r C). by apply (win_holds _ _ _ _ _ _ _ (st_window _ _ _ _ _ Hst) 0%nat). }
    assert (∀ es', after_read zero (c_clearOnDequeue (q_consumer r)) (q_entries r) C 1 es' →
      ends (_ ← mpscReleaseConsumer 1; mret (x, @None error)) (consumed r C cp es')
        (λ '(v, err) r', same_config r r' ∧ v = x ∧ err = None ∧ mpsc_state cap r' P (C + 1) l'))
      as Hrel.
    { intros es' Har. apply ends_bind, ends_releaseConsumer, ends_ret. split_and!; [done..|].
      apply (mpsc_state_consumed cap r P C (x :: l') 1); try done; lia. }
    apply ends_bind. destruct (c_clearOnDequeue (q_consumer r)) eqn:Hcl.
    + apply ends_slot_set; [lia|apply Hst|]. apply Hrel.
      apply after_write_one. change (0 < len (q_entries r)). rewrite (mpsc_state_len _ _ _ _ _ Hst). lia.
    + apply ends_ret. by apply Hrel.
Qed.

(** The shared body of the batch calls. *)
Lemma ends_dequeueBatch r P C l dst fixed :
  mpsc_state cap r P C l → len dst <= cap →
  ends (mpscDequeueBatch dst fixed) r (λ '(n, rest, dst') r', same_config r r' ∧
    n = granted fixed (len dst) (len l) ∧
    mpsc_state cap r' P (C + n) (drop (Z.to_nat n) l) ∧
    dst' = take (Z.to_nat n) l ++ drop (Z.to_nat n) dst ∧
    ∃ rm, rest = rm - n ∧ fresh_room (c_exactBatchCounts (q_consumer r)) (len dst) n rm (len l)).
Proof.
  intros Hst Hd. pose proof mpsc_cap_bounds. pose proof (mpsc_state_bounds _ _ _ _ _ Hst).
  pose proof (len_nonneg dst).
  destruct (st_cachedProducer _ _ _ _ _ Hst) as (cp0 & Hcp & Hb).
  destruct (st_mask _ _ _ _ _ Hst) as [_ Hmask]. destruct (st_consumer _ _ _ _ _ Hst) as [Hcu _].
  unfold mpscDequeueBatch. apply ends_bind, ends_load.
  rewrite (mask_capacity cap Hcap), (u32_small (len dst)) by (done || unfold is_u32; lia).
  replace (c_cachedProducer (q_consumer r) -32 c_cursor (q_consumer r)) with (cp0 - C)
    by (rewrite Hcp, Hcu, u32_distance; lia).
  apply ends_bind, (ends_available r P C l _ cp0); [done..|]. cbv zeta.
  set (refresh := _ || _ || _ || _). set (cp := if refresh then P else cp0).
  assert (C <= cp <= P) as Hcb by (unfold cp; destruct refresh; lia).
  set (n := granted fixed (len dst) (len l)).
  destruct (admission fixed (c_exactBatchCounts (q_consumer r)) cap (len dst) (cp0 - C) (len l))
    as [Hn Hfresh]; [lia..|]. fold refresh n in Hn, Hfresh.
  replace (if refresh then len l else cp0 - C) with (cp - C) in Hn, Hfresh
    by (unfold cp; destruct refresh; lia).
  destruct (Z.ltb_spec cap (cp - C)); [lia|]. clearbody n. unfold granted in Hn.
  assert (n = 0 → ends (mret (0, cp - C, dst)) (consumed r C cp (q_entries r))
    (λ '(n', rest, dst') r', same_config r r' ∧ n' = n ∧
      mpsc_state cap r' P (C + n') (drop (Z.to_nat n') l) ∧
      dst' = take (Z.to_nat n') l ++ drop (Z.to_nat n') dst ∧
      ∃ rm, rest = rm - n' ∧
        fresh_room (c_exactBatchCounts (q_consumer r)) (len dst) n' rm (len l))) as Hzero.
  { intros Hn0. rewrite Hn0 in Hfresh. apply ends_ret. rewrite Z.add_0_r.
    split_and!; [done..|by apply mpsc_state_kept_C|done|]. exists (cp - C). split; [lia|done]. }
  destruct (fixed && _); [by apply Hzero|].
  rewrite <- Hn. destruct (Z.eqb_spec n 0) as [Hz0|Hz0]; [by apply Hzero|].
  destruct (mpsc_state_take r P C l n) as [Hh Hlen]; [done|lia|].
  apply ends_bind, ends_bind, ends_load. rewrite Hcu.
  apply (ends_readSlots cap Hcap _ _ _ _ C n (take (Z.to_nat n) l));
    [done|apply (mpsc_state_len _ _ _ _ _ Hst)|lia|done|done|].
  intros es' Har. apply ends_bind, (ends_releaseConsumer r), ends_ret.
  rewrite (u32_small (cp - C - n)), copy_front by (unfold is_u32; lia).
  replace (length (take (Z.to_nat n) l)) with (Z.to_nat n) by (unfold len in Hlen; lia).
  split_and!; [done..| |done|by eexists].
  apply (mpsc_state_consumed cap r P C l n cp es'); [lia|done|lia|done|lia].
Qed.

Lemma mpsc_DequeueBulk r P C l dst :
  mpsc_state cap r P C l →
  ends (DequeueBulk dst) r (λ '(available, err, dst') r', same_config r r' ∧
    if c_maxBatch (q_consumer r) <? len dst
    then err = Some (batchLengthError "dequeue" (len dst) (c_maxBatch (q_consumer r)) cap) ∧
         dst' = dst ∧ mpsc_state cap r' P C l ∧ available = len l
    else if len dst <=? len l
    then err = None ∧ dst' = take (length dst) l ∧
         mpsc_state cap r' P (C + len dst) (drop (length dst) l) ∧
         reported available (len l - len dst)
           (c_exactBatchCounts (q_consumer r) = true ∨ dst = [])
    else err = Some ErrEmpty ∧ dst' = dst ∧ mpsc_state cap r' P C l ∧ available = len l).
Proof.
  intros Hst. pose proof mpsc_cap_bounds. pose proof (mpsc_state_bounds _ _ _ _ _ Hst).
  pose proof (len_nonneg dst). pose proof (st_maxDequeue _ _ _ _ _ Hst).
  unfold DequeueBulk. apply ends_bind, ends_load.
  rewrite (mask_capacity cap Hcap) by apply Hst. rewrite orb_ltb_max by lia.
  destruct (Z.ltb_spec (c_maxBatch (q_consumer r)) (len dst)) as [Hlong|Hshort].
  { apply ends_bind, ends_Load, ends_ret. split_and!; [done..|].
    rewrite (proj1 (st_consumer _ _ _ _ _ Hst)). by apply (mpsc_fresh_available r P C l). }
  apply ends_bind. eapply ends_mono; [apply (ends_dequeueBatch r P C l dst true Hst); lia|].
  intros [[n rest] dst'] r' (Hs & Hn & Hst' & Hdst & rm & -> & Hf). apply ends_ret. split; [done|].
  assert (Z.to_nat (len dst) = length dst) as Hnat by (unfold len; lia).
  destruct (Z.leb_spec (len dst) (len l)).
  - rewrite granted_all in Hn by lia. subst n. rewrite Z.eqb_refl, Hnat in *.
    split_and!; [done| |done|].
    + by rewrite Hdst, drop_all, app_nil_r.
    + eapply fresh_reported; [done|]. intros [?| ->]; auto.
  - rewrite granted_none in Hn by lia. subst n. rewrite Z.add_0_r in Hst'.
    destruct (Z.eqb_spec 0 (len dst)); [lia|]. split_and!; [done..|]. destruct Hf as [_ Hf].
    rewrite Hf; lia.
Qed.

Lemma mpsc_DequeueBurst r P C l dst :
  mpsc_state cap r P C l →
  ends (DequeueBurst dst) r (λ '(n, available, dst') r', same_config r r' ∧
    let want := Z.min (len dst) (c_maxBatch (q_consumer r)) in
    n = Z.min want (len l) ∧ dst' = take (Z.to_nat n) l ++ drop (Z.to_nat n) dst ∧
    mpsc_state cap r' P (C + n) (drop (Z.to_nat n) l) ∧
    reported available (len l - n)
      (c_exactBatchCounts (q_consumer r) = true ∨ n < want ∨ want = 0)).
Proof.
  intros Hst. pose proof mpsc_cap_bounds. pose proof (mpsc_state_bounds _ _ _ _ _ Hst).
  pose proof (len_nonneg dst). pose proof (st_maxDequeue _ _ _ _ _ Hst).
  unfold DequeueBurst. apply ends_bind, ends_load.
  set (want := Z.min (len dst) (c_maxBatch (q_consumer r))).
  assert (len (sub dst 0 want) = want) as Hw by (rewrite sub_0; apply len_take; lia).
  apply ends_bind. eapply ends_mono; [apply (ends_dequeueBatch r P C l _ false Hst); lia|].
  intros [[n rest] front] r' (Hs & Hn & Hst' & Hdst & rm & -> & Hf). rewrite Hw in *.
  rewrite granted_part in Hn. apply ends_ret. split_and!; [done|done| |done|].
  - rewrite Hdst, <- app_assoc. f_equal. by rewrite sub_rest by lia.
  - eapply fresh_reported; [done|]. intros [?|[?|?]]; auto.
Qed.

Lemma mpsc_Count r P C l :
  mpsc_state cap r P C l → ends Count r (λ n r', r' = r ∧ n = len l).
Proof.
  intros Hst. unfold Count. do 2 apply ends_bind, ends_Load. apply ends_bind, ends_load, ends_ret.
  split; [done|]. unfold Capacity. rewrite (mpsc_capacity_of r P C l) by done.
  change (cget consumerPublished_cell r) with (consumerPublished r).
  rewrite (proj2 (st_consumer _ _ _ _ _ Hst)). by apply (mpsc_fresh_available r P C l).
Qed.
End calls.

Lemma mpsc_queue_holds_intro cap r P C l :
  pow2_cap cap → mpsc_state cap r P C l → queue_holds r l ∧ Capacity r = cap.
Proof.
  intros Hcap Hst. unfold queue_holds, Capacity. rewrite (mpsc_capacity_of cap Hcap r P C l) by done. eauto.
Qed.

Lemma mpsc_queue_holds_next cap r P C l : pow2_cap cap → mpsc_state cap r P C l → queue_holds r l.
Proof. intros Hcap Hst. by eapply mpsc_queue_holds_intro. Qed.

(** The queue as an implementation of the common interface. *)
Definition mpsc_api : queue_api (MPSCQueue T) T :=
  QueueApi zero (λ r _ l, queue_holds r l) same_config Capacity MaxEnqueueBatch MaxDequeueBatch
    (λ r, pc_exactBatchCounts (producerConfig r)) (λ r, c_exactBatchCounts (q_consumer r))
    Enqueue Dequeue EnqueueBulk EnqueueBurst DequeueBulk DequeueBurst Count.

Lemma mpsc_enqueues r k l : queue_holds r l → enqueue_spec mpsc_api r k l.
Proof.
  intros (Hcap & P & C & Hst). split_and!; [intros x _|intros xs _..].
  - eapply ends_mono; [by apply mpsc_Enqueue|]. intros err r' [Hs Hr]. split; [done|].
    change (api_capacity mpsc_api r) with (Capacity r).
    destruct (len l <? Capacity r); destruct Hr as (? & ?);
      (split; [done|by eapply mpsc_queue_holds_next]).
  - eapply ends_mono; [by apply (mpsc_EnqueueBulk _ Hcap)|]. intros [free err] r' [Hs Hr]. split; [done|].
    change (api_maxEnqueue mpsc_api r) with (pc_maxBatch (producerConfig r)).
    change (api_capacity mpsc_api r) with (Capacity r).
    destruct (_ <? _); [|destruct (_ <=? _)]; destruct Hr as (? & ? & ?);
      (split_and!; [done|by eapply mpsc_queue_holds_next|done]).
  - eapply ends_mono; [by apply (mpsc_EnqueueBurst _ Hcap)|]. intros [n free] r' (Hs & Hn & Hst' & Hr).
    split; [done|]. split; [done|]. split; [by eapply mpsc_queue_holds_next|done].
Qed.

Lemma mpsc_dequeues r k l : queue_holds r l → dequeue_spec mpsc_api r k l.
Proof.
  intros (Hcap & P & C & Hst). split_and!; [|intros dst..|].
  - eapply ends_mono; [by apply (mpsc_Dequeue _ Hcap)|]. intros [v err] r' [Hs Hr]. split; [done|].
    destruct l; destruct Hr as (? & ? & ?); (split_and!; [done..|by eapply mpsc_queue_holds_next]).
  - eapply ends_mono; [by apply (mpsc_DequeueBulk _ Hcap)|].
    intros [[available err] dst'] r' [Hs Hr]. split; [done|].
    change (api_maxDequeue mpsc_api r) with (c_maxBatch (q_consumer r)).
    destruct (_ <? _); [|destruct (_ <=? _)]; destruct Hr as (? & ? & ? & ?);
      (split_and!; [done|done|by eapply mpsc_queue_holds_next|done]).
  - eapply ends_mono; [by apply (mpsc_DequeueBurst _ Hcap)|].
    intros [[n available] dst'] r' (Hs & Hn & Hd & Hst' & Hr).
    split; [done|]. split; [done|]. split; [done|]. split; [by eapply mpsc_queue_holds_next|done].
  - eapply ends_mono; [by apply (mpsc_Count _ Hcap r P C l)|]. intros n r' [-> ->].
    by split_and!; [|split; [|by eexists _, _]|].
Qed.

#[export] Instance mpsc_fifo : FifoQueue mpsc_api.
Proof.
  split; [apply mpsc_enqueues|apply mpsc_dequeues|..].
  - intros r k l (Hcap & P & C & Hst). apply (mpsc_state_bounds _ _ _ _ _ Hst).
  - intros r k l (Hcap & P & C & Hst). pose proof (pow2_cap_range _ Hcap).
    split; [done|]. split; [apply (st_maxEnqueue _ _ _ _ _ Hst)|apply (st_maxDequeue _ _ _ _ _ Hst)].
  - intros r r' Hs. simpl. unfold same_config, Capacity, MaxEnqueueBatch, MaxDequeueBatch in *.
    destruct Hs as [H1 H2]; first [injection H2 as ?? ??|injection H2 as ???|injection H2 as ??]; split_and!; congruence.
Qed.

(** C26. On a quiescent MPSC queue, with ordered or relaxed producers, every call returns and acts
    as the bounded FIFO does: concurrent-side reservation and publication on one end, the
    consumer's cached cursor on the other, with the errors and counts of the specification. *)
Theorem mpsc_fifo_spec r k l :
  queue_holds r l → enqueue_spec mpsc_api r k l ∧ dequeue_spec mpsc_api r k l.
Proof. intros Hq. split; [by apply mpsc_enqueues|by apply mpsc_dequeues]. Qed.

Lemma mpsc_pristine_state cap pc c :
  pow2_cap cap → pc_mask pc = cap - 1 → c_mask c = cap - 1 → 1 <= pc_maxBatch pc <= cap →
  1 <= c_maxBatch c <= cap → 0 <= pc_htdMax pc → c_cursor c = 0 → c_cachedProducer c = 0 →
  mpsc_state cap (MkMPSC pc zero_words c 0 (replicate (Z.to_nat cap) zero)) 0 0 [].
Proof.
  intros Hcap Hm Hm' He Hd Hp Hcu Hca. pose proof (pow2_cap_range _ Hcap).
  constructor; try done; [apply window_empty; lia|apply idle_zero|..].
  - exists 0. split_and!; [done|lia..].
  - exists 0. split_and!; [done|lia..].
Qed.

(** A constructed MPSC queue is empty, with the requested capacity and the options' limits and
    producer mode; [Reset] returns any quiescent queue to that state and clears every slot. *)
Theorem mpsc_new_reset_spec :
  (∀ count options r, NewMPSCQueue count options = inr r →
     queue_holds r [] ∧ Capacity r = count ∧
     let cfg := configured count modeMulti modeSingle options in
     MaxEnqueueBatch r = maxEnqueueBatch cfg ∧ MaxDequeueBatch r = maxDequeueBatch cfg ∧
     pc_relaxed (producerConfig r) = mode_eqb (prodMode cfg) modeRelaxed) ∧
  (∀ r l, queue_holds r l →
     ends Reset r (λ _ r', queue_holds r' [] ∧ same_config r r' ∧
       q_entries r' = replicate (Z.to_nat (Capacity r)) zero)).
Proof.
  split.
  - intros count options r. unfold NewMPSCQueue.
    destruct (resolveConfig _ _ _ _ _ _) as [|cfg] eqn:Hcfg; [done|]. intros [= <-].
    pose proof (resolveConfig_configured _ _ _ _ _ _ _ Hcfg) as <-.
    apply resolveConfig_ok in Hcfg as (Hcap & He & Hd & _). pose proof (pow2_cap_range _ Hcap).
    assert (u32 (count -i 1) = count - 1) as Hmask.
    { rewrite i64_small by (unfold is_int, minInt, maxInt; lia). apply u32_small; unfold is_u32; lia. }
    set (r := MkMPSC _ _ _ _ _). assert (mpsc_state count r 0 0 []) as Hst.
    { apply mpsc_pristine_state; cbn [pc_mask c_mask pc_maxBatch c_maxBatch pc_htdMax]; try done;
        try apply resolveHeadTailDistance_range; rewrite u32_small by (unfold is_u32; lia); lia. }
    destruct (mpsc_queue_holds_intro count r 0 0 []) as [Hq Hc]; [done..|].
    split; [done|]. split; [done|]. cbv zeta.
    split_and!; [apply u32_small; unfold is_u32; lia..|done].
  - intros r l (Hcap & P & C & Hst). unfold Reset.
    pose proof (pow2_cap_range _ Hcap). pose proof (mpsc_state_len _ _ _ _ _ Hst) as Hlen.
    apply ends_bind, ends_clear_all; [change (0 < len (q_entries r)); lia|].
    do 5 apply ends_bind, ends_Store. do 2 apply ends_bind, ends_modify. apply ends_Store.
    match goal with |- context [queue_holds ?x []] => set (r' := x) end.
    assert (r' = MkMPSC (producerConfig r) zero_words
      (let c := q_consumer r in MkConsumer (c_mask c) 0 0 (c_clearOnDequeue c) (c_maxBatch c)
         (c_exactBatchCounts c)) 0 (replicate (Z.to_nat (Capacity r)) zero)) as ->.
    { unfold r'. simpl. do 2 f_equal. unfold len in Hlen. lia. }
    split_and!; [|done|done]. apply (mpsc_queue_holds_next (Capacity r) _ 0 0); [done|].
    apply mpsc_pristine_state; try done; apply Hst.
Qed.
End queue.

(** ** Witnesses *)

(** Four slots, relaxed producers. *)
Definition demo : MPSCQueue Z :=
  MkMPSC (MkProducerConfig 3 4 8192 0 true false) zero_words (MkConsumer 3 0 0 true 4 false) 0
    [0; 0; 0; 0].

Lemma mpsc_demo_new : NewMPSCQueue 0 4 [WithRelaxedMultiProdEnqueue] = inr demo.
Proof. reflexivity. Qed.

Lemma mpsc_demo_holds : queue_holds 0 demo [].
Proof.
  assert (pow2_cap 4) as Hcap by (exists 2; split; [lia|reflexivity]).
  apply (mpsc_queue_holds_next 0 4 demo 0 0); [done|]. by apply (mpsc_pristine_state 0 4); simpl; try lia.
Qed.

Lemma mpsc_fifo_witness :
  ends (EnqueueBulk [7; 8; 9]) demo (λ '(free, err) r', err = None ∧ queue_holds 0 r' [7; 8; 9]).
Proof.
  destruct (mpsc_fifo_spec 0 demo 3 [] mpsc_demo_holds) as ((_ & Hbulk & _) & _).
  eapply ends_mono; [apply (Hbulk [7; 8; 9]); unfold len; simpl; lia|].
  intros [free err] r' (_ & He & Hq & _). split; [exact He|exact Hq].
Defined.
End MPSC.
