(* ===== verification/DpdkSPMC.v ===== *)
(** * The single-producer multi-consumer queue (src/ring/dpdk/spmc.go)

    The producer keeps a private cursor and a cached consumer position and publishes its cursor;
    the consumers are a concurrent side of [DpdkRing]. *)

From Stdlib Require Import ZArith Lia.
From stdpp Require Import prelude list strings.
From S2P Require Import Prelude Prog RingCore RingSlots RingSpec RingCalls DpdkOptions DpdkRing.

Module SPMC.
Import Prog Ring Slots RingSpec RingCalls DpdkOptions DpdkRing.

Record spmcProducer := MkProducer {
  p_mask : Z;
  p_cursor : Z;
  p_cachedConsumer : Z;
  p_maxBatch : Z;
  p_exactBatchCounts : bool;
}.

Record spmcConsumerConfig := MkConsumerConfig {
  cc_mask : Z;
  cc_maxBatch : Z;
  cc_spinsBeforeYield : Z;
  cc_htdMax : Z;
  cc_clearOnDequeue : bool;
  cc_exactBatchCounts : bool;
  cc_relaxed : bool;
}.

(** [q_consumer] is consumerReservation and consumerPublication; both sides' [entries] are one
    backing array. *)
Record SPMCQueue (T : Type) := MkSPMC {
  q_producer : spmcProducer;
  producerPublished : Z;
  consumerConfig : spmcConsumerConfig;
  q_consumer : sideWords;
  q_entries : list T;
}.
Arguments MkSPMC {T} _ _ _ _ _.
Arguments q_producer {T} _.
Arguments producerPublished {T} _.
Arguments consumerConfig {T} _.
Arguments q_consumer {T} _.
Arguments q_entries {T} _.

#[export] Instance spmc_slots T : Slots (SPMCQueue T) T.
Proof.
  refine {| entries := q_entries;
            set_entries es r :=
              MkSPMC (q_producer r) (producerPublished r) (consumerConfig r) (q_consumer r) es |};
    try reflexivity. by intros [].
Defined.

Definition spmc_consumer T : side (SPMCQueue T) T.
Proof.
  refine {| side_role := Consumer;
            words := q_consumer;
            set_words w r :=
              MkSPMC (q_producer r) (producerPublished r) (consumerConfig r) w (q_entries r);
            config r := SideConfig (cc_mask (consumerConfig r)) (cc_htdMax (consumerConfig r))
              (cc_spinsBeforeYield (consumerConfig r)) (cc_relaxed (consumerConfig r));
            opposite := producerPublished |}; try reflexivity. by intros [].
Defined.

Section queue.
Context {T : Type} (zero : T).
Implicit Types r : SPMCQueue T.
Abbreviation M := (prog (SPMCQueue T)).
Abbreviation cons := (spmc_consumer T).

(** ** Producer fields *)

Definition set_producer (p : spmcProducer) r :=
  MkSPMC p (producerPublished r) (consumerConfig r) (q_consumer r) (q_entries r).
Definition set_cursor (x : Z) r :=
  let p := q_producer r in
  set_producer (MkProducer (p_mask p) x (p_cachedConsumer p) (p_maxBatch p)
    (p_exactBatchCounts p)) r.
Definition set_cachedConsumer (x : Z) r :=
  let p := q_producer r in
  set_producer (MkProducer (p_mask p) (p_cursor p) x (p_maxBatch p) (p_exactBatchCounts p)) r.
Definition producerPublished_cell : cell (SPMCQueue T) :=
  Cell producerPublished
    (λ x r, MkSPMC (q_producer r) x (consumerConfig r) (q_consumer r) (q_entries r)).

(** ** Construction and queries *)

Definition NewSPMCQueue (count : Z) (options : list Option) : error + SPMCQueue T :=
  match resolveConfig "NewSPMCQueue" count modeSingle modeMulti true options with
  | inl err => inl err
  | inr cfg =>
      inr (MkSPMC
        (MkProducer (u32 (count -i 1)) 0 0 (u32 (maxEnqueueBatch cfg)) (exactBatchCounts cfg))
        0
        (MkConsumerConfig (u32 (count -i 1)) (u32 (maxDequeueBatch cfg))
           (u32 (DpdkOptions.spinsBeforeYield cfg))
           (resolveHeadTailDistance (consMode cfg) count (maxConsumerHeadTailDistance cfg)
              (consumerHeadTailDistanceSet cfg))
           (negb (keepDequeued cfg)) (exactBatchCounts cfg) (mode_eqb (consMode cfg) modeRelaxed))
        zero_words (replicate (Z.to_nat count) zero))
  end.

Definition Capacity r : Z := p_mask (q_producer r) +32 1.
Definition MaxEnqueueBatch r : Z := p_maxBatch (q_producer r).
Definition MaxDequeueBatch r : Z := cc_maxBatch (consumerConfig r).

Definition Count : M Z :=
  consumer ← Load (published_cell cons);
  producer ← Load producerPublished_cell;
  capacity ← load Capacity;
  mret (Z.min (producer -32 consumer) capacity).

Definition Free : M Z := capacity ← load Capacity; count ← Count; mret (capacity -i count).
Definition Full : M bool := count ← Count; capacity ← load Capacity; mret (count =? capacity).
Definition Empty : M bool := count ← Count; mret (count =? 0).

Definition Reset : M unit :=
  _ ← clear_all zero;
  _ ← modify (set_cursor 0);
  _ ← modify (set_cachedConsumer 0);
  _ ← Store producerPublished_cell 0;
  _ ← Store (head_cell cons) 0;
  _ ← Store (headRTS_cell cons) 0;
  _ ← Store (tailRTS_cell cons) 0;
  _ ← Store (cached_cell cons) 0;
  Store (published_cell cons) 0.

(** ** The producer side *)

(** [producer.cachedConsumer = r.consumerPublication.published.Load()], with the value loaded. *)
Definition refreshConsumer : M Z :=
  consumer ← Load (published_cell cons);
  _ ← modify (set_cachedConsumer consumer);
  mret consumer.

(** [producer.cursor += count] and [r.producerPublished.Store(producer.cursor)]. *)
Definition publishCursor (count : Z) : M unit :=
  _ ← modify (λ r, set_cursor (p_cursor (q_producer r) +32 count) r);
  cursor ← load (λ r, p_cursor (q_producer r));
  Store producerPublished_cell cursor.

Definition Enqueue (item : T) : M (option error) :=
  producer ← load q_producer;
  let capacity := p_mask producer +32 1 in
  let free := capacity +32 p_cachedConsumer producer -32 p_cursor producer in
  free ← (if (free =? 0) || (capacity <? free)
          then consumer ← refreshConsumer; mret (capacity +32 consumer -32 p_cursor producer)
          else mret free);
  if (free =? 0) || (capacity <? free) then mret (Some ErrFull)
  else
    _ ← slot_set (Z.land (p_cursor producer) (p_mask producer)) item;
    _ ← publishCursor 1;
    mret None.

Definition spmcEnqueueBatch (items : list T) (fixed : bool) : M (Z * Z) :=
  producer ← load q_producer;
  let capacity := p_mask producer +32 1 in
  let length := u32 (len items) in
  let free := capacity +32 p_cachedConsumer producer -32 p_cursor producer in
  free ← (if p_exactBatchCounts producer || (length =? 0) || (free <? length) || (capacity <? free)
          then consumer ← refreshConsumer; mret (capacity +32 consumer -32 p_cursor producer)
          else mret free);
  if capacity <? free then mret (0, capacity)
  else if fixed && (free <? length) then mret (0, free)
  else
    let length := Z.min length free in
    if length =? 0 then mret (0, free)
    else
      let base := Z.land (p_cursor producer) (p_mask producer) in
      _ ← (if length =? 1 then
             item ← access (λ r, (λ item, (r, item)) <$> items !! 0%nat);
             slot_set base item
           else
             let first := Z.min length (capacity -32 base) in
             _ ← copy_in base (sub items 0 first);
             copy_in 0 (sub items first length));
      _ ← publishCursor length;
      mret (length, free -32 length).

Definition EnqueueBulk (items : list T) : M (Z * option error) :=
  producer ← load q_producer;
  let capacity := p_mask producer +32 1 in
  if (capacity <? len items) || (p_maxBatch producer <? len items) then
    consumer ← Load (published_cell cons);
    let fresh := capacity +32 consumer -32 p_cursor producer in
    mret (Z.min fresh capacity,
          Some (batchLengthError "enqueue" (len items) (p_maxBatch producer) capacity))
  else
    '(moved, remaining) ← spmcEnqueueBatch items true;
    mret (remaining, if moved =? len items then None else Some ErrFull).

Definition EnqueueBurst (items : list T) : M (Z * Z) :=
  producer ← load q_producer;
  let length := Z.min (len items) (p_maxBatch producer) in
  spmcEnqueueBatch (sub items 0 length) false.

(** ** The consumer side *)

Definition spmcAttemptConsumerWord (word requested : Z) (fixed exact : bool)
    : M (Z * Z * Z * bool) :=
  attempt cons word requested fixed exact.

Definition spmcAttemptConsumer (head requested : Z) (fixed exact : bool) : M (Z * Z * Z * bool) :=
  spmcAttemptConsumerWord head requested fixed exact.

Definition spmcReserveConsumer (requested : Z) (fixed exact : bool) : M (Z * Z * Z) :=
  forever (
    word ← captureHead cons;
    '(start, count, remaining, retry) ← spmcAttemptConsumerWord word requested fixed exact;
    mret (if retry : bool then None else Some (start, count, remaining))).

Definition spmcConsumerHeadPosition : M Z := headPosition cons.

Definition spmcReadConsumer (start n : Z) : M (list T) :=
  consumer ← load consumerConfig; readInterval cons zero (cc_clearOnDequeue consumer) start n.

Definition spmcReleaseConsumer (start count : Z) : M unit := publish cons start count.

Definition Dequeue : M (T * option error) :=
  '(start, count, _) ← spmcReserveConsumer 1 true false;
  if count =? 0 then mret (zero, Some ErrEmpty)
  else
    consumer ← load consumerConfig;
    let index := Z.land start (cc_mask consumer) in
    value ← slot_get index;
    _ ← (if cc_clearOnDequeue consumer then slot_set index zero else mret tt);
    _ ← spmcReleaseConsumer start count;
    mret (value, None).

Definition DequeueBulk (dst : list T) : M (Z * option error * list T) :=
  consumer ← load consumerConfig;
  let capacity := cc_mask consumer +32 1 in
  if (capacity <? len dst) || (cc_maxBatch consumer <? len dst) then
    head ← spmcConsumerHeadPosition;
    producer ← Load producerPublished_cell;
    let fresh := producer -32 head in
    mret (Z.min fresh capacity,
          Some (batchLengthError "dequeue" (len dst) (cc_maxBatch consumer) capacity), dst)
  else
    '(start, count, remaining) ←
      spmcReserveConsumer (u32 (len dst)) true (cc_exactBatchCounts consumer);
    if count =? 0 then
      mret (remaining, if len dst =? 0 then None else Some ErrEmpty, dst)
    else
      values ← spmcReadConsumer start (len dst);
      _ ← spmcReleaseConsumer start count;
      mret (remaining, None, copy_at 0 values dst).

Definition DequeueBurst (dst : list T) : M (Z * Z * list T) :=
  consumer ← load consumerConfig;
  let length := Z.min (len dst) (cc_maxBatch consumer) in
  '(start, count, remaining) ←
    spmcReserveConsumer (u32 length) false (cc_exactBatchCounts consumer);
  if count =? 0 then mret (0, remaining, dst)
  else
    values ← spmcReadConsumer start count;
    _ ← spmcReleaseConsumer start count;
    mret (count, remaining, copy_at 0 values dst).

(** ** The abstract queue *)

Record spmc_state (cap : Z) r (P C : Z) (l : list T) : Prop := {
  st_window : window zero (cc_clearOnDequeue (consumerConfig r)) cap (q_entries r) P C l;
  st_mask : p_mask (q_producer r) = cap - 1 ∧ cc_mask (consumerConfig r) = cap - 1;
  st_maxEnqueue : 1 <= p_maxBatch (q_producer r) <= cap;
  st_maxDequeue : 1 <= cc_maxBatch (consumerConfig r) <= cap;
  st_distance : 0 <= cc_htdMax (consumerConfig r);
  st_producer : p_cursor (q_producer r) = u32 P ∧ producerPublished r = u32 P;
  st_consumer : idle_words (config cons r) (q_consumer r) C;
  st_cachedConsumer : ∃ cc, p_cachedConsumer (q_producer r) = u32 cc ∧ cc <= C ∧ P <= cc + cap;
  st_cachedProducer : ∃ cp, cached (q_consumer r) = u32 cp ∧ C <= cp <= P;
}.

Definition queue_holds r (l : list T) : Prop :=
  pow2_cap (Capacity r) ∧ ∃ P C, spmc_state (Capacity r) r P C l.

Definition producer_config (p : spmcProducer) : Z * Z * bool :=
  (p_mask p, p_maxBatch p, p_exactBatchCounts p).

Definition same_config r r' : Prop :=
  consumerConfig r' = consumerConfig r ∧
  producer_config (q_producer r') = producer_config (q_producer r).

(** The queue after the producer moved to [P], and after a consumer left the words [w]. *)
Definition produced r (P cc : Z) (es : list T) : SPMCQueue T :=
  let p := q_producer r in
  MkSPMC (MkProducer (p_mask p) (u32 P) (u32 cc) (p_maxBatch p) (p_exactBatchCounts p)) (u32 P)
    (consumerConfig r) (q_consumer r) es.

Definition consumed r (w : sideWords) (es : list T) : SPMCQueue T :=
  MkSPMC (q_producer r) (producerPublished r) (consumerConfig r) w es.

Lemma spmc_state_bounds cap r P C l :
  spmc_state cap r P C l → 0 <= C ∧ P = C + len l ∧ 0 <= len l <= cap.
Proof. intros [[] _ _ _ _ _ _ _ _]. pose proof (len_nonneg l). lia. Qed.

Lemma spmc_state_len cap r P C l : spmc_state cap r P C l → len (q_entries r) = cap.
Proof. intros Hst. apply Hst. Qed.

Lemma spmc_state_produced cap r P C l xs es' cc :
  0 < cap → spmc_state cap r P C l → len l + len xs <= cap →
  after_write (q_entries r) P xs es' → cc <= C → P + len xs <= cc + cap →
  spmc_state cap (produced r (P + len xs) cc es') (P + len xs) C (l ++ xs).
Proof.
  intros Hc [Hw Hm He Hd Hh Hp Hco Hcc (cp & Hcp & Hcb)] Hfit Haw H1 H2.
  pose proof (len_nonneg xs). constructor; try done; [by eapply window_write| |].
  - by exists cc.
  - exists cp. split; [done|lia].
Qed.

Lemma spmc_state_consumed cap r P C l n w cp es' :
  0 < cap → spmc_state cap r P C l → 0 <= n <= len l →
  after_read zero (cc_clearOnDequeue (consumerConfig r)) (q_entries r) C n es' →
  idle_words (config cons r) w (C + n) → cached w = u32 cp → C + n <= cp <= P →
  spmc_state cap (consumed r w es') P (C + n) (drop (Z.to_nat n) l).
Proof.
  intros Hc [Hw Hm He Hd Hh Hp Hco (cc & Hcc & Hcb) Hcp] Hn Har Hidle Hcw H1.
  constructor; try done; [by eapply window_read| |].
  - exists cc. split; [done|lia].
  - by exists cp.
Qed.

Section calls.
Context (cap : Z) (Hcap : pow2_cap cap).

Lemma spmc_cap_bounds : 1 <= cap <= 2 ^ 30.
Proof. by apply pow2_cap_range. Qed.

Lemma spmc_state_kept_P r P C l cc :
  spmc_state cap r P C l → cc <= C → P <= cc + cap →
  spmc_state cap (produced r P cc (q_entries r)) P C l.
Proof. intros [Hw Hm He Hd Hh Hp Hco Hcc Hcp] H1 H2. constructor; try done. by exists cc. Qed.

Lemma spmc_state_kept_C r P C l w cp :
  spmc_state cap r P C l → reserved_words (config cons r) w C 0 → cached w = u32 cp →
  C <= cp <= P → spmc_state cap (consumed r w (q_entries r)) P C l.
Proof. intros [Hw Hm He Hd Hh Hp Hco Hcc Hcp] Hidle Hcw H1. constructor; try done. by exists cp. Qed.

(** ** Producer calls *)

Lemma produced_cached r P C l x :
  spmc_state cap r P C l → set_cachedConsumer (u32 x) r = produced r P x (q_entries r).
Proof.
  intros Hst. destruct (st_producer _ _ _ _ _ Hst) as [Hcu Hpu].
  unfold set_cachedConsumer, set_producer, produced. by rewrite Hcu, Hpu.
Qed.

Lemma free_of r P C l cc :
  spmc_state cap r P C l → cc <= C → P <= cc + cap →
  cap +32 u32 cc -32 p_cursor (q_producer r) = cap + cc - P.
Proof.
  intros Hst H1 H2. pose proof spmc_cap_bounds. pose proof (spmc_state_bounds _ _ _ _ _ Hst).
  rewrite (proj1 (st_producer _ _ _ _ _ Hst)).
  change (cap +32 u32 cc -32 u32 P) with (room_of Producer cap (u32 cc) (u32 P)).
  rewrite room_of_eq by (simpl; lia). done.
Qed.

(** The free slots, by the cached position or by a fresh one. *)
Lemma ends_free r P C l (refresh : bool) cc0 (Q : Z → SPMCQueue T → Prop) :
  spmc_state cap r P C l → p_cachedConsumer (q_producer r) = u32 cc0 →
  cc0 <= C → P <= cc0 + cap →
  (let cc := if refresh then C else cc0 in Q (cap + cc - P) (produced r P cc (q_entries r))) →
  ends (if refresh
        then consumer ← refreshConsumer; mret (cap +32 consumer -32 p_cursor (q_producer r))
        else mret (cap + cc0 - P)) r Q.
Proof.
  intros Hst Hcc H1 H2 HQ. pose proof spmc_cap_bounds. pose proof (spmc_state_bounds _ _ _ _ _ Hst).
  destruct refresh; cbv zeta in HQ.
  - apply ends_bind, ends_bind, ends_Load, ends_bind, ends_modify, ends_ret, ends_ret.
    change (cget (published_cell cons) r) with (published (q_consumer r)).
    rewrite (proj1 (st_consumer _ _ _ _ _ Hst)), (free_of r P C l) by (done || lia).
    by rewrite (produced_cached r P C l).
  - apply ends_ret. rewrite <- (produced_cached r P C l cc0), <- Hcc in HQ by done.
    by replace (set_cachedConsumer (p_cachedConsumer (q_producer r)) r) with r in HQ
      by (by destruct r as [[] ? ? ? ?]).
Qed.

Lemma ends_publishCursor r P cc es' n (Q : unit → SPMCQueue T → Prop) :
  Q tt (produced r (P + n) cc es') → ends (publishCursor n) (produced r P cc es') Q.
Proof.
  intros HQ. unfold publishCursor. apply ends_bind, ends_modify, ends_bind, ends_load, ends_Store.
  cbn. by autorewrite with go_int.
Qed.

Lemma spmc_Enqueue r P C l x :
  spmc_state cap r P C l →
  ends (Enqueue x) r (λ err r', same_config r r' ∧
    if len l <? cap then err = None ∧ spmc_state cap r' (P + 1) C (l ++ [x])
    else err = Some ErrFull ∧ spmc_state cap r' P C l).
Proof.
  intros Hst. pose proof spmc_cap_bounds. pose proof (spmc_state_bounds _ _ _ _ _ Hst).
  destruct (st_cachedConsumer _ _ _ _ _ Hst) as (cc0 & Hcc & Hb1 & Hb2).
  destruct (st_mask _ _ _ _ _ Hst) as [Hmask _].
  unfold Enqueue. apply ends_bind, ends_load. rewrite (mask_capacity cap Hcap) by done.
  rewrite Hcc, (free_of r P C l) by done.
  apply ends_bind, (ends_free r P C l _ cc0); [done..|]. cbv zeta.
  set (cc := if (_ =? _) || (_ <? _) then C else cc0).
  assert (cc <= C ∧ P <= cc + cap ∧ (len l < cap → cap + cc - P <> 0)) as (Hc1 & Hc2 & Hne).
  { unfold cc. destruct (Z.eqb_spec (cap + cc0 - P) 0), (Z.ltb_spec cap (cap + cc0 - P)); simpl; lia. }
  destruct (Z.ltb_spec cap (cap + cc - P)); [lia|]. rewrite orb_false_r.
  destruct (Z.ltb_spec (len l) cap) as [Hroom|Hfull].
  - destruct (Z.eqb_spec (cap + cc - P) 0); [lia|].
    rewrite (proj1 (st_producer _ _ _ _ _ Hst)), Hmask, mask_index by done.
    apply ends_bind, ends_slot_set; [lia|apply Hst|].
    apply ends_bind, (ends_publishCursor r), ends_ret. split_and!; [done..|].
    apply (spmc_state_produced cap r P C l [x]); try done; change (len [x]) with 1; [lia..| |lia].
    apply after_write_one. change (0 < len (q_entries r)). rewrite (spmc_state_len _ _ _ _ _ Hst). lia.
  - destruct (Z.eqb_spec (cap + cc - P) 0); [|lia]. apply ends_ret. split_and!; [done..|].
    by apply spmc_state_kept_P.
Qed.

Lemma ends_enqueueBatch r P C l items fixed :
  spmc_state cap r P C l → len items <= cap →
  ends (spmcEnqueueBatch items fixed) r (λ '(n, rest) r', same_config r r' ∧
    n = granted fixed (len items) (cap - len l) ∧
    spmc_state cap r' (P + n) C (l ++ take (Z.to_nat n) items) ∧
    ∃ rm, rest = rm - n ∧
      fresh_room (p_exactBatchCounts (q_producer r)) (len items) n rm (cap - len l)).
Proof.
  intros Hst Hd. pose proof spmc_cap_bounds. pose proof (spmc_state_bounds _ _ _ _ _ Hst).
  pose proof (len_nonneg items).
  destruct (st_cachedConsumer _ _ _ _ _ Hst) as (cc0 & Hcc & Hb1 & Hb2).
  destruct (st_mask _ _ _ _ _ Hst) as [Hmask _].
  unfold spmcEnqueueBatch. apply ends_bind, ends_load.
  rewrite (mask_capacity cap Hcap), (u32_small (len items)) by (done || unfold is_u32; lia).
  rewrite Hcc, (free_of r P C l) by done.
  apply ends_bind, (ends_free r P C l _ cc0); [done..|]. cbv zeta.
  set (refresh := _ || _ || _ || _). set (cc := if refresh then C else cc0).
  assert (cc <= C ∧ P <= cc + cap) as [Hc1 Hc2] by (unfold cc; destruct refresh; lia).
  set (n := granted fixed (len items) (cap - len l)).
  destruct (admission fixed (p_exactBatchCounts (q_producer r)) cap (len items) (cap + cc0 - P)
    (cap - len l)) as [Hn Hfresh]; [lia..|]. fold refresh n in Hn, Hfresh.
  replace (if refresh then cap - len l else cap + cc0 - P) with (cap + cc - P) in Hn, Hfresh
    by (unfold cc; destruct refresh; lia).
  destruct (Z.ltb_spec cap (cap + cc - P)); [lia|]. clearbody n. unfold granted in Hn.
  assert (n = 0 → ends (mret (0, cap + cc - P)) (produced r P cc (q_entries r))
    (λ '(n', rest) r', same_config r r' ∧ n' = n ∧
      spmc_state cap r' (P + n') C (l ++ take (Z.to_nat n') items) ∧
      ∃ rm, rest = rm - n' ∧
        fresh_room (p_exactBatchCounts (q_producer r)) (len items) n' rm (cap - len l))) as Hzero.
  { intros Hn0. rewrite Hn0 in Hfresh. apply ends_ret. rewrite Z.add_0_r, take_0, app_nil_r.
    split_and!; [done..|by apply spmc_state_kept_P|]. exists (cap + cc - P). split; [lia|done]. }
  destruct (fixed && _); [by apply Hzero|].
  rewrite <- Hn. destruct (Z.eqb_spec n 0) as [Hz0|Hz0]; [by apply Hzero|].
  rewrite (proj1 (st_producer _ _ _ _ _ Hst)), Hmask, mask_index by done.
  assert (len (take (Z.to_nat n) items) = n) as Hl by (apply len_take; lia).
  apply ends_bind, (ends_writeBatch cap Hcap); [apply (spmc_state_len _ _ _ _ _ Hst)|lia|lia|].
  intros es' Haw. apply ends_bind, (ends_publishCursor r), ends_ret.
  rewrite (u32_small (cap + cc - P - n)) by (unfold is_u32; lia).
  split_and!; [done..| |by eexists]. rewrite <- Hl at 1 2.
  apply (spmc_state_produced cap r P C l _ es' cc); [lia|done|lia|done|lia|lia].
Qed.

Lemma spmc_fresh_free r P C l :
  spmc_state cap r P C l →
  Z.min (cap +32 published (q_consumer r) -32 p_cursor (q_producer r)) cap = cap - len l.
Proof.
  intros Hst. pose proof spmc_cap_bounds. pose proof (spmc_state_bounds _ _ _ _ _ Hst).
  rewrite (proj1 (st_consumer _ _ _ _ _ Hst)), (free_of r P C l) by (done || lia). lia.
Qed.

Lemma spmc_EnqueueBulk r P C l xs :
  spmc_state cap r P C l →
  ends (EnqueueBulk xs) r (λ '(free, err) r', same_config r r' ∧
    if p_maxBatch (q_producer r) <? len xs
    then err = Some (batchLengthError "enqueue" (len xs) (p_maxBatch (q_producer r)) cap) ∧
         spmc_state cap r' P C l ∧ free = cap - len l
    else if len l + len xs <=? cap
    then err = None ∧ spmc_state cap r' (P + len xs) C (l ++ xs) ∧
         reported free (cap - len l - len xs) (p_exactBatchCounts (q_producer r) = true ∨ xs = [])
    else err = Some ErrFull ∧ spmc_state cap r' P C l ∧ free = cap - len l).
Proof.
  intros Hst. pose proof spmc_cap_bounds. pose proof (spmc_state_bounds _ _ _ _ _ Hst).
  pose proof (len_nonneg xs). pose proof (st_maxEnqueue _ _ _ _ _ Hst).
  unfold EnqueueBulk. apply ends_bind, ends_load.
  rewrite (mask_capacity cap Hcap) by apply Hst. rewrite orb_ltb_max by lia.
  destruct (Z.ltb_spec (p_maxBatch (q_producer r)) (len xs)) as [Hlong|Hshort].
  { apply ends_bind, ends_Load, ends_ret. split_and!; [done..|]. by apply (spmc_fresh_free r P C l). }
  apply ends_bind. eapply ends_mono; [apply (ends_enqueueBatch r P C l xs true Hst); lia|].
  intros [n rest] r' (Hs & Hn & Hst' & rm & -> & Hf). apply ends_ret. split; [done|].
  destruct (Z.leb_spec (len l + len xs) cap).
  - rewrite granted_all in Hn by lia. subst n. rewrite Z.eqb_refl.
    rewrite take_ge in Hst' by (unfold len; lia). split_and!; [done..|].
    eapply fresh_reported; [done|]. intros [?| ->]; auto.
  - rewrite granted_none in Hn by lia. subst n. rewrite Z.add_0_r, take_0, app_nil_r in Hst'.
    destruct (Z.eqb_spec 0 (len xs)); [lia|]. split_and!; [done..|]. destruct Hf as [_ Hf].
    rewrite Hf; lia.
Qed.

Lemma spmc_EnqueueBurst r P C l xs :
  spmc_state cap r P C l →
  ends (EnqueueBurst xs) r (λ '(n, free) r', same_config r r' ∧
    let want := Z.min (len xs) (p_maxBatch (q_producer r)) in
    n = Z.min want (cap - len l) ∧ spmc_state cap r' (P + n) C (l ++ take (Z.to_nat n) xs) ∧
    reported free (cap - len l - n)
      (p_exactBatchCounts (q_producer r) = true ∨ n < want ∨ want = 0)).
Proof.
  intros Hst. pose proof spmc_cap_bounds. pose proof (spmc_state_bounds _ _ _ _ _ Hst).
  pose proof (len_nonneg xs). pose proof (st_maxEnqueue _ _ _ _ _ Hst).
  unfold EnqueueBurst. apply ends_bind, ends_load.
  set (want := Z.min (len xs) (p_maxBatch (q_producer r))).
  assert (len (sub xs 0 want) = want) as Hw by (rewrite sub_0; apply len_take; lia).
  eapply ends_mono; [apply (ends_enqueueBatch r P C l _ false Hst); lia|].
  intros [n rest] r' (Hs & Hn & Hst' & rm & -> & Hf). rewrite Hw in *.
  rewrite granted_part in Hn. split; [done|]. split; [done|]. split.
  - rewrite sub_0, take_take in Hst'. by replace (Z.to_nat n `min` Z.to_nat want)%nat
      with (Z.to_nat n) in Hst' by lia.
  - eapply fresh_reported; [done|]. intros [?|[?|?]]; auto.
Qed.

(** ** Consumer calls *)

Lemma spmc_ends_reserveConsumer r P C l requested fixed exact (Q : Z * Z * Z → SPMCQueue T → Prop) :
  spmc_state cap r P C l → 0 <= requested <= cap →
  let n := granted fixed requested (len l) in
  (∀ w cp rm, fresh_room exact requested n rm (len l) →
     C + n <= cp <= P → cached w = u32 cp → reserved_words (config cons r) w C n →
     Q (u32 C, n, rm - n) (consumed r w (q_entries r))) →
  ends (spmcReserveConsumer requested fixed exact) r Q.
Proof.
  intros Hst Hreq n HQ. pose proof (spmc_state_bounds _ _ _ _ _ Hst) as Hb. pose proof spmc_cap_bounds.
  destruct Hst as [Hw [_ Hm] _ _ Hh [_ Hp] Hco _ (cp & Hcp & Hcb)].
  assert (room Consumer cap P C = len l) as Hroom by (simpl; lia).
  apply (ends_reserve cons cap Hcap r C P cp); [done..|simpl; lia|simpl; lia|lia|].
  change (side_role cons) with Consumer. rewrite Hroom. fold n.
  intros w' cp' rm Hf Hr1 Hr2 Hcw Hres. apply (HQ w' cp'); [done|simpl in *; lia|done|done].
Qed.

Lemma ends_releaseConsumerSide r P C l n w cp es' (Q : unit → SPMCQueue T → Prop) :
  spmc_state cap r P C l → 0 < n <= len l →
  after_read zero (cc_clearOnDequeue (consumerConfig r)) (q_entries r) C n es' →
  reserved_words (config cons r) w C n → cached w = u32 cp → C + n <= cp <= P →
  (∀ r', same_config r r' → spmc_state cap r' P (C + n) (drop (Z.to_nat n) l) → Q tt r') →
  ends (spmcReleaseConsumer (u32 C) n) (consumed r w es') Q.
Proof.
  intros Hst Hn Har Hres Hcw Hcp HQ. pose proof spmc_cap_bounds.
  pose proof (spmc_state_bounds _ _ _ _ _ Hst).
  apply (ends_publish cons cap Hcap (consumed r w es') C n); [done|lia|].
  intros w' Hcw' Hidle. apply HQ; [done|].
  apply (spmc_state_consumed cap r P C l n w' cp es'); try done; [lia|lia|]. by rewrite Hcw'.
Qed.

Lemma spmc_state_take r P C l n :
  spmc_state cap r P C l → 0 <= n <= len l →
  holds (q_entries r) C (take (Z.to_nat n) l) ∧ len (take (Z.to_nat n) l) = n.
Proof.
  intros Hst Hn. split; [|by apply len_take].
  eapply window_prefix; [by apply (st_window _ _ _ _ _ Hst)|done].
Qed.

Lemma spmc_Dequeue r P C l :
  spmc_state cap r P C l →
  ends Dequeue r (λ '(v, err) r', same_config r r' ∧
    match l with
    | x :: l' => v = x ∧ err = None ∧ spmc_state cap r' P (C + 1) l'
    | [] => v = zero ∧ err = Some ErrEmpty ∧ spmc_state cap r' P C []
    end).
Proof.
  intros Hst. pose proof spmc_cap_bounds. pose proof (spmc_state_bounds _ _ _ _ _ Hst).
  unfold Dequeue. apply ends_bind, (spmc_ends_reserveConsumer r P C l); [done|lia|].
  intros w cp rm Hf Hcp Hcw Hres. destruct l as [|x l'].
  - change (len []) with 0 in *. rewrite granted_none in * by lia.
    destruct (Z.eqb_spec 0 0); [|lia]. apply ends_ret.
    split_and!; [done..|]. apply (spmc_state_kept_C r P C [] w cp); try done. lia.
  - assert (len (x :: l') = 1 + len l') as Hl by (unfold len; simpl; lia).
    pose proof (len_nonneg l').
    rewrite granted_all in * by lia. destruct (Z.eqb_spec 1 0); [lia|].
    apply ends_bind, ends_load. change (consumerConfig (consumed _ _ _)) with (consumerConfig r).
    rewrite (proj2 (st_mask _ _ _ _ _ Hst)), mask_index by done.
    apply ends_bind, (ends_slot_get cap C _ x); [lia|apply Hst| |].
    { rewrite <- (Z.add_0_r C). by apply (win_holds _ _ _ _ _ _ _ (st_window _ _ _ _ _ Hst) 0%nat). }
    assert (∀ es', after_read zero (cc_clearOnDequeue (consumerConfig r)) (q_entries r) C 1 es' →
      ends (_ ← spmcReleaseConsumer (u32 C) 1; mret (x, @None error)) (consumed r w es')
        (λ '(v, err) r', same_config r r' ∧ v = x ∧ err = None ∧ spmc_state cap r' P (C + 1) l'))
      as Hrel.
    { intros es' Har. apply ends_bind, (ends_releaseConsumerSide r P C (x :: l') 1 w cp); try done; [lia|].
      intros r' Hs Hst'. by apply ends_ret. }
    apply ends_bind. destruct (cc_clearOnDequeue (consumerConfig r)) eqn:Hcl.
    + apply ends_slot_set; [lia|apply Hst|]. apply Hrel.
      apply after_write_one. change (0 < len (q_entries r)). rewrite (spmc_state_len _ _ _ _ _ Hst). lia.
    + apply ends_ret. by apply Hrel.
Qed.

Lemma spmc_fresh_available r P C l :
  spmc_state cap r P C l → Z.min (producerPublished r -32 u32 C) cap = len l.
Proof.
  intros Hst. pose proof spmc_cap_bounds. pose proof (spmc_state_bounds _ _ _ _ _ Hst).
  rewrite (proj2 (st_producer _ _ _ _ _ Hst)), u32_distance by lia. lia.
Qed.

Lemma spmc_DequeueBulk r P C l dst :
  spmc_state cap r P C l →
  ends (DequeueBulk dst) r (λ '(available, err, dst') r', same_config r r' ∧
    if cc_maxBatch (consumerConfig r) <? len dst
    then err = Some (batchLengthError "dequeue" (len dst) (cc_maxBatch (consumerConfig r)) cap) ∧
         dst' = dst ∧ spmc_state cap r' P C l ∧ available = len l
    else if len dst <=? len l
    then err = None ∧ dst' = take (length dst) l ∧
         spmc_state cap r' P (C + len dst) (drop (length dst) l) ∧
         reported available (len l - len dst)
           (cc_exactBatchCounts (consumerConfig r) = true ∨ dst = [])
    else err = Some ErrEmpty ∧ dst' = dst ∧ spmc_state cap r' P C l ∧ available = len l).
Proof.
  intros Hst. pose proof spmc_cap_bounds. pose proof (spmc_state_bounds _ _ _ _ _ Hst).
  pose proof (len_nonneg dst). pose proof (st_maxDequeue _ _ _ _ _ Hst).
  unfold DequeueBulk. apply ends_bind, ends_load.
  rewrite (mask_capacity cap Hcap) by apply Hst. rewrite orb_ltb_max by lia.
  destruct (Z.ltb_spec (cc_maxBatch (consumerConfig r)) (len dst)) as [Hlong|Hshort].
  { apply ends_bind, (ends_headPosition cons r C); [apply Hst|].
    apply ends_bind, ends_Load, ends_ret. split_and!; [done..|].
    by apply (spmc_fresh_available r P C l). }
  rewrite (u32_small (len dst)) by (unfold is_u32; lia).
  apply ends_bind, (spmc_ends_reserveConsumer r P C l); [done|lia|].
  intros w cp rm Hf Hcp Hcw Hres. assert (Z.to_nat (len dst) = length dst) as Hnat by (unfold len; lia).
  destruct (Z.leb_spec (len dst) (len l)) as [Hroom|Hempty].
  - rewrite granted_all in * by lia. destruct (Z.eqb_spec (len dst) 0) as [Hz0|Hz0].
    + apply ends_ret. apply len_0_nil in Hz0 as ->. change (len []) with 0 in *. simpl.
      rewrite Z.add_0_r, drop_0 in *.
      split_and!; [done..|by apply (spmc_state_kept_C r P C l w cp)|]. eapply fresh_reported; [done|auto].
    + destruct (spmc_state_take r P C l (len dst)) as [Hh Hlen]; [done|lia|].
      apply ends_bind, ends_bind, ends_load.
      apply (ends_readInterval cons cap Hcap _ _ _ C (len dst) (take (Z.to_nat (len dst)) l));
        [apply Hst|apply (spmc_state_len _ _ _ _ _ Hst)|lia|done|done|].
      intros es' Har. apply ends_bind, (ends_releaseConsumerSide r P C l (len dst) w cp); try done; [lia|].
      intros r' Hs Hst'. apply ends_ret. rewrite Hnat in *.
      rewrite copy_front, drop_ge, app_nil_r by (unfold len in *; lia).
      split_and!; [done..|]. eapply fresh_reported; [done|]. intros [?|?]; [auto|subst; by destruct Hz0].
  - rewrite granted_none in * by lia. destruct (Z.eqb_spec 0 0); [|lia]. apply ends_ret.
    rewrite Z.add_0_r in Hcp. split_and!; [done| |done|by apply (spmc_state_kept_C r P C l w cp)|].
    + destruct (Z.eqb_spec (len dst) 0); [lia|done].
    + destruct Hf as [_ Hf]. rewrite Hf; lia.
Qed.

Lemma spmc_DequeueBurst r P C l dst :
  spmc_state cap r P C l →
  ends (DequeueBurst dst) r (λ '(n, available, dst') r', same_config r r' ∧
    let want := Z.min (len dst) (cc_maxBatch (consumerConfig r)) in
    n = Z.min want (len l) ∧ dst' = take (Z.to_nat n) l ++ drop (Z.to_nat n) dst ∧
    spmc_state cap r' P (C + n) (drop (Z.to_nat n) l) ∧
    reported available (len l - n)
      (cc_exactBatchCounts (consumerConfig r) = true ∨ n < want ∨ want = 0)).
Proof.
  intros Hst. pose proof spmc_cap_bounds. pose proof (spmc_state_bounds _ _ _ _ _ Hst).
  pose proof (len_nonneg dst). pose proof (st_maxDequeue _ _ _ _ _ Hst).
  unfold DequeueBurst. apply ends_bind, ends_load.
  set (want := Z.min (len dst) (cc_maxBatch (consumerConfig r))).
  rewrite (u32_small want) by (unfold is_u32; lia).
  apply ends_bind, (spmc_ends_reserveConsumer r P C l); [done|lia|]. rewrite granted_part.
  set (n := Z.min want (len l)). intros w cp rm Hf Hcp Hcw Hres.
  assert (reported (rm - n) (len l - n)
    (cc_exactBatchCounts (consumerConfig r) = true ∨ n < want ∨ want = 0)) as Hrep.
  { eapply fresh_reported; [done|]. intros [?|[?|?]]; auto. }
  destruct (Z.eqb_spec n 0) as [Hz0|Hz0].
  - apply ends_ret. rewrite Hz0, Z.sub_0_r, Z.add_0_r in *.
    split_and!; [done..|by apply (spmc_state_kept_C r P C l w cp)|done].
  - destruct (spmc_state_take r P C l n) as [Hh Hlen]; [done|lia|].
    apply ends_bind, ends_bind, ends_load.
    apply (ends_readInterval cons cap Hcap _ _ _ C n (take (Z.to_nat n) l));
      [apply Hst|apply (spmc_state_len _ _ _ _ _ Hst)|lia|done|done|].
    intros es' Har. apply ends_bind, (ends_releaseConsumerSide r P C l n w cp); try done; [lia|].
    intros r' Hs Hst'. apply ends_ret. rewrite copy_front by lia.
    replace (length (take (Z.to_nat n) l)) with (Z.to_nat n) by (unfold len in Hlen; lia).
    by split_and!.
Qed.

Lemma spmc_Count r P C l :
  spmc_state cap r P C l → ends Count r (λ n r', r' = r ∧ n = len l).
Proof.
  intros Hst. unfold Count. do 2 apply ends_bind, ends_Load. apply ends_bind, ends_load, ends_ret.
  split; [done|]. unfold Capacity. rewrite (mask_capacity cap Hcap) by apply Hst.
  change (cget (published_cell cons) r) with (published (q_consumer r)).
  rewrite (proj1 (st_consumer _ _ _ _ _ Hst)). by apply (spmc_fresh_available r P C l).
Qed.
End calls.
Lemma spmc_queue_holds_intro cap r P C l :
  pow2_cap cap → spmc_state cap r P C l → queue_holds r l ∧ Capacity r = cap.
Proof.
  intros Hcap Hst. unfold queue_holds, Capacity. rewrite (mask_capacity cap Hcap) by apply Hst. eauto.
Qed.

Lemma spmc_queue_holds_next cap r P C l : pow2_cap cap → spmc_state cap r P C l → queue_holds r l.
Proof. intros Hcap Hst. by eapply spmc_queue_holds_intro. Qed.

(** The queue as an implementation of the common interface. *)
Definition spmc_api : queue_api (SPMCQueue T) T :=
  QueueApi zero (λ r _ l, queue_holds r l) same_config Capacity MaxEnqueueBatch MaxDequeueBatch
    (λ r, p_exactBatchCounts (q_producer r)) (λ r, cc_exactBatchCounts (consumerConfig r))
    Enqueue Dequeue EnqueueBulk EnqueueBurst DequeueBulk DequeueBurst Count.

Lemma spmc_enqueues r k l : queue_holds r l → enqueue_spec spmc_api r k l.
Proof.
  intros (Hcap & P & C & Hst). split_and!; [intros x _|intros xs _..].
  - eapply ends_mono; [by apply spmc_Enqueue|]. intros err r' [Hs Hr]. split; [done|].
    change (api_capacity spmc_api r) with (Capacity r).
    destruct (len l <? Capacity r); destruct Hr as (? & ?);
      (split; [done|by eapply spmc_queue_holds_next]).
  - eapply ends_mono; [by apply (spmc_EnqueueBulk _ Hcap)|]. intros [free err] r' [Hs Hr]. split; [done|].
    change (api_maxEnqueue spmc_api r) with (p_maxBatch (q_producer r)).
    change (api_capacity spmc_api r) with (Capacity r).
    destruct (_ <? _); [|destruct (_ <=? _)]; destruct Hr as (? & ? & ?);
      (split_and!; [done|by eapply spmc_queue_holds_next|done]).
  - eapply ends_mono; [by apply (spmc_EnqueueBurst _ Hcap)|]. intros [n free] r' (Hs & Hn & Hst' & Hr).
    split; [done|]. split; [done|]. split; [by eapply spmc_queue_holds_next|done].
Qed.

Lemma spmc_dequeues r k l : queue_holds r l → dequeue_spec spmc_api r k l.
Proof.
  intros (Hcap & P & C & Hst). split_and!; [|intros dst..|].
  - eapply ends_mono; [by apply (spmc_Dequeue _ Hcap)|]. intros [v err] r' [Hs Hr]. split; [done|].
    destruct l; destruct Hr as (? & ? & ?); (split_and!; [done..|by eapply spmc_queue_holds_next]).
  - eapply ends_mono; [by apply (spmc_DequeueBulk _ Hcap)|].
    intros [[available err] dst'] r' [Hs Hr]. split; [done|].
    change (api_maxDequeue spmc_api r) with (cc_maxBatch (consumerConfig r)).
    destruct (_ <? _); [|destruct (_ <=? _)]; destruct Hr as (? & ? & ? & ?);
      (split_and!; [done|done|by eapply spmc_queue_holds_next|done]).
  - eapply ends_mono; [by apply (spmc_DequeueBurst _ Hcap)|].
    intros [[n available] dst'] r' (Hs & Hn & Hd & Hst' & Hr).
    split; [done|]. split; [done|]. split; [done|]. split; [by eapply spmc_queue_holds_next|done].
  - eapply ends_mono; [by apply (spmc_Count _ Hcap r P C l)|]. intros n r' [-> ->].
    by split_and!; [|split; [|by eexists _, _]|].
Qed.

#[export] Instance spmc_fifo : FifoQueue spmc_api.
Proof.
  split; [apply spmc_enqueues|apply spmc_dequeues|..].
  - intros r k l (Hcap & P & C & Hst). apply (spmc_state_bounds _ _ _ _ _ Hst).
  - intros r k l (Hcap & P & C & Hst). pose proof (pow2_cap_range _ Hcap).
    split; [done|]. split; [apply (st_maxEnqueue _ _ _ _ _ Hst)|apply (st_maxDequeue _ _ _ _ _ Hst)].
  - intros r r' Hs. simpl. unfold same_config, Capacity, MaxEnqueueBatch, MaxDequeueBatch in *.
    destruct Hs as [H1 H2]; first [injection H2 as ?? ??|injection H2 as ???|injection H2 as ??]; split_and!; congruence.
Qed.

(** C27. On a quiescent SPMC queue, with ordered or relaxed consumers, every call returns and acts
    as the bounded FIFO does: the producer's cached cursor on one end, concurrent-side
    reservation and release on the other, with the errors and counts of the specification. *)
Theorem spmc_fifo_spec r k l :
  queue_holds r l → enqueue_spec spmc_api r k l ∧ dequeue_spec spmc_api r k l.
Proof. intros Hq. split; [by apply spmc_enqueues|by apply spmc_dequeues]. Qed.

Lemma spmc_pristine_state cap p cc :
  pow2_cap cap → p_mask p = cap - 1 → cc_mask cc = cap - 1 → 1 <= p_maxBatch p <= cap →
  1 <= cc_maxBatch cc <= cap → 0 <= cc_htdMax cc → p_cursor p = 0 → p_cachedConsumer p = 0 →
  spmc_state cap (MkSPMC p 0 cc zero_words (replicate (Z.to_nat cap) zero)) 0 0 [].
Proof.
  intros Hcap Hm Hm' He Hd Hp Hcu Hca. pose proof (pow2_cap_range _ Hcap).
  constructor; try done; [apply window_empty; lia|apply idle_zero|..].
  - exists 0. split_and!; [done|lia..].
  - exists 0. split_and!; [done|lia..].
Qed.

(** A constructed SPMC queue is empty, with the requested capacity and the options' limits and
    consumer mode; [Reset] returns any quiescent queue to that state and clears every slot. *)
Theorem spmc_new_reset_spec :
  (∀ count options r, NewSPMCQueue count options = inr r →
     queue_holds r [] ∧ Capacity r = count ∧
     let cfg := configured count modeSingle modeMulti options in
     MaxEnqueueBatch r = maxEnqueueBatch cfg ∧ MaxDequeueBatch r = maxDequeueBatch cfg ∧
     cc_relaxed (consumerConfig r) = mode_eqb (consMode cfg) modeRelaxed) ∧
  (∀ r l, queue_holds r l →
     ends Reset r (λ _ r', queue_holds r' [] ∧ same_config r r' ∧
       q_entries r' = replicate (Z.to_nat (Capacity r)) zero)).
Proof.
  split.
  - intros count options r. unfold NewSPMCQueue.
    destruct (resolveConfig _ _ _ _ _ _) as [|cfg] eqn:Hcfg; [done|]. intros [= <-].
    pose proof (resolveConfig_configured _ _ _ _ _ _ _ Hcfg) as <-.
    apply resolveConfig_ok in Hcfg as (Hcap & He & Hd & _). pose proof (pow2_cap_range _ Hcap).
    assert (u32 (count -i 1) = count - 1) as Hmask.
    { rewrite i64_small by (unfold is_int, minInt, maxInt; lia). apply u32_small; unfold is_u32; lia. }
    set (r := MkSPMC _ _ _ _ _). assert (spmc_state count r 0 0 []) as Hst.
    { apply spmc_pristine_state; cbn [p_mask cc_mask p_maxBatch cc_maxBatch cc_htdMax]; try done;
        try apply resolveHeadTailDistance_range; rewrite u32_small by (unfold is_u32; lia); lia. }
    destruct (spmc_queue_holds_intro count r 0 0 []) as [Hq Hc]; [done..|].
    split; [done|]. split; [done|]. cbv zeta.
    split_and!; [apply u32_small; unfold is_u32; lia..|done].
  - intros r l (Hcap & P & C & Hst). unfold Reset.
    pose proof (pow2_cap_range _ Hcap). pose proof (spmc_state_len _ _ _ _ _ Hst) as Hlen.
    apply ends_bind, ends_clear_all; [change (0 < len (q_entries r)); lia|].
    do 2 apply ends_bind, ends_modify. do 5 apply ends_bind, ends_Store. apply ends_Store.
    match goal with |- context [queue_holds ?x []] => set (r' := x) end.
    assert (r' = MkSPMC
      (let p := q_producer r in MkProducer (p_mask p) 0 0 (p_maxBatch p) (p_exactBatchCounts p)) 0
      (consumerConfig r) zero_words (replicate (Z.to_nat (Capacity r)) zero)) as ->.
    { unfold r'. simpl. do 2 f_equal. unfold len in Hlen. lia. }
    split_and!; [|done|done]. apply (spmc_queue_holds_next (Capacity r) _ 0 0); [done|].
    apply spmc_pristine_state; try done; apply Hst.
Qed.
End queue.

(** ** Witnesses *)

(** Four slots, relaxed consumers. *)
Definition demo : SPMCQueue Z :=
  MkSPMC (MkProducer 3 0 0 4 false) 0 (MkConsumerConfig 3 4 8192 0 true false true) zero_words
    [0; 0; 0; 0].

Lemma spmc_demo_new : NewSPMCQueue 0 4 [WithRelaxedMultiConsDequeue] = inr demo.
Proof. reflexivity. Qed.

Lemma spmc_demo_holds : queue_holds 0 demo [].
Proof.
  assert (pow2_cap 4) as Hcap by (exists 2; split; [lia|reflexivity]).
  apply (spmc_queue_holds_next 0 4 demo 0 0); [done|]. by apply (spmc_pristine_state 0 4); simpl; try lia.
Qed.

Lemma spmc_fifo_witness :
  ends (EnqueueBulk [7; 8; 9]) demo (λ '(free, err) r', err = None ∧ queue_holds 0 r' [7; 8; 9]).
Proof.
  destruct (spmc_fifo_spec 0 demo 3 [] spmc_demo_holds) as ((_ & Hbulk & _) & _).
  eapply ends_mono; [apply (Hbulk [7; 8; 9]); unfold len; simpl; lia|].
  intros [free err] r' (_ & He & Hq & _). split; [exact He|exact Hq].
Defined.
End SPMC.
