(* ===== verification/FrontierCore.v ===== *)
(** * Record discovery and construction of the frontier queues (src/ring/frontier)

    records.go: a finished interval is recorded by its absolute end at the slot of its start, and
    discovery follows the records through contiguous finished intervals, loading predicted
    records ahead of time when the intervals are long. options.go: the options and their checks.
    The records of a queue are a second slice of its state, so they are [Slots] of words. *)

From Stdlib Require Import ZArith Lia.
From stdpp Require Import prelude list strings.
From S2P Require Import Prelude Prog RingCore RingSlots RingSpec.

Module Frontier.
Import Prog Ring Slots.

(** ** Construction *)

Record config := Config {
  maxEnqueueBatch : Z;
  maxDequeueBatch : Z;
  keepDequeued : bool;
  exactBatchCounts : bool;
}.

Definition Option := config → config.

Definition WithMaxEnqueueBatch (n : Z) : Option := λ cfg,
  Config n (maxDequeueBatch cfg) (keepDequeued cfg) (exactBatchCounts cfg).
Definition WithMaxDequeueBatch (n : Z) : Option := λ cfg,
  Config (maxEnqueueBatch cfg) n (keepDequeued cfg) (exactBatchCounts cfg).
Definition WithMaxBatch (n : Z) : Option := λ cfg,
  Config n n (keepDequeued cfg) (exactBatchCounts cfg).
Definition WithoutDequeueClearing : Option := λ cfg,
  Config (maxEnqueueBatch cfg) (maxDequeueBatch cfg) true (exactBatchCounts cfg).
Definition WithExactBatchCounts : Option := λ cfg,
  Config (maxEnqueueBatch cfg) (maxDequeueBatch cfg) (keepDequeued cfg) true.

Definition resolveConfig (constructor : string) (count : Z) (options : list Option)
    : error + config :=
  match CheckCapacity count with
  | Some err => inl (Errorf "%s: %w" [ArgStr constructor] err)
  | None =>
      let cfg := foldl (λ cfg option, option cfg) (Config count count false false) options in
      match CheckMaxBatch "enqueue" (maxEnqueueBatch cfg) count with
      | Some err => inl (Errorf "%s: %w" [ArgStr constructor] err)
      | None =>
          match CheckMaxBatch "dequeue" (maxDequeueBatch cfg) count with
          | Some err => inl (Errorf "%s: %w" [ArgStr constructor] err)
          | None => inr cfg
          end
      end
  end.

(** ** Records *)

Definition recordLookahead : Z := 4.
Definition recordLookaheadMinStride : Z := 8.

Section records.
Context {S : Type} (R : Slots S Z).
Abbreviation M := (prog S).

(** [records[uint32(position)&mask].Load()] and [.Store(end)]. *)
Definition record_load (mask position : Z) : M Z := slot_get (Slots0 := R) (Z.land (u32 position) mask).
Definition record_store (mask position end_ : Z) : M unit :=
  slot_set (Slots0 := R) (Z.land (u32 position) mask) end_.

(** The loads of the predicted records, in order of the lanes. *)
Definition loadLane (mask base window end_ stride : Z) (ahead : list Z) : M (list Z + list Z) :=
  let lanes := len ahead in
  if recordLookahead <=? lanes then mret (inr ahead)
  else
    let position := end_ +64 u64 (lanes * stride) in
    if window <=? position -64 base then mret (inr ahead)
    else recordEnd ← record_load mask position; mret (inl (ahead ++ [recordEnd])).

Definition loadAhead (mask base window end_ stride : Z) : M (list Z) :=
  loop (loadLane mask base window end_ stride) [].

Fixpoint acceptAhead (base window stride stopAt : Z) (ahead : list Z) (end_ : Z) : Z :=
  match ahead with
  | [] => end_
  | recordEnd :: ahead =>
      if stopAt <=? end_ -64 base then end_
      else if (recordEnd <=? end_) || negb (recordEnd -64 end_ =? stride) ||
              (window -64 (end_ -64 base) <? stride) then end_
      else acceptAhead base window stride stopAt ahead recordEnd
  end.

Definition discoverRecordsAhead (mask base window end_ stride stopAt : Z) : M Z :=
  ahead ← loadAhead mask base window end_ stride;
  mret (acceptAhead base window stride stopAt ahead end_).

(** One round of the loop, from the boundary reached and the length of the last interval. *)
Definition discoverRound (mask base window stopAt : Z) : Z * Z → M (Z * Z + Z) := λ '(end_, stride),
  if window <=? end_ -64 base then mret (inr end_)
  else if stopAt <=? end_ -64 base then mret (inr end_)
  else
    let ahead := recordLookaheadMinStride <=? stride in
    end_ ← (if ahead then discoverRecordsAhead mask base window end_ stride stopAt
            else mret end_);
    if ahead && ((window <=? end_ -64 base) || (stopAt <=? end_ -64 base))
    then mret (inr end_)
    else
      recordEnd ← record_load mask end_;
      if (recordEnd <=? end_) || (window -64 (end_ -64 base) <? recordEnd -64 end_)
      then mret (inr end_)
      else mret (inl (recordEnd, recordEnd -64 end_)).

Definition discoverRecords (mask base window frontier stopAt : Z) : M Z :=
  loop (discoverRound mask base window stopAt) (frontier, 0).
End records.

(** ** The reference

    [next] is one step of chained discovery and [follow] repeats it, without prediction. *)
Section reference.
Context (recs : list Z) (base window stopAt : Z).

Definition next (e : Z) : option Z :=
  if (window <=? e - base) || (stopAt <=? e - base) then None
  else e' ← slot recs e; if (e <? e') && (e' <=? base + window) then Some e' else None.

Fixpoint follow (fuel : nat) (e : Z) : Z :=
  match fuel with
  | O => e
  | Datatypes.S fuel => match next e with Some e' => follow fuel e' | None => e end
  end.

Definition chained (e e' : Z) : Prop := rtc (λ a b, next a = Some b) e e'.

Lemma next_Some e e' :
  next e = Some e' ↔
  e - base < window ∧ e - base < stopAt ∧ slot recs e = Some e' ∧ e < e' <= base + window.
Proof.
  unfold next. destruct (Z.leb_spec window (e - base)), (Z.leb_spec stopAt (e - base)); simpl;
    try (split; [done|lia]).
  destruct (slot recs e) as [x|]; simpl; [|split; [done|naive_solver]].
  destruct (Z.ltb_spec e x), (Z.leb_spec x (base + window)); simpl; split;
    try (intros; naive_solver lia).
Qed.

Lemma chained_le e e' : chained e e' → e <= e'.
Proof. induction 1 as [|x y z H%next_Some]; lia. Qed.

Lemma chained_bound e e' : chained e e' → e <= base + window → e' <= base + window.
Proof. induction 1 as [|x y z H%next_Some _ IH]; [done|]. intros _. apply IH. lia. Qed.

Lemma chained_follow fuel e e' :
  chained e e' → next e' = None → e <= base + window → base + window - e <= Z.of_nat fuel →
  follow fuel e = e'.
Proof.
  intros Hc. revert fuel. induction Hc as [x|x y z H Hc IH]; intros fuel Hn Hb Hf.
  - destruct fuel; simpl; [done|]. by rewrite Hn.
  - pose proof (proj1 (next_Some _ _) H) as Hy. destruct fuel; simpl; [lia|].
    rewrite H. apply IH; [done|lia..].
Qed.
End reference.

Section discovery.
Context {S : Type} (R : Slots S Z) (cap : Z) (Hcap : pow2_cap cap).
Context (base window stopAt : Z) (s : S).
Context (Hbase : 0 <= base) (Hwindow : 0 <= window <= cap).
Context (Hlen : len (entries (Slots := R) s) = cap).
Abbreviation recs := (entries (Slots := R) s).
Context (Hrecs : Forall is_u64 recs).

Lemma cap_u32 : 1 <= cap <= 2 ^ 30.
Proof. by apply pow2_cap_range. Qed.

Lemma slot_ex pos : ∃ e, slot recs pos = Some e ∧ is_u64 e.
Proof.
  pose proof cap_u32. pose proof (mod_range cap pos ltac:(lia)).
  destruct (lookup_lt_is_Some_2 recs (Z.to_nat (pos mod cap))) as [e He].
  { unfold len in Hlen. lia. }
  exists e. unfold slot. rewrite Hlen. split; [done|]. by apply (Forall_lookup_1 _ _ _ _ Hrecs He).
Qed.

Lemma ends_record_load pos e (Q : Z → S → Prop) :
  slot recs pos = Some e → Q e s → ends (record_load R (cap - 1) pos) s Q.
Proof.
  intros He HQ. unfold record_load. rewrite mask_index by done. pose proof cap_u32.
  apply (ends_slot_get (Slots0 := R) cap pos s e); [lia|done..].
Qed.

(** A distance inside the window does not wrap. *)
Lemma u64_distance e : base <= e <= base + window → e -64 base = e - base.
Proof. intros H. pose proof cap_u32. apply u64_small. unfold is_u64. lia. Qed.

Lemma u64_past e e' : 0 <= e < e' → is_u64 e' → e' -64 e = e' - e.
Proof. intros H He. apply u64_small. unfold is_u64 in *. lia. Qed.

Lemma slot_wrap pos : slot recs (u64 pos) = slot recs pos.
Proof.
  pose proof cap_u32. unfold slot. do 2 f_equal. rewrite Hlen. destruct Hcap as (k & Hk & ->).
  unfold u64. symmetry. apply Znumtheory.Zmod_div_mod; [lia..|].
  exists (2 ^ (64 - k)). rewrite <- Z.pow_add_r by lia. f_equal. lia.
Qed.

(** What the early loads return: the records of the predicted boundaries. *)
Definition predicted (stride end_ : Z) (ahead : list Z) : Prop :=
  ∀ (i : nat) e, ahead !! i = Some e → slot recs (end_ + Z.of_nat i * stride) = Some e.

Lemma ends_loadAhead end_ stride (Q : list Z → S → Prop) :
  (∀ ahead, predicted stride end_ ahead → Q ahead s) →
  ends (loadAhead R (cap - 1) base window end_ stride) s Q.
Proof.
  intros HQ. unfold loadAhead.
  assert (∀ (n : nat) ahead, (4 - length ahead <= n)%nat → predicted stride end_ ahead →
    ends (loop (loadLane R (cap - 1) base window end_ stride) ahead)
      s Q) as Hgen.
  { induction n as [|n IH]; intros ahead Hn Hp; apply ends_loop; unfold loadLane, recordLookahead; cbv zeta.
    - destruct (Z.leb_spec 4 (len ahead)); [|unfold len in *; lia]. by apply ends_ret, HQ.
    - destruct (Z.leb_spec 4 (len ahead)); [by apply ends_ret, HQ|].
      destruct (window <=? _); [by apply ends_ret, HQ|].
      destruct (slot_ex (end_ + len ahead * stride)) as (e & He & _).
      apply ends_bind, (ends_record_load _ e).
      { by rewrite u64_add_r, slot_wrap. }
      apply ends_ret, IH; [rewrite length_app; simpl; lia|].
      intros i e' [Hi|[Hge Hi]]%lookup_app_Some; [by apply Hp|].
      apply list_lookup_singleton_Some in Hi as [Hi ->].
      replace (Z.of_nat i) with (len ahead) by (unfold len; lia). done. }
  apply (Hgen 4%nat []); [simpl; lia|]. intros i e Hi. by rewrite lookup_nil in Hi.
Qed.

Lemma acceptAhead_chained stride ahead end_ :
  0 <= stride → predicted stride end_ ahead → base <= end_ <= base + window → Forall is_u64 ahead →
  chained recs base window stopAt end_ (acceptAhead base window stride stopAt ahead end_).
Proof.
  intros Hs. pose proof cap_u32 as Hc32. revert end_. induction ahead as [|e ahead IH]; intros end_ Hp Hb Hu; simpl; [constructor|].
  apply Forall_cons in Hu as [He Hu]. rewrite u64_distance by done.
  destruct (Z.leb_spec stopAt (end_ - base)); [constructor|].
  destruct (Z.leb_spec e end_); [constructor|].
  rewrite (u64_past end_ e) by (done || lia).
  destruct (Z.eqb_spec (e - end_) stride) as [Hst|]; [|constructor].
  rewrite u64_small by (unfold is_u64; lia).
  destruct (Z.ltb_spec (window - (end_ - base)) stride); [constructor|]. simpl.
  assert (slot recs end_ = Some e) as Hslot.
  { rewrite <- (Hp 0%nat e) by done. f_equal. lia. }
  eapply rtc_l; [apply next_Some; split_and!; [lia|lia|done|lia..]|].
  apply IH; [|lia|done]. intros i e' Hi. rewrite <- (Hp (Datatypes.S i) e' Hi). f_equal. lia.
Qed.

Lemma ends_discover end_ stride (Q : Z → S → Prop) :
  base <= end_ <= base + window → 0 <= stride →
  (∀ e, chained recs base window stopAt end_ e → next recs base window stopAt e = None → Q e s) →
  ends (loop (discoverRound R (cap - 1) base window stopAt) (end_, stride)) s Q.
Proof.
  intros Hb Hs HQ. pose proof cap_u32 as Hc32. remember (Z.to_nat (base + window - end_)) as n eqn:Hn.
  revert end_ stride Hb Hs HQ Hn. induction (lt_wf n) as [n _ IH]. intros end_ stride Hb Hs HQ Hn.
  assert (∀ e, base <= e <= base + window →
    (window <=? e - base) || (stopAt <=? e - base) = true → next recs base window stopAt e = None) as Hstop.
  { intros e He H. unfold next. by rewrite H. }
  apply ends_loop. unfold discoverRound at 1. rewrite u64_distance by done.
  destruct (window <=? end_ - base) eqn:E1.
  { apply ends_ret, HQ; [constructor|]. apply Hstop; [done|]. by rewrite E1. }
  destruct (stopAt <=? end_ - base) eqn:E2.
  { apply ends_ret, HQ; [constructor|]. apply Hstop; [done|]. by rewrite E1, E2. }
  cbv zeta. apply ends_bind.
  assert (∀ e, chained recs base window stopAt end_ e →
    (recordLookaheadMinStride <=? stride = false → e = end_) → ends (
      if (recordLookaheadMinStride <=? stride) && ((window <=? e -64 base) || (stopAt <=? e -64 base))
      then mret (inr e)
      else
        recordEnd ← record_load R (cap - 1) e;
        if (recordEnd <=? e) || (window -64 (e -64 base) <? recordEnd -64 e)
        then mret (inr e) else mret (inl (recordEnd, recordEnd -64 e))) s
      (λ r s', match r with
               | inl i' => ends (loop (discoverRound R (cap - 1) base window stopAt) i') s' Q
               | inr b => Q b s' end)) as Hrest; cycle 1.
  { destruct (recordLookaheadMinStride <=? stride).
    - apply ends_bind, ends_loadAhead. intros ahead Hp. apply ends_ret, Hrest.
      { apply acceptAhead_chained; try done. apply Forall_lookup. intros i e He.
      destruct (slot_ex (end_ + Z.of_nat i * stride)) as (e' & He' & Hu).
      rewrite (Hp i e He) in He'. by simplify_eq. }
      done.
    - apply ends_ret, Hrest; [constructor|done]. }
  intros e He Hsame. pose proof (chained_le _ _ _ _ _ _ He).
  pose proof (chained_bound _ _ _ _ _ _ He ltac:(lia)). rewrite u64_distance by lia.
  destruct (_ && _) eqn:E3.
  { apply andb_true_iff in E3 as [_ E3]. apply ends_ret, HQ; [done|]. by apply Hstop; [lia|]. }
  destruct (slot_ex e) as (e' & Hslot & Hu). apply ends_bind, (ends_record_load _ e'); [done|].
  destruct (Z.leb_spec e' e) as [Hle|Hlt].
  { apply ends_ret, HQ; [done|]. destruct (next _ _ _ _ e) eqn:Hnx; [|done].
    apply next_Some in Hnx as (_ & _ & Hnx & ?). simplify_eq. lia. }
  rewrite (u64_past e e'), (u64_small (window - _)) by (done || (unfold is_u64; lia)).
  destruct (Z.ltb_spec (window - (e - base)) (e' - e)) as [Hout|Hin].
  { apply ends_ret, HQ; [done|]. destruct (next _ _ _ _ e) eqn:Hnx; [|done].
    apply next_Some in Hnx as (_ & _ & Hnx & ?). simplify_eq. lia. }
  assert (next recs base window stopAt e = Some e') as Hnx.
  { apply next_Some. destruct (recordLookaheadMinStride <=? stride).
    - simpl in E3. apply orb_false_iff in E3 as [?%Z.leb_gt ?%Z.leb_gt]. split_and!; [lia..|done|lia|lia].
    - rewrite Hsame in * by done. apply Z.leb_gt in E1, E2. split_and!; [lia..|done|lia|lia]. }
  apply ends_ret, (IH (Z.to_nat (base + window - e'))); [lia..| |done].
  intros e2 He2 Hn2. apply HQ; [|done]. unfold chained in *. etrans; [exact He|]. by eapply rtc_l.
Qed.

(** C31. Discovery of finished intervals terminates and finds exactly what the plain chain of
    records gives: with or without early loads of predicted records, from any frontier in the
    window it returns the boundary at which the reference stops, that is the first boundary whose
    record is unfinished, from another lap or past the window, or at which the request is met. *)
Theorem discoverRecords_spec frontier :
  base <= frontier <= base + window →
  ends (discoverRecords R (cap - 1) base window frontier stopAt) s (λ e s',
    s' = s ∧ e = follow recs base window stopAt (Z.to_nat window) frontier ∧
    frontier <= e <= base + window ∧ next recs base window stopAt e = None).
Proof.
  intros Hf. apply ends_discover; [done|done|]. intros e He Hn.
  pose proof (chained_le _ _ _ _ _ _ He). pose proof (chained_bound _ _ _ _ _ _ He ltac:(lia)).
  split_and!; [done| |done|done|done]. symmetry. apply chained_follow; [done|done|lia..].
Qed.
End discovery.

(** Eight intervals of eight positions are finished, the ninth is not. *)
#[local] Instance word_slots : Slots (list Z) Z := {|
  entries := id; set_entries es _ := es;
  entries_set _ _ := eq_refl; set_entries_set _ _ _ := eq_refl; set_entries_same _ := eq_refl;
|}.

Definition demo_records : list Z :=
  imap (λ i _, let i := Z.of_nat i in if (i mod 8 =? 0) && (i <? 64) then i + 8 else 0) (replicate 128 0).

Lemma discoverRecords_witness :
  ends (discoverRecords word_slots 127 0 128 0 128) demo_records (λ e s', e = 64).
Proof.
  assert (pow2_cap 128) as Hcap by (exists 7; split; [lia|reflexivity]).
  eapply ends_mono; [apply (discoverRecords_spec word_slots 128 Hcap 0 128 128 demo_records) with (frontier := 0)|].
  - lia.
  - lia.
  - reflexivity.
  - unfold demo_records. apply Forall_lookup. intros i x Hx. apply list_lookup_imap_Some in Hx as (y & Hy & ->).
    apply lookup_replicate in Hy as [_ Hi]. unfold is_u64. simpl. destruct (_ && _); lia.
  - lia.
  - intros e s' (_ & -> & _). vm_compute. reflexivity.
Defined.

(** ** Runs of finished intervals

    [linked recs a b]: the records lead from boundary [a] to boundary [b]. *)
Definition linked (recs : list Z) (a b : Z) : Prop :=
  rtc (λ x y, slot recs x = Some y ∧ x < y) a b.

Lemma linked_le recs a b : linked recs a b → a <= b.
Proof. induction 1 as [|x y z [_ ?]]; lia. Qed.

(** Discovery along a run reaches its end, unless the request is met earlier. *)
Lemma chained_linked recs base window stopAt a b e :
  chained recs base window stopAt a e → next recs base window stopAt e = None →
  linked recs a b → b <= base + window →
  (∀ y, slot recs b = Some y → b - base < window → y <= b) →
  linked recs e b ∧ (e = b ∨ stopAt <= e - base).
Proof.
  intros Hc Hn Hl Hb Hend. induction Hc as [x|x y z Hxy Hc IH].
  - split; [done|]. inversion Hl as [|? y ? [Hs Hlt] Hy]; [by left|subst].
    pose proof (linked_le _ _ _ Hy). right.
    destruct (decide (stopAt <= x - base)); [done|]. exfalso.
    assert (next recs base window stopAt x = Some y); [|congruence].
    apply next_Some. split_and!; [lia|lia|done|lia|lia].
  - apply IH; [done|]. pose proof (proj1 (next_Some _ _ _ _ _ _) Hxy) as (H1 & _ & Hs & H2).
    inversion Hl as [|? y' ? [Hs' _] Hy]; subst.
    + specialize (Hend y Hs). lia.
    + rewrite Hs in Hs'. by simplify_eq.
Qed.

(** Recording the interval at the end of a run extends it. *)
Lemma linked_store recs a b e :
  0 < len recs → linked recs a b → b < a + len recs → b < e → linked (put recs b e) a e.
Proof.
  intros Hc Hl Hb He. unfold linked in *.
  eapply rtc_r; [|split; [by apply slot_put|done]].
  assert (∀ x, a <= x → rtc (λ x y, slot recs x = Some y ∧ x < y) x b →
    rtc (λ x y, slot (put recs b e) x = Some y ∧ x < y) x b) as Hgen; [|by apply Hgen].
  intros x Hx Hxb. induction Hxb as [|x y z [Hs Hlt] Hyz IH]; [constructor|].
  pose proof (linked_le _ _ _ Hyz). eapply rtc_l; [|apply IH; [done|done|lia..]].
  rewrite slot_put_ne by lia. done.
Qed.

Lemma ends_record_store {S} (R : Slots S Z) cap s pos e (Q : unit → S → Prop) :
  pow2_cap cap → len (entries (Slots := R) s) = cap →
  Q tt (set_entries (Slots := R) (put (entries (Slots := R) s) pos e) s) →
  ends (record_store R (cap - 1) pos e) s Q.
Proof.
  intros Hcap Hl HQ. pose proof (pow2_cap_range _ Hcap). unfold record_store.
  rewrite mask_index by done. by apply (ends_slot_set (Slots0 := R) cap); [lia|..].
Qed.

Lemma put_forall (P : Z → Prop) recs p e : P e → Forall P recs → Forall P (put recs p e).
Proof. intros He Hr. by apply Forall_insert. Qed.

Lemma replicate_u64 n : Forall is_u64 (replicate n 0).
Proof. apply Forall_replicate. unfold is_u64. lia. Qed.

Lemma len_replicate {A} (x : A) n : 0 <= n → len (replicate (Z.to_nat n) x) = n.
Proof. intros Hn. unfold len. rewrite length_replicate. lia. Qed.

(** ** Resolved options *)
Definition configured (count : Z) (options : list Option) : config :=
  foldl (λ cfg option, option cfg) (Config count count false false) options.

Lemma frontier_resolve_ok name count options cfg :
  resolveConfig name count options = inr cfg →
  cfg = configured count options ∧ pow2_cap count ∧
  1 <= maxEnqueueBatch cfg <= count ∧ 1 <= maxDequeueBatch cfg <= count.
Proof.
  unfold resolveConfig. destruct (CheckCapacity count) eqn:Hc; [done|].
  fold (configured count options). set (c := configured count options).
  unfold CheckMaxBatch. destruct (_ && _) eqn:He; [|done]. destruct ((1 <=? maxDequeueBatch c) && _) eqn:Hd; [|done].
  intros [= <-]. apply andb_true_iff in He as [?%Z.leb_le ?%Z.leb_le].
  apply andb_true_iff in Hd as [?%Z.leb_le ?%Z.leb_le].
  split_and!; [done| |lia..]. by apply CheckCapacity_pow2.
Qed.
End Frontier.
