(* ===== verification/FrontierMPMC.v ===== *)
(** * The frontier multi-producer multi-consumer queue (src/ring/frontier/mpmc.go)

    Each caller reserves an interval by compare-and-swap on its side's head, moves the values and
    records the interval's end; the other side advances a shared frontier through the contiguous
    finished intervals. Positions are 64-bit and must not overflow. *)

From Stdlib Require Import ZArith Lia.
From stdpp Require Import prelude list strings.
From S2P Require Import Prelude Prog RingCore RingSlots RingSpec RingCalls FrontierCore.

Module FMPMC.
Import Prog Ring Slots RingSpec RingCalls Frontier.

Record mpmcConfig := MkConfig {
  f_mask : Z;
  f_maxEnqueueBatch : Z;
  f_maxDequeueBatch : Z;
  f_clearOnDequeue : bool;
  f_exactBatchCounts : bool;
}.

(** The slices of mpmcConfig share storage with nothing else, so they are fields here. *)
Record MPMCQueue (T : Type) := MkQueue {
  f_config : mpmcConfig;
  f_entries : list T;
  f_completions : list Z;
  f_releases : list Z;
  f_producerHead : Z;
  f_completed : Z;
  f_consumerHead : Z;
  f_released : Z;
}.
Arguments MkQueue {T} _ _ _ _ _ _ _ _.
Arguments f_config {T} _.
Arguments f_entries {T} _.
Arguments f_completions {T} _.
Arguments f_releases {T} _.
Arguments f_producerHead {T} _.
Arguments f_completed {T} _.
Arguments f_consumerHead {T} _.
Arguments f_released {T} _.

Section fields.
Context {T : Type}.
Implicit Types r : MPMCQueue T.

Definition set_entries_ es r : MPMCQueue T := MkQueue (f_config r) es (f_completions r) (f_releases r)
  (f_producerHead r) (f_completed r) (f_consumerHead r) (f_released r).
Definition set_completions cs r : MPMCQueue T := MkQueue (f_config r) (f_entries r) cs (f_releases r)
  (f_producerHead r) (f_completed r) (f_consumerHead r) (f_released r).
Definition set_releases rs r : MPMCQueue T := MkQueue (f_config r) (f_entries r) (f_completions r) rs
  (f_producerHead r) (f_completed r) (f_consumerHead r) (f_released r).
Definition set_producerHead x r : MPMCQueue T := MkQueue (f_config r) (f_entries r) (f_completions r)
  (f_releases r) x (f_completed r) (f_consumerHead r) (f_released r).
Definition set_completed x r : MPMCQueue T := MkQueue (f_config r) (f_entries r) (f_completions r)
  (f_releases r) (f_producerHead r) x (f_consumerHead r) (f_released r).
Definition set_consumerHead x r : MPMCQueue T := MkQueue (f_config r) (f_entries r) (f_completions r)
  (f_releases r) (f_producerHead r) (f_completed r) x (f_released r).
Definition set_released x r : MPMCQueue T := MkQueue (f_config r) (f_entries r) (f_completions r)
  (f_releases r) (f_producerHead r) (f_completed r) (f_consumerHead r) x.
End fields.

#[export] Instance fmpmc_slots T : Slots (MPMCQueue T) T.
Proof.
  refine {| entries := f_entries; set_entries := @set_entries_ T |}; try reflexivity. by intros [].
Defined.

Definition completion_slots T : Slots (MPMCQueue T) Z.
Proof.
  refine {| entries := f_completions; set_entries := @set_completions T |}; try reflexivity.
  by intros [].
Defined.

Definition release_slots T : Slots (MPMCQueue T) Z.
Proof.
  refine {| entries := f_releases; set_entries := @set_releases T |}; try reflexivity. by intros [].
Defined.

(** ** Frontiers *)

Definition mpmcDiscover {S} (R : Slots S Z) (mask start bound : Z) : prog S Z :=
  let window := Z.min (bound -64 start) (mask +64 1) in
  discoverRecords R mask start window start window.

Definition raiseFrontier {S} (frontier : cell S) (current end_ : Z) : prog S Z :=
  _ ← loop (λ current,
    if current <? end_ then
      swapped ← CompareAndSwap frontier current end_;
      if swapped : bool then mret (inr tt)
      else current ← Load frontier; mret (inl current)
    else mret (inr tt)) current;
  Load frontier.

(** ** Advancing a frontier alone *)
Section advance.
Context {S : Type} (cap : Z) (Hcap : pow2_cap cap) (R : Slots S Z) (frontier : cell S).

Lemma ends_raiseFrontier s end_ (Q : Z → S → Prop) :
  cget frontier s <= end_ →
  cset frontier (cget frontier s) s = s →
  cget frontier (cset frontier end_ s) = end_ →
  Q end_ (cset frontier end_ s) → ends (raiseFrontier frontier (cget frontier s) end_) s Q.
Proof.
  intros Hle Hsame Hget HQ. unfold raiseFrontier. apply ends_bind, ends_loop.
  destruct (Z.ltb_spec (cget frontier s) end_).
  - apply ends_bind, ends_CompareAndSwap; [done|]. apply ends_ret, ends_Load. by rewrite Hget.
  - assert (cget frontier s = end_) as He by lia. apply ends_ret, ends_Load.
    rewrite He in *. by rewrite <- Hsame.
Qed.

Lemma ends_advanceFrontier s start bound (Q : Z → S → Prop) :
  cget frontier s = start → 0 <= start → bound - start <= cap → bound < 2 ^ 64 →
  len (entries (Slots := R) s) = cap → Forall is_u64 (entries (Slots := R) s) →
  linked (entries (Slots := R) s) start bound →
  cset frontier (cget frontier s) s = s → cget frontier (cset frontier bound s) = bound →
  Q bound (cset frontier bound s) →
  ends (end_ ← mpmcDiscover R (cap - 1) start bound; raiseFrontier frontier start end_) s Q.
Proof.
  intros Hst Hs Hd Hb Hn Hu Hl Hsame Hget HQ. pose proof (pow2_cap_range _ Hcap).
  pose proof (linked_le _ _ _ Hl).
  unfold mpmcDiscover. rewrite (u64_small (bound - start)), (u64_small (cap - 1 + 1)) by (unfold is_u64; lia).
  rewrite Z.min_l by lia. apply ends_bind, ends_discover; try done; [lia..|].
  intros e He Hne. destruct (chained_linked _ _ _ _ _ bound _ He Hne Hl) as [Hlink Hend]; [lia|lia|].
  pose proof (linked_le _ _ _ Hlink). assert (e = bound) as -> by lia.
  rewrite <- Hst. apply ends_raiseFrontier; [lia|done..].
Qed.
End advance.

Section queue.
Context {T : Type} (zero : T).
Implicit Types r : MPMCQueue T.
Abbreviation M := (prog (MPMCQueue T)).

Definition producerHead : cell (MPMCQueue T) := Cell f_producerHead set_producerHead.
Definition completed : cell (MPMCQueue T) := Cell f_completed set_completed.
Definition consumerHead : cell (MPMCQueue T) := Cell f_consumerHead set_consumerHead.
Definition released : cell (MPMCQueue T) := Cell f_released set_released.

(** ** Construction *)

Definition NewMPMCQueue (count : Z) (options : list Option) : error + MPMCQueue T :=
  match resolveConfig "NewMPMCQueue" count options with
  | inl err => inl err
  | inr cfg =>
      inr (MkQueue
        (MkConfig (u32 (count -i 1)) (u32 (maxEnqueueBatch cfg)) (u32 (maxDequeueBatch cfg))
           (negb (keepDequeued cfg)) (exactBatchCounts cfg))
        (replicate (Z.to_nat count) zero) (replicate (Z.to_nat count) 0)
        (replicate (Z.to_nat count) 0) 0 0 0 0)
  end.

Definition Capacity r : Z := f_mask (f_config r) +32 1.
Definition MaxEnqueueBatch r : Z := f_maxEnqueueBatch (f_config r).
Definition MaxDequeueBatch r : Z := f_maxDequeueBatch (f_config r).

Definition mpmcAdvanceCompleted : M Z :=
  cfg ← load f_config;
  start ← Load completed;
  bound ← Load producerHead;
  end_ ← mpmcDiscover (completion_slots T) (f_mask cfg) start bound;
  raiseFrontier completed start end_.

Definition mpmcAdvanceReleased : M Z :=
  cfg ← load f_config;
  start ← Load released;
  bound ← Load consumerHead;
  end_ ← mpmcDiscover (release_slots T) (f_mask cfg) start bound;
  raiseFrontier released start end_.

Definition Count : M Z :=
  cfg ← load f_config;
  head ← Load consumerHead;
  frontier ← mpmcAdvanceCompleted;
  mret (Z.min (frontier -64 head) (f_mask cfg +32 1)).

Definition Free : M Z := capacity ← load Capacity; count ← Count; mret (capacity -i count).
Definition Full : M bool := count ← Count; capacity ← load Capacity; mret (count =? capacity).
Definition Empty : M bool := count ← Count; mret (count =? 0).

Definition Reset : M unit :=
  _ ← clear_all zero;
  _ ← clear_all (Slots0 := completion_slots T) 0;
  _ ← clear_all (Slots0 := release_slots T) 0;
  _ ← Store producerHead 0;
  _ ← Store completed 0;
  _ ← Store consumerHead 0;
  Store released 0.

(** ** Reservation *)

Definition mpmcAttemptProducer (head requested : Z) (fixed exact : bool) : M (Z * Z * Z * bool) :=
  cfg ← load f_config;
  let capacity := f_mask cfg +32 1 in
  released_ ← Load released;
  if head <? released_ then mret (head, 0, 0, true)
  else
    let free := capacity -64 (head -64 released_) in
    admitted ← (if exact || (requested =? 0) || (free <? requested)
                then released_ ← mpmcAdvanceReleased;
                     mret (if head <? released_ then None
                           else Some (capacity -64 (head -64 released_)))
                else mret (Some free));
    match admitted with
    | None => mret (head, 0, 0, true)
    | Some free =>
        if fixed && (free <? requested) then mret (head, 0, u32 free, false)
        else
          let count := u32 (Z.min requested free) in
          if count =? 0 then mret (head, 0, u32 free, false)
          else
            swapped ← CompareAndSwap producerHead head (head +64 count);
            mret (if swapped : bool then (head, count, u32 free -32 count, false)
                  else (head, 0, 0, true))
    end.

(** [runtime.Gosched] before a retry only lets other goroutines run. *)
Definition mpmcReserveProducer (requested : Z) (fixed exact : bool) : M (Z * Z * Z) :=
  forever (
    head ← Load producerHead;
    '(start, count, remaining, retry) ← mpmcAttemptProducer head requested fixed exact;
    mret (if retry : bool then None else Some (start, count, remaining))).

Definition mpmcAttemptConsumer (head requested : Z) (fixed exact : bool) : M (Z * Z * Z * bool) :=
  cfg ← load f_config;
  let capacity := f_mask cfg +32 1 in
  frontier ← Load completed;
  if capacity <? frontier -64 head then mret (head, 0, 0, true)
  else
    let available := frontier -64 head in
    admitted ← (if exact || (requested =? 0) || (available <? requested)
                then frontier ← mpmcAdvanceCompleted;
                     mret (if capacity <? frontier -64 head then None
                           else Some (frontier -64 head))
                else mret (Some available));
    match admitted with
    | None => mret (head, 0, 0, true)
    | Some available =>
        if fixed && (available <? requested) then mret (head, 0, u32 available, false)
        else
          let count := u32 (Z.min requested available) in
          if count =? 0 then mret (head, 0, u32 available, false)
          else
            swapped ← CompareAndSwap consumerHead head (head +64 count);
            mret (if swapped : bool then (head, count, u32 available -32 count, false)
                  else (head, 0, 0, true))
    end.

Definition mpmcReserveConsumer (requested : Z) (fixed exact : bool) : M (Z * Z * Z) :=
  forever (
    head ← Load consumerHead;
    '(start, count, remaining, retry) ← mpmcAttemptConsumer head requested fixed exact;
    mret (if retry : bool then None else Some (start, count, remaining))).

(** ** Moving values *)

Definition mpmcWriteProducer (start : Z) (items : list T) : M unit :=
  cfg ← load f_config; writeSlots (f_mask cfg) (u32 start) items.

Definition mpmcReadConsumer (start n : Z) : M (list T) :=
  cfg ← load f_config; readSlots (f_mask cfg) zero (f_clearOnDequeue cfg) (u32 start) n.

Definition mpmcPublishCompletion (start count : Z) : M unit :=
  cfg ← load f_config; record_store (completion_slots T) (f_mask cfg) start (start +64 count).

Definition mpmcPublishRelease (start count : Z) : M unit :=
  cfg ← load f_config; record_store (release_slots T) (f_mask cfg) start (start +64 count).

(** ** Calls *)

Definition Enqueue (item : T) : M (option error) :=
  '(start, count, _) ← mpmcReserveProducer 1 true false;
  if count =? 0 then mret (Some ErrFull)
  else
    _ ← (cfg ← load f_config; slot_set (Z.land (u32 start) (f_mask cfg)) item);
    _ ← mpmcPublishCompletion start count;
    mret None.

(** The reserved slot is read and, when configured, cleared. *)
Definition takeReserved (start : Z) : M T :=
  cfg ← load f_config;
  let index := Z.land (u32 start) (f_mask cfg) in
  value ← slot_get index;
  _ ← (if f_clearOnDequeue cfg then slot_set index zero else mret tt);
  mret value.

Definition Dequeue : M (T * option error) :=
  '(start, count, _) ← mpmcReserveConsumer 1 true false;
  if count =? 0 then mret (zero, Some ErrEmpty)
  else
    value ← takeReserved start;
    _ ← mpmcPublishRelease start count;
    mret (value, None).

Definition EnqueueBulk (items : list T) : M (Z * option error) :=
  cfg ← load f_config;
  let capacity := f_mask cfg +32 1 in
  if (capacity <? len items) || (f_maxEnqueueBatch cfg <? len items) then
    remaining ← ('(_, _, remaining) ← mpmcReserveProducer 0 true false; mret remaining);
    mret (remaining,
          Some (BatchLengthError "enqueue" (len items) (f_maxEnqueueBatch cfg) capacity))
  else
    '(start, count, remaining) ← mpmcReserveProducer (u32 (len items)) true (f_exactBatchCounts cfg);
    if count =? 0 then mret (remaining, if len items =? 0 then None else Some ErrFull)
    else
      _ ← mpmcWriteProducer start items;
      _ ← mpmcPublishCompletion start count;
      mret (remaining, None).

Definition EnqueueBurst (items : list T) : M (Z * Z) :=
  cfg ← load f_config;
  let length := Z.min (len items) (f_maxEnqueueBatch cfg) in
  '(start, count, remaining) ← mpmcReserveProducer (u32 length) false (f_exactBatchCounts cfg);
  if count =? 0 then mret (0, remaining)
  else
    _ ← mpmcWriteProducer start (sub items 0 count);
    _ ← mpmcPublishCompletion start count;
    mret (count, remaining).

Definition DequeueBulk (dst : list T) : M (Z * option error * list T) :=
  cfg ← load f_config;
  let capacity := f_mask cfg +32 1 in
  if (capacity <? len dst) || (f_maxDequeueBatch cfg <? len dst) then
    remaining ← ('(_, _, remaining) ← mpmcReserveConsumer 0 true false; mret remaining);
    mret (remaining,
          Some (BatchLengthError "dequeue" (len dst) (f_maxDequeueBatch cfg) capacity), dst)
  else
    '(start, count, remaining) ← mpmcReserveConsumer (u32 (len dst)) true (f_exactBatchCounts cfg);
    if count =? 0 then mret (remaining, if len dst =? 0 then None else Some ErrEmpty, dst)
    else
      values ← mpmcReadConsumer start (len dst);
      _ ← mpmcPublishRelease start count;
      mret (remaining, None, copy_at 0 values dst).

Definition DequeueBurst (dst : list T) : M (Z * Z * list T) :=
  cfg ← load f_config;
  let length := Z.min (len dst) (f_maxDequeueBatch cfg) in
  '(start, count, remaining) ← mpmcReserveConsumer (u32 length) false (f_exactBatchCounts cfg);
  if count =? 0 then mret (0, remaining, dst)
  else
    values ← mpmcReadConsumer start count;
    _ ← mpmcPublishRelease start count;
    mret (count, remaining, copy_at 0 values dst).

(** ** The abstract queue *)

Record fm_state (cap : Z) r (P C : Z) (l : list T) : Prop := {
  fs_window : window zero (f_clearOnDequeue (f_config r)) cap (f_entries r) P C l;
  fs_mask : f_mask (f_config r) = cap - 1;
  fs_maxEnqueue : 1 <= f_maxEnqueueBatch (f_config r) <= cap;
  fs_maxDequeue : 1 <= f_maxDequeueBatch (f_config r) <= cap;
  fs_heads : f_producerHead r = P ∧ f_consumerHead r = C;
  fs_range : P < 2 ^ 64;
  fs_completed : C <= f_completed r <= P ∧ linked (f_completions r) (f_completed r) P;
  fs_released : 0 <= f_released r <= C ∧ P <= f_released r + cap ∧
                linked (f_releases r) (f_released r) C;
  fs_completions : len (f_completions r) = cap ∧ Forall is_u64 (f_completions r);
  fs_releases : len (f_releases r) = cap ∧ Forall is_u64 (f_releases r);
}.

(** The queue holds [l], and [k] more positions are left before the 64-bit positions end. *)
Definition st (cap : Z) r (k : Z) (l : list T) : Prop :=
  ∃ P C, fm_state cap r P C l ∧ 0 <= k ∧ P + k < 2 ^ 64.

Definition queue_holds r (k : Z) (l : list T) : Prop :=
  pow2_cap (Capacity r) ∧ st (Capacity r) r k l.

Definition same_config r r' : Prop := f_config r' = f_config r.

Lemma fm_bounds cap r P C l :
  fm_state cap r P C l → 0 <= C ∧ P = C + len l ∧ 0 <= len l <= cap ∧ P < 2 ^ 64.
Proof. intros [[] _ _ _ _ ? _ _ _ _]. pose proof (len_nonneg l). lia. Qed.

Section calls.
Context (cap : Z) (Hcap : pow2_cap cap).

Lemma fm_cap : 1 <= cap <= 2 ^ 30.
Proof. by apply pow2_cap_range. Qed.

Lemma fm_capacity r P C l : fm_state cap r P C l → f_mask (f_config r) +32 1 = cap.
Proof. intros Hst. apply (mask_capacity cap Hcap). apply Hst. Qed.

(** ** Advancing the frontiers *)

Lemma fm_completed r P C l : fm_state cap r P C l → fm_state cap (set_completed P r) P C l.
Proof.
  intros [Hw Hm He Hd Hh Hr Hc Hre Hcs Hrs]. constructor; try done. split; [simpl; lia|constructor].
Qed.

Lemma fm_released r P C l : fm_state cap r P C l → fm_state cap (set_released C r) P C l.
Proof.
  intros Hst. pose proof (fm_bounds _ _ _ _ _ Hst). destruct Hst as [Hw Hm He Hd Hh Hr Hc Hre Hcs Hrs].
  constructor; try done. simpl. split_and!; [lia|lia|lia|constructor].
Qed.

Lemma ends_advanceCompleted r P C l (Q : Z → MPMCQueue T → Prop) :
  fm_state cap r P C l → Q P (set_completed P r) → ends mpmcAdvanceCompleted r Q.
Proof.
  intros Hst HQ. pose proof (fm_bounds _ _ _ _ _ Hst).
  destruct (fs_completed _ _ _ _ _ Hst) as [Hc Hl]. destruct (fs_completions _ _ _ _ _ Hst) as [Hn Hu].
  unfold mpmcAdvanceCompleted. apply ends_bind, ends_load. do 2 apply ends_bind, ends_Load.
  rewrite (fs_mask _ _ _ _ _ Hst). change (cget producerHead r) with (f_producerHead r).
  rewrite (proj1 (fs_heads _ _ _ _ _ Hst)).
  apply (ends_advanceFrontier cap Hcap (completion_slots T) completed); try done; [simpl; lia..|by destruct r].
Qed.

Lemma ends_advanceReleased r P C l (Q : Z → MPMCQueue T → Prop) :
  fm_state cap r P C l → Q C (set_released C r) → ends mpmcAdvanceReleased r Q.
Proof.
  intros Hst HQ. pose proof (fm_bounds _ _ _ _ _ Hst).
  destruct (fs_released _ _ _ _ _ Hst) as (Hc & Hp & Hl). destruct (fs_releases _ _ _ _ _ Hst) as [Hn Hu].
  unfold mpmcAdvanceReleased. apply ends_bind, ends_load. do 2 apply ends_bind, ends_Load.
  rewrite (fs_mask _ _ _ _ _ Hst). change (cget consumerHead r) with (f_consumerHead r).
  rewrite (proj2 (fs_heads _ _ _ _ _ Hst)).
  apply (ends_advanceFrontier cap Hcap (release_slots T) released); try done; [simpl; lia..|by destruct r].
Qed.

(** ** What a call leaves behind *)

Lemma fm_enqueued r P C l xs es' re :
  fm_state cap r P C l → 0 < len xs → P + len xs < 2 ^ 64 →
  0 <= re <= C → P + len xs <= re + cap → linked (f_releases r) re C →
  after_write (f_entries r) P xs es' →
  fm_state cap (MkQueue (f_config r) es' (put (f_completions r) P (P + len xs)) (f_releases r)
    (P + len xs) (f_completed r) (f_consumerHead r) re) (P + len xs) C (l ++ xs).
Proof.
  intros Hst Hn Hr64 Hre Hfit Hlink Haw. pose proof fm_cap. pose proof (fm_bounds _ _ _ _ _ Hst).
  destruct Hst as [Hw Hm He Hd [Hp Hc] Hr [Hco Hcl] _ [Hcn Hcu] Hrs]. constructor; try done.
  - eapply window_write; [lia|done|lia|done].
  - simpl. split; [lia|]. apply linked_store; [lia|done|lia|lia].
  - simpl. rewrite len_put. split; [done|]. apply put_forall; [unfold is_u64; lia|done].
Qed.

Lemma fm_dequeued r P C l n es' co :
  fm_state cap r P C l → 0 < n <= len l → C + n <= co <= P → linked (f_completions r) co P →
  after_read zero (f_clearOnDequeue (f_config r)) (f_entries r) C n es' →
  fm_state cap (MkQueue (f_config r) es' (f_completions r) (put (f_releases r) C (C + n))
    (f_producerHead r) co (C + n) (f_released r)) P (C + n) (drop (Z.to_nat n) l).
Proof.
  intros Hst Hn Hco Hlink Har. pose proof fm_cap. pose proof (fm_bounds _ _ _ _ _ Hst).
  destruct Hst as [Hw Hm He Hd [Hp Hc] Hr _ (Hre & Hfit & Hrl) Hcs [Hrn Hru]]. constructor; try done.
  - eapply window_read; [lia|done|lia|done].
  - simpl. split_and!; [lia|lia|lia|]. apply linked_store; [lia|done|lia|lia].
  - simpl. rewrite len_put. split; [done|]. apply put_forall; [unfold is_u64; lia|done].
Qed.

(** ** Reservations *)

Lemma ends_producer_room r P C l requested (exact : bool) (Q : option Z → MPMCQueue T → Prop) :
  fm_state cap r P C l → 0 <= requested <= cap →
  let refresh := exact || (requested =? 0) || (cap - (P - f_released r) <? requested) in
  let re := if refresh then C else f_released r in
  Q (Some (cap - (P - re))) (set_released re r) →
  ends (if refresh
        then released_ ← mpmcAdvanceReleased;
             mret (if P <? released_ then None else Some (cap -64 (P -64 released_)))
        else mret (Some (cap - (P - f_released r)))) r Q.
Proof.
  intros Hst Hreq refresh re HQ. pose proof fm_cap. pose proof (fm_bounds _ _ _ _ _ Hst).
  unfold re in HQ. destruct refresh.
  - apply ends_bind, (ends_advanceReleased r P C l); [done|]. apply ends_ret.
    destruct (Z.ltb_spec P C); [lia|]. by rewrite (u64_small (P - C)), u64_small by (unfold is_u64; lia).
  - apply ends_ret. by destruct r.
Qed.

Lemma ends_reserveProducer r k P C l requested fixed exact :
  fm_state cap r P C l → P + k < 2 ^ 64 → 0 <= requested <= cap → requested <= k →
  ends (mpmcReserveProducer requested fixed exact) r (λ '(start, n, rest) r1,
    start = P ∧ n = granted fixed requested (cap - len l) ∧
    (∃ rm, rest = rm - n ∧ fresh_room exact requested n rm (cap - len l)) ∧
    ∃ re, r1 = set_producerHead (P + n) (set_released re r) ∧ 0 <= re <= C ∧
      P + n <= re + cap ∧ linked (f_releases r) re C).
Proof.
  intros Hst Hk Hreq Hrk. pose proof fm_cap. pose proof (fm_bounds _ _ _ _ _ Hst) as Hb.
  destruct (fs_released _ _ _ _ _ Hst) as (Hre0 & Hfit0 & Hl0).
  set (n := granted fixed requested (cap - len l)).
  apply ends_forever, ends_bind, ends_Load.
  change (cget producerHead r) with (f_producerHead r). rewrite (proj1 (fs_heads _ _ _ _ _ Hst)).
  apply ends_bind. unfold mpmcAttemptProducer. apply ends_bind, ends_load.
  rewrite (fm_capacity r P C l) by done. apply ends_bind, ends_Load.
  change (cget released r) with (f_released r).
  destruct (Z.ltb_spec P (f_released r)); [lia|]. cbv zeta.
  rewrite (u64_small (P - f_released r)), (u64_small (cap - _)) by (unfold is_u64; lia).
  apply ends_bind, (ends_producer_room r P C l); [done|done|].
  destruct (admission fixed exact cap requested (cap - (P - f_released r)) (cap - len l))
    as [Hn Hf]; [lia..|].
  rewrite (proj2 (Z.ltb_ge cap _)), orb_false_r in Hn, Hf by lia.
  set (refresh := exact || _ || _) in *. set (re := if refresh then C else f_released r).
  fold n in Hn, Hf. replace (if refresh then cap - len l else cap - (P - f_released r))
    with (cap - (P - re)) in Hn, Hf by (unfold re; destruct refresh; lia).
  assert (0 <= re <= C ∧ P <= re + cap ∧ linked (f_releases r) re C) as (Hre1 & Hre2 & Hre3).
  { unfold re. destruct refresh; [split_and!; [lia..|constructor]|done]. }
  clearbody n. unfold granted in Hn. rewrite !(u32_small (cap - (P - re))) by (unfold is_u32; lia).
  assert (n = 0 → ends (mret (P, 0, cap - (P - re), false)) (set_released re r)
    (λ a s', ends (let '(start, count, remaining, retry) := a in
       mret (if retry : bool then None else Some (start, count, remaining))) s'
      (λ res s2, ∃ b, res = Some b ∧ (let '(start, n', rest) := b in λ r1,
        start = P ∧ n' = n ∧
        (∃ rm, rest = rm - n' ∧ fresh_room exact requested n' rm (cap - len l)) ∧
        ∃ re, r1 = set_producerHead (P + n') (set_released re r) ∧ 0 <= re <= C ∧
          P + n' <= re + cap ∧ linked (f_releases r) re C) s2))) as Hzero.
  { intros Hn0. rewrite Hn0 in Hf. apply ends_ret, ends_ret. eexists. split; [done|]. simpl.
    split_and!; [done..|eexists; split; [|exact Hf]; lia|].
    exists re. rewrite Z.add_0_r. split_and!; [|lia..|done].
    destruct (fs_heads _ _ _ _ _ Hst) as [<- _]. by destruct r. }
  destruct (fixed && _); [by apply Hzero|].
  rewrite <- Hn, (u32_small n) by (unfold is_u32; lia).
  destruct (Z.eqb_spec n 0) as [Hz0|Hz0]; [by apply Hzero|].
  apply ends_bind, ends_CompareAndSwap; [apply Hst|]. apply ends_ret, ends_ret.
  eexists. split; [done|]. rewrite (u32_small (_ - n)), (u64_small (P + n)) by (unfold is_u32, is_u64; lia).
  split_and!; [done..|by eexists|]. exists re. split_and!; [done|lia..|done].
Qed.

Lemma ends_consumer_room r P C l requested (exact : bool) (Q : option Z → MPMCQueue T → Prop) :
  fm_state cap r P C l → 0 <= requested <= cap →
  let refresh := exact || (requested =? 0) || (f_completed r - C <? requested) in
  let co := if refresh then P else f_completed r in
  Q (Some (co - C)) (set_completed co r) →
  ends (if refresh
        then frontier ← mpmcAdvanceCompleted;
             mret (if cap <? frontier -64 C then None else Some (frontier -64 C))
        else mret (Some (f_completed r - C))) r Q.
Proof.
  intros Hst Hreq refresh co HQ. pose proof fm_cap. pose proof (fm_bounds _ _ _ _ _ Hst).
  unfold co in HQ. destruct refresh.
  - apply ends_bind, (ends_advanceCompleted r P C l); [done|]. apply ends_ret.
    rewrite (u64_small (P - C)) by (unfold is_u64; lia). by destruct (Z.ltb_spec cap (P - C)); [lia|].
  - apply ends_ret. by destruct r.
Qed.

Lemma ends_reserveConsumer r P C l requested fixed exact :
  fm_state cap r P C l → 0 <= requested <= cap →
  ends (mpmcReserveConsumer requested fixed exact) r (λ '(start, n, rest) r1,
    start = C ∧ n = granted fixed requested (len l) ∧
    (∃ rm, rest = rm - n ∧ fresh_room exact requested n rm (len l)) ∧
    ∃ co, r1 = set_consumerHead (C + n) (set_completed co r) ∧ C + n <= co <= P ∧
      linked (f_completions r) co P).
Proof.
  intros Hst Hreq. pose proof fm_cap. pose proof (fm_bounds _ _ _ _ _ Hst) as Hb.
  destruct (fs_completed _ _ _ _ _ Hst) as (Hco0 & Hl0).
  set (n := granted fixed requested (len l)).
  apply ends_forever, ends_bind, ends_Load.
  change (cget consumerHead r) with (f_consumerHead r). rewrite (proj2 (fs_heads _ _ _ _ _ Hst)).
  apply ends_bind. unfold mpmcAttemptConsumer. apply ends_bind, ends_load.
  rewrite (fm_capacity r P C l) by done. apply ends_bind, ends_Load.
  change (cget completed r) with (f_completed r).
  rewrite (u64_small (f_completed r - C)) by (unfold is_u64; lia).
  destruct (Z.ltb_spec cap (f_completed r - C)); [lia|]. cbv zeta.
  apply ends_bind, (ends_consumer_room r P C l); [done|done|].
  destruct (admission fixed exact cap requested (f_completed r - C) (len l)) as [Hn Hf]; [lia..|].
  rewrite (proj2 (Z.ltb_ge cap _)), orb_false_r in Hn, Hf by lia.
  set (refresh := exact || _ || _) in *. set (co := if refresh then P else f_completed r).
  fold n in Hn, Hf. replace (if refresh then len l else f_completed r - C)
    with (co - C) in Hn, Hf by (unfold co; destruct refresh; lia).
  assert (C <= co <= P ∧ linked (f_completions r) co P) as (Hco1 & Hco2).
  { unfold co. destruct refresh; [split_and!; [lia..|constructor]|done]. }
  clearbody n. unfold granted in Hn. rewrite !(u32_small (co - C)) by (unfold is_u32; lia).
  assert (n = 0 → ends (mret (C, 0, co - C, false)) (set_completed co r)
    (λ a s', ends (let '(start, count, remaining, retry) := a in
       mret (if retry : bool then None else Some (start, count, remaining))) s'
      (λ res s2, ∃ b, res = Some b ∧ (let '(start, n', rest) := b in λ r1,
        start = C ∧ n' = n ∧
        (∃ rm, rest = rm - n' ∧ fresh_room exact requested n' rm (len l)) ∧
        ∃ co, r1 = set_consumerHead (C + n') (set_completed co r) ∧ C + n' <= co <= P ∧
          linked (f_completions r) co P) s2))) as Hzero.
  { intros Hn0. rewrite Hn0 in Hf. apply ends_ret, ends_ret. eexists. split; [done|]. simpl.
    split_and!; [done..|eexists; split; [|exact Hf]; lia|].
    exists co. rewrite Z.add_0_r. split_and!; [|lia..|done].
    destruct (fs_heads _ _ _ _ _ Hst) as [_ <-]. by destruct r. }
  destruct (fixed && _); [by apply Hzero|].
  rewrite <- Hn, (u32_small n) by (unfold is_u32; lia).
  destruct (Z.eqb_spec n 0) as [Hz0|Hz0]; [by apply Hzero|].
  apply ends_bind, ends_CompareAndSwap; [apply Hst|]. apply ends_ret, ends_ret.
  eexists. split; [done|]. rewrite (u32_small (_ - n)), (u64_small (C + n)) by (unfold is_u32, is_u64; lia).
  split_and!; [done..|by eexists|]. exists co. split_and!; [done|lia..|done].
Qed.

(** ** The promises of a reservation *)

Lemma st_intro r P C k l : fm_state cap r P C l → 0 <= k → P + k < 2 ^ 64 → st cap r k l.
Proof. intros Hst Hk Hp. by exists P, C. Qed.

Lemma fm_reserve_promise r k l requested fixed exact :
  st cap r k l → 0 <= requested <= cap → requested <= k →
  ends (mpmcReserveProducer requested fixed exact) r
    (reserve_promise cap same_config (st cap) mpmcWriteProducer mpmcPublishCompletion
       r k l requested fixed exact).
Proof.
  intros (P & C & Hst & Hk0 & Hk) Hreq Hrk. pose proof fm_cap. pose proof (fm_bounds _ _ _ _ _ Hst).
  eapply ends_mono; [by apply (ends_reserveProducer r k P C l requested fixed exact)|].
  intros [[start n] rest] r1 (-> & Hn & Hrest & re & -> & Hre & Hfit & Hlink).
  split_and!; [done|done| |].
  - intros ->. split; [done|]. apply (st_intro _ P C); [|done|done]. rewrite Z.add_0_r.
    destruct (fs_heads _ _ _ _ _ Hst) as [<- _].
    replace (set_producerHead (f_producerHead r) (set_released re r)) with (set_released re r) by done.
    destruct Hst. constructor; try done. simpl. split_and!; [lia..|done].
  - intros xs Hpos Hlen. unfold mpmcWriteProducer, mpmcPublishCompletion.
    apply ends_bind, ends_bind, ends_load. cbn [f_config set_producerHead set_released].
    rewrite (fs_mask _ _ _ _ _ Hst).
    assert (granted fixed requested (cap - len l) <= requested) as Hle.
    { unfold granted. destruct (fixed && _); lia. }
    apply (ends_writeSlots cap Hcap); [done|apply Hst|lia|].
    intros es' Haw. apply ends_bind, ends_load. cbn [f_config set_entries set_producerHead set_released fmpmc_slots set_entries_].
    rewrite (fs_mask _ _ _ _ _ Hst). apply (ends_record_store (completion_slots T)); [done|apply Hst|].
    split; [done|]. rewrite u64_small by (unfold is_u64; lia). subst n. rewrite <- Hlen in *.
    apply (st_intro _ (P + len xs) C); [|lia|lia].
    apply (fm_enqueued r P C l xs es' re); [done|lia|lia|lia|lia|done|done].
Qed.

Lemma fm_claim_promise k r l requested fixed exact :
  st cap r k l → 0 <= requested <= cap →
  ends (mpmcReserveConsumer requested fixed exact) r
    (claim_promise same_config (λ r l, st cap r k l) takeReserved mpmcReadConsumer mpmcPublishRelease
       r l requested fixed exact).
Proof.
  intros (P & C & Hst & Hk0 & Hk) Hreq. pose proof fm_cap. pose proof (fm_bounds _ _ _ _ _ Hst).
  eapply ends_mono; [by apply (ends_reserveConsumer r P C l requested fixed exact)|].
  intros [[start n] rest] r1 (-> & Hn & Hrest & co & -> & Hco & Hlink).
  assert (0 < n → n <= len l) as Hnl.
  { subst n. unfold granted. destruct (fixed && _); lia. }
  set (r1 := set_consumerHead (C + n) (set_completed co r)).
  assert (∀ es', 0 < n → after_read zero (f_clearOnDequeue (f_config r)) (f_entries r) C n es' →
    ends (mpmcPublishRelease C n) (set_entries es' r1)
      (λ _ r', same_config r r' ∧ st cap r' k (drop (Z.to_nat n) l))) as Hrel.
  { intros es' Hpos Har. unfold mpmcPublishRelease. apply ends_bind, ends_load.
    change (f_config (set_entries es' r1)) with (f_config r). rewrite (fs_mask _ _ _ _ _ Hst).
    apply (ends_record_store (release_slots T)); [done|apply Hst|]. split; [done|].
    rewrite u64_small by (unfold is_u64; lia). apply (st_intro _ P (C + n)); [|done|done].
    apply (fm_dequeued r P C l n es' co); [done|lia|lia|done|done]. }
  split_and!; [done|done| | |].
  - intros ->. split; [done|]. apply (st_intro _ P C); [|done|done].
    unfold r1. rewrite Z.add_0_r. destruct (fs_heads _ _ _ _ _ Hst) as [_ <-].
    replace (set_consumerHead (f_consumerHead r) (set_completed co r)) with (set_completed co r) by done.
    destruct Hst. constructor; try done. simpl. split; [lia|done].
  - intros Hpos. unfold mpmcReadConsumer. apply ends_bind, ends_load.
    change (f_config r1) with (f_config r). rewrite (fs_mask _ _ _ _ _ Hst).
    apply (ends_readSlots cap Hcap _ _ _ _ C n (take (Z.to_nat n) l));
      [done|apply Hst|lia|eapply window_prefix; [apply Hst|lia]|apply len_take; lia|].
    intros es' Har. split; [done|]. by apply Hrel.
  - intros ->. specialize (Hnl ltac:(lia)). destruct l as [|x l']; [unfold len in Hnl; simpl in Hnl; lia|].
    unfold takeReserved. apply ends_bind, ends_load. change (f_config r1) with (f_config r).
    rewrite (fs_mask _ _ _ _ _ Hst), mask_index by done.
    apply ends_bind, (ends_slot_get cap C _ x); [lia|apply Hst| |].
    { rewrite <- (Z.add_0_r C). by apply (win_holds _ _ _ _ _ _ _ (fs_window _ _ _ _ _ Hst) 0%nat). }
    apply ends_bind. destruct (f_clearOnDequeue (f_config r)) eqn:Hcl.
    + apply ends_slot_set; [lia|apply Hst|]. apply ends_ret. split; [done|]. apply Hrel; [lia|].
      unfold after_read. apply after_write_one. change (0 < len (f_entries r)).
      rewrite (win_len _ _ _ _ _ _ _ (fs_window _ _ _ _ _ Hst)). lia.
    + apply ends_ret, ends_ret. split; [done|]. apply (Hrel (f_entries r1)); [lia|done].
Qed.

(** ** The calls *)

Lemma st_fits r k l : st cap r k l → len l <= cap.
Proof. intros (P & C & Hst & _). apply (fm_bounds _ _ _ _ _ Hst). Qed.

Lemma fm_oversize_producer r k l :
  st cap r k l →
  ends ('(_, _, remaining) ← mpmcReserveProducer 0 true false; mret remaining) r
    (λ n r', same_config r r' ∧ st cap r' k l ∧ n = cap - len l).
Proof.
  intros Hst. pose proof fm_cap. pose proof Hst as (_ & _ & _ & Hk & _). apply ends_bind.
  eapply ends_mono; [apply (fm_reserve_promise r k l 0 true false Hst); lia|].
  intros [[start n] rest] r1 (Hn & (rm & -> & _ & Hf) & Hnone & _). apply ends_ret.
  assert (n = 0) as ->. { pose proof (st_fits _ _ _ Hst). by rewrite granted_all in Hn by lia. }
  destruct Hnone as [Hs Hst']; [done|]. split_and!; [done..|]. rewrite Hf by auto. lia.
Qed.

Lemma fm_oversize_consumer r k l :
  st cap r k l →
  ends ('(_, _, remaining) ← mpmcReserveConsumer 0 true false; mret remaining) r
    (λ n r', same_config r r' ∧ st cap r' k l ∧ n = len l).
Proof.
  intros Hst. pose proof fm_cap. apply ends_bind.
  eapply ends_mono; [apply (fm_claim_promise k r l 0 true false Hst); lia|].
  intros [[start n] rest] r1 (Hn & (rm & -> & _ & Hf) & Hnone & _). apply ends_ret.
  assert (n = 0) as ->. { pose proof (len_nonneg l). by rewrite granted_all in Hn by lia. }
  destruct Hnone as [Hs Hst']; [done|]. split_and!; [done..|]. rewrite Hf by auto. lia.
Qed.

Lemma fm_Count r k l :
  st cap r k l → ends Count r (λ n r', same_config r r' ∧ st cap r' k l ∧ n = len l).
Proof.
  intros (P & C & Hst & Hk0 & Hk). pose proof fm_cap. pose proof (fm_bounds _ _ _ _ _ Hst).
  unfold Count. apply ends_bind, ends_load. rewrite (fm_capacity r P C l) by done.
  apply ends_bind, ends_Load, ends_bind, (ends_advanceCompleted r P C l); [done|]. apply ends_ret.
  change (cget consumerHead r) with (f_consumerHead r). rewrite (proj2 (fs_heads _ _ _ _ _ Hst)).
  rewrite u64_small by (unfold is_u64; lia). split_and!; [done| |lia].
  apply (st_intro _ P C); [by apply fm_completed|done..].
Qed.
End calls.

(** The queue as an implementation of the common interface. *)
Definition fmpmc_api : queue_api (MPMCQueue T) T :=
  QueueApi zero queue_holds same_config Capacity MaxEnqueueBatch MaxDequeueBatch
    (λ r, f_exactBatchCounts (f_config r)) (λ r, f_exactBatchCounts (f_config r))
    Enqueue Dequeue EnqueueBulk EnqueueBurst DequeueBulk DequeueBurst Count.

Lemma fmpmc_enqueues r k l : queue_holds r k l → enqueue_spec fmpmc_api r k l.
Proof.
  intros [Hcap Hq]. pose proof Hq as (P & C & Hfs & Hk0 & _). set (cap := Capacity r) in *.
  pose proof (fs_maxEnqueue _ _ _ _ _ Hfs) as Hmax. pose proof (fm_capacity cap Hcap r P C l Hfs) as Hc.
  assert (∀ r' k' l', same_config r r' → st cap r' k' l' → queue_holds r' k' l') as Hnext.
  { intros r' k' l' Hs Hst'. unfold queue_holds, Capacity. by rewrite Hs, Hc. }
  split_and!; [intros x Hk|intros xs Hk..].
  - eapply ends_mono; [by apply (calls_Enqueue cap Hcap same_config (st cap) mpmcReserveProducer
      mpmcWriteProducer mpmcPublishCompletion (fm_reserve_promise cap Hcap) r k l x)|].
    intros err r' [Hs Hr]. split; [done|]. change (api_capacity fmpmc_api r) with cap.
    destruct (len l <? cap); destruct Hr as [-> Hr]; (split; [done|by apply Hnext]).
  - change (api_EnqueueBulk fmpmc_api xs) with (EnqueueBulk xs). unfold EnqueueBulk.
    apply ends_bind, ends_load. rewrite Hc.
    eapply ends_mono; [by apply (calls_EnqueueBulk cap Hcap same_config (st cap) mpmcReserveProducer
      mpmcWriteProducer mpmcPublishCompletion _ (st_fits cap) (fm_reserve_promise cap Hcap)
      (fm_oversize_producer cap Hcap) r k l xs); [|lia..]|].
    intros [free err] r' [Hs Hr]. split; [done|]. change (api_capacity fmpmc_api r) with cap.
    change (api_maxEnqueue fmpmc_api r) with (f_maxEnqueueBatch (f_config r)).
    destruct (_ <? _); [|destruct (_ <=? _)]; destruct Hr as (? & Hr & ?);
      (split_and!; [done|by apply Hnext|done]).
  - change (api_EnqueueBurst fmpmc_api xs) with (EnqueueBurst xs). unfold EnqueueBurst.
    apply ends_bind, ends_load.
    eapply ends_mono; [by apply (calls_EnqueueBurst cap Hcap same_config (st cap) mpmcReserveProducer
      mpmcWriteProducer mpmcPublishCompletion (st_fits cap) (fm_reserve_promise cap Hcap) r k l xs);
      [|lia..]|].
    intros [n free] r' (Hs & Hn & Hr & Hrep). split; [done|]. split; [done|]. split; [by apply Hnext|done].
Qed.

Lemma fmpmc_dequeues r k l : queue_holds r k l → dequeue_spec fmpmc_api r k l.
Proof.
  intros [Hcap Hq]. pose proof Hq as (P & C & Hfs & Hk0 & _). set (cap := Capacity r) in *.
  pose proof (fs_maxDequeue _ _ _ _ _ Hfs) as Hmax. pose proof (fm_capacity cap Hcap r P C l Hfs) as Hc.
  assert (∀ r' l', same_config r r' → st cap r' k l' → queue_holds r' k l') as Hnext.
  { intros r' l' Hs Hst'. unfold queue_holds, Capacity. by rewrite Hs, Hc. }
  assert (Hfits := λ r l, st_fits cap r k l).
  split_and!; [|intros dst..|].
  - eapply ends_mono; [by apply (calls_Dequeue zero cap Hcap same_config (λ r l, st cap r k l)
      mpmcReserveConsumer takeReserved mpmcReadConsumer mpmcPublishRelease
      (fm_claim_promise cap Hcap k) r l)|].
    intros [v err] r' [Hs Hr]. split; [done|]. destruct l; destruct Hr as (-> & -> & Hr);
      (split_and!; [done..|by apply Hnext]).
  - change (api_DequeueBulk fmpmc_api dst) with (DequeueBulk dst). unfold DequeueBulk.
    apply ends_bind, ends_load. rewrite Hc.
    eapply ends_mono; [by apply (calls_DequeueBulk cap Hcap same_config (λ r l, st cap r k l)
      mpmcReserveConsumer takeReserved mpmcReadConsumer mpmcPublishRelease _ Hfits
      (fm_claim_promise cap Hcap k) (λ r l, fm_oversize_consumer cap Hcap r k l) r l dst); [|lia..]|].
    intros [[available err] dst'] r' [Hs Hr]. split; [done|].
    change (api_capacity fmpmc_api r) with cap.
    change (api_maxDequeue fmpmc_api r) with (f_maxDequeueBatch (f_config r)).
    destruct (_ <? _); [|destruct (_ <=? _)]; destruct Hr as (? & ? & Hr & ?);
      (split_and!; [done|done|by apply Hnext|done]).
  - change (api_DequeueBurst fmpmc_api dst) with (DequeueBurst dst). unfold DequeueBurst.
    apply ends_bind, ends_load.
    eapply ends_mono; [by apply (calls_DequeueBurst cap Hcap same_config (λ r l, st cap r k l)
      mpmcReserveConsumer takeReserved mpmcReadConsumer mpmcPublishRelease Hfits
      (fm_claim_promise cap Hcap k) r l dst); [|lia..]|].
    intros [[n available] dst'] r' (Hs & Hn & Hd & Hr & Hrep).
    split; [done|]. split; [done|]. split; [done|]. split; [by apply Hnext|done].
  - eapply ends_mono; [by apply (fm_Count cap Hcap r k l)|]. intros n r' (Hs & Hr & ->).
    split_and!; [done|by apply Hnext|done].
Qed.

#[export] Instance fmpmc_fifo : FifoQueue fmpmc_api.
Proof.
  split; [apply fmpmc_enqueues|apply fmpmc_dequeues|..].
  - intros r k l [_ Hst]. by eapply st_fits.
  - intros r k l (Hcap & P & C & Hst & _). pose proof (pow2_cap_range _ Hcap).
    split; [done|]. split; [apply (fs_maxEnqueue _ _ _ _ _ Hst)|apply (fs_maxDequeue _ _ _ _ _ Hst)].
  - intros r r' Hs. simpl. unfold same_config, Capacity, MaxEnqueueBatch, MaxDequeueBatch in *.
    naive_solver congruence.
Qed.

(** C28. On a quiescent frontier MPMC queue every call returns and acts as the bounded FIFO does,
    with its errors and counts, as long as the positions do not pass 64 bits: reservation,
    discovery of released or completed intervals through the records, raising the shared
    frontier, the copy and the record of the new interval together append and remove exactly the
    values of the specification. *)
Theorem fmpmc_fifo_spec r k l :
  queue_holds r k l → enqueue_spec fmpmc_api r k l ∧ dequeue_spec fmpmc_api r k l.
Proof. intros Hq. split; [by apply fmpmc_enqueues|by apply fmpmc_dequeues]. Qed.

Lemma fm_pristine cap cfg :
  pow2_cap cap → f_mask cfg = cap - 1 → 1 <= f_maxEnqueueBatch cfg <= cap →
  1 <= f_maxDequeueBatch cfg <= cap →
  fm_state cap (MkQueue cfg (replicate (Z.to_nat cap) zero) (replicate (Z.to_nat cap) 0)
    (replicate (Z.to_nat cap) 0) 0 0 0 0) 0 0 [].
Proof.
  intros Hcap Hm He Hd. pose proof (pow2_cap_range _ Hcap). constructor; try done; simpl.
  - apply window_empty; lia.
  - split; [lia|constructor].
  - split_and!; [lia..|constructor].
  - split; [by apply len_replicate; lia|apply replicate_u64].
  - split; [by apply len_replicate; lia|apply replicate_u64].
Qed.

Lemma fmpmc_new_ok count options r :
  NewMPMCQueue count options = inr r →
  queue_holds r (2 ^ 64 - 1) [] ∧ Capacity r = count ∧
  let cfg := configured count options in
  MaxEnqueueBatch r = maxEnqueueBatch cfg ∧ MaxDequeueBatch r = maxDequeueBatch cfg.
Proof.
  unfold NewMPMCQueue.
  destruct (resolveConfig _ _ _) as [|cfg] eqn:Hcfg; [done|]. intros [= <-].
  apply frontier_resolve_ok in Hcfg as (-> & Hcap & He & Hd). pose proof (pow2_cap_range _ Hcap).
  assert (u32 (count -i 1) = count - 1) as Hmask.
  { rewrite i64_small by (unfold is_int, minInt, maxInt; lia). apply u32_small; unfold is_u32; lia. }
  set (r := MkQueue _ _ _ _ _ _ _ _). assert (Capacity r = count) as Hc.
  { apply (mask_capacity count Hcap). done. }
  split; [|split; [done|split; apply u32_small; unfold is_u32; lia]].
  unfold queue_holds. rewrite Hc. split; [done|]. exists 0, 0. split; [|lia].
  apply fm_pristine; cbn [f_mask f_maxEnqueueBatch f_maxDequeueBatch]; try done;
    rewrite u32_small by (unfold is_u32; lia); lia.
Qed.

(** A constructed frontier MPMC queue is empty with the requested capacity and limits and all
    64-bit positions ahead of it, and [Reset] returns any quiescent queue to that state. *)
Theorem fmpmc_new_reset_spec :
  (∀ count options r, NewMPMCQueue count options = inr r →
     queue_holds r (2 ^ 64 - 1) [] ∧ Capacity r = count ∧
     let cfg := configured count options in
     MaxEnqueueBatch r = maxEnqueueBatch cfg ∧ MaxDequeueBatch r = maxDequeueBatch cfg) ∧
  (∀ r k l, queue_holds r k l →
     ends Reset r (λ _ r', queue_holds r' (2 ^ 64 - 1) [] ∧ same_config r r' ∧
       f_entries r' = replicate (Z.to_nat (Capacity r)) zero)).
Proof.
  split.
  - apply fmpmc_new_ok.
  - intros r k l (Hcap & P & C & Hst & _). unfold Reset.
    pose proof (pow2_cap_range _ Hcap). destruct (fs_completions _ _ _ _ _ Hst) as [Hcl _].
    destruct (fs_releases _ _ _ _ _ Hst) as [Hrl _].
    pose proof (win_len _ _ _ _ _ _ _ (fs_window _ _ _ _ _ Hst)) as Hel.
    apply ends_bind, ends_clear_all; [change (0 < len (f_entries r)); lia|].
    apply ends_bind, (ends_clear_all (Slots0 := completion_slots T)); [change (0 < len (f_completions r)); lia|].
    apply ends_bind, (ends_clear_all (Slots0 := release_slots T)); [change (0 < len (f_releases r)); lia|].
    do 3 apply ends_bind, ends_Store. apply ends_Store.
    match goal with |- context [queue_holds ?x] => set (r' := x) end.
    assert (r' = MkQueue (f_config r) (replicate (Z.to_nat (Capacity r)) zero)
      (replicate (Z.to_nat (Capacity r)) 0) (replicate (Z.to_nat (Capacity r)) 0) 0 0 0 0) as ->.
    { unfold r'. rewrite <- Hel at 1. rewrite <- Hcl at 1. rewrite <- Hrl at 1. unfold len.
      by rewrite !Nat2Z.id. }
    split_and!; [|done|done]. split; [done|]. exists 0, 0. split; [|lia].
    apply fm_pristine; try done; apply Hst.
Qed.
End queue.

(** ** Witnesses *)

Definition demo : MPMCQueue Z :=
  MkQueue (MkConfig 3 4 4 true false) [0; 0; 0; 0] [0; 0; 0; 0] [0; 0; 0; 0] 0 0 0 0.

Lemma fmpmc_demo_new : NewMPMCQueue 0 4 [] = inr demo.
Proof. reflexivity. Qed.

Lemma fmpmc_demo_holds : queue_holds 0 demo (2 ^ 64 - 1) [].
Proof.
  assert (pow2_cap 4) as Hcap by (exists 2; split; [lia|reflexivity]).
  split; [done|]. exists 0, 0. split; [|lia]. by apply (fm_pristine 0 4); simpl; try lia.
Qed.

Lemma fmpmc_fifo_witness :
  ends (EnqueueBulk [7; 8; 9]) demo (λ '(free, err) r',
    err = None ∧ ∃ k, queue_holds 0 r' k [7; 8; 9]).
Proof.
  destruct (fmpmc_fifo_spec 0 demo (2 ^ 64 - 1) [] fmpmc_demo_holds) as ((_ & Hbulk & _) & _).
  eapply ends_mono; [apply (Hbulk [7; 8; 9]); change (3 <= 2 ^ 64 - 1); lia|].
  intros [free err] r' (_ & He & Hq & _). split; [exact He|]. eexists. exact Hq.
Defined.
End FMPMC.
