(* ===== verification/FrontierMPSC.v ===== *)
(** * The frontier multi-producer single-consumer queue
      (src/ring/frontier/mpsc_base.go, src/ring/frontier/mpsc.go)

    Producers reserve by compare-and-swap and record the end of their interval; the one consumer
    follows the records from its private frontier and publishes its released position and its
    frontier in one word. MPSCQueue embeds mpscBase and adds the observer cache; here the two are
    one record, whose [observerCompleted] the base methods leave alone. *)

From Stdlib Require Import ZArith Lia.
From stdpp Require Import prelude list strings.
From S2P Require Import Prelude Prog RingCore RingSlots RingSpec RingCalls FrontierCore.

Module FMPSC.
Import Prog Ring Slots RingSpec RingCalls Frontier.

Record mpscProducerConfig := MkProducerConfig {
  pc_mask : Z;
  pc_maxBatch : Z;
  pc_exactBatchCounts : bool;
}.

Record mpscConsumer := MkConsumer {
  c_mask : Z;
  c_cursor : Z;
  c_frontier : Z;
  c_clearOnDequeue : bool;
  c_maxBatch : Z;
  c_exactBatchCounts : bool;
}.

Record MPSCQueue (T : Type) := MkQueue {
  producerConfig : mpscProducerConfig;
  q_head : Z;
  q_cachedConsumer : Z;
  q_records : list Z;
  q_consumer : mpscConsumer;
  q_published : Z;
  q_observer : Z;
  q_entries : list T;
}.
Arguments MkQueue {T} _ _ _ _ _ _ _ _.
Arguments producerConfig {T} _.
Arguments q_head {T} _.
Arguments q_cachedConsumer {T} _.
Arguments q_records {T} _.
Arguments q_consumer {T} _.
Arguments q_published {T} _.
Arguments q_observer {T} _.
Arguments q_entries {T} _.

Section fields.
Context {T : Type}.
Implicit Types r : MPSCQueue T.

Definition set_entries_ es r : MPSCQueue T := MkQueue (producerConfig r) (q_head r)
  (q_cachedConsumer r) (q_records r) (q_consumer r) (q_published r) (q_observer r) es.
Definition set_records rs r : MPSCQueue T := MkQueue (producerConfig r) (q_head r)
  (q_cachedConsumer r) rs (q_consumer r) (q_published r) (q_observer r) (q_entries r).
Definition set_head x r : MPSCQueue T := MkQueue (producerConfig r) x
  (q_cachedConsumer r) (q_records r) (q_consumer r) (q_published r) (q_observer r) (q_entries r).
Definition set_cachedConsumer x r : MPSCQueue T := MkQueue (producerConfig r) (q_head r)
  x (q_records r) (q_consumer r) (q_published r) (q_observer r) (q_entries r).
Definition set_published x r : MPSCQueue T := MkQueue (producerConfig r) (q_head r)
  (q_cachedConsumer r) (q_records r) (q_consumer r) x (q_observer r) (q_entries r).
Definition set_observer x r : MPSCQueue T := MkQueue (producerConfig r) (q_head r)
  (q_cachedConsumer r) (q_records r) (q_consumer r) (q_published r) x (q_entries r).
Definition set_consumer c r : MPSCQueue T := MkQueue (producerConfig r) (q_head r)
  (q_cachedConsumer r) (q_records r) c (q_published r) (q_observer r) (q_entries r).

Definition set_cursor x r : MPSCQueue T :=
  let c := q_consumer r in
  set_consumer (MkConsumer (c_mask c) x (c_frontier c) (c_clearOnDequeue c) (c_maxBatch c)
    (c_exactBatchCounts c)) r.
Definition set_frontier x r : MPSCQueue T :=
  let c := q_consumer r in
  set_consumer (MkConsumer (c_mask c) (c_cursor c) x (c_clearOnDequeue c) (c_maxBatch c)
    (c_exactBatchCounts c)) r.
End fields.

#[export] Instance fmpsc_slots T : Slots (MPSCQueue T) T.
Proof.
  refine {| entries := q_entries; set_entries := @set_entries_ T |}; try reflexivity. by intros [].
Defined.

Definition record_slots T : Slots (MPSCQueue T) Z.
Proof.
  refine {| entries := q_records; set_entries := @set_records T |}; try reflexivity. by intros [].
Defined.

(** ** The published word *)

Definition mpscConsumerWord (cursor frontier : Z) : Z := Z.lor (u64 (Z.shiftl frontier 32)) cursor.
Definition mpscReleased (word : Z) : Z := u32 word.
Definition mpscFrontier (word : Z) : Z := u32 (Z.shiftr word 32).

Section queue.
Context {T : Type} (zero : T).
Implicit Types r : MPSCQueue T.
Abbreviation M := (prog (MPSCQueue T)).

Definition head : cell (MPSCQueue T) := Cell q_head set_head.
Definition cachedConsumer : cell (MPSCQueue T) := Cell q_cachedConsumer set_cachedConsumer.
Definition consumerPublished : cell (MPSCQueue T) := Cell q_published set_published.
Definition observerCompleted : cell (MPSCQueue T) := Cell q_observer set_observer.

(** ** Construction *)

Definition init (count : Z) (cfg : config) : MPSCQueue T :=
  MkQueue
    (MkProducerConfig (u32 (count -i 1)) (u32 (maxEnqueueBatch cfg)) (exactBatchCounts cfg))
    0 0 (replicate (Z.to_nat count) 0)
    (MkConsumer (u32 (count -i 1)) 0 0 (negb (keepDequeued cfg)) (u32 (maxDequeueBatch cfg))
       (exactBatchCounts cfg))
    0 0 (replicate (Z.to_nat count) zero).

Definition newMPSCBase (count : Z) (options : list Option) : error + MPSCQueue T :=
  match resolveConfig "newMPSCBase" count options with
  | inl err => inl err
  | inr cfg => inr (init count cfg)
  end.

Definition NewMPSCQueue (count : Z) (options : list Option) : error + MPSCQueue T :=
  match resolveConfig "NewMPSCQueue" count options with
  | inl err => inl err
  | inr cfg => inr (init count cfg)
  end.

Definition Capacity r : Z := pc_mask (producerConfig r) +32 1.
Definition MaxEnqueueBatch r : Z := pc_maxBatch (producerConfig r).
Definition MaxDequeueBatch r : Z := c_maxBatch (q_consumer r).

(** ** Counting *)

(** The loop both counts share: records followed from [end_] while they stay within [limit]. *)
Definition scanRecords (mask cursor limit end_ : Z) : M Z :=
  loop (λ end_,
    if limit <=? end_ -64 cursor then mret (inr end_)
    else
      recordEnd ← record_load (record_slots T) mask end_;
      if recordEnd <=? end_ then mret (inr end_)
      else if limit -64 (end_ -64 cursor) <? recordEnd -64 end_ then mret (inr end_)
      else mret (inl recordEnd)) end_.

Definition mpscCountFromSnapshot (before : Z) : M Z :=
  cfg ← load producerConfig;
  let cursorLow := mpscReleased before in
  head_ ← Load head;
  let distance := u32 head_ -32 cursorLow in
  let acquired := mpscFrontier before -32 cursorLow in
  let capacity := pc_mask cfg +32 1 in
  let result := Z.min acquired capacity in
  result ← (if distance <=? head_ then
              let cursor := head_ -64 distance in
              let limit := Z.min distance capacity in
              if acquired <=? limit then
                end_ ← scanRecords (pc_mask cfg) cursor limit (cursor +64 acquired);
                mret (end_ -64 cursor)
              else mret result
            else mret result);
  after ← Load consumerPublished;
  mret (if before =? after then result
        else Z.min (mpscFrontier after -32 mpscReleased after) capacity).

(** [mpscBase.Count]. *)
Definition baseCount : M Z := before ← Load consumerPublished; mpscCountFromSnapshot before.

Definition baseFree : M Z := capacity ← load Capacity; count ← baseCount; mret (capacity -i count).
Definition baseFull : M bool := count ← baseCount; capacity ← load Capacity; mret (count =? capacity).
Definition baseEmpty : M bool := count ← baseCount; mret (count =? 0).

Record mpscCountObservation := Observation {
  result_ : Z;
  observed : Z;
  end_of : Z;
  retain : bool;
}.

Definition mpscScanCount (before : Z) : M mpscCountObservation :=
  cfg ← load producerConfig;
  let released := mpscReleased before in
  let acquired := mpscFrontier before -32 released in
  let capacity := pc_mask cfg +32 1 in
  let observation := Observation (Z.min acquired capacity) 0 0 false in
  if acquired =? capacity then mret observation
  else
    head_ ← Load head;
    let distance := u32 head_ -32 released in
    if head_ <? distance then mret observation
    else
      let cursor := head_ -64 distance in
      let limit := Z.min distance capacity in
      if limit <? acquired then mret observation
      else
        let end_ := cursor +64 acquired in
        if acquired <? limit then
          observed ← Load observerCompleted;
          let end_ := if (end_ <=? observed) && (observed -64 cursor <=? limit)
                      then observed else end_ in
          end_ ← scanRecords (pc_mask cfg) cursor limit end_;
          mret (Observation (end_ -64 cursor) observed end_ true)
        else mret (Observation (end_ -64 cursor) 0 end_ false).

Definition mpscValidateCount (before : Z) (observation : mpscCountObservation) : M (Z * bool) :=
  cfg ← load producerConfig;
  after ← Load consumerPublished;
  mret (if before =? after then (result_ observation, retain observation)
        else (Z.min (mpscFrontier after -32 mpscReleased after) (pc_mask cfg +32 1), false)).

Definition mpscPublishProof (observed end_ : Z) : M unit :=
  if observed <? end_ then _ ← CompareAndSwap observerCompleted observed end_; mret tt
  else mret tt.

Definition Count : M Z :=
  before ← Load consumerPublished;
  observation ← mpscScanCount before;
  '(result, retain) ← mpscValidateCount before observation;
  _ ← (if retain : bool then mpscPublishProof (observed observation) (end_of observation)
       else mret tt);
  mret result.

Definition Free : M Z := capacity ← load Capacity; count ← Count; mret (capacity -i count).
Definition Full : M bool := count ← Count; capacity ← load Capacity; mret (count =? capacity).
Definition Empty : M bool := count ← Count; mret (count =? 0).

(** [mpscBase.Reset]. *)
Definition baseReset : M unit :=
  _ ← clear_all zero;
  _ ← clear_all (Slots0 := record_slots T) 0;
  _ ← Store head 0;
  _ ← Store cachedConsumer 0;
  _ ← modify (set_cursor 0);
  _ ← modify (set_frontier 0);
  Store consumerPublished 0.

Definition Reset : M unit := _ ← baseReset; Store observerCompleted 0.

(** ** Producers *)

Definition mpscAttemptProducer (head_ requested : Z) (fixed exact : bool) : M (Z * Z * Z * bool) :=
  cfg ← load producerConfig;
  let capacity := pc_mask cfg +32 1 in
  let headLow := u32 head_ in
  cached ← Load cachedConsumer;
  released ← (if exact || (requested =? 0) || (capacity -32 requested <? headLow -32 cached)
              then word ← Load consumerPublished; mret (mpscReleased word)
              else mret cached);
  let free := capacity +32 released -32 headLow in
  if capacity <? free then mret (head_, 0, 0, true)
  else if fixed && (free <? requested) then mret (head_, 0, free, false)
  else
    let count := Z.min requested free in
    if count =? 0 then mret (head_, 0, free, false)
    else
      _ ← (if released =? cached then mret tt else Store cachedConsumer released);
      swapped ← CompareAndSwap head head_ (head_ +64 count);
      mret (if swapped : bool then (head_, count, free -32 count, false) else (head_, 0, 0, true)).

Definition mpscReserveProducer (requested : Z) (fixed exact : bool) : M (Z * Z * Z) :=
  forever (
    head_ ← Load head;
    '(start, count, remaining, retry) ← mpscAttemptProducer head_ requested fixed exact;
    mret (if retry : bool then None else Some (start, count, remaining))).

Definition mpscWriteProducer (start : Z) (items : list T) : M unit :=
  producer ← load producerConfig; writeSlots (pc_mask producer) (u32 start) items.

Definition mpscPublishProducer (start count : Z) : M unit :=
  producer ← load producerConfig;
  record_store (record_slots T) (pc_mask producer) start (start +64 count).

Definition Enqueue (item : T) : M (option error) :=
  '(start, count, _) ← mpscReserveProducer 1 true false;
  if count =? 0 then mret (Some ErrFull)
  else
    _ ← (producer ← load producerConfig; slot_set (Z.land (u32 start) (pc_mask producer)) item);
    _ ← mpscPublishProducer start count;
    mret None.

Definition EnqueueBulk (items : list T) : M (Z * option error) :=
  producer ← load producerConfig;
  let capacity := pc_mask producer +32 1 in
  if (capacity <? len items) || (pc_maxBatch producer <? len items) then
    fresh ← (head_ ← Load head;
             word ← Load consumerPublished;
             mret (Z.min (capacity +32 mpscReleased word -32 u32 head_) capacity));
    mret (fresh, Some (BatchLengthError "enqueue" (len items) (pc_maxBatch producer) capacity))
  else
    '(start, count, remaining) ←
      mpscReserveProducer (u32 (len items)) true (pc_exactBatchCounts producer);
    if count =? 0 then mret (remaining, if len items =? 0 then None else Some ErrFull)
    else
      _ ← mpscWriteProducer start items;
      _ ← mpscPublishProducer start count;
      mret (remaining, None).

Definition EnqueueBurst (items : list T) : M (Z * Z) :=
  producer ← load producerConfig;
  let length := Z.min (len items) (pc_maxBatch producer) in
  '(start, count, remaining) ←
    mpscReserveProducer (u32 length) false (pc_exactBatchCounts producer);
  if count =? 0 then mret (0, remaining)
  else
    _ ← mpscWriteProducer start (sub items 0 count);
    _ ← mpscPublishProducer start count;
    mret (count, remaining).

(** ** The consumer *)

Definition mpscDiscover (cursor frontier : Z) (stopWhenRequestFits : bool) (requested : Z) : M Z :=
  consumer ← load q_consumer;
  let capacity := c_mask consumer +32 1 in
  let stopAt := if stopWhenRequestFits then requested else capacity in
  discoverRecords (record_slots T) (c_mask consumer) cursor capacity frontier stopAt.

(** [r.consumerPublished.Store(mpscConsumerWord(uint32(cursor), uint32(frontier)))]. *)
Definition publishConsumer : M unit :=
  consumer ← load q_consumer;
  Store consumerPublished (mpscConsumerWord (u32 (c_cursor consumer)) (u32 (c_frontier consumer))).

Definition mpscReleaseConsumer (count : Z) : M unit :=
  _ ← modify (λ r, set_cursor (c_cursor (q_consumer r) +64 count) r);
  publishConsumer.

Definition mpscReadConsumer (start n : Z) : M (list T) :=
  consumer ← load q_consumer;
  readSlots (c_mask consumer) zero (c_clearOnDequeue consumer) (u32 start) n.

Definition Dequeue : M (T * option error) :=
  consumer ← load q_consumer;
  frontier ← (if c_frontier consumer =? c_cursor consumer then
                end_ ← mpscDiscover (c_cursor consumer) (c_frontier consumer) true 1;
                _ ← modify (set_frontier end_);
                mret end_
              else mret (c_frontier consumer));
  if frontier =? c_cursor consumer then mret (zero, Some ErrEmpty)
  else
    let index := Z.land (u32 (c_cursor consumer)) (c_mask consumer) in
    value ← slot_get index;
    _ ← (if c_clearOnDequeue consumer then slot_set index zero else mret tt);
    _ ← mpscReleaseConsumer 1;
    mret (value, None).

Definition mpscDequeueBatch (dst : list T) (fixed : bool) : M (Z * Z * list T) :=
  consumer ← load q_consumer;
  let capacity := c_mask consumer +32 1 in
  let length := u32 (len dst) in
  let previousFrontier := c_frontier consumer in
  let available := c_frontier consumer -64 c_cursor consumer in
  frontier ← (if c_exactBatchCounts consumer || (length =? 0) || (available <? length) ||
                 (capacity <? available)
              then end_ ← mpscDiscover (c_cursor consumer) (c_frontier consumer) false 0;
                   _ ← modify (set_frontier end_);
                   mret end_
              else mret (c_frontier consumer));
  let available := frontier -64 c_cursor consumer in
  if (capacity <? available) || (fixed && (available <? length)) || (length =? 0) ||
     (available =? 0)
  then
    _ ← (if previousFrontier <? frontier then publishConsumer else mret tt);
    mret (0, Z.min available capacity, dst)
  else
    let length := Z.min length (u32 available) in
    values ← mpscReadConsumer (c_cursor consumer) length;
    _ ← mpscReleaseConsumer length;
    mret (length, available -64 length, copy_at 0 values dst).

Definition DequeueBulk (dst : list T) : M (Z * option error * list T) :=
  consumer ← load q_consumer;
  let capacity := c_mask consumer +32 1 in
  if (capacity <? len dst) || (c_maxBatch consumer <? len dst) then
    end_ ← mpscDiscover (c_cursor consumer) (c_frontier consumer) false 0;
    let fresh := end_ -64 c_cursor consumer in
    mret (Z.min fresh capacity,
          Some (BatchLengthError "dequeue" (len dst) (c_maxBatch consumer) capacity), dst)
  else
    '(moved, remaining, dst') ← mpscDequeueBatch dst true;
    mret (remaining, if moved =? len dst then None else Some ErrEmpty, dst').

Definition DequeueBurst (dst : list T) : M (Z * Z * list T) :=
  consumer ← load q_consumer;
  let length := Z.min (len dst) (c_maxBatch consumer) in
  '(moved, remaining, front) ← mpscDequeueBatch (sub dst 0 length) false;
  mret (moved, remaining, front ++ sub dst length (len dst)).

(** ** The abstract queue *)

Record fs_state (cap : Z) r (P C : Z) (l : list T) : Prop := {
  fs_window : window zero (c_clearOnDequeue (q_consumer r)) cap (q_entries r) P C l;
  fs_mask : pc_mask (producerConfig r) = cap - 1 ∧ c_mask (q_consumer r) = cap - 1;
  fs_maxEnqueue : 1 <= pc_maxBatch (producerConfig r) <= cap;
  fs_maxDequeue : 1 <= c_maxBatch (q_consumer r) <= cap;
  fs_head : q_head r = P ∧ P < 2 ^ 64;
  fs_cached : ∃ cc, q_cachedConsumer r = u32 cc ∧ cc <= C ∧ P <= cc + cap;
  fs_cursor : c_cursor (q_consumer r) = C;
  fs_frontier : C <= c_frontier (q_consumer r) <= P ∧
                linked (q_records r) (c_frontier (q_consumer r)) P;
  fs_published :
    q_published r = mpscConsumerWord (u32 C) (u32 (c_frontier (q_consumer r)));
  fs_records : len (q_records r) = cap ∧ Forall (λ e, 0 <= e <= P) (q_records r);
  fs_observer : 0 <= q_observer r <= P ∧ (C <= q_observer r → linked (q_records r) (q_observer r) P);
}.

Definition fs_st (cap : Z) r (k : Z) (l : list T) : Prop :=
  ∃ P C, fs_state cap r P C l ∧ 0 <= k ∧ P + k < 2 ^ 64.

Definition queue_holds r (k : Z) (l : list T) : Prop :=
  pow2_cap (Capacity r) ∧ fs_st (Capacity r) r k l.

Definition consumer_config (c : mpscConsumer) : Z * bool * Z * bool :=
  (c_mask c, c_clearOnDequeue c, c_maxBatch c, c_exactBatchCounts c).

Definition same_config r r' : Prop :=
  producerConfig r' = producerConfig r ∧
  consumer_config (q_consumer r') = consumer_config (q_consumer r).

Lemma released_word c f : is_u32 c → is_u32 f → mpscReleased (mpscConsumerWord c f) = c.
Proof. intros. unfold mpscReleased, mpscConsumerWord. rewrite join32_eq by done. by apply join32_lo. Qed.

Lemma frontier_word c f : is_u32 c → is_u32 f → mpscFrontier (mpscConsumerWord c f) = f.
Proof. intros. unfold mpscFrontier, mpscConsumerWord. rewrite join32_eq by done. by apply join32_hi. Qed.

(** The published word round trips: the released position and the frontier the consumer stores
    are the ones producers and observers read. *)
Theorem consumer_word_roundtrip cursor frontier :
  mpscReleased (mpscConsumerWord (u32 cursor) (u32 frontier)) = u32 cursor ∧
  mpscFrontier (mpscConsumerWord (u32 cursor) (u32 frontier)) = u32 frontier.
Proof. split; [apply released_word|apply frontier_word]; apply u32_range. Qed.

Lemma fs_bounds cap r P C l :
  fs_state cap r P C l → 0 <= C ∧ P = C + len l ∧ 0 <= len l <= cap ∧ P < 2 ^ 64.
Proof. intros [[] _ _ _ [_ ?] _ _ _ _ _ _]. pose proof (len_nonneg l). lia. Qed.

Lemma records_u64 (recs : list Z) P : P < 2 ^ 64 → Forall (λ e, 0 <= e <= P) recs → Forall is_u64 recs.
Proof. intros HP Hf. eapply Forall_impl; [exact Hf|]. unfold is_u64. simpl. lia. Qed.

(** No record lies past the last reserved position. *)
Lemma records_end (recs : list Z) P y : Forall (λ e, 0 <= e <= P) recs → slot recs P = Some y → y <= P.
Proof. intros Hf Hs. unfold slot in Hs. eapply Forall_lookup_1 in Hs; [|exact Hf]. simpl in Hs. lia. Qed.

Section calls.
Context (cap : Z) (Hcap : pow2_cap cap).

Lemma fs_cap : 1 <= cap <= 2 ^ 30.
Proof. by apply pow2_cap_range. Qed.

Lemma fs_intro r P C k l : fs_state cap r P C l → 0 <= k → P + k < 2 ^ 64 → fs_st cap r k l.
Proof. intros Hst Hk Hp. by exists P, C. Qed.

Lemma fs_fits r k l : fs_st cap r k l → len l <= cap.
Proof. intros (P & C & Hst & _). apply (fs_bounds _ _ _ _ _ Hst). Qed.

Lemma fs_capacity r P C l : fs_state cap r P C l → pc_mask (producerConfig r) +32 1 = cap.
Proof. intros Hst. apply (mask_capacity cap Hcap). apply Hst. Qed.

(** ** Producer calls *)

Lemma fs_enqueued r P C l xs es' cc :
  fs_state cap r P C l → 0 < len xs → P + len xs < 2 ^ 64 → len l + len xs <= cap →
  cc <= C → P + len xs <= cc + cap → after_write (q_entries r) P xs es' →
  fs_state cap (MkQueue (producerConfig r) (P + len xs) (u32 cc) (put (q_records r) P (P + len xs))
    (q_consumer r) (q_published r) (q_observer r) es') (P + len xs) C (l ++ xs).
Proof.
  intros Hst Hn Hr64 Hroom Hcc Hfit Haw. pose proof fs_cap. pose proof (fs_bounds _ _ _ _ _ Hst).
  destruct Hst as [Hw Hm He Hd _ _ Hcu [Hf Hfl] Hpub [Hrn Hru] [Ho Hol]]. constructor; try done.
  - eapply window_write; [lia|done|lia|done].
  - by exists cc.
  - simpl. split; [lia|]. apply linked_store; [lia|done|lia|lia].
  - simpl. rewrite len_put. split; [done|]. apply put_forall; [lia|].
    eapply Forall_impl; [exact Hru|]. simpl. lia.
  - simpl. split; [lia|]. intros HO. apply linked_store; [lia|by apply Hol|lia|lia].
Qed.

Lemma fs_reserve r k P C l requested fixed exact :
  fs_state cap r P C l → P + k < 2 ^ 64 → 0 <= requested <= cap → requested <= k →
  ends (mpscReserveProducer requested fixed exact) r (λ '(start, n, rest) r1,
    start = P ∧ n = granted fixed requested (cap - len l) ∧
    (∃ rm, rest = rm - n ∧ fresh_room exact requested n rm (cap - len l)) ∧
    (n = 0 → r1 = r) ∧
    (0 < n → ∃ cc, r1 = set_head (P + n) (set_cachedConsumer (u32 cc) r) ∧ cc <= C ∧
      P + n <= cc + cap)).
Proof.
  intros Hst Hk Hreq Hrk. pose proof fs_cap. pose proof (fs_bounds _ _ _ _ _ Hst) as Hb.
  destruct (fs_cached _ _ _ _ _ Hst) as (cc0 & Hcc & Hct & Hcr).
  set (n := granted fixed requested (cap - len l)).
  apply ends_forever, ends_bind, ends_Load.
  change (cget head r) with (q_head r). rewrite (proj1 (fs_head _ _ _ _ _ Hst)).
  apply ends_bind. unfold mpscAttemptProducer. apply ends_bind, ends_load.
  rewrite (fs_capacity r P C l) by done. apply ends_bind, ends_Load.
  change (cget cachedConsumer r) with (q_cachedConsumer r). rewrite Hcc.
  replace (cap -32 requested <? u32 P -32 u32 cc0) with (cap + cc0 - P <? requested).
  2: { rewrite u32_distance, (u32_small (cap - requested)) by (unfold is_u32; lia).
       apply eq_true_iff_eq. rewrite !Z.ltb_lt. lia. }
  destruct (admission fixed exact cap requested (cap + cc0 - P) (cap - len l)) as [Hn Hf]; [lia..|].
  rewrite (proj2 (Z.ltb_ge cap _)), orb_false_r in Hn, Hf by lia.
  set (refresh := exact || _ || _) in *. set (cc := if refresh then C else cc0).
  fold n in Hn, Hf. replace (if refresh then cap - len l else cap + cc0 - P)
    with (cap + cc - P) in Hn, Hf by (unfold cc; destruct refresh; lia).
  assert (cc <= C ∧ P <= cc + cap) as [Hc1 Hc2] by (unfold cc; destruct refresh; lia).
  apply (ends_seq _ _ _ (λ released r1, released = u32 cc ∧ r1 = r)).
  { unfold cc. destruct refresh; [|by apply ends_ret]. apply ends_bind, ends_Load, ends_ret.
    change (cget consumerPublished r) with (q_published r). rewrite (fs_published _ _ _ _ _ Hst).
    by rewrite released_word by auto with go_int. }
  intros ? ? [-> ->]. cbv zeta.
  replace (cap +32 u32 cc -32 u32 P) with (cap + cc - P).
  2: { rewrite u32_add_r, u32_sub_l, u32_sub_r. symmetry. apply u32_small. unfold is_u32. lia. }
  destruct (Z.ltb_spec cap (cap + cc - P)); [lia|]. clearbody n. unfold granted in Hn.
  assert (n = 0 → ends (mret (P, 0, cap + cc - P, false)) r
    (λ a s', ends (let '(start, count, remaining, retry) := a in
       mret (if retry : bool then None else Some (start, count, remaining))) s'
      (λ res s2, ∃ b, res = Some b ∧ (let '(start, n', rest) := b in λ r1,
        start = P ∧ n' = n ∧
        (∃ rm, rest = rm - n' ∧ fresh_room exact requested n' rm (cap - len l)) ∧
        (n' = 0 → r1 = r) ∧
        (0 < n' → ∃ cc, r1 = set_head (P + n') (set_cachedConsumer (u32 cc) r) ∧ cc <= C ∧
          P + n' <= cc + cap)) s2))) as Hzero.
  { intros Hn0. rewrite Hn0 in Hf. apply ends_ret, ends_ret. eexists. split; [done|]. simpl.
    split_and!; [done..|eexists; split; [|exact Hf]; lia|done|lia]. }
  destruct (fixed && _); [by apply Hzero|]. rewrite <- Hn.
  destruct (Z.eqb_spec n 0) as [Hz0|Hz0]; [by apply Hzero|].
  apply (ends_seq _ _ _ (λ _ r1, r1 = set_cachedConsumer (u32 cc) r)).
  { destruct (Z.eqb_spec (u32 cc) (u32 cc0)) as [He|He]; [|by apply ends_Store].
    apply ends_ret. rewrite He, <- Hcc. by destruct r. }
  intros _ ? ->. apply ends_bind, ends_CompareAndSwap; [apply Hst|]. apply ends_ret, ends_ret.
  eexists. split; [done|]. rewrite (u32_small (_ - n)), (u64_small (P + n)) by (unfold is_u32, is_u64; lia).
  split_and!; [done..|by eexists|lia|]. intros _. exists cc. split_and!; [done|lia..].
Qed.

Lemma fs_promise r k l requested fixed exact :
  fs_st cap r k l → 0 <= requested <= cap → requested <= k →
  ends (mpscReserveProducer requested fixed exact) r
    (reserve_promise cap same_config (fs_st cap) mpscWriteProducer mpscPublishProducer
       r k l requested fixed exact).
Proof.
  intros (P & C & Hst & Hk0 & Hk) Hreq Hrk. pose proof fs_cap. pose proof (fs_bounds _ _ _ _ _ Hst).
  eapply ends_mono; [by apply (fs_reserve r k P C l requested fixed exact)|].
  intros [[start n] rest] r1 (-> & Hn & Hrest & Hnone & Hsome).
  split_and!; [done|done| |].
  - intros Hz. rewrite (Hnone Hz). split; [done|]. by apply (fs_intro _ P C).
  - intros xs Hpos Hlen. destruct (Hsome Hpos) as (cc & -> & Hcc & Hfit).
    assert (granted fixed requested (cap - len l) <= Z.min requested (cap - len l)) as Hle.
    { unfold granted. destruct (fixed && _); lia. }
    unfold mpscWriteProducer, mpscPublishProducer. apply ends_bind, ends_bind, ends_load.
    change (producerConfig (set_head _ _)) with (producerConfig r).
    rewrite (proj1 (fs_mask _ _ _ _ _ Hst)).
    apply (ends_writeSlots cap Hcap); [done|apply Hst|lia|].
    intros es' Haw. apply ends_bind, ends_load.
    change (producerConfig (set_entries _ _)) with (producerConfig r).
    rewrite (proj1 (fs_mask _ _ _ _ _ Hst)). apply (ends_record_store (record_slots T)); [done|apply Hst|].
    split; [done|]. rewrite u64_small by (unfold is_u64; lia). subst n. rewrite <- Hlen in *.
    apply (fs_intro _ (P + len xs) C); [|lia|lia].
    apply (fs_enqueued r P C l xs es' cc); [done|lia|lia|lia|lia|lia|done].
Qed.

Lemma fs_oversize r k l :
  fs_st cap r k l →
  ends (head_ ← Load head; word ← Load consumerPublished;
        mret (Z.min (cap +32 mpscReleased word -32 u32 head_) cap)) r
    (λ n r', same_config r r' ∧ fs_st cap r' k l ∧ n = cap - len l).
Proof.
  intros (P & C & Hst & Hk0 & Hk). pose proof fs_cap. pose proof (fs_bounds _ _ _ _ _ Hst).
  do 2 apply ends_bind, ends_Load. apply ends_ret. split_and!; [done|by apply (fs_intro _ P C)|].
  change (cget head r) with (q_head r). change (cget consumerPublished r) with (q_published r).
  rewrite (proj1 (fs_head _ _ _ _ _ Hst)), (fs_published _ _ _ _ _ Hst), released_word by auto with go_int.
  rewrite u32_add_r, u32_sub_l, u32_sub_r, u32_small by (unfold is_u32; lia). lia.
Qed.

(** ** Consumer calls *)

(** The queue after the consumer moved to [C] with frontier [F] and published both. *)
Definition consumed r (C F : Z) (es : list T) : MPSCQueue T :=
  let c := q_consumer r in
  MkQueue (producerConfig r) (q_head r) (q_cachedConsumer r) (q_records r)
    (MkConsumer (c_mask c) C F (c_clearOnDequeue c) (c_maxBatch c) (c_exactBatchCounts c))
    (mpscConsumerWord (u32 C) (u32 F)) (q_observer r) es.

Lemma fs_consumed r P C l n F es' :
  fs_state cap r P C l → 0 <= n <= len l →
  after_read zero (c_clearOnDequeue (q_consumer r)) (q_entries r) C n es' →
  C + n <= F <= P → linked (q_records r) F P →
  fs_state cap (consumed r (C + n) F es') P (C + n) (drop (Z.to_nat n) l).
Proof.
  intros Hst Hn Har HF Hlink. pose proof fs_cap. pose proof (fs_bounds _ _ _ _ _ Hst).
  destruct Hst as [Hw Hm He Hd Hh (cc & Hcc & Hcb) Hcu _ _ Hrs [Ho Hol]]. constructor; try done.
  - eapply window_read; [lia|done|lia|done].
  - exists cc. split; [done|lia].
  - simpl. split; [lia|]. intros HO. apply Hol. lia.
Qed.

Lemma after_read_none clear (es : list T) C : after_read zero clear es C 0 es.
Proof. destruct clear; [apply after_write_nil|done]. Qed.

Lemma fs_kept r P C l F :
  fs_state cap r P C l → C <= F <= P → linked (q_records r) F P →
  fs_state cap (consumed r C F (q_entries r)) P C l.
Proof.
  intros Hst HF Hl. pose proof (fs_bounds _ _ _ _ _ Hst). rewrite <- (Z.add_0_r C) at 1 2.
  change l with (drop (Z.to_nat 0) l). apply (fs_consumed r P C); [done|lia|apply after_read_none|lia|done].
Qed.

Lemma consumed_self r P C l :
  fs_state cap r P C l → consumed r C (c_frontier (q_consumer r)) (q_entries r) = r.
Proof.
  intros Hst. pose proof (fs_cursor _ _ _ _ _ Hst) as Hc. pose proof (fs_published _ _ _ _ _ Hst) as Hp.
  unfold consumed. rewrite <- Hp, <- Hc. by destruct r as [? ? ? ? [] ? ? ?].
Qed.

Lemma fs_discover r r0 P C l (stop : bool) requested (Q : Z → MPSCQueue T → Prop) :
  fs_state cap r P C l → q_records r0 = q_records r → c_mask (q_consumer r0) = c_mask (q_consumer r) →
  0 <= requested →
  let F := c_frontier (q_consumer r) in
  (∀ e, F <= e <= P → linked (q_records r) e P →
     (e = P ∨ stop = true ∧ requested <= e - C) → Q e r0) →
  ends (mpscDiscover C F stop requested) r0 Q.
Proof.
  intros Hst Hr0 Hm0 Hreq F HQ. pose proof fs_cap. pose proof (fs_bounds _ _ _ _ _ Hst).
  destruct (fs_frontier _ _ _ _ _ Hst) as [HF Hl]. destruct (fs_records _ _ _ _ _ Hst) as [Hn Hu].
  destruct (fs_mask _ _ _ _ _ Hst) as [_ Hm].
  unfold mpscDiscover. apply ends_bind, ends_load. rewrite Hm0, (mask_capacity cap Hcap) by done.
  rewrite Hm.
  apply ends_discover; try done; [lia| |simpl; by rewrite Hr0| |lia|].
  - lia.
  - simpl. rewrite Hr0. by apply (records_u64 _ P); [lia|].
  - simpl. rewrite Hr0. intros e He Hne. pose proof (chained_le _ _ _ _ _ _ He).
    destruct (chained_linked _ _ _ _ _ P _ He Hne Hl) as [Hlink Hend]; [lia| |].
    { intros y Hy _. by apply (records_end (q_records r)). }
    pose proof (linked_le _ _ _ Hlink). apply HQ; [lia|done|]. destruct stop; naive_solver lia.
Qed.

(** Publication after the frontier was raised to [F], and release of [n] positions. *)
Lemma fs_publishConsumer r P C l F (Q : unit → MPSCQueue T → Prop) :
  fs_state cap r P C l → Q tt (consumed r C F (q_entries r)) →
  ends publishConsumer (set_frontier F r) Q.
Proof.
  intros Hst HQ. unfold publishConsumer. apply ends_bind, ends_load, ends_Store.
  unfold consumed in HQ. rewrite <- (fs_cursor _ _ _ _ _ Hst) in HQ. exact HQ.
Qed.

Lemma fs_releaseConsumer r P C l F n es' (Q : unit → MPSCQueue T → Prop) :
  fs_state cap r P C l → 0 <= n → C + n < 2 ^ 64 → Q tt (consumed r (C + n) F es') →
  ends (mpscReleaseConsumer n) (set_entries es' (set_frontier F r)) Q.
Proof.
  intros Hst Hn H64 HQ. pose proof (fs_bounds _ _ _ _ _ Hst).
  unfold mpscReleaseConsumer, publishConsumer.
  apply ends_bind, ends_modify, ends_bind, ends_load, ends_Store.
  rewrite <- (u64_small (C + n)), <- (fs_cursor _ _ _ _ _ Hst) in HQ by (unfold is_u64; lia). exact HQ.
Qed.

Lemma fs_set_frontier r : set_frontier (c_frontier (q_consumer r)) r = r.
Proof. by destruct r as [? ? ? ? [] ? ? ?]. Qed.

Lemma fs_Dequeue r k l :
  fs_st cap r k l →
  ends Dequeue r (λ '(v, err) r', same_config r r' ∧
    match l with
    | x :: l' => v = x ∧ err = None ∧ fs_st cap r' k l'
    | [] => v = zero ∧ err = Some ErrEmpty ∧ fs_st cap r' k []
    end).
Proof.
  intros (P & C & Hst & Hk0 & Hk). pose proof fs_cap. pose proof (fs_bounds _ _ _ _ _ Hst).
  pose proof (fs_cursor _ _ _ _ _ Hst) as Hcu. destruct (fs_frontier _ _ _ _ _ Hst) as [HF Hl].
  unfold Dequeue. apply ends_bind, ends_load. rewrite Hcu.
  apply (ends_seq _ _ _ (λ F r1, r1 = set_frontier F r ∧ C <= F <= P ∧ linked (q_records r) F P ∧
    (F = C → C = P))).
  { destruct (Z.eqb_spec (c_frontier (q_consumer r)) C) as [He|He].
    - apply ends_bind, (fs_discover r r P C l true 1); [done..|]. intros e Hb Hle Hend.
      apply ends_bind, ends_modify, ends_ret. split_and!; [done|lia..|done|]. intros ->. destruct Hend; lia.
    - apply ends_ret. rewrite fs_set_frontier. split_and!; [done|lia..|done|lia]. }
  intros F ? (-> & HFb & HFl & HFe). destruct l as [|x l'].
  - change (len []) with 0 in *. destruct (Z.eqb_spec F C) as [->|]; [|lia]. apply ends_ret.
    split_and!; [done..|]. apply (fs_intro _ P C); [|done..].
    assert (c_frontier (q_consumer r) = C) as <- by lia. by rewrite fs_set_frontier.
  - assert (len (x :: l') = 1 + len l') as Hlen by (unfold len; simpl; lia). pose proof (len_nonneg l').
    destruct (Z.eqb_spec F C) as [->|]; [lia|].
    rewrite (proj2 (fs_mask _ _ _ _ _ Hst)), mask_index by done.
    apply ends_bind, (ends_slot_get cap C _ x); [lia|apply Hst| |].
    { rewrite <- (Z.add_0_r C). by apply (win_holds _ _ _ _ _ _ _ (fs_window _ _ _ _ _ Hst) 0%nat). }
    assert (∀ es', after_read zero (c_clearOnDequeue (q_consumer r)) (q_entries r) C 1 es' →
      ends (_ ← mpscReleaseConsumer 1; mret (x, @None error)) (set_entries es' (set_frontier F r))
        (λ '(v, err) r', same_config r r' ∧ v = x ∧ err = None ∧ fs_st cap r' k l')) as Hrel.
    { intros es' Har. apply ends_bind, (fs_releaseConsumer r P C (x :: l')); [done|lia|lia|]. apply ends_ret.
      split_and!; [done..|]. apply (fs_intro _ P (C + 1)); [|done..].
      apply (fs_consumed r P C (x :: l') 1); [done|lia|done|lia|done]. }
    apply ends_bind. destruct (c_clearOnDequeue (q_consumer r)) eqn:Hcl.
    + apply ends_slot_set; [lia|apply Hst|]. apply Hrel.
      apply after_write_one. change (0 < len (q_entries r)).
      rewrite (win_len _ _ _ _ _ _ _ (fs_window _ _ _ _ _ Hst)). lia.
    + apply ends_ret. by apply (Hrel (q_entries r)).
Qed.

(** The frontier a batch call works with. *)
Lemma fs_batch_frontier r P C l (refresh : bool) (Q : Z → MPSCQueue T → Prop) :
  fs_state cap r P C l →
  (let F := if refresh then P else c_frontier (q_consumer r) in
   linked (q_records r) F P → Q F (set_frontier F r)) →
  ends (if refresh
        then end_ ← mpscDiscover C (c_frontier (q_consumer r)) false 0;
             _ ← modify (set_frontier end_); mret end_
        else mret (c_frontier (q_consumer r))) r Q.
Proof.
  intros Hst HQ. cbv zeta in HQ. destruct refresh.
  - apply ends_bind, (fs_discover r r P C l false 0); [done..|]. intros e Hb Hle Hend.
    apply ends_bind, ends_modify, ends_ret. destruct Hend as [->|[? ?]]; [|done]. by apply HQ.
  - apply ends_ret. rewrite fs_set_frontier in HQ. apply HQ. apply Hst.
Qed.

Lemma fs_dequeueBatch r k l dst fixed :
  fs_st cap r k l → len dst <= cap →
  ends (mpscDequeueBatch dst fixed) r (λ '(n, rest, dst') r', same_config r r' ∧
    n = granted fixed (len dst) (len l) ∧ fs_st cap r' k (drop (Z.to_nat n) l) ∧
    dst' = take (Z.to_nat n) l ++ drop (Z.to_nat n) dst ∧
    ∃ rm, rest = rm - n ∧ fresh_room (c_exactBatchCounts (q_consumer r)) (len dst) n rm (len l)).
Proof.
  intros (P & C & Hst & Hk0 & Hk) Hd. pose proof fs_cap. pose proof (fs_bounds _ _ _ _ _ Hst).
  pose proof (len_nonneg dst). destruct (fs_frontier _ _ _ _ _ Hst) as [HF0 _].
  unfold mpscDequeueBatch. apply ends_bind, ends_load.
  rewrite (mask_capacity cap Hcap), (u32_small (len dst)) by (apply Hst || unfold is_u32; lia).
  rewrite (fs_cursor _ _ _ _ _ Hst). set (F0 := c_frontier (q_consumer r)) in *.
  rewrite (u64_small (F0 - C)) by (unfold is_u64; lia).
  apply ends_bind, (fs_batch_frontier r P C l); [done|]. cbv zeta. fold F0.
  set (refresh := _ || _ || _ || _). set (F := if refresh then P else F0). intros HFl.
  set (n := granted fixed (len dst) (len l)).
  destruct (admission fixed (c_exactBatchCounts (q_consumer r)) cap (len dst) (F0 - C) (len l))
    as [Hn Hfresh]; [lia..|]. fold refresh n in Hn, Hfresh.
  assert (F0 <= F <= P) as HF by (unfold F; destruct refresh; lia).
  replace (if refresh then len l else F0 - C) with (F - C) in Hn, Hfresh
    by (unfold F; destruct refresh; lia).
  rewrite (u64_small (F - C)) by (unfold is_u64; lia). clearbody n F.
  destruct (Z.ltb_spec cap (F - C)); [lia|]. cbn [orb]. rewrite (Z.min_l (F - C)) by lia.
  destruct (fixed && (F - C <? len dst) || (len dst =? 0) || (F - C =? 0)) eqn:Hfail.
  - assert (n = 0) as Hn0.
    { rewrite Hn. unfold granted. apply orb_true_iff in Hfail as [[->|He%Z.eqb_eq]%orb_true_iff|He%Z.eqb_eq];
        [done|destruct (fixed && _); lia..]. }
    clear Hn. rewrite Hn0 in *. apply (ends_seq _ _ _ (λ _ r', r' = consumed r C F (q_entries r))).
    + destruct (Z.ltb_spec F0 F); [by apply (fs_publishConsumer r P C l)|]. apply ends_ret.
      assert (F = F0) as -> by lia. unfold F0. by rewrite fs_set_frontier, (consumed_self r P C l).
    + intros _ ? ->. apply ends_ret. split_and!; [done..|by apply (fs_intro _ P C); [apply fs_kept; [|lia|]|..]|done|].
      exists (F - C). split; [lia|done].
  - apply orb_false_iff in Hfail as [[Hfx Hd0%Z.eqb_neq]%orb_false_iff Hf0%Z.eqb_neq].
    unfold granted in Hn. rewrite Hfx in Hn. rewrite (u32_small (F - C)) by (unfold is_u32; lia).
    rewrite <- Hn. assert (0 < n <= len l) as Hnl by lia.
    assert (len (take (Z.to_nat n) l) = n) as Hlen by (apply len_take; lia).
    apply ends_bind, ends_bind, ends_load.
    change (c_mask (q_consumer (set_frontier F r))) with (c_mask (q_consumer r)).
    rewrite (proj2 (fs_mask _ _ _ _ _ Hst)).
    apply (ends_readSlots cap Hcap _ _ _ _ C n (take (Z.to_nat n) l));
      [done|apply Hst|lia|eapply window_prefix; [apply Hst|lia]|done|].
    intros es' Har. apply ends_bind, (fs_releaseConsumer r P C l); [done|lia|lia|]. apply ends_ret.
    rewrite (u64_small (F - C - n)), copy_front by (unfold is_u64; lia).
    replace (length (take (Z.to_nat n) l)) with (Z.to_nat n) by (unfold len in Hlen; lia).
    split_and!; [done..| |done|by eexists]. apply (fs_intro _ P (C + n)); [|done..].
    apply (fs_consumed r P C l n F es'); [done|lia|done|lia|done].
Qed.

(** ** Counting *)

Lemma fs_scan r P C l e (Q : Z → MPSCQueue T → Prop) :
  fs_state cap r P C l → C <= e → linked (q_records r) e P → Q P r →
  ends (scanRecords (cap - 1) C (P - C) e) r Q.
Proof.
  intros Hst He Hl HQ. pose proof fs_cap. pose proof (fs_bounds _ _ _ _ _ Hst).
  destruct (fs_records _ _ _ _ _ Hst) as [Hn _].
  unfold linked in Hl. remember P as P0 eqn:HP0 in Hl. induction Hl as [x|x y z [Hs Hlt] Hyz IH].
  - subst x. apply ends_loop. rewrite u64_small by (unfold is_u64; lia).
    destruct (Z.leb_spec (P - C) (P - C)); [|lia]. by apply ends_ret.
  - subst z. pose proof (linked_le _ _ _ Hyz) as Hy. apply ends_loop.
    rewrite (u64_small (x - C)) by (unfold is_u64; lia). destruct (Z.leb_spec (P - C) (x - C)); [lia|].
    apply ends_bind, (ends_record_load (record_slots T) cap Hcap r Hn x y); [done|].
    destruct (Z.leb_spec y x); [lia|].
    rewrite (u64_small (y - x)), (u64_small (P - C - (x - C))) by (unfold is_u64; lia).
    destruct (Z.ltb_spec (P - C - (x - C)) (y - x)); [lia|]. apply ends_ret, IH; [lia|done].
Qed.

(** What both counts read first: the distances from the published word. *)
Lemma fs_snapshot r P C l :
  fs_state cap r P C l →
  let F := c_frontier (q_consumer r) in
  mpscReleased (q_published r) = u32 C ∧ mpscFrontier (q_published r) -32 u32 C = F - C ∧
  u32 P -32 u32 C = P - C.
Proof.
  intros Hst F. pose proof fs_cap. pose proof (fs_bounds _ _ _ _ _ Hst).
  destruct (fs_frontier _ _ _ _ _ Hst) as [HF _]. fold F in HF. rewrite (fs_published _ _ _ _ _ Hst).
  rewrite released_word, frontier_word by auto with go_int. fold F.
  split_and!; [done|apply u32_distance; lia|apply u32_distance; lia].
Qed.

Lemma fs_baseCount r k l :
  fs_st cap r k l → ends baseCount r (λ n r', r' = r ∧ n = len l).
Proof.
  intros (P & C & Hst & _). pose proof fs_cap. pose proof (fs_bounds _ _ _ _ _ Hst).
  destruct (fs_frontier _ _ _ _ _ Hst) as [HF Hl]. destruct (fs_snapshot r P C l Hst) as (Hr & Ha & Hd).
  unfold baseCount, mpscCountFromSnapshot. apply ends_bind, ends_Load, ends_bind, ends_load.
  change (cget consumerPublished r) with (q_published r). apply ends_bind, ends_Load.
  change (cget head r) with (q_head r). rewrite (proj1 (fs_head _ _ _ _ _ Hst)), Hr, Ha, Hd.
  rewrite (fs_capacity r P C l), (proj1 (fs_mask _ _ _ _ _ Hst)) by done. cbv zeta.
  destruct (Z.leb_spec (P - C) P); [|lia].
  rewrite (u64_small (P - (P - C))), Z.min_l by (unfold is_u64; lia).
  replace (P - (P - C)) with C by lia.
  destruct (Z.leb_spec (c_frontier (q_consumer r) - C) (P - C)); [|lia].
  rewrite (u64_small (C + _)) by (unfold is_u64; lia).
  replace (C + (c_frontier (q_consumer r) - C)) with (c_frontier (q_consumer r)) by lia.
  apply ends_bind, ends_bind, (fs_scan r P C l); [done|lia|done|]. apply ends_ret.
  apply ends_bind, ends_Load, ends_ret. change (cget consumerPublished r) with (q_published r).
  rewrite Z.eqb_refl, u64_small by (unfold is_u64; lia). split; [done|lia].
Qed.

Lemma fs_observed r P C l :
  fs_state cap r P C l → fs_state cap (set_observer P r) P C l.
Proof. intros []. constructor; try done. split; [simpl; lia|]. intros _. constructor. Qed.

Lemma fs_Count r k l :
  fs_st cap r k l → ends Count r (λ n r', same_config r r' ∧ fs_st cap r' k l ∧ n = len l).
Proof.
  intros (P & C & Hst & Hk0 & Hk). pose proof fs_cap. pose proof (fs_bounds _ _ _ _ _ Hst).
  destruct (fs_frontier _ _ _ _ _ Hst) as [HF Hl]. destruct (fs_snapshot r P C l Hst) as (Hr & Ha & Hd).
  destruct (fs_observer _ _ _ _ _ Hst) as [Ho Hol].
  unfold Count. apply ends_bind, ends_Load. change (cget consumerPublished r) with (q_published r).
  apply (ends_seq _ _ _ (λ o r1, r1 = r ∧ result_ o = len l ∧
    (retain o = true → observed o = q_observer r ∧ end_of o = P))).
  - unfold mpscScanCount. apply ends_bind, ends_load. rewrite Hr, Ha, (fs_capacity r P C l) by done.
    cbv zeta. destruct (Z.eqb_spec (c_frontier (q_consumer r) - C) cap).
    { apply ends_ret. simpl. split_and!; [done|lia|done]. }
    apply ends_bind, ends_Load. change (cget head r) with (q_head r).
    rewrite (proj1 (fs_head _ _ _ _ _ Hst)), Hd, (proj1 (fs_mask _ _ _ _ _ Hst)).
    destruct (Z.ltb_spec P (P - C)); [lia|].
    rewrite (u64_small (P - (P - C))), Z.min_l by (unfold is_u64; lia).
    replace (P - (P - C)) with C by lia.
    destruct (Z.ltb_spec (P - C) (c_frontier (q_consumer r) - C)); [lia|].
    rewrite (u64_small (C + _)) by (unfold is_u64; lia).
    replace (C + (c_frontier (q_consumer r) - C)) with (c_frontier (q_consumer r)) by lia.
    destruct (Z.ltb_spec (c_frontier (q_consumer r) - C) (P - C)).
    + apply ends_bind, ends_Load. change (cget observerCompleted r) with (q_observer r).
      apply ends_bind. eapply (fs_scan r P C l); [done|..].
      * destruct (Z.leb_spec (c_frontier (q_consumer r)) (q_observer r)); simpl; [destruct (_ <=? _)|]; lia.
      * destruct (Z.leb_spec (c_frontier (q_consumer r)) (q_observer r)); simpl; [|done].
        destruct (_ <=? _); [apply Hol; lia|done].
      * apply ends_ret. simpl. rewrite u64_small by (unfold is_u64; lia). split_and!; [done|lia|done].
    + apply ends_ret. simpl. rewrite u64_small by (unfold is_u64; lia). split_and!; [done|lia|done].
  - intros o ? (-> & Hres & Hret). unfold mpscValidateCount. apply ends_bind, ends_bind, ends_load.
    apply ends_bind, ends_Load, ends_ret. change (cget consumerPublished r) with (q_published r).
    rewrite Z.eqb_refl, Hres. apply (ends_seq _ _ _ (λ _ r', same_config r r' ∧ fs_st cap r' k l)).
    + destruct (retain o); [|apply ends_ret; split; [done|by apply (fs_intro _ P C)]].
      destruct Hret as [-> ->]; [done|]. unfold mpscPublishProof. destruct (Z.ltb_spec (q_observer r) P).
      * apply ends_bind, ends_CompareAndSwap; [done|]. apply ends_ret. split; [done|].
        apply (fs_intro _ P C); [by apply fs_observed|done..].
      * apply ends_ret. split; [done|by apply (fs_intro _ P C)].
    + intros _ r' [Hs Hst']. by apply ends_ret.
Qed.

(** ** Batch calls of the consumer *)

Lemma fs_DequeueBulk r k l dst :
  fs_st cap r k l → c_mask (q_consumer r) = cap - 1 → 1 <= c_maxBatch (q_consumer r) <= cap →
  ends (DequeueBulk dst) r (λ '(available, err, dst') r', same_config r r' ∧
    if c_maxBatch (q_consumer r) <? len dst
    then err = Some (BatchLengthError "dequeue" (len dst) (c_maxBatch (q_consumer r)) cap) ∧
         dst' = dst ∧ fs_st cap r' k l ∧ available = len l
    else if len dst <=? len l
    then err = None ∧ dst' = take (length dst) l ∧ fs_st cap r' k (drop (length dst) l) ∧
         reported available (len l - len dst)
           (c_exactBatchCounts (q_consumer r) = true ∨ dst = [])
    else err = Some ErrEmpty ∧ dst' = dst ∧ fs_st cap r' k l ∧ available = len l).
Proof.
  intros Hq Hm Hmax. pose proof fs_cap. pose proof (len_nonneg dst). pose proof (len_nonneg l).
  unfold DequeueBulk. apply ends_bind, ends_load. rewrite (mask_capacity cap Hcap) by done.
  rewrite orb_ltb_max by lia.
  destruct (Z.ltb_spec (c_maxBatch (q_consumer r)) (len dst)) as [Hlong|Hshort].
  { pose proof Hq as (P & C & Hst & Hk0 & Hk). pose proof (fs_bounds _ _ _ _ _ Hst).
    rewrite (fs_cursor _ _ _ _ _ Hst). apply ends_bind, (fs_discover r r P C l false 0); [done..|].
    intros e He Hle [->|[? _]]; [|done]. apply ends_ret. rewrite u64_small by (unfold is_u64; lia).
    split_and!; [done..|lia]. }
  apply ends_bind. eapply ends_mono; [apply (fs_dequeueBatch r k l dst true Hq); lia|].
  intros [[n rest] dst'] r' (Hs & Hn & Hst' & Hdst & rm & -> & Hf). apply ends_ret. split; [done|].
  assert (Z.to_nat (len dst) = length dst) as Hnat by (unfold len; lia).
  destruct (Z.leb_spec (len dst) (len l)).
  - rewrite granted_all in Hn by lia. subst n. rewrite Z.eqb_refl, Hnat in *.
    split_and!; [done| |done|].
    + by rewrite Hdst, drop_all, app_nil_r.
    + eapply fresh_reported; [done|]. intros [?| ->]; auto.
  - rewrite granted_none in Hn by lia. subst n.
    destruct (Z.eqb_spec 0 (len dst)); [lia|]. split_and!; [done..|]. destruct Hf as [_ Hf].
    rewrite Hf; lia.
Qed.

Lemma fs_DequeueBurst r k l dst :
  fs_st cap r k l → 1 <= c_maxBatch (q_consumer r) <= cap →
  ends (DequeueBurst dst) r (λ '(n, available, dst') r', same_config r r' ∧
    let want := Z.min (len dst) (c_maxBatch (q_consumer r)) in
    n = Z.min want (len l) ∧ dst' = take (Z.to_nat n) l ++ drop (Z.to_nat n) dst ∧
    fs_st cap r' k (drop (Z.to_nat n) l) ∧
    reported available (len l - n)
      (c_exactBatchCounts (q_consumer r) = true ∨ n < want ∨ want = 0)).
Proof.
  intros Hq Hmax. pose proof fs_cap. pose proof (len_nonneg dst). pose proof (len_nonneg l).
  unfold DequeueBurst. apply ends_bind, ends_load.
  set (want := Z.min (len dst) (c_maxBatch (q_consumer r))).
  assert (len (sub dst 0 want) = want) as Hw by (rewrite sub_0; apply len_take; lia).
  apply ends_bind. eapply ends_mono; [apply (fs_dequeueBatch r k l _ false Hq); lia|].
  intros [[n rest] front] r' (Hs & Hn & Hst' & Hdst & rm & -> & Hf). rewrite Hw in *.
  rewrite granted_part in Hn. apply ends_ret. split_and!; [done|done| |done|].
  - rewrite Hdst, <- app_assoc. f_equal. by rewrite sub_rest by lia.
  - eapply fresh_reported; [done|]. intros [?|[?|?]]; auto.
Qed.
End calls.

(** The queue as an implementation of the common interface. *)
Definition fmpsc_api : queue_api (MPSCQueue T) T :=
  QueueApi zero queue_holds same_config Capacity MaxEnqueueBatch MaxDequeueBatch
    (λ r, pc_exactBatchCounts (producerConfig r)) (λ r, c_exactBatchCounts (q_consumer r))
    Enqueue Dequeue EnqueueBulk EnqueueBurst DequeueBulk DequeueBurst Count.

Lemma fs_next r r' k l :
  pow2_cap (Capacity r) → same_config r r' → fs_st (Capacity r) r' k l → queue_holds r' k l.
Proof.
  intros Hcap [Hs _] Hst. unfold queue_holds. replace (Capacity r') with (Capacity r); [done|].
  unfold Capacity. by rewrite Hs.
Qed.

Lemma fmpsc_enqueues r k l : queue_holds r k l → enqueue_spec fmpsc_api r k l.
Proof.
  intros [Hcap Hq]. pose proof Hq as (P & C & Hfs & Hk0 & _).
  assert (Hnext := λ r' k' l', fs_next r r' k' l' Hcap). set (cap := Capacity r) in *.
  pose proof (fs_maxEnqueue _ _ _ _ _ Hfs) as Hmax. pose proof (fs_capacity cap Hcap r P C l Hfs) as Hc.
  split_and!; [intros x Hk|intros xs Hk..].
  - eapply ends_mono; [by apply (calls_Enqueue cap Hcap same_config (fs_st cap) mpscReserveProducer
      mpscWriteProducer mpscPublishProducer (fs_promise cap Hcap) r k l x)|].
    intros err r' [Hs Hr]. split; [done|]. change (api_capacity fmpsc_api r) with cap.
    destruct (len l <? cap); destruct Hr as [-> Hr]; (split; [done|by apply Hnext]).
  - change (api_EnqueueBulk fmpsc_api xs) with (EnqueueBulk xs). unfold EnqueueBulk.
    apply ends_bind, ends_load. rewrite Hc.
    eapply ends_mono; [by apply (calls_EnqueueBulk cap Hcap same_config (fs_st cap) mpscReserveProducer
      mpscWriteProducer mpscPublishProducer _ (fs_fits cap) (fs_promise cap Hcap)
      (fs_oversize cap Hcap) r k l xs); [|lia..]|].
    intros [free err] r' [Hs Hr]. split; [done|]. change (api_capacity fmpsc_api r) with cap.
    change (api_maxEnqueue fmpsc_api r) with (pc_maxBatch (producerConfig r)).
    destruct (_ <? _); [|destruct (_ <=? _)]; destruct Hr as (? & Hr & ?);
      (split_and!; [done|by apply Hnext|done]).
  - change (api_EnqueueBurst fmpsc_api xs) with (EnqueueBurst xs). unfold EnqueueBurst.
    apply ends_bind, ends_load.
    eapply ends_mono; [by apply (calls_EnqueueBurst cap Hcap same_config (fs_st cap) mpscReserveProducer
      mpscWriteProducer mpscPublishProducer (fs_fits cap) (fs_promise cap Hcap) r k l xs); [|lia..]|].
    intros [n free] r' (Hs & Hn & Hr & Hrep). split; [done|]. split; [done|]. split; [by apply Hnext|done].
Qed.

Lemma fmpsc_dequeues r k l : queue_holds r k l → dequeue_spec fmpsc_api r k l.
Proof.
  intros [Hcap Hq]. pose proof Hq as (P & C & Hfs & _).
  assert (Hnext := λ r' k' l', fs_next r r' k' l' Hcap). set (cap := Capacity r) in *.
  pose proof (fs_maxDequeue _ _ _ _ _ Hfs) as Hmax. destruct (fs_mask _ _ _ _ _ Hfs) as [_ Hm].
  split_and!; [|intros dst..|].
  - eapply ends_mono; [by apply (fs_Dequeue cap Hcap r k l)|]. intros [v err] r' [Hs Hr]. split; [done|].
    destruct l; destruct Hr as (-> & -> & Hr); (split_and!; [done..|by apply Hnext]).
  - eapply ends_mono; [by apply (fs_DequeueBulk cap Hcap r k l dst)|].
    intros [[available err] dst'] r' [Hs Hr]. split; [done|].
    change (api_capacity fmpsc_api r) with cap.
    change (api_maxDequeue fmpsc_api r) with (c_maxBatch (q_consumer r)).
    destruct (_ <? _); [|destruct (_ <=? _)]; destruct Hr as (? & ? & Hr & ?);
      (split_and!; [done|done|by apply Hnext|done]).
  - eapply ends_mono; [by apply (fs_DequeueBurst cap Hcap r k l dst)|].
    intros [[n available] dst'] r' (Hs & Hn & Hd & Hr & Hrep).
    split; [done|]. split; [done|]. split; [done|]. split; [by apply Hnext|done].
  - eapply ends_mono; [by apply (fs_Count cap Hcap r k l)|]. intros n r' (Hs & Hr & ->).
    split_and!; [done|by apply Hnext|done].
Qed.

#[export] Instance fmpsc_fifo : FifoQueue fmpsc_api.
Proof.
  split; [apply fmpsc_enqueues|apply fmpsc_dequeues|..].
  - intros r k l [_ Hst]. by eapply fs_fits.
  - intros r k l (Hcap & P & C & Hst & _). pose proof (pow2_cap_range _ Hcap).
    split; [done|]. split; [apply (fs_maxEnqueue _ _ _ _ _ Hst)|apply (fs_maxDequeue _ _ _ _ _ Hst)].
  - intros r r' Hs. simpl. unfold same_config, Capacity, MaxEnqueueBatch, MaxDequeueBatch in *.
    destruct Hs as [H1 H2]; first [injection H2 as ?? ??|injection H2 as ???|injection H2 as ??]; split_and!; congruence.
Qed.

(** C29. On a quiescent frontier MPSC queue every call returns and acts as the bounded FIFO does,
    with its errors and counts, as long as the positions do not pass 64 bits: producers reserve
    against the released position in the published word, the consumer finds their intervals
    through the records, and Count, from the word, the records and the observer's proof, is the
    number of values held. *)
Theorem fmpsc_fifo_spec r k l :
  queue_holds r k l → enqueue_spec fmpsc_api r k l ∧ dequeue_spec fmpsc_api r k l ∧
  ends baseCount r (λ n r', r' = r ∧ n = len l).
Proof.
  intros Hq. split; [by apply fmpsc_enqueues|]. split; [by apply fmpsc_dequeues|].
  destruct Hq as [Hcap Hst]. by apply (fs_baseCount (Capacity r) Hcap r k).
Qed.

Lemma fs_pristine cap pc c :
  pow2_cap cap → pc_mask pc = cap - 1 → c_mask c = cap - 1 → 1 <= pc_maxBatch pc <= cap →
  1 <= c_maxBatch c <= cap → c_cursor c = 0 → c_frontier c = 0 →
  fs_state cap (MkQueue pc 0 0 (replicate (Z.to_nat cap) 0) c 0 0 (replicate (Z.to_nat cap) zero))
    0 0 [].
Proof.
  intros Hcap Hm Hm' He Hd Hcu Hf. pose proof (pow2_cap_range _ Hcap).
  constructor; try done; cbn [q_consumer q_records q_observer q_published]; rewrite ?Hf.
  - apply window_empty; lia.
  - exists 0. split_and!; [done|lia..].
  - split; [lia|constructor].
  - done.
  - split; [by apply len_replicate; lia|]. apply Forall_replicate. lia.
  - split; [lia|constructor].
Qed.

Lemma fmpsc_new_ok count options r :
  NewMPSCQueue count options = inr r →
  queue_holds r (2 ^ 64 - 1) [] ∧ Capacity r = count ∧
  let cfg := configured count options in
  MaxEnqueueBatch r = maxEnqueueBatch cfg ∧ MaxDequeueBatch r = maxDequeueBatch cfg.
Proof.
  unfold NewMPSCQueue.
  destruct (resolveConfig _ _ _) as [|cfg] eqn:Hcfg; [done|]. intros [= <-].
  apply frontier_resolve_ok in Hcfg as (-> & Hcap & He & Hd). pose proof (pow2_cap_range _ Hcap).
  assert (u32 (count -i 1) = count - 1) as Hmask.
  { rewrite i64_small by (unfold is_int, minInt, maxInt; lia). apply u32_small; unfold is_u32; lia. }
  assert (Capacity (init count (configured count options)) = count) as Hc.
  { by apply (mask_capacity count Hcap). }
  split; [|split; [done|split; apply u32_small; unfold is_u32; lia]].
  unfold queue_holds. rewrite Hc. split; [done|]. exists 0, 0. split; [|lia].
  apply fs_pristine; cbn [pc_mask c_mask pc_maxBatch c_maxBatch]; try done;
    rewrite u32_small by (unfold is_u32; lia); lia.
Qed.

(** A constructed frontier MPSC queue is empty with the requested capacity and limits and all
    64-bit positions ahead of it, and [Reset] returns any quiescent queue to that state. *)
Theorem fmpsc_new_reset_spec :
  (∀ count options r, NewMPSCQueue count options = inr r →
     queue_holds r (2 ^ 64 - 1) [] ∧ Capacity r = count ∧
     let cfg := configured count options in
     MaxEnqueueBatch r = maxEnqueueBatch cfg ∧ MaxDequeueBatch r = maxDequeueBatch cfg) ∧
  (∀ r k l, queue_holds r k l →
     ends Reset r (λ _ r', queue_holds r' (2 ^ 64 - 1) [] ∧ same_config r r' ∧
       q_entries r' = replicate (Z.to_nat (Capacity r)) zero)).
Proof.
  split.
  - apply fmpsc_new_ok.
  - intros r k l (Hcap & P & C & Hst & _). unfold Reset, baseReset.
    pose proof (pow2_cap_range _ Hcap). destruct (fs_records _ _ _ _ _ Hst) as [Hrl _].
    pose proof (win_len _ _ _ _ _ _ _ (fs_window _ _ _ _ _ Hst)) as Hel.
    apply ends_bind, ends_bind, ends_clear_all; [change (0 < len (q_entries r)); lia|].
    apply ends_bind, (ends_clear_all (Slots0 := record_slots T)); [change (0 < len (q_records r)); lia|].
    do 2 apply ends_bind, ends_Store. do 2 apply ends_bind, ends_modify. do 2 apply ends_Store.
    match goal with |- context [queue_holds ?x] => set (r' := x) end.
    assert (r' = MkQueue (producerConfig r) 0 0 (replicate (Z.to_nat (Capacity r)) 0)
      (let c := q_consumer r in MkConsumer (c_mask c) 0 0 (c_clearOnDequeue c) (c_maxBatch c)
         (c_exactBatchCounts c)) 0 0 (replicate (Z.to_nat (Capacity r)) zero)) as ->.
    { unfold r'. rewrite <- Hrl at 1. rewrite <- Hel. unfold len. by rewrite !Nat2Z.id. }
    split_and!; [|done|done]. split; [done|]. exists 0, 0. split; [|lia].
    apply fs_pristine; try done; apply Hst.
Qed.
End queue.

(** ** Witnesses *)

Definition demo : MPSCQueue Z :=
  MkQueue (MkProducerConfig 3 4 false) 0 0 [0; 0; 0; 0] (MkConsumer 3 0 0 true 4 false) 0 0
    [0; 0; 0; 0].

Lemma fmpsc_demo_new : NewMPSCQueue 0 4 [] = inr demo.
Proof. reflexivity. Qed.

Lemma fmpsc_demo_holds : queue_holds 0 demo (2 ^ 64 - 1) [].
Proof.
  assert (pow2_cap 4) as Hcap by (exists 2; split; [lia|reflexivity]).
  split; [done|]. exists 0, 0. split; [|lia]. by apply (fs_pristine 0 4); simpl; try lia.
Qed.

Lemma fmpsc_fifo_witness :
  ends (EnqueueBulk [7; 8; 9]) demo (λ '(free, err) r',
    err = None ∧ ∃ k, queue_holds 0 r' k [7; 8; 9]).
Proof.
  destruct (fmpsc_fifo_spec 0 demo (2 ^ 64 - 1) [] fmpsc_demo_holds) as ((_ & Hbulk & _) & _).
  eapply ends_mono; [apply (Hbulk [7; 8; 9]); change (3 <= 2 ^ 64 - 1); lia|].
  intros [free err] r' (_ & He & Hq & _). split; [exact He|]. eexists. exact Hq.
Defined.
End FMPSC.
