(* ===== verification/FrontierSPMC.v ===== *)
(** * The frontier single-producer multi-consumer queue (src/ring/frontier/spmc.go)

    The one producer keeps a private cursor and the released frontier it has discovered and
    publishes its cursor; consumers reserve by compare-and-swap and record the end of the interval
    they released. *)

From Stdlib Require Import ZArith Lia.
From stdpp Require Import prelude list strings.
From S2P Require Import Prelude Prog RingCore RingSlots RingSpec RingCalls FrontierCore.

Module FSPMC.
Import Prog Ring Slots RingSpec RingCalls Frontier.

Record spmcProducer := MkProducer {
  p_mask : Z;
  p_cursor : Z;
  p_released : Z;
  p_maxBatch : Z;
  p_exactBatchCounts : bool;
}.

Record spmcConsumerConfig := MkConsumerConfig {
  cc_mask : Z;
  cc_maxBatch : Z;
  cc_clearOnDequeue : bool;
  cc_exactBatchCounts : bool;
}.

Record SPMCQueue (T : Type) := MkQueue {
  q_producer : spmcProducer;
  q_published : Z;
  consumerConfig : spmcConsumerConfig;
  q_head : Z;
  q_cachedProducer : Z;
  q_records : list Z;
  q_entries : list T;
}.
Arguments MkQueue {T} _ _ _ _ _ _ _.
Arguments q_producer {T} _.
Arguments q_published {T} _.
Arguments consumerConfig {T} _.
Arguments q_head {T} _.
Arguments q_cachedProducer {T} _.
Arguments q_records {T} _.
Arguments q_entries {T} _.

Section fields.
Context {T : Type}.
Implicit Types r : SPMCQueue T.

Definition set_entries_ es r : SPMCQueue T := MkQueue (q_producer r) (q_published r)
  (consumerConfig r) (q_head r) (q_cachedProducer r) (q_records r) es.
Definition set_records rs r : SPMCQueue T := MkQueue (q_producer r) (q_published r)
  (consumerConfig r) (q_head r) (q_cachedProducer r) rs (q_entries r).
Definition set_published x r : SPMCQueue T := MkQueue (q_producer r) x
  (consumerConfig r) (q_head r) (q_cachedProducer r) (q_records r) (q_entries r).
Definition set_head x r : SPMCQueue T := MkQueue (q_producer r) (q_published r)
  (consumerConfig r) x (q_cachedProducer r) (q_records r) (q_entries r).
Definition set_cachedProducer x r : SPMCQueue T := MkQueue (q_producer r) (q_published r)
  (consumerConfig r) (q_head r) x (q_records r) (q_entries r).
Definition set_producer p r : SPMCQueue T := MkQueue p (q_published r)
  (consumerConfig r) (q_head r) (q_cachedProducer r) (q_records r) (q_entries r).

Definition set_cursor x r : SPMCQueue T :=
  let p := q_producer r in
  set_producer (MkProducer (p_mask p) x (p_released p) (p_maxBatch p) (p_exactBatchCounts p)) r.
Definition set_released x r : SPMCQueue T :=
  let p := q_producer r in
  set_producer (MkProducer (p_mask p) (p_cursor p) x (p_maxBatch p) (p_exactBatchCounts p)) r.
End fields.

#[export] Instance fspmc_slots T : Slots (SPMCQueue T) T.
Proof.
  refine {| entries := q_entries; set_entries := @set_entries_ T |}; try reflexivity. by intros [].
Defined.

Definition release_slots T : Slots (SPMCQueue T) Z.
Proof.
  refine {| entries := q_records; set_entries := @set_records T |}; try reflexivity. by intros [].
Defined.

Section queue.
Context {T : Type} (zero : T).
Implicit Types r : SPMCQueue T.
Abbreviation M := (prog (SPMCQueue T)).

Definition producerPublished : cell (SPMCQueue T) := Cell q_published set_published.
Definition head : cell (SPMCQueue T) := Cell q_head set_head.
Definition cachedProducer : cell (SPMCQueue T) := Cell q_cachedProducer set_cachedProducer.

(** ** Construction and queries *)

Definition NewSPMCQueue (count : Z) (options : list Option) : error + SPMCQueue T :=
  match resolveConfig "NewSPMCQueue" count options with
  | inl err => inl err
  | inr cfg =>
      inr (MkQueue
        (MkProducer (u32 (count -i 1)) 0 0 (u32 (maxEnqueueBatch cfg)) (exactBatchCounts cfg))
        0
        (MkConsumerConfig (u32 (count -i 1)) (u32 (maxDequeueBatch cfg)) (negb (keepDequeued cfg))
           (exactBatchCounts cfg))
        0 0 (replicate (Z.to_nat count) 0) (replicate (Z.to_nat count) zero))
  end.

Definition Capacity r : Z := cc_mask (consumerConfig r) +32 1.
Definition MaxEnqueueBatch r : Z := p_maxBatch (q_producer r).
Definition MaxDequeueBatch r : Z := cc_maxBatch (consumerConfig r).

Definition Count : M Z :=
  cfg ← load consumerConfig;
  head_ ← Load head;
  published ← Load producerPublished;
  mret (Z.min (published -64 head_) (cc_mask cfg +32 1)).

Definition Free : M Z := capacity ← load Capacity; count ← Count; mret (capacity -i count).
Definition Full : M bool := count ← Count; capacity ← load Capacity; mret (count =? capacity).
Definition Empty : M bool := count ← Count; mret (count =? 0).

Definition Reset : M unit :=
  _ ← clear_all zero;
  _ ← clear_all (Slots0 := release_slots T) 0;
  _ ← modify (set_cursor 0);
  _ ← modify (set_released 0);
  _ ← Store producerPublished 0;
  _ ← Store head 0;
  Store cachedProducer 0.

(** ** The producer *)

Definition spmcDiscoverReleases : M unit :=
  producer ← load q_producer;
  let window := p_cursor producer -64 p_released producer in
  end_ ← discoverRecords (release_slots T) (p_mask producer) (p_released producer) window
           (p_released producer) window;
  modify (set_released end_).

(** [producer.cursor += count] and [r.producerPublished.Store(producer.cursor)]. *)
Definition publishCursor (count : Z) : M unit :=
  _ ← modify (λ r, set_cursor (p_cursor (q_producer r) +64 count) r);
  cursor ← load (λ r, p_cursor (q_producer r));
  Store producerPublished cursor.

(** The slots in use, by the released frontier known or, when [refresh] asks, a fresh one. *)
Definition usedSlots (refresh : bool) : M Z :=
  _ ← (if refresh then spmcDiscoverReleases else mret tt);
  load (λ r, p_cursor (q_producer r) -64 p_released (q_producer r)).

Definition Enqueue (item : T) : M (option error) :=
  producer ← load q_producer;
  let capacity := p_mask producer +32 1 in
  used ← usedSlots (capacity <=? p_cursor producer -64 p_released producer);
  if capacity <=? used then mret (Some ErrFull)
  else
    _ ← slot_set (Z.land (u32 (p_cursor producer)) (p_mask producer)) item;
    _ ← publishCursor 1;
    mret None.

Definition spmcEnqueueBatch (items : list T) (fixed : bool) : M (Z * Z) :=
  producer ← load q_producer;
  let capacity := p_mask producer +32 1 in
  let length := len items in
  let free := capacity -64 (p_cursor producer -64 p_released producer) in
  used ← usedSlots (p_exactBatchCounts producer || (length =? 0) || (free <? length));
  let free := capacity -64 used in
  if fixed && (free <? length) then mret (0, free)
  else
    let length := Z.min length free in
    if length =? 0 then mret (0, free)
    else
      let base := Z.land (u32 (p_cursor producer)) (p_mask producer) in
      _ ← (if length =? 1 then
             item ← access (λ r, (λ item, (r, item)) <$> items !! 0%nat);
             slot_set base item
           else
             let first := Z.min (u32 length) (p_mask producer +32 1 -32 base) in
             _ ← copy_in base (sub items 0 first);
             copy_in 0 (sub items first length));
      _ ← publishCursor length;
      mret (length, free -64 length).

Definition EnqueueBulk (items : list T) : M (Z * option error) :=
  producer ← load q_producer;
  let capacity := p_mask producer +32 1 in
  if (capacity <? len items) || (p_maxBatch producer <? len items) then
    used ← usedSlots true;
    mret (capacity -64 used,
          Some (BatchLengthError "enqueue" (len items) (p_maxBatch producer) capacity))
  else
    '(moved, remaining) ← spmcEnqueueBatch items true;
    mret (remaining, if moved =? len items then None else Some ErrFull).

Definition EnqueueBurst (items : list T) : M (Z * Z) :=
  producer ← load q_producer;
  let length := Z.min (len items) (p_maxBatch producer) in
  spmcEnqueueBatch (sub items 0 length) false.

(** ** Consumers *)

Definition spmcAttemptConsumer (head_ requested : Z) (fixed exact : bool) : M (Z * Z * Z * bool) :=
  cfg ← load consumerConfig;
  let capacity := cc_mask cfg +32 1 in
  cached ← Load cachedProducer;
  published ← (if exact || (requested =? 0) || (cached <? head_) || (cached -64 head_ <? requested)
               then Load producerPublished
               else mret cached);
  let available := published -64 head_ in
  if capacity <? available then mret (head_, 0, 0, true)
  else if fixed && (available <? requested) then mret (head_, 0, u32 available, false)
  else
    let count := u32 (Z.min requested available) in
    if count =? 0 then mret (head_, 0, u32 available, false)
    else
      _ ← (if published =? cached then mret tt else Store cachedProducer published);
      swapped ← CompareAndSwap head head_ (head_ +64 count);
      mret (if swapped : bool then (head_, count, u32 available -32 count, false)
            else (head_, 0, 0, true)).

Definition spmcReserveConsumer (requested : Z) (fixed exact : bool) : M (Z * Z * Z) :=
  forever (
    head_ ← Load head;
    '(start, count, remaining, retry) ← spmcAttemptConsumer head_ requested fixed exact;
    mret (if retry : bool then None else Some (start, count, remaining))).

Definition spmcReadConsumer (start n : Z) : M (list T) :=
  cfg ← load consumerConfig; readSlots (cc_mask cfg) zero (cc_clearOnDequeue cfg) (u32 start) n.

Definition spmcReleaseConsumer (start count : Z) : M unit :=
  cfg ← load consumerConfig; record_store (release_slots T) (cc_mask cfg) start (start +64 count).

(** The reserved slot is read and, when configured, cleared. *)
Definition takeReserved (start : Z) : M T :=
  cfg ← load consumerConfig;
  let index := Z.land (u32 start) (cc_mask cfg) in
  value ← slot_get index;
  _ ← (if cc_clearOnDequeue cfg then slot_set index zero else mret tt);
  mret value.

Definition Dequeue : M (T * option error) :=
  '(start, count, _) ← spmcReserveConsumer 1 true false;
  if count =? 0 then mret (zero, Some ErrEmpty)
  else
    value ← takeReserved start;
    _ ← spmcReleaseConsumer start count;
    mret (value, None).

Definition DequeueBulk (dst : list T) : M (Z * option error * list T) :=
  cfg ← load consumerConfig;
  let capacity := cc_mask cfg +32 1 in
  if (capacity <? len dst) || (cc_maxBatch cfg <? len dst) then
    fresh ← (head_ ← Load head; published ← Load producerPublished;
             mret (Z.min (published -64 head_) capacity));
    mret (fresh, Some (BatchLengthError "dequeue" (len dst) (cc_maxBatch cfg) capacity), dst)
  else
    '(start, count, remaining) ← spmcReserveConsumer (u32 (len dst)) true (cc_exactBatchCounts cfg);
    if count =? 0 then mret (remaining, if len dst =? 0 then None else Some ErrEmpty, dst)
    else
      values ← spmcReadConsumer start (len dst);
      _ ← spmcReleaseConsumer start count;
      mret (remaining, None, copy_at 0 values dst).

Definition DequeueBurst (dst : list T) : M (Z * Z * list T) :=
  cfg ← load consumerConfig;
  let length := Z.min (len dst) (cc_maxBatch cfg) in
  '(start, count, remaining) ← spmcReserveConsumer (u32 length) false (cc_exactBatchCounts cfg);
  if count =? 0 then mret (0, remaining, dst)
  else
    values ← spmcReadConsumer start count;
    _ ← spmcReleaseConsumer start count;
    mret (count, remaining, copy_at 0 values dst).

(** ** The abstract queue *)

Record sp_state (cap : Z) r (P C : Z) (l : list T) : Prop := {
  sp_window : window zero (cc_clearOnDequeue (consumerConfig r)) cap (q_entries r) P C l;
  sp_mask : p_mask (q_producer r) = cap - 1 ∧ cc_mask (consumerConfig r) = cap - 1;
  sp_maxEnqueue : 1 <= p_maxBatch (q_producer r) <= cap;
  sp_maxDequeue : 1 <= cc_maxBatch (consumerConfig r) <= cap;
  sp_cursor : p_cursor (q_producer r) = P ∧ q_published r = P ∧ P < 2 ^ 64;
  sp_released : 0 <= p_released (q_producer r) <= C ∧ P <= p_released (q_producer r) + cap ∧
                linked (q_records r) (p_released (q_producer r)) C;
  sp_head : q_head r = C;
  sp_cached : 0 <= q_cachedProducer r <= P;
  sp_records : len (q_records r) = cap ∧ Forall (λ e, 0 <= e <= C) (q_records r);
}.

Definition sp_st (cap : Z) r (k : Z) (l : list T) : Prop :=
  ∃ P C, sp_state cap r P C l ∧ 0 <= k ∧ P + k < 2 ^ 64.

Definition queue_holds r (k : Z) (l : list T) : Prop :=
  pow2_cap (Capacity r) ∧ sp_st (Capacity r) r k l.

Definition producer_config (p : spmcProducer) : Z * Z * bool :=
  (p_mask p, p_maxBatch p, p_exactBatchCounts p).

Definition same_config r r' : Prop :=
  consumerConfig r' = consumerConfig r ∧
  producer_config (q_producer r') = producer_config (q_producer r).

Lemma sp_bounds cap r P C l :
  sp_state cap r P C l → 0 <= C ∧ P = C + len l ∧ 0 <= len l <= cap ∧ P < 2 ^ 64.
Proof. intros [[] _ _ _ (_ & _ & ?) _ _ _ _]. pose proof (len_nonneg l). lia. Qed.

Section calls.
Context (cap : Z) (Hcap : pow2_cap cap).

Lemma sp_cap : 1 <= cap <= 2 ^ 30.
Proof. by apply pow2_cap_range. Qed.

Lemma sp_intro r P C k l : sp_state cap r P C l → 0 <= k → P + k < 2 ^ 64 → sp_st cap r k l.
Proof. intros Hst Hk Hp. by exists P, C. Qed.

Lemma sp_fits r k l : sp_st cap r k l → len l <= cap.
Proof. intros (P & C & Hst & _). apply (sp_bounds _ _ _ _ _ Hst). Qed.

(** ** Producer calls *)

Lemma sp_release_known r P C l : sp_state cap r P C l → sp_state cap (set_released C r) P C l.
Proof.
  intros Hst. pose proof (sp_bounds _ _ _ _ _ Hst). destruct Hst. constructor; try done.
  simpl. split_and!; [lia..|constructor].
Qed.

Lemma sp_usedSlots r P C l (refresh : bool) (Q : Z → SPMCQueue T → Prop) :
  sp_state cap r P C l →
  (let re := if refresh then C else p_released (q_producer r) in Q (P - re) (set_released re r)) →
  ends (usedSlots refresh) r Q.
Proof.
  intros Hst HQ. cbv zeta in HQ. pose proof sp_cap. pose proof (sp_bounds _ _ _ _ _ Hst).
  destruct (sp_released _ _ _ _ _ Hst) as (Hre & Hfit & Hl).
  destruct (sp_records _ _ _ _ _ Hst) as [Hn Hu]. destruct (sp_cursor _ _ _ _ _ Hst) as (Hcu & _ & _).
  unfold usedSlots. apply ends_bind. destruct refresh.
  - unfold spmcDiscoverReleases. apply ends_bind, ends_load.
    rewrite (proj1 (sp_mask _ _ _ _ _ Hst)), Hcu. set (re := p_released (q_producer r)) in *.
    rewrite (u64_small (P - re)) by (unfold is_u64; lia).
    apply ends_bind, (ends_discover (release_slots T) cap Hcap); try done; [lia|lia| |lia|].
    { eapply Forall_impl; [exact Hu|]. unfold is_u64. simpl. lia. }
    intros e He Hne. destruct (chained_linked _ _ _ _ _ C _ He Hne Hl) as [Hlink Hend]; [lia| |].
    { intros y Hy _. unfold slot in Hy. eapply Forall_lookup_1 in Hy; [|exact Hu]. simpl in Hy. lia. }
    pose proof (linked_le _ _ _ Hlink). assert (e = C) as -> by lia.
    apply ends_modify, ends_load. simpl. rewrite Hcu, u64_small by (unfold is_u64; lia). done.
  - apply ends_ret, ends_load. rewrite Hcu, u64_small by (unfold is_u64; lia).
    by replace (set_released (p_released (q_producer r)) r) with r in HQ by (by destruct r as [[] ? ? ? ? ? ?]).
Qed.

(** The queue after the producer wrote up to [P]. *)
Definition produced r (P re : Z) (es : list T) : SPMCQueue T :=
  let p := q_producer r in
  MkQueue (MkProducer (p_mask p) P re (p_maxBatch p) (p_exactBatchCounts p)) P (consumerConfig r)
    (q_head r) (q_cachedProducer r) (q_records r) es.

Lemma sp_produced r P C l xs re es' :
  sp_state cap r P C l → P + len xs < 2 ^ 64 → 0 <= re <= C → P + len xs <= re + cap →
  linked (q_records r) re C → after_write (q_entries r) P xs es' →
  sp_state cap (produced r (P + len xs) re es') (P + len xs) C (l ++ xs).
Proof.
  intros Hst H64 Hre Hfit Hl Haw. pose proof sp_cap. pose proof (sp_bounds _ _ _ _ _ Hst).
  pose proof (len_nonneg xs). destruct Hst as [Hw Hm He Hd Hcu _ Hh Hca Hrs]. constructor; try done.
  - eapply window_write; [lia|done|lia|done].
  - simpl. lia.
Qed.

Lemma sp_publishCursor r P C l re es' n (Q : unit → SPMCQueue T → Prop) :
  sp_state cap r P C l → 0 <= n → P + n < 2 ^ 64 → Q tt (produced r (P + n) re es') →
  ends (publishCursor n) (set_entries es' (set_released re r)) Q.
Proof.
  intros Hst Hn H64 HQ. pose proof (sp_bounds _ _ _ _ _ Hst).
  unfold publishCursor. apply ends_bind, ends_modify, ends_bind, ends_load, ends_Store.
  destruct (sp_cursor _ _ _ _ _ Hst) as (Hcu & _ & _).
  rewrite <- (u64_small (P + n)), <- Hcu in HQ by (unfold is_u64; lia). exact HQ.
Qed.

Lemma sp_released_choice r P C l (refresh : bool) :
  sp_state cap r P C l →
  let re := if refresh then C else p_released (q_producer r) in
  0 <= re <= C ∧ P <= re + cap ∧ linked (q_records r) re C ∧
  sp_state cap (set_released re r) P C l.
Proof.
  intros Hst re. pose proof (sp_bounds _ _ _ _ _ Hst). unfold re. destruct refresh.
  - split_and!; [lia..|constructor|by apply sp_release_known].
  - destruct (sp_released _ _ _ _ _ Hst) as (Hre & Hfit & Hl). split_and!; [lia..|done|].
    by replace (set_released (p_released (q_producer r)) r) with r by (by destruct r as [[] ? ? ? ? ? ?]).
Qed.

Lemma sp_Enqueue r k l x :
  sp_st cap r k l → 1 <= k →
  ends (Enqueue x) r (λ err r', same_config r r' ∧
    if len l <? cap then err = None ∧ sp_st cap r' (k - 1) (l ++ [x])
    else err = Some ErrFull ∧ sp_st cap r' k l).
Proof.
  intros (P & C & Hst & Hk0 & Hk) Hk1. pose proof sp_cap. pose proof (sp_bounds _ _ _ _ _ Hst).
  destruct (sp_cursor _ _ _ _ _ Hst) as (Hcu & _ & _). destruct (sp_mask _ _ _ _ _ Hst) as [Hm _].
  destruct (sp_released _ _ _ _ _ Hst) as (Hre0 & Hfit0 & _).
  unfold Enqueue. apply ends_bind, ends_load. rewrite (mask_capacity cap Hcap), Hcu by done.
  rewrite (u64_small (P - p_released (q_producer r))) by (unfold is_u64; lia).
  apply ends_bind, (sp_usedSlots r P C l); [done|]. cbv zeta. set (refresh := cap <=? P - p_released (q_producer r)).
  destruct (sp_released_choice r P C l refresh Hst) as (Hre & Hfit & Hlink & Hst').
  set (re := if refresh then C else p_released (q_producer r)) in *.
  assert (len l < cap → P - re < cap) as Huse.
  { unfold re, refresh. destruct (Z.leb_spec cap (P - p_released (q_producer r))); simpl; lia. }
  destruct (Z.ltb_spec (len l) cap); destruct (Z.leb_spec cap (P - re)); try lia.
  - rewrite Hm, mask_index by done. apply ends_bind, ends_slot_set; [lia|apply Hst|].
    apply ends_bind, (sp_publishCursor r P C l); [done|lia|lia|]. apply ends_ret. split_and!; [done..|].
    apply (sp_intro _ (P + 1) C); [|lia..].
    apply (sp_produced r P C l [x]); [done|change (len [x]) with 1; lia..|done|].
    apply after_write_one. change (0 < len (q_entries r)).
    rewrite (win_len _ _ _ _ _ _ _ (sp_window _ _ _ _ _ Hst)). lia.
  - apply ends_ret. split_and!; [done..|]. by apply (sp_intro _ P C).
Qed.

Lemma sp_enqueueBatch r k l items fixed :
  sp_st cap r k l → len items <= cap → len items <= k →
  ends (spmcEnqueueBatch items fixed) r (λ '(n, rest) r', same_config r r' ∧
    n = granted fixed (len items) (cap - len l) ∧
    sp_st cap r' (k - n) (l ++ take (Z.to_nat n) items) ∧
    ∃ rm, rest = rm - n ∧
      fresh_room (p_exactBatchCounts (q_producer r)) (len items) n rm (cap - len l)).
Proof.
  intros (P & C & Hst & Hk0 & Hk) Hd Hkl. pose proof sp_cap. pose proof (sp_bounds _ _ _ _ _ Hst).
  pose proof (len_nonneg items). destruct (sp_cursor _ _ _ _ _ Hst) as (Hcu & _ & _).
  destruct (sp_mask _ _ _ _ _ Hst) as [Hm _]. destruct (sp_released _ _ _ _ _ Hst) as (Hre0 & Hfit0 & _).
  unfold spmcEnqueueBatch. apply ends_bind, ends_load. rewrite (mask_capacity cap Hcap), Hcu by done.
  set (re0 := p_released (q_producer r)) in *. cbv zeta.
  rewrite (u64_small (P - re0)), (u64_small (cap - (P - re0))) by (unfold is_u64; lia).
  destruct (admission fixed (p_exactBatchCounts (q_producer r)) cap (len items) (cap - (P - re0))
    (cap - len l)) as [Hn Hf]; [lia..|].
  rewrite (proj2 (Z.ltb_ge cap _)), orb_false_r in Hn, Hf by lia.
  set (refresh := _ || _ || _) in *. set (n := granted fixed (len items) (cap - len l)) in *.
  apply ends_bind, (sp_usedSlots r P C l); [done|]. fold re0. cbv zeta.
  destruct (sp_released_choice r P C l refresh Hst) as (Hre & Hfit & Hlink & Hst').
  fold re0 in Hre, Hfit, Hlink, Hst'. set (re := if refresh then C else re0) in *.
  replace (if refresh then cap - len l else cap - (P - re0)) with (cap - (P - re)) in Hn, Hf
    by (unfold re; destruct refresh; lia).
  clearbody n re. unfold granted in Hn. rewrite (u64_small (cap - (P - re))) by (unfold is_u64; lia).
  assert (n = 0 → ends (mret (0, cap - (P - re))) (set_released re r)
    (λ '(n', rest) r', same_config r r' ∧ n' = n ∧
      sp_st cap r' (k - n') (l ++ take (Z.to_nat n') items) ∧
      ∃ rm, rest = rm - n' ∧
        fresh_room (p_exactBatchCounts (q_producer r)) (len items) n' rm (cap - len l))) as Hzero.
  { intros Hn0. rewrite Hn0 in Hf. apply ends_ret. rewrite take_0, app_nil_r, (Z.sub_0_r k).
    split_and!; [done..|by apply (sp_intro _ P C)|]. exists (cap - (P - re)). split; [lia|done]. }
  destruct (fixed && _); [by apply Hzero|].
  rewrite <- Hn. destruct (Z.eqb_spec n 0) as [Hz0|Hz0]; [by apply Hzero|].
  rewrite Hm, mask_index by done. rewrite (u32_small n) by (unfold is_u32; lia).
  assert (len (take (Z.to_nat n) items) = n) as Hl by (apply len_take; lia).
  apply ends_bind, (ends_writeBatch cap Hcap); [apply Hst|lia|lia|].
  intros es' Haw. apply ends_bind, (sp_publishCursor r P C l); [done|lia|lia|]. apply ends_ret.
  rewrite (u64_small (cap - (P - re) - n)) by (unfold is_u64; lia).
  split_and!; [done..| |by eexists]. apply (sp_intro _ (P + n) C); [|lia..].
  rewrite <- Hl at 1 2. apply (sp_produced r P C l); [done|rewrite ?Hl; lia..|done|done].
Qed.

Lemma sp_EnqueueBulk r k l xs :
  sp_st cap r k l → len xs <= k →
  ends (EnqueueBulk xs) r (λ '(free, err) r', same_config r r' ∧
    let max := p_maxBatch (q_producer r) in
    if max <? len xs
    then err = Some (BatchLengthError "enqueue" (len xs) max cap) ∧ sp_st cap r' k l ∧
         free = cap - len l
    else if len l + len xs <=? cap
    then err = None ∧ sp_st cap r' (k - len xs) (l ++ xs) ∧
         reported free (cap - len l - len xs) (p_exactBatchCounts (q_producer r) = true ∨ xs = [])
    else err = Some ErrFull ∧ sp_st cap r' k l ∧ free = cap - len l).
Proof.
  intros Hq Hkl. pose proof Hq as (P & C & Hst & Hk0 & Hk). pose proof sp_cap.
  pose proof (sp_bounds _ _ _ _ _ Hst). pose proof (len_nonneg xs).
  pose proof (sp_maxEnqueue _ _ _ _ _ Hst).
  unfold EnqueueBulk. apply ends_bind, ends_load.
  rewrite (mask_capacity cap Hcap) by apply Hst. rewrite orb_ltb_max by lia. cbv zeta.
  destruct (Z.ltb_spec (p_maxBatch (q_producer r)) (len xs)) as [Hlong|Hshort].
  { apply ends_bind, (sp_usedSlots r P C l); [done|]. apply ends_ret.
    rewrite u64_small by (unfold is_u64; lia). split_and!; [done..| |lia].
    apply (sp_intro _ P C); [by apply sp_release_known|done..]. }
  apply ends_bind. eapply ends_mono; [apply (sp_enqueueBatch r k l xs true Hq); lia|].
  intros [n rest] r' (Hs & Hn & Hst' & rm & -> & Hf). apply ends_ret. split; [done|].
  destruct (Z.leb_spec (len l + len xs) cap).
  - rewrite granted_all in Hn by lia. subst n. rewrite Z.eqb_refl.
    rewrite take_ge in Hst' by (unfold len; lia). split_and!; [done..|].
    eapply fresh_reported; [done|]. intros [?| ->]; auto.
  - rewrite granted_none in Hn by lia. subst n. rewrite (Z.sub_0_r k), take_0, app_nil_r in Hst'.
    destruct (Z.eqb_spec 0 (len xs)); [lia|]. split_and!; [done..|]. destruct Hf as [_ Hf].
    rewrite Hf; lia.
Qed.

Lemma sp_EnqueueBurst r k l xs :
  sp_st cap r k l → len xs <= k →
  ends (EnqueueBurst xs) r (λ '(n, free) r', same_config r r' ∧
    let want := Z.min (len xs) (p_maxBatch (q_producer r)) in
    n = Z.min want (cap - len l) ∧ sp_st cap r' (k - n) (l ++ take (Z.to_nat n) xs) ∧
    reported free (cap - len l - n)
      (p_exactBatchCounts (q_producer r) = true ∨ n < want ∨ want = 0)).
Proof.
  intros Hq Hkl. pose proof Hq as (P & C & Hst & Hk0 & Hk). pose proof sp_cap.
  pose proof (sp_bounds _ _ _ _ _ Hst). pose proof (len_nonneg xs).
  pose proof (sp_maxEnqueue _ _ _ _ _ Hst).
  unfold EnqueueBurst. apply ends_bind, ends_load.
  set (want := Z.min (len xs) (p_maxBatch (q_producer r))).
  assert (len (sub xs 0 want) = want) as Hw by (rewrite sub_0; apply len_take; lia).
  eapply ends_mono; [apply (sp_enqueueBatch r k l _ false Hq); lia|].
  intros [n rest] r' (Hs & Hn & Hst' & rm & -> & Hf). rewrite Hw in *.
  rewrite granted_part in Hn. split; [done|]. split; [done|]. split.
  - rewrite sub_0, take_take in Hst'. by replace (Z.to_nat n `min` Z.to_nat want)%nat
      with (Z.to_nat n) in Hst' by lia.
  - eapply fresh_reported; [done|]. intros [?|[?|?]]; auto.
Qed.

(** ** Consumer calls *)

Lemma sp_reserveConsumer r P C l requested fixed exact :
  sp_state cap r P C l → 0 <= requested <= cap →
  ends (spmcReserveConsumer requested fixed exact) r (λ '(start, n, rest) r1,
    start = C ∧ n = granted fixed requested (len l) ∧
    (∃ rm, rest = rm - n ∧ fresh_room exact requested n rm (len l)) ∧
    ∃ cp, r1 = set_head (C + n) (set_cachedProducer cp r) ∧ 0 <= cp <= P).
Proof.
  intros Hst Hreq. pose proof sp_cap. pose proof (sp_bounds _ _ _ _ _ Hst) as Hb.
  pose proof (sp_cached _ _ _ _ _ Hst) as Hca. destruct (sp_cursor _ _ _ _ _ Hst) as (_ & Hpub & _).
  set (n := granted fixed requested (len l)).
  apply ends_forever, ends_bind, ends_Load. change (cget head r) with (q_head r).
  rewrite (sp_head _ _ _ _ _ Hst). apply ends_bind. unfold spmcAttemptConsumer.
  apply ends_bind, ends_load. rewrite (mask_capacity cap Hcap) by apply Hst. cbv zeta.
  apply ends_bind, ends_Load. change (cget cachedProducer r) with (q_cachedProducer r).
  set (ca := q_cachedProducer r) in *.
  set (refresh := exact || (requested =? 0) || (ca <? C) || (ca -64 C <? requested)).
  set (pub := if refresh then P else ca).
  assert (0 <= pub <= P ∧ n = granted fixed requested (pub - C) ∧
    fresh_room exact requested n (pub - C) (len l) ∧ C <= pub) as (Hp1 & Hn & Hf & Hp2).
  { unfold pub, refresh. destruct (Z.ltb_spec ca C) as [Hlt|Hge].
    - rewrite orb_true_r. simpl. replace (P - C) with (len l) by lia.
      unfold fresh_room. split_and!; try done; unfold n, granted; try destruct (fixed && _); lia.
    - rewrite orb_false_r, u64_small by (unfold is_u64; lia).
      destruct (admission fixed exact cap requested (ca - C) (len l)) as [Hn Hf]; [lia..|].
      rewrite (proj2 (Z.ltb_ge cap _)), orb_false_r in Hn, Hf by lia. fold n in Hn, Hf.
      destruct (exact || (requested =? 0) || (ca - C <? requested));
        replace (P - C) with (len l) by lia; split_and!; (done || lia). }
  apply ends_bind. assert (∀ K, K pub r → ends (if refresh then Load producerPublished else mret ca) r K) as Hload.
  { intros K HK. unfold pub in HK. destruct refresh; [apply ends_Load|by apply ends_ret].
    change (cget producerPublished r) with (q_published r). by rewrite Hpub. }
  apply Hload. clearbody pub n refresh. rewrite (u64_small (pub - C)) by (unfold is_u64; lia).
  destruct (Z.ltb_spec cap (pub - C)); [lia|]. unfold granted in Hn.
  rewrite !(u32_small (pub - C)) by (unfold is_u32; lia).
  assert (n = 0 → ends (mret (C, 0, pub - C, false)) r
    (λ a s', ends (let '(start, count, remaining, retry) := a in
       mret (if retry : bool then None else Some (start, count, remaining))) s'
      (λ res s2, ∃ b, res = Some b ∧ (let '(start, n', rest) := b in λ r1,
        start = C ∧ n' = n ∧
        (∃ rm, rest = rm - n' ∧ fresh_room exact requested n' rm (len l)) ∧
        ∃ cp, r1 = set_head (C + n') (set_cachedProducer cp r) ∧ 0 <= cp <= P) s2))) as Hzero.
  { intros Hn0. rewrite Hn0 in Hf. apply ends_ret, ends_ret. eexists. split; [done|]. simpl.
    split_and!; [done..|eexists; split; [|exact Hf]; lia|].
    exists ca. rewrite Z.add_0_r. split; [|done].
    rewrite <- (sp_head _ _ _ _ _ Hst). by destruct r. }
  destruct (fixed && _); [by apply Hzero|].
  rewrite <- Hn, (u32_small n) by (unfold is_u32; lia).
  destruct (Z.eqb_spec n 0) as [Hz0|Hz0]; [by apply Hzero|].
  apply ends_bind. assert (∀ K, K tt (set_cachedProducer pub r) →
    ends (if pub =? ca then mret tt else Store cachedProducer pub) r K) as Hstore.
  { intros K HK. destruct (Z.eqb_spec pub ca) as [->|]; [|by apply ends_Store].
    apply ends_ret. by destruct r. }
  apply Hstore. apply ends_bind, ends_CompareAndSwap; [apply Hst|]. apply ends_ret, ends_ret.
  eexists. split; [done|]. rewrite (u32_small (_ - n)), (u64_small (C + n)) by (unfold is_u32, is_u64; lia).
  split_and!; [done..|by eexists|]. by exists pub.
Qed.

Lemma sp_dequeued r P C l n es' cp :
  sp_state cap r P C l → 0 < n <= len l → 0 <= cp <= P →
  after_read zero (cc_clearOnDequeue (consumerConfig r)) (q_entries r) C n es' →
  sp_state cap (MkQueue (q_producer r) (q_published r) (consumerConfig r) (C + n) cp
    (put (q_records r) C (C + n)) es') P (C + n) (drop (Z.to_nat n) l).
Proof.
  intros Hst Hn Hcp Har. pose proof sp_cap. pose proof (sp_bounds _ _ _ _ _ Hst).
  destruct Hst as [Hw Hm He Hd Hcu (Hre & Hfit & Hl) Hh Hca [Hrn Hru]]. constructor; try done.
  - eapply window_read; [lia|done|lia|done].
  - simpl. split_and!; [lia..|]. apply linked_store; [lia|done|lia|lia].
  - simpl. rewrite len_put. split; [done|]. apply put_forall; [lia|].
    eapply Forall_impl; [exact Hru|]. simpl. lia.
Qed.

Lemma sp_claim_promise k r l requested fixed exact :
  sp_st cap r k l → 0 <= requested <= cap →
  ends (spmcReserveConsumer requested fixed exact) r
    (claim_promise same_config (λ r l, sp_st cap r k l) takeReserved spmcReadConsumer
       spmcReleaseConsumer r l requested fixed exact).
Proof.
  intros (P & C & Hst & Hk0 & Hk) Hreq. pose proof sp_cap. pose proof (sp_bounds _ _ _ _ _ Hst).
  pose proof (proj2 (sp_mask _ _ _ _ _ Hst)) as Hm.
  eapply ends_mono; [by apply (sp_reserveConsumer r P C l requested fixed exact)|].
  intros [[start n] rest] r1 (-> & Hn & Hrest & cp & -> & Hcp).
  assert (0 < n → n <= len l) as Hnl.
  { subst n. unfold granted. destruct (fixed && _); lia. }
  set (r1 := set_head (C + n) (set_cachedProducer cp r)).
  assert (∀ es', 0 < n → after_read zero (cc_clearOnDequeue (consumerConfig r)) (q_entries r) C n es' →
    ends (spmcReleaseConsumer C n) (set_entries es' r1)
      (λ _ r', same_config r r' ∧ sp_st cap r' k (drop (Z.to_nat n) l))) as Hrel.
  { intros es' Hpos Har. unfold spmcReleaseConsumer. apply ends_bind, ends_load.
    change (consumerConfig (set_entries es' r1)) with (consumerConfig r). rewrite Hm.
    apply (ends_record_store (release_slots T)); [done|apply Hst|]. split; [done|].
    rewrite u64_small by (unfold is_u64; lia). apply (sp_intro _ P (C + n)); [|done|done].
    apply (sp_dequeued r P C l n es' cp); [done|lia|lia|done]. }
  split_and!; [done|done| | |].
  - intros ->. split; [done|]. apply (sp_intro _ P C); [|done|done].
    unfold r1. rewrite Z.add_0_r, <- (sp_head _ _ _ _ _ Hst).
    replace (set_head (q_head r) (set_cachedProducer cp r)) with (set_cachedProducer cp r) by done.
    rewrite (sp_head _ _ _ _ _ Hst). destruct Hst. constructor; done.
  - intros Hpos. unfold spmcReadConsumer. apply ends_bind, ends_load.
    change (consumerConfig r1) with (consumerConfig r). rewrite Hm.
    apply (ends_readSlots cap Hcap _ _ _ _ C n (take (Z.to_nat n) l));
      [done|apply Hst|lia|eapply window_prefix; [apply Hst|lia]|apply len_take; lia|].
    intros es' Har. split; [done|]. by apply Hrel.
  - intros ->. specialize (Hnl ltac:(lia)). destruct l as [|x l']; [unfold len in Hnl; simpl in Hnl; lia|].
    unfold takeReserved. apply ends_bind, ends_load. change (consumerConfig r1) with (consumerConfig r).
    rewrite Hm, mask_index by done.
    apply ends_bind, (ends_slot_get cap C _ x); [lia|apply Hst| |].
    { rewrite <- (Z.add_0_r C). by apply (win_holds _ _ _ _ _ _ _ (sp_window _ _ _ _ _ Hst) 0%nat). }
    apply ends_bind. destruct (cc_clearOnDequeue (consumerConfig r)) eqn:Hcl.
    + apply ends_slot_set; [lia|apply Hst|]. apply ends_ret. split; [done|]. apply Hrel; [lia|].
      unfold after_read. apply after_write_one. change (0 < len (q_entries r)).
      rewrite (win_len _ _ _ _ _ _ _ (sp_window _ _ _ _ _ Hst)). lia.
    + apply ends_ret, ends_ret. split; [done|]. apply (Hrel (q_entries r1)); [lia|done].
Qed.

Lemma sp_backlog r k l :
  sp_st cap r k l →
  ends (head_ ← Load head; published ← Load producerPublished;
        mret (Z.min (published -64 head_) cap)) r
    (λ n r', same_config r r' ∧ sp_st cap r' k l ∧ n = len l).
Proof.
  intros (P & C & Hst & Hk0 & Hk). pose proof sp_cap. pose proof (sp_bounds _ _ _ _ _ Hst).
  do 2 apply ends_bind, ends_Load. apply ends_ret.
  change (cget head r) with (q_head r). change (cget producerPublished r) with (q_published r).
  destruct (sp_cursor _ _ _ _ _ Hst) as (_ & -> & _). rewrite (sp_head _ _ _ _ _ Hst).
  rewrite u64_small by (unfold is_u64; lia). split_and!; [done|by apply (sp_intro _ P C)|lia].
Qed.

Lemma sp_Count r k l :
  sp_st cap r k l → ends Count r (λ n r', same_config r r' ∧ sp_st cap r' k l ∧ n = len l).
Proof.
  intros Hq. pose proof Hq as (P & C & Hst & _). unfold Count. apply ends_bind, ends_load.
  rewrite (mask_capacity cap Hcap) by apply Hst. by apply sp_backlog.
Qed.
End calls.

(** The queue as an implementation of the common interface. *)
Definition fspmc_api : queue_api (SPMCQueue T) T :=
  QueueApi zero queue_holds same_config Capacity MaxEnqueueBatch MaxDequeueBatch
    (λ r, p_exactBatchCounts (q_producer r)) (λ r, cc_exactBatchCounts (consumerConfig r))
    Enqueue Dequeue EnqueueBulk EnqueueBurst DequeueBulk DequeueBurst Count.

Lemma fspmc_next r r' k l :
  pow2_cap (Capacity r) → same_config r r' → sp_st (Capacity r) r' k l → queue_holds r' k l.
Proof. intros Hcap [Hs _] Hst. unfold queue_holds, Capacity. by rewrite Hs. Qed.

Lemma fspmc_enqueues r k l : queue_holds r k l → enqueue_spec fspmc_api r k l.
Proof.
  intros [Hcap Hq]. assert (Hnext := λ r' k' l', fspmc_next r r' k' l' Hcap).
  split_and!; [intros x Hk|intros xs Hk..].
  - eapply ends_mono; [by apply (sp_Enqueue _ Hcap r k l x)|]. intros err r' [Hs Hr]. split; [done|].
    change (api_capacity fspmc_api r) with (Capacity r).
    destruct (len l <? Capacity r); destruct Hr as [-> Hr]; (split; [done|by apply Hnext]).
  - eapply ends_mono; [by apply (sp_EnqueueBulk _ Hcap r k l xs)|]. intros [free err] r' [Hs Hr].
    split; [done|]. change (api_capacity fspmc_api r) with (Capacity r).
    change (api_maxEnqueue fspmc_api r) with (p_maxBatch (q_producer r)). cbv zeta in Hr.
    destruct (_ <? _); [|destruct (_ <=? _)]; destruct Hr as (? & Hr & ?);
      (split_and!; [done|by apply Hnext|done]).
  - eapply ends_mono; [by apply (sp_EnqueueBurst _ Hcap r k l xs)|].
    intros [n free] r' (Hs & Hn & Hr & Hrep). split; [done|]. split; [done|]. split; [by apply Hnext|done].
Qed.

Lemma fspmc_dequeues r k l : queue_holds r k l → dequeue_spec fspmc_api r k l.
Proof.
  intros [Hcap Hq]. assert (Hnext := λ r' l', fspmc_next r r' k l' Hcap).
  pose proof Hq as (P & C & Hst & _). pose proof (sp_maxDequeue _ _ _ _ _ Hst) as Hmax.
  assert (Hfits := λ r l, sp_fits (Capacity r) r k l).
  split_and!; [|intros dst..|].
  - eapply ends_mono; [by apply (calls_Dequeue zero _ Hcap same_config (λ r' l, sp_st (Capacity r) r' k l)
      spmcReserveConsumer takeReserved spmcReadConsumer spmcReleaseConsumer
      (sp_claim_promise _ Hcap k) r l)|].
    intros [v err] r' [Hs Hr]. split; [done|]. destruct l; destruct Hr as (-> & -> & Hr);
      (split_and!; [done..|by apply Hnext]).
  - change (api_DequeueBulk fspmc_api dst) with (DequeueBulk dst). unfold DequeueBulk.
    apply ends_bind, ends_load. change (cc_mask (consumerConfig r) +32 1) with (Capacity r).
    eapply ends_mono; [by apply (calls_DequeueBulk _ Hcap same_config (λ r' l, sp_st (Capacity r) r' k l)
      spmcReserveConsumer takeReserved spmcReadConsumer spmcReleaseConsumer _
      (λ r' l, sp_fits (Capacity r) r' k l) (sp_claim_promise _ Hcap k)
      (λ r' l, sp_backlog _ Hcap r' k l) r l dst); [|lia..]|].
    intros [[available err] dst'] r' [Hs Hr]. split; [done|].
    change (api_capacity fspmc_api r) with (Capacity r).
    change (api_maxDequeue fspmc_api r) with (cc_maxBatch (consumerConfig r)).
    destruct (_ <? _); [|destruct (_ <=? _)]; destruct Hr as (? & ? & Hr & ?);
      (split_and!; [done|done|by apply Hnext|done]).
  - change (api_DequeueBurst fspmc_api dst) with (DequeueBurst dst). unfold DequeueBurst.
    apply ends_bind, ends_load.
    eapply ends_mono; [by apply (calls_DequeueBurst _ Hcap same_config (λ r' l, sp_st (Capacity r) r' k l)
      spmcReserveConsumer takeReserved spmcReadConsumer spmcReleaseConsumer
      (λ r' l, sp_fits (Capacity r) r' k l) (sp_claim_promise _ Hcap k) r l dst); [|lia..]|].
    intros [[n available] dst'] r' (Hs & Hn & Hd & Hr & Hrep).
    split; [done|]. split; [done|]. split; [done|]. split; [by apply Hnext|done].
  - eapply ends_mono; [by apply (sp_Count _ Hcap r k l)|]. intros n r' (Hs & Hr & ->).
    split_and!; [done|by apply Hnext|done].
Qed.

#[export] Instance fspmc_fifo : FifoQueue fspmc_api.
Proof.
  split; [apply fspmc_enqueues|apply fspmc_dequeues|..].
  - intros r k l [_ Hst]. by eapply sp_fits.
  - intros r k l (Hcap & P & C & Hst & _). pose proof (pow2_cap_range _ Hcap).
    split; [done|]. split; [apply (sp_maxEnqueue _ _ _ _ _ Hst)|apply (sp_maxDequeue _ _ _ _ _ Hst)].
  - intros r r' Hs. simpl. unfold same_config, Capacity, MaxEnqueueBatch, MaxDequeueBatch in *.
    destruct Hs as [H1 H2]; first [injection H2 as ?? ??|injection H2 as ???|injection H2 as ??]; split_and!; congruence.
Qed.

(** C30. On a quiescent frontier SPMC queue every call returns and acts as the bounded FIFO does,
    with its errors and counts, as long as the positions do not pass 64 bits: the producer's
    discovery of released intervals and its published cursor on one end, reservation against the
    cached producer position and release records on the other. *)
Theorem fspmc_fifo_spec r k l :
  queue_holds r k l → enqueue_spec fspmc_api r k l ∧ dequeue_spec fspmc_api r k l.
Proof. intros Hq. split; [by apply fspmc_enqueues|by apply fspmc_dequeues]. Qed.

Lemma sp_pristine cap m m' me md ee cl ed :
  pow2_cap cap → m = cap - 1 → m' = cap - 1 → 1 <= me <= cap → 1 <= md <= cap →
  sp_state cap (MkQueue (MkProducer m 0 0 me ee) 0 (MkConsumerConfig m' md cl ed) 0 0
    (replicate (Z.to_nat cap) 0) (replicate (Z.to_nat cap) zero)) 0 0 [].
Proof.
  intros Hcap Hm Hm' He Hd. pose proof (pow2_cap_range _ Hcap). constructor; try done; simpl.
  - apply window_empty; lia.
  - split_and!; [lia..|constructor].
  - split; [by apply len_replicate; lia|]. apply Forall_replicate. lia.
Qed.

Lemma fspmc_new_ok count options r :
  NewSPMCQueue count options = inr r →
  queue_holds r (2 ^ 64 - 1) [] ∧ Capacity r = count ∧
  let cfg := configured count options in
  MaxEnqueueBatch r = maxEnqueueBatch cfg ∧ MaxDequeueBatch r = maxDequeueBatch cfg.
Proof.
  unfold NewSPMCQueue.
  destruct (resolveConfig _ _ _) as [|cfg] eqn:Hcfg; [done|]. intros [= <-].
  apply frontier_resolve_ok in Hcfg as (-> & Hcap & He & Hd). pose proof (pow2_cap_range _ Hcap).
  assert (u32 (count -i 1) = count - 1) as Hmask.
  { rewrite i64_small by (unfold is_int, minInt, maxInt; lia). apply u32_small; unfold is_u32; lia. }
  set (r := MkQueue _ _ _ _ _ _ _). assert (Capacity r = count) as Hc.
  { by apply (mask_capacity count Hcap). }
  split; [|split; [done|split; apply u32_small; unfold is_u32; lia]].
  unfold queue_holds. rewrite Hc. split; [done|]. exists 0, 0. split; [|lia].
  apply sp_pristine; try done; rewrite u32_small by (unfold is_u32; lia); lia.
Qed.

(** A constructed frontier SPMC queue is empty with the requested capacity and limits and all
    64-bit positions ahead of it, and [Reset] returns any quiescent queue to that state. *)
Theorem fspmc_new_reset_spec :
  (∀ count options r, NewSPMCQueue count options = inr r →
     queue_holds r (2 ^ 64 - 1) [] ∧ Capacity r = count ∧
     let cfg := configured count options in
     MaxEnqueueBatch r = maxEnqueueBatch cfg ∧ MaxDequeueBatch r = maxDequeueBatch cfg) ∧
  (∀ r k l, queue_holds r k l →
     ends Reset r (λ _ r', queue_holds r' (2 ^ 64 - 1) [] ∧ same_config r r' ∧
       q_entries r' = replicate (Z.to_nat (Capacity r)) zero)).
Proof.
  split.
  - apply fspmc_new_ok.
  - intros r k l (Hcap & P & C & Hst & _). unfold Reset.
    pose proof (pow2_cap_range _ Hcap). destruct (sp_records _ _ _ _ _ Hst) as [Hrl _].
    destruct (sp_mask _ _ _ _ _ Hst) as [Hm Hm'].
    pose proof (win_len _ _ _ _ _ _ _ (sp_window _ _ _ _ _ Hst)) as Hel.
    apply ends_bind, ends_clear_all; [change (0 < len (q_entries r)); lia|].
    apply ends_bind, (ends_clear_all (Slots0 := release_slots T)); [change (0 < len (q_records r)); lia|].
    do 2 apply ends_bind, ends_modify. do 2 apply ends_bind, ends_Store. apply ends_Store.
    match goal with |- context [queue_holds ?x] => set (r' := x) end.
    assert (r' = MkQueue (MkProducer (p_mask (q_producer r)) 0 0 (p_maxBatch (q_producer r))
        (p_exactBatchCounts (q_producer r))) 0 (MkConsumerConfig (cc_mask (consumerConfig r))
        (cc_maxBatch (consumerConfig r)) (cc_clearOnDequeue (consumerConfig r))
        (cc_exactBatchCounts (consumerConfig r))) 0 0
      (replicate (Z.to_nat (Capacity r)) 0) (replicate (Z.to_nat (Capacity r)) zero)) as Hr'.
    { unfold r'. rewrite <- Hrl at 1. rewrite <- Hel at 1. unfold len. rewrite !Nat2Z.id.
      by destruct r as [[] ? [] ? ? ? ?]. }
    assert (same_config r r') as Hs by done.
    split; [|split; [done|by rewrite Hr']].
    apply (fspmc_next r); [done|done|].
    exists 0, 0. split; [|lia]. rewrite Hr'. apply sp_pristine; try done; apply Hst.
Qed.
End queue.

(** ** Witnesses *)

Definition demo : SPMCQueue Z :=
  MkQueue (MkProducer 3 0 0 4 false) 0 (MkConsumerConfig 3 4 true false) 0 0
    [0; 0; 0; 0] [0; 0; 0; 0].

Lemma fspmc_demo_new : NewSPMCQueue 0 4 [] = inr demo.
Proof. reflexivity. Qed.

Lemma fspmc_demo_holds : queue_holds 0 demo (2 ^ 64 - 1) [].
Proof.
  assert (pow2_cap 4) as Hcap by (exists 2; split; [lia|reflexivity]).
  split; [done|]. exists 0, 0. split; [|lia]. by apply (sp_pristine 0 4); try lia.
Qed.

Lemma fspmc_fifo_witness :
  ends (EnqueueBulk [7; 8; 9]) demo (λ '(free, err) r',
    err = None ∧ ∃ k, queue_holds 0 r' k [7; 8; 9]).
Proof.
  destruct (fspmc_fifo_spec 0 demo (2 ^ 64 - 1) [] fspmc_demo_holds) as ((_ & Hbulk & _) & _).
  eapply ends_mono; [apply (Hbulk [7; 8; 9]); change (3 <= 2 ^ 64 - 1); lia|].
  intros [free err] r' (_ & He & Hq & _). split; [exact He|]. eexists. exact Hq.
Defined.
End FSPMC.
