(* ===== verification/Triple.v ===== *)
(** * Triples for programs among other goroutines

    A rely-guarantee logic in the style of Hoare, derived from [Prog.safe]: assertions speak of
    the ghost state only and must be stable under what the other goroutines do; the invariant
    ties the ghost state to the memory. A triple promises that the program never panics, blocks
    only when [quiet] holds, and keeps the invariant at every step. *)

From stdpp Require Import prelude list.
From S2P Require Import Prelude Prog.

Module Triple.
Import Prog.

Class Stable {G} (rely : G → G → Prop) (P : G → Prop) : Prop :=
  stable_rely g g' : rely g g' → P g → P g'.
#[global] Hint Mode Stable + + ! : typeclass_instances.

Section stable.
Context {G : Type} (rely : G → G → Prop).

#[export] Instance stable_pure (φ : Prop) : Stable rely (λ _, φ).
Proof. by intros g g' _. Qed.
#[export] Instance stable_and P Q : Stable rely P → Stable rely Q → Stable rely (λ g, P g ∧ Q g).
Proof. intros HP HQ g g' Hr [? ?]. split; [by apply (HP g)|by apply (HQ g)]. Qed.
#[export] Instance stable_or P Q : Stable rely P → Stable rely Q → Stable rely (λ g, P g ∨ Q g).
Proof. intros HP HQ g g' Hr [?|?]; [left; by apply (HP g)|right; by apply (HQ g)]. Qed.
#[export] Instance stable_exist {X} (P : X → G → Prop) :
  (∀ x, Stable rely (P x)) → Stable rely (λ g, ∃ x, P x g).
Proof. intros HP g g' Hr [x Hx]. exists x. by apply (HP x g). Qed.
#[export] Instance stable_impl (φ : Prop) P : Stable rely P → Stable rely (λ g, φ → P g).
Proof. intros HP g g' Hr H Hφ. apply (HP g); auto. Qed.
#[export] Instance stable_forall {X} (P : X → G → Prop) :
  (∀ x, Stable rely (P x)) → Stable rely (λ g, ∀ x, P x g) | 20.
Proof. intros HP g g' Hr H x. by apply (HP x g). Qed.
#[export] Instance stable_if (b : bool) P Q :
  Stable rely P → Stable rely Q → Stable rely (λ g, if b then P g else Q g).
Proof. by destruct b. Qed.
End stable.

(** Stability of the assertions of a rule. *)
Ltac stab := first [done|intros; typeclasses eauto].

Section triple.
Context {S G : Type} (inv : S → G → Prop) (quiet : S * G → Prop).
Context (rely guar : G → G → Prop) `{!PreOrder rely, !Reflexive guar}.
Abbreviation stable := (Stable rely).

Definition triple {A} (P : G → Prop) (p : prog S A) (Q : A → G → Prop) : Prop :=
  ∀ n s g, P g → safe inv (quiet := quiet) (λ a b, rely a.2 b.2) (λ a b, guar a.2 b.2)
    (λ a sg, Q a sg.2) n p (s, g).

#[export] Instance rely_preorder : PreOrder (λ a b : S * G, rely a.2 b.2).
Proof. split; [intros ?; reflexivity|intros ???; by etrans]. Qed.

Lemma triple_ret {A} P (a : A) (Q : A → G → Prop) :
  stable P → (∀ g, P g → Q a g) → triple P (mret a) Q.
Proof.
  intros Hst HQ n s g HP. apply safe_ret. intros s' g' Hr _. apply HQ. by eapply Hst.
Qed.

Lemma triple_ret_inv {A} P (a : A) (Q : A → G → Prop) :
  stable P → (∀ s g, P g → inv s g → Q a g) → triple P (mret a) Q.
Proof.
  intros Hst HQ n s g HP. apply safe_ret. intros s' g' Hr Hi. apply (HQ s'); [|done]. by eapply Hst.
Qed.

Lemma triple_bind {A B} P (p : prog S A) (k : A → prog S B) Q R :
  triple P p Q → (∀ a, triple (Q a) (k a) R) → triple P (p ≫= k) R.
Proof.
  intros Hp Hk n s g HP. eapply safe_bind; [apply _|by apply Hp|].
  intros a [s' g'] m _ HQ. by apply Hk.
Qed.

Lemma triple_conseq {A} P P' (p : prog S A) Q Q' :
  triple P p Q → (∀ g, P' g → P g) → (∀ a g, Q a g → Q' a g) → triple P' p Q'.
Proof.
  intros Hp HP HQ n s g H. eapply safe_post; [by apply Hp, HP|]. intros a [s' g']. apply HQ.
Qed.

Lemma triple_pre {A} P P' (p : prog S A) Q : triple P p Q → (∀ g, P' g → P g) → triple P' p Q.
Proof. intros Hp HP. by eapply triple_conseq. Qed.

Lemma triple_post {A} P (p : prog S A) Q Q' :
  triple P p Q → (∀ a g, Q a g → Q' a g) → triple P p Q'.
Proof. intros Hp HQ. by eapply triple_conseq. Qed.

Lemma triple_exist {X A} (P : X → G → Prop) (p : prog S A) Q :
  (∀ x, triple (P x) p Q) → triple (λ g, ∃ x, P x g) p Q.
Proof. intros Hp n s g [x Hx]. by apply (Hp x). Qed.

Lemma triple_fact {A} (φ : Prop) P (p : prog S A) Q :
  (φ → triple P p Q) → triple (λ g, φ ∧ P g) p Q.
Proof. intros Hp n s g [Hφ HP]. by apply Hp. Qed.

Lemma triple_fact_r {A} (φ : Prop) P (p : prog S A) Q :
  (φ → triple P p Q) → triple (λ g, P g ∧ φ) p Q.
Proof. intros Hp n s g [HP Hφ]. by apply Hp. Qed.

(** A fact that nobody ever makes false is kept. *)
Lemma triple_keep {A} (R : G → Prop) P (p : prog S A) Q :
  (∀ g g', rely g g' → R g → R g') → (∀ g g', guar g g' → R g → R g') →
  triple P p Q → triple (λ g, R g ∧ P g) p (λ a g, R g ∧ Q a g).
Proof.
  intros Hr Hg Hp n s g [HR HP]. specialize (Hp n s g HP). clear HP. revert p s g HR Hp.
  induction n as [|n IH]; intros p s g HR Hs; [done|]. intros s1 g1 Hr1 Hi.
  destruct (Hs s1 g1 Hr1 Hi) as (Hpost & Hprog & Hst). split_and!; [|done|].
  - intros a Ha. split; [by eapply Hr|by apply Hpost].
  - intros s' p' Hin. destruct (Hst s' p' Hin) as (g' & Hg' & Hi' & Hs'). exists g'. split_and!; [done..|].
    apply IH; [|done]. eapply Hg; [done|]. by eapply Hr.
Qed.

(** A precondition that contradicts the invariant. *)
Lemma triple_absurd {A} P (p : prog S A) Q : stable P → (∀ s g, P g → inv s g → False) → triple P p Q.
Proof.
  intros HP Hf n s g Hg. destruct n as [|n]; [done|]. intros s' g' Hr Hi. destruct (Hf s' g'); [by eapply HP|done].
Qed.

(** Atomic actions. *)
Lemma triple_choose {B} P (f : S → list (S * B)) (Q : B → G → Prop) :
  stable P → (∀ b, stable (Q b)) →
  (∀ s g, P g → inv s g → f s ≠ [] ∧
     ∀ s' b, (s', b) ∈ f s → ∃ g', guar g g' ∧ inv s' g' ∧ Q b g') →
  triple P (Act f Ret) Q.
Proof.
  intros HP HQ Hf n s g Hg. apply safe_choose_last. intros s1 g1 Hr Hi.
  destruct (Hf s1 g1) as [Hne Hst]; [by eapply HP|done|]. split; [done|]. intros s' b Hin.
  destruct (Hst s' b Hin) as (g' & Hg' & Hi' & HQ'). exists g'. split_and!; [done..|].
  intros sg' Hr' _. by eapply HQ.
Qed.

Lemma triple_await {B} P (f : S → list (S * B)) (Q : B → G → Prop) :
  stable P → (∀ b, stable (Q b)) →
  (∀ s g, P g → inv s g → (f s = [] → quiet (s, g)) ∧
     ∀ s' b, (s', b) ∈ f s → ∃ g', guar g g' ∧ inv s' g' ∧ Q b g') →
  triple P (await f) Q.
Proof.
  intros HP HQ Hf n s g Hg. apply safe_await_last. intros s1 g1 Hr Hi.
  destruct (Hf s1 g1) as [Hne Hst]; [by eapply HP|done|]. split; [done|]. intros s' b Hin.
  destruct (Hst s' b Hin) as (g' & Hg' & Hi' & HQ'). exists g'. split_and!; [done..|].
  intros sg' Hr' _. by eapply HQ.
Qed.

Lemma triple_access {B} P (f : S → option (S * B)) (Q : B → G → Prop) :
  stable P → (∀ b, stable (Q b)) →
  (∀ s g, P g → inv s g → ∃ s' b g', f s = Some (s', b) ∧ guar g g' ∧ inv s' g' ∧ Q b g') →
  triple P (access f) Q.
Proof.
  intros HP HQ Hf. apply triple_choose; [done..|]. intros s g Hg Hi.
  destruct (Hf s g Hg Hi) as (s' & b & g' & -> & ? & ? & ?). split; [done|].
  intros s1 b1 [= -> ->]%list_elem_of_singleton. by exists g'.
Qed.

Lemma triple_act {B} P (f : S → S * B) (Q : B → G → Prop) :
  stable P → (∀ b, stable (Q b)) →
  (∀ s g, P g → inv s g → ∃ g', guar g g' ∧ inv (f s).1 g' ∧ Q (f s).2 g') →
  triple P (act f) Q.
Proof.
  intros HP HQ Hf. apply triple_choose; [done..|]. intros s g Hg Hi. split; [done|].
  intros s' b Hin%list_elem_of_singleton. destruct (Hf s g Hg Hi) as (g' & ? & ? & ?).
  rewrite <- Hin in *. by exists g'.
Qed.

Lemma triple_load {B} P (get : S → B) (Q : B → G → Prop) :
  stable P → (∀ b, stable (Q b)) → (∀ s g, P g → inv s g → Q (get s) g) → triple P (load get) Q.
Proof.
  intros HP HQ Hf. apply triple_act; [done..|]. intros s g Hg Hi. exists g. by split_and!; [..|apply Hf].
Qed.

Lemma triple_loop {X B} (I : X → G → Prop) (body : X → prog S (X + B)) i (Q : B → G → Prop) :
  (∀ i, stable (I i)) → (∀ b, stable (Q b)) →
  (∀ i, triple (I i) (body i) (λ r g, match r with inl i' => I i' g | inr b => Q b g end)) →
  triple (I i) (loop body i) Q.
Proof.
  intros HI HQ Hbody n s g Hg.
  apply (safe_loop _ _ _ (λ i sg, I i sg.2)); [|intros sg; reflexivity| |done].
  - intros j [s' g'] m Hj. eapply safe_post; [by apply Hbody|]. intros [i'|b] [s1 g1]; [done|].
    simpl. intros Hb [s2 g2] Hr _. by eapply HQ.
  - intros j [s' g'] [s1 g1] Hj Hr. by eapply HI.
Qed.

Lemma triple_forever {B} P (body : prog S (option B)) (Q : B → G → Prop) :
  stable P → (∀ b, stable (Q b)) →
  triple P body (λ r g, match r with Some b => Q b g | None => P g end) →
  triple P (forever body) Q.
Proof.
  intros HP HQ Hbody. apply (triple_loop (λ _, P)); [done..|]. intros _.
  eapply triple_bind; [exact Hbody|]. intros [b|].
  - apply (triple_ret (Q b)); [apply HQ|done].
  - apply (triple_ret P); done.
Qed.

Lemma triple_for_each {X} (l : list X) (body : X → prog S unit) (I : list X → G → Prop) :
  (∀ l, stable (I l)) →
  (∀ done x rest, l = done ++ x :: rest → triple (I done) (body x) (λ _, I (done ++ [x]))) →
  triple (I []) (for_each l body) (λ _, I l).
Proof.
  intros HI Hbody.
  cut (∀ rest done, l = done ++ rest → triple (I done) (for_each rest body) (λ _, I l)).
  { intros H. by apply (H l []). }
  induction rest as [|x rest IH]; intros done Hl; simpl.
  - apply (triple_ret (I done)); [done|]. by rewrite Hl, app_nil_r.
  - eapply (triple_bind _ (body x)); [by eapply Hbody|]. intros u. apply IH. by rewrite <- app_assoc.
Qed.
End triple.

(** A triple stays true when less is promised of the steps and of blocking. *)
Lemma triple_weaken {S G A} (inv : S → G → Prop) (quiet quiet' : S * G → Prop) (rely guar guar' : G → G → Prop)
    P (p : prog S A) Q :
  (∀ sg, quiet sg → quiet' sg) → (∀ g g', guar g g' → guar' g g') →
  triple inv quiet rely guar P p Q → triple inv quiet' rely guar' P p Q.
Proof.
  intros Hq Hg Hp n s g HP. specialize (Hp n s g HP). clear HP. revert p s g Hp.
  induction n as [|n IH]; intros p s g Hs; [done|]. intros s1 g1 Hr Hi.
  destruct (Hs s1 g1 Hr Hi) as (Hpost & Hprog & Hst). split_and!; [done|..].
  - intros Hres Hnil. destruct (Hprog Hres Hnil). auto.
  - intros s' p' Hin. destruct (Hst s' p' Hin) as (g' & Hg' & Hi' & Hs'). exists g'. split_and!; [by apply Hg|done|].
    by apply IH.
Qed.

(** A fact that nobody ever makes false is known whenever the program is blocked. *)
Lemma triple_keep_quiet {S G A} (inv : S → G → Prop) (quiet : S * G → Prop) (rely guar : G → G → Prop) (R : G → Prop)
    P (p : prog S A) Q :
  (∀ g g', rely g g' → R g → R g') → (∀ g g', guar g g' → R g → R g') → triple inv quiet rely guar P p Q →
  triple inv (λ sg, quiet sg ∧ R sg.2) rely guar (λ g, R g ∧ P g) p (λ a g, R g ∧ Q a g).
Proof.
  intros Hr Hg Hp n s g [HR HP]. specialize (Hp n s g HP). clear HP. revert p s g HR Hp.
  induction n as [|n IH]; intros p s g HR Hs; [done|]. intros s1 g1 Hr1 Hi.
  destruct (Hs s1 g1 Hr1 Hi) as (Hpost & Hprog & Hst). assert (R g1) as HR1 by (by eapply Hr). split_and!.
  - intros a Ha. split; [done|by apply Hpost].
  - intros Hres Hnil. by destruct (Hprog Hres Hnil).
  - intros s' p' Hin. destruct (Hst s' p' Hin) as (g' & Hg' & Hi' & Hs'). exists g'. split_and!; [done..|].
    apply IH; [|done]. by eapply Hg.
Qed.

(** A program of a part of the state, with part [pg] of the ghost state; [F] is what the goroutine
    knows of the rest. *)
Section zoom.
Context {S G X H : Type} (inv : S → G → Prop) (quiet : S * G → Prop) (rely guar : G → G → Prop).
Context (invX : X → H → Prop) (quietX : X * H → Prop) (relyX guarX : H → H → Prop).
Context (l : focus S X) (pg : G → H) (F : G → Prop).
Hypothesis zoom_rely : ∀ g g', rely g g' → relyX (pg g) (pg g') ∧ (F g → F g').
Hypothesis zoom_inv : ∀ s g, inv s g → ∃ x, look l s = Some x ∧ invX x (pg g).
Hypothesis zoom_quiet : ∀ s g x, inv s g → look l s = Some x → quietX (x, pg g) → F g → quiet (s, g).
Hypothesis zoom_step_inv : ∀ s g x x' h, inv s g → F g → look l s = Some x → guarX (pg g) h → invX x' h →
  ∃ g', guar g g' ∧ inv (put_back l x' s) g' ∧ pg g' = h ∧ F g'.

Lemma triple_zoom {A} P (p : prog X A) (Q : A → H → Prop) :
  triple invX quietX relyX guarX P p Q →
  triple inv quiet rely guar (λ g, P (pg g) ∧ F g) (zoom l p) (λ a g, Q a (pg g) ∧ F g).
Proof.
  intros Hp n s g [HP HF].
  cut (∀ n (p : prog X A) x s g, F g → safe invX (quiet := quietX) (λ a b, relyX a.2 b.2)
      (λ a b, guarX a.2 b.2) (λ a sg, Q a sg.2) n p (x, pg g) →
    safe inv (quiet := quiet) (λ a b, rely a.2 b.2) (λ a b, guar a.2 b.2)
      (λ a sg, Q a (pg sg.2) ∧ F sg.2) n (zoom l p) (s, g)).
  { intros Hcut. destruct n as [|n]; [done|]. intros s1 g1 Hr Hi. simpl in Hr.
    destruct (zoom_rely _ _ Hr) as [HrX HF']. destruct (zoom_inv s1 g1 Hi) as (x & _ & HiX).
    refine (Hcut (Datatypes.S n) p x s g HF (Hp _ x (pg g) HP) s1 g1 Hr Hi). }
  clear P p Hp s g HP HF n. induction n as [|n IH]; intros p x s g HF Hsafe; [done|].
  intros s1 g1 Hr Hi. simpl in Hr. destruct (zoom_rely _ _ Hr) as [HrX HF'].
  destruct (zoom_inv s1 g1 Hi) as (x1 & Hx1 & HiX). destruct (Hsafe x1 (pg g1) HrX HiX) as (Hpost & Hprog & Hst).
  rewrite zoom_result, (zoom_step l p s1 x1 Hx1), zoom_waits. split_and!.
  - intros a Ha. split; [by apply (Hpost a)|auto].
  - intros Hr1 Hnil%fmap_nil_inv. destruct (Hprog Hr1 Hnil) as [Hw Hq]. split; [done|].
    by eapply zoom_quiet; [..|apply HF'].
  - intros s' p' ([x' p1] & [= -> ->] & Hin)%list_elem_of_fmap.
    destruct (Hst x' p1 Hin) as (h & Hg & Hi' & Hs').
    destruct (zoom_step_inv s1 g1 x1 x' h) as (g' & Hgw & Hiw & <- & HFw); [by auto..|].
    exists g'. split_and!; [done..|]. by apply (IH p1 x').
Qed.
End zoom.

(** [tri_seq by tac] reasons about the first program of a sequence, and [tri_mid Q] states what
    holds after it. *)
Tactic Notation "tri_seq" "by" tactic3(tac) := eapply triple_bind; [typeclasses eauto|solve [tac]|cbv beta].
Tactic Notation "tri_mid" uconstr(Q) := eapply (triple_bind _ _ _ _ _ _ _ Q); cbv beta.
End Triple.
