(* ===== verification/WaitSide.v ===== *)
(** * One side of the wakeup protocol (src/workq/waitside.go)

    A side of a work queue counts its registered pollers and its parked callers in one atomic
    word and keeps the parked callers in a doubly linked list under a mutex. The operations are
    programs of atomic actions; links and [listed] are read and written only under the mutex, so
    one list operation is one action. Locking a held mutex and receiving a token that was not
    sent block the goroutine. Diagnostics are off (the counters are nil) and the test hooks are
    nil, as in a queue built without [WithDiagnostics]. *)

From Stdlib Require Import ZArith Lia.
From stdpp Require Import prelude list gmap.
From S2P Require Import Prelude Prog.

Module WaitSide.
Import Prog.

(** ** The state word *)

Definition onePoller : Z := 1.
Definition oneParked : Z := Z.shiftl 1 32.
Definition closedFlag : Z := Z.shiftl 1 63.
Definition countMask : Z := Z.shiftl 1 31 - 1.

Definition pollers (word : Z) : Z := u32 (Z.land word countMask).
Definition parked (word : Z) : Z := u32 (Z.land (Z.shiftr word 32) countMask).
Definition closed (word : Z) : bool := negb (Z.land word closedFlag =? 0).
Definition needsWake (word : Z) : bool := (pollers word =? 0) && (0 <? parked word).

(** ** Waiters and the side *)

(** Waiters are named by locations; [w_token] is whether the channel holds a token. *)
Record waiter := Waiter {
  w_token : bool;
  w_prev : option nat;
  w_next : option nat;
  w_listed : bool;
}.

(** [waiters] is the memory of the waiters used with this side. *)
Record waitSide := MkSide {
  s_word : Z;
  s_mu : bool;
  s_oldest : option nat;
  s_newest : option nat;
  s_pool : list nat;
  waiters : gmap nat waiter;
}.

Definition set_word x sd :=
  MkSide x (s_mu sd) (s_oldest sd) (s_newest sd) (s_pool sd) (waiters sd).
Definition set_mu b sd :=
  MkSide (s_word sd) b (s_oldest sd) (s_newest sd) (s_pool sd) (waiters sd).
Definition set_oldest p sd :=
  MkSide (s_word sd) (s_mu sd) p (s_newest sd) (s_pool sd) (waiters sd).
Definition set_newest p sd :=
  MkSide (s_word sd) (s_mu sd) (s_oldest sd) p (s_pool sd) (waiters sd).
Definition set_pool ps sd :=
  MkSide (s_word sd) (s_mu sd) (s_oldest sd) (s_newest sd) ps (waiters sd).
Definition set_waiters h sd :=
  MkSide (s_word sd) (s_mu sd) (s_oldest sd) (s_newest sd) (s_pool sd) h.

Definition with_token b w := Waiter b (w_prev w) (w_next w) (w_listed w).
Definition with_prev p w := Waiter (w_token w) p (w_next w) (w_listed w).
Definition with_next p w := Waiter (w_token w) (w_prev w) p (w_listed w).
Definition with_listed b w := Waiter (w_token w) (w_prev w) (w_next w) b.

Definition zero_side : waitSide := MkSide 0 false None None [] ∅.

Abbreviation M := (prog waitSide).

(** [p.field = value]; a nil or dangling pointer panics. *)
Definition write (p : option nat) (f : waiter → waiter) (sd : waitSide) : option waitSide :=
  p ← p; w ← waiters sd !! p; Some (set_waiters (<[p := f w]> (waiters sd)) sd).
Definition read {B} (p : option nat) (f : waiter → B) (sd : waitSide) : option B :=
  p ← p; f <$> waiters sd !! p.

Definition panic {S B} : prog S B := access (λ _, None).

(** ** The word and the mutex *)

Definition word_cell : cell waitSide := Cell s_word set_word.

(** [side.load] and [side.compareAndSwap]. *)
Definition loadWord : M Z := Load word_cell.
Definition compareAndSwap (current updated : Z) : M bool := CompareAndSwap word_cell current updated.

Definition Lock : M unit :=
  await (λ sd, if s_mu sd then [] else [(set_mu true sd, tt)]).
Definition Unlock : M unit :=
  access (λ sd, if s_mu sd then Some (set_mu false sd, tt) else None).

(** ** Waiters, tokens and the pool *)

Definition newWaiter : M nat :=
  act (λ sd, let p := fresh (dom (waiters sd)) in
    (set_waiters (<[p := Waiter false None None false]> (waiters sd)) sd, p)).

(** [sync.Pool.Get] returns any pooled waiter, or none. *)
Definition poolGet : M (option nat) :=
  Act (λ sd, (sd, None) ::
         imap (λ i p, (set_pool (delete i (s_pool sd)) sd, Some p)) (s_pool sd)) Ret.

Definition getWaiter : M nat :=
  pooled ← poolGet;
  match pooled with Some p => mret p | None => newWaiter end.

Definition putWaiter (caller : nat) : M unit :=
  modify (λ sd, set_pool (caller :: s_pool sd) sd).

(** [select { case woken.token <- struct{}{}: default: panic }]. *)
Definition sendToken (woken : nat) : M unit :=
  access (λ sd, held ← read (Some woken) w_token sd;
    if held : bool then None else sd' ← write (Some woken) (with_token true) sd; Some (sd', tt)).

(** [<-caller.token] when a token is there. *)
Definition takeToken (caller : nat) (sd : waitSide) : option (waitSide * bool) :=
  held ← read (Some caller) w_token sd;
  if held : bool then sd' ← write (Some caller) (with_token false) sd; Some (sd', true)
  else Some (sd, false).

Definition receiveToken (caller : nat) : M unit :=
  await (λ sd, match takeToken caller sd with Some (sd', true) => [(sd', tt)] | _ => [] end).

(** ** The list *)

Definition unlinked (caller : option nat) (sd : waitSide) : option waitSide :=
  prev ← read caller w_prev sd;
  next ← read caller w_next sd;
  sd ← match prev with
       | None => Some (set_oldest next sd)
       | Some _ => write prev (with_next next) sd
       end;
  next ← read caller w_next sd;
  prev ← read caller w_prev sd;
  sd ← match next with
       | None => Some (set_newest prev sd)
       | Some _ => write next (with_prev prev) sd
       end;
  sd ← write caller (with_prev None) sd;
  sd ← write caller (with_next None) sd;
  write caller (with_listed false) sd.

Definition unlink (caller : option nat) : M unit :=
  access (λ sd, sd ← unlinked caller sd; Some (sd, tt)).

Definition removeForWake : M nat :=
  woken ← load s_oldest;
  _ ← unlink woken;
  match woken with Some p => mret p | None => panic end.

Definition linked_oldest (caller : nat) (sd : waitSide) : option waitSide :=
  sd ← write (Some caller) (with_next (s_oldest sd)) sd;
  sd ← match s_oldest sd with
       | None => Some (set_newest (Some caller) sd)
       | Some _ => write (s_oldest sd) (with_prev (Some caller)) sd
       end;
  write (Some caller) (with_listed true) (set_oldest (Some caller) sd).

Definition linked_newest (caller : nat) (sd : waitSide) : option waitSide :=
  sd ← write (Some caller) (with_prev (s_newest sd)) sd;
  sd ← match s_newest sd with
       | None => Some (set_oldest (Some caller) sd)
       | Some _ => write (s_newest sd) (with_next (Some caller)) sd
       end;
  write (Some caller) (with_listed true) (set_newest (Some caller) sd).

(** The waiter a wake goes to is removed and gets its token. *)
Definition wakeNext : M unit := woken ← removeForWake; sendToken woken.

(** ** Transitions *)

Definition register : M bool :=
  forever (
    word ← loadWord;
    if closed word then mret (Some true)
    else
      swapped ← compareAndSwap word (word +64 onePoller);
      mret (if swapped : bool then Some false else None)).

Definition wakeOneLocked : M bool :=
  forever (
    word ← loadWord;
    if negb (needsWake word) then mret (Some false)
    else
      swapped ← compareAndSwap word (word +64 onePoller -64 oneParked);
      if swapped : bool then
        _ ← wakeNext;
        mret (Some true)
      else mret None).

Definition wakeOne : M bool :=
  _ ← Lock;
  woke ← wakeOneLocked;
  _ ← Unlock;
  mret woke.

Definition wakeCheck : M bool :=
  word ← loadWord;
  _ ← (if needsWake word then _ ← wakeOne; mret tt else mret tt);
  mret (closed word).

(** The loop of [leavePollingWith]: the registration is dropped and the word left is returned. *)
Definition dropPoller : M Z :=
  forever (
    word ← loadWord;
    if pollers word =? 0 then panic
    else
      let left := word -64 onePoller in
      swapped ← compareAndSwap word left;
      mret (if swapped : bool then Some left else None)).

(** [enlistPosition]. *)
Definition atNewest : bool := false.
Definition atOldest : bool := true.

Definition enlist (caller : nat) (position : bool) : M bool :=
  _ ← Lock;
  closed ← forever (
    word ← loadWord;
    if closed word then mret (Some true)
    else if pollers word =? 0 then panic
    else
      swapped ← compareAndSwap word (word -64 onePoller +64 oneParked);
      mret (if swapped : bool then Some false else None));
  if closed : bool then _ ← Unlock; mret true
  else
    _ ← access (λ sd, sd ← (if position then linked_oldest else linked_newest) caller sd;
                      Some (sd, tt));
    _ ← Unlock;
    mret false.

(** [leaveListWith] up to its cleanup: whether the caller was still listed. *)
Definition leaveListed (caller : nat) : M bool :=
  _ ← Lock;
  listed ← access (λ sd, b ← read (Some caller) w_listed sd; Some (sd, b));
  if negb listed then
    _ ← Unlock;
    _ ← receiveToken caller;
    mret false
  else
    _ ← unlink (Some caller);
    _ ← forever (
      word ← loadWord;
      if parked word =? 0 then panic
      else
        swapped ← compareAndSwap word (word -64 oneParked);
        mret (if swapped : bool then Some tt else None));
    _ ← Unlock;
    mret true.

Definition setClosedLocked : M bool :=
  forever (
    word ← loadWord;
    if closed word then mret (Some false)
    else
      swapped ← compareAndSwap word (Z.lor word closedFlag);
      mret (if swapped : bool then Some true else None)).

(** One group is transferred by one compare-and-swap, then its tokens are sent. *)
Definition transferGroup (target : Z) : M Z :=
  forever (
    word ← loadWord;
    if (parked word =? 0) || (target <=? pollers word) then mret (Some 0)
    else if countMask <? target then panic
    else
      let count := Z.min (parked word) (target -32 pollers word) in
      if countMask -64 pollers word <? count then panic
      else
        swapped ← compareAndSwap word (word +64 count -64 u64 (count * oneParked));
        mret (if swapped : bool then Some count else None)).

Definition wakeGroup (target : Z) : M bool :=
  _ ← Lock;
  count ← transferGroup target;
  _ ← for_each (seqZ 0 count) (λ _, wakeNext);
  _ ← Unlock;
  mret (0 <? count).

(** ** Operations with a cleanup on the whole queue *)
Section cleanup.
Context {S : Type} (side : focus S waitSide).

Definition leavePollingWith (cleanup : Z → prog S bool) : prog S bool :=
  left ← zoom side dropPoller;
  cleanup left.

Definition leavePolling (peek : prog S bool) : prog S bool :=
  leavePollingWith (λ left,
    if needsWake left then
      found ← peek;
      if found : bool then zoom side wakeOne else mret false
    else mret false).

Definition leaveListWith (caller : nat) (movedItems : bool) (cleanup : Z → prog S bool)
    : prog S bool :=
  listed ← zoom side (leaveListed caller);
  if listed : bool then
    if movedItems then word ← zoom side loadWord; cleanup word
    else mret false
  else leavePollingWith cleanup.

Definition leaveList (caller : nat) (movedItems : bool) (peek : prog S bool) : prog S bool :=
  leaveListWith caller movedItems (λ word,
    if needsWake word then
      found ← peek;
      if found : bool then zoom side wakeOne else mret false
    else mret false).
End cleanup.

(** ** The word as counts *)

Definition bit (b : bool) : Z := if b then 1 else 0.

(** [p] pollers, [q] parked callers, and whether the side is closed. *)
Definition side_word (p q : Z) (c : bool) : Z := p + q * 2 ^ 32 + bit c * 2 ^ 63.
Definition is_count (n : Z) : Prop := 0 <= n < 2 ^ 31.

Section words.
Implicit Types (p q : Z) (c : bool).

Lemma word_range p q c : is_count p → is_count q → is_u64 (side_word p q c).
Proof. unfold is_count, is_u64, side_word, bit. destruct c; lia. Qed.

Lemma pollers_word p q c : is_count p → is_count q → pollers (side_word p q c) = p.
Proof.
  unfold is_count. intros Hp Hq. unfold pollers. change countMask with (Z.ones 31).
  rewrite Z.land_ones by lia. unfold side_word, bit.
  replace (_ mod 2 ^ 31) with p; [apply u32_small; unfold is_u32; lia|].
  destruct c; Z.div_mod_to_equations; lia.
Qed.

Lemma parked_word p q c : is_count p → is_count q → parked (side_word p q c) = q.
Proof.
  unfold is_count. intros Hp Hq. unfold parked. change countMask with (Z.ones 31).
  rewrite Z.land_ones, Z.shiftr_div_pow2 by lia. unfold side_word, bit.
  replace (_ mod 2 ^ 31) with q; [apply u32_small; unfold is_u32; lia|].
  destruct c; Z.div_mod_to_equations; lia.
Qed.

Lemma land_top w b : 0 <= w < 2 ^ 63 → Z.land (w + bit b * 2 ^ 63) closedFlag = bit b * 2 ^ 63.
Proof.
  intros Hw. change closedFlag with (2 ^ 63). apply Z.bits_inj'. intros n Hn.
  rewrite Z.land_spec, Z.pow2_bits_eqb by lia.
  destruct (Z.eqb_spec 63 n) as [<-|Hne].
  - rewrite andb_true_r, Z.testbit_odd, Z.shiftr_div_pow2, Z.div_add, Z.div_small by lia.
    rewrite Z.mul_pow2_bits by lia. by destruct b.
  - rewrite andb_false_r. destruct b; simpl bit; rewrite ?Z.mul_1_l, ?Z.mul_0_l, ?Z.bits_0; [|done].
    rewrite Z.pow2_bits_eqb by lia. by destruct (Z.eqb_spec 63 n).
Qed.

Lemma closed_word p q c : is_count p → is_count q → closed (side_word p q c) = c.
Proof.
  unfold is_count. intros Hp Hq. unfold closed, side_word. rewrite land_top by lia. by destruct c.
Qed.

Lemma close_word p q :
  is_count p → is_count q → Z.lor (side_word p q false) closedFlag = side_word p q true.
Proof.
  unfold is_count. intros Hp Hq. rewrite <- (Z.lxor_lor (side_word p q false) closedFlag).
  - rewrite <- Z.add_nocarry_lxor; [unfold side_word, bit; change closedFlag with (2 ^ 63); lia|].
    unfold side_word. rewrite (land_top _ false) by lia. done.
  - unfold side_word. rewrite (land_top _ false) by lia. done.
Qed.

Lemma needsWake_word p q c :
  is_count p → is_count q → needsWake (side_word p q c) = (p =? 0) && (0 <? q).
Proof. intros Hp Hq. unfold needsWake. by rewrite pollers_word, parked_word. Qed.

(** Moving counts between the fields. *)
Lemma word_moved x p q c : is_count p → is_count q → x = side_word p q c → u64 x = side_word p q c.
Proof. intros Hp Hq ->. apply u64_small. by apply word_range. Qed.

Lemma word_register p q c :
  is_count (p + 1) → is_count q → side_word p q c +64 onePoller = side_word (p + 1) q c.
Proof. intros. apply word_moved; [done..|]. unfold side_word, onePoller. lia. Qed.

Lemma word_drop p q c :
  is_count (p - 1) → is_count q → side_word p q c -64 onePoller = side_word (p - 1) q c.
Proof. intros. apply word_moved; [done..|]. unfold side_word, onePoller. lia. Qed.

Lemma word_unpark p q c :
  is_count p → is_count (q - 1) → side_word p q c -64 oneParked = side_word p (q - 1) c.
Proof. intros. apply word_moved; [done..|]. unfold side_word. change oneParked with (2 ^ 32). lia. Qed.

Lemma word_park p q c :
  is_count (p - 1) → is_count (q + 1) →
  side_word p q c -64 onePoller +64 oneParked = side_word (p - 1) (q + 1) c.
Proof.
  intros. unfold u64 at 2. unfold u64. rewrite Zplus_mod_idemp_l. apply word_moved; [done..|].
  unfold side_word, onePoller. change oneParked with (2 ^ 32). lia.
Qed.

Lemma word_wake k p q c :
  is_count (p + k) → is_count (q - k) →
  side_word p q c +64 k -64 u64 (k * oneParked) = side_word (p + k) (q - k) c.
Proof.
  intros. unfold u64. rewrite Zminus_mod_idemp_l, Zminus_mod_idemp_r. apply word_moved; [done..|].
  unfold side_word. change oneParked with (2 ^ 32). lia.
Qed.
End words.

#[export] Hint Rewrite pollers_word parked_word closed_word needsWake_word using (unfold is_count; lia) : side.

(** ** The list

    [dll sd ws]: the list links the waiters [ws], oldest first, each listed and without a token. *)
Definition entry_in (l1 l2 : list nat) : waiter := Waiter false (last l1) (head l2) true.

Record dll (sd : waitSide) (ws : list nat) : Prop := {
  dll_oldest : s_oldest sd = head ws;
  dll_newest : s_newest sd = last ws;
  dll_nodup : NoDup ws;
  dll_entry l1 w l2 : ws = l1 ++ w :: l2 → waiters sd !! w = Some (entry_in l1 l2);
}.

(** A waiter ready for reuse. *)
Definition clean : waiter := Waiter false None None false.

(** What an operation on the list leaves of the side. *)
Definition list_only (sd sd' : waitSide) : Prop :=
  s_word sd' = s_word sd ∧ s_mu sd' = s_mu sd ∧ s_pool sd' = s_pool sd.

#[export] Instance list_only_preorder : PreOrder list_only.
Proof. split; [done|]. intros a b d (? & ? & ?) (? & ? & ?). unfold list_only. split_and!; congruence. Qed.

Lemma app_cons_split {A} (a b l1 l2 : list A) x :
  a ++ x :: b = l1 ++ l2 →
  (∃ b1, l1 = a ++ x :: b1 ∧ b = b1 ++ l2) ∨ (∃ a2, a = l1 ++ a2 ∧ l2 = a2 ++ x :: b).
Proof.
  intros H. apply app_eq_inv in H as [(k & H1 & H2)|(k & H1 & H2)].
  - right. eauto.
  - destruct k as [|y k]; simplify_eq/=;
      [right; exists []; by rewrite !app_nil_r|left; eauto].
Qed.

(** Writing one waiter. *)
Lemma write_Some p f sd w :
  waiters sd !! p = Some w → write (Some p) f sd = Some (set_waiters (<[p := f w]> (waiters sd)) sd).
Proof. intros H. unfold write. simpl. by rewrite H. Qed.

Lemma read_Some {B} p (f : waiter → B) sd w :
  waiters sd !! p = Some w → read (Some p) f sd = Some (f w).
Proof. intros H. unfold read. simpl. by rewrite H. Qed.

(** The memory after unlinking [w] from between [l1] and [l2]. *)
Definition unlinked_heap (l1 l2 : list nat) (w : nat) (h : gmap nat waiter) (x : nat) : option waiter :=
  if decide (x = w) then Some clean
  else if decide (last l1 = Some x) then with_next (head l2) <$> h !! x
  else if decide (head l2 = Some x) then with_prev (last l1) <$> h !! x
  else h !! x.

Lemma unlinked_eq sd l1 w l2 :
  waiters sd !! w = Some (entry_in l1 l2) → last l1 ≠ Some w → head l2 ≠ Some w →
  (∀ q, last l1 = Some q → is_Some (waiters sd !! q)) →
  (∀ r, head l2 = Some r → is_Some (waiters sd !! r)) →
  (∀ q, last l1 = Some q → head l2 ≠ Some q) →
  ∃ sd', unlinked (Some w) sd = Some sd' ∧ list_only sd sd' ∧
    s_oldest sd' = (if last l1 then s_oldest sd else head l2) ∧
    s_newest sd' = (if head l2 then s_newest sd else last l1) ∧
    ∀ x, waiters sd' !! x = unlinked_heap l1 l2 w (waiters sd) x.
Proof.
  intros Hw Hq Hr Hqs Hrs Hqr. unfold unlinked. rewrite !(read_Some w _ _ _ Hw).
  unfold unlinked_heap, entry_in in *. simpl.
  destruct (last l1) as [q|]; [destruct (Hqs q eq_refl) as [wq Hwq]|];
    (destruct (head l2) as [r|]; [destruct (Hrs r eq_refl) as [wr Hwr]|]);
    try assert (q ≠ w) by congruence; try assert (r ≠ w) by congruence;
    try assert (r ≠ q) by (pose proof (Hqr q eq_refl); congruence);
    unfold write, read; repeat (progress (simplify_map_eq; simpl));
    eexists; (split; [done|]); (split_and!; [done..|]); intros x; simpl;
    repeat case_decide; by simplify_map_eq.
Qed.

Lemma unlinked_mid sd l1 w l2 :
  dll sd (l1 ++ w :: l2) →
  ∃ sd', unlinked (Some w) sd = Some sd' ∧ dll sd' (l1 ++ l2) ∧ list_only sd sd' ∧
    waiters sd' !! w = Some clean ∧
    ∀ q, q ∉ l1 ++ w :: l2 → waiters sd' !! q = waiters sd !! q.
Proof.
  intros [Ho Hn Hnd He]. pose proof (He l1 w l2 eq_refl) as Hw.
  pose proof Hnd as (Hnd1 & Hdis & [Hw2 Hnd2]%NoDup_cons)%NoDup_app.
  assert (w ∉ l1) as Hw1 by (intros ?; apply (Hdis w); [done|by left]).
  assert (∀ x, x ∈ l1 ++ w :: l2 → is_Some (waiters sd !! x)) as Hall.
  { intros x (a & b & Hab)%list_elem_of_split. by rewrite (He a x b Hab). }
  destruct (unlinked_eq sd l1 w l2 Hw) as (sd' & Hun & Hlo & Ho' & Hn' & Hheap).
  { intros [k ->]%last_Some. apply Hw1. apply elem_of_app. right. by left. }
  { destruct l2; [done|]. intros [= ->]. apply Hw2. by left. }
  { intros q [k ->]%last_Some. apply Hall. set_solver. }
  { intros r Hr. destruct l2; [done|]. simplify_eq/=. apply Hall. set_solver. }
  { intros q [k ->]%last_Some. destruct l2; [done|]. intros [= ->]. apply (Hdis q); set_solver. }
  exists sd'. split; [done|]. split; [|split; [done|split]].
  - constructor.
    + rewrite Ho', Ho. destruct l1 as [|y l1]; [done|]. by destruct (last (y :: l1)) eqn:E; [|apply last_None in E].
    + rewrite Hn', Hn. destruct l2 as [|y l2]; simpl; [by rewrite app_nil_r|].
      by rewrite !last_app_cons, last_cons_cons.
    + apply NoDup_app. split_and!; [done| |done]. intros x Hx Hx2. apply (Hdis x Hx). by right.
    + intros a x b Hab. rewrite Hheap. unfold unlinked_heap.
      assert (x ≠ w) as Hxw.
      { intros ->. assert (w ∈ l1 ++ l2) as [?|?]%elem_of_app; [|done..].
        rewrite Hab. apply elem_of_app. right. by left. }
      rewrite decide_False by done.
      destruct (app_cons_split a b l1 l2 x) as [(b1 & -> & ->)|(a2 & -> & ->)]; [done|..].
      * rewrite (He a x (b1 ++ w :: l2)) by (by rewrite <- app_assoc).
        assert (x ∉ l2) as Hx2.
        { intros Hx. apply (Hdis x); [apply elem_of_app; right; by left|by right]. }
        apply NoDup_app in Hnd1 as (_ & _ & [Hx1 _]%NoDup_cons).
        rewrite last_app_cons, last_cons. destruct b1 as [|y b1].
        { by rewrite decide_True. }
        destruct (last (y :: b1)) as [z|] eqn:Hz; [|by apply last_None in Hz].
        apply last_Some_elem_of in Hz. rewrite decide_False by (intros [= ->]; done).
        rewrite decide_False; [done|]. intros Hh. destruct l2; simplify_eq/=. apply Hx2. by left.
      * rewrite (He (l1 ++ w :: a2) x b) by (by rewrite <- app_assoc).
        rewrite decide_False.
        2: { intros Hx%last_Some_elem_of. apply (Hdis x Hx). right. apply elem_of_app. right. by left. }
        destruct a2 as [|y a2]; simpl.
        { rewrite decide_True by done. by rewrite app_nil_r. }
        rewrite decide_False.
        2: { intros [= ->]. apply NoDup_cons in Hnd2 as [Hy _]. apply Hy, elem_of_app. right. by left. }
        unfold entry_in. by rewrite !last_app_cons, last_cons_cons.
  - rewrite Hheap. unfold unlinked_heap. by rewrite decide_True.
  - intros q Hq. rewrite Hheap. unfold unlinked_heap.
    rewrite !decide_False; [done|destruct l2; set_solver|intros ?%last_Some_elem_of; set_solver|set_solver].
Qed.

(** Linking a clean waiter at either end. *)
Lemma linked_oldest_ok sd ws w :
  dll sd ws → waiters sd !! w = Some clean →
  ∃ sd', linked_oldest w sd = Some sd' ∧ dll sd' (w :: ws) ∧ list_only sd sd' ∧
    ∀ q, q ∉ w :: ws → waiters sd' !! q = waiters sd !! q.
Proof.
  intros [Ho Hn Hnd He] Hw.
  assert (∀ x, x ∈ ws → is_Some (waiters sd !! x) ∧ x ≠ w) as Hall.
  { intros x (a & b & Hab)%list_elem_of_split. rewrite (He a x b Hab). split; [done|].
    intros ->. rewrite (He a w b Hab) in Hw. done. }
  assert (w ∉ ws) as Hnw by (intros Hin; by apply (Hall w)).
  unfold linked_oldest. rewrite (write_Some w _ _ _ Hw). simpl. rewrite Ho. destruct ws as [|r ws].
  - simpl. unfold write. simplify_map_eq. eexists. split; [done|]. split_and!; [|done|].
    + constructor; simpl; [done..|by apply NoDup_singleton|]. intros a x b Hab.
      destruct a as [|? [|? ?]]; simplify_eq/=. by simplify_map_eq.
    + intros q Hq. simpl. assert (q ≠ w) by set_solver. by simplify_map_eq.
  - destruct (Hall r ltac:(by left)) as [[wr Hr] Hne].
    unfold write. simpl. simplify_map_eq. eexists. split; [done|]. split_and!; [|done|].
    + constructor; simpl; [done|by rewrite Hn|by constructor|]. intros a x b Hab.
      destruct a as [|w' a]; [simplify_eq/=; by simplify_map_eq|]. injection Hab as <- Hab.
      assert (x ≠ w) by (apply Hall; rewrite Hab; apply elem_of_app; right; by left).
      rewrite lookup_insert_ne by done. destruct a as [|y a].
      * injection Hab as <- <-. rewrite (He [] r ws eq_refl) in Hr. by simplify_map_eq.
      * injection Hab as <- Hab. rewrite lookup_insert_ne.
        -- rewrite lookup_insert_ne by done. rewrite (He (r :: a) x b) by (by rewrite Hab). unfold entry_in. by rewrite last_cons_cons.
        -- intros ->. apply NoDup_cons in Hnd as [Hy _]. apply Hy. rewrite Hab.
           apply elem_of_app; right; by left.
    + intros q Hq. simpl. assert (q ≠ w ∧ q ≠ r) as [? ?] by set_solver. by simplify_map_eq.
Qed.

Lemma linked_newest_ok sd ws w :
  dll sd ws → waiters sd !! w = Some clean →
  ∃ sd', linked_newest w sd = Some sd' ∧ dll sd' (ws ++ [w]) ∧ list_only sd sd' ∧
    ∀ q, q ∉ ws ++ [w] → waiters sd' !! q = waiters sd !! q.
Proof.
  intros [Ho Hn Hnd He] Hw.
  assert (∀ x, x ∈ ws → is_Some (waiters sd !! x) ∧ x ≠ w) as Hall.
  { intros x (a & b & Hab)%list_elem_of_split. rewrite (He a x b Hab). split; [done|].
    intros ->. rewrite (He a w b Hab) in Hw. done. }
  unfold linked_newest. rewrite (write_Some w _ _ _ Hw). simpl. rewrite Hn.
  destruct ws as [|q ws _] using rev_ind.
  - simpl. unfold write. simplify_map_eq. eexists. split; [done|]. split_and!; [|done|].
    + constructor; simpl; [done..|by apply NoDup_singleton|]. intros a x b Hab.
      destruct a as [|? [|? ?]]; simplify_eq/=. by simplify_map_eq.
    + intros q Hq. simpl. assert (q ≠ w) by set_solver. by simplify_map_eq.
  - destruct (Hall q ltac:(set_solver)) as [[wq Hq] Hne]. rewrite last_snoc.
    unfold write. simpl. simplify_map_eq. eexists. split; [done|]. split_and!; [|done|].
    + constructor; simpl.
      * rewrite Ho. by destruct ws.
      * by rewrite last_snoc.
      * apply NoDup_app. split_and!; [done| |by apply NoDup_singleton]. intros x Hx%Hall. set_solver.
      * intros a x b Hab. destruct (app_cons_split a b (ws ++ [q]) [w] x) as [(b1 & Hb1 & ->)|(a2 & -> & Ha2)]; [done|..].
        -- assert (x ≠ w) by (apply Hall; rewrite Hb1; set_solver). simplify_map_eq.
           destruct b1 as [|y b1 _] using rev_ind.
           ++ apply app_inj_tail in Hb1 as [-> ->]. rewrite (He a x [] eq_refl) in Hq.
              by simplify_map_eq.
           ++ rewrite app_comm_cons, app_assoc in Hb1. apply app_inj_tail in Hb1 as [-> ->].
              assert (x ≠ y) by (apply NoDup_app in Hnd as (_ & Hd & _); intros ->; apply (Hd y); set_solver).
              simplify_map_eq. rewrite (He a x (b1 ++ [y])) by (by rewrite <- app_assoc).
              unfold entry_in. by destruct b1.
        -- destruct a2 as [|? [|? ?]]; simplify_eq/=. rewrite app_nil_r. simplify_map_eq.
           unfold entry_in. by rewrite last_snoc.
    + intros x Hx. simpl. assert (x ≠ w ∧ x ≠ q) as [? ?] by set_solver. by simplify_map_eq.
Qed.
(** ** A side at rest

    [side_at sd p ws c]: [p] registered pollers, the waiters [ws] parked, oldest first, and closed
    or not; nobody holds the mutex. *)
Definition clean_pool (sd : waitSide) (ws : list nat) : Prop :=
  NoDup (s_pool sd) ∧ ∀ w, w ∈ s_pool sd → waiters sd !! w = Some clean.

Record side_at (sd : waitSide) (p : Z) (ws : list nat) (c : bool) : Prop := {
  at_word : s_word sd = side_word p (len ws) c;
  at_mu : s_mu sd = false;
  at_list : dll sd ws;
  at_pool : clean_pool sd ws;
  at_counts : is_count p ∧ is_count (len ws);
}.

(** A waiter that was chosen: unlisted, with its token. *)
Definition chosen : waiter := Waiter true None None false.

(** The side after the [k] oldest waiters were woken. *)
Definition woke (sd : waitSide) (p : Z) (ws : list nat) (c : bool) (k : Z) (sd' : waitSide) : Prop :=
  side_at sd' (p + k) (drop (Z.to_nat k) ws) c ∧
  (∀ w, w ∈ take (Z.to_nat k) ws → waiters sd' !! w = Some chosen) ∧
  (∀ q, q ∉ ws → waiters sd' !! q = waiters sd !! q) ∧
  s_pool sd' = s_pool sd ∧ 0 <= k <= len ws.

(** What an operation on the counts leaves of the side. *)
Definition count_only (sd sd' : waitSide) : Prop :=
  waiters sd' = waiters sd ∧ s_pool sd' = s_pool sd.

Section at_rest.
Implicit Types (sd : waitSide) (ws : list nat) (p : Z) (c : bool).

Lemma dll_frame sd sd' ws :
  dll sd ws → s_oldest sd' = s_oldest sd → s_newest sd' = s_newest sd →
  (∀ w, w ∈ ws → waiters sd' !! w = waiters sd !! w) → dll sd' ws.
Proof.
  intros [Ho Hn Hnd He] Ho' Hn' Hh. constructor; [by rewrite Ho'|by rewrite Hn'|done|].
  intros l1 w l2 Hw. rewrite Hh by (rewrite Hw; apply elem_of_app; right; by left). by apply He.
Qed.

Lemma dll_word sd x ws : dll sd ws → dll (set_word x sd) ws.
Proof. intros Hd. by eapply dll_frame. Qed.

Lemma dll_mu sd b ws : dll sd ws → dll (set_mu b sd) ws.
Proof. intros Hd. by eapply dll_frame. Qed.

Lemma dll_elem sd ws w : dll sd ws → w ∈ ws → ∃ e, waiters sd !! w = Some e ∧ w_listed e = true.
Proof. intros Hd (a & b & Hab)%list_elem_of_split. eexists. by split; [apply (dll_entry _ _ Hd a w b)|]. Qed.

(** Pooled waiters are unlisted, so they are none of the parked ones. *)
Lemma pool_unlisted sd ws w : dll sd ws → waiters sd !! w = Some clean → w ∉ ws.
Proof. intros Hd Hw Hin. destruct (dll_elem sd ws w Hd Hin) as (e & He & Hl). by simplify_eq. Qed.

Lemma ends_Lock sd (Q : unit → waitSide → Prop) :
  s_mu sd = false → Q tt (set_mu true sd) → ends Lock sd Q.
Proof.
  intros Hmu HQ. apply ends_await; rewrite Hmu; [done|]. by intros sd' b [= -> ->]%list_elem_of_singleton.
Qed.

Lemma ends_Unlock sd (Q : unit → waitSide → Prop) :
  s_mu sd = true → Q tt (set_mu false sd) → ends Unlock sd Q.
Proof. intros Hmu HQ. eapply ends_access; [by rewrite Hmu|done]. Qed.

(** A word with the given counts, read and swapped. *)
Lemma ends_word_loop {B} (body : Z → prog waitSide (option B)) sd (Q : B → waitSide → Prop) :
  ends (body (s_word sd)) sd (λ r sd', ∃ b, r = Some b ∧ Q b sd') →
  ends (forever (word ← loadWord; body word)) sd Q.
Proof. intros H. by apply ends_forever, ends_bind, ends_Load. Qed.

Lemma ends_swap sd new (Q : bool → waitSide → Prop) :
  Q true (set_word new sd) → ends (compareAndSwap (s_word sd) new) sd Q.
Proof. intros HQ. by apply ends_CompareAndSwap. Qed.

Lemma register_at sd p ws c :
  side_at sd p ws c → (c = false → is_count (p + 1)) →
  ends register sd (λ b sd', b = c ∧ side_at sd' (if c then p else p + 1) ws c ∧
    count_only sd sd').
Proof.
  intros [Hw Hmu Hl Hp [Hcp Hcq]] Hp1. apply ends_word_loop. rewrite Hw, closed_word by done.
  destruct c.
  - apply ends_ret. eexists. by split_and!.
  - specialize (Hp1 eq_refl). apply ends_bind. rewrite <- Hw. apply ends_swap, ends_ret. eexists.
    split_and!; [done..| |done]. constructor; try done; [|by apply dll_word]. simpl.
    by rewrite Hw, word_register.
Qed.

(** Removing the oldest waiter and sending it a token, under the mutex. *)
Lemma wakeStep_at sd w ws (Q : unit → waitSide → Prop) :
  dll sd (w :: ws) →
  (∀ sd', dll sd' ws → list_only sd sd' → waiters sd' !! w = Some chosen →
     (∀ q, q ∉ w :: ws → waiters sd' !! q = waiters sd !! q) → Q tt sd') →
  ends wakeNext sd Q.
Proof.
  intros Hd HQ. destruct (unlinked_mid sd [] w ws Hd) as (sd1 & Hun & Hd1 & Hlo & Hw & Hf).
  apply ends_bind. unfold removeForWake. apply ends_bind, ends_load. rewrite (dll_oldest _ _ Hd).
  change (head (w :: ws)) with (Some w). apply ends_bind. eapply ends_access; [by rewrite Hun|]. apply ends_ret.
  eapply ends_access.
  { by rewrite (read_Some w _ _ _ Hw), (write_Some w _ _ _ Hw). }
  pose proof (pool_unlisted _ _ _ Hd1 Hw). apply HQ.
  - eapply dll_frame; [exact Hd1|done..|]. intros q Hq. simpl. rewrite lookup_insert_ne; [done|].
    by intros ->.
  - done.
  - simpl. by rewrite lookup_insert_eq.
  - intros q Hq. simpl. rewrite lookup_insert_ne by (intros ->; apply Hq; by left). by apply Hf.
Qed.

(** Waking the [k] oldest: the counts are moved, then the waiters are removed and get their
    tokens. *)
Lemma woke_intro sd sd' p ws c (k : nat) :
  side_at sd p ws c → (k <= length ws)%nat → is_count (p + Z.of_nat k) →
  s_word sd' = side_word (p + Z.of_nat k) (len ws - Z.of_nat k) c → s_pool sd' = s_pool sd →
  dll sd' (drop k ws) → (∀ w, w ∈ take k ws → waiters sd' !! w = Some chosen) →
  (∀ q, q ∉ ws → waiters sd' !! q = waiters sd !! q) →
  woke sd p ws c (Z.of_nat k) (set_mu false sd').
Proof.
  intros [Hw Hmu Hl [Hnd Hp] [Hcp Hcq]] Hk Hpk Hw' Hpool Hd Hc Hf. unfold woke. rewrite Nat2Z.id.
  assert (0 <= Z.of_nat k <= len ws) by (unfold len; lia).
  split_and!; [|done..|lia|lia]. constructor; try done.
  - simpl. rewrite Hw'. f_equal. unfold len. rewrite length_drop. lia.
  - by apply dll_mu.
  - unfold clean_pool. simpl. rewrite Hpool. split; [done|]. intros w Hin. rewrite Hf; [by apply Hp|].
    by eapply pool_unlisted; [|apply Hp].
  - split; [done|]. unfold is_count, len in *. rewrite length_drop. lia.
Qed.

Lemma sends_at sd (ks : list Z) ws :
  dll sd ws → (length ks <= length ws)%nat →
  ends (for_each ks (λ _, wakeNext)) sd (λ _ sd',
    dll sd' (drop (length ks) ws) ∧ list_only sd sd' ∧
    (∀ w, w ∈ take (length ks) ws → waiters sd' !! w = Some chosen) ∧
    (∀ q, q ∉ ws → waiters sd' !! q = waiters sd !! q)).
Proof.
  intros Hd Hk. pose proof (dll_nodup _ _ Hd) as Hnd.
  eapply ends_mono; [apply (ends_for_each ks _ (λ done sd',
    dll sd' (drop (length done) ws) ∧ list_only sd sd' ∧
    (∀ w, w ∈ take (length done) ws → waiters sd' !! w = Some chosen) ∧
    (∀ q, q ∉ ws → waiters sd' !! q = waiters sd !! q)))|].
  - split_and!; [done..| |done]. intros w Hw. by apply elem_of_nil in Hw.
  - intros done x rest sd1 -> (Hd1 & Hlo1 & Hc1 & Hf1). rewrite length_app in Hk. simpl in Hk.
    destruct (drop (length done) ws) as [|w ws'] eqn:Hdrop.
    { apply (f_equal length) in Hdrop. rewrite length_drop in Hdrop. simpl in Hdrop. lia. }
    assert (ws = take (length done) ws ++ w :: ws') as Hsplit by (by rewrite <- Hdrop, take_drop).
    assert (drop (length done + 1) ws = ws') as Hd2.
    { rewrite <- drop_drop, Hdrop. done. }
    assert (take (length done + 1) ws = take (length done) ws ++ [w]) as Ht2.
    { rewrite Nat.add_1_r. apply take_S_r. rewrite <- (Nat.add_0_r (length done)), <- lookup_drop, Hdrop.
      done. }
    apply (wakeStep_at sd1 w ws'); [done|]. intros sd2 Hd3 Hlo2 Hw2 Hf2.
    rewrite length_app. simpl. rewrite Hd2, Ht2. split_and!; [done|by trans sd1|..].
    + intros w' [Hin|Hin%list_elem_of_singleton]%elem_of_app; [|by subst].
      rewrite Hf2; [by apply Hc1|]. intros Hin2. rewrite Hsplit in Hnd.
      apply NoDup_app in Hnd as (_ & Hdis & _). by apply (Hdis w').
    + intros q Hq. rewrite Hf2; [by apply Hf1|]. intros Hin. apply Hq. rewrite Hsplit.
      apply elem_of_app. by right.
  - done.
Qed.

Lemma wakeOne_at sd p ws c :
  side_at sd p ws c →
  ends wakeOne sd (λ b sd', b = (p =? 0) && (0 <? len ws) ∧ woke sd p ws c (bit b) sd').
Proof.
  intros Hs. pose proof Hs as [Hw Hmu Hl Hp [Hcp Hcq]].
  unfold wakeOne. apply ends_bind, ends_Lock; [done|]. apply ends_bind, ends_word_loop.
  change (s_word (set_mu true sd)) with (s_word sd). rewrite Hw, needsWake_word by done.
  set (need := (p =? 0) && (0 <? len ws)). destruct need eqn:Hneed; cbn [negb].
  - apply andb_true_iff in Hneed as [->%Z.eqb_eq Hpos%Z.ltb_lt]. destruct ws as [|w ws]; [done|].
    apply ends_bind. rewrite <- Hw. change (s_word sd) with (s_word (set_mu true sd)) at 1.
    apply ends_swap. rewrite Hw. change oneParked with (u64 (1 * oneParked)). change onePoller with 1.
    assert (0 <= len ws ∧ len (w :: ws) = 1 + len ws) as [? Hlen].
    { split; [apply len_nonneg|]. unfold len. simpl. lia. }
    rewrite word_wake by (unfold is_count in *; lia).
    apply ends_bind, (wakeStep_at _ w ws); [by apply dll_word, dll_mu|].
    intros sd' Hd' (Hw' & Hmu' & Hpool') Hch Hf. apply ends_ret. eexists. split; [done|].
    apply ends_bind, ends_Unlock; [done|]. apply ends_ret. split; [done|].
    apply (woke_intro sd sd' 0 (w :: ws) c 1); try done; [simpl; lia|].
    intros w' ->%list_elem_of_singleton. done.
  - apply ends_ret. eexists. split; [done|]. apply ends_bind, ends_Unlock; [done|]. apply ends_ret.
    split; [done|]. apply (woke_intro sd _ p ws c 0); rewrite ?Z.add_0_r, ?Z.sub_0_r; try done;
      [lia|by apply dll_mu|by intros w ?%elem_of_nil].
Qed.

(** How many waiters a group wake takes. *)
Definition group_size (target p : Z) (ws : list nat) : Z :=
  if target <=? p then 0 else Z.min (len ws) (target - p).

Lemma wakeGroup_at sd p ws c target :
  side_at sd p ws c → 0 <= target <= countMask →
  ends (wakeGroup target) sd (λ b sd', let k := group_size target p ws in
    b = (0 <? k) ∧ woke sd p ws c k sd').
Proof.
  intros Hs Ht. pose proof Hs as [Hw Hmu Hl Hp [Hcp Hcq]]. change countMask with (2 ^ 31 - 1) in *.
  pose proof (len_nonneg ws). unfold is_count in Hcp, Hcq.
  unfold wakeGroup. apply ends_bind, ends_Lock; [done|]. apply ends_bind, ends_word_loop.
  change (s_word (set_mu true sd)) with (s_word sd). rewrite Hw, parked_word, pollers_word by done.
  set (k := group_size target p ws). cbv zeta.
  assert (0 <= k <= len ws ∧ p + k < 2 ^ 31) as [Hk Hpk].
  { unfold k, group_size. destruct (Z.leb_spec target p); lia. }
  assert (∀ sd1, s_word sd1 = side_word (p + k) (len ws - k) c → s_mu sd1 = true →
    s_pool sd1 = s_pool sd → dll sd1 ws → waiters sd1 = waiters sd →
    ends (_ ← for_each (seqZ 0 k) (λ _, wakeNext); _ ← Unlock; mret (0 <? k)) sd1
      (λ b sd', b = (0 <? k) ∧ woke sd p ws c k sd')) as Hsend.
  { intros sd1 Hw1 Hmu1 Hpool1 Hd1 Hh1. apply ends_bind.
    eapply ends_mono; [apply (sends_at sd1 (seqZ 0 k) ws); [done|]|].
    { rewrite length_seqZ. unfold len in *. lia. }
    rewrite length_seqZ. intros _ sd2 (Hd2 & (Hw2 & Hmu2 & Hpool2) & Hc2 & Hf2).
    apply ends_bind, ends_Unlock; [congruence|]. apply ends_ret. split; [done|].
    rewrite <- (Z2Nat.id k) by lia. apply woke_intro; try done; try rewrite Z2Nat.id by lia.
    - unfold len in *. lia.
    - unfold is_count. lia.
    - congruence.
    - congruence.
    - intros q Hq. rewrite Hf2 by done. by rewrite Hh1. }
  destruct (Z.eqb_spec (len ws) 0) as [Hz|Hz]; [|destruct (Z.leb_spec target p) as [Hle|Hgt]]; cbn [orb].
  - assert (k = 0) as Hk0 by lia. apply ends_ret. eexists. split; [done|]. rewrite Hk0 in *.
    apply Hsend; try done; [|by apply dll_mu]. simpl. by rewrite Z.add_0_r, Z.sub_0_r.
  - assert (k = 0) as Hk0. { unfold k, group_size. by rewrite (proj2 (Z.leb_le _ _)). }
    apply ends_ret. eexists. split; [done|]. rewrite Hk0 in *.
    apply Hsend; try done; [|by apply dll_mu]. simpl. by rewrite Z.add_0_r, Z.sub_0_r.
  - change countMask with (2 ^ 31 - 1). rewrite (proj2 (Z.ltb_ge _ _)) by lia.
    assert (Z.min (len ws) (target -32 p) = k) as ->.
    { unfold k, group_size. rewrite (proj2 (Z.leb_gt _ _)), u32_small by (unfold is_u32; lia). done. }
    rewrite (u64_small (2 ^ 31 - 1 - p)) by (unfold is_u64; lia).
    rewrite (proj2 (Z.ltb_ge _ _)) by lia.
    apply ends_bind. rewrite <- Hw. change (s_word sd) with (s_word (set_mu true sd)) at 1.
    apply ends_swap. rewrite Hw, word_wake by (unfold is_count; lia). apply ends_ret. eexists.
    split; [done|]. apply Hsend; try done. by apply dll_word, dll_mu.
Qed.
Lemma dropPoller_at sd p ws c :
  side_at sd p ws c → 1 <= p →
  ends dropPoller sd (λ left sd', left = side_word (p - 1) (len ws) c ∧
    side_at sd' (p - 1) ws c ∧ count_only sd sd').
Proof.
  intros [Hw Hmu Hl Hp [Hcp Hcq]] Hp1. apply ends_word_loop. rewrite Hw, pollers_word by done.
  destruct (Z.eqb_spec p 0); [lia|]. assert (is_count (p - 1)) by (unfold is_count in *; lia).
  rewrite word_drop by done. cbv zeta. apply ends_bind. rewrite <- Hw. apply ends_swap, ends_ret.
  eexists. split_and!; [done..| |done]. constructor; try done. by apply dll_word.
Qed.

Lemma enlist_at sd p ws c caller position :
  side_at sd p ws c → 1 <= p → is_count (len ws + 1) →
  waiters sd !! caller = Some clean → caller ∉ s_pool sd →
  ends (enlist caller position) sd (λ b sd', b = c ∧
    if c then side_at sd' p ws c ∧ count_only sd sd'
    else side_at sd' (p - 1) (if position : bool then caller :: ws else ws ++ [caller]) c ∧
      (∀ q, q ∉ caller :: ws → waiters sd' !! q = waiters sd !! q) ∧ s_pool sd' = s_pool sd).
Proof.
  intros [Hw Hmu Hl Hp [Hcp Hcq]] Hp1 Hq1 Hclean Hpool. unfold enlist.
  apply ends_bind, ends_Lock; [done|]. apply ends_bind, ends_word_loop.
  change (s_word (set_mu true sd)) with (s_word sd). rewrite Hw, closed_word, pollers_word by done.
  destruct c.
  { apply ends_ret. eexists. split; [done|]. apply ends_bind, ends_Unlock; [done|]. apply ends_ret.
    split_and!; [done| |done]. constructor; try done. by apply dll_mu, dll_mu. }
  destruct (Z.eqb_spec p 0); [lia|]. assert (is_count (p - 1)) by (unfold is_count in *; lia).
  rewrite word_park by done. apply ends_bind. rewrite <- Hw.
  change (s_word sd) with (s_word (set_mu true sd)). apply ends_swap, ends_ret.
  eexists. split; [done|]. set (sd1 := set_word _ _). apply ends_bind.
  assert (dll sd1 ws) as Hd1 by (by apply dll_word, dll_mu).
  set (ws' := if position : bool then caller :: ws else ws ++ [caller]).
  assert (∃ sd2, (if position then linked_oldest else linked_newest) caller sd1 = Some sd2 ∧
    dll sd2 ws' ∧ list_only sd1 sd2 ∧ ∀ q, q ∉ caller :: ws → waiters sd2 !! q = waiters sd !! q)
    as (sd2 & Hlink & Hd2 & (Hw2 & Hmu2 & Hpool2) & Hf2).
  { destruct position.
    - destruct (linked_oldest_ok sd1 ws caller Hd1 Hclean) as (sd2 & ? & ? & ? & ?). by exists sd2.
    - destruct (linked_newest_ok sd1 ws caller Hd1 Hclean) as (sd2 & ? & ? & ? & Hf). exists sd2.
      split_and!; [done..|]. intros q Hq. apply Hf. intros [?|?%list_elem_of_singleton]%elem_of_app;
        apply Hq; [by right|subst; by left]. }
  eapply ends_access; [by rewrite Hlink|]. apply ends_bind, ends_Unlock; [done|]. apply ends_ret.
  assert (len ws' = len ws + 1) as Hlen.
  { unfold ws', len. destruct position; rewrite ?length_app; simpl; lia. }
  split_and!; [done| |exact Hf2|exact Hpool2]. constructor; try done.
  - simpl. rewrite Hw2, Hlen. done.
  - by apply dll_mu.
  - destruct Hp as [Hnd Hp]. unfold clean_pool. simpl. rewrite Hpool2. split; [done|]. intros w Hin.
    rewrite Hf2; [by apply Hp|]. intros [->|Hws]%elem_of_cons; [done|].
    by apply (pool_unlisted sd ws w); [..|apply Hp|].
  - by rewrite Hlen.
Qed.

(** A caller still in the list leaves it; a chosen one takes its token. *)
Lemma leaveListed_listed sd p l1 caller l2 c :
  side_at sd p (l1 ++ caller :: l2) c →
  ends (leaveListed caller) sd (λ b sd', b = true ∧ side_at sd' p (l1 ++ l2) c ∧
    waiters sd' !! caller = Some clean ∧
    (∀ q, q ∉ l1 ++ caller :: l2 → waiters sd' !! q = waiters sd !! q) ∧ s_pool sd' = s_pool sd).
Proof.
  intros [Hw Hmu Hl [Hnd Hp] [Hcp Hcq]]. unfold leaveListed.
  set (ws := l1 ++ caller :: l2) in *. assert (len ws = len (l1 ++ l2) + 1) as Hlen.
  { unfold ws, len. rewrite !length_app. simpl. lia. }
  apply ends_bind, ends_Lock; [done|]. assert (dll (set_mu true sd) ws) as Hd by (by apply dll_mu).
  apply ends_bind. eapply ends_access.
  { by rewrite (read_Some caller _ _ _ (dll_entry _ _ Hd l1 caller l2 eq_refl)). }
  cbn [entry_in w_listed negb]. destruct (unlinked_mid _ l1 caller l2 Hd) as (sd1 & Hun & Hd1 & (Hw1 & Hmu1 & Hpool1) & Hc1 & Hf1).
  apply ends_bind. eapply ends_access; [by rewrite Hun|]. simpl in Hw1.
  apply ends_bind, ends_word_loop. rewrite Hw1, Hw, parked_word by done.
  pose proof (len_nonneg (l1 ++ l2)). destruct (Z.eqb_spec (len ws) 0); [lia|].
  assert (is_count (len ws - 1)) by (unfold is_count in *; lia).
  rewrite word_unpark by done. apply ends_bind. rewrite <- Hw, <- Hw1. apply ends_swap, ends_ret.
  eexists. split; [done|]. apply ends_bind, ends_Unlock; [by simpl; rewrite Hmu1|]. apply ends_ret.
  split_and!; [done| |done|done|exact Hpool1]. constructor; try done.
  - simpl. f_equal. lia.
  - by apply dll_mu, dll_word.
  - unfold clean_pool. simpl. rewrite Hpool1. split; [done|]. intros w Hin. simpl in Hin.
    rewrite Hf1; [by apply Hp|]. by apply (pool_unlisted sd); [|apply Hp].
  - split; [done|]. unfold is_count in *. lia.
Qed.

Lemma leaveListed_chosen sd p ws caller c :
  side_at sd p ws c → waiters sd !! caller = Some chosen →
  ends (leaveListed caller) sd (λ b sd', b = false ∧ side_at sd' p ws c ∧
    waiters sd' = <[caller := clean]> (waiters sd) ∧ s_pool sd' = s_pool sd).
Proof.
  intros [Hw Hmu Hl [Hnd Hp] Hc] Hch. unfold leaveListed. apply ends_bind, ends_Lock; [done|].
  apply ends_bind. eapply ends_access; [by rewrite (read_Some caller _ (set_mu true sd) chosen)|].
  cbn [chosen w_listed negb]. apply ends_bind, ends_Unlock; [done|].
  apply ends_bind, ends_await; unfold takeToken;
    rewrite (read_Some caller _ _ chosen), (write_Some caller _ _ chosen) by done; [done|].
  intros sd' b [= -> ->]%list_elem_of_singleton. apply ends_ret. split_and!; [done| |done..].
  constructor; try done.
  - eapply dll_frame; [exact Hl|done..|]. intros w Hin. simpl. rewrite lookup_insert_ne; [done|].
    intros ->. destruct (dll_elem _ _ _ Hl Hin) as (e & He & Hli). by simplify_eq.
  - split; [done|]. simpl. intros w Hin. rewrite lookup_insert_ne; [by apply Hp|].
    intros ->. specialize (Hp w Hin). by simplify_eq.
Qed.

Lemma setClosedLocked_at sd p q c (Q : bool → waitSide → Prop) :
  s_word sd = side_word p q c → is_count p → is_count q →
  Q (negb c) (set_word (side_word p q true) sd) → ends setClosedLocked sd Q.
Proof.
  intros Hw Hp Hq HQ. apply ends_word_loop. rewrite Hw, closed_word by done. destruct c.
  - apply ends_ret. eexists. split; [done|]. rewrite <- Hw in HQ. by destruct sd.
  - apply ends_bind. rewrite close_word, <- Hw by done. apply ends_swap, ends_ret. by eexists.
Qed.

Lemma close_side sd p ws c :
  side_at sd p ws c →
  side_at (set_mu false (set_word (side_word p (len ws) true) (set_mu true sd))) p ws true.
Proof. intros [Hw Hmu Hl Hp Hc]. constructor; try done. by apply dll_mu, dll_word, dll_mu. Qed.

(** ** Waiters across operations

    What a whole call leaves of the waiters of others: those in [ws] may be woken or relinked, any
    other allocated one is as before, and the pool gains only waiters that were pooled before or
    are new. *)
Record kept (ws : list nat) (sd sd' : waitSide) : Prop := {
  kept_waiter q e : waiters sd !! q = Some e → q ∉ ws → waiters sd' !! q = Some e;
  kept_alloc q : is_Some (waiters sd !! q) → is_Some (waiters sd' !! q);
  kept_pool q : q ∈ s_pool sd' → q ∈ s_pool sd ∨ waiters sd !! q = None;
}.

Lemma kept_refl ws sd : kept ws sd sd.
Proof. split; auto. Qed.

Lemma kept_trans ws ws' sd1 sd2 sd3 :
  kept ws sd1 sd2 → kept ws' sd2 sd3 → ws' ⊆ ws → kept ws sd1 sd3.
Proof.
  intros [H1 A1 P1] [H2 A2 P2] Hsub. split; [|by eauto|].
  { intros q e He Hq. apply H2; [by apply H1|]. by intros ?%Hsub. }
  intros q [Hq|Hq]%P2; [by apply P1|].
  destruct (waiters sd1 !! q) as [e|] eqn:E; [|by right].
  destruct (A1 q) as [e' He']; [by rewrite E|]. by simplify_eq.
Qed.

Lemma kept_counts ws sd sd' : count_only sd sd' → kept ws sd sd'.
Proof. intros [Hh Hp]. split; rewrite ?Hh, ?Hp; auto. Qed.

(** The waiters [ws] of one side became [ws']: the oldest ones were woken. *)
Definition side_leaves (sd : waitSide) (ws : list nat) (sd' : waitSide) (ws' : list nat) : Prop :=
  kept ws sd sd' ∧
  ∃ woken, ws = woken ++ ws' ∧ ∀ x, x ∈ woken → waiters sd' !! x = Some chosen.

Lemma side_leaves_refl sd ws sd' : kept ws sd sd' → side_leaves sd ws sd' ws.
Proof. intros Hk. split; [done|]. exists []. split; [done|]. by intros x ?%elem_of_nil. Qed.

Lemma side_leaves_trans sd1 ws1 sd2 ws2 sd3 ws3 :
  NoDup ws1 → side_leaves sd1 ws1 sd2 ws2 → side_leaves sd2 ws2 sd3 ws3 →
  side_leaves sd1 ws1 sd3 ws3.
Proof.
  intros Hnd [K1 (w1 & -> & C1)] [K2 (w2 & -> & C2)].
  apply NoDup_app in Hnd as (_ & Hdis & _). split.
  - eapply kept_trans; [done..|]. intros x Hx. apply elem_of_app. by right.
  - exists (w1 ++ w2). split; [by rewrite app_assoc|]. intros x [Hx|Hx]%elem_of_app; [|by apply C2].
    apply (kept_waiter _ _ _ K2); [by apply C1|]. by apply Hdis.
Qed.

Lemma woke_leaves sd p ws c k sd' :
  side_at sd p ws c → woke sd p ws c k sd' → side_leaves sd ws sd' (drop (Z.to_nat k) ws).
Proof.
  intros Hs (Hs' & Hch & Hf & Hpool & Hk). split; [split|].
  - intros q e He Hq. by rewrite Hf.
  - intros q Hq. destruct (decide (q ∈ ws)) as [Hin|Hin]; [|by rewrite Hf].
    rewrite <- (take_drop (Z.to_nat k) ws) in Hin. apply elem_of_app in Hin as [Hin|Hin].
    + by rewrite Hch.
    + destruct (dll_elem _ _ _ (at_list _ _ _ _ Hs') Hin) as (e & He & _). by rewrite He.
  - intros q. rewrite Hpool. auto.
  - exists (take (Z.to_nat k) ws). by rewrite take_drop.
Qed.

(** A waiter for one park comes from the pool or is new, and goes back. *)
Lemma newWaiter_at sd p ws c :
  side_at sd p ws c →
  ends newWaiter sd (λ caller sd', side_at sd' p ws c ∧ waiters sd' !! caller = Some clean ∧
    caller ∉ s_pool sd' ∧ waiters sd !! caller = None ∧ kept [] sd sd').
Proof.
  intros [Hw Hmu Hl [Hnd Hp] Hc]. apply ends_act. simpl. set (n := fresh _).
  assert (waiters sd !! n = None) as Hn by (apply not_elem_of_dom; apply is_fresh).
  split_and!; [|by simplify_map_eq| |done|].
  - constructor; try done.
    + eapply dll_frame; [exact Hl|done..|]. intros w Hin. simpl.
      destruct (dll_elem _ _ _ Hl Hin) as (e & He & _). rewrite lookup_insert_ne; [done|congruence].
    + split; [done|]. simpl. intros w Hin. rewrite lookup_insert_ne; [by apply Hp|].
      specialize (Hp w Hin). congruence.
  - intros Hin. specialize (Hp n Hin). congruence.
  - split; simpl; [|intros q Hq; by apply lookup_insert_is_Some; destruct (decide (n = q)); eauto|auto].
    intros q e He _. rewrite lookup_insert_ne; [done|congruence].
Qed.

Lemma getWaiter_at sd p ws c :
  side_at sd p ws c →
  ends getWaiter sd (λ caller sd', side_at sd' p ws c ∧ waiters sd' !! caller = Some clean ∧
    caller ∉ s_pool sd' ∧ (caller ∈ s_pool sd ∨ waiters sd !! caller = None) ∧ kept [] sd sd').
Proof.
  intros Hs. pose proof Hs as [Hw Hmu Hl [Hnd Hp] Hc]. apply ends_bind, ends_choose; [done|].
  intros sd1 b [[= -> ->]|Hin]%elem_of_cons.
  - eapply ends_mono; [by apply newWaiter_at|]. intros caller sd' (? & ? & ? & ? & ?).
    by split_and!; [..|right|].
  - apply elem_of_lookup_imap in Hin as (i & w & [= -> ->] & Hi). apply ends_ret.
    assert (w ∈ s_pool sd) as Hws by (by eapply list_elem_of_lookup_2).
    assert (s_pool sd ≡ₚ w :: delete i (s_pool sd)) as Hperm by (by apply delete_Permutation).
    pose proof Hnd as Hnd'. rewrite Hperm in Hnd'. apply NoDup_cons in Hnd' as [Hni Hnd'].
    assert (∀ q, q ∈ delete i (s_pool sd) → q ∈ s_pool sd) as Hsub.
    { intros q Hq. rewrite Hperm. by right. }
    split_and!; [|by apply Hp|done|by left|].
    + constructor; try done; [by eapply dll_frame|]. split; [done|]. intros q Hq. by apply Hp, Hsub.
    + split; simpl; auto.
Qed.

Lemma putWaiter_at sd p ws c caller :
  side_at sd p ws c → waiters sd !! caller = Some clean → caller ∉ s_pool sd →
  ends (putWaiter caller) sd (λ _ sd', side_at sd' p ws c ∧ waiters sd' = waiters sd ∧
    s_pool sd' = caller :: s_pool sd).
Proof.
  intros [Hw Hmu Hl [Hnd Hp] Hc] Hcl Hni. apply ends_modify. split_and!; [|done..].
  constructor; try done; [by eapply dll_frame|]. split; [by apply NoDup_cons|].
  intros q [->|Hq]%elem_of_cons; [done|by apply Hp].
Qed.
End at_rest.
End WaitSide.
