(* ===== verification/Workq.v ===== *)
(** * The work queue (src/workq)

    A [Queue] joins an engine, one of the ring queues, with two wait sides: consumers waiting for
    items and producers waiting for room. The calls are programs of atomic actions on the whole
    state, written over any engine that has the common interface [queue_api]; what the engine
    does comes from [FifoQueue]. Diagnostics are off, so every [recording] is nil and its methods
    do nothing; [runtime.Gosched] has no effect of its own. A context is named by a number; the
    state knows which contexts are done and with which error. *)

From Stdlib Require Import ZArith Lia.
From stdpp Require Import prelude list gmap strings.
From S2P Require Import Prelude Prog RingCore RingSpec WaitSide.

Module Workq.
Import Prog Ring RingSpec WaitSide.

(** ** Errors, options and configuration (workq.go, queue.go) *)

Definition ErrClosed : error := New "workq: queue is closed".
Definition ErrClosedDuringPush : error :=
  Errorf "workq: push raced Close, items may not be delivered: %w" [] ErrClosed.
Definition ErrInvalidWaitStrategy : error := New "workq: wait strategy has a negative count".

Record WaitStrategy := Strategy { Spins : Z; Yields : Z; NeverPark : bool }.

Definition defaultMaxBatch : Z := 32.
Definition defaultConsumerWait : WaitStrategy := Strategy 64 16 false.
Definition defaultProducerWait : WaitStrategy := Strategy 16 4 false.

Record config := Config {
  singleProducer : bool;
  singleConsumer : bool;
  maxPushBatch : Z;
  maxReceiveBatch : Z;
  consumerWait : WaitStrategy;
  producerWait : WaitStrategy;
}.

Definition Option := config → config.

Definition WithSingleProducer : Option := λ c,
  Config true (singleConsumer c) (maxPushBatch c) (maxReceiveBatch c) (consumerWait c) (producerWait c).
Definition WithSingleConsumer : Option := λ c,
  Config (singleProducer c) true (maxPushBatch c) (maxReceiveBatch c) (consumerWait c) (producerWait c).
Definition WithMaxPushBatch (n : Z) : Option := λ c,
  Config (singleProducer c) (singleConsumer c) n (maxReceiveBatch c) (consumerWait c) (producerWait c).
Definition WithMaxReceiveBatch (n : Z) : Option := λ c,
  Config (singleProducer c) (singleConsumer c) (maxPushBatch c) n (consumerWait c) (producerWait c).
Definition WithConsumerWait (strategy : WaitStrategy) : Option := λ c,
  Config (singleProducer c) (singleConsumer c) (maxPushBatch c) (maxReceiveBatch c) strategy (producerWait c).
Definition WithProducerWait (strategy : WaitStrategy) : Option := λ c,
  Config (singleProducer c) (singleConsumer c) (maxPushBatch c) (maxReceiveBatch c) (consumerWait c) strategy.

Definition checkWaitStrategy (side : string) (strategy : WaitStrategy) : option error :=
  if Spins strategy <? 0 then
    Some (Errorf "new work queue: %s wait strategy has %d spins: %w"
            [ArgStr side; ArgInt (Spins strategy)] ErrInvalidWaitStrategy)
  else if Yields strategy <? 0 then
    Some (Errorf "new work queue: %s wait strategy has %d yields: %w"
            [ArgStr side; ArgInt (Yields strategy)] ErrInvalidWaitStrategy)
  else None.

Definition resolveConfig (capacity : Z) (options : list Option) : error + config :=
  let defaultBatch := Z.min defaultMaxBatch capacity in
  let cfg := foldl (λ cfg option, option cfg)
    (Config false false defaultBatch defaultBatch defaultConsumerWait defaultProducerWait) options in
  match checkWaitStrategy "consumer" (consumerWait cfg) with
  | Some err => inl err
  | None =>
      match checkWaitStrategy "producer" (producerWait cfg) with
      | Some err => inl err
      | None => inr cfg
      end
  end.

(** ** The queue *)

Record Queue (E : Type) := MkQueue {
  engine : E;
  q_maxPushBatch : Z;
  q_maxReceiveBatch : Z;
  consumerWakeCap : Z;
  q_capacity : Z;
  q_consumerWait : WaitStrategy;
  q_producerWait : WaitStrategy;
  q_done : bool;
  q_consumers : waitSide;
  q_producers : waitSide;
}.
Arguments MkQueue {E} _ _ _ _ _ _ _ _ _ _.
Arguments engine {E} _.
Arguments q_maxPushBatch {E} _.
Arguments q_maxReceiveBatch {E} _.
Arguments consumerWakeCap {E} _.
Arguments q_capacity {E} _.
Arguments q_consumerWait {E} _.
Arguments q_producerWait {E} _.
Arguments q_done {E} _.
Arguments q_consumers {E} _.
Arguments q_producers {E} _.

(** The queue, the contexts of its callers (those that are done, with [ctx.Err()]), and the state
    of the rest of the program, which handlers may use. *)
Record world (E U : Type) := World { queue : Queue E; contexts : gmap nat error; user : U }.
Arguments World {E U} _ _ _.
Arguments queue {E U} _.
Arguments contexts {E U} _.
Arguments user {E U} _.

Section fields.
Context {E U : Type}.
Implicit Types (q : Queue E) (w : world E U).

Definition set_engine e q : Queue E := MkQueue e (q_maxPushBatch q) (q_maxReceiveBatch q)
  (consumerWakeCap q) (q_capacity q) (q_consumerWait q) (q_producerWait q) (q_done q)
  (q_consumers q) (q_producers q).
Definition set_done b q : Queue E := MkQueue (engine q) (q_maxPushBatch q) (q_maxReceiveBatch q)
  (consumerWakeCap q) (q_capacity q) (q_consumerWait q) (q_producerWait q) b
  (q_consumers q) (q_producers q).
Definition set_consumers sd q : Queue E := MkQueue (engine q) (q_maxPushBatch q)
  (q_maxReceiveBatch q) (consumerWakeCap q) (q_capacity q) (q_consumerWait q) (q_producerWait q)
  (q_done q) sd (q_producers q).
Definition set_producers sd q : Queue E := MkQueue (engine q) (q_maxPushBatch q)
  (q_maxReceiveBatch q) (consumerWakeCap q) (q_capacity q) (q_consumerWait q) (q_producerWait q)
  (q_done q) (q_consumers q) sd.
Definition on_queue (f : Queue E → Queue E) w : world E U :=
  World (f (queue w)) (contexts w) (user w).
End fields.

(** The parts of the state the operations of the engine and of a side work on. *)
Program Definition the_engine {E U} : focus (world E U) E :=
  Focus (λ w, Some (engine (queue w))) (λ e, on_queue (set_engine e)) _ _ _.
Next Obligation. done. Qed.
Next Obligation. done. Qed.
Next Obligation. by intros E U [[] ? ?] x [= <-]. Qed.

Program Definition consumers {E U} : focus (world E U) waitSide :=
  Focus (λ w, Some (q_consumers (queue w))) (λ sd, on_queue (set_consumers sd)) _ _ _.
Next Obligation. done. Qed.
Next Obligation. done. Qed.
Next Obligation. by intros E U [[] ? ?] x [= <-]. Qed.

Program Definition producers {E U} : focus (world E U) waitSide :=
  Focus (λ w, Some (q_producers (queue w))) (λ sd, on_queue (set_producers sd)) _ _ _.
Next Obligation. done. Qed.
Next Obligation. done. Qed.
Next Obligation. by intros E U [[] ? ?] x [= <-]. Qed.

Section calls.
Context {E T U : Type} (A : queue_api E T) (zero : T).
Abbreviation M := (prog (world E U)).

(** [runtime.GOMAXPROCS(0)] is [procs]. *)
Definition newQueue (procs : Z) (eng : E) (cfg : config) : Queue E :=
  let capacity := api_capacity A eng in
  let wakeCap := Z.max 1 (Z.min procs capacity) in
  let wakeCap := if singleConsumer cfg then 1 else wakeCap in
  let strategy s := if procs =? 1 then Strategy 0 (Yields s) (NeverPark s) else s in
  MkQueue eng (maxPushBatch cfg) (maxReceiveBatch cfg) (u32 wakeCap) (u32 capacity)
    (strategy (consumerWait cfg)) (strategy (producerWait cfg)) false zero_side zero_side.

Definition Capacity : M Z := load (λ w, api_capacity A (engine (queue w))).

(** ** Engine calls *)

Definition engineEnqueue (item : T) : M (option error) := zoom the_engine (api_Enqueue A item).
Definition engineEnqueueBurst (items : list T) : M (Z * Z) := zoom the_engine (api_EnqueueBurst A items).
Definition engineDequeue : M (T * option error) := zoom the_engine (api_Dequeue A).
Definition engineDequeueBurst (dst : list T) : M (Z * Z * list T) :=
  zoom the_engine (api_DequeueBurst A dst).

Definition peekItems : M bool :=
  '(_, available, _) ← engineDequeueBurst [];
  mret (0 <? available).

Definition peekRoom : M bool :=
  '(_, free) ← engineEnqueueBurst [];
  mret (0 <? free).

Definition enqueueAttempt (item : T) : M Z :=
  err ← engineEnqueue item;
  mret (match err with Some _ => 0 | None => 1 end).

(** The count and [dst] after the attempt. *)
Definition dequeueAttempt (dst : list T) : M (Z * list T) :=
  if len dst =? 1 then
    '(item, err) ← engineDequeue;
    mret (match err with Some _ => (0, dst) | None => (1, <[0%nat := item]> dst) end)
  else
    '(dequeued, _, dst) ← engineDequeueBurst dst;
    mret (dequeued, dst).

(** ** Contexts *)

Definition isDone (ctx : nat) : M bool := load (λ w, bool_decide (is_Some (contexts w !! ctx))).
Definition ctxErr (ctx : nat) : M (option error) := load (λ w, contexts w !! ctx).

(** ** Waking consumers (consumer_wake.go) *)

Definition consumerTarget : M Z :=
  '(_, available, _) ← engineDequeueBurst [];
  q ← load queue;
  mret (if available =? 0 then 0
        else u32 (Z.min (consumerWakeCap q) (1 + (available - 1) `quot` q_maxReceiveBatch q))).

Definition wakeConsumersAfterPublication : M bool :=
  word ← zoom consumers loadWord;
  wakeCap ← load (λ w, consumerWakeCap (queue w));
  if parked word =? 0 then mret (closed word)
  else if wakeCap =? 1 then
    _ ← (if needsWake word then _ ← zoom consumers wakeOne; mret tt else mret tt);
    mret (closed word)
  else if wakeCap <=? pollers word then mret (closed word)
  else
    target ← consumerTarget;
    let target := Z.max 1 target in
    _ ← (if pollers word <? target then _ ← zoom consumers (wakeGroup target); mret tt
         else mret tt);
    mret (closed word).

Definition replenishConsumers (word : Z) : M bool :=
  wakeCap ← load (λ w, consumerWakeCap (queue w));
  if (parked word =? 0) || (wakeCap <=? pollers word) then mret false
  else if wakeCap =? 1 then
    found ← peekItems;
    if found : bool then zoom consumers wakeOne else mret false
  else
    target ← consumerTarget;
    if pollers word <? target then zoom consumers (wakeGroup target) else mret false.

Definition leaveConsumerPolling : M unit :=
  _ ← leavePollingWith consumers replenishConsumers;
  mret tt.

Definition leaveConsumerList (caller : nat) (movedItems : bool) : M unit :=
  _ ← leaveListWith consumers caller movedItems replenishConsumers;
  mret tt.

Definition consumerWakeCheck : M (option error) :=
  closed ← wakeConsumersAfterPublication;
  mret (if closed : bool then Some ErrClosedDuringPush else None).

(** ** Waiting (wait.go) *)

Definition contextCheckInterval : Z := 64.

Inductive parkCase := ParkToken | ParkContext | ParkDone.

(** The [select] of a parked caller: the runtime picks any ready case, and the caller stays
    blocked while there is none. *)
Definition ready_cases (side : focus (world E U) waitSide) (ctx caller : nat) (w : world E U)
    : list (world E U * parkCase) :=
  match look side w ≫= takeToken caller with
  | Some (sd, true) => [(put_back side sd w, ParkToken)]
  | _ => []
  end ++
  (if bool_decide (is_Some (contexts w !! ctx)) then [(w, ParkContext)] else []) ++
  (if q_done (queue w) then [(w, ParkDone)] else []).

Definition selectPark (side : focus (world E U) waitSide) (ctx caller : nat) : M parkCase :=
  await (ready_cases side ctx caller).

Definition closedWhileWaiting (pushedBefore : Z) : error :=
  if pushedBefore =? 0 then ErrClosed else ErrClosedDuringPush.

(** *** Consumers *)

Definition wakeProducers : M unit := _ ← zoom producers wakeCheck; mret tt.

Definition drainCheck (dst : list T) : M (Z * option error * list T) :=
  '(received, dst) ← dequeueAttempt dst;
  if 0 <? received then
    _ ← wakeProducers;
    mret (received, None, dst)
  else mret (0, Some ErrClosed, dst).

Definition leavePollingAndDrain (dst : list T) : M (Z * option error * list T) :=
  _ ← leaveConsumerPolling;
  drainCheck dst.

(** A wait step: [Some] with the result when the wait is finished. *)
Abbreviation finished := (option (Z * option error * list T)).

Definition spinForItems (ctx : nat) (dst : list T) : M finished :=
  spins ← load (λ w, Spins (q_consumerWait (queue w)));
  loop (λ poll,
    if spins <=? poll then mret (inr None)
    else
      word ← zoom consumers loadWord;
      if closed word then
        result ← drainCheck dst;
        mret (inr (Some result))
      else
        canceled ← (if poll `rem` contextCheckInterval =? 0 then isDone ctx else mret false);
        if canceled : bool then
          err ← ctxErr ctx;
          mret (inr (Some (0, err, dst)))
        else
          '(received, dst) ← dequeueAttempt dst;
          if 0 <? received then
            _ ← wakeProducers;
            mret (inr (Some (received, None, dst)))
          else mret (inl (poll + 1))) 0.

Definition pollRegistered (ctx : nat) (dst : list T) : M finished :=
  word ← zoom consumers loadWord;
  if closed word then
    result ← leavePollingAndDrain dst;
    mret (Some result)
  else
    '(received, dst) ← dequeueAttempt dst;
    if 0 <? received then
      _ ← wakeProducers;
      _ ← leaveConsumerPolling;
      mret (Some (received, None, dst))
    else
      word ← zoom consumers loadWord;
      if closed word then
        result ← leavePollingAndDrain dst;
        mret (Some result)
      else
        canceled ← isDone ctx;
        if canceled : bool then
          _ ← leaveConsumerPolling;
          err ← ctxErr ctx;
          mret (Some (0, err, dst))
        else mret None.

Definition yieldForItems (ctx : nat) (dst : list T) (woken : bool) : M finished :=
  yields ← load (λ w, Yields (q_consumerWait (queue w)));
  let polls := if woken then Z.max yields 1 else yields in
  loop (λ poll,
    if polls <=? poll then mret (inr None)
    else
      result ← pollRegistered ctx dst;
      mret (match result with Some r => inr (Some r) | None => inl (poll + 1) end)) 0.

Definition pollWithoutParking (ctx : nat) (dst : list T) : M (Z * option error * list T) :=
  forever (pollRegistered ctx dst).

(** What [parkForItems] does with the waiter it uses; the waiter goes back to the pool on every
    return unless the caller owns it. *)
Definition parkAs (ctx : nat) (dst : list T) (caller : nat) : M finished :=
  closed_ ← zoom consumers (enlist caller atNewest);
  if closed_ : bool then
    result ← leavePollingAndDrain dst;
    mret (Some result)
  else
    '(received, dst) ← dequeueAttempt dst;
    if 0 <? received then
      _ ← wakeProducers;
      _ ← leaveConsumerList caller true;
      mret (Some (received, None, dst))
    else
      case ← selectPark consumers ctx caller;
      match case with
      | ParkToken => mret None
      | ParkContext =>
          _ ← leaveConsumerList caller false;
          word ← zoom consumers loadWord;
          if closed word then
            result ← drainCheck dst;
            mret (Some result)
          else
            err ← ctxErr ctx;
            mret (Some (0, err, dst))
      | ParkDone =>
          _ ← leaveConsumerList caller false;
          result ← drainCheck dst;
          mret (Some result)
      end.

Definition parkForItems (ctx : nat) (dst : list T) (own : option nat) : M finished :=
  match own with
  | Some caller => parkAs ctx dst caller
  | None =>
      caller ← zoom consumers getWaiter;
      result ← parkAs ctx dst caller;
      _ ← zoom consumers (putWaiter caller);
      mret result
  end.

(** [clearOnYield] is [dst] itself or nil; the flag says which. *)
Definition receiveWaitBody (ctx : nat) (dst : list T) (own : option nat) (clearOnYield : bool)
    : M (Z * option error * list T) :=
  spun ← spinForItems ctx dst;
  match spun with
  | Some result => mret result
  | None =>
      let dst := if clearOnYield then replicate (length dst) zero else dst in
      closed_ ← zoom consumers register;
      if closed_ : bool then drainCheck dst
      else
        loop (λ woken : bool,
          yielded ← yieldForItems ctx dst woken;
          match yielded with
          | Some result => mret (inr result)
          | None =>
              neverPark ← load (λ w, NeverPark (q_consumerWait (queue w)));
              if neverPark : bool then
                result ← pollWithoutParking ctx dst;
                mret (inr result)
              else
                parked ← parkForItems ctx dst own;
                mret (match parked with Some result => inr result | None => inl true end)
          end) false
  end.

Definition receiveWait (ctx : nat) (dst : list T) (own : option nat) (clearOnYield : bool)
    : M (Z * option error * list T) :=
  receiveWaitBody ctx dst own clearOnYield.

(** *** Producers *)

Definition producerContextError (ctx : nat) (pushedBefore : Z) : M (option error) :=
  word ← zoom consumers loadWord;
  if closed word then mret (Some (closedWhileWaiting pushedBefore)) else ctxErr ctx.

Definition leavePollingClosed (pushedBefore : Z) : M (option error) :=
  _ ← leavePolling producers peekRoom;
  mret (Some (closedWhileWaiting pushedBefore)).

Section push_wait.
Context (ctx : nat) (attempt : M Z) (pushedBefore : Z).

Definition spinForRoom : M (option (Z * option error)) :=
  spins ← load (λ w, Spins (q_producerWait (queue w)));
  loop (λ poll,
    if spins <=? poll then mret (inr None)
    else
      word ← zoom producers loadWord;
      if closed word then mret (inr (Some (0, Some (closedWhileWaiting pushedBefore))))
      else
        canceled ← (if poll `rem` contextCheckInterval =? 0 then isDone ctx else mret false);
        if canceled : bool then
          err ← producerContextError ctx pushedBefore;
          mret (inr (Some (0, err)))
        else
          pushed ← attempt;
          if 0 <? pushed then
            err ← consumerWakeCheck;
            mret (inr (Some (pushed, err)))
          else mret (inl (poll + 1))) 0.

Definition attemptRegistered : M (option (Z * option error)) :=
  word ← zoom producers loadWord;
  if closed word then
    err ← leavePollingClosed pushedBefore;
    mret (Some (0, err))
  else
    pushed ← attempt;
    if 0 <? pushed then
      err ← consumerWakeCheck;
      _ ← leavePolling producers peekRoom;
      mret (Some (pushed, err))
    else
      word ← zoom producers loadWord;
      if closed word then
        err ← leavePollingClosed pushedBefore;
        mret (Some (0, err))
      else
        canceled ← isDone ctx;
        if canceled : bool then
          _ ← leavePolling producers peekRoom;
          err ← producerContextError ctx pushedBefore;
          mret (Some (0, err))
        else mret None.

Definition yieldForRoom (woken : bool) : M (option (Z * option error)) :=
  yields ← load (λ w, Yields (q_producerWait (queue w)));
  let polls := if woken then Z.max yields 1 else yields in
  loop (λ poll,
    if polls <=? poll then mret (inr None)
    else
      result ← attemptRegistered;
      mret (match result with Some r => inr (Some r) | None => inl (poll + 1) end)) 0.

Definition pushWithoutParking : M (Z * option error) := forever attemptRegistered.

Definition parkProducer (caller : nat) (woken : bool) : M (option (Z * option error)) :=
  let position := if woken then atOldest else atNewest in
  closed_ ← zoom producers (enlist caller position);
  if closed_ : bool then
    err ← leavePollingClosed pushedBefore;
    mret (Some (0, err))
  else
    pushed ← attempt;
    if 0 <? pushed then
      err ← consumerWakeCheck;
      _ ← leaveList producers caller true peekRoom;
      mret (Some (pushed, err))
    else
      case ← selectPark producers ctx caller;
      match case with
      | ParkToken => mret None
      | ParkContext =>
          _ ← leaveList producers caller false peekRoom;
          err ← producerContextError ctx pushedBefore;
          mret (Some (0, err))
      | ParkDone =>
          _ ← leaveList producers caller false peekRoom;
          mret (Some (0, Some (closedWhileWaiting pushedBefore)))
      end.

Definition parkForRoom (woken : bool) : M (option (Z * option error)) :=
  caller ← zoom producers getWaiter;
  result ← parkProducer caller woken;
  _ ← zoom producers (putWaiter caller);
  mret result.

Definition pushWaitBody : M (Z * option error) :=
  spun ← spinForRoom;
  match spun with
  | Some result => mret result
  | None =>
      closed_ ← zoom producers register;
      if closed_ : bool then mret (0, Some (closedWhileWaiting pushedBefore))
      else
        loop (λ woken : bool,
          yielded ← yieldForRoom woken;
          match yielded with
          | Some result => mret (inr result)
          | None =>
              neverPark ← load (λ w, NeverPark (q_producerWait (queue w)));
              if neverPark : bool then
                result ← pushWithoutParking;
                mret (inr result)
              else
                parked ← parkForRoom woken;
                mret (match parked with Some result => inr result | None => inl true end)
          end) false
  end.

Definition pushWait : M (Z * option error) := pushWaitBody.
End push_wait.

(** ** Push calls (push.go) *)

Definition push (ctx : nat) (item : T) : M (option error) :=
  word ← zoom consumers loadWord;
  if closed word then mret (Some ErrClosed)
  else
    moved ← enqueueAttempt item;
    if moved =? 0 then
      '(_, err) ← pushWait ctx (enqueueAttempt item) 0;
      mret err
    else consumerWakeCheck.

Definition Push (ctx : nat) (item : T) : M (option error) := push ctx item.

Definition burstAttempt (rest : list T) : M Z :=
  '(moved, _) ← engineEnqueueBurst rest; mret moved.

Definition checkBetweenChunks (ctx : nat) (pushedBefore : Z) : M (option error) :=
  word ← zoom consumers loadWord;
  if closed word then mret (Some ErrClosedDuringPush)
  else
    canceled ← isDone ctx;
    if canceled : bool then producerContextError ctx pushedBefore else mret None.

Definition pushChunk (ctx : nat) (chunk : list T) (pushedBefore : Z) : M (Z * option error) :=
  loop (λ pushed,
    if len chunk <=? pushed then mret (inr (pushed, None))
    else
      let rest := sub chunk pushed (len chunk) in
      enqueued ← burstAttempt rest;
      if 0 <? enqueued then
        err ← consumerWakeCheck;
        mret (match err with
              | Some _ => inr (pushed +i enqueued, err)
              | None => inl (pushed +i enqueued)
              end)
      else
        '(moved, err) ← pushWait ctx (burstAttempt rest) (pushedBefore +i pushed);
        mret (match err with
              | Some _ => inr (pushed +i moved, err)
              | None => inl (pushed +i moved)
              end)) 0.

Definition pushBatch (ctx : nat) (items : list T) : M (Z * option error) :=
  word ← zoom consumers loadWord;
  if closed word then mret (0, Some ErrClosed)
  else if len items =? 0 then mret (0, None)
  else
    maxBatch ← load (λ w, q_maxPushBatch (queue w));
    loop (λ pushed,
      if len items <=? pushed then mret (inr (pushed, None))
      else
        stop ← (if 0 <? pushed then checkBetweenChunks ctx pushed else mret None);
        match stop with
        | Some _ => mret (inr (pushed, stop))
        | None =>
            let chunk := sub items pushed (Z.min (pushed +i maxBatch) (len items)) in
            '(chunkPushed, err) ← pushChunk ctx chunk pushed;
            mret (match err with
                  | Some _ => inr (pushed +i chunkPushed, err)
                  | None => inl (pushed +i chunkPushed)
                  end)
        end) 0.

Definition PushBatch (ctx : nat) (items : list T) : M (Z * option error) := pushBatch ctx items.

Definition tryPush (item : T) : M (option error) :=
  word ← zoom consumers loadWord;
  if closed word then mret (Some ErrClosed)
  else
    moved ← enqueueAttempt item;
    if moved =? 0 then mret (Some ErrFull) else consumerWakeCheck.

Definition TryPush (item : T) : M (option error) := tryPush item.

Definition tryPushBatch (items : list T) : M (Z * option error) :=
  word ← zoom consumers loadWord;
  if closed word then mret (0, Some ErrClosed)
  else if len items =? 0 then mret (0, None)
  else
    maxBatch ← load (λ w, q_maxPushBatch (queue w));
    loop (λ pushed,
      let finish pushed := (pushed, if pushed <? len items then Some ErrFull else None) in
      if len items <=? pushed then mret (inr (finish pushed))
      else
        let chunk := sub items pushed (Z.min (pushed +i maxBatch) (len items)) in
        enqueued ← burstAttempt chunk;
        err ← (if 0 <? enqueued then consumerWakeCheck else mret None);
        let pushed := pushed +i enqueued in
        mret (match err with
              | Some _ => inr (pushed, err)
              | None => if enqueued <? len chunk then inr (finish pushed) else inl pushed
              end)) 0.

Definition TryPushBatch (items : list T) : M (Z * option error) := tryPushBatch items.

(** ** Receive calls (receive.go); results carry the destination slice *)

Definition receive (ctx : nat) (dst : list T) (own : option nat) (clearOnYield : bool)
    : M (Z * option error * list T) :=
  '(received, dst) ← dequeueAttempt dst;
  if 0 <? received then
    _ ← wakeProducers;
    mret (received, None, dst)
  else receiveWait ctx dst own clearOnYield.

(** The call gets the prefix [dst[:n]]; the rest of [dst] stays as it is. *)
Definition on_prefix (dst : list T) (n : Z) (call : list T → M (Z * option error * list T))
    : M (Z * option error * list T) :=
  '(received, err, front) ← call (sub dst 0 n);
  mret (received, err, front ++ drop (Z.to_nat n) dst).

Definition receiveBatch (ctx : nat) (dst : list T) : M (Z * option error * list T) :=
  maxBatch ← load (λ w, q_maxReceiveBatch (queue w));
  on_prefix dst (Z.min (len dst) maxBatch) (λ dst, receive ctx dst None false).

Definition Receive (ctx : nat) (dst : list T) : M (Z * option error * list T) :=
  if len dst =? 0 then mret (0, None, dst) else receiveBatch ctx dst.

Definition tryReceive (dst : list T) : M (Z * option error * list T) :=
  maxBatch ← load (λ w, q_maxReceiveBatch (queue w));
  on_prefix dst (Z.min (len dst) maxBatch) (λ dst,
    '(received, dst) ← dequeueAttempt dst;
    if 0 <? received then
      _ ← wakeProducers;
      mret (received, None, dst)
    else
      word ← zoom consumers loadWord;
      if closed word then drainCheck dst else mret (0, None, dst)).

Definition TryReceive (dst : list T) : M (Z * option error * list T) :=
  if len dst =? 0 then mret (0, None, dst) else tryReceive dst.

(** The handler returns its error and what it left in the batch. *)
Definition consume (ctx : nat) (handler : list T → M (option error * list T)) : M (option error) :=
  maxBatch ← load (λ w, q_maxReceiveBatch (queue w));
  own ← zoom consumers newWaiter;
  loop (λ buffer,
    canceled ← isDone ctx;
    if canceled : bool then
      err ← ctxErr ctx;
      mret (inr err)
    else
      '(received, err, buffer) ← receive ctx buffer (Some own) true;
      match err with
      | Some e => mret (inr (if errors_Is e ErrClosed then None else Some e))
      | None =>
          '(failure, batch) ← handler (sub buffer 0 received);
          mret (match failure with
                | Some e => inr (Some (Errorf "workq: handler: %w" [] e))
                | None => inl (batch ++ drop (Z.to_nat received) buffer)
                end)
      end) (replicate (Z.to_nat maxBatch) zero).

Definition Consume (ctx : nat) (handler : list T → M (option error * list T)) : M (option error) :=
  consume ctx handler.

(** ** Close (queue.go) *)

Definition Close : M unit :=
  _ ← zoom consumers Lock;
  first ← zoom consumers setClosedLocked;
  _ ← (if first : bool then modify (on_queue (set_done true)) else mret tt);
  _ ← zoom consumers Unlock;
  _ ← zoom producers Lock;
  _ ← zoom producers setClosedLocked;
  zoom producers Unlock.
End calls.
End Workq.
