(* ===== verification/WorkqSpec.v ===== *)
(** * What the work queue promises

    The calls of src/workq on a queue nobody else is using: what they return, which items move,
    and which parked callers are woken. The engine is any queue that keeps the promises of
    [FifoQueue]. A [view] is the queue as its clients see it: the items, the registered pollers
    and the parked waiters of either side, oldest first, and whether it is closed. *)

From Stdlib Require Import ZArith Lia.
From stdpp Require Import prelude list gmap strings.
From S2P Require Import Prelude Prog RingCore RingSpec WaitSide Workq.

Module WorkqSpec.
Import Prog Ring RingSpec WaitSide Workq.

(** A side as its clients see it. *)
Record side_view := SideView { v_pollers : Z; v_parked : list nat }.

Record view (T : Type) := View {
  v_items : list T;
  v_budget : Z;               (** items that may still be pushed before the engine's positions end *)
  v_consumers : side_view;
  v_producers : side_view;
  v_closed : bool;
}.
Arguments View {T} _ _ _ _ _.
Arguments v_items {T} _.
Arguments v_budget {T} _.
Arguments v_consumers {T} _.
Arguments v_producers {T} _.
Arguments v_closed {T} _.

(** The [k] oldest parked waiters of a side are woken. *)
Definition woken (k : Z) (sv : side_view) : side_view :=
  SideView (v_pollers sv + k) (drop (Z.to_nat k) (v_parked sv)).

Definition settings {E} (q : Queue E) :=
  (q_maxPushBatch q, q_maxReceiveBatch q, consumerWakeCap q, q_capacity q, q_consumerWait q,
   q_producerWait q).

Section spec.
Context {E T U : Type} (A : queue_api E T) (zero : T) `{!FifoQueue A}.
Abbreviation M := (prog (world E U)).
Implicit Types (w : world E U) (v : view T) (l xs dst : list T).

Definition capacity w : Z := api_capacity A (engine (queue w)).
Definition limits (e : E) := (api_capacity A e, api_maxEnqueue A e, api_maxDequeue A e).

(** Nobody is inside a call: the queue is as [v] says. *)
Record at_rest w v : Prop := {
  rest_engine : api_holds A (engine (queue w)) (v_budget v) (v_items v);
  rest_consumers : side_at (q_consumers (queue w)) (v_pollers (v_consumers v))
                     (v_parked (v_consumers v)) (v_closed v);
  rest_producers : side_at (q_producers (queue w)) (v_pollers (v_producers v))
                     (v_parked (v_producers v)) (v_closed v);
  rest_done : q_done (queue w) = v_closed v;
  rest_maxPush : q_maxPushBatch (queue w) = api_maxEnqueue A (engine (queue w));
  rest_maxReceive : q_maxReceiveBatch (queue w) = api_maxDequeue A (engine (queue w));
  rest_wakeCap : 1 <= consumerWakeCap (queue w) <= countMask;
}.

(** What a call never touches. *)
Record untouched w w' : Prop := {
  same_settings : settings (queue w') = settings (queue w);
  same_limits : limits (engine (queue w')) = limits (engine (queue w));
  same_contexts : contexts w' = contexts w;
  same_user : user w' = user w;
}.

(** A call that found the queue as [v] left it as [v']: waiters that are no longer parked have
    been sent a token, and the waiters of nobody else changed. *)
Record leaves w v w' v' : Prop := {
  leaves_rest : at_rest w' v';
  leaves_untouched : untouched w w';
  leaves_consumers : side_leaves (q_consumers (queue w)) (v_parked (v_consumers v))
                       (q_consumers (queue w')) (v_parked (v_consumers v'));
  leaves_producers : side_leaves (q_producers (queue w)) (v_parked (v_producers v))
                       (q_producers (queue w')) (v_parked (v_producers v'));
}.

#[export] Instance untouched_preorder : PreOrder untouched.
Proof.
  split; [done|]. intros w1 w2 w3 [] []. split; congruence.
Qed.

Lemma leaves_refl w v : at_rest w v → leaves w v w v.
Proof. intros Hr. split; [done|done|apply side_leaves_refl, kept_refl..]. Qed.

Lemma leaves_trans w1 v1 w2 v2 w3 v3 :
  at_rest w1 v1 → leaves w1 v1 w2 v2 → leaves w2 v2 w3 v3 → leaves w1 v1 w3 v3.
Proof.
  intros Hr [R1 U1 C1 P1] [R2 U2 C2 P2]. split; [done|by trans w2|..].
  - eapply side_leaves_trans; [|done..]. apply (dll_nodup _ _ (at_list _ _ _ _ (rest_consumers _ _ Hr))).
  - eapply side_leaves_trans; [|done..]. apply (dll_nodup _ _ (at_list _ _ _ _ (rest_producers _ _ Hr))).
Qed.

Lemma settings_eq w w' :
  untouched w w' →
  q_maxPushBatch (queue w') = q_maxPushBatch (queue w) ∧
  q_maxReceiveBatch (queue w') = q_maxReceiveBatch (queue w) ∧
  consumerWakeCap (queue w') = consumerWakeCap (queue w) ∧
  q_consumerWait (queue w') = q_consumerWait (queue w) ∧
  q_producerWait (queue w') = q_producerWait (queue w) ∧
  capacity w' = capacity w.
Proof. intros [H L _ _]. unfold settings, limits, capacity in *. by simplify_eq. Qed.

(** ** Engine calls *)

Definition with_items l k v : view T := View l k (v_consumers v) (v_producers v) (v_closed v).
Definition with_consumers sv v : view T := View (v_items v) (v_budget v) sv (v_producers v) (v_closed v).
Definition with_producers sv v : view T := View (v_items v) (v_budget v) (v_consumers v) sv (v_closed v).

Lemma engine_leaves w v e l k :
  at_rest w v → api_same A (engine (queue w)) e → api_holds A e k l →
  leaves w v (put_back the_engine e w) (with_items l k v).
Proof.
  intros [He Hc Hp Hd Hm1 Hm2 Hk] Hs Hh. destruct (fifo_same A _ _ Hs) as (S1 & S2 & S3).
  split; [split; simpl; congruence || done| |apply side_leaves_refl, kept_refl..].
  split; [done| |done|done]. unfold limits. simpl. congruence.
Qed.

Lemma ends_engine {B} (p : prog E B) w (Q : B → world E U → Prop) :
  ends p (engine (queue w)) (λ b e, Q b (put_back the_engine e w)) → ends (zoom the_engine p) w Q.
Proof. by apply ends_zoom. Qed.

Lemma ends_consumers {B} (p : prog waitSide B) w (Q : B → world E U → Prop) :
  ends p (q_consumers (queue w)) (λ b sd, Q b (put_back consumers sd w)) → ends (zoom consumers p) w Q.
Proof. by apply ends_zoom. Qed.

Lemma ends_producers {B} (p : prog waitSide B) w (Q : B → world E U → Prop) :
  ends p (q_producers (queue w)) (λ b sd, Q b (put_back producers sd w)) → ends (zoom producers p) w Q.
Proof. by apply ends_zoom. Qed.

(** How many items a burst of [xs] moves. *)
Definition room w v : Z := capacity w - len (v_items v).

Lemma room_nonneg w v : at_rest w v → 0 <= room w v.
Proof. intros Hr. pose proof (fifo_fits A _ _ _ (rest_engine _ _ Hr)). unfold room, capacity. lia. Qed.

Definition pushed_n w v xs : Z := Z.min (Z.min (len xs) (q_maxPushBatch (queue w))) (room w v).

Lemma enqueueAttempt_at w v x :
  at_rest w v → 1 <= v_budget v →
  ends (enqueueAttempt A x) w (λ n w',
    if 0 <? room w v then n = 1 ∧ leaves w v w' (with_items (v_items v ++ [x]) (v_budget v - 1) v)
    else n = 0 ∧ leaves w v w' (with_items (v_items v) (v_budget v) v)).
Proof.
  intros Hr Hk. destruct (fifo_enqueue A _ _ _ (rest_engine _ _ Hr)) as (Hen & _ & _).
  apply ends_bind, ends_engine. eapply ends_mono; [by apply Hen|]. intros err e [Hs He].
  apply ends_ret. unfold room, capacity. destruct (Z.ltb_spec (len (v_items v)) (api_capacity A (engine (queue w)))).
  - destruct He as [-> He]. rewrite (proj2 (Z.ltb_lt _ _)) by lia. split; [done|by apply engine_leaves].
  - destruct He as [-> He]. rewrite (proj2 (Z.ltb_ge _ _)) by lia. split; [done|by apply engine_leaves].
Qed.

Lemma burst_at w v xs :
  at_rest w v → len xs <= v_budget v →
  ends (engineEnqueueBurst A xs) w (λ '(n, free) w', n = pushed_n w v xs ∧
    leaves w v w' (with_items (v_items v ++ take (Z.to_nat n) xs) (v_budget v - n) v) ∧
    (xs = [] → free = room w v)).
Proof.
  intros Hr Hk. destruct (fifo_enqueue A _ _ _ (rest_engine _ _ Hr)) as (_ & _ & Hen).
  apply ends_engine. eapply ends_mono; [by apply Hen|]. intros [n free] e (Hs & Hn & He & _ & Hfree).
  unfold pushed_n, room, capacity. rewrite (rest_maxPush _ _ Hr). split_and!; [done|by apply engine_leaves|].
  intros ->. pose proof (fifo_limits A _ _ _ (rest_engine _ _ Hr)).
  pose proof (fifo_fits A _ _ _ (rest_engine _ _ Hr)). change (len []) with 0 in *. lia.
Qed.

Lemma burstAttempt_at w v xs :
  at_rest w v → len xs <= v_budget v →
  ends (burstAttempt A xs) w (λ n w', n = pushed_n w v xs ∧
    leaves w v w' (with_items (v_items v ++ take (Z.to_nat n) xs) (v_budget v - n) v)).
Proof.
  intros Hr Hk. apply ends_bind. eapply ends_mono; [by apply burst_at|].
  intros [n free] w' (? & ? & _). by apply ends_ret.
Qed.

Lemma with_items_same v : with_items (v_items v) (v_budget v) v = v.
Proof. by destruct v. Qed.

Lemma peekRoom_at w v :
  at_rest w v → 0 <= v_budget v →
  ends (peekRoom A) w (λ b w', b = (0 <? room w v) ∧ leaves w v w' v).
Proof.
  intros Hr Hk. apply ends_bind. eapply ends_mono; [by apply burst_at|].
  intros [n free] w' (Hn & Hl & ->); [|done]. apply ends_ret. split; [done|].
  assert (n = 0) as ->.
  { pose proof (room_nonneg _ _ Hr). pose proof (fifo_limits A _ _ _ (rest_engine _ _ Hr)).
    rewrite Hn. unfold pushed_n. rewrite (rest_maxPush _ _ Hr). change (len []) with 0. lia. }
  by rewrite take_nil, app_nil_r, Z.sub_0_r, with_items_same in Hl.
Qed.

(** How many items a receive into [dst] moves. *)
Definition received_n w v dst : Z :=
  Z.min (Z.min (len dst) (q_maxReceiveBatch (queue w))) (len (v_items v)).
Definition received v (n : Z) : view T := with_items (drop (Z.to_nat n) (v_items v)) (v_budget v) v.
Definition filled v (n : Z) dst : list T := take (Z.to_nat n) (v_items v) ++ drop (Z.to_nat n) dst.

Lemma received_range w v dst : at_rest w v → 0 <= received_n w v dst <= len dst.
Proof.
  intros Hr. pose proof (fifo_limits A _ _ _ (rest_engine _ _ Hr)).
  pose proof (len_nonneg (v_items v)). pose proof (len_nonneg dst). unfold received_n.
  rewrite (rest_maxReceive _ _ Hr). lia.
Qed.

Lemma received_0 v : received v 0 = v.
Proof. by destruct v. Qed.

Lemma filled_0 v dst : filled v 0 dst = dst.
Proof. done. Qed.

Lemma received_untouched w w' v dst : untouched w w' → received_n w' v dst = received_n w v dst.
Proof. intros (_ & Hm & _)%settings_eq. unfold received_n. by rewrite Hm. Qed.

Lemma dequeueBurst_at w v dst :
  at_rest w v →
  ends (engineDequeueBurst A dst) w (λ '(n, available, dst') w', n = received_n w v dst ∧
    dst' = filled v n dst ∧ leaves w v w' (received v n) ∧
    (dst = [] → available = len (v_items v))).
Proof.
  intros Hr. destruct (fifo_dequeue A _ _ _ (rest_engine _ _ Hr)) as (_ & _ & Hde & _).
  apply ends_engine. eapply ends_mono; [by apply Hde|].
  intros [[n available] dst'] e (Hs & Hn & Hd & He & _ & Hav).
  pose proof (fifo_limits A _ _ _ (rest_engine _ _ Hr)). pose proof (len_nonneg (v_items v)).
  unfold received_n. rewrite (rest_maxReceive _ _ Hr).
  split_and!; [done..|by apply engine_leaves|]. intros ->. change (len []) with 0 in *. lia.
Qed.

Lemma peek_leaves w v w' n :
  at_rest w v → n = received_n w v [] → leaves w v w' (received v n) → leaves w v w' v.
Proof.
  intros Hr Hn. pose proof (received_range w v [] Hr). change (len []) with 0 in *.
  assert (n = 0) as -> by lia. by rewrite received_0.
Qed.

Lemma peekItems_at w v :
  at_rest w v → ends (peekItems A) w (λ b w', b = (0 <? len (v_items v)) ∧ leaves w v w' v).
Proof.
  intros Hr. apply ends_bind. eapply ends_mono; [by apply dequeueBurst_at|].
  intros [[n available] dst'] w' (Hn & _ & Hl & ->); [|done]. apply ends_ret. split; [done|].
  by eapply peek_leaves.
Qed.

Lemma dequeueAttempt_at w v dst :
  at_rest w v → 0 < len dst →
  ends (dequeueAttempt A dst) w (λ '(n, dst') w', n = received_n w v dst ∧ dst' = filled v n dst ∧
    leaves w v w' (received v n)).
Proof.
  intros Hr Hd. unfold dequeueAttempt. destruct (Z.eqb_spec (len dst) 1) as [H1|_].
  - destruct dst as [|d [|? ?]]; [done| |unfold len in H1; simpl in H1; lia].
    destruct (fifo_dequeue A _ _ _ (rest_engine _ _ Hr)) as (Hde & _).
    apply ends_bind, ends_engine. eapply ends_mono; [by apply Hde|]. intros [x err] e [Hs He].
    apply ends_ret. pose proof (fifo_limits A _ _ _ (rest_engine _ _ Hr)).
    unfold received_n, filled, received. rewrite (rest_maxReceive _ _ Hr). change (len [d]) with 1.
    rewrite (Z.min_l 1) by lia. destruct (v_items v) as [|y l] eqn:Hit.
    + destruct He as (-> & -> & He). split_and!; [done..|]. apply engine_leaves; [done..|].
      change (len []) with 0. done.
    + destruct He as (-> & -> & He). rewrite Z.min_l by (unfold len; simpl; lia).
      split_and!; [done..|]. by apply engine_leaves.
  - apply ends_bind. eapply ends_mono; [by apply dequeueBurst_at|].
    intros [[n available] dst'] w' (? & ? & ? & _). by apply ends_ret.
Qed.

(** ** Waking consumers after a publication *)

Lemma consumers_leaves w v sd sv :
  at_rest w v → side_at sd (v_pollers sv) (v_parked sv) (v_closed v) →
  side_leaves (q_consumers (queue w)) (v_parked (v_consumers v)) sd (v_parked sv) →
  leaves w v (put_back consumers sd w) (with_consumers sv v).
Proof.
  intros [] Hs Hl. split; [by split|done|done|apply side_leaves_refl, kept_refl].
Qed.

Lemma producers_leaves w v sd sv :
  at_rest w v → side_at sd (v_pollers sv) (v_parked sv) (v_closed v) →
  side_leaves (q_producers (queue w)) (v_parked (v_producers v)) sd (v_parked sv) →
  leaves w v (put_back producers sd w) (with_producers sv v).
Proof.
  intros [] Hs Hl. split; [by split|done|apply side_leaves_refl, kept_refl|done].
Qed.

(** Consumers woken by a publication that left [n] items: one if the wake cap is one, else as
    many as there are full or partial batches, up to the cap, counting those already polling. *)
Definition publication_target w (n : Z) : Z :=
  Z.max 1 (if n =? 0 then 0
           else Z.min (consumerWakeCap (queue w)) (1 + (n - 1) `quot` q_maxReceiveBatch (queue w))).

Definition publication_wakes w (n : Z) (sv : side_view) : Z :=
  if consumerWakeCap (queue w) =? 1 then bit ((v_pollers sv =? 0) && (0 <? len (v_parked sv)))
  else group_size (publication_target w n) (v_pollers sv) (v_parked sv).

Definition published w v : view T :=
  with_consumers (woken (publication_wakes w (len (v_items v)) (v_consumers v)) (v_consumers v)) v.

Lemma target_range w n :
  1 <= consumerWakeCap (queue w) <= countMask → 0 <= n →
  1 <= publication_target w n <= consumerWakeCap (queue w) ∧
  (1 <= q_maxReceiveBatch (queue w) → n ≠ 0 →
   u32 (Z.min (consumerWakeCap (queue w)) (1 + (n - 1) `quot` q_maxReceiveBatch (queue w))) =
   Z.min (consumerWakeCap (queue w)) (1 + (n - 1) `quot` q_maxReceiveBatch (queue w))).
Proof.
  intros Hk Hn. change countMask with (2 ^ 31 - 1) in Hk. unfold publication_target.
  destruct (Z.eqb_spec n 0); [split; [lia|done]|]. split; [lia|]. intros Hm _.
  apply u32_small. unfold is_u32. pose proof (Z.quot_pos (n - 1) (q_maxReceiveBatch (queue w))). lia.
Qed.

Lemma consumerTarget_at w v :
  at_rest w v →
  ends (consumerTarget A) w (λ target w', Z.max 1 target = publication_target w (len (v_items v)) ∧
    (len (v_items v) = 0 → target = 0) ∧ leaves w v w' v).
Proof.
  intros Hr. apply ends_bind. eapply ends_mono; [by apply dequeueBurst_at|].
  intros [[n available] dst'] w' (Hn & _ & Hl & ->); [|done].
  apply ends_bind, ends_load, ends_ret. pose proof (peek_leaves _ _ _ _ Hr Hn Hl) as Hl'.
  destruct (settings_eq _ _ (leaves_untouched _ _ _ _ Hl')) as (_ & -> & -> & _).
  pose proof (len_nonneg (v_items v)).
  destruct (target_range w (len (v_items v)) (rest_wakeCap _ _ Hr)) as [_ Hu]; [lia|].
  unfold publication_target. destruct (Z.eqb_spec (len (v_items v)) 0); [by split_and!|].
  rewrite Hu; [by split_and!| |done]. rewrite (rest_maxReceive _ _ Hr).
  apply (fifo_limits A _ _ _ (rest_engine _ _ Hr)).
Qed.

Lemma woken_0 sv : woken 0 sv = sv.
Proof. destruct sv as [p ws]. unfold woken. simpl. by rewrite Z.add_0_r, drop_0. Qed.

Lemma with_consumers_same v : with_consumers (v_consumers v) v = v.
Proof. by destruct v. Qed.
Lemma with_producers_same v : with_producers (v_producers v) v = v.
Proof. by destruct v. Qed.

Lemma consumers_woke w v k sd :
  at_rest w v →
  woke (q_consumers (queue w)) (v_pollers (v_consumers v)) (v_parked (v_consumers v)) (v_closed v) k sd →
  leaves w v (put_back consumers sd w) (with_consumers (woken k (v_consumers v)) v).
Proof.
  intros Hr Hk. apply consumers_leaves; [done|apply Hk|].
  eapply woke_leaves; [by apply (rest_consumers _ _ Hr)|done].
Qed.

Lemma producers_woke w v k sd :
  at_rest w v →
  woke (q_producers (queue w)) (v_pollers (v_producers v)) (v_parked (v_producers v)) (v_closed v) k sd →
  leaves w v (put_back producers sd w) (with_producers (woken k (v_producers v)) v).
Proof.
  intros Hr Hk. apply producers_leaves; [done|apply Hk|].
  eapply woke_leaves; [by apply (rest_producers _ _ Hr)|done].
Qed.

Lemma ends_loadWord w (side : focus (world E U) waitSide) sd p ws c (Q : Z → world E U → Prop) :
  look side w = Some sd → side_at sd p ws c → Q (side_word p (len ws) c) w →
  ends (zoom side loadWord) w Q.
Proof.
  intros Hsd Hs HQ. eapply ends_zoom; [done|]. apply ends_load.
  rewrite (put_look side w sd Hsd). unfold word_cell. simpl. by rewrite (at_word _ _ _ _ Hs).
Qed.

Lemma ends_consumers_word w v (Q : Z → world E U → Prop) :
  at_rest w v →
  Q (side_word (v_pollers (v_consumers v)) (len (v_parked (v_consumers v))) (v_closed v)) w →
  ends (zoom consumers loadWord) w Q.
Proof. intros Hr. eapply ends_loadWord; [done|apply (rest_consumers _ _ Hr)]. Qed.

Lemma ends_producers_word w v (Q : Z → world E U → Prop) :
  at_rest w v →
  Q (side_word (v_pollers (v_producers v)) (len (v_parked (v_producers v))) (v_closed v)) w →
  ends (zoom producers loadWord) w Q.
Proof. intros Hr. eapply ends_loadWord; [done|apply (rest_producers _ _ Hr)]. Qed.

Lemma ends_wakeOne_consumers w v (Q : bool → world E U → Prop) :
  at_rest w v →
  (∀ b w', b = (v_pollers (v_consumers v) =? 0) && (0 <? len (v_parked (v_consumers v))) →
     leaves w v w' (with_consumers (woken (bit b) (v_consumers v)) v) → Q b w') →
  ends (zoom consumers wakeOne) w Q.
Proof.
  intros Hr HQ. apply ends_consumers. eapply ends_mono; [apply wakeOne_at, (rest_consumers _ _ Hr)|].
  intros b sd [Hb Hk]. apply HQ; [done|by apply consumers_woke].
Qed.

Lemma ends_wakeOne_producers w v (Q : bool → world E U → Prop) :
  at_rest w v →
  (∀ b w', b = (v_pollers (v_producers v) =? 0) && (0 <? len (v_parked (v_producers v))) →
     leaves w v w' (with_producers (woken (bit b) (v_producers v)) v) → Q b w') →
  ends (zoom producers wakeOne) w Q.
Proof.
  intros Hr HQ. apply ends_producers. eapply ends_mono; [apply wakeOne_at, (rest_producers _ _ Hr)|].
  intros b sd [Hb Hk]. apply HQ; [done|by apply producers_woke].
Qed.

Lemma published_same w v :
  publication_wakes w (len (v_items v)) (v_consumers v) = 0 → published w v = v.
Proof. intros Hk. unfold published. by rewrite Hk, woken_0, with_consumers_same. Qed.

Lemma wakeConsumersAfterPublication_at w v :
  at_rest w v →
  ends (wakeConsumersAfterPublication A) w (λ b w', b = v_closed v ∧ leaves w v w' (published w v)).
Proof.
  intros Hr. pose proof (rest_consumers _ _ Hr) as [_ _ _ _ [Hcp Hcq]].
  pose proof (rest_wakeCap _ _ Hr) as Hcap.
  pose proof (len_nonneg (v_items v)). pose proof (len_nonneg (v_parked (v_consumers v))).
  destruct (target_range w (len (v_items v)) Hcap) as [Ht _]; [lia|].
  unfold wakeConsumersAfterPublication. apply ends_bind, (ends_consumers_word w v); [done|].
  apply ends_bind, ends_load. rewrite parked_word, pollers_word, closed_word, needsWake_word by done.
  assert (∀ b, publication_wakes w (len (v_items v)) (v_consumers v) = 0 → b = v_closed v →
    ends (mret b : M bool) w (λ b w', b = v_closed v ∧ leaves w v w' (published w v))) as Hnone.
  { intros b Hk ->. apply ends_ret. rewrite published_same by done. split; [done|by apply leaves_refl]. }
  destruct (Z.eqb_spec (len (v_parked (v_consumers v))) 0) as [Hz|Hz].
  { apply Hnone; [|done]. unfold publication_wakes, group_size. rewrite Hz.
    repeat case_match; rewrite ?andb_false_r; try done; lia. }
  destruct (Z.eqb_spec (consumerWakeCap (queue w)) 1) as [H1|H1].
  - unfold published, publication_wakes in *. rewrite H1 in *. rewrite Z.eqb_refl in *.
    destruct (_ && _) eqn:Hneed.
    + apply ends_bind, ends_bind. apply (ends_wakeOne_consumers w v); [done|].
      intros b w' -> Hl. apply ends_ret, ends_ret. rewrite Hneed in Hl. done.
    + apply ends_bind, ends_ret. by apply Hnone.
  - assert (publication_wakes w (len (v_items v)) (v_consumers v) =
      group_size (publication_target w (len (v_items v))) (v_pollers (v_consumers v))
        (v_parked (v_consumers v))) as Hk.
    { unfold publication_wakes. by rewrite (proj2 (Z.eqb_neq _ _)). }
    unfold group_size in Hk. destruct (Z.leb_spec (consumerWakeCap (queue w)) (v_pollers (v_consumers v))).
    { apply Hnone; [|done]. rewrite Hk, (proj2 (Z.leb_le _ _)) by lia. done. }
    apply ends_bind. eapply ends_mono; [by apply consumerTarget_at|]. intros target w1 (-> & _ & Hl1).
    destruct (Z.ltb_spec (v_pollers (v_consumers v)) (publication_target w (len (v_items v)))).
    + apply ends_bind, ends_bind, ends_consumers.
      eapply ends_mono; [apply wakeGroup_at; [apply (rest_consumers _ _ (leaves_rest _ _ _ _ Hl1))|]|].
      { lia. }
      intros b sd [_ Hw]. apply ends_ret, ends_ret. split; [done|]. eapply leaves_trans; [done..|].
      unfold published. rewrite Hk. fold (group_size (publication_target w (len (v_items v))) (v_pollers (v_consumers v)) (v_parked (v_consumers v))).
      apply consumers_woke; [apply (leaves_rest _ _ _ _ Hl1)|done].
    + apply ends_bind, ends_ret, ends_ret. split; [done|]. rewrite published_same; [done|].
      rewrite Hk, (proj2 (Z.leb_le _ _)) by lia. done.
Qed.

(** A publication leaves no parked consumer without a poller. *)
Lemma published_polled_at w v :
  1 <= consumerWakeCap (queue w) <= countMask → is_count (v_pollers (v_consumers v)) →
  v_parked (v_consumers v) ≠ [] → 1 <= v_pollers (v_consumers (published w v)).
Proof.
  intros Hcap Hcp Hne.
  assert (0 < len (v_parked (v_consumers v))) as Hpos.
  { unfold len. destruct (v_parked (v_consumers v)); [done|]. simpl. lia. }
  destruct (target_range w (len (v_items v)) Hcap) as [Ht _]; [apply len_nonneg|].
  unfold published, publication_wakes, group_size, is_count in *. simpl.
  rewrite (proj2 (Z.ltb_lt _ _) Hpos), andb_true_r.
  destruct (_ =? 1); [destruct (Z.eqb_spec (v_pollers (v_consumers v)) 0); simpl; lia|].
  destruct (Z.leb_spec (publication_target w (len (v_items v))) (v_pollers (v_consumers v))); lia.
Qed.

Lemma published_polled w v :
  at_rest w v → v_parked (v_consumers v) ≠ [] → 1 <= v_pollers (v_consumers (published w v)).
Proof.
  intros Hr. pose proof (rest_consumers _ _ Hr) as [_ _ _ _ [Hcp _]].
  apply published_polled_at; [apply (rest_wakeCap _ _ Hr)|done].
Qed.

Lemma publication_bounds w v :
  at_rest w v → let k := publication_wakes w (len (v_items v)) (v_consumers v) in
  0 <= k <= len (v_parked (v_consumers v)) ∧
  v_pollers (v_consumers v) + k <= Z.max (v_pollers (v_consumers v)) (consumerWakeCap (queue w)).
Proof.
  intros Hr. pose proof (rest_consumers _ _ Hr) as [_ _ _ _ [Hcp _]].
  pose proof (len_nonneg (v_parked (v_consumers v))).
  destruct (target_range w (len (v_items v)) (rest_wakeCap _ _ Hr)) as [Ht _]; [apply len_nonneg|].
  unfold publication_wakes, group_size, is_count in *. cbv zeta.
  destruct (Z.eqb_spec (consumerWakeCap (queue w)) 1).
  - destruct (Z.eqb_spec (v_pollers (v_consumers v)) 0);
      destruct (Z.ltb_spec 0 (len (v_parked (v_consumers v)))); simpl; lia.
  - destruct (Z.leb_spec (publication_target w (len (v_items v))) (v_pollers (v_consumers v))); lia.
Qed.

(** ** Calls that do not wait *)

Lemma consumerWakeCheck_at w v :
  at_rest w v →
  ends (consumerWakeCheck A) w (λ err w', leaves w v w' (published w v) ∧
    err = if v_closed v then Some ErrClosedDuringPush else None).
Proof.
  intros Hr. apply ends_bind. eapply ends_mono; [by apply wakeConsumersAfterPublication_at|].
  intros b w' [-> Hl]. by apply ends_ret.
Qed.

(** Room was made: one parked producer is woken unless one is polling. *)
Definition freed v : view T :=
  let sv := v_producers v in
  with_producers (woken (bit ((v_pollers sv =? 0) && (0 <? len (v_parked sv)))) sv) v.

Lemma wakeProducers_at w v :
  at_rest w v → ends wakeProducers w (λ _ w', leaves w v w' (freed v)).
Proof.
  intros Hr. pose proof (rest_producers _ _ Hr) as Hs. pose proof Hs as [_ _ _ _ [Hcp Hcq]].
  apply ends_bind, ends_producers. unfold wakeCheck. apply ends_bind, ends_load.
  unfold word_cell. simpl cget. rewrite (at_word _ _ _ _ Hs), needsWake_word by done.
  unfold freed. destruct (_ && _) eqn:Hneed.
  - apply ends_bind, ends_bind. eapply ends_mono; [by apply wakeOne_at|]. intros b sd [-> Hk].
    rewrite Hneed in Hk. apply ends_ret, ends_ret, ends_ret. by apply producers_woke.
  - apply ends_bind, ends_ret, ends_ret, ends_ret. rewrite (put_look producers w _ eq_refl).
    change (bit false) with 0. rewrite woken_0, with_producers_same. by apply leaves_refl.
Qed.

Lemma freed_polled v :
  0 <= v_pollers (v_producers v) → v_parked (v_producers v) ≠ [] →
  1 <= v_pollers (v_producers (freed v)).
Proof.
  intros Hp Hne. unfold freed. simpl. destruct (v_parked (v_producers v)) eqn:Hws; [done|].
  rewrite (proj2 (Z.ltb_lt 0 _)) by (unfold len; simpl; lia). rewrite andb_true_r.
  destruct (Z.eqb_spec (v_pollers (v_producers v)) 0); simpl; lia.
Qed.

(** The view after [xs] were pushed, before and after the consumers are woken. *)
Definition queued v xs : view T := with_items (v_items v ++ xs) (v_budget v - len xs) v.

Lemma queued_nil v : queued v [] = v.
Proof. unfold queued. change (len []) with 0. rewrite app_nil_r, Z.sub_0_r. apply with_items_same. Qed.

Lemma published_untouched w w' v : untouched w w' → published w' v = published w v.
Proof.
  intros (_ & Hm & Hc & _)%settings_eq. unfold published, publication_wakes, publication_target.
  by rewrite Hm, Hc.
Qed.

Lemma push_published w v w1 v1 :
  at_rest w v → leaves w v w1 v1 → v_closed v1 = false →
  ends (consumerWakeCheck A) w1 (λ err w', err = None ∧ leaves w v w' (published w v1)).
Proof.
  intros Hr Hl Hc. eapply ends_mono; [apply consumerWakeCheck_at, (leaves_rest _ _ _ _ Hl)|].
  intros err w' [Hl' ->]. rewrite Hc. split; [done|]. eapply leaves_trans; [done..|].
  by rewrite <- (published_untouched w w1 v1 (leaves_untouched _ _ _ _ Hl)).
Qed.

(** What a push that does not wait returns. *)
Definition tried_push w v x (err : option error) w' : Prop :=
  if v_closed v then err = Some ErrClosed ∧ leaves w v w' v
  else if 0 <? room w v then err = None ∧ leaves w v w' (published w (queued v [x]))
  else err = Some ErrFull ∧ leaves w v w' v.

Lemma TryPush_at w v x :
  at_rest w v → 1 <= v_budget v → ends (TryPush A x) w (tried_push w v x).
Proof.
  intros Hr Hk. pose proof (rest_consumers _ _ Hr) as [_ _ _ _ [Hcp Hcq]].
  unfold TryPush, tryPush, tried_push. apply ends_bind, (ends_consumers_word w v); [done|].
  rewrite closed_word by done. destruct (v_closed v) eqn:Hc.
  { apply ends_ret. split; [done|by apply leaves_refl]. }
  apply ends_bind. eapply ends_mono; [by apply enqueueAttempt_at|]. intros n w1.
  destruct (0 <? room w v); intros [-> Hl]; cbn [Z.eqb].
  - by apply (push_published w v w1 (queued v [x])).
  - apply ends_ret. by rewrite with_items_same in Hl.
Qed.

Lemma drainCheck_at w v dst :
  at_rest w v → 0 < len dst →
  ends (drainCheck A dst) w (λ '(n, err, dst') w', n = received_n w v dst ∧ dst' = filled v n dst ∧
    (err = if n =? 0 then Some ErrClosed else None) ∧
    leaves w v w' (if n =? 0 then v else freed (received v n))).
Proof.
  intros Hr Hd. pose proof (received_range w v dst Hr). apply ends_bind.
  eapply ends_mono; [by apply dequeueAttempt_at|]. intros [n dst'] w1 (-> & -> & Hl).
  destruct (Z.ltb_spec 0 (received_n w v dst)).
  - apply ends_bind.
    eapply ends_mono; [apply wakeProducers_at, (leaves_rest _ _ _ _ Hl)|]. intros [] w2 Hl2.
    apply ends_ret. rewrite (proj2 (Z.eqb_neq _ _)) by lia. split_and!; [done..|]. by eapply leaves_trans.
  - assert (received_n w v dst = 0) as Hn by lia. rewrite Hn in *. apply ends_ret.
    by rewrite received_0 in Hl.
Qed.

(** A receive that does not wait: up to the batch limit of the oldest items. *)
Definition tried_receive w v dst (n : Z) (err : option error) dst' w' : Prop :=
  n = received_n w v dst ∧ dst' = filled v n dst ∧
  (err = if (n =? 0) && v_closed v && (0 <? len dst) then Some ErrClosed else None) ∧
  leaves w v w' (if n =? 0 then v else freed (received v n)).

(** The calls work on the prefix of [dst] that fits the batch limit. *)
Definition prefix_len w dst : Z := Z.min (len dst) (q_maxReceiveBatch (queue w)).

Lemma prefix_received w v dst :
  at_rest w v → 0 < len dst → let d := sub dst 0 (prefix_len w dst) in
  0 < len d ∧ received_n w v d = received_n w v dst ∧
  ∀ n, n = received_n w v dst → filled v n d ++ drop (Z.to_nat (prefix_len w dst)) dst = filled v n dst.
Proof.
  intros Hr Hd. pose proof (fifo_limits A _ _ _ (rest_engine _ _ Hr)) as (_ & _ & Hm).
  rewrite <- (rest_maxReceive _ _ Hr) in Hm.
  assert (0 < prefix_len w dst <= len dst) as Hp by (unfold prefix_len; lia).
  assert (len (sub dst 0 (prefix_len w dst)) = prefix_len w dst) as Hl by (rewrite len_sub; lia).
  assert (received_n w v (sub dst 0 (prefix_len w dst)) = received_n w v dst) as Hn.
  { unfold received_n. rewrite Hl. unfold prefix_len. lia. }
  cbv zeta. split_and!; [lia|done|]. intros n ->. pose proof (received_range w v dst Hr).
  assert (received_n w v dst <= prefix_len w dst) by (unfold received_n, prefix_len; lia).
  unfold filled, sub. rewrite drop_0, Z.sub_0_r, <- app_assoc. f_equal.
  apply drop_take_drop. lia.
Qed.

Lemma TryReceive_at w v dst :
  at_rest w v → ends (TryReceive A dst) w (λ '(n, err, dst') w', tried_receive w v dst n err dst' w').
Proof.
  intros Hr. unfold TryReceive. pose proof (received_range w v dst Hr) as Hrange.
  destruct (Z.eqb_spec (len dst) 0) as [Hz|Hz].
  - assert (received_n w v dst = 0) as Hn by lia. apply ends_ret. unfold tried_receive, filled.
    rewrite Hz, Hn, andb_false_r. split_and!; [done..|by apply leaves_refl].
  - assert (0 < len dst) as Hpos by (pose proof (len_nonneg dst); lia).
    unfold tryReceive. apply ends_bind, ends_load. fold (prefix_len w dst).
    destruct (prefix_received w v dst Hr Hpos) as (Hd & Hn & Hf). apply ends_bind, ends_bind.
    eapply ends_mono; [by apply dequeueAttempt_at|]. intros [n d] w1. rewrite Hn. intros (Hn1 & -> & Hl).
    pose proof (proj2 (Z.ltb_lt _ _) Hpos) as Hpt.
    destruct (Z.ltb_spec 0 n).
    + apply ends_bind. eapply ends_mono; [apply wakeProducers_at, (leaves_rest _ _ _ _ Hl)|].
      intros [] w2 Hl2. apply ends_ret, ends_ret. unfold tried_receive. rewrite Hpt, andb_true_r, (proj2 (Z.eqb_neq _ _)) by lia.
      split_and!; [done|by apply Hf|done|by eapply leaves_trans].
    + assert (n = 0) as -> by lia. rewrite received_0 in Hl.
      pose proof (leaves_rest _ _ _ _ Hl) as Hr1. pose proof (rest_consumers _ _ Hr) as [_ _ _ _ [Hcp Hcq]].
      apply ends_bind, (ends_consumers_word w1 v); [done|]. rewrite closed_word by done.
      destruct (v_closed v) eqn:Hc.
      * rewrite filled_0. eapply ends_mono; [by apply (drainCheck_at w1 v)|].
        intros [[n err] d2] w2. rewrite (received_untouched w w1), Hn, <- Hn1
          by apply (leaves_untouched _ _ _ _ Hl).
        intros (-> & -> & -> & Hl2). apply ends_ret.
        unfold tried_receive. rewrite Hc, Hpt. cbn [Z.eqb] in *.
        split_and!; [done| |done|by eapply leaves_trans].
        by rewrite <- (Hf 0).
      * apply ends_ret, ends_ret. unfold tried_receive. rewrite Hc. by split_and!; [|apply Hf|..].
Qed.

(** *** Pushing a batch in chunks

    The first [a] items are in the queue, and consumers have been woken for them. *)
Record pushing w v xs (a : Z) w' : Prop := {
  pushing_count : 0 <= a <= Z.min (len xs) (room w v);
  pushing_leaves : ∃ k, 0 <= k <= len (v_parked (v_consumers v)) ∧
    v_pollers (v_consumers v) + k <= Z.max (v_pollers (v_consumers v)) (consumerWakeCap (queue w)) ∧
    (0 < a → v_parked (v_consumers v) ≠ [] → 1 <= v_pollers (v_consumers v) + k) ∧
    leaves w v w' (with_consumers (woken k (v_consumers v)) (queued v (take (Z.to_nat a) xs)));
}.

Lemma pushing_start w v xs : at_rest w v → pushing w v xs 0 w.
Proof.
  intros Hr. pose proof (room_nonneg w v Hr). pose proof (len_nonneg xs).
  split; [lia|]. exists 0. pose proof (len_nonneg (v_parked (v_consumers v))). split_and!; try lia.
  change (take (Z.to_nat 0) xs) with (@nil T). rewrite queued_nil, woken_0, with_consumers_same.
  by apply leaves_refl.
Qed.

Lemma woken_woken k k' sv :
  0 <= k → 0 <= k' → woken k' (woken k sv) = woken (k + k') sv.
Proof.
  intros. unfold woken. simpl. rewrite drop_drop, <- Z2Nat.inj_add by done. f_equal. lia.
Qed.

Lemma pushing_next w v xs a w1 n :
  at_rest w v → pushing w v xs a w1 → 0 < n → a + n <= Z.min (len xs) (room w v) →
  v_closed v = false →
  ∀ w2 k, 
    leaves w v w2 (with_consumers (woken k (v_consumers v)) (queued v (take (Z.to_nat (a + n)) xs))) →
    0 <= k <= len (v_parked (v_consumers v)) →
    v_pollers (v_consumers v) + k <= Z.max (v_pollers (v_consumers v)) (consumerWakeCap (queue w)) →
    ends (consumerWakeCheck A) w2 (λ err w3, err = None ∧ pushing w v xs (a + n) w3).
Proof.
  intros Hr Hp Hn Hfit Hc w2 k Hl2 Hk Hcap. pose proof (pushing_count _ _ _ _ _ Hp).
  pose proof (rest_consumers _ _ Hr) as [_ _ _ _ [Hcp _]]. unfold is_count in Hcp.
  eapply ends_mono; [by apply (push_published w v w2)|]. intros err w3 [-> Hl3]. split; [done|].
  pose proof (leaves_rest _ _ _ _ Hl2) as Hr2. set (v2 := with_consumers _ _) in *.
  destruct (publication_bounds w2 v2 Hr2) as [Hb Hle].
  assert (len (v_parked (v_consumers v2)) = len (v_parked (v_consumers v)) - k) as Hlen.
  { unfold v2. simpl. apply len_drop. lia. }
  split; [lia|]. exists (k + publication_wakes w (len (v_items v2)) (v_consumers v2)).
  destruct (settings_eq _ _ (leaves_untouched _ _ _ _ Hl2)) as (_ & Hm & Hcp2 & _).
  assert (publication_wakes w2 (len (v_items v2)) (v_consumers v2) =
    publication_wakes w (len (v_items v2)) (v_consumers v2)) as Hw.
  { unfold publication_wakes, publication_target. by rewrite Hm, Hcp2. }
  rewrite Hw, Hcp2 in *.
  assert (v_pollers (v_consumers v2) = v_pollers (v_consumers v) + k) as Hp2 by done.
  split_and!; [lia|lia|lia| |].
  - intros _ Hne. destruct (decide (v_parked (v_consumers v2) = [])) as [He|He].
    + rewrite He in Hlen. change (len []) with 0 in Hlen. 
      assert (0 < len (v_parked (v_consumers v))); [|lia].
      unfold len. destruct (v_parked (v_consumers v)); [done|]. simpl. lia.
    + pose proof (published_polled w2 v2 Hr2 He) as Hpol.
      unfold published in Hpol. simpl in Hpol. unfold v2 in *. simpl in *. lia.
  - rewrite <- woken_woken by lia. exact Hl3.
Qed.

Lemma pushing_burst w v xs a b w1 :
  at_rest w v → pushing w v xs a w1 → v_closed v = false → a <= b <= len xs → len xs <= v_budget v →
  ends (burstAttempt A (sub xs a b)) w1 (λ n w2,
    n = Z.min (Z.min (b - a) (q_maxPushBatch (queue w))) (room w v - a) ∧
    (n = 0 → pushing w v xs a w2) ∧
    (0 < n → ends (consumerWakeCheck A) w2 (λ err w3, err = None ∧ pushing w v xs (a + n) w3))).
Proof.
  intros Hr Hp Hc Hab Hk. destruct Hp as [Ha (k & Hk1 & Hk2 & Hk3 & Hl)].
  assert (len (sub xs a b) = b - a) as Hlen by (apply len_sub; lia).
  pose proof (leaves_rest _ _ _ _ Hl) as Hr1. pose proof (leaves_untouched _ _ _ _ Hl) as Hu.
  assert (len (take (Z.to_nat a) xs) = a) as Hta by (apply len_take; lia).
  destruct (settings_eq _ _ Hu) as (Hmp & _ & _ & _ & _ & Hcap).
  eapply ends_mono; [apply burstAttempt_at; [exact Hr1|]|].
  { rewrite Hlen. simpl. lia. }
  intros n w2 [Hn Hl2]. unfold pushed_n in Hn. rewrite Hlen, Hmp in Hn.
  assert (room w1 (with_consumers (woken k (v_consumers v)) (queued v (take (Z.to_nat a) xs))) =
    room w v - a) as Hroom.
  { unfold room. rewrite Hcap. simpl. rewrite len_app. lia. }
  rewrite Hroom in Hn. split; [done|].
  pose proof (fifo_limits A _ _ _ (rest_engine _ _ Hr)) as (_ & Hm & _).
  rewrite <- (rest_maxPush _ _ Hr) in Hm.
  assert (leaves w v w2 (with_consumers (woken k (v_consumers v)) (queued v (take (Z.to_nat (a + n)) xs)))) as Hl3.
  { eapply leaves_trans; [done..|]. eapply eq_ind; [exact Hl2|].
    unfold with_items, with_consumers, queued. simpl. f_equal.
    - rewrite <- app_assoc. f_equal. unfold sub. rewrite take_take.
      replace (Z.to_nat n `min` Z.to_nat (b - a))%nat with (Z.to_nat n) by lia.
      rewrite Z2Nat.inj_add by lia. apply take_take_drop.
    - rewrite Hta, len_take by lia. lia. }
  split.
  - intros ->. rewrite Z.add_0_r in Hl3. split; [done|]. by exists k.
  - intros Hpos. apply (pushing_next w v xs a w1 n Hr) with (k := k); try done; [|lia].
    split; [done|]. by exists k.
Qed.

Lemma push_sizes w v :
  at_rest w v → 0 <= room w v <= 2 ^ 30 ∧ 1 <= q_maxPushBatch (queue w) <= 2 ^ 30.
Proof.
  intros Hr. pose proof (fifo_limits A _ _ _ (rest_engine _ _ Hr)). pose proof (room_nonneg w v Hr).
  rewrite (rest_maxPush _ _ Hr). pose proof (len_nonneg (v_items v)). unfold room, capacity in *. lia.
Qed.

Definition tried_batch w v xs (n : Z) (err : option error) w' : Prop :=
  if v_closed v then n = 0 ∧ err = Some ErrClosed ∧ leaves w v w' v
  else n = Z.min (len xs) (room w v) ∧ err = (if n <? len xs then Some ErrFull else None) ∧
       pushing w v xs n w'.

Lemma TryPushBatch_at w v xs :
  at_rest w v → len xs <= v_budget v →
  ends (TryPushBatch A xs) w (λ '(n, err) w', tried_batch w v xs n err w').
Proof.
  intros Hr Hk. pose proof (rest_consumers _ _ Hr) as [_ _ _ _ [Hcp Hcq]].
  destruct (push_sizes w v Hr) as [Hroom Hmax]. pose proof (len_nonneg xs).
  unfold TryPushBatch, tryPushBatch, tried_batch. apply ends_bind, (ends_consumers_word w v); [done|].
  rewrite closed_word by done. destruct (v_closed v) eqn:Hc.
  { apply ends_ret. split_and!; [done..|by apply leaves_refl]. }
  destruct (Z.eqb_spec (len xs) 0) as [Hz|Hz].
  { apply ends_ret. rewrite Hz. rewrite Z.min_l by lia. split_and!; [done..|by apply pushing_start]. }
  apply ends_bind, ends_load.
  apply (ends_loop_inv (λ a w1, pushing w v xs a w1) (λ a, Z.to_nat (len xs - a)));
    [|by apply pushing_start].
  clear Hz. intros a w1 Hp. pose proof (pushing_count _ _ _ _ _ Hp) as Ha. cbv zeta.
  destruct (Z.leb_spec (len xs) a) as [Hend|Hmore].
  { apply ends_ret. assert (a = len xs) as -> by lia. split_and!; [lia|done|done]. }
  rewrite i64_small by (unfold is_int, minInt, maxInt; lia).
  set (b := Z.min (a + q_maxPushBatch (queue w)) (len xs)).
  assert (len (sub xs a b) = b - a) as -> by (apply len_sub; lia).
  apply ends_bind. eapply ends_mono; [apply (pushing_burst w v xs a b w1); done || lia|].
  intros n w2 (Hn & Hnone & Hsome). apply ends_bind.
  assert (ends (if 0 <? n then consumerWakeCheck A else mret None) w2
    (λ err w3, err = None ∧ pushing w v xs (a + n) w3)) as Hwake.
  { destruct (Z.ltb_spec 0 n); [by apply Hsome|]. assert (n = 0) as -> by lia.
    apply ends_ret. rewrite Z.add_0_r. auto. }
  eapply ends_mono; [exact Hwake|]. intros err w3 [-> Hp3]. apply ends_ret.
  rewrite i64_small by (unfold is_int, minInt, maxInt; lia).
  destruct (Z.ltb_spec n (b - a)).
  - split_and!; [lia|done|done].
  - split; [done|lia].
Qed.

(** ** Close *)

Definition shut v : view T := View (v_items v) (v_budget v) (v_consumers v) (v_producers v) true.

Lemma ends_lock_close {B} w (side : focus (world E U) waitSide) sd p ws c (k : bool → M B)
    (Q : B → world E U → Prop) :
  look side w = Some sd → side_at sd p ws c →
  ends (k (negb c)) (put_back side (set_word (side_word p (len ws) true) (set_mu true sd)) w) Q →
  ends (_ ← zoom side Lock; first ← zoom side setClosedLocked; k first) w Q.
Proof.
  intros Hsd Hs HQ. pose proof Hs as [Hw Hmu _ _ [Hcp Hcq]]. apply ends_bind.
  eapply ends_zoom; [done|]. apply ends_Lock; [done|]. apply ends_bind.
  eapply ends_zoom; [by eapply look_put|]. eapply setClosedLocked_at; [done..|]. by rewrite put_put.
Qed.

Lemma ends_unlock w (side : focus (world E U) waitSide) sd (Q : unit → world E U → Prop) :
  look side w = Some sd → s_mu sd = true → Q tt (put_back side (set_mu false sd) w) →
  ends (zoom side Unlock) w Q.
Proof. intros Hsd Hmu HQ. eapply ends_zoom; [done|]. by apply ends_Unlock. Qed.

Lemma Close_at w v : at_rest w v → ends Close w (λ _ w', leaves w v w' (shut v)).
Proof.
  intros Hr. pose proof Hr as [He Hc Hp Hd Hm1 Hm2 Hk]. unfold Close.
  eapply ends_lock_close; [done..|]. set (w1 := put_back _ _ _). apply ends_bind.
  assert (ends (if negb (v_closed v) then modify (on_queue (set_done true)) else mret tt) w1
    (λ _ w2, w2 = on_queue (set_done true) w1)) as Hdone.
  { destruct (v_closed v) eqn:Hcl; [|by apply ends_modify].
    apply ends_ret. subst w1. destruct w as [[] ? ?]. simpl in *. by subst. }
  eapply ends_mono; [exact Hdone|]. intros _ w2 ->. apply ends_bind.
  eapply ends_unlock; [done..|]. eapply ends_lock_close; [done|exact Hp|].
  eapply ends_unlock; [done..|]. split; [|done|apply side_leaves_refl, kept_counts; done..].
  split; try done; simpl; eapply close_side; done.
Qed.

End spec.
End WorkqSpec.
