(* ===== verification/WorkqWait.v ===== *)
(** * Calls of the work queue that may wait

    [Push], [PushBatch] and [Receive] of src/workq on a queue nobody else is using: they do not
    wait when they can finish at once, and when they would wait but their context is done they
    return its error and leave the queue and both sides as they were, whichever of the spinning,
    yielding and parking stages of wait.go they reach. Closing ends every wait, and [Consume]
    drains a closed queue in order. *)

From Stdlib Require Import ZArith Lia FunctionalExtensionality.
From stdpp Require Import prelude list gmap strings.
From S2P Require Import Prelude Prog RingCore RingSpec WaitSide Workq WorkqSpec.

Module WorkqWait.
Import Prog Ring RingSpec WaitSide Workq WorkqSpec.

(** A caller that parks and leaves the list again changes only its own waiter. *)
Lemma park_kept ws caller sd1 sd2 sd3 :
  (∀ q, q ∉ caller :: ws → waiters sd2 !! q = waiters sd1 !! q) → s_pool sd2 = s_pool sd1 →
  (∀ q, q ∉ ws ++ caller :: [] → waiters sd3 !! q = waiters sd2 !! q) → s_pool sd3 = s_pool sd2 →
  waiters sd1 !! caller = Some clean → waiters sd3 !! caller = Some clean → dll sd3 ws →
  kept ws sd1 sd3.
Proof.
  intros F2 P2 F3 P3 C1 C3 Hd.
  assert (∀ q, q ∉ ws → q ≠ caller → waiters sd3 !! q = waiters sd1 !! q) as F.
  { intros q Hq Hne. rewrite F3, F2; [done|..].
    - by intros [?|?]%elem_of_cons.
    - by intros [?|?%list_elem_of_singleton]%elem_of_app. }
  split.
  - intros q e He Hq. destruct (decide (q = caller)) as [->|Hne]; [congruence|]. by rewrite F.
  - intros q Hq. destruct (decide (q ∈ ws)) as [Hin|Hin].
    { destruct (dll_elem _ _ _ Hd Hin) as (e & -> & _). done. }
    destruct (decide (q = caller)) as [->|Hne]; [by rewrite C3|]. by rewrite F.
  - intros q. rewrite P3, P2. auto.
Qed.

Lemma kept_weaken ws ws' sd sd' : kept ws sd sd' → ws ⊆ ws' → kept ws' sd sd'.
Proof. intros [H1 H2 H3] Hsub. split; [|done..]. intros q e He Hq. apply H1; [done|]. by intros ?%Hsub. Qed.

(** A waiter goes to the pool it came from, or it was new. *)
Lemma kept_put ws caller sd sd' sd'' :
  kept ws sd sd' → waiters sd'' = waiters sd' → s_pool sd'' = caller :: s_pool sd' →
  caller ∈ s_pool sd ∨ waiters sd !! caller = None → kept ws sd sd''.
Proof.
  intros [K1 K2 K3] Hh Hp Hfrom. split; rewrite ?Hh, ?Hp; [done..|].
  intros q [->|Hin]%elem_of_cons; [done|by apply K3].
Qed.

Section wait.
Context {E T U : Type} (A : queue_api E T) (zero : T) `{!FifoQueue A}.
Abbreviation M := (prog (world E U)).
Implicit Types (w : world E U) (v : view T) (l xs dst : list T) (sv : side_view).
Local Abbreviation at_rest := (at_rest A).
Local Abbreviation leaves := (leaves A).

(** ** Programs of the engine alone *)

Definition engine_prog {B} (m : M B) : Prop := ∃ p, m = zoom the_engine p.

Lemma engine_prog_bind {B C} (m : M B) (k : B → M C) (h : B → prog E C) :
  engine_prog m → (∀ b, k b = zoom the_engine (h b)) → engine_prog (m ≫= k).
Proof.
  intros [p ->] Hk. exists (p ≫= h). unfold mbind, prog_bind. rewrite zoom_bind. f_equal.
  by apply functional_extensionality.
Qed.

Lemma enqueueAttempt_engine x : engine_prog (enqueueAttempt A x).
Proof.
  eapply (engine_prog_bind _ _ (λ err, mret (match err with Some _ => 0 | None => 1 end)));
    [by eexists|done].
Qed.

Lemma burstAttempt_engine xs : engine_prog (burstAttempt A xs).
Proof.
  eapply (engine_prog_bind _ _ (λ '(moved, _), mret moved)); [by eexists|]. by intros [].
Qed.

Lemma dequeueAttempt_engine dst : engine_prog (dequeueAttempt A dst).
Proof.
  unfold dequeueAttempt. destruct (_ =? _).
  - eapply (engine_prog_bind _ _ (λ '(item, err),
      mret (match err with Some _ => (0, dst) | None => (1, <[0%nat := item]> dst) end)));
      [by eexists|]. by intros [].
  - eapply (engine_prog_bind _ _ (λ '(dequeued, _, dst), mret (dequeued, dst))); [by eexists|].
    by intros [[] ?].
Qed.

(** Both sides stay exactly as they are. *)
Definition sides_same w w' : Prop :=
  q_consumers (queue w') = q_consumers (queue w) ∧ q_producers (queue w') = q_producers (queue w).

Lemma ends_engine_prog {B} (m : M B) w (Q : B → world E U → Prop) :
  engine_prog m → ends m w Q → ends m w (λ b w', Q b w' ∧ sides_same w w').
Proof.
  intros [p ->] Hm. eapply ends_mono; [by eapply (ends_zoom_frame the_engine p)|].
  intros b w' (HQ & e & -> & _). done.
Qed.

(** ** Producers on a full queue whose context is done *)

(** [pollers] of a side changed, nothing else. *)
Definition polling (d : Z) sv : side_view := SideView (v_pollers sv + d) (v_parked sv).

Lemma polling_0 sv : polling 0 sv = sv.
Proof. destruct sv. unfold polling. simpl. by rewrite Z.add_0_r. Qed.

Lemma ends_register_producers w v (Q : bool → world E U → Prop) :
  at_rest w v → (v_closed v = false → is_count (v_pollers (v_producers v) + 1)) →
  (∀ w', leaves w v w' (if v_closed v then v else with_producers (polling 1 (v_producers v)) v) →
     Q (v_closed v) w') →
  ends (zoom producers register) w Q.
Proof.
  intros Hr Hc HQ. apply ends_producers.
  eapply ends_mono; [by apply register_at, Hc; apply (rest_producers _ _ _ Hr)|].
  intros b sd (-> & Hs & Hco). apply HQ. pose proof (kept_counts (v_parked (v_producers v)) _ _ Hco).
  assert (leaves w v (put_back producers sd w) (with_producers
    (if v_closed v then v_producers v else polling 1 (v_producers v)) v)) as Hl.
  { apply producers_leaves; [done|by destruct (v_closed v)|].
    destruct (v_closed v); by apply side_leaves_refl. }
  destruct (v_closed v); [|done]. by rewrite with_producers_same in Hl.
Qed.

Lemma ends_drop_producers w v (Q : Z → world E U → Prop) :
  at_rest w v → 1 <= v_pollers (v_producers v) →
  (∀ w', leaves w v w' (with_producers (polling (-1) (v_producers v)) v) →
     Q (side_word (v_pollers (v_producers v) - 1) (len (v_parked (v_producers v))) (v_closed v)) w') →
  ends (zoom producers dropPoller) w Q.
Proof.
  intros Hr Hc HQ. apply ends_producers.
  eapply ends_mono; [by apply dropPoller_at; [apply (rest_producers _ _ _ Hr)|]|].
  intros b sd (-> & Hs & Hco). apply HQ. apply producers_leaves; [done| |].
  - done.
  - apply side_leaves_refl. by apply kept_counts.
Qed.

(** Leaving the polling counts of a full queue wakes nobody. *)
Lemma leavePolling_full w v :
  at_rest w v → 1 <= v_pollers (v_producers v) → room A w v = 0 → 0 <= v_budget v →
  ends (leavePolling producers (peekRoom A)) w (λ _ w',
    leaves w v w' (with_producers (polling (-1) (v_producers v)) v)).
Proof.
  intros Hr Hp Hf Hk. pose proof (rest_producers _ _ _ Hr) as [_ _ _ _ [Hcp Hcq]].
  apply ends_bind, (ends_drop_producers w v); [done..|]. intros w1 Hl.
  rewrite needsWake_word by (unfold is_count in *; lia). destruct (_ && _); [|by apply ends_ret].
  apply ends_bind. eapply ends_mono; [apply (peekRoom_at A); [apply (leaves_rest _ _ _ _ _ Hl)|done]|].
  intros b w2 [-> Hl2]. unfold room in *.
  destruct (settings_eq _ _ _ (leaves_untouched _ _ _ _ _ Hl)) as (_ & _ & _ & _ & _ & ->).
  simpl v_items. rewrite Hf. cbn [Z.ltb Z.compare]. apply ends_ret. by eapply leaves_trans.
Qed.

(** The [select] of a caller without a token, on an open queue, with its context done. *)
Lemma ends_selectPark w (side : focus (world E U) waitSide) ctx caller sd x e
    (Q : parkCase → world E U → Prop) :
  look side w = Some sd → waiters sd !! caller = Some x → w_token x = false →
  contexts w !! ctx = Some e → q_done (queue w) = false → Q ParkContext w →
  ends (selectPark side ctx caller) w Q.
Proof.
  intros Hsd Hx Ht Hctx Hd HQ.
  assert (ready_cases side ctx caller w = [(w, ParkContext)]) as Hready.
  { unfold ready_cases. rewrite Hsd. change (Some sd ≫= takeToken caller) with (takeToken caller sd).
    unfold takeToken. rewrite (read_Some _ _ _ _ Hx). simpl.
    by rewrite Ht, Hctx, Hd. }
  apply ends_await; rewrite Hready; [done|]. by intros w' b [= -> ->]%list_elem_of_singleton.
Qed.

(** A listed waiter has no token. *)
Lemma listed_waiter sd p ws c x :
  side_at sd p ws c → x ∈ ws → ∃ y, waiters sd !! x = Some y ∧ w_token y = false.
Proof.
  intros Hs (l1 & l2 & ->)%list_elem_of_split.
  eexists. by split; [apply (dll_entry _ _ (at_list _ _ _ _ Hs) l1 x l2)|].
Qed.

Section push_wait.
Context (ctx : nat) (attempt : M Z) (pushedBefore : Z) (e : error) (need : Z).
Hypothesis attempt_engine : engine_prog attempt.
Hypothesis need_nonneg : 0 <= need.
Hypothesis attempt_full : ∀ w v,
  at_rest w v → room A w v = 0 → need <= v_budget v → ends attempt w (λ n w', n = 0 ∧ leaves w v w' v).

(** A full, open queue and a caller whose context is done. *)
Record stuck w v : Prop := {
  stuck_rest : at_rest w v;
  stuck_full : room A w v = 0;
  stuck_budget : need <= v_budget v;
  stuck_open : v_closed v = false;
  stuck_done : contexts w !! ctx = Some e;
}.

Lemma stuck_leaves w v w' sv :
  stuck w v → leaves w v w' (with_producers sv v) → stuck w' (with_producers sv v).
Proof.
  intros [Hr Hf Hk Ho Hd] Hl. pose proof (leaves_untouched _ _ _ _ _ Hl) as Hu.
  split; try done; [apply (leaves_rest _ _ _ _ _ Hl)| |by rewrite (same_contexts _ _ _ Hu)].
  unfold room in *. by destruct (settings_eq _ _ _ Hu) as (_ & _ & _ & _ & _ & ->).
Qed.

Lemma stuck_same w v w' : stuck w v → leaves w v w' v → stuck w' v.
Proof.
  intros Hs Hl. pose proof (stuck_leaves w v w' (v_producers v) Hs) as H.
  rewrite with_producers_same in H. auto.
Qed.

Lemma stuck_word w v (Q : Z → world E U → Prop) :
  stuck w v → (∀ word, closed word = false → Q word w) → ends (zoom producers loadWord) w Q.
Proof.
  intros Hs HQ. pose proof (stuck_rest _ _ Hs) as Hr.
  pose proof (rest_producers _ _ _ Hr) as [_ _ _ _ [Hcp Hcq]].
  apply (ends_producers_word A w v); [done|]. apply HQ. rewrite closed_word by done. apply Hs.
Qed.

Lemma producerContextError_stuck w v (Q : option error → world E U → Prop) :
  stuck w v → Q (Some e) w → ends (producerContextError ctx pushedBefore) w Q.
Proof.
  intros Hs HQ. pose proof (stuck_rest _ _ Hs) as Hr.
  pose proof (rest_consumers _ _ _ Hr) as [_ _ _ _ [Hcp Hcq]].
  apply ends_bind, (ends_consumers_word A w v); [done|].
  rewrite closed_word, (stuck_open _ _ Hs) by done. apply ends_load. by rewrite (stuck_done _ _ Hs).
Qed.

Lemma isDone_stuck w v (Q : bool → world E U → Prop) :
  stuck w v → Q true w → ends (isDone ctx) w Q.
Proof. intros Hs HQ. apply ends_load. by rewrite (stuck_done _ _ Hs). Qed.

Lemma spinForRoom_stuck w v :
  stuck w v → ends (spinForRoom A ctx attempt pushedBefore) w (λ r w', w' = w ∧ (r = None ∨ r = Some (0, Some e))).
Proof.
  intros Hs. apply ends_bind, ends_load, ends_loop. destruct (_ <=? 0).
  { apply ends_ret. auto. }
  apply ends_bind, (stuck_word w v); [done|]. intros word ->. apply ends_bind.
  change (0 `rem` contextCheckInterval =? 0) with true.
  apply (isDone_stuck w v); [done|]. apply ends_bind, (producerContextError_stuck w v); [done|].
  apply ends_ret. auto.
Qed.

Lemma attemptRegistered_stuck w v :
  stuck w v → 1 <= v_pollers (v_producers v) →
  ends (attemptRegistered A ctx attempt pushedBefore) w (λ r w', r = Some (0, Some e) ∧
    leaves w v w' (with_producers (polling (-1) (v_producers v)) v)).
Proof.
  intros Hs Hp. pose proof Hs as [Hr Hf Hk Ho Hd].
  apply ends_bind, (stuck_word w v); [done|]. intros word ->. apply ends_bind.
  eapply ends_mono; [by apply attempt_full|]. intros n w1 [-> Hl1]. cbn [Z.ltb Z.compare].
  pose proof (stuck_same _ _ _ Hs Hl1) as Hs1.
  apply ends_bind, (stuck_word w1 v); [done|]. intros word' ->.
  apply ends_bind, (isDone_stuck w1 v); [done|]. apply ends_bind.
  eapply ends_mono; [apply (leavePolling_full w1 v); [apply Hs1|done|apply Hs1|lia]|].
  intros b w2 Hl2. pose proof (leaves_trans _ _ _ _ _ _ _ Hr Hl1 Hl2) as Hl.
  apply ends_bind. eapply producerContextError_stuck; [exact (stuck_leaves _ _ _ _ Hs Hl)|]. by apply ends_ret.
Qed.

Lemma yieldForRoom_stuck w v woken :
  stuck w v → 1 <= v_pollers (v_producers v) →
  ends (yieldForRoom A ctx attempt pushedBefore woken) w (λ r w', (r = None ∧ w' = w) ∨
    (r = Some (0, Some e) ∧ leaves w v w' (with_producers (polling (-1) (v_producers v)) v))).
Proof.
  intros Hs Hp. apply ends_bind, ends_load, ends_loop. destruct (_ <=? 0).
  { apply ends_ret. auto. }
  apply ends_bind. eapply ends_mono; [by apply attemptRegistered_stuck|]. intros r w' [-> Hl].
  apply ends_ret. auto.
Qed.

(** The caller parks at the newest end, is not chosen, and leaves when it sees its context. *)
Lemma parkProducer_stuck w v caller :
  stuck w v → 1 <= v_pollers (v_producers v) → is_count (len (v_parked (v_producers v)) + 1) →
  waiters (q_producers (queue w)) !! caller = Some clean → caller ∉ s_pool (q_producers (queue w)) →
  ends (parkProducer A ctx attempt pushedBefore caller false) w (λ r w', r = Some (0, Some e) ∧
    leaves w v w' (with_producers (polling (-1) (v_producers v)) v) ∧
    waiters (q_producers (queue w')) !! caller = Some clean ∧
    s_pool (q_producers (queue w')) = s_pool (q_producers (queue w))).
Proof.
  intros Hs Hp Hq Hcl Hni. pose proof Hs as [Hr Hf Hk Ho Hd].
  set (ws := v_parked (v_producers v)) in *. set (sd1 := q_producers (queue w)) in *.
  apply ends_bind, ends_producers.
  eapply ends_mono; [by apply (enlist_at _ _ _ _ caller atNewest (rest_producers _ _ _ Hr))|].
  rewrite Ho. intros b sd2 (-> & Hs2 & F2 & P2). simpl in Hs2. fold ws in Hs2, F2.
  set (w2 := put_back producers sd2 w).
  set (v2 := with_producers (SideView (v_pollers (v_producers v) - 1) (ws ++ [caller])) v).
  assert (at_rest w2 v2) as Hr2 by (destruct Hr; split; try done; simpl; by rewrite Ho).
  apply ends_bind. eapply ends_mono.
  { apply ends_engine_prog; [done|]. exact (attempt_full w2 v2 Hr2 Hf Hk). }
  intros n w3 ((-> & Hl3) & HsC & HsP). cbn [Z.ltb Z.compare]. change (q_producers (queue w2)) with sd2 in HsP.
  pose proof (leaves_rest _ _ _ _ _ Hl3) as Hr3. pose proof (leaves_untouched _ _ _ _ _ Hl3) as Hu3.
  assert (untouched A w w3) as Hu by (etrans; [|exact Hu3]; done).
  destruct (listed_waiter sd2 _ _ _ caller Hs2) as (y & Hy & Hty).
  { apply elem_of_app. right. by left. }
  apply ends_bind. eapply (ends_selectPark w3 producers ctx caller sd2 y e); [|done|done|..].
  { simpl. by rewrite HsP. }
  { rewrite (same_contexts _ _ _ Hu). done. }
  { rewrite (rest_done _ _ _ Hr3). done. }
  apply ends_bind. unfold leaveList, leaveListWith. apply ends_bind, ends_producers. rewrite HsP.
  eapply ends_mono; [by apply leaveListed_listed|]. rewrite app_nil_r.
  intros b sd3 (-> & Hs3 & Hc3 & F3 & P3). apply ends_ret.
  set (w4 := put_back producers sd3 w3).
  assert (leaves w v w4 (with_producers (polling (-1) (v_producers v)) v)) as Hl4.
  { split.
    - destruct Hr3; split; try done. simpl. by rewrite Ho.
    - etrans; [exact Hu|done].
    - simpl. rewrite HsC. apply side_leaves_refl, kept_refl.
    - apply side_leaves_refl. eapply (park_kept ws caller sd1 sd2 sd3); try done. apply Hs3. }
  apply ends_bind. eapply producerContextError_stuck; [exact (stuck_leaves _ _ _ _ Hs Hl4)|]. apply ends_ret.
  split_and!; [done..|]. etrans; [exact P3|exact P2].
Qed.

Lemma parkForRoom_stuck w v :
  stuck w v → 1 <= v_pollers (v_producers v) → is_count (len (v_parked (v_producers v)) + 1) →
  ends (parkForRoom A ctx attempt pushedBefore false) w (λ r w', r = Some (0, Some e) ∧
    leaves w v w' (with_producers (polling (-1) (v_producers v)) v)).
Proof.
  intros Hs Hp Hq. pose proof (stuck_rest _ _ Hs) as Hr. apply ends_bind, ends_producers.
  eapply ends_mono; [apply getWaiter_at, (rest_producers _ _ _ Hr)|].
  intros caller sd1 (Hs1 & Hcl & Hni & Hfrom & K1). set (w1 := put_back producers sd1 w).
  assert (leaves w v w1 v) as Hl1.
  { pose proof (producers_leaves A w v sd1 (v_producers v) Hr Hs1) as H.
    rewrite with_producers_same in H. apply H, side_leaves_refl. eapply kept_weaken; [done|set_solver]. }
  apply ends_bind. eapply ends_mono; [apply (parkProducer_stuck w1 v caller); [by eapply stuck_same|done..]|].
  intros r w2 (-> & Hl2 & Hcl2 & Hpool2). pose proof (leaves_rest _ _ _ _ _ Hl2) as Hr2.
  apply ends_bind, ends_producers.
  eapply ends_mono; [apply (putWaiter_at _ _ _ _ caller (rest_producers _ _ _ Hr2) Hcl2)|].
  { by rewrite Hpool2. }
  intros u sd3 (Hs3 & Hh3 & Hp3). apply ends_ret. split; [done|].
  destruct Hl1 as [_ U1 C1 _], Hl2 as [_ U2 C2 [K2 _]]. split.
  - destruct Hr2. by split.
  - trans w1; [done|]. by trans w2.
  - refine (side_leaves_trans _ _ _ _ _ _ _ C1 C2).
    apply (dll_nodup _ _ (at_list _ _ _ _ (rest_consumers _ _ _ Hr))).
  - simpl. apply side_leaves_refl. simpl in K2.
    eapply kept_put; [|exact Hh3|exact Hp3|exact Hfrom].
    eapply kept_trans; [eapply kept_weaken; [exact K1|set_solver]|exact K2|done].
Qed.

Lemma pushWait_stuck w v :
  stuck w v → is_count (v_pollers (v_producers v) + 1) → is_count (len (v_parked (v_producers v)) + 1) →
  ends (pushWait A ctx attempt pushedBefore) w (λ '(n, err) w', n = 0 ∧ err = Some e ∧ leaves w v w' v).
Proof.
  intros Hs Hp Hq. pose proof (stuck_rest _ _ Hs) as Hr.
  pose proof (rest_producers _ _ _ Hr) as [_ _ _ _ [Hcp _]]. unfold is_count in Hcp.
  apply ends_bind. eapply ends_mono; [by apply (spinForRoom_stuck w v)|].
  intros r w0 [-> [->| ->]]; [|by apply ends_ret; split_and!; [..|apply leaves_refl]].
  apply ends_bind, (ends_register_producers w v); [done..|]. rewrite (stuck_open _ _ Hs).
  intros w1 Hl1. pose proof (stuck_leaves _ _ _ _ Hs Hl1) as Hs1.
  set (v1 := with_producers (polling 1 (v_producers v)) v) in *.
  assert (1 <= v_pollers (v_producers v1)) as Hp1 by (simpl; lia).
  assert (with_producers (polling (-1) (v_producers v1)) v1 = v) as Hback.
  { unfold v1, with_producers, polling. destruct v as [? ? ? [? ?] ?]. simpl. f_equal. f_equal. lia. }
  apply ends_loop, ends_bind. eapply ends_mono; [by apply (yieldForRoom_stuck w1 v1)|].
  rewrite Hback. intros r w2 [[-> ->]|[-> Hl2]].
  2: { apply ends_ret. split_and!; [done..|]. by eapply leaves_trans. }
  apply ends_bind, ends_load. destruct (NeverPark _).
  - apply ends_bind, ends_forever. eapply ends_mono; [by apply attemptRegistered_stuck|].
    rewrite Hback. intros r w2 [-> Hl2]. eexists. split; [done|]. apply ends_ret.
    split_and!; [done..|]. by eapply leaves_trans.
  - apply ends_bind. eapply ends_mono; [by apply (parkForRoom_stuck w1 v1)|].
    rewrite Hback. intros r w2 [-> Hl2]. apply ends_ret.
    split_and!; [done..|]. by eapply leaves_trans.
Qed.
End push_wait.

Lemma enqueueAttempt_full x w v :
  at_rest w v → room A w v = 0 → 1 <= v_budget v →
  ends (enqueueAttempt A x) w (λ n w', n = 0 ∧ leaves w v w' v).
Proof.
  intros Hr Hf Hk. eapply ends_mono; [by apply (enqueueAttempt_at A)|]. intros n w'.
  rewrite Hf, with_items_same. done.
Qed.

Lemma burstAttempt_full xs w v :
  at_rest w v → room A w v = 0 → len xs <= v_budget v →
  ends (burstAttempt A xs) w (λ n w', n = 0 ∧ leaves w v w' v).
Proof.
  intros Hr Hf Hk. eapply ends_mono; [by apply (burstAttempt_at A)|]. intros n w' [Hn Hl].
  destruct (push_sizes A w v Hr) as [_ Hm]. pose proof (len_nonneg xs).
  assert (n = 0) as -> by (unfold pushed_n in Hn; lia).
  by rewrite app_nil_r, Z.sub_0_r, with_items_same in Hl.
Qed.

(** Room for one more registered or parked producer in the counts. *)
Definition counts_fit sv : Prop := is_count (v_pollers sv + 1) ∧ is_count (len (v_parked sv) + 1).

Lemma Push_at w v ctx x :
  at_rest w v → 1 <= v_budget v →
  (v_closed v = true ∨ 0 < room A w v →
   ends (Push A ctx x) w (λ err w',
     if v_closed v then err = Some ErrClosed ∧ leaves w v w' v
     else err = None ∧ leaves w v w' (published w (queued v [x])))) ∧
  (∀ e, v_closed v = false → room A w v = 0 → contexts w !! ctx = Some e → counts_fit (v_producers v) →
   ends (Push A ctx x) w (λ err w', err = Some e ∧ leaves w v w' v)).
Proof.
  intros Hr Hk. pose proof (rest_consumers _ _ _ Hr) as [_ _ _ _ [Hcp Hcq]]. split.
  - intros Hnow. apply ends_bind, (ends_consumers_word A w v); [done|]. rewrite closed_word by done.
    destruct (v_closed v) eqn:Hc.
    { apply ends_ret. split; [done|by apply leaves_refl]. }
    destruct Hnow as [?|Hroom]; [done|]. apply ends_bind.
    eapply ends_mono; [by apply (enqueueAttempt_at A)|]. intros n w1.
    rewrite (proj2 (Z.ltb_lt _ _) Hroom). intros [-> Hl]. cbn [Z.eqb].
    by apply (push_published A w v w1 (queued v [x])).
  - intros e Hc Hf Hctx [Hp Hq]. apply ends_bind, (ends_consumers_word A w v); [done|].
    rewrite closed_word, Hc by done. apply ends_bind.
    eapply ends_mono; [by apply (enqueueAttempt_full x w v)|]. intros n w1 [-> Hl]. cbn [Z.eqb].
    assert (stuck ctx e 1 w v) as Hs by done.
    apply ends_bind. eapply ends_mono; [apply (pushWait_stuck ctx (enqueueAttempt A x) 0 e 1) with (v := v)|].
    { apply enqueueAttempt_engine. } { lia. } { apply enqueueAttempt_full. }
    { by eapply stuck_same. } { done. } { done. }
    intros [n err] w2 (-> & -> & Hl2). apply ends_ret. split; [done|]. by eapply leaves_trans.
Qed.

Lemma sub_sub xs a b p :
  0 <= a → 0 <= p <= b - a → sub (sub xs a b) p (b - a) = sub xs (a + p) b.
Proof.
  intros Ha Hp. unfold sub. rewrite skipn_firstn_comm, take_take, drop_drop, <- Z2Nat.inj_add by lia.
  f_equal. lia.
Qed.

(** A producer that may have to wait for the last items: it will not, or its context is done. *)
Definition may_finish w v ctx e (goal : Z) : Prop :=
  goal <= room A w v ∨ (contexts w !! ctx = Some e ∧ counts_fit (v_producers v)).

Lemma pushChunk_at w v ctx e xs a b pushedBefore w1 :
  at_rest w v → pushing A w v xs a w1 → v_closed v = false → 0 <= a <= b → b <= len xs →
  b - a <= q_maxPushBatch (queue w) → len xs <= v_budget v → may_finish w v ctx e b →
  ends (pushChunk A ctx (sub xs a b) pushedBefore) w1 (λ '(n, err) w2,
    n = Z.min (b - a) (room A w v - a) ∧ err = (if n <? b - a then Some e else None) ∧
    pushing A w v xs (a + n) w2).
Proof.
  intros Hr Hp Hc Ha Hb Hmax Hk Hfin. destruct (push_sizes A w v Hr) as [Hroom Hm].
  assert (len (sub xs a b) = b - a) as Hlen by (apply len_sub; lia).
  apply (ends_loop_inv (λ p w', 0 <= p <= b - a ∧ pushing A w v xs (a + p) w')
    (λ p, Z.to_nat (b - a - p))); [|split; [lia|by rewrite Z.add_0_r]].
  clear w1 Hp. intros p w1 [Hpr Hp]. pose proof (pushing_count _ _ _ _ _ _ Hp) as Hap. rewrite Hlen.
  destruct (Z.leb_spec (b - a) p) as [Hend|Hmore].
  { apply ends_ret. assert (p = b - a) as -> by lia. rewrite Z.ltb_irrefl. split_and!; [lia|done|done]. }
  cbv zeta. rewrite sub_sub by lia. apply ends_bind.
  eapply ends_mono; [apply (pushing_burst A w v xs (a + p) b w1); done || lia|].
  intros n w2 (Hn & Hnone & Hsome). destruct (Z.ltb_spec 0 n) as [Hpos|Hzero].
  - apply ends_bind. eapply ends_mono; [by apply Hsome|]. intros err w3 [-> Hp3]. apply ends_ret.
    rewrite i64_small by (unfold is_int, minInt, maxInt; lia). rewrite Z.add_assoc. split; [|lia].
    split; [lia|done].
  - assert (n = 0) as -> by lia. specialize (Hnone eq_refl).
    destruct Hfin as [?|[Hctx [Hcp Hcq]]]; [lia|].
    destruct (pushing_leaves _ _ _ _ _ _ Hnone) as (k & Hk1 & Hk2 & Hk3 & Hl). set (v2 := with_consumers _ _) in Hl.
    assert (len (take (Z.to_nat (a + p)) xs) = a + p) as Htake by (apply len_take; lia).
    assert (stuck ctx e (len (sub xs (a + p) b)) w2 v2) as Hs.
    { split; [apply (leaves_rest _ _ _ _ _ Hl)| | |done|].
      - unfold room. destruct (settings_eq _ _ _ (leaves_untouched _ _ _ _ _ Hl)) as (_ & _ & _ & _ & _ & ->).
        simpl. rewrite len_app, Htake. unfold room in *. lia.
      - simpl. rewrite Htake, len_sub by lia. lia.
      - by rewrite (same_contexts _ _ _ (leaves_untouched _ _ _ _ _ Hl)). }
    apply ends_bind. eapply ends_mono; [eapply (pushWait_stuck ctx (burstAttempt A (sub xs (a + p) b))); [..|exact Hs|done|done]|].
    { apply burstAttempt_engine. } { apply len_nonneg. } { apply burstAttempt_full. }
    intros [n err] w3 (-> & -> & Hl3). apply ends_ret. rewrite Z.add_0_r.
    rewrite i64_small by (unfold is_int, minInt, maxInt; lia).
    rewrite (proj2 (Z.ltb_lt _ _)) by lia. split_and!; [lia|done|].
    split; [lia|]. exists k. split; [done|]. split; [done|]. split; [done|]. by eapply leaves_trans.
Qed.

Lemma pushing_rest w v xs a w1 :
  pushing A w v xs a w1 → ∃ v1, at_rest w1 v1 ∧ untouched A w w1 ∧ v_closed v1 = v_closed v.
Proof.
  intros [_ (k & _ & _ & _ & Hl)]. eexists.
  by split_and!; [apply (leaves_rest _ _ _ _ _ Hl)|apply (leaves_untouched _ _ _ _ _ Hl)|].
Qed.

(** Between chunks of an open queue only the context counts. *)
Lemma checkBetweenChunks_at w v xs a pushedBefore ctx w1 :
  pushing A w v xs a w1 → v_closed v = false →
  ends (checkBetweenChunks ctx pushedBefore) w1 (λ err w2, err = contexts w !! ctx ∧ w2 = w1).
Proof.
  intros (v1 & Hr1 & Hu & Hc1)%pushing_rest Hc. rewrite Hc in Hc1.
  pose proof (rest_consumers _ _ _ Hr1) as [_ _ _ _ [Hcp Hcq]].
  apply ends_bind, (ends_consumers_word A w1 v1); [done|]. rewrite closed_word, Hc1 by done.
  apply ends_bind, ends_load. rewrite <- (same_contexts _ _ _ Hu). case_bool_decide as Hd.
  - apply ends_bind, (ends_consumers_word A w1 v1); [done|]. rewrite closed_word, Hc1 by done.
    by apply ends_load.
  - apply ends_ret. split; [|done]. symmetry. by apply eq_None_not_Some.
Qed.

(** The loop of [pushBatch] when everything fits. *)
Lemma PushBatch_fits w v ctx xs :
  at_rest w v → len xs <= v_budget v → v_closed v = false → len xs <= room A w v →
  contexts w !! ctx = None →
  ends (PushBatch A ctx xs) w (λ '(n, err) w', n = len xs ∧ err = None ∧ pushing A w v xs (len xs) w').
Proof.
  intros Hr Hk Hc Hfit Hctx. pose proof (rest_consumers _ _ _ Hr) as [_ _ _ _ [Hcp Hcq]].
  destruct (push_sizes A w v Hr) as [Hroom Hmax]. pose proof (len_nonneg xs).
  apply ends_bind, (ends_consumers_word A w v); [done|]. rewrite closed_word, Hc by done.
  destruct (Z.eqb_spec (len xs) 0) as [Hz|Hz].
  { apply ends_ret. rewrite Hz. by split_and!; [..|apply pushing_start]. }
  clear Hz. apply ends_bind, ends_load.
  apply (ends_loop_inv (λ a w1, pushing A w v xs a w1) (λ a, Z.to_nat (len xs - a)));
    [|by apply pushing_start].
  intros a w1 Hp. pose proof (pushing_count _ _ _ _ _ _ Hp) as Ha.
  destruct (Z.leb_spec (len xs) a) as [Hend|Hmore].
  { apply ends_ret. assert (a = len xs) as -> by lia. done. }
  apply ends_bind.
  assert (ends (if 0 <? a then checkBetweenChunks ctx a else mret None) w1
    (λ err w2, err = None ∧ w2 = w1)) as Hcheck.
  { destruct (0 <? a); [|by apply ends_ret].
    eapply ends_mono; [by apply (checkBetweenChunks_at w v xs a)|]. by intros err w2 [-> ->]. }
  eapply ends_mono; [exact Hcheck|]. intros err w2 [-> ->]. cbv zeta.
  rewrite i64_small by (unfold is_int, minInt, maxInt; lia). apply ends_bind.
  eapply ends_mono; [apply (pushChunk_at w v ctx ErrClosed); done || (try left; lia)|].
  intros [n err] w2 (Hn & -> & Hp2). apply ends_ret.
  rewrite (proj2 (Z.ltb_ge _ _)) by lia.
  rewrite i64_small by (unfold is_int, minInt, maxInt; lia). split; [done|lia].
Qed.

(** A batch whose context is done: the first chunk is tried, then the error is returned. *)
Lemma PushBatch_done w v ctx e xs :
  at_rest w v → len xs <= v_budget v → v_closed v = false → contexts w !! ctx = Some e →
  counts_fit (v_producers v) →
  ends (PushBatch A ctx xs) w (λ '(n, err) w',
    n = Z.min (Z.min (len xs) (q_maxPushBatch (queue w))) (room A w v) ∧
    err = (if n <? len xs then Some e else None) ∧ pushing A w v xs n w').
Proof.
  intros Hr Hk Hc Hctx Hcf. pose proof (rest_consumers _ _ _ Hr) as [_ _ _ _ [Hcp Hcq]].
  destruct (push_sizes A w v Hr) as [Hroom Hmax]. pose proof (len_nonneg xs).
  apply ends_bind, (ends_consumers_word A w v); [done|]. rewrite closed_word, Hc by done.
  destruct (Z.eqb_spec (len xs) 0) as [Hz|Hz].
  { apply ends_ret. rewrite Hz. split_and!; [lia|done|by apply pushing_start]. }
  apply ends_bind, ends_load. apply ends_loop. rewrite (proj2 (Z.leb_gt (len xs) 0)) by lia.
  cbn [Z.ltb Z.compare]. apply ends_bind, ends_ret. cbv zeta.
  rewrite i64_small by (unfold is_int, minInt, maxInt; lia). rewrite Z.add_0_l.
  set (b := Z.min (q_maxPushBatch (queue w)) (len xs)). apply ends_bind.
  eapply ends_mono; [apply (pushChunk_at w v ctx e xs 0 b); [done|by apply pushing_start|..];
    done || lia || by right|].
  intros [n err] w1 (Hn & -> & Hp1). rewrite !Z.sub_0_r, Z.add_0_l in *. apply ends_ret.
  destruct (Z.ltb_spec n b).
  { rewrite i64_small by (unfold is_int, minInt, maxInt; lia).
    split_and!; [lia|by rewrite (proj2 (Z.ltb_lt _ _)) by lia|done]. }
  rewrite i64_small by (unfold is_int, minInt, maxInt; lia).
  apply ends_loop. destruct (Z.leb_spec (len xs) n).
  { apply ends_ret. split_and!; [lia|by rewrite (proj2 (Z.ltb_ge _ _)) by lia|done]. }
  rewrite (proj2 (Z.ltb_lt 0 n)) by lia. apply ends_bind.
  eapply ends_mono; [by apply (checkBetweenChunks_at w v xs n)|]. intros err w2 [-> ->].
  rewrite Hctx. apply ends_ret. split_and!; [lia|by rewrite (proj2 (Z.ltb_lt _ _)) by lia|done].
Qed.

(** ** Consumers on an empty queue *)

Lemma ends_register_consumers w v (Q : bool → world E U → Prop) :
  at_rest w v → (v_closed v = false → is_count (v_pollers (v_consumers v) + 1)) →
  (∀ w', leaves w v w' (if v_closed v then v else with_consumers (polling 1 (v_consumers v)) v) →
     Q (v_closed v) w') →
  ends (zoom consumers register) w Q.
Proof.
  intros Hr Hc HQ. apply ends_consumers.
  eapply ends_mono; [by apply register_at, Hc; apply (rest_consumers _ _ _ Hr)|].
  intros b sd (-> & Hs & Hco). apply HQ. pose proof (kept_counts (v_parked (v_consumers v)) _ _ Hco).
  assert (leaves w v (put_back consumers sd w) (with_consumers
    (if v_closed v then v_consumers v else polling 1 (v_consumers v)) v)) as Hl.
  { apply consumers_leaves; [done|by destruct (v_closed v)|].
    destruct (v_closed v); by apply side_leaves_refl. }
  destruct (v_closed v); [|done]. by rewrite with_consumers_same in Hl.
Qed.

Lemma dequeueAttempt_empty w v dst :
  at_rest w v → v_items v = [] → 0 < len dst →
  ends (dequeueAttempt A dst) w (λ '(n, dst') w', n = 0 ∧ dst' = dst ∧ leaves w v w' v ∧ sides_same w w').
Proof.
  intros Hr Hi Hd. eapply ends_mono.
  { apply ends_engine_prog; [apply dequeueAttempt_engine|]. by apply (dequeueAttempt_at A w v). }
  intros [n dst'] w' ((Hn & -> & Hl) & Hs). pose proof (received_range A w v dst Hr).
  assert (n = 0) as ->.
  { rewrite Hn. unfold received_n in *. rewrite Hi in *. change (len []) with 0 in *. lia. }
  by rewrite received_0 in Hl.
Qed.

(** Leaving the polling counts of an empty queue wakes nobody. *)
Lemma leaveConsumerPolling_empty w v :
  at_rest w v → 1 <= v_pollers (v_consumers v) → v_items v = [] →
  ends (leaveConsumerPolling A) w (λ _ w',
    leaves w v w' (with_consumers (polling (-1) (v_consumers v)) v)).
Proof.
  intros Hr Hp Hi. pose proof (rest_consumers _ _ _ Hr) as [_ _ _ _ [Hcp Hcq]].
  apply ends_bind, ends_bind, ends_consumers.
  eapply ends_mono; [apply dropPoller_at; [apply (rest_consumers _ _ _ Hr)|done]|].
  intros left sd (-> & Hs & Hco). set (w1 := put_back consumers sd w).
  assert (leaves w v w1 (with_consumers (polling (-1) (v_consumers v)) v)) as Hl1.
  { apply consumers_leaves; [done|done|]. apply side_leaves_refl. by apply kept_counts. }
  pose proof (leaves_rest _ _ _ _ _ Hl1) as Hr1.
  unfold replenishConsumers. apply ends_bind, ends_load.
  rewrite parked_word, pollers_word by (unfold is_count in *; lia).
  destruct (_ || _); [by apply ends_ret, ends_ret|]. destruct (_ =? 1).
  - apply ends_bind. eapply ends_mono; [by apply (peekItems_at A)|]. cbn [with_consumers v_items]. rewrite Hi.
    intros b w2 [-> Hl2]. apply ends_ret, ends_ret. by eapply leaves_trans.
  - apply ends_bind. eapply ends_mono; [by apply (consumerTarget_at A)|]. cbn [with_consumers v_items]. rewrite Hi.
    intros t w2 (_ & -> & Hl2); [|done]. rewrite (proj2 (Z.ltb_ge _ _)) by lia.
    apply ends_ret, ends_ret. by eapply leaves_trans.
Qed.

Section receive_wait.
Context (ctx : nat) (e : error).

(** An empty, open queue and a caller whose context is done. *)
Record idle w v : Prop := {
  idle_rest : at_rest w v;
  idle_empty : v_items v = [];
  idle_open : v_closed v = false;
  idle_done : contexts w !! ctx = Some e;
}.

Lemma idle_leaves w v w' sv :
  idle w v → leaves w v w' (with_consumers sv v) → idle w' (with_consumers sv v).
Proof.
  intros [Hr Hi Ho Hd] Hl. split; try done; [apply (leaves_rest _ _ _ _ _ Hl)|].
  by rewrite (same_contexts _ _ _ (leaves_untouched _ _ _ _ _ Hl)).
Qed.

Lemma idle_same w v w' : idle w v → leaves w v w' v → idle w' v.
Proof.
  intros Hs Hl. pose proof (idle_leaves w v w' (v_consumers v) Hs) as H.
  rewrite with_consumers_same in H. auto.
Qed.

Lemma idle_word w v (Q : Z → world E U → Prop) :
  idle w v → (∀ word, closed word = false → Q word w) → ends (zoom consumers loadWord) w Q.
Proof.
  intros Hs HQ. pose proof (idle_rest _ _ Hs) as Hr.
  pose proof (rest_consumers _ _ _ Hr) as [_ _ _ _ [Hcp Hcq]].
  apply (ends_consumers_word A w v); [done|]. apply HQ. rewrite closed_word by done. apply Hs.
Qed.

Lemma isDone_idle w v (Q : bool → world E U → Prop) :
  idle w v → Q true w → ends (isDone ctx) w Q.
Proof. intros Hs HQ. apply ends_load. by rewrite (idle_done _ _ Hs). Qed.

Lemma ctxErr_idle w v (Q : option error → world E U → Prop) :
  idle w v → Q (Some e) w → ends (ctxErr ctx) w Q.
Proof. intros Hs HQ. apply ends_load. by rewrite (idle_done _ _ Hs). Qed.

Lemma spinForItems_idle w v dst :
  idle w v →
  ends (spinForItems A ctx dst) w (λ r w', w' = w ∧ (r = None ∨ r = Some (0, Some e, dst))).
Proof.
  intros Hs. apply ends_bind, ends_load, ends_loop. destruct (_ <=? 0).
  { apply ends_ret. auto. }
  apply ends_bind, (idle_word w v); [done|]. intros word ->. apply ends_bind.
  change (0 `rem` contextCheckInterval =? 0) with true.
  apply (isDone_idle w v); [done|]. apply ends_bind, (ctxErr_idle w v); [done|]. apply ends_ret. auto.
Qed.

Lemma pollRegistered_idle w v dst :
  idle w v → 1 <= v_pollers (v_consumers v) → 0 < len dst →
  ends (pollRegistered A ctx dst) w (λ r w', r = Some (0, Some e, dst) ∧
    leaves w v w' (with_consumers (polling (-1) (v_consumers v)) v)).
Proof.
  intros Hs Hp Hdst. pose proof Hs as [Hr Hi Ho Hd].
  apply ends_bind, (idle_word w v); [done|]. intros word ->. apply ends_bind.
  eapply ends_mono; [by apply (dequeueAttempt_empty w v)|]. intros [n d] w1 (-> & -> & Hl1 & _).
  cbn [Z.ltb Z.compare]. pose proof (idle_same _ _ _ Hs Hl1) as Hs1.
  apply ends_bind, (idle_word w1 v); [done|]. intros word' ->.
  apply ends_bind, (isDone_idle w1 v); [done|]. apply ends_bind.
  eapply ends_mono; [apply (leaveConsumerPolling_empty w1 v); [apply Hs1|done..]|].
  intros b w2 Hl2. pose proof (leaves_trans _ _ _ _ _ _ _ Hr Hl1 Hl2) as Hl.
  apply ends_bind. eapply ctxErr_idle; [exact (idle_leaves _ _ _ _ Hs Hl)|]. by apply ends_ret.
Qed.

Lemma yieldForItems_idle w v dst woken :
  idle w v → 1 <= v_pollers (v_consumers v) → 0 < len dst →
  ends (yieldForItems A ctx dst woken) w (λ r w', (r = None ∧ w' = w) ∨
    (r = Some (0, Some e, dst) ∧ leaves w v w' (with_consumers (polling (-1) (v_consumers v)) v))).
Proof.
  intros Hs Hp Hd. apply ends_bind, ends_load, ends_loop. destruct (_ <=? 0).
  { apply ends_ret. auto. }
  apply ends_bind. eapply ends_mono; [by apply pollRegistered_idle|]. intros r w' [-> Hl].
  apply ends_ret. auto.
Qed.

Lemma parkAs_idle w v dst caller :
  idle w v → 1 <= v_pollers (v_consumers v) → is_count (len (v_parked (v_consumers v)) + 1) →
  0 < len dst →
  waiters (q_consumers (queue w)) !! caller = Some clean → caller ∉ s_pool (q_consumers (queue w)) →
  ends (parkAs A ctx dst caller) w (λ r w', r = Some (0, Some e, dst) ∧
    leaves w v w' (with_consumers (polling (-1) (v_consumers v)) v) ∧
    waiters (q_consumers (queue w')) !! caller = Some clean ∧
    s_pool (q_consumers (queue w')) = s_pool (q_consumers (queue w))).
Proof.
  intros Hs Hp Hq Hdst Hcl Hni. pose proof Hs as [Hr Hi Ho Hd].
  set (ws := v_parked (v_consumers v)) in *. set (sd1 := q_consumers (queue w)) in *.
  apply ends_bind, ends_consumers.
  eapply ends_mono; [by apply (enlist_at _ _ _ _ caller atNewest (rest_consumers _ _ _ Hr))|].
  rewrite Ho. intros b sd2 (-> & Hs2 & F2 & P2). simpl in Hs2. fold ws in Hs2, F2.
  set (w2 := put_back consumers sd2 w).
  set (v2 := with_consumers (SideView (v_pollers (v_consumers v) - 1) (ws ++ [caller])) v).
  assert (at_rest w2 v2) as Hr2 by (destruct Hr; split; try done; simpl; by rewrite Ho).
  apply ends_bind. eapply ends_mono; [by apply (dequeueAttempt_empty w2 v2)|].
  intros [n d] w3 (-> & -> & Hl3 & HsC & HsP). cbn [Z.ltb Z.compare].
  change (q_consumers (queue w2)) with sd2 in HsC.
  pose proof (leaves_rest _ _ _ _ _ Hl3) as Hr3. pose proof (leaves_untouched _ _ _ _ _ Hl3) as Hu3.
  assert (untouched A w w3) as Hu by (etrans; [|exact Hu3]; done).
  destruct (listed_waiter sd2 _ _ _ caller Hs2) as (y & Hy & Hty).
  { apply elem_of_app. right. by left. }
  apply ends_bind. eapply (ends_selectPark w3 consumers ctx caller sd2 y e); [|done|done|..].
  { simpl. by rewrite HsC. }
  { rewrite (same_contexts _ _ _ Hu). done. }
  { rewrite (rest_done _ _ _ Hr3). done. }
  apply ends_bind. unfold leaveConsumerList, leaveListWith. apply ends_bind, ends_bind, ends_consumers. rewrite HsC.
  eapply ends_mono; [by apply leaveListed_listed|]. rewrite app_nil_r.
  intros b sd3 (-> & Hs3 & Hc3 & F3 & P3). apply ends_ret, ends_ret.
  set (w4 := put_back consumers sd3 w3).
  assert (leaves w v w4 (with_consumers (polling (-1) (v_consumers v)) v)) as Hl4.
  { split.
    - destruct Hr3; split; try done. simpl. by rewrite Ho.
    - etrans; [exact Hu|done].
    - apply side_leaves_refl. eapply (park_kept ws caller sd1 sd2 sd3); try done. apply Hs3.
    - simpl. rewrite HsP. apply side_leaves_refl, kept_refl. }
  pose proof (idle_leaves _ _ _ _ Hs Hl4) as Hs4.
  apply ends_bind. eapply idle_word; [exact Hs4|]. intros word ->.
  apply ends_bind. eapply ctxErr_idle; [exact Hs4|]. apply ends_ret.
  split_and!; [done..|]. etrans; [exact P3|exact P2].
Qed.

Lemma parkForItems_idle w v dst own :
  idle w v → 1 <= v_pollers (v_consumers v) → is_count (len (v_parked (v_consumers v)) + 1) →
  0 < len dst →
  (∀ caller, own = Some caller → waiters (q_consumers (queue w)) !! caller = Some clean ∧
     caller ∉ s_pool (q_consumers (queue w))) →
  ends (parkForItems A ctx dst own) w (λ r w', r = Some (0, Some e, dst) ∧
    leaves w v w' (with_consumers (polling (-1) (v_consumers v)) v)).
Proof.
  intros Hs Hp Hq Hdst Hown. pose proof (idle_rest _ _ Hs) as Hr. destruct own as [caller|].
  { destruct (Hown caller eq_refl) as [Hcl Hni].
    eapply ends_mono; [by apply (parkAs_idle w v dst caller)|]. intros r w' (-> & Hl & _). done. }
  apply ends_bind, ends_consumers.
  eapply ends_mono; [apply getWaiter_at, (rest_consumers _ _ _ Hr)|].
  intros caller sd1 (Hs1 & Hcl & Hni & Hfrom & K1). set (w1 := put_back consumers sd1 w).
  assert (leaves w v w1 v) as Hl1.
  { pose proof (consumers_leaves A w v sd1 (v_consumers v) Hr Hs1) as H.
    rewrite with_consumers_same in H. apply H, side_leaves_refl. eapply kept_weaken; [done|set_solver]. }
  apply ends_bind. eapply ends_mono; [apply (parkAs_idle w1 v dst caller); [by eapply idle_same|done..]|].
  intros r w2 (-> & Hl2 & Hcl2 & Hpool2). pose proof (leaves_rest _ _ _ _ _ Hl2) as Hr2.
  apply ends_bind, ends_consumers.
  eapply ends_mono; [apply (putWaiter_at _ _ _ _ caller (rest_consumers _ _ _ Hr2) Hcl2)|].
  { by rewrite Hpool2. }
  intros u sd3 (Hs3 & Hh3 & Hp3). apply ends_ret. split; [done|].
  destruct Hl1 as [_ U1 _ C1], Hl2 as [_ U2 [K2 _] C2]. split.
  - destruct Hr2. by split.
  - trans w1; [done|]. by trans w2.
  - simpl. apply side_leaves_refl. eapply kept_put; [|exact Hh3|exact Hp3|exact Hfrom].
    simpl in K2. eapply kept_trans; [eapply kept_weaken; [exact K1|set_solver]|exact K2|done].
  - refine (side_leaves_trans _ _ _ _ _ _ _ C1 C2).
    apply (dll_nodup _ _ (at_list _ _ _ _ (rest_producers _ _ _ Hr))).
Qed.

(** A receiver that finds an empty, open queue and its context done. *)
Lemma receiveWait_idle w v dst own clearOnYield :
  idle w v → counts_fit (v_consumers v) → 0 < len dst →
  (∀ caller, own = Some caller → waiters (q_consumers (queue w)) !! caller = Some clean ∧
     caller ∉ s_pool (q_consumers (queue w)) ∧ caller ∉ v_parked (v_consumers v)) →
  ends (receiveWait A zero ctx dst own clearOnYield) w (λ '(n, err, dst') w', n = 0 ∧ err = Some e ∧
    (dst' = dst ∨ clearOnYield = true ∧ dst' = replicate (length dst) zero) ∧ leaves w v w' v).
Proof.
  intros Hs [Hp Hq] Hdst Hown. pose proof (idle_rest _ _ Hs) as Hr.
  pose proof (rest_consumers _ _ _ Hr) as [_ _ _ _ [Hcp _]]. unfold is_count in Hcp.
  apply ends_bind. eapply ends_mono; [by apply (spinForItems_idle w v)|].
  intros r w0 [-> [->| ->]]; [|by apply ends_ret; split_and!; [..|left|apply leaves_refl]].
  set (d := if clearOnYield then replicate (length dst) zero else dst). cbv zeta.
  assert (d = dst ∨ clearOnYield = true ∧ d = replicate (length dst) zero) as Hd
    by (unfold d; destruct clearOnYield; auto).
  assert (0 < len d) as Hdl.
  { destruct Hd as [->|[_ ->]]; [done|]. unfold len in *. by rewrite length_replicate. }
  apply ends_bind, (ends_register_consumers w v); [done..|]. rewrite (idle_open _ _ Hs).
  intros w1 Hl1. pose proof (idle_leaves _ _ _ _ Hs Hl1) as Hs1.
  set (v1 := with_consumers (polling 1 (v_consumers v)) v) in *.
  assert (1 <= v_pollers (v_consumers v1)) as Hp1 by (simpl; lia).
  assert (with_consumers (polling (-1) (v_consumers v1)) v1 = v) as Hback.
  { unfold v1, with_consumers, polling. destruct v as [? ? [? ?] ? ?]. simpl. f_equal. f_equal. lia. }
  apply ends_loop, ends_bind. eapply ends_mono; [by apply (yieldForItems_idle w1 v1)|].
  rewrite Hback. intros r w2 [[-> ->]|[-> Hl2]].
  2: { apply ends_ret. split_and!; [done..|]. by eapply leaves_trans. }
  apply ends_bind, ends_load. destruct (NeverPark _).
  - apply ends_bind, ends_forever. eapply ends_mono; [by apply pollRegistered_idle|].
    rewrite Hback. intros r w2 [-> Hl2]. eexists. split; [done|]. apply ends_ret.
    split_and!; [done..|]. by eapply leaves_trans.
  - apply ends_bind. eapply ends_mono; [apply (parkForItems_idle w1 v1); [done..|]|].
    { intros caller Hc. destruct (Hown caller Hc) as (H1 & H2 & H3).
      destruct (leaves_consumers _ _ _ _ _ Hl1) as [[K1 K2 K3] _]. split; [by apply K1|].
      intros [?|?]%K3; [done|congruence]. }
    rewrite Hback. intros r w2 [-> Hl2]. apply ends_ret.
    split_and!; [done..|]. by eapply leaves_trans.
Qed.
End receive_wait.

(** ** Receiving *)

(** A closed, empty queue ends every receive. *)
Lemma receiveWait_closed w v ctx dst own clearOnYield :
  at_rest w v → v_items v = [] → v_closed v = true → 0 < len dst →
  ends (receiveWait A zero ctx dst own clearOnYield) w (λ '(n, err, dst') w', n = 0 ∧
    err = Some ErrClosed ∧ (clearOnYield = false → dst' = dst) ∧ leaves w v w' v).
Proof.
  intros Hr Hi Hc Hd. pose proof (rest_consumers _ _ _ Hr) as [_ _ _ _ [Hcp Hcq]].
  assert (∀ w1 d, leaves w v w1 v → 0 < len d →
    ends (drainCheck A d) w1 (λ '(n, err, dst') w', n = 0 ∧ err = Some ErrClosed ∧ dst' = d ∧
      leaves w v w' v)) as Hdrain.
  { intros w1 d Hl Hdl. pose proof (leaves_rest _ _ _ _ _ Hl) as Hr1.
    eapply ends_mono; [by apply (drainCheck_at A w1 v)|]. intros [[n err] d'] w2 (Hn & -> & -> & Hl2).
    pose proof (received_range A w1 v d Hr1). assert (n = 0) as ->.
    { rewrite Hn. unfold received_n in *. rewrite Hi in *. change (len []) with 0 in *. lia. }
    cbn [Z.eqb] in *. split_and!; [done..|]. by eapply leaves_trans. }
  apply ends_bind.
  assert (ends (spinForItems A ctx dst) w (λ r w', leaves w v w' v ∧
    (r = None ∨ r = Some (0, Some ErrClosed, dst)))) as Hspin.
  { apply ends_bind, ends_load, ends_loop. destruct (_ <=? 0).
    { apply ends_ret. split; [by apply leaves_refl|by left]. }
    apply ends_bind, (ends_consumers_word A w v); [done|]. rewrite closed_word, Hc by done.
    apply ends_bind. eapply ends_mono; [apply (Hdrain w dst); [by apply leaves_refl|done]|].
    intros [[n err] d] w2 (-> & -> & -> & Hl). apply ends_ret. auto. }
  eapply ends_mono; [exact Hspin|]. intros r w1 [Hl1 [->| ->]]; [|by apply ends_ret]. cbv zeta.
  set (d := if clearOnYield then replicate (length dst) zero else dst).
  assert (0 < len d) as Hdl.
  { unfold d. destruct clearOnYield; [|done]. unfold len in *. by rewrite length_replicate. }
  apply ends_bind, (ends_register_consumers w1 v); [apply (leaves_rest _ _ _ _ _ Hl1)|by rewrite Hc|].
  rewrite Hc. intros w2 Hl2. eapply ends_mono; [apply (Hdrain w2 d); [by eapply leaves_trans|done]|].
  intros [[n err] d'] w3 (-> & -> & -> & Hl). split_and!; [done..| |done]. by intros ->.
Qed.

(** What [receive] does when it need not wait. *)
Lemma receive_now w v ctx dst own clearOnYield :
  at_rest w v → 0 < len dst → v_items v ≠ [] →
  ends (receive A zero ctx dst own clearOnYield) w (λ '(n, err, dst') w', n = received_n w v dst ∧
    0 < n ∧ err = None ∧ dst' = filled v n dst ∧ leaves w v w' (freed (received v n))).
Proof.
  intros Hr Hd Hne. apply ends_bind. eapply ends_mono; [by apply (dequeueAttempt_at A w v)|].
  intros [n d] w1 (Hn & -> & Hl).
  assert (0 < n) as Hpos.
  { pose proof (fifo_limits A _ _ _ (rest_engine _ _ _ Hr)) as (_ & _ & Hm).
    rewrite <- (rest_maxReceive _ _ _ Hr) in Hm. rewrite Hn. unfold received_n.
    destruct (v_items v); [done|]. unfold len in *. simpl. lia. }
  rewrite (proj2 (Z.ltb_lt _ _) Hpos). apply ends_bind.
  eapply ends_mono; [apply (wakeProducers_at A), (leaves_rest _ _ _ _ _ Hl)|]. intros u w2 Hl2.
  apply ends_ret. split_and!; [done..|]. by eapply leaves_trans.
Qed.

Lemma receive_empty w v ctx dst own clearOnYield (Q : Z * option error * list T → world E U → Prop) :
  at_rest w v → 0 < len dst → v_items v = [] →
  (∀ w1, leaves w v w1 v → sides_same w w1 → ends (receiveWait A zero ctx dst own clearOnYield) w1 Q) →
  ends (receive A zero ctx dst own clearOnYield) w Q.
Proof.
  intros Hr Hd Hi HQ. apply ends_bind. eapply ends_mono; [by apply (dequeueAttempt_empty w v)|].
  intros [n d] w1 (-> & -> & Hl & Hs). cbn [Z.ltb Z.compare]. by apply HQ.
Qed.

Lemma Receive_at w v ctx dst :
  at_rest w v →
  (v_items v ≠ [] ∨ v_closed v = true ∨ dst = [] →
   ends (Receive A zero ctx dst) w (λ '(n, err, dst') w', tried_receive A w v dst n err dst' w')) ∧
  (∀ e, v_items v = [] → v_closed v = false → dst ≠ [] → contexts w !! ctx = Some e →
   counts_fit (v_consumers v) →
   ends (Receive A zero ctx dst) w (λ '(n, err, dst') w',
     n = 0 ∧ err = Some e ∧ dst' = dst ∧ leaves w v w' v)).
Proof.
  intros Hr. pose proof (received_range A w v dst Hr) as Hrange.
  destruct dst as [|x dst0]; [split; [intros _|by intros]|].
  { apply ends_ret. assert (received_n w v [] = 0) as Hn by (change (len []) with 0 in Hrange; lia).
    unfold tried_receive, filled. rewrite Hn. change (len []) with 0. rewrite andb_false_r.
    split_and!; [done..|by apply leaves_refl]. }
  set (dst := x :: dst0) in *. assert (0 < len dst) as Hd by (unfold dst, len; simpl; lia).
  destruct (prefix_received A w v dst Hr Hd) as (Hdl & Hn & Hf).
  assert (∀ Q, ends (receive A zero ctx (sub dst 0 (prefix_len w dst)) None false) w
      (λ '(n, err, d) w', Q (n, err, d ++ drop (Z.to_nat (prefix_len w dst)) dst) w') →
    ends (Receive A zero ctx dst) w Q) as Hcall.
  { intros Q HQ. unfold Receive. rewrite (proj2 (Z.eqb_neq _ _)) by lia.
    apply ends_bind, ends_load, ends_bind. eapply ends_mono; [exact HQ|].
    intros [[n err] d] w'. by apply ends_ret. }
  split.
  - intros Hnow. apply Hcall. destruct (v_items v) as [|y l] eqn:Hi.
    + destruct Hnow as [?|[Hc|?]]; [done| |done]. eapply receive_empty; [done..|]. intros w1 Hl1 _.
      eapply ends_mono; [by apply (receiveWait_closed w1 v); [apply (leaves_rest _ _ _ _ _ Hl1)|..]|].
      intros [[n err] d] w2 (-> & -> & Hd2 & Hl2).
      assert (received_n w v dst = 0) as Hn0.
      { unfold received_n in *. rewrite Hi in *. change (len []) with 0 in *. lia. }
      unfold tried_receive. rewrite Hn0, Hc, (proj2 (Z.ltb_lt _ _) Hd), (Hd2 eq_refl).
      split_and!; [done| |done|by eapply leaves_trans].
      rewrite <- (Hf 0) by done. done.
    + eapply ends_mono; [by apply (receive_now w v); rewrite ?Hi|]. rewrite Hn.
      intros [[n err] d] w1 (Hn1 & Hpos & -> & -> & Hl). unfold tried_receive.
      rewrite (proj2 (Z.eqb_neq n 0)) by lia. split_and!; [done|by apply Hf|done|done].
  - intros e Hi Hc _ Hctx Hcf. apply Hcall. eapply receive_empty; [done..|]. intros w1 Hl1 _.
    assert (idle ctx e w v) as Hs by done.
    eapply ends_mono; [apply (receiveWait_idle ctx e w1 v); [by eapply idle_same|done|done|done]|].
    intros [[n err] d] w2 (-> & -> & [->|[? _]] & Hl2); [|done].
    split_and!; [done..| |by eapply leaves_trans]. rewrite <- (filled_0 v (sub _ _ _)), Hf; [done|].
    unfold received_n in *. rewrite Hi in *. change (len []) with 0 in *. lia.
Qed.

(** ** Consume on a closed queue *)

Lemma at_rest_queue w w' v : queue w' = queue w → at_rest w v → at_rest w' v.
Proof. intros Hq []. split; by rewrite Hq. Qed.

Section consume.
Context (ctx : nat) (handler : list T → M (option error * list T)).
(** [I hist u]: the handler has been given [hist] and returned nil each time, and the rest of the
    program is in state [u]; [F hist e u]: it failed with [e] on the last batch of [hist]. *)
Context (I : list T → U → Prop) (F : list T → error → U → Prop).
Hypothesis handler_spec : ∀ w hist batch,
  batch ≠ [] → len batch <= q_maxReceiveBatch (queue w) → I hist (user w) →
  ends (handler batch) w (λ '(failure, batch') w',
    queue w' = queue w ∧ contexts w' = contexts w ∧
    match failure with
    | None => length batch' = length batch ∧ I (hist ++ batch) (user w')
    | Some e => F (hist ++ batch) e (user w')
    end).

Lemma Consume_closed w v :
  at_rest w v → v_closed v = true → contexts w !! ctx = None → I [] (user w) →
  ends (Consume A zero ctx handler) w (λ err w', ∃ hist v',
    at_rest w' v' ∧ v_items v = hist ++ v_items v' ∧ v_closed v' = true ∧
    v_consumers v' = v_consumers v ∧
    match err with
    | None => v_items v' = [] ∧ I hist (user w')
    | Some err => ∃ e, err = Errorf "workq: handler: %w" [] e ∧ F hist e (user w')
    end).
Proof.
  intros Hr Hc Hctx HI. apply ends_bind, ends_load, ends_bind, ends_consumers.
  eapply ends_mono; [apply newWaiter_at, (rest_consumers _ _ _ Hr)|].
  intros own sd (Hs & _). set (w1 := put_back consumers sd w).
  assert (at_rest w1 v) as Hr1 by (destruct Hr; by split).
  pose proof (fifo_limits A _ _ _ (rest_engine _ _ _ Hr)) as (_ & _ & Hm).
  rewrite <- (rest_maxReceive _ _ _ Hr) in Hm. set (maxR := q_maxReceiveBatch (queue w)) in *.
  set (P := λ (n : nat) (buffer : list T) (w' : world E U), ∃ hist v', n = length (v_items v') ∧ len buffer = maxR ∧
    at_rest w' v' ∧ v_items v = hist ++ v_items v' ∧ v_closed v' = true ∧
    v_consumers v' = v_consumers v ∧ contexts w' = contexts w ∧
    q_maxReceiveBatch (queue w') = maxR ∧ I hist (user w')).
  apply (ends_loop_wf P _ (length (v_items v))).
  2: { exists [], v. split_and!; try done. unfold len. rewrite length_replicate. lia. }
  intros n buffer w2 (hist & v2 & -> & Hb & Hr2 & Hit & Hc2 & Hcons & Hctx2 & Hmax2 & HI2).
  apply ends_bind, ends_load. rewrite Hctx2, Hctx. apply ends_bind.
  destruct (v_items v2) as [|y l] eqn:Hi.
  - eapply receive_empty; [done|lia|done|]. intros w3 Hl3 _.
    eapply ends_mono; [apply (receiveWait_closed w3 v2); [apply (leaves_rest _ _ _ _ _ Hl3)|done|done|lia]|].
    intros [[n err] d] w4 (-> & -> & _ & Hl4). apply ends_ret. exists hist, v2.
    pose proof (leaves_trans _ _ _ _ _ _ _ Hr2 Hl3 Hl4) as Hl. rewrite Hi in *.
    split_and!; [apply (leaves_rest _ _ _ _ _ Hl)|done..|].
    by rewrite (same_user _ _ _ (leaves_untouched _ _ _ _ _ Hl)).
  - eapply ends_mono; [apply (receive_now w2 v2); [done|lia|by rewrite Hi]|].
    intros [[n err] d] w3 (Hn & Hpos & -> & -> & Hl).
    pose proof (received_range A w2 v2 buffer Hr2) as Hrange. rewrite <- Hn in Hrange.
    pose proof (leaves_untouched _ _ _ _ _ Hl) as Hu.
    assert (n <= len (v_items v2)) as Hle by (rewrite Hn; unfold received_n; lia).
    assert (sub (filled v2 n buffer) 0 n = take (Z.to_nat n) (v_items v2)) as Hbatch.
    { unfold sub, filled. rewrite drop_0, Z.sub_0_r. rewrite take_app_le by (rewrite length_take; unfold len in *; lia).
      rewrite take_take. f_equal. lia. }
    rewrite Hbatch. apply ends_bind.
    assert (len (take (Z.to_nat n) (v_items v2)) = n) as Hlb by (apply len_take; lia).
    destruct (settings_eq _ _ _ Hu) as (_ & Hm3 & _).
    eapply ends_mono; [apply (handler_spec w3 hist)|].
    { intros Hnil. rewrite Hnil in Hlb. change (len []) with 0 in Hlb. lia. }
    { rewrite Hlb, Hm3, Hmax2. lia. }
    { by rewrite (same_user _ _ _ Hu). }
    intros [failure batch'] w4 (Hq & Hctx4 & Hfail). apply ends_ret.
    pose proof (at_rest_queue _ _ _ Hq (leaves_rest _ _ _ _ _ Hl)) as Hr4.
    assert (v_items v = (hist ++ take (Z.to_nat n) (v_items v2)) ++ drop (Z.to_nat n) (v_items v2)) as Hit4.
    { by rewrite <- app_assoc, take_drop, Hi. }
    destruct failure as [e|].
    + exists (hist ++ take (Z.to_nat n) (v_items v2)), (freed (received v2 n)).
      split_and!; [done|done|done|done|]. by exists e.
    + destruct Hfail as [Hlen HI4]. exists (length (drop (Z.to_nat n) (v_items v2))). split.
      2: { rewrite Hi in *. rewrite length_drop. unfold len in *. simpl in *. lia. }
      exists (hist ++ take (Z.to_nat n) (v_items v2)), (freed (received v2 n)).
      split_and!; [done| |done|done|done|done| | |done].
      * unfold filled. rewrite len_app. unfold len in *. rewrite Hlen, drop_app_ge, length_drop
          by (rewrite length_take; lia). rewrite !length_drop, length_take in *. lia.
      * rewrite Hctx4, (same_contexts _ _ _ Hu). done.
      * by rewrite Hq, Hm3, Hmax2.
Qed.

End consume.

(** ** The promises *)

(** C15. Pushing one item, on a queue at rest. A closed queue refuses it; with room the item is
    queued behind the others and consumers are woken, oldest first, as the wake policy says, so
    that a parked consumer is never left without a registered poller. On a full queue [TryPush]
    returns [ErrFull], and [Push] with a done context returns the context's error, leaving the
    queue and both sides as they were, whatever the wait strategy. *)
Theorem workq_Push_spec w v ctx x :
  at_rest w v → 1 <= v_budget v →
  let pushed := λ (err : option error) w',
    if v_closed v then err = Some ErrClosed ∧ leaves w v w' v
    else err = None ∧ leaves w v w' (published w (queued v [x])) ∧
      (v_parked (v_consumers v) ≠ [] → 1 <= v_pollers (v_consumers (published w (queued v [x])))) in
  (v_closed v = true ∨ 0 < room A w v →
   ends (TryPush A x) w pushed ∧ ends (Push A ctx x) w pushed) ∧
  (v_closed v = false → room A w v = 0 →
   ends (TryPush A x) w (λ err w', err = Some ErrFull ∧ leaves w v w' v) ∧
   ∀ e, contexts w !! ctx = Some e → counts_fit (v_producers v) →
     ends (Push A ctx x) w (λ err w', err = Some e ∧ leaves w v w' v)).
Proof.
  intros Hr Hk. cbv zeta. destruct (Push_at w v ctx x Hr Hk) as [Hnow Hstuck].
  pose proof (TryPush_at A w v x Hr Hk) as Htry. unfold tried_push in Htry.
  pose proof (rest_wakeCap _ _ _ Hr). pose proof (rest_consumers _ _ _ Hr) as [_ _ _ _ [Hcp _]].
  assert (v_parked (v_consumers v) ≠ [] → 1 <= v_pollers (v_consumers (published w (queued v [x])))) as Hpolled
    by (by intros; apply published_polled_at).
  split.
  - intros Hcase. specialize (Hnow Hcase).
    split; (eapply ends_mono; [eassumption|]); intros err w'; destruct (v_closed v); try done.
    + destruct Hcase as [?|Hroom]; [done|]. rewrite (proj2 (Z.ltb_lt _ _) Hroom). by intros [-> ?].
    + by intros [-> ?].
  - intros Hc Hf. split; [|by intros; apply Hstuck]. by rewrite Hc, Hf in Htry.
Qed.

(** C16. Pushing a batch. The longest prefix that fits is queued in order and consumers are woken
    for it, never more than the wake cap and never fewer than leaves one poller. [TryPushBatch]
    returns the count with [ErrFull] for the rest; [PushBatch] pushes everything when it fits,
    and with a done context tries one chunk and returns the context's error for the rest. *)
Theorem workq_PushBatch_spec w v ctx xs :
  at_rest w v → len xs <= v_budget v →
  ends (TryPushBatch A xs) w (λ '(n, err) w', tried_batch A w v xs n err w') ∧
  (v_closed v = false → len xs <= room A w v → contexts w !! ctx = None →
   ends (PushBatch A ctx xs) w (λ '(n, err) w',
     n = len xs ∧ err = None ∧ pushing A w v xs (len xs) w')) ∧
  (∀ e, v_closed v = false → contexts w !! ctx = Some e → counts_fit (v_producers v) →
   ends (PushBatch A ctx xs) w (λ '(n, err) w',
     n = Z.min (Z.min (len xs) (q_maxPushBatch (queue w))) (room A w v) ∧
     err = (if n <? len xs then Some e else None) ∧ pushing A w v xs n w')).
Proof.
  intros Hr Hk. split_and!.
  - by apply TryPushBatch_at.
  - intros. by apply PushBatch_fits.
  - intros. by apply PushBatch_done.
Qed.

(** C17. Receiving. The oldest items move to the front of the destination, as many as the
    destination, the batch limit and the queue allow, and one parked producer is woken unless one
    is polling. An empty closed queue gives [ErrClosed]; on an empty open queue [TryReceive]
    returns nothing and [Receive] with a done context returns the context's error, leaving the
    queue and both sides as they were, whatever the wait strategy. *)
Theorem workq_Receive_spec w v ctx dst :
  at_rest w v →
  ends (TryReceive A dst) w (λ '(n, err, dst') w', tried_receive A w v dst n err dst' w') ∧
  (v_items v ≠ [] ∨ v_closed v = true ∨ dst = [] →
   ends (Receive A zero ctx dst) w (λ '(n, err, dst') w', tried_receive A w v dst n err dst' w')) ∧
  (∀ e, v_items v = [] → v_closed v = false → dst ≠ [] → contexts w !! ctx = Some e →
   counts_fit (v_consumers v) →
   ends (Receive A zero ctx dst) w (λ '(n, err, dst') w',
     n = 0 ∧ err = Some e ∧ dst' = dst ∧ leaves w v w' v)) ∧
  (v_parked (v_producers v) ≠ [] → ∀ n, 1 <= v_pollers (v_producers (freed (received v n)))).
Proof.
  intros Hr. split; [by apply TryReceive_at|]. split; [by apply Receive_at|].
  split; [by apply Receive_at|]. intros Hne n.
  pose proof (rest_producers _ _ _ Hr) as [_ _ _ _ [[Hcp _] _]]. by apply freed_polled.
Qed.

(** C18. [Close] marks the queue closed and keeps its items and the waiters of both sides, and a
    second [Close] changes nothing. Afterwards every push returns [ErrClosed], items already
    queued can still be received, and once the queue is empty every receive returns [ErrClosed]. *)
Theorem workq_Close_spec w v ctx :
  at_rest w v →
  ends Close w (λ _ w', leaves w v w' (shut v) ∧
    ends Close w' (λ _ w2, leaves w' (shut v) w2 (shut v)) ∧
    (∀ x, 1 <= v_budget v →
       ends (Push A ctx x) w' (λ err w2, err = Some ErrClosed ∧ leaves w' (shut v) w2 (shut v))) ∧
    (∀ dst, 0 < len dst →
       ends (Receive A zero ctx dst) w' (λ '(n, err, dst') w2, n = received_n w v dst ∧
         (err = if n =? 0 then Some ErrClosed else None) ∧ dst' = filled v n dst))).
Proof.
  intros Hr. eapply ends_mono; [by apply (Close_at A)|]. intros u w' Hl.
  pose proof (leaves_rest _ _ _ _ _ Hl) as Hr'. split_and!; [done|exact (Close_at A w' (shut v) Hr')|..].
  - intros x Hk. apply (proj1 (Push_at w' (shut v) ctx x Hr' Hk)). by left.
  - intros dst Hd. eapply ends_mono; [apply (proj1 (Receive_at w' (shut v) ctx dst Hr')); auto|].
    intros [[n err] dst'] w2 (Hn & -> & -> & _). rewrite (proj2 (Z.ltb_lt _ _) Hd), !andb_true_r.
    split_and!; [|done..]. rewrite Hn.
    by rewrite (received_untouched A w w' _ _ (leaves_untouched _ _ _ _ _ Hl)).
Qed.
End wait.
End WorkqWait.
