(* ===== verification/WorkqEngine.v ===== *)
(** * Building a work queue (src/workq/engine.go, New of workq.go)

    The engine of a work queue is one of four ring queues, picked by the declared sides. The
    [engine] interface is a sum; a call reads the dynamic type and runs the method of that queue.
    The sum keeps the promises of [FifoQueue], so every theorem on the work queue applies to the
    queues [New] builds. *)

From Stdlib Require Import ZArith Lia.
From stdpp Require Import prelude list gmap strings.
From S2P Require Import Prelude Prog RingCore RingSlots RingSpec.
From S2P Require Import DpdkOptions DpdkSPSC FrontierCore FrontierMPMC FrontierMPSC FrontierSPMC.
From S2P Require Import WaitSide Workq WorkqSpec WorkqWait.

Module WorkqEngine.
Import Prog Ring RingSpec WaitSide Workq WorkqSpec.

Inductive engineOf (T : Type) :=
| EngineSPSC (q : SPSC.SPSCQueue T)
| EngineMPSC (q : FMPSC.MPSCQueue T)
| EngineSPMC (q : FSPMC.SPMCQueue T)
| EngineMPMC (q : FMPMC.MPMCQueue T).
Arguments EngineSPSC {T} _.
Arguments EngineMPSC {T} _.
Arguments EngineSPMC {T} _.
Arguments EngineMPMC {T} _.

Section engine.
Context {T : Type} (zero : T).
Implicit Types e : engineOf T.

(** The queue behind the interface, when it has that dynamic type. *)
Definition as_SPSC : focus (engineOf T) (SPSC.SPSCQueue T).
Proof.
  refine (Focus (λ e, match e with EngineSPSC q => Some q | _ => None end)
            (λ q e, match e with EngineSPSC _ => EngineSPSC q | _ => e end) _ _ _); by intros []; naive_solver.
Defined.
Definition as_MPSC : focus (engineOf T) (FMPSC.MPSCQueue T).
Proof.
  refine (Focus (λ e, match e with EngineMPSC q => Some q | _ => None end)
            (λ q e, match e with EngineMPSC _ => EngineMPSC q | _ => e end) _ _ _); by intros []; naive_solver.
Defined.
Definition as_SPMC : focus (engineOf T) (FSPMC.SPMCQueue T).
Proof.
  refine (Focus (λ e, match e with EngineSPMC q => Some q | _ => None end)
            (λ q e, match e with EngineSPMC _ => EngineSPMC q | _ => e end) _ _ _); by intros []; naive_solver.
Defined.
Definition as_MPMC : focus (engineOf T) (FMPMC.MPMCQueue T).
Proof.
  refine (Focus (λ e, match e with EngineMPMC q => Some q | _ => None end)
            (λ q e, match e with EngineMPMC _ => EngineMPMC q | _ => e end) _ _ _); by intros []; naive_solver.
Defined.

Abbreviation spsc := (SPSC.spsc_api zero).
Abbreviation mpsc := (FMPSC.fmpsc_api zero).
Abbreviation spmc := (FSPMC.fspmc_api zero).
Abbreviation mpmc := (FMPMC.fmpmc_api zero).

(** A method call on the interface. *)
Definition dispatch {B} (method : ∀ S, queue_api S T → prog S B) : prog (engineOf T) B :=
  e ← load id;
  match e with
  | EngineSPSC _ => zoom as_SPSC (method _ spsc)
  | EngineMPSC _ => zoom as_MPSC (method _ mpsc)
  | EngineSPMC _ => zoom as_SPMC (method _ spmc)
  | EngineMPMC _ => zoom as_MPMC (method _ mpmc)
  end.

(** A fact or a setting of the queue behind the interface. *)
Definition inspect {B} (f : ∀ S, queue_api S T → S → B) (e : engineOf T) : B :=
  match e with
  | EngineSPSC q => f _ spsc q
  | EngineMPSC q => f _ mpsc q
  | EngineSPMC q => f _ spmc q
  | EngineMPMC q => f _ mpmc q
  end.

Definition engine_same e e' : Prop :=
  match e, e' with
  | EngineSPSC q, EngineSPSC q' => api_same spsc q q'
  | EngineMPSC q, EngineMPSC q' => api_same mpsc q q'
  | EngineSPMC q, EngineSPMC q' => api_same spmc q q'
  | EngineMPMC q, EngineMPMC q' => api_same mpmc q q'
  | _, _ => False
  end.

Definition engine_api : queue_api (engineOf T) T :=
  QueueApi zero (λ e k l, inspect (λ S A q, api_holds A q k l) e) engine_same
    (inspect (λ _ A, api_capacity A)) (inspect (λ _ A, api_maxEnqueue A))
    (inspect (λ _ A, api_maxDequeue A)) (inspect (λ _ A, api_exactEnqueue A))
    (inspect (λ _ A, api_exactDequeue A))
    (λ item, dispatch (λ _ A, api_Enqueue A item)) (dispatch (λ _ A, api_Dequeue A))
    (λ items, dispatch (λ _ A, api_EnqueueBulk A items))
    (λ items, dispatch (λ _ A, api_EnqueueBurst A items))
    (λ dst, dispatch (λ _ A, api_DequeueBulk A dst))
    (λ dst, dispatch (λ _ A, api_DequeueBurst A dst))
    (dispatch (λ _ A, api_Count A)).

(** ** Construction *)

Definition newSPSCEngine (capacity : Z) (cfg : config) : error + engineOf T :=
  match SPSC.NewSPSCQueue zero capacity
          [DpdkOptions.WithMaxEnqueueBatch (maxPushBatch cfg); DpdkOptions.WithMaxDequeueBatch (maxReceiveBatch cfg)] with
  | inl err => inl err
  | inr queue => inr (EngineSPSC queue)
  end.

Definition newFrontierEngine {Q} (construct : Z → list Frontier.Option → error + Q)
    (boxed : Q → engineOf T) (capacity : Z) (cfg : config) : error + engineOf T :=
  match construct capacity
          [Frontier.WithMaxEnqueueBatch (maxPushBatch cfg);
           Frontier.WithMaxDequeueBatch (maxReceiveBatch cfg)] with
  | inl err => inl err
  | inr queue => inr (boxed queue)
  end.

Definition newEngine (capacity : Z) (cfg : config) : error + engineOf T :=
  if singleProducer cfg && singleConsumer cfg then newSPSCEngine capacity cfg
  else if singleConsumer cfg then newFrontierEngine (FMPSC.NewMPSCQueue zero) EngineMPSC capacity cfg
  else if singleProducer cfg then newFrontierEngine (FSPMC.NewSPMCQueue zero) EngineSPMC capacity cfg
  else newFrontierEngine (FMPMC.NewMPMCQueue zero) EngineMPMC capacity cfg.

Definition New (procs capacity : Z) (options : list Option) : error + Queue (engineOf T) :=
  match resolveConfig capacity options with
  | inl err => inl err
  | inr cfg =>
      match newEngine capacity cfg with
      | inl err => inl (Errorf "new work queue: %w" [] err)
      | inr engine => inr (newQueue engine_api procs engine cfg)
      end
  end.

(** ** The interface keeps the promises of its queues *)

#[local] Existing Instances SPSC.spsc_fifo FMPSC.fmpsc_fifo FSPMC.fspmc_fifo FMPMC.fmpmc_fifo.

Lemma ends_dispatch {B} (method : ∀ S, queue_api S T → prog S B) e (Q : B → engineOf T → Prop) :
  match e with
  | EngineSPSC q => ends (method _ spsc) q (λ b q', Q b (EngineSPSC q'))
  | EngineMPSC q => ends (method _ mpsc) q (λ b q', Q b (EngineMPSC q'))
  | EngineSPMC q => ends (method _ spmc) q (λ b q', Q b (EngineSPMC q'))
  | EngineMPMC q => ends (method _ mpmc) q (λ b q', Q b (EngineMPMC q'))
  end → ends (dispatch method) e Q.
Proof. intros H. apply ends_bind, ends_load. destruct e; by eapply ends_zoom. Qed.

Lemma engine_enqueues e k l : api_holds engine_api e k l → enqueue_spec engine_api e k l.
Proof.
  destruct e as [q|q|q|q]; intros Hh;
    [destruct (fifo_enqueue spsc q k l Hh) as (H1 & H2 & H3)
    |destruct (fifo_enqueue mpsc q k l Hh) as (H1 & H2 & H3)
    |destruct (fifo_enqueue spmc q k l Hh) as (H1 & H2 & H3)
    |destruct (fifo_enqueue mpmc q k l Hh) as (H1 & H2 & H3)];
    (split_and!; intros; apply ends_dispatch;
      [by apply H1|eapply ends_mono; [by apply H2|by intros [] ?]
      |eapply ends_mono; [by apply H3|by intros [] ?]]).
Qed.

Lemma engine_dequeues e k l : api_holds engine_api e k l → dequeue_spec engine_api e k l.
Proof.
  destruct e as [q|q|q|q]; intros Hh;
    [destruct (fifo_dequeue spsc q k l Hh) as (H1 & H2 & H3 & H4)
    |destruct (fifo_dequeue mpsc q k l Hh) as (H1 & H2 & H3 & H4)
    |destruct (fifo_dequeue spmc q k l Hh) as (H1 & H2 & H3 & H4)
    |destruct (fifo_dequeue mpmc q k l Hh) as (H1 & H2 & H3 & H4)];
    (split_and!; intros; apply ends_dispatch;
      [eapply ends_mono; [by apply H1|by intros [] ?]|eapply ends_mono; [by apply H2|by intros [[] ?] ?]
      |eapply ends_mono; [by apply H3|by intros [[] ?] ?]|by apply H4]).
Qed.

#[export] Instance engine_fifo : FifoQueue engine_api.
Proof.
  split; [apply engine_enqueues|apply engine_dequeues|..].
  - intros [q|q|q|q] k l;
      [apply (fifo_fits spsc)|apply (fifo_fits mpsc)|apply (fifo_fits spmc)|apply (fifo_fits mpmc)].
  - intros [q|q|q|q] k l;
      [apply (fifo_limits spsc)|apply (fifo_limits mpsc)|apply (fifo_limits spmc)|apply (fifo_limits mpmc)].
  - intros [q|q|q|q] [q'|q'|q'|q']; try done;
      [apply (fifo_same spsc)|apply (fifo_same mpsc)|apply (fifo_same spmc)|apply (fifo_same mpmc)].
Qed.

(** ** What [New] returns *)

Definition strategy_ok (s : WaitStrategy) : bool := (0 <=? Spins s) && (0 <=? Yields s).

(** The configuration the options leave. *)
Definition configured (capacity : Z) (options : list Option) : config :=
  foldl (λ cfg option, option cfg)
    (Config false false (Z.min defaultMaxBatch capacity) (Z.min defaultMaxBatch capacity)
       defaultConsumerWait defaultProducerWait) options.

(** The first thing that is wrong with them, in the order of the checks. *)
Definition engine_fault (capacity push receive : Z) : option error :=
  let batch_ok n := (1 <=? n) && (n <=? capacity) in
  if CheckCapacity capacity then Some ErrInvalidCount
  else if batch_ok push && batch_ok receive then None else Some ErrInvalidMaxBatch.

Definition fault (capacity : Z) (cfg : config) : option error :=
  if strategy_ok (consumerWait cfg) && strategy_ok (producerWait cfg)
  then engine_fault capacity (maxPushBatch cfg) (maxReceiveBatch cfg)
  else Some ErrInvalidWaitStrategy.

Lemma checkWaitStrategy_ok side s :
  if strategy_ok s then checkWaitStrategy side s = None
  else ∃ err, checkWaitStrategy side s = Some err ∧ errors_Is err ErrInvalidWaitStrategy = true.
Proof.
  unfold checkWaitStrategy, strategy_ok. destruct (Z.leb_spec 0 (Spins s)), (Z.leb_spec 0 (Yields s)); simpl.
  - by rewrite !(proj2 (Z.ltb_ge _ _)).
  - rewrite (proj2 (Z.ltb_ge (Spins s) 0)), (proj2 (Z.ltb_lt (Yields s) 0)) by done.
    eexists. split; [done|]. auto with go_err.
  - rewrite (proj2 (Z.ltb_lt (Spins s) 0)) by done. eexists. split; [done|].
    auto with go_err.
  - rewrite (proj2 (Z.ltb_lt (Spins s) 0)) by done. eexists. split; [done|].
    auto with go_err.
Qed.

(** [r] is an error with the given fault in its chain, or a value with [P]. *)
Definition outcome {X} (r : error + X) (f : option error) (P : X → Prop) : Prop :=
  match r with
  | inl err => ∃ sentinel, f = Some sentinel ∧ errors_Is err sentinel = true
  | inr x => f = None ∧ P x
  end.

Lemma CheckCapacity_is capacity err :
  CheckCapacity capacity = Some err → errors_Is err ErrInvalidCount = true.
Proof. unfold CheckCapacity. destruct (_ || _); [|done]. intros [= <-]. auto with go_err. Qed.

Lemma frontier_outcome name capacity push receive :
  outcome (Frontier.resolveConfig name capacity
    [Frontier.WithMaxEnqueueBatch push; Frontier.WithMaxDequeueBatch receive])
    (engine_fault capacity push receive) (λ _, True).
Proof.
  unfold Frontier.resolveConfig, engine_fault, CheckMaxBatch. simpl.
  destruct (CheckCapacity capacity) as [err|] eqn:Hc; simpl.
  { eexists. split; [done|]. by apply errors_Is_wrap, (CheckCapacity_is capacity). }
  destruct ((1 <=? push) && (push <=? capacity)); simpl.
  2: { eexists. split; [done|]. repeat first [apply errors_Is_refl|apply errors_Is_wrap]. }
  destruct ((1 <=? receive) && (receive <=? capacity)); simpl; [done|].
  eexists. split; [done|]. repeat first [apply errors_Is_refl|apply errors_Is_wrap].
Qed.

Lemma dpdk_outcome name capacity push receive :
  outcome (DpdkOptions.resolveConfig name capacity DpdkOptions.modeSingle DpdkOptions.modeSingle true
    [DpdkOptions.WithMaxEnqueueBatch push; DpdkOptions.WithMaxDequeueBatch receive])
    (engine_fault capacity push receive) (λ _, True).
Proof.
  unfold DpdkOptions.resolveConfig, engine_fault, DpdkOptions.guard_err, DpdkOptions.checkCapacity,
    DpdkOptions.checkMaxBatch, CheckMaxBatch.
  destruct (CheckCapacity capacity) as [err|] eqn:Hc; simpl.
  { eexists. split; [done|]. by apply errors_Is_wrap, (CheckCapacity_is capacity). }
  destruct ((1 <=? push) && (push <=? capacity)); simpl.
  2: { eexists. split; [done|]. repeat first [apply errors_Is_refl|apply errors_Is_wrap]. }
  destruct ((1 <=? receive) && (receive <=? capacity)); simpl; [done|].
  eexists. split; [done|]. repeat first [apply errors_Is_refl|apply errors_Is_wrap].
Qed.

(** A fresh engine with the requested sizes. *)
Definition fresh_engine (capacity push receive : Z) e : Prop :=
  api_holds engine_api e (2 ^ 64 - 1) [] ∧ api_capacity engine_api e = capacity ∧
  api_maxEnqueue engine_api e = push ∧ api_maxDequeue engine_api e = receive.

Lemma newEngine_outcome capacity cfg :
  outcome (newEngine capacity cfg) (engine_fault capacity (maxPushBatch cfg) (maxReceiveBatch cfg))
    (fresh_engine capacity (maxPushBatch cfg) (maxReceiveBatch cfg)).
Proof.
  unfold newEngine, newSPSCEngine, newFrontierEngine.
  set (opts := [Frontier.WithMaxEnqueueBatch _; _]).
  set (dopts := [DpdkOptions.WithMaxEnqueueBatch _; _]).
  pose proof (λ name, frontier_outcome name capacity (maxPushBatch cfg) (maxReceiveBatch cfg)) as Hf.
  fold opts in Hf.
  pose proof (dpdk_outcome "NewSPSCQueue" capacity (maxPushBatch cfg) (maxReceiveBatch cfg)) as Hd.
  fold dopts in Hd.
  destruct (singleProducer cfg), (singleConsumer cfg); simpl.
  - destruct (SPSC.NewSPSCQueue zero capacity dopts) as [err|q] eqn:Hq; unfold SPSC.NewSPSCQueue in Hq;
      destruct (DpdkOptions.resolveConfig _ _ _ _ _ _) as [err'|c] eqn:Hc; simplify_eq; [done|].
    split; [apply Hd|]. apply (SPSC.spsc_new_ok zero capacity dopts).
    unfold SPSC.NewSPSCQueue. by rewrite Hc.
  - specialize (Hf "NewSPMCQueue").
    destruct (FSPMC.NewSPMCQueue zero capacity opts) as [err|q] eqn:Hq; unfold FSPMC.NewSPMCQueue in Hq;
      destruct (Frontier.resolveConfig _ _ _) as [err'|c] eqn:Hc; simplify_eq; [done|].
    split; [apply Hf|]. apply (FSPMC.fspmc_new_ok zero capacity opts).
    unfold FSPMC.NewSPMCQueue. by rewrite Hc.
  - specialize (Hf "NewMPSCQueue").
    destruct (FMPSC.NewMPSCQueue zero capacity opts) as [err|q] eqn:Hq; unfold FMPSC.NewMPSCQueue in Hq;
      destruct (Frontier.resolveConfig _ _ _) as [err'|c] eqn:Hc; simplify_eq; [done|].
    split; [apply Hf|]. apply (FMPSC.fmpsc_new_ok zero capacity opts).
    unfold FMPSC.NewMPSCQueue. by rewrite Hc.
  - specialize (Hf "NewMPMCQueue").
    destruct (FMPMC.NewMPMCQueue zero capacity opts) as [err|q] eqn:Hq; unfold FMPMC.NewMPMCQueue in Hq;
      destruct (Frontier.resolveConfig _ _ _) as [err'|c] eqn:Hc; simplify_eq; [done|].
    split; [apply Hf|]. apply (FMPMC.fmpmc_new_ok zero capacity opts).
    unfold FMPMC.NewMPMCQueue. by rewrite Hc.
Qed.

(** ** A new queue *)

Definition fresh_view : view T := View [] (2 ^ 64 - 1) (SideView 0 []) (SideView 0 []) false.

Lemma zero_side_at : side_at zero_side 0 [] false.
Proof.
  split; [done|done| | |done].
  - split; [done..|apply NoDup_nil_2|]. by intros [].
  - split; [apply NoDup_nil_2|]. by intros w ?%elem_of_nil.
Qed.

(** The engine is the one the declared sides select. *)
Definition selected (cfg : config) e : Prop :=
  match e with
  | EngineSPSC _ => singleProducer cfg = true ∧ singleConsumer cfg = true
  | EngineMPSC _ => singleProducer cfg = false ∧ singleConsumer cfg = true
  | EngineSPMC _ => singleProducer cfg = true ∧ singleConsumer cfg = false
  | EngineMPMC _ => singleProducer cfg = false ∧ singleConsumer cfg = false
  end.

Lemma newEngine_selected capacity cfg e : newEngine capacity cfg = inr e → selected cfg e.
Proof.
  unfold newEngine, newSPSCEngine, newFrontierEngine.
  destruct (singleProducer cfg) eqn:Hp, (singleConsumer cfg) eqn:Hc; simpl;
    case_match; intros; by simplify_eq.
Qed.

Definition new_queue {U} procs capacity (cfg : config) contexts (user : U) (q : Queue (engineOf T)) : Prop :=
  let w := World q contexts user in
  at_rest engine_api w fresh_view ∧ room engine_api w fresh_view = capacity ∧
  q_maxPushBatch q = maxPushBatch cfg ∧ q_maxReceiveBatch q = maxReceiveBatch cfg ∧
  consumerWakeCap q = (if singleConsumer cfg then 1 else Z.max 1 (Z.min procs capacity)) ∧
  selected cfg (engine q).

Lemma New_outcome {U} procs capacity options contexts (user : U) :
  let cfg := configured capacity options in
  outcome (New procs capacity options) (fault capacity cfg)
    (new_queue procs capacity cfg contexts user).
Proof.
  intros cfg. unfold New, resolveConfig, fault. fold (configured capacity options). fold cfg.
  pose proof (checkWaitStrategy_ok "consumer" (consumerWait cfg)) as Hcw.
  pose proof (checkWaitStrategy_ok "producer" (producerWait cfg)) as Hpw.
  destruct (strategy_ok (consumerWait cfg)); simpl.
  2: { destruct Hcw as (err & -> & Herr). by eexists. }
  rewrite Hcw. destruct (strategy_ok (producerWait cfg)); simpl.
  2: { destruct Hpw as (err & -> & Herr). by eexists. }
  rewrite Hpw. pose proof (newEngine_outcome capacity cfg) as He.
  pose proof (newEngine_selected capacity cfg) as Hsel.
  destruct (newEngine capacity cfg) as [err|e].
  { destruct He as (s & Hs & Herr). exists s. split; [done|]. by apply errors_Is_wrap. }
  destruct He as [Hf (Hh & Hcap & Hpush & Hrecv)]. split; [done|].
  pose proof (fifo_limits engine_api e _ _ Hh) as (Hlim & _). rewrite Hcap in Hlim.
  assert (∀ k, 1 <= k <= 2 ^ 30 → u32 k = k) as Hu by (intros; apply u32_small; unfold is_u32; lia).
  assert (consumerWakeCap (newQueue engine_api procs e cfg) =
    (if singleConsumer cfg then 1 else Z.max 1 (Z.min procs capacity))) as Hwake.
  { unfold newQueue. cbn [consumerWakeCap]. rewrite Hcap. destruct (singleConsumer cfg); apply Hu; lia. }
  set (q := newQueue engine_api procs e cfg) in *.
  assert (engine q = e) as Heng by done.
  split_and!; [|by unfold room, WorkqSpec.capacity; simpl queue; rewrite Heng, Hcap, Z.sub_0_r|done|done|done
    |rewrite Heng; by apply Hsel].
  split; simpl queue; rewrite ?Heng; try done; [apply zero_side_at..|].
  change countMask with (2 ^ 31 - 1). rewrite Hwake. destruct (singleConsumer cfg); lia.
Qed.

(** C20. [New] returns an empty, open queue at rest with the requested capacity and batch limits,
    on the engine the declared sides select, exactly when the wait strategies, then the capacity,
    then the batch limits are valid; otherwise its error wraps the sentinel of the first check
    that fails. *)
Theorem workq_New_spec {U} procs capacity options contexts (user : U) :
  let cfg := configured capacity options in
  match New procs capacity options with
  | inl err => ∃ sentinel, fault capacity cfg = Some sentinel ∧ errors_Is err sentinel = true
  | inr q =>
      fault capacity cfg = None ∧
      let w := World q contexts user in
      at_rest engine_api w fresh_view ∧ room engine_api w fresh_view = capacity ∧
      q_maxPushBatch q = maxPushBatch cfg ∧ q_maxReceiveBatch q = maxReceiveBatch cfg ∧
      consumerWakeCap q = (if singleConsumer cfg then 1 else Z.max 1 (Z.min procs capacity)) ∧
      selected cfg (engine q)
  end.
Proof. apply New_outcome. Qed.
End engine.

(** ** Queues on which the theorems apply *)
Import WorkqWait.

(** A new queue of capacity 4 for any producers and consumers, on 4 processors. *)
Lemma demo_rest (q : Queue (engineOf Z)) contexts (user : list Z) :
  New 0 4 4 [] = inr q →
  at_rest (engine_api 0) (World q contexts user) fresh_view ∧
  room (engine_api 0) (World q contexts user) fresh_view = 4.
Proof.
  intros Hq. pose proof (New_outcome 0 4 4 [] contexts user) as H. rewrite Hq in H.
  destruct H as (_ & Hr & Hroom & _). by split.
Qed.

(** A closed queue that holds 1 and 2. *)
Lemma demo_closed :
  ∃ w : world (engineOf Z) (list Z), at_rest (engine_api 0) w
    (View [1; 2] (2 ^ 64 - 3) (SideView 0 []) (SideView 0 []) true) ∧ contexts w = ∅ ∧ user w = [].
Proof.
  destruct (New 0 4 4 []) as [?|q] eqn:Hq; [by vm_compute in Hq|].
  destruct (demo_rest q ∅ [] Hq) as [Hr Hroom].
  pose proof (TryPushBatch_at (engine_api 0) _ _ [1; 2] Hr ltac:(by vm_compute)) as Hpush.
  apply ends_exec in Hpush as (_ & w1 & [n err] & _ & Hpush). unfold tried_batch in Hpush. simpl in Hpush.
  rewrite Hroom in Hpush. destruct Hpush as (Hn & _ & _ & k & Hk & _ & _ & Hl).
  change (len [1; 2]) with 2 in Hn. change (2 `min` 4) with 2 in Hn. subst n.
  change (len (v_parked (v_consumers fresh_view))) with 0 in Hk. assert (k = 0) as -> by lia.
  pose proof (Close_at (engine_api 0) _ _ (leaves_rest _ _ _ _ _ Hl)) as Hclose.
  apply ends_exec in Hclose as (_ & w2 & u & _ & Hl2). exists w2. split; [apply (leaves_rest _ _ _ _ _ Hl2)|].
  rewrite (same_contexts _ _ _ (leaves_untouched _ _ _ _ _ Hl2)), (same_user _ _ _ (leaves_untouched _ _ _ _ _ Hl2)).
  by rewrite (same_contexts _ _ _ (leaves_untouched _ _ _ _ _ Hl)), (same_user _ _ _ (leaves_untouched _ _ _ _ _ Hl)).
Qed.

Lemma workq_Push_witness :
  ∃ q : Queue (engineOf Z), New 0 4 4 [] = inr q ∧
    ends (Push (engine_api 0) 0%nat 7) (World q ∅ ([] : list Z)) (λ err w', err = None ∧
      leaves (engine_api 0) (World q ∅ []) fresh_view w' (published (World q ∅ ([] : list Z)) (queued fresh_view [7]))).
Proof.
  destruct (New 0 4 4 []) as [?|q] eqn:Hq; [by vm_compute in Hq|]. exists q. split; [done|].
  destruct (demo_rest q ∅ [] Hq) as [Hr Hroom].
  destruct (workq_Push_spec (engine_api 0) (World q ∅ []) fresh_view 0%nat 7 Hr ltac:(done)) as [Hnow _].
  destruct Hnow as [_ Hpush]; [right; by rewrite Hroom|]. eapply ends_mono; [exact Hpush|].
  by intros err w' (? & ? & _).
Defined.

Lemma workq_PushBatch_witness :
  ∃ q : Queue (engineOf Z), New 0 4 4 [] = inr q ∧
    ends (TryPushBatch (engine_api 0) [1; 2; 3; 4; 5]) (World q ∅ ([] : list Z)) (λ '(n, err) _,
      n = 4 ∧ err = Some ErrFull).
Proof.
  destruct (New 0 4 4 []) as [?|q] eqn:Hq; [by vm_compute in Hq|]. exists q. split; [done|].
  destruct (demo_rest q ∅ [] Hq) as [Hr Hroom].
  destruct (workq_PushBatch_spec (engine_api 0) (World q ∅ []) fresh_view 0%nat [1; 2; 3; 4; 5] Hr ltac:(done))
    as [Htry _]. eapply ends_mono; [exact Htry|].
  intros [n err] w'. unfold tried_batch. rewrite Hroom. by intros (-> & -> & _).
Defined.

Lemma workq_Receive_witness :
  ∃ q : Queue (engineOf Z), New 0 4 4 [] = inr q ∧
    ends (Receive (engine_api 0) 0 1%nat [0; 0]) (World q {[1%nat := ErrClosed]} ([] : list Z))
      (λ '(n, err, dst') w', n = 0 ∧ err = Some ErrClosed ∧ dst' = [0; 0] ∧
         leaves (engine_api 0) (World q {[1%nat := ErrClosed]} []) fresh_view w' fresh_view).
Proof.
  destruct (New 0 4 4 []) as [?|q] eqn:Hq; [by vm_compute in Hq|]. exists q. split; [done|].
  destruct (demo_rest q {[1%nat := ErrClosed]} [] Hq) as [Hr Hroom].
  destruct (workq_Receive_spec (engine_api 0) 0 (World q {[1%nat := ErrClosed]} []) fresh_view 1%nat [0; 0] Hr)
    as (_ & _ & Hdone & _).
  by apply (Hdone ErrClosed).
Defined.

Lemma workq_Close_witness :
  ∃ q : Queue (engineOf Z), New 0 4 4 [] = inr q ∧
    ends Close (World q ∅ ([] : list Z)) (λ _ w',
      leaves (engine_api 0) (World q ∅ []) fresh_view w' (shut fresh_view)).
Proof.
  destruct (New 0 4 4 []) as [?|q] eqn:Hq; [by vm_compute in Hq|]. exists q. split; [done|].
  destruct (demo_rest q ∅ [] Hq) as [Hr Hroom].
  eapply ends_mono; [exact (workq_Close_spec (engine_api 0) 0 (World q ∅ []) fresh_view 0%nat Hr)|].
  by intros u w' [? _].
Defined.

End WorkqEngine.
