(* ===== verification/WaitConc.v ===== *)
(** * The wait side under every interleaving (src/workq/waitside.go, wakeup.md)

    Any number of goroutines use one side at once. The ghost state says where each of them stands:
    outside, registered as a poller, parked with a waiter, or chosen by a waker; who owns each
    waiter; the list of parked waiters; and how far the holder of the mutex has come. The invariant
    [sinv] ties it to the memory: the word counts the pollers and the parked (I1 and I2 of
    wakeup.md, also inside a critical section), every chosen waiter holds exactly one token, and
    waiters in the pool are clean (I3). Each operation of the side keeps it, whatever the others
    do, and never reaches one of its panics.

    [t_owes] marks a goroutine that owes the side a check for progress: it made progress visible
    to this side, or stopped polling, and has not looked yet. The invariant says that when there
    is something to wake for ([g_demand]) and somebody is parked, then somebody is polling or owes
    a check; this is the argument of wakeup.md that no wake is lost. *)

From Stdlib Require Import ZArith Lia.
From stdpp Require Import prelude list gmap.
From S2P Require Import Prelude Prog Triple WaitSide.

Module WaitConc.
Import Prog Triple WaitSide.

Inductive place := Out | Polling | Parked (w : nat) | Chosen (w : nat).
Record trec := Thread { t_place : place; t_owes : bool }.

(** What the holder of the mutex has done: nothing that shows; moved [n] counts of the oldest
    waiters, still listed; unlinked a waiter whose token is not sent, with [n] more to come;
    changed one of list and parked count, so that the count is one ahead; or closed the side
    without having closed the [done] channel yet. *)
Inductive phase := Calm | Sending (n : nat) | Unlinked (w n : nat) | Extra | Closing.

Record ghost := Ghost {
  g_threads : list trec;
  g_owner : gmap nat nat;
  g_list : list nat;
  g_hold : option (nat * phase);
  g_demand : bool;
  g_closed : bool;
}.

Definition phase_of (g : ghost) : phase :=
  match g_hold g with Some (_, ph) => ph | None => Calm end.
Definition pending (ph : phase) : nat :=
  match ph with Sending n | Unlinked _ n => n | _ => 0%nat end.
Definition ahead (ph : phase) : Z := match ph with Extra => 1 | _ => 0 end.
Definition between (ph : phase) : option nat := match ph with Unlinked w _ => Some w | _ => None end.

Fixpoint count (f : trec → bool) (ts : list trec) : Z :=
  match ts with [] => 0 | t :: ts => bit (f t) + count f ts end.

(** A goroutine that counts as a poller, and one that is in the list. *)
Definition registered (l : list nat) (t : trec) : bool :=
  match t_place t with
  | Polling | Chosen _ => true
  | Parked w => bool_decide (w ∉ l)
  | Out => false
  end.
Definition listed (l : list nat) (t : trec) : bool :=
  match t_place t with Parked w => bool_decide (w ∈ l) | _ => false end.

Definition polls (g : ghost) : Z :=
  count (registered (g_list g)) (g_threads g) + Z.of_nat (pending (phase_of g)).
Definition parks (g : ghost) : Z :=
  len (g_list g) - Z.of_nat (pending (phase_of g)) + ahead (phase_of g).

(** What the memory of a waiter owned by a goroutine with record [t] holds; [None] when the
    list says it. *)
Definition expected (g : ghost) (w : nat) (t : trec) : option waiter :=
  match t_place t with
  | Parked w' =>
      if decide (w' = w) then
        if decide (w ∈ g_list g) then None
        else Some (if decide (between (phase_of g) = Some w) then clean else chosen)
      else Some clean
  | Chosen w' => Some (if decide (w' = w) then chosen else clean)
  | _ => Some clean
  end.

Definition sits (t : trec) (w : nat) : Prop := t_place t = Parked w ∨ t_place t = Chosen w.

(** Everything but the word and the owed checks. *)
Record score (N : nat) (sd : waitSide) (g : ghost) : Prop := {
  sc_mu : s_mu sd = match g_hold g with Some _ => true | None => false end;
  sc_list : dll sd (g_list g);
  sc_threads : length (g_threads g) = N;
  sc_heap w i t e : g_owner g !! w = Some i → g_threads g !! i = Some t →
    expected g w t = Some e → waiters sd !! w = Some e;
  sc_owner i t w : g_threads g !! i = Some t → sits t w → g_owner g !! w = Some i;
  sc_listed w : w ∈ g_list g → ∃ i t, g_threads g !! i = Some t ∧ t_place t = Parked w;
  sc_chosen i t w : g_threads g !! i = Some t → t_place t = Chosen w →
    w ∉ g_list g ∧ between (phase_of g) ≠ Some w;
  sc_pending : (pending (phase_of g) <= length (g_list g))%nat;
  sc_unlinked w : between (phase_of g) = Some w →
    w ∉ g_list g ∧ ∃ i t, g_threads g !! i = Some t ∧ t_place t = Parked w;
  sc_extra i : g_hold g = Some (i, Extra) → ∃ t, g_threads g !! i = Some t ∧ t_place t = Out;
  sc_count : count (listed (g_list g)) (g_threads g) = len (g_list g);
  sc_pool : NoDup (s_pool sd) ∧
    ∀ w, w ∈ s_pool sd → waiters sd !! w = Some clean ∧ g_owner g !! w = None;
  sc_owned w i : g_owner g !! w = Some i → (i < N)%nat ∧ is_Some (waiters sd !! w);
}.

(** Somebody will look, or nobody needs to. *)
Definition covered (g : ghost) : Prop :=
  g_demand g = true → 0 < parks g →
  0 < polls g ∨ ∃ i t, g_threads g !! i = Some t ∧ t_owes t = true.

Definition sinv (N : nat) (sd : waitSide) (g : ghost) : Prop :=
  score N sd g ∧ s_word sd = side_word (polls g) (parks g) (g_closed g) ∧ covered g ∧
  Z.of_nat N < 2 ^ 31.

(** ** Counting goroutines *)

Lemma count_nonneg f ts : 0 <= count f ts.
Proof. induction ts as [|t ts IH]; simpl; [lia|]. unfold bit. destruct (f t); lia. Qed.

Lemma count_pos f ts i t : ts !! i = Some t → f t = true → 1 <= count f ts.
Proof.
  revert i. induction ts as [|u ts IH]; intros [|i]; simpl; try done.
  - intros [= ->] ->. pose proof (count_nonneg f ts). simpl. lia.
  - intros Hi Hf. specialize (IH i Hi Hf). unfold bit. destruct (f u); lia.
Qed.

(** One goroutine changes, and the others count as before. *)
Lemma count_upd f f' ts i t t' :
  ts !! i = Some t → (∀ k u, k ≠ i → ts !! k = Some u → f' u = f u) →
  count f' (<[i := t']> ts) = count f ts - bit (f t) + bit (f' t').
Proof.
  revert i. induction ts as [|u ts IH]; intros [|i] Hi Ho; simpl in *; try done.
  - injection Hi as ->. assert (count f' ts = count f ts); [|lia].
    clear -Ho. induction ts as [|v ts IH] in Ho |- *; [done|]. simpl.
    rewrite (Ho 1%nat v) by done. rewrite IH; [done|].
    intros [|k] u Hk Hu; [done|]. by apply (Ho (S (S k))).
  - rewrite (Ho 0%nat u) by done. rewrite (IH i Hi); [lia|]. intros k v Hk Hv. apply (Ho (S k)); [lia|done].
Qed.

Lemma count_change f f' ts i t :
  ts !! i = Some t → (∀ k u, k ≠ i → ts !! k = Some u → f' u = f u) →
  count f' ts = count f ts - bit (f t) + bit (f' t).
Proof. intros Hi Ho. rewrite <- (count_upd f f' ts i t t Hi Ho). by rewrite list_insert_id. Qed.

Lemma count_both f f' ts :
  (∀ t, f t = true → f' t = false) → count f ts + count f' ts <= Z.of_nat (length ts).
Proof.
  intros Hd. induction ts as [|t ts IH]; simpl; [lia|]. pose proof (Hd t).
  destruct (f t); [rewrite H by done|destruct (f' t)]; unfold bit; lia.
Qed.

Lemma count_neither f f' ts i t :
  (∀ t, f t = true → f' t = false) → ts !! i = Some t → f t = false → f' t = false →
  count f ts + count f' ts <= Z.of_nat (length ts) - 1.
Proof.
  intros Hd. revert i. induction ts as [|u ts IH]; intros [|i] Hi Hf Hf'; simpl in *; try done.
  - injection Hi as ->. rewrite Hf, Hf'. pose proof (count_both f f' ts Hd). unfold bit. lia.
  - specialize (IH i Hi Hf Hf'). pose proof (Hd u).
    destruct (f u); [rewrite H by done|destruct (f' u)]; unfold bit; lia.
Qed.

Lemma registered_listed l t : registered l t = true → listed l t = false.
Proof.
  unfold registered, listed. destruct (t_place t); try done.
  intros ?%bool_decide_eq_true. by apply bool_decide_eq_false.
Qed.

(** The counts fit the word, and each goroutine is counted once. *)
Lemma score_counts N sd g :
  score N sd g → Z.of_nat N < 2 ^ 31 →
  is_count (polls g) ∧ is_count (parks g) ∧
  polls g + (len (g_list g) - Z.of_nat (pending (phase_of g))) <= Z.of_nat N.
Proof.
  intros Hs HN. pose proof (sc_pending _ _ _ Hs) as Hp. pose proof (sc_count _ _ _ Hs) as Hc.
  pose proof (count_nonneg (registered (g_list g)) (g_threads g)).
  pose proof (count_both _ _ (g_threads g) (registered_listed (g_list g))) as Hb.
  rewrite (sc_threads _ _ _ Hs), Hc in Hb. unfold polls, parks, is_count. unfold len in *.
  destruct (phase_of g) as [|n|w n| |] eqn:Hph; simpl in *; split_and!; try lia.
  destruct (g_hold g) as [[i ph]|] eqn:Hh; [|by unfold phase_of in Hph; rewrite Hh in Hph].
  assert (ph = Extra) as -> by (unfold phase_of in Hph; by rewrite Hh in Hph).
  destruct (sc_extra _ _ _ Hs i Hh) as (t & Hi & Ht).
  pose proof (count_neither _ _ (g_threads g) i t (registered_listed (g_list g)) Hi) as Hn.
  rewrite Hc, (sc_threads _ _ _ Hs) in Hn.
  assert (registered (g_list g) t = false ∧ listed (g_list g) t = false) as [Hr Hl]
    by (unfold registered, listed; by rewrite Ht).
  specialize (Hn Hr Hl). lia.
Qed.

(** ** What a goroutine may assume and does *)

(** The critical section, seen by the goroutine that is in it. *)
Definition mine (i : nat) (g : ghost) : option (phase * list nat) :=
  match g_hold g with
  | Some (j, ph) => if decide (j = i) then Some (ph, g_list g) else None
  | None => None
  end.

Definition srely (i : nat) (g g' : ghost) : Prop :=
  g_threads g' !! i = g_threads g !! i ∧
  (∀ w, g_owner g' !! w = Some i ↔ g_owner g !! w = Some i) ∧
  mine i g' = mine i g ∧ (g_closed g = true → g_closed g' = true).

(** Who may close a side: [rule.2] is what closing requires. If [rule.1] holds, the side is the one
    whose closing announces [done]: it stays closed under the mutex until [done] is closed too. *)
Definition closes (rule : bool * Prop) (g g' : ghost) : Prop :=
  (g_closed g' = g_closed g ∨ rule.2) ∧
  (rule.1 = true → (g_closed g' = g_closed g ∨ phase_of g' = Closing) ∧
                   (phase_of g = Closing → g_hold g' = g_hold g)).

Definition sguar (strict : bool * Prop) (i : nat) (g g' : ghost) : Prop :=
  (∀ j, j ≠ i → srely j g g') ∧ g_demand g' = g_demand g ∧ closes strict g g'.

#[export] Instance srely_preorder i : PreOrder (srely i).
Proof.
  split; [done|]. intros g1 g2 g3 (H1 & H2 & H3 & H7) (H4 & H5 & H6 & H8).
  split_and!; [congruence|intros w; rewrite H5; apply H2|congruence|auto].
Qed.
#[export] Instance sguar_reflexive strict i : Reflexive (sguar strict i).
Proof. intros g. split_and!; [done..|]. split; [by left|]. split; [by left|done]. Qed.

(** What a goroutine knows of itself: its place and what it owes, waiters it owns, and what it
    holds of the critical section. *)
Definition mode (i : nat) (t : trec) (W : list nat) (m : option (phase * list nat)) (g : ghost) : Prop :=
  g_threads g !! i = Some t ∧ (∀ w, w ∈ W → g_owner g !! w = Some i) ∧ mine i g = m.

#[export] Instance mode_stable i t W m : Stable (srely i) (mode i t W m).
Proof.
  intros g g' (H1 & H2 & H3 & _) (Ht & Hw & Hm). split_and!; [congruence| |congruence].
  intros w Hin. by apply H2, Hw.
Qed.
#[export] Instance closed_stable i : Stable (srely i) (λ g, g_closed g = true).
Proof. intros g g' (_ & _ & _ & H). exact H. Qed.

(** Nobody but [i] is in the critical section. *)
Definition alone_in (i : nat) (h : option (nat * phase)) : Prop :=
  match h with Some (j, _) => j = i | None => True end.

Lemma sguar_intro strict i g g' :
  (∀ j, j ≠ i → g_threads g' !! j = g_threads g !! j) →
  (∀ w j, j ≠ i → g_owner g' !! w = Some j ↔ g_owner g !! w = Some j) →
  (g_hold g' = g_hold g ∧ g_list g' = g_list g) ∨ (alone_in i (g_hold g) ∧ alone_in i (g_hold g')) →
  g_demand g' = g_demand g → (g_closed g = true → g_closed g' = true) →
  closes strict g g' → sguar strict i g g'.
Proof.
  intros Ht Ho Hh Hd Hcl Hc. split_and!; [|done..]. intros j Hj. split_and!; [auto|auto| |done].
  unfold mine. destruct Hh as [[-> ->]|[H1 H2]]; [done|].
  unfold alone_in in *. destruct (g_hold g) as [[k1 p1]|], (g_hold g') as [[k2 p2]|]; subst;
    by rewrite ?decide_False by done.
Qed.

Lemma mine_hold i ph l g :
  mine i g = Some (ph, l) → g_hold g = Some (i, ph) ∧ g_list g = l ∧ phase_of g = ph.
Proof.
  unfold mine, phase_of. destruct (g_hold g) as [[j ph']|]; [|done].
  destruct (decide (j = i)); [|done]. intros [= -> ->]. by subst.
Qed.

Lemma mine_Some i ph l g : g_hold g = Some (i, ph) → g_list g = l → mine i g = Some (ph, l).
Proof. intros Hh <-. unfold mine. rewrite Hh. by rewrite decide_True. Qed.

(** ** Transitions *)

Lemma dll_eq sd sd' ws :
  dll sd ws → s_oldest sd' = s_oldest sd → s_newest sd' = s_newest sd → waiters sd' = waiters sd →
  dll sd' ws.
Proof. intros Hd Ho Hn Hw. eapply dll_frame; [done..|]. intros w _. by rewrite Hw. Qed.

(** The word is no part of the core. *)
Lemma score_word N sd g x : score N sd g → score N (set_word x sd) g.
Proof. intros []. split; try done. by eapply dll_eq. Qed.

Lemma lookup_upd {A} (l : list A) i x y j z :
  l !! i = Some x → <[i := y]> l !! j = Some z → (j = i ∧ z = y) ∨ (j ≠ i ∧ l !! j = Some z).
Proof.
  intros Hi. destruct (decide (j = i)) as [->|Hne].
  - rewrite list_lookup_insert_eq by (by eapply lookup_lt_Some). intros [= ->]. by left.
  - rewrite list_lookup_insert_ne by done. auto.
Qed.

Lemma lookup_upd_eq {A} (l : list A) i x y : l !! i = Some x → <[i := y]> l !! i = Some y.
Proof. intros Hi. apply list_lookup_insert_eq. by eapply lookup_lt_Some. Qed.

Lemma list_seat N sd g w :
  score N sd g → w ∈ g_list g →
  ∃ i t, g_threads g !! i = Some t ∧ t_place t = Parked w ∧ g_owner g !! w = Some i.
Proof.
  intros Hs Hw. destruct (sc_listed _ _ _ Hs w Hw) as (i & t & Hi & Ht). exists i, t.
  split_and!; [done..|]. apply (sc_owner _ _ _ Hs i t w Hi). by left.
Qed.

Lemma pool_outside N sd g w : score N sd g → w ∈ s_pool sd → w ∉ g_list g.
Proof.
  intros Hs Hp Hl. destruct (list_seat _ _ _ _ Hs Hl) as (i & t & _ & _ & Ho).
  destruct (sc_pool _ _ _ Hs) as [_ Hpool]. destruct (Hpool w Hp). congruence.
Qed.

(** A waiter that is expected somewhere is in no list. *)
Lemma expected_outside N sd g w i t e :
  score N sd g → g_owner g !! w = Some i → g_threads g !! i = Some t → expected g w t = Some e →
  w ∉ g_list g.
Proof.
  intros Hs Ho Hi He Hl. destruct (list_seat _ _ _ _ Hs Hl) as (j & u & Hj & Hu & Ho').
  assert (j = i) as -> by congruence. simplify_eq. unfold expected in He. rewrite Hu in He.
  by rewrite !decide_True in He.
Qed.

(** A goroutine that sits at most on [w]. *)
Definition only_at (w : nat) (t : trec) : Prop := ∀ q, sits t q → q = w.

(** The general transition: goroutine [k], owner of the waiter [w], goes from [u] to [u']; of the
    waiters outside the list only [w] changes, and the list changes only by [w]. *)
Section transition.
Context (N : nat) (sd sd' : waitSide) (g : ghost) (k : nat) (u u' : trec) (w : nat).
Context (l' : list nat) (h' : option (nat * phase)).
Let g' := Ghost (<[k := u']> (g_threads g)) (g_owner g) l' h' (g_demand g) (g_closed g).
Hypothesis Hs : score N sd g.
Hypothesis Hk : g_threads g !! k = Some u.
Hypothesis Hok : g_owner g !! w = Some k.
Hypothesis Hl' : ∀ q, q ≠ w → q ∈ l' ↔ q ∈ g_list g.
Hypothesis Hu : only_at w u.
Hypothesis Hu' : only_at w u'.
Hypothesis Hph : ∀ q, q ≠ w → between (phase_of g') = Some q ↔ between (phase_of g) = Some q.

Lemma seat_others j t : j ≠ k → g_threads g !! j = Some t → ∀ q, sits t q → q ≠ w.
Proof. intros Hj Hjt q Hq ->. pose proof (sc_owner _ _ _ Hs j t w Hjt Hq). congruence. Qed.

Lemma place_others j t :
  j ≠ k → g_threads g !! j = Some t →
  listed l' t = listed (g_list g) t ∧ registered l' t = registered (g_list g) t.
Proof.
  intros Hj Hjt. unfold listed, registered. destruct (t_place t) as [| |q|q] eqn:Hp; [done..| |done].
  assert (q ≠ w) by (apply (seat_others j t); [done..|by left]).
  split; apply bool_decide_ext; by rewrite Hl'.
Qed.

Lemma listed_moved :
  count (listed l') (g_threads g') =
  count (listed (g_list g)) (g_threads g) - bit (listed (g_list g) u) + bit (listed l' u').
Proof. apply count_upd; [done|]. intros. by eapply place_others. Qed.

Lemma registered_moved :
  count (registered l') (g_threads g') =
  count (registered (g_list g)) (g_threads g) - bit (registered (g_list g) u) + bit (registered l' u').
Proof. apply count_upd; [done|]. intros. by eapply place_others. Qed.

Lemma expected_others q t : q ≠ w → expected g' q t = expected g q t.
Proof.
  intros Hq. unfold expected. destruct (t_place t) as [| |q'|]; try done.
  destruct (decide (q' = q)); [|done].
  rewrite (decide_ext (q ∈ g_list g') (q ∈ g_list g)) by (by apply Hl').
  destruct (decide _); [done|]. by rewrite (decide_ext _ _ _ _ (Hph q Hq)).
Qed.

(** Whoever sat on another waiter still does. *)
Lemma seated_others q (P : trec → Prop) :
  (∀ t, P t → sits t q) → q ≠ w → (∃ i t, g_threads g !! i = Some t ∧ P t) →
  ∃ i t, g_threads g' !! i = Some t ∧ P t.
Proof.
  intros HP Hq (i & t & Hi & Ht). exists i, t. split; [|done]. simpl.
  rewrite list_lookup_insert_ne; [done|]. intros <-. apply Hq, Hu. simplify_eq. auto.
Qed.

Hypothesis Hd' : dll sd' l'.
Hypothesis Hmu' : s_mu sd' = match h' with Some _ => true | None => false end.
Hypothesis Hpool' : s_pool sd' = s_pool sd.
Hypothesis Hheap' : ∀ q, q ∉ g_list g → q ≠ w → waiters sd' !! q = waiters sd !! q.
Hypothesis Hw' : is_Some (waiters sd' !! w) ∧
  ∀ e, expected g' w u' = Some e → waiters sd' !! w = Some e.
Hypothesis Hin' : w ∈ l' ∨ between (phase_of g') = Some w → t_place u' = Parked w.
Hypothesis Hout' : t_place u' = Chosen w ∨ between (phase_of g') = Some w →
  w ∉ l' ∧ (t_place u' = Chosen w → between (phase_of g') ≠ Some w).
Hypothesis Hlen' : len l' = len (g_list g) - bit (listed (g_list g) u) + bit (listed l' u').
Hypothesis Hpen' : (pending (phase_of g') <= length l')%nat.
Hypothesis Hex' : ∀ i, h' = Some (i, Extra) → ∃ t, g_threads g' !! i = Some t ∧ t_place t = Out.

Lemma score_move : score N sd' g'.
Proof.
  pose proof Hs as [Hmu Hl Hlen Hheap Hown Hlst Hch Hpen Hunl Hex Hcnt [Hnd Hpool] Howd].
  split; try done.
  - simpl. by rewrite length_insert.
  - intros q j t e Hq Hj He. destruct (decide (q = w)) as [->|Hne].
    { simpl in Hq. assert (j = k) as -> by congruence. apply Hw'. simpl in Hj.
      rewrite (lookup_upd_eq _ _ u) in Hj by done. by simplify_eq. }
    rewrite expected_others in He by done.
    assert (q ∉ g_list g ∧ waiters sd !! q = Some e) as [Hql Hqe].
    { destruct (lookup_upd _ _ _ _ _ _ Hk Hj) as [[-> ->]|[_ Hj']].
      - assert (expected g q u = Some e) as He'.
        { assert (∀ t, only_at w t → expected g q t = Some clean) as Hcl; [|by rewrite !Hcl in *].
          intros x Hx. unfold expected. destruct (t_place x) as [| |y|y] eqn:Ey; try done;
            rewrite decide_False; try done; intros ->; apply Hne, Hx; [by left|by right]. }
        split; [by eapply expected_outside|by eapply Hheap].
      - split; [by eapply expected_outside|by eapply Hheap]. }
    by rewrite Hheap'.
  - intros j t q Hj Ht. destruct (lookup_upd _ _ _ _ _ _ Hk Hj) as [[-> ->]|[_ Hj']].
    + by rewrite (Hu' q Ht).
    + by apply (Hown j t).
  - intros q Hq. simpl in Hq. destruct (decide (q = w)) as [->|Hne].
    + exists k, u'. split; [by eapply lookup_upd_eq|]. apply Hin'. by left.
    + apply (seated_others q (λ t, t_place t = Parked q)); [by left|done|]. by apply Hlst, Hl'.
  - intros j t q Hj Ht. destruct (decide (q = w)) as [->|Hne].
    + destruct (lookup_upd _ _ _ _ _ _ Hk Hj) as [[-> ->]|[Hjk Hj']].
      * destruct Hout' as [? Hb]; [by left|]. auto.
      * exfalso. apply (seat_others j t Hjk Hj' w); [by right|done].
    + destruct (lookup_upd _ _ _ _ _ _ Hk Hj) as [[-> ->]|[Hjk Hj']].
      * exfalso. apply Hne, Hu'. by right.
      * destruct (Hch j t q Hj' Ht) as [Hq Hb]. split; [simpl; by rewrite Hl'|]. by rewrite Hph.
  - intros q Hq. destruct (decide (q = w)) as [->|Hne].
    + split; [apply Hout'; by right|]. exists k, u'. split; [by eapply lookup_upd_eq|].
      apply Hin'. by right.
    + apply Hph in Hq; [|done]. destruct (Hunl q Hq) as [? ?]. split; [simpl; by rewrite Hl'|].
      by apply (seated_others q (λ t, t_place t = Parked q)); [by left|..].
  - change (g_list g') with l'. rewrite listed_moved, Hcnt. lia.
  - simpl. rewrite Hpool'. split; [done|]. intros q Hq. destruct (Hpool q Hq) as [Hqc Hqo].
    split; [|done]. rewrite Hheap'; [done|by eapply pool_outside|congruence].
  - intros q j Hq. destruct (Howd q j Hq) as [? Hqs]. split; [done|].
    destruct (decide (q = w)) as [->|Hne]; [by apply Hw'|].
    destruct (decide (q ∈ g_list g)) as [Hin|Hin]; [|by rewrite Hheap'].
    apply Hl' in Hin; [|done]. destruct (dll_elem _ _ _ Hd' Hin) as (e & -> & _). done.
Qed.
End transition.

(** The transition without a waiter: the list and the memory of the waiters stay. *)
Definition unseated (t : trec) : Prop := t_place t = Out ∨ t_place t = Polling.
Definition same_lists (sd sd' : waitSide) : Prop :=
  s_oldest sd' = s_oldest sd ∧ s_newest sd' = s_newest sd ∧ waiters sd' = waiters sd ∧
  s_pool sd' = s_pool sd.

Lemma score_plain N sd sd' g i t t' h' d' c' :
  let g' := Ghost (<[i := t']> (g_threads g)) (g_owner g) (g_list g) h' d' c' in
  score N sd g → g_threads g !! i = Some t →
  t_place t' = t_place t ∨ (unseated t ∧ unseated t') →
  between (phase_of g') = between (phase_of g) →
  s_mu sd' = match h' with Some _ => true | None => false end → same_lists sd sd' →
  (pending (phase_of g') <= length (g_list g))%nat →
  (∀ j, h' = Some (j, Extra) → ∃ u, g_threads g' !! j = Some u ∧ t_place u = Out) →
  score N sd' g' ∧
  count (registered (g_list g)) (g_threads g') =
    count (registered (g_list g)) (g_threads g) - bit (registered (g_list g) t) +
      bit (registered (g_list g) t').
Proof.
  intros g' Hs Hi Hpl Hb Hmu' (Ho' & Hn' & Hw' & Hp') Hpen' Hex'.
  pose proof Hs as [Hmu Hl Hlen Hheap Hown Hlst Hch Hpen Hunl Hex Hcnt Hpool Howd].
  assert (∀ q, sits t' q ↔ sits t q) as Hsits.
  { intros q. unfold sits. destruct Hpl as [->|[[H1|H1] [H2|H2]]]; [done|rewrite H1, H2; naive_solver..]. }
  assert (∀ q x, expected g' q x = expected g q x) as Hexp.
  { intros q x. unfold expected. simpl. by rewrite Hb. }
  assert (∀ q, expected g q t' = expected g q t) as Hexp'.
  { intros q. unfold expected. destruct Hpl as [->|[[H1|H1] [H2|H2]]]; [done|by rewrite H1, H2..]. }
  assert (∀ q, (∃ k u, g_threads g !! k = Some u ∧ t_place u = Parked q) →
    ∃ k u, g_threads g' !! k = Some u ∧ t_place u = Parked q) as Hsome.
  { intros q (k & u & Hk & Hu). simpl. destruct (decide (k = i)) as [->|Hne].
    - exists i, t'. split; [by eapply lookup_upd_eq|]. simplify_eq.
      destruct Hpl as [->|[[H1|H1] _]]; congruence.
    - exists k, u. by rewrite list_lookup_insert_ne. }
  assert (∀ j u, g_threads g' !! j = Some u → ∃ x, g_threads g !! j = Some x ∧
    (∀ q, sits u q → sits x q) ∧ (∀ q, expected g q u = expected g q x) ∧
    ∀ q, t_place u = Chosen q → t_place x = Chosen q) as Hold.
  { intros j u Hj. destruct (lookup_upd _ _ _ _ _ _ Hi Hj) as [[-> ->]|[_ Hj']]; [|by exists u].
    exists t. split_and!; [done|intros q; by apply Hsits|done|].
    intros q Hq. destruct Hpl as [<-|[_ [H2|H2]]]; congruence. }
  split; [|by apply count_upd].
  split; simpl; rewrite ?Hp', ?Hw'; try done.
  - by eapply dll_eq.
  - by rewrite length_insert.
  - intros q j u e Hq Hj He. destruct (Hold j u Hj) as (x & Hx & _ & Hxe & _).
    eapply (Hheap q j x); [done..|]. by rewrite <- Hxe, <- Hexp.
  - intros j u q Hj Hu. destruct (Hold j u Hj) as (x & Hx & Hxs & _). apply (Hown j x); auto.
  - intros q Hq. by apply Hsome, Hlst.
  - intros j u q Hj Hu. destruct (Hold j u Hj) as (x & Hx & _ & _ & Hxc). rewrite Hb.
    apply (Hch j x q Hx). auto.
  - intros q Hq. rewrite Hb in Hq. destruct (Hunl q Hq) as [? ?]. split; [done|]. by apply Hsome.
  - rewrite (count_upd (listed (g_list g)) (listed (g_list g)) _ i t t' Hi) by done.
    assert (listed (g_list g) t' = listed (g_list g) t) as ->; [|lia].
    unfold listed. destruct Hpl as [->|[[-> | ->] [-> | ->]]]; done.
Qed.

(** Who owed a check still does. *)
Lemma covered_keep g g' :
  covered g → g_demand g' = g_demand g → parks g' <= parks g → polls g <= polls g' →
  (∀ i t, g_threads g !! i = Some t → t_owes t = true →
     ∃ u, g_threads g' !! i = Some u ∧ t_owes u = true) →
  covered g'.
Proof.
  intros Hc Hd Hq Hp Ho. unfold covered. rewrite Hd. intros Hdem Hpos.
  destruct Hc as [Hpoll|(i & t & Hi & Ht)]; [done|lia|left; lia|]. right. exists i. by apply (Ho i t).
Qed.

Lemma owes_upd (ts : list trec) i t t' :
  ts !! i = Some t → (t_owes t = true → t_owes t' = true) →
  ∀ j u, ts !! j = Some u → t_owes u = true →
    ∃ x, <[i := t']> ts !! j = Some x ∧ t_owes x = true.
Proof.
  intros Hi Ho j u Hj Hu. destruct (decide (j = i)) as [->|Hne].
  - exists t'. split; [by eapply lookup_upd_eq|]. simplify_eq. auto.
  - exists u. by rewrite list_lookup_insert_ne.
Qed.

(** ** Steps of one goroutine *)

(** The new state [sd'] and ghost [g'] of a step by [i] from [g]. *)
Definition stepped (strict : bool * Prop) (N i : nat) (sd' : waitSide) (g : ghost) t W m : Prop :=
  ∃ g', sguar strict i g g' ∧ sinv N sd' g' ∧ mode i t W m g'.

Definition idle (ph : phase) : Prop := ph = Calm ∨ ph = Sending 0.

Section steps.
Context (strict : bool * Prop) (N i : nat).
Abbreviation stepped := (stepped strict N i).
Implicit Types (g : ghost) (sd : waitSide).

(** A step that moves no waiter: the word, the mutex, and what the goroutine owes. *)
Lemma step_plain sd sd' g t t' W m h' c' :
  let g' := Ghost (<[i := t']> (g_threads g)) (g_owner g) (g_list g) h' (g_demand g) c' in
  sinv N sd g → mode i t W m g →
  t_place t' = t_place t ∨ (unseated t ∧ unseated t') →
  between (phase_of g') = between (phase_of g) →
  s_mu sd' = match h' with Some _ => true | None => false end → same_lists sd sd' →
  (pending (phase_of g') <= length (g_list g))%nat →
  (h' = Some (i, Extra) → t_place t' = Out) →
  h' = g_hold g ∨ (alone_in i (g_hold g) ∧ alone_in i h') →
  (g_closed g = true → c' = true) → closes strict g g' →
  (∀ p q, p = polls g - bit (registered (g_list g) t) + bit (registered (g_list g) t')
            - Z.of_nat (pending (phase_of g)) + Z.of_nat (pending (phase_of g')) →
     q = parks g + Z.of_nat (pending (phase_of g)) - Z.of_nat (pending (phase_of g'))
           - ahead (phase_of g) + ahead (phase_of g') →
     is_count p → is_count q →
     s_word sd' = side_word p q c' ∧ (polls g' = p → parks g' = q → covered g')) →
  stepped sd' g t' W (mine i g').
Proof.
  intros g' (Hs & Hw & Hc & HN) (Hi & HW & Hm) Hpl Hb Hmu Hsl Hpen Hex Hh Hcl Hcs Hnew.
  assert (∀ j, h' = Some (j, Extra) → ∃ u, g_threads g' !! j = Some u ∧ t_place u = Out) as Hex'.
  { intros j Hj. simpl. destruct (decide (j = i)) as [->|Hne].
    - exists t'. split; [by eapply lookup_upd_eq|auto].
    - rewrite list_lookup_insert_ne by done. apply (sc_extra _ _ _ Hs).
      destruct Hh as [<-|[_ Ha]]; [done|]. rewrite Hj in Ha. by simpl in Ha. }
  destruct (score_plain N sd sd' g i t t' h' (g_demand g) c' Hs Hi Hpl Hb Hmu Hsl Hpen Hex') as [Hs' Hcnt].
  fold g' in Hs', Hcnt. destruct (score_counts _ _ _ Hs' HN) as (Hcp & Hcq & _).
  assert (polls g' = polls g - bit (registered (g_list g) t) + bit (registered (g_list g) t')
            - Z.of_nat (pending (phase_of g)) + Z.of_nat (pending (phase_of g'))) as Hp.
  { unfold polls at 1. change (g_list g') with (g_list g). rewrite Hcnt. unfold polls. lia. }
  assert (parks g' = parks g + Z.of_nat (pending (phase_of g)) - Z.of_nat (pending (phase_of g'))
           - ahead (phase_of g) + ahead (phase_of g')) as Hq.
  { unfold parks. change (g_list g') with (g_list g). lia. }
  destruct (Hnew _ _ Hp Hq Hcp Hcq) as [Hw' Hcov]. exists g'. split_and!.
  - apply sguar_intro; try done.
    + intros j Hj. simpl. by rewrite list_lookup_insert_ne.
    + destruct Hh as [->|?]; [by left|by right].
  - split_and!; [done|by rewrite Hw'|by apply Hcov|done].
  - split_and!; [by eapply lookup_upd_eq|done..].
Qed.

(** Counts at a step of a goroutine, and the word they are packed in. *)
Lemma sinv_word sd g :
  sinv N sd g → is_count (polls g) ∧ is_count (parks g) ∧
  s_word sd = side_word (polls g) (parks g) (g_closed g).
Proof. intros (Hs & Hw & _ & HN). destruct (score_counts _ _ _ Hs HN) as (? & ? & _). auto. Qed.

Lemma same_lists_refl sd sd' :
  s_oldest sd' = s_oldest sd → s_newest sd' = s_newest sd → waiters sd' = waiters sd →
  s_pool sd' = s_pool sd → same_lists sd sd'.
Proof. by repeat split. Qed.

Lemma mu_hold sd g ph l : sinv N sd g → mine i g = Some (ph, l) → s_mu sd = true.
Proof. intros [Hs _] (Hh & _ & _)%mine_hold. by rewrite (sc_mu _ _ _ Hs), Hh. Qed.

(** What the goroutine owes is settled by a word without a need for a wake. *)
Lemma covered_checked g' p q c :
  polls g' = p → parks g' = q → is_count p → is_count q → needsWake (side_word p q c) = false →
  covered g'.
Proof.
  intros Hp Hq Hcp Hcq Hn _ Hpos. rewrite needsWake_word in Hn by done. rewrite Hp, Hq in *.
  left. unfold is_count in *. destruct (Z.eqb_spec p 0), (Z.ltb_spec 0 q); simpl in Hn; try done; lia.
Qed.

Lemma ghost_eta g : Ghost (g_threads g) (g_owner g) (g_list g) (g_hold g) (g_demand g) (g_closed g) = g.
Proof. by destruct g. Qed.

Lemma closes_same g g' : g_closed g' = g_closed g → g_hold g' = g_hold g → closes strict g g'.
Proof. intros Hc Hh. split; [by left|]. split; [by left|done]. Qed.

Lemma closes_busy g g' ph : phase_of g = ph → ph ≠ Closing → g_closed g' = g_closed g → closes strict g g'.
Proof. intros <- Hne Hc. split; [by left|]. split; [by left|done]. Qed.

(** A goroutine that looks at the word settles what it owes unless a wake is needed. *)
Lemma step_check sd g pl o W m :
  sinv N sd g → mode i (Thread pl o) W m g →
  stepped sd g (Thread pl (o && needsWake (s_word sd))) W m.
Proof.
  intros Hi Hm. destruct (sinv_word _ _ Hi) as (Hcp & Hcq & Hw). pose proof Hi as (Hs & _ & Hc & HN).
  pose proof Hm as (Hti & _ & Hmi).
  pose proof (step_plain sd sd g _ (Thread pl (o && needsWake (s_word sd))) W m (g_hold g) (g_closed g) Hi Hm)
    as Hst. cbv zeta in Hst. change (mine i (Ghost _ _ _ _ _ _)) with (mine i g) in Hst. rewrite Hmi in Hst.
  apply Hst; try done; [by left|apply (sc_mu _ _ _ Hs)|apply (sc_pending _ _ _ Hs)| |by left|..].
  - intros Hh. destruct (sc_extra _ _ _ Hs i Hh) as (t & Ht & Hout). by simplify_eq.
  - by apply closes_same.
  - intros p q Hp Hq Hp' Hq'. change (phase_of (Ghost _ _ _ _ _ _)) with (phase_of g) in Hp, Hq.
    change (registered (g_list g) (Thread pl (o && needsWake (s_word sd))))
      with (registered (g_list g) (Thread pl o)) in Hp.
    assert (p = polls g) as -> by lia. assert (q = parks g) as -> by lia. split; [done|].
    intros Hpg Hqg. destruct (needsWake (s_word sd)) eqn:Hn.
    + apply (covered_keep g); simpl; [done..|lia|lia|]. apply (owes_upd _ _ _ _ Hti). simpl. by rewrite andb_true_r.
    + rewrite Hw in Hn. by eapply (covered_checked _ (polls g) (parks g)).
Qed.

Lemma step_lock sd g t W :
  sinv N sd g → mode i t W None g → s_mu sd = false →
  ∃ l, stepped (set_mu true sd) g t W (Some (Calm, l)).
Proof.
  intros Hi Hm Hmu. pose proof Hi as (Hs & _ & Hc & HN). destruct (sinv_word _ _ Hi) as (Hcp & Hcq & Hw).
  pose proof Hm as (Hti & _ & _). assert (g_hold g = None) as Hh.
  { pose proof (sc_mu _ _ _ Hs) as Hmu'. rewrite Hmu in Hmu'. by destruct (g_hold g). }
  assert (phase_of g = Calm) as Hph by (unfold phase_of; by rewrite Hh).
  exists (g_list g).
  pose proof (step_plain sd (set_mu true sd) g t t W None (Some (i, Calm)) (g_closed g) Hi Hm) as Hst.
  cbv zeta in Hst. rewrite (mine_Some i Calm (g_list g)) in Hst by done.
  apply Hst; rewrite ?Hph; try done; [by left|simpl; lia|rewrite Hh; by right|by eapply closes_busy|].
  simpl. intros p q Hp Hq _ _. assert (p = polls g) as -> by lia. assert (q = parks g) as -> by lia.
  split; [done|]. intros Hpg Hqg. apply (covered_keep g); [done..|lia|lia|]. by apply (owes_upd _ _ _ _ Hti).
Qed.

Lemma step_unlock sd g t W ph l :
  sinv N sd g → mode i t W (Some (ph, l)) g → idle ph ∨ (strict.1 = false ∧ ph = Closing) →
  stepped (set_mu false sd) g t W None.
Proof.
  intros Hi Hm Hid. pose proof Hi as (Hs & _ & Hc & HN). destruct (sinv_word _ _ Hi) as (Hcp & Hcq & Hw).
  pose proof Hm as (Hti & _ & (Hh & _ & Hph)%mine_hold).
  assert (pending ph = 0%nat ∧ ahead ph = 0 ∧ between ph = None) as (Hpe & Hah & Hbe).
  { destruct Hid as [[-> | ->]|[_ ->]]; done. }
  pose proof (step_plain sd (set_mu false sd) g t t W _ None (g_closed g) Hi Hm) as Hst.
  cbv zeta in Hst. change (mine i (Ghost _ _ _ None _ _)) with (@None (phase * list nat)) in Hst.
  apply Hst; rewrite ?Hph, ?Hbe; try done; [by left|simpl; lia|rewrite Hh; by right| |].
  - destruct Hid as [Hid|[Hst' ->]].
    + eapply closes_busy; [done| |done]. by destruct Hid as [-> | ->].
    + split; [by left|]. by rewrite Hst'.
  - rewrite Hpe, Hah. simpl. intros p q Hp Hq _ _. assert (p = polls g) as -> by lia.
    assert (q = parks g) as -> by lia.
    split; [done|]. intros Hpg Hqg. apply (covered_keep g); [done..|lia|lia|]. by apply (owes_upd _ _ _ _ Hti).
Qed.

(** Steps of the word outside the critical section. *)
Lemma mine_same g t' :
  mine i (Ghost (<[i := t']> (g_threads g)) (g_owner g) (g_list g) (g_hold g) (g_demand g) (g_closed g))
  = mine i g.
Proof. done. Qed.

Lemma step_count sd g t t' W p y :
  sinv N sd g → mode i t W None g → unseated t → unseated t' →
  p = polls g - bit (registered (g_list g) t) + bit (registered (g_list g) t') →
  (is_count p → is_count (parks g) → y = side_word p (parks g) (g_closed g) ∧
     ∀ g', polls g' = p → parks g' = parks g → g_threads g' = <[i := t']> (g_threads g) → covered g') →
  stepped (set_word y sd) g t' W None.
Proof.
  intros Hi Hm Hu Hu' Hp Hnew. pose proof Hi as (Hs & _ & Hc & HN). pose proof Hm as (Hti & _ & Hmi).
  rewrite <- Hmi, <- (mine_same g t').
  assert (g_hold g ≠ Some (i, Extra)) as Hne.
  { intros Hh. unfold mine in Hmi. by rewrite Hh, decide_True in Hmi. }
  eapply step_plain; try done; [by right|apply (sc_mu _ _ _ Hs)|apply (sc_pending _ _ _ Hs)|by left|..].
  - by apply closes_same.
  - change (phase_of (Ghost _ _ _ _ _ _)) with (phase_of g). intros p' q' Hp' Hq' Hcp Hcq.
    assert (p' = p) as -> by lia. assert (q' = parks g) as -> by lia.
    destruct (Hnew Hcp Hcq) as [-> Hcov]. split; [done|]. intros Hpg Hqg. by apply Hcov.
Qed.

Lemma registered_out l o : registered l (Thread Out o) = false.
Proof. done. Qed.
Lemma registered_polling l o : registered l (Thread Polling o) = true.
Proof. done. Qed.

Lemma polls_registered sd g t W m :
  sinv N sd g → mode i t W m g → registered (g_list g) t = true → 1 <= polls g.
Proof. intros _ (Hti & _) Hr. unfold polls. pose proof (count_pos _ _ _ _ Hti Hr). lia. Qed.

Lemma step_register sd g o W :
  sinv N sd g → mode i (Thread Out o) W None g →
  stepped (set_word (s_word sd +64 onePoller) sd) g (Thread Polling o) W None.
Proof.
  intros Hi Hm. destruct (sinv_word _ _ Hi) as (Hcp & Hcq & Hw).
  eapply (step_count _ _ _ _ _ (polls g + 1)); [done..|by left|by right|simpl; lia|].
  intros Hcp' _. split; [by rewrite Hw, word_register|]. intros g' Hp _ _ _ _.
  left. unfold is_count in *. lia.
Qed.

Lemma step_drop sd g o W :
  let left := s_word sd -64 onePoller in
  sinv N sd g → mode i (Thread Polling o) W None g →
  stepped (set_word left sd) g (Thread Out (needsWake left)) W None.
Proof.
  intros left Hi Hm. destruct (sinv_word _ _ Hi) as (Hcp & Hcq & Hw).
  assert (1 <= polls g) by (by eapply polls_registered). pose proof Hm as (Hti & _).
  eapply (step_count _ _ _ _ _ (polls g - 1)); [done..|by right|by left|simpl; lia|].
  intros Hcp' _. assert (left = side_word (polls g - 1) (parks g) (g_closed g)) as Hl.
  { unfold left. by rewrite Hw, word_drop. }
  split; [done|]. intros g' Hp Hq Hts. destruct (needsWake left) eqn:Hn.
  - intros _ _. right. exists i, (Thread Out true). rewrite Hts. by split; [eapply lookup_upd_eq|].
  - rewrite Hl in Hn. by eapply covered_checked.
Qed.

(** Steps of the word by the holder of the mutex. *)
Lemma step_held sd g t t' W ph ph' l c' y :
  sinv N sd g → mode i t W (Some (ph, l)) g →
  t_place t' = t_place t ∨ (unseated t ∧ unseated t') →
  between ph' = between ph → (pending ph' <= length l)%nat → (ph' = Extra → t_place t' = Out) →
  (g_closed g = true → c' = true) → ph ≠ Closing → c' = g_closed g ∨ (ph' = Closing ∧ strict.2) →
  (∀ p q, p = polls g - bit (registered l t) + bit (registered l t') - Z.of_nat (pending ph) + Z.of_nat (pending ph') →
     q = parks g + Z.of_nat (pending ph) - Z.of_nat (pending ph') - ahead ph + ahead ph' →
     is_count p → is_count q → y = side_word p q c' ∧
     ∀ g', polls g' = p → parks g' = q → g_threads g' = <[i := t']> (g_threads g) →
       g_demand g' = g_demand g → covered g') →
  stepped (set_word y sd) g t' W (Some (ph', l)).
Proof.
  intros Hi Hm Hpl Hb Hpen Hex Hcl Hne Hcc Hnew. pose proof Hi as (Hs & _ & Hc & HN).
  pose proof Hm as (Hti & _ & Hmi). apply mine_hold in Hmi as (Hh & Hgl & Hph).
  pose proof (step_plain sd (set_word y sd) g t t' W _ (Some (i, ph')) c' Hi Hm) as Hst. cbv zeta in Hst.
  rewrite (mine_Some i ph' l) in Hst by done. rewrite Hph, Hgl, Hh in Hst. apply Hst; try done.
  - exact (mu_hold _ _ _ _ Hi (proj2 (proj2 Hm))).
  - intros [= ->]. auto.
  - by right.
  - split; [destruct Hcc as [->|[_ ?]]; [by left|by right]|]. intros _.
    split; [destruct Hcc as [->|[-> _]]; [by left|by right]|]. by rewrite Hph.
  - intros p q Hp Hq Hcp Hcq. destruct (Hnew p q Hp Hq Hcp Hcq) as [-> Hcov]. split; [done|].
    intros Hpg Hqg. by apply Hcov.
Qed.

Lemma step_park sd g o W l :
  sinv N sd g → mode i (Thread Polling o) W (Some (Calm, l)) g →
  stepped (set_word (s_word sd -64 onePoller +64 oneParked) sd) g (Thread Out true) W (Some (Extra, l)).
Proof.
  intros Hi Hm. destruct (sinv_word _ _ Hi) as (_ & _ & Hw). pose proof Hm as (Hti & _).
  eapply (step_held _ _ _ _ _ _ _ _ (g_closed g)); try done; [right; split; [by right|by left]|simpl; lia|by left|].
  simpl. intros p q Hp Hq Hcp Hcq.
  assert (p = polls g - 1) as -> by lia. assert (q = parks g + 1) as -> by lia.
  split; [by rewrite Hw, word_park|]. intros g' _ _ Hts _ _ _. right. exists i, (Thread Out true).
  rewrite Hts. by split; [eapply lookup_upd_eq|].
Qed.

Lemma step_unpark sd g t W l :
  sinv N sd g → mode i t W (Some (Extra, l)) g →
  stepped (set_word (s_word sd -64 oneParked) sd) g t W (Some (Calm, l)).
Proof.
  intros Hi Hm. destruct (sinv_word _ _ Hi) as (_ & _ & Hw). pose proof Hm as (Hti & _).
  pose proof Hi as (_ & _ & Hcov & _).
  eapply (step_held _ _ _ _ _ _ _ _ (g_closed g)); try done; [by left|simpl; lia|by left|]. simpl. intros p q Hp Hq Hcp Hcq.
  assert (p = polls g) as -> by lia. assert (q = parks g - 1) as -> by lia.
  split; [by rewrite Hw, word_unpark|]. intros g' Hpg Hqg Hts Hd. apply (covered_keep g); [done..|lia|lia|].
  rewrite Hts. by apply (owes_upd _ _ _ _ Hti).
Qed.

(** [k] counts are moved from the parked to the pollers. *)
Lemma step_transfer sd g pl o W l k :
  sinv N sd g → mode i (Thread pl o) W (Some (Calm, l)) g → 1 <= k <= parks g →
  stepped (set_word (s_word sd +64 k -64 u64 (k * oneParked)) sd) g (Thread pl false) W
    (Some (Sending (Z.to_nat k), l)).
Proof.
  intros Hi Hm Hk. destruct (sinv_word _ _ Hi) as (Hcp0 & _ & Hw). pose proof Hm as (Hti & _ & (_ & Hl & Hph)%mine_hold).
  assert (parks g = len l) as Hpk. { unfold parks. rewrite Hph, Hl. simpl. lia. }
  eapply (step_held _ _ _ _ _ _ _ _ (g_closed g)); try done; [by left|simpl; unfold len in *; lia|by left|]. cbn [pending ahead].
  change (registered l (Thread pl false)) with (registered l (Thread pl o)).
  intros p q Hp Hq Hcp Hcq.
  assert (p = polls g + k) as -> by lia. assert (q = parks g - k) as -> by lia.
  split; [by rewrite Hw, word_wake|]. intros g' Hpg _ _ _ _ _. left. unfold is_count in *. lia.
Qed.

Lemma step_close sd g t W l :
  sinv N sd g → mode i t W (Some (Calm, l)) g → g_closed g = false → strict.2 →
  ∃ g', sguar strict i g g' ∧ sinv N (set_word (Z.lor (s_word sd) closedFlag) sd) g' ∧
    mode i t W (Some (Closing, l)) g' ∧ g_closed g' = true.
Proof.
  intros Hi Hm Hcl Hmay. destruct (sinv_word _ _ Hi) as (Hcp & Hcq & Hw). pose proof Hm as (Hti & _).
  pose proof Hi as (_ & _ & Hcov & _).
  assert (stepped (set_word (Z.lor (s_word sd) closedFlag) sd) g t W (Some (Closing, l))) as Hst.
  { eapply (step_held _ _ _ _ _ _ _ _ true); try done; [by left|simpl; lia|by right|].
    simpl. intros p q Hp Hq _ _. assert (p = polls g) as -> by lia. assert (q = parks g) as -> by lia.
    split; [by rewrite Hw, Hcl, close_word|]. intros g' Hpg Hqg Hts Hd. apply (covered_keep g); [done..|lia|lia|].
    rewrite Hts. by apply (owes_upd _ _ _ _ Hti). }
  destruct Hst as (g' & Hg & Hi' & Hm'). exists g'. split_and!; [done..|].
  destruct (sinv_word _ _ Hi') as (Hcp' & Hcq' & Hw'). cbn [s_word set_word] in Hw'. rewrite Hw, Hcl, close_word in Hw' by done.
  rewrite <- (closed_word (polls g') (parks g') (g_closed g')), <- Hw' by done. by rewrite closed_word.
Qed.

(** Steps that move a waiter leave the counts as they are. *)
Lemma step_moved sd sd' g k u u' w l' h' W t' m' :
  let g' := Ghost (<[k := u']> (g_threads g)) (g_owner g) l' h' (g_demand g) (g_closed g) in
  sinv N sd g → g_threads g !! k = Some u → g_owner g !! w = Some k → score N sd' g' →
  (∀ q, q ≠ w → q ∈ l' ↔ q ∈ g_list g) → s_word sd' = s_word sd →
  bit (registered l' u') + Z.of_nat (pending (phase_of g')) =
    bit (registered (g_list g) u) + Z.of_nat (pending (phase_of g)) →
  parks g' = parks g → t_owes u' = t_owes u → k = i ∨ u' = u →
  (h' = g_hold g ∧ l' = g_list g) ∨ (alone_in i (g_hold g) ∧ alone_in i h') →
  (phase_of g = Closing → h' = g_hold g) →
  mode i t' W m' g' → stepped sd' g t' W m'.
Proof.
  intros g' Hi Hk Hok Hs' Hl' Hw' Hreg Hq Ho Hki Hh Hcl Hm'. pose proof Hi as (Hs & Hw & Hc & HN).
  pose proof (registered_moved N sd g k u u' w l' h' Hs Hk Hok Hl') as Hcnt.
  assert (polls g' = polls g) as Hp.
  { unfold polls. change (g_list g') with l'. fold g' in Hcnt. rewrite Hcnt. lia. }
  exists g'. split_and!; [|split_and!|done]; try done.
  - apply sguar_intro; try done.
    + intros j Hj. simpl. destruct Hki as [->| ->]; [by rewrite list_lookup_insert_ne|by rewrite list_insert_id].
    + split; [by left|]. split; [by left|done].
  - by rewrite Hw', Hp, Hq.
  - apply (covered_keep g); [done..|lia|lia|]. apply (owes_upd _ _ _ _ Hk). by rewrite Ho.
Qed.

(** The oldest waiter, whose count has moved, is unlinked. *)
Lemma step_unlink_head sd sd' g t W n w l :
  sinv N sd g → mode i t W (Some (Sending (S n), w :: l)) g →
  dll sd' l → list_only sd sd' → waiters sd' !! w = Some clean →
  (∀ q, q ∉ w :: l → waiters sd' !! q = waiters sd !! q) →
  stepped sd' g t W (Some (Unlinked w n, l)).
Proof.
  intros Hi (Hti & HW & (Hh & Hgl & Hph)%mine_hold) Hd' (Hw' & Hmu' & Hpool') Hcl Hfr.
  pose proof Hi as (Hs & _). pose proof (dll_nodup _ _ (sc_list _ _ _ Hs)) as Hnd.
  rewrite Hgl in Hnd. apply NoDup_cons in Hnd as [Hwl _].
  destruct (list_seat _ _ _ w Hs) as (k & u & Hk & Hu & Hok); [rewrite Hgl; by left|].
  assert (only_at w u) as Hat. { intros q [Hq|Hq]; congruence. }
  assert (∀ q, q ≠ w → q ∈ l ↔ q ∈ g_list g) as Hl.
  { intros q Hq. rewrite Hgl, elem_of_cons. naive_solver. }
  assert (listed (g_list g) u = true ∧ listed l u = false ∧ registered (g_list g) u = false ∧
    registered l u = true) as (Hr1 & Hr2 & Hr3 & Hr4).
  { unfold listed, registered. rewrite Hu, Hgl. rewrite !bool_decide_eq_true, !bool_decide_eq_false.
    rewrite elem_of_cons. naive_solver. }
  eapply (step_moved sd sd' g k u u w l (Some (i, Unlinked w n))); try done.
  - apply (score_move N sd sd' g k u u w); try done.
    + intros q Hq. simpl. rewrite Hph. split; [by intros [= ->]|done].
    + by rewrite Hmu', (sc_mu _ _ _ Hs), Hh.
    + intros q Hq Hne. apply Hfr. by rewrite <- Hgl.
    + rewrite Hcl. split; [done|]. unfold expected. simpl. rewrite Hu, decide_True, decide_False by done.
      rewrite decide_True by done. by intros e [= <-].
    + intros _. split; [done|]. by rewrite Hu.
    + rewrite Hr1, Hr2, Hgl. unfold len. simpl. lia.
    + pose proof (sc_pending _ _ _ Hs) as Hp. rewrite Hph, Hgl in Hp. simpl in *. lia.
  - rewrite Hr3, Hr4, Hph. unfold phase_of. cbn [g_hold pending bit]. lia.
  - unfold parks, phase_of, len. rewrite Hh, Hgl. cbn [g_hold g_list pending ahead length]. lia.
  - by right.
  - rewrite Hh. by right.
  - by rewrite Hph.
  - split_and!; [simpl; by rewrite list_insert_id|done|by apply mine_Some].
Qed.

(** Its token is sent. *)
Lemma step_send sd g t W n w l :
  sinv N sd g → mode i t W (Some (Unlinked w n, l)) g →
  waiters sd !! w = Some clean ∧
  stepped (set_waiters (<[w := chosen]> (waiters sd)) sd) g t W (Some (Sending n, l)).
Proof.
  intros Hi (Hti & HW & (Hh & Hgl & Hph)%mine_hold). pose proof Hi as (Hs & _).
  destruct (sc_unlinked _ _ _ Hs w) as (Hwl & k & u & Hk & Hu); [by rewrite Hph|].
  assert (g_owner g !! w = Some k) as Hok by (apply (sc_owner _ _ _ Hs k u); [done|by left]).
  assert (waiters sd !! w = Some clean) as Hw.
  { apply (sc_heap _ _ _ Hs w k u clean Hok Hk). unfold expected.
    rewrite Hu, decide_True, decide_False, decide_True by (done || by rewrite Hph). done. }
  split; [done|]. assert (only_at w u) as Hat. { intros q [Hq|Hq]; congruence. }
  eapply (step_moved sd _ g k u u w (g_list g) (Some (i, Sending n))); try done.
  - apply (score_move N sd _ g k u u w); try done.
    + intros q Hq. simpl. rewrite Hph. split; [done|]. simpl. by intros [= ->].
    + eapply dll_frame; [apply (sc_list _ _ _ Hs)|done..|]. intros q Hq. simpl.
      rewrite lookup_insert_ne; [done|]. by intros ->.
    + simpl. by rewrite (sc_mu _ _ _ Hs), Hh.
    + intros q Hq Hne. simpl. by rewrite lookup_insert_ne.
    + simpl. rewrite lookup_insert_eq. split; [done|]. unfold expected. simpl.
      rewrite Hu, decide_True, decide_False by done. by intros e [= <-].
    + lia.
    + pose proof (sc_pending _ _ _ Hs) as Hp. by rewrite Hph in Hp.
  - rewrite Hph. unfold phase_of. cbn [g_hold pending]. lia.
  - unfold parks, phase_of. rewrite Hh. done.
  - by right.
  - rewrite Hh. by right.
  - by rewrite Hph.
  - split_and!; [simpl; by rewrite list_insert_id|done|by apply mine_Some].
Qed.

Lemma only_parked w o : only_at w (Thread (Parked w) o).
Proof. by intros q [[= ->]|]. Qed.
Lemma only_out w o : only_at w (Thread Out o).
Proof. by intros q []. Qed.
Lemma only_polling w o : only_at w (Thread Polling o).
Proof. by intros q []. Qed.
Lemma only_chosen w o : only_at w (Thread (Chosen w) o).
Proof. by intros q [|[= ->]]. Qed.

(** An owned waiter that its owner does not sit on is clean and in no list. *)
Lemma owned_clean sd g t W m w :
  sinv N sd g → mode i t W m g → w ∈ W → ¬ sits t w →
  waiters sd !! w = Some clean ∧ w ∉ g_list g.
Proof.
  intros (Hs & _) (Hti & HW & _) Hin Hns. specialize (HW w Hin).
  assert (expected g w t = Some clean) as He.
  { unfold expected, sits in *. destruct (t_place t) as [| |q|q]; try done;
      rewrite decide_False; try done; intros ->; apply Hns; auto. }
  split; [by apply (sc_heap _ _ _ Hs w i t)|by eapply expected_outside].
Qed.

(** The caller is linked in, at either end. *)
Lemma step_link sd sd' g o W w l l' :
  sinv N sd g → mode i (Thread Out o) W (Some (Extra, l)) g → w ∈ W →
  dll sd' l' → (∀ q, q ∈ l' ↔ q = w ∨ q ∈ l) → length l' = S (length l) → list_only sd sd' →
  (∀ q, q ∉ l → q ≠ w → waiters sd' !! q = waiters sd !! q) →
  stepped sd' g (Thread (Parked w) o) W (Some (Calm, l')).
Proof.
  intros Hi Hm Hin Hd' Hl' Hlen (Hw' & Hmu' & Hpool') Hfr.
  destruct (owned_clean _ _ _ _ _ w Hi Hm Hin) as [Hcl Hwl]; [by intros []|].
  destruct Hm as (Hti & HW & (Hh & Hgl & Hph)%mine_hold). pose proof Hi as (Hs & _).
  assert (w ∈ l') as Hwl' by (apply Hl'; by left).
  assert (∀ q, q ≠ w → q ∈ l' ↔ q ∈ g_list g) as Hl. { intros q Hq. rewrite Hgl, Hl'. naive_solver. }
  eapply (step_moved sd sd' g i _ (Thread (Parked w) o) w l' (Some (i, Calm))); try done.
  - by apply HW.
  - apply (score_move N sd sd' g i (Thread Out o) (Thread (Parked w) o) w); try done.
    + by apply HW.
    + apply only_out.
    + apply only_parked.
    + intros q Hq. simpl. by rewrite Hph.
    + by rewrite Hmu', (sc_mu _ _ _ Hs), Hh.
    + intros q Hq Hne. apply Hfr; [by rewrite <- Hgl|done].
    + destruct (dll_elem _ _ _ Hd' Hwl') as (e & He & _). split; [by rewrite He|].
      unfold expected. simpl. by rewrite !decide_True.
    + by intros [?|?].
    + unfold listed. simpl. rewrite bool_decide_true by done. rewrite Hgl. unfold len, bit. lia.
    + simpl. lia.
  - rewrite Hph. unfold registered, phase_of. simpl. by rewrite bool_decide_false by naive_solver.
  - unfold parks, phase_of, len. rewrite Hh, Hgl. cbn [g_hold g_list pending ahead]. lia.
  - by left.
  - rewrite Hh. by right.
  - by rewrite Hph.
  - split_and!; [by eapply lookup_upd_eq|done|by apply mine_Some].
Qed.

(** A caller still in the list leaves it. *)
Lemma step_leave sd sd' g o W w l1 l2 :
  sinv N sd g → mode i (Thread (Parked w) o) W (Some (Calm, l1 ++ w :: l2)) g →
  dll sd' (l1 ++ l2) → list_only sd sd' → waiters sd' !! w = Some clean →
  (∀ q, q ∉ l1 ++ w :: l2 → waiters sd' !! q = waiters sd !! q) →
  stepped sd' g (Thread Out o) W (Some (Extra, l1 ++ l2)).
Proof.
  intros Hi (Hti & HW & (Hh & Hgl & Hph)%mine_hold) Hd' (Hw' & Hmu' & Hpool') Hcl Hfr.
  pose proof Hi as (Hs & _). pose proof (dll_nodup _ _ (sc_list _ _ _ Hs)) as Hnd. rewrite Hgl in Hnd.
  assert (w ∉ l1 ++ l2) as Hwl.
  { rewrite <- Permutation_middle in Hnd. by apply NoDup_cons in Hnd as [? _]. }
  assert (g_owner g !! w = Some i) as Hok by (apply (sc_owner _ _ _ Hs i _ w Hti); by left).
  assert (∀ q, q ≠ w → q ∈ l1 ++ l2 ↔ q ∈ g_list g) as Hl.
  { intros q Hq. rewrite Hgl, !elem_of_app, elem_of_cons. naive_solver. }
  assert (w ∈ g_list g) as Hwg by (rewrite Hgl; apply elem_of_app; right; by left).
  eapply (step_moved sd sd' g i _ (Thread Out o) w (l1 ++ l2) (Some (i, Extra))); try done.
  - apply (score_move N sd sd' g i (Thread (Parked w) o) (Thread Out o) w); try done.
    + apply only_parked.
    + apply only_out.
    + intros q Hq. simpl. by rewrite Hph.
    + by rewrite Hmu', (sc_mu _ _ _ Hs), Hh.
    + intros q Hq Hne. apply Hfr. by rewrite <- Hgl.
    + rewrite Hcl. split; [done|]. by intros e [= <-].
    + by intros [?|?].
    + unfold listed. cbn [t_place]. rewrite bool_decide_true by done. rewrite Hgl. unfold len, bit.
      rewrite !length_app. simpl. lia.
    + simpl. lia.
    + intros j [= <-]. exists (Thread Out o). split; [by eapply lookup_upd_eq|done].
  - rewrite Hph. unfold registered, phase_of. simpl. by rewrite bool_decide_false by naive_solver.
  - unfold parks, phase_of, len. rewrite Hh, Hgl. cbn [g_hold g_list pending ahead].
    rewrite !length_app. simpl. lia.
  - by left.
  - rewrite Hh. by right.
  - by rewrite Hph.
  - split_and!; [by eapply lookup_upd_eq|done|by apply mine_Some].
Qed.

(** Where a waiter with a token is. *)
Lemma token_chosen sd g t W m w e :
  sinv N sd g → mode i t W m g → sits t w → waiters sd !! w = Some e → w_token e = true →
  e = chosen ∧ w ∉ g_list g ∧ between (phase_of g) ≠ Some w.
Proof.
  intros (Hs & _) (Hti & _ & _) Hsit He Htok.
  assert (w ∉ g_list g) as Hwl.
  { intros Hin. destruct (list_elem_of_split _ _ Hin) as (l1 & l2 & Hsp).
    pose proof (dll_entry _ _ (sc_list _ _ _ Hs) l1 w l2 Hsp). by simplify_eq. }
  assert (expected g w t = Some (if decide (between (phase_of g) = Some w) then clean else chosen)) as Hx.
  { unfold expected. destruct Hsit as [Hp|Hp]; rewrite Hp.
    - by rewrite decide_True, decide_False.
    - rewrite decide_True by done. destruct (sc_chosen _ _ _ Hs i t w Hti Hp). by rewrite decide_False. }
  pose proof (sc_heap _ _ _ Hs w i t _ (sc_owner _ _ _ Hs i t w Hti Hsit) Hti Hx) as Hw.
  simplify_eq. by case_decide.
Qed.

(** A chosen caller takes its token. *)
Lemma step_take sd g pl o W m w e :
  sinv N sd g → mode i (Thread pl o) W m g → sits (Thread pl o) w →
  waiters sd !! w = Some e → w_token e = true →
  stepped (set_waiters (<[w := with_token false e]> (waiters sd)) sd) g (Thread Polling o) W m.
Proof.
  intros Hi Hm Hsit He Htok. destruct (token_chosen _ _ _ _ _ _ _ Hi Hm Hsit He Htok) as (-> & Hwl & Hbt).
  destruct Hm as (Hti & HW & Hmi). pose proof Hi as (Hs & _).
  pose proof (sc_owner _ _ _ Hs i _ w Hti Hsit) as Hok.
  assert (only_at w (Thread pl o)) as Hat.
  { intros q Hq. destruct Hsit as [Hp|Hp], Hq as [Hq|Hq]; congruence. }
  assert (registered (g_list g) (Thread pl o) = true ∧ listed (g_list g) (Thread pl o) = false) as [Hr Hli].
  { unfold registered, listed. destruct Hsit as [Hp|Hp]; rewrite Hp; [|done].
    by rewrite bool_decide_true, bool_decide_false. }
  eapply (step_moved sd _ g i _ (Thread Polling o) w (g_list g) (g_hold g)); try done.
  - apply (score_move N sd _ g i (Thread pl o) (Thread Polling o) w); try done.
    + apply only_polling.
    + eapply dll_frame; [apply (sc_list _ _ _ Hs)|done..|]. intros q Hq. simpl.
      rewrite lookup_insert_ne; [done|]. by intros ->.
    + by rewrite <- (sc_mu _ _ _ Hs).
    + intros q Hq Hne. simpl. by rewrite lookup_insert_ne.
    + simpl. rewrite lookup_insert_eq. split; [done|]. by intros x [= <-].
    + intros [?|?]; done.
    + rewrite Hli. simpl. lia.
    + apply (sc_pending _ _ _ Hs).
    + intros j Hj. destruct (sc_extra _ _ _ Hs j Hj) as (u & Hu & Hout). exists u. split; [|done].
      simpl. rewrite list_lookup_insert_ne; [done|]. intros ->. simplify_eq. simpl in Hout. subst.
      by destruct Hsit.
  - by rewrite Hr.
  - by left.
  - by left.
  - split_and!; [by eapply lookup_upd_eq|done..].
Qed.

(** A caller that finds itself unlisted under a free mutex knows that it was chosen. *)
Lemma step_known sd g o W w l :
  sinv N sd g → mode i (Thread (Parked w) o) W (Some (Calm, l)) g → w ∉ l →
  waiters sd !! w = Some chosen ∧ stepped sd g (Thread (Chosen w) o) W (Some (Calm, l)).
Proof.
  intros Hi (Hti & HW & Hmi) Hwl. pose proof Hmi as (Hh & Hgl & Hph)%mine_hold. pose proof Hi as (Hs & _).
  assert (g_owner g !! w = Some i) as Hok by (apply (sc_owner _ _ _ Hs i _ w Hti); by left).
  assert (waiters sd !! w = Some chosen) as Hw.
  { apply (sc_heap _ _ _ Hs w i _ _ Hok Hti). unfold expected. cbn [t_place].
    rewrite decide_True, decide_False, decide_False; [done|by rewrite Hph|by rewrite Hgl|done]. }
  split; [done|].
  assert (registered (g_list g) (Thread (Parked w) o) = true ∧ listed (g_list g) (Thread (Parked w) o) = false)
    as [Hr Hli].
  { unfold registered, listed. cbn [t_place]. rewrite Hgl. by rewrite bool_decide_true, bool_decide_false. }
  eapply (step_moved sd sd g i _ (Thread (Chosen w) o) w (g_list g) (g_hold g)); try done.
  - apply (score_move N sd sd g i (Thread (Parked w) o) (Thread (Chosen w) o) w); try done.
    + apply only_parked.
    + apply only_chosen.
    + apply (sc_list _ _ _ Hs).
    + by rewrite <- (sc_mu _ _ _ Hs).
    + rewrite Hw. split; [done|]. unfold expected. cbn [t_place]. rewrite decide_True by done. by intros e [= <-].
    + rewrite Hgl. change (phase_of (Ghost _ _ _ _ _ _)) with (phase_of g). rewrite Hph. by intros [?|?].
    + change (phase_of (Ghost _ _ _ _ _ _)) with (phase_of g). rewrite Hph, Hgl. by intros _.
    + rewrite Hli. simpl. lia.
    + apply (sc_pending _ _ _ Hs).
    + rewrite Hh. by intros j [= ].
  - by rewrite Hr.
  - by left.
  - by left.
  - split_and!; [by eapply lookup_upd_eq|done|]. by apply mine_Some.
Qed.

(** ** Owning a waiter *)

Lemma owner_step sd sd' g ow' t W W' m :
  let g' := Ghost (g_threads g) ow' (g_list g) (g_hold g) (g_demand g) (g_closed g) in
  sinv N sd g → mode i t W m g → score N sd' g' → s_word sd' = s_word sd →
  (∀ w j, j ≠ i → ow' !! w = Some j ↔ g_owner g !! w = Some j) →
  (∀ w, w ∈ W' → ow' !! w = Some i) → stepped sd' g t W' m.
Proof.
  intros g' (Hs & Hw & Hc & HN) (Hti & _ & Hmi) Hs' Hw' Ho HW'. exists g'. split_and!.
  - apply sguar_intro; try done; [by left|]. by apply closes_same.
  - split_and!; [done|by rewrite Hw'|done..].
  - by split_and!.
Qed.

Lemma step_claim sd sd' g t W m w :
  sinv N sd g → mode i t W m g → g_owner g !! w = None → ¬ sits t w →
  waiters sd' !! w = Some clean → (∀ q, q ≠ w → waiters sd' !! q = waiters sd !! q) →
  NoDup (s_pool sd') → (∀ q, q ∈ s_pool sd' → q ∈ s_pool sd ∧ q ≠ w) →
  s_oldest sd' = s_oldest sd → s_newest sd' = s_newest sd → s_mu sd' = s_mu sd → s_word sd' = s_word sd →
  stepped sd' g t (w :: W) m.
Proof.
  intros Hi Hm Hnone Hns Hw' Hfr Hnd' Hpool' Ho' Hn' Hmu' Hword'. pose proof Hi as (Hs & _).
  pose proof Hm as (Hti & HW & _).
  assert (w ∉ g_list g) as Hwl.
  { intros Hin. destruct (list_seat _ _ _ _ Hs Hin) as (? & ? & _ & _ & ?). congruence. }
  eapply (owner_step sd sd' g (<[w := i]> (g_owner g))); try done.
  - destruct Hs as [Hmu Hl Hlen Hheap Hown Hlst Hch Hpen Hunl Hex Hcnt [Hnd Hpool] Howd].
    split; try done; simpl.
    + by rewrite Hmu', Hmu.
    + eapply dll_frame; [done..|]. intros q Hq. rewrite Hfr; [done|]. by intros ->.
    + intros q j u e [(<- & <-)|(Hne & Hq)]%lookup_insert_Some Hj He.
      * simplify_eq. rewrite Hw'. symmetry. unfold expected in He. simpl in He.
        destruct (t_place t) as [| |x|x] eqn:Hp; try done;
          rewrite decide_False in He; try done; intros ->; apply Hns; [by left|by right].
      * rewrite Hfr by done. by eapply Hheap.
    + intros j u q Hj Hu. destruct (decide (w = q)) as [<-|Hne]; [|rewrite lookup_insert_ne; eauto].
      rewrite (Hown j u w Hj Hu) in Hnone. done.
    + split; [done|]. intros q Hq. destruct (Hpool' q Hq) as [Hqp Hne]. rewrite Hfr, lookup_insert_ne by done.
      by apply Hpool.
    + intros q j [(<- & <-)|(Hne & Hq)]%lookup_insert_Some.
      * rewrite Hw'. split; [|done]. rewrite <- Hlen. by eapply lookup_lt_Some.
      * rewrite Hfr by done. eauto.
  - intros q j Hj. destruct (decide (w = q)) as [<-|Hne]; [|by rewrite lookup_insert_ne].
    rewrite lookup_insert_eq, Hnone. naive_solver.
  - intros q [->|Hq]%elem_of_cons; [by rewrite lookup_insert_eq|].
    destruct (decide (w = q)) as [<-|Hne]; [by rewrite lookup_insert_eq|].
    rewrite lookup_insert_ne by done. auto.
Qed.

Lemma step_release sd g t W m w :
  sinv N sd g → mode i t (w :: W) m g → ¬ sits t w → w ∉ W →
  stepped (set_pool (w :: s_pool sd) sd) g t W m.
Proof.
  intros Hi Hm Hns HwW. destruct (owned_clean _ _ _ _ _ w Hi Hm) as [Hcl Hwl]; [by left|done|].
  pose proof Hi as (Hs & _). pose proof Hm as (Hti & HW & _).
  assert (g_owner g !! w = Some i) as Hok by (apply HW; by left).
  eapply (owner_step sd _ g (delete w (g_owner g)) t (w :: W)); try done.
  - destruct Hs as [Hmu Hl Hlen Hheap Hown Hlst Hch Hpen Hunl Hex Hcnt [Hnd Hpool] Howd].
    split; try done; simpl.
    + by eapply dll_eq.
    + intros q j u e [Hne Hq]%lookup_delete_Some Hj He. by eapply Hheap.
    + intros j u q Hj Hu. pose proof (Hown j u q Hj Hu) as Hq. rewrite lookup_delete_ne; [done|].
      intros <-. assert (j = i) as -> by congruence. by simplify_eq.
    + split.
      * apply NoDup_cons. split; [|done]. intros Hin. destruct (Hpool w Hin). congruence.
      * intros q [->|Hq]%elem_of_cons; [by rewrite lookup_delete_eq|].
        destruct (Hpool q Hq) as [? Hqo]. split; [done|]. rewrite lookup_delete_None. by right.
    + intros q j [_ Hq]%lookup_delete_Some. eauto.
  - intros q j Hj. rewrite lookup_delete_Some. split; [naive_solver|]. intros Hq. split; [|done].
    intros <-. congruence.
  - intros q Hq. rewrite lookup_delete_ne; [apply HW; by right|]. by intros <-.
Qed.

(** ** Progress on the other side

    A step of the engine by [i] changes what there is to wake for, and what [i] owes. *)
Lemma step_demand sd g pl o o' W m d' :
  sinv N sd g → mode i (Thread pl o) W m g →
  (d' = true → o' = true ∨ (g_demand g = true ∧ (o = true → o' = true))) →
  ∃ g', (∀ j, j ≠ i → srely j g g') ∧ g_closed g' = g_closed g ∧ g_hold g' = g_hold g ∧
    sinv N sd g' ∧ mode i (Thread pl o') W m g' ∧ g_demand g' = d'.
Proof.
  intros (Hs & Hw & Hc & HN) (Hti & HW & Hmi) Hd.
  set (g' := Ghost (<[i := Thread pl o']> (g_threads g)) (g_owner g) (g_list g) (g_hold g) d' (g_closed g)).
  destruct (score_plain N sd sd g i (Thread pl o) (Thread pl o') (g_hold g) d' (g_closed g)) as [Hs' Hcnt];
    try done; [by left|apply (sc_mu _ _ _ Hs)|apply (sc_pending _ _ _ Hs)|..].
  { intros j Hj. destruct (sc_extra _ _ _ Hs j Hj) as (u & Hu & Hout). simpl.
    destruct (decide (j = i)) as [->|Hne]; [|exists u; by rewrite list_lookup_insert_ne].
    exists (Thread pl o'). split; [by eapply lookup_upd_eq|]. by simplify_eq. }
  fold g' in Hs', Hcnt. change (registered (g_list g) (Thread pl o')) with (registered (g_list g) (Thread pl o)) in Hcnt.
  assert (polls g' = polls g) as Hp by (unfold polls; change (g_list g') with (g_list g); change (phase_of g') with (phase_of g); lia).
  exists g'. split_and!; try done.
  - intros j Hj. split_and!; try done. simpl. by rewrite list_lookup_insert_ne.
  - split_and!; [done|by rewrite Hp| |done]. intros Hd'%Hd Hpos. rewrite Hp. change (parks g') with (parks g) in Hpos.
    destruct Hd' as [->|[Hdem Ho]]; [right; exists i, (Thread pl true); by split; [eapply lookup_upd_eq|]|].
    destruct (Hc Hdem Hpos) as [?|(j & t & Hj & Ht)]; [by left|]. right. exists j.
    by eapply (owes_upd (g_threads g) i).
  - split_and!; [by eapply lookup_upd_eq|done..].
Qed.
End steps.
End WaitConc.
