(* ===== verification/WaitTriples.v ===== *)
(** * The operations of a wait side among other goroutines (src/workq/waitside.go)

    One triple per operation of the side, for goroutine [i] of [N]: what it needs to know of its
    own place, and where it stands afterwards, whatever the other goroutines do meanwhile. None of
    the panics of the source is reached, and an operation blocks only on a mutex that another
    goroutine holds. *)

From Stdlib Require Import ZArith Lia.
From stdpp Require Import prelude list gmap.
From S2P Require Import Prelude Prog Triple WaitSide WaitConc.

Module WaitTriples.
Import Prog Triple WaitSide WaitConc.

(** A goroutine that is not in the critical section may wait for the mutex. *)
Definition squiet (i : nat) (sg : waitSide * ghost) : Prop := s_mu sg.1 = true ∧ mine i sg.2 = None.

Section triples.
Context (strict : bool * Prop) (N i : nat).
Abbreviation tri := (triple (sinv N) (squiet i) (srely i) (sguar strict i)).
Abbreviation stable := (Stable (srely i)).

(** ** The word *)

Lemma loadWord_tri pl o W m (F : Z → Prop) :
  (∀ sd g, sinv N sd g → mode i (Thread pl o) W m g → F (s_word sd)) →
  tri (mode i (Thread pl o) W m) loadWord
    (λ word g, F word ∧ mode i (Thread pl (o && needsWake word)) W m g).
Proof.
  intros HF. apply triple_act; [stab..|]. intros sd g Hm Hi.
  destruct (step_check strict N i sd g pl o W m Hi Hm) as (g' & Hg & Hi' & Hm').
  exists g'. split_and!; [done..|exact (HF sd g Hi Hm)|done].
Qed.

(** Being closed is kept by everybody. *)
Lemma guar_closed g g' : sguar strict i g g' → g_closed g = true → g_closed g' = true.
Proof. intros (Hr & _). destruct (Hr (S i)) as (_ & _ & _ & Hc); [lia|exact Hc]. Qed.

Lemma keep_closed {B} P (p : prog waitSide B) Q :
  tri P p Q → tri (λ g, g_closed g = true ∧ P g) p (λ a g, g_closed g = true ∧ Q a g).
Proof. apply triple_keep; [apply closed_stable|apply guar_closed]. Qed.

(** A load that sees the closed bit. *)
Lemma loadWord_shut pl o W m (F : Z → Prop) :
  (∀ sd g, sinv N sd g → mode i (Thread pl o) W m g → F (s_word sd)) →
  tri (mode i (Thread pl o) W m) loadWord
    (λ word g, F word ∧ (closed word = true → g_closed g = true) ∧ mode i (Thread pl (o && needsWake word)) W m g).
Proof.
  intros HF. apply triple_act; [stab..|]. intros sd g Hm Hi.
  destruct (step_check strict N i sd g pl o W m Hi Hm) as (g' & Hg & Hi' & Hm').
  exists g'. split_and!; [done..|exact (HF sd g Hi Hm)| |done]. intros Hc. apply (guar_closed _ _ Hg).
  destruct (sinv_word _ _ _ Hi) as (? & ? & Hw). change (closed (s_word sd) = true) in Hc. rewrite Hw, closed_word in Hc by done. done.
Qed.

(** The word as counts. *)
Definition is_word (word : Z) : Prop := ∃ p q c, is_count p ∧ is_count q ∧ word = side_word p q c.

Lemma loadWord_counts pl o W m :
  tri (mode i (Thread pl o) W m) loadWord
    (λ word g, is_word word ∧ mode i (Thread pl (o && needsWake word)) W m g).
Proof.
  apply loadWord_tri. intros sd g Hi Hm. destruct (sinv_word _ _ _ Hi) as (? & ? & ->).
  exists (polls g), (parks g), (g_closed g). done.
Qed.

Lemma loadWord_checks pl o W m :
  tri (mode i (Thread pl o) W m) loadWord (λ word, mode i (Thread pl (o && needsWake word)) W m).
Proof. eapply triple_post; [apply loadWord_counts|]. by intros word g [_ ?]. Qed.

Lemma sinv_counts sd g p q c :
  sinv N sd g → is_count p → is_count q → s_word sd = side_word p q c →
  polls g = p ∧ parks g = q ∧ g_closed g = c.
Proof.
  intros Hi Hp Hq Hw. destruct (sinv_word _ _ _ Hi) as (Hcp & Hcq & Hw'). rewrite Hw in Hw'. split_and!.
  - by rewrite <- (pollers_word (polls g) (parks g) (g_closed g)), <- Hw', pollers_word.
  - by rewrite <- (parked_word (polls g) (parks g) (g_closed g)), <- Hw', parked_word.
  - by rewrite <- (closed_word (polls g) (parks g) (g_closed g)), <- Hw', closed_word.
Qed.

(** A load that settles nothing. *)
Lemma loadWord_any P :
  stable P → tri P loadWord (λ word g, (closed word = true → g_closed g = true) ∧ P g).
Proof.
  intros HP. apply triple_load; [stab..|]. intros sd g Hg Hi. split; [|done].
  destruct (sinv_word _ _ _ Hi) as (? & ? & Hw). intros Hc. change (closed (s_word sd) = true) in Hc. by rewrite Hw, closed_word in Hc.
Qed.

Lemma compareAndSwap_tri P current updated (Q : bool → ghost → Prop) :
  stable P → (∀ b, stable (Q b)) → (∀ g, P g → Q false g) →
  (∀ sd g, P g → sinv N sd g → s_word sd = current →
     ∃ g', sguar strict i g g' ∧ sinv N (set_word updated sd) g' ∧ Q true g') →
  tri P (compareAndSwap current updated) Q.
Proof.
  intros HP HQ Hf Ht. apply triple_act; [done..|]. intros sd g Hg Hi. simpl.
  destruct (Z.eqb_spec (s_word sd) current) as [Heq|Hne]; [by apply Ht|]. exists g. by split_and!; [..|apply Hf].
Qed.

(** ** The mutex *)

Lemma Lock_tri t W :
  tri (mode i t W None) Lock (λ _ g, ∃ l, mode i t W (Some (Calm, l)) g).
Proof.
  apply triple_await; [stab..|]. intros sd g Hm Hi. destruct (s_mu sd) eqn:Hmu.
  - split; [intros _; by split; [|apply Hm]|]. by intros sd' b ?%elem_of_nil.
  - split; [done|]. intros sd' b [= -> ->]%list_elem_of_singleton.
    destruct (step_lock strict N i sd g t W Hi Hm Hmu) as (l & g' & ? & ? & ?). exists g'.
    split_and!; [done..|by exists l].
Qed.

Lemma Unlock_tri t W ph l :
  idle ph ∨ (strict.1 = false ∧ ph = Closing) →
  tri (mode i t W (Some (ph, l))) Unlock (λ _, mode i t W None).
Proof.
  intros Hid. apply triple_access; [stab..|]. intros sd g Hm Hi.
  rewrite (mu_hold N i sd g ph l Hi (proj2 (proj2 Hm))).
  destruct (step_unlock strict N i sd g t W ph l Hi Hm Hid) as (g' & ? & ? & ?). by eexists _, _, g'.
Qed.

(** ** Tokens and the list *)

Lemma wakeNext_tri t W n l :
  tri (mode i t W (Some (Sending (S n), l))) wakeNext
    (λ _ g, ∃ w l', l = w :: l' ∧ mode i t W (Some (Sending n, l')) g).
Proof.
  tri_mid (λ w g, ∃ l', l = w :: l' ∧ mode i t W (Some (Unlinked w n, l')) g).
  - tri_mid (λ o g, ∃ w l', (o = Some w ∧ l = w :: l') ∧ mode i t W (Some (Sending (S n), l)) g).
    { apply triple_load; [stab..|]. intros sd g Hm (Hs & _).
      pose proof Hm as (_ & _ & (_ & Hl & Hph)%mine_hold). pose proof (sc_pending _ _ _ Hs) as Hp.
      rewrite Hph, Hl in Hp. simpl in Hp. destruct l as [|w l']; simpl in Hp; [lia|]. exists w, l'.
      split; [|done]. split; [|done]. by rewrite (dll_oldest _ _ (sc_list _ _ _ Hs)), Hl. }
    intros o. apply triple_exist. intros w. apply triple_exist. intros l'. apply triple_fact.
    intros [-> ->]. tri_mid (λ _, mode i t W (Some (Unlinked w n, l')));
      [|intros _; apply triple_ret; [stab|by exists l']].
    apply triple_access; [stab..|]. intros sd g Hm Hi. pose proof Hi as (Hs & _).
    pose proof Hm as (_ & _ & (_ & Hl & _)%mine_hold). pose proof (sc_list _ _ _ Hs) as Hd. rewrite Hl in Hd.
    destruct (unlinked_mid sd [] w l' Hd) as (sd' & Hun & Hd' & Hlo & Hcl & Hfr).
    destruct (step_unlink_head strict N i sd sd' g t W n w l' Hi Hm Hd' Hlo Hcl Hfr) as (g' & ? & ? & ?).
    exists sd', tt, g'. rewrite Hun. done.
  - intros w. apply triple_exist. intros l'. apply triple_fact. intros ->.
    apply triple_access; [stab..|]. intros sd g Hm Hi.
    destruct (step_send strict N i sd g t W n w l' Hi Hm) as [Hw (g' & ? & ? & ?)].
    eexists _, tt, g'. rewrite (read_Some w _ _ _ Hw), (write_Some w _ _ _ Hw).
    split_and!; [done..|]. by exists w, l'.
Qed.

(** ** Waking *)

Lemma wakeOneLocked_tri pl o W l :
  tri (mode i (Thread pl o) W (Some (Calm, l))) wakeOneLocked
    (λ _ g, ∃ ph l', idle ph ∧ mode i (Thread pl false) W (Some (ph, l')) g).
Proof.
  eapply triple_pre; [|intros g Hm; exact (ex_intro (λ o, mode i (Thread pl o) W (Some (Calm, l)) g) o Hm)].
  apply triple_forever; [stab..|]. apply triple_exist. clear o. intros o.
  tri_seq by (apply loadWord_counts).
  intros word. apply triple_fact. intros (p & q & c & Hp & Hq & ->).
  destruct (needsWake (side_word p q c)) eqn:Hn; cbn [negb].
  2: { apply triple_ret; [stab|]. intros g Hm. exists Calm, l. rewrite andb_false_r in Hm. split; [by left|done]. }
  rewrite andb_true_r.
  tri_mid (λ b : bool, if b then mode i (Thread pl false) W (Some (Sending 1, l))
    else mode i (Thread pl o) W (Some (Calm, l))).
  - apply compareAndSwap_tri; [stab|intros []; stab|done|]. intros sd g Hm Hi Hw.
    destruct (sinv_counts _ _ _ _ _ Hi Hp Hq Hw) as (_ & Hpk & _).
    rewrite needsWake_word in Hn by done. apply andb_prop in Hn as [_ Hq0%Z.ltb_lt].
    rewrite <- Hw. change oneParked with (u64 (1 * oneParked)).
    apply (step_transfer strict N i sd g pl o W l 1 Hi Hm). lia.
  - intros []; cbv beta iota.
    + tri_seq by (apply wakeNext_tri). intros u. apply triple_ret; [stab|].
      intros g (w & l' & _ & Hm). exists (Sending 0), l'. split; [by right|done].
    + apply triple_ret; [stab|]. intros g Hm. by exists o.
Qed.

Lemma wakeOne_tri pl o W :
  tri (mode i (Thread pl o) W None) wakeOne (λ _, mode i (Thread pl false) W None).
Proof.
  tri_seq by (apply Lock_tri). intros _. apply triple_exist. intros l.
  tri_seq by (apply wakeOneLocked_tri). intros b. apply triple_exist. intros ph. apply triple_exist. intros l'.
  apply triple_fact. intros Hid. tri_seq by (apply Unlock_tri; by left). intros _.
  apply triple_ret; [stab|done].
Qed.

Lemma wakeCheck_tri pl o W :
  tri (mode i (Thread pl o) W None) wakeCheck (λ _, mode i (Thread pl false) W None).
Proof.
  tri_seq by (apply (loadWord_tri _ _ _ _ (λ _, True)); done). intros word. apply triple_fact. intros _.
  tri_mid (λ _, mode i (Thread pl false) W None).
  - destruct (needsWake word).
    + tri_seq by (apply wakeOne_tri). intros _. apply triple_ret; [stab|done].
    + rewrite andb_false_r. apply triple_ret; [stab|done].
  - intros _. apply triple_ret; [stab|done].
Qed.

(** The phase of a holder that has [n] of [count] tokens to send. *)
Definition to_send (count : Z) (n : nat) : phase := if count =? 0 then Calm else Sending n.

Lemma transferGroup_tri target pl o W l :
  1 <= target <= countMask →
  tri (mode i (Thread pl o) W (Some (Calm, l))) (transferGroup target)
    (λ count g, 0 <= count ∧ mode i (Thread pl false) W (Some (to_send count (Z.to_nat count), l)) g).
Proof.
  intros Ht. change countMask with (2 ^ 31 - 1) in *.
  eapply triple_pre; [|intros g Hm; exact (ex_intro (λ o, mode i (Thread pl o) W (Some (Calm, l)) g) o Hm)].
  apply triple_forever; [stab..|]. apply triple_exist. clear o. intros o.
  tri_seq by (apply loadWord_counts). intros word. apply triple_fact. intros (p & q & c & Hp & Hq & ->).
  rewrite needsWake_word, parked_word, pollers_word by done. unfold is_count in *.
  destruct (Z.eqb_spec q 0) as [Hq0|Hq0]; [|destruct (Z.leb_spec target p) as [Hle|Hgt]]; cbn [orb].
  - apply triple_ret; [stab|]. intros g Hm. split; [done|]. subst q. by rewrite andb_false_r, andb_false_r in Hm.
  - apply triple_ret; [stab|]. intros g Hm. split; [done|].
    rewrite (proj2 (Z.eqb_neq p 0)), andb_false_l, andb_false_r in Hm by lia. done.
  - rewrite (proj2 (Z.ltb_ge countMask target)) by (change countMask with (2 ^ 31 - 1); lia).
    change countMask with (2 ^ 31 - 1).
    rewrite (u32_small (target - p)) by (unfold is_u32; lia).
    rewrite (u64_small (2 ^ 31 - 1 - p)) by (unfold is_u64; lia).
    assert (1 <= Z.min q (target - p) <= q ∧ Z.min q (target - p) <= 2 ^ 31 - 1 - p) as [Hc1 Hc2] by lia.
    generalize dependent (Z.min q (target - p)). intros count Hc1 Hc2. cbv zeta.
    rewrite (proj2 (Z.ltb_ge (2 ^ 31 - 1 - p) count)) by lia.
    tri_mid (λ b : bool, if b then mode i (Thread pl false) W (Some (Sending (Z.to_nat count), l))
      else λ g, ∃ o, mode i (Thread pl o) W (Some (Calm, l)) g).
    + apply compareAndSwap_tri; [stab|intros []; stab|by eexists|]. intros sd g Hm Hi Hw.
      destruct (sinv_counts _ _ _ _ _ Hi Hp Hq Hw) as (_ & Hpk & _).
      rewrite <- Hw. eapply (step_transfer strict N i sd g pl); [done..|lia].
    + intros []; cbv beta iota; (apply triple_ret; [stab|]); [|done].
      intros g Hm. split; [lia|]. unfold to_send. by rewrite (proj2 (Z.eqb_neq count 0)) by lia.
Qed.

Lemma wakeGroup_tri target pl o W :
  1 <= target <= countMask →
  tri (mode i (Thread pl o) W None) (wakeGroup target) (λ _, mode i (Thread pl false) W None).
Proof.
  intros Ht. tri_seq by (apply Lock_tri). intros _. apply triple_exist. intros l.
  tri_seq by (by apply transferGroup_tri). intros count. apply triple_fact. intros Hc.
  tri_mid (λ _ g, ∃ l', mode i (Thread pl false) W (Some (to_send count 0, l')) g).
  - eapply triple_conseq;
      [apply (triple_for_each _ _ _ _ (seqZ 0 count) _ (λ done g, ∃ l',
         mode i (Thread pl false) W (Some (to_send count (Z.to_nat count - length done), l')) g)); [stab|]|..].
    + intros done x rest Hl. apply triple_exist. intros l'.
      assert (length done < Z.to_nat count)%nat as Hlt.
      { rewrite <- (length_seqZ 0 count), Hl, length_app. simpl. lia. }
      unfold to_send. rewrite (proj2 (Z.eqb_neq count 0)) by lia.
      replace (Z.to_nat count - length done)%nat with (S (Z.to_nat count - length (done ++ [x])))
        by (rewrite length_app; simpl; lia).
      eapply triple_post; [apply wakeNext_tri|]. intros u g (w & l1 & _ & Hm). by exists l1.
    + intros g Hm. exists l. by rewrite Nat.sub_0_r.
    + intros u g (l' & Hm). exists l'. by rewrite length_seqZ, Nat.sub_diag in Hm.
  - intros _. apply triple_exist. intros l'. tri_seq by (apply Unlock_tri; left; unfold to_send; case_match; [by left|by right]).
    intros _. apply triple_ret; [stab|done].
Qed.

(** ** Registering and leaving *)

Lemma register_tri W :
  tri (mode i (Thread Out false) W None) register
    (λ (b : bool) g, (b = true → g_closed g = true) ∧ mode i (Thread (if b then Out else Polling) false) W None g).
Proof.
  apply triple_forever; [stab..|]. tri_seq by (apply loadWord_any; stab). intros word.
  destruct (closed word); [apply triple_ret; [stab|]; intros g [Hc Hm]; auto|].
  eapply triple_pre; [|intros g [_ Hm]; exact Hm]. tri_mid (λ b : bool, mode i (Thread (if b then Polling else Out) false) W None).
  - apply compareAndSwap_tri; [stab..|done|]. intros sd g Hm Hi <-. by apply step_register.
  - intros []; (apply triple_ret; [stab|done]).
Qed.

Lemma dropPoller_tri o W :
  tri (mode i (Thread Polling o) W None) dropPoller (λ left, mode i (Thread Out (needsWake left)) W None).
Proof.
  eapply triple_pre; [|intros g Hm; exact (ex_intro (λ o, mode i (Thread Polling o) W None g) o Hm)].
  apply triple_forever; [stab..|]. apply triple_exist. clear o. intros o.
  tri_seq by (apply (loadWord_tri _ _ _ _ (λ word, pollers word ≠ 0)); intros sd g Hi Hm;
    destruct (sinv_word _ _ _ Hi) as (? & ? & ->); rewrite pollers_word by done;
    pose proof (polls_registered _ _ _ _ _ _ _ Hi Hm eq_refl); lia).
  intros word. apply triple_fact. intros Hp. rewrite (proj2 (Z.eqb_neq _ _) Hp). cbv zeta.
  tri_mid (λ b : bool, if b then mode i (Thread Out (needsWake (word -64 onePoller))) W None
    else λ g, ∃ o, mode i (Thread Polling o) W None g).
  - apply compareAndSwap_tri; [stab|intros []; stab|by eexists|]. intros sd g Hm Hi <-. by eapply step_drop.
  - intros []; cbv beta iota; (apply triple_ret; [stab|done]).
Qed.

(** ** Parking *)

Lemma link_tri w position W l :
  w ∈ W →
  tri (mode i (Thread Out true) W (Some (Extra, l)))
    (access (λ sd, sd ← (if position : bool then linked_oldest else linked_newest) w sd; Some (sd, tt)))
    (λ _ g, ∃ l', mode i (Thread (Parked w) true) W (Some (Calm, l')) g).
Proof.
  intros Hin. apply triple_access; [stab..|]. intros sd g Hm Hi. pose proof Hi as (Hs & _).
  destruct (owned_clean _ _ _ _ _ _ _ w Hi Hm Hin) as [Hcl Hwl]; [by intros []|].
  pose proof Hm as (_ & _ & (_ & Hl & _)%mine_hold). pose proof (sc_list _ _ _ Hs) as Hd. rewrite Hl in Hd.
  assert (∃ sd' l', (if position then linked_oldest else linked_newest) w sd = Some sd' ∧ dll sd' l' ∧
    list_only sd sd' ∧ (∀ q, q ∈ l' ↔ q = w ∨ q ∈ l) ∧ length l' = S (length l) ∧
    ∀ q, q ∉ l' → waiters sd' !! q = waiters sd !! q) as (sd' & l' & Hlk & Hd' & Hlo & Hel & Hlen & Hfr).
  { destruct position.
    - destruct (linked_oldest_ok sd l w Hd Hcl) as (sd' & ? & ? & ? & ?). exists sd', (w :: l).
      split_and!; try done. intros q. apply elem_of_cons.
    - destruct (linked_newest_ok sd l w Hd Hcl) as (sd' & ? & ? & ? & ?). exists sd', (l ++ [w]).
      split_and!; try done; [|rewrite length_app; simpl; lia]. intros q.
      rewrite elem_of_app, list_elem_of_singleton. naive_solver. }
  destruct (step_link strict N i sd sd' g true W w l l' Hi Hm Hin Hd' Hel Hlen Hlo) as (g' & ? & ? & ?).
  { intros q Hq Hne. apply Hfr. rewrite Hel. naive_solver. }
  exists sd', tt, g'. rewrite Hlk. split_and!; [done..|by exists l'].
Qed.

Lemma enlist_tri w position o W :
  w ∈ W →
  tri (mode i (Thread Polling o) W None) (enlist w position)
    (λ b : bool, if b then λ g, g_closed g = true ∧ ∃ o', mode i (Thread Polling o') W None g
                 else mode i (Thread (Parked w) true) W None).
Proof.
  intros Hin. tri_seq by (apply Lock_tri). intros _. apply triple_exist. intros l.
  tri_mid (λ b : bool, if b then λ g, g_closed g = true ∧ ∃ o', mode i (Thread Polling o') W (Some (Calm, l)) g
    else mode i (Thread Out true) W (Some (Extra, l))).
  - eapply triple_pre; [|intros g Hm; exact (ex_intro (λ o, mode i (Thread Polling o) W (Some (Calm, l)) g) o Hm)].
    apply triple_forever; [stab..|intros []; stab|]. apply triple_exist. clear o. intros o.
    tri_seq by (apply (loadWord_shut _ _ _ _ (λ word, pollers word ≠ 0)); intros sd g Hi Hm;
      destruct (sinv_word _ _ _ Hi) as (? & ? & ->); rewrite pollers_word by done;
      pose proof (polls_registered _ _ _ _ _ _ _ Hi Hm eq_refl); lia).
    intros word. apply triple_fact. intros Hp.
    destruct (closed word); [apply triple_ret; [stab|]; intros g [Hc Hm]; split; [auto|by eexists]|].
    eapply triple_pre; [|intros g [_ Hm]; exact Hm]. rewrite (proj2 (Z.eqb_neq _ _) Hp).
    tri_mid (λ b : bool, if b then mode i (Thread Out true) W (Some (Extra, l))
      else λ g, ∃ o, mode i (Thread Polling o) W (Some (Calm, l)) g).
    + apply compareAndSwap_tri; [stab|intros []; stab|by eexists|]. intros sd g Hm Hi <-. by eapply step_park.
    + intros []; cbv beta iota; (apply triple_ret; [stab|done]).
  - intros []; cbv beta iota.
    + tri_mid (λ _ g, g_closed g = true ∧ ∃ o', mode i (Thread Polling o') W None g).
      { apply keep_closed, triple_exist. intros o'. eapply triple_post; [apply Unlock_tri; left; by left|].
        intros ? g Hm. by exists o'. }
      intros _. apply triple_ret; [stab|done].
    + tri_seq by (by apply link_tri). intros _. apply triple_exist. intros l'.
      tri_seq by (apply Unlock_tri; left; by left). intros _. apply triple_ret; [stab|done].
Qed.

Lemma receiveToken_tri w o W :
  tri (mode i (Thread (Chosen w) o) W None) (receiveToken w) (λ _, mode i (Thread Polling o) W None).
Proof.
  apply triple_await; [stab..|]. intros sd g Hm Hi.
  assert (waiters sd !! w = Some chosen) as Hw.
  { destruct Hi as (Hs & _), Hm as (Hti & _).
    apply (sc_heap _ _ _ Hs w i _ chosen (sc_owner _ _ _ Hs i _ w Hti (or_intror eq_refl)) Hti).
    unfold expected. cbn [t_place]. by rewrite decide_True. }
  unfold takeToken. rewrite (read_Some w _ _ _ Hw), (write_Some w _ _ _ Hw).
  split; [done|]. intros sd' b [= -> ->]%list_elem_of_singleton.
  by apply (step_take strict N i sd g (Chosen w) o W None w chosen Hi Hm (or_intror eq_refl) Hw).
Qed.

Lemma leaveListed_tri w o W :
  tri (mode i (Thread (Parked w) o) W None) (leaveListed w)
    (λ b : bool, mode i (Thread (if b then Out else Polling) o) W None).
Proof.
  tri_seq by (apply Lock_tri). intros _. apply triple_exist. intros l.
  tri_mid (λ (b : bool) g, if b then w ∈ l ∧ mode i (Thread (Parked w) o) W (Some (Calm, l)) g
    else mode i (Thread (Chosen w) o) W (Some (Calm, l)) g).
  { apply triple_access; [stab|intros []; stab|]. intros sd g Hm Hi. pose proof Hi as (Hs & _).
    pose proof Hm as (_ & _ & (_ & Hl & _)%mine_hold). destruct (decide (w ∈ l)) as [Hin|Hin].
    - rewrite <- Hl in Hin. destruct (dll_elem _ _ _ (sc_list _ _ _ Hs) Hin) as (e & He & Hli).
      exists sd, true, g. rewrite (read_Some w _ _ _ He). simpl. rewrite Hli, <- Hl in *. by split_and!.
    - destruct (step_known strict N i sd g o W w l Hi Hm Hin) as [Hw (g' & ? & ? & ?)].
      exists sd, false, g'. by rewrite (read_Some w _ _ _ Hw). }
  intros [|]; cbn [negb].
  - apply triple_fact. intros (l1 & l2 & ->)%list_elem_of_split.
    tri_mid (λ _, mode i (Thread Out o) W (Some (Extra, l1 ++ l2))).
    { apply triple_access; [stab..|]. intros sd g Hm Hi. pose proof Hi as (Hs & _).
      pose proof Hm as (_ & _ & (_ & Hl & _)%mine_hold). pose proof (sc_list _ _ _ Hs) as Hd. rewrite Hl in Hd.
      destruct (unlinked_mid sd l1 w l2 Hd) as (sd' & Hun & Hd' & Hlo & Hcl & Hfr).
      destruct (step_leave strict N i sd sd' g o W w l1 l2 Hi Hm Hd' Hlo Hcl Hfr) as (g' & ? & ? & ?).
      exists sd', tt, g'. by rewrite Hun. }
    intros _. tri_mid (λ _ g, mode i (Thread Out o) W (Some (Calm, l1 ++ l2)) g).
    + apply triple_forever; [stab..|].
      tri_mid (λ word g, parked word ≠ 0 ∧ mode i (Thread Out o) W (Some (Extra, l1 ++ l2)) g).
      { apply triple_load; [stab..|]. intros sd g Hm Hi. destruct (sinv_word _ _ _ Hi) as (? & ? & Hw).
        change (cget word_cell sd) with (s_word sd). rewrite Hw, parked_word by done. split; [|done]. pose proof Hm as (_ & _ & (_ & _ & Hph)%mine_hold).
        destruct Hi as (Hs & _). pose proof (sc_pending _ _ _ Hs) as Hp. unfold parks, len.
        rewrite Hph in *. cbn [pending ahead] in *. lia. }
      intros word. apply triple_fact. intros Hp. rewrite (proj2 (Z.eqb_neq _ _) Hp).
      tri_mid (λ b : bool, mode i (Thread Out o) W (Some (if b then Calm else Extra, l1 ++ l2))).
      * apply compareAndSwap_tri; [stab..|done|]. intros sd g Hm Hi <-. by apply step_unpark.
      * intros []; (apply triple_ret; [stab|done]).
    + intros _. tri_seq by (apply Unlock_tri; left; by left). intros _. apply triple_ret; [stab|done].
  - tri_seq by (apply Unlock_tri; left; by left). intros _. tri_seq by (apply receiveToken_tri). intros _.
    apply triple_ret; [stab|done].
Qed.

(** ** Closing *)

Lemma setClosedLocked_tri t W l :
  strict.2 →
  tri (mode i t W (Some (Calm, l))) setClosedLocked
    (λ (b : bool) g, g_closed g = true ∧ mode i t W (Some (if b then Closing else Calm, l)) g).
Proof.
  intros Hmay. apply triple_forever; [stab..|].
  tri_mid (λ word g, is_word word ∧ (closed word = true → g_closed g = true) ∧ mode i t W (Some (Calm, l)) g).
  { apply triple_load; [stab..|]. intros sd g Hm Hi. destruct (sinv_word _ _ _ Hi) as (? & ? & Hw).
    simpl. rewrite Hw, closed_word by done. split_and!; [by exists (polls g), (parks g), (g_closed g)|done..]. }
  intros word. apply triple_fact. intros (p & q & c & Hp & Hq & ->). rewrite closed_word by done. destruct c.
  { apply triple_ret; [stab|]. intros g [Hc Hm]. auto. }
  tri_mid (λ (b : bool) g, (b = true → g_closed g = true) ∧
    mode i t W (Some (if b then Closing else Calm, l)) g).
  - apply compareAndSwap_tri; [stab|stab|intros g [_ Hm]; by split|]. intros sd g [_ Hm] Hi Hw.
    destruct (sinv_counts _ _ _ _ _ Hi Hp Hq Hw) as (_ & _ & Hc). rewrite <- Hw.
    destruct (step_close strict N i sd g t W l Hi Hm Hc Hmay) as (g' & ? & ? & ? & ?). by exists g'.
  - intros []; (apply triple_ret; [stab|]); intros g [Hc Hm]; auto.
Qed.

(** ** The pool *)

Lemma newWaiter_tri t W :
  unseated t → tri (mode i t W None) newWaiter (λ w, mode i t (w :: W) None).
Proof.
  intros Hu. apply triple_act; [stab..|]. intros sd g Hm Hi. simpl. set (w := fresh _).
  pose proof Hi as (Hs & _). assert (waiters sd !! w = None) as Hn by (apply not_elem_of_dom; apply is_fresh).
  assert (g_owner g !! w = None) as Ho.
  { destruct (g_owner g !! w) as [j|] eqn:E; [|done]. destruct (sc_owned _ _ _ Hs w j E) as [_ [e He]].
    congruence. }
  apply (step_claim strict N i sd _ g t W None w); try done; simpl.
  - intros [Hp|Hp]; destruct Hu; congruence.
  - by rewrite lookup_insert_eq.
  - intros q Hq. by rewrite lookup_insert_ne.
  - apply (sc_pool _ _ _ Hs).
  - intros q Hq. split; [done|]. intros ->. destruct (proj2 (sc_pool _ _ _ Hs) w Hq). congruence.
Qed.

Lemma getWaiter_tri t W :
  unseated t → tri (mode i t W None) getWaiter (λ w, mode i t (w :: W) None).
Proof.
  intros Hu. tri_mid (λ o : option nat, match o with
    Some w => mode i t (w :: W) None | None => mode i t W None end).
  - apply triple_choose; [stab|intros []; stab|]. intros sd g Hm Hi. split; [done|].
    pose proof Hi as (Hs & _). destruct (sc_pool _ _ _ Hs) as [Hnd Hpool].
    intros sd1 b [[= -> ->]|Hin]%elem_of_cons; [by exists g|].
    apply elem_of_lookup_imap in Hin as (j & w & [= -> ->] & Hj).
    assert (s_pool sd ≡ₚ w :: delete j (s_pool sd)) as Hperm by (by apply delete_Permutation).
    pose proof Hnd as Hnd'. rewrite Hperm in Hnd'. apply NoDup_cons in Hnd' as [Hni Hnd'].
    destruct (Hpool w) as [Hcl Ho]; [by eapply list_elem_of_lookup_2|].
    apply (step_claim strict N i sd _ g t W None w); try done; simpl.
    + intros [Hp|Hp]; destruct Hu; congruence.
    + intros q Hq. split; [rewrite Hperm; by right|]. by intros ->.
  - intros [w|]; [apply triple_ret; [stab|done]|]. by apply newWaiter_tri.
Qed.

Lemma putWaiter_tri t W w :
  unseated t → w ∉ W → tri (mode i t (w :: W) None) (putWaiter w) (λ _, mode i t W None).
Proof.
  intros Hu Hw. apply triple_act; [stab..|]. intros sd g Hm Hi.
  apply (step_release strict N i sd g t W None w Hi Hm); [|done].
  intros [Hp|Hp]; destruct Hu; congruence.
Qed.
End triples.
End WaitTriples.
