(* ===== verification/WorkqConc.v ===== *)
(** * The work queue under every interleaving (src/workq, wakeup.md)

    Any number of goroutines call one queue at once: pushing, receiving, consuming, cancelling
    contexts and closing. The ghost state pairs those of the two wait sides with a flag for the
    [done] channel. Side operations are lifted from [WaitTriples]; an engine call is one atomic
    step that may create a debt: whoever publishes items owes the consumers a check, whoever
    releases room owes the producers one. Every call of the queue pays its debts before it returns
    or blocks, hence when nobody can run, no wake was lost. *)

From Stdlib Require Import ZArith Lia Program.Tactics.
From stdpp Require Import prelude list gmap strings.
From S2P Require Import Prelude Prog Triple RingCore RingSpec WaitSide Workq WaitConc WaitTriples.

Module WorkqConc.
Import Prog Triple Ring RingSpec WaitSide Workq WaitConc WaitTriples.

(** ** What the queue needs of its engine

    The engine assumptions of wakeup.md for an engine whose calls take effect at one instant. A
    call that moves less than it was asked to found the queue full or empty (A1), and a zero-length
    burst reports the current count (A4). *)
Class FreshEngine {E T} (A : queue_api E T) (items : E → list T) (cap : Z) : Prop := {
  fresh_cap : 1 <= cap <= 2 ^ 30;
  fresh_Enqueue x : ∃ f, api_Enqueue A x = Act f Ret ∧ ∀ e, len (items e) <= cap → f e ≠ [] ∧ ∀ e' err, (e', err) ∈ f e →
    match err with
    | None => items e' = items e ++ [x] ∧ len (items e') <= cap
    | Some _ => items e' = items e ∧ len (items e) = cap
    end;
  fresh_EnqueueBurst xs : ∃ f, api_EnqueueBurst A xs = Act f Ret ∧ ∀ e, len (items e) <= cap → f e ≠ [] ∧
    ∀ e' n free, (e', (n, free)) ∈ f e →
      0 <= n <= len xs ∧ items e' = items e ++ take (Z.to_nat n) xs ∧ len (items e') <= cap ∧
      (n = 0 → xs ≠ [] → len (items e) = cap) ∧ (xs = [] → free = cap - len (items e));
  fresh_Dequeue : ∃ f, api_Dequeue A = Act f Ret ∧ ∀ e, len (items e) <= cap → f e ≠ [] ∧ ∀ e' v err, (e', (v, err)) ∈ f e →
    match err with
    | None => items e = v :: items e'
    | Some _ => items e' = items e ∧ items e = []
    end;
  fresh_DequeueBurst dst : ∃ f, api_DequeueBurst A dst = Act f Ret ∧ ∀ e, len (items e) <= cap → f e ≠ [] ∧
    ∀ e' n available dst', (e', (n, available, dst')) ∈ f e →
      0 <= n <= len dst ∧ n <= len (items e) ∧ items e' = drop (Z.to_nat n) (items e) ∧
      dst' = take (Z.to_nat n) (items e) ++ drop (Z.to_nat n) dst ∧
      (n = 0 → dst ≠ [] → items e = []) ∧ (dst = [] → available = len (items e));
}.

(** ** The invariant of the whole queue *)

Lemma len_pos {X} (l : list X) : l ≠ [] → 1 <= len l.
Proof. destruct l; [done|]. unfold len. simpl. lia. Qed.

(** The ghosts of the sides, whether [done] is closed, the cancelled contexts, for each goroutine
    the items it has pushed and received so far, and ghost state of the program around the queue. *)
Record wghost (T H : Type) := WGhost {
  gc : ghost; gp : ghost; gdone : bool; gctx : gmap nat error; glogs : list (list T * list T); gx : H }.
Arguments WGhost {T H} _ _ _ _ _ _.
Arguments gc {T H} _.
Arguments gp {T H} _.
Arguments gdone {T H} _.
Arguments gctx {T H} _.
Arguments glogs {T H} _.
Arguments gx {T H} _.

(** The items of the goroutines' logs, as a whole. *)
Lemma concat_upd {X Y} (f : Y → list X) (l : list Y) i y y' xs :
  l !! i = Some y → f y' ≡ₚ f y ++ xs → concat (f <$> <[i := y']> l) ≡ₚ concat (f <$> l) ++ xs.
Proof.
  revert i. induction l as [|z l IH]; intros [|i] Hi Hf; simpl in *; try done.
  - injection Hi as ->. rewrite Hf, <- !app_assoc. f_equiv. apply Permutation_app_comm.
  - rewrite (IH i Hi Hf). by rewrite app_assoc.
Qed.

(** ** The program around the queue

    What the code that uses the queue promises to it: an invariant of its own state, of the contexts,
    of whether the queue holds items and of the logs, over ghost state [H] of its own; what its
    goroutines rely on; which of them may use the queue, and for what and with which context they wait; when
    nothing is pushed any more ([xfrozen]) and what closing the queue requires ([xclosed]). *)
Class Around (U T H : Type) : Type := {
  xinv : U → gmap nat error → bool → list (list T * list T) → H → Prop;
  xrely : nat → H → H → Prop;
  xmay : nat → H → Prop;
  xuses : nat → bool → nat → H → Prop;
  xfrozen : H → Prop;
  xclosed : H → Prop;
  guarded : Prop;
  xrely_preorder i :: PreOrder (xrely i);
  xfrozen_stable i h h' : xrely i h h' → xfrozen h → xfrozen h';
  xclosed_stable i h h' : xrely i h h' → xclosed h → xclosed h';
  x_engine i u ctxs d d' logs L L' h :
    xinv u ctxs d logs h → xmay i h → logs !! i = Some L → (xfrozen h → d = false → d' = false) →
    xinv u ctxs d' (<[i := L']> logs) h;
  x_guard : guarded → ∀ h, xclosed h → xfrozen h;
}.

Section conc.
Context {E T U H : Type} (A : queue_api E T) (zero : T) (items : E → list T) (cap : Z).
Context `{!FreshEngine A items cap}.
Context (N : nat).
Context `{!Around U T H}.
Abbreviation W := (world E U).
Abbreviation wghost := (wghost T H).

(** Limits that [newQueue] sets up. *)
Definition settings (q : Queue E) : Prop :=
  1 <= consumerWakeCap q <= countMask ∧ 1 <= q_maxReceiveBatch q ∧ 1 <= q_maxPushBatch q <= 2 ^ 30.

Definition held_in (g : ghost) : Prop := ∀ j ph, g_hold g = Some (j, ph) → (j < N)%nat.

(** Everything pushed, in order, is what was received followed by what is queued. *)
Definition conserved (contents : list T) (logs : list (list T * list T)) : Prop :=
  ∃ pushed received, pushed = received ++ contents ∧
    pushed ≡ₚ concat (fst <$> logs) ∧ received ≡ₚ concat (snd <$> logs).

Record winv (w : W) (g : wghost) : Prop := {
  wi_consumers : sinv N (q_consumers (queue w)) (gc g);
  wi_producers : sinv N (q_producers (queue w)) (gp g);
  wi_items : g_demand (gc g) = bool_decide (items (engine (queue w)) ≠ []);
  wi_room : g_demand (gp g) = bool_decide (len (items (engine (queue w))) < cap);
  wi_fits : len (items (engine (queue w))) <= cap;
  wi_settings : settings (queue w);
  wi_held : held_in (gc g) ∧ held_in (gp g);
  wi_done : q_done (queue w) = gdone g;
  wi_closed : g_closed (gc g) = true → gdone g = true ∨ phase_of (gc g) = Closing;
  wi_contexts : contexts w = gctx g;
  wi_errors : ∀ ctx err, gctx g !! ctx = Some err → errors_Is err ErrClosed = false;
  wi_everyone : length (glogs g) = N;
  wi_logs : conserved (items (engine (queue w))) (glogs g);
  wi_announced : gdone g = true → g_closed (gc g) = true;
  wi_shut : g_closed (gc g) = true → xclosed (gx g);
  wi_user : xinv (user w) (contexts w) (g_demand (gc g)) (glogs g) (gx g);
}.

Definition wrely (i : nat) (g g' : wghost) : Prop :=
  srely i (gc g) (gc g') ∧ srely i (gp g) (gp g') ∧ (gdone g = true → gdone g' = true) ∧
  gctx g ⊆ gctx g' ∧ glogs g' !! i = glogs g !! i ∧
  (xfrozen (gx g) → g_demand (gc g) = false → g_demand (gc g') = false) ∧ xrely i (gx g) (gx g').
Definition wguar (i : nat) (g g' : wghost) : Prop :=
  (∀ j, j ≠ i → wrely j g g') ∧ (gdone g = true → gdone g' = true) ∧ gctx g ⊆ gctx g' ∧ gx g' = gx g.

#[export] Instance wrely_preorder i : PreOrder (wrely i).
Proof.
  split; [intros g; by split_and!|]. intros g1 g2 g3 (H1 & H2 & H3 & H4 & H5 & H6 & H7) (K1 & K2 & K3 & K4 & K5 & K6 & K7).
  split_and!; [by etrans|by etrans|auto|by etrans|congruence| |by etrans].
  intros Hf Hd. apply K6; [by eapply xfrozen_stable|auto].
Qed.
#[export] Instance wguar_reflexive i : Reflexive (wguar i).
Proof. intros g. split_and!; [|done..]. intros j _. reflexivity. Qed.

(** Goroutine [i] is parked on a side and nothing is there to wake it. *)
Definition parked_on (i : nat) (sd : waitSide) (g1 g2 : ghost) : Prop :=
  ∃ x e, mode i (Thread (Parked x) false) [] None g1 ∧ mode i (Thread Out false) [] None g2 ∧
    waiters sd !! x = Some e ∧ w_token e = false.

(** It waits for items or for room with a context that is not cancelled. *)
Definition waits_as (i : nat) (consumer : bool) (wg : W * wghost) : Prop :=
  ∃ ctx, xuses i consumer ctx (gx wg.2) ∧ contexts wg.1 !! ctx = None.

Definition wquiet (i : nat) (wg : W * wghost) : Prop :=
  let q := queue wg.1 in let g := wg.2 in
  mine i (gc g) = None ∧ mine i (gp g) = None ∧ xmay i (gx g) ∧
  (s_mu (q_consumers q) = true ∨ s_mu (q_producers q) = true ∨
   (q_done q = false ∧
     ((waits_as i true wg ∧ parked_on i (q_consumers q) (gc g) (gp g)) ∨
      (waits_as i false wg ∧ parked_on i (q_producers q) (gp g) (gc g))))).

Section goroutine.
Context (i : nat) (i_lt : (i < N)%nat).
(** What the goroutine knows of the program around the queue while it uses the queue. *)
Context (κ : H → Prop) {κ_stable : Stable (xrely i) κ} (κ_may : ∀ h, κ h → xmay i h).
Abbreviation uses := (λ consumer ctx, ∀ h, κ h → xuses i consumer ctx h).
Abbreviation rule := (∀ h, κ h → xclosed h).
Abbreviation wtri := (triple winv (wquiet i) (wrely i) (wguar i)).

(** Where the goroutine stands on both sides, with the waiters it owns; [V] pairs those of the
    producers' side with the items it has pushed and received. *)
Abbreviation view := (list nat * (list T * list T))%type.
Definition owns (L : list T * list T) (g : wghost) : Prop := glogs g !! i = Some L ∧ κ (gx g).
Definition both (tc : trec) (Wc : list nat) (tp : trec) (V : view) (g : wghost) : Prop :=
  mode i tc Wc None (gc g) ∧ mode i tp V.1 None (gp g) ∧ owns V.2 g.

(** Context [ctx] is cancelled, and stays so. *)
Definition cancelled (ctx : nat) (g : wghost) : Prop := ∃ err, gctx g !! ctx = Some err.

Definition has_pushed (xs : list T) (V : view) : view := (V.1, (V.2.1 ++ xs, V.2.2)).
Definition has_received (xs : list T) (V : view) : view := (V.1, (V.2.1, V.2.2 ++ xs)).

#[export] Instance on_gc_stable P : Stable (srely i) P → Stable (wrely i) (λ g, P (gc g)).
Proof. intros HP g g' (Hr & _). by apply HP. Qed.
#[export] Instance on_gp_stable P : Stable (srely i) P → Stable (wrely i) (λ g, P (gp g)).
Proof. intros HP g g' (_ & Hr & _). by apply HP. Qed.
#[export] Instance gdone_stable : Stable (wrely i) (λ g, gdone g = true).
Proof. intros g g' (_ & _ & Hd & _). exact Hd. Qed.
#[export] Instance cancelled_stable ctx : Stable (wrely i) (cancelled ctx).
Proof. intros g g' (_ & _ & _ & Hs & _) [err Herr]. exists err. by eapply lookup_weaken. Qed.
#[export] Instance owns_stable L : Stable (wrely i) (owns L).
Proof. intros g g' (_ & _ & _ & _ & Hl & _ & Hx) [HL Hκ]. split; [by rewrite Hl|by eapply κ_stable]. Qed.
#[export] Instance both_stable tc Wc tp V : Stable (wrely i) (both tc Wc tp V).
Proof. unfold both. apply _. Qed.

Lemma held_step g g' : held_in g → (∀ j, j ≠ i → srely j g g') → held_in g'.
Proof.
  intros Hh Hr j ph Hj. destruct (decide (j = i)) as [->|Hne]; [done|].
  destruct (Hr j Hne) as (_ & _ & Hm & _). rewrite (mine_Some j ph (g_list g')) in Hm by done.
  symmetry in Hm. apply mine_hold in Hm as (Hg & _). by eapply Hh.
Qed.

(** ** Side operations on the queue *)

Lemma consumers_step w g h sd' :
  winv w g → κ (gx g) → sguar (true, rule) i (gc g) h → sinv N sd' h →
  let g' := WGhost h (gp g) (gdone g) (gctx g) (glogs g) (gx g) in wguar i g g' ∧ winv (put_back consumers sd' w) g'.
Proof.
  intros [] Hκ (Hr & Hd & Hmay & Hcl) Hi' g'. destruct (Hcl eq_refl) as [Hc1 Hc2]. split.
  - split_and!; [|done..]. intros j Hj. split_and!; [by apply Hr|done..| |done]. simpl. by rewrite Hd.
  - destruct wi_held0 as [Hh1 Hh2]. split; simpl; try done; [congruence|split; [exact (held_step _ _ Hh1 Hr)|done]|..].
    + intros Hc. destruct Hc1 as [Hc1|Hc1]; [|by right]. rewrite Hc1 in Hc.
      destruct (wi_closed0 Hc) as [?|Hph]; [by left|]. right. unfold phase_of in *. by rewrite Hc2.
    + intros Hc. destruct (Hr (S i)) as (_ & _ & _ & Hkeep); [lia|]. auto.
    + destruct Hmay as [->|Hmay]; auto.
    + by rewrite Hd.
Qed.

Lemma producers_step w g h sd' :
  winv w g → sguar (false, True) i (gp g) h → sinv N sd' h →
  let g' := WGhost (gc g) h (gdone g) (gctx g) (glogs g) (gx g) in wguar i g g' ∧ winv (put_back producers sd' w) g'.
Proof.
  intros [] (Hr & Hd & _) Hi' g'. split.
  - split_and!; [|done..]. intros j Hj. split_and!; [done|by apply Hr|done..].
  - destruct wi_held0 as [Hh1 Hh2]. split; simpl; try done; [congruence|]. split; [done|exact (held_step _ _ Hh2 Hr)].
Qed.

Lemma zoom_consumers {B} P (p : prog waitSide B) Q F L :
  triple (sinv N) (squiet i) (srely i) (sguar (true, rule) i) P p Q →
  Stable (srely i) F → (∀ g, F g → mine i g = None) →
  wtri (λ g, P (gc g) ∧ F (gp g) ∧ owns L g) (zoom consumers p)
    (λ a g, Q a (gc g) ∧ F (gp g) ∧ owns L g).
Proof.
  intros Hp HF Hmine. apply (triple_zoom winv _ (wrely i) (wguar i) (sinv N) (squiet i) (srely i) (sguar (true, rule) i)
    consumers gc (λ g, F (gp g) ∧ owns L g)); [..|exact Hp].
  - intros g g' Hr. split; [apply Hr|]. intros [Hf Hl]. split; [by eapply HF; [apply Hr|]|by eapply owns_stable].
  - intros w g Hi. eexists. split; [done|]. apply Hi.
  - intros w g x Hi [= <-] [Hmu Hm] [HFg [_ Hκ]]. split_and!; [done|by apply Hmine|by apply κ_may|by left].
  - intros w g x x' h Hi HFg [= <-] Hg Hi'. destruct (consumers_step w g h x' Hi (proj2 (proj2 HFg)) Hg Hi'). by eexists.
Qed.

Lemma zoom_producers {B} P (p : prog waitSide B) Q F L :
  triple (sinv N) (squiet i) (srely i) (sguar (false, True) i) P p Q →
  Stable (srely i) F → (∀ g, F g → mine i g = None) →
  wtri (λ g, F (gc g) ∧ P (gp g) ∧ owns L g) (zoom producers p)
    (λ a g, F (gc g) ∧ Q a (gp g) ∧ owns L g).
Proof.
  intros Hp HF Hmine. eapply triple_conseq;
    [apply (triple_zoom winv _ (wrely i) (wguar i) (sinv N) (squiet i) (srely i) (sguar (false, True) i)
      producers gp (λ g, F (gc g) ∧ owns L g)); [..|exact Hp]|..].
  - intros g g' Hr. split; [apply Hr|]. intros [Hf Hl]. split; [by eapply HF; [apply Hr|]|by eapply owns_stable].
  - intros w g Hi. eexists. split; [done|]. apply Hi.
  - intros w g x Hi [= <-] [Hmu Hm] [HFg [_ Hκ]]. split_and!; [by apply Hmine|done|by apply κ_may|right; by left].
  - intros w g x x' h Hi HFg [= <-] Hg Hi'. destruct (producers_step w g h x' Hi Hg Hi'). by eexists.
  - simpl. tauto.
  - simpl. tauto.
Qed.

(** The same for goroutines outside both critical sections. *)
Lemma consumers_tri {B} tc Wc (p : prog waitSide B) tc' Wc' tp V :
  triple (sinv N) (squiet i) (srely i) (sguar (true, rule) i) (mode i tc Wc None) p
    (λ a, mode i (tc' a) (Wc' a) None) →
  wtri (both tc Wc tp V) (zoom consumers p) (λ a, both (tc' a) (Wc' a) tp V).
Proof.
  intros Hp. apply (zoom_consumers (mode i tc Wc None) p (λ a, mode i (tc' a) (Wc' a) None) (mode i tp V.1 None) V.2 Hp).
  - apply _.
  - by intros g (_ & _ & ?).
Qed.

Lemma producers_own_tri {B} tc Wc (p : prog waitSide B) tp Wp L tp' Wp' :
  triple (sinv N) (squiet i) (srely i) (sguar (false, True) i) (mode i tp Wp None) p
    (λ a, mode i (tp' a) (Wp' a) None) →
  wtri (both tc Wc tp (Wp, L)) (zoom producers p) (λ a, both tc Wc (tp' a) (Wp' a, L)).
Proof.
  intros Hp. apply (zoom_producers (mode i tp Wp None) p (λ a, mode i (tp' a) (Wp' a) None) (mode i tc Wc None) L Hp).
  - apply _.
  - by intros g (_ & _ & ?).
Qed.

Lemma producers_tri {B} tc Wc (p : prog waitSide B) tp V tp' :
  triple (sinv N) (squiet i) (srely i) (sguar (false, True) i) (mode i tp V.1 None) p
    (λ a, mode i (tp' a) V.1 None) →
  wtri (both tc Wc tp V) (zoom producers p) (λ a, both tc Wc (tp' a) V).
Proof. destruct V as [Wp L]. apply producers_own_tri. Qed.

(** ** Engine calls *)

(** Only goroutines that know that the queue is not frozen push. *)
Abbreviation pusher := (∀ h, κ h → ¬ xfrozen h).

(** The consumers' side is closed, if [b] says so. *)
Definition shut (b : bool) (g : wghost) : Prop := b = true → g_closed (gc g) = true.
(** The queue was empty when nothing was pushed any more, so it is. *)
Definition drained (g : wghost) : Prop := guarded → xfrozen (gx g) ∧ g_demand (gc g) = false.

#[export] Instance shut_stable b : Stable (wrely i) (shut b).
Proof. intros g g' ((_ & _ & _ & Hc) & _) Hs Hb. auto. Qed.
#[export] Instance drained_stable : Stable (wrely i) drained.
Proof.
  intros g g' (_ & _ & _ & _ & _ & Hd & Hx) Hdr Hg. destruct (Hdr Hg) as [Hf Hz].
  split; [by eapply xfrozen_stable|auto].
Qed.

Lemma engine_shut_tri {B} (b : bool) (f : E → list (E * B)) pc oc Wc pp op V (Q : B → wghost → Prop) :
  (∀ b, Stable (wrely i) (Q b)) →
  (∀ e, len (items e) <= cap → f e ≠ [] ∧ ∀ e' a, (e', a) ∈ f e → ∃ oc' op' ps rs,
     (items e' ≠ [] → oc' = true ∨ (items e ≠ [] ∧ (oc = true → oc' = true))) ∧
     (len (items e') < cap → op' = true ∨ (len (items e) < cap ∧ (op = true → op' = true))) ∧
     len (items e') <= cap ∧ items e ++ ps = rs ++ items e' ∧ (ps = [] ∨ pusher) ∧
     ∀ g, both (Thread pc oc') Wc (Thread pp op') (has_received rs (has_pushed ps V)) g →
       (b = true → items e' = [] → drained g) → Q a g) →
  wtri (λ g, shut b g ∧ both (Thread pc oc) Wc (Thread pp op) V g) (zoom the_engine (Act f Ret)) Q.
Proof.
  intros HQ Hf. apply triple_choose; [stab..|]. intros w g (Hshut & Hc & Hp & Hlog & Hκ) []. simpl.
  destruct (Hf _ wi_fits0) as [Hne Hst]. split; [by intros ?%fmap_nil_inv|].
  intros w' a ([e' a'] & [= -> ->] & Hin)%list_elem_of_fmap.
  destruct (Hst e' a' Hin) as (oc' & op' & ps & rs & Hoc & Hop & Hfit & Hmoved & Hpush & HQb).
  assert (xfrozen (gx g) → g_demand (gc g) = false → bool_decide (items e' ≠ []) = false) as Hdrain.
  { intros Hfr. rewrite wi_items0, !bool_decide_eq_false. intros Hnil%dec_stable Hne'. apply Hne'.
    destruct Hpush as [->|Hpush]; [|by destruct (Hpush _ Hκ)]. rewrite Hnil, app_nil_r in Hmoved.
    symmetry in Hmoved. by apply app_nil in Hmoved as [_ ?]. }
  destruct (step_demand N i _ _ pc oc oc' Wc None (bool_decide (items e' ≠ [])) wi_consumers0 Hc)
    as (gc' & Hrc & Hclc & Hhc & Hic & Hmc & Hdc).
  { rewrite wi_items0, !bool_decide_eq_true. exact Hoc. }
  destruct (step_demand N i _ _ pp op op' V.1 None (bool_decide (len (items e') < cap)) wi_producers0 Hp)
    as (gp' & Hrp & _ & _ & Hip & Hmp & Hdp).
  { rewrite wi_room0, !bool_decide_eq_true. exact Hop. }
  set (L := (V.2.1 ++ ps, V.2.2 ++ rs)).
  exists (WGhost gc' gp' (gdone g) (gctx g) (<[i := L]> (glogs g)) (gx g)). split_and!.
  - split_and!; [|done..]. intros j Hj. split_and!; [by apply Hrc|by apply Hrp|done|done| |simpl; by rewrite Hdc|done].
    simpl. by rewrite list_lookup_insert_ne.
  - destruct wi_held0 as [Hh1 Hh2]. split; simpl; try done.
    + split; [exact (held_step _ _ Hh1 Hrc)|exact (held_step _ _ Hh2 Hrp)].
    + rewrite Hclc. unfold phase_of in *. by rewrite Hhc.
    + by rewrite length_insert.
    + destruct wi_logs0 as (pushed & received & -> & Hpu & Hre). exists ((received ++ items (engine (queue w))) ++ ps), (received ++ rs).
      split_and!.
      * by rewrite <- !app_assoc, Hmoved.
      * rewrite Hpu. symmetry. by apply (concat_upd fst _ _ V.2).
      * rewrite Hre. symmetry. by apply (concat_upd snd _ _ V.2).
    + by rewrite Hclc.
    + by rewrite Hclc.
    + rewrite Hdc. eapply x_engine; [done|by apply κ_may|done|done].
  - apply HQb.
    + split_and!; [done..|]. split; [|done]. simpl. by eapply lookup_upd_eq.
    + intros Hb Hnil Hg. split; [by apply x_guard, wi_shut0, Hshut|]. simpl. by rewrite Hdc, Hnil.
Qed.

Lemma engine_tri {B} (f : E → list (E * B)) pc oc Wc pp op V (Q : B → wghost → Prop) :
  (∀ b, Stable (wrely i) (Q b)) →
  (∀ e, len (items e) <= cap → f e ≠ [] ∧ ∀ e' a, (e', a) ∈ f e → ∃ oc' op' ps rs,
     (items e' ≠ [] → oc' = true ∨ (items e ≠ [] ∧ (oc = true → oc' = true))) ∧
     (len (items e') < cap → op' = true ∨ (len (items e) < cap ∧ (op = true → op' = true))) ∧
     len (items e') <= cap ∧ items e ++ ps = rs ++ items e' ∧ (ps = [] ∨ pusher) ∧
     ∀ g, both (Thread pc oc') Wc (Thread pp op') (has_received rs (has_pushed ps V)) g → Q a g) →
  wtri (both (Thread pc oc) Wc (Thread pp op) V) (zoom the_engine (Act f Ret)) Q.
Proof.
  intros HQ Hf. eapply triple_pre; [apply (engine_shut_tri false f pc oc Wc pp op V Q HQ)|by intros g Hg].
  intros e Hfit. destruct (Hf e Hfit) as [Hne Hst]. split; [done|]. intros e' a Hin.
  destruct (Hst e' a Hin) as (oc' & op' & ps & rs & ? & ? & ? & ? & ? & HQ'). exists oc', op', ps, rs.
  split_and!; try done. intros g Hg _. by apply HQ'.
Qed.

(** The debts after an attempt to push [xs] that moved [n] items. *)
Definition attempted (xs : list T) (n : Z) (pc : place) (oc : bool) Wc (pp : place) (op : bool) V : wghost → Prop :=
  if 0 <? n then both (Thread pc true) Wc (Thread pp op) (has_pushed (take (Z.to_nat n) xs) V)
  else both (Thread pc oc) Wc (Thread pp false) V.

#[export] Instance attempted_stable xs n pc oc Wc pp op V :
  Stable (wrely i) (attempted xs n pc oc Wc pp op V).
Proof. unfold attempted. destruct (0 <? n); apply _. Qed.

(** What the push loops need of an attempt to push a prefix of [xs]. *)
Definition attempts (attempt : prog W Z) (xs : list T) : Prop :=
  ∀ pc oc Wc pp op V, wtri (both (Thread pc oc) Wc (Thread pp op) V) attempt
    (λ n g, 0 <= n <= len xs ∧ attempted xs n pc oc Wc pp op V g).

Lemma view_same V : has_received [] (has_pushed [] V) = V.
Proof. destruct V as [? [p r]]. unfold has_received, has_pushed. simpl. by rewrite !app_nil_r. Qed.
Lemma view_pushed xs V : has_received [] (has_pushed xs V) = has_pushed xs V.
Proof. destruct V as [? [p r]]. unfold has_received, has_pushed. simpl. by rewrite !app_nil_r. Qed.
Lemma view_received xs V : has_received xs (has_pushed [] V) = has_received xs V.
Proof. destruct V as [? [p r]]. unfold has_received, has_pushed. simpl. by rewrite !app_nil_r. Qed.

Lemma enqueueAttempt_tri x : pusher → attempts (enqueueAttempt A x) [x].
Proof.
  intros Hpush pc oc Wc pp op V. destruct (fresh_Enqueue x) as (f & Hf & Hspec).
  unfold enqueueAttempt, engineEnqueue. rewrite Hf.
  tri_mid (λ err, attempted [x] (match err with Some _ => 0 | None => 1 end) pc oc Wc pp op V).
  - apply engine_tri; [stab|]. intros e Hfit. destruct (Hspec e Hfit) as [Hne Hst]. split; [done|].
    intros e' err Hin. specialize (Hst e' err Hin). destruct err as [err|]; destruct Hst as [Hi Hl].
    + exists oc, false, [], []. rewrite Hi, view_same, app_nil_r. split_and!; [auto|lia|lia|done|by left|done].
    + exists true, op, [x], []. rewrite view_pushed. split_and!; [auto| |done|done|by right|done]. intros Hlt. right. split; [|done].
      rewrite Hi, len_app in Hlt. change (len [x]) with 1 in Hlt. lia.
  - intros err. apply triple_ret; [stab|]. intros g Hg. by destruct err.
Qed.

Lemma burstAttempt_tri xs : pusher → xs ≠ [] → attempts (burstAttempt A xs) xs.
Proof.
  intros Hpush Hxs pc oc Wc pp op V. destruct (fresh_EnqueueBurst xs) as (f & Hf & Hspec).
  unfold burstAttempt, engineEnqueueBurst. rewrite Hf.
  tri_mid (λ r g, 0 <= r.1 <= len xs ∧ attempted xs r.1 pc oc Wc pp op V g).
  - apply engine_tri; [stab|]. intros e Hfit. destruct (Hspec e Hfit) as [Hne Hst]. split; [done|].
    intros e' [n free] Hin. destruct (Hst e' n free Hin) as (Hn & Hi & Hl & Hz & _). simpl.
    unfold attempted. destruct (Z.ltb_spec 0 n).
    + exists true, op, (take (Z.to_nat n) xs), []. rewrite view_pushed. split_and!; [auto| |done|done|by right|done].
      intros Hlt. right. split; [|done].
      rewrite Hi, len_app in Hlt. pose proof (len_nonneg (take (Z.to_nat n) xs)). lia.
    + assert (n = 0) as -> by lia. rewrite take_0, app_nil_r in Hi.
      exists oc, false, [], []. rewrite Hi, view_same, app_nil_r. specialize (Hz eq_refl Hxs).
      split_and!; [auto|lia|lia|done|by left|done].
  - intros [n free]. apply triple_ret; [stab|done].
Qed.

(** The debts after a receive attempt that moved [n] items to [dst]. *)
Definition received_ (dst : list T) (n : Z) (pc : place) (oc : bool) Wc (pp : place) (op : bool) V : wghost → Prop :=
  if 0 <? n then both (Thread pc oc) Wc (Thread pp true) (has_received (take (Z.to_nat n) dst) V)
  else both (Thread pc false) Wc (Thread pp op) V.

#[export] Instance received_stable dst n pc oc Wc pp op V :
  Stable (wrely i) (received_ dst n pc oc Wc pp op V).
Proof. unfold received_. destruct (0 <? n); apply _. Qed.

Lemma dequeueAttempt_shut_tri b dst pc oc Wc pp op V :
  dst ≠ [] →
  wtri (λ g, shut b g ∧ both (Thread pc oc) Wc (Thread pp op) V g) (dequeueAttempt A dst)
    (λ r g, (0 <= r.1 <= len dst ∧ length r.2 = length dst) ∧ (b = true → r.1 = 0 → drained g) ∧
            received_ r.2 r.1 pc oc Wc pp op V g).
Proof.
  intros Hdst. pose proof (len_pos dst Hdst). unfold dequeueAttempt, engineDequeue, engineDequeueBurst.
  destruct (len dst =? 1).
  - destruct fresh_Dequeue as (f & Hf & Hspec). rewrite Hf.
    tri_mid (λ r g, (b = true → (match r.2 with Some _ => 0 | None => 1 end) = 0 → drained g) ∧
      received_ [r.1] (match r.2 with Some _ => 0 | None => 1 end) pc oc Wc pp op V g).
    + apply engine_shut_tri; [stab|]. intros e Hfit. destruct (Hspec e Hfit) as [Hne Hst]. split; [done|].
      intros e' [v err] Hin. specialize (Hst e' v err Hin). simpl. destruct err as [err|].
      * destruct Hst as [Hi Hnil]. exists false, op, [], []. rewrite Hi, Hnil, view_same.
        split_and!; [done| |by rewrite <- Hnil|done|by left|auto]. intros Hlt. right. by rewrite Hnil in *.
      * exists oc, true, [], [v]. rewrite view_received, app_nil_r. rewrite Hst in *. unfold len in *. simpl in *.
        split_and!; [by right|auto|lia|done|by left|]. intros g Hg _. split; [lia|done].
    + intros [v err]. apply triple_ret; [stab|]. intros g [Hd Hg]. destruct err; cbn [fst snd] in *; [by split_and!; [lia..| |]|].
      rewrite length_insert. split_and!; [lia..|done|done|]. destruct dst; [done|]. exact Hg.
  - destruct (fresh_DequeueBurst dst) as (f & Hf & Hspec). rewrite Hf.
    tri_mid (λ r g, (0 <= r.1.1 <= len dst ∧ length r.2 = length dst) ∧ (b = true → r.1.1 = 0 → drained g) ∧
      received_ r.2 r.1.1 pc oc Wc pp op V g).
    + apply engine_shut_tri; [stab|]. intros e Hfit. destruct (Hspec e Hfit) as [Hne Hst]. split; [done|].
      intros e' [[n avail] dst'] Hin. destruct (Hst e' n avail dst' Hin) as (Hn & Hle & Hi & -> & Hz & _). cbn [fst snd].
      assert (length (take (Z.to_nat n) (items e) ++ drop (Z.to_nat n) dst) = length dst) as Hlen.
      { rewrite length_app, length_take, length_drop. unfold len in *. lia. }
      assert (len (items e') <= len (items e)). { rewrite Hi. unfold len. rewrite length_drop. lia. }
      unfold received_. destruct (Z.ltb_spec 0 n).
      * exists oc, true, [], (take (Z.to_nat n) (items e)). rewrite view_received, app_nil_r, Hi, take_drop, <- Hi.
        rewrite take_app_le, take_take, Nat.min_id by (rewrite length_take; unfold len in *; lia).
        split_and!; [|auto|lia|done|by left|intros g Hg _; split_and!; [lia..|done|lia|done]]. intros Hne'. right. split; [|done].
        intros Hnil. rewrite Hi, Hnil, drop_nil in Hne'. done.
      * assert (n = 0) as -> by lia. specialize (Hz eq_refl Hdst). exists false, op, [], [].
        rewrite view_same, Hi, Hz, drop_nil in *. split_and!; [done| |lia|done|by left|auto]. by right.
    + intros [[n avail] dst']. apply triple_ret; [stab|done].
Qed.

Lemma dequeueAttempt_tri dst pc oc Wc pp op V :
  dst ≠ [] →
  wtri (both (Thread pc oc) Wc (Thread pp op) V) (dequeueAttempt A dst)
    (λ r g, (0 <= r.1 <= len dst ∧ length r.2 = length dst) ∧ received_ r.2 r.1 pc oc Wc pp op V g).
Proof.
  intros Hd. eapply triple_conseq; [apply (dequeueAttempt_shut_tri false); exact Hd|by intros g Hg|].
  intros r g (Hr & _ & Hg). done.
Qed.

(** A peek that finds nothing settles what is owed. *)
Lemma available_tri pc oc Wc tp V :
  wtri (both (Thread pc oc) Wc tp V) (engineDequeueBurst A [])
    (λ r g, 0 <= r.1.2 ∧ both (Thread pc (oc && (0 <? r.1.2))) Wc tp V g).
Proof.
  destruct (fresh_DequeueBurst []) as (f & Hf & Hspec). unfold engineDequeueBurst. rewrite Hf.
  destruct tp as [pp op]. apply engine_tri; [stab|]. intros e Hfit. destruct (Hspec e Hfit) as [Hne Hst]. split; [done|].
  intros e' [[n avail] dst'] Hin. destruct (Hst e' n avail dst' Hin) as (Hn & Hle & Hi & _ & _ & Hav). simpl.
  rewrite (Hav eq_refl). change (len []) with 0 in Hn. assert (n = 0) as -> by lia. rewrite drop_0 in Hi.
  exists (oc && (0 <? len (items e))), op, [], []. rewrite Hi, view_same, app_nil_r. split_and!; [|auto|done|done|by left|].
  - intros Hpos%len_pos. right. split; [intros Hnil; by rewrite Hnil in Hpos|].
    intros ->. simpl. apply Z.ltb_lt. lia.
  - intros g Hg. split; [apply len_nonneg|done].
Qed.

Lemma room_tri tc Wc pp op V :
  wtri (both tc Wc (Thread pp op) V) (engineEnqueueBurst A [])
    (λ r, both tc Wc (Thread pp (op && (0 <? r.2))) V).
Proof.
  destruct (fresh_EnqueueBurst []) as (f & Hf & Hspec). unfold engineEnqueueBurst. rewrite Hf.
  destruct tc as [pc oc]. apply engine_tri; [stab|]. intros e Hfit. destruct (Hspec e Hfit) as [Hne Hst]. split; [done|].
  intros e' [n free] Hin. destruct (Hst e' n free Hin) as (Hn & Hi & Hl & _ & Hfree). simpl.
  rewrite (Hfree eq_refl). rewrite take_nil, app_nil_r in Hi.
  exists oc, (op && (0 <? cap - len (items e))), [], []. rewrite Hi, view_same, app_nil_r. split_and!; [auto| |done|done|by left|done].
  intros Hlt. right. split; [done|]. intros ->. simpl. apply Z.ltb_lt. lia.
Qed.

Lemma peekItems_tri pc oc Wc tp V :
  wtri (both (Thread pc oc) Wc tp V) (peekItems A) (λ b, both (Thread pc (oc && b)) Wc tp V).
Proof.
  tri_seq by (apply available_tri). intros [[n avail] dst]. apply triple_fact. intros _.
  apply triple_ret; [stab|done].
Qed.

Lemma peekRoom_tri tc Wc pp op V :
  wtri (both tc Wc (Thread pp op) V) (peekRoom A) (λ b, both tc Wc (Thread pp (op && b)) V).
Proof. tri_seq by (apply room_tri). intros [n free]. apply triple_ret; [stab|done]. Qed.

(** ** Waking and leaving *)

Lemma world_tri {B} (get : W → B) (F : B → Prop) P :
  Stable (wrely i) P → (∀ w g, winv w g → F (get w)) →
  wtri P (load get) (λ b g, F b ∧ P g).
Proof. intros HP HF. apply triple_load; [stab..|]. intros w g Hg Hi. split; [by eapply HF|done]. Qed.

Lemma read_tri {B} (get : W → B) P : Stable (wrely i) P → wtri P (load get) (λ _, P).
Proof. intros HP. apply triple_load; [stab..|done]. Qed.

Lemma loadConsumers_tri pc oc Wc tp V :
  wtri (both (Thread pc oc) Wc tp V) (zoom consumers loadWord)
    (λ word, both (Thread pc (oc && needsWake word)) Wc tp V).
Proof. apply consumers_tri, loadWord_checks. Qed.

Lemma loadConsumers_shut_tri pc oc Wc tp V :
  wtri (both (Thread pc oc) Wc tp V) (zoom consumers loadWord)
    (λ word g, shut (closed word) g ∧ both (Thread pc (oc && needsWake word)) Wc tp V g).
Proof.
  eapply triple_post.
  - apply (zoom_consumers (mode i (Thread pc oc) Wc None) _ (λ word g, True ∧ (closed word = true → g_closed g = true) ∧
      mode i (Thread pc (oc && needsWake word)) Wc None g) (mode i tp V.1 None)); [by apply loadWord_shut|apply _|by intros g (_ & _ & ?)].
  - by intros word g ((_ & Hc & Hm) & Hp & Ho).
Qed.

Lemma keep_shut {B} P (p : prog W B) Q b :
  wtri P p Q → wtri (λ g, shut b g ∧ P g) p (λ a g, shut b g ∧ Q a g).
Proof.
  apply triple_keep; [apply shut_stable|]. intros g g' (Hr & _) Hs Hb.
  destruct (Hr (S i)) as ((_ & _ & _ & Hc) & _); [lia|]. auto.
Qed.

Lemma loadProducers_tri tc Wc pp op V :
  wtri (both tc Wc (Thread pp op) V) (zoom producers loadWord)
    (λ word, both tc Wc (Thread pp (op && needsWake word)) V).
Proof. apply producers_tri, loadWord_checks. Qed.

Lemma wakeOneConsumer_tri pc oc Wc tp V :
  wtri (both (Thread pc oc) Wc tp V) (zoom consumers wakeOne) (λ _, both (Thread pc false) Wc tp V).
Proof. apply consumers_tri, wakeOne_tri. Qed.

Lemma wakeOneProducer_tri tc Wc pp op V :
  wtri (both tc Wc (Thread pp op) V) (zoom producers wakeOne) (λ _, both tc Wc (Thread pp false) V).
Proof. apply producers_tri, wakeOne_tri. Qed.

Lemma wakeProducers_tri tc Wc pp op V :
  wtri (both tc Wc (Thread pp op) V) wakeProducers (λ _, both tc Wc (Thread pp false) V).
Proof.
  tri_seq by (eapply producers_tri; rapply wakeCheck_tri). intros b. apply triple_ret; [stab|done].
Qed.

Lemma consumerTarget_tri pc oc Wc tp V :
  wtri (both (Thread pc oc) Wc tp V) (consumerTarget A)
    (λ target g, 0 <= target <= countMask ∧ both (Thread pc (oc && (0 <? target))) Wc tp V g).
Proof.
  tri_seq by (apply available_tri). intros [[n avail] dst]. apply triple_fact. cbn [fst snd]. intros Hav.
  tri_seq by (apply (world_tri _ settings); [stab|intros w g Hi; apply Hi]). intros q. apply triple_fact.
  intros (Hcap & Hmax & _). change countMask with (2 ^ 31 - 1) in *. apply triple_ret; [stab|]. intros g Hg.
  destruct (Z.eqb_spec avail 0) as [->|Hne]; [done|].
  assert (0 <= (avail - 1) `quot` q_maxReceiveBatch q) as Hq by (apply Z.quot_pos; lia).
  assert (0 < avail ∧ 0 < Z.min (consumerWakeCap q) (1 + (avail - 1) `quot` q_maxReceiveBatch q) <= 2 ^ 31 - 1)
    as [Hpos Hmin] by lia.
  rewrite u32_small by (unfold is_u32; lia). rewrite (proj2 (Z.ltb_lt 0 avail)) in Hg by lia.
  rewrite (proj2 (Z.ltb_lt _ _)) by lia. split; [lia|done].
Qed.

Lemma pollers_nonneg word : 0 <= pollers word.
Proof. unfold pollers. pose proof (u32_range (Z.land word countMask)). unfold is_u32 in *. lia. Qed.

(** A word with a poller or nobody parked needs no wake. *)
Lemma settled word : parked word = 0 ∨ 1 <= pollers word → needsWake word = false.
Proof.
  unfold needsWake. intros [->|Hp]; [apply andb_false_r|]. by rewrite (proj2 (Z.eqb_neq _ _)) by lia.
Qed.

Lemma wakeGroup_c_tri target pc oc Wc tp V :
  1 <= target <= countMask →
  wtri (both (Thread pc oc) Wc tp V) (zoom consumers (wakeGroup target)) (λ _, both (Thread pc false) Wc tp V).
Proof. intros Ht. apply consumers_tri. by apply wakeGroup_tri. Qed.

Lemma wakeConsumersAfterPublication_tri pc oc Wc tp V :
  wtri (both (Thread pc oc) Wc tp V) (wakeConsumersAfterPublication A)
    (λ _, both (Thread pc false) Wc tp V).
Proof.
  tri_seq by (apply loadConsumers_tri). intros word.
  tri_seq by (apply (world_tri _ (λ c, 1 <= c <= countMask)); [stab|intros w g Hi; apply Hi]).
  intros wakeCap. apply triple_fact. intros Hcap. pose proof (pollers_nonneg word).
  destruct (Z.eqb_spec (parked word) 0) as [Hz|Hz].
  { rewrite settled, andb_false_r by auto. apply triple_ret; [stab|done]. }
  destruct (Z.eqb_spec wakeCap 1) as [->|Hne].
  { destruct (needsWake word).
    - eapply (triple_bind _ _ _ _ _ _ _ (λ _, both (Thread pc false) Wc tp V)).
      + tri_seq by (apply wakeOneConsumer_tri). intros b. apply triple_ret; [stab|done].
      + intros _. apply triple_ret; [stab|done].
    - rewrite andb_false_r. apply triple_ret; [stab|done]. }
  destruct (Z.leb_spec wakeCap (pollers word)).
  { rewrite settled, andb_false_r by (right; lia). apply triple_ret; [stab|done]. }
  tri_seq by (apply consumerTarget_tri). intros target. apply triple_fact. intros Ht. cbv zeta.
  change countMask with (2 ^ 31 - 1) in *.
  tri_mid (λ _, both (Thread pc false) Wc tp V).
  - destruct (Z.ltb_spec (pollers word) (Z.max 1 target)).
    + tri_seq by (apply wakeGroup_c_tri; change countMask with (2 ^ 31 - 1); lia). intros b. apply triple_ret; [stab|done].
    + rewrite settled, andb_false_r by (right; lia). apply triple_ret; [stab|done].
  - intros _. apply triple_ret; [stab|done].
Qed.

Definition published (err : option error) : Prop := err = None ∨ err = Some ErrClosedDuringPush.

Lemma consumerWakeCheck_tri pc oc Wc tp V :
  wtri (both (Thread pc oc) Wc tp V) (consumerWakeCheck A)
    (λ err g, published err ∧ both (Thread pc false) Wc tp V g).
Proof.
  tri_seq by (apply wakeConsumersAfterPublication_tri). intros b. apply triple_ret; [stab|].
  intros g Hg. split; [|done]. destruct b; [by right|by left].
Qed.

Lemma replenishConsumers_tri word pc o Wc tp V :
  wtri (both (Thread pc (o && needsWake word)) Wc tp V) (replenishConsumers A word)
    (λ _, both (Thread pc false) Wc tp V).
Proof.
  tri_seq by (apply (world_tri _ (λ c, 1 <= c <= countMask)); [stab|intros w g Hi; apply Hi]).
  intros wakeCap. apply triple_fact. intros Hcap. pose proof (pollers_nonneg word).
  destruct (Z.eqb_spec (parked word) 0) as [Hz|Hz]; [|destruct (Z.leb_spec wakeCap (pollers word))]; cbn [orb].
  { rewrite settled, andb_false_r by auto. apply triple_ret; [stab|done]. }
  { rewrite settled, andb_false_r by (right; lia). apply triple_ret; [stab|done]. }
  destruct (Z.eqb_spec wakeCap 1) as [->|Hne].
  - tri_seq by (apply peekItems_tri). intros [|]; [apply wakeOneConsumer_tri|].
    rewrite andb_false_r. apply triple_ret; [stab|done].
  - tri_seq by (apply consumerTarget_tri). intros target. apply triple_fact. intros Ht.
    destruct (Z.ltb_spec (pollers word) target); [apply wakeGroup_c_tri; lia|].
    apply triple_ret; [stab|]. intros g Hg. destruct (Z.ltb_spec 0 target).
    + rewrite settled, andb_false_r in Hg by (right; lia). exact Hg.
    + by rewrite andb_false_r in Hg.
Qed.

Lemma leaveConsumerPolling_tri o Wc tp V :
  wtri (both (Thread Polling o) Wc tp V) (leaveConsumerPolling A) (λ _, both (Thread Out false) Wc tp V).
Proof.
  eapply (triple_bind _ _ _ _ _ _ _ (λ _, both (Thread Out false) Wc tp V)).
  - tri_seq by (eapply consumers_tri; rapply dropPoller_tri). intros left. apply (replenishConsumers_tri left Out true).
  - intros b. apply triple_ret; [stab|done].
Qed.

Lemma leaveConsumerList_tri x moved o Wc tp V :
  (moved = false → o = false) →
  wtri (both (Thread (Parked x) o) Wc tp V) (leaveConsumerList A x moved)
    (λ _, both (Thread Out false) Wc tp V).
Proof.
  intros Ho. eapply (triple_bind _ _ _ _ _ _ _ (λ _, both (Thread Out false) Wc tp V)).
  - tri_seq by (eapply consumers_tri; rapply leaveListed_tri). intros [|]; cbv iota.
    + destruct moved.
      * tri_seq by (apply loadConsumers_tri). intros word. apply replenishConsumers_tri.
      * rewrite Ho by done. apply triple_ret; [stab|done].
    + tri_seq by (eapply consumers_tri; rapply dropPoller_tri). intros left. apply (replenishConsumers_tri left Out true).
  - intros b. apply triple_ret; [stab|done].
Qed.

(** The cleanup of the producers' side. *)
Lemma roomCleanup_tri word tc Wc pp o V :
  wtri (both tc Wc (Thread pp (o && needsWake word)) V)
    (if needsWake word then
       found ← peekRoom A; if found : bool then zoom producers wakeOne else mret false
     else mret false)
    (λ _, both tc Wc (Thread pp false) V).
Proof.
  destruct (needsWake word).
  - tri_seq by (apply peekRoom_tri). intros [|]; [apply wakeOneProducer_tri|].
    rewrite andb_false_r. apply triple_ret; [stab|done].
  - rewrite andb_false_r. apply triple_ret; [stab|done].
Qed.

Lemma leavePolling_tri tc Wc o V :
  wtri (both tc Wc (Thread Polling o) V) (leavePolling producers (peekRoom A))
    (λ _, both tc Wc (Thread Out false) V).
Proof.
  tri_seq by (eapply producers_tri; rapply dropPoller_tri). intros left. apply (roomCleanup_tri left tc Wc Out true).
Qed.

Lemma leaveList_tri x moved tc Wc o V :
  (moved = false → o = false) →
  wtri (both tc Wc (Thread (Parked x) o) V) (leaveList producers x moved (peekRoom A))
    (λ _, both tc Wc (Thread Out false) V).
Proof.
  intros Ho. tri_seq by (eapply producers_tri; rapply leaveListed_tri). intros [|]; cbv iota.
  - destruct moved.
    + tri_seq by (apply loadProducers_tri). intros word. apply roomCleanup_tri.
    + rewrite Ho by done. apply triple_ret; [stab|done].
  - tri_seq by (eapply producers_tri; rapply dropPoller_tri). intros left. apply (roomCleanup_tri left tc Wc Out true).
Qed.

(** ** Waiting consumers *)

(** Outside both sides, owing nothing. *)
Definition rest (Wc : list nat) (V : view) : wghost → Prop := both (Thread Out false) Wc (Thread Out false) V.
(** Registered as a waiting consumer. *)
Definition polling (Wc : list nat) (V : view) (g : wghost) : Prop :=
  ∃ o, both (Thread Polling o) Wc (Thread Out false) V g.

Lemma polling_intro o Wc V g : both (Thread Polling o) Wc (Thread Out false) V g → polling Wc V g.
Proof. intros Hg. by exists o. Qed.

#[export] Instance rest_stable Wc V : Stable (wrely i) (rest Wc V).
Proof. apply both_stable. Qed.
#[export] Instance polling_stable Wc V : Stable (wrely i) (polling Wc V).
Proof. unfold polling. apply _. Qed.

(** What a receive returns for [dst], and the items it adds to the caller's log. *)
Definition recv_ok (dst : list T) (r : Z * option error * list T) : Prop :=
  0 <= r.1.1 <= len dst ∧ length r.2 = length dst ∧ (r.1.2 = None ↔ 0 < r.1.1).
Definition got (r : Z * option error * list T) (V : view) : view :=
  has_received (take (Z.to_nat r.1.1) r.2) V.
(** A receive that reports the queue as closed found it drained; else the caller's context is
    cancelled. *)
Definition given_up (g : wghost) : Prop := ∃ ctx, uses true ctx ∧ cancelled ctx g.
Definition explained (r : Z * option error * list T) (g : wghost) : Prop :=
  ∀ e, r.1.2 = Some e → if errors_Is e ErrClosed then drained g else given_up g.
Definition delivered (dst : list T) (Wc : list nat) (V : view) (r : Z * option error * list T) (g : wghost) : Prop :=
  recv_ok dst r ∧ explained r g ∧ rest Wc (got r V) g.

Definition finish_or (dst : list T) (Wc : list nat) (V : view) (P : wghost → Prop)
    (r : option (Z * option error * list T)) (g : wghost) : Prop :=
  match r with Some x => delivered dst Wc V x g | None => P g end.

#[export] Instance delivered_stable dst Wc V r : Stable (wrely i) (delivered dst Wc V r).
Proof. unfold delivered, explained, given_up. apply _. Qed.
#[export] Instance finish_stable dst Wc V P r :
  Stable (wrely i) P → Stable (wrely i) (finish_or dst Wc V P r).
Proof. unfold finish_or. destruct r; apply _. Qed.

Lemma same_nonempty (dst dst' : list T) : length dst' = length dst → dst ≠ [] → dst' ≠ [].
Proof. intros Hl Hd ->. by destruct dst. Qed.

Lemma delivered_same dst dst' Wc V r g :
  length dst' = length dst → delivered dst' Wc V r g → delivered dst Wc V r g.
Proof. unfold delivered, recv_ok, len. by intros ->. Qed.

Lemma received_nil V : has_received [] V = V.
Proof. destruct V as [? [p r]]. unfold has_received. simpl. by rewrite app_nil_r. Qed.

Lemma delivered_none dst dst' err Wc V g :
  length dst' = length dst → (if errors_Is err ErrClosed then drained g else given_up g) → rest Wc V g →
  delivered dst Wc V (0, Some err, dst') g.
Proof.
  intros Hl Hdr Hg. pose proof (len_nonneg dst). split_and!; [split_and!; [cbn [fst]; lia..|done|]|by intros e [= <-]|].
  - simpl. split; [done|lia].
  - unfold got. cbn [fst snd]. change (Z.to_nat 0) with 0%nat. by rewrite take_0, received_nil.
Qed.

Lemma delivered_some dst dst' n Wc V g :
  0 < n <= len dst → length dst' = length dst → rest Wc (has_received (take (Z.to_nat n) dst') V) g →
  delivered dst Wc V (n, None, dst') g.
Proof.
  intros Hn Hl Hg. split_and!; [|by intros e [=]|done]. split_and!; [cbn [fst]; lia..|done|]. simpl. split; [lia|done].
Qed.

(** A receive that moved items pays the producers. *)
Lemma received_tri (dst dst' : list T) n pc oc Wc V (k : prog W (Z * option error * list T)) R Q :
  Stable (wrely i) R → 0 <= n →
  (0 < n → wtri (both (Thread pc oc) Wc (Thread Out false) (has_received (take (Z.to_nat n) dst') V)) (mret (n, None, dst')) Q) →
  (n = 0 → wtri (λ g, R g ∧ both (Thread pc false) Wc (Thread Out false) V g) k Q) →
  wtri (λ g, R g ∧ received_ dst' n pc oc Wc Out false V g)
    (if 0 <? n then _ ← wakeProducers; mret (n, None, dst') else k) Q.
Proof.
  intros HR Hn H1 H2. unfold received_. destruct (Z.ltb_spec 0 n).
  - eapply triple_pre; [|by intros g [_ Hg]; exact Hg]. tri_seq by (apply wakeProducers_tri). intros _. auto.
  - apply H2. lia.
Qed.

Lemma drainCheck_tri dst Wc V :
  dst ≠ [] → wtri (λ g, shut true g ∧ rest Wc V g) (drainCheck A dst) (delivered dst Wc V).
Proof.
  intros Hd. tri_seq by (by apply dequeueAttempt_shut_tri). intros [n dst']. apply triple_fact. cbn [fst snd].
  intros [Hn Hl]. apply (received_tri dst); [stab|lia|..]; intros Hn'; (apply triple_ret; [stab|]).
  - intros g Hg. by apply delivered_some; [lia|..].
  - intros g [Hdr Hg]. apply delivered_none; [done|by apply Hdr|done].
Qed.

Lemma leavePollingAndDrain_tri dst Wc V :
  dst ≠ [] → wtri (λ g, shut true g ∧ polling Wc V g) (leavePollingAndDrain A dst) (delivered dst Wc V).
Proof.
  intros Hd. tri_mid (λ _ g, shut true g ∧ rest Wc V g); [|intros _; by apply drainCheck_tri].
  apply keep_shut, triple_exist. intros o. apply leaveConsumerPolling_tri.
Qed.

(** Contexts: a cancelled context has an error, and keeps it. *)
Lemma isDone_tri ctx P :
  Stable (wrely i) P → wtri P (isDone ctx) (λ b g, if b then cancelled ctx g ∧ P g else P g).
Proof.
  intros HP. apply triple_load; [stab..|]. intros w g Hg Hi. simpl.
  case_bool_decide as Hd; [|exact Hg]. split; [|exact Hg]. destruct Hd as [err Herr]. exists err.
  by rewrite <- (wi_contexts _ _ Hi).
Qed.

Lemma ctxErr_tri ctx P :
  Stable (wrely i) P →
  wtri (λ g, cancelled ctx g ∧ P g) (ctxErr ctx)
    (λ r g, (∃ err, r = Some err ∧ errors_Is err ErrClosed = false) ∧ P g).
Proof.
  intros HP. apply triple_load; [stab..|]. intros w g [[err Herr] Hg] []. split; [|done]. exists err.
  rewrite wi_contexts0. split; [done|]. by apply (wi_errors0 ctx).
Qed.

Lemma sampled_tri ctx (b : bool) P :
  Stable (wrely i) P →
  wtri P (if b then isDone ctx else mret false) (λ b g, if b then cancelled ctx g ∧ P g else P g).
Proof. intros HP. destruct b; [by apply isDone_tri|]. by apply triple_ret. Qed.

Lemma keep_cancelled {B} ctx P (p : prog W B) Q :
  wtri P p Q → wtri (λ g, cancelled ctx g ∧ P g) p (λ a g, cancelled ctx g ∧ Q a g).
Proof.
  apply triple_keep; [apply cancelled_stable|]. intros g g' (_ & _ & Hs & _) [err Herr].
  exists err. by eapply lookup_weaken.
Qed.

Lemma keep_explained {B} r P (p : prog W B) Q :
  wtri P p Q → wtri (λ g, explained r g ∧ P g) p (λ a g, explained r g ∧ Q a g).
Proof.
  assert (Stable (wrely i) (explained r)) as Hst by (unfold explained, given_up; apply _).
  apply triple_keep; [exact Hst|]. intros g g' (Hr & _ & Hs & Hx) He e Hre. specialize (He e Hre).
  destruct (errors_Is e ErrClosed).
  - intros Hg. destruct (He Hg) as [Hf Hz]. destruct (Hr (S i)) as (_ & _ & _ & _ & _ & Hk & _); [lia|]. rewrite Hx. auto.
  - destruct He as (ctx & Hu & err & Herr). exists ctx. split; [done|]. exists err. by eapply lookup_weaken.
Qed.

(** Giving up with the error of the context. *)
Lemma give_up_tri {B} ctx dst dst' Wc V (f : Z * option error * list T → B) (Q : B → wghost → Prop) :
  uses true ctx → length dst' = length dst → (∀ r g, delivered dst Wc V r g → Q (f r) g) → (∀ b, Stable (wrely i) (Q b)) →
  wtri (λ g, cancelled ctx g ∧ rest Wc V g) (err ← ctxErr ctx; mret (f (0, err, dst'))) Q.
Proof.
  intros Huse Hl HQ Hst. eapply triple_pre; [|by intros g Hg; exact (conj (proj1 Hg) Hg)].
  tri_seq by (apply keep_cancelled, ctxErr_tri; stab). intros err. apply triple_pre with
    (λ g, (∃ e, err = Some e ∧ errors_Is e ErrClosed = false) ∧ cancelled ctx g ∧ rest Wc V g); [|tauto].
  apply triple_fact. intros (e & -> & He). apply triple_ret; [stab|]. intros g [Hc Hg].
  apply HQ, delivered_none; [done| |done]. rewrite He. by exists ctx.
Qed.

Lemma spinForItems_tri ctx dst Wc V :
  dst ≠ [] → uses true ctx → wtri (rest Wc V) (spinForItems A ctx dst) (finish_or dst Wc V (rest Wc V)).
Proof.
  intros Hd Huse. tri_seq by (apply read_tri; stab). intros spins.
  apply (triple_loop _ _ _ _ (λ _ : Z, rest Wc V)); [stab..|]. intros poll.
  destruct (spins <=? poll); [apply triple_ret; [stab|done]|].
  tri_seq by (apply loadConsumers_shut_tri). intros word. destruct (closed word).
  { tri_seq by (by apply drainCheck_tri). intros r. apply triple_ret; [stab|done]. }
  eapply triple_pre; [|by intros g [_ Hg]; exact Hg].
  tri_seq by (apply sampled_tri; stab). intros [|]; cbv iota.
  { by apply (give_up_tri ctx dst dst Wc V (λ r, inr (Some r))); [..|intros [?|[?|]]; stab]. }
  tri_seq by (by apply dequeueAttempt_tri). intros [n dst']. apply triple_fact. cbn [fst snd]. intros [Hn Hl].
  unfold received_. destruct (Z.ltb_spec 0 n).
  - tri_seq by (apply wakeProducers_tri). intros _. apply triple_ret; [stab|]. intros g Hg. by apply delivered_some; [lia|..].
  - apply triple_ret; [stab|done].
Qed.

Lemma pollRegistered_tri ctx dst Wc V :
  dst ≠ [] → uses true ctx → wtri (polling Wc V) (pollRegistered A ctx dst) (finish_or dst Wc V (polling Wc V)).
Proof.
  intros Hd Huse. apply triple_exist. intros o.
  tri_seq by (apply loadConsumers_shut_tri). intros word. destruct (closed word).
  { eapply triple_pre; [|intros g [Hs Hg]; exact (conj Hs (polling_intro _ _ _ _ Hg))].
    tri_seq by (by apply leavePollingAndDrain_tri). intros r. apply triple_ret; [stab|done]. }
  eapply triple_pre; [|by intros g [_ Hg]; exact Hg].
  tri_seq by (by apply dequeueAttempt_tri). intros [n dst']. apply triple_fact. cbn [fst snd]. intros [Hn Hl].
  unfold received_. destruct (Z.ltb_spec 0 n).
  - tri_seq by (apply wakeProducers_tri). intros _. tri_seq by (apply leaveConsumerPolling_tri). intros _.
    apply triple_ret; [stab|]. intros g Hg. by apply delivered_some; [lia|..].
  - tri_seq by (apply loadConsumers_shut_tri). intros word'. destruct (closed word').
    { eapply triple_pre; [|intros g [Hs Hg]; exact (conj Hs (polling_intro _ _ _ _ Hg))].
      tri_seq by (apply leavePollingAndDrain_tri; by eapply same_nonempty).
      intros r. apply triple_ret; [stab|]. intros g. by apply delivered_same. }
    eapply triple_pre; [|by intros g [_ Hg]; exact Hg].
    tri_seq by (apply isDone_tri; stab). intros [|]; cbv iota.
    + tri_seq by (apply keep_cancelled, leaveConsumerPolling_tri). intros _.
      by apply (give_up_tri ctx dst dst' Wc V Some); [..|intros [?|]; stab].
    + apply triple_ret; [stab|]. intros g. apply polling_intro.
Qed.

(** ** Parked callers

    The [select] of a parked caller is ready when its token, its context or [done] is; otherwise
    the caller is blocked, owing nothing. *)

Lemma mode_less t V m g : mode i t V m g → mode i t [] m g.
Proof. intros (? & _ & ?). split_and!; [done| |done]. by intros x ?%elem_of_nil. Qed.

(** A caller's waiter and the case of the [select] that takes its token. *)
Lemma sits_waiter sd g t V m x :
  sinv N sd g → mode i t V m g → sits t x → ∃ e, waiters sd !! x = Some e.
Proof.
  intros (Hs & _) (Hti & _) Hx. by destruct (sc_owned _ _ _ Hs x i (sc_owner _ _ _ Hs i t x Hti Hx)) as [_ [e ?]]; exists e.
Qed.

Lemma token_case (side : focus W waitSide) w sd x e :
  look side w = Some sd → waiters sd !! x = Some e →
  match look side w ≫= takeToken x with
  | Some (sd, true) => [(put_back side sd w, ParkToken)]
  | _ => []
  end = if w_token e then
    [(put_back side (set_waiters (<[x := with_token false e]> (waiters sd)) sd) w, ParkToken)] else [].
Proof.
  intros Hl He. rewrite Hl. simpl. unfold takeToken. rewrite (read_Some x _ _ _ He), (write_Some x _ _ _ He).
  simpl. by destruct (w_token e).
Qed.

Lemma other_cases (b1 b2 : bool) (w w' : W) c :
  (w', c) ∈ (if b1 then [(w, ParkContext)] else []) ++ (if b2 then [(w, ParkDone)] else []) →
  w' = w ∧ match c with ParkToken => False | ParkContext => b1 = true | ParkDone => b2 = true end.
Proof.
  intros [Hin|Hin]%elem_of_app; case_match; apply list_elem_of_singleton in Hin || apply elem_of_nil in Hin;
    by simplify_eq.
Qed.

Definition selected (ctx : nat) (c : parkCase) (P Q : wghost → Prop) : wghost → Prop :=
  match c with ParkToken => P | ParkContext => λ g, cancelled ctx g ∧ Q g | ParkDone => λ g, shut true g ∧ Q g end.

(** No case is ready, whichever side the caller is parked on. *)
Lemma no_case (w : W) ctx e :
  (if w_token e then [(w, ParkToken)] else []) ++
  (if bool_decide (is_Some (contexts w !! ctx)) then [(w, ParkContext)] else []) ++
  (if q_done (queue w) then [(w, ParkDone)] else []) = [] →
  w_token e = false ∧ contexts w !! ctx = None ∧ q_done (queue w) = false.
Proof.
  destruct (w_token e); [done|]. case_bool_decide as Hd; [done|]. apply eq_None_not_Some in Hd.
  by destruct (q_done (queue w)).
Qed.

Lemma other_selected ctx (w w' : W) c g (P Q : wghost → Prop) :
  winv w g → Q g →
  (w', c) ∈ (if bool_decide (is_Some (contexts w !! ctx)) then [(w, ParkContext)] else []) ++
            (if q_done (queue w) then [(w, ParkDone)] else []) →
  w' = w ∧ selected ctx c P Q g.
Proof.
  intros Hi HQ [-> Hc]%other_cases. split; [done|]. destruct c; [done| |].
  2: { split; [|done]. intros _. apply (wi_announced _ _ Hi). by rewrite <- (wi_done _ _ Hi). }
  split; [|done]. apply bool_decide_eq_true in Hc as [err Herr]. exists err. by rewrite <- (wi_contexts _ _ Hi).
Qed.

Lemma selectConsumer_tri ctx x Wc V :
  uses true ctx →
  wtri (both (Thread (Parked x) false) Wc (Thread Out false) V) (selectPark consumers ctx x)
    (λ c, selected ctx c (both (Thread Polling false) Wc (Thread Out false) V)
                         (both (Thread (Parked x) false) Wc (Thread Out false) V)).
Proof.
  intros Huse. apply triple_await; [stab|intros []; stab|]. intros w g Hb Hi. pose proof Hb as (Hc & Hp & Hl). pose proof Hi as [].
  destruct (sits_waiter _ _ _ _ _ x wi_consumers0 Hc) as [e He]; [by left|].
  unfold ready_cases. rewrite (token_case consumers w _ x e eq_refl He). split.
  - intros Hnil. assert (w_token e = false ∧ contexts w !! ctx = None ∧ q_done (queue w) = false) as (Ht & Hx & Hd).
    { apply no_case. by destruct (w_token e). }
    split_and!; [apply Hc|apply Hp|by apply κ_may, Hl|]. right; right.
    split; [done|]. left. split; [exists ctx; split; [by apply Huse, Hl|done]|]. exists x, e.
    split_and!; [by eapply mode_less|by eapply mode_less|done..].
  - intros w' c [Hin|Hin]%elem_of_app.
    + destruct (w_token e) eqn:Ht; [|by apply elem_of_nil in Hin]. apply list_elem_of_singleton in Hin as [= -> ->].
      destruct (step_take (true, rule) N i _ _ _ _ Wc None x e wi_consumers0 Hc (or_introl eq_refl) He Ht) as (h & Hg & Hh & Hm).
      destruct (consumers_step w g h _ Hi (proj2 Hl) Hg Hh) as [? ?]. eexists. by split_and!.
    + destruct (other_selected ctx w w' c g (both (Thread Polling false) Wc (Thread Out false) V) _ Hi Hb Hin) as [-> Hsel].
      exists g. by split_and!.
Qed.

Lemma selectProducer_tri ctx x Wc V :
  uses false ctx →
  wtri (both (Thread Out false) Wc (Thread (Parked x) false) V) (selectPark producers ctx x)
    (λ c, selected ctx c (both (Thread Out false) Wc (Thread Polling false) V)
                         (both (Thread Out false) Wc (Thread (Parked x) false) V)).
Proof.
  intros Huse. apply triple_await; [stab|intros []; stab|]. intros w g Hb Hi. pose proof Hb as (Hc & Hp & Hl). pose proof Hi as [].
  destruct (sits_waiter _ _ _ _ _ x wi_producers0 Hp) as [e He]; [by left|].
  unfold ready_cases. rewrite (token_case producers w _ x e eq_refl He). split.
  - intros Hnil. assert (w_token e = false ∧ contexts w !! ctx = None ∧ q_done (queue w) = false) as (Ht & Hx & Hd).
    { apply no_case. by destruct (w_token e). }
    split_and!; [apply Hc|apply Hp|by apply κ_may, Hl|]. right; right.
    split; [done|]. right. split; [exists ctx; split; [by apply Huse, Hl|done]|]. exists x, e.
    split_and!; [by eapply mode_less|by eapply mode_less|done..].
  - intros w' c [Hin|Hin]%elem_of_app.
    + destruct (w_token e) eqn:Ht; [|by apply elem_of_nil in Hin]. apply list_elem_of_singleton in Hin as [= -> ->].
      destruct (step_take (false, True) N i _ _ _ _ V.1 None x e wi_producers0 Hp (or_introl eq_refl) He Ht) as (h & Hg & Hh & Hm).
      destruct (producers_step w g h _ Hi Hg Hh) as [? ?]. eexists. by split_and!.
    + destruct (other_selected ctx w w' c g (both (Thread Out false) Wc (Thread Polling false) V) _ Hi Hb Hin) as [-> Hsel].
      exists g. by split_and!.
Qed.

(** *** Consumers *)

Lemma yieldForItems_tri ctx dst woken Wc V :
  dst ≠ [] → uses true ctx → wtri (polling Wc V) (yieldForItems A ctx dst woken) (finish_or dst Wc V (polling Wc V)).
Proof.
  intros Hd Huse. tri_seq by (apply read_tri; stab). intros yields. cbv zeta.
  apply (triple_loop _ _ _ _ (λ _ : Z, polling Wc V)); [stab..|]. intros poll.
  destruct (_ <=? poll); [apply triple_ret; [stab|done]|].
  tri_seq by (by apply pollRegistered_tri). intros r. apply triple_ret; [stab|]. by destruct r.
Qed.

Lemma pollWithoutParking_tri ctx dst Wc V :
  dst ≠ [] → uses true ctx → wtri (polling Wc V) (pollWithoutParking A ctx dst) (delivered dst Wc V).
Proof. intros Hd Huse. apply triple_forever; [stab..|]. by apply pollRegistered_tri. Qed.

Lemma enlistConsumer_tri x o Wc tp V :
  x ∈ Wc → wtri (both (Thread Polling o) Wc tp V) (zoom consumers (enlist x atNewest))
    (λ b : bool, if b then λ g, shut true g ∧ ∃ o', both (Thread Polling o') Wc tp V g
                 else both (Thread (Parked x) true) Wc tp V).
Proof.
  intros Hx. eapply triple_post.
  - apply (zoom_consumers (mode i (Thread Polling o) Wc None) _ (λ b : bool,
      if b then λ g, g_closed g = true ∧ ∃ o', mode i (Thread Polling o') Wc None g else mode i (Thread (Parked x) true) Wc None)
      (mode i tp V.1 None)); [by apply enlist_tri|apply _|by intros g (_ & _ & ?)].
  - intros [] g; [|done]. intros [[Hc [o' ?]] ?]. split; [by intros _|]. by exists o'.
Qed.

Lemma parkAs_tri ctx dst x Wc V :
  dst ≠ [] → uses true ctx → x ∈ Wc →
  wtri (polling Wc V) (parkAs A ctx dst x) (finish_or dst Wc V (polling Wc V)).
Proof.
  intros Hd Huse Hx. apply triple_exist. intros o. tri_seq by (by apply enlistConsumer_tri). intros [|]; cbv iota beta.
  { tri_seq by (by apply leavePollingAndDrain_tri). intros r. apply triple_ret; [stab|done]. }
  tri_seq by (by apply dequeueAttempt_tri). intros [n dst']. apply triple_fact. cbn [fst snd]. intros [Hn Hl].
  assert (dst' ≠ []) as Hd' by (by eapply same_nonempty).
  unfold received_. destruct (Z.ltb_spec 0 n).
  { tri_seq by (apply wakeProducers_tri). intros _. tri_seq by (by apply leaveConsumerList_tri). intros _.
    apply triple_ret; [stab|]. intros g Hg. by apply delivered_some; [lia|..]. }
  tri_seq by (by apply selectConsumer_tri). intros [| |]; unfold selected.
  - apply triple_ret; [stab|]. intros g. apply polling_intro.
  - tri_seq by (by apply keep_cancelled, leaveConsumerList_tri). intros _.
    tri_seq by (apply keep_cancelled, loadConsumers_shut_tri). intros word. destruct (closed word).
    + eapply triple_pre; [|by intros g (_ & Hs & Hg); exact (conj Hs Hg)].
      tri_seq by (by apply drainCheck_tri). intros r. apply triple_ret; [stab|]. intros g. by apply delivered_same.
    + eapply triple_pre; [|by intros g (Hc & _ & Hg); exact (conj Hc Hg)].
      by apply (give_up_tri ctx dst dst' Wc V Some); [..|intros [?|]; stab].
  - tri_seq by (by apply keep_shut, leaveConsumerList_tri). intros _. tri_seq by (by apply drainCheck_tri). intros r.
    apply triple_ret; [stab|]. intros g. by apply delivered_same.
Qed.

(** [Consume] owns its waiter; the other calls own none between parks. *)
Definition own_ok (own : option nat) (Wc : list nat) : Prop :=
  match own with Some x => x ∈ Wc | None => Wc = [] end.

Lemma putConsumer_tri {B} x (Q : B → wghost → Prop) (r : B) t tp V :
  unseated t → (∀ g, both t [] tp V g → Q r g) → (∀ r, Stable (wrely i) (Q r)) →
  wtri (both t [x] tp V) (_ ← zoom consumers (putWaiter x); mret r) Q.
Proof.
  intros Hu HQ Hst. tri_seq by (eapply consumers_tri; rapply putWaiter_tri; [done|apply not_elem_of_nil]). intros _.
  apply triple_ret; [stab|done].
Qed.

Lemma parkForItems_tri ctx dst own Wc V :
  dst ≠ [] → uses true ctx → own_ok own Wc →
  wtri (polling Wc V) (parkForItems A ctx dst own) (finish_or dst Wc V (polling Wc V)).
Proof.
  intros Hd Huse. destruct own as [x|]; [by apply parkAs_tri|]. intros ->. apply triple_exist. intros o.
  tri_seq by (eapply consumers_tri; rapply getWaiter_tri; by right). intros x.
  eapply triple_pre; [|intros g; apply polling_intro].
  tri_seq by (apply (parkAs_tri ctx dst x [x]); [done|done|by left]). intros [r|]; unfold finish_or.
  - apply triple_fact. intros Hr.
    tri_seq by (apply keep_explained; eapply consumers_tri; rapply putWaiter_tri; [by left|apply not_elem_of_nil]).
    intros _. apply triple_ret; [stab|done].
  - apply triple_exist. intros o'. apply putConsumer_tri; [by right| |intros [?|]; stab].
    intros g. apply polling_intro.
Qed.

Lemma registerConsumer_tri Wc tp V :
  wtri (both (Thread Out false) Wc tp V) (zoom consumers register)
    (λ b : bool, if b then λ g, shut true g ∧ both (Thread Out false) Wc tp V g
                 else both (Thread Polling false) Wc tp V).
Proof.
  eapply triple_post.
  - apply (zoom_consumers (mode i (Thread Out false) Wc None) _ (λ (b : bool) g, (b = true → g_closed g = true) ∧
      mode i (Thread (if b then Out else Polling) false) Wc None g) (mode i tp V.1 None));
      [by apply register_tri|apply _|by intros g (_ & _ & ?)].
  - intros [] g [[Hc Hm] Hg]; [|done]. split; [intros _; auto|done].
Qed.

Lemma registerProducer_tri tc Wc V :
  wtri (both tc Wc (Thread Out false) V) (zoom producers register)
    (λ b : bool, both tc Wc (Thread (if b then Out else Polling) false) V).
Proof.
  eapply triple_post.
  - apply (zoom_producers (mode i (Thread Out false) V.1 None) _ (λ (b : bool) g, (b = true → g_closed g = true) ∧
      mode i (Thread (if b then Out else Polling) false) V.1 None g) (mode i tc Wc None));
      [by apply register_tri|apply _|by intros g (_ & _ & ?)].
  - by intros b g (? & [_ ?] & ?).
Qed.

Lemma receiveWait_tri ctx dst own clear Wc V :
  dst ≠ [] → uses true ctx → own_ok own Wc →
  wtri (rest Wc V) (receiveWait A zero ctx dst own clear) (delivered dst Wc V).
Proof.
  intros Hd Huse Hown. tri_seq by (by apply spinForItems_tri). intros [r|]; unfold finish_or.
  { apply triple_ret; [stab|done]. }
  cbv zeta. set (dst' := if clear then replicate (length dst) zero else dst).
  assert (length dst' = length dst) as Hl by (unfold dst'; destruct clear; [apply length_replicate|done]).
  assert (dst' ≠ []) as Hd' by (by eapply same_nonempty).
  eapply (triple_post _ _ _ _ _ _ (delivered dst' Wc V)); [|intros r g; by apply delivered_same].
  tri_seq by (apply registerConsumer_tri). intros [|]; cbv iota; [by apply drainCheck_tri|].
  eapply triple_pre; [|intros g; apply polling_intro].
  apply (triple_loop _ _ _ _ (λ _ : bool, polling Wc V)); [stab..|]. intros woken.
  tri_seq by (by apply yieldForItems_tri). intros [r|]; unfold finish_or; [apply triple_ret; [stab|done]|].
  tri_seq by (apply read_tri; stab). intros [|].
  - tri_seq by (by apply pollWithoutParking_tri). intros r. apply triple_ret; [stab|done].
  - tri_seq by (by apply parkForItems_tri). intros [r|]; (apply triple_ret; [stab|done]).
Qed.

Lemma receive_tri ctx dst own clear Wc V :
  dst ≠ [] → uses true ctx → own_ok own Wc →
  wtri (rest Wc V) (receive A zero ctx dst own clear) (delivered dst Wc V).
Proof.
  intros Hd Huse Hown. tri_seq by (by apply dequeueAttempt_tri). intros [n dst']. apply triple_fact. cbn [fst snd].
  intros [Hn Hl]. eapply triple_pre; [apply (received_tri dst dst' n Out false Wc V _ (λ _, True)); [stab|lia|..]; intros Hn'|by intros g Hg].
  - apply triple_ret; [stab|]. intros g Hg. by apply delivered_some; [lia|..].
  - eapply triple_conseq; [apply receiveWait_tri; [by eapply same_nonempty|done|done]|by intros g [_ Hg]|].
    intros r g. by apply delivered_same.
Qed.

(** *** Producers *)

(** Registered as a waiting producer. *)
Definition seeking (Wc : list nat) (V : view) (g : wghost) : Prop :=
  ∃ o, both (Thread Out false) Wc (Thread Polling o) V g.

Lemma seeking_intro o Wc V g : both (Thread Out false) Wc (Thread Polling o) V g → seeking Wc V g.
Proof. intros Hg. by exists o. Qed.

#[export] Instance seeking_stable Wc V : Stable (wrely i) (seeking Wc V).
Proof. unfold seeking. apply _. Qed.

(** An error that refuses a push: unless earlier items of the call are in the queue, it is not the
    one that reports items as pushed. *)
Definition refusal (before : Z) (err : option error) : Prop :=
  ∃ e, err = Some e ∧ (before = 0 → e ≠ ErrClosedDuringPush).

Lemma closed_refusal before : refusal before (Some (closedWhileWaiting before)).
Proof. eexists. split; [done|]. by intros ->. Qed.

Lemma producerContextError_tri ctx before Wc V :
  wtri (λ g, cancelled ctx g ∧ rest Wc V g) (producerContextError ctx before)
    (λ err g, refusal before err ∧ rest Wc V g).
Proof.
  tri_seq by (apply keep_cancelled, loadConsumers_tri). intros word. destruct (closed word).
  - apply triple_ret; [stab|]. intros g [_ Hg]. split; [apply closed_refusal|done].
  - eapply triple_post; [apply ctxErr_tri; stab|]. intros err g [(e & -> & He) Hg]. split; [|done]. exists e. split; [done|]. by intros _ ->.
Qed.

Lemma leavePollingClosed_tri before o Wc V :
  wtri (both (Thread Out false) Wc (Thread Polling o) V) (leavePollingClosed A before)
    (λ err g, refusal before err ∧ rest Wc V g).
Proof.
  tri_seq by (apply leavePolling_tri). intros b. apply triple_ret; [stab|]. intros g Hg.
  split; [apply closed_refusal|done].
Qed.

Lemma pushed_nil V : has_pushed [] V = V.
Proof. destruct V as [? [p r]]. unfold has_pushed. simpl. by rewrite app_nil_r. Qed.

Lemma pushed_app xs ys V : has_pushed ys (has_pushed xs V) = has_pushed (xs ++ ys) V.
Proof. unfold has_pushed. simpl. by rewrite app_assoc. Qed.

Section push_wait.
Context (ctx : nat) (attempt : prog W Z) (xs : list T) (before : Z).
Hypothesis Hattempt : attempts attempt xs.
Hypothesis Huse : uses false ctx.

(** What a waiting push returns: how many of [xs] went in, and an error unless all is well. *)
Definition push_ok (r : Z * option error) : Prop :=
  0 <= r.1 <= len xs ∧ if 0 <? r.1 then published r.2 else refusal before r.2.
Definition accepted (Wc : list nat) (V : view) (r : Z * option error) (g : wghost) : Prop :=
  push_ok r ∧ rest Wc (has_pushed (take (Z.to_nat r.1) xs) V) g.
Definition pushed_or (Wc : list nat) (V : view) (P : wghost → Prop) (r : option (Z * option error)) (g : wghost) : Prop :=
  match r with Some x => accepted Wc V x g | None => P g end.

#[export] Instance accepted_stable Wc V r : Stable (wrely i) (accepted Wc V r).
Proof. unfold accepted. apply _. Qed.
#[export] Instance pushed_or_stable Wc V P r :
  Stable (wrely i) P → Stable (wrely i) (pushed_or Wc V P r).
Proof. unfold pushed_or. destruct r; apply _. Qed.

Lemma accepted_some n err Wc V g :
  0 < n <= len xs → published err → rest Wc (has_pushed (take (Z.to_nat n) xs) V) g → accepted Wc V (n, err) g.
Proof. intros Hn He Hg. split; [|done]. split; [cbn; lia|]. cbn [fst snd]. by rewrite (proj2 (Z.ltb_lt 0 n)) by lia. Qed.

Lemma accepted_none err Wc V g : refusal before err → rest Wc V g → accepted Wc V (0, err) g.
Proof.
  intros He Hg. pose proof (len_nonneg xs). split; [split; [cbn; lia|done]|]. cbn [fst].
  change (Z.to_nat 0) with 0%nat. by rewrite take_0, pushed_nil.
Qed.

(** What follows a successful attempt and a refusal. *)
Lemma refuse_tri {B} (p : prog W (option error)) P Wc V (f : Z * option error → B) (Q : B → wghost → Prop) :
  wtri P p (λ err g, refusal before err ∧ rest Wc V g) →
  (∀ r g, accepted Wc V r g → Q (f r) g) → (∀ b, Stable (wrely i) (Q b)) →
  wtri P (err ← p; mret (f (0, err))) Q.
Proof.
  intros Hp HQ Hst. tri_seq by (exact Hp). intros err. apply triple_fact. intros Herr.
  apply triple_ret; [stab|]. intros g Hg. by apply HQ, accepted_none.
Qed.

Lemma spinForRoom_tri Wc V :
  wtri (rest Wc V) (spinForRoom A ctx attempt before) (pushed_or Wc V (rest Wc V)).
Proof.
  tri_seq by (apply read_tri; stab). intros spins.
  apply (triple_loop _ _ _ _ (λ _ : Z, rest Wc V)); [stab..|]. intros poll.
  destruct (spins <=? poll); [apply triple_ret; [stab|done]|].
  tri_seq by (apply loadProducers_tri). intros word. destruct (closed word).
  { apply triple_ret; [stab|]. intros g Hg. apply accepted_none; [apply closed_refusal|done]. }
  tri_seq by (apply sampled_tri; stab). intros [|]; cbv iota.
  { apply (refuse_tri _ _ Wc V (λ r, inr (Some r))); [apply producerContextError_tri|done|intros [?|[?|]]; stab]. }
  tri_seq by (apply Hattempt). intros n. apply triple_fact. intros Hn. unfold attempted.
  destruct (Z.ltb_spec 0 n); [|apply triple_ret; [stab|done]].
  tri_seq by (apply consumerWakeCheck_tri). intros err. apply triple_fact. intros Herr.
  apply triple_ret; [stab|]. intros g Hg. by apply accepted_some; [lia|..].
Qed.

Lemma attemptRegistered_tri Wc V :
  wtri (seeking Wc V) (attemptRegistered A ctx attempt before) (pushed_or Wc V (seeking Wc V)).
Proof.
  apply triple_exist. intros o. tri_seq by (apply loadProducers_tri). intros word. destruct (closed word).
  { apply (refuse_tri _ _ Wc V Some); [apply leavePollingClosed_tri|done|intros [?|]; stab]. }
  tri_seq by (apply Hattempt). intros n. apply triple_fact. intros Hn. unfold attempted. destruct (Z.ltb_spec 0 n).
  { tri_seq by (apply consumerWakeCheck_tri). intros err. apply triple_fact. intros Herr.
    tri_seq by (apply leavePolling_tri). intros b.
    apply triple_ret; [stab|]. intros g Hg. by apply accepted_some; [lia|..]. }
  tri_seq by (apply loadProducers_tri). intros word'. destruct (closed word').
  { apply (refuse_tri _ _ Wc V Some); [apply leavePollingClosed_tri|done|intros [?|]; stab]. }
  tri_seq by (apply isDone_tri; stab). intros [|]; cbv iota.
  - tri_seq by (apply keep_cancelled, leavePolling_tri). intros b.
    apply (refuse_tri _ _ Wc V Some); [apply producerContextError_tri|done|intros [?|]; stab].
  - apply triple_ret; [stab|]. intros g. apply seeking_intro.
Qed.

Lemma yieldForRoom_tri woken Wc V :
  wtri (seeking Wc V) (yieldForRoom A ctx attempt before woken) (pushed_or Wc V (seeking Wc V)).
Proof.
  tri_seq by (apply read_tri; stab). intros yields. cbv zeta.
  apply (triple_loop _ _ _ _ (λ _ : Z, seeking Wc V)); [stab..|]. intros poll.
  destruct (_ <=? poll); [apply triple_ret; [stab|done]|].
  tri_seq by (apply attemptRegistered_tri). intros r. apply triple_ret; [stab|]. by destruct r.
Qed.

Lemma pushWithoutParking_tri Wc V :
  wtri (seeking Wc V) (pushWithoutParking A ctx attempt before) (accepted Wc V).
Proof. apply triple_forever; [stab..|]. apply attemptRegistered_tri. Qed.

Lemma enlistProducer_tri x position o tc Wc V :
  x ∈ V.1 → wtri (both tc Wc (Thread Polling o) V) (zoom producers (enlist x position))
    (λ b : bool, if b then λ g, ∃ o', both tc Wc (Thread Polling o') V g
                 else both tc Wc (Thread (Parked x) true) V).
Proof.
  intros Hx. eapply triple_post.
  - apply (zoom_producers (mode i (Thread Polling o) V.1 None) _ (λ b : bool,
      if b then λ g, g_closed g = true ∧ ∃ o', mode i (Thread Polling o') V.1 None g else mode i (Thread (Parked x) true) V.1 None)
      (mode i tc Wc None)); [by apply enlist_tri|apply _|by intros g (_ & _ & ?)].
  - intros [] g; [|done]. intros (? & [_ [o' ?]] & ?). by exists o'.
Qed.

Lemma parkProducer_tri x woken Wc V :
  x ∈ V.1 → wtri (seeking Wc V) (parkProducer A ctx attempt before x woken) (pushed_or Wc V (seeking Wc V)).
Proof.
  intros Hx. apply triple_exist. intros o. cbv zeta. tri_seq by (by apply enlistProducer_tri).
  intros [|]; cbv iota beta.
  { apply triple_exist. intros o'.
    apply (refuse_tri _ _ Wc V Some); [apply leavePollingClosed_tri|done|intros [?|]; stab]. }
  tri_seq by (apply Hattempt). intros n. apply triple_fact. intros Hn. unfold attempted. destruct (Z.ltb_spec 0 n).
  { tri_seq by (apply consumerWakeCheck_tri). intros err. apply triple_fact. intros Herr.
    tri_seq by (by apply leaveList_tri). intros b.
    apply triple_ret; [stab|]. intros g Hg. by apply accepted_some; [lia|..]. }
  tri_seq by (by apply selectProducer_tri). intros [| |]; unfold selected.
  - apply triple_ret; [stab|]. intros g. apply seeking_intro.
  - tri_seq by (by apply keep_cancelled, leaveList_tri). intros b.
    apply (refuse_tri _ _ Wc V Some); [apply producerContextError_tri|done|intros [?|]; stab].
  - eapply triple_pre; [|by intros g [_ Hg]; exact Hg].
    tri_seq by (by apply leaveList_tri). intros b. apply triple_ret; [stab|]. intros g Hg.
    apply accepted_none; [apply closed_refusal|done].
Qed.

Lemma parkForRoom_tri woken Wc L :
  wtri (seeking Wc ([], L)) (parkForRoom A ctx attempt before woken) (pushed_or Wc ([], L) (seeking Wc ([], L))).
Proof.
  apply triple_exist. intros o. tri_seq by (eapply producers_own_tri; rapply getWaiter_tri; by right). intros x.
  eapply triple_pre; [|intros g; apply seeking_intro].
  tri_seq by (apply (parkProducer_tri x woken Wc ([x], L)); by left). intros [r|]; unfold pushed_or.
  - apply triple_fact. intros Hr.
    tri_seq by (eapply producers_own_tri; rapply putWaiter_tri; [by left|apply not_elem_of_nil]). intros _.
    apply triple_ret; [stab|done].
  - apply triple_exist. intros o'.
    tri_seq by (eapply producers_own_tri; rapply putWaiter_tri; [by right|apply not_elem_of_nil]). intros _.
    apply triple_ret; [stab|]. intros g. apply seeking_intro.
Qed.

Lemma pushWait_tri Wc L :
  wtri (rest Wc ([], L)) (pushWait A ctx attempt before) (accepted Wc ([], L)).
Proof.
  tri_seq by (apply spinForRoom_tri). intros [r|]; unfold pushed_or; [apply triple_ret; [stab|done]|].
  tri_seq by (apply registerProducer_tri). intros [|]; cbv iota.
  { apply triple_ret; [stab|]. intros g Hg. apply accepted_none; [apply closed_refusal|done]. }
  eapply triple_pre; [|intros g; apply seeking_intro].
  apply (triple_loop _ _ _ _ (λ _ : bool, seeking Wc ([], L))); [stab..|]. intros woken.
  tri_seq by (apply yieldForRoom_tri). intros [r|]; unfold pushed_or; [apply triple_ret; [stab|done]|].
  tri_seq by (apply read_tri; stab). intros [|].
  - tri_seq by (apply pushWithoutParking_tri). intros r. apply triple_ret; [stab|done].
  - tri_seq by (apply parkForRoom_tri). intros [r|]; (apply triple_ret; [stab|done]).
Qed.
End push_wait.

(** ** The calls

    [L] is what the goroutine has pushed and received so far. *)

Abbreviation home := (λ L, rest [] ([], L)).
Definition pushing (xs : list T) (L : list T * list T) : list T * list T := (L.1 ++ xs, L.2).
Definition receiving (xs : list T) (L : list T * list T) : list T * list T := (L.1, L.2 ++ xs).

(** The items that the results of the calls report. *)
Definition push_log (x : T) (err : option error) : list T :=
  match err with
  | None => [x]
  | Some e => if bool_decide (e = ErrClosedDuringPush) then [x] else []
  end.
Definition batch_log (xs : list T) (r : Z * option error) : list T := take (Z.to_nat r.1) xs.
Definition receive_log (r : Z * option error * list T) : list T := take (Z.to_nat r.1.1) r.2.

Lemma push_log_ok x n err :
  push_ok [x] 0 (n, err) → push_log x err = take (Z.to_nat n) [x].
Proof.
  intros [Hn He]. cbn [fst snd] in *. change (len [x]) with 1 in Hn. destruct (Z.ltb_spec 0 n).
  - assert (n = 1) as -> by lia. destruct He as [->| ->]; [done|]. unfold push_log. by rewrite bool_decide_true.
  - assert (n = 0) as -> by lia. destruct He as (e & -> & Hne). unfold push_log. rewrite bool_decide_false; auto.
Qed.

(** A push whose first attempt was one item. *)
Lemma attempted_one x n pc oc Wc pp op V g :
  0 <= n <= len [x] → n ≠ 0 → attempted [x] n pc oc Wc pp op V g →
  both (Thread pc true) Wc (Thread pp op) (has_pushed [x] V) g.
Proof.
  change (len [x]) with 1. intros Hn Hne. assert (n = 1) as -> by lia. done.
Qed.

Lemma publish_one_tri x L :
  wtri (both (Thread Out true) [] (Thread Out false) (has_pushed [x] ([], L))) (consumerWakeCheck A)
    (λ err, home (pushing (push_log x err) L)).
Proof.
  eapply triple_post; [apply consumerWakeCheck_tri|]. intros err g [[->| ->] Hg]; [done|].
  unfold push_log. by rewrite bool_decide_true.
Qed.

Lemma push_tri ctx x L :
  pusher → uses false ctx → wtri (home L) (Push A ctx x) (λ err, home (pushing (push_log x err) L)).
Proof.
  intros Hpush Huse. tri_seq by (apply loadConsumers_tri). intros word. destruct (closed word).
  { apply triple_ret; [stab|]. intros g Hg. unfold push_log, pushing. rewrite bool_decide_false, app_nil_r by done.
    by destruct L. }
  tri_seq by (by apply enqueueAttempt_tri). intros n. apply triple_fact. intros Hn.
  destruct (Z.eqb_spec n 0) as [->|Hne].
  - tri_seq by (apply (pushWait_tri ctx (enqueueAttempt A x) [x]); [by apply enqueueAttempt_tri|done]).
    intros [m err]. apply triple_fact. intros Hr. apply triple_ret; [stab|]. by rewrite (push_log_ok x m err Hr).
  - eapply triple_pre; [apply publish_one_tri|]. intros g. by apply attempted_one.
Qed.

Lemma tryPush_tri x L : pusher → wtri (home L) (TryPush A x) (λ err, home (pushing (push_log x err) L)).
Proof.
  intros Hpush. tri_seq by (apply loadConsumers_tri). intros word. destruct (closed word).
  { apply triple_ret; [stab|]. intros g Hg. unfold push_log, pushing. rewrite bool_decide_false, app_nil_r by done.
    by destruct L. }
  tri_seq by (by apply enqueueAttempt_tri). intros n. apply triple_fact. intros Hn.
  destruct (Z.eqb_spec n 0) as [->|Hne].
  - apply triple_ret; [stab|]. intros g Hg. unfold push_log, pushing. rewrite bool_decide_false, app_nil_r by done.
    by destruct L.
  - eapply triple_pre; [apply publish_one_tri|]. intros g. by apply attempted_one.
Qed.

(** After the first [p] items, [m] more. *)
Lemma pushing_more (xs : list T) p q m L :
  0 <= p → 0 <= m <= len (sub xs p q) →
  pushing (take (Z.to_nat m) (sub xs p q)) (pushing (take (Z.to_nat p) xs) L) = pushing (take (Z.to_nat (p + m)) xs) L.
Proof.
  intros Hp Hm. unfold pushing. cbn [fst snd]. rewrite <- app_assoc. f_equal. f_equal.
  unfold len, sub in *. rewrite length_take in Hm. rewrite take_take, Nat.min_l by lia.
  rewrite Z2Nat.inj_add by lia. by rewrite take_take_drop.
Qed.

Lemma pushing_none (xs : list T) L : pushing (take (Z.to_nat 0) xs) L = L.
Proof. destruct L. unfold pushing. simpl. by rewrite app_nil_r. Qed.

Lemma pushChunk_tri ctx chunk before L :
  pusher → uses false ctx → len chunk <= 2 ^ 62 →
  wtri (home L) (pushChunk A ctx chunk before)
    (λ r g, (0 <= r.1 <= len chunk ∧ (r.2 = None → r.1 = len chunk)) ∧ home (pushing (batch_log chunk r) L) g).
Proof.
  intros Hpush Huse Hlen. pose proof (len_nonneg chunk).
  eapply triple_pre; [apply (triple_loop _ _ _ _
    (λ pushed g, 0 <= pushed <= len chunk ∧ home (pushing (take (Z.to_nat pushed) chunk) L) g)); [stab..|]|
    intros g Hg; split; [lia|by rewrite pushing_none]].
  intros pushed. apply triple_fact. intros Hp. destruct (Z.leb_spec (len chunk) pushed).
  { apply triple_ret; [stab|]. intros g Hg. cbn [fst snd]. split; [split; [lia|intros _; lia]|done]. }
  cbv zeta. set (more := sub chunk pushed (len chunk)).
  assert (len more = len chunk - pushed) as Hm by (apply len_sub; lia).
  assert (more ≠ []) as Hne. { intros Hnil. rewrite Hnil in Hm. change (len []) with 0 in Hm. lia. }
  assert (∀ m, 0 <= m <= len more → pushed +i m = pushed + m) as Hadd.
  { intros m ?. rewrite i64_small; [done|]. unfold is_int, minInt, maxInt. lia. }
  assert (∀ m err g, 0 <= m <= len more →
    home (pushing (take (Z.to_nat m) more) (pushing (take (Z.to_nat pushed) chunk) L)) g →
    match match err with Some _ => inr (pushed +i m, err) | None => inl (pushed +i m) end : Z + Z * option error with
    | inl pushed => 0 <= pushed <= len chunk ∧ home (pushing (take (Z.to_nat pushed) chunk) L) g
    | inr r => (0 <= r.1 <= len chunk ∧ (r.2 = None → r.1 = len chunk)) ∧ home (pushing (batch_log chunk r) L) g
    end) as Hnext.
  { intros m err g Hm'. rewrite (Hadd m Hm'). unfold more. rewrite pushing_more by (fold more; lia). intros Hg.
    destruct err; cbn [fst snd]; [split; [split; [lia|done]|done]|split; [lia|done]]. }
  tri_seq by (by apply burstAttempt_tri). intros n. apply triple_fact. intros Hn.
  unfold attempted. destruct (Z.ltb_spec 0 n).
  - tri_seq by (apply consumerWakeCheck_tri). intros err. apply triple_fact. intros _. apply triple_ret; [stab|].
    intros g Hg. by apply Hnext.
  - tri_seq by (apply (pushWait_tri ctx (burstAttempt A more) more); [by apply burstAttempt_tri|done]).
    intros [m err]. apply triple_fact. intros [Hm' _]. apply triple_ret; [stab|]. intros g Hg. by apply Hnext.
Qed.

(** The next chunk of a batch. *)
Lemma next_chunk (xs : list T) pushed maxBatch :
  0 <= pushed < len xs → len xs <= 2 ^ 62 → 1 <= maxBatch <= 2 ^ 30 →
  let chunk := sub xs pushed (Z.min (pushed +i maxBatch) (len xs)) in
  1 <= len chunk <= len xs - pushed ∧ chunk ≠ [].
Proof.
  intros Hp Hl Hm chunk. assert (len chunk = Z.min (pushed + maxBatch) (len xs) - pushed) as Hc.
  { unfold chunk. rewrite i64_small by (unfold is_int, minInt, maxInt; lia). apply len_sub; lia. }
  split; [lia|]. intros Hnil. rewrite Hnil in Hc. change (len []) with 0 in Hc. lia.
Qed.

Lemma checkBetweenChunks_tri ctx pushed L :
  wtri (home L) (checkBetweenChunks ctx pushed) (λ _, home L).
Proof.
  tri_seq by (apply loadConsumers_tri). intros word'. destruct (closed word'); [apply triple_ret; [stab|done]|].
  tri_seq by (apply isDone_tri; stab). intros [|]; [|apply triple_ret; [stab|done]].
  eapply triple_post; [apply producerContextError_tri|]. by intros err g [_ Hg].
Qed.

Lemma pushBatch_tri ctx xs L :
  pusher → uses false ctx → len xs <= 2 ^ 62 →
  wtri (home L) (PushBatch A ctx xs) (λ r g, 0 <= r.1 <= len xs ∧ home (pushing (batch_log xs r) L) g).
Proof.
  intros Hpush Huse Hlen. pose proof (len_nonneg xs).
  assert (∀ err g, home L g → 0 <= 0 <= len xs ∧ home (pushing (batch_log xs (0, err)) L) g) as Hnone.
  { intros err g Hg. split; [lia|]. unfold batch_log. cbn [fst]. by rewrite pushing_none. }
  tri_seq by (apply loadConsumers_tri). intros word. destruct (closed word); [apply triple_ret; [stab|by apply Hnone]|].
  destruct (len xs =? 0); [apply triple_ret; [stab|by apply Hnone]|].
  tri_seq by (apply (world_tri _ (λ m, 1 <= m <= 2 ^ 30)); [stab|intros w g Hi; apply Hi]).
  intros maxBatch. apply triple_fact. intros Hmax.
  eapply triple_pre; [apply (triple_loop _ _ _ _
    (λ pushed g, 0 <= pushed <= len xs ∧ home (pushing (take (Z.to_nat pushed) xs) L) g)); [stab..|]|
    intros g Hg; by apply (Hnone None)].
  intros pushed. apply triple_fact. intros Hp. destruct (Z.leb_spec (len xs) pushed).
  { apply triple_ret; [stab|]. intros g Hg. split; [cbn; lia|done]. }
  tri_mid (λ _ : option error, home (pushing (take (Z.to_nat pushed) xs) L)).
  { destruct (0 <? pushed); [|apply triple_ret; [stab|done]]. apply checkBetweenChunks_tri. }
  intros [e|]; [apply triple_ret; [stab|]; intros g Hg; split; [cbn; lia|done]|]. cbv zeta.
  destruct (next_chunk xs pushed maxBatch) as [Hc _]; [lia..|].
  tri_seq by (apply pushChunk_tri; [done|done|lia]). intros [m err]. cbn [fst]. apply triple_fact. intros [Hm _].
  apply triple_ret; [stab|]. intros g Hg. unfold batch_log in Hg. cbn [fst] in Hg.
  rewrite pushing_more in Hg by lia. rewrite (i64_small (pushed + m)) by (unfold is_int, minInt, maxInt; lia).
  destruct err; (split; [cbn; lia|done]).
Qed.

Lemma tryPushBatch_tri xs L :
  pusher → len xs <= 2 ^ 62 →
  wtri (home L) (TryPushBatch A xs) (λ r g, 0 <= r.1 <= len xs ∧ home (pushing (batch_log xs r) L) g).
Proof.
  intros Hpush Hlen. pose proof (len_nonneg xs).
  assert (∀ err g, home L g → 0 <= 0 <= len xs ∧ home (pushing (batch_log xs (0, err)) L) g) as Hnone.
  { intros err g Hg. split; [lia|]. unfold batch_log. cbn [fst]. by rewrite pushing_none. }
  tri_seq by (apply loadConsumers_tri). intros word. destruct (closed word); [apply triple_ret; [stab|by apply Hnone]|].
  destruct (len xs =? 0); [apply triple_ret; [stab|by apply Hnone]|].
  tri_seq by (apply (world_tri _ (λ m, 1 <= m <= 2 ^ 30)); [stab|intros w g Hi; apply Hi]).
  intros maxBatch. apply triple_fact. intros Hmax.
  eapply triple_pre; [apply (triple_loop _ _ _ _
    (λ pushed g, 0 <= pushed <= len xs ∧ home (pushing (take (Z.to_nat pushed) xs) L) g)); [stab..|]|
    intros g Hg; by apply (Hnone None)].
  intros pushed. apply triple_fact. intros Hp. cbv zeta. destruct (Z.leb_spec (len xs) pushed).
  { apply triple_ret; [stab|]. intros g Hg. split; [cbn; lia|done]. }
  destruct (next_chunk xs pushed maxBatch) as [Hc Hne]; [lia..|]. set (chunk := sub xs pushed _) in *.
  tri_seq by (by apply burstAttempt_tri). intros n. apply triple_fact. intros Hn.
  tri_mid (λ _ : option error, home (pushing (take (Z.to_nat (pushed + n)) xs) L)).
  { unfold attempted. destruct (Z.ltb_spec 0 n).
    - eapply triple_post; [apply consumerWakeCheck_tri|]. intros err g [_ Hg]. rewrite <- (pushing_more xs pushed (Z.min (pushed +i maxBatch) (len xs)) n) by (fold chunk; lia).
      exact Hg.
    - assert (n = 0) as -> by lia. rewrite Z.add_0_r. apply triple_ret; [stab|done]. }
  intros err. apply triple_ret; [stab|]. intros g Hg. rewrite (i64_small (pushed + n)) by (unfold is_int, minInt, maxInt; lia).
  destruct err; [|destruct (n <? len chunk)]; (split; [cbn; lia|done]).
Qed.

(** The prefix of [dst] a receive works on. *)
Lemma prefix_nonempty (dst : list T) m : 1 <= m → len dst ≠ 0 → sub dst 0 (Z.min (len dst) m) ≠ [].
Proof.
  intros Hm Hd Hnil. pose proof (len_nonneg dst).
  pose proof (len_sub dst 0 (Z.min (len dst) m)) as Hl. rewrite Hnil in Hl. change (len []) with 0 in Hl. lia.
Qed.

Lemma prefix_length (dst : list T) m : 1 <= m → len (sub dst 0 (Z.min (len dst) m)) <= len dst.
Proof. intros Hm. pose proof (len_nonneg dst). rewrite len_sub; lia. Qed.

(** What [Receive] returns: it fails exactly when it delivers nothing. *)
Definition received_ok (dst : list T) (r : Z * option error * list T) : Prop :=
  0 <= r.1.1 <= len dst ∧ r.1.1 <= len r.2 ∧ (dst ≠ [] → (r.1.2 = None ↔ 0 < r.1.1)).

Lemma receiving_none (dst : list T) L : receiving (take (Z.to_nat 0) dst) L = L.
Proof. destruct L. unfold receiving. simpl. by rewrite app_nil_r. Qed.

Lemma receiveBatch_tri ctx dst L :
  uses true ctx →
  wtri (home L) (Receive A zero ctx dst)
    (λ r g, received_ok dst r ∧ explained r g ∧ home (receiving (receive_log r) L) g).
Proof.
  intros Huse. unfold Receive. destruct (Z.eqb_spec (len dst) 0) as [Hz|Hz].
  { apply triple_ret; [stab|]. intros g Hg. unfold receive_log. cbn [fst snd]. rewrite receiving_none.
    split_and!; [|by intros e [=]|done]. split_and!; [cbn; lia..|]. intros Hne%len_pos. lia. }
  tri_seq by (apply (world_tri _ (λ m, 1 <= m)); [stab|intros w g Hi; apply Hi]).
  intros m. apply triple_fact. intros Hm. tri_seq by (apply receive_tri; [by apply prefix_nonempty|done|done]).
  intros [[n' err] front]. apply triple_fact. intros (Hn & Hl & He). cbn [fst snd] in *.
  apply triple_ret; [stab|]. intros g [Hdr Hg]. pose proof (prefix_length dst m Hm).
  split_and!; [split_and!; [cbn; lia..|cbn; rewrite len_app; unfold len in *; lia|done]|exact Hdr|]. unfold receive_log. cbn [fst snd].
  rewrite take_app_le by (unfold len in *; lia). exact Hg.
Qed.

Lemma tryReceive_tri dst L :
  wtri (home L) (TryReceive A dst)
    (λ r g, 0 <= r.1.1 <= len dst ∧ home (receiving (receive_log r) L) g).
Proof.
  unfold TryReceive. destruct (Z.eqb_spec (len dst) 0) as [Hz|Hz].
  { apply triple_ret; [stab|]. intros g Hg. unfold receive_log. cbn [fst snd]. rewrite receiving_none.
    split; [cbn; lia|done]. }
  tri_seq by (apply (world_tri _ (λ m, 1 <= m)); [stab|intros w g Hi; apply Hi]).
  intros m. apply triple_fact. intros Hm. pose proof (prefix_length dst m Hm).
  set (dst1 := sub _ _ _) in *. assert (dst1 ≠ []) as Hd by (by apply prefix_nonempty).
  tri_mid (λ r g, (0 <= r.1.1 <= len dst1 ∧ length r.2 = length dst1) ∧ home (receiving (receive_log r) L) g).
  2: { intros [[n' err] front]. apply triple_fact. cbn [fst snd]. intros [Hn Hl]. apply triple_ret; [stab|].
       intros g Hg. split; [cbn; lia|]. unfold receive_log. cbn [fst snd].
       rewrite take_app_le by (unfold len in *; lia). exact Hg. }
  tri_seq by (by apply dequeueAttempt_tri). intros [n' dst']. apply triple_fact. cbn [fst snd]. intros [Hn Hl].
  eapply triple_pre; [apply (received_tri dst1 dst' n' Out false [] ([], L) _ (λ _, True)); [stab|lia|..]; intros Hn'|by intros g Hg].
  { apply triple_ret; [stab|done]. }
  eapply triple_pre; [|by intros g [_ Hg]; exact Hg].
  tri_seq by (apply loadConsumers_shut_tri). intros word. destruct (closed word).
  - eapply triple_post; [apply drainCheck_tri; by eapply same_nonempty|].
    intros r g (Hr & _ & Hg). split; [|done]. destruct Hr as (Hr1 & Hr2 & _). rewrite Hr2, Hl. unfold len in *. rewrite Hl in Hr1. done.
  - apply triple_ret; [stab|]. intros g [_ Hg]. unfold receive_log. cbn [fst snd]. rewrite receiving_none.
    split; [split; [cbn; pose proof (len_nonneg dst1); lia|done]|done].
Qed.

(** A handler of [Consume] that works on the state of the program in one step. *)
Definition handler (h : U → list T → U * (option error * list T)) (batch : list T)
    : prog W (option error * list T) :=
  act (λ w, let '(u, r) := h (user w) batch in (World (queue w) (contexts w) u, r)).

(** The rest of the program changes nothing of the queue. *)
Lemma user_tri {B} (f : U → U * B) (F : B → Prop) P :
  Stable (wrely i) P → (∀ u ctxs d logs x, xinv u ctxs d logs x → xinv (f u).1 ctxs d logs x ∧ F (f u).2) →
  wtri P (act (λ w, let '(u, r) := f (user w) in (World (queue w) (contexts w) u, r))) (λ b g, F b ∧ P g).
Proof.
  intros HP Hf. apply triple_act; [stab..|]. intros w g Hg []. destruct (Hf _ _ _ _ _ wi_user0) as [Hx HF].
  destruct (f (user w)) as [u r]. simpl in *. exists g. split_and!; try done.
Qed.

Lemma receiving_app xs ys L : receiving ys (receiving xs L) = receiving (xs ++ ys) L.
Proof. unfold receiving. simpl. by rewrite app_assoc. Qed.

Lemma consume_tri ctx h L :
  uses true ctx → (∀ u batch, length (h u batch).2.2 = length batch) →
  (∀ u ctxs d logs x batch, xinv u ctxs d logs x → xinv (h u batch).1 ctxs d logs x) →
  wtri (home L) (Consume A zero ctx (handler h)) (λ _ g, ∃ given, home (receiving given L) g).
Proof.
  intros Huse Hh Hx. tri_seq by (apply (world_tri _ (λ m, 1 <= m)); [stab|intros w g Hi; apply Hi]).
  intros m. apply triple_fact. intros Hm.
  tri_seq by (eapply consumers_tri; rapply newWaiter_tri; by left). intros own.
  set (I g := ∃ given, rest [own] ([], receiving given L) g).
  eapply (triple_post _ _ _ _ _ _ (λ _, I));
    [|intros _ g (given & ? & ? & ?); exists given; split_and!; [by eapply mode_less|done..]].
  eapply triple_pre; [apply (triple_loop _ _ _ _ (λ buffer g, buffer ≠ [] ∧ I g)); [stab|stab|]|].
  2: { intros g Hg. split; [|exists []; unfold receiving; by rewrite app_nil_r; destruct L].
       intros Hnil%(f_equal length). rewrite length_replicate in Hnil. simpl in Hnil. lia. }
  intros buffer. apply triple_fact. intros Hb. apply triple_exist. intros given.
  tri_seq by (apply isDone_tri; stab). intros [|]; cbv iota.
  { tri_seq by (apply ctxErr_tri; stab). intros err. apply triple_fact. intros _. apply triple_ret; [stab|].
    intros g Hg. by exists given. }
  tri_seq by (apply receive_tri; [done|done|by left]). intros [[n err] buf]. apply triple_fact.
  unfold recv_ok, got. cbn [fst snd]. intros (Hn & Hl & _).
  eapply triple_pre; [|by intros g [_ Hg]; exact Hg].
  change (has_received (take (Z.to_nat n) buf) ([], receiving given L))
    with ([] : list nat, receiving (take (Z.to_nat n) buf) (receiving given L)).
  rewrite receiving_app. set (given' := given ++ take (Z.to_nat n) buf).
  destruct err as [e|]; [apply triple_ret; [stab|]; intros g Hg; by exists given'|].
  tri_mid (λ r g, length r.2 = length (sub buf 0 n) ∧ rest [own] ([], receiving given' L) g).
  { apply (user_tri (λ u, h u (sub buf 0 n))); [stab|]. intros u ctxs d logs x Hi. auto. }
  intros [failure batch]. apply triple_fact. cbn [fst snd]. intros Hbatch. apply triple_ret; [stab|].
  intros g Hg. destruct failure; [by exists given'|]. split; [|by exists given'].
  assert (len (sub buf 0 n) = n) as Hs by (rewrite len_sub; unfold len in *; lia).
  intros Hnil%(f_equal length). rewrite length_app, length_drop in Hnil.
  destruct buffer; [done|]. unfold len in *. simpl in *. lia.
Qed.

(** Cancelling a context: the first cancellation counts. *)
Definition cancel_context (ctx : nat) (err : error) (ctxs : gmap nat error) : gmap nat error :=
  match ctxs !! ctx with Some _ => ctxs | None => <[ctx := err]> ctxs end.
Definition cancel (ctx : nat) (err : error) : prog W unit :=
  modify (λ w, World (queue w) (cancel_context ctx err (contexts w)) (user w)).

Lemma cancel_more ctx err ctxs : ctxs ⊆ cancel_context ctx err ctxs.
Proof. unfold cancel_context. destruct (ctxs !! ctx) eqn:Hc; [done|]. by apply insert_subseteq. Qed.

Lemma cancel_tri ctx err L :
  errors_Is err ErrClosed = false → (∀ u ctxs d logs x, xinv u ctxs d logs x → xinv u (cancel_context ctx err ctxs) d logs x) →
  wtri (home L) (cancel ctx err) (λ _, home L).
Proof.
  intros Herr Hx. apply triple_act; [stab..|]. intros w g Hg [].
  exists (WGhost (gc g) (gp g) (gdone g) (cancel_context ctx err (gctx g)) (glogs g) (gx g)). split_and!.
  - split_and!; [|done|apply cancel_more|done]. intros j Hj. split_and!; try done. apply cancel_more.
  - split; simpl; try done; [by rewrite wi_contexts0| |auto]. unfold cancel_context. intros c e.
    destruct (gctx g !! ctx); [apply wi_errors0|]. intros [[_ <-]|[_ ?]]%lookup_insert_Some; [done|by eapply wi_errors0].
  - exact Hg.
Qed.

(** *** Close *)

(** Closing [done] under the consumers' mutex. *)
Lemma announce_tri t l F :
  Stable (wrely i) (λ g, F (gp g)) →
  ∀ L, wtri (λ g, shut true g ∧ mode i t [] (Some (Closing, l)) (gc g) ∧ F (gp g) ∧ owns L g) (modify (on_queue (set_done true)))
    (λ _ g, gdone g = true ∧ mode i t [] (Some (Calm, l)) (gc g) ∧ F (gp g) ∧ owns L g).
Proof.
  intros HF L. apply triple_act; [stab..|]. intros w g (Hshut & Hm & HFg & HL) []. pose proof (Hshut eq_refl) as Hclosed. pose proof wi_consumers0 as (Hs & _ & Hcov & _).
  pose proof Hm as (Hti & _ & (Hh & Hgl & Hph)%mine_hold).
  assert (stepped (false, True) N i (q_consumers (queue w)) (gc g) t [] (Some (Calm, l))) as (gc' & (Hr & Hd & _) & Hic & Hmc).
  { pose proof (step_plain (false, True) N i _ (q_consumers (queue w)) _ t t [] _ (Some (i, Calm)) (g_closed (gc g)) wi_consumers0 Hm)
      as Hst. cbv zeta in Hst. rewrite (mine_Some i Calm l) in Hst by done.
    apply Hst; rewrite ?Hph, ?Hh; try done; [by left|by rewrite (sc_mu _ _ _ Hs), Hh|simpl; lia|by right|split; [by left|done]|].
    simpl. intros p q Hp Hq _ _. destruct (sinv_word _ _ _ wi_consumers0) as (_ & _ & Hw).
    assert (p = polls (gc g)) as -> by lia. assert (q = parks (gc g)) as -> by lia. split; [done|].
    intros Hpg Hqg. apply (covered_keep (gc g)); [done..|lia|lia|]. by apply (owes_upd _ _ _ _ Hti). }
  exists (WGhost gc' (gp g) true (gctx g) (glogs g) (gx g)). split_and!; try done.
  - split_and!; [|done..]. intros j Hj. split_and!; [by apply Hr|done..| |done]. simpl. by rewrite Hd.
  - destruct wi_held0 as [Hh1 Hh2]. assert (g_closed gc' = true) as Hcl' by (by apply (Hr (S i)); [lia|]).
    split; simpl; try done; [congruence|split; [exact (held_step _ _ Hh1 Hr)|done]|by left|auto|by rewrite Hd].
Qed.

Lemma keep_done {B} P (p : prog W B) Q :
  wtri P p Q → wtri (λ g, gdone g = true ∧ P g) p (λ a g, gdone g = true ∧ Q a g).
Proof. apply triple_keep; [by intros g g' (_ & _ & ? & _)|by intros g g' (_ & ? & _)]. Qed.

Lemma close_tri L : rule → wtri (home L) Close (λ _ g, gdone g = true ∧ home L g).
Proof.
  intros Hrule. set (F := mode i (Thread Out false) [] None).
  set (K := λ g, ∃ l, mode i (Thread Out false) [] (Some (Calm, l)) g).
  set (C l := λ (b : bool) g, g_closed g = true ∧
    mode i (Thread Out false) [] (Some (if b then Closing else Calm, l)) g).
  tri_mid (λ _ g, ∃ l, mode i (Thread Out false) [] (Some (Calm, l)) (gc g) ∧ F (gp g) ∧ owns L g).
  { eapply triple_post; [apply (zoom_consumers F Lock (λ _, K) F); [apply Lock_tri|apply _|by intros g (_ & _ & ?)]|].
    intros u g [[l ?] ?]. by exists l. }
  intros _. apply triple_exist. intros l.
  tri_seq by (apply (zoom_consumers (mode i (Thread Out false) [] (Some (Calm, l))) _ (C l) F);
    [by apply setClosedLocked_tri|apply _|by intros g (_ & _ & ?)]). intros first.
  tri_mid (λ _ g, gdone g = true ∧ mode i (Thread Out false) [] (Some (Calm, l)) (gc g) ∧ F (gp g) ∧ owns L g).
  { destruct first; cbv iota.
    - eapply triple_pre; [apply announce_tri; unfold F; stab|]. intros g [[Hc ?] ?]. split; [by intros _|done].
    - apply triple_ret_inv; [unfold F; stab|]. intros w g [[Hc Hm] HF] []. split_and!; try apply HF; try done.
      destruct (wi_closed0 Hc) as [?|Hph]; [done|]. destruct Hm as (_ & _ & (_ & _ & Hph')%mine_hold). congruence. }
  intros _. tri_mid (λ _ g, gdone g = true ∧ F (gc g) ∧ F (gp g) ∧ owns L g).
  { apply keep_done, (zoom_consumers (mode i (Thread Out false) [] (Some (Calm, l))) Unlock (λ _, F) F);
      [apply Unlock_tri; left; by left|apply _|by intros g (_ & _ & ?)]. }
  intros _. apply keep_done.
  tri_mid (λ _ g, ∃ l, F (gc g) ∧ mode i (Thread Out false) [] (Some (Calm, l)) (gp g) ∧ owns L g).
  { eapply triple_post; [apply (zoom_producers F Lock (λ _, K) F); [apply Lock_tri|apply _|by intros g (_ & _ & ?)]|].
    intros u g (? & [l' ?] & ?). by exists l'. }
  intros _. apply triple_exist. intros l'.
  tri_seq by (apply (zoom_producers (mode i (Thread Out false) [] (Some (Calm, l'))) _ (C l') F);
    [by apply setClosedLocked_tri|apply _|by intros g (_ & _ & ?)]). intros first'.
  eapply triple_pre; [apply (zoom_producers (mode i (Thread Out false) [] (Some (if first' then Closing else Calm, l')))
    Unlock (λ _, F) F); [|apply _|by intros g (_ & _ & ?)]|].
  - apply Unlock_tri. destruct first'; [by right|left; by left].
  - intros g (? & [_ ?] & ?). by split_and!.
Qed.
End goroutine.
End conc.
End WorkqConc.
