(* ===== verification/WorkqLive.v ===== *)
(** * No lost wake-ups (src/workq, wakeup.md)

    Goroutines that each make a list of calls on one queue, run under every interleaving. No call
    panics, the counts and lists of both sides stay consistent, and when nobody can run any more,
    every goroutine has returned or is parked for a reason: a parked consumer found the queue
    empty, a parked producer found it full, and once [Close] has returned nobody is parked. *)

From Stdlib Require Import ZArith Lia.
From stdpp Require Import prelude list gmap strings.
From S2P Require Import Prelude Prog Triple RingCore RingSpec WaitSide Workq WaitConc WaitTriples WorkqConc.

Module WorkqLive.
Import Prog Triple Ring RingSpec WaitSide Workq WaitConc WaitTriples WorkqConc.

Section live.
Context {E T U : Type} (A : queue_api E T) (zero : T) (items : E → list T) (cap : Z).
Context `{!FreshEngine A items cap}.
Abbreviation W := (world E U).

(** ** Programs of calls *)

Inductive call :=
| CPush (ctx : nat) (x : T)
| CPushBatch (ctx : nat) (xs : list T)
| CTryPush (x : T)
| CTryPushBatch (xs : list T)
| CReceive (ctx : nat) (dst : list T)
| CTryReceive (dst : list T)
| CConsume (ctx : nat) (h : U → list T → U * (option error * list T))
| CClose
| CCancel (ctx : nat) (err : error).

(** What a goroutine knows of its items: those its calls reported as pushed and as received. *)
Abbreviation log := (list T * list T)%type.

Definition run (c : call) : prog W log :=
  match c with
  | CPush ctx x => err ← Push A ctx x; mret (push_log x err, [])
  | CPushBatch ctx xs => r ← PushBatch A ctx xs; mret (batch_log xs r, [])
  | CTryPush x => err ← TryPush A x; mret (push_log x err, [])
  | CTryPushBatch xs => r ← TryPushBatch A xs; mret (batch_log xs r, [])
  | CReceive ctx dst => r ← Receive A zero ctx dst; mret ([], receive_log r)
  | CTryReceive dst => r ← TryReceive A dst; mret ([], receive_log r)
  | CConsume ctx h => _ ← Consume A zero ctx (handler h); mret ([], [])
  | CClose => _ ← Close; mret ([], [])
  | CCancel ctx err => _ ← cancel ctx err; mret ([], [])
  end.

Fixpoint goroutine_from (L : log) (cs : list call) : prog W log :=
  match cs with
  | [] => mret L
  | c :: cs => r ← run c; goroutine_from (L.1 ++ r.1, L.2 ++ r.2) cs
  end.
Definition goroutine (cs : list call) : prog W log := goroutine_from ([], []) cs.

(** Slices of a size that exists, handlers that keep the length of their batch, and contexts that
    are not cancelled with the queue's own error. *)
Definition call_ok (c : call) : Prop :=
  match c with
  | CPushBatch _ xs | CTryPushBatch xs => len xs <= 2 ^ 62
  | CConsume _ h => ∀ u batch, length (h u batch).2.2 = length batch
  | CCancel _ err => errors_Is err ErrClosed = false
  | _ => True
  end.

(** The context a call waits with, and whether it hands items to a handler. *)
Definition call_ctx (c : call) : option nat :=
  match c with
  | CPush ctx _ | CPushBatch ctx _ | CReceive ctx _ | CConsume ctx _ => Some ctx
  | _ => None
  end.
Definition consumes (c : call) : bool := match c with CConsume _ _ => true | _ => false end.

(** The program around the queue keeps nothing of its own; [uses i ctx] says that goroutine [i] waits
    with context [ctx]. *)
Program Definition alone (uses : nat → nat → Prop) : Around U T unit := {|
  xinv _ _ _ _ _ := True;
  xrely _ _ _ := True;
  xmay _ _ := True;
  xuses i _ ctx _ := uses i ctx;
  xfrozen _ := False;
  xclosed _ := True;
  guarded := False;
|}.
Solve Obligations with first [done|by split].

Section one.
Context (N i : nat) (i_lt : (i < N)%nat) (uses : nat → nat → Prop).
#[local] Existing Instance alone.
#[local] Instance around : Around U T unit := alone uses.
Definition anything (_ : unit) : Prop := True.
#[local] Instance anything_stable : Stable (xrely i) anything.
Proof. done. Qed.
Abbreviation wghost := (wghost T unit).
Abbreviation wtri := (triple (winv items cap N) (wquiet i) (wrely i) (wguar i)).
Abbreviation at_home := (λ L, rest i anything [] ([], L)).

(** The log after a call that reports [r] and gave more items to its handler. *)
Definition after_call (c : call) (L r : log) (g : wghost) : Prop :=
  ∃ given, at_home (L.1 ++ r.1, L.2 ++ r.2 ++ given) g ∧ (consumes c = false → given = []).

Lemma after_plain c L r g : at_home (L.1 ++ r.1, L.2 ++ r.2) g → after_call c L r g.
Proof. intros Hg. exists []. by rewrite app_nil_r. Qed.

Lemma reported_tri {B} (p : prog W B) c L (f : B → log) Q :
  wtri (at_home L) p (λ b g, Q b ∧ at_home (L.1 ++ (f b).1, L.2 ++ (f b).2) g) →
  wtri (at_home L) (b ← p; mret (f b)) (after_call c L).
Proof.
  intros Hp. tri_seq by (exact Hp). intros b. apply triple_fact. intros _. apply triple_ret; [stab|].
  intros g Hg. by apply after_plain.
Qed.

(** The premises of the triples of the calls. *)
Ltac premise Huse := solve [apply _|done|assumption|intros; exact I|intros ? _; by apply Huse|by intros ? _ ?].

Lemma run_tri c L :
  call_ok c → (∀ ctx, call_ctx c = Some ctx → uses i ctx) →
  wtri (at_home L) (run c) (λ r g, (c = CClose → gdone g = true) ∧ after_call c L r g).
Proof.
  assert (∀ g, at_home L g → at_home (L.1 ++ [], L.2 ++ []) g) as Hsame.
  { intros g Hg. destruct L. by rewrite !app_nil_r. }
  assert (∀ xs g, at_home (pushing xs L) g → at_home (L.1 ++ xs, L.2 ++ []) g) as Hpush.
  { intros xs g Hg. by rewrite app_nil_r. }
  assert (∀ xs g, at_home (receiving xs L) g → at_home (L.1 ++ [], L.2 ++ xs) g) as Hrecv.
  { intros xs g Hg. by rewrite app_nil_r. }
  intros Hc Huse. destruct c as [ctx x|ctx xs|x|xs|ctx dst|dst|ctx h| |ctx err]; cbn [call_ok call_ctx run] in Hc, Huse |- *.
  8: { tri_seq by (apply (close_tri items cap); premise Huse). intros _. apply triple_ret; [stab|]. intros g [Hd Hg].
       split; [done|]. by apply after_plain, Hsame. }
  all: eapply triple_post; [|intros u g Hg; split; [done|exact Hg]].
  - apply (reported_tri _ _ _ _ (λ _, True)). eapply triple_post; [apply push_tri; premise Huse|]. intros r g Hg. split; [done|by apply Hpush].
  - apply (reported_tri _ _ _ _ (λ r, 0 <= r.1 <= len xs)). eapply triple_post; [apply pushBatch_tri; premise Huse|]. intros r g [? Hg]. split; [done|by apply Hpush].
  - apply (reported_tri _ _ _ _ (λ _, True)). eapply triple_post; [apply tryPush_tri; premise Huse|]. intros r g Hg. split; [done|by apply Hpush].
  - apply (reported_tri _ _ _ _ (λ r, 0 <= r.1 <= len xs)). eapply triple_post; [apply tryPushBatch_tri; premise Huse|]. intros r g [? Hg]. split; [done|by apply Hpush].
  - apply (reported_tri _ _ _ _ (received_ok dst)). eapply triple_post; [apply receiveBatch_tri; premise Huse|]. intros r g (? & _ & Hg). split; [done|by apply Hrecv].
  - apply (reported_tri _ _ _ _ (λ r, 0 <= r.1.1 <= len dst)). eapply triple_post; [apply tryReceive_tri; premise Huse|]. intros r g [? Hg]. split; [done|by apply Hrecv].
  - tri_seq by (apply (consume_tri A zero items cap); premise Huse). intros _. apply triple_ret; [stab|].
    intros g [given Hg]. exists given. split; [|done]. by rewrite app_nil_r.
  - tri_seq by (apply cancel_tri; premise Huse). intros _. apply triple_ret; [stab|]. intros g Hg.
    by apply after_plain, Hsame.
Qed.

(** The log of a goroutine that has reported [r] and given more to handlers. *)
Definition logged (consumer : bool) (r : log) (g : wghost) : Prop :=
  ∃ L given, at_home L g ∧ L.1 = r.1 ∧ L.2 ≡ₚ r.2 ++ given ∧ (consumer = false → given = []).

#[local] Instance logged_stable b r : Stable (wrely i) (logged b r).
Proof. unfold logged. apply _. Qed.

Lemma logged_more b c r r' L given g :
  L.1 = r.1 → L.2 ≡ₚ r.2 ++ given → (b = false → given = []) →
  after_call c L r' g → logged (b || consumes c) (r.1 ++ r'.1, r.2 ++ r'.2) g.
Proof.
  intros H1 H2 Hb (given' & Hg & Hc). exists (L.1 ++ r'.1, L.2 ++ r'.2 ++ given'), (given ++ given'). cbn [fst snd].
  split_and!; [done|by rewrite H1| |].
  - rewrite H2, <- !app_assoc. f_equiv. rewrite !app_assoc. f_equiv. apply Permutation_app_comm.
  - intros [??]%orb_false_iff. by rewrite Hb, Hc.
Qed.

Lemma goroutine_tri cs : ∀ b (closing : Prop) r,
  Forall call_ok cs → (∀ c ctx, c ∈ cs → call_ctx c = Some ctx → uses i ctx) →
  wtri (λ g, (closing → gdone g = true) ∧ logged b r g) (goroutine_from r cs)
    (λ r g, (closing ∨ CClose ∈ cs → gdone g = true) ∧ logged (b || existsb consumes cs) r g).
Proof.
  induction cs as [|c cs IH]; intros b closing r Hcs Huse.
  - apply triple_ret; [stab|]. intros g [Hd Hg]. simpl. rewrite orb_false_r. split; [|done].
    intros [?|?%elem_of_nil]; auto.
  - apply Forall_cons in Hcs as [Hc Hcs].
    tri_mid (λ r' g, (closing ∨ c = CClose → gdone g = true) ∧ logged (b || consumes c) (r.1 ++ r'.1, r.2 ++ r'.2) g).
    + eapply triple_post; [apply (triple_keep _ _ _ _ (λ g, closing → gdone g = true) _ _
        (λ r' g, (c = CClose → gdone g = true) ∧ logged (b || consumes c) (r.1 ++ r'.1, r.2 ++ r'.2) g))|].
      * intros g g' (_ & _ & Hd & _). auto.
      * intros g g' (_ & Hd & _). auto.
      * apply triple_exist. intros L. apply triple_exist. intros given.
        apply triple_fact_r. intros (H1 & H2 & H3). eapply triple_post; [apply (run_tri c L Hc); intros ctx; apply Huse; by left|].
        intros r' g [Hd Hg]. split; [done|by eapply logged_more].
      * intros r' g (Hd & Hc' & Hg). split; [|done]. intros [?|?]; auto.
    + intros r'. eapply triple_post; [apply (IH (b || consumes c)); [done|]|].
      * intros c' ctx Hin. apply Huse. by right.
      * intros r1 g [Hd Hg]. simpl. rewrite orb_assoc. split; [|done].
        intros [?|[Heq|?]%elem_of_cons]; [auto|subst; auto|auto].
Qed.
End one.

(** ** The start *)

Definition fresh_ghost (N : nat) (demand : bool) : ghost :=
  Ghost (replicate N (Thread Out false)) ∅ [] None demand false.

Lemma count_home f N : f (Thread Out false) = false → count f (replicate N (Thread Out false)) = 0.
Proof. intros Hf. induction N as [|N IH]; simpl; [done|]. by rewrite Hf, IH. Qed.

Lemma fresh_sinv N demand : Z.of_nat N < 2 ^ 31 → sinv N zero_side (fresh_ghost N demand).
Proof.
  intros HN. assert (polls (fresh_ghost N demand) = 0) as Hp by (unfold polls; simpl; by rewrite count_home).
  split_and!; [split|by rewrite Hp| |done]; simpl; try done.
  - split; [done..|constructor|]. intros l1 w l2 Hl. by destruct l1.
  - by rewrite length_replicate.
  - intros i t w [-> _]%lookup_replicate_1 Hs. by destruct Hs.
  - intros w Hw. by apply elem_of_nil in Hw.
  - intros i t w [-> _]%lookup_replicate_1 Hs. done.
  - by rewrite count_home.
  - split; [constructor|]. intros w Hw. by apply elem_of_nil in Hw.
Qed.

Lemma fresh_mode N i demand : (i < N)%nat → mode i (Thread Out false) [] None (fresh_ghost N demand).
Proof.
  intros Hi. split_and!; [simpl; by apply lookup_replicate_2| |done]. intros w Hw. by apply elem_of_nil in Hw.
Qed.

(** What [New] has checked of the configuration. *)
Record start_ok (e : E) (cfg : config) : Prop := {
  so_capacity : api_capacity A e = cap;
  so_empty : items e = [];
  so_receive : 1 <= maxReceiveBatch cfg;
  so_push : 1 <= maxPushBatch cfg <= 2 ^ 30;
}.

Definition start (procs : Z) (e : E) (cfg : config) (ctxs : gmap nat error) (u : U) : W :=
  World (newQueue A procs e cfg) ctxs u.

Definition start_ghost {H} (N : nat) (e : E) (ctxs : gmap nat error) (h : H) : wghost T H :=
  WGhost (fresh_ghost N (bool_decide (items e ≠ []))) (fresh_ghost N (bool_decide (len (items e) < cap))) false
    ctxs (replicate N ([], [])) h.

Definition no_queue_error (ctxs : gmap nat error) : Prop :=
  ∀ ctx err, ctxs !! ctx = Some err → errors_Is err ErrClosed = false.

Lemma concat_empty {X Y} (f : Y → list X) y n : f y = [] → concat (f <$> replicate n y) = [].
Proof. intros Hf. induction n as [|n IH]; simpl; [done|]. by rewrite Hf. Qed.

Lemma start_winv {H} (around : Around U T H) N procs e cfg ctxs u (h : H) :
  Z.of_nat N < 2 ^ 31 → start_ok e cfg → no_queue_error ctxs → xinv u ctxs false (replicate N ([], [])) h →
  winv items cap N (start procs e cfg ctxs u) (start_ghost N e ctxs h).
Proof.
  intros HN [] Hctx Hx. pose proof (fresh_cap (A := A) (items := items) (cap := cap)) as Hcap.
  split; simpl; try done; try by apply fresh_sinv.
  - rewrite so_empty0. change (len []) with 0. lia.
  - unfold settings. simpl. rewrite so_capacity0. change countMask with (2 ^ 31 - 1). split; [|done].
    destruct (singleConsumer cfg); rewrite u32_small by (unfold is_u32; lia); lia.
  - apply length_replicate.
  - exists [], []. by rewrite so_empty0, !concat_empty.
  - by rewrite so_empty0.
Qed.

(** ** Configurations nobody can leave *)

Definition waiting (p : prog W log) : bool := match result p with Some _ => false | None => true end.
Fixpoint running (ps : list (prog W log)) : Z :=
  match ps with [] => 0 | p :: ps => bit (waiting p) + running ps end.

Lemma count_running f f' ts ts' ps :
  length ts = length ps → length ts' = length ps →
  (∀ i t t' p, ts !! i = Some t → ts' !! i = Some t' → ps !! i = Some p → bit (f t) + bit (f' t') = bit (waiting p)) →
  count f ts + count f' ts' = running ps.
Proof.
  revert ts ts'. induction ps as [|p ps IH]; intros [|t ts] [|t' ts'] Hl Hl' H; simpl in *; try done.
  rewrite <- (IH ts ts'); [|lia|lia|intros i; apply (H (S i))].
  rewrite <- (H 0%nat t t' p) by done. lia.
Qed.

Lemma running_none ps : (∀ i p, ps !! i = Some p → waiting p = false) → running ps = 0.
Proof.
  induction ps as [|p ps IH]; intros H; simpl; [done|]. rewrite (H 0%nat p) by done.
  rewrite IH; [done|]. intros i. apply (H (S i)).
Qed.

Lemma count_none f ts : (∀ i t, ts !! i = Some t → f t = false) → count f ts = 0.
Proof.
  induction ts as [|t ts IH]; intros H; simpl; [done|]. rewrite (H 0%nat t) by done.
  rewrite IH; [done|]. intros i. apply (H (S i)).
Qed.

(** A goroutine with no token on a side whose mutex is free is in the list, and no poller. *)
Lemma parked_listed N i sd g x e :
  sinv N sd g → g_hold g = None → mode i (Thread (Parked x) false) [] None g →
  waiters sd !! x = Some e → w_token e = false → x ∈ g_list g.
Proof.
  intros (Hs & _) Hh (Hti & _ & _) He Ht. destruct (decide (x ∈ g_list g)) as [|Hx]; [done|].
  assert (waiters sd !! x = Some chosen) as Hc.
  { apply (sc_heap _ _ _ Hs x i (Thread (Parked x) false) chosen); [|done|].
    - apply (sc_owner _ _ _ Hs i _ x Hti). by left.
    - unfold expected, phase_of. cbn [t_place]. rewrite Hh, decide_True, decide_False by done. done. }
  by simplify_eq.
Qed.

(** Where a goroutine that cannot run stands on a side: away, or in the list and owing nothing. *)
Definition resting (i : nat) (g : ghost) (b : bool) : Prop :=
  ∃ t, g_threads g !! i = Some t ∧ t_owes t = false ∧ registered (g_list g) t = false ∧ listed (g_list g) t = b.

Lemma resting_home i W' g : mode i (Thread Out false) W' None g → resting i g false.
Proof. intros (Ht & _). by exists (Thread Out false). Qed.

Lemma resting_parked N i sd g x e :
  sinv N sd g → g_hold g = None → mode i (Thread (Parked x) false) [] None g →
  waiters sd !! x = Some e → w_token e = false → resting i g true.
Proof.
  intros Hi Hh Hm He Ht. pose proof (parked_listed _ _ _ _ _ _ Hi Hh Hm He Ht) as Hx. destruct Hm as (Hti & _).
  exists (Thread (Parked x) false). unfold registered, listed. cbn [t_place t_owes].
  rewrite bool_decide_false, bool_decide_true by naive_solver. done.
Qed.

(** A side at which everybody rests: nobody polls, and nobody is parked while there is a reason to wake. *)
Lemma side_rests N sd g :
  sinv N sd g → g_hold g = None → (∀ i, (i < N)%nat → ∃ b, resting i g b) →
  s_mu sd = false ∧ pollers (s_word sd) = 0 ∧ parked (s_word sd) = count (listed (g_list g)) (g_threads g) ∧
  (0 < parked (s_word sd) → g_demand g = false).
Proof.
  intros Hi Hh Hrest. pose proof Hi as (Hs & _ & Hcov & _). destruct (sinv_word _ _ _ Hi) as (Hcp & Hcq & Hw).
  assert (∀ i t, g_threads g !! i = Some t → t_owes t = false ∧ registered (g_list g) t = false) as Hall.
  { intros i t Ht. destruct (Hrest i) as (b & t' & Ht' & Ho & Hr & _).
    - rewrite <- (sc_threads _ _ _ Hs). by eapply lookup_lt_Some.
    - by simplify_eq. }
  assert (phase_of g = Calm) as Hph by (unfold phase_of; by rewrite Hh).
  assert (polls g = 0) as Hp. { unfold polls. rewrite Hph, count_none; [done|]. intros i t Ht. by apply (Hall i). }
  assert (parks g = count (listed (g_list g)) (g_threads g)) as Hq.
  { unfold parks. rewrite Hph, (sc_count _ _ _ Hs). simpl. lia. }
  rewrite Hw, pollers_word, parked_word by done. split_and!; [by rewrite (sc_mu _ _ _ Hs), Hh|done..|].
  intros Hpos. destruct (g_demand g) eqn:Hd; [|done]. destruct (Hcov Hd Hpos) as [?|(i & t & Ht & Ho)]; [lia|].
  destruct (Hall i t Ht). congruence.
Qed.

(** ** Every reachable configuration *)

Lemma free_side N sd g :
  sinv N sd g → s_mu sd = false → ∃ p ws c, side_at sd p ws c ∧ p + len ws <= Z.of_nat N.
Proof.
  intros Hi Hmu. pose proof Hi as (Hs & _ & _ & HN). destruct (sinv_word _ _ _ Hi) as (Hp & Hq & Hw).
  destruct (score_counts _ _ _ Hs HN) as (_ & _ & Hle).
  assert (phase_of g = Calm) as Hph.
  { unfold phase_of. pose proof (sc_mu _ _ _ Hs) as Hm. rewrite Hmu in Hm. by destruct (g_hold g). }
  assert (parks g = len (g_list g)) as Hpk by (unfold parks; rewrite Hph; simpl; lia).
  rewrite Hpk in *. exists (polls g), (g_list g), (g_closed g). split; [|rewrite Hph in Hle; simpl in Hle; lia].
  split; try done; [apply (sc_list _ _ _ Hs)|]. destruct (sc_pool _ _ _ Hs) as [Hnd Hpl].
  split; [done|]. intros x Hx. by apply Hpl.
Qed.

Lemma conf_length {S B} (c c' : conf S B) : rtc conf_step c c' → length c'.2 = length c.2.
Proof.
  induction 1 as [c|c1 c2 c3 Hst _ IH]; [done|]. rewrite IH. destruct Hst. simpl. by rewrite length_insert.
Qed.

(** Nobody is in a critical section when nobody can run. *)
Lemma nobody_holds N g :
  (∀ i, (i < N)%nat → mine i g = None) → held_in N g → g_hold g = None.
Proof.
  intros Hm Hh. destruct (g_hold g) as [[j ph]|] eqn:Eh; [|done].
  specialize (Hm j (Hh j ph Eh)). by rewrite (mine_Some j ph (g_list g)) in Hm.
Qed.

Section reach.
Context (procs : Z) (e : E) (cfg : config) (ctxs : gmap nat error) (u : U) (css : list (list call)).
Let N := length css.
Hypothesis Hstart : start_ok e cfg.
Hypothesis Hcalls : Forall (Forall call_ok) css.
Hypothesis HN : Z.of_nat N < 2 ^ 31.
Hypothesis Hctxs : no_queue_error ctxs.
Let init : conf W log := (start procs e cfg ctxs u, goroutine <$> css).

(** The contexts goroutine [i] waits with. *)
Definition uses (i ctx : nat) : Prop := ∃ cs c, css !! i = Some cs ∧ c ∈ cs ∧ call_ctx c = Some ctx.
#[local] Instance reach_around : Around U T unit := alone uses.
Definition consumer (i : nat) : bool := match css !! i with Some cs => existsb consumes cs | None => false end.

Definition home (i : nat) (r : log) (g : wghost T unit) : Prop :=
  logged i (consumer i) r g ∧ ∀ cs, css !! i = Some cs → CClose ∈ cs → gdone g = true.

Lemma reach_invariant w ps :
  rtc conf_step init (w, ps) →
  length ps = N ∧ ∃ g, winv items cap N w g ∧
    (∀ i a, ps !! i = Some (Ret a) → home i a g) ∧
    (∀ i p, ps !! i = Some p → waiting p = true → step p w = [] → waits p = true ∧ wquiet i (w, g)).
Proof.
  intros Hreach. split.
  { unfold N. rewrite <- (length_fmap goroutine css). apply (conf_length init (w, ps) Hreach). }
  destruct (safe_threads (winv (U := U) items cap N) wquiet
    (λ i a b, wrely i a.2 b.2) (λ i a b, wguar i a.2 b.2)
    (λ i (r : log) sg, home i r sg.2)) with (g := start_ghost N e ctxs tt) (c := init) (c' := (w, ps)) as (g & Hi & Hret & Hblk).
  - intros i j sg sg' Hij Hg. by apply Hg.
  - intros n. split; [by apply start_winv|]. intros i p Hp. simpl in Hp.
    apply list_lookup_fmap_Some in Hp as (cs & -> & Hcs).
    assert (i < N)%nat as Hlt by (by eapply lookup_lt_Some).
    eapply safe_post; [apply (goroutine_tri N i Hlt uses cs false False)|].
    + by eapply (Forall_lookup_1 _ _ _ _ Hcalls).
    + intros c ctx Hin Hc. by exists cs, c.
    + split; [done|]. exists ([], []), []. split_and!; try done.
      split_and!; [by apply fresh_mode|by apply fresh_mode|split; [by apply lookup_replicate_2|done]].
    + intros a sg [Hc Hg]. split; [unfold consumer; by rewrite Hcs|]. intros cs' Hcs'. simplify_eq. auto.
  - done.
  - exists g. split_and!; [done..|]. intros i p Hp Hw Hnil. apply (Hblk i p Hp); [|done].
    unfold waiting in Hw. by destruct (result p).
Qed.



Lemma stuck_resting (w : W) ps g :
  length ps = N → winv items cap N w g →
  (∀ i a, ps !! i = Some (Ret a) → home i a g) →
  (∀ i p, ps !! i = Some p → waiting p = true → wquiet i (w, g)) →
  g_hold (gc g) = None ∧ g_hold (gp g) = None ∧
  ∀ i p, ps !! i = Some p → ∃ b1 b2, resting i (gc g) b1 ∧ resting i (gp g) b2 ∧
    bit b1 + bit b2 = bit (waiting p) ∧ 
    (waiting p = true → q_done (queue w) = false ∧ ∃ ctx, uses i ctx ∧ contexts w !! ctx = None).
Proof.
  intros Hlen Hi Hret Hblk. pose proof Hi as [].
  assert (∀ i p, ps !! i = Some p → waiting p = false → ∃ L, rest i anything [] ([], L) g) as Hdone.
  { intros i p Hp Hw. destruct p as [a| | |]; simpl in Hw; try done.
    destruct (Hret i a Hp) as [(L & _ & Hg & _) _]. by exists L. }
  assert (∀ i, (i < N)%nat → mine i (gc g) = None ∧ mine i (gp g) = None) as Hmine.
  { intros i Hlt. destruct (lookup_lt_is_Some_2 ps i) as [p Hp]; [by rewrite Hlen|].
    destruct (waiting p) eqn:Hw.
    - destruct (Hblk i p Hp Hw) as (? & ? & _ & _). done.
    - destruct (Hdone i p Hp Hw) as (L & (_ & _ & ?) & (_ & _ & ?) & _). done. }
  assert (g_hold (gc g) = None) as Hc by (apply (nobody_holds N); [|apply wi_held0]; intros i Hlt; by apply Hmine).
  assert (g_hold (gp g) = None) as Hp by (apply (nobody_holds N); [|apply wi_held0]; intros i Hlt; by apply Hmine).
  split_and!; [done..|]. intros i p Hip. destruct (waiting p) eqn:Hw.
  - destruct (Hblk i p Hip Hw) as (_ & _ & _ & Hq). simpl in Hq.
    assert (s_mu (q_consumers (queue w)) = false ∧ s_mu (q_producers (queue w)) = false) as [Hm1 Hm2].
    { destruct wi_consumers0 as (Hs1 & _), wi_producers0 as (Hs2 & _).
      by rewrite (sc_mu _ _ _ Hs1), (sc_mu _ _ _ Hs2), Hc, Hp. }
    destruct Hq as [?|[?|(Hd & [[Hctx (x & q & H1 & H2 & H3 & H4)]|[Hctx (x & q & H1 & H2 & H3 & H4)]])]]; [congruence..| |].
    + exists true, false. split_and!; [by eapply resting_parked|by eapply resting_home|done..].
    + exists false, true. split_and!; [by eapply resting_home|by eapply resting_parked|done..].
  - exists false, false. destruct (Hdone i p Hip Hw) as (L & H1 & H2 & _).
    split_and!; [by eapply resting_home|by eapply resting_home|done..].
Qed.

End reach.
End live.

(** ** An ideal engine

    A bounded list whose calls are single steps: the assumptions on the engine can hold. *)
Section ideal.
Context {T : Type} (zero : T) (cap : Z).

Definition ideal_api : queue_api (list T) T := {|
  api_zero := zero;
  api_holds l _ l' := l = l' ∧ len l <= cap;
  api_same _ _ := True;
  api_capacity _ := cap;
  api_maxEnqueue _ := cap;
  api_maxDequeue _ := cap;
  api_exactEnqueue _ := true;
  api_exactDequeue _ := true;
  api_Enqueue x := act (λ l, if len l <? cap then (l ++ [x], None) else (l, Some ErrFull));
  api_Dequeue := act (λ l, match l with x :: l' => (l', (x, None)) | [] => (l, (zero, Some ErrEmpty)) end);
  api_EnqueueBulk xs := act (λ l, if len l + len xs <=? cap then (l ++ xs, (cap - len l - len xs, None))
                                  else (l, (cap - len l, Some ErrFull)));
  api_EnqueueBurst xs := act (λ l, let n := Z.min (len xs) (cap - len l) in
    (l ++ take (Z.to_nat n) xs, (n, cap - len l - n)));
  api_DequeueBulk dst := act (λ l, if len dst <=? len l
    then (drop (length dst) l, (len l - len dst, None, take (length dst) l))
    else (l, (len l, Some ErrEmpty, dst)));
  api_DequeueBurst dst := act (λ l, let n := Z.min (len dst) (len l) in
    (drop (Z.to_nat n) l, (n, len l - n, take (Z.to_nat n) l ++ drop (Z.to_nat n) dst)));
  api_Count := load len;
|}.

#[export] Instance ideal_fresh : 1 <= cap <= 2 ^ 30 → FreshEngine ideal_api id cap.
Proof.
  intros Hcap. split; [done|..].
  - intros x. eexists. split; [done|]. unfold id. intros l Hl. split; [done|].
    intros l' err Hin%list_elem_of_singleton. destruct (Z.ltb_spec (len l) cap); simplify_eq.
    + rewrite len_app. change (len [x]) with 1. split; [done|lia].
    + split; [done|lia].
  - intros xs. eexists. split; [done|]. unfold id. intros l Hl. split; [done|].
    intros l' n free [= -> -> ->]%list_elem_of_singleton. pose proof (len_nonneg xs). rewrite len_app.
    assert (len (take (Z.to_nat (Z.min (len xs) (cap - len l))) xs) <= cap - len l).
    { unfold len in *. rewrite length_take. lia. }
    split_and!; [lia..|done|lia| |].
    + intros Hz Hne%len_pos. lia.
    + intros ->. change (len []) with 0. lia.
  - eexists. split; [done|]. unfold id. intros l Hl. split; [done|].
    intros l' v err Hin%list_elem_of_singleton. by destruct l; simplify_eq.
  - intros dst. eexists. split; [done|]. unfold id. intros l Hl. split; [done|].
    intros l' n av dst' [= -> -> -> ->]%list_elem_of_singleton. pose proof (len_nonneg dst). pose proof (len_nonneg l).
    split_and!; [lia..|done|done| |].
    + intros Hz Hne%len_pos. destruct l; [done|]. unfold len in *. simpl in *. lia.
    + intros ->. change (len []) with 0. lia.
Qed.
End ideal.

(** ** Executions

    On a queue of capacity 1: a consumer that parks, and a producer that then hands it an item. *)
Definition demo_api : queue_api (list Z) Z := ideal_api 0 1.
Definition demo_cfg : config := Config false false 1 1 (Strategy 0 0 false) (Strategy 0 0 false).
Definition demo_world : world (list Z) unit := start demo_api 4 [] demo_cfg ∅ tt.
Definition demo_calls : list (list (@call Z unit)) := [[CReceive 0 [0]]; [CTryPush 7; CClose]].

#[local] Instance demo_fresh : FreshEngine demo_api id 1.
Proof. apply ideal_fresh. lia. Qed.

Lemma demo_start : start_ok demo_api id 1 [] demo_cfg.
Proof. by split; vm_compute. Qed.

Definition parked_consumer := drive 60 (goroutine demo_api 0 [CReceive 0 [0]]) demo_world.
Definition then_pushed := drive 60 (goroutine demo_api 0 [CTryPush 7; CClose]) parked_consumer.1.
Definition then_received := drive 60 parked_consumer.2 then_pushed.1.

(** The consumer waits for its item on the empty queue. *)
Lemma workq_no_lost_wakeup_parked :
  parked (s_word (q_consumers (queue parked_consumer.1))) = 1 ∧ running [parked_consumer.2] = 1 ∧
  engine (queue parked_consumer.1) = [].
Proof. by vm_compute. Qed.

#[local] Opaque drive.
Lemma demo_parks :
  rtc conf_step (demo_world, goroutine demo_api 0 <$> demo_calls)
    (parked_consumer.1, [parked_consumer.2; goroutine demo_api 0 [CTryPush 7; CClose]]).
Proof.
  exact (drive_conf 60 (goroutine demo_api 0 [CReceive 0 [0]]) demo_world
    [goroutine demo_api 0 [CReceive 0 [0]]; goroutine demo_api 0 [CTryPush 7; CClose]] 0 eq_refl).
Qed.

Lemma demo_returns :
  rtc conf_step (demo_world, goroutine demo_api 0 <$> demo_calls)
    (then_received.1, [then_received.2; then_pushed.2]).
Proof.
  etrans; [exact demo_parks|]. etrans.
  - exact (drive_conf 60 (goroutine demo_api 0 [CTryPush 7; CClose]) parked_consumer.1
      [parked_consumer.2; goroutine demo_api 0 [CTryPush 7; CClose]] 1 eq_refl).
  - exact (drive_conf 60 parked_consumer.2 then_pushed.1 [parked_consumer.2; then_pushed.2] 0 eq_refl).
Qed.
#[local] Transparent drive.

Lemma demo_stuck i p : [then_received.2; then_pushed.2] !! i = Some p → step p then_received.1 = [].
Proof.
  intros Hp%list_elem_of_lookup_2. apply elem_of_cons in Hp as [-> | Hp]; [by vm_compute|].
  apply list_elem_of_singleton in Hp as ->. by vm_compute.
Qed.

Lemma demo_results : [then_received.2; then_pushed.2] = [Ret ([], [7]); Ret ([7], [])].
Proof. by vm_compute. Qed.

Lemma demo_done : q_done (queue then_received.1) = true.
Proof. by vm_compute. Qed.



End WorkqLive.
