(* ===== verification/RunnerCore.v ===== *)
(** * The parts of the runner without shared state (src/workq/runner)

    Handler results and their validation (result.go), item outcomes and their counts, failure
    records, the summary and the error of a run (summary.go), the configuration (config.go) and the
    compaction of items that are due for a retry (retry.go). *)

From Stdlib Require Import ZArith Lia.
From stdpp Require Import prelude list strings.
From S2P Require Import Prelude Workq.

Module RunnerCore.
Import Workq.

(** The errors of package context. *)
Definition Canceled : error := New "context canceled".
Definition DeadlineExceeded : error := New "context deadline exceeded".

(** ** Results of a handler (result.go)

    [ResultState] is a [uint8]: a handler may return a value that is none of the constants. *)
Definition ResultState : Type := Z.
Definition ResultSucceeded : ResultState := 0.
Definition ResultFailed : ResultState := 1.
Definition ResultUnattempted : ResultState := 2.
Definition ResultInterrupted : ResultState := 3.

Record Result := MkResult { State : ResultState; Err : option error; peerCanceled : bool }.

Inductive TerminalState := TerminalSucceeded | TerminalFailed | TerminalAbandoned.
#[export] Instance TerminalState_eq_dec : EqDecision TerminalState.
Proof. solve_decision. Defined.

Record ItemOutcome := MkOutcome { o_State : TerminalState; o_Attempts : Z; o_Err : option error }.
Definition zero_outcome : ItemOutcome := MkOutcome TerminalSucceeded 0 None.

Definition validateResult (result : Result) (aborted : bool) : option error :=
  if State result =? ResultSucceeded then
    match Err result with
    | Some e => Some (Errorf "succeeded result has an error: %w" [] e)
    | None => None
    end
  else if State result =? ResultFailed then
    match Err result with
    | None => Some (Message "failed result has no error" [])
    | Some _ => None
    end
  else if State result =? ResultUnattempted then
    match Err result with
    | Some e => Some (Errorf "unattempted result has an error: %w" [] e)
    | None => if aborted then None else Some (Message "unattempted result without abort" [])
    end
  else if State result =? ResultInterrupted then
    if negb (peerCanceled result) || bool_decide (Err result = None)
    then Some (Message "interrupted result without observed peer cancellation" [])
    else None
  else Some (Message "unknown result state: %d" [ArgInt (State result)]).

Fixpoint validateFrom (index : Z) (results : list Result) (aborted : bool) : option error :=
  match results with
  | [] => None
  | result :: rest =>
      match validateResult result aborted with
      | Some e => Some (Errorf "runner: result %d: %w" [ArgInt index] e)
      | None => validateFrom (index + 1) rest aborted
      end
  end.

(** A nil slice of results is [None]. *)
Definition validateResults (results : option (list Result)) (count : Z) (aborted : bool) : option error :=
  match results with
  | None => None
  | Some results =>
      if negb (len results =? count) then
        Some (Message "runner: handler returned %d results for %d items" [ArgInt (len results); ArgInt count])
      else validateFrom 0 results aborted
  end.

(** ** Counts of outcomes (summary.go) *)

Record outcomeDelta := Delta { succeeded : Z; failed : Z; abandoned : Z; attempts : Z }.
Definition zero_delta : outcomeDelta := Delta 0 0 0 0.

Definition outcomeToDelta (outcome : ItemOutcome) : outcomeDelta :=
  let n := u64 (o_Attempts outcome) in
  match o_State outcome with
  | TerminalSucceeded => Delta 1 0 0 n
  | TerminalFailed => Delta 0 1 0 n
  | TerminalAbandoned => Delta 0 0 1 n
  end.

Definition delta_add (delta other : outcomeDelta) : outcomeDelta :=
  Delta (succeeded delta +64 succeeded other) (failed delta +64 failed other)
        (abandoned delta +64 abandoned other) (attempts delta +64 attempts other).

(** ** Failures and the summary of a run (summary.go) *)

Inductive FailureBoundary :=
| BoundaryHandler | BoundaryResultValidation | BoundaryQueueOperation | BoundaryRetryPolicy
| BoundaryTerminalCallback.

Record FailureRecord := Failure { Boundary : FailureBoundary; Worker : Z; f_Err : option error }.

Record Summary := MkSummary {
  Accepted : Z; Succeeded : Z; Failed : Z; Abandoned : Z; Attempts : Z;
  Failures : list FailureRecord; OmittedFailures : Z; s_AbortCause : option error }.

Definition ErrOmittedFailures : error := New "runner: additional failures omitted".

(** What [errors.Join] makes of its arguments: nil when all of them are, else the others joined.
    The error of a run is the cause of the abort, or joined failures. *)
Inductive finalError := NoError | Cause (e : error) | Joined (es : list error).

Definition errors_Join (errs : list (option error)) : finalError :=
  match omap id errs with [] => NoError | es => Joined es end.

Definition aggregateFailures (summary : Summary) : finalError :=
  if (len (Failures summary) =? 0) && (OmittedFailures summary =? 0) then
    match s_AbortCause summary with None => NoError | Some e => Cause e end
  else
    let causes := f_Err <$> Failures summary in
    errors_Join (if negb (OmittedFailures summary =? 0) then causes ++ [Some ErrOmittedFailures] else causes).

(** ** Configuration (config.go)

    [M] is the type of programs: handlers, callbacks and retry policies are code of the application. *)
Definition ErrStopped : error := New "runner: admission is stopped".
Definition ErrAborted : error := New "runner: aborted".

(** A [uint8], like [ResultState]. *)
Definition FailureMode : Type := Z.
Definition Abort : FailureMode := 0.
Definition Continue : FailureMode := 1.

Section config.
Context {T : Type} {M : Type → Type}.

(** A nil function is [None]; a [time.Duration] is in nanoseconds. *)
Record RetryPolicy := Policy { MaxAttempts : Z; Delay : option (Z → option error → M (Z * bool)) }.

Record QueueConfig := MkQueueConfig {
  MaxPushBatch : Z; MaxReceiveBatch : Z;
  ProducerWait : option WaitStrategy; ConsumerWait : option WaitStrategy }.

Record Config := MkConfig {
  Capacity : Z; Workers : Z;
  Handler : option (list T → M (option (list Result)));
  OnTerminal : option (T → ItemOutcome → M (option error));
  c_FailureMode : FailureMode;
  Retry : option RetryPolicy;
  ErrorLimit : Z;
  c_Queue : QueueConfig }.

Definition with_ErrorLimit (n : Z) (c : Config) : Config :=
  MkConfig (Capacity c) (Workers c) (Handler c) (OnTerminal c) (c_FailureMode c) (Retry c) n (c_Queue c).

(** The copies of the policy and of the wait strategies are the values themselves. *)
Definition resolveConfig (config : Config) : error + Config :=
  if Workers config <=? 0 then
    inl (Message "runner: workers must be positive: %d" [ArgInt (Workers config)])
  else match Handler config with None => inl (New "runner: handler is nil") | Some _ =>
  if negb (c_FailureMode config =? Abort) && negb (c_FailureMode config =? Continue) then
    inl (Message "runner: invalid failure mode: %d" [ArgInt (c_FailureMode config)])
  else if ErrorLimit config <? 0 then
    inl (Message "runner: negative error limit: %d" [ArgInt (ErrorLimit config)])
  else
    let config := if ErrorLimit config =? 0 then with_ErrorLimit 16 config else config in
    match Retry config with
    | Some policy =>
        if MaxAttempts policy <=? 0 then inl (New "runner: retry max attempts must be positive")
        else match Delay policy with
             | None => inl (New "runner: retry delay is nil")
             | Some _ => inr config
             end
    | None => inr config
    end
  end.

Definition queueOptions (config : Config) : list Option :=
  (if Workers config =? 1 then [WithSingleConsumer] else []) ++
  (if negb (MaxPushBatch (c_Queue config) =? 0) then [WithMaxPushBatch (MaxPushBatch (c_Queue config))] else []) ++
  (if negb (MaxReceiveBatch (c_Queue config) =? 0) then [WithMaxReceiveBatch (MaxReceiveBatch (c_Queue config))] else []) ++
  match ProducerWait (c_Queue config) with Some strategy => [WithProducerWait strategy] | None => [] end ++
  match ConsumerWait (c_Queue config) with Some strategy => [WithConsumerWait strategy] | None => [] end.
End config.
Arguments RetryPolicy : clear implicits.
Arguments Config : clear implicits.

(** ** Items held for a retry (retry.go)

    A [time.Time] is a number of nanoseconds; the zero time is 0. *)
Record retryItem := Item { i_attempts : Z; lastErr : option error; due : Z; pending : bool }.
Definition zero_item : retryItem := Item 0 None 0 false.

(** [l[i], l[j] = l[j], l[i]]. *)
Definition swap {X} (i j : nat) (l : list X) : list X :=
  match l !! i, l !! j with
  | Some x, Some y => <[j := x]> (<[i := y]> l)
  | _, _ => l
  end.

(** The [range] loop of [compactDue], at most [fuel] items from [position] on: [range] over a slice
    reads an item when its turn comes. *)
Fixpoint compactLoop {T} (fuel : nat) (position dueCount : nat) (batch : list T) (metadata : list retryItem)
    (now : Z) : nat * list T * list retryItem :=
  match fuel with
  | 0%nat => (dueCount, batch, metadata)
  | S fuel =>
      match metadata !! position with
      | None => (dueCount, batch, metadata)
      | Some item =>
          if now <? due item then compactLoop fuel (S position) dueCount batch metadata now
          else compactLoop fuel (S position) (S dueCount)
                 (swap dueCount position batch) (swap dueCount position metadata) now
      end
  end.

Definition compactDue {T} (batch : list T) (metadata : list retryItem) (now : Z) : nat * list T * list retryItem :=
  compactLoop (length metadata) 0 0 batch metadata now.
End RunnerCore.
