(* ===== verification/RunnerSpec.v ===== *)
(** * The sequential parts of the runner are correct (src/workq/runner)

    Theorems about the definitions of [RunnerCore]: due items are moved to the front without losing
    any, results are validated, the configuration is checked and completed, and the error of a run
    reports its failures. *)

From Stdlib Require Import ZArith Lia.
From stdpp Require Import prelude list strings.
From S2P Require Import Prelude Workq RunnerCore.

Module RunnerSpec.
Import Workq RunnerCore.

(** ** Compaction *)

Definition transpose (i j k : nat) : nat := if decide (k = i) then j else if decide (k = j) then i else k.

Lemma lookup_swap {X} i j (l : list X) k :
  (i < length l)%nat → (j < length l)%nat → swap i j l !! k = l !! transpose i j k.
Proof.
  intros Hi Hj. unfold swap, transpose. destruct (lookup_lt_is_Some_2 l i Hi) as [x Hx], (lookup_lt_is_Some_2 l j Hj) as [y Hy].
  rewrite Hx, Hy. destruct (decide (k = j)) as [->|Hkj].
  - rewrite list_lookup_insert_eq by (by rewrite length_insert). case_decide; congruence.
  - rewrite list_lookup_insert_ne by done. case_decide as Hki; [subst; by rewrite list_lookup_insert_eq|].
    by rewrite list_lookup_insert_ne.
Qed.

Lemma swap_length {X} i j (l : list X) : length (swap i j l) = length l.
Proof. unfold swap. repeat case_match; by rewrite ?length_insert. Qed.

Lemma swap_permutation {X} i j (l : list X) :
  (i < length l)%nat → (j < length l)%nat → swap i j l ≡ₚ l.
Proof.
  intros Hi Hj. apply Permutation_inj. split; [apply swap_length|]. exists (transpose i j). split.
  - intros k k'. unfold transpose. repeat case_decide; lia.
  - intros k. by apply lookup_swap.
Qed.

Lemma zip_swap {X Y} i j (a : list X) (b : list Y) :
  length a = length b → (i < length b)%nat → (j < length b)%nat → zip (swap i j a) (swap i j b) = swap i j (zip a b).
Proof.
  intros Hl Hi Hj. apply list_eq. intros k.
  assert (length (zip a b) = length b) as Hz by (rewrite length_zip_with; lia).
  rewrite lookup_swap by lia. rewrite !lookup_zip_with, !lookup_swap by lia. done.
Qed.

(** Where the loop of [compactDue] stands: the first [d] items are due, those up to [p] are not. *)
Record compacted (now : Z) (d p : nat) (metadata : list retryItem) : Prop := {
  cp_le : (d <= p)%nat;
  cp_due : ∀ k item, (k < d)%nat → metadata !! k = Some item → due item <= now;
  cp_late : ∀ k item, (d <= k < p)%nat → metadata !! k = Some item → now < due item;
}.

Lemma compacted_swap now d p metadata item :
  compacted now d p metadata → metadata !! p = Some item → due item <= now →
  compacted now (S d) (S p) (swap d p metadata).
Proof.
  intros [Hle Hdue Hlate] Hp Hd. pose proof (lookup_lt_Some _ _ _ Hp) as Hlt.
  split; [lia|..]; intros k it Hk; rewrite lookup_swap by lia; unfold transpose;
    repeat case_decide; subst; intros Hit; simplify_eq; try lia; [apply (Hdue k); [lia|done]|..].
  - apply (Hlate d); [lia|done].
  - apply (Hlate k); [lia|done].
Qed.

Lemma compactLoop_spec {T} fuel : ∀ p d (batch : list T) metadata now,
  length batch = length metadata → (p + fuel = length metadata)%nat → compacted now d p metadata →
  let '(d', batch', metadata') := compactLoop fuel p d batch metadata now in
  zip batch' metadata' ≡ₚ zip batch metadata ∧ length batch' = length batch ∧ length metadata' = length metadata ∧
  compacted now d' (length metadata') metadata'.
Proof.
  induction fuel as [|fuel IH]; intros p d batch metadata now Hl Hp Hc; cbn [compactLoop].
  { replace (length metadata) with p by lia. by split_and!. }
  destruct (lookup_lt_is_Some_2 metadata p) as [item Hit]; [lia|]. rewrite Hit. destruct (Z.ltb_spec now (due item)).
  - apply IH; [done|lia|]. destruct Hc as [Hle Hdue Hlate]. split; [lia|done|]. intros k it Hk Hkit.
    destruct (decide (k = p)) as [->|]; [by simplify_eq|]. apply (Hlate k); [lia|done].
  - pose proof (cp_le _ _ _ _ Hc).
    specialize (IH (S p) (S d) (swap d p batch) (swap d p metadata) now).
    destruct (compactLoop fuel (S p) (S d) _ _ _) as [[d' batch'] metadata'].
    destruct IH as (H1 & H2 & H3 & H4); [rewrite !swap_length; lia..|by eapply compacted_swap|].
    rewrite swap_length in H2. rewrite swap_length in H3. split_and!; try done. rewrite H1, zip_swap by lia. apply swap_permutation; rewrite length_zip_with; lia.
Qed.

Lemma compactDue_spec {T} (batch : list T) metadata now :
  length batch = length metadata →
  let '(d, batch', metadata') := compactDue batch metadata now in
  zip batch' metadata' ≡ₚ zip batch metadata ∧ length batch' = length batch ∧ length metadata' = length metadata ∧
  compacted now d (length metadata') metadata'.
Proof. intros Hl. apply compactLoop_spec; [done|lia|]. split; [lia|..]; intros; lia. Qed.

(** The loop keeps the due items in their order, and the items it has not reached in place. *)
Lemma compactLoop_order {T} fuel : ∀ p d (batch : list T) metadata now (done_ : list (T * retryItem)),
  length batch = length metadata → (p + fuel = length metadata)%nat → (d <= p)%nat →
  let due_now := λ x : T * retryItem, due x.2 <= now in
  take d (zip batch metadata) = done_ →
  let '(d', batch', metadata') := compactLoop fuel p d batch metadata now in
  take d' (zip batch' metadata') = done_ ++ filter due_now (drop p (zip batch metadata)).
Proof.
  induction fuel as [|fuel IH]; intros p d batch metadata now done_ Hl Hp Hle due_now Hdone; cbn [compactLoop].
  { rewrite drop_ge by (rewrite length_zip_with; lia). by rewrite app_nil_r. }
  destruct (lookup_lt_is_Some_2 metadata p) as [item Hit]; [lia|].
  destruct (lookup_lt_is_Some_2 batch p) as [x Hx]; [lia|]. rewrite Hit.
  assert (zip batch metadata !! p = Some (x, item)) as Hz by (rewrite lookup_zip_with, Hx, Hit; done).
  rewrite (drop_S _ _ _ Hz). destruct (Z.ltb_spec now (due item)) as [Hlt|Hge].
  - rewrite filter_cons_False by (unfold due_now; simpl; lia). apply IH; [done|lia|lia|done].
  - rewrite filter_cons_True by (unfold due_now; simpl; lia).
    specialize (IH (S p) (S d) (swap d p batch) (swap d p metadata) now (done_ ++ [(x, item)])).
    destruct (compactLoop fuel (S p) (S d) _ _ _) as [[d' batch'] metadata'].
    rewrite zip_swap in IH by lia. rewrite cons_middle, app_assoc, IH; [|rewrite ?swap_length; lia..|].
    + f_equal. f_equal. apply list_eq. intros k. rewrite !lookup_drop, lookup_swap by (rewrite length_zip_with; lia).
      unfold transpose. repeat case_decide; [lia|lia|done].
    + rewrite (take_S_r _ d (x, item)).
      * f_equal. rewrite <- Hdone. apply list_eq. intros k. destruct (decide (k < d)%nat) as [Hk|Hk].
        -- rewrite !lookup_take_lt, lookup_swap by (rewrite ?length_zip_with; lia). unfold transpose. repeat case_decide; [lia|lia|done].
        -- by rewrite !lookup_take_ge by lia.
      * rewrite lookup_swap by (rewrite length_zip_with; lia). unfold transpose. by rewrite decide_True.
Qed.

(** C21. [compactDue] moves the items that are due, with their metadata, to the front, in the order
    they had, returns how many they are, and keeps the others behind them: no item is lost or
    duplicated, and none is separated from its metadata. *)
Theorem compactDue_partitions {T} (batch : list T) metadata now :
  length batch = length metadata →
  let '(d, batch', metadata') := compactDue batch metadata now in
  take d (zip batch' metadata') = filter (λ x, due x.2 <= now) (zip batch metadata) ∧
  d = length (filter (λ x, due x.2 <= now) (zip batch metadata)) ∧
  drop d (zip batch' metadata') ≡ₚ filter (λ x, now < due x.2) (zip batch metadata) ∧
  length batch' = length batch ∧ length metadata' = length metadata.
Proof.
  intros Hl. pose proof (compactDue_spec batch metadata now Hl) as Hspec.
  pose proof (compactLoop_order (length metadata) 0 0 batch metadata now [] Hl ltac:(lia) ltac:(lia) ltac:(done)) as Horder.
  fold (compactDue batch metadata now) in Horder. destruct (compactDue batch metadata now) as [[d batch'] metadata'].
  destruct Hspec as (Hperm & Hb & Hm & Hc). rewrite drop_0 in Horder. cbn [app] in Horder.
  split; [done|]. split.
  { rewrite <- Horder, length_take, length_zip_with. pose proof (cp_le _ _ _ _ Hc). lia. }
  split; [|done]. apply (Permutation_app_inv_l (take d (zip batch' metadata'))). rewrite take_drop, Horder, Hperm.
  clear. induction (zip batch metadata) as [|[x it] l IH]; [done|]. rewrite !filter_cons. simpl.
  repeat case_decide; try lia; [by constructor|]. rewrite <- Permutation_middle. by constructor.
Qed.

Lemma compactDue_partitions_witness :
  compactDue [10; 20; 30] [Item 1 None 5 true; Item 1 None 9 true; Item 1 None 4 true] 6 =
    (2%nat, [10; 30; 20], [Item 1 None 5 true; Item 1 None 4 true; Item 1 None 9 true]) ∧
  take 2 (zip [10; 30; 20] [Item 1 None 5 true; Item 1 None 4 true; Item 1 None 9 true]) =
    filter (λ x, due x.2 <= 6) (zip [10; 20; 30] [Item 1 None 5 true; Item 1 None 9 true; Item 1 None 4 true]).
Proof.
  split; [by vm_compute|].
  exact (proj1 (compactDue_partitions [10; 20; 30] [Item 1 None 5 true; Item 1 None 9 true; Item 1 None 4 true] 6 eq_refl)).
Defined.

(** ** Results of a handler *)

(** What a handler may report for a position. *)
Definition valid_result (aborted : bool) (r : Result) : Prop :=
  (State r = ResultSucceeded ∧ Err r = None) ∨
  (State r = ResultFailed ∧ is_Some (Err r)) ∨
  (State r = ResultUnattempted ∧ Err r = None ∧ aborted = true) ∨
  (State r = ResultInterrupted ∧ is_Some (Err r) ∧ peerCanceled r = true).

Lemma validateResult_valid r aborted : validateResult r aborted = None ↔ valid_result aborted r.
Proof.
  unfold validateResult, valid_result, ResultSucceeded, ResultFailed, ResultUnattempted, ResultInterrupted, is_Some.
  destruct r as [s err c]. cbn [State Err peerCanceled].
  repeat match goal with |- context [?a =? ?b] => destruct (Z.eqb_spec a b) end; subst; destruct err, aborted, c; naive_solver lia.
Qed.

Lemma validateFrom_first rs : ∀ n aborted,
  match validateFrom n rs aborted with
  | None => Forall (valid_result aborted) rs
  | Some err => ∃ k r e, rs !! k = Some r ∧ ¬ valid_result aborted r ∧ Forall (valid_result aborted) (take k rs) ∧
      validateResult r aborted = Some e ∧ err = Errorf "runner: result %d: %w" [ArgInt (n + Z.of_nat k)] e
  end.
Proof.
  induction rs as [|r rs IH]; intros n aborted; cbn [validateFrom]; [done|].
  destruct (validateResult r aborted) as [e|] eqn:Hr.
  - exists 0%nat, r, e. split; [done|]. split; [rewrite <- validateResult_valid; congruence|]. split; [done|].
    split; [done|]. by rewrite Z.add_0_r.
  - apply validateResult_valid in Hr. specialize (IH (n + 1) aborted). destruct (validateFrom (n + 1) rs aborted) as [err|]; [|by constructor].
    destruct IH as (k & r' & e & Hk & Hnv & Hbefore & He & ->). exists (S k), r', e. split; [done|]. split; [done|].
    split; [by constructor|]. split; [done|]. by replace (n + 1 + Z.of_nat k) with (n + Z.of_nat (S k)) by lia.
Qed.

(** C22. A handler's response is accepted exactly when it is nil, or has one result per item, each
    of them valid: no error with a success, an error with a failure, unattempted only once the run
    is aborted, interrupted only as [PeerCanceled] makes it. A rejected response of the right length
    is reported with the position of its first invalid result. *)
Theorem validateResults_decides results count aborted :
  match validateResults results count aborted with
  | None => results = None ∨ ∃ rs, results = Some rs ∧ len rs = count ∧ Forall (valid_result aborted) rs
  | Some err => ∃ rs, results = Some rs ∧
      (len rs ≠ count ∨
       ∃ k r e, rs !! k = Some r ∧ ¬ valid_result aborted r ∧ Forall (valid_result aborted) (take k rs) ∧
         validateResult r aborted = Some e ∧ err = Errorf "runner: result %d: %w" [ArgInt (Z.of_nat k)] e)
  end.
Proof.
  destruct results as [rs|]; cbn [validateResults]; [|by left]. destruct (Z.eqb_spec (len rs) count) as [Hn|Hn]; simpl.
  - pose proof (validateFrom_first rs 0 aborted) as Hf. destruct (validateFrom 0 rs aborted) as [err|].
    + exists rs. split; [done|]. right. destruct Hf as (k & r & e & H1 & H2 & H3 & H4 & ->). by exists k, r, e.
    + right. by exists rs.
  - exists rs. split; [done|]. by left.
Qed.

(** ** The error of a run *)

Lemma omap_somes (es : list error) : omap id (Some <$> es) = es.
Proof. induction es as [|e es IH]; simpl; [done|]. f_equal. exact IH. Qed.

(** The error of a run: nil only when nothing failed and nothing aborted it, the abort cause
    when no failure was recorded, and otherwise the recorded failures in order, followed by the
    sentinel when some were omitted. *)
Lemma aggregateFailures_reports summary (es : list error) :
  f_Err <$> Failures summary = Some <$> es → 0 <= OmittedFailures summary →
  aggregateFailures summary =
    match es, bool_decide (OmittedFailures summary = 0), s_AbortCause summary with
    | [], true, None => NoError
    | [], true, Some cause => Cause cause
    | _, true, _ => Joined es
    | _, false, _ => Joined (es ++ [ErrOmittedFailures])
    end.
Proof.
  intros He Hom. unfold aggregateFailures, errors_Join.
  assert (len (Failures summary) = len es) as Hlen.
  { unfold len. rewrite <- (length_fmap f_Err), He, length_fmap. done. }
  rewrite Hlen, He. destruct es as [|e es].
  - change (len []) with 0. cbn [Z.eqb andb]. destruct (Z.eqb_spec (OmittedFailures summary) 0) as [Hz|Hz].
    + rewrite bool_decide_true by done. simpl. by destruct (s_AbortCause summary).
    + by rewrite bool_decide_false by done.
  - replace (len (e :: es) =? 0) with false by (symmetry; apply Z.eqb_neq; unfold len; simpl; lia). cbn [andb].
    destruct (Z.eqb_spec (OmittedFailures summary) 0) as [Hz|Hz]; cbn [negb].
    + rewrite bool_decide_true by done. by rewrite omap_somes.
    + rewrite bool_decide_false by done. change [Some ErrOmittedFailures] with (Some <$> [ErrOmittedFailures]).
      by rewrite <- fmap_app, omap_somes.
Qed.
End RunnerSpec.
