(* ===== verification/Runner.v ===== *)
(** * The runner (src/workq/runner)

    A runner owns a work queue, a fixed set of workers and a coordinator. Clients submit items;
    workers receive batches, call the handler, retry or finalize the items; stopping or aborting
    starts the coordinator, which joins submissions and workers, cleans up and publishes completion.

    The operations are programs on the queue's world, whose user state holds the runner: the
    lifecycle with its mutex and channels (a channel that is only closed is a flag), the accounting,
    the workers' [sync.WaitGroup], a clock for timers, and the [context.AfterFunc] registrations of
    submissions. Handlers, callbacks and retry policies are programs of the application. *)

From Stdlib Require Import ZArith Lia.
From stdpp Require Import prelude list gmap strings.
From S2P Require Import Prelude Prog RingCore RingSpec WaitSide Workq RunnerCore.

Module Runner.
Import Prog Ring RingSpec WaitSide Workq RunnerCore.

(** ** State *)

(** [mu], the flags guarded by it, the channels [admissionsDone], [aborting] and [done], the atomic
    abort record, and whether [go r.coordinate()] has run. *)
Record lifecycle := Lifecycle {
  l_mu : bool;
  stopped : bool;
  active : Z;
  admissionsDone : bool;
  coordinatorStarted : bool;
  coordinating : bool;
  abortRecord : option error;
  aborting : bool;
  l_done : bool;
  completed : bool;
  finalErr : finalError;
}.

Record accounting := Accounting {
  accepted : Z;
  workerOutcomes : list outcomeDelta;
  cleanupOutcomes : outcomeDelta;
  failures : list FailureRecord;
  omittedFailures : Z;
}.

(** A registration of [context.AfterFunc]: waiting for its context, running, finished (its [done]
    channel is closed) or stopped. *)
Inductive regState := Armed | Started | Finished | Stopped.
#[export] Instance regState_eq_dec : EqDecision regState.
Proof. solve_decision. Defined.

(** Which of the two registrations of a submission, told apart by the context it cancels. *)
Inductive regKind := Caller | AbortOf.
#[export] Instance regKind_eq_dec : EqDecision regKind.
Proof. solve_decision. Defined.
#[export] Program Instance regKind_countable : Countable regKind :=
  inj_countable' (λ k, match k with Caller => true | AbortOf => false end)
    (λ b : bool, if b then Caller else AbortOf) _.
Next Obligation. by intros []. Qed.

Record registration := Registration { r_parent : nat; r_state : regState }.

Record rstate (X : Type) := RState {
  life : lifecycle;
  acct : accounting;
  workers : Z;
  clock : Z;
  regs : gmap (nat * regKind) registration;
  causes : gmap nat error;
  app : X;
}.
Arguments RState {X} _ _ _ _ _ _ _.
Arguments life {X} _.
Arguments acct {X} _.
Arguments workers {X} _.
Arguments clock {X} _.
Arguments regs {X} _.
Arguments causes {X} _.
Arguments app {X} _.

Definition on_life {X} (f : lifecycle → lifecycle) (r : rstate X) : rstate X :=
  RState (f (life r)) (acct r) (workers r) (clock r) (regs r) (causes r) (app r).
Definition on_acct {X} (f : accounting → accounting) (r : rstate X) : rstate X :=
  RState (life r) (f (acct r)) (workers r) (clock r) (regs r) (causes r) (app r).
Definition set_workers {X} (n : Z) (r : rstate X) : rstate X :=
  RState (life r) (acct r) n (clock r) (regs r) (causes r) (app r).
Definition set_clock {X} (n : Z) (r : rstate X) : rstate X :=
  RState (life r) (acct r) (workers r) n (regs r) (causes r) (app r).
Definition set_regs {X} m (r : rstate X) : rstate X :=
  RState (life r) (acct r) (workers r) (clock r) m (causes r) (app r).
Definition set_causes {X} m (r : rstate X) : rstate X :=
  RState (life r) (acct r) (workers r) (clock r) (regs r) m (app r).
Definition set_app {X} x (r : rstate X) : rstate X :=
  RState (life r) (acct r) (workers r) (clock r) (regs r) (causes r) x.

Definition set_mu b (l : lifecycle) : lifecycle := Lifecycle b (stopped l) (active l) (admissionsDone l)
  (coordinatorStarted l) (coordinating l) (abortRecord l) (aborting l) (l_done l) (completed l) (finalErr l).
Definition set_stopped b (l : lifecycle) : lifecycle := Lifecycle (l_mu l) b (active l) (admissionsDone l)
  (coordinatorStarted l) (coordinating l) (abortRecord l) (aborting l) (l_done l) (completed l) (finalErr l).
Definition set_active n (l : lifecycle) : lifecycle := Lifecycle (l_mu l) (stopped l) n (admissionsDone l)
  (coordinatorStarted l) (coordinating l) (abortRecord l) (aborting l) (l_done l) (completed l) (finalErr l).
Definition set_admissionsDone b (l : lifecycle) : lifecycle := Lifecycle (l_mu l) (stopped l) (active l) b
  (coordinatorStarted l) (coordinating l) (abortRecord l) (aborting l) (l_done l) (completed l) (finalErr l).
Definition set_coordinatorStarted b (l : lifecycle) : lifecycle := Lifecycle (l_mu l) (stopped l) (active l)
  (admissionsDone l) b (coordinating l) (abortRecord l) (aborting l) (l_done l) (completed l) (finalErr l).
Definition set_coordinating b (l : lifecycle) : lifecycle := Lifecycle (l_mu l) (stopped l) (active l)
  (admissionsDone l) (coordinatorStarted l) b (abortRecord l) (aborting l) (l_done l) (completed l) (finalErr l).
Definition set_abortRecord r (l : lifecycle) : lifecycle := Lifecycle (l_mu l) (stopped l) (active l)
  (admissionsDone l) (coordinatorStarted l) (coordinating l) r (aborting l) (l_done l) (completed l) (finalErr l).
Definition set_aborting b (l : lifecycle) : lifecycle := Lifecycle (l_mu l) (stopped l) (active l)
  (admissionsDone l) (coordinatorStarted l) (coordinating l) (abortRecord l) b (l_done l) (completed l) (finalErr l).
Definition set_done b (l : lifecycle) : lifecycle := Lifecycle (l_mu l) (stopped l) (active l)
  (admissionsDone l) (coordinatorStarted l) (coordinating l) (abortRecord l) (aborting l) b (completed l) (finalErr l).
Definition set_completed b (l : lifecycle) : lifecycle := Lifecycle (l_mu l) (stopped l) (active l)
  (admissionsDone l) (coordinatorStarted l) (coordinating l) (abortRecord l) (aborting l) (l_done l) b (finalErr l).
Definition set_finalErr e (l : lifecycle) : lifecycle := Lifecycle (l_mu l) (stopped l) (active l)
  (admissionsDone l) (coordinatorStarted l) (coordinating l) (abortRecord l) (aborting l) (l_done l) (completed l) e.

(** [make] of an [outcomeCounters] per worker, nothing stopped, aborted or done. *)
Definition newRunnerState {X} (workerCount : Z) (x : X) : rstate X :=
  RState (Lifecycle false false 0 false false false None false false false NoError)
    (Accounting 0 (replicate (Z.to_nat workerCount) zero_delta) zero_delta [] 0)
    workerCount 0 ∅ ∅ x.

Section runner.
Context {E T X : Type} (A : queue_api E T) (zero : T).
Abbreviation W := (world E (rstate X)).
Abbreviation M := (prog W).

(** ** Access to the state *)

Definition on_user (f : rstate X → rstate X) (w : W) : W := World (queue w) (contexts w) (f (user w)).
Definition look_life {B} (get : lifecycle → B) : M B := load (λ w, get (life (user w))).
Definition edit_life (f : lifecycle → lifecycle) : M unit := modify (on_user (on_life f)).
Definition edit_acct (f : accounting → accounting) : M unit := modify (on_user (on_acct f)).

(** [close(c)] panics when the channel is closed already. *)
Definition close_channel (get : lifecycle → bool) (set : bool → lifecycle → lifecycle) : M unit :=
  access (λ w, if get (life (user w)) then None else Some (on_user (on_life (set true)) w, tt)).
(** [<-c] of a channel that only closes. *)
Definition await_channel (get : lifecycle → bool) : M unit :=
  await (λ w, if get (life (user w)) then [(w, tt)] else []).

Definition lock : M unit :=
  await (λ w, if l_mu (life (user w)) then [] else [(on_user (on_life (set_mu true)) w, tt)]).
Definition unlock : M unit :=
  access (λ w, if l_mu (life (user w)) then Some (on_user (on_life (set_mu false)) w, tt) else None).

(** A panic of the runtime, as for a nil function or an index out of range. *)
Definition panic {B} : M B := access (λ _, None).
Definition index {B} (l : list B) (i : nat) : M B :=
  match l !! i with Some x => mret x | None => panic end.

(** A [cancel] function of package context: the first call counts. *)
Definition cancelContext (ctx : nat) (err cause : error) : M unit :=
  modify (λ w, match contexts w !! ctx with
    | Some _ => w
    | None => World (queue w) (<[ctx := err]> (contexts w)) (set_causes (<[ctx := cause]> (causes (user w))) (user w))
    end).

(** [context.Cause]. *)
Definition contextCause (ctx : nat) : M (option error) :=
  load (λ w, match causes (user w) !! ctx with Some e => Some e | None => contexts w !! ctx end).

Definition now : M Z := load (λ w, clock (user w)).

(** ** Accounting (summary.go)

    A group of counters is that of a worker or that of the cleanup. *)
Definition group := option nat.

Definition on_group (c : group) (f : outcomeDelta → outcomeDelta) (a : accounting) : accounting :=
  match c with
  | Some i => Accounting (accepted a) (alter f i (workerOutcomes a)) (cleanupOutcomes a) (failures a) (omittedFailures a)
  | None => Accounting (accepted a) (workerOutcomes a) (f (cleanupOutcomes a)) (failures a) (omittedFailures a)
  end.

Definition add_succeeded n (d : outcomeDelta) := Delta (succeeded d +64 n) (failed d) (abandoned d) (attempts d).
Definition add_failed n (d : outcomeDelta) := Delta (succeeded d) (failed d +64 n) (abandoned d) (attempts d).
Definition add_abandoned n (d : outcomeDelta) := Delta (succeeded d) (failed d) (abandoned d +64 n) (attempts d).
Definition add_attempts n (d : outcomeDelta) := Delta (succeeded d) (failed d) (abandoned d) (attempts d +64 n).

Definition publish (c : group) (delta : outcomeDelta) : M unit :=
  _ ← (if negb (succeeded delta =? 0) then edit_acct (on_group c (add_succeeded (succeeded delta))) else mret tt);
  _ ← (if negb (failed delta =? 0) then edit_acct (on_group c (add_failed (failed delta))) else mret tt);
  _ ← (if negb (abandoned delta =? 0) then edit_acct (on_group c (add_abandoned (abandoned delta))) else mret tt);
  if negb (attempts delta =? 0) then edit_acct (on_group c (add_attempts (attempts delta))) else mret tt.

Definition the_group (c : group) (a : accounting) : outcomeDelta :=
  match c with
  | Some i => default zero_delta (workerOutcomes a !! i)
  | None => cleanupOutcomes a
  end.

Definition counters_snapshot (c : group) : M outcomeDelta :=
  s ← load (λ w, succeeded (the_group c (acct (user w))));
  f ← load (λ w, failed (the_group c (acct (user w))));
  a ← load (λ w, abandoned (the_group c (acct (user w))));
  n ← load (λ w, attempts (the_group c (acct (user w))));
  mret (Delta s f a n).

Definition recordAccepted (count : Z) : M unit :=
  edit_acct (λ a, Accounting (accepted a +64 count) (workerOutcomes a) (cleanupOutcomes a) (failures a) (omittedFailures a)).

(** The failures are only touched under [accounting.mu], so the critical section is one action. *)
Definition recordFailure (errorLimit : Z) (record : FailureRecord) : M unit :=
  edit_acct (λ a,
    if errorLimit <=? len (failures a) then
      Accounting (accepted a) (workerOutcomes a) (cleanupOutcomes a) (failures a) (omittedFailures a +64 1)
    else
      Accounting (accepted a) (workerOutcomes a) (cleanupOutcomes a) (failures a ++ [record]) (omittedFailures a)).

Fixpoint sum_groups (cs : list group) (total : outcomeDelta) : M outcomeDelta :=
  match cs with
  | [] => mret total
  | c :: cs => delta ← counters_snapshot c; sum_groups cs (delta_add total delta)
  end.

Definition accounting_snapshot (abortCause : option error) : M Summary :=
  n ← load (λ w, accepted (acct (user w)));
  count ← load (λ w, length (workerOutcomes (acct (user w))));
  total ← sum_groups ((Some <$> seq 0 count) ++ [None]) zero_delta;
  '(fs, omitted) ← load (λ w, (failures (acct (user w)), omittedFailures (acct (user w))));
  mret (MkSummary n (succeeded total) (failed total) (abandoned total) (attempts total) fs omitted abortCause).

(** ** The lifecycle (lifecycle.go) *)

Context (rctx : nat) (config : Config T M) (batchLimit : Z).

Definition AbortCause : M (option error) := look_life abortRecord.

Definition closeAdmissionLocked : M unit :=
  stopped_ ← look_life stopped;
  if stopped_ : bool then mret tt
  else
    _ ← edit_life (set_stopped true);
    active_ ← look_life active;
    if active_ =? 0 then close_channel admissionsDone set_admissionsDone else mret tt.

Definition startCoordinatorLocked : M unit :=
  started ← look_life coordinatorStarted;
  if started : bool then mret tt
  else
    _ ← edit_life (set_coordinatorStarted true);
    edit_life (set_coordinating true).

Definition stopAdmission : M unit :=
  _ ← lock;
  _ ← closeAdmissionLocked;
  _ ← startCoordinatorLocked;
  unlock.

(** [r.cancel()]. *)
Definition cancelRun : M unit := cancelContext rctx Canceled Canceled.

Definition abort (cause : option error) : M unit :=
  let cause := default ErrAborted cause in
  _ ← lock;
  completed_ ← look_life completed;
  if completed_ : bool then unlock
  else
    record ← look_life abortRecord;
    match record with
    | Some _ =>
        _ ← unlock;
        await_channel aborting
    | None =>
        _ ← edit_life (set_abortRecord (Some cause));
        _ ← closeAdmissionLocked;
        _ ← startCoordinatorLocked;
        _ ← unlock;
        _ ← cancelRun;
        close_channel aborting set_aborting
    end.

Definition awaitAbortPublication : M unit :=
  record ← look_life abortRecord;
  match record with
  | Some _ => await_channel aborting
  | None => mret tt
  end.

(** ** Workers (worker.go, retry.go) *)

Definition recordFailureAndAbort (boundary : FailureBoundary) (worker : Z) (err : option error) : M unit :=
  _ ← recordFailure (ErrorLimit config) (Failure boundary worker err);
  abort err.

(** The loop of [finalizeBatch] with a callback; the batch and the outcomes are cleared. *)
Fixpoint finalizeEach (callback : T → ItemOutcome → M (option error)) (worker : Z) (c : group)
    (batch : list T) (outcomes : list ItemOutcome) : M unit :=
  match batch, outcomes with
  | item :: batch, outcome :: outcomes =>
      _ ← awaitAbortPublication;
      _ ← publish c (outcomeToDelta outcome);
      err ← callback item outcome;
      _ ← match err with
          | Some e => recordFailureAndAbort BoundaryTerminalCallback worker (Some e)
          | None => mret tt
          end;
      finalizeEach callback worker c batch outcomes
  | _ :: _, [] => panic
  | [], _ => mret tt
  end.

(** The slices have the same length and are zero afterwards. *)
Definition finalizeBatch (worker : Z) (c : group) (batch : list T) (outcomes : list ItemOutcome) : M unit :=
  match OnTerminal config with
  | None =>
      _ ← awaitAbortPublication;
      publish c (foldl (λ delta outcome, delta_add delta (outcomeToDelta outcome)) zero_delta outcomes)
  | Some callback => finalizeEach callback worker c batch outcomes
  end.

Definition abandonmentError (item : retryItem) : M (option error) :=
  match lastErr item with
  | Some e => mret (Some e)
  | None => AbortCause
  end.

Definition abandonHeld (worker : Z) (c : group) (batch : list T) (metadata : list retryItem) : M unit :=
  _ ← awaitAbortPublication;
  outcomes ← collect metadata (λ item,
    err ← abandonmentError item;
    mret (MkOutcome TerminalAbandoned (i_attempts item) err));
  finalizeBatch worker c batch outcomes.

Definition classifyFailure (worker : Z) (attempts : Z) (err : option error) : M (bool * Z) :=
  let terminal_failure :=
    _ ← recordFailure (ErrorLimit config) (Failure BoundaryHandler worker err);
    _ ← (if c_FailureMode config =? Abort then abort err else mret tt);
    mret (false, 0) in
  match Retry config with
  | Some policy =>
      if attempts <? MaxAttempts policy then
        '(delay, retry) ← match Delay policy with Some f => f attempts err | None => panic end;
        if delay <? 0 then
          _ ← recordFailure (ErrorLimit config) (Failure BoundaryHandler worker err);
          _ ← recordFailureAndAbort BoundaryRetryPolicy worker
                (Some (Message "runner: retry policy returned negative delay: %s" [ArgInt delay]));
          mret (false, 0)
        else if retry : bool then
          t ← now;
          mret (true, t + delay)
        else terminal_failure
      else terminal_failure
  | None => terminal_failure
  end.

(** One position of the loop of [invokeHeld]: the metadata and the outcome of its item. *)
Definition classifyResult (worker : Z) (result : Result) (item : retryItem) : M (retryItem * ItemOutcome) :=
  let n := if negb (State result =? ResultUnattempted) then i_attempts item +i 1 else i_attempts item in
  if State result =? ResultFailed then
    '(again, when) ← classifyFailure worker n (Err result);
    mret (Item n (Err result) when again, MkOutcome TerminalFailed n (Err result))
  else
    let item := Item n (lastErr item) (due item) false in
    if (State result =? ResultUnattempted) || (State result =? ResultInterrupted) then
      err ← abandonmentError item;
      mret (item, MkOutcome TerminalAbandoned n err)
    else mret (item, MkOutcome TerminalSucceeded n None).

(** The due items of a batch with their metadata, as the handler's results classify them. *)
Fixpoint classifyResults (worker : Z) (results : list Result) (metadata : list retryItem)
    : M (list retryItem * list ItemOutcome) :=
  match metadata, results with
  | item :: metadata, result :: results =>
      '(item, outcome) ← classifyResult worker result item;
      '(metadata, outcomes) ← classifyResults worker results metadata;
      mret (item :: metadata, outcome :: outcomes)
  | _ :: _, [] => panic
  | [], _ => mret ([], [])
  end.

Definition invokeHeld (worker : Z) (batch : list T) (metadata : list retryItem)
    : M (list retryItem * list ItemOutcome) :=
  results ← match Handler config with Some handler => handler batch | None => panic end;
  cause ← AbortCause;
  match validateResults results (len batch) (bool_decide (is_Some cause)) with
  | Some err =>
      _ ← recordFailureAndAbort BoundaryResultValidation worker (Some err);
      let metadata := (λ item, Item (i_attempts item +i 1) (lastErr item) (due item) false) <$> metadata in
      mret (metadata, (λ item, MkOutcome TerminalFailed (i_attempts item) (Some err)) <$> metadata)
  | None =>
      classifyResults worker
        (match results with
         | Some results => results
         | None => replicate (length batch) (MkResult ResultSucceeded None false)
         end) metadata
  end.

(** The loop of [processHeldBatch] that finalizes and compacts: [position], [remaining], the counts
    to publish, and the three slices, of the same length. *)
Record compacting := Compacting {
  k_position : nat; k_remaining : nat; k_delta : outcomeDelta;
  k_batch : list T; k_outcomes : list ItemOutcome; k_metadata : list retryItem }.

Definition compactStep (worker : Z) (c : group) (held due_ : nat) (k : compacting)
    : M (compacting + compacting) :=
  let position := k_position k in
  if decide (held <= position)%nat then mret (inr k)
  else
    item ← index (k_batch k) position;
    meta ← index (k_metadata k) position;
    outcome ← index (k_outcomes k) position;
    if bool_decide (position < due_)%nat && negb (pending meta) then
      delta ← match OnTerminal config with
              | None => mret (delta_add (k_delta k) (outcomeToDelta outcome))
              | Some _ => _ ← finalizeBatch worker c [item] [outcome]; mret (k_delta k)
              end;
      mret (inl (Compacting (S position) (k_remaining k) delta
                   (<[position := zero]> (k_batch k)) (<[position := zero_outcome]> (k_outcomes k))
                   (<[position := zero_item]> (k_metadata k))))
    else
      mret (inl (Compacting (S position) (S (k_remaining k)) (k_delta k)
                   (<[k_remaining k := item]> (k_batch k)) (k_outcomes k)
                   (<[k_remaining k := meta]> (k_metadata k)))).

(** The [select] on the context of the run and on a timer that fires at [deadline]. *)
Definition selectTimer (deadline : Z) : M bool :=
  await (λ w, (if bool_decide (is_Some (contexts w !! rctx)) then [(w, false)] else []) ++
              (if deadline <=? clock (user w) then [(w, true)] else [])).

Definition waitForRetry (metadata : list retryItem) : M bool :=
  cause ← AbortCause;
  match cause with
  | Some _ => mret false
  | None =>
      first ← index metadata 0;
      let earliest := foldl (λ earliest item, if due item <? earliest then due item else earliest)
                        (due first) (drop 1 metadata) in
      t ← now;
      let delay := earliest - t in
      if delay <=? 0 then mret true
      else
        t ← now;
        selectTimer (t + delay)
  end.

(** [batch] and [metadata] are the held prefixes of the slices; [outcomes] is zero between rounds. *)
Definition processHeldBatch (worker : Z) (c : group) (batch : list T) : M unit :=
  loop (λ '(due_, batch, metadata),
    let held := length batch in
    if decide (held = 0)%nat then mret (inr tt)
    else
      cause ← AbortCause;
      match cause with
      | Some _ =>
          _ ← abandonHeld worker c batch metadata;
          mret (inr tt)
      | None =>
          '(front, outcomes) ← invokeHeld worker (take due_ batch) (take due_ metadata);
          let metadata := front ++ drop due_ metadata in
          let outcomes := outcomes ++ replicate (held - due_) zero_outcome in
          _ ← match OnTerminal config with None => awaitAbortPublication | Some _ => mret tt end;
          k ← loop (compactStep worker c held due_) (Compacting 0 0 zero_delta batch outcomes metadata);
          let batch := take (k_remaining k) (k_batch k) in
          let metadata := take (k_remaining k) (k_metadata k) in
          _ ← publish c (k_delta k);
          if decide (k_remaining k = 0)%nat then mret (inr tt)
          else
            again ← waitForRetry metadata;
            if again : bool then
              t ← now;
              let '(due_, batch, metadata) := compactDue batch metadata t in
              mret (inl (due_, batch, metadata))
            else
              _ ← abandonHeld worker c batch metadata;
              mret (inr tt)
      end) (length batch, batch, replicate (length batch) zero_item).

Definition handleReceiveError (worker : Z) (err : error) : M unit :=
  if errors_Is err ErrClosed then mret tt
  else
    quiet ← (if errors_Is err Canceled then
               cause ← AbortCause; mret (bool_decide (is_Some cause))
             else mret false);
    if quiet : bool then mret tt
    else recordFailureAndAbort BoundaryQueueOperation worker (Some (Errorf "runner: receive: %w" [] err)).

(** The buffer of a worker is zero again after a batch was processed. *)
Definition runWorker (i : nat) : M unit :=
  loop (λ buffer,
    cause ← AbortCause;
    match cause with
    | Some _ => mret (inr tt)
    | None =>
        '(count, err, buffer) ← Receive A zero rctx buffer;
        _ ← (if negb (count =? 0) then processHeldBatch (Z.of_nat i) (Some i) (sub buffer 0 count) else mret tt);
        let buffer := replicate (Z.to_nat count) zero ++ drop (Z.to_nat count) buffer in
        match err with
        | Some e => _ ← handleReceiveError (Z.of_nat i) e; mret (inr tt)
        | None => mret (inl buffer)
        end
    end) (replicate (Z.to_nat batchLimit) zero).

(** [r.workers.Go]: the goroutine of a worker calls [Done] when it returns. *)
Definition workerGoroutine (i : nat) : M unit :=
  _ ← runWorker i;
  access (λ w, if workers (user w) <=? 0 then None else Some (on_user (set_workers (workers (user w) - 1)) w, tt)).

Definition waitWorkers : M unit := await (λ w, if workers (user w) =? 0 then [(w, tt)] else []).

Definition cleanupQueued (background : nat) : M unit :=
  loop (λ buffer,
    '(count, err, buffer) ← Receive A zero background buffer;
    outcomes ← collect (seq 0 (Z.to_nat count)) (λ _,
      cause ← AbortCause;
      mret (MkOutcome TerminalAbandoned 0 cause));
    _ ← finalizeBatch (-1) None (sub buffer 0 count) outcomes;
    let buffer := replicate (Z.to_nat count) zero ++ drop (Z.to_nat count) buffer in
    match err with
    | Some e =>
        if errors_Is e ErrClosed then mret (inr tt)
        else _ ← recordFailureAndAbort BoundaryQueueOperation (-1) (Some e); mret (inr tt)
    | None => mret (inl buffer)
    end) (replicate (Z.to_nat batchLimit) zero).

Definition finishWorkers (background : nat) : M unit :=
  _ ← waitWorkers;
  _ ← awaitAbortPublication;
  _ ← Close;
  cause ← AbortCause;
  match cause with
  | None => mret tt
  | Some _ =>
      _ ← awaitAbortPublication;
      cleanupQueued background
  end.

Definition publishCompletion : M unit :=
  _ ← cancelRun;
  summary ← accounting_snapshot None;
  forever (
    _ ← awaitAbortPublication;
    _ ← lock;
    record ← look_life abortRecord;
    open ← match record with
           | Some _ => closed_ ← look_life aborting; mret (negb closed_)
           | None => mret false
           end;
    if open : bool then _ ← unlock; mret None
    else
      cause ← AbortCause;
      let summary := MkSummary (Accepted summary) (Succeeded summary) (Failed summary) (Abandoned summary)
        (Attempts summary) (Failures summary) (OmittedFailures summary) cause in
      _ ← edit_life (set_finalErr (aggregateFailures summary));
      _ ← edit_life (set_completed true);
      _ ← close_channel l_done set_done;
      _ ← unlock;
      mret (Some tt)).

Definition coordinate (background : nat) : M unit :=
  _ ← awaitAbortPublication;
  _ ← await_channel admissionsDone;
  _ ← awaitAbortPublication;
  record ← look_life abortRecord;
  _ ← match record with
      | Some _ => await_channel aborting
      | None => Close
      end;
  _ ← finishWorkers background;
  publishCompletion.

(** The goroutine that [startCoordinatorLocked] starts. *)
Definition coordinator (background : nat) : M unit :=
  _ ← await_channel coordinating;
  coordinate background.

(** ** Submissions (runner.go) *)

Definition registerSubmission : M bool :=
  _ ← lock;
  stopped_ ← look_life stopped;
  if stopped_ : bool then _ ← unlock; mret false
  else
    _ ← modify (on_user (on_life (λ l, set_active (active l +i 1) l)));
    _ ← unlock;
    mret true.

Definition unregisterSubmission : M unit :=
  _ ← lock;
  _ ← modify (on_user (on_life (λ l, set_active (active l -i 1) l)));
  stopped_ ← look_life stopped;
  active_ ← look_life active;
  _ ← (if (stopped_ : bool) && (active_ =? 0) then close_channel admissionsDone set_admissionsDone else mret tt);
  unlock.

Definition classifyPushError (err : option error) : M (option error) :=
  match err with
  | None => mret None
  | Some e =>
      let fail failure :=
        _ ← recordFailure (ErrorLimit config) (Failure BoundaryQueueOperation (-1) (Some failure));
        _ ← abort (Some failure);
        mret (Some failure) in
      if errors_Is e ErrClosedDuringPush then fail (Errorf "runner: queue closed during admitted push: %w" [] e)
      else if errors_Is e ErrClosed then fail (Errorf "runner: queue closed before admitted push: %w" [] e)
      else if errors_Is e Canceled || errors_Is e DeadlineExceeded then mret err
      else fail (Errorf "runner: admitted push: %w" [] e)
  end.

(** [context.AfterFunc] for the submission with context [sctx]. *)
Definition registerCancellation (parent sctx : nat) (kind : regKind) : M unit :=
  modify (on_user (λ r, set_regs (<[(sctx, kind) := Registration parent Armed]> (regs r)) r)).

(** The function of a registration, run by the runtime once its context is done. *)
Definition set_reg (key : nat * regKind) (s : regState) : M unit :=
  modify (on_user (λ r, set_regs (alter (λ g, Registration (r_parent g) s) key (regs r)) r)).

Definition fires (w : W) : list (W * (nat * regKind * nat)) :=
  omap (λ '(key, g),
    if bool_decide (r_state g = Armed) && bool_decide (is_Some (contexts w !! r_parent g)) then
      Some (on_user (λ r, set_regs (<[key := Registration (r_parent g) Started]> (regs r)) r) w, (key, r_parent g))
    else None) (map_to_list (regs (user w))).

Definition callback (sctx : nat) (kind : regKind) (parent : nat) : M unit :=
  cause ← match kind with Caller => ctxErr parent | AbortOf => mret (Some Canceled) end;
  _ ← cancelContext sctx Canceled (default Canceled cause);
  set_reg (sctx, kind) Finished.

(** A goroutine of the runtime that runs such functions, one after the other. *)
Definition afterFuncs : M unit :=
  forever (
    '(sctx, kind, parent) ← await fires;
    _ ← callback sctx kind parent;
    mret None).

(** [stop] prevents a function that has not started from running. *)
Definition stopAndJoin (sctx : nat) (kind : regKind) : M unit :=
  stopped_ ← act (λ w, match regs (user w) !! (sctx, kind) with
    | Some g => if bool_decide (r_state g = Armed)
                then (on_user (λ r, set_regs (<[(sctx, kind) := Registration (r_parent g) Stopped]> (regs r)) r) w, true)
                else (w, false)
    | None => (w, false)
    end);
  if stopped_ : bool then mret tt
  else await (λ w, match regs (user w) !! (sctx, kind) with
    | Some g => if bool_decide (r_state g = Finished) then [(w, tt)] else []
    | None => []
    end).

(** [sctx] is the context that the call creates when [ctx] can be cancelled ([ctx.Done() != nil]). *)
Definition SubmitBatch (ctx : nat) (cancellable : bool) (sctx : nat) (items : list T) : M (Z * option error) :=
  admitted ← registerSubmission;
  if negb admitted then mret (0, Some ErrStopped)
  else
    result ← (
      if len items =? 0 then mret (0, None)
      else
        err ← ctxErr ctx;
        match err with
        | Some e => mret (0, Some e)
        | None =>
            let submitCtx := if cancellable then sctx else rctx in
            _ ← (if cancellable then
                   _ ← registerCancellation ctx sctx Caller;
                   _ ← registerCancellation rctx sctx AbortOf;
                   err ← ctxErr ctx;
                   _ ← match err with Some e => cancelContext sctx Canceled e | None => mret tt end;
                   err ← ctxErr rctx;
                   match err with Some _ => cancelContext sctx Canceled Canceled | None => mret tt end
                 else mret tt);
            '(count, err) ← PushBatch A submitCtx items;
            _ ← recordAccepted (u64 count);
            err ← match err with
                  | Some e => if errors_Is e Canceled then contextCause submitCtx else mret err
                  | None => mret err
                  end;
            err ← classifyPushError err;
            _ ← (if cancellable then
                   _ ← cancelContext sctx Canceled Canceled;
                   _ ← stopAndJoin sctx AbortOf;
                   stopAndJoin sctx Caller
                 else mret tt);
            mret (count, err)
        end);
    _ ← unregisterSubmission;
    mret result.

Definition Submit (ctx : nat) (cancellable : bool) (sctx : nat) (item : T) : M (option error) :=
  '(_, err) ← SubmitBatch ctx cancellable sctx [item];
  mret err.

(** ** Calls of the owner (lifecycle.go, summary.go) *)

Definition StopAdmission : M unit := stopAdmission.

Definition AbortRun (cause : option error) : M unit := abort cause.

Definition WaitDone : M finalError :=
  _ ← await_channel l_done;
  look_life finalErr.

(** The [select] of [Shutdown]: [true] when the run is done, [false] when the grace context is. *)
Definition selectGrace (graceCtx : nat) : M bool :=
  await (λ w, (if l_done (life (user w)) then [(w, true)] else []) ++
              (if bool_decide (is_Some (contexts w !! graceCtx)) then [(w, false)] else [])).

Definition Shutdown (graceCtx : nat) : M finalError :=
  _ ← StopAdmission;
  done_ ← selectGrace graceCtx;
  _ ← (if done_ : bool then mret tt
       else err ← ctxErr graceCtx; AbortRun err);
  WaitDone.

Definition SummaryOf : M Summary :=
  cause ← AbortCause;
  accounting_snapshot cause.
End runner.
End Runner.
