(* ===== verification/RunnerGhost.v ===== *)
(** * Ghost state and invariant of a run (src/workq/runner)

    A run is a queue, [nw] workers, the coordinator, goroutines of the runtime for cancellation
    callbacks, and clients. The ghost state follows the lifecycle and who holds its mutex, who is
    publishing an abort, who is using the queue, and which items each goroutine has accounted for.
    It makes the runner an instance of the program around a queue of [WorkqConc]. *)

From Stdlib Require Import ZArith Lia.
From stdpp Require Import prelude list gmap strings.
From S2P Require Import Prelude Prog Triple RingCore RingSpec WaitSide Workq WaitConc WaitTriples WorkqConc RunnerCore Runner.

Module RunnerGhost.
Import Prog Triple Ring RingSpec WaitSide Workq WaitConc WaitTriples WorkqConc RunnerCore Runner.

(** ** Code of the application

    [app_code seen p]: [p] works on the application's state only, never blocks or panics, and leaves
    its record of finalized items as it is. *)
Inductive app_code {E T X : Type} (seen : X → list T) : ∀ {B : Type}, prog (world E (rstate X)) B → Prop :=
| app_ret B (b : B) : app_code seen (Ret b)
| app_act B C (f : world E (rstate X) → list (world E (rstate X) * C)) (k : C → prog (world E (rstate X)) B) :
    (∀ w, f w ≠ [] ∧ ∀ w' c, (w', c) ∈ f w →
       ∃ x, w' = on_user (set_app x) w ∧ seen x = seen (app (user w))) →
    (∀ c, app_code seen (k c)) → app_code seen (Act f k)
| app_loop B C I (body : I → prog (world E (rstate X)) (I + C)) j (k : C → prog (world E (rstate X)) B) :
    (∀ j, app_code seen (body j)) → (∀ c, app_code seen (k c)) → app_code seen (Loop body j k).

(** A terminal callback records its item in one step. *)
Definition records {E T X} (seen : X → list T) (item : T) (p : prog (world E (rstate X)) (option error)) : Prop :=
  ∃ f : X → X * option error,
    p = act (λ w, let '(x, r) := f (app (user w)) in (on_user (set_app x) w, r)) ∧
    ∀ x, seen (f x).1 = seen x ++ [item].

(** ** The parameters of a run *)

Class Setup (E T X : Type) : Type := {
  A : queue_api E T;
  zero : T;
  items : E → list T;
  cap : Z;
  engine_fresh :: FreshEngine A items cap;
  (** the run's context and the background context *)
  rctx : nat;
  bg : nat;
  config : Config T (prog (world E (rstate X)));
  batchLimit : Z;
  (** the goroutines: workers, one coordinator, goroutines of the runtime, clients *)
  nw : nat;
  runtimes : nat;
  N : nat;
  (** the client that creates a submission context *)
  owner : nat → nat;
  seen : X → list T;
  s_ctx : rctx ≠ bg;
  s_workers : (1 <= nw)%nat;
  s_runtimes : (1 <= runtimes)%nat;
  s_everyone : (nw + 1 + runtimes <= N)%nat;
  s_bound : Z.of_nat N < 2 ^ 31;
  s_batch : 1 <= batchLimit;
  s_handler : ∃ h, Handler config = Some h ∧ ∀ batch, app_code seen (h batch);
  s_terminal : ∀ callback, OnTerminal config = Some callback → ∀ item o, records seen item (callback item o);
  s_retry : ∀ policy, Retry config = Some policy → ∃ f, Delay policy = Some f ∧ ∀ n e, app_code seen (f n e);
}.

(** The number of [true]s. *)
Fixpoint trues (l : list bool) : Z := match l with [] => 0 | b :: l => bit b + trues l end.

Lemma trues_nonneg l : 0 <= trues l.
Proof. induction l as [|[] l IH]; simpl; lia. Qed.

Lemma trues_length l : trues l <= len l.
Proof. induction l as [|b l IH]; unfold len in *; [done|]. simpl length. destruct b; simpl; lia. Qed.

Lemma trues_upd l j b b' : l !! j = Some b → trues (<[j := b']> l) = trues l - bit b + bit b'.
Proof.
  revert j. induction l as [|c l IH]; intros [|j] Hj; simpl in *; [done..| |].
  - injection Hj as ->. lia.
  - rewrite (IH j Hj). lia.
Qed.

Lemma trues_zero l j b : trues l = 0 → l !! j = Some b → b = false.
Proof.
  revert j. induction l as [|c l IH]; intros [|j] Hz Hj; simpl in *; [done..| |].
  - injection Hj as ->. pose proof (trues_nonneg l). destruct b; simpl in *; [lia|done].
  - pose proof (trues_nonneg l). apply (IH j); [|done]. destruct c; simpl in *; lia.
Qed.

Lemma trues_none l : (∀ j b, l !! j = Some b → b = false) → trues l = 0.
Proof.
  induction l as [|c l IH]; intros Hl; simpl; [done|]. rewrite (Hl 0%nat c) by done. simpl.
  apply IH. intros j. apply (Hl (S j)).
Qed.

Section ghost.
Context {E T X : Type} `{!Setup E T X}.
Abbreviation W := (world E (rstate X)).

(** The first client, and the groups of counters the goroutines own. *)
Definition c0 : nat := (nw + 1 + runtimes)%nat.
Definition is_client (i : nat) : Prop := (c0 <= i)%nat.
Definition group_of (i : nat) : option group :=
  if decide (i < nw)%nat then Some (Some i) else if decide (i = nw) then Some None else None.

Record rghost := RGhost {
  h_life : lifecycle;
  h_acct : accounting;
  h_regs : gmap (nat * regKind) registration;
  (** the holder of the mutex, and the goroutine that has recorded an abort and not published it *)
  h_holder : option nat;
  h_pub : option nat;
  (** who uses the queue: workers and the coordinator until they are through with it, clients
      during an admitted submission *)
  h_open : list bool;
  (** the items accounted for: pushed ones that are counted as accepted, received ones of
      goroutines that are through *)
  h_logs : list (list T * list T);
  (** the items finalized *)
  h_term : list (list T);
  (** the queue was found empty when admission was over *)
  h_drained : bool;
  (** the context a goroutine waits with, and the callback a goroutine of the runtime runs *)
  h_sub : list (option nat);
  h_busy : list (option (nat * regKind));
  (** when the timer of a worker that waits for a retry fires *)
  h_due : list Z;
}.

Implicit Types (h : rghost) (l : lifecycle).

Definition clients_open h : Z := trues (drop c0 (h_open h)).
Definition workers_open h : Z := trues (take nw (h_open h)).
Definition frozen h : Prop := stopped (h_life h) = true ∧ clients_open h = 0.
Definition all_closed h : Prop := ∀ j b, h_open h !! j = Some b → b = false.
Definition aborted l : Prop := is_Some (abortRecord l).

(** Outside the critical sections of the lifecycle, and not publishing an abort. *)
Definition idle (i : nat) h : Prop := h_holder h ≠ Some i ∧ h_pub h ≠ Some i ∧ h_busy h !! i = Some None.

(** ** The lifecycle *)

(** What only happens once. *)
Definition mono l l' : Prop :=
  (stopped l = true → stopped l' = true) ∧ (admissionsDone l = true → admissionsDone l' = true) ∧
  (coordinatorStarted l = true → coordinatorStarted l' = true) ∧
  (coordinating l = true → coordinating l' = true) ∧
  (∀ e, abortRecord l = Some e → abortRecord l' = Some e) ∧ (aborting l = true → aborting l' = true) ∧
  (l_done l = true → l_done l' = true) ∧ (completed l = true → completed l' = true).

(** What the holder of the mutex finds unchanged. *)
Definition steady l l' : Prop := l' = set_aborting (aborting l') l.

#[export] Instance mono_preorder : PreOrder mono.
Proof.
  split; [by intros l; unfold mono; split_and!|].
  intros l1 l2 l3 (?&?&?&?&?&?&?&?) (?&?&?&?&?&?&?&?). unfold mono. split_and!; auto.
Qed.
#[export] Instance steady_preorder : PreOrder steady.
Proof.
  split; [by intros []|]. intros [] [] []. unfold steady, set_aborting. simpl. intros [=] [=]. by simplify_eq.
Qed.

Record linv (ctxs : gmap nat error) h : Prop := {
  li_mu : l_mu (h_life h) = bool_decide (is_Some (h_holder h));
  li_fresh : abortRecord (h_life h) = None → aborting (h_life h) = false ∧ h_pub h = None;
  li_published : aborting (h_life h) = true → is_Some (ctxs !! rctx) ∧ h_pub h = None;
  li_publisher : aborted (h_life h) → aborting (h_life h) = false → is_Some (h_pub h);
  li_active : active (h_life h) = clients_open h;
  li_admissions : admissionsDone (h_life h) = true → frozen h;
  li_coordinating : coordinating (h_life h) = true → stopped (h_life h) = true;
  li_started : coordinating (h_life h) = true → coordinatorStarted (h_life h) = true;
  li_free : h_holder h = None →
    (stopped (h_life h) = true → coordinating (h_life h) = true ∧
       (active (h_life h) = 0 → admissionsDone (h_life h) = true)) ∧
    (aborted (h_life h) → stopped (h_life h) = true) ∧
    (coordinatorStarted (h_life h) = true → coordinating (h_life h) = true) ∧
    (completed (h_life h) = true → l_done (h_life h) = true);
  li_completed : completed (h_life h) = true → all_closed h ∧ h_drained h = true;
  li_done : l_done (h_life h) = true → completed (h_life h) = true ∧
    finalErr (h_life h) = aggregateFailures (MkSummary 0 0 0 0 0 (failures (h_acct h)) (omittedFailures (h_acct h))
      (abortRecord (h_life h)));
  li_holder : ∀ j, h_holder h = Some j ∨ h_pub h = Some j → (j < N)%nat;
}.

(** ** The books *)

Definition total (d : outcomeDelta) : Z := u64 (succeeded d + failed d + abandoned d).

Record binv (x : X) (logs : list (list T * list T)) h : Prop := {
  bi_open : length (h_open h) = N;
  bi_logs : length (h_logs h) = N;
  bi_term : length (h_term h) = N;
  bi_groups : length (workerOutcomes (h_acct h)) = nw;
  (** the log of a goroutine that does not use the queue is accounted for *)
  bi_settled : ∀ j, h_open h !! j = Some false → logs !! j = h_logs h !! j;
  bi_accepted : accepted (h_acct h) = u64 (len (concat (fst <$> h_logs h)));
  (** only clients push, only workers and the coordinator receive *)
  bi_roles : ∀ j L, h_logs h !! j = Some L →
    if group_of j is Some _ then L.1 = [] else L.2 = [] ∧ ((j < c0)%nat → L.1 = []);
  bi_others : ∀ j ts, h_term h !! j = Some ts → group_of j = None → ts = [];
  (** who is through has finalized and counted what it received *)
  bi_through : ∀ j c L ts, group_of j = Some c → h_open h !! j = Some false → h_logs h !! j = Some L →
    h_term h !! j = Some ts → (OnTerminal config ≠ None → ts ≡ₚ L.2) ∧ total (the_group c (h_acct h)) = u64 (len L.2);
  bi_seen : OnTerminal config ≠ None → seen x ≡ₚ concat (h_term h);
}.

(** ** Workers and cancellation callbacks *)

Record ginv (u : rstate X) (ctxs : gmap nat error) (d : bool) h : Prop := {
  gi_workers : workers u = workers_open h;
  gi_exit : ∀ j, (j < nw)%nat → h_open h !! j = Some false → aborted (h_life h) ∨ h_drained h = true;
  gi_drained : h_drained h = true → frozen h ∧ d = false;
  gi_background : ctxs !! bg = None;
  gi_runtime : ∀ j b, (nw < j < c0)%nat → h_open h !! j = Some b → b = false;
  gi_sub : length (h_sub h) = N;
  gi_busy : length (h_busy h) = N;
  gi_due : length (h_due h) = N;
  gi_waits : ∀ j s, h_sub h !! j = Some (Some s) →
    (s = rctx ∧ j ≠ nw) ∨ (s = bg ∧ j = nw) ∨
    (is_client j ∧ owner s = j ∧ ∃ r, h_regs h !! (s, AbortOf) = Some r ∧ r_parent r = rctx ∧ r_state r ≠ Stopped);
  gi_keys : ∀ s k r, h_regs h !! (s, k) = Some r → s ≠ bg;
  gi_finished : ∀ s k r, h_regs h !! (s, k) = Some r → r_state r = Finished → is_Some (ctxs !! s);
  gi_running : ∀ s k r, h_regs h !! (s, k) = Some r → r_state r = Started →
    ∃ j, h_busy h !! j = Some (Some (s, k));
  gi_runs : ∀ j key, h_busy h !! j = Some (Some key) → (nw < j < c0)%nat;
}.

Record rinv (u : rstate X) (ctxs : gmap nat error) (d : bool) (logs : list (list T * list T)) h : Prop := {
  ri_life : life u = h_life h;
  ri_acct : acct u = h_acct h;
  ri_regs : regs u = h_regs h;
  ri_l : linv ctxs h;
  ri_b : binv (app u) logs h;
  ri_g : ginv u ctxs d h;
}.

(** ** What a goroutine relies on *)

Definition reg_rely (r r' : registration) : Prop :=
  r_parent r' = r_parent r ∧ (r_state r ≠ Stopped → r_state r' ≠ Stopped) ∧
  (r_state r ≠ Armed → r_state r' ≠ Armed) ∧ (r_state r = Finished → r_state r' = Finished).

#[export] Instance reg_rely_preorder : PreOrder reg_rely.
Proof. split; [by intros r|]. intros r1 r2 r3 (H1 & H2 & H3 & H4) (K1 & K2 & K3 & K4). split_and!; [congruence|auto..]. Qed.

Record rrely (i : nat) h h' : Prop := {
  rr_mono : mono (h_life h) (h_life h');
  rr_holder : h_holder h = Some i ↔ h_holder h' = Some i;
  rr_steady : h_holder h = Some i → steady (h_life h) (h_life h');
  rr_pub : h_pub h = Some i ↔ h_pub h' = Some i;
  rr_aborting : h_pub h = Some i → aborting (h_life h') = aborting (h_life h);
  rr_open : h_open h' !! i = h_open h !! i;
  rr_logs : h_logs h' !! i = h_logs h !! i;
  rr_term : h_term h' !! i = h_term h !! i;
  rr_sub : h_sub h' !! i = h_sub h !! i;
  rr_busy : h_busy h' !! i = h_busy h !! i;
  rr_due : h_due h' !! i = h_due h !! i;
  rr_completed : i = nw → completed (h_life h') = completed (h_life h);
  rr_group : ∀ c, group_of i = Some c → the_group c (h_acct h') = the_group c (h_acct h);
  rr_frozen : frozen h → frozen h';
  rr_drained : h_drained h = true → h_drained h' = true;
  rr_through : ∀ j, (j <= nw)%nat → h_open h !! j = Some false → h_open h' !! j = Some false;
  rr_closed : all_closed h → frozen h → all_closed h' ∧ h_acct h' = h_acct h;
  rr_regs : ∀ s k r, owner s = i → h_regs h !! (s, k) = Some r → ∃ r', h_regs h' !! (s, k) = Some r' ∧ reg_rely r r';
}.

#[export] Instance rrely_preorder i : PreOrder (rrely i).
Proof.
  split.
  - intros h. split; try done. intros s k r _ Hr. by exists r.
  - intros h1 h2 h3 [] []. split; try congruence; try (by etrans); try tauto; auto.
    + intros Hh. etrans; [by apply rr_steady0|]. apply rr_steady1. by apply rr_holder0.
    + intros Hp. rewrite rr_aborting1 by (by apply rr_pub0). auto.
    + intros Hi. rewrite rr_completed1, rr_completed0 by done. done.
    + intros c Hc. by rewrite rr_group1, rr_group0.
    + intros Hc Hf. destruct (rr_closed0 Hc Hf) as [Hc2 Ha]. rewrite <- Ha. apply rr_closed1; auto.
    + intros s k r Ho Hr. destruct (rr_regs0 s k r Ho Hr) as (r' & Hr' & Hs).
      destruct (rr_regs1 s k r' Ho Hr') as (r'' & Hr'' & Hs'). exists r''. split; [done|by etrans].
Qed.

Definition may_use (i : nat) h : Prop := h_open h !! i = Some true ∧ idle i h.

Lemma frozen_client h i : frozen h → is_client i → h_open h !! i = Some true → False.
Proof.
  intros [_ Hz] Hi Ho. unfold clients_open, is_client in *.
  assert (drop c0 (h_open h) !! (i - c0)%nat = Some true) as Hl.
  { rewrite lookup_drop. by replace (c0 + (i - c0))%nat with i by lia. }
  by apply (trues_zero _ _ _ Hz) in Hl.
Qed.

(** The runner is the program around its queue. *)
#[export] Program Instance runner_around : Around (rstate X) T rghost := {|
  xinv := rinv;
  xrely := rrely;
  xmay := may_use;
  xuses i consumer ctx h := h_sub h !! i = Some (Some ctx) ∧ consumer = bool_decide (i <= nw)%nat;
  xfrozen := frozen;
  xclosed := frozen;
  guarded := True;
|}.
Next Obligation. intros i h h' Hr. apply Hr. Qed.
Next Obligation. intros i h h' Hr. apply Hr. Qed.
Next Obligation.
  intros i u ctxs d d' logs L L' h [] [Ho _] Hlog Hd. split; try done.
  - destruct ri_b0. split; try done. intros j Hj. rewrite list_lookup_insert_ne by congruence. auto.
  - destruct ri_g0. split; try done. intros Hdr. destruct (gi_drained0 Hdr). auto.
Qed.
Next Obligation. done. Qed.
End ghost.
End RunnerGhost.
