(* ===== verification/RunnerNew.v ===== *)
(** * Building a runner (New of src/workq/runner/runner.go, src/workq/runner/adapters.go)

    [New] validates the configuration and builds the queue. The adapters turn a handler of single
    items, or of a whole batch, into the handler of a configuration. Theorems: when [New] succeeds
    and what it returns, and that the adapters answer with results the runner accepts. *)

From Stdlib Require Import ZArith Lia.
From stdpp Require Import prelude list gmap strings.
From S2P Require Import Prelude Prog RingCore RingSpec WaitSide Workq WorkqSpec WorkqEngine WaitConc WorkqConc WorkqLive RunnerCore RunnerSpec Runner RunnerGhost.

Module RunnerNew.
Import Prog Ring RingSpec WaitSide Workq WorkqSpec WorkqEngine RunnerCore RunnerSpec Runner RunnerGhost.

(** ** Adapters (adapters.go) *)

Section adapters.
Context {E T X : Type}.
Abbreviation W := (world E (rstate X)).
Abbreviation M := (prog W).

(** The result of an item; [make] leaves the positions of successes zero. *)
Definition itemResult (err : option error) : Result :=
  match err with
  | Some _ => MkResult ResultFailed err false
  | None => MkResult ResultSucceeded None false
  end.

Fixpoint itemsLoop (ctx : nat) (handler : T → M (option error)) (items : list T) : M (list Result) :=
  match items with
  | [] => mret []
  | item :: rest =>
      stop ← ctxErr ctx;
      match stop with
      | Some _ => mret (replicate (length items) (MkResult ResultUnattempted None false))
      | None =>
          err ← handler item;
          results ← itemsLoop ctx handler rest;
          mret (itemResult err :: results)
      end
  end.

(** [ctx] is the context that the runner passes to the handler. *)
Definition Items (ctx : nat) (handler : option (T → M (option error))) : option (list T → M (option (list Result))) :=
  match handler with
  | None => None
  | Some handler => Some (λ items, results ← itemsLoop ctx handler items; mret (Some results))
  end.

Definition WholeBatch (handler : option (list T → M (option error))) : option (list T → M (option (list Result))) :=
  match handler with
  | None => None
  | Some handler => Some (λ items,
      err ← handler items;
      mret match err with
           | None => None
           | Some _ => Some (replicate (length items) (MkResult ResultFailed err false))
           end)
  end.

Definition PeerCanceled (ctx : nat) : M Result :=
  err ← ctxErr ctx;
  mret (MkResult ResultInterrupted err (bool_decide (is_Some err))).

Lemma itemResult_valid aborted err : valid_result aborted (itemResult err).
Proof. destruct err as [e|]; [right; left; split; [done|by exists e]|by left]. Qed.

Lemma unattempted_valid n : Forall (valid_result true) (replicate n (MkResult ResultUnattempted None false)).
Proof. apply Forall_replicate. right. right. by left. Qed.

Lemma validateResults_ok rs count aborted :
  len rs = count → Forall (valid_result aborted) rs → validateResults (Some rs) count aborted = None.
Proof.
  intros <- HF. cbn [validateResults]. rewrite Z.eqb_refl. cbn [negb].
  pose proof (validateFrom_first rs 0 aborted) as Hf. destruct (validateFrom 0 rs aborted); [|done].
  destruct Hf as (k & r & e' & Hk & Hnv & _). destruct Hnv. by eapply Forall_lookup_1.
Qed.

Lemma itemsLoop_live ctx handler (f : T → option error) items : ∀ w,
  (∀ item v, ends (handler item) v (λ err v', err = f item ∧ contexts v' = contexts v)) →
  contexts w !! ctx = None →
  ends (itemsLoop ctx handler items) w (λ rs w', rs = itemResult ∘ f <$> items ∧ contexts w' = contexts w).
Proof.
  induction items as [|item items IH]; intros w Hh Hc; cbn [itemsLoop]; [by apply ends_ret|].
  apply ends_bind, ends_load. rewrite Hc. eapply ends_seq; [apply Hh|]. intros err w1 [-> Hw1].
  eapply ends_seq; [apply IH; [done|by rewrite Hw1]|]. intros rs w2 [-> Hw2]. apply ends_ret.
  split; [done|congruence].
Qed.


(** Adapted code of the application is code of the application: the theorems on runs apply to it. *)
Lemma app_bind (seen : X → list T) {B C} (p : M B) (k : B → M C) :
  app_code seen p → (∀ b, app_code seen (k b)) → app_code seen (p ≫= k).
Proof.
  intros Hp. revert C k. induction Hp as [B b|B C f k' Hf _ IH|B C I body j k' Hb _ _ IH]; intros D k Hk.
  - apply Hk.
  - unfold mbind, prog_bind. cbn [bind]. constructor; [done|]. intros c. by apply IH.
  - unfold mbind, prog_bind. cbn [bind]. constructor; [done|]. intros c. by apply IH.
Qed.

Lemma app_load (seen : X → list T) {B} (get : W → B) : app_code seen (load get).
Proof.
  constructor; [|intros c; constructor]. intros w. split; [done|]. intros w' c [= -> ->]%list_elem_of_singleton.
  exists (app (user w)). split; [by destruct w as [? ? []]|done].
Qed.

Lemma items_app (seen : X → list T) ctx (handler : T → M (option error)) items :
  (∀ item, app_code seen (handler item)) → app_code seen (itemsLoop ctx handler items).
Proof.
  intros Hh. induction items as [|item items IH]; cbn [itemsLoop]; [constructor|].
  apply app_bind; [apply app_load|]. intros [e|]; [constructor|].
  apply app_bind; [apply Hh|]. intros err. apply app_bind; [apply IH|]. intros rs. constructor.
Qed.
End adapters.

(** ** Construction (runner.go) *)

Section build.
Context {T X : Type} (zero : T).
Abbreviation Cfg := (Config T (prog (world (engineOf T) (rstate X)))).

Record started := MkStarted {
  r_queue : Queue (engineOf T);
  r_start : rstate X;
  r_config : Cfg;
  r_batchLimit : Z;
}.

(** [procs] is [GOMAXPROCS] and [x] the state of the application. The goroutines that [New] starts
    are those of a run. *)
Definition New (procs : Z) (config : Cfg) (x : X) : error + started :=
  match RunnerCore.resolveConfig config with
  | inl err => inl err
  | inr resolved =>
      match WorkqEngine.New zero procs (RunnerCore.Capacity resolved) (queueOptions resolved) with
      | inl err => inl err
      | inr queue => inr (MkStarted queue (newRunnerState (Workers resolved) x) resolved (q_maxReceiveBatch queue))
      end
  end.

Definition config_ok (c : Cfg) : Prop :=
  0 < Workers c ∧ is_Some (Handler c) ∧ (c_FailureMode c = Abort ∨ c_FailureMode c = Continue) ∧ 0 <= ErrorLimit c ∧
  ∀ policy, Retry c = Some policy → 0 < MaxAttempts policy ∧ is_Some (Delay policy).

(** The configuration with the default error limit. *)
Definition completed_config (c : Cfg) : Cfg := if ErrorLimit c =? 0 then with_ErrorLimit 16 c else c.

Lemma resolveConfig_decides c :
  match RunnerCore.resolveConfig c with
  | inl _ => ¬ config_ok c
  | inr c' => config_ok c ∧ c' = completed_config c
  end.
Proof.
  unfold RunnerCore.resolveConfig, config_ok. fold (completed_config c).
  assert (Retry (completed_config c) = Retry c) as -> by (unfold completed_config; by case_match).
  destruct (Z.leb_spec (Workers c) 0); [intros (? & _); lia|].
  destruct (Handler c) as [h|]; [|intros (_ & [? [=]] & _)].
  destruct (Z.eqb_spec (c_FailureMode c) Abort) as [Ha|Ha], (Z.eqb_spec (c_FailureMode c) Continue) as [Hb|Hb]; cbn [negb andb].
  4: { intros (_ & _ & [?|?] & _); done. }
  all: destruct (Z.ltb_spec (ErrorLimit c) 0); [intros (_ & _ & _ & ? & _); lia|].
  all: assert (c_FailureMode c = Abort ∨ c_FailureMode c = Continue) as Hm by (by auto).
  all: assert (is_Some (Some h)) as Hs by done.
  all: destruct (Retry c) as [policy|]; [|split; [|done]; split_and!; try done; lia].
  all: destruct (Z.leb_spec (MaxAttempts policy) 0); [intros (_ & _ & _ & _ & Hp); destruct (Hp policy eq_refl); lia|].
  all: destruct (Delay policy) as [d|] eqn:Hd; [|intros (_ & _ & _ & _ & Hp); destruct (Hp policy eq_refl) as [_ [? Hn]]; congruence].
  all: split; [|done]; split_and!; try done; try lia; intros p [= <-]; split; [lia|by rewrite Hd].
Qed.

(** The queue's settings as the configuration names them. *)
Definition queue_settings (c : Cfg) : Workq.config :=
  let batch n := if n =? 0 then Z.min defaultMaxBatch (RunnerCore.Capacity c) else n in
  Workq.Config false (Workers c =? 1) (batch (MaxPushBatch (c_Queue c))) (batch (MaxReceiveBatch (c_Queue c)))
    (default defaultConsumerWait (ConsumerWait (c_Queue c))) (default defaultProducerWait (ProducerWait (c_Queue c))).

Lemma queueOptions_settings c : configured (RunnerCore.Capacity c) (queueOptions c) = queue_settings c.
Proof.
  unfold configured, queueOptions, queue_settings. rewrite !foldl_app.
  destruct (Workers c =? 1), (MaxPushBatch (c_Queue c) =? 0), (MaxReceiveBatch (c_Queue c) =? 0),
    (ProducerWait (c_Queue c)), (ConsumerWait (c_Queue c)); done.
Qed.

Lemma completed_settings c : queue_settings (completed_config c) = queue_settings c.
Proof. unfold completed_config. by case_match. Qed.
Lemma completed_capacity c : RunnerCore.Capacity (completed_config c) = RunnerCore.Capacity c.
Proof. unfold completed_config. by case_match. Qed.

Lemma fault_batch capacity cfg : fault capacity cfg = None → 1 <= maxReceiveBatch cfg <= capacity.
Proof.
  unfold fault, engine_fault. repeat case_match; try done. intros _.
  match goal with H : _ && _ = true |- _ => apply andb_true_iff in H as [_ [? ?]%andb_true_iff] end. lia.
Qed.

(** C24. [New] returns a runner exactly when the configuration is valid and its queue settings are:
    an empty queue at rest, with the engine for one consumer when there is one worker, the batch
    limits asked for or min(32, Capacity), a batch limit for the workers between 1 and the capacity,
    a positive error limit and a set of zero counters per worker. Otherwise the configuration is
    invalid, or the error wraps the queue's sentinel of the first failing check. *)
Theorem runner_New_spec procs config x :
  match New procs config x with
  | inl err =>
      ¬ config_ok config ∨
      ∃ sentinel, fault (RunnerCore.Capacity config) (queue_settings config) = Some sentinel ∧ errors_Is err sentinel = true
  | inr r =>
      config_ok config ∧ fault (RunnerCore.Capacity config) (queue_settings config) = None ∧
      r_config r = completed_config config ∧ 0 < ErrorLimit (r_config r) ∧
      new_queue zero procs (RunnerCore.Capacity config) (queue_settings config) ∅ (r_start r) (r_queue r) ∧
      r_batchLimit r = maxReceiveBatch (queue_settings config) ∧ 1 <= r_batchLimit r <= RunnerCore.Capacity config ∧
      r_start r = newRunnerState (Workers config) x
  end.
Proof.
  unfold New. pose proof (resolveConfig_decides config) as Hc. destruct (RunnerCore.resolveConfig config) as [err|c]; [by left|].
  destruct Hc as [Hok ->]. rewrite completed_capacity.
  assert (Workers (completed_config config) = Workers config) as Hw by (unfold completed_config; by case_match). rewrite Hw.
  pose proof (New_outcome zero procs (RunnerCore.Capacity config) (queueOptions (completed_config config)) ∅
    (newRunnerState (Workers config) x)) as Hq.
  rewrite <- (completed_capacity config), queueOptions_settings, completed_settings, completed_capacity in Hq.
  destruct (WorkqEngine.New zero procs (RunnerCore.Capacity config) (queueOptions (completed_config config))) as [err|q]; [by right|].
  destruct Hq as [Hf Hq]. pose proof (fault_batch _ _ Hf) as Hb. pose proof Hq as (_ & _ & _ & Hr & _).
  cbn [r_config r_start r_queue r_batchLimit]. rewrite Hr. split; [done|]. split; [done|]. split; [done|].
  split; [|by split_and!; try lia]. destruct Hok as (_ & _ & _ & He & _).
  unfold completed_config. destruct (Z.eqb_spec (ErrorLimit config) 0); simpl; lia.
Qed.
End build.

(** ** Executions *)

Definition picky (item : Z) : prog (world (list Z) (rstate unit)) (option error) :=
  mret (if item =? 13 then Some (Prelude.New "unlucky") else None).
Definition all_or_nothing (items : list Z) : prog (world (list Z) (rstate unit)) (option error) :=
  mret (Some (Prelude.New "broken")).
Definition idle_world : world (list Z) (rstate unit) :=
  World (newQueue WorkqLive.demo_api 1 [] WorkqLive.demo_cfg) ∅ (newRunnerState 1 tt).

End RunnerNew.
