(* ===== verification/RunnerLife.v ===== *)
(** * The lifecycle of a run under every interleaving (src/workq/runner/lifecycle.go)

    Rules for the steps of a goroutine of a run, and triples for locking, stopping admission,
    aborting and waiting for the publication of an abort. *)

From Stdlib Require Import ZArith Lia.
From stdpp Require Import prelude list gmap strings.
From S2P Require Import Prelude Prog Triple RingCore RingSpec WaitSide Workq WaitConc WaitTriples WorkqConc RunnerCore Runner RunnerGhost.

Module RunnerLife.
Import Prog Triple Ring RingSpec WaitSide Workq WaitConc WaitTriples WorkqConc RunnerCore Runner RunnerGhost.

Section life.
Context {E T X : Type} `{!Setup E T X}.
Abbreviation W := (world E (rstate X)).
Abbreviation rghost := (rghost (T := T)).
Abbreviation wghost := (wghost T rghost).

(** ** Where a goroutine may be blocked *)

Inductive blocked (i : nat) (w : W) (g : wghost) : Prop :=
| on_mutex : l_mu (life (user w)) = true → blocked i w g
| on_publication : aborted (life (user w)) → aborting (life (user w)) = false → blocked i w g
| on_admissions : i = nw → coordinating (life (user w)) = true → admissionsDone (life (user w)) = false → blocked i w g
| on_workers : i = nw → workers (user w) ≠ 0 → gdone g = true ∨ aborted (life (user w)) → blocked i w g
| on_done : is_client i → h_open (gx g) !! i = Some false → l_done (life (user w)) = false → blocked i w g
| on_start : i = nw → coordinating (life (user w)) = false → blocked i w g
| on_callbacks : (nw < i < c0)%nat → fires w = [] → blocked i w g
| on_timer deadline : (i < nw)%nat → h_open (gx g) !! i = Some true → contexts w !! rctx = None →
    h_due (gx g) !! i = Some deadline → clock (user w) < deadline → blocked i w g
| on_callback s k r : is_client i → h_regs (gx g) !! (s, k) = Some r → r_state r = Started → blocked i w g.

Definition calm (i : nat) (g : wghost) : Prop :=
  mode i (Thread Out false) [] None (gc g) ∧ mode i (Thread Out false) [] None (gp g).

(** The coordinator waits for items only when the queue is closed. *)
Definition prepared (i : nat) (g : wghost) : Prop :=
  i = nw → h_sub (gx g) !! nw = Some (Some bg) → gdone g = true.

Definition rquiet (i : nat) (wg : W * wghost) : Prop :=
  (wquiet i wg ∧ prepared i wg.2) ∨ (calm i wg.2 ∧ idle i (gx wg.2) ∧ blocked i wg.1 wg.2).

Definition rguar (i : nat) (g g' : wghost) : Prop := ∀ j, j ≠ i → wrely j g g'.

#[export] Instance rguar_reflexive i : Reflexive (rguar i).
Proof. intros g j _. reflexivity. Qed.

Section one.
Context (i : nat) (i_lt : (i < N)%nat).
Abbreviation rtri := (triple (winv items cap N) (rquiet i) (wrely i) (rguar i)).
(** At home, with a log and knowledge of the run. *)
Abbreviation at_ := (λ κ L, rest i κ [] ([], L)).

(** A triple of the queue, for a goroutine that may use it. *)
Lemma from_queue_prepared {B} P (p : prog W B) Q :
  triple (winv items cap N) (wquiet i) (wrely i) (wguar i) P p Q →
  rtri (λ g, prepared i g ∧ P g) p (λ a g, prepared i g ∧ Q a g).
Proof.
  intros Hp. eapply triple_weaken; [| |eapply (triple_keep_quiet _ _ _ _ (prepared i)); [..|exact Hp]].
  - intros wg [Hq HR]. by left.
  - intros g g' (Hr & _). exact Hr.
  - intros g g' (_ & _ & Hd & _ & _ & _ & Hx) HR Hi. subst i. rewrite (rr_sub _ _ _ Hx). auto.
  - intros g g' (_ & Hd & _ & Hx) HR Hi. rewrite Hx. auto.
Qed.

Lemma from_queue {B} P (p : prog W B) Q :
  i ≠ nw → triple (winv items cap N) (wquiet i) (wrely i) (wguar i) P p Q → rtri P p Q.
Proof.
  intros Hne Hp. eapply triple_conseq; [by apply from_queue_prepared, Hp|..]; [|by intros a g [_ ?]].
  intros g Hg. split; [|done]. by intros Hi.
Qed.

(** ** Steps on the state of the run *)

Definition can_step (w : W) (g : wghost) (w' : W) (κ' : rghost → Prop) : Prop :=
  queue w' = queue w ∧ contexts w ⊆ contexts w' ∧
  (∀ ctx err, contexts w' !! ctx = Some err → errors_Is err ErrClosed = false) ∧
  ∃ h', (∀ j, j ≠ i → rrely j (gx g) h') ∧ rinv (user w') (contexts w') (g_demand (gc g)) (glogs g) h' ∧ κ' h'.

Lemma stepping (w : W) g w' κ κ' L :
  winv items cap N w g → at_ κ L g → can_step w g w' κ' →
  ∃ g', rguar i g g' ∧ winv items cap N w' g' ∧ at_ κ' L g'.
Proof.
  intros Hi (Hc & Hp & Hl & _) (Hq & Hctx & Herr & h' & Hr & Hinv & Hκ). pose proof Hi as [].
  exists (WGhost (gc g) (gp g) (gdone g) (contexts w') (glogs g) h'). split_and!.
  - intros j Hj. split_and!; simpl; try done; [by rewrite <- wi_contexts0|by apply Hr].
  - split; simpl; rewrite ?Hq; try done. intros Hcl.
    exact (rr_frozen _ _ _ (Hr (S i) ltac:(lia)) (wi_shut0 Hcl)).
  - done.
Qed.

Lemma can_step_same (w : W) g (u : rstate X) κ' h' :
  winv items cap N w g → (∀ j, j ≠ i → rrely j (gx g) h') →
  rinv u (contexts w) (g_demand (gc g)) (glogs g) h' → κ' h' →
  can_step w g (on_user (λ _, u) w) κ'.
Proof.
  intros [] Hr Hinv Hκ. split_and!; simpl; try done; [by rewrite wi_contexts0|]. by exists h'.
Qed.

Lemma act_rule {B} (f : W → W * B) F κ L (κ' : B → rghost → Prop) :
  Stable (wrely i) F → Stable (rrely i) κ → (∀ b, Stable (rrely i) (κ' b)) →
  (∀ w g, F g → at_ κ L g → winv items cap N w g → can_step w g (f w).1 (κ' (f w).2)) →
  rtri (λ g, F g ∧ at_ κ L g) (act f) (λ b, at_ (κ' b) L).
Proof.
  intros HF Hκ Hκ' Hf. apply triple_act; [stab..|]. intros w g [HFg Hg] Hi.
  exact (stepping w g _ κ _ L Hi Hg (Hf w g HFg Hg Hi)).
Qed.

Lemma access_rule {B} (f : W → option (W * B)) F κ L (κ' : B → rghost → Prop) :
  Stable (wrely i) F → Stable (rrely i) κ → (∀ b, Stable (rrely i) (κ' b)) →
  (∀ w g, F g → at_ κ L g → winv items cap N w g → ∃ w' b, f w = Some (w', b) ∧ can_step w g w' (κ' b)) →
  rtri (λ g, F g ∧ at_ κ L g) (access f) (λ b, at_ (κ' b) L).
Proof.
  intros HF Hκ Hκ' Hf. apply triple_access; [stab..|]. intros w g [HFg Hg] Hi.
  destruct (Hf w g HFg Hg Hi) as (w' & b & Hfw & Hst). destruct (stepping w g w' κ _ L Hi Hg Hst) as (g' & ? & ? & ?).
  by exists w', b, g'.
Qed.

Lemma await_rule {B} (f : W → list (W * B)) F κ L (κ' : B → rghost → Prop) :
  Stable (wrely i) F → Stable (rrely i) κ → (∀ b, Stable (rrely i) (κ' b)) → (∀ h, κ h → idle i h) →
  (∀ w g, F g → at_ κ L g → winv items cap N w g → (f w = [] → blocked i w g) ∧
     ∀ w' b, (w', b) ∈ f w → can_step w g w' (κ' b)) →
  rtri (λ g, F g ∧ at_ κ L g) (await f) (λ b, at_ (κ' b) L).
Proof.
  intros HF Hκ Hκ' Hidle Hf. apply triple_await; [stab..|]. intros w g [HFg Hg] Hi.
  destruct (Hf w g HFg Hg Hi) as [Hb Hst]. split.
  - intros Hnil. right. destruct Hg as (Hc & Hp & _ & Hk). split_and!; [done|by apply Hidle|auto].
  - intros w' b Hin. exact (stepping w g w' κ _ L Hi Hg (Hst w' b Hin)).
Qed.

(** The same without a further fact. *)
Lemma plain {B} κ L (p : prog W B) Q : rtri (λ g, True ∧ at_ κ L g) p Q → rtri (at_ κ L) p Q.
Proof. intros Hp. eapply triple_pre; [exact Hp|]. by intros g Hg. Qed.

(** Reading the state of the run. *)
Lemma look_rule {B} (get : rstate X → B) κ L (κ' : B → rghost → Prop) :
  Stable (rrely i) κ → (∀ b, Stable (rrely i) (κ' b)) →
  (∀ u ctxs d logs h, rinv u ctxs d logs h → κ h → κ' (get u) h) →
  rtri (at_ κ L) (load (λ w, get (user w))) (λ b, at_ (κ' b) L).
Proof.
  intros Hκ Hκ' Hget. apply triple_load; [stab..|]. intros w g (Hc & Hp & Hl & Hk) Hi.
  split_and!; [done|done|]. split; [done|]. eapply Hget; [apply Hi|done].
Qed.

(** Returning, and forgetting. *)
Lemma at_mono (κ κ' : rghost → Prop) L (g : wghost) : (∀ h, κ h → κ' h) → at_ κ L g → at_ κ' L g.
Proof. intros Hκ (? & ? & ? & Hk). split_and!; [done|done|]. split; [done|by apply Hκ]. Qed.

Lemma ret_rule {B} κ L (b : B) (κ' : B → rghost → Prop) :
  Stable (rrely i) κ → (∀ h, κ h → κ' b h) → rtri (at_ κ L) (mret b) (λ b, at_ (κ' b) L).
Proof. intros Hst Hκ. apply triple_ret; [stab|]. intros g. by apply at_mono. Qed.

Lemma weaken_rule {B} (κ κ1 : rghost → Prop) L (p : prog W B) Q :
  rtri (at_ κ1 L) p Q → (∀ h, κ h → κ1 h) → rtri (at_ κ L) p Q.
Proof. intros Hp Hκ. eapply triple_pre; [exact Hp|]. intros g. by apply at_mono. Qed.

(** A fact kept by all steps. *)
Lemma keep_rule {B} (R : wghost → Prop) P (p : prog W B) Q :
  Stable (wrely i) R → Stable (wrely (S i)) R →
  rtri P p Q → rtri (λ g, R g ∧ P g) p (λ a g, R g ∧ Q a g).
Proof. intros HR HR'. apply triple_keep; [exact HR|]. intros g g' Hg. apply HR', Hg. lia. Qed.

(** ** Cancelling a context *)

Lemma rinv_ctxs u ctxs ctxs' d logs h m :
  rinv u ctxs d logs h → ctxs ⊆ ctxs' → ctxs' !! bg = None → rinv (set_causes m u) ctxs' d logs h.
Proof.
  intros [] Hs Hbg. assert (∀ ctx, is_Some (ctxs !! ctx) → is_Some (ctxs' !! ctx)) as Hmore.
  { intros ctx [e He]. exists e. by eapply lookup_weaken. }
  split; try done.
  - destruct ri_l0. split; try done. intros Ha. destruct (li_published0 Ha). auto.
  - destruct ri_g0. split; try done. intros s k r Hr Hf. by apply Hmore, (gi_finished0 s k r).
Qed.

Lemma cancelContext_tri ctx err cause κ L :
  Stable (rrely i) κ → ctx ≠ bg → errors_Is err ErrClosed = false →
  rtri (at_ κ L) (cancelContext ctx err cause) (λ _ g, cancelled ctx g ∧ at_ κ L g).
Proof.
  intros Hκ Hne Herr. apply triple_act; [stab..|]. intros w g Hg Hi. simpl. pose proof Hi as [].
  destruct (contexts w !! ctx) as [e|] eqn:Hctx.
  { exists g. split_and!; [done..| |done]. exists e. by rewrite <- wi_contexts0. }
  set (w' := World _ _ _). destruct (stepping w g w' κ κ L Hi Hg) as (g' & Hr & Hi' & Hg').
  - split_and!; simpl; [done|by apply insert_subseteq|..].
    + rewrite wi_contexts0. intros c e' [[_ <-]|[_ He']]%lookup_insert_Some; [done|by eapply wi_errors0].
    + exists (gx g). split_and!; [done| |apply Hg]. apply (rinv_ctxs _ (contexts w)); [done|by apply insert_subseteq|].
      rewrite lookup_insert_ne by done. by destruct wi_user0 as [? ? ? ? ? []].
  - exists g'. split_and!; [done..| |done]. exists err. rewrite <- (wi_contexts _ _ _ _ _ Hi'). apply lookup_insert_eq.
Qed.

(** ** Steps on the lifecycle *)

Definition with_life (l : lifecycle) (hd pb : option nat) (h : rghost) : rghost :=
  RGhost l (h_acct h) (h_regs h) hd pb (h_open h) (h_logs h) (h_term h) (h_drained h) (h_sub h) (h_busy h) (h_due h).

(** What such a step of [i] may do to the mutex, to the publisher and to the flags. *)
Definition life_ok (h : rghost) (l : lifecycle) (hd pb : option nat) : Prop :=
  mono (h_life h) l ∧ completed l = completed (h_life h) ∧
  (∀ j, j ≠ i → (h_holder h = Some j ↔ hd = Some j) ∧ (h_holder h = Some j → steady (h_life h) l) ∧
                (h_pub h = Some j ↔ pb = Some j) ∧ (h_pub h = Some j → aborting l = aborting (h_life h))).

Lemma life_rely h l hd pb j : life_ok h l hd pb → j ≠ i → rrely j h (with_life l hd pb h).
Proof.
  intros (Hm & Hcp & Hj) Hne. destruct (Hj j Hne) as (H1 & H2 & H3 & H4). split; try done.
  - intros [Hs Hc]. split; [by apply Hm|done].
  - intros s k r _ Hr. by exists r.
Qed.

Lemma life_rinv u ctxs d logs h l hd pb :
  rinv u ctxs d logs h → mono (h_life h) l → linv ctxs (with_life l hd pb h) →
  rinv (on_life (λ _, l) u) ctxs d logs (with_life l hd pb h).
Proof.
  intros [] Hm Hl. split; try done.
  - by destruct ri_b0.
  - destruct ri_g0. split; try done; simpl.
    + intros j Hj Ho. destruct (gi_exit0 j Hj Ho) as [[e He]|?]; [left; exists e; by apply Hm|by right].
    + intros Hd. destruct (gi_drained0 Hd) as [[Hs Hc] ?]. split; [split; [by apply Hm|done]|done].
Qed.

Lemma can_life (w : W) g l hd pb κ' :
  winv items cap N w g → life_ok (gx g) l hd pb → linv (contexts w) (with_life l hd pb (gx g)) →
  κ' (with_life l hd pb (gx g)) → can_step w g (on_user (on_life (λ _, l)) w) κ'.
Proof.
  intros Hi Hok Hl Hκ. apply (can_step_same w g _ _ (with_life l hd pb (gx g)) Hi); [|by apply life_rinv; [apply Hi|apply Hok|]|done].
  intros j Hj. by apply life_rely.
Qed.

(** Knowledge that the goroutine's own administrative steps keep: on the lifecycle and on the
    recorded failures. *)
Definition admin (h h' : rghost) : Prop :=
  mono (h_life h) (h_life h') ∧ completed (h_life h') = completed (h_life h) ∧ h_open h' = h_open h ∧ h_logs h' = h_logs h ∧ h_term h' = h_term h ∧
  h_sub h' = h_sub h ∧ h_busy h' = h_busy h ∧ h_regs h' = h_regs h ∧ h_drained h' = h_drained h ∧
  accepted (h_acct h') = accepted (h_acct h) ∧ workerOutcomes (h_acct h') = workerOutcomes (h_acct h) ∧
  cleanupOutcomes (h_acct h') = cleanupOutcomes (h_acct h) ∧ (all_closed h → h_acct h' = h_acct h).

(** In the critical section, knowing [F] of the lifecycle, and publishing an abort or not. *)
Definition holding (publishes : bool) (h : rghost) : Prop :=
  h_holder h = Some i ∧ (if publishes then h_pub h = Some i else h_pub h ≠ Some i) ∧ h_busy h !! i = Some None.

Definition inside (publishes : bool) (F : lifecycle → Prop) (κ : rghost → Prop) (h : rghost) : Prop :=
  holding publishes h ∧ F (h_life h) ∧ κ h.

(** [F] does not look at [aborting], which changes without the mutex. *)
Class Insensitive (F : lifecycle → Prop) : Prop := insensitive l b : F l → F (set_aborting b l).
Hint Extern 5 (Insensitive _) => (intros ? ? ?; assumption) : typeclass_instances.

#[export] Instance inside_stable p F κ :
  Insensitive F → Stable (rrely i) κ → Stable (rrely i) (inside p F κ).
Proof.
  intros HF Hκ h h' Hr ((Hh & Hp & Hb) & HFl & Hk). pose proof Hr as []. split_and!; [split_and!| |].
  - by apply rr_holder0.
  - destruct p; [by apply rr_pub0|]. intros Hp'. by apply Hp, rr_pub0.
  - by rewrite rr_busy0.
  - rewrite (rr_steady0 Hh). by apply HF.
  - by eapply Hκ.
Qed.

#[export] Instance idle_stable : Stable (rrely i) (idle i).
Proof.
  intros h h' [] (H1 & H2 & H3). split_and!; [by rewrite <- rr_holder0|by rewrite <- rr_pub0|by rewrite rr_busy0].
Qed.

(** What holds of the lifecycle when the mutex is free. *)
Definition quiescent (l : lifecycle) : Prop :=
  (stopped l = true → coordinating l = true ∧ (active l = 0 → admissionsDone l = true)) ∧
  (aborted l → stopped l = true) ∧ (coordinatorStarted l = true → coordinating l = true) ∧
  (completed l = true → l_done l = true).

#[export] Instance quiescent_insensitive : Insensitive quiescent.
Proof. by intros [] b. Qed.

(** ** Critical sections *)

Lemma can_life_by (f : lifecycle → lifecycle) (w : W) g hd pb κ' :
  winv items cap N w g → life_ok (gx g) (f (h_life (gx g))) hd pb →
  linv (contexts w) (with_life (f (h_life (gx g))) hd pb (gx g)) →
  κ' (with_life (f (h_life (gx g))) hd pb (gx g)) → can_step w g (on_user (on_life f) w) κ'.
Proof.
  intros Hi Hok Hl Hκ. pose proof (ri_life _ _ _ _ _ (wi_user _ _ _ _ _ Hi)) as He.
  replace (on_user (on_life f) w) with (on_user (on_life (λ _, f (h_life (gx g)))) w)
    by (unfold on_user, on_life; by rewrite He). by apply (can_life _ _ _ hd pb).
Qed.

Lemma admin_life l hd pb h :
  mono (h_life h) l → completed l = completed (h_life h) → admin h (with_life l hd pb h).
Proof. intros Hm Hc. by split_and!. Qed.

Lemma holder_only h l hd pb :
  (h_holder h = Some i ∨ h_holder h = None) → (hd = Some i ∨ hd = None) → mono (h_life h) l → completed l = completed (h_life h) →
  (∀ j, j ≠ i → (h_pub h = Some j ↔ pb = Some j) ∧ (h_pub h = Some j → aborting l = aborting (h_life h))) →
  life_ok h l hd pb.
Proof.
  intros Hh Hd Hm Hcp Hp. split; [done|]. split; [done|]. intros j Hj. destruct (Hp j Hj). split_and!; try done; [|].
  - split; intros Heq; destruct Hh, Hd; congruence.
  - intros Heq. destruct Hh; congruence.
Qed.

Section critical.
Context (κ : rghost → Prop) {κ_rely : Stable (rrely i) κ} {κ_admin : Stable admin κ} (L : list T * list T).

Lemma lock_tri : rtri (at_ (λ h, idle i h ∧ κ h) L) lock (λ _, at_ (inside false quiescent κ) L).
Proof.
  apply plain, await_rule; [stab..|by intros h [? _]|]. intros w g _ (_ & _ & _ & (Hh & Hp & Hb) & Hk) Hi.
  pose proof (wi_user _ _ _ _ _ Hi) as Hr. pose proof (ri_life _ _ _ _ _ Hr) as He.
  destruct (l_mu (life (user w))) eqn:Hmu.
  { split; [intros _; by apply on_mutex|]. intros w' b Hin. by apply elem_of_nil in Hin. }
  split; [done|]. intros w' b [= -> ->]%list_elem_of_singleton. pose proof (ri_l _ _ _ _ _ Hr) as Hl.
  assert (h_holder (gx g) = None) as Hfree.
  { pose proof (li_mu _ _ Hl) as Hm. rewrite <- He, Hmu in Hm. symmetry in Hm. apply bool_decide_eq_false in Hm.
    by apply eq_None_not_Some. }
  apply (can_life_by _ w g (Some i) (h_pub (gx g)) _ Hi).
  - apply holder_only; [by right|by left|by destruct (h_life (gx g))|done|done].
  - destruct Hl. split; simpl; try done. intros j [[= <-]|Hj]; [done|]. apply li_holder0. by right.
  - split_and!; [by split_and!| |].
    + pose proof (li_free _ _ Hl Hfree). by destruct (h_life (gx g)).
    + eapply (stable_rely (rely := admin)); [|exact Hk]. by apply admin_life; [destruct (h_life (gx g))|].
Qed.

Lemma unlock_tri p (F : lifecycle → Prop) :
  Insensitive F → (∀ l, F l → quiescent l) →
  rtri (at_ (inside p F κ) L) unlock
    (λ _, at_ (λ h, (h_holder h ≠ Some i ∧ (if p then h_pub h = Some i else h_pub h ≠ Some i) ∧ h_busy h !! i = Some None) ∧ κ h) L).
Proof.
  intros HF HQ. apply plain, access_rule; [stab..| |].
  { intros _ h h' Hr [(H1 & H2 & H3) Hk]. pose proof (κ_rely _ _ Hr Hk). destruct Hr. split; [|done].
    split_and!; [by rewrite <- rr_holder0|destruct p; [by apply rr_pub0|by rewrite <- rr_pub0]|by rewrite rr_busy0]. }
  intros w g _ (_ & _ & _ & (Hh & Hp & Hb) & HFl & Hk) Hi.
  pose proof (wi_user _ _ _ _ _ Hi) as Hr. pose proof (ri_life _ _ _ _ _ Hr) as He. pose proof (ri_l _ _ _ _ _ Hr) as Hl.
  pose proof (li_mu _ _ Hl) as Hmu. rewrite Hh, bool_decide_true in Hmu by done. rewrite He, Hmu.
  eexists _, _. split; [done|]. apply (can_life_by _ w g None (h_pub (gx g)) _ Hi).
  - apply holder_only; [by left|by right|by destruct (h_life (gx g))|done|done].
  - pose proof (HQ _ HFl) as Hq. destruct Hl. split; simpl; try done. intros j [?|Hj]; [done|]. apply li_holder0. by right.
  - split; [by split_and!|]. eapply (stable_rely (rely := admin)); [|exact Hk]. by apply admin_life; [destruct (h_life (gx g))|].
Qed.

(** Reading a field in the critical section. *)
Lemma look_inside_tri {B} (get : lifecycle → B) p F :
  (∀ l b, get (set_aborting b l) = get l) → Insensitive F →
  rtri (at_ (inside p F κ) L) (look_life get) (λ b, at_ (inside p (λ l, F l ∧ get l = b) κ) L).
Proof.
  intros Hget HF. apply (look_rule (λ u, get (life u)) (inside p F κ) L (λ b, inside p (λ l, F l ∧ get l = b) κ)).
  - apply _.
  - intros b. apply inside_stable; [|done]. intros l c [HFl <-]. split; [by apply HF|apply Hget].
  - intros u ctxs d logs h Hr (Hh & HFl & Hk). split_and!; try done. by rewrite (ri_life _ _ _ _ _ Hr).
Qed.

(** Writing one: what the invariant needs. *)
Definition keeps (p : bool) (f : lifecycle → lifecycle) (F F' : lifecycle → Prop) : Prop :=
  ∀ ctxs h, linv ctxs h → holding p h → F (h_life h) → κ h →
    F' (f (h_life h)) ∧ mono (h_life h) (f (h_life h)) ∧ aborting (f (h_life h)) = aborting (h_life h) ∧
    completed (f (h_life h)) = completed (h_life h) ∧ linv ctxs (with_life (f (h_life h)) (h_holder h) (h_pub h) h).

Lemma can_edit (f : lifecycle → lifecycle) p F F' (w : W) g :
  keeps p f F F' → inside p F κ (gx g) → winv items cap N w g →
  can_step w g (on_user (on_life f) w) (inside p F' κ).
Proof.
  intros Hf (Hh & HFl & Hk) Hi. pose proof (wi_user _ _ _ _ _ Hi) as Hr. pose proof (ri_l _ _ _ _ _ Hr) as Hl.
  destruct (Hf _ _ Hl Hh HFl Hk) as (HF' & Hm & Ha & Hcp & Hl'). pose proof Hh as (Hh1 & _).
  apply (can_life_by _ w g (h_holder (gx g)) (h_pub (gx g)) _ Hi); [|done|].
  - apply holder_only; [by left|by left|done..].
  - split_and!; [done..|]. eapply (stable_rely (rely := admin)); [|exact Hk]. by apply admin_life.
Qed.

Lemma edit_tri (f : lifecycle → lifecycle) p F F' :
  Insensitive F → Insensitive F' → keeps p f F F' →
  rtri (at_ (inside p F κ) L) (edit_life f) (λ _, at_ (inside p F' κ) L).
Proof.
  intros HF HF' Hf. apply plain, act_rule; [stab..|]. intros w g _ (_ & _ & _ & Hin) Hi. by apply (can_edit f p F F').
Qed.

Lemma closeChannel_tri get set p F F' :
  Insensitive F → Insensitive F' → (∀ ctxs h, linv ctxs h → F (h_life h) → κ h → get (h_life h) = false) → keeps p (set true) F F' →
  rtri (at_ (inside p F κ) L) (close_channel get set) (λ _, at_ (inside p F' κ) L).
Proof.
  intros HF HF' Hopen Hf. apply plain, access_rule; [stab..|]. intros w g _ (_ & _ & _ & Hin) Hi.
  pose proof (wi_user _ _ _ _ _ Hi) as Hr. pose proof Hin as (_ & HFl & Hk).
  rewrite (ri_life _ _ _ _ _ Hr), (Hopen _ _ (ri_l _ _ _ _ _ Hr) HFl Hk). eexists _, _. split; [done|]. by apply (can_edit _ p F F').
Qed.

(** *** Stopping admission *)

(** Admission is open or properly closed; it is being closed by this goroutine. *)
Definition opening (l : lifecycle) : Prop :=
  (stopped l = true → coordinating l = true ∧ (active l = 0 → admissionsDone l = true)) ∧
  (coordinatorStarted l = true → coordinating l = true) ∧ (completed l = true → l_done l = true).
Definition closing (l : lifecycle) : Prop :=
  stopped l = true ∧ (active l = 0 → admissionsDone l = true) ∧
  (coordinatorStarted l = true → coordinating l = true) ∧ (completed l = true → l_done l = true).

Lemma closeAdmissionLocked_tri p :
  rtri (at_ (inside p opening κ) L) closeAdmissionLocked (λ _, at_ (inside p closing κ) L).
Proof.
  tri_seq by (apply look_inside_tri; [done|apply _]). intros [|].
  { apply (ret_rule _ _ _ (λ _, inside p closing κ)); [apply _|]. intros h (Hh & [(Ho & ? & ?) Hs] & Hk). split_and!; try done.
    split_and!; try done. by apply Ho. }
  set (mid l := stopped l = true ∧ admissionsDone l = false ∧ (coordinatorStarted l = true → coordinating l = true) ∧
    (completed l = true → l_done l = true)).
  tri_mid (λ _ : unit, at_ (inside p mid κ) L).
  { apply edit_tri; [apply _..|]. intros ctxs h [] (Hh & _) [(Ho & ? & ?) Hs] _.
    assert (admissionsDone (h_life h) = false) as Had.
    { destruct (admissionsDone (h_life h)); [|done]. destruct li_admissions0; [done|congruence]. }
    split_and!; try done. split; simpl; try done; congruence. }
  intros _. tri_seq by (apply look_inside_tri; [done|apply _]). intros n. destruct (Z.eqb_spec n 0) as [->|Hn].
  - apply closeChannel_tri; [apply _..|by intros ctxs h _ [(_ & ? & _) _]|].
    intros ctxs h [] (Hh & _) [(Hs & Had & ? & ?) Hz] _. split_and!; try done. split; simpl; try done; try congruence.
    intros _. split; [done|]. exact (eq_trans (eq_sym li_active0) Hz).
  - apply (ret_rule _ _ _ (λ _, inside p closing κ)); [apply _|]. intros h (Hh & [(? & ? & ? & ?) Hs] & Hk). split_and!; try done.
    split_and!; try done. congruence.
Qed.

(** Stopped, and the coordinator is on its way. *)
Definition stopping (l : lifecycle) : Prop := quiescent l ∧ stopped l = true.

Lemma startCoordinatorLocked_tri p :
  rtri (at_ (inside p closing κ) L) startCoordinatorLocked (λ _, at_ (inside p stopping κ) L).
Proof.
  tri_seq by (apply look_inside_tri; [done|apply _]). intros [|].
  { apply (ret_rule _ _ _ (λ _, inside p stopping κ)); [apply _|].
    intros h (Hh & [(? & ? & Hc & ?) Hs] & Hk). split_and!; try done. unfold stopping, quiescent. auto. }
  tri_mid (λ _ : unit, at_ (inside p (λ l, stopped l = true ∧ (active l = 0 → admissionsDone l = true) ∧
    coordinatorStarted l = true ∧ (completed l = true → l_done l = true)) κ) L).
  { apply edit_tri; [apply _..|]. intros ctxs h [] (Hh & _) [(? & ? & ? & ?) Hs] _. split_and!; try done.
    split; simpl; try done; congruence. }
  intros _. apply edit_tri; [apply _..|]. intros ctxs h [] (Hh & _) (? & ? & ? & ?) _.
  split_and!; try done.
Qed.

Lemma unlock_idle_tri F :
  Insensitive F → (∀ l, F l → quiescent l) →
  rtri (at_ (inside false F κ) L) unlock (λ _, at_ (λ h, idle i h ∧ κ h) L).
Proof. intros HF HQ. exact (unlock_tri false F HF HQ). Qed.
End critical.

(** Facts that everybody knows for good stay known. *)
Class Lasting (K : rghost → Prop) : Prop := lasting j :: Stable (rrely j) K.

Lemma lasting_rule {B} K P (p : prog W B) Q :
  Lasting K → rtri P p Q → rtri (λ g, K (gx g) ∧ P g) p (λ a g, K (gx g) ∧ Q a g).
Proof.
  intros HK. apply (keep_rule (λ g, K (gx g))); intros g g' (_ & _ & _ & _ & _ & _ & Hx); by eapply lasting.
Qed.

(** A log of facts of the lifecycle that only become true. *)
Class Growing (F : lifecycle → Prop) : Prop := growing l l' : mono l l' → F l → F l'.
Definition knows (F : lifecycle → Prop) (h : rghost) : Prop := F (h_life h).

#[export] Instance growing_lasting F : Growing F → Lasting (knows F).
Proof. intros HF j h h' Hr. apply HF, Hr. Qed.
#[export] Instance growing_admin F : Growing F → Stable admin (knows F).
Proof. intros HF h h' Hr. apply HF, Hr. Qed.

#[export] Instance growing_aborted : Growing aborted.
Proof. intros l l' Hm [e He]. exists e. by apply Hm. Qed.
#[export] Instance growing_stopped : Growing (λ l, stopped l = true).
Proof. intros l l' Hm. apply Hm. Qed.
#[export] Instance growing_coordinating : Growing (λ l, coordinating l = true).
Proof. intros l l' Hm. apply Hm. Qed.
#[export] Instance growing_completed : Growing (λ l, completed l = true).
Proof. intros l l' Hm. apply Hm. Qed.
#[export] Instance growing_done : Growing (λ l, l_done l = true).
Proof. intros l l' Hm. apply Hm. Qed.

(** The run is aborted or complete. *)
Definition over (h : rghost) : Prop := knows aborted h ∨ knows (λ l, completed l = true) h.
#[export] Instance over_lasting : Lasting over.
Proof. intros j. unfold over. apply _. Qed.
#[export] Instance over_admin : Stable admin over.
Proof. unfold over. apply _. Qed.

Section calls.
Context (κ : rghost → Prop) {κ_rely : Stable (rrely i) κ} {κ_admin : Stable admin κ} (L : list T * list T).
Abbreviation free := (λ κ h, idle i h ∧ κ h).

Lemma stopAdmission_tri :
  rtri (at_ (free κ) L) stopAdmission (λ _, at_ (free (λ h, κ h ∧ knows (λ l, stopped l = true) h)) L).
Proof.
  tri_seq by (by apply lock_tri). intros _.
  apply (weaken_rule _ (inside false opening κ)); [|by intros h (Hh & (? & ? & ? & ?) & Hk)].
  tri_seq by (apply closeAdmissionLocked_tri; apply _). intros _.
  tri_seq by (apply startCoordinatorLocked_tri; apply _). intros _.
  eapply weaken_rule; [apply (unlock_idle_tri (λ h, κ h ∧ knows (λ l, stopped l = true) h) L quiescent); [apply _..|done]|].
  by intros h (? & [? ?] & ?).
Qed.

(** *** Aborting *)

(** The first abort is recorded: this goroutine has to publish it. *)
Lemma commit_tri cause :
  rtri (at_ (inside false (λ l, (quiescent l ∧ completed l = false) ∧ abortRecord l = None) κ) L)
    (edit_life (set_abortRecord (Some cause)))
    (λ _, at_ (inside true opening (λ h, κ h ∧ knows aborted h)) L).
Proof.
  apply plain, act_rule; [stab..|]. intros w g _ (_ & _ & _ & (Hh & Hp & Hb) & [[(? & ? & ? & ?) Hc] Hn] & Hk) Hi.
  pose proof (ri_l _ _ _ _ _ (wi_user _ _ _ _ _ Hi)) as []. destruct (li_fresh0 Hn) as [Hab Hpub].
  assert (mono (h_life (gx g)) (set_abortRecord (Some cause) (h_life (gx g)))) as Hm.
  { unfold mono. simpl. split_and!; try done. by rewrite Hn. }
  assert (l_done (h_life (gx g)) = false) as Hd.
  { destruct (l_done (h_life (gx g))); [|done]. destruct li_done0; [done|congruence]. }
  apply (can_life_by _ w g (Some i) (Some i) _ Hi).
  - apply holder_only; [by left|by left|done|done|]. intros j Hj. simpl. split; [|done]. rewrite Hpub. split; [done|].
    intros [= ->]. done.
  - split; simpl; try done; try congruence.
    + by rewrite li_mu0, Hh.
    + by intros j [[= <-]|[= <-]].
  - split; [by split_and!|]. split; [by split_and!|]. split; [|by exists cause]. eapply κ_admin; [|exact Hk]. by apply admin_life.
Qed.

(** Publishing: outside the mutex. *)
Definition publishing (h : rghost) : Prop :=
  (h_holder h ≠ Some i ∧ h_pub h = Some i ∧ h_busy h !! i = Some None) ∧ κ h ∧ knows aborted h.

#[local] Instance publishing_stable : Stable (rrely i) publishing.
Proof.
  intros h h' Hr [(H1 & H2 & H3) [Hk [e He]]]. pose proof (κ_rely _ _ Hr Hk). destruct Hr. split.
  - split_and!; [by rewrite <- rr_holder0|by apply rr_pub0|by rewrite rr_busy0].
  - split; [done|]. exists e. by apply rr_mono0.
Qed.

Lemma published_tri :
  rtri (λ g, cancelled rctx g ∧ at_ publishing L g) (close_channel aborting set_aborting)
    (λ _, at_ (free (λ h, κ h ∧ knows aborted h)) L).
Proof.
  apply access_rule; [apply cancelled_stable|stab..|].
  intros w g [err Hctx] (_ & _ & _ & (Hh & Hp & Hb) & Hk & Hab) Hi. pose proof (wi_user _ _ _ _ _ Hi) as Hr.
  pose proof (ri_l _ _ _ _ _ Hr) as []. assert (aborting (h_life (gx g)) = false) as Hopen.
  { destruct (aborting (h_life (gx g))); [|done]. destruct li_published0; [done|congruence]. }
  rewrite (ri_life _ _ _ _ _ Hr), Hopen. eexists _, _. split; [done|].
  apply (can_life_by _ w g (h_holder (gx g)) None _ Hi).
  - split; [by split_and!|]. split; [done|]. intros j Hj. rewrite Hp. split_and!; try done; naive_solver.
  - split; simpl; try done; [|..].
    + intros Hn. unfold knows, aborted in Hab. rewrite Hn in Hab. by destruct Hab.
    + intros _. split; [|done]. exists err. by rewrite (wi_contexts _ _ _ _ _ Hi).
    + intros j [Hj|?]; [|done]. apply li_holder0. by left.
  - split; [by split_and!|]. split; [|done]. eapply κ_admin; [|exact Hk]. by apply admin_life.
Qed.

(** Waiting until a recorded abort is published. *)
Lemma await_aborting_tri :
  rtri (at_ (free (λ h, κ h ∧ knows aborted h)) L) (await_channel aborting) (λ _, at_ (free (λ h, κ h ∧ knows aborted h)) L).
Proof.
  apply plain, await_rule; [stab..|by intros h [? _]|]. intros w g _ (_ & _ & _ & Hid & Hk & Hab) Hi.
  pose proof (wi_user _ _ _ _ _ Hi) as Hr. destruct (aborting (life (user w))) eqn:Ha.
  - split; [done|]. intros w' b [= -> ->]%list_elem_of_singleton.
    destruct (can_step_same w g (user w) (free (λ h, κ h ∧ knows aborted h)) (gx g) Hi) as (? & ? & ? & ?); [done..|].
    by destruct w.
  - split; [|by intros w' b ?%elem_of_nil]. intros _. apply on_publication; [|done]. by rewrite (ri_life _ _ _ _ _ Hr).
Qed.

Lemma awaitAbortPublication_tri : rtri (at_ (free κ) L) awaitAbortPublication (λ _, at_ (free κ) L).
Proof.
  tri_mid (λ r, at_ (free (λ h, κ h ∧ (r ≠ None → knows aborted h))) L).
  { apply (look_rule (λ u, abortRecord (life u)) _ _ (λ r, free (λ h, κ h ∧ (r ≠ None → knows aborted h)))); [stab..|].
    intros u ctxs d logs h Hr [? ?]. split_and!; [done..|]. rewrite (ri_life _ _ _ _ _ Hr). intros Hne.
    by apply not_eq_None_Some. }
  intros [e|].
  - eapply triple_conseq; [apply await_aborting_tri|..].
    + intros g. apply at_mono. intros h (? & ? & ?). by split_and!; auto.
    + intros u g. apply at_mono. by intros h (? & ? & ?).
  - apply (ret_rule _ _ _ (λ _, free κ)); [stab|]. by intros h (? & ? & ?).
Qed.

(** An abort leaves the run aborted, unless it was complete. *)
Lemma abort_tri cause :
  rtri (at_ (free κ) L) (abort rctx cause)
    (λ _, at_ (free (λ h, κ h ∧ over h)) L).
Proof.
  unfold abort. cbv zeta. tri_seq by (by apply lock_tri). intros _.
  tri_seq by (apply look_inside_tri; [apply _|done|apply _]). intros [|].
  { eapply triple_conseq; [apply (unlock_idle_tri (λ h, κ h ∧ knows (λ l, completed l = true) h) L quiescent); [apply _..|done]|..].
    - intros g. apply at_mono. by intros h (? & [? ?] & ?).
    - intros u g. apply at_mono. intros h (? & ? & ?). unfold over. auto. }
  tri_seq by (apply look_inside_tri; [apply _|done|apply _]). intros [e|].
  - tri_mid (λ _ : unit, at_ (free (λ h, κ h ∧ knows aborted h)) L).
    { eapply weaken_rule; [apply (unlock_idle_tri (λ h, κ h ∧ knows aborted h) L quiescent); [apply _..|done]|].
      intros h (? & [[? ?] Hr] & ?). split_and!; try done. by exists e. }
    intros _. eapply triple_post; [apply await_aborting_tri|]. intros u g. apply at_mono. intros h (? & ? & ?). unfold over. auto.
  - tri_seq by (apply commit_tri). intros _.
    tri_seq by (apply closeAdmissionLocked_tri; apply _). intros _.
    tri_seq by (apply startCoordinatorLocked_tri; apply _). intros _.
    tri_mid (λ _ : unit, at_ publishing L).
    { eapply weaken_rule; [apply (unlock_tri (λ h, κ h ∧ knows aborted h) L true quiescent); [apply _|done]|].
      by intros h (? & [? ?] & ?). }
    intros _. tri_seq by (apply cancelContext_tri; [apply _|apply s_ctx|done]). intros _.
    eapply triple_post; [apply published_tri|]. intros u g. apply at_mono. intros h (? & ? & ?). unfold over. auto.
Qed.
End calls.
End one.
End life.

#[export] Hint Extern 5 (Insensitive _) => (intros ? ? ?; assumption) : typeclass_instances.
End RunnerLife.
