(* ===== verification/RunnerWork.v ===== *)
(** * Workers and the coordinator under every interleaving (src/workq/runner/worker.go, lifecycle.go)

    Triples for the accounting, the finalization of items, a held batch with its retries, the
    workers' loop and the coordinator. A goroutine with a group of counters knows how many items it
    has counted and which ones it has finalized. *)

From Stdlib Require Import ZArith Lia.
From stdpp Require Import prelude list gmap strings.
From S2P Require Import Prelude Prog Triple RingCore RingSpec WaitSide Workq WaitConc WaitTriples WorkqConc RunnerCore Runner RunnerGhost RunnerLife.

Module RunnerWork.
Import Prog Triple Ring RingSpec WaitSide Workq WaitConc WaitTriples WorkqConc RunnerCore Runner RunnerGhost RunnerLife.

(** Applying a triple whose premises are at hand. *)
Ltac go lem := rapply lem; solve [assumption|typeclasses eauto|done].

(** ** Sums of counters *)

Lemma total_succeeded n d : total (add_succeeded n d) = u64 (total d + n).
Proof. unfold total, add_succeeded. simpl. wrap_lia. Qed.
Lemma total_failed n d : total (add_failed n d) = u64 (total d + n).
Proof. unfold total, add_failed. simpl. wrap_lia. Qed.
Lemma total_abandoned n d : total (add_abandoned n d) = u64 (total d + n).
Proof. unfold total, add_abandoned. simpl. wrap_lia. Qed.
Lemma total_attempts n d : total (add_attempts n d) = total d.
Proof. done. Qed.
Lemma total_delta d d' : total (delta_add d d') = u64 (total d + total d').
Proof. unfold total, delta_add. simpl. wrap_lia. Qed.
Lemma outcome_one o : succeeded (outcomeToDelta o) + failed (outcomeToDelta o) + abandoned (outcomeToDelta o) = 1.
Proof. by destruct o as [[] n e]. Qed.
Lemma total_outcome o : total (outcomeToDelta o) = 1.
Proof. unfold total. by rewrite outcome_one. Qed.
Lemma total_outcomes outcomes d :
  total (foldl (λ delta outcome, delta_add delta (outcomeToDelta outcome)) d outcomes) = u64 (total d + len outcomes).
Proof.
  revert d. induction outcomes as [|o outcomes IH]; intros d; cbn [foldl].
  - change (len []) with 0. unfold total. wrap_lia.
  - rewrite IH, total_delta, total_outcome. unfold len. simpl length. wrap_lia.
Qed.
Lemma u64_more x n m : x = u64 n → u64 (x + m) = u64 (n + m).
Proof. intros ->. wrap_lia. Qed.

Section work.
Context {E T X : Type} `{!Setup E T X}.
Abbreviation W := (world E (rstate X)).
Abbreviation rghost := (rghost (T := T)).
Abbreviation wghost := (wghost T rghost).

Section one.
Context (i : nat) (i_lt : (i < N)%nat).
Abbreviation rtri := (triple (winv items cap N) (rquiet i) (wrely i) (rguar i)).
Abbreviation at_ := (λ κ L, rest i κ [] ([], L)).
Abbreviation free := (λ κ h, idle i h ∧ κ h).

(** ** Steps on the accounting *)

Definition with_acct (a : accounting) (h : rghost) : rghost :=
  RGhost (h_life h) a (h_regs h) (h_holder h) (h_pub h) (h_open h) (h_logs h) (h_term h) (h_drained h) (h_sub h) (h_busy h) (h_due h).

(** The groups of the others and the number of accepted items are as before. *)
Definition acct_ok (a a' : accounting) : Prop :=
  accepted a' = accepted a ∧ length (workerOutcomes a') = length (workerOutcomes a) ∧
  ∀ j c, j ≠ i → group_of j = Some c → the_group c a' = the_group c a.

Lemma open_not_closed (h : rghost) : h_open h !! i = Some true → all_closed h → False.
Proof. intros Ho Hc. by specialize (Hc i true Ho). Qed.

Lemma can_acct (w : W) g a κ' :
  winv items cap N w g → h_open (gx g) !! i = Some true → acct_ok (h_acct (gx g)) a → κ' (with_acct a (gx g)) →
  can_step i w g (on_user (on_acct (λ _, a)) w) κ'.
Proof.
  intros Hi Ho (Hacc & Hlen & Hgrp) Hκ. pose proof (wi_user _ _ _ _ _ Hi) as [].
  apply (can_step_same i w g _ _ (with_acct a (gx g)) Hi); [|split|done]; simpl; try done.
  - intros j Hj. split; simpl; try done; [by intros c; apply Hgrp|by intros ?%open_not_closed|].
    intros s k r _ Hr. by exists r.
  - destruct ri_l0. split; simpl; try done. intros Hd. destruct (li_done0 Hd) as [Hc _].
    destruct (li_completed0 Hc) as [Hall _]. by destruct (open_not_closed _ Ho).
  - destruct ri_b0. split; simpl; try done; [congruence..|].
    intros j c L ts Hj Hoj HL Hts. rewrite (Hgrp j c) by congruence. by apply bi_through0 with j.
  - by destruct ri_g0.
Qed.

Lemma edit_acct_tri (f : accounting → accounting) κ κ' L :
  Stable (rrely i) κ → Stable (rrely i) κ' → (∀ h, κ h → h_open h !! i = Some true) →
  (∀ h, length (workerOutcomes (h_acct h)) = nw → κ h → acct_ok (h_acct h) (f (h_acct h)) ∧ κ' (with_acct (f (h_acct h)) h)) →
  rtri (at_ κ L) (edit_acct f) (λ _, at_ κ' L).
Proof.
  intros Hκ Hκ' Ho Hf. apply plain, act_rule; [stab..|]. intros w g _ (_ & _ & _ & Hk) Hi. cbn [fst].
  pose proof (wi_user _ _ _ _ _ Hi) as Hr. pose proof (ri_acct _ _ _ _ _ Hr) as He.
  destruct (Hf (gx g)) as [Hok Hk']; [apply Hr|done|].
  replace (on_user (on_acct f) w) with (on_user (on_acct (λ _, f (h_acct (gx g)))) w)
    by (unfold on_user, on_acct; by rewrite He). apply can_acct; auto.
Qed.

Lemma recordFailure_tri record κ L :
  Stable (rrely i) κ → Stable admin κ → (∀ h, κ h → h_open h !! i = Some true) →
  rtri (at_ (free κ) L) (recordFailure (ErrorLimit config) record) (λ _, at_ (free κ) L).
Proof.
  intros Hκ Hadm Ho. apply edit_acct_tri; [stab..|by intros h [_ ?]; auto|]. intros h _ [Hid Hk].
  assert (∀ a', accepted a' = accepted (h_acct h) → workerOutcomes a' = workerOutcomes (h_acct h) →
    cleanupOutcomes a' = cleanupOutcomes (h_acct h) → acct_ok (h_acct h) a' ∧ idle i (with_acct a' h) ∧ κ (with_acct a' h)) as Hany.
  { intros a' H1 H2 H3. split_and!; [split_and!; [done|by rewrite H2|]|done|].
    - intros j [k|] _ _; simpl; [by rewrite H2|done].
    - eapply Hadm; [|exact Hk]. split_and!; try done. intros Hc. by destruct (open_not_closed h (Ho h Hk)). }
  destruct (_ <=? _); by apply Hany.
Qed.

Lemma recordFailureAndAbort_tri boundary worker err κ L :
  Stable (rrely i) κ → Stable admin κ → (∀ h, κ h → h_open h !! i = Some true) →
  rtri (at_ (free κ) L) (recordFailureAndAbort rctx config boundary worker err)
    (λ _, at_ (free (λ h, κ h ∧ over h)) L).
Proof. intros Hκ Hadm Ho. tri_seq by (by apply recordFailure_tri). intros _. by apply abort_tri. Qed.

(** ** Code of the application *)

Lemma can_app (w : W) g x κ' :
  winv items cap N w g → seen x = seen (app (user w)) → κ' (gx g) → can_step i w g (on_user (set_app x) w) κ'.
Proof.
  intros Hi Hs Hκ. pose proof (wi_user _ _ _ _ _ Hi) as []. apply (can_step_same i w g _ _ (gx g) Hi); [done| |done].
  split; try done; simpl; [|by destruct ri_g0]. destruct ri_b0. split; try done. by rewrite Hs.
Qed.

Lemma app_tri {B} (p : prog W B) κ L :
  Stable (rrely i) κ → app_code seen p → rtri (at_ κ L) p (λ _, at_ κ L).
Proof.
  intros Hκ. induction 1 as [B b|B C f k Hf _ IH|B C J body j k _ IHb _ IHk].
  - by apply triple_ret; [stab|].
  - change (Act f k) with (Act f Ret ≫= k). tri_mid (λ _ : C, at_ κ L); [|done].
    apply triple_choose; [stab..|]. intros w g Hg Hi. destruct (Hf w) as [Hne Hst]. split; [done|].
    intros w' c Hin. destruct (Hst w' c Hin) as (x & -> & Hs). apply (stepping i i_lt w g _ κ κ L Hi Hg).
    apply can_app; [done..|apply Hg].
  - change (Loop body j k) with (Loop body j Ret ≫= k). tri_mid (λ _ : C, at_ κ L); [|done].
    apply (triple_loop _ _ _ _ (λ _ : J, at_ κ L)); [stab..|]. intros j'. eapply triple_post; [apply IHb|]. by intros [|].
Qed.

(** ** A goroutine with its group of counters *)

Lemma group_of_inj j k c : group_of j = Some c → group_of k = Some c → j = k.
Proof. unfold group_of. repeat case_decide; naive_solver. Qed.

Lemma the_group_same c f a : group_of i = Some c → length (workerOutcomes a) = nw → the_group c (on_group c f a) = f (the_group c a).
Proof.
  unfold group_of. intros Hc Hl. repeat case_decide; simplify_eq; [|done]. simpl. rewrite list_lookup_alter_eq.
  destruct (lookup_lt_is_Some_2 (workerOutcomes a) i) as [d ->]; [lia|done].
Qed.

Lemma the_group_other c c' f a : c ≠ c' → the_group c' (on_group c f a) = the_group c' a.
Proof. intros Hne. destruct c as [k|], c' as [k'|]; simpl; try done. rewrite list_lookup_alter_ne by congruence. done. Qed.

Lemma acct_ok_group c f a : group_of i = Some c → acct_ok a (on_group c f a).
Proof.
  intros Hc. split_and!; [by destruct c|destruct c; simpl; [apply length_alter|done]|].
  intros j c' Hj Hc'. apply the_group_other. intros <-. by apply Hj, (group_of_inj j i c).
Qed.

Class Mine (c : group) : Prop := mine_group : group_of i = Some c.

Section group.
Context (c : group) {c_mine : Mine c} (s : option nat).

(** It uses the queue, may wait with context [s], has finalized [ts] and counted [n] items. *)
Definition owned (n : Z) (ts : list T) (h : rghost) : Prop :=
  h_open h !! i = Some true ∧ h_sub h !! i = Some s ∧ h_term h !! i = Some ts ∧
  total (the_group c (h_acct h)) = u64 n.

#[export] Instance owned_stable n ts : Stable (rrely i) (owned n ts).
Proof. intros h h' [] (? & ? & ? & ?). unfold owned. by rewrite rr_open0, rr_sub0, rr_term0, (rr_group0 c c_mine). Qed.
#[export] Instance owned_admin n ts : Stable admin (owned n ts).
Proof.
  intros h h' (_ & _ & H1 & _ & H2 & H3 & _ & _ & _ & _ & H4 & H5 & _) (? & ? & ? & ?). unfold owned. rewrite H1, H2, H3.
  split_and!; try done. by destruct c; simpl in *; rewrite ?H4, ?H5.
Qed.
Lemma owned_open n ts h : owned n ts h → h_open h !! i = Some true.
Proof. by intros (? & _). Qed.

Abbreviation mine := (λ n ts L, at_ (free (owned n ts)) L).

Lemma count_tri f m n ts L :
  (∀ d, total (f d) = u64 (total d + m)) →
  rtri (mine n ts L) (edit_acct (on_group c f)) (λ _, mine (n + m) ts L).
Proof.
  intros Hf. apply edit_acct_tri; [stab..|by intros h [_ ?]; eapply owned_open|].
  intros h Hl (Hid & ? & ? & ? & Ht). split; [by apply acct_ok_group|]. split; [done|].
  split_and!; try done. simpl. rewrite the_group_same by done. rewrite Hf. by apply u64_more.
Qed.

(** The sum of what [publish] adds; the fields of a delta are counters. *)
Lemma publish_tri delta n ts L :
  rtri (mine n ts L) (publish c delta) (λ _, mine (n + (succeeded delta + failed delta + abandoned delta)) ts L).
Proof.
  assert (∀ f m n, (∀ d, total (f d) = u64 (total d + m)) →
    rtri (mine n ts L) (if negb (m =? 0) then edit_acct (on_group c f) else mret tt) (λ _, mine (n + m) ts L)) as Hone.
  { intros f m k Hf. destruct (Z.eqb_spec m 0) as [->|]; simpl; [|by apply count_tri].
    rewrite Z.add_0_r. by apply triple_ret; [stab|]. }
  tri_seq by (apply Hone, total_succeeded). intros _. tri_seq by (apply Hone, total_failed). intros _.
  tri_seq by (apply Hone, total_abandoned). intros _. rewrite !Z.add_assoc.
  destruct (negb _); [|by apply triple_ret; [stab|]].
  eapply triple_post; [apply (count_tri _ 0)|]; [|intros u g; by rewrite Z.add_0_r].
  intros d. rewrite total_attempts, Z.add_0_r. unfold total. wrap_lia.
Qed.

Lemma mine_u64 n n' ts L (g : wghost) : u64 n = u64 n' → mine n ts L g → mine n' ts L g.
Proof. intros He. apply at_mono. intros h (? & ? & ? & ? & ?). unfold owned. by rewrite <- He. Qed.

(** ** Finalizing items *)

Definition finalized (ts xs : list T) : list T := match OnTerminal config with Some _ => ts ++ xs | None => ts end.

Definition with_term (ts : list T) (h : rghost) : rghost :=
  RGhost (h_life h) (h_acct h) (h_regs h) (h_holder h) (h_pub h) (h_open h) (h_logs h) (<[i := ts]> (h_term h))
    (h_drained h) (h_sub h) (h_busy h) (h_due h).

Lemma can_term (w : W) g x ts item n κ' :
  winv items cap N w g → owned n ts (gx g) → seen x = seen (app (user w)) ++ [item] →
  κ' (with_term (ts ++ [item]) (gx g)) → can_step i w g (on_user (set_app x) w) κ'.
Proof.
  intros Hi (Ho & Hsub & Ht & _) Hs Hκ. pose proof (wi_user _ _ _ _ _ Hi) as [].
  apply (can_step_same i w g _ _ (with_term (ts ++ [item]) (gx g)) Hi); [|split|done]; simpl; try done.
  - intros j Hj. split; simpl; try done; [by rewrite list_lookup_insert_ne|].
    intros s' k r _ Hr. by exists r.
  - by destruct ri_l0.
  - destruct ri_b0. split; simpl; try done.
    + by rewrite length_insert.
    + intros j ts' [(<- & _ & _)|(Hne & Hj)]%list_lookup_insert_Some; [congruence|by apply bi_others0].
    + intros j c' L ts' Hj Hoj HL Hts. rewrite list_lookup_insert_ne in Hts by congruence. by eapply bi_through0.
    + intros Hcb. rewrite Hs, (bi_seen0 Hcb). rewrite <- (list_fmap_id (h_term (gx g))) at 1.
      rewrite <- (list_fmap_id (<[_ := _]> _)). symmetry. by apply (concat_upd id _ _ ts).
  - by destruct ri_g0.
Qed.

Lemma callback_tri callback item outcome n ts L :
  OnTerminal config = Some callback →
  rtri (mine n ts L) (callback item outcome) (λ _, mine n (ts ++ [item]) L).
Proof.
  intros Hcb. destruct (s_terminal callback Hcb item outcome) as (f & -> & Hf).
  apply plain, (act_rule i i_lt _ _ _ _ (λ _, free (owned n (ts ++ [item])))); [stab..|]. intros w g _ (_ & _ & _ & Hid & Hk) Hi.
  pose proof (Hf (app (user w))) as Hs. destruct (f (app (user w))) as [x r]. apply (can_term w g x ts item n); [done..|].
  destruct Hk as (? & ? & Ht & ?). split; [done|]. split_and!; try done. simpl. apply list_lookup_insert_eq.
  by eapply lookup_lt_Some.
Qed.

Lemma finalizeEach_tri callback worker batch outcomes : ∀ n ts L,
  OnTerminal config = Some callback → length batch = length outcomes →
  rtri (mine n ts L) (finalizeEach rctx config callback worker c batch outcomes)
    (λ _, mine (n + len batch) (ts ++ batch) L).
Proof.
  revert outcomes. induction batch as [|item batch IH]; intros [|outcome outcomes] n ts L Hcb Hlen; try done; cbn [finalizeEach].
  { apply triple_ret; [stab|]. intros g. change (len []) with 0. by rewrite Z.add_0_r, app_nil_r. }
  tri_seq by (go awaitAbortPublication_tri). intros _.
  tri_seq by (apply publish_tri). intros _. rewrite outcome_one.
  tri_seq by (by apply callback_tri). intros err. tri_mid (λ _ : unit, mine (n + 1) (ts ++ [item]) L).
  { destruct err as [e|]; [|by apply triple_ret; [stab|]].
    eapply triple_post; [apply recordFailureAndAbort_tri; [apply _..|apply owned_open]|].
    intros u g. apply at_mono. by intros h (? & ? & _). }
  intros _. replace (n + len (item :: batch)) with (n + 1 + len batch) by (unfold len; simpl length; lia).
  replace (ts ++ item :: batch) with ((ts ++ [item]) ++ batch) by (by rewrite <- app_assoc). apply IH; [done|]. by injection Hlen.
Qed.

Lemma finalizeBatch_tri worker batch outcomes n ts L :
  length batch = length outcomes →
  rtri (mine n ts L) (finalizeBatch rctx config worker c batch outcomes)
    (λ _, mine (n + len batch) (finalized ts batch) L).
Proof.
  intros Hlen. unfold finalizeBatch, finalized. destruct (OnTerminal config) as [callback|] eqn:Hcb; [by apply finalizeEach_tri|].
  tri_seq by (go awaitAbortPublication_tri). intros _. eapply triple_post; [apply publish_tri|].
  intros u g. apply mine_u64. pose proof (total_outcomes outcomes zero_delta) as Ht. unfold total, len in *. rewrite Hlen.
  revert Ht. generalize (foldl (λ delta outcome, delta_add delta (outcomeToDelta outcome)) zero_delta outcomes). intros d Ht.
  change (succeeded zero_delta + failed zero_delta + abandoned zero_delta) with 0 in Ht. wrap_lia.
Qed.
End group.
End one.
End work.
End RunnerWork.
