(* ===== verification/RunnerHeld.v ===== *)
(** * A held batch under every interleaving (src/workq/runner/worker.go, retry.go)

    Triples for the handler's results, retries and the rounds of [processHeldBatch]: every item of a
    batch is finalized and counted exactly once. *)

From Stdlib Require Import ZArith Lia.
From stdpp Require Import prelude list gmap strings.
From S2P Require Import Prelude Prog Triple RingCore RingSpec WaitSide Workq WaitConc WaitTriples WorkqConc RunnerCore RunnerSpec Runner RunnerGhost RunnerLife RunnerWork.

Module RunnerHeld.
Import Prog Triple Ring RingSpec WaitSide Workq WaitConc WaitTriples WorkqConc RunnerCore RunnerSpec Runner RunnerGhost RunnerLife RunnerWork.

Section held.
Context {E T X : Type} `{!Setup E T X}.
Abbreviation W := (world E (rstate X)).
Abbreviation rghost := (rghost (T := T)).
Abbreviation wghost := (wghost T rghost).

Section one.
Context (i : nat) (i_lt : (i < N)%nat).
Abbreviation rtri := (triple (winv items cap N) (rquiet i) (wrely i) (rguar i)).
Abbreviation at_ := (λ κ L, rest i κ [] ([], L)).
Abbreviation free := (λ κ h, idle i h ∧ κ h).

Lemma collect_tri {Y B} (l : list Y) (body : Y → prog W B) P :
  Stable (wrely i) P → (∀ y, rtri P (body y) (λ _, P)) →
  rtri P (collect l body) (λ bs g, length bs = length l ∧ P g).
Proof.
  intros HP Hbody. induction l as [|y l IH]; cbn [collect].
  { by apply (triple_ret _ _ _ _ P). }
  eapply (triple_bind _ _ _ _ P (body y)); [done|]. intros b.
  eapply (triple_bind _ _ _ _ P (collect l body)); [done|]. intros bs. cbv beta.
  apply triple_fact. intros Hl. apply (triple_ret _ _ _ _ P); [done|]. intros g Hg. split; [simpl; by rewrite Hl|done].
Qed.

(** Reading, when nothing is to be known of the value. *)
Lemma see_tri {B} (get : W → B) P : Stable (wrely i) P → rtri P (load get) (λ _, P).
Proof. intros HP. by apply triple_load. Qed.

Lemma sum_groups_keep cs sum κ L :
  Stable (rrely i) κ → rtri (at_ κ L) (sum_groups cs sum) (λ _, at_ κ L).
Proof.
  intros Hκ. revert sum. induction cs as [|k cs IH]; intros sum; cbn [sum_groups]; [by apply triple_ret; [stab|]|].
  tri_mid (λ _ : outcomeDelta, at_ κ L); [|intros d; apply IH].
  do 4 (tri_seq by (apply see_tri; stab); intros ?). by apply triple_ret; [stab|].
Qed.

Section group.
Context (c : group) {c_mine : Mine i c} (s : option nat) (L : list T * list T).
Abbreviation mine := (λ n ts, at_ (free (owned i c s n ts)) L).

Lemma abandonmentError_tri item n ts : rtri (mine n ts) (abandonmentError item) (λ _, mine n ts).
Proof. unfold abandonmentError. destruct (lastErr item); [by apply triple_ret; [stab|]|]. apply see_tri; stab. Qed.

Lemma abandonHeld_tri worker batch metadata n ts :
  length batch = length metadata →
  rtri (mine n ts) (abandonHeld rctx config worker c batch metadata) (λ _, mine (n + len batch) (finalized ts batch)).
Proof.
  intros Hl. tri_seq by (go (awaitAbortPublication_tri i)). intros _.
  tri_mid (λ outcomes g, length outcomes = length metadata ∧ mine n ts g).
  { apply collect_tri; [stab|]. intros item. tri_seq by (apply abandonmentError_tri). intros err. by apply triple_ret; [stab|]. }
  intros outcomes. apply triple_fact. intros Ho. apply finalizeBatch_tri; [done..|congruence].
Qed.

Lemma fail_tri record n ts : rtri (mine n ts) (recordFailure (ErrorLimit config) record) (λ _, mine n ts).
Proof. apply recordFailure_tri; [done|apply _..|apply owned_open]. Qed.

Lemma failAbort_tri boundary worker err n ts :
  rtri (mine n ts) (recordFailureAndAbort rctx config boundary worker err) (λ _, mine n ts).
Proof.
  eapply triple_post; [apply recordFailureAndAbort_tri; [done|apply _..|apply owned_open]|].
  intros u g. apply at_mono. by intros h (? & ? & _).
Qed.

Lemma abort_mine_tri err n ts : rtri (mine n ts) (abort rctx err) (λ _, mine n ts).
Proof. eapply triple_post; [go (abort_tri i)|]. intros u g. apply at_mono. by intros h (? & ? & _). Qed.

Lemma classifyFailure_tri worker attempts err n ts :
  rtri (mine n ts) (classifyFailure rctx config worker attempts err) (λ _, mine n ts).
Proof.
  unfold classifyFailure. cbv zeta.
  assert (rtri (mine n ts) (_ ← recordFailure (ErrorLimit config) (Failure BoundaryHandler worker err);
    _ ← (if c_FailureMode config =? Abort then abort rctx err else mret tt); mret (false, 0)) (λ _ : bool * Z, mine n ts)) as Hend.
  { tri_seq by (apply fail_tri). intros _. tri_mid (λ _ : unit, mine n ts).
    { destruct (_ =? _); [apply abort_mine_tri|by apply triple_ret; [stab|]]. }
    intros _. by apply triple_ret; [stab|]. }
  destruct (Retry config) as [policy|] eqn:Hr; [|exact Hend]. destruct (attempts <? MaxAttempts policy); [|exact Hend].
  destruct (s_retry policy Hr) as (f & -> & Hf). tri_seq by (apply app_tri; [done|apply _|apply Hf]). intros [delay retry].
  destruct (delay <? 0).
  { tri_seq by (apply fail_tri). intros _. tri_seq by (apply failAbort_tri). intros _. by apply triple_ret; [stab|]. }
  destruct retry; [|exact Hend]. tri_seq by (apply see_tri; stab). intros t. by apply triple_ret; [stab|].
Qed.

Lemma classifyResult_tri worker result item n ts :
  rtri (mine n ts) (classifyResult rctx config worker result item) (λ _, mine n ts).
Proof.
  unfold classifyResult. cbv zeta. destruct (State result =? ResultFailed).
  { tri_seq by (apply classifyFailure_tri). intros [again when]. by apply triple_ret; [stab|]. }
  destruct (_ || _); [|by apply triple_ret; [stab|]]. tri_seq by (apply abandonmentError_tri). intros err.
  by apply triple_ret; [stab|].
Qed.

Lemma classifyResults_tri worker results metadata n ts :
  length results = length metadata →
  rtri (mine n ts) (classifyResults rctx config worker results metadata)
    (λ r g, (length r.1 = length metadata ∧ length r.2 = length metadata) ∧ mine n ts g).
Proof.
  revert results. induction metadata as [|item metadata IH]; intros [|result results] Hl; try done; cbn [classifyResults].
  { by apply triple_ret; [stab|]. }
  tri_seq by (apply classifyResult_tri). intros [item' outcome].
  tri_seq by (apply IH; by injection Hl). intros [metadata' outcomes]. apply triple_fact. cbn [fst snd]. intros [H1 H2].
  apply triple_ret; [stab|]. intros g Hg. split; [|done]. simpl. by rewrite H1, H2.
Qed.

Lemma validated results count aborted : validateResults (Some results) count aborted = None → len results = count.
Proof. unfold validateResults. destruct (Z.eqb_spec (len results) count); done. Qed.

Lemma invokeHeld_tri worker batch metadata n ts :
  length batch = length metadata →
  rtri (mine n ts) (invokeHeld rctx config worker batch metadata)
    (λ r g, (length r.1 = length metadata ∧ length r.2 = length metadata) ∧ mine n ts g).
Proof.
  intros Hl. destruct s_handler as (handler & Hh & Happ). unfold invokeHeld. rewrite Hh.
  tri_seq by (apply app_tri; [done|apply _|apply Happ]). intros results.
  tri_seq by (apply see_tri; stab). intros cause.
  destruct (validateResults results (len batch) _) as [err|] eqn:Hv.
  - tri_seq by (apply failAbort_tri). intros _. cbv zeta. apply triple_ret; [stab|]. intros g Hg.
    cbn [fst snd]. by rewrite !length_fmap.
  - apply classifyResults_tri. destruct results as [results|]; [|by rewrite length_replicate].
    apply validated in Hv. unfold len in Hv. lia.
Qed.

(** ** Rounds

    [holds xs d]: of the items [all], exactly [xs] are held; [d] counts items that are finalized but
    not published. *)
Section rounds.
Context (all : list T) (target : Z).

Definition holds (xs : list T) (d : outcomeDelta) (g : wghost) : Prop :=
  ∃ ts, (OnTerminal config ≠ None → ts ++ xs ≡ₚ all) ∧ mine (target - len xs - total d) ts g.

#[local] Instance holds_stable xs d : Stable (wrely i) (holds xs d).
Proof. unfold holds. apply _. Qed.

Lemma holds_tri {B} xs d (p : prog W B) Q :
  (∀ n ts, rtri (mine n ts) p (λ b g, Q b ∧ mine n ts g)) →
  rtri (holds xs d) p (λ b g, Q b ∧ holds xs d g).
Proof.
  intros Hp. apply triple_exist. intros ts. apply triple_fact. intros Hts. eapply triple_post; [apply Hp|].
  intros b g [HQ Hg]. split; [done|]. by exists ts.
Qed.

Lemma holds_keep_tri {B} xs d (p : prog W B) :
  (∀ n ts, rtri (mine n ts) p (λ _, mine n ts)) → rtri (holds xs d) p (λ _, holds xs d).
Proof.
  intros Hp. eapply triple_post; [apply (holds_tri _ _ _ (λ _, True))|by intros b g [_ Hg]].
  intros n ts. eapply triple_post; [apply Hp|done].
Qed.

(** Finalizing some of the held items. *)
Lemma holds_finalize_tri {B} xs xs' batch d (p : prog W B) :
  xs ≡ₚ batch ++ xs' → (∀ n ts, rtri (mine n ts) p (λ _, mine (n + len batch) (finalized ts batch))) →
  rtri (holds xs d) p (λ _, holds xs' d).
Proof.
  intros Hxs Hp. apply triple_exist. intros ts. apply triple_fact. intros Hts. eapply triple_post; [apply Hp|].
  intros b g Hg. exists (finalized ts batch). split.
  - intros Hcb. specialize (Hts Hcb). unfold finalized. destruct (OnTerminal config); [|done].
    by rewrite <- app_assoc, <- Hxs.
  - assert (len xs = len batch + len xs') by (rewrite <- len_app; unfold len; by rewrite Hxs).
    eapply mine_u64; [|exact Hg]. f_equal. lia.
Qed.

Lemma holds_publish_tri xs d : rtri (holds xs d) (publish c d) (λ _, holds xs zero_delta).
Proof.
  apply triple_exist. intros ts. apply triple_fact. intros Hts. eapply triple_post; [by apply publish_tri|].
  intros u g Hg. exists ts. split; [done|]. eapply mine_u64; [|exact Hg]. unfold total.
  change (succeeded zero_delta + failed zero_delta + abandoned zero_delta) with 0. wrap_lia.
Qed.

(** The arrays between the rounds of the loop that compacts. *)
Abbreviation compacting := (compacting (T := T)).
Record compacts (held : nat) (k : compacting) : Prop := {
  ck_remaining : (k_remaining k <= k_position k <= held)%nat;
  ck_batch : length (k_batch k) = held;
  ck_outcomes : length (k_outcomes k) = held;
  ck_metadata : length (k_metadata k) = held;
}.
Definition kept (k : compacting) : list T := take (k_remaining k) (k_batch k) ++ drop (k_position k) (k_batch k).

Lemma kept_first k held item :
  compacts held k → k_batch k !! k_position k = Some item →
  kept k = take (k_remaining k) (k_batch k) ++ item :: drop (S (k_position k)) (k_batch k).
Proof. intros _ Hi. unfold kept. by rewrite (drop_S _ item). Qed.

Lemma index_tri {B C} (l : list B) n P (k : B → prog W C) R :
  (n < length l)%nat → (∀ x, l !! n = Some x → rtri P (k x) R) → rtri P (x ← index l n; k x) R.
Proof.
  intros Hn Hk. destruct (lookup_lt_is_Some_2 l n Hn) as [x Hx]. unfold index. rewrite Hx. exact (Hk x Hx).
Qed.

Lemma compactStep_tri worker held due_ k :
  compacts held k →
  rtri (holds (kept k) (k_delta k)) (compactStep zero rctx config worker c held due_ k)
    (λ r g, match r with
     | inl k => compacts held k ∧ holds (kept k) (k_delta k) g
     | inr k => (compacts held k ∧ k_position k = held) ∧ holds (kept k) (k_delta k) g
     end).
Proof.
  intros Hk. pose proof Hk as []. unfold compactStep. cbv zeta. case_decide as Hd.
  { apply triple_ret; [stab|]. intros g Hg. split_and!; [done|lia|done]. }
  apply index_tri; [lia|]. intros item Hitem. apply index_tri; [lia|]. intros meta _.
  apply index_tri; [lia|]. intros outcome _. rewrite (kept_first k held item Hk Hitem). destruct (_ && _).
  - tri_mid (holds (take (k_remaining k) (k_batch k) ++ drop (S (k_position k)) (k_batch k))).
    + destruct (OnTerminal config) as [callback|] eqn:Hcb.
      * tri_mid (λ _ : unit, holds (take (k_remaining k) (k_batch k) ++ drop (S (k_position k)) (k_batch k)) (k_delta k)).
        -- apply (holds_finalize_tri _ _ [item]); [by rewrite <- Permutation_middle|]. intros n ts. by apply finalizeBatch_tri.
        -- intros _. by apply triple_ret; [stab|].
      * apply triple_ret; [stab|]. intros g (ts & Hts & Hg). exists ts. rewrite Hcb. split; [done|].
        eapply mine_u64; [|exact Hg]. rewrite total_delta, total_outcome. unfold len. rewrite !length_app. simpl length. wrap_lia.
    + intros delta. apply triple_ret; [stab|]. intros g Hg. split; [split; simpl; rewrite ?length_insert; lia|].
      unfold kept. cbn [k_remaining k_position k_batch k_delta]. by rewrite take_insert_ge, drop_insert_lt by lia.
  - apply triple_ret; [stab|]. intros g Hg. split; [split; simpl; rewrite ?length_insert; lia|].
    unfold kept. cbn [k_remaining k_position k_batch k_delta]. rewrite drop_insert_lt by lia.
    rewrite (take_S_r _ _ item) by (apply list_lookup_insert_eq; lia). by rewrite take_insert_ge, <- app_assoc by lia.
Qed.

Lemma compact_tri worker due_ batch outcomes metadata :
  length outcomes = length batch → length metadata = length batch →
  rtri (holds batch zero_delta)
    (loop (compactStep zero rctx config worker c (length batch) due_) (Compacting 0 0 zero_delta batch outcomes metadata))
    (λ k g, (k_remaining k <= length (k_batch k) ∧ length (k_metadata k) = length (k_batch k))%nat ∧
            holds (take (k_remaining k) (k_batch k)) (k_delta k) g).
Proof.
  intros Ho Hm. eapply triple_pre; [apply (triple_loop _ _ _ _ (λ k g, compacts (length batch) k ∧ holds (kept k) (k_delta k) g)); [stab..|]|].
  - intros k. apply triple_fact. intros Hk. eapply triple_post; [by apply compactStep_tri|].
    intros [k'|k'] g; [done|]. intros [[[] Hp] Hg]. split; [lia|]. unfold kept in Hg.
    by rewrite Hp, drop_ge, app_nil_r in Hg by lia.
  - intros g Hg. split; [|done]. split; simpl; lia.
Qed.

(** ** Waiting for a retry *)
Context (i_worker : (i < nw)%nat).

Definition with_due (d : Z) (h : rghost) : rghost :=
  RGhost (h_life h) (h_acct h) (h_regs h) (h_holder h) (h_pub h) (h_open h) (h_logs h) (h_term h) (h_drained h) (h_sub h)
    (h_busy h) (<[i := d]> (h_due h)).

(** Its timer fires at [d]. *)
Definition timed (d n : Z) (ts : list T) (h : rghost) : Prop := owned i c s n ts h ∧ h_due h !! i = Some d.
#[local] Instance timed_stable d n ts : Stable (rrely i) (timed d n ts).
Proof. intros h h' Hr [Ho Hd]. split; [by eapply owned_stable|]. by rewrite (rr_due _ _ _ Hr). Qed.

Lemma newTimer_tri delay n ts : rtri (mine n ts) now (λ t, at_ (free (timed (t + delay) n ts)) L).
Proof.
  apply plain, (act_rule i i_lt _ _ _ _ (λ t, free (timed (t + delay) n ts))); [apply _..|].
  intros w g _ (_ & _ & _ & Hid & Hk) Hi. cbn [fst snd]. pose proof (wi_user _ _ _ _ _ Hi) as [].
  destruct (can_step_same i w g (user w) (free (timed (clock (user w) + delay) n ts)) (with_due (clock (user w) + delay) (gx g)) Hi)
    as (? & ? & ? & ?); [..|by destruct w].
  - intros j Hj. split; simpl; try done; [by rewrite list_lookup_insert_ne|]. intros s' k r _ Hr. by exists r.
  - split; simpl; try done; [by destruct ri_l0|by destruct ri_b0|]. destruct ri_g0. split; simpl; try done. by rewrite length_insert.
  - split; [done|]. split; [done|]. simpl. apply list_lookup_insert_eq. destruct ri_g0. by rewrite gi_due0.
Qed.

Lemma selectTimer_tri deadline n ts :
  rtri (at_ (free (timed deadline n ts)) L) (selectTimer rctx deadline) (λ _, mine n ts).
Proof.
  apply plain, (await_rule i i_lt _ _ _ _ (λ _, free (owned i c s n ts))); [stab..|by intros h [? _]|].
  intros w g _ (_ & _ & _ & Hid & Hk & Hdue) Hi. split.
  - intros [Hc Ht]%app_nil. case_bool_decide as Hctx; [done|]. destruct (Z.leb_spec deadline (clock (user w))); [done|].
    apply (on_timer i w g deadline); [done|by eapply owned_open|by apply eq_None_not_Some|done..].
  - assert (can_step i w g w (free (owned i c s n ts))) as Hsame.
    { destruct (can_step_same i w g (user w) (free (owned i c s n ts)) (gx g) Hi) as (? & ? & ? & ?); [done|apply Hi|done|].
      by destruct w. }
    intros w' b [Hin|Hin]%elem_of_app; [case_bool_decide|case_match]; try (by apply elem_of_nil in Hin);
      by apply list_elem_of_singleton in Hin as [= -> ->].
Qed.

Lemma waitForRetry_tri metadata n ts :
  metadata ≠ [] → rtri (mine n ts) (waitForRetry rctx metadata) (λ _, mine n ts).
Proof.
  intros Hm. unfold waitForRetry. tri_seq by (apply see_tri; stab). intros [cause|]; [by apply triple_ret; [stab|]|].
  apply index_tri; [destruct metadata; simpl; [done|lia]|]. intros first _. cbv zeta.
  tri_seq by (apply see_tri; stab). intros t. destruct (_ <=? 0); [by apply triple_ret; [stab|]|].
  tri_seq by (apply newTimer_tri). intros t'. apply selectTimer_tri.
Qed.

Lemma abandon_rest_tri worker batch metadata :
  length batch = length metadata →
  rtri (holds batch zero_delta) (abandonHeld rctx config worker c batch metadata) (λ _, holds [] zero_delta).
Proof.
  intros Hl. apply (holds_finalize_tri _ _ batch); [by rewrite app_nil_r|]. intros n ts. by apply abandonHeld_tri.
Qed.

Definition round_ok (st : nat * list T * list retryItem) : Prop :=
  (st.1.1 <= length st.1.2)%nat ∧ length st.2 = length st.1.2.

Lemma compactDue_round batch metadata now :
  length metadata = length batch →
  round_ok (compactDue batch metadata now) ∧ (compactDue batch metadata now).1.2 ≡ₚ batch.
Proof.
  intros Hl. pose proof (compactDue_spec batch metadata now) as Hs. destruct (compactDue batch metadata now) as [[d batch'] metadata'].
  destruct Hs as (Hp & H1 & H2 & [Hle _ _]); [done|]. split; [split; simpl; lia|]. simpl.
  rewrite <- (fst_zip batch metadata), <- (fst_zip batch' metadata') by lia. by rewrite Hp.
Qed.

Lemma holds_perm xs ys d g : xs ≡ₚ ys → holds xs d g → holds ys d g.
Proof.
  intros Hp (ts & Hts & Hg). exists ts. split; [intros Hcb; rewrite <- Hp; auto|].
  assert (len ys = len xs) as -> by (unfold len; by rewrite Hp). exact Hg.
Qed.

Lemma processHeldBatch_tri worker batch :
  rtri (holds batch zero_delta) (processHeldBatch zero rctx config worker c batch) (λ _, holds [] zero_delta).
Proof.
  eapply triple_pre; [apply (triple_loop _ _ _ _ (λ st g, round_ok st ∧ holds st.1.2 zero_delta g)); [stab..|]|].
  2: { intros g Hg. split; [|done]. split; simpl; [lia|by rewrite length_replicate]. }
  intros [[due_ xs] metadata]. apply triple_fact. cbn [fst snd]. intros [Hdue Hmeta]. cbn [fst snd] in *. cbv zeta.
  case_decide as Hz. { apply nil_length_inv in Hz as ->. by apply triple_ret; [stab|]. }
  tri_seq by (apply see_tri; stab). intros [cause|].
  { tri_seq by (by apply abandon_rest_tri). intros _. by apply triple_ret; [stab|]. }
  tri_mid (λ r g, (length r.1 = length (take due_ metadata) ∧ length r.2 = length (take due_ metadata)) ∧ holds xs zero_delta g).
  { apply holds_tri. intros n ts. apply invokeHeld_tri. rewrite !length_take. lia. }
  intros [front outcomes]. apply triple_fact. cbn [fst snd]. intros [Hf Ho]. rewrite length_take in Hf, Ho.
  tri_mid (λ _ : unit, holds xs zero_delta).
  { destruct (OnTerminal config); [by apply triple_ret; [stab|]|]. apply holds_keep_tri. intros n ts. go (awaitAbortPublication_tri i). }
  intros _. tri_seq by (apply compact_tri; rewrite length_app; rewrite ?length_replicate, ?length_drop; lia).
  intros k. apply triple_fact. intros [Hr Hk].
  tri_seq by (apply holds_publish_tri). intros _. case_decide as Hz'.
  { rewrite Hz'. by apply triple_ret; [stab|]. }
  tri_mid (λ _ : bool, holds (take (k_remaining k) (k_batch k)) zero_delta).
  { apply holds_keep_tri. intros n ts. apply waitForRetry_tri. intros Hnil%(f_equal length).
    rewrite length_take in Hnil. simpl in Hnil. lia. }
  intros [|].
  - tri_seq by (apply see_tri; stab). intros t.
    destruct (compactDue_round (take (k_remaining k) (k_batch k)) (take (k_remaining k) (k_metadata k)) t) as [Hok Hp];
      [rewrite !length_take; lia|].
    destruct (compactDue _ _ t) as [[d' batch'] metadata']. apply triple_ret; [stab|]. intros g Hg. split; [done|].
    by eapply holds_perm.
  - tri_seq by (apply abandon_rest_tri; rewrite !length_take; lia). intros _. by apply triple_ret; [stab|].
Qed.
End rounds.
End group.
End one.
End held.
End RunnerHeld.
