(* ===== verification/RunnerRun.v ===== *)
(** * Workers, the coordinator and completion under every interleaving (src/workq/runner)

    A worker leaves when the run is aborted or the closed queue is drained, with every item that it
    received finalized and counted. The coordinator joins submissions and workers, cleans up and
    publishes completion: nobody uses the queue any more and the accounting does not change. *)

From Stdlib Require Import ZArith Lia.
From stdpp Require Import prelude list gmap strings.
From S2P Require Import Prelude Prog Triple RingCore RingSpec WaitSide Workq WaitConc WaitTriples WorkqConc RunnerCore RunnerSpec Runner RunnerGhost RunnerLife RunnerWork RunnerHeld.

Module RunnerRun.
Import Prog Triple Ring RingSpec WaitSide Workq WaitConc WaitTriples WorkqConc RunnerCore RunnerSpec Runner RunnerGhost RunnerLife
  RunnerWork RunnerHeld.

Section run.
Context {E T X : Type} `{!Setup E T X}.
Abbreviation W := (world E (rstate X)).
Abbreviation rghost := (rghost (T := T)).
Abbreviation wghost := (wghost T rghost).

Section one.
Context (i : nat) (i_lt : (i < N)%nat).
Abbreviation rtri := (triple (winv items cap N) (rquiet i) (wrely i) (rguar i)).
Abbreviation at_ := (λ κ L, rest i κ [] ([], L)).
Abbreviation free := (λ κ h, idle i h ∧ κ h).

(** ** Leaving: a worker or the coordinator is through with the queue *)

Definition leave (L : list T * list T) (b : bool) (h : rghost) : rghost :=
  RGhost (h_life h) (h_acct h) (h_regs h) (h_holder h) (h_pub h) (<[i := false]> (h_open h)) (<[i := L]> (h_logs h)) (h_term h)
    (h_drained h || b) (h_sub h) (h_busy h) (h_due h).

Lemma leave_clients L b h : (i < c0)%nat → clients_open (leave L b h) = clients_open h.
Proof. intros Hi. unfold clients_open, leave. simpl. by rewrite drop_insert_lt. Qed.

Lemma leave_frozen L b h : (i < c0)%nat → frozen h → frozen (leave L b h).
Proof. intros Hi [Hs Hc]. split; [done|]. by rewrite leave_clients. Qed.

Lemma leave_rely L b h j : (i < c0)%nat → j ≠ i → h_open h !! i = Some true → rrely j h (leave L b h).
Proof.
  intros Hi Hj Ho. split; simpl; try done.
  - by rewrite list_lookup_insert_ne.
  - by rewrite list_lookup_insert_ne.
  - by apply leave_frozen.
  - by intros ->.
  - intros k Hk Hok. rewrite list_lookup_insert_ne by congruence. done.
  - by intros ?%(open_not_closed i).
  - intros s k r _ Hr. by exists r.
Qed.

(** What it leaves behind. *)
Record left_ok (u : rstate X) (d : bool) (logs : list (list T * list T)) (L : list T * list T) (b : bool) (h : rghost) : Prop := {
  lo_lt : (i <= nw)%nat;
  lo_open : h_open h !! i = Some true;
  lo_log : logs !! i = Some L;
  lo_pushed : L.1 = [];
  lo_books : ∃ c ts, group_of i = Some c ∧ h_term h !! i = Some ts ∧ (OnTerminal config ≠ None → ts ≡ₚ L.2) ∧
    total (the_group c (h_acct h)) = u64 (len L.2);
  lo_drained : b = true → frozen h ∧ d = false;
  lo_why : (i < nw)%nat → aborted (h_life h) ∨ h_drained h || b = true;
}.

Lemma same_pushes (l : list (list T * list T)) L0 L :
  l !! i = Some L0 → L.1 = L0.1 → concat (fst <$> <[i := L]> l) = concat (fst <$> l).
Proof. intros Hi He. rewrite list_fmap_insert, list_insert_id; [done|]. by rewrite list_lookup_fmap, Hi, He. Qed.

Lemma leave_rinv u ctxs d logs L b h n :
  rinv u ctxs d logs h → left_ok u d logs L b h → n = workers_open (leave L b h) →
  rinv (set_workers n u) ctxs d logs (leave L b h).
Proof.
  intros [] [] ->. assert (i < c0)%nat as Hc0 by (unfold c0; lia). destruct lo_books0 as (c & ts & Hc & Hts & Hp & Htot).
  destruct ri_b0. destruct (lookup_lt_is_Some_2 (h_logs h) i) as [L0 HL0]; [lia|].
  pose proof (bi_roles0 i L0 HL0) as Hrole. rewrite Hc in Hrole. split; simpl; try done.
  - destruct ri_l0. split; simpl; try done; [by rewrite leave_clients|by intros Had; apply leave_frozen, li_admissions0|].
    intros Hcp. destruct (li_completed0 Hcp) as [Hall _]. by destruct (open_not_closed i h lo_open0 Hall).
  - split; simpl; try done; rewrite ?length_insert; try done.
    + intros j [(<- & _ & _)|(Hne & Hj)]%list_lookup_insert_Some.
      * rewrite list_lookup_insert_eq by lia. done.
      * rewrite list_lookup_insert_ne by done. auto.
    + rewrite (same_pushes _ L0); [done..|]. by rewrite lo_pushed0.
    + intros j L' [(<- & <- & _)|(_ & Hj)]%list_lookup_insert_Some; [by rewrite Hc|by apply bi_roles0].
    + intros j c' L' ts' Hj Hoj HL' Hts'. destruct (decide (j = i)) as [->|Hne].
      * rewrite list_lookup_insert_eq in HL' by lia. by simplify_eq.
      * rewrite list_lookup_insert_ne in Hoj by done. rewrite list_lookup_insert_ne in HL' by done. by eapply bi_through0.
  - destruct ri_g0. split; simpl; try done.
    + intros j Hj [(<- & _ & _)|(Hne & Hoj)]%list_lookup_insert_Some; [auto|].
      destruct (gi_exit0 j Hj Hoj) as [?| ->]; auto.
    + intros [Hd|Hb]%orb_true_iff; [destruct (gi_drained0 Hd)|destruct (lo_drained0 Hb)];
        (split; [by apply leave_frozen|done]).
    + intros j b' Hj [(<- & <- & _)|(_ & Hoj)]%list_lookup_insert_Some; [done|by eapply gi_runtime0].
Qed.

Lemma workers_leave L b h :
  (i < nw)%nat → h_open h !! i = Some true → workers_open (leave L b h) = workers_open h - 1.
Proof.
  intros Hi Ho. unfold workers_open, leave. simpl. rewrite take_insert_lt by done.
  rewrite (trues_upd _ _ true); [simpl; lia|]. by rewrite lookup_take_lt.
Qed.

(** ** Receiving *)

Section books.
Context (c : group) {c_mine : Mine i c} (s : option nat).

(** All that was received is finalized and counted. *)
Definition settled (g : wghost) : Prop :=
  ∃ L ts, (L.1 = [] ∧ (OnTerminal config ≠ None → ts ≡ₚ L.2)) ∧ at_ (free (owned i c s (len L.2) ts)) L g.

#[export] Instance settled_stable : Stable (wrely i) settled.
Proof. unfold settled. apply _. Qed.

(** A batch was received and is held. *)
Definition holding_batch (xs : list T) (g : wghost) : Prop :=
  ∃ L, L.1 = [] ∧ holds i c s L L.2 (len L.2) xs zero_delta g.

#[export] Instance holding_batch_stable xs : Stable (wrely i) (holding_batch xs).
Proof. unfold holding_batch, holds. apply _. Qed.

Lemma settled_nothing g : holding_batch [] g → settled g.
Proof.
  intros (L & HL & ts & Hts & Hg). exists L, ts. rewrite app_nil_r in Hts. split; [done|].
  change (len []) with 0 in Hg. change (total zero_delta) with 0 in Hg. by rewrite !Z.sub_0_r in Hg.
Qed.

End books.

Section receiving.
Context (c : group) {c_mine : Mine i c} (s : nat).
Abbreviation settled := (settled c (Some s)).

(** Why a receive fails. *)
Definition because (r : Z * option error * list T) (g : wghost) : Prop :=
  ∀ e, r.1.2 = Some e → if errors_Is e ErrClosed then drained g else cancelled s g.
#[export] Instance because_stable r : Stable (wrely i) (because r).
Proof. unfold because. apply _. Qed.

Definition received_batch (r : Z * option error * list T) (g : wghost) : Prop :=
  (0 <= r.1.1 <= len r.2 ∧ (r.1.2 = None ↔ 0 < r.1.1)) ∧ because r g ∧
  match r.1.2 with None => holding_batch c (Some s) (sub r.2 0 r.1.1) g | Some _ => settled g end.

Lemma receive_batch_tri buffer :
  buffer ≠ [] → rtri (λ g, prepared i g ∧ settled g) (Receive A zero s buffer) (λ r g, prepared i g ∧ received_batch r g).
Proof.
  intros Hb. eapply (triple_pre _ _ _ _ (λ g, ∃ L ts, (L.1 = [] ∧ (OnTerminal config ≠ None → ts ≡ₚ L.2)) ∧
    prepared i g ∧ at_ (free (owned i c (Some s) (len L.2) ts)) L g)).
  2: { intros g [HF (L & ts & Hts & Hg)]. by exists L, ts. }
  apply triple_exist. intros L. apply triple_exist. intros ts. apply triple_fact. intros [HL Hts].
  assert (i <= nw)%nat as Hle.
  { pose proof c_mine as Hm. unfold Mine, group_of in Hm. repeat case_decide; [lia|lia|done]. }
  eapply triple_post.
  { apply (from_queue_prepared i i_lt). apply (receiveBatch_tri A zero items cap N i i_lt (free (owned i c (Some s) (len L.2) ts))).
    - intros h [Hid (Ho & _)]. by split.
    - intros h [_ (_ & ? & _)]. split; [done|]. by rewrite bool_decide_true. }
  intros [[n err] buf] g (Hprep & (Hn & Hlen & Hiff) & He & Hg). specialize (Hiff Hb). cbn [fst snd] in *.
  split; [done|]. split; [split; [cbn; lia|done]|]. split.
  - intros e Herr. specialize (He e Herr). cbn [fst snd] in *. destruct (errors_Is e ErrClosed); [done|].
    destruct He as (ctx & Hu & Hc). destruct Hg as (_ & _ & _ & Hk). pose proof (Hu _ Hk) as [Hs _].
    destruct Hk as (_ & _ & Hs' & _). by simplify_eq.
  - unfold receive_log in Hg. cbn [fst snd] in *. destruct err as [e|].
    + assert (n = 0) as -> by (destruct (Z.eq_dec n 0); [done|]; assert (Some e = None) by (apply Hiff; lia); done).
      rewrite receiving_none in Hg. by exists L, ts.
    + exists (receiving (take (Z.to_nat n) buf) L). split; [done|]. exists ts. unfold sub. change (Z.to_nat 0) with 0%nat.
      rewrite drop_0, Z.sub_0_r. cbn [receiving snd]. split; [intros Hcb; by rewrite Hts|].
      rewrite len_app. change (total zero_delta) with 0.
      replace (len L.2 + len (take (Z.to_nat n) buf) - len (take (Z.to_nat n) buf) - 0) with (len L.2) by lia. exact Hg.
Qed.
End receiving.

(** ** Workers *)
Section worker.
Context (i_worker : (i < nw)%nat).
Abbreviation c := (Some i : group).

#[local] Instance worker_mine : Mine i c.
Proof. unfold Mine, group_of. by rewrite decide_True. Qed.

(** A worker may leave. *)
Definition may_leave (g : wghost) : Prop := over (gx g) ∨ drained g.
#[local] Instance over_stable : Stable (wrely i) (λ g : wghost, over (gx g)).
Proof. intros g g' (_ & _ & _ & _ & _ & _ & Hx). by eapply lasting. Qed.
#[local] Instance may_leave_stable : Stable (wrely i) may_leave.
Proof. unfold may_leave. apply _. Qed.

Abbreviation settled := (settled c (Some rctx)).

(** Whether the run is aborted, as the flag says. *)
Lemma cause_tri P :
  Stable (wrely i) P → rtri P AbortCause (λ r g, (r ≠ None → over (gx g)) ∧ P g).
Proof.
  intros HP. apply triple_load; [stab..|]. intros w g Hg Hi. split; [|done]. intros Hne. left.
  unfold knows. rewrite <- (ri_life _ _ _ _ _ (wi_user _ _ _ _ _ Hi)). by apply not_eq_None_Some.
Qed.

Lemma handleReceiveError_tri e :
  rtri (λ g, (errors_Is e ErrClosed = true → drained g) ∧ settled g) (handleReceiveError rctx config (Z.of_nat i) e)
    (λ _ g, may_leave g ∧ settled g).
Proof.
  unfold handleReceiveError. destruct (errors_Is e ErrClosed).
  { apply triple_ret; [stab|]. intros g [Hd Hg]. split; [right; auto|done]. }
  eapply triple_pre; [|by intros g [_ Hg]; exact Hg].
  tri_mid (λ (b : bool) g, (b = true → over (gx g)) ∧ settled g).
  { destruct (errors_Is e Canceled).
    - tri_seq by (apply cause_tri; stab). intros cause. apply triple_ret; [stab|]. intros g [Hc Hg]. split; [|done].
      intros Hd%bool_decide_eq_true. by apply Hc, not_eq_None_Some.
    - by apply triple_ret; [stab|]. }
  intros [|].
  { apply triple_ret; [stab|]. intros g [Hc Hg]. split; [left; auto|done]. }
  eapply triple_pre; [|by intros g [_ Hg]; exact Hg]. apply triple_exist. intros L. apply triple_exist. intros ts.
  apply triple_fact. intros Hts.
  eapply triple_post; [apply recordFailureAndAbort_tri; [done|apply _..|apply owned_open]|].
  intros u g Hg. split; [left; apply Hg|]. exists L, ts. split; [done|]. eapply at_mono; [|exact Hg].
  by intros h (? & ? & _).
Qed.

Lemma runWorker_tri : rtri settled (runWorker A zero rctx config batchLimit i) (λ _ g, may_leave g ∧ settled g).
Proof.
  eapply triple_pre; [apply (triple_loop _ _ _ _ (λ buffer g, buffer ≠ [] ∧ settled g)); [stab..|]|].
  2: { intros g Hg. split; [|done]. intros Hnil%(f_equal length). rewrite length_replicate in Hnil. simpl in Hnil.
       pose proof s_batch. lia. }
  intros buffer. apply triple_fact. intros Hb. tri_seq by (apply cause_tri; stab). intros [cause|].
  { apply triple_ret; [stab|]. intros g [Hc Hg]. split; [left; auto|done]. }
  eapply triple_pre; [|by intros g [_ Hg]; exact Hg].
  tri_mid (received_batch c rctx).
  { eapply triple_conseq; [by apply (receive_batch_tri c rctx)|..]; [|by intros r g [_ ?]].
    intros g Hg. split; [|done]. intros Hi. lia. }
  intros [[n err] buf]. unfold received_batch. cbn [fst snd].
  apply triple_fact. intros [Hn Hiff]. destruct err as [e|].
  - assert (n = 0) as -> by (destruct (Z.eq_dec n 0); [done|]; assert (Some e = None) by (apply Hiff; lia); done).
    cbn [negb Z.eqb]. tri_mid (λ (_ : unit) g, (errors_Is e ErrClosed = true → drained g) ∧ settled g).
    { apply triple_ret; [unfold because; stab|]. intros g [Hw Hg]. split; [|done]. intros He. specialize (Hw e eq_refl). by rewrite He in Hw. }
    intros _. tri_seq by (apply handleReceiveError_tri). intros _. by apply triple_ret; [stab|].
  - assert (0 < n) as Hpos by (by apply Hiff). eapply triple_pre; [|by intros g [_ Hg]; exact Hg].
    tri_mid (λ _ : unit, settled).
    { destruct (Z.eqb_spec n 0); [lia|]. cbn [negb]. eapply triple_post; [|intros u g; apply settled_nothing].
      apply triple_exist. intros L. apply triple_fact. intros HL.
      eapply triple_post; [go (processHeldBatch_tri i)|]. intros u g Hg. by exists L. }
    intros _. apply triple_ret; [stab|]. intros g Hg. split; [|done]. intros Hnil%(f_equal length).
    rewrite length_app, length_replicate in Hnil. simpl in Hnil. lia.
Qed.

(** Through with the queue. *)
Definition through (h : rghost) : Prop := idle i h ∧ h_open h !! i = Some false.
#[local] Instance through_stable : Stable (rrely i) through.
Proof. intros h h' Hr [Hid Ho]. split; [by eapply idle_stable|]. by rewrite (rr_open _ _ _ Hr). Qed.

Lemma workerGoroutine_tri :
  rtri settled (workerGoroutine A zero rctx config batchLimit i) (λ _ g, ∃ L, at_ through L g).
Proof.
  tri_seq by (apply runWorker_tri). intros _.
  eapply (triple_pre _ _ _ _ (λ g, ∃ L ts, (L.1 = [] ∧ (OnTerminal config ≠ None → ts ≡ₚ L.2)) ∧
    may_leave g ∧ at_ (free (owned i c (Some rctx) (len L.2) ts)) L g)).
  2: { intros g [Hm (L & ts & Hts & Hg)]. by exists L, ts. }
  apply triple_exist. intros L. apply triple_exist. intros ts. apply triple_fact. intros [HL Hts].
  eapply triple_post; [apply (access_rule i i_lt _ may_leave _ L (λ _, through)); [apply _..|]|by intros u g Hg; exists L].
  intros w g Hmay (_ & _ & Hlog & Hid & Ho & Hs & Ht & Htot) Hi.
  pose proof (wi_user _ _ _ _ _ Hi) as Hr. pose proof Hr as []. pose proof ri_g0 as []. pose proof ri_l0 as [].
  assert (∃ b, left_ok (user w) (g_demand (gc g)) (glogs g) L b (gx g)) as [b Hb].
  { assert (∃ b, (b = true → frozen (gx g) ∧ g_demand (gc g) = false) ∧
      (aborted (h_life (gx g)) ∨ h_drained (gx g) || b = true)) as (b & Hb1 & Hb2).
    { destruct Hmay as [[Hab|Hcp]|Hd].
      - exists false. split; [done|by left].
      - destruct (li_completed0 Hcp) as [Hall _]. by destruct (open_not_closed i _ Ho Hall).
      - exists true. split; [intros _; exact (Hd I)|right; apply orb_true_r]. }
    exists b. split; try done; [lia|]. exists c, ts. by split_and!; [apply worker_mine|..]. }
  pose proof (workers_leave L b (gx g) i_worker Ho) as Hw. rewrite gi_workers0.
  assert (1 <= workers_open (gx g)) as Hpos.
  { pose proof (trues_nonneg (take nw (h_open (leave L b (gx g))))). unfold workers_open in *. lia. }
  destruct (Z.leb_spec (workers_open (gx g)) 0); [lia|]. eexists _, _. split; [done|].
  apply (can_step_same i w g _ _ (leave L b (gx g)) Hi).
  - intros j Hj. apply leave_rely; [unfold c0; lia|done..].
  - apply leave_rinv; [done..|lia].
  - split; [done|]. simpl. apply list_lookup_insert_eq. by eapply lookup_lt_Some.
Qed.
End worker.
End one.
End run.
End RunnerRun.
