(* ===== verification/RunnerEnd.v ===== *)
(** * The coordinator under every interleaving (src/workq/runner/lifecycle.go, worker.go)

    The coordinator waits for the admitted submissions, closes the queue, joins the workers,
    finalizes what is left in the queue after an abort, and publishes completion: nobody uses the
    queue any more, it is empty, and the accounting is final. *)

From Stdlib Require Import ZArith Lia.
From stdpp Require Import prelude list gmap strings.
From S2P Require Import Prelude Prog Triple RingCore RingSpec WaitSide Workq WaitConc WaitTriples WorkqConc RunnerCore RunnerSpec Runner RunnerGhost RunnerLife RunnerWork RunnerHeld RunnerRun.

Module RunnerEnd.
Import Prog Triple Ring RingSpec WaitSide Workq WaitConc WaitTriples WorkqConc RunnerCore RunnerSpec Runner RunnerGhost RunnerLife
  RunnerWork RunnerHeld RunnerRun.

Section run.
Context {E T X : Type} `{!Setup E T X}.
Abbreviation W := (world E (rstate X)).
Abbreviation rghost := (rghost (T := T)).
Abbreviation wghost := (wghost T rghost).

Lemma nw_lt : (nw < N)%nat.
Proof. pose proof s_everyone. pose proof s_runtimes. lia. Qed.

Abbreviation i := nw.
Abbreviation rtri := (triple (winv items cap N) (rquiet i) (wrely i) (rguar i)).
Abbreviation at_ := (λ κ L, rest i κ [] ([], L)).
Abbreviation free := (λ κ h, idle i h ∧ κ h).
Abbreviation c := (None : group).

#[export] Instance coordinator_mine : Mine i c.
Proof. unfold Mine, group_of. rewrite decide_False by lia. by rewrite decide_True. Qed.
#[export] Instance frozen_lasting : Lasting (frozen (T := T) (E := E) (X := X)).
Proof. intros j h h' Hr. apply Hr. Qed.
(** Before the cleanup it does not wait for items. *)
Abbreviation settled_by := (RunnerRun.settled i c).
Abbreviation settled := (settled_by None).

(** A lasting fact that is known of a ghost state. *)
Definition fact (K : rghost → Prop) (g : wghost) : Prop := K (gx g).
#[export] Instance fact_stable K j : Lasting K → Stable (wrely j) (fact K).
Proof. intros HK g g' (_ & _ & _ & _ & _ & _ & Hx) Hg. exact (lasting j _ _ Hx Hg). Qed.

Lemma fact_rule {B} K P (p : prog W B) Q :
  Lasting K → rtri P p Q → rtri (λ g, fact K g ∧ P g) p (λ a g, fact K g ∧ Q a g).
Proof. apply lasting_rule, nw_lt. Qed.

(** Waiting for a flag. *)
Lemma await_flag_tri (get : lifecycle → bool) (K : rghost → Prop) F L κ :
  Stable (wrely i) F → Stable (rrely i) κ → Lasting K →
  (∀ w g, F g → at_ (free κ) L g → winv items cap N w g → get (h_life (gx g)) = false → blocked i w g) →
  (∀ ctxs h, linv ctxs h → get (h_life h) = true → K h) →
  rtri (λ g, F g ∧ at_ (free κ) L g) (await_channel get) (λ _ g, fact K g ∧ at_ (free κ) L g).
Proof.
  intros HF Hκ HK Hb Hget. eapply triple_post; [apply (await_rule i nw_lt _ F (free κ) L (λ _ h, K h ∧ free κ h))|].
  - done.
  - apply _.
  - intros _. apply stable_and; [apply lasting|apply _].
  - by intros h [? _].
  - intros w g HFg Hg Hi. pose proof (wi_user _ _ _ _ _ Hi) as Hr. rewrite (ri_life _ _ _ _ _ Hr).
    destruct (get (h_life (gx g))) eqn:Hf; split; try done; [|intros _; by eapply Hb|by intros w' b ?%elem_of_nil].
    intros w' b [= -> ->]%list_elem_of_singleton.
    destruct (can_step_same i w g (user w) (λ h, K h ∧ free κ h) (gx g) Hi) as (? & ? & ? & ?); [done|apply Hi| |by destruct w].
    split; [|apply Hg]. by eapply Hget; [apply Hr|].
  - intros u g (? & ? & ? & HK' & ?). by split_and!.
Qed.

Section lift.
Context (s : option nat).

Lemma settled_lift {B} F (p : prog W B) (Q : B → wghost → Prop) :
  (∀ L n ts, rtri (λ g, F g ∧ at_ (free (owned i c s n ts)) L g) p (λ b g, Q b g ∧ at_ (free (owned i c s n ts)) L g)) →
  rtri (λ g, F g ∧ settled_by s g) p (λ b g, Q b g ∧ settled_by s g).
Proof.
  intros Hp. eapply (triple_pre _ _ _ _ (λ g, ∃ L ts, (L.1 = [] ∧ (OnTerminal config ≠ None → ts ≡ₚ L.2)) ∧
    F g ∧ at_ (free (owned i c s (len L.2) ts)) L g)).
  2: { intros g [HF (L & ts & Hts & Hg)]. by exists L, ts. }
  apply triple_exist. intros L. apply triple_exist. intros ts. apply triple_fact. intros Hts.
  eapply triple_post; [apply Hp|]. intros b g [HQ Hg]. split; [done|]. by exists L, ts.
Qed.

Lemma settled_keep {B} (p : prog W B) :
  (∀ L n ts, rtri (at_ (free (owned i c s n ts)) L) p (λ _, at_ (free (owned i c s n ts)) L)) →
  rtri (settled_by s) p (λ _, settled_by s).
Proof.
  intros Hp. eapply triple_conseq; [apply (settled_lift (λ _, True) p (λ _ _, True))|by intros g Hg|by intros b g [_ Hg]].
  intros L n ts. eapply triple_conseq; [apply Hp|by intros g [_ Hg]|done].
Qed.

Lemma publication_tri : rtri (settled_by s) awaitAbortPublication (λ _, settled_by s).
Proof. apply settled_keep. intros L n ts. apply (awaitAbortPublication_tri i nw_lt); apply _. Qed.
End lift.

(** *** Cleaning up after an abort *)

Lemma sub_nothing (l : list T) : sub l 0 0 = [].
Proof. done. Qed.

Abbreviation cleaning := (settled_by (Some bg)).

Lemma finalize_batch_tri xs outcomes :
  length xs = length outcomes →
  rtri (holding_batch i c (Some bg) xs) (finalizeBatch rctx config (-1) c xs outcomes) (λ _, cleaning).
Proof.
  intros Hl. eapply triple_post; [|intros u g; apply settled_nothing].
  apply triple_exist. intros L. apply triple_fact. intros HL. eapply triple_post.
  - apply (holds_finalize_tri i nw_lt c (Some bg) L _ _ _ [] xs); [by rewrite app_nil_r|]. intros n ts.
    by apply (finalizeBatch_tri i nw_lt c).
  - intros u g Hg. by exists L.
Qed.

(** The queue is closed, and the coordinator is prepared to wait. *)
Definition shut_down (g : wghost) : Prop := gdone g = true.
#[export] Instance shut_down_stable j : Stable (wrely j) shut_down.
Proof. unfold shut_down. apply _. Qed.
Lemma shut_down_prepared g : shut_down g → prepared i g.
Proof. by intros Hd _ _. Qed.

Lemma cleanupQueued_tri :
  rtri (λ g, shut_down g ∧ cleaning g) (cleanupQueued A zero rctx config batchLimit bg) (λ _ g, drained g ∧ cleaning g).
Proof.
  eapply triple_pre; [apply (triple_loop _ _ _ _ (λ buffer g, buffer ≠ [] ∧ shut_down g ∧ cleaning g)); [stab..|]|].
  2: { intros g Hg. split; [|done]. intros Hnil%(f_equal length). rewrite length_replicate in Hnil. simpl in Hnil.
       pose proof s_batch. lia. }
  intros buffer. apply triple_fact. intros Hb. tri_mid (λ r g, shut_down g ∧ received_batch i c bg r g).
  { eapply triple_conseq; [apply (keep_rule i nw_lt shut_down), (receive_batch_tri i nw_lt c bg); [apply _|apply _|done]|..].
    - intros g [Hd Hg]. split; [done|]. split; [by apply shut_down_prepared|done].
    - intros r g (? & _ & ?). by split. }
  intros [[n err] buf]. unfold received_batch. cbn [fst snd].
  eapply (triple_pre _ _ _ _ (λ g, (0 <= n <= len buf ∧ (err = None ↔ 0 < n)) ∧ shut_down g ∧ because bg (n, err, buf) g ∧
    match err with None => holding_batch i c (Some bg) (sub buf 0 n) g | Some _ => cleaning g end)); [|tauto].
  apply triple_fact. intros [Hn Hiff].
  tri_mid (λ outcomes g, length outcomes = length (sub buf 0 n) ∧ shut_down g ∧ because bg (n, err, buf) g ∧
    match err with None => holding_batch i c (Some bg) (sub buf 0 n) g | Some _ => cleaning g end).
  { assert (length (sub buf 0 n) = length (seq 0 (Z.to_nat n))) as ->.
    { rewrite length_seq. pose proof (len_sub buf 0 n). unfold len in *. lia. }
    apply collect_tri; [destruct err; stab|]. intros _. tri_seq by (apply see_tri; destruct err; stab).
    intros cause. by apply triple_ret; [destruct err; stab|]. }
  intros outcomes. apply triple_fact. intros Ho. destruct err as [e|].
  - assert (n = 0) as -> by (destruct (Z.eq_dec n 0); [done|]; assert (Some e = None) by (apply Hiff; lia); done).
    rewrite sub_nothing in *. apply nil_length_inv in Ho as ->.
    tri_mid (λ (_ : unit) g, because bg (0, Some e, buf) g ∧ cleaning g).
    { eapply triple_pre; [apply (keep_rule i nw_lt (because bg (0, Some e, buf))); [apply _|apply _|]|by intros g [_ Hg]].
      apply settled_keep. intros L n ts. unfold finalizeBatch.
      destruct (OnTerminal config); [by apply triple_ret; [stab|]|].
      tri_seq by (apply (awaitAbortPublication_tri i nw_lt); apply _). intros _. by apply triple_ret; [stab|]. }
    intros _. destruct (errors_Is e ErrClosed) eqn:He.
    + apply triple_ret; [stab|]. intros g [Hw Hg]. split; [|done]. specialize (Hw e eq_refl). by rewrite He in Hw.
    + apply triple_absurd; [stab|]. intros w g [Hw _] Hi. specialize (Hw e eq_refl). rewrite He in Hw.
      destruct Hw as [err Herr]. pose proof (gi_background _ _ _ _ (ri_g _ _ _ _ _ (wi_user _ _ _ _ _ Hi))) as Hbg.
      rewrite (wi_contexts _ _ _ _ _ Hi) in Hbg. congruence.
  - tri_mid (λ (_ : unit) g, shut_down g ∧ cleaning g).
    { eapply triple_pre; [apply (keep_rule i nw_lt shut_down); [apply _|apply _|by apply finalize_batch_tri]|by intros g (? & _ & ?)]. }
    intros _. apply triple_ret; [stab|]. intros g Hg. split; [|done].
    intros Hnil%(f_equal length). rewrite length_app, length_replicate in Hnil. simpl in Hnil.
    assert (0 < n) by (by apply Hiff). lia.
Qed.

(** *** Joining *)

Lemma close_queue_tri :
  rtri (λ g, fact frozen g ∧ settled g) Close (λ _ g, (fact frozen g ∧ shut_down g) ∧ settled g).
Proof.
  apply settled_lift. intros L n ts. set (κ h := frozen h ∧ free (owned i c None n ts) h).
  assert (Stable (rrely i) κ) as Hκ by (apply stable_and; [apply lasting|apply _]).
  eapply triple_conseq.
  - apply (from_queue_prepared i nw_lt). apply (close_tri items cap N i nw_lt κ).
    + intros h (_ & Hid & Ho & _). by split.
    + by intros h [? _].
  - intros g [Hf (? & ? & ? & Hk)]. split; [|by split_and!]. intros _ Hs. destruct Hk as (_ & _ & Hs' & _). congruence.
  - intros u g [_ [Hd (? & ? & ? & Hf & Hk)]]. by split_and!.
Qed.

(** All workers are through. *)
Definition workers_through (h : rghost) : Prop := ∀ j, (j < nw)%nat → h_open h !! j = Some false.
#[export] Instance workers_through_lasting : Lasting workers_through.
Proof. intros k h h' Hr Hw j Hj. apply (rr_through _ _ _ Hr); [lia|auto]. Qed.
Definition was_drained (h : rghost) : Prop := h_drained h = true.
#[export] Instance was_drained_lasting : Lasting was_drained.
Proof. intros k h h' Hr. apply (rr_drained _ _ _ Hr). Qed.

Lemma no_workers h : length (h_open h) = N → workers_open h = 0 → workers_through h.
Proof.
  intros Hl Hz j Hj. pose proof nw_lt. destruct (lookup_lt_is_Some_2 (h_open h) j) as [b Hb]; [lia|].
  rewrite Hb. f_equal. apply (trues_zero (take nw (h_open h)) j); [done|]. by rewrite lookup_take_lt.
Qed.

Definition closing_down (g : wghost) : Prop := gdone g = true ∨ fact (knows aborted) g.
#[export] Instance closing_down_stable j : Stable (wrely j) closing_down.
Proof. unfold closing_down. apply _. Qed.

Lemma waitWorkers_tri :
  rtri (λ g, closing_down g ∧ settled g) waitWorkers (λ _ g, fact workers_through g ∧ settled g).
Proof.
  apply settled_lift. intros L n ts.
  eapply triple_post; [apply (await_rule i nw_lt _ closing_down (free (owned i c None n ts)) L
    (λ _ h, workers_through h ∧ free (owned i c None n ts) h))|].
  - apply _.
  - apply _.
  - intros _. apply stable_and; [apply lasting|apply _].
  - by intros h [? _].
  - intros w g HF Hg Hi. pose proof (wi_user _ _ _ _ _ Hi) as Hr. destruct (Z.eqb_spec (workers (user w)) 0) as [Hz|Hnz].
    + split; [done|]. intros w' b [= -> ->]%list_elem_of_singleton.
      destruct (can_step_same i w g (user w) (λ h, workers_through h ∧ free (owned i c None n ts) h) (gx g) Hi)
        as (? & ? & ? & ?); [done|apply Hi| |by destruct w].
      split; [|apply Hg]. apply no_workers; [apply Hr|]. by rewrite <- (gi_workers _ _ _ _ (ri_g _ _ _ _ _ Hr)).
    + split; [|by intros w' b ?%elem_of_nil]. intros _. apply on_workers; [done..|].
      destruct HF as [?|Hab]; [by left|]. right. by rewrite (ri_life _ _ _ _ _ Hr).
  - intros u g (? & ? & ? & HK' & ?). by split_and!.
Qed.

(** The queue was found empty after the last submission. *)
Definition emptied (g : wghost) : Prop := fact was_drained g ∨ drained g.
#[export] Instance emptied_stable j : Stable (wrely j) emptied.
Proof. unfold emptied. apply _. Qed.

(** The coordinator turns to the items that are left. *)
Definition with_wait (h : rghost) : rghost :=
  RGhost (h_life h) (h_acct h) (h_regs h) (h_holder h) (h_pub h) (h_open h) (h_logs h) (h_term h) (h_drained h)
    (<[i := Some bg]> (h_sub h)) (h_busy h) (h_due h).

Lemma can_wait (w : W) g n ts :
  winv items cap N w g → free (owned i c None n ts) (gx g) → can_step i w g w (free (owned i c (Some bg) n ts)).
Proof.
  intros Hi [Hid (Ho & Hs & Ht & Htot)]. pose proof (wi_user _ _ _ _ _ Hi) as [].
  destruct (can_step_same i w g (user w) (free (owned i c (Some bg) n ts)) (with_wait (gx g)) Hi) as (? & ? & ? & ?); [..|by destruct w].
  - intros j Hj. split; simpl; try done; [by rewrite list_lookup_insert_ne|]. intros s k r _ Hr. by exists r.
  - split; simpl; try done; [by destruct ri_l0|by destruct ri_b0|]. destruct ri_g0. split; simpl; try done; [by rewrite length_insert|].
    intros j s [(<- & [= <-] & _)|(_ & Hj)]%list_lookup_insert_Some; [by right; left|by apply gi_waits0].
  - split; [done|]. split_and!; try done. simpl. apply list_lookup_insert_eq. by eapply lookup_lt_Some.
Qed.

Lemma turn_tri :
  rtri (λ g, fact workers_through g ∧ settled g) AbortCause
    (λ r g, match r with None => fact was_drained g ∧ settled g | Some _ => cleaning g end).
Proof.
  eapply (triple_pre _ _ _ _ (λ g, ∃ L ts, (L.1 = [] ∧ (OnTerminal config ≠ None → ts ≡ₚ L.2)) ∧
    fact workers_through g ∧ at_ (free (owned i c None (len L.2) ts)) L g)).
  2: { intros g [HF (L & ts & Hts & Hg)]. by exists L, ts. }
  apply triple_exist. intros L. apply triple_exist. intros ts. apply triple_fact. intros Hts.
  apply triple_act; [apply _|intros [e|]; apply _|]. intros w g [Hw Hg] Hi. cbn [fst snd].
  pose proof (wi_user _ _ _ _ _ Hi) as Hr. destruct (abortRecord (life (user w))) as [e|] eqn:Hn.
  - destruct (stepping i nw_lt w g w _ (free (owned i c (Some bg) (len L.2) ts)) L Hi Hg) as (g' & ? & ? & ?).
    + apply can_wait; [done|apply Hg].
    + exists g'. split_and!; try done. by exists L, ts.
  - exists g. split_and!; try done; [|by exists L, ts]. rewrite (ri_life _ _ _ _ _ Hr) in Hn. pose proof s_workers.
    destruct (gi_exit _ _ _ _ (ri_g _ _ _ _ _ Hr) 0%nat) as [[e He]|?]; [lia|apply Hw; lia|congruence|done].
Qed.

(** Through with the queue one way or the other. *)
Definition settled_any (g : wghost) : Prop := ∃ s, settled_by s g.
#[export] Instance settled_any_stable : Stable (wrely i) settled_any.
Proof. unfold settled_any. apply _. Qed.

Lemma finishWorkers_tri :
  rtri (λ g, fact frozen g ∧ closing_down g ∧ settled g) (finishWorkers A zero rctx config batchLimit bg)
    (λ _ g, fact frozen g ∧ fact workers_through g ∧ emptied g ∧ settled_any g).
Proof.
  tri_mid (λ (_ : unit) g, fact frozen g ∧ fact workers_through g ∧ settled g).
  { apply fact_rule; [apply _|apply waitWorkers_tri]. }
  intros _. tri_mid (λ (_ : unit) g, fact frozen g ∧ fact workers_through g ∧ settled g).
  { do 2 (apply fact_rule; [apply _|]). apply publication_tri. }
  intros _. tri_mid (λ (_ : unit) g, fact frozen g ∧ fact workers_through g ∧ shut_down g ∧ settled g).
  { eapply triple_conseq; [apply (fact_rule workers_through), close_queue_tri; apply _|..].
    - intros g (? & ? & ?). by split_and!.
    - intros u g (? & [? ?] & ?). by split_and!. }
  intros _. tri_mid (λ r g, fact frozen g ∧ fact workers_through g ∧ shut_down g ∧
    match r with None => fact was_drained g ∧ settled g | Some _ => cleaning g end).
  { eapply triple_pre; [apply (fact_rule frozen), (fact_rule workers_through), (keep_rule i nw_lt shut_down), turn_tri; apply _|].
    intros g (? & ? & ? & ?). by split_and!. }
  intros [cause|].
  - tri_mid (λ (_ : unit) g, fact frozen g ∧ fact workers_through g ∧ shut_down g ∧ cleaning g).
    { do 2 (apply fact_rule; [apply _|]). apply (keep_rule i nw_lt shut_down); [apply _..|]. apply publication_tri. }
    intros _. eapply triple_post; [apply fact_rule, fact_rule, cleanupQueued_tri; apply _|].
    intros u g (? & ? & ? & ?). split_and!; try done; [by right|by exists (Some bg)].
  - apply triple_ret; [stab|]. intros g (? & ? & _ & ? & ?). split_and!; try done; [by left|by exists None].
Qed.

(** *** The way to completion *)

Lemma coordinating_tri :
  rtri settled (await_channel coordinating) (λ _ g, fact (knows (λ l, coordinating l = true)) g ∧ settled g).
Proof.
  eapply triple_pre; [apply (settled_lift None (λ _, True))|done]. intros L n ts.
  apply await_flag_tri; [apply _..| |done]. intros w g _ _ Hi Hf. apply on_start; [done|].
  by rewrite (ri_life _ _ _ _ _ (wi_user _ _ _ _ _ Hi)).
Qed.

Lemma admissions_tri :
  rtri (λ g, fact (knows (λ l, coordinating l = true)) g ∧ settled g) (await_channel admissionsDone)
    (λ _ g, fact frozen g ∧ settled g).
Proof.
  apply settled_lift. intros L n ts. apply await_flag_tri; [apply _..| |intros ctxs h []; auto].
  intros w g Hc _ Hi Hf. apply on_admissions; [done|..]; by rewrite (ri_life _ _ _ _ _ (wi_user _ _ _ _ _ Hi)).
Qed.

Lemma aborting_tri :
  rtri (λ g, fact (knows aborted) g ∧ settled g) (await_channel aborting) (λ _ g, fact (knows aborted) g ∧ settled g).
Proof.
  apply settled_lift. intros L n ts.
  eapply triple_conseq; [apply (await_aborting_tri i nw_lt (owned i c None n ts))|..].
  - intros g [Hf (? & ? & ? & ? & ?)]. by split_and!.
  - intros u g (? & ? & ? & ? & ? & ?). by split_and!.
Qed.

Lemma abort_seen_tri :
  rtri (λ g, fact frozen g ∧ settled g) (look_life abortRecord)
    (λ r g, (r ≠ None → fact (knows aborted) g) ∧ fact frozen g ∧ settled g).
Proof.
  apply triple_load; [stab..|]. intros w g Hg Hi. split; [|done]. intros Hne. unfold fact, knows.
  rewrite <- (ri_life _ _ _ _ _ (wi_user _ _ _ _ _ Hi)). by apply not_eq_None_Some.
Qed.

Lemma closing_down_tri (record : option error) :
  rtri (λ g, (record ≠ None → fact (knows aborted) g) ∧ fact frozen g ∧ settled g)
    (match record with Some _ => await_channel aborting | None => Close end)
    (λ _ g, fact frozen g ∧ closing_down g ∧ settled g).
Proof.
  destruct record as [e|].
  - eapply triple_conseq; [apply (fact_rule frozen), aborting_tri; apply _|..].
    + intros g (Ha & ? & ?). split_and!; try done. by apply Ha.
    + intros u g (? & ? & ?). split_and!; try done. by right.
  - eapply triple_conseq; [apply close_queue_tri|by intros g [_ Hg]|].
    intros u g ([? ?] & ?). split_and!; try done. by left.
Qed.

(** Nobody uses the queue, it is empty, the accounting is final, and completion is not published. *)
Definition ended (a : accounting) (h : rghost) : Prop :=
  all_closed h ∧ frozen h ∧ was_drained h ∧ h_acct h = a ∧ completed (h_life h) = false.

#[export] Instance ended_stable a : Stable (rrely i) (ended a).
Proof.
  intros h h' [] (Hc & Hf & Hd & Ha & Hcp). destruct (rr_closed0 Hc Hf) as [Hc' Ha'].
  unfold ended. rewrite rr_completed0 by done. split; [done|]. split; [auto|]. split; [by apply rr_drained0|].
  split; [congruence|done].
Qed.
#[export] Instance ended_admin a : Stable admin (ended a).
Proof.
  intros h h' (Hm & Hcp & Ho & _ & _ & Hs & _ & _ & Hd & _ & _ & _ & Ha) (Hc & [Hst Hz] & Hdr & Hac & Hn).
  unfold ended, all_closed, frozen, was_drained, clients_open. rewrite Ho, Hd, (Ha Hc), Hcp. split_and!; try done. by apply Hm.
Qed.

Lemma leave_all_closed L b h u ctxs d :
  ginv u ctxs d h → frozen h → workers_through h → all_closed (leave i L b h).
Proof.
  intros [] Hf Hw j b' [(_ & <- & _)|(Hne & Hj)]%list_lookup_insert_Some; [done|].
  destruct (decide (j < nw)%nat) as [Hlt|Hge]; [by rewrite Hw in Hj by done; injection Hj|].
  destruct (decide (j < c0)%nat); [apply (gi_runtime0 j); [lia|done]|].
  destruct b'; [|done]. destruct (frozen_client h j); [done|unfold is_client; lia|done].
Qed.

(** The coordinator leaves when it begins to read the accounting. *)
Lemma last_leave_tri :
  rtri (λ g, (fact frozen g ∧ fact workers_through g ∧ emptied g) ∧ settled_any g) (load (λ w, accepted (acct (user w))))
    (λ n g, ∃ a L, accepted a = n ∧ at_ (free (ended a)) L g).
Proof.
  eapply (triple_pre _ _ _ _ (λ g, ∃ s L ts, (L.1 = [] ∧ (OnTerminal config ≠ None → ts ≡ₚ L.2)) ∧
    (fact frozen g ∧ fact workers_through g ∧ emptied g) ∧ at_ (free (owned i c s (len L.2) ts)) L g)).
  2: { intros g [HF (s & L & ts & Hts & Hg)]. by exists s, L, ts. }
  apply triple_exist. intros s. apply triple_exist. intros L. apply triple_exist. intros ts. apply triple_fact. intros [HL Hts].
  eapply triple_post; [apply (act_rule i nw_lt _ (λ g, fact frozen g ∧ fact workers_through g ∧ emptied g) _ L
    (λ n h, ∃ a, accepted a = n ∧ free (ended a) h)); [apply _..|]|].
  2: { intros n g (H1 & H2 & H3 & a & Ha & Hk). exists a, L. by split_and!. }
  intros w g (Hf & Hw & He) (_ & _ & Hlog & Hid & Ho & Hs & Ht & Htot) Hi. cbn [fst snd].
  pose proof (wi_user _ _ _ _ _ Hi) as Hr. pose proof Hr as [].
  assert (∃ b, (b = true → frozen (gx g) ∧ g_demand (gc g) = false) ∧ h_drained (gx g) || b = true) as (b & Hb1 & Hb2).
  { destruct He as [Hd|Hd]; [exists false; split; [done|by rewrite orb_false_r]|].
    exists true. split; [intros _; exact (Hd I)|apply orb_true_r]. }
  assert (left_ok i (user w) (g_demand (gc g)) (glogs g) L b (gx g)) as Hleft.
  { split; try done; [|lia]. exists c, ts. by split_and!; [apply coordinator_mine|..]. }
  assert (workers (user w) = workers_open (leave i L b (gx g))) as Hwk.
  { destruct ri_g0. rewrite gi_workers0. unfold workers_open, leave. simpl. by rewrite take_insert_ge. }
  destruct (can_step_same i w g (set_workers (workers (user w)) (user w)) (λ h, ∃ a, accepted a = accepted (acct (user w)) ∧ free (ended a) h)
    (leave i L b (gx g)) Hi) as (? & ? & ? & ?).
  - intros j Hj. apply leave_rely; [unfold c0; lia|done..].
  - apply leave_rinv; [apply nw_lt|done..].
  - exists (h_acct (gx g)). rewrite ri_acct0. split; [done|]. split; [done|].
    split; [by eapply leave_all_closed|]. split; [apply leave_frozen; [unfold c0; lia|done]|]. split; [done|].
    split; [done|]. simpl. destruct (completed (h_life (gx g))) eqn:Hcp; [|done].
    destruct (li_completed _ _ ri_l0 Hcp) as [Hall _]. by destruct (open_not_closed i (gx g) Ho Hall).
  - split_and!; try done. destruct w as [q ctxs u]. by destruct u.
Qed.

(** The snapshot of the final accounting. *)
Lemma snapshot_tri :
  rtri (λ g, (fact frozen g ∧ fact workers_through g ∧ emptied g) ∧ settled_any g) (accounting_snapshot None)
    (λ summary g, ∃ a L, (Failures summary = failures a ∧ OmittedFailures summary = omittedFailures a) ∧
       at_ (free (ended a)) L g).
Proof.
  unfold accounting_snapshot. tri_seq by (apply last_leave_tri). intros n.
  apply triple_exist. intros a. apply triple_exist. intros L. apply triple_fact. intros <-.
  tri_seq by (apply see_tri; stab). intros count. tri_seq by (apply sum_groups_keep; apply _). intros total.
  tri_mid (λ r g, r = (failures a, omittedFailures a) ∧ at_ (free (ended a)) L g).
  { apply triple_load; [stab..|]. intros w g Hg Hi. split; [|done].
    rewrite (ri_acct _ _ _ _ _ (wi_user _ _ _ _ _ Hi)). destruct Hg as (_ & _ & _ & _ & _ & _ & _ & -> & _). done. }
  intros [fs omitted]. apply triple_fact. intros [= -> ->]. apply triple_ret; [stab|]. intros g Hg. by exists a, L.
Qed.

Lemma aggregate_fields s1 s2 :
  Failures s1 = Failures s2 → OmittedFailures s1 = OmittedFailures s2 → s_AbortCause s1 = s_AbortCause s2 →
  aggregateFailures s1 = aggregateFailures s2.
Proof. unfold aggregateFailures. by intros -> -> ->. Qed.

(** *** Publishing completion *)

Section completion.
Context (a : accounting) (L : list T * list T).

(** The error of the run, as the mutex protects it. *)
Definition final (l : lifecycle) : finalError :=
  aggregateFailures (MkSummary 0 0 0 0 0 (failures a) (omittedFailures a) (abortRecord l)).

Lemma ended_incomplete ctxs h : linv ctxs h → ended a h → completed (h_life h) = false ∧ l_done (h_life h) = false.
Proof.
  intros [] (_ & _ & _ & _ & Hc). split; [done|]. destruct (l_done (h_life h)); [|done]. destruct li_done0; [done|congruence].
Qed.

(** The same once the run is complete. *)
Definition over_and_done (h : rghost) : Prop := h_acct h = a ∧ all_closed h ∧ frozen h.
#[export] Instance over_and_done_stable : Stable (rrely i) over_and_done.
Proof. intros h h' [] (Ha & Hc & Hf). destruct (rr_closed0 Hc Hf) as [Hc' Ha']. split; [congruence|auto]. Qed.
#[export] Instance over_and_done_admin : Stable admin over_and_done.
Proof.
  intros h h' (Hm & _ & Ho & _ & _ & _ & _ & _ & _ & _ & _ & _ & Ha) (Hac & Hc & [Hst Hz]).
  unfold over_and_done, all_closed, frozen, clients_open. rewrite Ho, (Ha Hc). split_and!; try done. by apply Hm.
Qed.

Definition before_completion (l : lifecycle) : Prop := quiescent l ∧ finalErr l = final l.
Definition at_completion (l : lifecycle) : Prop :=
  ((stopped l = true → coordinating l = true ∧ (active l = 0 → admissionsDone l = true)) ∧
   (aborted l → stopped l = true) ∧ (coordinatorStarted l = true → coordinating l = true)) ∧
  finalErr l = final l ∧ completed l = true.

Lemma final_tri cause :
  rtri (at_ (inside i false (λ l, quiescent l ∧ abortRecord l = cause) (ended a)) L)
    (edit_life (set_finalErr (aggregateFailures (MkSummary 0 0 0 0 0 (failures a) (omittedFailures a) cause))))
    (λ _, at_ (inside i false before_completion (ended a)) L).
Proof.
  apply (edit_tri i nw_lt (ended a)); [apply _..|]. intros ctxs h Hl (Hh & _) [Hq Hc] Hk.
  destruct (ended_incomplete ctxs h Hl Hk) as [Hcp Hd]. destruct Hl. split; [|split; [done|split; [done|split; [done|]]]].
  - split; [done|]. unfold final. simpl. by rewrite Hc.
  - split; simpl; try done; congruence.
Qed.

Lemma complete_tri :
  rtri (at_ (inside i false before_completion (ended a)) L) (edit_life (set_completed true))
    (λ _, at_ (inside i false (λ l, at_completion l ∧ l_done l = false) over_and_done) L).
Proof.
  apply plain, (act_rule i nw_lt _ _ _ _ (λ _, inside i false (λ l, at_completion l ∧ l_done l = false) over_and_done)); [apply _..|].
  intros w g _ (_ & _ & _ & (Hh & Hp & Hb) & [(H1 & H2 & H3 & H4) Hfin] & Hk) Hi. cbn [fst].
  pose proof (wi_user _ _ _ _ _ Hi) as Hr. pose proof Hr as [].
  destruct (ended_incomplete _ _ ri_l0 Hk) as [Hcp Hd]. destruct Hk as (Hc & Hf & Hdr & Ha & _).
  replace (on_user (on_life (set_completed true)) w) with (on_user (λ _, on_life (λ _, set_completed true (h_life (gx g))) (user w)) w)
    by (unfold on_user, on_life; by rewrite ri_life0).
  apply (can_step_same i w g _ _ (with_life (set_completed true (h_life (gx g))) (h_holder (gx g)) (h_pub (gx g)) (gx g)) Hi).
  - intros j Hj. split; simpl; try done; [congruence|]. intros s k r _ Hr'. by exists r.
  - apply life_rinv; [done|by split_and!|]. destruct ri_l0. split; simpl; try done; congruence.
  - split; [by split_and!|]. split; [|by split_and!]. by split_and!.
Qed.

Lemma done_tri :
  rtri (at_ (inside i false (λ l, at_completion l ∧ l_done l = false) over_and_done) L) (close_channel l_done set_done)
    (λ _, at_ (inside i false (λ l, at_completion l ∧ l_done l = true) over_and_done) L).
Proof.
  apply (closeChannel_tri i nw_lt over_and_done); [apply _..|by intros ctxs h _ [_ ?]|].
  intros ctxs h [] (Hh & _) [Hat Hd] (Ha & _). destruct Hat as (Hq & Hfin & Hcp).
  split; [done|]. split; [by split_and!|]. split; [done|]. split; [done|]. split; simpl; try done; [congruence|].
  intros _. split; [done|]. rewrite Hfin. unfold final. by rewrite Ha.
Qed.

Definition finished (h : rghost) : Prop := over_and_done h ∧ knows (λ l, l_done l = true) h.

Lemma finish_tri summary :
  Failures summary = failures a → OmittedFailures summary = omittedFailures a →
  rtri (at_ (free (ended a)) L)
    (_ ← awaitAbortPublication;
     _ ← lock;
     record ← look_life abortRecord;
     open ← match record with
            | Some _ => closed_ ← look_life aborting; mret (negb closed_)
            | None => mret false
            end;
     if open : bool then _ ← unlock; mret None
     else
       cause ← AbortCause;
       let summary := MkSummary (Accepted summary) (Succeeded summary) (Failed summary) (Abandoned summary)
         (Attempts summary) (Failures summary) (OmittedFailures summary) cause in
       _ ← edit_life (set_finalErr (aggregateFailures summary));
       _ ← edit_life (set_completed true);
       _ ← close_channel l_done set_done;
       _ ← unlock;
       mret (Some tt))
    (λ r, match r with Some _ => at_ (free finished) L | None => at_ (free (ended a)) L end).
Proof.
  intros Hf Ho. tri_seq by (apply (awaitAbortPublication_tri i nw_lt); apply _). intros _.
  tri_seq by (apply (lock_tri i nw_lt); apply _). intros _.
  tri_mid (λ _ : option error, at_ (inside i false quiescent (ended a)) L). { apply see_tri; stab. }
  intros record. tri_mid (λ _ : bool, at_ (inside i false quiescent (ended a)) L).
  { destruct record; [|by apply triple_ret; [stab|]]. tri_seq by (apply see_tri; stab). intros b. by apply triple_ret; [stab|]. }
  intros [|].
  { tri_seq by (apply (unlock_idle_tri i nw_lt (ended a)); [apply _..|done]). intros _. by apply triple_ret; [stab|]. }
  tri_seq by (apply (look_inside_tri i (ended a)); [done|apply _]). intros cause. cbv zeta.
  rewrite (aggregate_fields _ (MkSummary 0 0 0 0 0 (failures a) (omittedFailures a) cause)) by done.
  tri_seq by (apply final_tri). intros _. tri_seq by (apply complete_tri). intros _. tri_seq by (apply done_tri). intros _.
  tri_mid (λ _ : unit, at_ (free finished) L).
  { eapply weaken_rule; [apply (unlock_idle_tri i nw_lt finished L quiescent); [apply _..|done]|].
    intros h (Hh & [((H1 & H2 & H3) & H4 & H5) Hd] & Hk). split; [done|]. split; [by split_and!|]. by split. }
  intros _. by apply triple_ret; [stab|].
Qed.
End completion.

Lemma publishCompletion_tri :
  rtri (λ g, fact frozen g ∧ fact workers_through g ∧ emptied g ∧ settled_any g) (publishCompletion rctx)
    (λ _ g, ∃ a L, at_ (free (finished a)) L g).
Proof.
  tri_mid (λ (_ : unit) g, fact frozen g ∧ fact workers_through g ∧ emptied g ∧ settled_any g).
  { do 2 (apply fact_rule; [apply _|]). apply (keep_rule i nw_lt); [apply _..|]. apply triple_exist. intros s.
    eapply triple_post; [apply (settled_keep s)|by intros u g Hg; exists s]. intros L n ts.
    eapply triple_post; [apply (cancelContext_tri i nw_lt); [apply _|apply s_ctx|done]|]. by intros u g [_ Hg]. }
  intros _. tri_mid (λ summary g, ∃ a L, (Failures summary = failures a ∧ OmittedFailures summary = omittedFailures a) ∧
       at_ (free (ended a)) L g).
  { eapply triple_pre; [apply snapshot_tri|]. intros g (? & ? & ? & ?). by split_and!. }
  intros summary. apply triple_exist. intros a. apply triple_exist. intros L. apply triple_fact. intros [Hf Ho].
  eapply triple_post; [apply (triple_forever _ _ _ _ _ _ (λ _ : unit, at_ (free (finished a)) L)); [stab..|]|].
  - eapply triple_post; [by apply finish_tri|]. by intros [u|] g.
  - intros u g Hg. by exists a, L.
Qed.

Lemma coordinate_tri :
  rtri (λ g, fact (knows (λ l, coordinating l = true)) g ∧ settled g) (coordinate A zero rctx config batchLimit bg)
    (λ _ g, ∃ a L, at_ (free (finished a)) L g).
Proof.
  unfold coordinate. tri_seq by (apply fact_rule, publication_tri; apply _). intros _.
  tri_seq by (apply admissions_tri). intros _. tri_seq by (apply fact_rule, publication_tri; apply _). intros _.
  tri_mid (λ r g, (r ≠ None → fact (knows aborted) g) ∧ fact frozen g ∧ settled g); [apply abort_seen_tri|].
  intros record. tri_seq by (apply closing_down_tri). intros _. tri_seq by (apply finishWorkers_tri). intros _.
  apply publishCompletion_tri.
Qed.

Lemma coordinator_tri :
  rtri settled (coordinator A zero rctx config batchLimit bg) (λ _ g, ∃ a L, at_ (free (finished a)) L g).
Proof. tri_seq by (apply coordinating_tri). intros _. apply coordinate_tri. Qed.
End run.
End RunnerEnd.
