(* ===== verification/RunnerSubmit.v ===== *)
(** * Submissions under every interleaving (src/workq/runner/runner.go)

    A client registers before it pushes and unregisters after its push is accounted for; the last one
    out closes [admissionsDone]. The context of a submission is cancelled by the callbacks of
    [context.AfterFunc], which goroutines of the runtime run and which the submission joins. *)

From Stdlib Require Import ZArith Lia.
From stdpp Require Import prelude list gmap strings.
From S2P Require Import Prelude Prog Triple RingCore RingSpec WaitSide Workq WaitConc WaitTriples WorkqConc RunnerCore RunnerSpec Runner RunnerGhost RunnerLife RunnerWork RunnerHeld.

Module RunnerSubmit.
Import Prog Triple Ring RingSpec WaitSide Workq WaitConc WaitTriples WorkqConc RunnerCore RunnerSpec Runner RunnerGhost RunnerLife
  RunnerWork RunnerHeld.

Section run.
Context {E T X : Type} `{!Setup E T X}.
Abbreviation W := (world E (rstate X)).
Abbreviation rghost := (rghost (T := T)).
Abbreviation wghost := (wghost T rghost).

(** ** Clients come and go *)

Section one.
Context (i : nat) (i_lt : (i < N)%nat) (i_client : is_client i).
Abbreviation rtri := (triple (winv items cap N) (rquiet i) (wrely i) (rguar i)).
Abbreviation at_ := (λ κ L, rest i κ [] ([], L)).
Abbreviation free := (λ κ h, idle i h ∧ κ h).

Definition with_open (l : lifecycle) (b : bool) (h : rghost) : rghost :=
  RGhost l (h_acct h) (h_regs h) (h_holder h) (h_pub h) (<[i := b]> (h_open h)) (h_logs h) (h_term h) (h_drained h)
    (h_sub h) (h_busy h) (h_due h).

Lemma client_group : group_of i = None.
Proof. unfold group_of, is_client, c0 in *. rewrite !decide_False by lia. done. Qed.

Lemma clients_with l b b' h :
  h_open h !! i = Some b → clients_open (with_open l b' h) = clients_open h - bit b + bit b'.
Proof.
  intros Ho. unfold clients_open, with_open, is_client in *. simpl. rewrite drop_insert_ge by lia.
  apply trues_upd. rewrite lookup_drop. by replace (c0 + (i - c0))%nat with i by lia.
Qed.

Lemma workers_with l b h : workers_open (with_open l b h) = workers_open h.
Proof. unfold workers_open, with_open, is_client, c0 in *. simpl. by rewrite take_insert_ge by lia. Qed.

Lemma clients_bound h : length (h_open h) = N → 0 <= clients_open h <= Z.of_nat N.
Proof.
  intros Hl. unfold clients_open. split; [apply trues_nonneg|]. etrans; [apply trues_length|]. unfold len.
  rewrite length_drop. lia.
Qed.

(** The number of active submissions is within an [int]. *)
Lemma active_small h : length (h_open h) = N → is_int (clients_open h + 1) ∧ is_int (clients_open h - 1).
Proof. intros Hl. pose proof (clients_bound h Hl). pose proof s_bound. unfold is_int, minInt, maxInt. lia. Qed.

Definition out (h : rghost) : Prop := h_open h !! i = Some false.
Definition inn (L : list T * list T) (h : rghost) : Prop := h_open h !! i = Some true ∧ h_logs h !! i = Some L.

#[export] Instance out_stable : Stable (rrely i) out.
Proof. intros h h' Hr. unfold out. by rewrite (rr_open _ _ _ Hr). Qed.
#[export] Instance out_admin : Stable admin out.
Proof. intros h h' (_ & _ & Ho & _). unfold out. by rewrite Ho. Qed.
#[export] Instance inn_stable L : Stable (rrely i) (inn L).
Proof. intros h h' Hr. unfold inn. by rewrite (rr_open _ _ _ Hr), (rr_logs _ _ _ Hr). Qed.
#[export] Instance inn_admin L : Stable admin (inn L).
Proof. intros h h' (_ & _ & Ho & Hl & _). unfold inn. by rewrite Ho, Hl. Qed.

(** What does not depend on who is in. *)
Lemma with_open_binv x logs h l b :
  binv x logs h → (b = false → logs !! i = h_logs h !! i) → binv x logs (with_open l b h).
Proof.
  intros [] Hb. split; simpl; try done; rewrite ?length_insert; try done.
  - intros j [(<- & -> & _)|(_ & Hj)]%list_lookup_insert_Some; auto.
  - intros j c L ts Hj [(<- & _ & _)|(_ & Hoj)]%list_lookup_insert_Some; [by rewrite client_group in Hj|]. by apply bi_through0.
Qed.

Lemma with_open_ginv u ctxs d h l b :
  ginv u ctxs d h → mono (h_life h) l → (h_drained h = true → clients_open (with_open l b h) = 0) → ginv u ctxs d (with_open l b h).
Proof.
  intros [] Hm Hz. split; simpl; try done.
  - by rewrite workers_with.
  - intros j Hj [(<- & _ & _)|(_ & Hoj)]%list_lookup_insert_Some; [unfold is_client, c0 in *; lia|].
    destruct (gi_exit0 j Hj Hoj) as [[e He]|?]; [left; exists e; by apply Hm|by right].
  - intros Hd. destruct (gi_drained0 Hd) as [[Hs _] ?]. split; [|done]. split; [by apply Hm|auto].
  - intros j b' Hj [(<- & _ & _)|(_ & Hoj)]%list_lookup_insert_Some; [unfold is_client in *; lia|by eapply gi_runtime0].
Qed.

Lemma with_open_rely l b h j :
  j ≠ i → mono (h_life h) l → h_holder h = Some i → aborting l = aborting (h_life h) →
  completed l = completed (h_life h) → ¬ frozen h → rrely j h (with_open l b h).
Proof.
  intros Hj Hm Hh Ha Hcp Hf. split; simpl; try done.
  - congruence.
  - by rewrite list_lookup_insert_ne.
  - intros k Hk Hok. rewrite list_lookup_insert_ne; [done|]. unfold is_client, c0 in *. lia.
  - intros s k r _ Hr. by exists r.
Qed.

Lemma edit_open_rule (f : lifecycle → lifecycle) b p F F' κ κ' L :
  Insensitive F → Insensitive F' → Stable (rrely i) κ → Stable (rrely i) κ' →
  (∀ (w : W) g, winv items cap N w g → glogs g !! i = Some L → inside i p F κ (gx g) →
     ¬ frozen (gx g) ∧ mono (h_life (gx g)) (f (h_life (gx g))) ∧
     aborting (f (h_life (gx g))) = aborting (h_life (gx g)) ∧ completed (f (h_life (gx g))) = completed (h_life (gx g)) ∧
     F' (f (h_life (gx g))) ∧
     linv (contexts w) (with_open (f (h_life (gx g))) b (gx g)) ∧
     (b = false → glogs g !! i = h_logs (gx g) !! i) ∧ κ' (with_open (f (h_life (gx g))) b (gx g))) →
  rtri (at_ (inside i p F κ) L) (modify (on_user (on_life f))) (λ _, at_ (inside i p F' κ') L).
Proof.
  intros HF HF' Hκ Hκ' Hf. apply plain, (act_rule i i_lt _ _ _ _ (λ _, inside i p F' κ')); [apply _..|].
  intros w g _ (_ & _ & Hlog & Hin) Hi. cbn [fst]. destruct (Hf w g Hi Hlog Hin) as (Hfr & Hm & Hab & Hcp & HF1 & Hl & Hb & Hk').
  destruct Hin as ((Hh & Hp & Hby) & _ & _). pose proof (wi_user _ _ _ _ _ Hi) as [].
  replace (on_user (on_life f) w) with (on_user (λ _, on_life (λ _, f (h_life (gx g))) (user w)) w)
    by (unfold on_user, on_life; by rewrite ri_life0).
  apply (can_step_same i w g _ _ (with_open (f (h_life (gx g))) b (gx g)) Hi).
  - intros j Hj. by apply with_open_rely.
  - split; try done; [by apply with_open_binv|]. simpl. apply with_open_ginv; [by destruct ri_g0|done|].
    intros Hd. by destruct (gi_drained _ _ _ _ ri_g0 Hd).
  - by split_and!.
Qed.

Lemma registerSubmission_tri L :
  rtri (at_ (free out) L) registerSubmission (λ b : bool, if b then at_ (free (inn L)) L else at_ (free out) L).
Proof.
  tri_seq by (apply (lock_tri i i_lt); apply _). intros _.
  tri_seq by (apply (look_inside_tri i out); [done|apply _]). intros [|].
  { tri_seq by (apply (unlock_idle_tri i i_lt out); [apply _..|by intros l [? _]]). intros _. by apply triple_ret; [stab|]. }
  tri_mid (λ _ : unit, at_ (inside i false quiescent (inn L)) L).
  { apply (edit_open_rule _ true); [apply _..|]. intros w g Hi Hlog ((Hh & _) & [(H1 & H2 & H3 & H4) Hs] & Ho).
    pose proof (wi_user _ _ _ _ _ Hi) as []. destruct ri_b0, ri_g0. destruct (active_small (gx g) bi_open0) as [Hsm _].
    assert (¬ frozen (gx g)) as Hnf by (intros [? _]; congruence).
    assert (completed (h_life (gx g)) = false) as Hcp.
    { destruct (completed (h_life (gx g))) eqn:Hcp; [|done]. destruct (li_completed _ _ ri_l0 Hcp) as [_ Hd].
      destruct (gi_drained0 Hd) as [[? _] _]. congruence. }
    split; [done|]. split; [by split_and!|]. split; [done|]. split; [done|]. split; [split_and!; simpl; try done; congruence|].
    split; [|split; [done|]].
    - destruct ri_l0. split; simpl; try done.
      + rewrite li_active0, (i64_small _ Hsm). rewrite (clients_with _ false true) by done. simpl. lia.
      + intros Had. by destruct Hnf, li_admissions0.
      + congruence.
      + congruence.
    - unfold inn. simpl. split; [apply list_lookup_insert_eq; by eapply lookup_lt_Some|]. by rewrite <- bi_settled0. }
  intros _. tri_seq by (apply (unlock_idle_tri i i_lt (inn L)); [apply _..|done]). intros _. by apply triple_ret; [stab|].
Qed.

Lemma inn_not_frozen L h : inn L h → ¬ frozen h.
Proof. intros [Ho _] Hf. by eapply frozen_client. Qed.

(** Leaving: whoever is last closes [admissionsDone]. *)
Definition leaving (l : lifecycle) : Prop :=
  ((stopped l = true → coordinating l = true) ∧ (aborted l → stopped l = true) ∧
   (coordinatorStarted l = true → coordinating l = true) ∧ (completed l = true → l_done l = true)) ∧
  admissionsDone l = false.

Lemma unregisterSubmission_tri L : rtri (at_ (free (inn L)) L) unregisterSubmission (λ _, at_ (free out) L).
Proof.
  tri_seq by (apply (lock_tri i i_lt); apply _). intros _.
  tri_mid (λ _ : unit, at_ (inside i false leaving out) L).
  { apply (edit_open_rule _ false); [apply _..|]. intros w g Hi Hlog ((Hh & _) & (H1 & H2 & H3 & H4) & Hin).
    pose proof (wi_user _ _ _ _ _ Hi) as []. destruct ri_b0, ri_g0. destruct (active_small (gx g) bi_open0) as [_ Hsm].
    pose proof (inn_not_frozen _ _ Hin) as Hnf. destruct Hin as [Ho HL]. destruct ri_l0.
    assert (admissionsDone (h_life (gx g)) = false) as Had.
    { destruct (admissionsDone (h_life (gx g))); [|done]. by destruct Hnf, li_admissions0. }
    assert (completed (h_life (gx g)) = false) as Hcp.
    { destruct (completed (h_life (gx g))) eqn:Hcp; [|done]. destruct (li_completed0 eq_refl) as (Hc & _).
      by specialize (Hc i true Ho). }
    split; [done|]. split; [by split_and!|]. split; [done|]. split; [done|]. split; [split_and!; simpl; try done; naive_solver|].
    split; [|split; [intros _; congruence|]].
    - split; simpl; try done; try congruence.
      rewrite li_active0, (i64_small _ Hsm). rewrite (clients_with _ true false) by done. simpl. lia.
    - unfold out. simpl. apply list_lookup_insert_eq. by eapply lookup_lt_Some. }
  intros _. tri_seq by (apply (look_inside_tri i out); [done|apply _]). intros st.
  tri_seq by (apply (look_inside_tri i out); [done|apply _]). intros n.
  tri_mid (λ _ : unit, at_ (inside i false quiescent out) L).
  { destruct (st && (n =? 0)) eqn:Hlast.
    - apply andb_true_iff in Hlast as [-> ->%Z.eqb_eq].
      apply (closeChannel_tri i i_lt out); [apply _..|by intros ctxs h _ [[(_ & ?) _] _]|].
      intros ctxs h [] (Hh & _) [[((H1 & H2 & H3 & H4) & Had) Hst] Hz] _. split; [split_and!; simpl; auto|]. split; [by split_and!|].
      split; [done|]. split; [done|]. split; simpl; try done; [|congruence]. intros _. split; [done|]. exact (eq_trans (eq_sym li_active0) Hz).
    - apply (ret_rule i _ _ _ (λ _, inside i false quiescent out)); [apply _|].
      intros h (Hh & [[((H1 & H2 & H3 & H4) & Had) Hst] Hz] & Hk). split; [done|]. split; [|done]. split_and!; try done.
      intros Hs. split; [auto|]. intros Hact. apply andb_false_iff in Hlast as [->|Hne%Z.eqb_neq]; congruence. }
  intros _. apply (unlock_idle_tri i i_lt out); [apply _..|done].
Qed.

(** ** Registrations and the context a client waits with *)

Definition with_regs (m : gmap (nat * regKind) registration) (v : option nat) (h : rghost) : rghost :=
  RGhost (h_life h) (h_acct h) m (h_holder h) (h_pub h) (h_open h) (h_logs h) (h_term h) (h_drained h)
    (<[i := v]> (h_sub h)) (h_busy h) (h_due h).

(** Only registrations of the client's own change. *)
Record regs_ok (m : gmap (nat * regKind) registration) (v : option nat) (ctxs : gmap nat error) (h : rghost) : Prop := {
  ro_mine : ∀ s k, owner s ≠ i → m !! (s, k) = h_regs h !! (s, k);
  ro_keys : ∀ s k r, m !! (s, k) = Some r → s ≠ bg;
  ro_waits : ∀ s, v = Some s → s = rctx ∨ (owner s = i ∧ ∃ r, m !! (s, AbortOf) = Some r ∧ r_parent r = rctx ∧ r_state r ≠ Stopped);
  ro_finished : ∀ s k r, m !! (s, k) = Some r → r_state r = Finished → is_Some (ctxs !! s);
  ro_running : ∀ s k r, m !! (s, k) = Some r → r_state r = Started → ∃ j, h_busy h !! j = Some (Some (s, k));
}.

Lemma can_regs (w : W) g m v κ' :
  winv items cap N w g → regs_ok m v (contexts w) (gx g) → κ' (with_regs m v (gx g)) →
  can_step i w g (on_user (λ r, set_regs m r) w) κ'.
Proof.
  intros Hi [] Hκ. pose proof (wi_user _ _ _ _ _ Hi) as [].
  assert (i ≠ nw) as Hnw by (unfold is_client, c0 in *; lia).
  apply (can_step_same i w g _ _ (with_regs m v (gx g)) Hi); [|split|done]; simpl; try done.
  - intros j Hj. split; simpl; try done; [by rewrite list_lookup_insert_ne|].
    intros s k r Ho Hr. exists r. rewrite ro_mine0 by congruence. by split.
  - by destruct ri_l0.
  - by destruct ri_b0.
  - destruct ri_g0. split; simpl; try done; [by rewrite length_insert|].
    intros j s [(<- & Hv & _)|(Hne & Hj)]%list_lookup_insert_Some; [destruct (ro_waits0 s Hv); auto|].
    destruct (gi_waits0 j s Hj) as [?|[?|(Hc & Ho & r & Hr)]]; [auto..|]. right. right. split_and!; [done..|].
    exists r. rewrite ro_mine0 by congruence. done.
Qed.

(** A submission that waits with context [v]. *)
Definition waiting (v : option nat) (L : list T * list T) (h : rghost) : Prop := inn L h ∧ h_sub h !! i = Some v.
#[export] Instance waiting_stable v L : Stable (rrely i) (waiting v L).
Proof. intros h h' Hr [Hin Hs]. split; [by eapply inn_stable|]. by rewrite (rr_sub _ _ _ Hr). Qed.
#[export] Instance waiting_admin v L : Stable admin (waiting v L).
Proof. intros h h' Ha [Hin Hs]. split; [by eapply inn_admin|]. by destruct Ha as (_ & _ & _ & _ & _ & -> & _). Qed.

Lemma waiting_open v L h : waiting v L h → h_open h !! i = Some true.
Proof. by intros [[? _] _]. Qed.

(** Reading while the context to wait with is settled. *)
Lemma begin_wait_tri {B} (get : W → B) L :
  rtri (at_ (free (inn L)) L) (load get) (λ _, at_ (free (waiting (Some rctx) L)) L).
Proof.
  apply plain, (act_rule i i_lt _ _ _ _ (λ _, free (waiting (Some rctx) L))); [apply _..|].
  intros w g _ (_ & _ & _ & Hid & Hin) Hi. cbn [fst snd]. pose proof (wi_user _ _ _ _ _ Hi) as []. destruct ri_g0.
  destruct (can_regs w g (h_regs (gx g)) (Some rctx) (free (waiting (Some rctx) L)) Hi) as (? & ? & ? & ?).
  - split; try done. intros s [= <-]. by left.
  - split; [done|]. split; [done|]. simpl. apply list_lookup_insert_eq. by rewrite gi_sub0.
  - split_and!; try done. destruct w as [q ctxs u]. destruct u. simpl in *. by subst.
Qed.

Section submission.
Context (sctx : nat) (sctx_mine : owner sctx = i) (sctx_real : sctx ≠ bg).

(** A registration of the submission that nobody else stops. *)
Definition armed (k : regKind) (h : rghost) : Prop :=
  ∃ r, h_regs h !! (sctx, k) = Some r ∧ r_state r ≠ Stopped.
(** It has started and is not stopped any more. *)
Definition fired (k : regKind) (h : rghost) : Prop :=
  ∃ r, h_regs h !! (sctx, k) = Some r ∧ r_state r ≠ Stopped ∧ r_state r ≠ Armed.

#[local] Instance armed_stable k : Stable (rrely i) (armed k).
Proof.
  intros h h' Hr (r & Hk & Hs). destruct (rr_regs _ _ _ Hr sctx k r sctx_mine Hk) as (r' & Hr' & _ & H1 & _).
  exists r'. auto.
Qed.
#[local] Instance fired_stable k : Stable (rrely i) (fired k).
Proof.
  intros h h' Hr (r & Hk & Hs & Ha). destruct (rr_regs _ _ _ Hr sctx k r sctx_mine Hk) as (r' & Hr' & _ & H1 & H2 & _).
  exists r'. auto.
Qed.
#[local] Instance armed_admin k : Stable admin (armed k).
Proof. intros h h' (_ & _ & _ & _ & _ & _ & _ & Hr & _). unfold armed. by rewrite Hr. Qed.

Definition joined (b : bool) (h : rghost) : Prop := b = true → armed Caller h ∧ armed AbortOf h.
#[local] Instance joined_stable b : Stable (rrely i) (joined b).
Proof. unfold joined. apply _. Qed.
#[local] Instance joined_admin b : Stable admin (joined b).
Proof. unfold joined. apply _. Qed.

Lemma register_ok parent k v (w : W) g :
  winv items cap N w g → (v = Some rctx ∨ (v = Some sctx ∧ k = AbortOf ∧ parent = rctx)) →
  regs_ok (<[(sctx, k) := Registration parent Armed]> (h_regs (gx g))) v (contexts w) (gx g).
Proof.
  intros Hi Hv. pose proof (ri_g _ _ _ _ _ (wi_user _ _ _ _ _ Hi)) as []. split.
  - intros s k' Ho. apply lookup_insert_ne. congruence.
  - intros s k' r [([= <- <-] & _)|(_ & Hr)]%lookup_insert_Some; [done|by eapply gi_keys0].
  - intros s ->. destruct Hv as [[= ->]|([= ->] & -> & ->)]; [by left|]. right. split; [done|].
    eexists. split; [apply lookup_insert_eq|done].
  - intros s k' r [(_ & <-)|(_ & Hr)]%lookup_insert_Some; [done|by apply gi_finished0 with k'].
  - intros s k' r [(_ & <-)|(_ & Hr)]%lookup_insert_Some; [done|by apply gi_running0].
Qed.

Lemma registerCancellation_tri parent k v K L :
  (v = Some rctx ∨ (v = Some sctx ∧ k = AbortOf ∧ parent = rctx)) →
  Stable (rrely i) K → (∀ h m, K h → (∀ k', k' ≠ k → m !! (sctx, k') = h_regs h !! (sctx, k')) → K (with_regs m v h)) →
  rtri (at_ (free (λ h, waiting (Some rctx) L h ∧ K h)) L) (registerCancellation parent sctx k)
    (λ _, at_ (free (λ h, waiting v L h ∧ K h ∧ armed k h)) L).
Proof.
  intros Hv HK HKm. apply plain, (act_rule i i_lt _ _ _ _ (λ _, free (λ h, waiting v L h ∧ K h ∧ armed k h))); [apply _..|].
  intros w g _ (_ & _ & _ & Hid & [Hin Hs] & Hk) Hi. cbn [fst]. pose proof (wi_user _ _ _ _ _ Hi) as [].
  set (m := <[(sctx, k) := Registration parent Armed]> (h_regs (gx g))).
  replace (on_user _ w) with (on_user (λ r, set_regs m r) w) by (unfold on_user; by rewrite ri_regs0).
  apply (can_regs w g m v); [done|by apply register_ok|]. split; [done|]. split; [|split].
  - split; [done|]. simpl. apply list_lookup_insert_eq. by eapply lookup_lt_Some.
  - apply HKm; [done|]. intros k' Hk'. apply lookup_insert_ne. congruence.
  - exists (Registration parent Armed). split; [apply lookup_insert_eq|done].
Qed.

Definition sub_at (b : bool) (v : option nat) (L : list T * list T) (h : rghost) : Prop := waiting v L h ∧ joined b h.
#[local] Instance sub_at_stable b v L : Stable (rrely i) (sub_at b v L).
Proof. unfold sub_at. apply _. Qed.
#[local] Instance sub_at_admin b v L : Stable admin (sub_at b v L).
Proof. unfold sub_at. apply _. Qed.

Lemma cancelOwn_tri err cause κ L :
  Stable (rrely i) κ → errors_Is err ErrClosed = false →
  rtri (at_ κ L) (cancelContext sctx err cause) (λ _, at_ κ L).
Proof. intros Hκ He. eapply triple_post; [by apply cancelContext_tri|]. by intros u g [_ Hg]. Qed.

(** Contexts of the submission: its own when the caller's can be cancelled. *)
Lemma arrange_tri ctx (cancellable : bool) L :
  rtri (at_ (free (waiting (Some rctx) L)) L)
    (if cancellable then
       _ ← registerCancellation ctx sctx Caller;
       _ ← registerCancellation rctx sctx AbortOf;
       err ← ctxErr ctx;
       _ ← match err with Some e => cancelContext sctx Canceled e | None => mret tt end;
       err ← ctxErr rctx;
       match err with Some _ => cancelContext sctx Canceled Canceled | None => mret tt end
     else mret tt)
    (λ _, at_ (free (sub_at cancellable (Some (if cancellable then sctx else rctx)) L)) L).
Proof.
  destruct cancellable.
  2: { apply (ret_rule i _ _ _ (λ _, free (sub_at false (Some rctx) L))); [apply _|]. intros h [? ?]. by split_and!. }
  tri_mid (λ _ : unit, at_ (free (λ h, waiting (Some rctx) L h ∧ armed Caller h)) L).
  { eapply triple_conseq; [apply (registerCancellation_tri ctx Caller (Some rctx) (λ _, True)); [by left|apply _|done]|..].
    - intros g. apply at_mono. by intros h [? ?].
    - intros u g. apply at_mono. by intros h (? & ? & _ & ?). }
  intros _. tri_mid (λ _ : unit, at_ (free (sub_at true (Some sctx) L)) L).
  { eapply triple_post; [apply (registerCancellation_tri rctx AbortOf (Some sctx) (armed Caller)); [by right|apply _|]|].
    - intros h m (r & Hr & Hs) Hm. exists r. simpl. by rewrite Hm.
    - intros u g. apply at_mono. intros h (? & ? & ? & ?). by split_and!. }
  intros _. tri_seq by (apply see_tri; stab). intros err. tri_mid (λ _ : unit, at_ (free (sub_at true (Some sctx) L)) L).
  { destruct err; [by apply cancelOwn_tri; [apply _|]|by apply triple_ret; [stab|]]. }
  intros _. tri_seq by (apply see_tri; stab). intros [e|]; [by apply cancelOwn_tri; [apply _|]|by apply triple_ret; [stab|]].
Qed.

(** Pushing, and accounting for what was pushed. *)
Lemma push_admitted_tri b s xs L :
  len xs <= 2 ^ 62 →
  rtri (at_ (free (sub_at b (Some s) L)) L) (PushBatch A s xs)
    (λ r g, 0 <= r.1 <= len xs ∧ at_ (free (sub_at b (Some s) L)) (pushing (batch_log xs r) L) g).
Proof.
  intros Hlen. assert (¬ (i <= nw)%nat) as Hnw by (unfold is_client, c0 in *; lia).
  apply (from_queue i i_lt); [lia|]. apply (pushBatch_tri A items cap N i i_lt (free (sub_at b (Some s) L))); [..|done].
  - intros h [Hid [[[Ho _] _] _]]. by split.
  - intros h (_ & [Hin _] & _). by eapply inn_not_frozen.
  - intros h (_ & [_ ?] & _). split; [done|]. by rewrite bool_decide_false.
Qed.

Definition with_accepted (a : accounting) (L : list T * list T) (h : rghost) : rghost :=
  RGhost (h_life h) a (h_regs h) (h_holder h) (h_pub h) (h_open h) (<[i := L]> (h_logs h)) (h_term h) (h_drained h)
    (<[i := None]> (h_sub h)) (h_busy h) (h_due h).

Lemma accepted_more (l : list (list T * list T)) L xs :
  l !! i = Some L → len (concat (fst <$> <[i := pushing xs L]> l)) = len (concat (fst <$> l)) + len xs.
Proof.
  intros Hi. pose proof (concat_upd fst l i L (pushing xs L) xs Hi) as Hp. unfold len.
  rewrite Hp by done. rewrite length_app. lia.
Qed.

Lemma recordAccepted_tri b s xs L :
  rtri (at_ (free (sub_at b (Some s) L)) (pushing xs L)) (recordAccepted (u64 (len xs)))
    (λ _, at_ (free (sub_at b None (pushing xs L))) (pushing xs L)).
Proof.
  apply plain, (act_rule i i_lt _ _ _ _ (λ _, free (sub_at b None (pushing xs L)))); [apply _..|].
  intros w g _ (_ & _ & Hlog & Hid & [[[Ho HL] Hs] Hj]) Hi. cbn [fst]. pose proof (wi_user _ _ _ _ _ Hi) as [].
  set (a := Accounting (accepted (h_acct (gx g)) +64 u64 (len xs)) (workerOutcomes (h_acct (gx g))) (cleanupOutcomes (h_acct (gx g)))
    (failures (h_acct (gx g))) (omittedFailures (h_acct (gx g)))).
  replace (on_user _ w) with (on_user (λ _, on_acct (λ _, a) (user w)) w) by (unfold on_user, on_acct, a; by rewrite ri_acct0).
  assert (∀ c, the_group c a = the_group c (h_acct (gx g))) as Hg by (by intros [c|]).
  pose proof (lookup_lt_Some _ _ _ HL) as Hlt. pose proof (lookup_lt_Some _ _ _ Hs) as Hlt'.
  assert (i ≠ nw) as Hnw by (unfold is_client, c0 in *; lia).
  apply (can_step_same i w g _ _ (with_accepted a (pushing xs L) (gx g)) Hi); [|split|]; simpl; try done.
  - intros j Hj'. split; simpl; try done; [by rewrite list_lookup_insert_ne..|by intros Hc; destruct (open_not_closed i (gx g) Ho)|].
    intros s' k r _ Hr. by exists r.
  - by destruct ri_l0.
  - destruct ri_b0. split; simpl; try done; rewrite ?length_insert; try done.
    + intros j Hoj. rewrite list_lookup_insert_ne by congruence. auto.
    + rewrite (accepted_more _ L) by done. rewrite bi_accepted0. wrap_lia.
    + intros j L' [(<- & <- & _)|(_ & HLj)]%list_lookup_insert_Some; [|by apply bi_roles0].
      specialize (bi_roles0 i L HL). rewrite client_group in *. destruct bi_roles0 as [? _]. split; [done|]. unfold is_client in *; lia.
    + intros j c L' ts Hc Hoj HLj Hts. rewrite list_lookup_insert_ne in HLj by congruence. rewrite Hg. by eapply bi_through0.
  - destruct ri_g0. split; simpl; try done; [by rewrite length_insert|].
    intros j s' [(_ & [=] & _)|(_ & Hsj)]%list_lookup_insert_Some. by apply gi_waits0.
  - split; [done|]. split; [|done]. split; [split; [done|]|]; by apply list_lookup_insert_eq.
Qed.

Lemma classifyPushError_tri b v L err :
  rtri (at_ (free (sub_at b v L)) L) (classifyPushError rctx config err) (λ _, at_ (free (sub_at b v L)) L).
Proof.
  unfold classifyPushError. destruct err as [e|]; [|by apply triple_ret; [stab|]]. cbv zeta.
  assert (∀ failure, rtri (at_ (free (sub_at b v L)) L)
    (_ ← recordFailure (ErrorLimit config) (Failure BoundaryQueueOperation (-1) (Some failure));
     _ ← abort rctx (Some failure); mret (Some failure)) (λ _ : option error, at_ (free (sub_at b v L)) L)) as Hfail.
  { intros failure. tri_seq by (apply recordFailure_tri; [done|apply _..|]; intros h [? _]; by eapply waiting_open). intros _.
    tri_mid (λ _ : unit, at_ (free (sub_at b v L)) L); [|intros _; by apply triple_ret; [stab|]].
    eapply triple_post; [apply (abort_tri i i_lt); apply _|]. intros u g. apply at_mono. by intros h (? & ? & _). }
  destruct (errors_Is e ErrClosedDuringPush); [apply Hfail|]. destruct (errors_Is e ErrClosed); [apply Hfail|].
  destruct (_ || _); [|apply Hfail]. by apply triple_ret; [stab|].
Qed.

(** Stopping a callback, or waiting until it has run. *)
Lemma stopped_ok k (w : W) g parent :
  winv items cap N w g →
  regs_ok (<[(sctx, k) := Registration parent Stopped]> (h_regs (gx g))) None (contexts w) (gx g).
Proof.
  intros Hi. pose proof (ri_g _ _ _ _ _ (wi_user _ _ _ _ _ Hi)) as []. split.
  - intros s k' Ho. apply lookup_insert_ne. congruence.
  - intros s k' r [([= <- <-] & _)|(_ & Hr)]%lookup_insert_Some; [done|by eapply gi_keys0].
  - done.
  - intros s k' r [(_ & <-)|(_ & Hr)]%lookup_insert_Some; [done|by apply gi_finished0 with k'].
  - intros s k' r [(_ & <-)|(_ & Hr)]%lookup_insert_Some; [done|by apply gi_running0].
Qed.

Lemma stopAndJoin_tri k K L :
  Stable (rrely i) K → (∀ h m, K h → (∀ k', k' ≠ k → m !! (sctx, k') = h_regs h !! (sctx, k')) → K (with_regs m None h)) →
  rtri (at_ (free (λ h, waiting None L h ∧ K h ∧ armed k h)) L) (stopAndJoin sctx k)
    (λ _, at_ (free (λ h, waiting None L h ∧ K h)) L).
Proof.
  intros HK HKm. tri_mid (λ (b : bool), at_ (free (λ h, (waiting None L h ∧ K h) ∧ (b = false → fired k h))) L).
  { apply plain, (act_rule i i_lt _ _ _ _ (λ b : bool, free (λ h, (waiting None L h ∧ K h) ∧ (b = false → fired k h)))); [apply _..|].
    intros w g _ (_ & _ & _ & Hid & [Hin Hs] & Hk & r & Hr & Hst) Hi. pose proof (wi_user _ _ _ _ _ Hi) as [].
    rewrite ri_regs0, Hr. case_bool_decide as Harm; cbn [fst snd].
    - set (m := <[(sctx, k) := Registration (r_parent r) Stopped]> (h_regs (gx g))).
      replace (on_user _ w) with (on_user (λ r, set_regs m r) w) by (unfold on_user; by rewrite ri_regs0).
      apply (can_regs w g m None); [done|by apply stopped_ok|]. split; [done|]. split; [|done]. split.
      + split; [done|]. simpl. apply list_lookup_insert_eq. by eapply lookup_lt_Some.
      + apply HKm; [done|]. intros k' Hk'. apply lookup_insert_ne. congruence.
    - destruct (can_step_same i w g (user w) (free (λ h, (waiting None L h ∧ K h) ∧ (false = false → fired k h))) (gx g) Hi)
        as (? & ? & ? & ?); [done|apply Hi| |by destruct w].
      split; [done|]. split; [done|]. intros _. by exists r. }
  intros [|].
  { apply (ret_rule i _ _ _ (λ _, free (λ h, waiting None L h ∧ K h))); [apply _|]. by intros h (? & ? & _). }
  apply plain, (await_rule i i_lt _ _ _ _ (λ _, free (λ h, waiting None L h ∧ K h))); [apply _..|by intros h [? _]|].
  intros w g _ (_ & _ & _ & Hid & Hk & Hfired) Hi. destruct (Hfired eq_refl) as (r & Hr & H1 & H2).
  pose proof (wi_user _ _ _ _ _ Hi) as []. rewrite ri_regs0, Hr. case_bool_decide as Hfin.
  - split; [done|]. intros w' b [= -> ->]%list_elem_of_singleton.
    destruct (can_step_same i w g (user w) (free (λ h, waiting None L h ∧ K h)) (gx g) Hi) as (? & ? & ? & ?); [done|done|done|by destruct w].
  - split; [|by intros w' b ?%elem_of_nil]. intros _. apply (on_callback i w g sctx k r); [done..|].
    by destruct (r_state r).
Qed.

Lemma join_both_tri b L :
  rtri (at_ (free (sub_at b None L)) L)
    (if b then _ ← cancelContext sctx Canceled Canceled; _ ← stopAndJoin sctx AbortOf; stopAndJoin sctx Caller else mret tt)
    (λ _, at_ (free (inn L)) L).
Proof.
  destruct b.
  2: { apply (ret_rule i _ _ _ (λ _, free (inn L))); [apply _|]. by intros h (? & [? _] & _). }
  tri_seq by (by apply cancelOwn_tri; [apply _|]). intros _.
  tri_mid (λ _ : unit, at_ (free (λ h, waiting None L h ∧ armed Caller h)) L).
  { eapply weaken_rule; [apply (stopAndJoin_tri AbortOf (armed Caller)); [apply _|]|].
    - intros h m (r & Hr & Hs) Hm. exists r. simpl. by rewrite Hm.
    - intros h (? & ? & Hj). destruct (Hj eq_refl). by split_and!. }
  intros _. eapply triple_conseq; [apply (stopAndJoin_tri Caller (λ _, True)); [apply _|done]|..].
  - intros g. apply at_mono. by intros h (? & ? & ?).
  - intros u g. apply at_mono. by intros h (? & [? _] & _).
Qed.

Lemma nothing_pushed (xs : list T) err L : pushing (batch_log xs (0, err)) L = L.
Proof. apply pushing_none. Qed.

Lemma SubmitBatch_tri ctx cancellable xs L :
  len xs <= 2 ^ 62 →
  rtri (at_ (free out) L) (SubmitBatch A rctx config ctx cancellable sctx xs)
    (λ r, at_ (free out) (pushing (batch_log xs r) L)).
Proof.
  intros Hlen. unfold SubmitBatch. tri_seq by (apply registerSubmission_tri). intros [|]; cbn [negb].
  2: { apply triple_ret; [stab|]. intros g. by rewrite nothing_pushed. }
  tri_mid (λ r, at_ (free (inn (pushing (batch_log xs r) L))) (pushing (batch_log xs r) L)).
  2: { intros r. tri_seq by (apply unregisterSubmission_tri). intros _. by apply triple_ret; [stab|]. }
  assert (∀ err g, at_ (free (inn L)) L g →
    at_ (free (inn (pushing (batch_log xs (0, err)) L))) (pushing (batch_log xs (0, err)) L) g) as Hnone.
  { intros err g. by rewrite nothing_pushed. }
  destruct (len xs =? 0); [by apply triple_ret; [stab|apply Hnone]|].
  tri_seq by (apply begin_wait_tri). intros [e|].
  { apply triple_ret; [stab|]. intros g Hg. apply Hnone. eapply at_mono; [|exact Hg]. by intros h (? & ? & _). }
  cbv zeta. tri_seq by (apply arrange_tri). intros _.
  tri_seq by (by apply push_admitted_tri). intros [n err]. apply triple_fact. cbn [fst]. intros Hn.
  set (L' := pushing (batch_log xs (n, err)) L).
  tri_mid (λ _ : unit, at_ (free (sub_at cancellable None L')) L').
  { replace n with (len (batch_log xs (n, err))); [apply recordAccepted_tri|].
    unfold batch_log, len in *. cbn [fst]. rewrite length_take. lia. }
  intros _. tri_mid (λ _ : option error, at_ (free (sub_at cancellable None L')) L').
  { destruct err as [e|]; [|by apply triple_ret; [stab|]]. destruct (errors_Is e Canceled); [|by apply triple_ret; [stab|]].
    apply see_tri; stab. }
  intros err1. tri_seq by (apply classifyPushError_tri). intros err2.
  tri_seq by (apply join_both_tri). intros _. by apply triple_ret; [stab|].
Qed.

End submission.

(** ** The other calls of a client *)

Lemma StopAdmission_tri L : rtri (at_ (free out) L) StopAdmission (λ _ g, stopped (h_life (gx g)) = true ∧ at_ (free out) L g).
Proof.
  eapply triple_post; [apply (stopAdmission_tri i i_lt); apply _|]. intros u g Hg. split; [apply Hg|].
  eapply at_mono; [|exact Hg]. by intros h (? & ? & _).
Qed.

Lemma AbortRun_tri cause L : rtri (at_ (free out) L) (AbortRun rctx cause) (λ _ g, over (gx g) ∧ at_ (free out) L g).
Proof.
  eapply triple_post; [apply (abort_tri i i_lt); apply _|]. intros u g Hg. split; [apply Hg|].
  eapply at_mono; [|exact Hg]. by intros h (? & ? & _).
Qed.

Lemma stay (w : W) g κ : winv items cap N w g → κ (gx g) → can_step i w g w κ.
Proof. intros Hi Hk. destruct (can_step_same i w g (user w) κ (gx g) Hi) as (? & ? & ? & ?); [done|apply Hi|done|by destruct w]. Qed.

Lemma await_done_tri L : rtri (at_ (free out) L) (await_channel l_done) (λ _, at_ (free out) L).
Proof.
  apply plain, (await_rule i i_lt _ _ _ _ (λ _, free out)); [apply _..|by intros h [? _]|].
  intros w g _ (_ & _ & _ & Hk) Hi. destruct (l_done (life (user w))) eqn:Hd; split; try done.
  - intros w' b [= -> ->]%list_elem_of_singleton. by apply stay.
  - intros _. apply on_done; [done|apply Hk|done].
  - by intros w' b ?%elem_of_nil.
Qed.

Lemma WaitDone_tri L : rtri (at_ (free out) L) WaitDone (λ _, at_ (free out) L).
Proof. tri_seq by (apply await_done_tri). intros _. apply see_tri; stab. Qed.

Lemma selectGrace_tri grace L : rtri (at_ (free out) L) (selectGrace grace) (λ _, at_ (free out) L).
Proof.
  apply plain, (await_rule i i_lt _ _ _ _ (λ _, free out)); [apply _..|by intros h [? _]|].
  intros w g _ (_ & _ & _ & Hk) Hi. split.
  - intros [Hd _]%app_nil. destruct (l_done (life (user w))) eqn:E1; [done|]. apply on_done; [done|apply Hk|done].
  - intros w' b [Hin|Hin]%elem_of_app; case_match; try (by apply elem_of_nil in Hin);
      apply list_elem_of_singleton in Hin as [= -> ->]; by apply stay.
Qed.

Lemma Shutdown_tri grace L : rtri (at_ (free out) L) (Shutdown rctx grace) (λ _, at_ (free out) L).
Proof.
  tri_mid (λ _ : unit, at_ (free out) L). { eapply triple_post; [apply StopAdmission_tri|]. by intros u g [_ Hg]. }
  intros _. tri_seq by (apply selectGrace_tri). intros [|].
  - tri_mid (λ _ : unit, at_ (free out) L); [by apply triple_ret; [stab|]|]. intros _. apply WaitDone_tri.
  - tri_mid (λ _ : unit, at_ (free out) L); [|intros _; apply WaitDone_tri].
    tri_seq by (apply see_tri; stab). intros err. eapply triple_post; [apply AbortRun_tri|]. by intros u g [_ Hg].
Qed.

Lemma SummaryOf_tri L : rtri (at_ (free out) L) SummaryOf (λ _, at_ (free out) L).
Proof.
  tri_seq by (apply see_tri; stab). intros cause. unfold accounting_snapshot.
  tri_seq by (apply see_tri; stab). intros n. tri_seq by (apply see_tri; stab). intros count.
  tri_mid (λ _ : outcomeDelta, at_ (free out) L).
  { apply sum_groups_keep; apply _. }
  intros total. tri_mid (λ _ : list FailureRecord * Z, at_ (free out) L); [apply see_tri; stab|].
  intros [fs omitted]. by apply triple_ret; [stab|].
Qed.

(** Time passes. *)
Definition tick (t : Z) : prog W unit := modify (on_user (λ r, set_clock (clock r + t) r)).

Lemma tick_tri t κ L : Stable (rrely i) κ → rtri (at_ κ L) (tick t) (λ _, at_ κ L).
Proof.
  intros Hκ. apply plain, (act_rule i i_lt _ _ _ _ (λ _, κ)); [apply _..|]. intros w g _ (_ & _ & _ & Hk) Hi. cbn [fst].
  apply (can_step_same i w g (set_clock (clock (user w) + t) (user w)) κ (gx g) Hi); [done| |done].
  pose proof (wi_user _ _ _ _ _ Hi) as []. split; try done. by destruct ri_g0.
Qed.
End one.

(** ** Goroutines of the runtime *)

Section runtime.
Context (i : nat) (i_lt : (i < N)%nat) (i_runtime : (nw < i < c0)%nat) (L : list T * list T).
Abbreviation rtri := (triple (winv items cap N) (rquiet i) (wrely i) (rguar i)).
Abbreviation at_ := (λ κ, rest i κ [] ([], L)).

Definition with_busy (m : gmap (nat * regKind) registration) (v : option (nat * regKind)) (h : rghost) : rghost :=
  RGhost (h_life h) (h_acct h) m (h_holder h) (h_pub h) (h_open h) (h_logs h) (h_term h) (h_drained h)
    (h_sub h) (<[i := v]> (h_busy h)) (h_due h).

(** It runs the callback of [key]. *)
Definition runs (key : nat * regKind) (h : rghost) : Prop :=
  h_holder h ≠ Some i ∧ h_pub h ≠ Some i ∧ h_busy h !! i = Some (Some key).
#[local] Instance runs_stable key : Stable (rrely i) (runs key).
Proof.
  intros h h' [] (H1 & H2 & H3). split_and!; [by rewrite <- rr_holder0|by rewrite <- rr_pub0|by rewrite rr_busy0].
Qed.

(** Registrations only advance. *)
Record busy_ok (m : gmap (nat * regKind) registration) (v : option (nat * regKind)) (ctxs : gmap nat error) (h : rghost) : Prop := {
  bo_regs : ∀ s k r, h_regs h !! (s, k) = Some r → ∃ r', m !! (s, k) = Some r' ∧ reg_rely r r';
  bo_keys : ∀ s k r, m !! (s, k) = Some r → is_Some (h_regs h !! (s, k));
  bo_finished : ∀ s k r, m !! (s, k) = Some r → r_state r = Finished → is_Some (ctxs !! s);
  bo_running : ∀ s k r, m !! (s, k) = Some r → r_state r = Started → ∃ j, <[i := v]> (h_busy h) !! j = Some (Some (s, k));
}.

Lemma can_busy (w : W) g m v κ' :
  winv items cap N w g → busy_ok m v (contexts w) (gx g) → κ' (with_busy m v (gx g)) →
  can_step i w g (on_user (λ r, set_regs m r) w) κ'.
Proof.
  intros Hi [] Hκ. pose proof (wi_user _ _ _ _ _ Hi) as [].
  apply (can_step_same i w g _ _ (with_busy m v (gx g)) Hi); [|split|done]; simpl; try done.
  - intros j Hj. split; simpl; try done; [by rewrite list_lookup_insert_ne|]. intros s k r _. apply bo_regs0.
  - by destruct ri_l0.
  - by destruct ri_b0.
  - destruct ri_g0. split; simpl; try done; [by rewrite length_insert|..].
    + intros j s Hj. destruct (gi_waits0 j s Hj) as [?|[?|(Hc & Ho & r & Hr & Hp & Hs)]]; [auto..|]. right. right.
      destruct (bo_regs0 _ _ _ Hr) as (r' & Hr' & Hp' & Hs' & _). split_and!; [done..|]. exists r'. split_and!; [done|congruence|auto].
    + intros s k r Hr. destruct (bo_keys0 s k r Hr) as [r' Hr']. by eapply gi_keys0.
    + intros j key [(<- & -> & _)|(_ & Hj)]%list_lookup_insert_Some; [lia|by eapply gi_runs0].
Qed.

Lemma elem_of_fires (w w' : W) key parent :
  (w', (key, parent)) ∈ fires w → ∃ r, regs (user w) !! key = Some r ∧ r_state r = Armed ∧
    w' = on_user (λ u, set_regs (<[key := Registration (r_parent r) Started]> (regs u)) u) w.
Proof.
  unfold fires. intros ([key' r] & Hin%elem_of_map_to_list & Hf)%list_elem_of_omap.
  case_bool_decide as Ha; [|done]. destruct (bool_decide _); [|done]. simpl in Hf. simplify_eq. by exists r.
Qed.

Lemma fire_tri :
  rtri (at_ (idle i)) (await fires) (λ r g, r.1.1 ≠ bg ∧ at_ (runs r.1) g).
Proof.
  eapply triple_post; [apply plain, (await_rule i i_lt _ _ _ _ (λ r h, r.1.1 ≠ bg ∧ runs r.1 h)); [apply _..|done|]|].
  2: { intros r g (? & ? & ? & Hne & ?). by split_and!. }
  intros w g _ (_ & _ & _ & Hid & Hp & Hb) Hi. split; [by apply on_callbacks|].
  intros w' [[s k] parent] (r & Hr & Harm & ->)%elem_of_fires. cbn [fst].
  pose proof (wi_user _ _ _ _ _ Hi) as []. rewrite ri_regs0 in Hr. pose proof ri_g0 as [].
  set (m := <[(s, k) := Registration (r_parent r) Started]> (h_regs (gx g))).
  replace (on_user _ w) with (on_user (λ u, set_regs m u) w) by (unfold on_user; by rewrite ri_regs0).
  apply (can_busy w g m (Some (s, k))); [done| |].
  - split.
    + intros s' k' r' Hr'. destruct (decide ((s', k') = (s, k))) as [[= -> ->]|Hne].
      * eexists. split; [apply lookup_insert_eq|]. simplify_eq. split_and!; simpl; congruence.
      * exists r'. unfold m. rewrite lookup_insert_ne by congruence. by split.
    + intros s' k' r' [([= <- <-] & _)|(_ & Hr')]%lookup_insert_Some; by eexists.
    + intros s' k' r' [(_ & <-)|(_ & Hr')]%lookup_insert_Some; [done|by apply gi_finished0 with k'].
    + intros s' k' r' [([= <- <-] & _)|(_ & Hr')]%lookup_insert_Some Hs.
      * exists i. apply list_lookup_insert_eq. by eapply lookup_lt_Some.
      * destruct (gi_running0 s' k' r' Hr' Hs) as [j Hj]. exists j. rewrite list_lookup_insert_ne; [done|congruence].
  - split; [by eapply gi_keys0|]. split_and!; try done. simpl. apply list_lookup_insert_eq. by eapply lookup_lt_Some.
Qed.

Lemma callback_done_tri s k :
  rtri (λ g, cancelled s g ∧ at_ (runs (s, k)) g) (set_reg (s, k) Finished) (λ _, at_ (idle i)).
Proof.
  apply (act_rule i i_lt _ _ _ _ (λ _, idle i)); [apply cancelled_stable|apply _..|].
  intros w g [err Hctx] (_ & _ & _ & Hh & Hp & Hb) Hi. cbn [fst]. pose proof (wi_user _ _ _ _ _ Hi) as []. pose proof ri_g0 as [].
  set (m := alter (λ g, Registration (r_parent g) Finished) (s, k) (h_regs (gx g))).
  replace (on_user _ w) with (on_user (λ u, set_regs m u) w) by (unfold on_user; by rewrite ri_regs0).
  apply (can_busy w g m None); [done| |].
  - split.
    + intros s' k' r' Hr'. destruct (decide ((s', k') = (s, k))) as [[= -> ->]|Hne].
      * eexists. unfold m. rewrite lookup_alter_eq, Hr'. split; [done|]. by split_and!.
      * exists r'. unfold m. rewrite lookup_alter_ne by congruence. by split.
    + intros s' k' r' [([= <- <-] & r0 & -> & _)|(_ & Hr')]%lookup_alter_Some; by eexists.
    + intros s' k' r' [([= <- <-] & _)|(_ & Hr')]%lookup_alter_Some Hs; [|by apply gi_finished0 with k' r'].
      rewrite (wi_contexts _ _ _ _ _ Hi). by exists err.
    + intros s' k' r' [(_ & r0 & _ & ->)|(Hne & Hr')]%lookup_alter_Some Hs; [done|].
      destruct (gi_running0 s' k' r' Hr' Hs) as [j Hj]. exists j. rewrite list_lookup_insert_ne; [done|]. congruence.
  - split_and!; try done. simpl. apply list_lookup_insert_eq. by eapply lookup_lt_Some.
Qed.

Lemma afterFuncs_tri Q : (∀ b, Stable (wrely i) (Q b)) → rtri (at_ (idle i)) afterFuncs Q.
Proof.
  intros HQ. apply triple_forever; [stab..|]. tri_seq by (apply fire_tri). intros [[s k] parent]. cbn [fst].
  apply triple_fact. intros Hne. tri_mid (λ _ : unit, at_ (idle i)); [|intros _; by apply triple_ret; [stab|]].
  unfold callback. tri_mid (λ _ : option error, at_ (runs (s, k))).
  { destruct k; [apply see_tri; stab|by apply triple_ret; [stab|]]. }
  intros cause. tri_mid (λ _ : unit, λ g, cancelled s g ∧ at_ (runs (s, k)) g); [by apply cancelContext_tri; [done|apply _|..]|].
  intros _. apply callback_done_tri.
Qed.
End runtime.
End run.
End RunnerSubmit.
