(* ===== verification/RunnerLive.v ===== *)
(** * Runs under every interleaving (src/workq/runner)

    A run: the workers, the coordinator, goroutines of the runtime and any number of clients with
    any calls, interleaved in any way. Theorems: nobody panics, a run that was stopped completes, and
    a complete run accounts for every accepted item. *)

From Stdlib Require Import ZArith Lia.
From stdpp Require Import prelude list gmap strings.
From S2P Require Import Prelude Prog Triple RingCore RingSpec WaitSide Workq WaitConc WaitTriples WorkqConc WorkqLive RunnerCore RunnerSpec Runner RunnerGhost RunnerLife RunnerWork RunnerHeld RunnerRun RunnerEnd RunnerSubmit.

Module RunnerLive.
Import Prog Triple Ring RingSpec WaitSide Workq WaitConc WaitTriples WorkqConc WorkqLive RunnerCore RunnerSpec Runner RunnerGhost
  RunnerLife RunnerWork RunnerHeld RunnerRun RunnerEnd RunnerSubmit.

(** ** Clients *)

Inductive rcall {T : Type} :=
| CSubmitBatch (ctx : nat) (cancellable : bool) (sctx : nat) (xs : list T)
| CStopAdmission
| CAbort (cause : option error)
| CWait
| CShutdown (grace : nat)
| CSummary
| CCancelContext (ctx : nat) (err : error)
| CTick (t : Z).
Arguments rcall : clear implicits.

Section system.
Context {E T X : Type} `{!Setup E T X}.
Abbreviation W := (world E (rstate X)).
Abbreviation rghost := (rghost (T := T)).
Abbreviation wghost := (wghost T rghost).

(** A call returns the items that were accepted, as its result reports them. *)
Definition run_call (c : rcall T) : prog W (list T) :=
  match c with
  | CSubmitBatch ctx cancellable sctx xs => r ← SubmitBatch A rctx config ctx cancellable sctx xs; mret (batch_log xs r)
  | CStopAdmission => _ ← StopAdmission; mret []
  | CAbort cause => _ ← AbortRun rctx cause; mret []
  | CWait => _ ← WaitDone; mret []
  | CShutdown grace => _ ← Shutdown rctx grace; mret []
  | CSummary => _ ← SummaryOf; mret []
  | CCancelContext ctx err => _ ← cancelContext ctx err err; mret []
  | CTick t => _ ← tick t; mret []
  end.

Fixpoint client_from (accepted : list T) (cs : list (rcall T)) : prog W (list T) :=
  match cs with
  | [] => mret accepted
  | c :: cs => more ← run_call c; client_from (accepted ++ more) cs
  end.
Definition client (cs : list (rcall T)) : prog W (list T) := client_from [] cs.

(** Slices of a size that exists; a submission has a context of its own; nobody cancels the
    background context, and no context with the queue's own error. *)
Definition rcall_ok (i : nat) (c : rcall T) : Prop :=
  match c with
  | CSubmitBatch _ _ sctx xs => owner sctx = i ∧ sctx ≠ bg ∧ len xs <= 2 ^ 62
  | CCancelContext ctx err => ctx ≠ bg ∧ errors_Is err ErrClosed = false
  | _ => True
  end.

Section client.
Context (i : nat) (i_lt : (i < N)%nat) (i_client : is_client i).
Abbreviation rtri := (triple (winv items cap N) (rquiet i) (wrely i) (rguar i)).
Abbreviation at_ := (λ κ L, rest i κ [] ([], L)).
Abbreviation outside := (λ L, at_ (λ h, idle i h ∧ out i h) (L, [])).

Lemma run_call_tri c xs : rcall_ok i c → rtri (outside xs) (run_call c) (λ r, outside (xs ++ r)).
Proof.
  assert (∀ {B} (p : prog W B), rtri (outside xs) p (λ _, outside xs) →
    rtri (outside xs) (_ ← p; mret []) (λ r, outside (xs ++ r))) as Hquiet.
  { intros B p Hp. eapply triple_bind; [apply _|exact Hp|]. intros b. apply triple_ret; [stab|]. intros g. by rewrite app_nil_r. }
  intros Hc. destruct c as [ctx cancellable sctx ys| |cause| |grace| |ctx err|t]; cbn [run_call rcall_ok] in *.
  - destruct Hc as (Ho & Hbg & Hlen). tri_seq by (by apply SubmitBatch_tri). intros r. by apply triple_ret; [stab|].
  - apply Hquiet. eapply triple_post; [by apply StopAdmission_tri|]. by intros u g [_ Hg].
  - apply Hquiet. eapply triple_post; [by apply AbortRun_tri|]. by intros u g [_ Hg].
  - apply Hquiet. by apply WaitDone_tri.
  - apply Hquiet. by apply Shutdown_tri.
  - apply Hquiet. by apply SummaryOf_tri.
  - destruct Hc as [Hbg He]. apply Hquiet. eapply triple_post; [by apply cancelContext_tri; [done|apply _|..]|]. by intros u g [_ Hg].
  - apply Hquiet. by apply tick_tri; [done|apply _].
Qed.

Lemma client_tri cs : ∀ xs, Forall (rcall_ok i) cs → rtri (outside xs) (client_from xs cs) outside.
Proof.
  induction cs as [|c cs IH]; intros xs Hcs; cbn [client_from]; [by apply triple_ret; [stab|]|].
  apply Forall_cons in Hcs as [Hc Hcs]. tri_seq by (by apply run_call_tri). intros r. by apply IH.
Qed.
End client.

(** ** The start *)

Section run.
Context (procs : Z) (e : E) (cfg : Workq.config) (ctxs : gmap nat error) (x : X) (css : list (list (rcall T))).
Hypothesis Hstart : start_ok A items cap e cfg.
Hypothesis Heveryone : N = (c0 + length css)%nat.
Hypothesis Hcalls : ∀ k cs, css !! k = Some cs → Forall (rcall_ok (c0 + k)) cs.
Hypothesis Hctxs : no_queue_error ctxs.
Hypothesis Hbg : ctxs !! bg = None.
Hypothesis Hseen : seen x = [].

(** The goroutines of a run: workers, the coordinator, goroutines of the runtime, clients. *)
Definition goroutines : list (prog W (list T)) :=
  ((λ i, _ ← workerGoroutine A zero rctx config batchLimit i; mret []) <$> seq 0 nw) ++
  [_ ← coordinator A zero rctx config batchLimit bg; mret []] ++
  replicate runtimes (_ ← afterFuncs; mret []) ++
  (client <$> css).

Definition begin : conf W (list T) := (start A procs e cfg ctxs (newRunnerState (Z.of_nat nw) x), goroutines).

Definition first_ghost : rghost := RGhost
  (Lifecycle false false 0 false false false None false false false NoError)
  (Accounting 0 (replicate nw zero_delta) zero_delta [] 0) ∅ None None
  (replicate (S nw) true ++ replicate (N - S nw) false) (replicate N ([], [])) (replicate N []) false
  (replicate nw (Some rctx) ++ replicate (N - nw) None) (replicate N None) (replicate N 0).

Lemma trues_true n : trues (replicate n true) = Z.of_nat n.
Proof. induction n as [|n IH]; simpl; [done|]. rewrite IH. lia. Qed.
Lemma trues_false n : trues (replicate n false) = 0.
Proof. by induction n. Qed.

Lemma first_open j b : h_open first_ghost !! j = Some b → b = bool_decide (j <= nw)%nat.
Proof.
  unfold first_ghost. cbn [h_open]. intros [[-> ?]%lookup_replicate|[Hge [-> ?]%lookup_replicate]]%lookup_app_Some.
  - by rewrite bool_decide_true by lia.
  - rewrite length_replicate in Hge. by rewrite bool_decide_false by lia.
Qed.

Lemma c0_le : (S nw <= c0 <= N)%nat.
Proof. unfold c0 in *. lia. Qed.

Lemma first_clients : clients_open first_ghost = 0.
Proof.
  pose proof c0_le. unfold clients_open, first_ghost. cbn [h_open]. rewrite drop_app_ge by (rewrite length_replicate; lia).
  by rewrite drop_replicate, trues_false.
Qed.
Lemma first_workers : workers_open first_ghost = Z.of_nat nw.
Proof.
  unfold workers_open, first_ghost. cbn [h_open]. rewrite take_app_le by (rewrite length_replicate; lia).
  rewrite take_replicate, trues_true. lia.
Qed.

Lemma first_linv : linv ctxs first_ghost.
Proof.
  split; try done; [by intros [? [=]]|exact (eq_sym first_clients)| |].
  - intros _. split_and!; try done. by intros [? [=]].
  - intros j. simpl. naive_solver.
Qed.

Lemma first_binv : binv x (replicate N ([], [])) first_ghost.
Proof.
  pose proof c0_le. split; try done.
  - unfold first_ghost. cbn [h_open]. rewrite length_app, !length_replicate. lia.
  - apply length_replicate.
  - apply length_replicate.
  - apply length_replicate.
  - simpl. by rewrite concat_empty.
  - intros j L [-> _]%lookup_replicate_1. by destruct (group_of j).
  - by intros j ts [-> _]%lookup_replicate_1.
  - intros j c L ts Hj Ho%first_open. symmetry in Ho. apply bool_decide_eq_false in Ho. unfold group_of in Hj.
    repeat case_decide; [lia|lia|done].
  - intros _. rewrite Hseen. simpl h_term. rewrite <- (list_fmap_id (replicate N [])). by rewrite concat_empty.
Qed.

Lemma first_ginv : ginv (newRunnerState (Z.of_nat nw) x) ctxs false first_ghost.
Proof.
  pose proof c0_le. split; try done.
  - by rewrite first_workers.
  - intros j Hj Ho%first_open. symmetry in Ho. apply bool_decide_eq_false in Ho. lia.
  - intros j b Hj Ho%first_open. rewrite Ho. apply bool_decide_false. lia.
  - unfold first_ghost. cbn [h_sub]. rewrite length_app, !length_replicate. lia.
  - apply length_replicate.
  - apply length_replicate.
  - intros j s [[[= ->] ?]%lookup_replicate|[_ [[=] _]%lookup_replicate]]%lookup_app_Some. left. split; [done|lia].
  - by intros j key [[=] _]%lookup_replicate.
Qed.

Lemma first_rinv : rinv (newRunnerState (Z.of_nat nw) x) ctxs false (replicate N ([], [])) first_ghost.
Proof.
  split; try done; [|apply first_linv|apply first_binv|apply first_ginv]. unfold newRunnerState. simpl. by rewrite Nat2Z.id.
Qed.

(** ** Every reachable configuration *)

(** Where a goroutine stands that has returned [r]; goroutines of the runtime do not return. *)
Definition at_rest (j : nat) (r : list T) (g : wghost) : Prop :=
  if decide (j < nw)%nat then ∃ L, rest j (through j) [] ([], L) g
  else if decide (j = nw) then ∃ a L, rest j (λ h, idle j h ∧ finished a h) [] ([], L) g
  else if decide (j < c0)%nat then False
  else rest j (λ h, idle j h ∧ out j h) [] ([], (r, [])) g.

Lemma goroutine_at j p :
  goroutines !! j = Some p →
  (j < N)%nat ∧
  if decide (j < nw)%nat then p = (_ ← workerGoroutine A zero rctx config batchLimit j; mret [])
  else if decide (j = nw) then p = (_ ← coordinator A zero rctx config batchLimit bg; mret [])
  else if decide (j < c0)%nat then p = (_ ← afterFuncs; mret [])
  else ∃ cs, css !! (j - c0)%nat = Some cs ∧ p = client cs.
Proof.
  pose proof c0_le. unfold goroutines. intros [Hw|[Hge Hr]]%lookup_app_Some.
  { apply list_lookup_fmap_Some in Hw as (k & -> & [-> Hk]%lookup_seq). split; [lia|]. simpl. by rewrite decide_True by lia. }
  rewrite length_fmap, length_seq in *. rewrite decide_False by lia.
  destruct (decide (j = nw)) as [->|Hne].
  { rewrite Nat.sub_diag in Hr. injection Hr as <-. split; [lia|done]. }
  rewrite lookup_app_r in Hr by (simpl; lia). simpl length in Hr.
  apply lookup_app_Some in Hr as [[-> Hk]%lookup_replicate|[Hk Hr]].
  { split; [unfold c0 in *; lia|]. by rewrite decide_True by (unfold c0; lia). }
  rewrite length_replicate in *. rewrite decide_False by (unfold c0; lia).
  apply list_lookup_fmap_Some in Hr as (cs & -> & Hcs). pose proof (lookup_lt_Some _ _ _ Hcs).
  split; [unfold c0 in *; lia|]. exists cs. split; [|done]. rewrite <- Hcs. f_equal. unfold c0. lia.
Qed.

Lemma first_idle j : (j < N)%nat → idle j first_ghost.
Proof. intros Hj. split_and!; try done. simpl. by apply lookup_replicate_2. Qed.

Lemma first_modes j (h : rghost) κ :
  (j < N)%nat → κ h → rest j κ [] ([], ([], [])) (start_ghost items cap N e ctxs h).
Proof.
  intros Hj Hk. split_and!; [by apply fresh_mode|by apply fresh_mode|]. split; [by apply lookup_replicate_2|done].
Qed.

Lemma first_settled j c s :
  (j <= nw)%nat → group_of j = Some c → h_sub first_ghost !! j = Some s →
  settled j c s (start_ghost items cap N e ctxs first_ghost).
Proof.
  intros Hj Hc Hs. pose proof c0_le. exists ([], []), []. split; [done|]. apply first_modes; [lia|].
  split; [apply first_idle; lia|]. split_and!; try done.
  - unfold first_ghost. cbn [h_open]. rewrite lookup_app_l by (rewrite length_replicate; lia). apply lookup_replicate_2. lia.
  - simpl. apply lookup_replicate_2. lia.
  - simpl. unfold group_of in Hc. repeat case_decide; simplify_eq; [|done]. simpl. by rewrite lookup_replicate_2.
Qed.

Lemma first_client j : is_client j → (j < N)%nat → out j first_ghost.
Proof.
  intros Hj Hlt. pose proof c0_le. unfold out, is_client in *.
  destruct (lookup_lt_is_Some_2 (h_open first_ghost) j) as [b Hb].
  { unfold first_ghost. cbn [h_open]. rewrite length_app, !length_replicate. lia. }
  rewrite Hb, (first_open j b Hb). by rewrite bool_decide_false by lia.
Qed.

(** The programs are safe from the start. *)
Lemma run_goroutine_tri j p :
  goroutines !! j = Some p →
  ∃ P, P (start_ghost items cap N e ctxs first_ghost) ∧
    triple (winv items cap N) (rquiet j) (wrely j) (rguar j) P p (at_rest j).
Proof.
  intros [Hlt Hp]%goroutine_at. pose proof c0_le. unfold at_rest. repeat case_decide.
  - subst p. exists (settled j (Some j) (Some rctx)). split.
    + apply first_settled; [lia|unfold group_of; by rewrite decide_True|].
      simpl. rewrite lookup_app_l by (rewrite length_replicate; lia). by apply lookup_replicate_2.
    + tri_seq by (by apply workerGoroutine_tri). intros u. by apply triple_ret; [stab|].
  - subst p j. exists (settled nw None None). split.
    + apply first_settled; [lia|apply coordinator_mine|].
      simpl. rewrite lookup_app_r by (rewrite length_replicate; lia). rewrite length_replicate. apply lookup_replicate_2. lia.
    + tri_seq by (apply coordinator_tri). intros u. by apply triple_ret; [stab|].
  - subst p. exists (rest j (idle j) [] ([], ([], []))). split; [apply first_modes; [done|by apply first_idle]|].
    tri_mid (λ (_ : unit) (_ : wghost), False); [apply afterFuncs_tri; [done|lia|stab]|].
    intros u. by apply triple_ret; [stab|].
  - destruct Hp as (cs & Hcs & ->). assert (is_client j) as Hc by (unfold is_client; lia).
    exists (rest j (λ h, idle j h ∧ out j h) [] ([], ([], []))). split.
    + apply first_modes; [done|]. split; [by apply first_idle|by apply first_client].
    + apply (client_tri j Hlt Hc cs []). specialize (Hcalls _ _ Hcs). by replace (c0 + (j - c0))%nat with j in Hcalls by lia.
Qed.

(** The same world at a later time. *)
Definition later (t : Z) (w : W) : W := on_user (λ u, set_clock (clock u + t) u) w.

Lemma later_winv t w g : winv items cap N w g → winv items cap N (later t w) g.
Proof.
  intros []. split; try done. simpl. destruct wi_user0. split; try done. by destruct ri_g0.
Qed.

Lemma reach_run w ps :
  rtc conf_step begin (w, ps) →
  length ps = N ∧ ∃ g, winv items cap N w g ∧
    (∀ j r, ps !! j = Some (Ret r) → at_rest j r g) ∧
    (∀ j p t, ps !! j = Some p → result p = None → step p (later t w) = [] → waits p = true ∧ rquiet j (later t w, g)).
Proof.
  intros Hreach. split.
  { etrans; [apply (conf_length begin (w, ps) Hreach)|]. simpl. unfold goroutines. rewrite !length_app, !length_fmap, length_seq, length_replicate.
    simpl. unfold c0 in Heveryone. lia. }
  destruct (safe_threads_later (winv (E := E) (T := T) (U := rstate X) items cap N) rquiet
    (λ j a b, wrely j a.2 b.2) (λ j a b, rguar j a.2 b.2)
    (λ j (r : list T) sg, at_rest j r sg.2)) with (g := start_ghost items cap N e ctxs first_ghost) (c := begin) (c' := (w, ps))
    as (g & Hi & Hret & Hblk).
  - intros j k sg sg' Hjk Hg. by apply Hg.
  - intros n. split.
    { apply (start_winv A items cap); [apply s_bound|done|done|apply first_rinv]. }
    intros j p Hp. destruct (run_goroutine_tri j p Hp) as (P & HP & Htri). by apply Htri.
  - done.
  - exists g. split_and!; [done..|]. intros j p t Hp Hr. apply (Hblk j p _ Hp Hr); [reflexivity|by apply later_winv].
Qed.

(** ** Configurations nobody can leave, at any time *)

Section stuck.
Context (w : W) (ps : list (prog W (list T))) (g : wghost).
Hypothesis Hlen : length ps = N.
Hypothesis Hi : winv items cap N w g.
Hypothesis Hret : ∀ j r, ps !! j = Some (Ret r) → at_rest j r g.
Hypothesis Hblk : ∀ j p t, ps !! j = Some p → result p = None → 0 <= t → rquiet j (later t w, g).
Abbreviation h := (gx g).
Abbreviation l := (h_life (gx g)).

Lemma someone j : (j < N)%nat → ∃ p, ps !! j = Some p.
Proof. intros Hj. apply lookup_lt_is_Some_2. by rewrite Hlen. Qed.

(** A goroutine has returned or is blocked. *)
Lemma stands j p : ps !! j = Some p → (∃ r, p = Ret r ∧ at_rest j r g) ∨ (∀ t, 0 <= t → rquiet j (later t w, g)).
Proof.
  intros Hp. destruct p as [r|B f k|B f k|B I body a k].
  - left. exists r. split; [done|]. by apply Hret.
  - right. intros t Ht. by eapply Hblk.
  - right. intros t Ht. by eapply Hblk.
  - right. intros t Ht. by eapply Hblk.
Qed.

Definition quiet_here (j : nat) : Prop :=
  idle j h ∧ mine j (gc g) = None ∧ mine j (gp g) = None.

Lemma rest_here j κ V : rest j κ [] V g → (∀ h, κ h → idle j h) → quiet_here j.
Proof. intros ((_ & _ & ?) & (_ & _ & ?) & _ & Hk) Hid. split_and!; [by apply Hid|done..]. Qed.

Lemma at_rest_here j r : at_rest j r g → quiet_here j.
Proof.
  unfold at_rest. repeat case_decide.
  - intros [L Hg]. eapply rest_here; [exact Hg|]. by intros ? [? _].
  - intros (a & L & Hg). eapply rest_here; [exact Hg|]. by intros ? [? _].
  - done.
  - intros Hg. eapply rest_here; [exact Hg|]. by intros ? [? _].
Qed.

Lemma all_quiet j : (j < N)%nat → quiet_here j.
Proof.
  intros [p Hp]%someone. destruct (stands j p Hp) as [(r & _ & Hr)|Hq]; [by eapply at_rest_here|].
  destruct (Hq 0) as [[(H1 & H2 & [_ Hid] & _) _]|(((_ & _ & H1) & (_ & _ & H2)) & Hid & _)]; [lia|by split_and!..].
Qed.

Lemma nobody_inside : h_holder h = None ∧ h_pub h = None ∧ g_hold (gc g) = None ∧ g_hold (gp g) = None.
Proof.
  pose proof Hi as []. pose proof (ri_l _ _ _ _ _ wi_user0) as []. split_and!.
  - destruct (h_holder h) as [j|] eqn:Hh; [|done]. destruct (all_quiet j) as [(Hn & _) _]; [apply li_holder0; by left|congruence].
  - destruct (h_pub h) as [j|] eqn:Hh; [|done]. destruct (all_quiet j) as [(_ & Hn & _) _]; [apply li_holder0; by right|congruence].
  - apply (nobody_holds N); [|apply wi_held0]. intros j Hj. by apply all_quiet.
  - apply (nobody_holds N); [|apply wi_held0]. intros j Hj. by apply all_quiet.
Qed.

Lemma mutexes_free :
  l_mu l = false ∧ s_mu (q_consumers (queue w)) = false ∧ s_mu (q_producers (queue w)) = false.
Proof.
  destruct nobody_inside as (Hh & _ & Hc & Hp). pose proof Hi as []. pose proof (ri_l _ _ _ _ _ wi_user0) as [].
  destruct wi_consumers0 as (Hs1 & _), wi_producers0 as (Hs2 & _).
  rewrite li_mu0, Hh, (sc_mu _ _ _ Hs1), (sc_mu _ _ _ Hs2), Hc, Hp. done.
Qed.

(** An abort is published, and the run's context is cancelled. *)
Lemma abort_published : aborted l → aborting l = true ∧ is_Some (contexts w !! rctx).
Proof.
  intros Hab. destruct nobody_inside as (_ & Hp & _). pose proof (ri_l _ _ _ _ _ (wi_user _ _ _ _ _ Hi)) as [].
  destruct (aborting l) eqn:Ha; [split; [done|]; by apply li_published0|].
  destruct (li_publisher0 Hab eq_refl) as [j Hj]. congruence.
Qed.

Lemma nothing_fires t :
  fires (later t w) = [] → ∀ s k r, h_regs h !! (s, k) = Some r → r_state r = Armed → contexts w !! r_parent r = None.
Proof.
  intros Hf s k r Hr Ha. destruct (contexts w !! r_parent r) as [e'|] eqn:Hc; [|done].
  rewrite <- (ri_regs _ _ _ _ _ (wi_user _ _ _ _ _ Hi)) in Hr.
  assert ((on_user (λ u, set_regs (<[(s, k) := Registration (r_parent r) Started]> (regs u)) u) (later t w), ((s, k), r_parent r))
    ∈ fires (later t w)) as Hin.
  { unfold fires. apply list_elem_of_omap. exists ((s, k), r). split; [by apply elem_of_map_to_list|].
    simpl. rewrite Ha, Hc, bool_decide_true, bool_decide_true by done. done. }
  rewrite Hf in Hin. by apply elem_of_nil in Hin.
Qed.

(** A goroutine on neither side of the queue. *)
Inductive stalled (j : nat) : Prop :=
| st_admissions : j = nw → coordinating l = true → admissionsDone l = false → stalled j
| st_workers : j = nw → workers (user w) ≠ 0 → gdone g = true ∨ aborted l → stalled j
| st_done : is_client j → h_open h !! j = Some false → l_done l = false → stalled j
| st_start : j = nw → coordinating l = false → stalled j
| st_runtime : (nw < j < c0)%nat → stalled j.

Lemma not_running s k r : h_regs h !! (s, k) = Some r → r_state r ≠ Started.
Proof.
  intros Hr Hs. pose proof (ri_g _ _ _ _ _ (wi_user _ _ _ _ _ Hi)) as []. destruct (gi_running0 s k r Hr Hs) as [j Hj].
  destruct (all_quiet j) as [(_ & _ & Hid) _]; [|congruence]. rewrite <- gi_busy0. by eapply lookup_lt_Some.
Qed.

Lemma blocked_stalled j t :
  blocked j (later t w) g →
  stalled j ∨ ∃ d, (j < nw)%nat ∧ h_open h !! j = Some true ∧ contexts w !! rctx = None ∧
    h_due h !! j = Some d ∧ clock (user w) + t < d.
Proof.
  destruct mutexes_free as [Hmu _]. pose proof (ri_life _ _ _ _ _ (wi_user _ _ _ _ _ Hi)) as He.
  intros [Hm|Hab Hpub|Hj Hc Hd|Hj Hw Hd|Hj Ho Hd|Hj Hc|Hj Hf|d Hj Ho Hc Hdue Ht|s k r Hj Hr Hs]; simpl in *; rewrite ?He in *.
  - congruence.
  - destruct (abort_published Hab). congruence.
  - left. by apply st_admissions.
  - left. by apply st_workers.
  - left. by apply st_done.
  - left. by apply st_start.
  - left. by apply st_runtime.
  - right. by exists d.
  - by destruct (not_running s k r Hr).
Qed.

(** No timer holds a worker for good. *)
Lemma classify j p :
  ps !! j = Some p → (∃ r, p = Ret r ∧ at_rest j r g) ∨ (wquiet j (w, g) ∧ prepared j g) ∨ (calm j g ∧ stalled j).
Proof.
  intros Hp. destruct (stands j p Hp) as [?|Hq]; [by left|right].
  destruct (Hq 0) as [?|(Hcalm & _ & Hb)]; [lia|by left|].
  destruct (blocked_stalled j 0 Hb) as [?|(d & Hj & Ho & Hc & Hdue & Ht)]; [by right|].
  destruct (Hq (d - clock (user w))) as [?|(_ & _ & Hb')]; [lia|by left|].
  destruct (blocked_stalled j _ Hb') as [?|(d' & _ & _ & _ & Hdue' & Ht')]; [by right|].
  rewrite Hdue in Hdue'. injection Hdue' as <-. lia.
Qed.

(** The runtime has run every callback whose context is done. *)
Lemma callbacks_ran s k r : h_regs h !! (s, k) = Some r → r_state r = Armed → contexts w !! r_parent r = None.
Proof.
  pose proof c0_le. pose proof s_runtimes. assert (nw < S nw < c0)%nat as Hrt by (unfold c0 in *; lia).
  destruct (someone (S nw)) as [p Hp]; [lia|]. destruct (stands _ p Hp) as [(a & _ & Ha)|Hq].
  { unfold at_rest in Ha. rewrite !decide_False, decide_True in Ha by lia. done. }
  destruct (Hq 0) as [[(_ & _ & [Ho _] & _) _]|(_ & _ & Hb)]; [lia|..].
  { pose proof (ri_g _ _ _ _ _ (wi_user _ _ _ _ _ Hi)) as []. by specialize (gi_runtime0 _ _ Hrt Ho). }
  destruct mutexes_free as [Hmu _]. pose proof (ri_life _ _ _ _ _ (wi_user _ _ _ _ _ Hi)) as He.
  destruct Hb as [Hm|Hab Hpub|Hj|Hj|Hj|Hj|Hj Hf|d Hj|s' k' r' Hj]; simpl in *; rewrite ?He in *; unfold is_client in *; try lia.
  - congruence.
  - destruct (abort_published Hab). congruence.
  - by eapply nothing_fires.
Qed.

(** A goroutine that is parked. *)
Lemma wquiet_parked j :
  wquiet j (w, g) → may_use j h ∧ q_done (queue w) = false ∧
    ((waits_as j true (w, g) ∧ parked_on j (q_consumers (queue w)) (gc g) (gp g)) ∨
     (waits_as j false (w, g) ∧ parked_on j (q_producers (queue w)) (gp g) (gc g))).
Proof. intros (_ & _ & Hm & [Hq|[Hq|[Hd Hq]]]); destruct mutexes_free as (_ & H1 & H2); simpl in *; [congruence..|done]. Qed.

(** Whoever waits has a context that nobody has cancelled. *)
Lemma not_aborted j ctx : j ≠ nw → h_sub h !! j = Some (Some ctx) → contexts w !! ctx = None → ¬ aborted l.
Proof.
  intros Hj Hs Hc [_ [err Hr]]%abort_published. pose proof (ri_g _ _ _ _ _ (wi_user _ _ _ _ _ Hi)) as [].
  destruct (gi_waits0 j ctx Hs) as [[-> _]|[[_ ?]|(_ & _ & r & Hreg & Hp & Hst)]]; [congruence|done|].
  destruct (r_state r) eqn:Hstate; [| | |done].
  - pose proof (callbacks_ran _ _ _ Hreg Hstate) as Hn. congruence.
  - by destruct (not_running _ _ _ Hreg).
  - destruct (gi_finished0 _ _ _ Hreg Hstate). congruence.
Qed.

Lemma calm_resting j : calm j g → resting j (gc g) false ∧ resting j (gp g) false.
Proof. intros [H1 H2]. split; by eapply resting_home. Qed.

Lemma at_rest_calm j r : at_rest j r g → calm j g.
Proof.
  unfold at_rest. repeat case_decide; [intros (L & ? & ? & _)|intros (a & L & ? & ? & _)|done|intros (? & ? & _)]; by split.
Qed.

Lemma all_resting j : (j < N)%nat → ∃ b1 b2, resting j (gc g) b1 ∧ resting j (gp g) b2.
Proof.
  intros [p Hp]%someone. destruct nobody_inside as (_ & _ & Hc & Hpr). pose proof Hi as [].
  destruct (classify j p Hp) as [(r & _ & Hr)|[[Hq _]|[Hcalm _]]].
  - apply at_rest_calm, calm_resting in Hr as [? ?]. by exists false, false.
  - destruct (wquiet_parked j Hq) as (_ & _ & [[_ (y & q & H1 & H2 & H3 & H4)]|[_ (y & q & H1 & H2 & H3 & H4)]]).
    + exists true, false. split; [by eapply resting_parked|by eapply resting_home].
    + exists false, true. split; [by eapply resting_home|by eapply resting_parked].
  - apply calm_resting in Hcalm as [? ?]. by exists false, false.
Qed.

Abbreviation contents := (items (engine (queue w))).

Lemma waiting_for_items j : parked_on j (q_consumers (queue w)) (gc g) (gp g) → contents = [].
Proof.
  intros (y & q & H1 & H2 & H3 & H4). destruct nobody_inside as (_ & _ & Hc & _). pose proof Hi as [].
  destruct (side_rests N _ (gc g) wi_consumers0 Hc) as (_ & _ & Hq & Hd).
  { intros k (b1 & b2 & Hb & _)%all_resting. by exists b1. }
  destruct (resting_parked N j (q_consumers (queue w)) (gc g) y q) as (t & Ht & _ & _ & Hl); [done..|].
  pose proof (count_pos (listed (g_list (gc g))) _ j t Ht Hl) as Hpos. rewrite Hq in Hd. specialize (Hd ltac:(lia)).
  rewrite wi_items0 in Hd. apply bool_decide_eq_false in Hd. by apply dec_stable.
Qed.

Lemma waiting_for_room j : parked_on j (q_producers (queue w)) (gp g) (gc g) → contents ≠ [].
Proof.
  intros (y & q & H1 & H2 & H3 & H4). destruct nobody_inside as (_ & _ & _ & Hp). pose proof Hi as [].
  destruct (side_rests N _ (gp g) wi_producers0 Hp) as (_ & _ & Hq & Hd).
  { intros k (b1 & b2 & _ & Hb)%all_resting. by exists b2. }
  destruct (resting_parked N j (q_producers (queue w)) (gp g) y q) as (t & Ht & _ & _ & Hl); [done..|].
  pose proof (count_pos (listed (g_list (gp g))) _ j t Ht Hl) as Hpos. rewrite Hq in Hd. specialize (Hd ltac:(lia)).
  rewrite wi_room0 in Hd. apply bool_decide_eq_false in Hd. intros Hnil. rewrite Hnil in Hd.
  change (len []) with 0 in Hd. pose proof (fresh_cap (A := A) (items := items) (cap := cap)). lia.
Qed.

(** A worker that has not left waits for items of the empty, open queue. *)
Lemma worker_stands j p :
  (j < nw)%nat → ps !! j = Some p →
  (h_open h !! j = Some false ∧ result p ≠ None) ∨
  (contents = [] ∧ q_done (queue w) = false ∧ ¬ aborted l ∧ h_open h !! j = Some true).
Proof.
  intros Hj Hp. destruct (classify j p Hp) as [(r & -> & Hr)|[[Hq _]|[_ Hst]]].
  - left. unfold at_rest in Hr. rewrite decide_True in Hr by done. destruct Hr as (L & _ & _ & _ & _ & Ho). done.
  - destruct (wquiet_parked j Hq) as ([Ho _] & Hd & [[(ctx & [Hs _] & Hc) Hpk]|[(ctx & [_ Hrole] & _) _]]).
    + right. split_and!; [by eapply waiting_for_items|done| |done]. apply (not_aborted j ctx); [lia|done..].
    + by rewrite bool_decide_true in Hrole by lia.
  - exfalso. destruct Hst; unfold is_client, c0 in *; lia.
Qed.

(** No submission is under way. *)
Lemma no_submissions : clients_open h = 0.
Proof.
  pose proof Hi as []. pose proof wi_user0 as []. pose proof ri_b0 as []. pose proof ri_l0 as []. pose proof ri_g0 as [].
  apply trues_none. intros k b Hk. rewrite lookup_drop in Hk. destruct b; [|done]. exfalso.
  set (j := (c0 + k)%nat) in *. assert (is_client j) as Hcl by (unfold is_client; lia).
  assert (j < N)%nat as Hlt by (rewrite <- bi_open0; by eapply lookup_lt_Some).
  destruct (someone j Hlt) as [p Hp]. assert (¬ (j <= nw)%nat) as Hjn by (unfold is_client, c0 in *; lia).
  destruct (classify j p Hp) as [(r & -> & Hr)|[[Hq _]|[_ Hst]]].
  - unfold at_rest in Hr. rewrite !decide_False in Hr by (unfold is_client, c0 in *; lia).
    destruct Hr as (_ & _ & _ & _ & Ho). unfold out in Ho. congruence.
  - destruct (wquiet_parked j Hq) as (_ & _ & [[(ctx & [_ Hrole] & _) _]|[(ctx & [Hs _] & Hc) Hpk]]).
    { by rewrite bool_decide_false in Hrole by lia. }
    pose proof (not_aborted j ctx ltac:(lia) Hs Hc) as Hna. pose proof (waiting_for_room j Hpk) as Hne.
    pose proof s_workers. pose proof c0_le. destruct (someone 0) as [q Hqp]; [lia|].
    destruct (worker_stands 0 q ltac:(lia) Hqp) as [[Ho _]|[? _]]; [|done].
    destruct (gi_exit0 0%nat ltac:(lia) Ho) as [?|Hd]; [done|]. destruct (gi_drained0 Hd) as [Hf _].
    by eapply frozen_client.
  - destruct Hst; try (unfold is_client, c0 in *; lia). congruence.
Qed.
(** The workers have left once the queue is closed or the run is aborted. *)
Lemma workers_left : gdone g = true ∨ aborted l → workers_open h = 0.
Proof.
  intros Hd. pose proof Hi as []. pose proof c0_le. apply trues_none. intros j b Hb.
  apply lookup_take_Some in Hb as [Hb Hj]. destruct (someone j) as [p Hp]; [lia|].
  destruct (worker_stands j p Hj Hp) as [[Ho _]|(_ & Hq & Hna & _)]; [congruence|]. rewrite wi_done0 in Hq.
  destruct Hd; [congruence|done].
Qed.

(** The coordinator of a run that was stopped has returned. *)
Lemma coordinator_returned p : ps !! nw = Some p → stopped l = true → (∃ r, p = Ret r) ∧ l_done l = true.
Proof.
  intros Hp Hs. pose proof Hi as []. pose proof wi_user0 as []. pose proof ri_l0 as []. pose proof ri_g0 as [].
  destruct nobody_inside as (Hh & _). destruct (li_free0 Hh) as (Hst & _). destruct (Hst Hs) as [Hco Hadm].
  destruct (classify nw p Hp) as [(r & -> & Hr)|[[Hq Hprep]|[_ Hstall]]].
  - split; [by exists r|]. unfold at_rest in Hr. rewrite decide_False, decide_True in Hr by lia.
    destruct Hr as (a & L & _ & _ & _ & _ & _ & Hk). apply Hk.
  - exfalso. destruct (wquiet_parked nw Hq) as (_ & Hd & [[(ctx & [Hsub _] & _) _]|[(ctx & [_ Hrole] & _) _]]).
    + destruct (gi_waits0 nw ctx Hsub) as [[_ ?]|[[-> _]|(Hc & _)]]; [done| |unfold is_client, c0 in Hc; lia].
      rewrite (Hprep eq_refl Hsub) in wi_done0. congruence.
    + by rewrite bool_decide_true in Hrole by lia.
  - exfalso. destruct Hstall as [_ _ Ha|_ Hw Hd|Hc|_ Hc|Hc]; try (unfold is_client, c0 in *; lia); try congruence.
    + rewrite Hadm in Ha; [done|]. rewrite li_active0. apply no_submissions.
    + rewrite gi_workers0 in Hw. by rewrite workers_left in Hw.
Qed.

Lemma stopped_done : stopped l = true → l_done l = true.
Proof.
  pose proof c0_le. destruct (someone nw) as [p Hp]; [lia|]. intros Hs. by destruct (coordinator_returned p Hp Hs).
Qed.

(** Once the run is complete, only goroutines of the runtime have not returned. *)
Lemma all_returned j p : ps !! j = Some p → l_done l = true → ¬ (nw < j < c0)%nat → ∃ r, p = Ret r.
Proof.
  intros Hp Hd Hj. pose proof Hi as []. pose proof wi_user0 as []. pose proof ri_l0 as []. pose proof ri_g0 as [].
  destruct (li_done0 Hd) as [[Hclosed Hdr]%li_completed0 _]. destruct (gi_drained0 Hdr) as [[Hs _] _].
  destruct (decide (j = nw)) as [->|Hne]; [by apply coordinator_returned|].
  destruct (classify j p Hp) as [(r & -> & _)|[[Hq _]|[_ Hstall]]]; [by exists r|..].
  - destruct (wquiet_parked j Hq) as ([Ho _] & _). by apply Hclosed in Ho.
  - destruct Hstall; try done. congruence.
Qed.

Lemma nothing_left : contents = [].
Proof.
  pose proof Hi as []. pose proof wi_user0 as []. pose proof ri_l0 as []. pose proof ri_g0 as []. pose proof c0_le. pose proof s_workers.
  destruct (someone 0) as [p Hp]; [lia|]. destruct (worker_stands 0 p) as [[Ho _]|[? _]]; [lia|done| |done].
  assert (h_drained h = true) as Hdr.
  { destruct (gi_exit0 0%nat ltac:(lia) Ho) as [Ha|?]; [|done]. destruct nobody_inside as (Hh & _).
    destruct (li_free0 Hh) as (_ & Hst & _). apply li_completed0, li_done0. by apply stopped_done, Hst. }
  destruct (gi_drained0 Hdr) as [_ Hde]. rewrite wi_items0 in Hde. apply bool_decide_eq_false in Hde. by apply dec_stable.
Qed.
End stuck.

(** ** A complete run *)

Lemma all_logs g w : winv items cap N w g → all_closed (gx g) → glogs g = h_logs (gx g).
Proof.
  intros [] Hc. pose proof (ri_b _ _ _ _ _ wi_user0) as []. apply list_eq. intros j.
  destruct (decide (j < N)%nat) as [Hj|Hj].
  - destruct (lookup_lt_is_Some_2 (h_open (gx g)) j) as [b Hb]; [lia|]. apply bi_settled0. by rewrite (Hc j b Hb) in Hb.
  - rewrite !lookup_ge_None_2 by lia. done.
Qed.

(** Nothing is left in the queue, and what was received is what was pushed. *)
Lemma complete_queue w g :
  winv items cap N w g → l_done (h_life (gx g)) = true →
  items (engine (queue w)) = [] ∧ concat (fst <$> h_logs (gx g)) ≡ₚ concat (snd <$> h_logs (gx g)) ∧ all_closed (gx g).
Proof.
  intros Hi Hd. pose proof Hi as []. pose proof wi_user0 as []. pose proof ri_l0 as []. pose proof ri_g0 as [].
  destruct (li_done0 Hd) as [[Hclosed Hdr]%li_completed0 _]. destruct (gi_drained0 Hdr) as [_ Hde].
  rewrite wi_items0 in Hde. apply bool_decide_eq_false, dec_stable in Hde. split; [done|]. split; [|done].
  rewrite <- (all_logs g w Hi Hclosed). destruct wi_logs0 as (pushed & received & -> & Hp & Hr).
  rewrite Hde, app_nil_r in Hp. by rewrite <- Hp, <- Hr.
Qed.

Lemma concat_none {B} (ls : list (list B)) : (∀ k l, ls !! k = Some l → l = []) → concat ls = [].
Proof.
  induction ls as [|l ls IH]; intros Hl; simpl; [done|]. rewrite (Hl 0%nat l) by done. apply IH. intros k. apply (Hl (S k)).
Qed.

(** The accepted items are those that the clients report. *)
Lemma complete_pushed g (ps : list (prog W (list T))) rs y :
  length ps = N → (∀ j r, ps !! j = Some (Ret r) → at_rest j r g) → drop c0 ps = Ret <$> rs →
  binv y (glogs g) (gx g) → glogs g = h_logs (gx g) → concat (fst <$> h_logs (gx g)) = concat rs.
Proof.
  intros Hlen Hret Hrs [] Hlogs. rewrite <- (take_drop c0 (h_logs (gx g))), fmap_app, concat_app, (concat_none (fst <$> take _ _)).
  - simpl. f_equal. apply list_eq. intros k. rewrite list_lookup_fmap, lookup_drop.
    assert ((Ret <$> rs) !! k = ps !! (c0 + k)%nat) as Hk by (by rewrite <- Hrs, lookup_drop).
    rewrite list_lookup_fmap in Hk. destruct (rs !! k) as [r|] eqn:Hr; simpl in Hk.
    + symmetry in Hk. apply Hret in Hk. unfold at_rest in Hk. rewrite !decide_False in Hk by (unfold c0; lia).
      destruct Hk as (_ & _ & Hk & _). by rewrite <- Hlogs, Hk.
    + symmetry in Hk. apply lookup_ge_None in Hk. by rewrite lookup_ge_None_2 by lia.
  - intros k l Hk. apply list_lookup_fmap_Some in Hk as (L & -> & [HL Hc]%lookup_take_Some).
    specialize (bi_roles0 k L HL). destruct (group_of k); [done|]. by apply bi_roles0.
Qed.

(** The counts of outcomes are those of the received items. *)
Lemma total_add d d' : total (delta_add d d') = u64 (total d + total d').
Proof. unfold total, delta_add. simpl. wrap_lia. Qed.

Definition tally (a : accounting) : outcomeDelta := foldl delta_add zero_delta (workerOutcomes a ++ [cleanupOutcomes a]).

Lemma tally_received ds : ∀ d (Ls : list (list T)),
  Forall2 (λ d L, total d = u64 (len L)) ds Ls → total (foldl delta_add d ds) = u64 (total d + len (concat Ls)).
Proof.
  induction ds as [|d' ds IH]; intros d Ls HF; inversion HF as [|? L ? Ls' Hd HF']; subst; simpl.
  - unfold total, len. simpl. wrap_lia.
  - rewrite (IH _ Ls' HF'), total_add, Hd. unfold len in *. rewrite length_app. wrap_lia.
Qed.

Lemma complete_outcomes y logs h :
  binv y logs h → all_closed h → total (tally (h_acct h)) = u64 (len (concat (snd <$> h_logs h))).
Proof.
  intros [] Hc. pose proof c0_le. unfold tally. rewrite <- (take_drop (S nw) (h_logs h)), fmap_app, concat_app.
  rewrite (concat_none (snd <$> drop _ _)), app_nil_r.
  2: { intros k l Hk. apply list_lookup_fmap_Some in Hk as (L & -> & HL). rewrite lookup_drop in HL.
       specialize (bi_roles0 _ L HL). unfold group_of in bi_roles0. rewrite !decide_False in bi_roles0 by lia. by destruct bi_roles0. }
  rewrite (tally_received _ zero_delta (snd <$> take (S nw) (h_logs h))); [unfold total; simpl; wrap_lia|].
  apply Forall2_same_length_lookup_2.
  { rewrite length_app, length_fmap, length_take. cbn [length]. lia. }
  intros k d l Hd Hl. apply list_lookup_fmap_Some in Hl as (L & -> & [HL Hk]%lookup_take_Some).
  destruct (lookup_lt_is_Some_2 (h_open h) k) as [b Ho]; [lia|]. rewrite (Hc k b Ho) in Ho.
  destruct (lookup_lt_is_Some_2 (h_term h) k) as [ts Hts]; [lia|].
  destruct (decide (k = nw)) as [->|Hne].
  - destruct (bi_through0 nw None L ts) as [_ <-]; [|done..|].
    { unfold group_of. by rewrite decide_False, decide_True by lia. }
    rewrite lookup_app_r, bi_groups0, Nat.sub_diag in Hd by lia. simpl in Hd. by injection Hd as <-.
  - destruct (bi_through0 k (Some k) L ts) as [_ <-]; [|done..|].
    { unfold group_of. by rewrite decide_True by lia. }
    rewrite lookup_app_l in Hd by lia. simpl. by rewrite Hd.
Qed.

Lemma concat_perm {B} (ls ls' : list (list B)) : Forall2 (≡ₚ) ls ls' → concat ls ≡ₚ concat ls'.
Proof. induction 1 as [|l l' ls ls' Hp _ IH]; simpl; [done|]. by rewrite Hp, IH. Qed.

(** The items that reached the terminal callback. *)
Lemma complete_seen y logs h :
  binv y logs h → all_closed h → OnTerminal config ≠ None → seen y ≡ₚ concat (snd <$> h_logs h).
Proof.
  intros [] Hc Ho. rewrite (bi_seen0 Ho).
  assert (Forall2 (≡ₚ) (h_term h) (snd <$> h_logs h)) as HF.
  { apply Forall2_same_length_lookup_2; [by rewrite length_fmap, bi_logs0|]. intros k ts l Hts Hl.
    apply list_lookup_fmap_Some in Hl as (L & -> & HL). destruct (group_of k) as [c|] eqn:Hg.
    - destruct (lookup_lt_is_Some_2 (h_open h) k) as [b Hb].
      { apply lookup_lt_Some in HL. congruence. }
      rewrite (Hc k b Hb) in Hb. destruct (bi_through0 k c L ts) as [Hp _]; auto.
    - rewrite (bi_others0 k ts Hts Hg). specialize (bi_roles0 k L HL). rewrite Hg in bi_roles0. destruct bi_roles0 as [-> _]. done. }
  by apply concat_perm.
Qed.

End run.

(** What [Summary] computes while nothing moves. *)
Lemma snapshot_ends c (w : W) : ends (counters_snapshot c) w (λ d w', w' = w ∧ d = the_group c (acct (user w))).
Proof.
  unfold counters_snapshot. do 4 (apply ends_bind, ends_load). apply ends_ret. by destruct (the_group _ _).
Qed.

Lemma sum_groups_ends cs : ∀ d (w : W),
  ends (sum_groups cs d) w (λ r w', w' = w ∧ r = foldl delta_add d ((λ c, the_group c (acct (user w))) <$> cs)).
Proof.
  induction cs as [|c cs IH]; intros d w; cbn [sum_groups]; [by apply ends_ret|].
  eapply ends_seq; [apply snapshot_ends|]. intros d' w' [-> ->]. apply IH.
Qed.

Lemma groups_all (ds : list outcomeDelta) a :
  workerOutcomes a = ds → (λ c, the_group c a) <$> ((Some <$> seq 0 (length ds)) ++ [None]) = ds ++ [cleanupOutcomes a].
Proof.
  intros Ha. rewrite fmap_app. f_equal. rewrite <- list_fmap_compose. apply list_eq. intros k.
  rewrite list_lookup_fmap. destruct (decide (k < length ds)%nat) as [Hk|Hk].
  - rewrite lookup_seq_lt by done. simpl. rewrite Ha. by destruct (lookup_lt_is_Some_2 ds k Hk) as [d ->].
  - rewrite lookup_seq_ge by lia. by rewrite lookup_ge_None_2 by lia.
Qed.

Definition summary_of (r : rstate X) : Summary :=
  let a := acct r in let d := tally a in
  MkSummary (accepted a) (succeeded d) (failed d) (abandoned d) (attempts d) (failures a) (omittedFailures a) (abortRecord (life r)).

Lemma summary_ends (w : W) : ends SummaryOf w (λ s w', w' = w ∧ s = summary_of (user w)).
Proof.
  unfold SummaryOf, AbortCause, accounting_snapshot. do 3 (apply ends_bind, ends_load).
  eapply ends_seq; [apply sum_groups_ends|]. intros d w' [-> ->]. apply ends_bind, ends_load, ends_ret.
  split; [done|]. by rewrite groups_all.
Qed.
End system.
End RunnerLive.
