(* ===== verification/DurableCore.v ===== *)
(** * Values, limits and encodings of the durable queue (src/workq/durable)

    The types of types.go, the sentinels of errors.go, the stored encodings (encoding.go), the
    checked charges of memory budgets (accounting.go), the validation of configurations (config.go)
    and of submissions (submit.go), as pure functions. A byte is a number below 256, a byte slice,
    byte array or string a list of bytes. *)

From Stdlib Require Import ZArith Lia Ascii String.
From stdpp Require Import prelude list strings.
From S2P Require Import Prelude.

Module Durable.

(** ** Errors (errors.go) *)

Definition ErrInvalidInput : error := New "invalid input".
Definition ErrConflict : error := New "conflict".
Definition ErrStaleToken : error := New "stale token".
Definition ErrRetired : error := New "retired".
Definition ErrCapacity : error := New "capacity".
Definition ErrStopped : error := New "stopped".
Definition ErrDrained : error := New "drained".
Definition ErrStorage : error := New "storage".
Definition ErrInUse : error := New "in use".
Definition ErrConfigMismatch : error := New "configuration mismatch".
Definition ErrUnsupported : error := New "unsupported".
Definition ErrMaintenanceRequired : error := New "maintenance required".
Definition ErrExhausted : error := New "identity exhausted".

(** Results of a fallible function, and the early return of an error. *)
Notation "'try' x := e 'in' k" := (match e with inl err => inl err | inr x => k end)
  (at level 200, x pattern, e at level 100, k at level 200, right associativity).

(** ** Types (types.go) *)

Definition bytes : Type := list Z.
Definition is_byte (b : Z) : Prop := 0 <= b < 256.
Definition is_bytes (n : nat) (bs : bytes) : Prop := length bs = n ∧ Forall is_byte bs.

(** The bytes of a Go string constant. *)
Definition string_bytes (s : string) : bytes := (λ c, Z.of_nat (nat_of_ascii c)) <$> list_ascii_of_string s.

Definition maxUint64 : Z := 2 ^ 64 - 1.

(** [Durability] is a [uint8]. *)
Definition Durability : Type := Z.
Definition Synchronized : Durability := 0.
Definition ProcessCrash : Durability := 1.

Record ID := MkID { Producer : bytes; Sequence : Z }.
#[export] Instance ID_eq_dec : EqDecision ID.
Proof. solve_decision. Defined.

Definition UUID : Type := bytes.
Definition Token : Type := bytes.

Record Entry := MkEntry { e_ID : ID; Codec : bytes; Payload : bytes }.

Record DurablePolicy := Policy {
  Profile : bytes; MaxPayload : Z; MaxCodec : Z; MaxPendingItems : Z; MaxPendingPayload : Z;
  MaxReceipts : Z; MaxProducers : Z; DatabaseLimit : Z }.
#[export] Instance DurablePolicy_eq_dec : EqDecision DurablePolicy.
Proof. solve_decision. Defined.

Record CommandBudget := Budget { Commands : Z; b_Retained : Z }.
Record BatchLimits := Batches { SubmitItems : Z; SubmitEncoded : Z; AckItems : Z; LookupItems : Z }.
Record GroupConfig := Group { g_Commands : Z; Operations : Z; Encoded : Z; MaxDelay : Z }.
Record DeliveryConfig := Delivery_ { d_Items : Z; d_Retained : Z; ReceiveItems : Z; ScanRows : Z; ReadScratch : Z }.
Record MaintenanceConfig := Maintenance { CleanupRows : Z; CleanupEncoded : Z; MaxCommandTurns : Z }.
Record SQLiteConfig := SQLite { Cache : Z; Mmap : Z; CheckpointTrigger : Z; CheckpointInterval : Z; BusyTimeout : Z }.
Record RuntimeConfig := Runtime {
  Ordinary : CommandBudget; Progress : CommandBudget; r_Batches : BatchLimits; r_Group : GroupConfig;
  r_Delivery : DeliveryConfig; r_Maintenance : MaintenanceConfig; r_SQLite : SQLiteConfig }.
Record Config := MkConfig { c_Policy : DurablePolicy; c_Durability : Durability; c_Runtime : RuntimeConfig }.

Record StoreCounts := Counts {
  PendingItems : Z; PendingPayload : Z; Receipts : Z; Producers : Z; RetiredProducers : Z; CleanupMarkers : Z }.
#[export] Instance StoreCounts_eq_dec : EqDecision StoreCounts.
Proof. solve_decision. Defined.

Inductive Decision_ := Unknown | NotApplied | Applied.
#[export] Instance Decision_eq_dec : EqDecision Decision_.
Proof. solve_decision. Defined.

Inductive StatusKind := StatusUnknown | Absent | Pending | Acknowledged | Retired.
#[export] Instance StatusKind_eq_dec : EqDecision StatusKind.
Proof. solve_decision. Defined.

Record Status := MkStatus { s_ID : ID; Kind : StatusKind; HasRetirement : bool; RetiredThrough : Z }.

(** ** Encodings (encoding.go) *)

(** [binary.BigEndian.PutUint64] and [binary.BigEndian.Uint64] on eight bytes. *)
Definition putUint64 (value : Z) : bytes := (λ k, Z.land (Z.shiftr value (8 * k)) 255) <$> [7; 6; 5; 4; 3; 2; 1; 0].
Definition bigEndian (encoded : bytes) : Z := foldl (λ acc b, acc * 256 + b) 0 encoded.

Definition encodeUint64 (value : Z) : bytes := putUint64 value.

Definition decodeUint64 (encoded : bytes) : error + Z :=
  if negb (len encoded =? 8) then inl (Errorf "uint64 length %d: %w" [ArgInt (len encoded)] ErrStorage)
  else inr (bigEndian encoded).

Definition nextIdentity (last : Z) : error + Z :=
  if last =? maxUint64 then inl ErrExhausted else inr (last +64 1).

Definition encodeID (id : ID) : bytes := Producer id ++ putUint64 (Sequence id).

Definition decodeID (encoded : bytes) : error + ID :=
  if negb (len encoded =? 24) then inl (Errorf "ID length %d: %w" [ArgInt (len encoded)] ErrStorage)
  else inr (MkID (sub encoded 0 16) (bigEndian (sub encoded 16 24))).

Definition encodeToken (uuid : UUID) (epoch : Z) (id : ID) (attempt : Z) : Token :=
  uuid ++ putUint64 epoch ++ encodeID id ++ putUint64 attempt.

Definition decodeToken (encoded : bytes) : error + Token :=
  if negb (len encoded =? 56) then inl (Errorf "token length %d: %w" [ArgInt (len encoded)] ErrStorage)
  else inr encoded.

Definition digestDomain : bytes := string_bytes "workq/durable/sqlite-wal-v1/entry" ++ [0].

(** What is written to the hash, in order. *)
Definition digestInput (codec payload : bytes) : bytes :=
  digestDomain ++ encodeUint64 (len codec) ++ codec ++ encodeUint64 (len payload) ++ payload.

(** [hash] is [crypto/sha256]. *)
Definition entryDigest (hash : bytes → bytes) (codec payload : bytes) : bytes := hash (digestInput codec payload).

Definition profileSQLiteWALV1 : bytes := string_bytes "sqlite-wal-v1".

Definition encodePolicy (policy : DurablePolicy) : bytes :=
  concat (putUint64 <$> [MaxPayload policy; MaxCodec policy; MaxPendingItems policy; MaxPendingPayload policy;
    MaxReceipts policy; MaxProducers policy; DatabaseLimit policy]).

(** ** Configuration (config.go) *)

Definition pageSize : Z := 4096.
Definition maxPayload : Z := Z.shiftl 16 10.
Definition maxCodec : Z := 64.
Definition walEnvelopeBytes : Z := Z.shiftl 64 20.
Definition maxCheckpointTrigger : Z := Z.shiftl 16 20.
Definition Millisecond : Z := 1000000.
Definition Second : Z := 1000 * Millisecond.

Definition validateProfile (profile : bytes) : option error :=
  if negb (bool_decide (profile = profileSQLiteWALV1)) then Some (Errorf "profile %q: %w" [] ErrUnsupported) else None.

Definition validatePolicy (policy : DurablePolicy) : option error :=
  match validateProfile (Profile policy) with
  | Some err => Some err
  | None =>
      let valid :=
        (0 <? MaxPayload policy) && (MaxPayload policy <=? maxPayload) &&
        (MaxCodec policy <=? maxCodec) &&
        (0 <? MaxPendingItems policy) && (MaxPendingItems policy <=? 4096) &&
        (MaxPayload policy <=? MaxPendingPayload policy) && (MaxPendingPayload policy <=? Z.shiftl 16 20) &&
        (MaxPendingItems policy <=? MaxReceipts policy) && (MaxReceipts policy <=? 16384) &&
        (0 <? MaxProducers policy) && (MaxProducers policy <=? 256) &&
        (0 <? DatabaseLimit policy) && (DatabaseLimit policy <=? Z.shiftl 1 30) &&
        (DatabaseLimit policy mod pageSize =? 0) in
      if negb valid then Some (Errorf "durable limits: %w" [] ErrInvalidInput) else None
  end.

Definition decodePolicy (profile encoded : bytes) : error + DurablePolicy :=
  match validateProfile profile with
  | Some err => inl err
  | None =>
      if negb (len encoded =? 56) then inl (Errorf "policy length %d: %w" [ArgInt (len encoded)] ErrStorage)
      else
        let value i := bigEndian (sub encoded (i * 8) ((i + 1) * 8)) in
        if existsb (λ i, 2 ^ 32 - 1 <? value i) [2; 4; 5] then inl (Errorf "policy count overflow: %w" [] ErrStorage)
        else
          let policy := Policy profile (value 0) (value 1) (value 2) (value 3) (value 4) (value 5) (value 6) in
          match validatePolicy policy with
          | Some err => inl (Errorf "stored policy: %w: %v" [] ErrStorage)
          | None => inr policy
          end
  end.

(** ** Charges (accounting.go) *)

Definition commandBase : Z := 256.

Definition allocationCharge (size : Z) : error + Z :=
  if (maxInt <? size) || (maxUint64 - 7 <? size) then inl ErrInvalidInput
  else
    let rounded := Z.ldiff (size +64 7) 7 in
    if maxUint64 / 2 <? rounded then inl ErrInvalidInput else inr (u64 (rounded * 2)).

Definition checkedAdd (left right : Z) : error + Z :=
  if maxUint64 - right <? left then inl ErrInvalidInput else inr (left +64 right).

Definition checkedMultiply (left right : Z) : error + Z :=
  if negb (right =? 0) && (maxUint64 / right <? left) then inl ErrInvalidInput else inr (u64 (left * right)).

(** The loop that adds the allowance of an array of [count] elements per element size. *)
Fixpoint arraysCharge (count : Z) (elements : list Z) (charge : Z) : error + Z :=
  match elements with
  | [] => inr charge
  | element :: elements =>
      try size := checkedMultiply count element in
      try allowance := allocationCharge size in
      try charge := checkedAdd charge allowance in
      arraysCharge count elements charge
  end.

(** The loop that adds allowances. *)
Fixpoint addAll (allowances : list Z) (charge : Z) : error + Z :=
  match allowances with
  | [] => inr charge
  | allowance :: allowances =>
      try charge := checkedAdd charge allowance in
      addAll allowances charge
  end.

Definition submitCharge (count payload codecs largestCodec : Z) : error + Z :=
  try charge := arraysCharge count [64; 1; 16] commandBase in
  try arena := allocationCharge payload in
  addAll [arena; codecs; largestCodec] charge.

Definition lookupCharge (count : Z) : error + Z := arraysCharge count [24; 40] commandBase.

(** The loop of [maximumSubmitCharge] from [count] on; it makes at most [fuel] rounds. *)
Fixpoint maximumLoop (fuel : nat) (count codec maximum : Z) (policy : DurablePolicy) (limits : BatchLimits) : error + Z :=
  match fuel with
  | 0%nat => inr maximum
  | S fuel =>
      if count <=? SubmitItems limits then
        try base := checkedMultiply count 88 in
        if SubmitEncoded limits <? base then inr maximum
        else
          try payload := checkedMultiply count (MaxPayload policy) in
          try codecs := checkedMultiply count codec in
          try charge := submitCharge count (Z.min payload (SubmitEncoded limits -64 base)) codecs codec in
          maximumLoop fuel (count +64 1) codec (Z.max maximum charge) policy limits
      else inr maximum
  end.

Definition maximumSubmitCharge (policy : DurablePolicy) (limits : BatchLimits) : error + Z :=
  try codec := allocationCharge (MaxCodec policy) in
  maximumLoop (Z.to_nat (SubmitItems limits)) 1 codec commandBase policy limits.

(** [sourceBufferCharge] and [deliveryScratchCharge] (delivery.go); an ignored error leaves 0. *)
Definition chargeOrZero (size : Z) : Z := match allocationCharge size with inl _ => 0 | inr charge => charge end.

Definition sourceBufferCharge (size : Z) : Z := Z.min (chargeOrZero size) (Z.ldiff (size +64 8191) 8191).

Definition deliveryScratchCharge (payload codec : Z) : Z :=
  (sourceBufferCharge payload +64 sourceBufferCharge codec) +64 u64 (2 * codec) +64 1024.

(** ** Configuration of a session (config.go) *)

Definition DefaultRuntime (policy : DurablePolicy) : error + RuntimeConfig :=
  match validatePolicy policy with
  | Some err => inl err
  | None => inr (Runtime
      (Budget 64 (Z.shiftl 8 20)) (Budget 64 (Z.shiftl 256 10))
      (Batches 256 (Z.shiftl 2 20) 256 256)
      (Group 64 256 (Z.shiftl 2 20) Millisecond)
      (Delivery_ 256 (Z.shiftl 4 20) 32 256 (Z.shiftl 32 10))
      (Maintenance 256 (Z.shiftl 64 10) 8)
      (SQLite (Z.shiftl 64 20) (Z.shiftl 256 20) maxCheckpointTrigger Second (5 * Second)))
  end.

Definition in_ceiling (limit : Z * Z) : bool := negb (limit.1 =? 0) && (limit.1 <=? limit.2).

Definition validateConfig (config : Config) : option error :=
  let policy := c_Policy config in
  let runtime := c_Runtime config in
  match validatePolicy policy with Some err => Some err | None =>
  if ProcessCrash <? c_Durability config then
    Some (Errorf "durability %d: %w" [ArgInt (c_Durability config)] ErrInvalidInput)
  else if negb (forallb in_ceiling [
      (Commands (Ordinary runtime), 64); (Commands (Progress runtime), 64);
      (SubmitItems (r_Batches runtime), 256); (AckItems (r_Batches runtime), 256);
      (LookupItems (r_Batches runtime), 256); (g_Commands (r_Group runtime), 64);
      (Operations (r_Group runtime), 256); (d_Items (r_Delivery runtime), 256);
      (ReceiveItems (r_Delivery runtime), 256); (ScanRows (r_Delivery runtime), 256);
      (CleanupRows (r_Maintenance runtime), 256); (MaxCommandTurns (r_Maintenance runtime), 8)]) then
    Some (Errorf "runtime count: %w" [] ErrInvalidInput)
  else if negb (forallb in_ceiling [
      (b_Retained (Ordinary runtime), Z.shiftl 8 20); (b_Retained (Progress runtime), Z.shiftl 256 10);
      (SubmitEncoded (r_Batches runtime), Z.shiftl 2 20); (Encoded (r_Group runtime), Z.shiftl 2 20);
      (d_Retained (r_Delivery runtime), Z.shiftl 4 20); (ReadScratch (r_Delivery runtime), Z.shiftl 32 10);
      (CleanupEncoded (r_Maintenance runtime), Z.shiftl 64 10)]) then
    Some (Errorf "runtime bytes: %w" [] ErrInvalidInput)
  else
    let record := MaxPayload policy +64 MaxCodec policy in
    let maximumSubmit := Z.min (SubmitEncoded (r_Batches runtime))
      (u64 (SubmitItems (r_Batches runtime) * (88 +64 record))) in
    match maximumSubmitCharge policy (r_Batches runtime) with inl err => Some err | inr submitRetained =>
    match lookupCharge (LookupItems (r_Batches runtime)) with inl err => Some err | inr lookupRetained =>
    match allocationCharge (MaxPayload policy) with inl err => Some err | inr payloadCharge =>
    match allocationCharge (MaxCodec policy) with inl err => Some err | inr codecCharge =>
    let valid :=
      (88 +64 record <=? SubmitEncoded (r_Batches runtime)) &&
      (payloadCharge +64 codecCharge +64 256 <=? d_Retained (r_Delivery runtime)) &&
      (deliveryScratchCharge (MaxPayload policy) (MaxCodec policy) <=? ReadScratch (r_Delivery runtime)) &&
      (submitRetained <=? b_Retained (Ordinary runtime)) &&
      (lookupRetained <=? b_Retained (Ordinary runtime)) &&
      (256 +64 u64 (128 * AckItems (r_Batches runtime)) <=? b_Retained (Progress runtime)) &&
      (384 <=? b_Retained (Progress runtime)) &&
      (Z.max (SubmitItems (r_Batches runtime)) (AckItems (r_Batches runtime)) <=? Operations (r_Group runtime)) &&
      (maximumSubmit <=? Encoded (r_Group runtime)) &&
      (u64 (56 * AckItems (r_Batches runtime)) <=? Encoded (r_Group runtime)) &&
      (24 <=? Encoded (r_Group runtime)) &&
      (ReceiveItems (r_Delivery runtime) <=? d_Items (r_Delivery runtime)) &&
      (24 + 32 + 1 + 8 + 56 + 26 <=? CleanupEncoded (r_Maintenance runtime)) in
    if negb valid then Some (Errorf "runtime budget relation: %w" [] ErrInvalidInput)
    else
      let sqlite := r_SQLite runtime in
      let validSQLite :=
        (Z.shiftl 8 20 <=? Cache sqlite) && (Cache sqlite <=? Z.shiftl 64 20) &&
        (Mmap sqlite <=? Z.shiftl 256 20) && (Z.shiftl 4 20 <=? CheckpointTrigger sqlite) &&
        (CheckpointTrigger sqlite <=? maxCheckpointTrigger) && (0 <? CheckpointInterval sqlite) &&
        (CheckpointInterval sqlite <=? Second) && (0 <=? BusyTimeout sqlite) &&
        (BusyTimeout sqlite <=? 5 * Second) &&
        (0 <=? MaxDelay (r_Group runtime)) && (MaxDelay (r_Group runtime) <=? 10 * Millisecond) in
      if negb validSQLite then Some (Errorf "SQLite tuning: %w" [] ErrInvalidInput) else None
    end end end end
  end.

(** ** Submissions (submit.go) *)

Record submitAllocation := Allocation { a_payload : Z; a_charge : Z }.

(** What the loop of [validateSubmit] has added up. *)
Record submitSums := Sums { encoded_ : Z; payload_ : Z; codecs_ : Z; largestCodec_ : Z }.

Fixpoint validateEntries (config : Config) (previous : list ID) (sums : submitSums) (entries : list Entry)
    : error + submitSums :=
  match entries with
  | [] => inr sums
  | entry :: entries =>
      let codecBytes := len (Codec entry) in
      let payloadBytes := len (Payload entry) in
      if (MaxCodec (c_Policy config) <? codecBytes) || (MaxPayload (c_Policy config) <? payloadBytes) then
        inl ErrInvalidInput
      else
        try work := checkedAdd codecBytes payloadBytes in
        try work := checkedAdd work 88 in
        match checkedAdd (encoded_ sums) work with
        | inl _ => inl ErrInvalidInput
        | inr encoded =>
            if SubmitEncoded (r_Batches (c_Runtime config)) <? encoded then inl ErrInvalidInput
            else
              try payload := checkedAdd (payload_ sums) payloadBytes in
              try codec := allocationCharge codecBytes in
              try codecs := checkedAdd (codecs_ sums) codec in
              if existsb (λ id, bool_decide (id = e_ID entry)) previous then inl ErrInvalidInput
              else validateEntries config (previous ++ [e_ID entry])
                     (Sums encoded payload codecs (Z.max (largestCodec_ sums) codec)) entries
        end
  end.

Definition validateSubmit (config : Config) (entries : list Entry) : error + submitAllocation :=
  if SubmitItems (r_Batches (c_Runtime config)) <? len entries then inl ErrInvalidInput
  else
    try sums := validateEntries config [] (Sums 0 0 0 0) entries in
    try charge := submitCharge (len entries) (payload_ sums) (codecs_ sums) (largestCodec_ sums) in
    inr (Allocation (payload_ sums) charge).

Definition countFreshAfter (fresh : list bool) (index : nat) : Z :=
  len (filter (λ b, b = true) (drop (S index) fresh)).
End Durable.
