(* ===== verification/DurableSpec.v ===== *)
(** * The encodings and budgets of the durable queue are correct (src/workq/durable)

    Encodings can be read back, keep the order that the database's indexes rely on and tell entries
    apart; a submission that passes validation fits the memory budget of a valid configuration. *)

From Stdlib Require Import ZArith Lia.
From stdpp Require Import prelude list strings.
From S2P Require Import Prelude DurableCore.

Module DurableSpec.
Import Durable.

(** ** Big-endian numbers *)

Definition digit (v k : Z) : Z := (v / 2 ^ (8 * k)) mod 256.

Lemma put_digits v : putUint64 v = digit v <$> [7; 6; 5; 4; 3; 2; 1; 0].
Proof.
  unfold putUint64. apply list_fmap_ext. intros i k Hk. unfold digit.
  assert (0 <= k) as Hk0.
  { apply list_elem_of_lookup_2 in Hk. repeat (apply elem_of_cons in Hk as [->|Hk]; [lia|]). by apply elem_of_nil in Hk. }
  change 255 with (Z.ones 8). rewrite Z.land_ones by lia. by rewrite Z.shiftr_div_pow2 by lia.
Qed.

Lemma put_length v : length (putUint64 v) = 8%nat.
Proof. done. Qed.

Lemma put_bytes v : is_bytes 8 (putUint64 v).
Proof.
  split; [done|]. rewrite put_digits. repeat constructor; unfold digit, is_byte; apply Z.mod_pos_bound; lia.
Qed.

Lemma bigEndian_put v : is_u64 v → bigEndian (putUint64 v) = v.
Proof.
  intros Hv. rewrite put_digits. unfold bigEndian, digit, is_u64 in *. cbn [fmap list_fmap foldl].
  change (2 ^ (8 * 7)) with 72057594037927936. change (2 ^ (8 * 6)) with 281474976710656.
  change (2 ^ (8 * 5)) with 1099511627776. change (2 ^ (8 * 4)) with 4294967296.
  change (2 ^ (8 * 3)) with 16777216. change (2 ^ (8 * 2)) with 65536. change (2 ^ (8 * 1)) with 256.
  change (2 ^ (8 * 0)) with 1. change (2 ^ 64) with 18446744073709551616 in Hv.
  Z.div_mod_to_equations. lia.
Qed.

(** The comparison of blobs, byte by byte, that SQLite and [bytes.Compare] use. *)
Fixpoint bytes_compare (a b : bytes) : comparison :=
  match a, b with
  | [], [] => Eq
  | [], _ => Lt
  | _, [] => Gt
  | x :: a, y :: b => match x ?= y with Eq => bytes_compare a b | c => c end
  end.

Lemma compare_refl a : bytes_compare a a = Eq.
Proof. induction a as [|x a IH]; simpl; [done|]. by rewrite Z.compare_refl. Qed.

Lemma compare_eq a b : bytes_compare a b = Eq → a = b.
Proof.
  revert b. induction a as [|x a IH]; intros [|y b]; simpl; try done.
  destruct (Z.compare_spec x y) as [->|?|?]; try done. intros Hc. by rewrite (IH b Hc).
Qed.

Lemma compare_antisym a : ∀ b, bytes_compare b a = CompOpp (bytes_compare a b).
Proof.
  induction a as [|x a IH]; intros [|y b]; simpl; try done. rewrite (Z.compare_antisym x y).
  destruct (x ?= y); simpl; auto.
Qed.

Lemma compare_app a b a' b' :
  length a = length b → bytes_compare (a ++ a') (b ++ b') = match bytes_compare a b with Eq => bytes_compare a' b' | c => c end.
Proof.
  revert b. induction a as [|x a IH]; intros [|y b] Hl; simpl in *; try done.
  destruct (x ?= y); [|done|done]. apply IH. lia.
Qed.

Lemma foldl_compare a : ∀ b x y,
  length a = length b → Forall is_byte a → Forall is_byte b →
  let fa := foldl (λ acc d, acc * 256 + d) x a in
  let fb := foldl (λ acc d, acc * 256 + d) y b in
  (x < y → fa < fb) ∧ (y < x → fb < fa) ∧ (x = y → (fa ?= fb) = bytes_compare a b).
Proof.
  induction a as [|c a IH]; intros [|d b] x y Hl Ha Hb; simpl in *; try done.
  { split_and!; [done..|]. intros ->. apply Z.compare_refl. }
  inversion Ha as [|? ? Hc Ha']; inversion Hb as [|? ? Hd Hb']; subst. unfold is_byte in *.
  destruct (IH b (x * 256 + c) (y * 256 + d)) as (H1 & H2 & H3); [lia|done..|].
  split_and!; [intros; apply H1; lia|intros; apply H2; lia|]. intros ->.
  destruct (Z.compare_spec c d) as [->|Hlt|Hgt]; [by apply H3| |].
  - apply Z.compare_lt_iff, H1. lia.
  - apply Z.compare_gt_iff, H2. lia.
Qed.

Lemma compare_put v v' : is_u64 v → is_u64 v' → bytes_compare (putUint64 v) (putUint64 v') = (v ?= v').
Proof.
  intros Hv Hv'. destruct (foldl_compare (putUint64 v) (putUint64 v') 0 0) as (_ & _ & H);
    [done|apply put_bytes..|]. rewrite <- H by done. fold (bigEndian (putUint64 v)) (bigEndian (putUint64 v')).
  by rewrite !bigEndian_put.
Qed.

(** ** Identities and tokens *)

Definition id_ok (id : ID) : Prop := is_bytes 16 (Producer id) ∧ is_u64 (Sequence id).

Lemma encodeID_length id : id_ok id → length (encodeID id) = 24%nat.
Proof. intros [[Hl _] _]. unfold encodeID. rewrite length_app, Hl. done. Qed.

Lemma sub_app_l {A} (l1 l2 : list A) n : n = len l1 → sub (l1 ++ l2) 0 n = l1.
Proof. intros ->. unfold sub, len. rewrite Z.sub_0_r, !Nat2Z.id. simpl. by rewrite drop_0, take_app_length. Qed.

Lemma sub_app_r {A} (l1 l2 : list A) i j : 0 <= i - len l1 → 0 <= len l1 → sub (l1 ++ l2) i j = sub l2 (i - len l1) (j - len l1).
Proof.
  intros Hi Hl. unfold sub, len in *. rewrite drop_app_ge by lia. f_equal; [lia|]. f_equal. lia.
Qed.

Lemma decode_encodeID id : id_ok id → decodeID (encodeID id) = inr id.
Proof.
  intros Hid. pose proof (encodeID_length id Hid) as Hlen. destruct Hid as [[Hl _] Hs]. unfold decodeID.
  assert (len (encodeID id) = 24) as -> by (unfold len; lia). cbn [negb Z.eqb Pos.eqb]. unfold encodeID.
  assert (len (Producer id) = 16) as Hp by (unfold len; lia).
  rewrite sub_app_l by done. rewrite sub_app_r by lia. rewrite Hp.
  change (sub (putUint64 (Sequence id)) (16 - 16) (24 - 16)) with (putUint64 (Sequence id)).
  rewrite bigEndian_put by done. by destruct id.
Qed.

Lemma encodeID_inj id id' : id_ok id → id_ok id' → encodeID id = encodeID id' → id = id'.
Proof. intros H H' He. apply (f_equal decodeID) in He. rewrite !decode_encodeID in He by done. by injection He. Qed.

(** The keys between the first of a producer and one of its sequences are exactly its sequences up
    to that one. *)
Lemma encodeID_range p s id :
  id_ok id → is_bytes 16 p → is_u64 s →
  bytes_compare (encodeID (MkID p 0)) (encodeID id) ≠ Gt ∧ bytes_compare (encodeID id) (encodeID (MkID p s)) ≠ Gt ↔
  Producer id = p ∧ Sequence id <= s.
Proof.
  intros [[Hl _] Hs] [Hp _] Hs'. unfold encodeID. cbn [Producer Sequence].
  rewrite !compare_app by lia. rewrite !compare_put by (done || (unfold is_u64; lia)). unfold is_u64 in *.
  split.
  - intros [H1 H2]. destruct (bytes_compare p (Producer id)) eqn:Hc; [| |done].
    + apply compare_eq in Hc as ->. rewrite compare_refl in H2. split; [done|]. by apply Z.compare_le_iff.
    + by rewrite (compare_antisym p (Producer id)), Hc in H2.
  - intros [-> Hle]. rewrite !compare_refl. split; [|by apply Z.compare_le_iff].
    apply Z.compare_le_iff. lia.
Qed.

(** The parts of a token. *)
Lemma token_parts uuid epoch id attempt :
  is_bytes 16 uuid → is_u64 epoch → id_ok id → is_u64 attempt →
  let token := encodeToken uuid epoch id attempt in
  len token = 56 ∧ sub token 0 16 = uuid ∧ bigEndian (sub token 16 24) = epoch ∧
  sub token 24 48 = encodeID id ∧ bigEndian (sub token 48 56) = attempt.
Proof.
  intros [Hu _] He Hid Ha. pose proof (encodeID_length id Hid) as Hlen. unfold encodeToken.
  assert (len uuid = 16) as Hu' by (unfold len; lia). assert (len (encodeID id) = 24) as Hi' by (unfold len; lia).
  assert (∀ v, len (putUint64 v) = 8) as Hp by done.
  split; [rewrite !len_app, Hu', Hi', !Hp; done|]. split; [by rewrite sub_app_l|]. split_and!.
  - rewrite sub_app_r by lia. rewrite Hu'. rewrite sub_app_l by (by rewrite Hp). by apply bigEndian_put.
  - rewrite sub_app_r by lia. rewrite Hu', sub_app_r, Hp by (rewrite ?Hp; lia). by rewrite sub_app_l.
  - rewrite sub_app_r by lia. rewrite Hu', sub_app_r, Hp by (rewrite ?Hp; lia).
    rewrite sub_app_r by lia. rewrite Hi'. change (sub (putUint64 attempt) _ _) with (putUint64 attempt). by apply bigEndian_put.
Qed.

(** ** The stored policy *)

Ltac leb_facts :=
  repeat match goal with
  | H : (_ && _)%bool = true |- _ => apply andb_true_iff in H as [? ?]
  | H : (_ <? _) = true |- _ => apply Z.ltb_lt in H
  | H : (_ <=? _) = true |- _ => apply Z.leb_le in H
  | H : (_ =? _) = true |- _ => apply Z.eqb_eq in H
  end.

Lemma policy_ok policy :
  validatePolicy policy = None →
  Profile policy = profileSQLiteWALV1 ∧ 0 < MaxPayload policy <= 16384 ∧ MaxCodec policy <= 64 ∧
  0 < MaxPendingItems policy <= 4096 ∧ MaxPayload policy <= MaxPendingPayload policy <= 16777216 ∧
  MaxPendingItems policy <= MaxReceipts policy <= 16384 ∧ 0 < MaxProducers policy <= 256 ∧
  0 < DatabaseLimit policy <= 1073741824.
Proof.
  unfold validatePolicy, validateProfile. case_bool_decide as Hp; simpl negb; cbn iota beta; [|done].
  case_match eqn:Hv; [done|]. intros _. apply negb_false_iff in Hv. leb_facts.
  unfold maxPayload, maxCodec in *. change (Z.shiftl 16 10) with 16384 in *. change (Z.shiftl 16 20) with 16777216 in *.
  change (Z.shiftl 1 30) with 1073741824 in *. split_and!; done.
Qed.

Lemma concat_put_sub vs : ∀ i v, vs !! i = Some v →
  sub (concat (putUint64 <$> vs)) (Z.of_nat i * 8) ((Z.of_nat i + 1) * 8) = putUint64 v.
Proof.
  induction vs as [|w vs IH]; intros [|i] v Hv; [done..| |]; simpl in Hv; cbn [fmap list_fmap concat].
  - injection Hv as ->. change (sub (putUint64 v ++ concat (putUint64 <$> vs)) 0 8 = putUint64 v). by apply sub_app_l.
  - rewrite sub_app_r by (change (len (putUint64 w)) with 8; lia). change (len (putUint64 w)) with 8.
    rewrite <- (IH i v Hv). f_equal; lia.
Qed.

Lemma concat_put_length vs : length (concat (putUint64 <$> vs)) = (8 * length vs)%nat.
Proof. induction vs as [|v vs IH]; [done|]. cbn [fmap list_fmap concat]. rewrite length_app, IH. simpl length. lia. Qed.

Lemma decode_encodePolicy policy :
  validatePolicy policy = None → 0 <= MaxCodec policy → decodePolicy (Profile policy) (encodePolicy policy) = inr policy.
Proof.
  intros Hv Hc. pose proof (policy_ok policy Hv) as (Hp & H1 & H2 & H3 & H4 & H5 & H6 & H7).
  unfold decodePolicy, validateProfile. rewrite Hp, bool_decide_true by done. cbn [negb]. unfold encodePolicy.
  set (vs := [_; _; _; _; _; _; _]).
  assert (len (concat (putUint64 <$> vs)) = 56) as -> by (unfold len; by rewrite concat_put_length).
  cbn [negb Z.eqb Pos.eqb].
  assert (∀ (i : nat) v z, vs !! i = Some v → 0 <= v < 2 ^ 32 → z = Z.of_nat i →
    bigEndian (sub (concat (putUint64 <$> vs)) (z * 8) ((z + 1) * 8)) = v) as Hi.
  { intros i v z Hl Hr ->. rewrite (concat_put_sub vs i v Hl). apply bigEndian_put. unfold is_u64. lia. }
  pose proof (Hi 0%nat _ 0 eq_refl ltac:(lia) eq_refl) as E0. pose proof (Hi 1%nat _ 1 eq_refl ltac:(lia) eq_refl) as E1.
  pose proof (Hi 2%nat _ 2 eq_refl ltac:(lia) eq_refl) as E2. pose proof (Hi 3%nat _ 3 eq_refl ltac:(lia) eq_refl) as E3.
  pose proof (Hi 4%nat _ 4 eq_refl ltac:(lia) eq_refl) as E4. pose proof (Hi 5%nat _ 5 eq_refl ltac:(lia) eq_refl) as E5.
  pose proof (Hi 6%nat _ 6 eq_refl ltac:(lia) eq_refl) as E6. clearbody vs. cbn [existsb].
  rewrite E0, E1, E2, E3, E4, E5, E6.
  rewrite !(proj2 (Z.ltb_ge _ _)) by lia. cbn [orb]. rewrite <- Hp. destruct policy as [q0 q1 q2 q3 q4 q5 q6 q7].
  cbn [MaxPayload MaxCodec MaxPendingItems MaxPendingPayload MaxReceipts MaxProducers DatabaseLimit Profile]. by rewrite Hv.
Qed.

Lemma digestInput_inj c p c' p' :
  len c < 2 ^ 64 → len c' < 2 ^ 64 → digestInput c p = digestInput c' p' → c = c' ∧ p = p'.
Proof.
  intros Hc Hc' He. unfold digestInput, encodeUint64 in He. apply app_inv_head in He.
  apply app_inj_1 in He as [H1 H2]; [|done]. apply (f_equal bigEndian) in H1.
  rewrite !bigEndian_put in H1 by (unfold is_u64, len in *; lia).
  apply app_inj_1 in H2 as [-> H2]; [|unfold len in *; lia]. split; [done|].
  by apply app_inj_1 in H2 as [_ ?].
Qed.

(** C13. Stored encodings can be read back: 64-bit numbers, occurrence identities, the fields of a
    delivery token and the stored policy. What is hashed for the digest of an entry determines its
    codec and its payload, so entries with one digest are equal unless the hash collides. *)
Theorem encodings_roundtrip v id uuid epoch attempt :
  is_u64 v → id_ok id → is_bytes 16 uuid → is_u64 epoch → is_u64 attempt →
  decodeUint64 (encodeUint64 v) = inr v ∧ decodeID (encodeID id) = inr id ∧
  (let token := encodeToken uuid epoch id attempt in
   decodeToken token = inr token ∧ sub token 0 16 = uuid ∧ bigEndian (sub token 16 24) = epoch ∧
   decodeID (sub token 24 48) = inr id ∧ bigEndian (sub token 48 56) = attempt) ∧
  (∀ policy, validatePolicy policy = None → 0 <= MaxCodec policy →
    decodePolicy (Profile policy) (encodePolicy policy) = inr policy) ∧
  ∀ c p c' p', len c < 2 ^ 64 → len c' < 2 ^ 64 → digestInput c p = digestInput c' p' → c = c' ∧ p = p'.
Proof.
  intros Hv Hid Hu He Ha. destruct (token_parts uuid epoch id attempt Hu He Hid Ha) as (Hl & H1 & H2 & H3 & H4).
  split; [unfold decodeUint64, encodeUint64; by rewrite bigEndian_put|]. split; [by apply decode_encodeID|].
  split; [|split; [intros policy; apply decode_encodePolicy|apply digestInput_inj]]. cbn zeta. unfold decodeToken. rewrite Hl, H3.
  split; [done|]. split; [done|]. split; [done|]. split; [by apply decode_encodeID|done].
Qed.

Definition some_id : ID := MkID (replicate 16 7) 9.

Lemma encodings_roundtrip_witness : decodeUint64 (encodeUint64 258) = inr 258 ∧ decodeID (encodeID some_id) = inr some_id.
Proof.
  destruct (encodings_roundtrip 258 some_id (replicate 16 1) 3 4) as (H1 & H2 & _).
  - unfold is_u64. lia.
  - split; [split; [reflexivity|by repeat constructor]|unfold is_u64; simpl; lia].
  - split; [reflexivity|by repeat constructor].
  - unfold is_u64. lia.
  - unfold is_u64. lia.
  - split; [exact H1|exact H2].
Defined.

(** ** Charges *)

(** What [allocationCharge] computes for sizes that exist. *)
Definition allowance (size : Z) : Z := 16 * ((size + 7) / 8).

Lemma allocationCharge_eq size : 0 <= size <= 2 ^ 61 → allocationCharge size = inr (allowance size).
Proof.
  intros Hs. unfold allocationCharge, maxInt, maxUint64, allowance.
  rewrite !(proj2 (Z.ltb_ge _ _)) by lia. cbn [orb].
  assert (Z.ldiff (size +64 7) 7 = 8 * ((size + 7) / 8)) as ->.
  { rewrite u64_small by (unfold is_u64; lia). change 7 with (Z.ones 3) at 2. rewrite Z.ldiff_ones_r by lia.
    rewrite Z.shiftl_mul_pow2, Z.shiftr_div_pow2 by lia. change (2 ^ 3) with 8. lia. }
  assert ((size + 7) / 8 <= 2 ^ 59) by (apply Z.div_le_upper_bound; lia).
  assert (0 <= (size + 7) / 8) by (apply Z.div_pos; lia).
  rewrite (proj2 (Z.ltb_ge _ _)) by (change ((2 ^ 64 - 1) / 2) with 9223372036854775807; lia).
  f_equal. rewrite u64_small by (unfold is_u64; lia). lia.
Qed.

Lemma allowance_mono a b : a <= b → allowance a <= allowance b.
Proof. intros Hab. unfold allowance. pose proof (Z.div_le_mono (a + 7) (b + 7) 8). lia. Qed.

Lemma allowance_bounds a : 0 <= a → a <= allowance a <= 2 * a + 14.
Proof. intros Ha. unfold allowance. pose proof (Z.div_mod (a + 7) 8). pose proof (Z.mod_pos_bound (a + 7) 8). lia. Qed.

Lemma checkedAdd_eq a b : 0 <= a → 0 <= b → a + b < 2 ^ 64 → checkedAdd a b = inr (a + b).
Proof.
  intros. unfold checkedAdd, maxUint64. rewrite (proj2 (Z.ltb_ge _ _)) by lia. by rewrite u64_small by (unfold is_u64; lia).
Qed.

Lemma checkedMultiply_eq a b : 0 <= a → 0 <= b → a * b < 2 ^ 64 → checkedMultiply a b = inr (a * b).
Proof.
  intros. unfold checkedMultiply, maxUint64. destruct (Z.eqb_spec b 0) as [->|Hb]; cbn [negb andb].
  - by rewrite u64_small by (unfold is_u64; lia).
  - rewrite (proj2 (Z.ltb_ge _ _)) by (apply Z.div_le_lower_bound; lia).
    by rewrite u64_small by (unfold is_u64; lia).
Qed.

Definition charge_of (count payload codecs largest : Z) : Z :=
  256 + allowance (count * 64) + allowance (count * 1) + allowance (count * 16) + allowance payload + codecs + largest.

Lemma submitCharge_eq count payload codecs largest :
  0 <= count <= 2 ^ 20 → 0 <= payload <= 2 ^ 40 → 0 <= codecs <= 2 ^ 40 → 0 <= largest <= 2 ^ 40 →
  submitCharge count payload codecs largest = inr (charge_of count payload codecs largest).
Proof.
  intros Hc Hp Hs Hl. pose proof (allowance_bounds (count * 64)). pose proof (allowance_bounds (count * 1)).
  pose proof (allowance_bounds (count * 16)). pose proof (allowance_bounds payload).
  unfold submitCharge, charge_of, commandBase. cbn [arraysCharge].
  rewrite !checkedMultiply_eq, !allocationCharge_eq by lia. rewrite checkedAdd_eq by lia.
  rewrite checkedAdd_eq by lia. rewrite checkedAdd_eq by lia. cbn [addAll]. rewrite checkedAdd_eq by lia.
  rewrite checkedAdd_eq by lia. rewrite checkedAdd_eq by lia. f_equal; lia.
Qed.

(** ** The largest charge of a submission *)

Section maximum.
Context (policy : DurablePolicy) (limits : BatchLimits) (codec : Z).
Hypothesis Hpayload : 0 < MaxPayload policy <= 16384.
Hypothesis Hcodec : 0 <= codec <= 2 ^ 10.
Hypothesis Hencoded : 0 <= SubmitEncoded limits <= 2 ^ 21.

(** The charge of the largest command of [c] entries. *)
Definition worst (c : Z) : Z := charge_of c (Z.min (c * MaxPayload policy) (SubmitEncoded limits - c * 88)) (c * codec) codec.
Definition possible (c : Z) : Prop := c <= SubmitItems limits ∧ c * 88 <= SubmitEncoded limits.

Lemma maximumLoop_spec fuel : ∀ count maximum,
  1 <= count → count + Z.of_nat fuel <= 2 ^ 10 →
  ∃ m, maximumLoop fuel count codec maximum policy limits = inr m ∧ maximum <= m ∧
    (∀ c, count <= c < count + Z.of_nat fuel → possible c → worst c <= m) ∧
    (∀ B, maximum <= B → (∀ c, count <= c → possible c → worst c <= B) → m <= B).
Proof.
  induction fuel as [|fuel IH]; intros count maximum Hc Hf; cbn [maximumLoop].
  { exists maximum. split_and!; [done|lia|lia|by intros]. }
  destruct (Z.leb_spec count (SubmitItems limits)) as [Hle|Hgt].
  2: { exists maximum. split_and!; [done|lia| |by intros]. intros c Hc' [? _]. lia. }
  rewrite checkedMultiply_eq by lia. destruct (Z.ltb_spec (SubmitEncoded limits) (count * 88)) as [Hlt|Hge].
  { exists maximum. split_and!; [done|lia| |by intros]. intros c Hc' [_ ?]. lia. }
  rewrite !checkedMultiply_eq by nia. rewrite u64_small by (unfold is_u64; lia).
  rewrite submitCharge_eq by nia. fold (worst count). rewrite u64_small by (unfold is_u64; lia).
  destruct (IH (count + 1) (Z.max maximum (worst count))) as (m & Hm & Hle' & Hall & Hub); [lia..|].
  exists m. split; [done|]. split; [lia|]. split.
  - intros c Hc' Hp. destruct (decide (c = count)) as [->|]; [lia|]. apply Hall; [lia|done].
  - intros B HB Hw. apply Hub; [|intros c ?; apply Hw; lia]. apply Z.max_lub; [done|]. apply Hw; [lia|by split].
Qed.
End maximum.

(** ** Submissions *)

Definition entry_work (e : Entry) : Z := 88 + len (Codec e) + len (Payload e).
Definition total_of (f : Entry → Z) (entries : list Entry) : Z := foldr (λ e n, f e + n) 0 entries.

(** What a submission has to satisfy, after the entries [previous] with [encoded] bytes of work. *)
Definition legal_from (config : Config) (previous : list ID) (encoded : Z) (entries : list Entry) : Prop :=
  Forall (λ e, len (Codec e) <= MaxCodec (c_Policy config) ∧ len (Payload e) <= MaxPayload (c_Policy config)) entries ∧
  (entries ≠ [] → encoded + total_of entry_work entries <= SubmitEncoded (r_Batches (c_Runtime config))) ∧
  NoDup (e_ID <$> entries) ∧ ∀ id, id ∈ previous → id ∉ e_ID <$> entries.

Lemma total_nonneg f entries : (∀ e, 0 <= f e) → 0 <= total_of f entries.
Proof. intros Hf. induction entries as [|e entries IH]; simpl; [lia|]. pose proof (Hf e). lia. Qed.

Lemma validateEntries_spec config entries : ∀ previous sums,
  0 <= MaxCodec (c_Policy config) <= 64 → 0 <= MaxPayload (c_Policy config) <= 16384 →
  SubmitEncoded (r_Batches (c_Runtime config)) <= 2 ^ 21 →
  0 <= encoded_ sums <= 2 ^ 21 → 0 <= payload_ sums <= encoded_ sums → 0 <= codecs_ sums <= 2 * encoded_ sums →
  match validateEntries config previous sums entries with
  | inr sums' => legal_from config previous (encoded_ sums) entries ∧
      payload_ sums' = payload_ sums + total_of (λ e, len (Payload e)) entries ∧
      codecs_ sums' = codecs_ sums + total_of (λ e, allowance (len (Codec e))) entries ∧
      largestCodec_ sums' = foldr (λ e n, Z.max (allowance (len (Codec e))) n) (largestCodec_ sums) entries
  | inl err => err = ErrInvalidInput ∧ ¬ legal_from config previous (encoded_ sums) entries
  end.
Proof.
  induction entries as [|e entries IH]; intros previous sums Hc Hp He H1 H2 H3; cbn [validateEntries].
  { split_and!; simpl; try lia. split_and!; [done|done|by apply NoDup_nil_2|]. intros id _. apply not_elem_of_nil. }
  assert (0 <= len (Codec e)) by (unfold len; lia). assert (0 <= len (Payload e)) by (unfold len; lia).
  destruct (Z.ltb_spec (MaxCodec (c_Policy config)) (len (Codec e))) as [Hbig|Hcodec]; cbn [orb].
  { split; [done|]. intros (HF & _). inversion HF. lia. }
  destruct (Z.ltb_spec (MaxPayload (c_Policy config)) (len (Payload e))) as [Hbig|Hpay].
  { split; [done|]. intros (HF & _). inversion HF. lia. }
  pose proof (allowance_bounds (len (Codec e))).
  rewrite checkedAdd_eq by lia. rewrite checkedAdd_eq by lia. rewrite checkedAdd_eq by lia.
  assert (0 <= total_of entry_work entries) as Htot by (apply total_nonneg; intros e'; unfold entry_work, len; lia).
  assert (0 <= total_of (λ e, len (Payload e)) entries) as Htp by (apply total_nonneg; intros e'; unfold len; lia).
  destruct (Z.ltb_spec (SubmitEncoded (r_Batches (c_Runtime config))) (encoded_ sums + (len (Codec e) + len (Payload e) + 88))) as [Hbig|Hfit].
  { split; [done|]. intros (_ & Hw & _). specialize (Hw ltac:(done)).
    change (encoded_ sums + (entry_work e + total_of entry_work entries) <= SubmitEncoded (r_Batches (c_Runtime config))) in Hw.
    unfold entry_work at 1 in Hw. lia. }
  rewrite checkedAdd_eq by lia. rewrite allocationCharge_eq by lia. rewrite checkedAdd_eq by lia.
  destruct (existsb (λ id, bool_decide (id = e_ID e)) previous) eqn:Hdup.
  { split; [done|]. intros (_ & _ & _ & Hfresh). apply existsb_exists in Hdup as (id & Hin%list_elem_of_In & Hid).
    apply bool_decide_eq_true in Hid. subst. apply (Hfresh _ Hin). simpl. by left. }
  assert (e_ID e ∉ previous) as Hnew.
  { intros Hin%list_elem_of_In. assert (existsb (λ id, bool_decide (id = e_ID e)) previous = true); [|congruence].
    apply existsb_exists. exists (e_ID e). split; [done|]. by apply bool_decide_eq_true. }
  set (sums1 := Sums _ _ _ _). specialize (IH (previous ++ [e_ID e]) sums1 Hc Hp He).
  assert (legal_from config previous (encoded_ sums) (e :: entries) ↔
          legal_from config (previous ++ [e_ID e]) (encoded_ sums1) entries) as Hiff.
  { unfold legal_from, sums1. cbn [encoded_ fmap list_fmap]. rewrite Forall_cons, NoDup_cons. cbn [total_of foldr].
    unfold entry_work at 1. fold (total_of entry_work entries). split.
    - intros ([_ HF] & Hw & [Hn HN] & Hfr). specialize (Hw ltac:(done)). split_and!; [done|intros; lia|done|].
      intros id [Hin|Heq%list_elem_of_singleton]%elem_of_app; [|by subst]. intros Hin'. apply (Hfr id Hin). by right.
    - intros (HF & Hw & HN & Hfr). split_and!; [done|done|done| | | |].
      + intros _. destruct entries as [|e' entries']; [simpl; lia|]. specialize (Hw ltac:(done)). lia.
      + apply Hfr. apply elem_of_app. right. by left.
      + done.
      + intros id Hin. apply not_elem_of_cons. split; [by intros ->|]. apply Hfr. apply elem_of_app. by left. }
  assert (0 <= encoded_ sums1 <= 2 ^ 21) as Q1 by (unfold sums1; cbn [encoded_]; lia).
  assert (0 <= payload_ sums1 <= encoded_ sums1) as Q2 by (unfold sums1; cbn [encoded_ payload_]; lia).
  assert (0 <= codecs_ sums1 <= 2 * encoded_ sums1) as Q3 by (unfold sums1; cbn [encoded_ codecs_]; lia).
  specialize (IH Q1 Q2 Q3). destruct (validateEntries config _ sums1 entries) as [err|sums'].
  - destruct IH as [-> Hn]. split; [done|]. by rewrite Hiff.
  - destruct IH as (Hl & E1 & E2 & E3). rewrite Hiff. split; [done|]. rewrite E1, E2, E3. unfold sums1.
    cbn [payload_ codecs_ largestCodec_ total_of foldr].
    fold (total_of (λ e, len (Payload e)) entries) (total_of (λ e, allowance (len (Codec e))) entries).
    split_and!; [lia|lia|]. clear. revert e. generalize (largestCodec_ sums) as z.
    induction entries as [|e' entries IH]; intros z e; simpl; [lia|]. rewrite (IH z e). lia.
Qed.

Lemma total_le f g entries : Forall (λ e, f e <= g e) entries → total_of f entries <= total_of g entries.
Proof. induction 1 as [|e entries H _ IH]; simpl; lia. Qed.

Lemma total_const c entries : total_of (λ _, c) entries = len entries * c.
Proof. unfold len. induction entries as [|e entries IH]; simpl length; simpl total_of; lia. Qed.

Lemma total_of_add f g entries : total_of (λ e, f e + g e) entries = total_of f entries + total_of g entries.
Proof. induction entries as [|e entries IH]; simpl; lia. Qed.

(** What a valid configuration says about submissions; the fields are unsigned. *)
Definition typed (config : Config) : Prop :=
  0 <= MaxCodec (c_Policy config) ∧ 0 <= SubmitItems (r_Batches (c_Runtime config)) ∧
  0 <= SubmitEncoded (r_Batches (c_Runtime config)).

Lemma config_submit config :
  validateConfig config = None →
  validatePolicy (c_Policy config) = None ∧ SubmitItems (r_Batches (c_Runtime config)) <= 256 ∧
  SubmitEncoded (r_Batches (c_Runtime config)) <= 2 ^ 21 ∧
  ∃ m, maximumSubmitCharge (c_Policy config) (r_Batches (c_Runtime config)) = inr m ∧ m <= b_Retained (Ordinary (c_Runtime config)).
Proof.
  unfold validateConfig. destruct (validatePolicy (c_Policy config)) as [|]; [done|]. case_match; [done|].
  destruct (forallb in_ceiling [(Commands _, 64); _; _; _; _; _; _; _; _; _; _; _]) eqn:Hcounts; cbn [negb]; [|done].
  destruct (forallb in_ceiling [(b_Retained _, _); _; _; _; _; _; _]) eqn:Hbytes; cbn [negb]; [|done].
  destruct (maximumSubmitCharge _ _) as [|m]; [done|]. destruct (lookupCharge _); [done|].
  destruct (allocationCharge _); [done|]. destruct (allocationCharge _); [done|].
  match goal with |- context [negb ?b] => destruct b eqn:Hvalid end; cbn [negb]; [|done]. intros _.
  cbn [forallb] in Hcounts, Hbytes. unfold in_ceiling in Hcounts, Hbytes. cbn [fst snd] in Hcounts, Hbytes. leb_facts.
  change (Z.shiftl 2 20) with (2 ^ 21) in *. split_and!; [done..|]. by exists m.
Qed.

Definition legal (config : Config) (entries : list Entry) : Prop :=
  len entries <= SubmitItems (r_Batches (c_Runtime config)) ∧ legal_from config [] 0 entries.

Lemma largest_le entries z B : z <= B → Forall (λ e, allowance (len (Codec e)) <= B) entries →
  z <= foldr (λ e n, Z.max (allowance (len (Codec e))) n) z entries <= B.
Proof. intros Hz. induction 1 as [|e entries He _ IH]; simpl; lia. Qed.

(** C12. Under a valid configuration a submission is validated exactly when it is legal: not too
    many entries, each within the limits of the policy, together within the encoded limit, no
    identity twice. Its memory charge then fits the budget for ordinary commands, so it is never
    refused for its size afterwards; everything else is refused as invalid input. *)
Theorem submission_fits config entries :
  typed config → validateConfig config = None →
  match validateSubmit config entries with
  | inr a => legal config entries ∧ a_payload a = total_of (λ e, len (Payload e)) entries ∧
      a_charge a <= b_Retained (Ordinary (c_Runtime config))
  | inl err => err = ErrInvalidInput ∧ ¬ legal config entries
  end.
Proof.
  intros (Ht1 & Ht2 & Ht3) Hv. destruct (config_submit config Hv) as (Hpol & Hitems & Henc & m & Hm & Hfit).
  pose proof (policy_ok _ Hpol) as (_ & Hpay & Hcod & _).
  unfold validateSubmit, legal. destruct (Z.ltb_spec (SubmitItems (r_Batches (c_Runtime config))) (len entries)) as [Hbig|Hn].
  { split; [done|]. intros [? _]. lia. }
  pose proof (validateEntries_spec config entries [] (Sums 0 0 0 0)) as Hspec.
  destruct (validateEntries config [] (Sums 0 0 0 0) entries) as [err|sums].
  { destruct Hspec as [-> Hno]; simpl; try lia. split; [done|]. by intros [_ ?]. }
  destruct Hspec as (Hl & E1 & E2 & E3); simpl; try lia. cbn [payload_ codecs_ largestCodec_ encoded_] in E1, E2, E3, Hl.
  pose proof Hl as (HF & Hw & _). set (n := len entries) in *. assert (0 <= n) by (unfold n, len; lia).
  set (a := allowance (MaxCodec (c_Policy config))).
  pose proof (allowance_bounds (MaxCodec (c_Policy config)) Ht1) as Ha. fold a in Ha.
  assert (Forall (λ e, allowance (len (Codec e)) <= a) entries) as HFa.
  { eapply Forall_impl; [exact HF|]. intros e [? _]. by apply allowance_mono. }
  assert (0 <= payload_ sums <= n * MaxPayload (c_Policy config)) as Hps.
  { rewrite E1. split; [pose proof (total_nonneg (λ e, len (Payload e)) entries ltac:(intros; unfold len; lia)); lia|].
    unfold n. rewrite <- total_const. apply total_le. eapply Forall_impl; [exact HF|]. by intros e [_ ?]. }
  assert (0 <= codecs_ sums <= n * a) as Hcs.
  { rewrite E2. split.
    - pose proof (total_nonneg (λ e, allowance (len (Codec e))) entries) as Hz. apply Hz. intros e.
      pose proof (allowance_bounds (len (Codec e)) ltac:(unfold len; lia)). unfold len in *. lia.
    - unfold n. rewrite <- total_const. by apply total_le. }
  pose proof (largest_le entries 0 a ltac:(lia) HFa) as Hls. rewrite <- E3 in Hls.
  rewrite submitCharge_eq by nia. split; [done|]. split; [done|]. cbn [a_charge].
  etrans; [|exact Hfit]. unfold maximumSubmitCharge in Hm. rewrite allocationCharge_eq in Hm by lia. fold a in Hm.
  destruct (maximumLoop_spec (c_Policy config) (r_Batches (c_Runtime config)) a) with (fuel := Z.to_nat (SubmitItems (r_Batches (c_Runtime config))))
    (count := 1) (maximum := commandBase) as (m' & Hm' & Hbase & Hall & _); [lia..|].
  rewrite Hm' in Hm. injection Hm as <-. destruct entries as [|e entries].
  - change (n) with 0 in *. assert (payload_ sums = 0) as -> by lia. assert (codecs_ sums = 0) as -> by lia.
    rewrite E3. exact Hbase.
  - specialize (Hw ltac:(done)). assert (1 <= n) by (unfold n, len; simpl length; lia).
    assert (total_of entry_work (e :: entries) >= n * 88 + payload_ sums) as Hwork.
    { rewrite E1, Z.add_0_l. unfold n. rewrite <- total_const, <- total_of_add. apply Z.le_ge, total_le. apply Forall_true.
      intros e'. unfold entry_work, len. lia. }
    transitivity (worst (c_Policy config) (r_Batches (c_Runtime config)) a n).
    + unfold worst, charge_of.
      pose proof (allowance_mono (payload_ sums) (Z.min (n * MaxPayload (c_Policy config)) (SubmitEncoded (r_Batches (c_Runtime config)) - n * 88)) ltac:(lia)).
      lia.
    + apply Hall; [lia|]. split; [done|]. lia.
Qed.

(** ** The default configuration *)

Lemma pageRound_le size : 0 <= size <= 16384 → 0 <= Z.ldiff (size +64 8191) 8191 <= 16384.
Proof.
  intros Hs. rewrite u64_small by (unfold is_u64; lia). change 8191 with (Z.ones 13) at 2 4.
  rewrite Z.ldiff_ones_r, Z.shiftl_mul_pow2, Z.shiftr_div_pow2 by lia. change (2 ^ 13) with 8192.
  Z.div_mod_to_equations. lia.
Qed.

Lemma scratch_le payload codec : 0 <= payload <= 16384 → 0 <= codec <= 64 → 0 <= deliveryScratchCharge payload codec <= 32768.
Proof.
  intros Hp Hc. unfold deliveryScratchCharge, sourceBufferCharge, chargeOrZero.
  rewrite !allocationCharge_eq by lia. pose proof (pageRound_le payload Hp) as H1.
  pose proof (allowance_bounds codec ltac:(lia)) as H2. pose proof (allowance_bounds payload ltac:(lia)) as H3.
  pose proof (pageRound_le codec ltac:(lia)) as H4.
  set (x := Z.min (allowance payload) _) in *. set (y := Z.min (allowance codec) _) in *.
  assert (0 <= x <= 16384) by (unfold x; lia). assert (0 <= y <= 142) by (unfold y; lia).
  rewrite (u64_small (x + y)), (u64_small (2 * codec)) by (unfold is_u64; lia).
  rewrite (u64_small (x + y + 2 * codec)) by (unfold is_u64; lia). rewrite u64_small by (unfold is_u64; lia). lia.
Qed.

Lemma default_submit policy :
  validatePolicy policy = None → 0 <= MaxCodec policy →
  ∃ m, maximumSubmitCharge policy (Batches 256 (Z.shiftl 2 20) 256 256) = inr m ∧ m <= Z.shiftl 8 20.
Proof.
  intros Hv Hc. pose proof (policy_ok _ Hv) as (_ & Hpay & Hcod & _). unfold maximumSubmitCharge.
  rewrite allocationCharge_eq by lia. pose proof (allowance_bounds (MaxCodec policy) Hc) as Ha.
  destruct (maximumLoop_spec policy (Batches 256 (Z.shiftl 2 20) 256 256) (allowance (MaxCodec policy))) with (fuel := Z.to_nat 256)
    (count := 1) (maximum := commandBase) as (m & Hm & _ & _ & Hub); [lia|lia|by vm_compute|lia|by vm_compute|].
  exists m. split; [exact Hm|]. apply Hub; [by vm_compute|]. intros c Hc1 [Hc2 Hc3]. cbn [SubmitItems SubmitEncoded] in *.
  unfold worst, charge_of. cbn [SubmitEncoded]. change (Z.shiftl 2 20) with 2097152 in *. change (Z.shiftl 8 20) with 8388608.
  set (p := Z.min _ _). assert (0 <= p <= 2097152) by (unfold p; nia).
  pose proof (allowance_bounds (c * 64)). pose proof (allowance_bounds (c * 1)). pose proof (allowance_bounds (c * 16)).
  pose proof (allowance_bounds p). nia.
Qed.

(** [DefaultRuntime] gives every valid policy a runtime configuration that passes validation:
    every budget relation holds for every permitted combination of limits, without overflow. *)
Theorem default_runtime_valid policy durability :
  validatePolicy policy = None → 0 <= MaxCodec policy → durability <= ProcessCrash →
  ∃ runtime, DefaultRuntime policy = inr runtime ∧ validateConfig (MkConfig policy durability runtime) = None.
Proof.
  intros Hv Hc Hd. pose proof (policy_ok _ Hv) as (_ & Hpay & Hcod & _).
  unfold DefaultRuntime. rewrite Hv. eexists. split; [done|]. unfold validateConfig.
  cbn [c_Policy c_Durability c_Runtime Ordinary Progress r_Batches r_Group r_Delivery r_Maintenance r_SQLite].
  rewrite Hv, (proj2 (Z.ltb_ge _ _)) by done.
  match goal with |- context [negb (forallb ?f ?l)] => replace (forallb f l) with true by (by vm_compute) end. cbn [negb].
  match goal with |- context [negb (forallb ?f ?l)] => replace (forallb f l) with true by (by vm_compute) end. cbn [negb].
  destruct (default_submit policy Hv Hc) as (m & -> & Hm).
  cbn [LookupItems]. replace (lookupCharge 256) with (inr 33024 : error + Z) by (by vm_compute).
  rewrite !allocationCharge_eq by lia.
  pose proof (allowance_bounds (MaxPayload policy) ltac:(lia)) as H1. pose proof (allowance_bounds (MaxCodec policy) Hc) as H2.
  pose proof (scratch_le (MaxPayload policy) (MaxCodec policy) ltac:(lia) ltac:(lia)) as H3.
  cbn [SubmitItems SubmitEncoded AckItems d_Items d_Retained ReceiveItems ReadScratch b_Retained Operations Encoded MaxDelay
    CleanupEncoded Cache Mmap CheckpointTrigger CheckpointInterval BusyTimeout].
  unfold maxCheckpointTrigger, Second, Millisecond.
  change (Z.shiftl 2 20) with 2097152. change (Z.shiftl 4 20) with 4194304 in *. change (Z.shiftl 8 20) with 8388608 in *.
  change (Z.shiftl 32 10) with 32768. change (Z.shiftl 256 10) with 262144. change (Z.shiftl 64 10) with 65536.
  change (Z.shiftl 64 20) with 67108864. change (Z.shiftl 256 20) with 268435456. change (Z.shiftl 16 20) with 16777216.
  rewrite (u64_small (MaxPayload policy + MaxCodec policy)) by (unfold is_u64; lia).
  rewrite (u64_small (88 + (MaxPayload policy + MaxCodec policy))) by (unfold is_u64; lia).
  rewrite (u64_small (allowance (MaxPayload policy) + _)) by (unfold is_u64; lia).
  rewrite (u64_small (allowance (MaxPayload policy) + _ + 256)) by (unfold is_u64; lia).
  match goal with |- context [negb ?b] => assert (b = true) as -> end.
  { repeat (apply andb_true_intro; split); apply Z.leb_le; first [lia | by vm_compute]. }
  cbn [negb]. match goal with |- context [negb ?b] => replace b with true by (by vm_compute) end. done.
Qed.

Definition small_policy : DurablePolicy := Policy profileSQLiteWALV1 1024 16 8 4096 16 4 1048576.

Lemma default_runtime_valid_witness :
  ∃ runtime, DefaultRuntime small_policy = inr runtime ∧ validateConfig (MkConfig small_policy ProcessCrash runtime) = None.
Proof. apply (default_runtime_valid small_policy ProcessCrash); [by vm_compute|by vm_compute|by vm_compute]. Defined.

Definition small_config : Config :=
  MkConfig small_policy Synchronized
    (match DefaultRuntime small_policy with
     | inr r => r
     | inl _ => Runtime (Budget 0 0) (Budget 0 0) (Batches 0 0 0 0) (Group 0 0 0 0) (Delivery_ 0 0 0 0 0) (Maintenance 0 0 0) (SQLite 0 0 0 0 0)
     end).

(** Two entries are accepted with their charge; an entry whose payload is too large is refused. *)
Lemma submission_fits_witness :
  (∃ a, validateSubmit small_config [MkEntry some_id [1] [2; 3]; MkEntry (MkID (replicate 16 7) 10) [] [4]] = inr a ∧
     a_charge a <= b_Retained (Ordinary (c_Runtime small_config))) ∧
  ¬ legal small_config [MkEntry some_id [] (replicate 2000 0)].
Proof.
  split.
  - pose proof (submission_fits small_config [MkEntry some_id [1] [2; 3]; MkEntry (MkID (replicate 16 7) 10) [] [4]]
      ltac:(by vm_compute) ltac:(by vm_compute)) as H.
    destruct (validateSubmit small_config [MkEntry some_id [1] [2; 3]; MkEntry (MkID (replicate 16 7) 10) [] [4]]) as [err|a] eqn:He.
    + by vm_compute in He.
    + exists a. split; [reflexivity|]. by destruct H as (_ & _ & ?).
  - pose proof (submission_fits small_config [MkEntry some_id [] (replicate 2000 0)]
      ltac:(by vm_compute) ltac:(by vm_compute)) as H.
    replace (validateSubmit small_config [MkEntry some_id [] (replicate 2000 0)]) with (inl ErrInvalidInput : error + submitAllocation) in H
      by (by vm_compute).
    by destruct H.
Defined.
End DurableSpec.
