(* ===== verification/DurableStore.v ===== *)
(** * The transactions of the durable queue (src/workq/durable)

    The coordinator of a durable queue owns one SQLite connection and runs one transaction at a time.
    The SQL statements of the source are the constructors of [stmt] and [query], with SQL's meaning on
    the four tables of the schema ([run], [ask]). The connection itself is code of a library: it is a
    parameter with the documented behaviour of [Connection] (any statement can fail, a failure may
    roll back the transaction, a failed COMMIT leaves the outcome open). Operations are programs over
    a session: the connection, the metadata in memory and the delivery claims. *)

From Stdlib Require Import ZArith Lia.
From stdpp Require Import prelude list gmap strings sorting.
From S2P Require Import Prelude Prog DurableCore DurableSpec.

Module DurableStore.
Import Prog Durable DurableSpec.

(** ** The tables (schema.go) *)

Record producerRow := ProducerRow { has_retirement : Z; retired_through : bytes; cleanup_needed : Z }.
Record receiptRow := ReceiptRow { r_digest : bytes; r_state : Z; accept_order : bytes; ack_token : option bytes }.
Record payloadRow := PayloadRow { p_codec : bytes; p_payload : bytes; payload_length : Z }.

Record tables := Tables {
  t_meta : gmap Z bytes;
  t_producers : gmap bytes producerRow;
  t_receipts : gmap bytes receiptRow;
  t_payloads : gmap bytes payloadRow;
}.

Definition set_meta m (t : tables) : tables := Tables m (t_producers t) (t_receipts t) (t_payloads t).
Definition set_producers m (t : tables) : tables := Tables (t_meta t) m (t_receipts t) (t_payloads t).
Definition set_receipts m (t : tables) : tables := Tables (t_meta t) (t_producers t) m (t_payloads t).
Definition set_payloads m (t : tables) : tables := Tables (t_meta t) (t_producers t) (t_receipts t) m.

(** The statements that change tables, in the order of the source files. *)
Inductive stmt :=
| InsertMeta (key : Z) (value : bytes)                 (* INSERT INTO meta VALUES(?,?) *)
| UpdateMeta (key : Z) (value : bytes)                 (* UPDATE meta SET value=? WHERE key=? *)
| InsertProducer (producer floor : bytes)              (* INSERT OR IGNORE INTO producers VALUES(?,0,?,0) *)
| InsertReceipt (id digest order : bytes)              (* INSERT INTO receipts VALUES(?,?,0,?,NULL) *)
| InsertPayload (id codec payload : bytes) (length : Z) (* INSERT INTO payloads VALUES(?,?,?,?) *)
| AckReceipt (token id : bytes)                        (* UPDATE receipts SET state=1,ack_token=? WHERE id=? AND state=0 *)
| DeletePayload (id : bytes)                           (* DELETE FROM payloads WHERE id=? *)
| InsertRetired (producer floor : bytes)               (* INSERT INTO producers VALUES(?,1,?,1) *)
| UpdateRetired (floor producer : bytes)               (* UPDATE producers SET has_retirement=1,retired_through=?,cleanup_needed=1 WHERE producer=? *)
| DeleteReceipt (id : bytes)                           (* DELETE FROM receipts WHERE id=? *)
| ClearCleanup (producer : bytes)                      (* UPDATE producers SET cleanup_needed=0 WHERE producer=? *)
| CreateSchema.                                        (* the four CREATE TABLE statements of schemaDDL, and their indexes *)

(** An insertion fails when the primary key, or the unique acceptance order, is taken. The schema is
    created in a database without tables, which is empty here. *)
Definition run (st : stmt) (t : tables) : option tables :=
  match st with
  | InsertMeta key value =>
      match t_meta t !! key with Some _ => None | None => Some (set_meta (<[key := value]> (t_meta t)) t) end
  | UpdateMeta key value => Some (set_meta (alter (λ _, value) key (t_meta t)) t)
  | InsertProducer producer floor =>
      Some (match t_producers t !! producer with
            | Some _ => t
            | None => set_producers (<[producer := ProducerRow 0 floor 0]> (t_producers t)) t
            end)
  | InsertReceipt id digest order =>
      if bool_decide (is_Some (t_receipts t !! id)) ||
         existsb (λ '(_, r), bool_decide (accept_order r = order)) (map_to_list (t_receipts t)) then None
      else Some (set_receipts (<[id := ReceiptRow digest 0 order None]> (t_receipts t)) t)
  | InsertPayload id codec payload length =>
      match t_payloads t !! id with
      | Some _ => None
      | None => Some (set_payloads (<[id := PayloadRow codec payload length]> (t_payloads t)) t)
      end
  | AckReceipt token id =>
      Some (set_receipts (alter (λ r, if r_state r =? 0 then ReceiptRow (r_digest r) 1 (accept_order r) (Some token) else r)
              id (t_receipts t)) t)
  | DeletePayload id => Some (set_payloads (delete id (t_payloads t)) t)
  | InsertRetired producer floor =>
      match t_producers t !! producer with
      | Some _ => None
      | None => Some (set_producers (<[producer := ProducerRow 1 floor 1]> (t_producers t)) t)
      end
  | UpdateRetired floor producer => Some (set_producers (alter (λ _, ProducerRow 1 floor 1) producer (t_producers t)) t)
  | DeleteReceipt id => Some (set_receipts (delete id (t_receipts t)) t)
  | ClearCleanup producer =>
      Some (set_producers (alter (λ p, ProducerRow (has_retirement p) (retired_through p) 0) producer (t_producers t)) t)
  | CreateSchema =>
      if bool_decide (t_meta t = ∅) && bool_decide (t_producers t = ∅) && bool_decide (t_receipts t = ∅) && bool_decide (t_payloads t = ∅)
      then Some t else None
  end.

(** The queries, by the type of their result; no row is [None]. *)
Inductive query : Type → Type :=
| SelectProducer (producer : bytes) : query (option producerRow)
    (* SELECT has_retirement,retired_through,cleanup_needed FROM producers WHERE producer=?, and its parts *)
| SelectReceipt (id : bytes) : query (option receiptRow)
    (* SELECT digest / state / state,ack_token FROM receipts WHERE id=? *)
| SelectPayload (id : bytes) : query (option payloadRow)
    (* SELECT payload_length / length(payload),length(codec) / codec,payload FROM payloads WHERE id=? *)
| SelectPendingRange (lower upper : bytes) : query bool
    (* SELECT 1 FROM receipts WHERE state=0 AND id>=? AND id<=? LIMIT 1 *)
| SelectCleanup : query (option (bytes * bytes))
    (* SELECT producer,retired_through FROM producers WHERE cleanup_needed=1 ORDER BY producer LIMIT 1 *)
| SelectAcknowledged (lower upper : bytes) (limit : Z) : query (list bytes)
    (* SELECT id FROM receipts WHERE id>=? AND id<=? AND state=1 ORDER BY id LIMIT ? *)
| SelectAcknowledgedRange (lower upper : bytes) : query bool
    (* SELECT 1 FROM receipts WHERE id>=? AND id<=? AND state=1 LIMIT 1 *)
| SelectMeta : query (list (Z * bytes))
    (* SELECT key, typeof(value), length(value), value FROM meta ORDER BY key *)
| SelectProducers : query (list (bytes * producerRow))
    (* SELECT producer, has_retirement, retired_through, cleanup_needed FROM producers ORDER BY producer *)
| SelectReceipts : query (list (bytes * receiptRow))
    (* SELECT id, digest, state, accept_order, ack_token FROM receipts ORDER BY id *)
| CountPayloads : query Z
    (* SELECT count( * ) FROM payloads *)
| SelectNextPending (order id : bytes) : query (option (bytes * bytes))
    (* SELECT accept_order,id FROM receipts WHERE state=0 AND (accept_order,id)>(?,?) ORDER BY accept_order,id LIMIT 1 *)
| SelectDelivery (id : bytes) : query (list (bytes * bytes * bytes)).
    (* SELECT p.payload,p.codec,r.digest FROM payloads p JOIN receipts r ON r.id=p.id WHERE p.id=? *)

Definition bytes_le (a b : bytes) : Prop := bytes_compare a b ≠ Gt.
#[export] Instance bytes_le_dec a b : Decision (bytes_le a b).
Proof. unfold bytes_le. destruct (bytes_compare a b); [left|left|right]; congruence. Defined.

Definition in_range (lower upper id : bytes) : bool := bool_decide (bytes_le lower id) && bool_decide (bytes_le id upper).

(** The keys of the rows that satisfy a condition, in the order of the primary key. *)
Definition keys_where {R} (cond : bytes → R → bool) (m : gmap bytes R) : list bytes :=
  merge_sort bytes_le (omap (λ '(k, r), if cond k r then Some k else None) (map_to_list m)).

(** All rows, in the order of the primary key. *)
Definition rows_of {R} (m : gmap bytes R) : list (bytes * R) :=
  omap (λ k, (λ r, (k, r)) <$> m !! k) (keys_where (λ _ _, true) m).

Definition meta_rows (m : gmap Z bytes) : list (Z * bytes) :=
  omap (λ k, (λ v, (k, v)) <$> m !! k) (merge_sort Z.le (map_to_list m).*1).

(** The order of the index on pending receipts. *)
Definition order_le (a b : bytes * bytes) : Prop :=
  match bytes_compare a.1 b.1 with Lt => True | Eq => bytes_le a.2 b.2 | Gt => False end.
#[export] Instance order_le_dec a b : Decision (order_le a b).
Proof. unfold order_le. destruct (bytes_compare a.1 b.1); apply _. Defined.

Definition pending_after (order id : bytes) (m : gmap bytes receiptRow) : list (bytes * bytes) :=
  merge_sort order_le (omap (λ '(k, r),
    if (r_state r =? 0) && negb (bool_decide (order_le (accept_order r, k) (order, id))) then Some (accept_order r, k) else None)
    (map_to_list m)).

Definition ask {A} (q : query A) (t : tables) : A :=
  match q with
  | SelectProducer producer => t_producers t !! producer
  | SelectReceipt id => t_receipts t !! id
  | SelectPayload id => t_payloads t !! id
  | SelectPendingRange lower upper =>
      negb (len (keys_where (λ id r, (r_state r =? 0) && in_range lower upper id) (t_receipts t)) =? 0)
  | SelectCleanup =>
      match keys_where (λ _ p, cleanup_needed p =? 1) (t_producers t) with
      | [] => None
      | producer :: _ => (λ p, (producer, retired_through p)) <$> t_producers t !! producer
      end
  | SelectAcknowledged lower upper limit =>
      take (Z.to_nat limit) (keys_where (λ id r, (r_state r =? 1) && in_range lower upper id) (t_receipts t))
  | SelectAcknowledgedRange lower upper =>
      negb (len (keys_where (λ id r, (r_state r =? 1) && in_range lower upper id) (t_receipts t)) =? 0)
  | SelectMeta => meta_rows (t_meta t)
  | SelectProducers => rows_of (t_producers t)
  | SelectReceipts => rows_of (t_receipts t)
  | CountPayloads => Z.of_nat (size (t_payloads t))
  | SelectNextPending order id => head (pending_after order id (t_receipts t))
  | SelectDelivery id =>
      match t_payloads t !! id, t_receipts t !! id with
      | Some p, Some r => [(p_payload p, p_codec p, r_digest r)]
      | _, _ => []
      end
  end.

(** ** The connection

    [view] is what statements see, [saved] what is committed and found when the store is reopened. *)
Class Connection (C : Type) : Type := {
  Exec : stmt → prog C (option error);
  Query : ∀ {A}, query A → prog C (error + A);
  Rows : ∀ {R}, query (list R) → prog C (error + list R * option error);
  Begin : prog C (option error);
  Commit : prog C (option error);
  Rollback : prog C (option error);
  AutoCommit : prog C (error + bool);
  view : C → tables;
  saved : C → tables;
  in_tx : C → bool;
  (** outside a transaction statements see what is committed *)
  view_saved c : in_tx c = false → view c = saved c;
  exec_law st c : in_tx c = true → ends (Exec st) c (λ err c', saved c' = saved c ∧
    match err with
    | None => in_tx c' = true ∧ run st (view c) = Some (view c')
    | Some _ => in_tx c' = true → view c' = view c
    end);
  query_law A (q : query A) c : ends (Query q) c (λ r c', saved c' = saved c ∧
    match r with
    | inr a => in_tx c' = in_tx c ∧ view c' = view c ∧ a = ask q (view c)
    | inl _ => in_tx c' = true → in_tx c = true ∧ view c' = view c
    end);
  (** rows are read one by one, until the last or until an error *)
  rows_law R (q : query (list R)) c : ends (Rows q) c (λ r c', saved c' = saved c ∧ (in_tx c = false → in_tx c' = false) ∧
    ∀ rows err, r = inr (rows, err) → (∃ k, rows = take k (ask q (view c))) ∧ (err = None → rows = ask q (view c)));
  begin_law c : in_tx c = false → ends Begin c (λ err c', saved c' = saved c ∧
    match err with
    | None => in_tx c' = true ∧ view c' = saved c
    | Some _ => in_tx c' = false
    end);
  commit_law c : in_tx c = true → ends Commit c (λ err c',
    match err with
    | None => in_tx c' = false ∧ saved c' = view c
    | Some _ => saved c' = saved c ∨ saved c' = view c
    end);
  rollback_law c : ends Rollback c (λ err c', saved c' = saved c ∧ (err = None → in_tx c' = false));
  autocommit_law c : ends AutoCommit c (λ r c', saved c' = saved c ∧ in_tx c' = in_tx c ∧
    ∀ b, r = inr b → b = negb (in_tx c));
}.

(** ** A session (validation.go, admission.go, delivery.go) *)

Record storeMetadata := Metadata {
  m_uuid : UUID; m_policy : DurablePolicy; m_durability : Durability; m_epoch : Z; m_lastOrder : Z; m_counts : StoreCounts }.

Definition with_order n (m : storeMetadata) : storeMetadata :=
  Metadata (m_uuid m) (m_policy m) (m_durability m) (m_epoch m) n (m_counts m).
Definition with_counts c (m : storeMetadata) : storeMetadata :=
  Metadata (m_uuid m) (m_policy m) (m_durability m) (m_epoch m) (m_lastOrder m) c.

Record Delivery := MkDelivery { d_ID : ID; d_Codec : bytes; d_Payload : bytes; d_Token : Token }.
Record claim := Claim { used : bool; acquired : bool; delivery : Delivery; charge : Z }.
Definition zero_claim : claim := Claim false false (MkDelivery (MkID (replicate 16 0) 0) [] [] (replicate 56 0)) 0.

Record session (C : Type) := Session { conn : C; metadata : storeMetadata; claims : list claim; deliveryRetained : Z }.
Arguments Session {C} _ _ _ _.
Arguments conn {C} _.
Arguments metadata {C} _.
Arguments claims {C} _.
Arguments deliveryRetained {C} _.

(** [sql.ErrNoRows]. *)
Definition ErrNoRows : error := New "sql: no rows in result set".

Section store.
Context {C : Type} `{!Connection C} (hash : bytes → bytes) (config : Config).
Abbreviation S := (session C).
Abbreviation M := (prog S).

Program Definition the_conn : focus S C :=
  Focus (λ s, Some (conn s)) (λ c s, Session c (metadata s) (claims s) (deliveryRetained s)) _ _ _.
Next Obligation. by intros s x x' _. Qed.
Next Obligation. by intros s x x'. Qed.
Next Obligation. by intros [c m cl d] x [= <-]. Qed.

Definition exec (st : stmt) : M (option error) := zoom the_conn (Exec st).
Definition ask_row {A} (q : query A) : M (error + A) := zoom the_conn (Query q).

(** ** Lookup (lookup.go) *)

Definition lookupID (id : ID) : M (error + Status) :=
  r ← ask_row (SelectProducer (Producer id));
  match r with
  | inl err => mret (inl err)
  | inr None => mret (inr (MkStatus id Absent false 0))
  | inr (Some p) =>
      match decodeUint64 (retired_through p) with
      | inl err => mret (inl err)
      | inr floor =>
          let hasRetirement := has_retirement p =? 1 in
          let through := if hasRetirement then floor else 0 in
          if hasRetirement && (Sequence id <=? floor) then mret (inr (MkStatus id Retired true floor))
          else
            r ← ask_row (SelectReceipt (encodeID id));
            match r with
            | inl err => mret (inl err)
            | inr None => mret (inr (MkStatus id Absent hasRetirement through))
            | inr (Some r) =>
                mret (inr (MkStatus id (if r_state r =? 1 then Acknowledged else Pending) hasRetirement through))
            end
      end
  end.

(** ** Submissions (submit.go) *)

Definition with_pending items payload receipts producers (c : StoreCounts) : StoreCounts :=
  Counts items payload receipts producers (RetiredProducers c) (CleanupMarkers c).

(** The loop of [validateStoredSubmit]: which entries are fresh, and the metadata with them. *)
Fixpoint validateStoredLoop (entries : list Entry) (producers : list bytes) (fresh : list bool) (m : storeMetadata)
    : M (error + storeMetadata * list bool) :=
  match entries with
  | [] => mret (inr (m, fresh))
  | entry :: entries =>
      r ← lookupID (e_ID entry);
      match r with
      | inl err => mret (inl (Join ErrStorage err))
      | inr status =>
          if bool_decide (Kind status = Retired) then mret (inl ErrRetired)
          else
            r ← ask_row (SelectReceipt (encodeID (e_ID entry)));
            match r with
            | inl err => mret (inl (Join ErrStorage err))
            | inr (Some row) =>
                if negb (bool_decide (r_digest row = entryDigest hash (Codec entry) (Payload entry))) then mret (inl ErrConflict)
                else validateStoredLoop entries producers (fresh ++ [false]) m
            | inr None =>
                match nextIdentity (m_lastOrder m) with
                | inl err => mret (inl err)
                | inr order =>
                    let c := m_counts m in
                    let items := PendingItems c +32 1 in
                    let payload := PendingPayload c +64 len (Payload entry) in
                    let receipts := Receipts c +32 1 in
                    r ← ask_row (SelectProducer (Producer (e_ID entry)));
                    match r with
                    | inl err => mret (inl (Join ErrStorage err))
                    | inr row =>
                        let known := bool_decide (is_Some row) || existsb (λ p, bool_decide (p = Producer (e_ID entry))) producers in
                        let m := with_order order m in
                        validateStoredLoop entries
                          (if known then producers else producers ++ [Producer (e_ID entry)]) (fresh ++ [true])
                          (with_counts (with_pending items payload receipts
                             (if known then Producers c else Producers c +32 1) c) m)
                    end
                end
            end
      end
  end.

Definition validateStoredSubmit (entries : list Entry) (m : storeMetadata) : M (error + storeMetadata * list bool) :=
  r ← validateStoredLoop entries [] [] m;
  match r with
  | inl err => mret (inl err)
  | inr (m, fresh) =>
      let c := m_counts m in let policy := m_policy m in
      if (MaxPendingItems policy <? PendingItems c) || (MaxPendingPayload policy <? PendingPayload c) ||
         (MaxReceipts policy <? Receipts c) || (MaxProducers policy <? Producers c)
      then mret (inl ErrCapacity) else mret (inr (m, fresh))
  end.

Definition insertEntry (entry : Entry) (order : Z) : M (option error) :=
  err ← exec (InsertProducer (Producer (e_ID entry)) (encodeUint64 0));
  match err with
  | Some _ => mret err
  | None =>
      let encoded := encodeID (e_ID entry) in
      err ← exec (InsertReceipt encoded (entryDigest hash (Codec entry) (Payload entry)) (encodeUint64 order));
      match err with
      | Some _ => mret err
      | None => exec (InsertPayload encoded (Codec entry) (Payload entry) (len (Payload entry)))
      end
  end.

Fixpoint execAll (sts : list stmt) : M (option error) :=
  match sts with
  | [] => mret None
  | st :: sts => err ← exec st; match err with Some _ => mret err | None => execAll sts end
  end.

(** The keys of the meta table (encoding.go). *)
Definition metaSchema : Z := 1.
Definition metaProfile : Z := 2.
Definition metaProfileVersion : Z := 3.
Definition metaAccountingVersion : Z := 4.
Definition metaUUID : Z := 5.
Definition metaPolicy : Z := 6.
Definition metaDurability : Z := 7.
Definition metaEpoch : Z := 8.
Definition metaLastOrder : Z := 9.
Definition metaPendingItems : Z := 10.
Definition metaPendingPayload : Z := 11.
Definition metaReceipts : Z := 12.
Definition metaProducers : Z := 13.
Definition metaRetiredProducers : Z := 14.
Definition metaCleanupMarkers : Z := 15.

Definition writeSubmitMetadata (m : storeMetadata) : M (option error) :=
  execAll ((λ '(key, value), UpdateMeta key (encodeUint64 value)) <$>
    [(metaLastOrder, m_lastOrder m); (metaPendingItems, PendingItems (m_counts m));
     (metaPendingPayload, PendingPayload (m_counts m)); (metaReceipts, Receipts (m_counts m));
     (metaProducers, Producers (m_counts m)); (metaRetiredProducers, RetiredProducers (m_counts m));
     (metaCleanupMarkers, CleanupMarkers (m_counts m))]).

(** ** Acknowledgements (ack.go) *)

Definition tokenID (token : Token) : M (error + ID) :=
  m ← load metadata;
  if negb (bool_decide (sub token 0 16 = m_uuid m)) || negb (bigEndian (sub token 16 24) =? m_epoch m) ||
     (bigEndian (sub token 48 56) =? 0)
  then mret (inl ErrStaleToken) else mret (decodeID (sub token 24 48)).

(** The checks of [ackBatchObserved] before it reserves a slot. *)
Definition validateTokens (tokens : list Token) : option error :=
  if AckItems (r_Batches (c_Runtime config)) <? len tokens then Some ErrInvalidInput
  else if existsb (λ '(index, token), existsb (λ previous, bool_decide (previous = token)) (take index tokens))
            (imap (λ index token, (index, token)) tokens) then Some ErrInvalidInput
  else None.

(** The first used claim of an identity. *)
Fixpoint find_claim (id : ID) (cs : list claim) (index : nat) : option nat :=
  match cs with
  | [] => None
  | c :: cs => if used c && bool_decide (d_ID (delivery c) = id) then Some index else find_claim id cs (Datatypes.S index)
  end.

Definition current_claim (id : ID) (token : Token) (cs : list claim) : option nat :=
  match find_claim id cs 0 with
  | None => None
  | Some index =>
      match cs !! index with
      | Some c => if negb (acquired c) || negb (bool_decide (d_Token (delivery c) = token)) then None else Some index
      | None => None
      end
  end.

Definition clear_claim (index : nat) (s : S) : S :=
  match claims s !! index with
  | Some c => if negb (used c) then s
              else Session (conn s) (metadata s) (<[index := zero_claim]> (claims s)) (deliveryRetained s -64 charge c)
  | None => s
  end.

Definition executeRelease (token : Token) : M (option error) :=
  r ← tokenID token;
  match r with
  | inl err => mret (Some err)
  | inr id => act (λ s, match current_claim id token (claims s) with
      | None => (s, Some ErrStaleToken)
      | Some index => (clear_claim index s, None)
      end)
  end.

Fixpoint validateAck (tokens : list Token) (c : StoreCounts) : M (error + StoreCounts) :=
  match tokens with
  | [] => mret (inr c)
  | token :: tokens =>
      r ← tokenID token;
      match r with
      | inl err => mret (inl err)
      | inr id =>
          r ← ask_row (SelectReceipt (sub token 24 48));
          match r with
          | inl err => mret (inl (Join ErrStorage err))
          | inr None => mret (inl ErrStaleToken)
          | inr (Some row) =>
              if r_state row =? 1 then
                if negb (bool_decide (default [] (ack_token row) = token)) then mret (inl ErrStaleToken)
                else validateAck tokens c
              else
                current ← load (λ s, bool_decide (is_Some (current_claim id token (claims s))));
                if negb current then mret (inl ErrStaleToken)
                else
                  r ← ask_row (SelectPayload (sub token 24 48));
                  match r with
                  | inl err => mret (inl (Join ErrStorage err))
                  | inr None => mret (inl (Join ErrStorage ErrNoRows))
                  | inr (Some p) =>
                      let length := payload_length p in
                      if (length <? 0) || (PendingItems c =? 0) || (PendingPayload c <? length) then mret (inl ErrStorage)
                      else validateAck tokens (Counts (PendingItems c -32 1) (PendingPayload c -64 length) (Receipts c)
                             (Producers c) (RetiredProducers c) (CleanupMarkers c))
                  end
          end
      end
  end.

Definition applyAck (tokens : list Token) : M (option error) :=
  execAll (concat ((λ token : Token, [AckReceipt token (sub token 24 48); DeletePayload (sub token 24 48)]) <$> tokens)).

(** ** Retirement (retire.go) *)

Definition applyRetirement (retirement : ID) (m : storeMetadata) : M (error + storeMetadata) :=
  r ← ask_row (SelectProducer (Producer retirement));
  match r with
  | inl err => mret (inl (Join ErrStorage err))
  | inr row =>
      let has := match row with Some p => has_retirement p | None => 0 end in
      let cleanup := match row with Some p => cleanup_needed p | None => 0 end in
      let floor := match row with Some p => retired_through p | None => [] end in
      let unknown := bool_decide (row = None) in
      let barrier :=
        if unknown && (Producers (m_counts m) =? MaxProducers (m_policy m)) then mret (inl ErrCapacity)
        else
          r ← ask_row (SelectPendingRange (encodeID (MkID (Producer retirement) 0)) (encodeID retirement));
          match r with
          | inl err => mret (inl (Join ErrStorage err))
          | inr true => mret (inl ErrConflict)
          | inr false =>
              let encodedFloor := encodeUint64 (Sequence retirement) in
              err ← exec (if unknown then InsertRetired (Producer retirement) encodedFloor
                          else UpdateRetired encodedFloor (Producer retirement));
              match err with
              | Some err => mret (inl (Join ErrStorage err))
              | None =>
                  let c := m_counts m in
                  mret (inr (with_counts (Counts (PendingItems c) (PendingPayload c) (Receipts c)
                    (if unknown then Producers c +32 1 else Producers c)
                    (if has =? 0 then RetiredProducers c +32 1 else RetiredProducers c)
                    (if cleanup =? 0 then CleanupMarkers c +32 1 else CleanupMarkers c)) m))
              end
          end in
      if negb (has =? 0) then
        match decodeUint64 floor with
        | inl err => mret (inl (Join ErrStorage err))
        | inr previous => if Sequence retirement <=? previous then mret (inr m) else barrier
        end
      else barrier
  end.

(** ** Groups of commands (group.go)

    The commands that change the store. *)
Inductive mutation :=
| CommandSubmit (entries : list Entry)
| CommandAck (tokens : list Token)
| CommandRetire (retirement : ID).

(** The loop of [applyCommand] over the entries of a submission. *)
Fixpoint insertFresh (entries : list Entry) (fresh : list bool) (index : nat) (lastOrder : Z) : M (option error) :=
  match entries with
  | [] => mret None
  | entry :: entries =>
      err ← (if default false (fresh !! index)
             then insertEntry entry (lastOrder -64 countFreshAfter fresh index) else mret None);
      match err with
      | Some _ => mret err
      | None => insertFresh entries fresh (Datatypes.S index) lastOrder
      end
  end.

Definition applyCommand (command : mutation) (m : storeMetadata) : M (error + storeMetadata) :=
  match command with
  | CommandSubmit entries =>
      r ← validateStoredSubmit entries m;
      match r with
      | inl err => mret (inl err)
      | inr (next, fresh) =>
          err ← insertFresh entries fresh 0 (m_lastOrder next);
          mret match err with Some err => inl (Join ErrStorage err) | None => inr next end
      end
  | CommandRetire retirement => applyRetirement retirement m
  | CommandAck tokens =>
      r ← validateAck tokens (m_counts m);
      match r with
      | inl err => mret (inl err)
      | inr counts =>
          err ← applyAck tokens;
          mret match err with Some err => inl (Join ErrStorage err) | None => inr (with_counts counts m) end
      end
  end.

Definition outcome_ : Type := Decision_ * option error.

(** [commandGroup.fail]: rejections that are not storage failures stay. *)
Definition fail (attempted : nat) (decision : Decision_) (err : error) (results : list outcome_) : list outcome_ :=
  imap (λ index (result : outcome_),
    let '(d, e) := result in
    match e with
    | Some e' => if errors_Is e' ErrStorage then (if decide (attempted <= index)%nat then NotApplied else decision, Some err) else (d, e)
    | None => (if decide (attempted <= index)%nat then NotApplied else decision, Some err)
    end : outcome_) results.

Definition rollbackSubmit (cause : error) : M (Decision_ * error) :=
  rollbackErr ← zoom the_conn Rollback;
  state ← zoom the_conn AutoCommit;
  let stateErr := match state with inl err => Some (Errorf "transaction state: %w: %w" [] (Join ErrStorage err)) | inr _ => None end in
  let err := default cause (errors_join (errors_join (Some cause) rollbackErr) stateErr) in
  mret (if bool_decide (rollbackErr = None) && bool_decide (state = inr true)
        then (NotApplied, err) else (Unknown, Join ErrStorage err)).

(** The loop of [executeGroup] over the commands; [inl] is a group that was rolled back. *)
Fixpoint runCommands (commands : list mutation) (index : nat) (m : storeMetadata) (results : list outcome_)
    : M ((error * list outcome_) + (storeMetadata * list outcome_)) :=
  match commands with
  | [] => mret (inr (m, results))
  | command :: commands =>
      r ← applyCommand command m;
      match r with
      | inl err =>
          if errors_Is err ErrStorage then
            '(decision, failure) ← rollbackSubmit err;
            mret (inl (failure, fail (Datatypes.S index) decision failure results))
          else runCommands commands (Datatypes.S index) m (<[index := (NotApplied, Some err)]> results)
      | inr next => runCommands commands (Datatypes.S index) next (<[index := (Applied, None)]> results)
      end
  end.

(** Acknowledged claims are cleared once the group is committed. *)
Definition clear_acked (token : Token) (s : S) : S :=
  match decodeID (sub token 24 48) with
  | inr id => match current_claim id token (claims s) with Some index => clear_claim index s | None => s end
  | inl _ => s
  end.

Definition clearAcked (commands : list mutation) (results : list outcome_) (s : S) : S :=
  foldl (λ s '(command, (_, err)),
    match command, err : option error with
    | CommandAck tokens, None => foldl (λ s token, clear_acked token s) s tokens
    | _, _ => s
    end) s (zip commands results).

(** The transaction of [executeGroup]. *)
Definition executeTransaction (commands : list mutation) : M (option error * list outcome_) :=
  let results := replicate (length commands) (Unknown, None) in
  err ← zoom the_conn Begin;
  match err with
  | Some err => let err := Join ErrStorage err in mret (Some err, fail 0 NotApplied err results)
  | None =>
      m ← load metadata;
      r ← runCommands commands 0 m results;
      match r with
      | inl (failure, results) => mret (Some failure, results)
      | inr (m, results) =>
          err ← writeSubmitMetadata m;
          match err with
          | Some err =>
              '(decision, failure) ← rollbackSubmit (Join ErrStorage err);
              mret (Some failure, fail (length commands) decision failure results)
          | None =>
              err ← zoom the_conn Commit;
              match err with
              | Some err => let err := Join ErrStorage err in mret (Some err, fail (length commands) Unknown err results)
              | None =>
                  _ ← modify (λ s, Session (conn s) m (claims s) (deliveryRetained s));
                  _ ← modify (clearAcked commands results);
                  mret (None, results)
              end
          end
      end
  end.

(** ** Cleanup of retired receipts (cleanup.go) *)

Definition deleteRetiredReceipts : M (error + storeMetadata) :=
  m ← load metadata;
  r ← ask_row SelectCleanup;
  match r with
  | inl err => mret (inl err)
  | inr None => mret (inl ErrNoRows)
  | inr (Some (producer, floor)) =>
      if negb (len producer =? 16) || negb (len floor =? 8) then mret (inl ErrStorage)
      else
        let lower := producer ++ replicate 8 0 in
        let upper := producer ++ floor in
        let limits := r_Maintenance (c_Runtime config) in
        let limit := Z.min (CleanupRows limits) ((CleanupEncoded limits -64 26) / 121) in
        r ← ask_row (SelectAcknowledged lower upper limit);
        match r with
        | inl err => mret (inl err)
        | inr keys =>
            if negb (forallb (λ key, len key =? 24) keys) then mret (inl ErrStorage)
            else
              err ← execAll (DeleteReceipt <$> keys);
              match err with
              | Some err => mret (inl err)
              | None =>
                  let c := m_counts m in
                  let c := Counts (PendingItems c) (PendingPayload c) (Receipts c -32 u32 (len keys)) (Producers c)
                    (RetiredProducers c) (CleanupMarkers c) in
                  r ← ask_row (SelectAcknowledgedRange lower upper);
                  match r with
                  | inl err => mret (inl err)
                  | inr true => mret (inr (with_counts c m))
                  | inr false =>
                      err ← exec (ClearCleanup producer);
                      mret match err with
                           | Some err => inl err
                           | None => inr (with_counts (Counts (PendingItems c) (PendingPayload c) (Receipts c) (Producers c)
                               (RetiredProducers c) (CleanupMarkers c -32 1)) m)
                           end
                  end
              end
        end
  end.

(** The transaction of [cleanupTurn]. *)
Definition cleanupTransaction : M (option error) :=
  err ← zoom the_conn Begin;
  match err with
  | Some err => mret (Some (Join ErrStorage err))
  | None =>
      r ← deleteRetiredReceipts;
      match r with
      | inl err => '(_, failure) ← rollbackSubmit (Join ErrStorage err); mret (Some failure)
      | inr m =>
          err ← writeSubmitMetadata m;
          match err with
          | Some err => '(_, failure) ← rollbackSubmit (Join ErrStorage err); mret (Some failure)
          | None =>
              err ← zoom the_conn Commit;
              match err with
              | Some err => mret (Some (Join ErrStorage err))
              | None => _ ← modify (λ s, Session (conn s) m (claims s) (deliveryRetained s)); mret None
              end
          end
      end
  end.
End store.
End DurableStore.
