(* ===== verification/DurableInv.v ===== *)
(** * The invariant of a durable store (src/workq/durable)

    What the tables and the metadata of a store always satisfy, the statuses they stand for, and that
    accepting, acknowledging, retiring and cleaning up keep the invariant. *)

From Stdlib Require Import ZArith Lia.
From stdpp Require Import prelude list gmap strings sorting.
From S2P Require Import Prelude Prog DurableCore DurableSpec DurableStore.

Module DurableInv.
Import Prog Durable DurableSpec DurableStore.

(** ** Sums over tables *)

Definition msum {R} (f : R → Z) (m : gmap bytes R) : Z := map_fold (λ _ r n, f r + n) 0 m.

Lemma msum_empty {R} (f : R → Z) : msum f ∅ = 0.
Proof. apply map_fold_empty. Qed.

Lemma msum_insert {R} (f : R → Z) m k r : m !! k = None → msum f (<[k := r]> m) = f r + msum f m.
Proof. intros Hk. unfold msum. apply (map_fold_insert_L (λ _ r n, f r + n) 0 k r m); [intros; lia|done]. Qed.

Lemma msum_delete {R} (f : R → Z) m k r : m !! k = Some r → msum f (delete k m) = msum f m - f r.
Proof.
  intros Hk. rewrite <- (insert_delete_id m k r Hk) at 2. rewrite msum_insert by apply lookup_delete_eq. lia.
Qed.

Lemma msum_replace {R} (f : R → Z) m k r r' : m !! k = Some r → msum f (<[k := r']> m) = msum f m - f r + f r'.
Proof.
  intros Hk. rewrite <- insert_delete_eq. rewrite msum_insert by apply lookup_delete_eq. rewrite (msum_delete f m k r Hk). lia.
Qed.

Lemma msum_nonneg {R} (f : R → Z) m : (∀ k r, m !! k = Some r → 0 <= f r) → 0 <= msum f m.
Proof.
  induction m as [|k r m Hk IH] using map_ind; intros Hf; [by rewrite msum_empty|].
  rewrite msum_insert by done. pose proof (Hf k r (lookup_insert_eq _ _ _)). 
  assert (0 <= msum f m); [|lia]. apply IH. intros k' r' Hk'. apply (Hf k'). rewrite lookup_insert_ne; [done|congruence].
Qed.

Lemma msum_le {R} (f : R → Z) m k r : (∀ k r, m !! k = Some r → 0 <= f r) → m !! k = Some r → f r <= msum f m.
Proof.
  intros Hf Hk. pose proof (msum_delete f m k r Hk). assert (0 <= msum f (delete k m)); [|lia].
  apply msum_nonneg. intros k' r' [_ Hk']%lookup_delete_Some. by apply (Hf k').
Qed.

Lemma msum_mono {R} (f g : R → Z) m : (∀ k r, m !! k = Some r → f r <= g r) → msum f m <= msum g m.
Proof.
  induction m as [|k r m Hk IH] using map_ind; intros Hf; [by rewrite !msum_empty|].
  rewrite !msum_insert by done. pose proof (Hf k r (lookup_insert_eq _ _ _)).
  assert (msum f m <= msum g m); [|lia]. apply IH. intros k' r' Hk'. apply (Hf k'). rewrite lookup_insert_ne; [done|congruence].
Qed.

(** ** Tokens *)

Lemma bigEndian_range bs : is_bytes 8 bs → is_u64 (bigEndian bs).
Proof.
  intros [Hl HF]. do 8 (destruct bs as [|? bs]; [done|]). destruct bs; [|done].
  repeat match goal with H : Forall _ (_ :: _) |- _ => apply Forall_cons in H as [? H] end.
  unfold is_byte, is_u64, bigEndian in *. cbn [foldl]. lia.
Qed.

Lemma put_bigEndian bs : is_bytes 8 bs → putUint64 (bigEndian bs) = bs.
Proof.
  intros Hbs. pose proof (bigEndian_range bs Hbs) as Hr. pose proof Hbs as [Hl HF]. symmetry. apply compare_eq.
  destruct (foldl_compare bs (putUint64 (bigEndian bs)) 0 0) as (_ & _ & H); [done|done|apply put_bytes|].
  rewrite <- H by done. fold (bigEndian bs) (bigEndian (putUint64 (bigEndian bs))). rewrite bigEndian_put by done.
  apply Z.compare_refl.
Qed.

Lemma sub_bytes (n : nat) bs i j :
  is_bytes n bs → 0 <= i <= j → j <= Z.of_nat n → is_bytes (Z.to_nat (j - i)) (sub bs i j).
Proof.
  intros [Hl HF] Hi Hj. unfold sub. split; [rewrite length_take, length_drop; lia|]. by apply Forall_take, Forall_drop.
Qed.

Lemma sub_split {A} (l : list A) i j k : 0 <= i <= j → j <= k → sub l i k = sub l i j ++ sub l j k.
Proof.
  intros Hi Hj. unfold sub. rewrite <- (take_drop (Z.to_nat (j - i)) (take (Z.to_nat (k - i)) (drop (Z.to_nat i) l))).
  rewrite take_take, skipn_firstn_comm, drop_drop. f_equal; f_equal; [lia|lia|f_equal; lia].
Qed.

(** A token is made of its parts. *)
Lemma token_rebuild token :
  is_bytes 56 token →
  token = encodeToken (sub token 0 16) (bigEndian (sub token 16 24))
            (MkID (sub token 24 40) (bigEndian (sub token 40 48))) (bigEndian (sub token 48 56)) ∧
  decodeID (sub token 24 48) = inr (MkID (sub token 24 40) (bigEndian (sub token 40 48))) ∧
  id_ok (MkID (sub token 24 40) (bigEndian (sub token 40 48))).
Proof.
  intros Ht. pose proof Ht as [Hl HF].
  assert (∀ i j, 0 <= i → j = i + 8 → j <= 56 → putUint64 (bigEndian (sub token i j)) = sub token i j) as Hput.
  { intros i j Hi -> Hj. apply put_bigEndian. replace 8%nat with (Z.to_nat (i + 8 - i)) by lia. apply (sub_bytes 56); [done|lia..]. }
  assert (id_ok (MkID (sub token 24 40) (bigEndian (sub token 40 48)))) as Hid.
  { split; [apply (sub_bytes 56 token 24 40); [done|lia..]|]. apply bigEndian_range. apply (sub_bytes 56 token 40 48); [done|lia..]. }
  assert (sub token 24 48 = encodeID (MkID (sub token 24 40) (bigEndian (sub token 40 48)))) as He.
  { unfold encodeID. cbn [Producer Sequence]. rewrite Hput by lia. apply sub_split; lia. }
  split_and!; [|by rewrite He, decode_encodeID|done].
  unfold encodeToken. rewrite <- He, !Hput by lia.
  rewrite <- sub_split, <- sub_split, <- sub_split by lia. unfold sub. rewrite drop_0. symmetry. apply take_ge. lia.
Qed.

(** ** The invariant *)

Section inv.
Context (hash : bytes → bytes) (hash_length : ∀ input, length (hash input) = 32%nat).

Definition producer_ok (p : producerRow) : Prop :=
  (has_retirement p = 0 ∧ retired_through p = encodeUint64 0 ∧ cleanup_needed p = 0) ∨
  (has_retirement p = 1 ∧ (∃ f, is_u64 f ∧ retired_through p = encodeUint64 f) ∧ (cleanup_needed p = 0 ∨ cleanup_needed p = 1)).

(** At or below the retirement floor of its producer. *)
Definition below (p : producerRow) (id : ID) : bool :=
  (has_retirement p =? 1) && (Sequence id <=? bigEndian (retired_through p)).

(** A pending receipt has its payload and is not retired; an acknowledged one has the token that
    completed it and no payload, and is marked for cleanup when it is retired. *)
Definition receipt_ok (t : tables) (m : storeMetadata) (key : bytes) (r : receiptRow) : Prop :=
  ∃ id p, id_ok id ∧ key = encodeID id ∧ t_producers t !! Producer id = Some p ∧ length (r_digest r) = 32%nat ∧
  (∃ o, 1 <= o <= m_lastOrder m ∧ accept_order r = encodeUint64 o) ∧
  ((r_state r = 0 ∧ ack_token r = None ∧ below p id = false ∧
    ∃ row, t_payloads t !! key = Some row ∧ r_digest r = entryDigest hash (p_codec row) (p_payload row) ∧
      payload_length row = len (p_payload row) ∧ len (p_codec row) <= MaxCodec (m_policy m) ∧
      len (p_payload row) <= MaxPayload (m_policy m)) ∨
   (r_state r = 1 ∧ t_payloads t !! key = None ∧ (below p id = true → cleanup_needed p = 1) ∧
    ∃ epoch attempt, 1 <= epoch <= m_epoch m ∧ 1 <= attempt < 2 ^ 64 ∧
      ack_token r = Some (encodeToken (m_uuid m) epoch id attempt))).

Record rows_ok (t : tables) (m : storeMetadata) : Prop := {
  ro_policy : validatePolicy (m_policy m) = None ∧ 0 <= MaxCodec (m_policy m);
  ro_uuid : is_bytes 16 (m_uuid m);
  ro_epoch : 0 <= m_epoch m < 2 ^ 64;
  ro_order : 0 <= m_lastOrder m < 2 ^ 64;
  ro_items : PendingItems (m_counts m) = msum (λ _, 1) (t_payloads t);
  ro_bytes : PendingPayload (m_counts m) = msum payload_length (t_payloads t);
  ro_receipts : Receipts (m_counts m) = msum (λ _, 1) (t_receipts t);
  ro_producers : Producers (m_counts m) = msum (λ _, 1) (t_producers t);
  ro_retired : RetiredProducers (m_counts m) = msum has_retirement (t_producers t);
  ro_cleanup : CleanupMarkers (m_counts m) = msum cleanup_needed (t_producers t);
  ro_producer p row : t_producers t !! p = Some row → is_bytes 16 p ∧ producer_ok row;
  ro_receipt key r : t_receipts t !! key = Some r → receipt_ok t m key r;
  ro_payload key row : t_payloads t !! key = Some row → ∃ r, t_receipts t !! key = Some r ∧ r_state r = 0;
  ro_unique k k' r r' : t_receipts t !! k = Some r → t_receipts t !! k' = Some r' → accept_order r = accept_order r' → k = k';
}.

(** The counts are within the policy. *)
Definition limits_ok (m : storeMetadata) : Prop :=
  PendingItems (m_counts m) <= MaxPendingItems (m_policy m) ∧ PendingPayload (m_counts m) <= MaxPendingPayload (m_policy m) ∧
  Receipts (m_counts m) <= MaxReceipts (m_policy m) ∧ Producers (m_counts m) <= MaxProducers (m_policy m).

Lemma counts_range t m :
  rows_ok t m → let c := m_counts m in
  0 <= PendingItems c ∧ 0 <= PendingPayload c ∧ 0 <= Receipts c ∧ 0 <= CleanupMarkers c <= RetiredProducers c ∧
  RetiredProducers c <= Producers c.
Proof.
  intros Hok. simpl. rewrite (ro_items _ _ Hok), (ro_bytes _ _ Hok), (ro_receipts _ _ Hok), (ro_producers _ _ Hok),
    (ro_retired _ _ Hok), (ro_cleanup _ _ Hok).
  assert (∀ p row, t_producers t !! p = Some row → 0 <= cleanup_needed row <= has_retirement row ∧ has_retirement row <= 1) as Hp.
  { intros p row [_ Hrow]%(ro_producer _ _ Hok). unfold producer_ok in Hrow. intuition lia. }
  split; [by apply msum_nonneg|]. split; [|split; [by apply msum_nonneg|split; [split|]]].
  - apply msum_nonneg. intros key row Hrow. destruct (ro_payload _ _ Hok _ _ Hrow) as (r & Hr & Hst).
    destruct (ro_receipt _ _ Hok _ _ Hr) as (id & p & _ & _ & _ & _ & _ & [(_ & _ & _ & row' & Hrow' & _ & Hl & _)|(H1 & _)]);
      [|congruence]. assert (row' = row) as -> by congruence. rewrite Hl. unfold len. lia.
  - apply msum_nonneg. intros p row Hrow. apply (Hp p row Hrow).
  - apply msum_mono. intros p row Hrow. apply (Hp p row Hrow).
  - apply msum_mono. intros p row Hrow. apply (Hp p row Hrow).
Qed.

(** What the store says of an identity. *)
Inductive entry_state := SAbsent | SPending (codec payload : bytes) | SAcknowledged (digest : bytes) | SRetired.

Definition kind_of (st : entry_state) : StatusKind :=
  match st with
  | SAbsent => Absent
  | SPending _ _ => Pending
  | SAcknowledged _ => Acknowledged
  | SRetired => Retired
  end.

Definition state_of (t : tables) (id : ID) : entry_state :=
  match t_producers t !! Producer id with
  | None => SAbsent
  | Some p =>
      if below p id then SRetired
      else match t_receipts t !! encodeID id with
           | None => SAbsent
           | Some r =>
               if r_state r =? 1 then SAcknowledged (r_digest r)
               else match t_payloads t !! encodeID id with
                    | Some row => SPending (p_codec row) (p_payload row)
                    | None => SPending [] []
                    end
           end
  end.

Lemma unknown_producer t m id : rows_ok t m → id_ok id → t_producers t !! Producer id = None → t_receipts t !! encodeID id = None.
Proof.
  intros Hok Hid Hp. destruct (t_receipts t !! encodeID id) as [r|] eqn:Hr; [|done].
  destruct (ro_receipt _ _ Hok _ _ Hr) as (id' & p & Hid' & He & Hp' & _). apply encodeID_inj in He as ->; [congruence|done..].
Qed.

(** ** Accepting an entry *)

Definition insert_entry (e : Entry) (order : Z) (t : tables) : tables :=
  Tables (t_meta t)
    (match t_producers t !! Producer (e_ID e) with
     | Some _ => t_producers t
     | None => <[Producer (e_ID e) := ProducerRow 0 (encodeUint64 0) 0]> (t_producers t)
     end)
    (<[encodeID (e_ID e) := ReceiptRow (entryDigest hash (Codec e) (Payload e)) 0 (encodeUint64 order) None]> (t_receipts t))
    (<[encodeID (e_ID e) := PayloadRow (Codec e) (Payload e) (len (Payload e))]> (t_payloads t)).

Definition count_entry (t : tables) (e : Entry) (m : storeMetadata) : storeMetadata :=
  let c := m_counts m in
  Metadata (m_uuid m) (m_policy m) (m_durability m) (m_epoch m) (m_lastOrder m + 1)
    (Counts (PendingItems c + 1) (PendingPayload c + len (Payload e)) (Receipts c + 1)
       (Producers c + (if t_producers t !! Producer (e_ID e) then 0 else 1)) (RetiredProducers c) (CleanupMarkers c)).

Definition entry_ok (policy : DurablePolicy) (e : Entry) : Prop :=
  id_ok (e_ID e) ∧ len (Codec e) <= MaxCodec policy ∧ len (Payload e) <= MaxPayload policy.

Lemma producer_after e o t id p :
  t_producers t !! id = Some p → t_producers (insert_entry e o t) !! id = Some p.
Proof.
  intros Hp. simpl. destruct (t_producers t !! Producer (e_ID e)) eqn:He; [done|].
  rewrite lookup_insert_ne; [done|]. intros <-. congruence.
Qed.

(** The producer row that an entry finds or gets. *)
Lemma producer_of_entry e o t m :
  rows_ok t m → state_of t (e_ID e) ≠ SRetired →
  ∃ p, t_producers (insert_entry e o t) !! Producer (e_ID e) = Some p ∧ below p (e_ID e) = false.
Proof.
  intros Hok Hk. unfold state_of in Hk. destruct (t_producers t !! Producer (e_ID e)) as [p|] eqn:Hp.
  - exists p. split; [by apply producer_after|]. by destruct (below p (e_ID e)).
  - exists (ProducerRow 0 (encodeUint64 0) 0). split; [|done]. simpl. rewrite Hp. apply lookup_insert_eq.
Qed.

(** What a receipt relies on. *)
Lemma receipt_ok_frame t m t' m' key r :
  receipt_ok t m key r → (∀ p row, t_producers t !! p = Some row → t_producers t' !! p = Some row) →
  t_payloads t' !! key = t_payloads t !! key → m_uuid m' = m_uuid m → m_policy m' = m_policy m → m_epoch m' = m_epoch m →
  m_lastOrder m <= m_lastOrder m' → receipt_ok t' m' key r.
Proof.
  intros (id & p & Hid & -> & Hp & Hd & (ord & Hord & Ho) & Hst) Hprod Hpay Hu Hpol He Hle. exists id, p.
  rewrite Hpay, Hu, Hpol, He. split_and!; [done..|by apply Hprod|done| |done]. exists ord. split; [lia|done].
Qed.

(** A fresh entry becomes pending. *)
Lemma accept_ok t m e :
  rows_ok t m → entry_ok (m_policy m) e → t_receipts t !! encodeID (e_ID e) = None → state_of t (e_ID e) ≠ SRetired →
  m_lastOrder m < 2 ^ 64 - 1 → rows_ok (insert_entry e (m_lastOrder m + 1) t) (count_entry t e m).
Proof.
  intros Hok (Hid & Hcodec & Hpay) Hnew Hk Hlast.
  pose proof (ro_order _ _ Hok) as Hord.
  assert (t_payloads t !! encodeID (e_ID e) = None) as Hnop.
  { destruct (t_payloads t !! encodeID (e_ID e)) as [row|] eqn:Hrow; [|done].
    destruct (ro_payload _ _ Hok _ _ Hrow) as (r & Hr & _). congruence. }
  assert (∀ k r, t_receipts t !! k = Some r → accept_order r ≠ encodeUint64 (m_lastOrder m + 1)) as Hfresh.
  { intros k r Hr He. destruct (ro_receipt _ _ Hok _ _ Hr) as (id & p & _ & _ & _ & _ & (o & Ho & Heo) & _).
    rewrite Heo in He. apply (f_equal bigEndian) in He. unfold encodeUint64 in He.
    rewrite !bigEndian_put in He by (unfold is_u64; lia). lia. }
  destruct (producer_of_entry e (m_lastOrder m + 1) t m Hok Hk) as (p & Hp & Hbelow).
  split; cbn [count_entry m_policy m_uuid m_epoch m_lastOrder m_counts PendingItems PendingPayload Receipts Producers
              RetiredProducers CleanupMarkers insert_entry t_payloads t_receipts]; try apply Hok.
  - lia.
  - rewrite msum_insert by done. rewrite (ro_items _ _ Hok). lia.
  - rewrite msum_insert by done. rewrite (ro_bytes _ _ Hok). simpl. lia.
  - rewrite msum_insert by done. rewrite (ro_receipts _ _ Hok). lia.
  - rewrite (ro_producers _ _ Hok). simpl. destruct (t_producers t !! _) eqn:He; [lia|]. rewrite msum_insert by done. lia.
  - rewrite (ro_retired _ _ Hok). simpl. destruct (t_producers t !! _) eqn:He; [lia|]. rewrite msum_insert by done. simpl. lia.
  - rewrite (ro_cleanup _ _ Hok). simpl. destruct (t_producers t !! _) eqn:He; [lia|]. rewrite msum_insert by done. simpl. lia.
  - intros q row. simpl. destruct (t_producers t !! _) eqn:He; [apply Hok|].
    intros [[<- <-]|[_ Hrow]]%lookup_insert_Some; [|by apply (ro_producer _ _ Hok)]. split; [apply Hid|]. by left.
  - intros key r [[<- <-]|[Hne Hr]]%lookup_insert_Some; [|apply (receipt_ok_frame t m); [by apply Hok|intros; by apply producer_after| |done..|simpl; lia]].
    2: { simpl. by rewrite lookup_insert_ne. }
    exists (e_ID e), p. split; [done|]. split; [done|]. split; [done|]. split; [apply hash_length|].
    split; [exists (m_lastOrder m + 1); split; [simpl; lia|done]|]. left. simpl. split; [done|]. split; [done|].
    split; [done|]. eexists. rewrite lookup_insert_eq. by split_and!.
  - intros key row [[<- <-]|[Hne Hr]]%lookup_insert_Some; [rewrite lookup_insert_eq; eauto|].
    rewrite lookup_insert_ne by done. by apply (ro_payload _ _ Hok key row).
  - intros k k' r r' [[<- <-]|[Hne Hr]]%lookup_insert_Some [[<- <-]|[Hne' Hr']]%lookup_insert_Some; simpl; intros Heq;
      [done|by apply Hfresh in Hr'|by apply Hfresh in Hr|by apply (ro_unique _ _ Hok _ _ _ _ Hr Hr')].
Qed.

(** What an entry does to the states. *)
Lemma accept_state t m e o id :
  rows_ok t m → id_ok id → id_ok (e_ID e) → t_receipts t !! encodeID (e_ID e) = None → state_of t (e_ID e) ≠ SRetired →
  state_of (insert_entry e o t) id = if decide (id = e_ID e) then SPending (Codec e) (Payload e) else state_of t id.
Proof.
  intros Hok Hid He Hnew Hk. destruct (decide (id = e_ID e)) as [->|Hne].
  - destruct (producer_of_entry e o t m Hok Hk) as (p & Hp & Hb). unfold state_of. rewrite Hp, Hb. simpl.
    by rewrite !lookup_insert_eq.
  - assert (encodeID (e_ID e) ≠ encodeID id) as Hne'.
    { intros Heq. apply Hne. by apply encodeID_inj. }
    unfold state_of. simpl. rewrite !(lookup_insert_ne _ _ _ _ Hne').
    destruct (t_producers t !! Producer (e_ID e)) as [p|] eqn:Hp; [done|].
    destruct (decide (Producer id = Producer (e_ID e))) as [Heq|Hneq].
    + rewrite Heq, lookup_insert_eq, Hp. replace (below _ id) with false by done.
      rewrite <- Heq in Hp. by rewrite (unknown_producer t m id Hok Hid Hp).
    + by rewrite lookup_insert_ne by congruence.
Qed.
(** ** Acknowledging an attempt *)

Definition ack_rows (token id : bytes) (t : tables) : tables :=
  Tables (t_meta t) (t_producers t)
    (alter (λ r, if r_state r =? 0 then ReceiptRow (r_digest r) 1 (accept_order r) (Some token) else r) id (t_receipts t))
    (delete id (t_payloads t)).

Definition count_ack (length : Z) (m : storeMetadata) : storeMetadata :=
  let c := m_counts m in
  with_counts (Counts (PendingItems c - 1) (PendingPayload c - length) (Receipts c) (Producers c) (RetiredProducers c)
    (CleanupMarkers c)) m.

(** A pending receipt has its payload. *)
Lemma pending_payload t m key r :
  rows_ok t m → t_receipts t !! key = Some r → r_state r ≠ 1 →
  r_state r = 0 ∧ ∃ row, t_payloads t !! key = Some row ∧ payload_length row = len (p_payload row) ∧
    len (p_payload row) <= MaxPayload (m_policy m).
Proof.
  intros Hok Hr Hst. destruct (ro_receipt _ _ Hok _ _ Hr)
    as (id & p & _ & _ & _ & _ & _ & [(H0 & _ & _ & row & Hrow & _ & Hl & _ & Hm)|(H1 & _)]); [eauto 10|done].
Qed.

(** An acknowledgement again changes nothing. *)
Lemma ack_again t m token key r :
  rows_ok t m → t_receipts t !! key = Some r → r_state r = 1 → ack_rows token key t = t.
Proof.
  intros Hok Hr Hst. destruct (ro_receipt _ _ Hok _ _ Hr) as (id & p & _ & _ & _ & _ & _ & [(H0 & _)|(_ & Hpay & _)]); [congruence|].
  destruct t as [tm tp tr tpay]. simpl in *. unfold ack_rows. simpl. f_equal.
  - apply alter_id. intros r' Hr'. assert (r' = r) as -> by congruence. by rewrite Hst.
  - by apply delete_id.
Qed.

Lemma ack_ok t m id r row attempt :
  rows_ok t m → id_ok id → t_receipts t !! encodeID id = Some r → r_state r = 0 → t_payloads t !! encodeID id = Some row →
  1 <= m_epoch m → 1 <= attempt < 2 ^ 64 →
  rows_ok (ack_rows (encodeToken (m_uuid m) (m_epoch m) id attempt) (encodeID id) t) (count_ack (payload_length row) m).
Proof.
  intros Hok Hid Hr Hst Hrow Hep Hatt. unfold ack_rows. rewrite (alter_alt_Some _ _ _ _ Hr), Hst. simpl.
  assert (∀ k r', <[encodeID id := ReceiptRow (r_digest r) 1 (accept_order r)
      (Some (encodeToken (m_uuid m) (m_epoch m) id attempt))]> (t_receipts t) !! k = Some r' →
    ∃ r0, t_receipts t !! k = Some r0 ∧ accept_order r0 = accept_order r') as Hold.
  { intros k r' [[<- <-]|[_ Hr']]%lookup_insert_Some; eauto. }
  split; cbn [count_ack with_counts m_policy m_uuid m_epoch m_lastOrder m_counts PendingItems PendingPayload Receipts Producers
              RetiredProducers CleanupMarkers t_payloads t_receipts t_producers]; try apply Hok.
  - rewrite (msum_delete _ _ _ row Hrow), (ro_items _ _ Hok). lia.
  - rewrite (msum_delete _ _ _ row Hrow), (ro_bytes _ _ Hok). lia.
  - rewrite (msum_replace _ _ _ r _ Hr), (ro_receipts _ _ Hok). lia.
  - intros key r' [[<- <-]|[Hne Hr']]%lookup_insert_Some.
    + destruct (ro_receipt _ _ Hok _ _ Hr) as (id' & p & Hid' & He & Hp & Hd & Ho & [(_ & _ & Hb & _)|(H1 & _)]); [|congruence].
      apply encodeID_inj in He as <-; [|done..]. exists id, p. split_and!; [done..|]. right. simpl.
      split; [done|]. split; [apply lookup_delete_eq|]. split; [congruence|]. exists (m_epoch m), attempt.
      split; [lia|done].
    + apply (receipt_ok_frame t m); [by apply Hok|done| |done..]. simpl. by rewrite lookup_delete_ne.
  - intros key row' [Hne Hrow']%lookup_delete_Some. destruct (ro_payload _ _ Hok _ _ Hrow') as (r' & Hr' & Hst').
    exists r'. by rewrite lookup_insert_ne.
  - intros k k' r1 r2 (r3 & H3 & Ho3)%Hold (r4 & H4 & Ho4)%Hold Heq. apply (ro_unique _ _ Hok _ _ _ _ H3 H4). congruence.
Qed.

Lemma ack_state t m token r id id' :
  rows_ok t m → id_ok id → id_ok id' → t_receipts t !! encodeID id = Some r → r_state r = 0 →
  state_of (ack_rows token (encodeID id) t) id' = if decide (id' = id) then SAcknowledged (r_digest r) else state_of t id'.
Proof.
  intros Hok Hid Hid' Hr Hst. unfold state_of, ack_rows. cbn [t_producers t_receipts]. rewrite (alter_alt_Some _ _ _ _ Hr), Hst. simpl.
  destruct (decide (id' = id)) as [->|Hne].
  - destruct (ro_receipt _ _ Hok _ _ Hr) as (id' & p & Hid'' & He & Hp & _ & _ & [(_ & _ & Hb & _)|(H1 & _)]); [|congruence].
    apply encodeID_inj in He as <-; [|done..]. by rewrite Hp, Hb, lookup_insert_eq.
  - assert (encodeID id ≠ encodeID id') by (intros He; apply Hne; symmetry; by apply encodeID_inj).
    by rewrite lookup_insert_ne, lookup_delete_ne.
Qed.
(** ** Retiring a producer's identities *)

Definition retire_rows (id : ID) (t : tables) : tables :=
  set_producers (<[Producer id := ProducerRow 1 (encodeUint64 (Sequence id)) 1]> (t_producers t)) t.

Definition count_retire (row : option producerRow) (m : storeMetadata) : storeMetadata :=
  let c := m_counts m in
  with_counts (Counts (PendingItems c) (PendingPayload c) (Receipts c) (Producers c + (if row then 0 else 1))
    (RetiredProducers c + (1 - from_option has_retirement 0 row))
    (CleanupMarkers c + (1 - from_option cleanup_needed 0 row))) m.

(** The barrier is new: above the floor, and nothing pending is at or below it. *)
Definition may_retire (t : tables) (id : ID) : Prop :=
  (∀ p, t_producers t !! Producer id = Some p → below p id = false) ∧
  (∀ id' r, id_ok id' → Producer id' = Producer id → Sequence id' <= Sequence id → t_receipts t !! encodeID id' = Some r → r_state r = 1).

Lemma below_retired f id c : is_u64 f → below (ProducerRow 1 (encodeUint64 f) c) id = (Sequence id <=? f).
Proof. intros Hf. unfold below. simpl. unfold encodeUint64. by rewrite bigEndian_put. Qed.

(** The floor only rises. *)
Lemma below_rises p id id' :
  producer_ok p → id_ok id → below p id = false → below p id' = true → Sequence id' <= Sequence id.
Proof.
  intros Hp Hid. unfold below. destruct (has_retirement p =? 1); [|done]. simpl. lia.
Qed.

Lemma retire_ok t m id :
  rows_ok t m → id_ok id → may_retire t id → rows_ok (retire_rows id t) (count_retire (t_producers t !! Producer id) m).
Proof.
  intros Hok Hid [Hfloor Hpend].
  split; cbn [count_retire with_counts m_policy m_uuid m_epoch m_lastOrder m_counts PendingItems PendingPayload Receipts Producers
              RetiredProducers CleanupMarkers retire_rows set_producers t_payloads t_receipts t_producers]; try apply Hok.
  - rewrite (ro_producers _ _ Hok). destruct (t_producers t !! Producer id) as [p|] eqn:Hp;
      [rewrite (msum_replace _ _ _ p _ Hp)|rewrite msum_insert by done]; lia.
  - rewrite (ro_retired _ _ Hok). destruct (t_producers t !! Producer id) as [p|] eqn:Hp;
      [rewrite (msum_replace _ _ _ p _ Hp)|rewrite msum_insert by done]; simpl; lia.
  - rewrite (ro_cleanup _ _ Hok). destruct (t_producers t !! Producer id) as [p|] eqn:Hp;
      [rewrite (msum_replace _ _ _ p _ Hp)|rewrite msum_insert by done]; simpl; lia.
  - intros q row [[<- <-]|[_ Hrow]]%lookup_insert_Some; [|by apply (ro_producer _ _ Hok)]. split; [apply Hid|]. right.
    split; [done|]. split; [|by right]. exists (Sequence id). split; [apply Hid|done].
  - intros key r Hr. destruct (ro_receipt _ _ Hok _ _ Hr) as (id' & p & Hid' & -> & Hp & Hd & Ho & Hst).
    destruct (decide (Producer id' = Producer id)) as [Heq|Hne].
    + exists id', (ProducerRow 1 (encodeUint64 (Sequence id)) 1). cbn [retire_rows set_producers t_producers].
      rewrite Heq, lookup_insert_eq. split_and!; [done..|].
      rewrite below_retired by apply Hid. destruct Hst as [(H0 & Ha & Hb & Hpay)|(H1 & Hpay & _ & Htok)].
      * left. split_and!; [done..| |done]. destruct (Z.leb_spec (Sequence id') (Sequence id)) as [Hle|]; [|done].
        pose proof (Hpend id' r Hid' Heq Hle Hr). congruence.
      * right. by split_and!.
    + exists id', p. cbn [retire_rows set_producers t_producers]. rewrite lookup_insert_ne by congruence. by split_and!.
Qed.

Lemma retire_state t m id id' :
  rows_ok t m → id_ok id → id_ok id' → may_retire t id →
  state_of (retire_rows id t) id' =
    if bool_decide (Producer id' = Producer id) && (Sequence id' <=? Sequence id) then SRetired else state_of t id'.
Proof.
  intros Hok Hid Hid' [Hfloor _]. unfold state_of. cbn [retire_rows set_producers t_producers t_receipts t_payloads].
  case_bool_decide as Heq; simpl; [|by rewrite lookup_insert_ne by congruence].
  rewrite Heq, lookup_insert_eq, below_retired by apply Hid.
  destruct (Z.leb_spec (Sequence id') (Sequence id)) as [Hle|Hgt]; [done|].
  destruct (t_producers t !! Producer id) as [p|] eqn:Hp.
  - destruct (below p id') eqn:Hb; [|done].
    pose proof (below_rises p id id' (proj2 (ro_producer _ _ Hok _ _ Hp)) Hid (Hfloor p eq_refl) Hb). lia.
  - rewrite <- Heq in Hp. by rewrite (unknown_producer t m id' Hok Hid' Hp).
Qed.

(** ** Cleanup *)

Definition delete_rows (key : bytes) (t : tables) : tables := set_receipts (delete key (t_receipts t)) t.

Definition count_deleted (n : Z) (m : storeMetadata) : storeMetadata :=
  let c := m_counts m in
  with_counts (Counts (PendingItems c) (PendingPayload c) (Receipts c - n) (Producers c) (RetiredProducers c) (CleanupMarkers c)) m.

Lemma delete_ok t m key r :
  rows_ok t m → t_receipts t !! key = Some r → r_state r = 1 → rows_ok (delete_rows key t) (count_deleted 1 m).
Proof.
  intros Hok Hr Hst.
  split; cbn [count_deleted with_counts m_policy m_uuid m_epoch m_lastOrder m_counts PendingItems PendingPayload Receipts Producers
              RetiredProducers CleanupMarkers delete_rows set_receipts t_payloads t_receipts t_producers]; try apply Hok.
  - rewrite (msum_delete _ _ _ r Hr), (ro_receipts _ _ Hok). lia.
  - intros key' r' [_ Hr']%lookup_delete_Some. by apply (receipt_ok_frame t m); [apply Hok|..].
  - intros key' row Hrow. destruct (ro_payload _ _ Hok _ _ Hrow) as (r' & Hr' & Hst'). exists r'. split; [|done].
    rewrite lookup_delete_ne; [done|]. congruence.
  - intros k k' r1 r2 [_ H1]%lookup_delete_Some [_ H2]%lookup_delete_Some. by apply (ro_unique _ _ Hok).
Qed.

Lemma delete_state t p id id' :
  id_ok id → id_ok id' → t_producers t !! Producer id = Some p → below p id = true →
  state_of (delete_rows (encodeID id) t) id' = state_of t id'.
Proof.
  intros Hid Hid' Hp Hb. unfold state_of. cbn [delete_rows set_receipts t_producers t_receipts].
  destruct (decide (id = id')) as [<-|Hne]; [by rewrite Hp, Hb|].
  rewrite lookup_delete_ne; [done|]. intros He. by apply Hne, encodeID_inj.
Qed.

Definition clear_rows (producer : bytes) (t : tables) : tables :=
  set_producers (alter (λ p, ProducerRow (has_retirement p) (retired_through p) 0) producer (t_producers t)) t.

Definition count_cleared (m : storeMetadata) : storeMetadata :=
  let c := m_counts m in
  with_counts (Counts (PendingItems c) (PendingPayload c) (Receipts c) (Producers c) (RetiredProducers c) (CleanupMarkers c - 1)) m.

Lemma clear_ok t m producer p :
  rows_ok t m → t_producers t !! producer = Some p → cleanup_needed p = 1 →
  (∀ id r, id_ok id → Producer id = producer → below p id = true → t_receipts t !! encodeID id = Some r → r_state r ≠ 1) →
  rows_ok (clear_rows producer t) (count_cleared m).
Proof.
  intros Hok Hp Hc Hnone. unfold clear_rows. rewrite (alter_alt_Some _ _ _ _ Hp).
  split; cbn [count_cleared with_counts m_policy m_uuid m_epoch m_lastOrder m_counts PendingItems PendingPayload Receipts Producers
              RetiredProducers CleanupMarkers set_producers t_payloads t_receipts t_producers]; try apply Hok.
  - rewrite (msum_replace _ _ _ p _ Hp), (ro_producers _ _ Hok). lia.
  - rewrite (msum_replace _ _ _ p _ Hp), (ro_retired _ _ Hok). simpl. lia.
  - rewrite (msum_replace _ _ _ p _ Hp), (ro_cleanup _ _ Hok). simpl. lia.
  - intros q row [[<- <-]|[_ Hrow]]%lookup_insert_Some; [|by apply (ro_producer _ _ Hok)].
    destruct (ro_producer _ _ Hok _ _ Hp) as [Hq Hpo]. split; [done|]. unfold producer_ok in *. simpl. intuition lia.
  - intros key r Hr. destruct (ro_receipt _ _ Hok _ _ Hr) as (id & p' & Hid & -> & Hp' & Hd & Ho & Hst).
    destruct (decide (Producer id = producer)) as [<-|Hne].
    + assert (p' = p) as -> by congruence. exists id, (ProducerRow (has_retirement p) (retired_through p) 0). cbn [retire_rows set_producers t_producers].
      rewrite lookup_insert_eq. split_and!; [done..|].
      destruct Hst as [(H0 & Ha & Hb & Hpay)|(H1 & Hpay & _ & Htok)]; [by left|right]. split_and!; [done..| |done].
      intros Hb. exfalso. by eapply (Hnone id r).
    + exists id, p'. cbn [set_producers t_producers]. rewrite lookup_insert_ne by congruence. by split_and!.
Qed.

Lemma clear_state t producer id : state_of (clear_rows producer t) id = state_of t id.
Proof.
  unfold state_of, clear_rows. cbn [set_producers t_producers t_receipts].
  destruct (decide (producer = Producer id)) as [->|Hne]; [|by rewrite lookup_alter_ne].
  rewrite lookup_alter_eq. by destruct (t_producers t !! Producer id).
Qed.
End inv.
End DurableInv.
