(* ===== verification/DurableTx.v ===== *)
(** * Commands of the durable queue, inside their transaction (src/workq/durable)

    The abstract store maps every identity to its state. A submission, an acknowledgement and a
    retirement are functions on it ([apply_spec]); each command of the source, run inside a
    transaction, either fails with a storage error, or is rejected and leaves the tables as they
    were, or changes the tables as its function says and keeps the invariant of the store. *)

From Stdlib Require Import ZArith Lia.
From stdpp Require Import prelude list gmap strings sorting.
From S2P Require Import Prelude Prog DurableCore DurableSpec DurableStore DurableInv.

Module DurableTx.
Import Prog Durable DurableSpec DurableStore DurableInv.

(** A lookup by a key that is a part of a token. *)
#[local] Notation "m !!' k" := (@lookup bytes _ _ _ k m) (at level 20).

(** ** The abstract store *)

Definition store_spec : Type := ID → entry_state.

(** Stores agree when they agree on the identities that exist. *)
Definition agree (A B : store_spec) : Prop := ∀ id, id_ok id → A id = B id.
#[export] Instance agree_equivalence : Equivalence agree.
Proof.
  split; [by intros A id|by intros A B H id Hid; rewrite H|].
  intros A B C H1 H2 id Hid. by rewrite H1, H2.
Qed.

Definition accept_spec (A : store_spec) (e : Entry) : store_spec :=
  λ id, if decide (id = e_ID e) then match A id with SAbsent => SPending (Codec e) (Payload e) | st => st end else A id.

Definition token_id (token : Token) : ID := MkID (sub token 24 40) (bigEndian (sub token 40 48)).

Section abstract.
Context (hash : bytes → bytes).

Definition ack_spec (A : store_spec) (token : Token) : store_spec :=
  λ id, if decide (id = token_id token)
        then match A id with SPending codec payload => SAcknowledged (entryDigest hash codec payload) | st => st end else A id.

Definition retire_spec (A : store_spec) (r : ID) : store_spec :=
  λ id, if bool_decide (Producer id = Producer r) && (Sequence id <=? Sequence r) then SRetired else A id.

Definition apply_spec (A : store_spec) (c : mutation) : store_spec :=
  match c with
  | CommandSubmit entries => foldl accept_spec A entries
  | CommandAck tokens => foldl ack_spec A tokens
  | CommandRetire r => retire_spec A r
  end.

(** When a command may be applied: an entry is new or a retry with the same content, a token names
    accepted work, nothing pending is retired. *)
Definition may_accept (A : store_spec) (e : Entry) : Prop :=
  match A (e_ID e) with
  | SAbsent => True
  | SPending codec payload => entryDigest hash codec payload = entryDigest hash (Codec e) (Payload e)
  | SAcknowledged digest => digest = entryDigest hash (Codec e) (Payload e)
  | SRetired => False
  end.

Fixpoint along {X} (may : store_spec → X → Prop) (next : store_spec → X → store_spec) (A : store_spec) (xs : list X) : Prop :=
  match xs with
  | [] => True
  | x :: xs => may A x ∧ along may next (next A x) xs
  end.

Definition allowed (A : store_spec) (c : mutation) : Prop :=
  match c with
  | CommandSubmit entries => along may_accept accept_spec A entries
  | CommandAck tokens => along (λ A token, A (token_id token) ≠ SAbsent) ack_spec A tokens
  | CommandRetire r => ∀ id codec payload, id_ok id → Producer id = Producer r → Sequence id <= Sequence r → A id ≠ SPending codec payload
  end.

#[export] Instance accept_spec_proper : Proper (agree ==> eq ==> agree) accept_spec.
Proof. intros A B H e ? <- id Hid. unfold accept_spec. by rewrite H. Qed.
#[export] Instance ack_spec_proper : Proper (agree ==> eq ==> agree) ack_spec.
Proof. intros A B H e ? <- id Hid. unfold ack_spec. by rewrite H. Qed.
#[export] Instance retire_spec_proper : Proper (agree ==> eq ==> agree) retire_spec.
Proof. intros A B H e ? <- id Hid. unfold retire_spec. by rewrite H. Qed.

Lemma foldl_agree {X} (f : store_spec → X → store_spec) `{!Proper (agree ==> eq ==> agree) f} xs A B :
  agree A B → agree (foldl f A xs) (foldl f B xs).
Proof. revert A B. induction xs as [|x xs IH]; intros A B H; simpl; [done|]. apply IH. by rewrite H. Qed.

#[export] Instance apply_spec_proper : Proper (agree ==> eq ==> agree) apply_spec.
Proof. intros A B H c ? <-. destruct c; simpl; [apply foldl_agree..|]; [apply _|done|apply _|done|by rewrite H]. Qed.

(** A guard only looks at identities that exist. *)
Lemma along_agree {X} (may : store_spec → X → Prop) next xs A B `{!Proper (agree ==> eq ==> agree) next} :
  (∀ A B x, x ∈ xs → agree A B → may A x → may B x) → agree A B → along may next A xs → along may next B xs.
Proof.
  revert A B. induction xs as [|x xs IH]; intros A B Hmay H; simpl; [done|]. intros [Hx Hxs].
  split; [apply (Hmay A B); [by left|done..]|]. apply (IH (next A x)); [|by rewrite H|done].
  intros A' B' x' Hx'. apply Hmay. by right.
Qed.
End abstract.

(** ** Inside a transaction *)

Section tx.
Context {C : Type} `{!Connection C} (hash : bytes → bytes) (config : Config).
Abbreviation S := (session C).

(** Only the connection of [s0] has changed, and nothing is committed. *)
Definition same (s0 s : S) : Prop :=
  metadata s = metadata s0 ∧ claims s = claims s0 ∧ deliveryRetained s = deliveryRetained s0 ∧ saved (conn s) = saved (conn s0).

(** The transaction is open and sees the tables [t]. *)
Definition tx (s0 : S) (t : tables) (s : S) : Prop := same s0 s ∧ in_tx (conn s) = true ∧ view (conn s) = t.

Lemma tx_same s0 t s : tx s0 t s → same s0 s.
Proof. by intros [H _]. Qed.

Lemma ends_sql {A} (p : prog C A) (s : S) (Q : A → S → Prop) :
  ends p (conn s) (λ a c, Q a (Session c (metadata s) (claims s) (deliveryRetained s))) → ends (zoom the_conn p) s Q.
Proof. by apply (ends_zoom the_conn p s (conn s)). Qed.

Lemma ends_stmt st s0 t s (Q : option error → S → Prop) :
  tx s0 t s → (∀ s' t', run st t = Some t' → tx s0 t' s' → Q None s') → (∀ e s', same s0 s' → Q (Some e) s') → ends (exec st) s Q.
Proof.
  intros ((Hm & Hc & Hd & Hs) & Hin & Hv) Hok Hfail. apply ends_sql. eapply ends_mono; [by apply exec_law|].
  intros [e|] c (Hs' & H); simpl in *; [apply Hfail; unfold tx, same; simpl; split_and!; congruence|].
  destruct H as [Hin' Hrun]. subst t. apply (Hok _ (view c)); [done|]. unfold tx, same; simpl; split_and!; congruence.
Qed.

Lemma ends_query {A} (q : query A) s0 t s (Q : error + A → S → Prop) :
  tx s0 t s → (∀ s', tx s0 t s' → Q (inr (ask q t)) s') → (∀ e s', same s0 s' → Q (inl e) s') → ends (ask_row q) s Q.
Proof.
  intros ((Hm & Hc & Hd & Hs) & Hin & Hv) Hok Hfail. apply ends_sql. eapply ends_mono; [by apply query_law|].
  intros [e|a] c (Hs' & H); simpl in *; [apply Hfail; unfold tx, same; simpl; split_and!; congruence|].
  destruct H as (Hin' & Hv' & ->). subst t. apply Hok. unfold tx, same; simpl; split_and!; congruence.
Qed.
(** [lookupID] answers the state of the identity and the floor of its producer. *)
Definition status_of (t : tables) (id : ID) : Status :=
  match t_producers t !! Producer id with
  | None => MkStatus id Absent false 0
  | Some p => MkStatus id (kind_of (state_of t id)) (has_retirement p =? 1)
                (if has_retirement p =? 1 then bigEndian (retired_through p) else 0)
  end.

Lemma producer_floor p : producer_ok p → decodeUint64 (retired_through p) = inr (bigEndian (retired_through p)).
Proof. by intros [(_ & -> & _)|(_ & (f & _ & ->) & _)]. Qed.

Lemma lookupID_spec s0 t m s id :
  tx s0 t s → rows_ok hash t m →
  ends (lookupID id) s (λ r s', match r with inl _ => same s0 s' | inr status => tx s0 t s' ∧ status = status_of t id end).
Proof.
  intros Htx Hok. unfold lookupID, status_of, state_of. apply ends_bind. eapply ends_query; [done|..]; [|intros e s' Hs; by apply ends_ret].
  clear s Htx. intros s Htx. simpl. destruct (t_producers t !! Producer id) as [p|] eqn:Hp; [|by apply ends_ret].
  rewrite producer_floor by (by apply (ro_producer _ _ _ Hok _ _ Hp)). unfold below.
  destruct (has_retirement p =? 1) eqn:Hret; simpl.
  - destruct (Sequence id <=? bigEndian (retired_through p)); [by apply ends_ret|].
    apply ends_bind. eapply ends_query; [done|..]; [|intros e s' Hs; by apply ends_ret].
    intros s' Hs'. simpl. destruct (t_receipts t !! encodeID id) as [r|] eqn:Hr; apply ends_ret; [|done].
    destruct (r_state r =? 1); [done|]. by destruct (t_payloads t !! encodeID id).
  - apply ends_bind. eapply ends_query; [done|..]; [|intros e s' Hs; by apply ends_ret].
    intros s' Hs'. simpl. destruct (t_receipts t !! encodeID id) as [r|] eqn:Hr; apply ends_ret; [|done].
    destruct (r_state r =? 1); [done|]. by destruct (t_payloads t !! encodeID id).
Qed.

Lemma status_retired t id : Kind (status_of t id) = Retired ↔ state_of t id = SRetired.
Proof.
  unfold status_of, state_of. destruct (t_producers t !! Producer id) as [p|]; simpl; [|done].
  destruct (below p id); [done|]. destruct (t_receipts t !! encodeID id) as [r|]; [|done].
  destruct (r_state r =? 1); [done|]. by destruct (t_payloads t !! encodeID id).
Qed.

(** ** Submissions *)

(** The fixed part of the metadata. *)
Definition fixed (m : storeMetadata) : UUID * DurablePolicy * Durability * Z := (m_uuid m, m_policy m, m_durability m, m_epoch m).

(** The tables after the entries that are [fresh], in the order that starts after [o]. *)
Fixpoint insert_list (entries : list Entry) (fresh : list bool) (o : Z) (t : tables) : tables :=
  match entries, fresh with
  | e :: entries, true :: fresh => insert_list entries fresh (o + 1) (insert_entry hash e (o + 1) t)
  | e :: entries, false :: fresh => insert_list entries fresh o t
  | _, _ => t
  end.

(** Room for [n] more entries of the largest size before a count wraps around. *)
Definition room (n : nat) (m : storeMetadata) : Prop :=
  let c := m_counts m in
  PendingItems c + Z.of_nat n < 2 ^ 32 ∧ PendingPayload c + Z.of_nat n * maxPayload < 2 ^ 64 ∧
  Receipts c + Z.of_nat n < 2 ^ 32 ∧ Producers c + Z.of_nat n < 2 ^ 32.

(** The tables [tr] that the loop has accounted for, when [t] are the stored ones. *)
Record running (t : tables) (producers : list bytes) (entries : list Entry) (tr : tables) (m : storeMetadata) : Prop := {
  rn_rows : rows_ok hash tr m;
  rn_meta : t_meta tr = t_meta t;
  rn_room : room (length entries) m;
  rn_entries : Forall (entry_ok (m_policy m)) entries;
  rn_distinct : NoDup (e_ID <$> entries);
  rn_receipts e : e ∈ entries → t_receipts tr !! encodeID (e_ID e) = t_receipts t !! encodeID (e_ID e);
  rn_known p row : t_producers t !! p = Some row → t_producers tr !! p = Some row;
  rn_unknown p : t_producers t !! p = None →
    t_producers tr !! p = if decide (p ∈ producers) then Some (ProducerRow 0 (encodeUint64 0) 0) else None;
}.

Lemma running_retired t producers entries tr m e :
  running t producers entries tr m → e ∈ entries → state_of tr (e_ID e) = SRetired ↔ state_of t (e_ID e) = SRetired.
Proof.
  intros Hrun He. unfold state_of. rewrite (rn_receipts _ _ _ _ _ Hrun e He).
  destruct (t_producers t !! Producer (e_ID e)) as [p|] eqn:Hp.
  - rewrite (rn_known _ _ _ _ _ Hrun _ _ Hp). destruct (below p (e_ID e)); [done|].
    destruct (t_receipts t !! _) as [r|]; [|done]. destruct (r_state r =? 1); [done|].
    by destruct (t_payloads tr !! _), (t_payloads t !! _).
  - rewrite (rn_unknown _ _ _ _ _ Hrun _ Hp). destruct (decide _) as [Hin|]; [|done]. simpl.
    destruct (t_receipts t !! _) as [r|]; [|done]. destruct (r_state r =? 1); [done|]. by destruct (t_payloads tr !! _).
Qed.

Lemma running_skip t producers e entries tr m : running t producers (e :: entries) tr m → running t producers entries tr m.
Proof.
  intros [H1 Hmeta (Hr1 & Hr2 & Hr3 & Hr4) H3 H4 H5 H6 H7]. split; [done|done| | | | |done..].
  - unfold room in *. cbn [length] in *. unfold maxPayload in *. change (Z.shiftl 16 10) with 16384 in *. lia.
  - by inversion H3.
  - by inversion H4.
  - intros e' He'. apply H5. by right.
Qed.
(** The metadata of the loop after a fresh entry. *)
Definition count_fresh (e : Entry) (known : bool) (m : storeMetadata) : storeMetadata :=
  let c := m_counts m in
  with_counts (with_pending (PendingItems c +32 1) (PendingPayload c +64 len (Payload e)) (Receipts c +32 1)
    (if known then Producers c else Producers c +32 1) c) (with_order (m_lastOrder m +64 1) m).

Definition known_producer (t : tables) (producers : list bytes) (e : Entry) : bool :=
  bool_decide (is_Some (t_producers t !! Producer (e_ID e))) || existsb (λ p, bool_decide (p = Producer (e_ID e))) producers.

Lemma running_known t producers entries tr m e :
  running t producers entries tr m → known_producer t producers e = bool_decide (is_Some (t_producers tr !! Producer (e_ID e))).
Proof.
  intros Hrun. unfold known_producer. destruct (t_producers t !! Producer (e_ID e)) as [p|] eqn:Hp.
  - by rewrite (rn_known _ _ _ _ _ Hrun _ _ Hp).
  - rewrite (rn_unknown _ _ _ _ _ Hrun _ Hp). simpl. apply eq_bool_prop_intro.
    rewrite bool_decide_spec, Is_true_true, existsb_exists. split.
    + intros (x & Hx & He). apply bool_decide_eq_true in He as ->. rewrite decide_True; [eauto|by apply list_elem_of_In].
    + intros [row Hrow]. destruct (decide _) as [Hin|]; [|done]. exists (Producer (e_ID e)).
      split; [by apply list_elem_of_In|by apply bool_decide_eq_true].
Qed.

Lemma count_fresh_eq t producers e entries tr m :
  running t producers (e :: entries) tr m → m_lastOrder m < 2 ^ 64 - 1 →
  count_fresh e (known_producer t producers e) m = count_entry tr e m.
Proof.
  intros Hrun Hlast. rewrite (running_known _ _ _ _ _ e Hrun). unfold count_fresh, count_entry, with_counts, with_order, with_pending.
  pose proof (rn_room _ _ _ _ _ Hrun) as (H1 & H2 & H3 & H4). pose proof (counts_range _ _ _ (rn_rows _ _ _ _ _ Hrun)) as Hr.
  pose proof (ro_order _ _ _ (rn_rows _ _ _ _ _ Hrun)).
  pose proof (policy_ok _ (proj1 (ro_policy _ _ _ (rn_rows _ _ _ _ _ Hrun)))) as (_ & Hmax & _).
  pose proof (Forall_inv (rn_entries _ _ _ _ _ Hrun)) as (_ & _ & Hlen). cbn [length] in *.
  unfold maxPayload in *. change (Z.shiftl 16 10) with 16384 in *. assert (0 <= len (Payload e)) by (unfold len; lia).
  cbn [m_uuid m_policy m_durability m_epoch m_lastOrder m_counts RetiredProducers CleanupMarkers].
  rewrite !u32_small, !u64_small by (unfold is_u32, is_u64; lia).
  destruct (t_producers tr !! _); simpl; [by rewrite Z.add_0_r|done].
Qed.

Lemma running_accept t producers e entries tr m :
  (∀ input, length (hash input) = 32%nat) →
  running t producers (e :: entries) tr m → m_lastOrder m < 2 ^ 64 - 1 → t_receipts t !! encodeID (e_ID e) = None →
  state_of t (e_ID e) ≠ SRetired →
  running t (if known_producer t producers e then producers else producers ++ [Producer (e_ID e)]) entries
    (insert_entry hash e (m_lastOrder m + 1) tr) (count_entry tr e m).
Proof.
  intros Hhash Hrun Hlast Hnew Hst. pose proof (rn_rows _ _ _ _ _ Hrun) as Hrows.
  pose proof (policy_ok _ (proj1 (ro_policy _ _ _ Hrows))) as (_ & Hmax & _).
  pose proof (rn_entries _ _ _ _ _ Hrun) as HF. apply Forall_cons in HF as [He HF].
  pose proof (rn_distinct _ _ _ _ _ Hrun) as HN. rewrite fmap_cons in HN. apply NoDup_cons in HN as [Hnin HN].
  assert (t_receipts tr !! encodeID (e_ID e) = None) as Hnew' by (rewrite (rn_receipts _ _ _ _ _ Hrun e); [done|by left]).
  assert (state_of tr (e_ID e) ≠ SRetired) as Hst' by (rewrite running_retired; [done|done|by left]).
  pose proof (running_known _ _ _ _ _ e Hrun) as Hk.
  split; [by apply accept_ok|by rewrite <- (rn_meta _ _ _ _ _ Hrun)| |done|done|..].
  - pose proof (rn_room _ _ _ _ _ Hrun) as (H1 & H2 & H3 & H4). destruct He as (_ & _ & He). unfold room, count_entry in *.
    cbn [m_counts PendingItems PendingPayload Receipts Producers length] in *.
    unfold maxPayload in *. change (Z.shiftl 16 10) with 16384 in *. destruct (t_producers tr !! _); lia.
  - intros e' He'. cbn [insert_entry t_receipts]. rewrite lookup_insert_ne; [apply (rn_receipts _ _ _ _ _ Hrun); by right|].
    intros Heq. apply encodeID_inj in Heq; [|apply He|by apply (proj1 (Forall_forall _ _) HF _ He')].
    apply Hnin. rewrite Heq. by apply list_elem_of_fmap_2.
  - intros p row Hp. apply producer_after. by apply (rn_known _ _ _ _ _ Hrun).
  - intros p Hp. pose proof (rn_unknown _ _ _ _ _ Hrun p Hp) as Htr. rewrite Hk. cbn [insert_entry t_producers].
    destruct (t_producers tr !! Producer (e_ID e)) as [row|] eqn:Hrow; simpl; [done|].
    destruct (decide (p = Producer (e_ID e))) as [->|Hne].
    + rewrite lookup_insert_eq, decide_True by set_solver. done.
    + rewrite lookup_insert_ne, Htr by done. apply decide_ext. set_solver.
Qed.
(** The errors that reject a command. *)
Definition rejections : list error := [ErrRetired; ErrConflict; ErrExhausted; ErrCapacity; ErrStaleToken].

(** A failed command: a storage failure, or a rejection that changed nothing. *)
Definition refused (s0 : S) (t : tables) (err : error) (s : S) : Prop :=
  same s0 s ∧ (errors_Is err ErrStorage = true ∨ (tx s0 t s ∧ err ∈ rejections)).

Lemma refused_storage s0 t err s : same s0 s → refused s0 t (Join ErrStorage err) s.
Proof. intros Hs. split; [done|]. left. by apply errors_Is_join_l. Qed.

Lemma refused_rejection s0 t err s : tx s0 t s → err ∈ rejections → refused s0 t err s.
Proof. intros Hs He. split; [by eapply tx_same|]. by right. Qed.

Definition trues (flags : list bool) : Z := len (filter (λ b, b = true) flags).

(** The state of an identity without a receipt, and with one. *)
Lemma state_absent t id : t_receipts t !! encodeID id = None → state_of t id ≠ SRetired → state_of t id = SAbsent.
Proof. unfold state_of. intros ->. destruct (t_producers t !! _) as [p|]; [|done]. by destruct (below p id). Qed.

Lemma state_known t m id r :
  rows_ok hash t m → id_ok id → t_receipts t !! encodeID id = Some r → state_of t id ≠ SRetired →
  (state_of t id = SAcknowledged (r_digest r) ∧ r_state r = 1) ∨
  (∃ codec payload, state_of t id = SPending codec payload ∧ entryDigest hash codec payload = r_digest r ∧ r_state r = 0).
Proof.
  intros Hok Hid Hr. destruct (ro_receipt _ _ _ Hok _ _ Hr) as (id' & p & Hid' & He & Hp & _ & _ & Hst).
  apply encodeID_inj in He as <-; [|done..]. unfold state_of. rewrite Hp, Hr. destruct (below p id); [done|]. intros _.
  destruct Hst as [(H0 & _ & _ & row & Hrow & Hd & _)|(H1 & _)]; [right|by left; rewrite H1].
  rewrite H0, Hrow. simpl. eauto.
Qed.

Lemma along_submit entries A B m :
  Forall (entry_ok (m_policy m)) entries → agree A B →
  along (may_accept hash) accept_spec A entries → along (may_accept hash) accept_spec B entries.
Proof.
  intros HF. apply along_agree; [apply _|]. intros A' B' e He Hab. unfold may_accept. rewrite Hab; [done|].
  by apply (proj1 (Forall_forall _ _) HF _ He).
Qed.

Section submit.
Context (s0 : S) (t : tables) (m0 : storeMetadata) (stored : rows_ok hash t m0)
  (hash_length : ∀ input, length (hash input) = 32%nat).

(** What the loop of [validateStoredSubmit] returns. *)
Definition validated (entries : list Entry) (tr : tables) (m : storeMetadata) (fresh fresh' : list bool) (m' : storeMetadata) : Prop :=
  ∃ flags, fresh' = fresh ++ flags ∧ length flags = length entries ∧ fixed m' = fixed m ∧
    m_lastOrder m' = m_lastOrder m + trues flags ∧
    rows_ok hash (insert_list entries flags (m_lastOrder m) tr) m' ∧
    t_meta (insert_list entries flags (m_lastOrder m) tr) = t_meta t ∧
    along (may_accept hash) accept_spec (state_of tr) entries ∧
    agree (state_of (insert_list entries flags (m_lastOrder m) tr)) (foldl accept_spec (state_of tr) entries).

Lemma validated_retry producers e entries tr m fresh fresh' m' :
  running t producers (e :: entries) tr m → may_accept hash (state_of tr) e → state_of tr (e_ID e) ≠ SAbsent →
  validated entries tr m (fresh ++ [false]) fresh' m' → validated (e :: entries) tr m fresh fresh' m'.
Proof.
  intros Hrun Hmay Hst (flags & -> & Hl & Hf & Ho & Hr & Hm & Hal & Hag). exists (false :: flags).
  pose proof (rn_entries _ _ _ _ _ Hrun) as HF. apply Forall_cons in HF as [He HF].
  assert (agree (state_of tr) (accept_spec (state_of tr) e)) as Hsame.
  { intros id _. unfold accept_spec. destruct (decide _) as [->|]; [|done]. by destruct (state_of tr (e_ID e)). }
  split; [by rewrite <- app_assoc|]. split; [simpl; lia|]. split; [done|]. split; [done|]. split; [done|]. split; [done|].
  split; [split; [done|]; by eapply along_submit|]. simpl. rewrite Hag. by apply foldl_agree; [apply _|].
Qed.

Lemma validated_fresh producers e entries tr m fresh fresh' m' :
  running t producers (e :: entries) tr m → t_receipts t !! encodeID (e_ID e) = None → state_of t (e_ID e) ≠ SRetired →
  validated entries (insert_entry hash e (m_lastOrder m + 1) tr) (count_entry tr e m) (fresh ++ [true]) fresh' m' →
  validated (e :: entries) tr m fresh fresh' m'.
Proof.
  intros Hrun Hnew Hst (flags & -> & Hl & Hf & Ho & Hr & Hm & Hal & Hag). exists (true :: flags).
  pose proof (rn_entries _ _ _ _ _ Hrun) as HF. apply Forall_cons in HF as [He HF].
  assert (t_receipts tr !! encodeID (e_ID e) = None) as Hnew' by (rewrite (rn_receipts _ _ _ _ _ Hrun e); [done|by left]).
  assert (state_of tr (e_ID e) ≠ SRetired) as Hst' by (rewrite running_retired; [done|done|by left]).
  pose proof (state_absent tr (e_ID e) Hnew' Hst') as Habs.
  assert (agree (state_of (insert_entry hash e (m_lastOrder m + 1) tr)) (accept_spec (state_of tr) e)) as Hstep.
  { intros id Hid. rewrite (accept_state hash tr m); [|apply Hrun|done|apply He|done..]. unfold accept_spec.
    destruct (decide _) as [->|]; [by rewrite Habs|done]. }
  split; [by rewrite <- app_assoc|]. split; [simpl; lia|]. split; [done|].
  split; [unfold trues, len in *; simpl in *; lia|]. split; [done|]. split; [done|].
  split; [split; [unfold may_accept; by rewrite Habs|]; by eapply along_submit|].
  simpl. rewrite Hag. by apply foldl_agree; [apply _|].
Qed.

Lemma validateStoredLoop_spec entries : ∀ s tr m producers fresh,
  tx s0 t s → running t producers entries tr m →
  ends (validateStoredLoop hash entries producers fresh m) s (λ r s',
    match r with
    | inl err => refused s0 t err s'
    | inr (m', fresh') => tx s0 t s' ∧ validated entries tr m fresh fresh' m'
    end).
Proof.
  induction entries as [|e entries IH]; intros s tr m producers fresh Htx Hrun; cbn [validateStoredLoop].
  { apply ends_ret. split; [done|]. exists []. simpl. rewrite app_nil_r, Z.add_0_r.
    split_and!; [done..|apply Hrun|apply Hrun|done|done]. }
  apply ends_bind. eapply ends_mono; [by apply (lookupID_spec s0 t m0)|]. clear s Htx.
  intros [err|status] s; [intros Hs; apply ends_ret; by apply refused_storage|]. intros [Htx ->].
  case_bool_decide as Hret; [apply ends_ret, refused_rejection; [done|set_solver]|]. rewrite status_retired in Hret.
  apply ends_bind. eapply ends_query; [done|..]; [|intros e' s' Hs; apply ends_ret; by apply refused_storage].
  clear s Htx. intros s Htx. simpl ask. destruct (t_receipts t !! encodeID (e_ID e)) as [row|] eqn:Hrow.
  - case_bool_decide as Hd; cbn [negb]; [|apply ends_ret, refused_rejection; [done|set_solver]].
    eapply ends_mono; [eapply IH; [done|by eapply running_skip]|]. intros [err|[m' fresh']] s'; [done|].
    intros [Htx' Hv]. split; [done|].
    assert (t_receipts tr !! encodeID (e_ID e) = Some row) as Hrow' by (rewrite (rn_receipts _ _ _ _ _ Hrun e); [done|by left]).
    assert (state_of tr (e_ID e) ≠ SRetired) as Hst' by (rewrite running_retired; [done|done|by left]).
    pose proof (Forall_inv (rn_entries _ _ _ _ _ Hrun)) as He.
    destruct (state_known tr m (e_ID e) row) as [[Hst _]|(c & pl & Hst & Hdig & _)]; [apply Hrun|apply He|done|done|..];
      (eapply validated_retry; [done|unfold may_accept; rewrite Hst; congruence|congruence|done]).
  - unfold nextIdentity. destruct (Z.eqb_spec (m_lastOrder m) maxUint64) as [Hmax|Hmax];
      [apply ends_ret, refused_rejection; [done|set_solver]|].
    pose proof (ro_order _ _ _ (rn_rows _ _ _ _ _ Hrun)) as Ho. unfold maxUint64 in Hmax.
    apply ends_bind. eapply ends_query; [done|..]; [|intros e' s' Hs; apply ends_ret; by apply refused_storage].
    clear s Htx. intros s Htx. simpl ask. cbv zeta. fold (known_producer t producers e).
    pose proof (count_fresh_eq t producers e entries tr m Hrun ltac:(lia)) as Hcount. unfold count_fresh in Hcount. cbv zeta in Hcount.
    rewrite Hcount. eapply ends_mono; [apply IH; [done|]; by apply running_accept; [..|lia| |]|].
    intros [err|[m' fresh']] s'; [done|]. intros [Htx' Hv]. split; [done|]. by eapply validated_fresh.
Qed.
Lemma validateStoredSubmit_spec entries s :
  tx s0 t s → running t [] entries t m0 →
  ends (validateStoredSubmit hash entries m0) s (λ r s',
    match r with
    | inl err => refused s0 t err s'
    | inr (m', fresh) => tx s0 t s' ∧ validated entries t m0 [] fresh m' ∧ limits_ok m'
    end).
Proof.
  intros Htx Hrun. unfold validateStoredSubmit. apply ends_bind. eapply ends_mono; [by apply validateStoredLoop_spec|].
  intros [err|[m' fresh]] s'; [intros Hr; by apply ends_ret|]. intros [Htx' Hv]. cbv zeta.
  match goal with |- context [if ?b then _ else _] => destruct b eqn:Hcap end; apply ends_ret;
    [apply refused_rejection; [done|set_solver]|].
  split; [done|]. split; [done|]. unfold limits_ok. rewrite !orb_false_iff, !Z.ltb_ge in Hcap. lia.
Qed.
End submit.

Lemma insertEntry_spec s0 t s e o :
  tx s0 t s → ends (insertEntry hash e o) s (λ err s', if err then same s0 s' else tx s0 (insert_entry hash e o t) s').
Proof.
  intros Htx. unfold insertEntry. apply ends_bind. eapply ends_stmt; [done|..]; [|intros e' s' Hs; by apply ends_ret].
  clear s Htx. intros s t1 H1 Htx. apply ends_bind. eapply ends_stmt; [done|..]; [|intros e' s' Hs; by apply ends_ret].
  clear s Htx. intros s t2 H2 Htx. eapply ends_stmt; [done|..]; [|done].
  clear s Htx. intros s t3 H3 Htx. simpl in H1, H2, H3.
  assert (t3 = insert_entry hash e o t) as <-; [|done]. unfold insert_entry. revert H1 H2 H3.
  destruct (t_producers t !! Producer (e_ID e)); intros [= <-]; simpl; (case_match; [done|]); intros [= <-]; simpl;
    (case_match; [done|]); by intros [= <-].
Qed.

Lemma insertFresh_spec s0 entries : ∀ pre flags t s last,
  tx s0 t s → length flags = length entries → 0 <= last - trues flags → last < 2 ^ 64 →
  ends (insertFresh hash entries (pre ++ flags) (length pre) last) s (λ err s',
    if err then same s0 s' else tx s0 (insert_list entries flags (last - trues flags) t) s').
Proof.
  induction entries as [|e entries IH]; intros pre flags t s last Htx Hl Hge Hlt; cbn [insertFresh].
  { destruct flags; [|done]. by apply ends_ret. }
  destruct flags as [|b flags]; [done|]. rewrite list_lookup_middle by done. cbn [default].
  assert (pre ++ b :: flags = (pre ++ [b]) ++ flags) as Happ by (by rewrite <- app_assoc).
  assert (Datatypes.S (length pre) = length (pre ++ [b])) as Hpre by (rewrite length_app; simpl; lia).
  simpl in Hl. apply ends_bind. destruct b.
  - assert (last -64 countFreshAfter (pre ++ true :: flags) (length pre) = last - trues (true :: flags) + 1) as ->.
    { unfold countFreshAfter. rewrite Happ, Hpre, drop_app_length. fold (trues flags).
      unfold trues, len in *. simpl in *. rewrite u64_small by (unfold is_u64; lia). lia. }
    eapply ends_mono; [by apply insertEntry_spec|]. intros [err|] s' Hs'; [by apply ends_ret|].
    rewrite Happ, Hpre. eapply ends_mono; [apply IH; [done|lia|..]; unfold trues, len in *; simpl in *; lia|].
    intros [err|] s'' Hs''; [done|]. simpl. replace (last - trues (true :: flags) + 1) with (last - trues flags) in *; [done|].
    unfold trues, len. simpl. lia.
  - apply ends_ret. rewrite Happ, Hpre. eapply ends_mono; [apply IH; [done|lia|done|done]|]. intros [err|] s'' Hs''; done.
Qed.
(** What a command does inside its transaction. *)
Definition applied (s0 : S) (t : tables) (c : mutation) (m : storeMetadata) (r : error + storeMetadata) (s : S) : Prop :=
  match r with
  | inl err => refused s0 t err s
  | inr m' => ∃ t', tx s0 t' s ∧ rows_ok hash t' m' ∧ limits_ok m' ∧ fixed m' = fixed m ∧ t_meta t' = t_meta t ∧
      allowed hash (state_of t) c ∧ agree (state_of t') (apply_spec hash (state_of t) c)
  end.

Lemma submit_applied s0 t m entries s :
  (∀ input, length (hash input) = 32%nat) → tx s0 t s → rows_ok hash t m → limits_ok m →
  Forall (entry_ok (m_policy m)) entries → NoDup (e_ID <$> entries) → len entries <= 256 →
  ends (applyCommand hash (CommandSubmit entries) m) s (applied s0 t (CommandSubmit entries) m).
Proof.
  intros Hhash Htx Hok Hlim HF HN Hlen. cbn [applyCommand]. apply ends_bind.
  eapply ends_mono; [apply validateStoredSubmit_spec; [done..|]|].
  { split; [done|done| |done|done|done|done|intros p Hp; by rewrite decide_False by set_solver].
    pose proof (policy_ok _ (proj1 (ro_policy _ _ _ Hok))). unfold room, limits_ok, len, maxPayload in *.
    change (Z.shiftl 16 10) with 16384. lia. }
  intros [err|[m' fresh]] s'; [intros Hr; by apply ends_ret|].
  intros (Htx' & (flags & Hfl & Hl & Hfix & Ho & Hr & Hmeta & Hal & Hag) & Hlim'). simpl in Hfl. subst fresh.
  pose proof (ro_order _ _ _ Hr). pose proof (ro_order _ _ _ Hok). apply ends_bind.
  eapply ends_mono; [apply (insertFresh_spec s0 entries [] flags t); [done|done|lia|lia]|].
  intros [err|] s'' Hs''; apply ends_ret; [by apply refused_storage|].
  replace (m_lastOrder m' - trues flags) with (m_lastOrder m) in Hs'' by lia. by eexists.
Qed.

(** ** Statements in a row *)

Definition run_all (sts : list stmt) (t : tables) : option tables := foldl (λ t st, t ≫= run st) (Some t) sts.

Lemma run_all_cons st sts t : run_all (st :: sts) t = run st t ≫= run_all sts.
Proof.
  unfold run_all. simpl. destruct (run st t) as [t'|]; [done|]. simpl. by induction sts as [|st' sts IH].
Qed.

Lemma execAll_spec s0 sts : ∀ t s,
  tx s0 t s → ends (execAll sts) s (λ err s', if err then same s0 s' else ∃ t', run_all sts t = Some t' ∧ tx s0 t' s').
Proof.
  induction sts as [|st sts IH]; intros t s Htx; cbn [execAll]; [apply ends_ret; by exists t|].
  apply ends_bind. eapply ends_stmt; [done|..]; [|intros e s' Hs; by apply ends_ret].
  intros s' t' Hrun Htx'. eapply ends_mono; [by apply (IH t')|]. intros [e|] s'' Hs''; [done|].
  by rewrite run_all_cons, Hrun.
Qed.

(** ** Acknowledgements *)

Definition ack_all (tokens : list Token) (t : tables) : tables := foldl (λ t token, ack_rows token (sub token 24 48) t) t tokens.

Lemma run_ack tokens : ∀ t,
  run_all (concat ((λ token : Token, [AckReceipt token (sub token 24 48); DeletePayload (sub token 24 48)]) <$> tokens)) t =
    Some (ack_all tokens t).
Proof.
  induction tokens as [|token tokens IH]; intros t; [done|]. rewrite fmap_cons. cbn [concat app].
  rewrite !run_all_cons. apply IH.
Qed.

(** A token of this session that is current, or the one that completed its receipt. *)
Definition ackable (m : storeMetadata) (t : tables) (cs : list claim) (token : Token) : Prop :=
  sub token 0 16 = m_uuid m ∧ bigEndian (sub token 16 24) = m_epoch m ∧ bigEndian (sub token 48 56) ≠ 0 ∧
  ∃ r, t_receipts t !!' sub token 24 48 = Some r ∧
    if r_state r =? 1 then ack_token r = Some token else is_Some (current_claim (token_id token) token cs).

(** An identity has at most one such token. *)
Lemma ackable_unique m t cs token token' :
  is_bytes 56 token → is_bytes 56 token' → ackable m t cs token → ackable m t cs token' →
  sub token 24 48 = sub token' 24 48 → token = token'.
Proof.
  intros Hb Hb' (_ & _ & _ & r & Hr & Ha) (_ & _ & _ & r' & Hr' & Ha') Heq.
  assert (token_id token = token_id token') as Hid.
  { destruct (token_rebuild token Hb) as (_ & Hd & _). destruct (token_rebuild token' Hb') as (_ & Hd' & _).
    unfold token_id. congruence. }
  assert (r' = r) as -> by congruence. destruct (r_state r =? 1); [congruence|].
  rewrite Hid in Ha. destruct Ha as [i Ha], Ha' as [j Ha']. unfold current_claim in *.
  destruct (find_claim (token_id token') cs 0) as [k|]; [|done]. destruct (cs !! k) as [c|]; [|done].
  destruct (acquired c); cbn [negb orb] in *; [|done].
  case_bool_decide; cbn [negb] in *; [|done]. by case_bool_decide; [congruence|].
Qed.

(** The counts after the acknowledgements. *)
Fixpoint ack_counts (t : tables) (tokens : list Token) (c : StoreCounts) : option StoreCounts :=
  match tokens with
  | [] => Some c
  | token :: tokens =>
      match t_receipts t !!' sub token 24 48, t_payloads t !!' sub token 24 48 with
      | Some r, row =>
          if r_state r =? 1 then ack_counts t tokens c
          else match row with
               | Some p =>
                   if (payload_length p <? 0) || (PendingItems c =? 0) || (PendingPayload c <? payload_length p) then None
                   else ack_counts t tokens (Counts (PendingItems c -32 1) (PendingPayload c -64 payload_length p) (Receipts c)
                          (Producers c) (RetiredProducers c) (CleanupMarkers c))
               | None => None
               end
      | None, _ => None
      end
  end.

Lemma validateAck_spec s0 t m tokens : ∀ s c,
  tx s0 t s → fixed (metadata s0) = fixed m → Forall (is_bytes 56) tokens →
  ends (validateAck tokens c) s (λ r s',
    match r with
    | inl err => refused s0 t err s'
    | inr c' => tx s0 t s' ∧ Forall (ackable m t (claims s0)) tokens ∧ ack_counts t tokens c = Some c'
    end).
Proof.
  induction tokens as [|token tokens IH]; intros s c Htx Hfix HF; cbn [validateAck].
  { apply ends_ret. split_and!; [done|by constructor|done]. }
  apply Forall_cons in HF as [Hb HF]. destruct (token_rebuild token Hb) as (_ & Hd & _).
  pose proof Htx as ((Hm & Hcl & _) & _). pose proof Hfix as Hfix'. unfold fixed in Hfix'. injection Hfix' as Hu _ _ He.
  apply ends_bind. unfold tokenID. apply ends_bind, ends_load. rewrite Hm, Hu, He.
  match goal with |- context [if ?b then _ else _] => destruct b eqn:Hb0 end;
    apply ends_ret; [apply ends_ret, refused_rejection; [done|set_solver]|].
  rewrite !orb_false_iff, !negb_false_iff, bool_decide_eq_true, Z.eqb_eq, Z.eqb_neq in Hb0. destruct Hb0 as ((H1 & H2) & H3).
  rewrite Hd. apply ends_bind. eapply ends_query; [done|..]; [|intros e s' Hs; apply ends_ret; by apply refused_storage].
  clear s Htx Hm Hcl. intros s Htx. change (ask (SelectReceipt (sub token 24 48)) t) with (t_receipts t !!' sub token 24 48).
  cbn [ack_counts].
  destruct (t_receipts t !!' sub token 24 48) as [r|] eqn:Hr; [|apply ends_ret, refused_rejection; [done|set_solver]].
  destruct (r_state r =? 1) eqn:Hst.
  - case_bool_decide as Htok; cbn [negb]; [|apply ends_ret, refused_rejection; [done|set_solver]].
    eapply ends_mono; [by apply IH|]. intros [err|c'] s'; [done|]. intros (Htx' & HF' & Hc). split; [done|]. split; [|done].
    constructor; [|done]. split_and!; [done..|]. exists r. rewrite Hst. split; [done|].
    destruct (ack_token r) as [tok|]; simpl in Htok; [by rewrite Htok|]. subst token. by destruct Hb.
  - apply ends_bind, ends_load. pose proof Htx as ((_ & -> & _) & _). fold (token_id token).
    case_bool_decide as Hcur; cbn [negb]; [|apply ends_ret, refused_rejection; [done|set_solver]].
    apply ends_bind. eapply ends_query; [done|..]; [|intros e s' Hs; apply ends_ret; by apply refused_storage].
    clear s Htx. intros s Htx. change (ask (SelectPayload (sub token 24 48)) t) with (t_payloads t !!' sub token 24 48).
    destruct (t_payloads t !!' sub token 24 48) as [p|]; [|apply ends_ret; eapply refused_storage, tx_same, Htx].
    cbv zeta. match goal with |- context [if ?b then _ else _] => destruct b eqn:Hbad end.
    { apply ends_ret. split; [by eapply tx_same|by left]. }
    eapply ends_mono; [by apply IH|]. intros [err|c'] s'; [done|]. intros (Htx' & HF' & Hc). split; [done|]. split; [|done].
    constructor; [|done]. split_and!; [done..|]. exists r. by rewrite Hst.
Qed.
(** One acknowledgement. *)
Lemma ack_step tr m cs token r :
  is_bytes 56 token → ackable m tr cs token → rows_ok hash tr m → 1 <= m_epoch m → t_receipts tr !!' sub token 24 48 = Some r →
  state_of tr (token_id token) ≠ SAbsent ∧
  agree (state_of (ack_rows token (sub token 24 48) tr)) (ack_spec hash (state_of tr) token) ∧
  if r_state r =? 1 then ack_rows token (sub token 24 48) tr = tr
  else ∃ row, t_payloads tr !!' sub token 24 48 = Some row ∧
    rows_ok hash (ack_rows token (sub token 24 48) tr) (count_ack (payload_length row) m).
Proof.
  intros Hb (Hu & He & Hat & _) Hok Hep Hr. destruct (token_rebuild token Hb) as (Htok & Hd & Hid). fold (token_id token) in Htok, Hd, Hid.
  assert (sub token 24 48 = encodeID (token_id token)) as Hkey.
  { unfold encodeID, token_id. cbn [Producer Sequence]. rewrite put_bigEndian; [by apply sub_split|].
    apply (sub_bytes 56 token 40 48); [done|lia..]. }
  rewrite Hkey in *. destruct (ro_receipt _ _ _ Hok _ _ Hr) as (id' & p & Hid' & Heq & Hp & _ & _ & Hst).
  apply encodeID_inj in Heq as <-; [|done..]. destruct Hst as [(H0 & _ & Hbelow & row & Hrow & Hdig & _)|(H1 & _ & _)].
  - assert (state_of tr (token_id token) = SPending (p_codec row) (p_payload row)) as Hs.
    { unfold state_of. by rewrite Hp, Hbelow, Hr, H0, Hrow. }
    rewrite Hs, H0. split; [done|]. split.
    + intros id Hok'. rewrite (ack_state hash tr m _ r) by done. unfold ack_spec. destruct (decide _) as [->|]; [|done].
      by rewrite Hs, Hdig.
    + exists row. split; [done|]. rewrite Htok at 1. rewrite Hu, He. apply (ack_ok hash tr m _ r row); [done..|].
      pose proof (bigEndian_range (sub token 48 56) (sub_bytes 56 token 48 56 Hb ltac:(lia) ltac:(lia))) as Hr8.
      unfold is_u64 in Hr8. lia.
  - rewrite H1. cbn [Z.eqb Pos.eqb]. pose proof (ack_again hash tr m token _ r Hok Hr H1) as ->.
    assert (state_of tr (token_id token) = if below p (token_id token) then SRetired else SAcknowledged (r_digest r)) as Hs.
    { unfold state_of. by rewrite Hp, Hr, H1. }
    rewrite Hs. split; [by destruct (below p _)|]. split; [|done]. intros id _. unfold ack_spec.
    destruct (decide _) as [->|]; [|done]. rewrite Hs. by destruct (below p _).
Qed.

Lemma ack_rows_other token key key' t :
  key ≠ key' → t_receipts (ack_rows token key t) !! key' = t_receipts t !! key' ∧
  t_payloads (ack_rows token key t) !! key' = t_payloads t !! key'.
Proof. intros Hne. simpl. by rewrite lookup_alter_ne, lookup_delete_ne. Qed.

Lemma along_ack tokens A B :
  Forall (is_bytes 56) tokens → agree A B →
  along (λ A token, A (token_id token) ≠ SAbsent) (ack_spec hash) A tokens →
  along (λ A token, A (token_id token) ≠ SAbsent) (ack_spec hash) B tokens.
Proof.
  intros HF. apply along_agree; [apply _|]. intros A' B' token Hin Hab. rewrite Hab; [done|].
  apply (token_rebuild token). by apply (proj1 (Forall_forall _ _) HF).
Qed.

Lemma ack_all_ok t cs m0 tokens : ∀ tr m c',
  Forall (is_bytes 56) tokens → NoDup tokens → Forall (ackable m0 t cs) tokens → ack_counts t tokens (m_counts m) = Some c' →
  (∀ token, token ∈ tokens → t_receipts tr !!' sub token 24 48 = t_receipts t !!' sub token 24 48 ∧
    t_payloads tr !!' sub token 24 48 = t_payloads t !!' sub token 24 48) →
  rows_ok hash tr m → limits_ok m → fixed m = fixed m0 → 1 <= m_epoch m →
  rows_ok hash (ack_all tokens tr) (with_counts c' m) ∧ limits_ok (with_counts c' m) ∧
  along (λ A token, A (token_id token) ≠ SAbsent) (ack_spec hash) (state_of tr) tokens ∧
  agree (state_of (ack_all tokens tr)) (foldl (ack_spec hash) (state_of tr) tokens).
Proof.
  induction tokens as [|token tokens IH]; intros tr m c' HF HN Hack Hc Hsame Hok Hlim Hfix Hep; cbn [ack_counts] in Hc.
  { injection Hc as <-. replace (with_counts (m_counts m) m) with m by (by destruct m). by split_and!. }
  apply Forall_cons in HF as [Hb HF]. apply NoDup_cons in HN as [Hnin HN]. apply Forall_cons in Hack as [Ha Hack].
  destruct (Hsame token) as [Hsr Hsp]; [by left|].
  assert (ackable m tr cs token) as Ha'.
  { unfold fixed in Hfix. injection Hfix as Hu _ _ He. destruct Ha as (H1 & H2 & H3 & H4). unfold ackable.
    rewrite Hsr, Hu, He. by split_and!. }
  destruct (t_receipts t !!' sub token 24 48) as [r|] eqn:Hr; [|done].
  destruct (ack_step tr m cs token r Hb Ha' Hok Hep Hsr) as (Hst & Hag & Hstep).
  assert (∀ token', token' ∈ tokens → sub token 24 48 ≠ sub token' 24 48) as Hne.
  { intros token' Hin Heq. apply Hnin. replace token with token'; [done|]. symmetry.
    eapply (ackable_unique m0 t cs); [done|by apply (proj1 (Forall_forall _ _) HF)|done|by apply (proj1 (Forall_forall _ _) Hack)|done]. }
  assert (∀ token', token' ∈ tokens → t_receipts (ack_rows token (sub token 24 48) tr) !!' sub token' 24 48 = t_receipts t !!' sub token' 24 48 ∧
    t_payloads (ack_rows token (sub token 24 48) tr) !!' sub token' 24 48 = t_payloads t !!' sub token' 24 48) as Hsame'.
  { intros token' Hin. destruct (ack_rows_other token _ _ tr (Hne token' Hin)) as [-> ->]. apply Hsame. by right. }
  assert (∃ m', fixed m' = fixed m ∧ m_lastOrder m' = m_lastOrder m ∧ rows_ok hash (ack_rows token (sub token 24 48) tr) m' ∧
    limits_ok m' ∧ ack_counts t tokens (m_counts m') = Some c') as (m' & Hf & Hlo & Hok' & Hlim' & Hc').
  { destruct (r_state r =? 1); [exists m; by rewrite Hstep|]. destruct Hstep as (row & Hrow & Hrows).
    rewrite <- Hsp, Hrow in Hc. case_match eqn:Hbad; [done|]. rewrite !orb_false_iff, !Z.ltb_ge, Z.eqb_neq in Hbad.
    pose proof (counts_range _ _ _ Hok) as Hcr. cbv zeta in Hcr. pose proof (policy_ok _ (proj1 (ro_policy _ _ _ Hok))).
    unfold limits_ok in Hlim. rewrite u32_small, u64_small in Hc by (unfold is_u32, is_u64; lia).
    exists (count_ack (payload_length row) m). split; [done|]. split; [done|]. split; [done|]. split; [|done].
    unfold limits_ok. simpl. lia. }
  destruct (IH (ack_rows token (sub token 24 48) tr) m' c') as (R1 & R2 & R3 & R4); [done..|congruence|unfold fixed in Hf; congruence|].
  assert (with_counts c' m' = with_counts c' m) as Hw.
  { unfold fixed in Hf. injection Hf as E1 E2 E3 E4. unfold with_counts. congruence. }
  rewrite Hw in R1, R2. split; [done|]. split; [done|]. split.
  - split; [done|]. by eapply along_ack; [| |exact R3].
  - change (ack_all (token :: tokens) tr) with (ack_all tokens (ack_rows token (sub token 24 48) tr)). rewrite R4. simpl.
    by apply foldl_agree; [apply _|].
Qed.

Lemma ack_all_meta tokens : ∀ t, t_meta (ack_all tokens t) = t_meta t.
Proof. induction tokens as [|token tokens IH]; intros t; [done|]. simpl. by rewrite IH. Qed.

Lemma ack_applied s0 t m tokens s :
  tx s0 t s → rows_ok hash t m → limits_ok m → fixed (metadata s0) = fixed m → 1 <= m_epoch m →
  Forall (is_bytes 56) tokens → NoDup tokens →
  ends (applyCommand hash (CommandAck tokens) m) s (applied s0 t (CommandAck tokens) m).
Proof.
  intros Htx Hok Hlim Hfix Hep HF HN. cbn [applyCommand]. apply ends_bind. eapply ends_mono; [by apply (validateAck_spec s0 t m)|].
  intros [err|c'] s'; [intros Hr; by apply ends_ret|]. intros (Htx' & Hack & Hc). apply ends_bind.
  eapply ends_mono; [by apply (execAll_spec s0 _ t)|]. intros [err|] s'' Hs''; apply ends_ret; [by apply refused_storage|].
  destruct Hs'' as (t' & Hrun & Htx''). rewrite run_ack in Hrun. injection Hrun as <-.
  destruct (ack_all_ok t (claims s0) m tokens t m c') as (R1 & R2 & R3 & R4); [done..|].
  exists (ack_all tokens t). split_and!; [done..|apply ack_all_meta|done|done].
Qed.
(** ** Retirement *)

Lemma elem_of_keys_where {R} (cond : bytes → R → bool) m k :
  k ∈ keys_where cond m ↔ ∃ r, m !! k = Some r ∧ cond k r = true.
Proof.
  unfold keys_where. rewrite merge_sort_Permutation, list_elem_of_omap. split.
  - intros ([k' r] & Hin & Hc). apply elem_of_map_to_list in Hin. destruct (cond k' r) eqn:Hk; [|done].
    injection Hc as ->. eauto.
  - intros (r & Hr & Hc). exists (k, r). rewrite Hc. split; [|done]. by apply elem_of_map_to_list.
Qed.

Lemma no_keys {R} (cond : bytes → R → bool) m :
  negb (len (keys_where cond m) =? 0) = false → ∀ k r, m !! k = Some r → cond k r = false.
Proof.
  intros Hz k r Hr. destruct (cond k r) eqn:Hc; [|done]. assert (k ∈ keys_where cond m) as Hin by (apply elem_of_keys_where; eauto).
  destruct (keys_where cond m); [by apply not_elem_of_nil in Hin|done].
Qed.

Lemma key_range_spec p f id :
  id_ok id → is_bytes 16 p → is_u64 f →
  in_range (encodeID (MkID p 0)) (encodeID (MkID p f)) (encodeID id) = true ↔ Producer id = p ∧ Sequence id <= f.
Proof.
  intros Hid Hp Hf. rewrite <- (encodeID_range p f id) by done. unfold in_range, bytes_le.
  by rewrite andb_true_iff, !bool_decide_eq_true.
Qed.

(** Nothing pending in the range: the barrier may be set. *)
Lemma range_may_retire t m r :
  rows_ok hash t m → id_ok r → (∀ p, t_producers t !! Producer r = Some p → below p r = false) →
  ask (SelectPendingRange (encodeID (MkID (Producer r) 0)) (encodeID r)) t = false → may_retire t r.
Proof.
  intros Hok Hr Hb Hask. split; [done|]. intros id row Hid Hp Hs Hrow.
  pose proof (no_keys _ _ Hask _ _ Hrow) as Hno. cbv beta in Hno. destruct r as [p f]. simpl in *. destruct Hr as [Hp16 Hf].
  rewrite (proj2 (key_range_spec p f id Hid Hp16 Hf) (conj Hp Hs)), andb_true_r in Hno. apply Z.eqb_neq in Hno.
  destruct (ro_receipt _ _ _ Hok _ _ Hrow) as (? & ? & _ & _ & _ & _ & _ & [(? & _)|(? & _)]); [congruence|done].
Qed.

(** The abstract retirement, set or already in force. *)
Lemma retire_allowed t m r :
  rows_ok hash t m → id_ok r → may_retire t r → allowed hash (state_of t) (CommandRetire r).
Proof.
  intros Hok Hr [_ Hpend] id codec payload Hid Hp Hs Hst. unfold state_of in Hst.
  destruct (t_producers t !! Producer id) as [p|]; [|done]. destruct (below p id); [done|].
  destruct (t_receipts t !! encodeID id) as [row|] eqn:Hrow; [|done]. by rewrite (Hpend id row Hid Hp Hs Hrow) in Hst.
Qed.

Lemma retired_before t r p :
  t_producers t !! Producer r = Some p → below p r = true →
  allowed hash (state_of t) (CommandRetire r) ∧ agree (state_of t) (apply_spec hash (state_of t) (CommandRetire r)).
Proof.
  intros Hp Hb. assert (∀ id, Producer id = Producer r → Sequence id <= Sequence r → state_of t id = SRetired) as Hret.
  { intros id Hid Hs. unfold state_of. rewrite Hid, Hp. replace (below p id) with true; [done|]. unfold below in *.
    apply andb_true_iff in Hb as [Hh Hf]. rewrite Hh. simpl. symmetry. lia. }
  split; [intros id codec payload _ Hid Hs; by rewrite Hret|]. intros id _. simpl. unfold retire_spec.
  case_bool_decide as Hid; simpl; [|done]. destruct (Z.leb_spec (Sequence id) (Sequence r)); [by apply Hret|done].
Qed.

(** The metadata of [applyRetirement]. *)
Lemma count_retire_eq t m row r :
  rows_ok hash t m → limits_ok m → t_producers t !! Producer r = row →
  (bool_decide (row = None) && (Producers (m_counts m) =? MaxProducers (m_policy m)) = false) →
  let c := m_counts m in
  with_counts (Counts (PendingItems c) (PendingPayload c) (Receipts c)
     (if bool_decide (row = None) then Producers c +32 1 else Producers c)
     (if match row with Some p => has_retirement p | None => 0 end =? 0 then RetiredProducers c +32 1 else RetiredProducers c)
     (if match row with Some p => cleanup_needed p | None => 0 end =? 0 then CleanupMarkers c +32 1 else CleanupMarkers c)) m =
  count_retire row m ∧ limits_ok (count_retire row m).
Proof.
  intros Hok Hlim Hrow Hcap. pose proof (counts_range _ _ _ Hok) as Hcr. pose proof (policy_ok _ (proj1 (ro_policy _ _ _ Hok))) as Hpol.
  cbv zeta in *. unfold limits_ok in *. unfold count_retire.
  rewrite !u32_small by (unfold is_u32; lia). simpl. destruct row as [p|]; simpl in *.
  - destruct (ro_producer _ _ _ Hok _ _ Hrow) as [_ Hp]. split; [|lia]. f_equal. unfold producer_ok in Hp.
    destruct Hp as [(-> & _ & ->)|(-> & _ & [->| ->])]; simpl; f_equal; lia.
  - apply Z.eqb_neq in Hcap. split; [|lia]. f_equal.
Qed.

Lemma retire_applied s0 t m r s :
  tx s0 t s → rows_ok hash t m → limits_ok m → id_ok r →
  ends (applyCommand hash (CommandRetire r) m) s (applied s0 t (CommandRetire r) m).
Proof.
  intros Htx Hok Hlim Hr. cbn [applyCommand]. unfold applyRetirement. apply ends_bind.
  eapply ends_query; [done|..]; [|intros e s' Hs; apply ends_ret; by apply refused_storage].
  clear s Htx. intros s Htx. change (ask (SelectProducer (Producer r)) t) with (t_producers t !! Producer r). cbv zeta.
  match goal with |- ends (if _ then match _ with inl _ => _ | inr _ => if _ then _ else ?k end else _) _ _ => set (barrier := k) end.
  assert ((∀ p, t_producers t !! Producer r = Some p → below p r = false) → ends barrier s (applied s0 t (CommandRetire r) m)) as Hbar.
  { intros Hb. unfold barrier. match goal with |- ends (if ?b then _ else _) _ _ => destruct b eqn:Hcap end;
      [apply ends_ret, refused_rejection; [done|set_solver]|].
    apply ends_bind. eapply ends_query; [done|..]; [|intros e s' Hs; apply ends_ret; by apply refused_storage].
    clear s Htx barrier. intros s Htx.
    destruct (ask (SelectPendingRange _ _) t) eqn:Hask; [apply ends_ret, refused_rejection; [done|set_solver]|].
    pose proof (range_may_retire t m r Hok Hr Hb Hask) as Hmay.
    destruct (count_retire_eq t m _ r Hok Hlim eq_refl Hcap) as [-> Hlim'].
    apply ends_bind. eapply ends_stmt; [done|..]; [|intros e s' Hs; apply ends_ret; by apply refused_storage].
    clear s Htx. intros s t' Hrun Htx. apply ends_ret.
    assert (t' = retire_rows r t) as ->.
    { unfold retire_rows. destruct (t_producers t !! Producer r) as [p|] eqn:Hp.
      - rewrite bool_decide_false in Hrun by done. simpl in Hrun. rewrite (alter_alt_Some _ _ _ _ Hp) in Hrun. by injection Hrun.
      - rewrite bool_decide_true in Hrun by done. simpl in Hrun. rewrite Hp in Hrun. by injection Hrun. }
    exists (retire_rows r t). split; [done|]. split; [by apply retire_ok|]. split; [done|]. split; [done|]. split; [done|].
    split; [by apply (retire_allowed t m)|]. intros id Hid. rewrite (retire_state hash t m r id) by done. done. }
  destruct (t_producers t !! Producer r) as [p|] eqn:Hp; [|by apply Hbar].
  pose proof (proj2 (ro_producer _ _ _ Hok _ _ Hp)) as Hpo. destruct (Z.eqb_spec (has_retirement p) 0) as [Hh|Hh]; cbn [negb].
  - apply Hbar. intros p' [= <-]. unfold below. by rewrite Hh.
  - rewrite producer_floor by done. assert (has_retirement p = 1) as H1 by (unfold producer_ok in Hpo; intuition lia).
    assert (below p r = (Sequence r <=? bigEndian (retired_through p))) as Hbelow by (unfold below; by rewrite H1).
    destruct (Sequence r <=? bigEndian (retired_through p)); [|apply Hbar; congruence].
    apply ends_ret. destruct (retired_before t r p Hp Hbelow) as [Hal Hag]. by exists t.
Qed.
End tx.
End DurableTx.
