(* ===== verification/DurableGroup.v ===== *)
(** * Transactions of the durable queue are atomic (src/workq/durable)

    A group of commands runs in one transaction. However its statements fail, what is committed
    afterwards is a consistent store: either the one before, or the one in which exactly the commands
    that were not refused took effect, in their order. The decisions reported to the callers say
    which, and report [Unknown] when nobody can know. Cleanup transactions change no state. *)

From Stdlib Require Import ZArith Lia.
From stdpp Require Import prelude list gmap strings sorting.
From S2P Require Import Prelude Prog DurableCore DurableSpec DurableStore DurableInv DurableTx.

Module DurableGroup.
Import Prog Durable DurableSpec DurableStore DurableInv DurableTx.

(** ** The stored metadata *)

(** The rows of the meta table. *)
Definition meta_of (m : storeMetadata) : gmap Z bytes :=
  let c := m_counts m in
  list_to_map [
    (metaSchema, encodeUint64 1); (metaProfile, Profile (m_policy m)); (metaProfileVersion, encodeUint64 1);
    (metaAccountingVersion, encodeUint64 1); (metaUUID, m_uuid m); (metaPolicy, encodePolicy (m_policy m));
    (metaDurability, [m_durability m]); (metaEpoch, encodeUint64 (m_epoch m)); (metaLastOrder, encodeUint64 (m_lastOrder m));
    (metaPendingItems, encodeUint64 (PendingItems c)); (metaPendingPayload, encodeUint64 (PendingPayload c));
    (metaReceipts, encodeUint64 (Receipts c)); (metaProducers, encodeUint64 (Producers c));
    (metaRetiredProducers, encodeUint64 (RetiredProducers c)); (metaCleanupMarkers, encodeUint64 (CleanupMarkers c))].

(** Writing the metadata of a group. *)
Definition metadata_stmts (m : storeMetadata) : list stmt :=
  (λ '(key, value), UpdateMeta key (encodeUint64 value)) <$>
    [(metaLastOrder, m_lastOrder m); (metaPendingItems, PendingItems (m_counts m));
     (metaPendingPayload, PendingPayload (m_counts m)); (metaReceipts, Receipts (m_counts m));
     (metaProducers, Producers (m_counts m)); (metaRetiredProducers, RetiredProducers (m_counts m));
     (metaCleanupMarkers, CleanupMarkers (m_counts m))].

Lemma run_metadata m m' t :
  t_meta t = meta_of m → fixed m' = fixed m → run_all (metadata_stmts m') t = Some (set_meta (meta_of m') t).
Proof.
  intros Ht Hf. unfold fixed in Hf. injection Hf as E1 E2 E3 E4. unfold metadata_stmts, run_all. cbn [fmap list_fmap foldl mbind option_bind run].
  unfold set_meta. cbn [t_meta t_producers t_receipts t_payloads]. do 2 f_equal. rewrite Ht. unfold meta_of. rewrite E1, E2, E3, E4.
  cbn [list_to_map foldr fst snd]. repeat (rewrite alter_insert_eq || rewrite alter_insert_ne by done). done.
Qed.

(** ** A consistent store *)

Section group.
Context {C : Type} `{!Connection C} (hash : bytes → bytes) (config : Config).
Abbreviation S := (session C).

Record store_ok (t : tables) (m : storeMetadata) : Prop := {
  so_rows : rows_ok hash t m;
  so_limits : limits_ok m;
  so_durability : 0 <= m_durability m <= ProcessCrash;
  so_meta : t_meta t = meta_of m;
}.

(** A session between transactions. *)
Record session_ok (s : S) : Prop := {
  se_idle : in_tx (conn s) = false;
  se_store : store_ok (saved (conn s)) (metadata s);
  se_policy : m_policy (metadata s) = c_Policy config;
  se_epoch : 1 <= m_epoch (metadata s);
}.

(** What admission has checked of a command ([validateSubmit], [ackBatchObserved]); the last two are types. *)
Definition command_ok (c : mutation) : Prop :=
  match c with
  | CommandSubmit entries => (∃ a, validateSubmit config entries = inr a) ∧ Forall (λ e, id_ok (e_ID e)) entries
  | CommandAck tokens => validateTokens config tokens = None ∧ Forall (is_bytes 56) tokens
  | CommandRetire r => id_ok r
  end.
Lemma validateTokens_nodup tokens : validateTokens config tokens = None → NoDup tokens.
Proof.
  unfold validateTokens. case_match; [done|]. case_match eqn:Hdup; [done|]. intros _.
  assert (∀ i j x, tokens !! i = Some x → tokens !! j = Some x → ¬ (i < j)%nat) as Hlt.
  { intros i j x Hi Hj Hij. apply not_true_iff_false in Hdup. apply Hdup. apply existsb_exists. exists (j, x). split.
    - apply list_elem_of_In, list_elem_of_lookup. exists j. by rewrite list_lookup_imap, Hj.
    - apply existsb_exists. exists x. split; [|by apply bool_decide_eq_true].
      apply list_elem_of_In, list_elem_of_lookup. exists i. by rewrite lookup_take_lt. }
  apply NoDup_alt. intros i j x Hi Hj. destruct (Nat.lt_trichotomy i j) as [H'|[H'|H']]; [by apply (Hlt i j x Hi Hj) in H'|done|by apply (Hlt j i x Hj Hi) in H'].
Qed.

Lemma validateSubmit_legal entries a :
  typed config → validateConfig config = None → validateSubmit config entries = inr a →
  len entries <= 256 ∧ NoDup (e_ID <$> entries) ∧
  Forall (λ e, len (Codec e) <= MaxCodec (c_Policy config) ∧ len (Payload e) <= MaxPayload (c_Policy config)) entries.
Proof.
  intros (Ht1 & _) Hv. destruct (config_submit config Hv) as (Hpol & Hitems & Henc & _). pose proof (policy_ok _ Hpol).
  unfold validateSubmit. destruct (Z.ltb_spec (SubmitItems (r_Batches (c_Runtime config))) (len entries)) as [|Hn]; [done|].
  pose proof (validateEntries_spec config entries [] (Sums 0 0 0 0)) as Hspec.
  destruct (validateEntries config [] (Sums 0 0 0 0) entries) as [err|sums]; [done|]. intros _.
  destruct Hspec as ((HF & _ & HN & _) & _); simpl; [lia..|]. split; [lia|done].
Qed.

Context (hash_length : ∀ input, length (hash input) = 32%nat) (config_typed : typed config) (config_valid : validateConfig config = None).

Lemma applyCommand_spec s0 t m c s :
  tx s0 t s → rows_ok hash t m → limits_ok m → fixed (metadata s0) = fixed m → m_policy m = c_Policy config → 1 <= m_epoch m → command_ok c →
  ends (applyCommand hash c m) s (applied hash s0 t c m).
Proof.
  intros Htx Hok Hlim Hfix Hpol Hep Hc. destruct c as [entries|tokens|r]; simpl in Hc.
  - destruct Hc as [[a Ha] Hids]. destruct (validateSubmit_legal entries a config_typed config_valid Ha) as (Hn & HN & HF).
    apply submit_applied; [done..| |done|done]. rewrite Hpol. eapply Forall_impl; [apply Forall_and; split; [exact Hids|exact HF]|].
    intros e [Hid [Hcod Hpay]]. by split_and!.
  - destruct Hc as [Hv HF]. apply ack_applied; [done..|]. by apply validateTokens_nodup.
  - by apply retire_applied.
Qed.

(** ** Outcomes *)

(** The outcome of a command in a transaction that is about to be committed. *)
Definition settled (r : outcome_) : Prop := r = (Applied, None) ∨ ∃ e, r = (NotApplied, Some e) ∧ e ∈ rejections.

(** The commands with a decision, in their order. *)
Fixpoint chosen (d : Decision_) (commands : list mutation) (results : list outcome_) : list mutation :=
  match commands, results with
  | c :: commands, r :: results => (if decide (r.1 = d) then [c] else []) ++ chosen d commands results
  | _, _ => []
  end.

(** An outcome of a group that failed. *)
Definition failed (r : outcome_) : Prop := r.1 ≠ Applied ∧ is_Some r.2.

Lemma rejection_not_storage e : e ∈ rejections → errors_Is e ErrStorage = false.
Proof. intros He. repeat (apply elem_of_cons in He as [->|He]; [done|]). by apply not_elem_of_nil in He. Qed.

Lemma fail_length k d err results : length (fail k d err results) = length results.
Proof. unfold fail. apply length_imap. Qed.

Lemma fail_failed k d err results :
  d ≠ Applied → Forall (λ r, settled r ∨ r = (Unknown, None)) results → Forall failed (fail k d err results).
Proof.
  intros Hd HF. apply Forall_lookup_2. intros i r Hi. unfold fail in Hi. rewrite list_lookup_imap in Hi.
  apply fmap_Some in Hi as (r0 & Hr & ->). destruct (Forall_lookup_1 _ _ _ _ HF Hr) as [[->|(e & -> & He)]| ->].
  - split; [by destruct (decide _)|by eexists].
  - rewrite rejection_not_storage by done. by split; [|eexists].
  - split; [by destruct (decide _)|by eexists].
Qed.

(** When every command was attempted, the ones that were not rejected share the failure. *)
Definition share (d : Decision_) (err : error) (r : outcome_) : outcome_ :=
  match r.2 with
  | Some e => if errors_Is e ErrStorage then (d, Some err) else r
  | None => (d, Some err)
  end.

Lemma fail_all d err results : fail (length results) d err results = share d err <$> results.
Proof.
  apply list_eq. intros i. unfold fail. rewrite list_lookup_imap, list_lookup_fmap.
  destruct (results !! i) as [[d' e]|] eqn:Hr; [|done]. apply lookup_lt_Some in Hr. simpl. f_equal. unfold share. simpl.
  rewrite decide_False by lia. done.
Qed.

(** When COMMIT fails, the commands that took effect inside the transaction are the unknown ones. *)
Lemma share_chosen err commands : ∀ results,
  Forall settled results → chosen Unknown commands (share Unknown err <$> results) = chosen Applied commands results.
Proof.
  induction commands as [|c commands IH]; intros [|r results] HF; [done..|]. apply Forall_cons in HF as [Hr HF].
  rewrite fmap_cons. cbn [chosen]. rewrite (IH results HF). f_equal.
  destruct Hr as [->|(e & -> & He)]; unfold share; simpl; [done|]. by rewrite (rejection_not_storage e He).
Qed.

Lemma rollbackSubmit_spec s0 cause s :
  same s0 s → ends (rollbackSubmit cause) s (λ '(d, _) s', same s0 s' ∧ d ≠ Applied).
Proof.
  intros (H1 & H2 & H3 & H4). unfold rollbackSubmit. apply ends_bind, ends_sql. eapply ends_mono; [apply rollback_law|].
  intros err c (Hs & _). apply ends_bind, ends_sql. eapply ends_mono; [apply autocommit_law|]. intros state c' (Hs' & _).
  apply ends_ret. simpl in *. destruct (bool_decide (err = None) && bool_decide (state = inr true));
    (split; [unfold same; simpl; split_and!; congruence|done]).
Qed.

Lemma allowed_agree c A B : command_ok c → agree A B → allowed hash A c → allowed hash B c.
Proof.
  destruct c as [entries|tokens|r]; simpl; intros Hc Hab.
  - apply along_agree; [apply _| |done]. intros A' B' e He Hab'. unfold may_accept. rewrite Hab'; [done|].
    by apply (proj1 (Forall_forall _ _) (proj2 Hc)).
  - apply along_ack; [apply Hc|done].
  - intros Hal id codec payload Hid Hp Hs. rewrite <- Hab by done. by apply Hal.
Qed.

Lemma chosen_subseteq d commands : ∀ results c, c ∈ chosen d commands results → c ∈ commands.
Proof.
  induction commands as [|c' commands IH]; intros [|r results] c; simpl; [done|done|by intros ?%not_elem_of_nil|].
  rewrite elem_of_app, elem_of_cons. destruct (decide _); set_solver.
Qed.
(** ** The commands of a group *)

Section commands.
Context (s0 : S).

Definition done_so_far (t : tables) (m : storeMetadata) (commands : list mutation) (after : list outcome_) (t' : tables)
    (m' : storeMetadata) : Prop :=
  length after = length commands ∧ Forall settled after ∧ rows_ok hash t' m' ∧ limits_ok m' ∧ fixed m' = fixed m ∧
  t_meta t' = t_meta t ∧ along (allowed hash) (apply_spec hash) (state_of t) (chosen Applied commands after) ∧
  agree (state_of t') (foldl (apply_spec hash) (state_of t) (chosen Applied commands after)).

Lemma done_rejected t m c commands e after t' m' :
  e ∈ rejections → done_so_far t m commands after t' m' → done_so_far t m (c :: commands) ((NotApplied, Some e) :: after) t' m'.
Proof.
  intros He (H1 & H2 & H3 & H4 & H5 & H6 & H7 & H8). split_and!; [simpl; lia| |done..].
  constructor; [right; eauto|done].
Qed.

Lemma done_applied t m c commands after t1 m1 t' m' :
  Forall command_ok commands → allowed hash (state_of t) c → agree (state_of t1) (apply_spec hash (state_of t) c) →
  fixed m1 = fixed m → t_meta t1 = t_meta t →
  done_so_far t1 m1 commands after t' m' → done_so_far t m (c :: commands) ((Applied, None) :: after) t' m'.
Proof.
  intros HF Hal Hag Hf Hm (H1 & H2 & H3 & H4 & H5 & H6 & H7 & H8). split_and!; [simpl; lia| |done|done|congruence|congruence|..].
  - constructor; [by left|done].
  - simpl. split; [done|]. eapply (along_agree _ _ _ (state_of t1)); [apply _| |done|done]. intros A B c' Hc'. apply allowed_agree.
    apply (proj1 (Forall_forall _ _) HF). by apply chosen_subseteq in Hc'.
  - simpl. rewrite H8. by apply foldl_agree; [apply _|].
Qed.

Lemma runCommands_spec commands : ∀ before m t s,
  tx s0 t s → rows_ok hash t m → limits_ok m → fixed (metadata s0) = fixed m → m_policy m = c_Policy config →
  1 <= m_epoch m → Forall command_ok commands → Forall settled before →
  ends (runCommands hash commands (length before) m (before ++ replicate (length commands) (Unknown, None))) s (λ r s',
    match r with
    | inl (_, results) => same s0 s' ∧ length results = length (before ++ replicate (length commands) (Unknown, None : option error)) ∧
        Forall failed results
    | inr (m', results) => ∃ after t', results = before ++ after ∧ tx s0 t' s' ∧ done_so_far t m commands after t' m'
    end).
Proof.
  induction commands as [|c commands IH]; intros before m t s Htx Hok Hlim Hfix Hpol Hep HF Hset; cbn [runCommands].
  { apply ends_ret. exists [], t. by split_and!. }
  apply Forall_cons in HF as [Hc HF]. apply ends_bind. eapply ends_mono; [by apply (applyCommand_spec s0 t)|]. clear s Htx.
  assert (∀ r, <[length before := r]> (before ++ replicate (length (c :: commands)) (Unknown, None)) =
    (before ++ [r]) ++ replicate (length commands) (Unknown, None : option error)) as Hins.
  { intros r. rewrite insert_app_r_alt by lia. rewrite Nat.sub_diag, <- app_assoc. done. }
  assert (∀ r, Datatypes.S (length before) = length (before ++ [r : outcome_])) as Hlen by (intros r; rewrite length_app; simpl; lia).
  intros [err|m1] s Happ.
  - destruct Happ as [Hsame Hr]. destruct (errors_Is err ErrStorage) eqn:Hst.
    + apply ends_bind. eapply ends_mono; [by apply (rollbackSubmit_spec s0)|]. intros [d failure] s' [Hs' Hd]. apply ends_ret.
      split; [done|]. split; [apply fail_length|]. apply fail_failed; [done|]. apply Forall_app. split.
      * eapply Forall_impl; [done|]. by left.
      * apply Forall_replicate. by right.
    + destruct Hr as [Hr|[Htx Hrej]]; [congruence|]. rewrite Hins, (Hlen (NotApplied, Some err)).
      eapply ends_mono; [apply (IH _ m t); [done..|]|]; [apply Forall_app; split; [done|]; constructor; [right; eauto|done]|].
      intros [[failure results]|[m' results]] s'; [intros (? & -> & ?); split_and!; [done| |done]; rewrite !length_app, !length_replicate; simpl; lia|].
      intros (after & t' & -> & Htx' & Hdone). exists ((NotApplied, Some err) :: after), t'. split; [by rewrite <- app_assoc|].
      split; [done|]. by apply done_rejected.
  - destruct Happ as (t1 & Htx & Hok1 & Hlim1 & Hf1 & Hm1 & Hal & Hag). rewrite Hins, (Hlen (Applied, None)).
    assert (m_policy m1 = c_Policy config) by (unfold fixed in Hf1; congruence).
    assert (1 <= m_epoch m1) by (unfold fixed in Hf1; congruence).
    eapply ends_mono; [apply (IH _ m1 t1); [done..|congruence|done|done|done|]|]; [apply Forall_app; split; [done|]; constructor; [by left|done]|].
    intros [[failure results]|[m' results]] s'; [intros (? & -> & ?); split_and!; [done| |done]; rewrite !length_app, !length_replicate; simpl; lia|].
    intros (after & t' & -> & Htx' & Hdone). exists ((Applied, None) :: after), t'. split; [by rewrite <- app_assoc|].
    split; [done|]. by eapply done_applied.
Qed.
End commands.
(** ** The transaction *)

Lemma rows_ok_meta t m v : rows_ok hash t m → rows_ok hash (set_meta v t) m.
Proof.
  intros [H1 H2 H3 H4 H5 H6 H7 H8 H9 H10 H11 H12 H13 H14]. by split.
Qed.

(** Clearing claims touches nothing else. *)
Lemma clear_claim_frame index (s : S) : conn (clear_claim index s) = conn s ∧ metadata (clear_claim index s) = metadata s.
Proof. unfold clear_claim. destruct (claims s !! index) as [c|]; [|done]. by destruct (used c). Qed.

Lemma clear_acked_frame token (s : S) : conn (clear_acked token s) = conn s ∧ metadata (clear_acked token s) = metadata s.
Proof. unfold clear_acked. destruct (decodeID _); [done|]. destruct (current_claim _ _ _); [apply clear_claim_frame|done]. Qed.

Lemma clearAcked_frame commands results (s : S) :
  conn (clearAcked commands results s) = conn s ∧ metadata (clearAcked commands results s) = metadata s.
Proof.
  unfold clearAcked. revert s. induction (zip commands results) as [|[c [d e]] l IH]; intros s; [done|]. simpl.
  destruct (IH (match c, e with
     | CommandAck tokens, None => foldl (λ s token, clear_acked token s) s tokens
     | _, _ => s
     end)) as [-> ->]. destruct c as [|tokens|], e; try done. clear. revert s.
  induction tokens as [|token tokens IH]; intros s; [done|]. simpl. destruct (IH (clear_acked token s)) as [-> ->]. apply clear_acked_frame.
Qed.

(** A group that was committed: the store is the one before with the applied commands carried out
    in their order, each allowed where it took effect; the session knows the new metadata. *)
Definition committed (s : S) (commands : list mutation) (results : list outcome_) (s' : S) : Prop :=
  session_ok s' ∧ fixed (metadata s') = fixed (metadata s) ∧ Forall settled results ∧
  along (allowed hash) (apply_spec hash) (state_of (saved (conn s))) (chosen Applied commands results) ∧
  agree (state_of (saved (conn s'))) (foldl (apply_spec hash) (state_of (saved (conn s))) (chosen Applied commands results)).

(** A group that failed: the session is unchanged; the store is consistent and either the same or
    the one with exactly the unknown commands carried out. *)
Definition not_committed (s : S) (commands : list mutation) (results : list outcome_) (s' : S) : Prop :=
  metadata s' = metadata s ∧ claims s' = claims s ∧ deliveryRetained s' = deliveryRetained s ∧ Forall failed results ∧
  (saved (conn s') = saved (conn s) ∨
   (∃ m', store_ok (saved (conn s')) m' ∧ fixed m' = fixed (metadata s)) ∧
   agree (state_of (saved (conn s'))) (foldl (apply_spec hash) (state_of (saved (conn s))) (chosen Unknown commands results))).

Lemma not_committed_same s commands results s' : same s s' → Forall failed results → not_committed s commands results s'.
Proof. intros (H1 & H2 & H3 & H4) Hf. by split_and!; [..|left]. Qed.

(** C7. The transaction of a group is atomic, however its statements fail. It always ends, with an
    outcome for every command. When it succeeds, every command is applied or rejected for a reason
    of its own, and the committed store is consistent and is the one before with exactly the applied
    commands carried out in their order. When it fails, no command is reported as applied, the
    session is unchanged, and either nothing is committed or, after a COMMIT that failed, exactly the
    commands reported as unknown are. *)
Theorem executeTransaction_atomic s commands :
  session_ok s → Forall command_ok commands →
  ends (executeTransaction hash commands) s (λ '(err, results) s', length results = length commands ∧
    if err then not_committed s commands results s' else committed s commands results s').
Proof.
  intros [Hidle [Hrows Hlim Hdur Hmeta] Hpol Hep] HF. unfold executeTransaction. cbv zeta. apply ends_bind, ends_sql.
  assert (Forall (λ r, settled r ∨ r = (Unknown, None)) (replicate (length commands) (Unknown, None))) as Hinit
    by (apply Forall_replicate; by right).
  eapply ends_mono; [by apply begin_law|]. intros [err|] c (Hs & Hc).
  { apply ends_ret. split; [by rewrite fail_length, length_replicate|]. apply not_committed_same; [by unfold same|by apply fail_failed]. }
  destruct Hc as [Hin Hview]. set (s1 := Session c (metadata s) (claims s) (deliveryRetained s)).
  assert (tx s (saved (conn s)) s1) as Htx by (by unfold tx, same).
  apply ends_bind, ends_load, ends_bind.
  eapply ends_mono; [by apply (runCommands_spec s commands [] (metadata s) (saved (conn s)))|]. clearbody s1. clear s1 c Hs Hin Hview Htx.
  intros [[failure results]|[m' results]] s1.
  { intros (Hs & Hl & Hf). apply ends_ret. simpl in Hl. rewrite length_replicate in Hl. split; [done|]. by apply not_committed_same. }
  intros (after & t' & -> & Htx & Hl & Hset & Hok' & Hlim' & Hfix & Hm & Hal & Hag). change ([] ++ after) with after.
  assert (Forall (λ r, settled r ∨ r = (Unknown, None)) after) as Hset' by (eapply Forall_impl; [done|]; by left).
  apply ends_bind. change (writeSubmitMetadata m') with (execAll (metadata_stmts m')).
  eapply ends_mono; [by apply (execAll_spec s _ t')|]. clear s1 Htx. intros [err|] s1.
  { intros Hs. apply ends_bind. eapply ends_mono; [by apply (rollbackSubmit_spec s)|]. intros [d failure] s2 [Hs2 Hd]. apply ends_ret.
    split; [by rewrite fail_length|]. apply not_committed_same; [done|by apply fail_failed]. }
  rewrite (run_metadata (metadata s) m' t') by congruence. intros (t2 & [= <-] & ((M1 & M2 & M3 & M4) & Hin & Hview)).
  assert (store_ok (set_meta (meta_of m') t') m') as Hstore
    by (split; [by apply rows_ok_meta|done|unfold fixed in Hfix; congruence|done]).
  apply ends_bind, ends_sql. eapply ends_mono; [by apply commit_law|]. intros [err|] c Hc.
  - apply ends_ret. rewrite <- Hl, fail_all. split; [apply length_fmap|].
    assert (Forall failed (share Unknown (Join ErrStorage err) <$> after)) as Hfailed by (rewrite <- fail_all; by apply fail_failed).
    unfold not_committed. simpl. split_and!; [done..|]. rewrite share_chosen by done. destruct Hc as [->| ->]; [by left|right].
    rewrite Hview. split; [by exists m'|done].
  - destruct Hc as [Hin' Hsaved]. apply ends_bind, ends_modify, ends_bind, ends_modify, ends_ret. split; [done|].
    unfold committed. destruct (clearAcked_frame commands after
      (Session (conn (Session c (metadata s1) (claims s1) (deliveryRetained s1))) m' (claims s1) (deliveryRetained s1))) as [E1 E2].
    simpl in *. rewrite E1, E2, Hsaved, Hview. split_and!; [|done..].
    split; rewrite ?E1, ?E2, ?Hsaved, ?Hview; [done|done|..]; unfold fixed in Hfix; congruence.
Qed.
End group.
End DurableGroup.
