(* ===== verification/DurableCleanup.v ===== *)
(** * Cleanup turns of the durable queue (src/workq/durable/cleanup.go)

    A cleanup turn deletes receipts that are retired and clears the marker of a producer that has
    none left. It changes no state of the store, keeps it consistent, and makes progress. *)

From Stdlib Require Import ZArith Lia.
From stdpp Require Import prelude list gmap strings sorting.
From S2P Require Import Prelude Prog DurableCore DurableSpec DurableStore DurableInv DurableTx DurableGroup.

Module DurableCleanup.
Import Prog Durable DurableSpec DurableStore DurableInv DurableTx DurableGroup.

Lemma keys_where_nodup {R} (cond : bytes → R → bool) m : NoDup (keys_where cond m).
Proof.
  unfold keys_where. rewrite merge_sort_Permutation. pose proof (NoDup_fst_map_to_list m) as Hnd. revert Hnd.
  generalize (map_to_list m) as l. induction l as [|[k r] l IH]; [constructor|]. simpl. intros [Hk Hl]%NoDup_cons.
  destruct (cond k r); [|by apply IH]. constructor; [|by apply IH].
  intros ([k' r'] & Hin & Hc)%list_elem_of_omap. destruct (cond k' r'); [|done]. injection Hc as ->.
  apply Hk. apply list_elem_of_fmap. by exists (k, r').
Qed.

Section cleanup.
Context {C : Type} `{!Connection C} (hash : bytes → bytes) (config : Config).
Abbreviation S := (session C).

Definition delete_all (keys : list bytes) (t : tables) : tables := foldl (λ t key, delete_rows key t) t keys.

Lemma run_delete keys : ∀ t, run_all (DeleteReceipt <$> keys) t = Some (delete_all keys t).
Proof. induction keys as [|key keys IH]; intros t; [done|]. rewrite fmap_cons, run_all_cons. apply IH. Qed.

(** The key of a receipt that is acknowledged and retired. *)
Definition deletable (t : tables) (key : bytes) : Prop :=
  ∃ id r p, id_ok id ∧ key = encodeID id ∧ t_receipts t !! key = Some r ∧ r_state r = 1 ∧
    t_producers t !! Producer id = Some p ∧ below p id = true.

Lemma delete_all_ok keys : ∀ t m,
  rows_ok hash t m → NoDup keys → Forall (deletable t) keys →
  rows_ok hash (delete_all keys t) (count_deleted (len keys) m) ∧ agree (state_of (delete_all keys t)) (state_of t) ∧
  t_producers (delete_all keys t) = t_producers t ∧ t_meta (delete_all keys t) = t_meta t ∧
  (∀ k r, t_receipts (delete_all keys t) !! k = Some r → t_receipts t !! k = Some r).
Proof.
  induction keys as [|key keys IH]; intros t m Hok HN HF.
  { split; [|done]. destruct m as [? ? ? ? ? []]. unfold count_deleted. simpl. by rewrite Z.sub_0_r. }
  apply NoDup_cons in HN as [Hnin HN]. apply Forall_cons in HF as [(id & r & p & Hid & -> & Hr & Hst & Hp & Hb) HF].
  destruct (IH (delete_rows (encodeID id) t) (count_deleted 1 m)) as (R1 & R2 & R3 & R4 & R5).
  { by apply (delete_ok hash t m _ r). }
  { done. }
  { apply Forall_forall. intros k Hk. destruct (proj1 (Forall_forall _ _) HF k Hk) as (id' & r' & p' & H1 & H2 & H3 & H4).
    exists id', r', p'. split; [done|]. split; [done|]. split; [|done]. simpl. rewrite lookup_delete_ne; [done|]. by intros <-. }
  split; [|split; [|split; [|split]]].
  - replace (count_deleted (len (encodeID id :: keys)) m) with (count_deleted (len keys) (count_deleted 1 m)); [done|].
    unfold count_deleted, with_counts, len. simpl. f_equal. f_equal. lia.
  - intros id' Hid'. change (delete_all (encodeID id :: keys) t) with (delete_all keys (delete_rows (encodeID id) t)).
    rewrite (R2 id' Hid'). by apply (delete_state t p).
  - done.
  - done.
  - intros k r' Hr'. apply R5 in Hr'. simpl in Hr'. by apply lookup_delete_Some in Hr' as [_ ?].
Qed.

(** Receipts and markers left to clean. *)
Definition cleanup_left (m : storeMetadata) : Z := Receipts (m_counts m) + CleanupMarkers (m_counts m).

(** The receipts at or below the floor of a producer. *)
Lemma range_deletable t m producer p f keys limit :
  rows_ok hash t m → t_producers t !! producer = Some p → has_retirement p = 1 → is_u64 f → retired_through p = encodeUint64 f →
  keys = take limit (keys_where (λ id r, (r_state r =? 1) && in_range (encodeID (MkID producer 0)) (encodeID (MkID producer f)) id) (t_receipts t)) →
  Forall (deletable t) keys ∧ NoDup keys.
Proof.
  intros Hok Hp Hh Hf Hfl ->. pose proof (ro_producer _ _ _ Hok _ _ Hp) as [Hp16 _].
  split; [|eapply sublist_NoDup; [|apply sublist_take]; apply keys_where_nodup].
  apply Forall_take, Forall_forall. intros key (r & Hr & Hc)%elem_of_keys_where. apply andb_true_iff in Hc as [Hst Hrange].
  destruct (ro_receipt _ _ _ Hok _ _ Hr) as (id & p' & Hid & -> & Hp' & _). apply key_range_spec in Hrange as [<- Hs]; [|done..].
  assert (p' = p) as -> by congruence. exists id, r, p. split_and!; try done; [by apply Z.eqb_eq|].
  unfold below. rewrite Hh, Hfl. simpl. unfold encodeUint64. rewrite bigEndian_put by done. by apply Z.leb_le.
Qed.
(** What a valid configuration says about maintenance; the fields are unsigned. *)
Definition typed_maintenance : Prop :=
  0 <= CleanupRows (r_Maintenance (c_Runtime config)) ∧ 0 <= CleanupEncoded (r_Maintenance (c_Runtime config)).

Lemma config_cleanup :
  validateConfig config = None → typed_maintenance →
  let limits := r_Maintenance (c_Runtime config) in
  1 <= Z.min (CleanupRows limits) ((CleanupEncoded limits -64 26) / 121) <= 256.
Proof.
  intros Hv [Ht1 Ht2]. revert Hv. unfold validateConfig. destruct (validatePolicy (c_Policy config)) as [|]; [done|]. case_match; [done|].
  destruct (forallb in_ceiling [(Commands _, 64); _; _; _; _; _; _; _; _; _; _; _]) eqn:Hcounts; cbn [negb]; [|done].
  destruct (forallb in_ceiling [(b_Retained _, _); _; _; _; _; _; _]) eqn:Hbytes; cbn [negb]; [|done].
  destruct (maximumSubmitCharge _ _) as [|m]; [done|]. destruct (lookupCharge _); [done|].
  destruct (allocationCharge _); [done|]. destruct (allocationCharge _); [done|].
  match goal with |- context [negb ?b] => destruct b eqn:Hvalid end; cbn [negb]; [|done]. intros _.
  cbn [forallb] in Hcounts, Hbytes. unfold in_ceiling in Hcounts, Hbytes. cbn [fst snd] in Hcounts, Hbytes. leb_facts.
  change (Z.shiftl 64 10) with 65536 in *. cbv zeta. set (limits := r_Maintenance (c_Runtime config)) in *.
  assert (CleanupRows limits ≠ 0) as A1 by (apply Z.eqb_neq, negb_true_iff; done). assert (CleanupRows limits <= 256) as A2 by done.
  assert (24 + 32 + 1 + 8 + 56 + 26 <= CleanupEncoded limits) as A3 by done.
  assert (CleanupEncoded limits <= 65536) as A4 by done. clear - Ht1 A1 A2 A3 A4. rewrite u64_small by (unfold is_u64; lia).
  pose proof (Z.div_le_lower_bound (CleanupEncoded limits - 26) 121 1 ltac:(lia) ltac:(lia)). lia.
Qed.

(** The first producer that needs cleanup. *)
Lemma cleanup_producer t m selected :
  rows_ok hash t m → ask SelectCleanup t = selected →
  match selected with
  | None => CleanupMarkers (m_counts m) = 0
  | Some (producer, floor) => is_bytes 16 producer ∧ ∃ p f, t_producers t !! producer = Some p ∧ cleanup_needed p = 1 ∧
      has_retirement p = 1 ∧ is_u64 f ∧ retired_through p = encodeUint64 f ∧ floor = encodeUint64 f
  end.
Proof.
  intros Hok <-. simpl. destruct (keys_where (λ _ p, cleanup_needed p =? 1) (t_producers t)) as [|producer ks] eqn:Hk.
  - rewrite (ro_cleanup _ _ _ Hok). assert (msum cleanup_needed (t_producers t) <= msum (λ _, 0) (t_producers t)) as Hle.
    { apply msum_mono. intros q row Hq. pose proof (no_keys _ _ (f_equal (λ l, negb (len l =? 0)) Hk) _ _ Hq) as Hn. cbv beta in Hn.
      destruct (ro_producer _ _ _ Hok _ _ Hq) as [_ Hrow]. unfold producer_ok in Hrow. apply Z.eqb_neq in Hn. intuition lia. }
    assert (∀ m : gmap bytes producerRow, msum (λ _, 0) m = 0) as Hz.
    { intros m'. induction m' as [|k r m' Hk' IH] using map_ind; [apply msum_empty|]. by rewrite msum_insert. }
    rewrite Hz in Hle. pose proof (counts_range _ _ _ Hok) as Hcr. cbv zeta in Hcr. rewrite (ro_cleanup _ _ _ Hok) in Hcr. lia.
  - assert (producer ∈ keys_where (λ _ p, cleanup_needed p =? 1) (t_producers t)) as Hin by (rewrite Hk; by left).
    apply elem_of_keys_where in Hin as (p & Hp & Hc%Z.eqb_eq). rewrite Hp. simpl. destruct (ro_producer _ _ _ Hok _ _ Hp) as [H16 Hrow].
    split; [done|]. destruct Hrow as [(_ & _ & H0)|(Hh & (f & Hf & Hfl) & _)]; [congruence|]. by exists p, f.
Qed.

Lemma cleared_marker t m producer p :
  rows_ok hash t m → t_producers t !! producer = Some p → cleanup_needed p = 1 → 1 <= CleanupMarkers (m_counts m).
Proof.
  intros Hok Hp Hc. rewrite (ro_cleanup _ _ _ Hok), <- Hc. apply (msum_le cleanup_needed _ producer); [|done].
  intros q row [_ Hq]%(ro_producer _ _ _ Hok). unfold producer_ok in Hq. intuition lia.
Qed.

(** What a cleanup leaves inside its transaction. *)
Definition cleaned (s0 : S) (t : tables) (m m' : storeMetadata) (s : S) : Prop :=
  ∃ t', tx s0 t' s ∧ rows_ok hash t' m' ∧ limits_ok m' ∧ fixed m' = fixed m ∧ m_lastOrder m' = m_lastOrder m ∧ t_meta t' = t_meta t ∧
    agree (state_of t') (state_of t) ∧ 0 <= cleanup_left m' < cleanup_left m.

Lemma deleteRetiredReceipts_spec s0 t s :
  validateConfig config = None → typed_maintenance → tx s0 t s → rows_ok hash t (metadata s0) → limits_ok (metadata s0) →
  ends (deleteRetiredReceipts config) s (λ r s', match r with inl _ => same s0 s' | inr m' => cleaned s0 t (metadata s0) m' s' end).
Proof.
  intros Hv Hty Htx Hok Hlim. pose proof (config_cleanup Hv Hty) as Hlimit. cbv zeta in Hlimit.
  unfold deleteRetiredReceipts. apply ends_bind, ends_load. pose proof Htx as ((-> & _) & _). set (m := metadata s0) in *.
  apply ends_bind. eapply ends_query; [done|..]; [|intros e s' Hs; by apply ends_ret]. clear s Htx. intros s Htx.
  cbv beta iota. match goal with |- ends (match ?x with _ => _ end) _ _ => destruct x as [[producer floor]|] eqn:Hsel end;
    [|apply ends_ret; by eapply tx_same].
  pose proof (cleanup_producer t m _ Hok Hsel) as Hprod. cbv beta iota in Hprod.
  destruct Hprod as (H16 & p & f & Hp & Hc & Hh & Hf & Hfl & ->). pose proof H16 as [Hlen _].
  replace (len producer =? 16) with true by (unfold len; rewrite Hlen; done). cbn [negb orb len encodeUint64].
  set (lower := producer ++ replicate 8 0). set (upper := producer ++ encodeUint64 f).
  change lower with (encodeID (MkID producer 0)). change upper with (encodeID (MkID producer f)). clear lower upper. cbv zeta.
  set (limit := Z.min _ _) in *. apply ends_bind. eapply ends_query; [done|..]; [|intros e s' Hs; by apply ends_ret].
  clear s Htx. intros s Htx. cbv beta iota. match goal with |- context [forallb _ ?x] => set (keys := x) end.
  destruct (range_deletable t m producer p f keys (Z.to_nat limit)) as [HF HN]; [done..|].
  assert (forallb (λ key, len key =? 24) keys = true) as ->.
  { apply forallb_forall. intros key Hin. apply list_elem_of_In in Hin.
    destruct (proj1 (Forall_forall _ _) HF key Hin) as (id & _ & _ & Hid & -> & _). unfold len. by rewrite encodeID_length. }
  cbn [negb]. destruct (delete_all_ok keys t m Hok HN HF) as (R1 & R2 & R3 & R4 & R5).
  apply ends_bind. eapply ends_mono; [by apply (execAll_spec s0 _ t)|]. clear s Htx. intros [err|] s; [intros Hs; by apply ends_ret|].
  rewrite run_delete. intros (t1 & [= <-] & Htx).
  pose proof (counts_range _ _ _ Hok) as Hcr. pose proof (counts_range _ _ _ R1) as Hcr1. pose proof (policy_ok _ (proj1 (ro_policy _ _ _ Hok))) as Hpol.
  pose proof Hlim as (L1 & L2 & L3 & L4). cbv zeta in Hcr, Hcr1. simpl in Hcr1. change (@len (list Z) keys) with (@len bytes keys).
  assert (0 <= @len bytes keys) by (unfold len; lia).
  assert (Receipts (m_counts m) -32 u32 (@len bytes keys) = Receipts (m_counts m) - @len bytes keys) as ->.
  { rewrite (u32_small (@len bytes keys)) by (unfold is_u32; lia). rewrite u32_small by (unfold is_u32; lia). done. }
  apply ends_bind. eapply ends_query; [done|..]; [|intros e s' Hs; by apply ends_ret]. clear s Htx. intros s Htx.
  cbv beta iota. match goal with |- ends (match ?x with _ => _ end) _ _ => destruct x eqn:Hmore end.
  - apply ends_ret. exists (delete_all keys t). split; [done|]. split; [done|]. split; [unfold limits_ok; simpl; lia|].
    split; [done|]. split; [done|]. split; [done|]. split; [done|]. unfold cleanup_left. simpl. split; [lia|].
    assert (0 < @len bytes keys); [|lia]. destruct (decide (keys = [])) as [Hnil|Hnil].
    + rewrite Hnil in Hmore. simpl in Hmore. unfold keys in Hnil. simpl in Hnil.
      destruct (keys_where _ (t_receipts t)); [done|]. by destruct (Z.to_nat limit) eqn:Hz; [lia|].
    + destruct keys; [done|]. unfold len. simpl. lia.
  - apply ends_bind. eapply ends_stmt; [done|..]; [|intros e s' Hs; by apply ends_ret]. clear s Htx. intros s t2 Hrun Htx.
    simpl in Hrun. injection Hrun as <-. apply ends_ret. rewrite <- R3 in Hp.
    pose proof (cleared_marker _ _ _ _ R1 Hp Hc) as Hmark. simpl in Hmark.
    cbn [PendingItems PendingPayload Receipts Producers RetiredProducers CleanupMarkers].
    rewrite u32_small by (unfold is_u32; lia). exists (clear_rows producer (delete_all keys t)). split; [done|].
    split; [apply (clear_ok hash _ (count_deleted (len keys) m) producer p); [done..|]|].
    { intros id r Hid <- Hb Hr Hst. pose proof (no_keys _ _ Hmore _ _ Hr) as Hno. cbv beta in Hno. rewrite Hst in Hno. simpl in Hno.
      apply not_true_iff_false in Hno. apply Hno. apply key_range_spec; [done|done|done|]. split; [done|].
      unfold below in Hb. rewrite Hh, Hfl in Hb. unfold encodeUint64 in Hb. rewrite bigEndian_put in Hb by done. simpl in Hb. lia. }
    split; [unfold limits_ok; simpl; lia|]. split; [done|]. split; [done|]. split; [done|].
    split; [intros id Hid; rewrite clear_state; by apply R2|]. unfold cleanup_left. simpl. lia.
Qed.
(** The committed store is consistent and says the same of every identity; the claims are untouched. *)
Definition kept (s s' : S) : Prop :=
  (∃ m', store_ok hash (saved (conn s')) m' ∧ fixed m' = fixed (metadata s)) ∧
  agree (state_of (saved (conn s'))) (state_of (saved (conn s))) ∧ claims s' = claims s.

(** C10. A cleanup turn never changes what the store says of any identity, however its statements
    fail, and what is committed stays consistent. A turn that succeeds makes progress: fewer receipts
    and markers are left than before, so turns end. A turn that fails leaves the session as it was. *)
Theorem cleanupTransaction_keeps s :
  validateConfig config = None → typed_maintenance → session_ok hash config s →
  ends (cleanupTransaction config) s (λ err s', kept s s' ∧
    if err then metadata s' = metadata s
    else session_ok hash config s' ∧ 0 <= cleanup_left (metadata s') < cleanup_left (metadata s)).
Proof.
  intros Hv Hty [Hidle [Hrows Hlim Hdur Hmeta] Hpol Hep].
  assert (∀ s', same s s' → kept s s' ∧ metadata s' = metadata s) as Hfail.
  { intros s' (H1 & H2 & H3 & H4). unfold kept. rewrite H4. split; [|done]. split; [|done]. by exists (metadata s). }
  unfold cleanupTransaction. apply ends_bind, ends_sql. eapply ends_mono; [by apply begin_law|]. intros [err|] c (Hs & Hc).
  { apply ends_ret, Hfail. by unfold same. }
  destruct Hc as [Hin Hview]. apply ends_bind. eapply ends_mono.
  { apply (deleteRetiredReceipts_spec s (saved (conn s))); [done|done|by unfold tx, same|done|done]. }
  intros [err|m'] s1.
  { intros Hs1. apply ends_bind. eapply ends_mono; [by apply (rollbackSubmit_spec s)|]. intros [d failure] s2 [Hs2 _]. by apply ends_ret, Hfail. }
  intros (t' & Htx & Hok' & Hlim' & Hfix & _ & Hm & Hag & Hleft).
  apply ends_bind. change (writeSubmitMetadata m') with (execAll (C:=C) (metadata_stmts m')).
  eapply ends_mono; [by apply (execAll_spec s _ t')|]. clear s1 Htx. intros [err|] s1.
  { intros Hs1. apply ends_bind. eapply ends_mono; [by apply (rollbackSubmit_spec s)|]. intros [d failure] s2 [Hs2 _]. by apply ends_ret, Hfail. }
  rewrite (run_metadata (metadata s) m' t') by congruence. intros (t2 & [= <-] & ((M1 & M2 & M3 & M4) & Hin1 & Hview1)).
  assert (store_ok hash (set_meta (meta_of m') t') m') as Hstore
    by (split; [by apply rows_ok_meta|done|unfold fixed in Hfix; congruence|done]).
  apply ends_bind, ends_sql. eapply ends_mono; [by apply commit_law|]. intros [err|] c' Hc'.
  - apply ends_ret. destruct Hc' as [Hc'|Hc']; [apply Hfail; unfold same; simpl; split_and!; congruence|].
    unfold kept. simpl. rewrite Hc', Hview1. split; [|done]. split; [by exists m'|done].
  - destruct Hc' as [Hin' Hsaved]. apply ends_bind, ends_modify, ends_ret. unfold kept. simpl. rewrite Hsaved, Hview1, M2.
    split; [split; [by exists m'|done]|]. split; [|done].
    split; simpl; rewrite ?Hsaved, ?Hview1; [done|done|..]; unfold fixed in Hfix; congruence.
Qed.
End cleanup.
End DurableCleanup.
