(* ===== verification/DurableMem.v ===== *)
(** * A connection in memory (src/workq/durable)

    An instance of the interface of the transactions: tables in memory, where any statement may fail,
    a failure may roll the transaction back, and a failed COMMIT may have committed. It shows that
    the hypotheses of the theorems on transactions can hold, and lets transactions run. *)

From Stdlib Require Import ZArith Lia.
From stdpp Require Import prelude list gmap strings sorting.
From S2P Require Import Prelude Prog DurableCore DurableSpec DurableStore DurableInv DurableTx DurableGroup DurableCleanup.

Module DurableMem.
Import Prog Durable DurableSpec DurableStore DurableInv DurableTx DurableGroup DurableCleanup.

Record memory := Memory { durable_tables : tables; private_tables : tables; open_tx : bool }.

Definition mem_view (c : memory) : tables := if open_tx c then private_tables c else durable_tables c.
Definition ErrIO : error := New "disk I/O error".

(** The transaction is gone. *)
Definition lost (c : memory) : memory := Memory (durable_tables c) (durable_tables c) false.

Definition mem_exec (st : stmt) : prog memory (option error) :=
  Act (λ c, match run st (mem_view c) with
            | Some t => [(if open_tx c then Memory (durable_tables c) t true else Memory t t false, None)]
            | None => []
            end ++ [(c, Some ErrIO); (lost c, Some ErrIO)]) Ret.

Definition mem_query {A} (q : query A) : prog memory (error + A) :=
  Act (λ c, [(c, inr (ask q (mem_view c))); (c, inl ErrIO); (lost c, inl ErrIO)]) Ret.

(** Reading rows may stop before any of them. *)
Definition mem_rows {R} (q : query (list R)) : prog memory (error + list R * option error) :=
  Act (λ c, (c, inr (ask q (mem_view c), None)) :: (c, inl ErrIO) ::
    ((λ k, (c, inr (take k (ask q (mem_view c)), Some ErrIO))) <$> seq 0 (length (ask q (mem_view c))))) Ret.

Definition mem_begin : prog memory (option error) :=
  Act (λ c, [(Memory (durable_tables c) (durable_tables c) true, None); (lost c, Some ErrIO)]) Ret.

Definition mem_commit : prog memory (option error) :=
  Act (λ c, [(Memory (mem_view c) (mem_view c) false, None); (c, Some ErrIO); (lost c, Some ErrIO);
             (Memory (mem_view c) (mem_view c) false, Some ErrIO)]) Ret.

Definition mem_rollback : prog memory (option error) := Act (λ c, [(lost c, None); (c, Some ErrIO)]) Ret.

Definition mem_autocommit : prog memory (error + bool) := Act (λ c, [(c, inr (negb (open_tx c))); (c, inl ErrIO)]) Ret.

(** Proves a law: every outcome of one action satisfies it. *)
Ltac outcomes :=
  apply ends_choose; [done|]; intros ? ? Hin; repeat (apply elem_of_cons in Hin as [[= -> ->]|Hin]; [simpl; try naive_solver|]);
  try by apply not_elem_of_nil in Hin.

#[export] Program Instance mem_connection : Connection memory := {
  Exec := mem_exec; Query := @mem_query; Rows := @mem_rows; Begin := mem_begin; Commit := mem_commit; Rollback := mem_rollback;
  AutoCommit := mem_autocommit; view := mem_view; saved := durable_tables; in_tx := open_tx;
}.
Next Obligation. intros c Hc. unfold mem_view. by rewrite Hc. Qed.
Next Obligation.
  intros st c Hc. unfold mem_exec. apply ends_choose; [by destruct (run _ _)|]. intros c' err Hin. apply elem_of_app in Hin as [Hin|Hin].
  - destruct (run st (mem_view c)) as [t|] eqn:Hrun; [|by apply not_elem_of_nil in Hin]. apply list_elem_of_singleton in Hin as [= -> ->].
    by rewrite Hc.
  - repeat (apply elem_of_cons in Hin as [[= -> ->]|Hin]; [done|]). by apply not_elem_of_nil in Hin.
Qed.
Next Obligation. intros A q c. unfold mem_query. outcomes. Qed.
Next Obligation.
  intros R q c. unfold mem_rows. apply ends_choose; [done|]. intros c' r Hin.
  apply elem_of_cons in Hin as [[= -> ->]|Hin]; [simpl; split; [done|]; split; [done|]; intros ? ? [= <- <-]; split; [|done];
    exists (length (ask q (mem_view c))); by rewrite firstn_all|].
  apply elem_of_cons in Hin as [[= -> ->]|Hin]; [done|]. apply list_elem_of_fmap in Hin as (k & [= -> ->] & _).
  simpl. split; [done|]. split; [done|]. intros ? ? [= <- <-]. split; [by exists k|done].
Qed.
Next Obligation. intros c Hc. unfold mem_begin. outcomes. Qed.
Next Obligation. intros c Hc. unfold mem_commit. outcomes. Qed.
Next Obligation. intros c. unfold mem_rollback. outcomes. Qed.
Next Obligation. intros c. unfold mem_autocommit. outcomes. Qed.
End DurableMem.
