(* ===== verification/DurableOpen.v ===== *)
(** * Opening a durable store (src/workq/durable: validation.go, startup.go)

    A new store is initialized in one transaction. Every store is read and validated before use: its
    metadata, every producer, every receipt with its payload, and the counts. Then the epoch is
    advanced, which makes the tokens of earlier sessions stale. The context of the caller is a
    parameter: asked for its error, it answers and changes nothing. *)

From Stdlib Require Import ZArith Lia.
From stdpp Require Import prelude list gmap strings sorting.
From S2P Require Import Prelude Prog DurableCore DurableSpec DurableStore.

Module DurableOpen.
Import Prog Durable DurableSpec DurableStore.

Definition Canceled : error := New "context canceled".
Definition DeadlineExceeded : error := New "context deadline exceeded".

(** [corrupt] (validation.go) and [classifySQLError] (store.go). *)
Definition corrupt (reason : string) : error := Errorf "%s: %w" [ArgStr reason] ErrStorage.
Definition classifySQLError (err : error) : error :=
  if errors_Is err Canceled || errors_Is err DeadlineExceeded then err else Join ErrStorage err.

Section open.
Context {C : Type} `{!Connection C} (hash : bytes → bytes) (ctx_err : prog C (option error)).
Abbreviation M := (prog C).

(** ** Metadata *)

Definition expectedLength (key : Z) : Z :=
  if key =? metaProfile then 13 else if key =? metaUUID then 16 else if key =? metaPolicy then 56
  else if key =? metaDurability then 1 else 8.

(** The loop of [readMetadata] over the rows of the meta table. *)
Fixpoint metadataLoop (rows : list (Z * bytes)) (count : Z) (values : list bytes) : error + Z * list bytes :=
  match rows with
  | [] => inr (count, values)
  | (key, value) :: rows =>
      let count := count + 1 in
      if negb (key =? count) || (15 <? key) then inl (corrupt "metadata key")
      else if negb (len value =? expectedLength key) then inl (corrupt "metadata length")
      else metadataLoop rows count (<[Z.to_nat (key - 1) := value]> values)
  end.

(** The metadata that fifteen values stand for. *)
Definition decodeMetadata (values : list bytes) : error + storeMetadata :=
  let val key := default [] (values !! Z.to_nat (key - 1)) in
  if negb (forallb (λ key, bigEndian (val key) =? 1) [metaSchema; metaProfileVersion; metaAccountingVersion]) then inl ErrUnsupported
  else
    try policy := decodePolicy (val metaProfile) (val metaPolicy) in
    let durability := default 0 (head (val metaDurability)) in
    if ProcessCrash <? durability then inl ErrUnsupported
    else
      let count i := bigEndian (val (metaPendingItems + i)) in
      if (MaxPendingItems policy <? count 0) || (MaxPendingPayload policy <? count 1) || (MaxReceipts policy <? count 2) ||
         (MaxProducers policy <? count 3) || (count 3 <? count 4) || (count 4 <? count 5)
      then inl (corrupt "count limits")
      else inr (Metadata (val metaUUID) policy durability (bigEndian (val metaEpoch)) (bigEndian (val metaLastOrder))
             (Counts (u32 (count 0)) (count 1) (u32 (count 2)) (u32 (count 3)) (u32 (count 4)) (u32 (count 5)))).

Definition readMetadata : M (error + storeMetadata) :=
  r ← Rows SelectMeta;
  mret match r with
       | inl err => inl err
       | inr (rows, rowsErr) =>
           try (count, values) := metadataLoop rows 0 (replicate 15 []) in
           match rowsErr with
           | Some err => inl err
           | None => if negb (count =? 15) then inl (corrupt "missing metadata") else decodeMetadata values
           end
       end.

(** ** Records *)

Definition checkValidationContext (records : Z) : M (option error) :=
  if records mod 256 =? 0 then ctx_err else mret None.

Definition zeroCounts : StoreCounts := Counts 0 0 0 0 0 0.

(** The loop of [validateRecords] over the producers. *)
Fixpoint producersLoop (policy : DurablePolicy) (rows : list (bytes * producerRow)) (counts : StoreCounts) (records : Z)
    : M (error + StoreCounts * Z) :=
  match rows with
  | [] => mret (inr (counts, records))
  | (producer, p) :: rows =>
      let validFlags := (0 <=? has_retirement p) && (has_retirement p <=? 1) && (0 <=? cleanup_needed p) && (cleanup_needed p <=? 1) in
      if negb (len producer =? 16) || negb (len (retired_through p) =? 8) || negb validFlags then mret (inl (corrupt "producer shape"))
      else if (has_retirement p =? 0) && (negb (bigEndian (retired_through p) =? 0) || negb (cleanup_needed p =? 0))
      then mret (inl (corrupt "unretired producer"))
      else
        let counts := Counts (PendingItems counts) (PendingPayload counts) (Receipts counts) (Producers counts +32 1)
          (RetiredProducers counts +32 has_retirement p) (CleanupMarkers counts +32 cleanup_needed p) in
        if MaxProducers policy <? Producers counts then mret (inl (corrupt "producer limit"))
        else
          let records := records +64 1 in
          err ← checkValidationContext records;
          match err with
          | Some err => mret (inl err)
          | None => producersLoop policy rows counts records
          end
  end.

Definition validatePayload (key digest : bytes) (policy : DurablePolicy) : M (error + Z) :=
  r ← Query (SelectPayload key);
  match r with
  | inl err => mret (inl err)
  | inr None => mret (inl (corrupt "missing pending payload"))
  | inr (Some row) =>
      let codecLength := len (p_codec row) in
      let payloadLength := len (p_payload row) in
      if (codecLength <? 0) || (payloadLength <? 0) || (MaxCodec policy <? codecLength) || (MaxPayload policy <? payloadLength) ||
         negb (payload_length row =? payloadLength)
      then mret (inl (corrupt "payload shape"))
      else
        r ← Query (SelectPayload key);
        mret match r with
             | inl err => inl err
             | inr None => inl ErrNoRows
             | inr (Some row) =>
                 if negb (bool_decide (entryDigest hash (p_codec row) (p_payload row) = digest)) then inl (corrupt "payload digest")
                 else inr payloadLength
             end
  end.

(** What a receipt has to satisfy besides its payload: [retired], [floor] and [cleanup] are its producer's. *)
Definition receiptRelations (m : storeMetadata) (key : bytes) (r : receiptRow) (p : producerRow) : option error :=
  if (has_retirement p =? 1) && negb (bool_decide (bytes_compare (sub key 16 24) (retired_through p) = Gt)) &&
     ((r_state r =? 0) || (cleanup_needed p =? 0))
  then Some (corrupt "retirement relationship")
  else
    let token := default [] (ack_token r) in
    if r_state r =? 1 then
      if negb (len token =? 56) then Some (corrupt "ack token length")
      else if negb (bool_decide (sub token 0 16 = m_uuid m)) || negb (bool_decide (sub token 24 48 = key)) ||
              (bigEndian (sub token 16 24) =? 0) || (m_epoch m <? bigEndian (sub token 16 24)) || (bigEndian (sub token 48 56) =? 0)
      then Some (corrupt "ack token identity")
      else None
    else if negb (len token =? 0) then Some (corrupt "pending token") else None.

(** The loop of [validateRecords] over the receipts. *)
Fixpoint receiptsLoop (m : storeMetadata) (rows : list (bytes * receiptRow)) (counts : StoreCounts) (records : Z)
    : M (error + StoreCounts * Z) :=
  match rows with
  | [] => mret (inr (counts, records))
  | (key, r) :: rows =>
      if negb (len key =? 24) || negb (len (r_digest r) =? 32) || negb (len (accept_order r) =? 8) || (r_state r <? 0) || (1 <? r_state r)
      then mret (inl (corrupt "receipt shape"))
      else
        let accepted := bigEndian (accept_order r) in
        if (accepted =? 0) || (m_lastOrder m <? accepted) then mret (inl (corrupt "acceptance order"))
        else
          q ← Query (SelectProducer (sub key 0 16));
          match q with
          | inl err => mret (inl (classifySQLError err))
          | inr None => mret (inl (Join (corrupt "receipt producer") ErrNoRows))
          | inr (Some p) =>
              match receiptRelations m key r p with
              | Some err => mret (inl err)
              | None =>
                  pending ← (if r_state r =? 1 then mret (inr (counts, records))
                    else
                      q ← validatePayload key (r_digest r) (m_policy m);
                      match q with
                      | inl err => mret (inl err)
                      | inr length =>
                          let records := records +64 1 in
                          err ← checkValidationContext records;
                          mret match err with
                               | Some err => inl err
                               | None => inr (with_pending (PendingItems counts +32 1) (PendingPayload counts +64 length)
                                   (Receipts counts) (Producers counts) counts, records)
                               end
                      end);
                  match pending with
                  | inl err => mret (inl err)
                  | inr (counts, records) =>
                      let counts := with_pending (PendingItems counts) (PendingPayload counts) (Receipts counts +32 1)
                        (Producers counts) counts in
                      let policy := m_policy m in
                      if (MaxReceipts policy <? Receipts counts) || (MaxPendingItems policy <? PendingItems counts) ||
                         (MaxPendingPayload policy <? PendingPayload counts)
                      then mret (inl (corrupt "record limits"))
                      else
                        let records := records +64 1 in
                        err ← checkValidationContext records;
                        match err with
                        | Some err => mret (inl err)
                        | None => receiptsLoop m rows counts records
                        end
                  end
              end
          end
  end.

Definition validateRecords (m : storeMetadata) : M (error + StoreCounts * Z) :=
  r ← Rows SelectProducers;
  match r with
  | inl err => mret (inl err)
  | inr (rows, rowsErr) =>
      r ← producersLoop (m_policy m) rows zeroCounts 0;
      match r, rowsErr with
      | inl err, _ => mret (inl err)
      | inr _, Some err => mret (inl err)
      | inr (counts, records), None =>
          r ← Rows SelectReceipts;
          match r with
          | inl err => mret (inl err)
          | inr (rows, rowsErr) =>
              r ← receiptsLoop m rows counts records;
              match r, rowsErr with
              | inl err, _ => mret (inl err)
              | inr _, Some err => mret (inl err)
              | inr (counts, records), None =>
                  r ← Query CountPayloads;
                  mret match r with
                       | inl err => inl err
                       | inr payloadCount =>
                           if negb (payloadCount =? PendingItems counts) then inl (corrupt "payload relationship")
                           else inr (counts, records)
                       end
              end
          end
      end
  end.

Definition validateLogicalState (m : storeMetadata) : M (error + Z) :=
  r ← validateRecords m;
  mret match r with
       | inl err => inl err
       | inr (counts, records) =>
           if negb (bool_decide (counts = m_counts m)) then inl (corrupt "stored counts") else inr (records +64 metaCleanupMarkers)
       end.

(** [validate], after the integrity and the text of the schema are checked. *)
Definition validate : M (error + storeMetadata * Z) :=
  r ← readMetadata;
  match r with
  | inl err => mret (inl err)
  | inr m =>
      r ← validateLogicalState m;
      mret match r with inl err => inl err | inr records => inr (m, records) end
  end.

(** ** Startup *)

(** Statements in a row, until one fails. *)
Fixpoint execEach (sts : list stmt) : M (option error) :=
  match sts with
  | [] => mret None
  | st :: sts => err ← Exec st; match err with Some _ => mret err | None => execEach sts end
  end.

Definition initialValues (config : Config) (uuid : UUID) : list bytes :=
  let values := replicate 15 (encodeUint64 0) in
  let set key value values := <[Z.to_nat (key - 1) := value]> values in
  set metaDurability [c_Durability config] (set metaPolicy (encodePolicy (c_Policy config)) (set metaUUID uuid
    (set metaProfile (Profile (c_Policy config))
      (foldl (λ values key, set key (encodeUint64 1) values) values [metaSchema; metaProfileVersion; metaAccountingVersion])))).

(** [initializeObserved]; [random] is what [rand.Read] answers. *)
Definition initialize (config : Config) (random : error + UUID) : M (option error) :=
  let rollback err := rollbackErr ← Rollback; mret (errors_join (Some err) rollbackErr) in
  err ← ctx_err;
  match err with
  | Some err => mret (Some err)
  | None =>
      err ← Begin;
      match err with
      | Some err => mret (Some err)
      | None =>
          err ← Exec CreateSchema;
          match err, random with
          | Some err, _ => rollback (Errorf "create schema: %w: %w" [] (Join ErrStorage err))
          | None, inl err => rollback err
          | None, inr uuid =>
              err ← execEach (imap (λ i value, InsertMeta (Z.of_nat i + 1) value) (initialValues config uuid));
              match err with
              | Some err => rollback err
              | None =>
                  err ← Commit;
                  match err with Some err => rollback err | None => mret None end
              end
          end
      end
  end.

Definition writeEpoch (epoch : Z) : M (option error) :=
  err ← Begin;
  match err with
  | Some err => mret (Some err)
  | None =>
      err ← Exec (UpdateMeta metaEpoch (encodeUint64 epoch));
      match err with
      | Some err => rollbackErr ← Rollback; mret (errors_join (Some err) rollbackErr)
      | None => Commit
      end
  end.

(** The part of [startStoreObserved] that reads and writes the store. *)
Definition startStore (create : bool) (config : Config) (random : error + UUID) : M (error + storeMetadata) :=
  err ← (if create then initialize config random else mret None);
  match err with
  | Some err => mret (inl err)
  | None =>
      r ← validate;
      match r with
      | inl err => mret (inl err)
      | inr (m, _) =>
          if negb (bool_decide (m_policy m = c_Policy config)) || negb (m_durability m =? c_Durability config)
          then mret (inl ErrConfigMismatch)
          else
            before ← ctx_err;
            after ← match before with Some _ => mret before | None => ctx_err end;
            match after with
            | Some err => mret (inl err)
            | None =>
                match nextIdentity (m_epoch m) with
                | inl err => mret (inl err)
                | inr epoch =>
                    err ← writeEpoch epoch;
                    mret match err with
                         | Some err => inl err
                         | None => inr (Metadata (m_uuid m) (m_policy m) (m_durability m) epoch (m_lastOrder m) (m_counts m))
                         end
                end
            end
      end
  end.
End open.
End DurableOpen.
