(* ===== verification/DurableDelivery.v ===== *)
(** * Delivery of pending entries (src/workq/durable: delivery.go, and its use in coordinator.go)

    The coordinator looks for pending entries in their order of acceptance, claims them and hands
    the indexes of claims to a queue, from which callers of [Receive] acquire them. A section that
    holds the mutex of the queue is one action. Every call on the delivery queue holds this mutex, so
    each runs alone and acts as its sequential specification says. *)

From Stdlib Require Import ZArith Lia.
From stdpp Require Import prelude list gmap strings.
From S2P Require Import Prelude Prog RingCore DurableCore DurableStore DurableOpen.

Module DurableDelivery.
Import Prog Durable DurableStore DurableOpen.

(** ** The part of [Queue] that delivery uses (admission.go) *)

(** The flags of an admitted command that [drainedLocked] reads. *)
Record command_slot := CommandSlot { s_used : bool; s_handed : bool; s_submit : bool; s_finished : bool }.

(** [changed] numbers the channels that were closed; [contexts] gives what [cancellation] reports of
    the contexts that are done. [ready] and [readyClosed] are the delivery queue. *)
Record queue (C : Type) := Queue {
  opened : session C;
  ready : list nat; readyClosed : bool;
  deliveryStopped : bool; deliveryDirty : bool; deliveryClosed : bool;
  lastAttempt : Z; scanWrapped : bool; scanOrder : bytes; scanID : bytes;
  changed : Z; admissionStopped : bool; closing : bool; terminal : option error;
  pending : Z; ordinary : list command_slot; contexts : gmap nat error }.
Arguments Queue {C} _ _ _ _ _ _ _ _ _ _ _ _ _ _ _ _ _.
Arguments opened {C} _.
Arguments ready {C} _.
Arguments readyClosed {C} _.
Arguments deliveryStopped {C} _.
Arguments deliveryDirty {C} _.
Arguments deliveryClosed {C} _.
Arguments lastAttempt {C} _.
Arguments scanWrapped {C} _.
Arguments scanOrder {C} _.
Arguments scanID {C} _.
Arguments changed {C} _.
Arguments admissionStopped {C} _.
Arguments closing {C} _.
Arguments terminal {C} _.
Arguments pending {C} _.
Arguments ordinary {C} _.
Arguments contexts {C} _.

Section delivery.
Context {C : Type} `{!Connection C} (hash : bytes → bytes) (config : Config).
Abbreviation Q := (queue C).
Abbreviation M := (prog Q).

Definition set_opened (s : session C) (q : Q) : Q :=
  Queue s (ready q) (readyClosed q) (deliveryStopped q) (deliveryDirty q) (deliveryClosed q) (lastAttempt q) (scanWrapped q)
    (scanOrder q) (scanID q) (changed q) (admissionStopped q) (closing q) (terminal q) (pending q) (ordinary q) (contexts q).
Definition set_ready (l : list nat) (c : bool) (q : Q) : Q :=
  Queue (opened q) l c (deliveryStopped q) (deliveryDirty q) (deliveryClosed q) (lastAttempt q) (scanWrapped q)
    (scanOrder q) (scanID q) (changed q) (admissionStopped q) (closing q) (terminal q) (pending q) (ordinary q) (contexts q).
Definition set_scan (dirty wrapped : bool) (order id : bytes) (q : Q) : Q :=
  Queue (opened q) (ready q) (readyClosed q) (deliveryStopped q) dirty (deliveryClosed q) (lastAttempt q) wrapped
    order id (changed q) (admissionStopped q) (closing q) (terminal q) (pending q) (ordinary q) (contexts q).
Definition set_attempt (a : Z) (q : Q) : Q :=
  Queue (opened q) (ready q) (readyClosed q) (deliveryStopped q) (deliveryDirty q) (deliveryClosed q) a (scanWrapped q)
    (scanOrder q) (scanID q) (changed q) (admissionStopped q) (closing q) (terminal q) (pending q) (ordinary q) (contexts q).
Definition set_stopped (stopped closed : bool) (q : Q) : Q :=
  Queue (opened q) (ready q) (readyClosed q) stopped (deliveryDirty q) closed (lastAttempt q) (scanWrapped q)
    (scanOrder q) (scanID q) (changed q) (admissionStopped q) (closing q) (terminal q) (pending q) (ordinary q) (contexts q).
Definition set_cutoff (adm cl : bool) (t : option error) (q : Q) : Q :=
  Queue (opened q) (ready q) (readyClosed q) (deliveryStopped q) (deliveryDirty q) (deliveryClosed q) (lastAttempt q) (scanWrapped q)
    (scanOrder q) (scanID q) (changed q) adm cl t (pending q) (ordinary q) (contexts q).
Definition set_contexts (c : gmap nat error) (q : Q) : Q :=
  Queue (opened q) (ready q) (readyClosed q) (deliveryStopped q) (deliveryDirty q) (deliveryClosed q) (lastAttempt q) (scanWrapped q)
    (scanOrder q) (scanID q) (changed q) (admissionStopped q) (closing q) (terminal q) (pending q) (ordinary q) c.

(** A signal closes the channel and makes a new one. *)
Definition signalLocked (q : Q) : Q :=
  Queue (opened q) (ready q) (readyClosed q) (deliveryStopped q) (deliveryDirty q) (deliveryClosed q) (lastAttempt q) (scanWrapped q)
    (scanOrder q) (scanID q) (changed q + 1) (admissionStopped q) (closing q) (terminal q) (pending q) (ordinary q) (contexts q).

Definition set_claims (cs : list claim) (retained : Z) (q : Q) : Q :=
  set_opened (Session (conn (opened q)) (metadata (opened q)) cs retained) q.

(** ** Stopping *)

Definition stopDeliveryLocked (q : Q) : Q := signalLocked (set_stopped true (deliveryClosed q) q).
Definition StopDelivery : M unit := modify stopDeliveryLocked.

Definition clearClaimLocked (index : nat) (q : Q) : Q := set_opened (clear_claim index (opened q)) q.

(** The indexes that are left in the delivery queue are taken out and their claims cleared. *)
Definition closeDeliveryLocked (q : Q) : Q :=
  if deliveryClosed q then q
  else
    let closed := set_ready [] true (set_stopped (deliveryStopped q) true q) in
    signalLocked (foldl (λ q index, clearClaimLocked index q) closed (ready q)).

(** [cutoffLocked] (lifecycle.go) and [faultLocked] (coordinator.go), without the snapshot. *)
Definition cutoffLocked (q : Q) : Q :=
  if closing q then q
  else let q := stopDeliveryLocked q in signalLocked (set_cutoff true true (terminal q) q).

Definition faultLocked (err : error) (q : Q) : Q :=
  let cause := match terminal q with
    | None => Some err
    | Some t => if errors_Is err ErrStorage then Some (Join t err) else Some t
    end in
  cutoffLocked (set_cutoff (admissionStopped q) (closing q) cause q).

(** ** Receive *)

Definition available (q : Q) : nat := length (filter (λ c, used c && negb (acquired c) = true) (claims (opened q))).

Definition drainedLocked (q : Q) : bool :=
  admissionStopped q && (pending q =? 0) &&
  negb (existsb (λ slot, s_used slot && s_handed slot && s_submit slot && negb (s_finished slot)) (ordinary q)).

(** The claim keeps the identity and the token; the delivery goes to the caller. *)
Definition acquire_claim (slot : claim) : claim :=
  Claim (used slot) true (MkDelivery (d_ID (delivery slot)) [] [] (d_Token (delivery slot))) (charge slot).

(** The inner loop of [receiveObserved]; [fuel] is the capacity that is left in [deliveries]. An index
    without a claim panics. *)
Fixpoint acquire (fuel : nat) (deliveries : list Delivery) (q : Q) : option (Q * list Delivery) :=
  match fuel, ready q with
  | O, _ | _, [] => Some (q, deliveries)
  | Datatypes.S fuel, index :: rest =>
      match claims (opened q) !! index with
      | None => None
      | Some slot =>
          acquire fuel (deliveries ++ [delivery slot])
            (set_claims (<[index := acquire_claim slot]> (claims (opened q))) (deliveryRetained (opened q)) (set_ready rest (readyClosed q) q))
      end
  end.

(** One turn with the mutex held: a result, or the channel to wait for. *)
Definition receive_turn (ctx : nat) (limit : Z) (q : Q) : option (Q * (Z + (error + list Delivery))) :=
  match contexts q !! ctx with
  | Some err => Some (q, inr (inl err))
  | None =>
      if deliveryStopped q then Some (q, inr (inl (match terminal q with Some t => Join ErrStopped t | None => ErrStopped end)))
      else
        match acquire (Nat.min (Z.to_nat limit) (available q)) [] q with
        | None => None
        | Some (q, []) => Some (q, if drainedLocked q then inr (inl ErrDrained) else inl (changed q))
        | Some (q, deliveries) => Some (q, inr (inr deliveries))
        end
  end.

Definition receive_wait (ctx : nat) (seen : Z) : M unit :=
  await (λ q, if bool_decide (is_Some (contexts q !! ctx)) || negb (changed q =? seen) then [(q, tt)] else []).

Definition Receive (ctx : nat) (limit : Z) : M (error + list Delivery) :=
  if (limit <=? 0) || (ReceiveItems (r_Delivery (c_Runtime config)) <? limit) then mret (inl ErrInvalidInput)
  else forever (
    r ← access (receive_turn ctx limit);
    match r with
    | inr result => mret (Some result)
    | inl seen => _ ← receive_wait ctx seen; mret None
    end).

(** ** Dispatch *)

Program Definition queue_conn : focus Q C :=
  Focus (λ q, Some (conn (opened q)))
    (λ c q, set_opened (Session c (metadata (opened q)) (claims (opened q)) (deliveryRetained (opened q))) q) _ _ _.
Next Obligation. by intros s x x' _. Qed.
Next Obligation. by intros s x x'. Qed.
Next Obligation. by intros [[c m cl d]] x [= <-]. Qed.

Program Definition queue_session : focus Q (session C) := Focus (λ q, Some (opened q)) set_opened _ _ _.
Next Obligation. by intros s x x' _. Qed.
Next Obligation. by intros s x x'. Qed.
Next Obligation. by intros [] x [= <-]. Qed.

(** The next pending entry after the position of the scan, or nothing at the end. *)
Definition nextDeliveryID : M (error + option ID) :=
  '(order, id) ← load (λ q, (scanOrder q, scanID q));
  r ← zoom queue_conn (Query (SelectNextPending order id));
  match r with
  | inl err => mret (inl err)
  | inr None => mret (inr None)
  | inr (Some (order, encoded)) =>
      if negb (len order =? 8) then mret (inl ErrStorage)
      else match decodeID encoded with
           | inl err => mret (inl err)
           | inr id =>
               _ ← modify (λ q, set_scan (deliveryDirty q) (scanWrapped q) order encoded q);
               mret (inr (Some id))
           end
  end.

(** The errors of scanning, of the rows and of closing them, joined. *)
Definition readDelivery (id : ID) (token : Token) (payloadLength codecLength : Z) : M (error + Delivery) :=
  r ← zoom queue_conn (Rows (SelectDelivery (encodeID id)));
  mret match r with
       | inl err => inl (Join ErrStorage err)
       | inr (rows, rowsErr) =>
           let row := match rows with
             | [] => inl ErrStorage
             | (payload, codec, digest) :: _ =>
                 if negb (len payload =? payloadLength) || negb (len codec =? codecLength) then inl ErrStorage
                 else if negb (bool_decide (entryDigest hash codec payload = digest)) then inl ErrStorage
                 else inr (MkDelivery id codec payload token)
             end in
           match row, rowsErr with
           | inr delivery, None => inr delivery
           | inr _, Some err => inl (Join ErrStorage err)
           | inl err, _ => inl (Join ErrStorage (match rowsErr with Some err' => Join err err' | None => err end))
           end
       end.

(** The first section of [loadDelivery] that holds the mutex: nothing, an error, or the token of the
    new claim. *)
Definition claimDelivery (index : nat) (id : ID) (charge : Z) (q : Q) : Q * (option error + Token) :=
  let s := opened q in
  if deliveryStopped q then (q, inl None)
  else if d_Retained (r_Delivery (c_Runtime config)) -64 deliveryRetained s <? charge then (q, inl None)
  else
    match nextIdentity (lastAttempt q) with
    | inl err => (q, inl (Some err))
    | inr attempt =>
        let token := encodeToken (m_uuid (metadata s)) (m_epoch (metadata s)) id attempt in
        (set_claims (<[index := Claim true false (MkDelivery id [] [] token) charge]> (claims s)) (deliveryRetained s +64 charge)
           (set_attempt attempt q), inr token)
    end.

(** The capacity of the delivery queue that [Open] makes (lifecycle.go). *)
Fixpoint capacityLoop (fuel : nat) (capacity items : Z) : Z :=
  match fuel with
  | O => capacity
  | Datatypes.S fuel => if capacity <? items then capacityLoop fuel (capacity * 2) items else capacity
  end.
Definition deliveryCapacity : Z := capacityLoop 62 1 (d_Items (r_Delivery (c_Runtime config))).

Definition queue_ErrClosed : error := New "workq: queue is closed".

(** The last section: the claim is published, or cleared. *)
Definition publishDelivery (index : nat) (r : error + Delivery) (q : Q) : Q * option error :=
  match r with
  | inl err => (clearClaimLocked index q, Some err)
  | inr delivery =>
      if deliveryStopped q then (clearClaimLocked index q, None)
      else
        let s := opened q in
        let q := set_claims (alter (λ c, Claim (used c) (acquired c) delivery (charge c)) index (claims s)) (deliveryRetained s) q in
        if readyClosed q then (clearClaimLocked index q, Some (Join ErrStorage queue_ErrClosed))
        else if deliveryCapacity <=? len (ready q) then (clearClaimLocked index q, Some (Join ErrStorage Ring.ErrFull))
        else (signalLocked (set_ready (ready q ++ [index]) false q), None)
  end.

Definition loadDelivery (index : nat) (id : ID) : M (option error) :=
  r ← zoom queue_conn (Query (SelectPayload (encodeID id)));
  match r with
  | inl err => mret (Some (Join ErrStorage err))
  | inr None => mret (Some (Join ErrStorage ErrNoRows))
  | inr (Some row) =>
      let payloadLength := len (p_payload row) in
      let codecLength := len (p_codec row) in
      if (payloadLength <? 0) || (codecLength <? 0) || (MaxPayload (c_Policy config) <? payloadLength) ||
         (MaxCodec (c_Policy config) <? codecLength) then mret (Some ErrStorage)
      else if ReadScratch (r_Delivery (c_Runtime config)) <? deliveryScratchCharge payloadLength codecLength
      then mret (Some ErrStorage)
      else
        let charge := (chargeOrZero payloadLength +64 chargeOrZero codecLength) +64 256 in
        r ← act (claimDelivery index id charge);
        match r with
        | inl err => mret err
        | inr token =>
            d ← readDelivery id token payloadLength codecLength;
            act (publishDelivery index d)
        end
  end.

(** The first claim that is free, unless delivery was stopped. *)
Fixpoint free_claim (cs : list claim) (index : nat) : option nat :=
  match cs with
  | [] => None
  | c :: cs => if used c then free_claim cs (Datatypes.S index) else Some index
  end.

Definition dispatch_free (q : Q) : Q * option nat :=
  if deliveryStopped q then (q, None)
  else match free_claim (claims (opened q)) 0 with
       | None => (set_scan false false (scanOrder q) (scanID q) q, None)
       | Some index => (q, Some index)
       end.

(** The scan has reached the end: it starts again once, for entries that were accepted meanwhile. *)
Definition dispatch_wrap (q : Q) : Q :=
  set_scan (negb (scanWrapped q)) (negb (scanWrapped q)) (replicate 8 0) (replicate 24 0) q.

Fixpoint dispatchLoop (rows : nat) : M (option error) :=
  match rows with
  | O => mret None
  | Datatypes.S rows =>
      free ← act dispatch_free;
      match free with
      | None => mret None
      | Some index =>
          r ← nextDeliveryID;
          match r with
          | inl err => mret (Some (Join ErrStorage err))
          | inr None => _ ← modify dispatch_wrap; mret None
          | inr (Some id) =>
              claimed ← load (λ q, bool_decide (is_Some (find_claim id (claims (opened q)) 0)));
              if claimed : bool then dispatchLoop rows
              else
                err ← loadDelivery index id;
                match err with Some err => mret (Some err) | None => dispatchLoop rows end
          end
      end
  end.

Definition dispatch : M (option error) := dispatchLoop (Z.to_nat (ScanRows (r_Delivery (c_Runtime config)))).

(** ** The coordinator's work on deliveries (coordinator.go) *)

(** What [coordinate] does about deliveries before it takes a command. *)
Definition serve : M unit :=
  due ← load (λ q, deliveryDirty q && negb (deliveryStopped q));
  err ← (if due : bool then dispatch else mret None);
  modify (λ q,
    let q := match err with
      | Some err => if errors_Is err ErrMaintenanceRequired then q else faultLocked err q
      | None => q
      end in
    if deliveryStopped q && negb (deliveryClosed q) then closeDeliveryLocked q else q).

(** The turn of a release command. *)
Definition release (token : Token) : M (option error) :=
  err ← zoom queue_session (executeRelease token);
  modify (λ q, match err with None => set_scan true false (scanOrder q) (scanID q) q | Some _ => q end) ;;
  mret err.

(** The delivery part of the queue that [Open] returns. *)
Definition openQueue (c : C) (m : storeMetadata) : Q :=
  Queue (Session c m (replicate (Z.to_nat (d_Items (r_Delivery (c_Runtime config)))) zero_claim) 0) [] false
    false true false 0 false (replicate 8 0) (replicate 24 0) 0 false false None (PendingItems (m_counts m))
    (replicate (Z.to_nat (Commands (Ordinary (c_Runtime config)))) (CommandSlot false false false false)) ∅.
End delivery.
End DurableDelivery.
