(* ===== verification/DurableStart.v ===== *)
(** * A consistent store can be opened again (src/workq/durable: validation.go, startup.go)

    Validation accepts every store that satisfies the invariant, and fails only with an error that the
    connection or the context reported. Opening a store keeps what it says of every identity and moves
    its epoch on, however the statements fail; a new store starts with every identity absent. *)

From Stdlib Require Import ZArith Lia.
From stdpp Require Import prelude list gmap strings sorting.
From S2P Require Import Prelude Prog DurableCore DurableSpec DurableStore DurableInv DurableTx DurableGroup DurableCleanup DurableMem DurableOpen.

Module DurableStart.
Import Prog Durable DurableSpec DurableStore DurableInv DurableTx DurableGroup DurableCleanup DurableMem DurableOpen.

(** ** Two facts about one program *)

Lemma ends_both {S A} (p : prog S A) s (Q1 Q2 : A → S → Prop) :
  ends p s Q1 → ends p s Q2 → ends p s (λ a s', Q1 a s' ∧ Q2 a s').
Proof.
  intros H1. induction H1 as [p s a Hr HQ|p s Hr Hne _ IH]; intros H2.
  - eapply returns_now; [done|]. inversion H2 as [a' Hr' HQ'|Hr' ?]; [|congruence]. assert (a' = a) as -> by congruence. done.
  - apply returns_later; [done..|]. intros s' p' Hin. apply IH; [done|].
    inversion H2 as [a' Hr' HQ'|_ _ Hl]; [congruence|]. by apply Hl.
Qed.

(** ** Rows in the order of their keys *)

Lemma rows_of_permutation {R} (m : gmap bytes R) : rows_of m ≡ₚ map_to_list m.
Proof.
  unfold rows_of, keys_where. rewrite merge_sort_Permutation.
  assert (∀ l : list (bytes * R), (∀ k r, (k, r) ∈ l → m !! k = Some r) →
    omap (λ k, (λ r, (k, r)) <$> m !! k) (omap (λ '(k, r), Some k) l) = l) as Hid.
  { induction l as [|[k r] l IH]; intros Hl; [done|]. simpl. rewrite (Hl k r) by (by left). simpl. f_equal. apply IH.
    intros k' r' Hin. apply Hl. by right. }
  rewrite Hid; [done|]. intros k r. by apply elem_of_map_to_list.
Qed.

Lemma elem_of_rows {R} (m : gmap bytes R) k r : (k, r) ∈ rows_of m → m !! k = Some r.
Proof. rewrite rows_of_permutation. by apply elem_of_map_to_list. Qed.

(** Sums over rows. *)
Definition lsum {X} (f : X → Z) (l : list X) : Z := foldr (λ x n, f x + n) 0 l.

Lemma lsum_cons {X} (f : X → Z) x (l : list X) : lsum f (x :: l) = f x + lsum f l.
Proof. done. Qed.

Lemma lsum_permutation {X} (f : X → Z) (l l' : list X) : l ≡ₚ l' → lsum f l = lsum f l'.
Proof. unfold lsum. induction 1; simpl; lia. Qed.

Lemma lsum_nonneg {X} (f : X → Z) (l : list X) : (∀ x, x ∈ l → 0 <= f x) → 0 <= lsum f l.
Proof.
  induction l as [|x l IH]; intros Hf; [done|]. cbn [lsum foldr]. fold (lsum f l). pose proof (Hf x ltac:(by left)).
  assert (0 <= lsum f l); [|lia]. apply IH. intros y Hy. apply Hf. by right.
Qed.

Lemma lsum_app {X} (f : X → Z) (l l' : list X) : lsum f (l ++ l') = lsum f l + lsum f l'.
Proof. induction l as [|x l IH]; [done|]. cbn [app lsum foldr]. fold (lsum f (l ++ l')) (lsum f l). lia. Qed.

Lemma lsum_take {X} (f : X → Z) (l : list X) k : (∀ x, x ∈ l → 0 <= f x) → lsum f (take k l) <= lsum f l.
Proof.
  intros Hf. rewrite <- (take_drop k l) at 2. rewrite lsum_app. assert (0 <= lsum f (drop k l)); [|lia].
  apply lsum_nonneg. intros x Hx. apply Hf. rewrite <- (take_drop k l). apply elem_of_app. by right.
Qed.

Lemma lsum_ext {X} (f g : X → Z) (l : list X) : (∀ x, x ∈ l → f x = g x) → lsum f l = lsum g l.
Proof.
  induction l as [|x l IH]; intros Hf; [done|]. cbn [lsum foldr]. fold (lsum f l) (lsum g l). rewrite (Hf x) by (by left).
  f_equal. apply IH. intros y Hy. apply Hf. by right.
Qed.

Lemma lsum_fmap {X Y} (f : Y → Z) (g : X → Y) (l : list X) : lsum f (g <$> l) = lsum (λ x, f (g x)) l.
Proof. induction l as [|x l IH]; [done|]. cbn. fold (lsum f (g <$> l)). rewrite IH. done. Qed.

Lemma lsum_rows {R} (f : R → Z) (m : gmap bytes R) : lsum (λ x, f x.2) (rows_of m) = msum f m.
Proof.
  rewrite (lsum_permutation _ _ _ (rows_of_permutation m)). unfold msum. rewrite map_fold_foldr. unfold lsum.
  induction (map_to_list m) as [|[k r] l IH]; [done|]. simpl. by rewrite IH.
Qed.

(** What a receipt adds to the counts of pending work. *)
Definition pending_of (t : tables) (f : payloadRow → Z) (x : bytes * receiptRow) : Z :=
  if r_state x.2 =? 1 then 0 else from_option f 0 (t_payloads t !! x.1).

(** The keys of the pending receipts. *)
Definition pending_keys (t : tables) : list bytes :=
  omap (λ x, if r_state x.2 =? 1 then None else Some x.1) (rows_of (t_receipts t)).

Lemma elem_of_rows_of {R} (m : gmap bytes R) k r : (k, r) ∈ rows_of m ↔ m !! k = Some r.
Proof. rewrite rows_of_permutation. apply elem_of_map_to_list. Qed.

Lemma rows_of_nodup {R} (m : gmap bytes R) : NoDup (rows_of m).*1.
Proof. rewrite rows_of_permutation. apply NoDup_fst_map_to_list. Qed.

Lemma elem_of_pending_keys t k : k ∈ pending_keys t ↔ ∃ r, t_receipts t !! k = Some r ∧ r_state r ≠ 1.
Proof.
  unfold pending_keys. rewrite list_elem_of_omap. split.
  - intros ([k' r] & Hin%elem_of_rows_of & Hc). cbn in Hc. destruct (Z.eqb_spec (r_state r) 1); [done|]. injection Hc as ->. by exists r.
  - intros (r & Hr & Hst). exists (k, r). rewrite elem_of_rows_of. cbn. by rewrite (proj2 (Z.eqb_neq _ _) Hst).
Qed.

Lemma pending_keys_nodup t : NoDup (pending_keys t).
Proof.
  unfold pending_keys. pose proof (rows_of_nodup (t_receipts t)) as Hnd. revert Hnd.
  generalize (rows_of (t_receipts t)) as l. induction l as [|[k r] l IH]; [constructor|]. cbn. intros [Hk Hl]%NoDup_cons.
  destruct (r_state r =? 1); [by apply IH|]. constructor; [|by apply IH].
  intros ([k' r'] & Hin & Hc)%list_elem_of_omap. cbn in Hc. destruct (r_state r' =? 1); [done|]. injection Hc as ->.
  apply Hk. apply list_elem_of_fmap. by exists (k, r').
Qed.

Lemma lsum_pending_keys t (f : payloadRow → Z) :
  lsum (pending_of t f) (rows_of (t_receipts t)) = lsum (λ k, from_option f 0 (t_payloads t !! k)) (pending_keys t).
Proof.
  unfold pending_keys, pending_of. generalize (rows_of (t_receipts t)) as l.
  induction l as [|[k r] l IH]; [done|]. cbn [lsum foldr omap list_omap fst snd]. destruct (r_state r =? 1); [apply IH|].
  cbn [lsum foldr]. f_equal. apply IH.
Qed.

Lemma lsum_payload_keys t (f : payloadRow → Z) :
  lsum (λ k, from_option f 0 (t_payloads t !! k)) (rows_of (t_payloads t)).*1 = msum f (t_payloads t).
Proof. rewrite <- lsum_rows, lsum_fmap. apply lsum_ext. intros [k row] Hin%elem_of_rows. cbn. by rewrite Hin. Qed.

(** The payloads are those of the pending receipts. *)
Lemma lsum_pending hash t m (f : payloadRow → Z) :
  rows_ok hash t m → lsum (pending_of t f) (rows_of (t_receipts t)) = msum f (t_payloads t).
Proof.
  intros Hok. rewrite lsum_pending_keys, <- lsum_payload_keys. apply lsum_permutation, NoDup_Permutation.
  - apply pending_keys_nodup.
  - apply rows_of_nodup.
  - intros k. rewrite elem_of_pending_keys, list_elem_of_fmap. split.
    + intros (r & Hr & Hst). destruct (pending_payload hash t m k r Hok Hr) as (_ & row & Hrow & _); [done|].
      exists (k, row). by rewrite elem_of_rows_of.
    + intros ([k' row] & -> & Hin%elem_of_rows). destruct (ro_payload _ _ _ Hok _ _ Hin) as (r & Hr & Hst).
      exists r. split; [done|lia].
Qed.

(** ** Reading outside a transaction *)

Section start.
Context {C : Type} `{!Connection C} (hash : bytes → bytes) (ctx_err : prog C (option error)).

(** [E] are the errors that the connection and the context report. *)
Context (E : error → Prop).
Context (query_reports : ∀ A (q : query A) c, ends (Query q) c (λ r _, ∀ e, r = inl e → E e)).
Context (rows_report : ∀ R (q : query (list R)) c, ends (Rows q) c (λ r _, match r with inl e => E e | inr (_, Some e) => E e | _ => True end)).
Context (ctx_keeps : ∀ c, ends ctx_err c (λ err c', c' = c ∧ ∀ e, err = Some e → E e)).

Context (exec_reports : ∀ st c, ends (Exec st) c (λ err _, ∀ e, err = Some e → E e)).
Context (begin_reports : ∀ c, ends Begin c (λ err _, ∀ e, err = Some e → E e)).
Context (commit_reports : ∀ c, ends Commit c (λ err _, ∀ e, err = Some e → E e)).
Context (rollback_reports : ∀ c, ends Rollback c (λ err _, ∀ e, err = Some e → E e)).

(** A reported error: as it is, classified, joined with another one, or with its context. *)
Inductive reported : error → Prop :=
| reported_raw e : E e → reported e
| reported_classified e : E e → reported (classifySQLError e)
| reported_join e e' : reported e → reported e' → reported (Join e e')
| reported_schema e : E e → reported (Errorf "create schema: %w: %w" [] (Join ErrStorage e)).
#[local] Hint Constructors reported : core.

Definition idle (t : tables) (c : C) : Prop := in_tx c = false ∧ saved c = t.

Lemma idle_view t c : idle t c → view c = t.
Proof. intros [Hi Hs]. rewrite view_saved by done. done. Qed.

Lemma ends_read {A} (q : query A) t c (Q : error + A → C → Prop) :
  idle t c → (∀ c', idle t c' → Q (inr (ask q t)) c') → (∀ e c', idle t c' → E e → Q (inl e) c') → ends (Query q) c Q.
Proof.
  intros Hc Hok Hfail. pose proof Hc as [Hi Hs]. eapply ends_mono; [apply ends_both; [apply query_law|apply query_reports]|].
  intros [e|a] c' [[Hs' H] He].
  - apply Hfail; [|by apply He]. split; [|congruence]. destruct (in_tx c') eqn:Hin; [|done]. destruct (H eq_refl). congruence.
  - destruct H as (Hin & Hv & ->). rewrite (idle_view t c Hc). apply Hok. split; congruence.
Qed.

Lemma ends_rows {R} (q : query (list R)) t c (Q : error + list R * option error → C → Prop) :
  idle t c → (∀ c', idle t c' → Q (inr (ask q t, None)) c') →
  (∀ e k c', idle t c' → E e → Q (inr (take k (ask q t), Some e)) c') → (∀ e c', idle t c' → E e → Q (inl e) c') → ends (Rows q) c Q.
Proof.
  intros Hc Hok Hpart Hfail. pose proof Hc as [Hi Hs]. eapply ends_mono; [apply ends_both; [apply rows_law|apply rows_report]|].
  intros [e|[rows err]] c' [(Hs' & Hin & H) He]; (assert (idle t c') by (split; [by apply Hin|congruence])); [by apply Hfail|].
  destruct (H rows err eq_refl) as [[k Hk] Hall]. rewrite (idle_view t c Hc) in Hk, Hall. subst rows.
  destruct err as [e|]; [by apply Hpart|]. rewrite Hall by done. by apply Hok.
Qed.

(** ** Metadata *)

Lemma metadataLoop_ok rows : ∀ count values,
  0 <= count → (∀ i k v, rows !! i = Some (k, v) → k = count + Z.of_nat i + 1 ∧ k <= 15 ∧ len v = expectedLength k) →
  metadataLoop rows count values = inr (count + len rows, foldl (λ values x, <[Z.to_nat (x.1 - 1) := x.2]> values) values rows).
Proof.
  induction rows as [|[key value] rows IH]; intros count values Hc Hrows; cbn [metadataLoop foldl]; [by rewrite Z.add_0_r|].
  destruct (Hrows 0%nat key value eq_refl) as (Hk & H15 & Hl). cbv zeta.
  assert (negb (key =? count + 1) || (15 <? key) = false) as -> by (apply orb_false_iff; split; [apply negb_false_iff|]; lia).
  rewrite Hl, Z.eqb_refl. cbn [negb]. rewrite IH; [|lia|].
  - unfold len. cbn [length]. do 2 f_equal. lia.
  - intros i k v Hi. destruct (Hrows (Datatypes.S i) k v Hi) as (H1 & H2 & H3). split; [lia|done].
Qed.

(** The rows of the metadata. *)
Definition meta_list (m : storeMetadata) : list (Z * bytes) :=
  let c := m_counts m in
  [(metaSchema, encodeUint64 1); (metaProfile, Profile (m_policy m)); (metaProfileVersion, encodeUint64 1);
   (metaAccountingVersion, encodeUint64 1); (metaUUID, m_uuid m); (metaPolicy, encodePolicy (m_policy m));
   (metaDurability, [m_durability m]); (metaEpoch, encodeUint64 (m_epoch m)); (metaLastOrder, encodeUint64 (m_lastOrder m));
   (metaPendingItems, encodeUint64 (PendingItems c)); (metaPendingPayload, encodeUint64 (PendingPayload c));
   (metaReceipts, encodeUint64 (Receipts c)); (metaProducers, encodeUint64 (Producers c));
   (metaRetiredProducers, encodeUint64 (RetiredProducers c)); (metaCleanupMarkers, encodeUint64 (CleanupMarkers c))].

Lemma sorted_keys (l : list Z) : Sorted Z.le l → ∀ l', l' ≡ₚ l → merge_sort Z.le l' = l.
Proof.
  intros Hs l' Hp. apply (Sorted_unique Z.le); [|done|by rewrite merge_sort_Permutation].
  apply Sorted_merge_sort. intros x y. lia.
Qed.

Lemma meta_rows_of m : meta_rows (meta_of m) = meta_list m.
Proof.
  assert (NoDup (meta_list m).*1) as Hnd by (apply (bool_decide_unpack _); by vm_compute).
  assert (map_to_list (meta_of m) ≡ₚ meta_list m) as Hperm by (by apply map_to_list_to_map).
  unfold meta_rows. rewrite (sorted_keys (meta_list m).*1); [| |by rewrite Hperm].
  - unfold meta_of. fold (meta_list m).
    assert (∀ l, (∀ x, x ∈ l → x ∈ meta_list m) →
      omap (λ k, (λ v, (k, v)) <$> (list_to_map (meta_list m) : gmap Z bytes) !! k) l.*1 = l) as Hall.
    { induction l as [|[k v] l IH]; intros Hl; [done|]. cbn [fmap list_fmap fst omap list_omap].
      rewrite (elem_of_list_to_map_1 (meta_list m) k v Hnd (Hl _ ltac:(by left))). cbn. f_equal. apply IH. intros x Hx. apply Hl. by right. }
    apply Hall. done.
  - repeat constructor; by vm_compute.
Qed.
Lemma meta_list_shape t m i k v :
  store_ok hash t m → meta_list m !! i = Some (k, v) → k = 0 + Z.of_nat i + 1 ∧ k <= 15 ∧ len v = expectedLength k.
Proof.
  intros [Hrows _ _ _] Hi. pose proof (policy_ok _ (proj1 (ro_policy _ _ _ Hrows))) as (Hprof & _).
  pose proof (ro_uuid _ _ _ Hrows) as [Hu _].
  do 15 (destruct i as [|i]; [cbn in Hi; injection Hi as <- <-; split; [done|]; split; [done|];
    first [done | by rewrite Hprof | by unfold len; rewrite Hu | by unfold len, encodePolicy; rewrite concat_put_length]|]).
  by destruct i.
Qed.

(** The metadata that are read are the ones that were written. *)
Lemma decodeMetadata_of t m : store_ok hash t m → decodeMetadata (meta_list m).*2 = inr m.
Proof.
  intros [Hrows Hlim Hdur _]. pose proof (counts_range _ _ _ Hrows) as Hcr. cbv zeta in Hcr.
  destruct (ro_policy _ _ _ Hrows) as [Hv Hcodec]. pose proof (policy_ok _ Hv) as Hpol. unfold limits_ok in Hlim.
  pose proof (ro_epoch _ _ _ Hrows). pose proof (ro_order _ _ _ Hrows). unfold ProcessCrash in Hdur.
  destruct m as [uuid policy durability epoch last [c0 c1 c2 c3 c4 c5]]. simpl in *.
  unfold decodeMetadata. cbv zeta. cbn [fmap list_fmap snd meta_list m_counts m_policy m_uuid m_durability m_epoch m_lastOrder
    PendingItems PendingPayload Receipts Producers RetiredProducers CleanupMarkers].
  unfold metaSchema, metaProfile, metaProfileVersion, metaAccountingVersion, metaUUID, metaPolicy, metaDurability, metaEpoch,
    metaLastOrder, metaPendingItems.
  replace (forallb _ _) with true by (by vm_compute). cbn [negb].
  change (Z.to_nat (2 - 1)) with 1%nat. change (Z.to_nat (6 - 1)) with 5%nat. change (Z.to_nat (7 - 1)) with 6%nat.
  change (Z.to_nat (5 - 1)) with 4%nat. change (Z.to_nat (8 - 1)) with 7%nat. change (Z.to_nat (9 - 1)) with 8%nat.
  change (Z.to_nat (10 + 0 - 1)) with 9%nat. change (Z.to_nat (10 + 1 - 1)) with 10%nat. change (Z.to_nat (10 + 2 - 1)) with 11%nat.
  change (Z.to_nat (10 + 3 - 1)) with 12%nat. change (Z.to_nat (10 + 4 - 1)) with 13%nat. change (Z.to_nat (10 + 5 - 1)) with 14%nat.
  cbn [lookup list_lookup default from_option head id]. rewrite decode_encodePolicy by done. unfold encodeUint64.
  rewrite !bigEndian_put by (unfold is_u64; lia). rewrite !u32_small by (unfold is_u32; lia).
  rewrite (proj2 (Z.ltb_ge _ _)) by (unfold ProcessCrash; lia).
  replace (_ || _ || _ || _ || _ || _) with false; [done|]. symmetry. rewrite !orb_false_iff, !Z.ltb_ge. lia.
Qed.

Lemma readMetadata_spec t m c :
  store_ok hash t m → idle t c →
  ends readMetadata c (λ r c', idle t c' ∧ match r with inl e => E e | inr m' => m' = m end).
Proof.
  intros Hok Hc. unfold readMetadata. apply ends_bind.
  assert (ask SelectMeta t = meta_list m) as Hask by (simpl; rewrite (so_meta _ _ _ Hok); apply meta_rows_of).
  eapply (ends_rows SelectMeta t); [done|..]; rewrite ?Hask.
  - intros c' Hc'. apply ends_ret. split; [done|]. rewrite metadataLoop_ok; [|done|intros i k v; by apply (meta_list_shape t m)].
    change (0 + len (meta_list m)) with 15. cbn [negb Z.eqb Pos.eqb].
    change (foldl _ _ (meta_list m)) with ((meta_list m).*2). by rewrite (decodeMetadata_of t m Hok).
  - intros e k c' Hc' He. apply ends_ret. split; [done|]. rewrite metadataLoop_ok; [done|done|].
    intros i k' v Hi. apply lookup_take_Some in Hi as [Hi _]. by apply (meta_list_shape t m).
  - intros e c' Hc' He. by apply ends_ret.
Qed.
(** ** Records *)

Lemma checkValidationContext_spec t records c :
  idle t c → ends (checkValidationContext ctx_err records) c (λ err c', idle t c' ∧ ∀ e, err = Some e → E e).
Proof.
  intros Hc. unfold checkValidationContext. destruct (records mod 256 =? 0); [|by apply ends_ret].
  eapply ends_mono; [apply ctx_keeps|]. by intros err c' [-> He].
Qed.

(** The checks of a producer pass. *)
Lemma producer_checks t m k p :
  rows_ok hash t m → t_producers t !! k = Some p →
  negb (len k =? 16) || negb (len (retired_through p) =? 8) ||
    negb ((0 <=? has_retirement p) && (has_retirement p <=? 1) && (0 <=? cleanup_needed p) && (cleanup_needed p <=? 1)) = false ∧
  (has_retirement p =? 0) && (negb (bigEndian (retired_through p) =? 0) || negb (cleanup_needed p =? 0)) = false ∧
  0 <= cleanup_needed p <= 1 ∧ 0 <= has_retirement p <= 1.
Proof.
  intros Hok Hp. destruct (ro_producer _ _ _ Hok _ _ Hp) as [[Hl _] Hrow]. unfold len. rewrite Hl.
  destruct Hrow as [(-> & -> & ->)|(-> & (f & _ & ->) & [->| ->])]; split_and!; by try vm_compute.
Qed.

Lemma producersLoop_spec t m rows : ∀ counts records c,
  rows_ok hash t m → idle t c → (∀ k p, (k, p) ∈ rows → t_producers t !! k = Some p) →
  0 <= RetiredProducers counts <= Producers counts → 0 <= CleanupMarkers counts <= Producers counts →
  Producers counts + len rows <= MaxProducers (m_policy m) →
  ends (producersLoop ctx_err (m_policy m) rows counts records) c (λ r c', idle t c' ∧
    match r with
    | inl e => E e
    | inr (counts', _) => counts' = Counts (PendingItems counts) (PendingPayload counts) (Receipts counts)
        (Producers counts + len rows) (RetiredProducers counts + lsum (λ x, has_retirement x.2) rows)
        (CleanupMarkers counts + lsum (λ x, cleanup_needed x.2) rows)
    end).
Proof.
  induction rows as [|[k p] rows IH]; intros counts records c Hok Hc Hrows H1 H2 H3; cbn [producersLoop].
  { apply ends_ret. split; [done|]. destruct counts. unfold len. cbn. by rewrite !Z.add_0_r. }
  destruct (producer_checks t m k p Hok (Hrows k p ltac:(by left))) as (-> & -> & Hc1 & Hc2).
  pose proof (policy_ok _ (proj1 (ro_policy _ _ _ Hok))) as Hpol.
  assert (len ((k, p) :: rows) = 1 + len rows) as Hlen by (unfold len; cbn [length]; lia). rewrite Hlen in *.
  assert (0 <= len rows) by (unfold len; lia). cbv zeta. cbn [Producers].
  rewrite !u32_small by (unfold is_u32; lia). rewrite (proj2 (Z.ltb_ge _ _)) by lia.
  apply ends_bind. eapply ends_mono; [by apply (checkValidationContext_spec t)|]. intros [e|] c' [Hc' He].
  { apply ends_ret. split; [done|]. by apply He. }
  eapply ends_mono; [apply IH; cbn [Producers RetiredProducers CleanupMarkers]; [done|done| |lia|lia|lia]|].
  { intros k' p' Hin. apply Hrows. by right. }
  intros [e|[counts' records']] c'' [Hc'' Hr]; [done|]. split; [done|]. rewrite Hr, !lsum_cons.
  cbn [PendingItems PendingPayload Receipts Producers RetiredProducers CleanupMarkers snd]. f_equal; lia.
Qed.

(** ** Receipts *)

Lemma pending_nonneg t m f x :
  rows_ok hash t m → (∀ row, 0 <= payload_length row → 0 <= f row) → t_receipts t !! x.1 = Some x.2 → 0 <= pending_of t f x.
Proof.
  intros Hok Hf Hr. unfold pending_of. destruct (Z.eqb_spec (r_state x.2) 1); [done|].
  destruct (pending_payload hash t m _ _ Hok Hr) as (_ & row & -> & Hl & _); [done|]. cbn. apply Hf. rewrite Hl. unfold len. lia.
Qed.

(** The checks of a receipt pass. *)
Lemma receipt_checks t m key r :
  rows_ok hash t m → t_receipts t !! key = Some r →
  negb (len key =? 24) || negb (len (r_digest r) =? 32) || negb (len (accept_order r) =? 8) || (r_state r <? 0) || (1 <? r_state r) = false ∧
  (bigEndian (accept_order r) =? 0) || (m_lastOrder m <? bigEndian (accept_order r)) = false ∧
  ∃ p, @lookup bytes _ _ _ (sub key 0 16) (t_producers t) = Some p ∧ receiptRelations m key r p = None.
Proof.
  intros Hok Hr. destruct (ro_receipt _ _ _ Hok _ _ Hr) as (id & p & Hid & -> & Hp & Hd & (o & Ho & Heo) & Hst).
  pose proof (ro_order _ _ _ Hok) as Hord. pose proof Hid as [[Hl16 _] Hseq].
  split; [|split].
  - unfold len. rewrite (encodeID_length id Hid), Hd, Heo. by destruct Hst as [(-> & _)|(-> & _)].
  - rewrite Heo. unfold encodeUint64. rewrite bigEndian_put by (unfold is_u64; lia). apply orb_false_iff. split; lia.
  - assert (sub (encodeID id) 0 16 = Producer id) as Hsub by (apply sub_app_l; unfold len; rewrite Hl16; done).
    assert (sub (encodeID id) 16 24 = putUint64 (Sequence id)) as Hsub'.
    { unfold encodeID. rewrite sub_app_r by (unfold len; rewrite Hl16; lia). unfold len. rewrite Hl16. done. }
    exists p. rewrite Hsub. split; [done|]. unfold receiptRelations. rewrite Hsub'.
    destruct (ro_producer _ _ _ Hok _ _ Hp) as [_ Hpo].
    assert (has_retirement p = 1 → negb (bool_decide (bytes_compare (putUint64 (Sequence id)) (retired_through p) = Gt)) = below p id) as Hbelow.
    { intros Hh. unfold below. rewrite Hh. cbn [Z.eqb Pos.eqb andb]. destruct Hpo as [(? & _)|(_ & (f & Hf & ->) & _)]; [congruence|].
      unfold encodeUint64. rewrite compare_put, bigEndian_put by done. rewrite Z.leb_compare.
      by destruct (Sequence id ?= f). }
    assert ((has_retirement p =? 1) && negb (bool_decide (bytes_compare (putUint64 (Sequence id)) (retired_through p) = Gt)) = below p id) as ->.
    { destruct (Z.eqb_spec (has_retirement p) 1) as [Hh|Hh]; [by apply Hbelow|]. unfold below.
      by rewrite (proj2 (Z.eqb_neq _ _) Hh). }
    clear Hbelow. destruct Hst as [(H0 & Ha & -> & _)|(H1 & _ & Hclean & epoch & attempt & Hep & Hat & Htok)].
    + cbn [andb]. by rewrite H0, Ha.
    + assert (below p id && ((r_state r =? 0) || (cleanup_needed p =? 0)) = false) as ->.
      { destruct (below p id); [|done]. by rewrite H1, Hclean. }
      pose proof (ro_epoch _ _ _ Hok) as Hme.
      destruct (token_parts (m_uuid m) epoch id attempt) as (T1 & T2 & T3 & T4 & T5);
        [apply Hok|unfold is_u64; lia|done|unfold is_u64; lia|].
      rewrite H1, Htok. cbn [Z.eqb Pos.eqb default from_option Datatypes.id]. rewrite T1, T2, T3, T4, T5. cbn [negb Z.eqb Pos.eqb].
      rewrite !bool_decide_true by done. cbn [negb orb].
      rewrite (proj2 (Z.eqb_neq epoch 0)), (proj2 (Z.ltb_ge (m_epoch m) epoch)), (proj2 (Z.eqb_neq attempt 0)) by lia. done.
Qed.

Lemma validatePayload_spec t m key r c :
  rows_ok hash t m → idle t c → t_receipts t !! key = Some r → r_state r ≠ 1 →
  ends (validatePayload hash key (r_digest r) (m_policy m)) c (λ q c', idle t c' ∧
    match q with inl e => E e | inr length => length = pending_of t payload_length (key, r) end).
Proof.
  intros Hok Hc Hr Hst. destruct (ro_receipt _ _ _ Hok _ _ Hr) as (id & p & _ & _ & _ & _ & _ & [Hpend|(H1 & _)]); [|done].
  destruct Hpend as (H0 & _ & _ & row & Hrow & Hd & Hl & Hcodec & Hpay). unfold validatePayload.
  apply ends_bind. eapply (ends_read (SelectPayload key) t); [done|..]; [|intros e c' Hc' He; by apply ends_ret].
  clear c Hc. intros c Hc. change (ask (SelectPayload key) t) with (t_payloads t !! key). rewrite Hrow. cbv zeta.
  assert (0 <= len (p_codec row) ∧ 0 <= len (p_payload row)) as [Hn1 Hn2] by (unfold len; lia).
  rewrite Hl, Z.eqb_refl, !(proj2 (Z.ltb_ge _ _)) by lia. cbn [negb orb].
  apply ends_bind. eapply (ends_read (SelectPayload key) t); [done|..]; [|intros e c' Hc' He; by apply ends_ret].
  clear c Hc. intros c Hc. change (ask (SelectPayload key) t) with (t_payloads t !! key). rewrite Hrow. apply ends_ret.
  rewrite bool_decide_true by done. cbn [negb]. split; [done|]. unfold pending_of. cbn [fst snd]. rewrite H0, Hrow. by rewrite <- Hl.
Qed.
(** The counts and records after a receipt's payload. *)
Lemma receipt_payload t m key r counts records c :
  rows_ok hash t m → idle t c → t_receipts t !! key = Some r →
  0 <= PendingItems counts → PendingItems counts + pending_of t (λ _, 1) (key, r) < 2 ^ 32 →
  0 <= PendingPayload counts → PendingPayload counts + pending_of t payload_length (key, r) < 2 ^ 64 →
  ends (if r_state r =? 1 then mret (inr (counts, records))
        else
          q ← validatePayload hash key (r_digest r) (m_policy m);
          match q with
          | inl err => mret (inl err)
          | inr length =>
              let records := records +64 1 in
              err ← checkValidationContext ctx_err records;
              mret match err with
                   | Some err => inl err
                   | None => inr (with_pending (PendingItems counts +32 1) (PendingPayload counts +64 length)
                       (Receipts counts) (Producers counts) counts, records)
                   end
          end) c (λ q c', idle t c' ∧
    match q with
    | inl e => E e
    | inr (counts', _) => counts' = with_pending (PendingItems counts + pending_of t (λ _, 1) (key, r))
        (PendingPayload counts + pending_of t payload_length (key, r)) (Receipts counts) (Producers counts) counts
    end).
Proof.
  intros Hok Hc Hr H1 H2 H3 H4. destruct (Z.eqb_spec (r_state r) 1) as [Hst|Hst].
  { apply ends_ret. split; [done|]. unfold pending_of. cbn [fst snd]. rewrite Hst. destruct counts. cbn. by rewrite !Z.add_0_r. }
  destruct (pending_payload hash t m key r Hok Hr Hst) as (Hz & row & Hrow & Hl & _).
  assert (pending_of t (λ _, 1) (key, r) = 1) as E1 by (unfold pending_of; cbn [fst snd]; by rewrite Hz, Hrow).
  assert (0 <= pending_of t payload_length (key, r)) as E2
    by (unfold pending_of; cbn [fst snd]; rewrite Hz, Hrow; cbn; rewrite Hl; unfold len; lia).
  apply ends_bind. eapply ends_mono; [by apply (validatePayload_spec t m)|]. intros [e|length] c' [Hc' Hp].
  { by apply ends_ret. }
  cbv zeta. apply ends_bind. eapply ends_mono; [by apply (checkValidationContext_spec t)|]. intros [e|] c'' [Hc'' He]; apply ends_ret.
  { split; [done|]. by apply He. }
  split; [done|]. rewrite Hp, E1. rewrite u32_small, u64_small by (unfold is_u32, is_u64; lia). done.
Qed.

Lemma receiptsLoop_spec t m rows : ∀ counts records c,
  rows_ok hash t m → idle t c → (∀ k r, (k, r) ∈ rows → t_receipts t !! k = Some r) →
  0 <= PendingItems counts → PendingItems counts + lsum (pending_of t (λ _, 1)) rows <= MaxPendingItems (m_policy m) →
  0 <= PendingPayload counts → PendingPayload counts + lsum (pending_of t payload_length) rows <= MaxPendingPayload (m_policy m) →
  0 <= Receipts counts → Receipts counts + len rows <= MaxReceipts (m_policy m) →
  ends (receiptsLoop hash ctx_err m rows counts records) c (λ q c', idle t c' ∧
    match q with
    | inl e => reported e
    | inr (counts', _) => counts' = with_pending (PendingItems counts + lsum (pending_of t (λ _, 1)) rows)
        (PendingPayload counts + lsum (pending_of t payload_length) rows) (Receipts counts + len rows) (Producers counts) counts
    end).
Proof.
  induction rows as [|[key r] rows IH]; intros counts records c Hok Hc Hrows H1 H2 H3 H4 H5 H6; cbn [receiptsLoop].
  { apply ends_ret. split; [done|]. destruct counts. unfold len. cbn. by rewrite !Z.add_0_r. }
  pose proof (Hrows key r ltac:(by left)) as Hr. destruct (receipt_checks t m key r Hok Hr) as (-> & Hacc & p & Hp & Hrel).
  cbv zeta. rewrite Hacc. pose proof (policy_ok _ (proj1 (ro_policy _ _ _ Hok))) as Hpol.
  assert (len ((key, r) :: rows) = 1 + len rows) as Hlen by (unfold len; cbn [length]; lia). rewrite Hlen, !lsum_cons in *.
  assert (0 <= len rows) by (unfold len; lia).
  assert (∀ f, (∀ row, 0 <= payload_length row → 0 <= f row) → 0 <= pending_of t f (key, r) ∧ 0 <= lsum (pending_of t f) rows) as Hpos.
  { intros f Hf. split; [by apply (pending_nonneg t m)|]. apply lsum_nonneg. intros [k' r'] Hin. apply (pending_nonneg t m); [done|done|].
    apply Hrows. by right. }
  destruct (Hpos (λ _, 1)) as [P1 P2]; [done|]. destruct (Hpos payload_length) as [P3 P4]; [done|].
  apply ends_bind. eapply (ends_read (SelectProducer (sub key 0 16)) t); [done|..].
  2: { intros e c' Hc' He. apply ends_ret. split; [done|]. by constructor. }
  clear c Hc. intros c Hc. change (ask (SelectProducer (sub key 0 16)) t) with (@lookup bytes _ _ _ (sub key 0 16) (t_producers t)).
  rewrite Hp, Hrel. apply ends_bind. eapply ends_mono; [apply (receipt_payload t m); [done|done|done|lia..]|].
  intros [e|[counts1 records1]] c1 [Hc1 Hq]; [apply ends_ret; split; [done|by constructor]|]. subst counts1. unfold with_pending.
  cbn [PendingItems PendingPayload Receipts Producers RetiredProducers CleanupMarkers]. rewrite !u32_small by (unfold is_u32; lia).
  rewrite !(proj2 (Z.ltb_ge _ _)) by lia. cbn [orb].
  apply ends_bind. eapply ends_mono; [by apply (checkValidationContext_spec t)|]. intros [e|] c2 [Hc2 He].
  { apply ends_ret. split; [done|]. constructor. by apply He. }
  eapply ends_mono; [apply IH; cbn [PendingItems PendingPayload Receipts]; [done|done| |lia..]|].
  { intros k' r' Hin. apply Hrows. by right. }
  intros [e|[counts' records']] c3 [Hc3 Hr3]; [done|]. split; [done|]. rewrite Hr3. unfold with_pending.
  cbn [PendingItems PendingPayload Receipts Producers RetiredProducers CleanupMarkers]. f_equal; lia.
Qed.
Lemma len_lsum {X} (l : list X) : len l = lsum (λ _, 1) l.
Proof. induction l as [|x l IH]; [done|]. rewrite lsum_cons, <- IH. unfold len. cbn [length]. lia. Qed.

Lemma len_rows {R} (m : gmap bytes R) : len (rows_of m) = msum (λ _, 1) m.
Proof. rewrite len_lsum. exact (lsum_rows (λ _, 1) m). Qed.

Lemma elem_of_take_rows {R} (m : gmap bytes R) j k r : (k, r) ∈ take j (rows_of m) → m !! k = Some r.
Proof. intros Hin. apply elem_of_rows. rewrite <- (take_drop j (rows_of m)). apply elem_of_app. by left. Qed.

(** The producers of a consistent store pass, all of them or the first ones. *)
Lemma producers_pass t m j records c :
  store_ok hash t m → idle t c →
  ends (producersLoop ctx_err (m_policy m) (take j (rows_of (t_producers t))) zeroCounts records) c (λ r c', idle t c' ∧
    match r with
    | inl e => E e
    | inr (counts, _) => take j (rows_of (t_producers t)) = rows_of (t_producers t) →
        counts = Counts 0 0 0 (Producers (m_counts m)) (RetiredProducers (m_counts m)) (CleanupMarkers (m_counts m))
    end).
Proof.
  intros Hok Hc. pose proof (so_rows _ _ _ Hok) as Hrows. destruct (so_limits _ _ _ Hok) as (_ & _ & _ & Hmax).
  eapply ends_mono; [apply (producersLoop_spec t m); [done|done|by intros k p; apply elem_of_take_rows|done|done|]|].
  { cbn [zeroCounts Producers]. rewrite len_lsum. rewrite lsum_take by done. rewrite <- len_lsum, len_rows, <- (ro_producers _ _ _ Hrows). lia. }
  intros [e|[counts records']] c' [Hc' Hr]; [done|]. split; [done|]. intros Hall. rewrite Hr, Hall, len_rows, !lsum_rows.
  rewrite (ro_producers _ _ _ Hrows), (ro_retired _ _ _ Hrows), (ro_cleanup _ _ _ Hrows). done.
Qed.

Lemma receipts_pass t m j records c :
  store_ok hash t m → idle t c →
  ends (receiptsLoop hash ctx_err m (take j (rows_of (t_receipts t)))
    (Counts 0 0 0 (Producers (m_counts m)) (RetiredProducers (m_counts m)) (CleanupMarkers (m_counts m))) records) c (λ r c', idle t c' ∧
    match r with
    | inl e => reported e
    | inr (counts, _) => take j (rows_of (t_receipts t)) = rows_of (t_receipts t) → counts = m_counts m
    end).
Proof.
  intros Hok Hc. pose proof (so_rows _ _ _ Hok) as Hrows. destruct (so_limits _ _ _ Hok) as (Hm1 & Hm2 & Hm3 & _).
  assert (∀ f, (∀ row, 0 <= payload_length row → 0 <= f row) →
    lsum (pending_of t f) (take j (rows_of (t_receipts t))) <= msum f (t_payloads t)) as Hle.
  { intros f Hf. rewrite <- (lsum_pending hash t m f Hrows). apply lsum_take. intros [k r] Hin%elem_of_rows. by apply (pending_nonneg t m). }
  eapply ends_mono; [apply (receiptsLoop_spec t m); cbn [PendingItems PendingPayload Receipts];
    [done|done|by intros k r; apply elem_of_take_rows|done| |done| |done|]|].
  - rewrite Hle by done. rewrite <- (ro_items _ _ _ Hrows). lia.
  - rewrite Hle by done. rewrite <- (ro_bytes _ _ _ Hrows). lia.
  - rewrite len_lsum. rewrite lsum_take by done. rewrite <- len_lsum, len_rows, <- (ro_receipts _ _ _ Hrows). lia.
  - intros [e|[counts records']] c' [Hc' Hr]; [done|]. split; [done|]. intros Hall. rewrite Hr, Hall, len_rows. unfold with_pending.
    cbn [PendingItems PendingPayload Receipts Producers RetiredProducers CleanupMarkers].
    rewrite !(lsum_pending hash t m _ Hrows), <- (ro_items _ _ _ Hrows), <- (ro_bytes _ _ _ Hrows), <- (ro_receipts _ _ _ Hrows).
    by destruct (m_counts m).
Qed.

Lemma payloads_size t m : rows_ok hash t m → Z.of_nat (size (t_payloads t)) = PendingItems (m_counts m).
Proof.
  intros Hrows. rewrite (ro_items _ _ _ Hrows), <- len_rows. unfold len. rewrite rows_of_permutation. by rewrite length_map_to_list.
Qed.

Lemma validateRecords_spec t m c :
  store_ok hash t m → idle t c →
  ends (validateRecords hash ctx_err m) c (λ r c', idle t c' ∧ match r with inl e => reported e | inr (counts, _) => counts = m_counts m end).
Proof.
  intros Hok Hc. unfold validateRecords. apply ends_bind.
  eapply (ends_rows SelectProducers t); [done|..]; cbn [ask].
  3: { intros e c' Hc' He. apply ends_ret. split; [done|]. by constructor. }
  2: { intros e k c' Hc' He. apply ends_bind. eapply ends_mono; [by apply (producers_pass t m)|].
    intros [e'|[counts records]] c1 [Hc1 Hr]; apply ends_ret; (split; [done|]); by constructor. }
  clear c Hc. intros c Hc. apply ends_bind. rewrite <- (firstn_all (rows_of (t_producers t))).
  eapply ends_mono; [by apply (producers_pass t m)|].
  clear c Hc. intros [e|[counts records]] c [Hc Hr]; [apply ends_ret; (split; [done|]); by constructor|].
  rewrite firstn_all in Hr. rewrite (Hr eq_refl). apply ends_bind.
  eapply (ends_rows SelectReceipts t); [done|..]; cbn [ask].
  3: { intros e c' Hc' He. apply ends_ret. split; [done|]. by constructor. }
  2: { intros e k c' Hc' He. apply ends_bind. eapply ends_mono; [by apply (receipts_pass t m)|].
    intros [e'|[counts' records']] c1 [Hc1 Hr1]; apply ends_ret; (split; [done|]); [done|by constructor]. }
  clear c Hc. intros c Hc. apply ends_bind. rewrite <- (firstn_all (rows_of (t_receipts t))).
  eapply ends_mono; [by apply (receipts_pass t m)|].
  clear c Hc counts Hr. intros [e|[counts records']] c [Hc Hr]; [by apply ends_ret|].
  rewrite firstn_all in Hr. rewrite (Hr eq_refl). apply ends_bind.
  eapply (ends_read CountPayloads t); [done|..].
  - intros c' Hc'. apply ends_ret. change (ask CountPayloads t) with (Z.of_nat (size (t_payloads t))).
    rewrite (payloads_size t m (so_rows _ _ _ Hok)), Z.eqb_refl. done.
  - intros e c' Hc' He. apply ends_ret. split; [done|]. by constructor.
Qed.

(** Validation accepts every consistent store and returns its metadata. It changes nothing, and when
    it fails, the error is one that the connection or the caller's context reported. *)
Lemma validate_accepts t m c :
  store_ok hash t m → idle t c →
  ends (validate hash ctx_err) c (λ r c', idle t c' ∧ match r with inl e => reported e | inr (m', _) => m' = m end).
Proof.
  intros Hok Hc. unfold validate. apply ends_bind. eapply ends_mono; [by apply (readMetadata_spec t m)|].
  intros [e|m'] c1 [Hc1 Hr]; [apply ends_ret; split; [done|by constructor]|]. subst m'.
  apply ends_bind. unfold validateLogicalState. apply ends_bind. eapply ends_mono; [by apply (validateRecords_spec t m)|].
  intros [e|[counts records]] c2 [Hc2 Hr]; [by do 2 apply ends_ret|]. subst counts. rewrite bool_decide_true by done.
  by do 2 apply ends_ret.
Qed.
(** ** A new store *)

Definition empty_tables : tables := Tables ∅ ∅ ∅ ∅.
Definition fresh_metadata (config : Config) (uuid : UUID) : storeMetadata :=
  Metadata uuid (c_Policy config) (c_Durability config) 0 0 zeroCounts.

Lemma fresh_ok config uuid :
  validatePolicy (c_Policy config) = None → 0 <= MaxCodec (c_Policy config) → 0 <= c_Durability config <= ProcessCrash → is_bytes 16 uuid →
  store_ok hash (set_meta (meta_of (fresh_metadata config uuid)) empty_tables) (fresh_metadata config uuid).
Proof.
  intros Hv Hc Hd Hu. pose proof (policy_ok _ Hv). split; [|unfold limits_ok; cbn; lia|done|done].
  split; cbn [fresh_metadata m_policy m_uuid m_epoch m_lastOrder m_counts zeroCounts PendingItems PendingPayload Receipts Producers
    RetiredProducers CleanupMarkers set_meta empty_tables t_payloads t_receipts t_producers]; try done; by rewrite msum_empty.
Qed.

Lemma run_insert_meta (l : list (Z * bytes)) : ∀ t,
  NoDup l.*1 → (∀ k, k ∈ l.*1 → t_meta t !! k = None) →
  run_all ((λ x, InsertMeta x.1 x.2) <$> l) t = Some (set_meta (foldl (λ m x, <[x.1 := x.2]> m) (t_meta t) l) t).
Proof.
  induction l as [|[k v] l IH]; intros t Hnd Hnone; [by destruct t|]. cbn [fmap list_fmap fst] in Hnd. apply NoDup_cons in Hnd as [Hk Hnd].
  rewrite fmap_cons, run_all_cons. cbn [run fst snd]. rewrite (Hnone k) by (by left). cbn [mbind option_bind]. rewrite IH; [done|done|].
  intros k' Hk'. cbn. rewrite lookup_insert_ne by (intros ->; done). apply Hnone. by right.
Qed.

Lemma foldl_list_to_map (l : list (Z * bytes)) :
  NoDup l.*1 → foldl (λ (m : gmap Z bytes) x, <[x.1 := x.2]> m) ∅ l = list_to_map l.
Proof.
  intros Hnd. transitivity (list_to_map (M := gmap Z bytes) (reverse l)).
  - induction l as [|x l IH] using rev_ind; [done|]. rewrite foldl_app, reverse_app. cbn.
    rewrite IH; [done|]. rewrite fmap_app in Hnd. by apply NoDup_app in Hnd as [? _].
  - apply list_to_map_proper; [|by rewrite reverse_Permutation]. by rewrite fmap_reverse, reverse_Permutation.
Qed.

Lemma meta_list_nodup m : NoDup (meta_list m).*1.
Proof. apply (bool_decide_unpack _). by vm_compute. Qed.

Lemma run_initial config uuid :
  run_all (imap (λ i value, InsertMeta (Z.of_nat i + 1) value) (initialValues config uuid)) empty_tables =
    Some (set_meta (meta_of (fresh_metadata config uuid)) empty_tables).
Proof.
  change (imap _ _) with ((λ x : Z * bytes, InsertMeta x.1 x.2) <$> meta_list (fresh_metadata config uuid)).
  rewrite run_insert_meta by (apply meta_list_nodup || done). cbn [t_meta empty_tables].
  by rewrite foldl_list_to_map by apply meta_list_nodup.
Qed.

(** ** Statements of the startup *)

Definition intx (t0 t : tables) (c : C) : Prop := in_tx c = true ∧ view c = t ∧ saved c = t0.

Lemma execEach_spec t0 sts : ∀ t c,
  intx t0 t c → ends (execEach sts) c (λ err c',
    match err with Some e => saved c' = t0 ∧ E e | None => ∃ t', run_all sts t = Some t' ∧ intx t0 t' c' end).
Proof.
  induction sts as [|st sts IH]; intros t c Hc; cbn [execEach]; [apply ends_ret; by exists t|].
  destruct Hc as (Hin & Hv & Hs). apply ends_bind. eapply ends_mono; [apply ends_both; [by apply exec_law|apply exec_reports]|].
  intros [e|] c' [[Hs' H] He]; [apply ends_ret; split; [congruence|by apply He]|]. destruct H as [Hin' Hrun]. rewrite Hv in Hrun.
  eapply ends_mono; [apply (IH (view c')); split_and!; congruence|]. intros [e|] c'' H; [done|]. by rewrite run_all_cons, Hrun.
Qed.

Lemma execOne_spec t0 t st c :
  intx t0 t c → ends (Exec st) c (λ err c',
    match err with Some e => saved c' = t0 ∧ E e | None => ∃ t', run st t = Some t' ∧ intx t0 t' c' end).
Proof.
  intros (Hin & Hv & Hs). eapply ends_mono; [apply ends_both; [by apply exec_law|apply exec_reports]|].
  intros [e|] c' [[Hs' H] He]; [split; [congruence|by apply He]|]. destruct H as [Hin' Hrun]. rewrite Hv in Hrun.
  exists (view c'). split; [done|]. split_and!; congruence.
Qed.

(** A rollback after an error. *)
Lemma rollback_spec e t0 c :
  saved c = t0 → reported e →
  ends (rollbackErr ← Rollback; mret (errors_join (Some e) rollbackErr)) c (λ err c', saved c' = t0 ∧ ∃ e', err = Some e' ∧ reported e').
Proof.
  intros Hs He. apply ends_bind. eapply ends_mono; [apply ends_both; [apply rollback_law|apply rollback_reports]|].
  intros [e'|] c' [[Hs' _] He']; apply ends_ret; (split; [congruence|]); cbn; eexists; (split; [done|]); [|done].
  constructor; [done|]. constructor. by apply He'.
Qed.

Lemma initialize_spec config random c :
  idle empty_tables c → (∀ e, random = inl e → E e) →
  ends (initialize ctx_err config random) c (λ err c',
    match err with
    | None => ∃ uuid, random = inr uuid ∧ idle (set_meta (meta_of (fresh_metadata config uuid)) empty_tables) c'
    | Some e => reported e ∧
        (saved c' = empty_tables ∨ ∃ uuid, random = inr uuid ∧ saved c' = set_meta (meta_of (fresh_metadata config uuid)) empty_tables)
    end).
Proof.
  intros [Hi Hs] Hrandom. unfold initialize. cbv zeta. apply ends_bind. eapply ends_mono; [apply ctx_keeps|].
  intros [e|] c' [-> He]; [apply ends_ret; split; [constructor; by apply He|by left]|]. clear He.
  apply ends_bind. eapply ends_mono; [apply ends_both; [by apply begin_law|apply begin_reports]|].
  intros [e|] c1 [[Hs1 H1] He]; [apply ends_ret; split; [constructor; by apply He|left; congruence]|]. clear He.
  destruct H1 as [Hin1 Hv1]. assert (intx empty_tables empty_tables c1) as Hc1 by (split_and!; congruence).
  apply ends_bind. eapply ends_mono; [by apply (execOne_spec empty_tables empty_tables)|]. clear c1 Hs1 Hin1 Hv1 Hc1.
  assert (∀ e c1, reported e → saved c1 = empty_tables →
    ends (rollbackErr ← Rollback; mret (errors_join (Some e) rollbackErr)) c1 (λ err c',
      match err with
      | None => ∃ uuid, random = inr uuid ∧ idle (set_meta (meta_of (fresh_metadata config uuid)) empty_tables) c'
      | Some e => reported e ∧
          (saved c' = empty_tables ∨ ∃ uuid, random = inr uuid ∧ saved c' = set_meta (meta_of (fresh_metadata config uuid)) empty_tables)
      end)) as Hroll.
  { intros e c1 He Hs1. eapply ends_mono; [by apply (rollback_spec e empty_tables)|]. intros err c2 (Hs2 & e' & -> & He'). split; [done|]. by left. }
  intros [e|] c1 H1; [destruct H1 as [Hs1 He]; by apply Hroll; [constructor|]|].
  destruct H1 as (t1 & Hrun & Hc1). injection Hrun as <-. destruct random as [e|uuid].
  { destruct Hc1 as (_ & _ & Hs1). apply Hroll; [constructor; by apply Hrandom|done]. }
  apply ends_bind. eapply ends_mono; [by apply (execEach_spec empty_tables _ empty_tables)|]. clear c1 Hc1.
  intros [e|] c1 H1; [destruct H1 as [Hs1 He]; by apply Hroll; [constructor|]|].
  destruct H1 as (t1 & Hrun & Hin1 & Hv1 & Hs1). rewrite run_initial in Hrun. injection Hrun as <-.
  apply ends_bind. eapply ends_mono; [apply ends_both; [by apply commit_law|apply commit_reports]|].
  intros [e|] c2 [H2 He].
  - eapply ends_mono; [by apply (rollback_spec e (saved c2)); [|constructor; apply He]|]. intros err c3 (Hs3 & e' & -> & He'). split; [done|].
    rewrite Hs3. destruct H2 as [H2|H2]; [left; congruence|right]. exists uuid. split; [done|]. congruence.
  - destruct H2 as [Hin2 Hs2]. apply ends_ret. exists uuid. split; [done|]. split; [done|congruence].
Qed.
(** ** The epoch *)

Definition with_epoch (epoch : Z) (m : storeMetadata) : storeMetadata :=
  Metadata (m_uuid m) (m_policy m) (m_durability m) epoch (m_lastOrder m) (m_counts m).

Lemma run_epoch t m epoch :
  t_meta t = meta_of m → run (UpdateMeta metaEpoch (encodeUint64 epoch)) t = Some (set_meta (meta_of (with_epoch epoch m)) t).
Proof.
  intros Ht. cbn [run]. rewrite Ht. unfold meta_of. cbn [list_to_map foldr fst snd with_epoch m_uuid m_policy m_durability m_epoch m_lastOrder m_counts].
  by do 2 f_equal.
Qed.

Lemma store_ok_epoch t m :
  store_ok hash t m → m_epoch m < 2 ^ 64 - 1 → store_ok hash (set_meta (meta_of (with_epoch (m_epoch m + 1) m)) t) (with_epoch (m_epoch m + 1) m).
Proof.
  intros [Hrows Hlim Hdur Hmeta] Hmax. split; [|done|done|done]. apply rows_ok_meta.
  pose proof (ro_epoch _ _ _ Hrows) as Hep. destruct Hrows as [R1 R2 R3 R4 R5 R6 R7 R8 R9 R10 R11 R12 R13 R14].
  split; try done; [cbn [with_epoch m_epoch]; lia|]. intros key r Hr. destruct (R12 key r Hr) as (id & p & H1 & H2 & H3 & H4 & H5 & [H6|(H6 & H7 & H8 & epoch & attempt & H9 & H10)]).
  - exists id, p. split_and!; [done..|]. by left.
  - exists id, p. split_and!; [done..|]. right. split_and!; [done..|]. exists epoch, attempt. cbn [with_epoch m_epoch]. split; [lia|done].
Qed.

Lemma writeEpoch_spec t m c :
  store_ok hash t m → idle t c →
  let t' := set_meta (meta_of (with_epoch (m_epoch m + 1) m)) t in
  ends (writeEpoch (m_epoch m + 1)) c (λ err c',
    match err with None => idle t' c' | Some e => reported e ∧ (saved c' = t ∨ saved c' = t') end).
Proof.
  intros Hok [Hi Hs] t'. subst t'. unfold writeEpoch.
  apply ends_bind. eapply ends_mono; [apply ends_both; [by apply begin_law|apply begin_reports]|].
  intros [e|] c1 [[Hs1 H1] He]; [apply ends_ret; split; [constructor; by apply He|left; congruence]|]. clear He.
  destruct H1 as [Hin1 Hv1]. assert (intx t t c1) as Hc1 by (split_and!; congruence).
  apply ends_bind. eapply ends_mono; [by apply (execOne_spec t t)|]. intros [e|] c2 H2.
  - destruct H2 as [Hs2 He]. eapply ends_mono; [apply (rollback_spec e t); [done|by constructor]|].
    intros err c3 (Hs3 & e' & -> & He'). split; [done|]. by left.
  - destruct H2 as (t2 & Hrun & Hin2 & Hv2 & Hs2). rewrite (run_epoch t m) in Hrun by apply Hok. injection Hrun as <-.
    eapply ends_mono; [apply ends_both; [by apply commit_law|apply commit_reports]|]. intros [e|] c3 [H3 He].
    + split; [constructor; by apply He|]. destruct H3 as [H3|H3]; [left|right]; congruence.
    + destruct H3 as [Hin3 Hs3]. split; [done|congruence].
Qed.

(** What opening a consistent store may commit: nothing, or the next epoch. *)
Definition reopened (t : tables) (m : storeMetadata) (c : C) : Prop :=
  agree (state_of (saved c)) (state_of t) ∧
  (store_ok hash (saved c) m ∨ store_ok hash (saved c) (with_epoch (m_epoch m + 1) m)).

Lemma reopened_same t m c : store_ok hash t m → saved c = t → reopened t m c.
Proof. intros Hok Hs. unfold reopened. rewrite Hs. split; [done|]. by left. Qed.

(** A session over the store that was opened. *)
Definition opened (config : Config) (m : storeMetadata) (c : C) : Prop := ∀ cs retained, session_ok hash config (Session c m cs retained).

(** The part of [startStore] after the initialization. *)
Lemma after_initialize config t m c :
  store_ok hash t m → idle t c →
  ends (r ← validate hash ctx_err;
      match r with
      | inl err => mret (inl err)
      | inr (m, _) =>
          if negb (bool_decide (m_policy m = c_Policy config)) || negb (m_durability m =? c_Durability config)
          then mret (inl ErrConfigMismatch)
          else
            before ← ctx_err;
            after ← match before with Some _ => mret before | None => ctx_err end;
            match after with
            | Some err => mret (inl err)
            | None =>
                match nextIdentity (m_epoch m) with
                | inl err => mret (inl err)
                | inr epoch =>
                    err ← writeEpoch epoch;
                    mret match err with
                         | Some err => inl err
                         | None => inr (Metadata (m_uuid m) (m_policy m) (m_durability m) epoch (m_lastOrder m) (m_counts m))
                         end
                end
            end
      end) c (λ r c', reopened t m c' ∧
    match r with
    | inr m' => m' = with_epoch (m_epoch m + 1) m ∧ opened config m' c'
    | inl e => reported e ∨ (e = ErrConfigMismatch ∧ ¬ (m_policy m = c_Policy config ∧ m_durability m = c_Durability config)) ∨
        (e = ErrExhausted ∧ m_epoch m = maxUint64)
    end).
Proof.
  intros Hok Hc. pose proof (ro_epoch _ _ _ (so_rows _ _ _ Hok)) as Hep.
  apply ends_bind. eapply ends_mono; [by apply (validate_accepts t m)|]. intros [e|[m' records]] c1 [Hc1 Hr].
  { apply ends_ret. split; [apply reopened_same; [done|apply Hc1]|by left]. }
  subst m'. match goal with |- ends (if ?b then _ else _) _ _ => destruct b eqn:Hcfg end.
  { apply ends_ret. split; [apply reopened_same; [done|apply Hc1]|]. right. left. split; [done|]. intros [E1 E2].
    by rewrite bool_decide_true, E2, Z.eqb_refl in Hcfg. }
  apply orb_false_iff in Hcfg as [Hpol%negb_false_iff%bool_decide_eq_true _].
  apply ends_bind. eapply ends_mono; [apply ctx_keeps|]. intros before c2 [-> Hbefore].
  apply ends_bind. apply (ends_mono _ _ (λ err c2, c2 = c1 ∧ ∀ e, err = Some e → E e)).
  { destruct before; [apply ends_ret; split; [done|by intros ? [= <-]; apply Hbefore]|]. apply ctx_keeps. }
  intros [e|] c2 [-> He]; [apply ends_ret; split; [apply reopened_same; [done|apply Hc1]|left; constructor; by apply He]|].
  unfold nextIdentity. destruct (Z.eqb_spec (m_epoch m) maxUint64) as [Hmax|Hmax].
  { apply ends_ret. split; [apply reopened_same; [done|apply Hc1]|]. by right; right. }
  unfold maxUint64 in Hmax. rewrite u64_small by (unfold is_u64; lia).
  pose proof (store_ok_epoch t m Hok ltac:(lia)) as Hok'.
  apply ends_bind. eapply ends_mono; [by apply (writeEpoch_spec t m)|]. cbv zeta. intros [e|] c2 H2; apply ends_ret.
  - destruct H2 as [Hrep H2]. split; [|by left]. destruct H2 as [H2|H2]; [by apply reopened_same|]. unfold reopened. rewrite H2.
    split; [done|by right].
  - destruct H2 as [Hi2 Hs2]. split; [unfold reopened; rewrite Hs2; split; [done|by right]|]. split; [done|]. intros cs retained.
    split; cbn; [done|by rewrite Hs2|done|lia].
Qed.

(** C8. Opening an existing consistent store, as any crash leaves it, keeps what it says of every
    identity. It succeeds with a session that is ready for transactions, in the next epoch, so that
    no token issued before is accepted. When it fails, what is committed is still a consistent store
    in its old or its next epoch, and either the configuration differs from the stored one, or the
    epochs are exhausted, or the error is one that the connection or the context reported. *)
Theorem startStore_reopens config random t m c :
  store_ok hash t m → idle t c →
  ends (startStore hash ctx_err false config random) c (λ r c', reopened t m c' ∧
    match r with
    | inr m' => m' = with_epoch (m_epoch m + 1) m ∧ opened config m' c'
    | inl e => reported e ∨ (e = ErrConfigMismatch ∧ ¬ (m_policy m = c_Policy config ∧ m_durability m = c_Durability config)) ∨
        (e = ErrExhausted ∧ m_epoch m = maxUint64)
    end).
Proof.
  intros Hok Hc. unfold startStore. apply ends_bind, ends_ret. by apply after_initialize.
Qed.

(** C11. Creating a store in an empty database succeeds with a session in which every identity is
    absent, in the first epoch. When it fails, the database is still empty, or a consistent store in
    which every identity is absent. *)
Theorem startStore_creates config random c :
  validateConfig config = None → typed config → 0 <= c_Durability config → (∀ e, random = inl e → E e) →
  (∀ uuid, random = inr uuid → is_bytes 16 uuid) → idle empty_tables c →
  ends (startStore hash ctx_err true config random) c (λ r c',
    agree (state_of (saved c')) (λ _, SAbsent) ∧
    match r with
    | inr m => ∃ uuid, random = inr uuid ∧ m = with_epoch 1 (fresh_metadata config uuid) ∧ opened config m c'
    | inl e => reported e ∧ (saved c' = empty_tables ∨ ∃ m, store_ok hash (saved c') m)
    end).
Proof.
  intros Hv Ht Hd Hrandom Huuid Hc. destruct (config_submit config Hv) as (Hpol & _). destruct Ht as (Hcodec & _).
  assert (c_Durability config <= ProcessCrash) as Hd'.
  { revert Hv. unfold validateConfig. rewrite Hpol. destruct (Z.ltb_spec ProcessCrash (c_Durability config)); [done|lia]. }
  unfold startStore. apply ends_bind. eapply ends_mono; [by apply (initialize_spec config random)|]. intros [e|] c1 H1.
  - apply ends_ret. destruct H1 as [He [->|(uuid & Hu & ->)]]; (split; [done|]); (split; [done|]); [by left|right].
    exists (fresh_metadata config uuid). apply fresh_ok; [done|done|lia|by apply Huuid].
  - destruct H1 as (uuid & -> & Hc1). assert (store_ok hash (set_meta (meta_of (fresh_metadata config uuid)) empty_tables) (fresh_metadata config uuid))
      as Hok by (apply fresh_ok; [done|done|lia|by apply Huuid]).
    eapply ends_mono; [eapply after_initialize; [exact Hok|exact Hc1]|]. intros [e|m] c2 [[Hst Hst'] Hr].
    + split; [done|]. split; [|right; destruct Hst'; eauto]. destruct Hr as [Hr|[(_ & Hn)|(_ & Hn)]]; [done|by destruct Hn|done].
    + split; [done|]. exists uuid. split; [done|]. by destruct Hr as [-> Ho].
Qed.
End start.
End DurableStart.
