(* ===== verification/DurableSound.v ===== *)
(** * Validation accepts nothing else (src/workq/durable/validation.go)

    A store that passes validation satisfies the invariant of the durable queue, given what SQLite
    itself guarantees of the tables: values are bytes, the CHECK on acknowledgement tokens holds, and
    acceptance orders are unique. *)

From Stdlib Require Import ZArith Lia.
From stdpp Require Import prelude list gmap strings sorting.
From S2P Require Import Prelude Prog DurableCore DurableSpec DurableStore DurableInv DurableTx DurableGroup DurableCleanup DurableMem DurableOpen DurableStart.

Module DurableSound.
Import Prog Durable DurableSpec DurableStore DurableInv DurableTx DurableGroup DurableCleanup DurableMem DurableOpen DurableStart.

(** What the database guarantees of its tables (schema.go). *)
Record typed_tables (t : tables) : Prop := {
  ty_meta k v : t_meta t !! k = Some v → Forall is_byte v;
  ty_producer k p : t_producers t !! k = Some p → Forall is_byte k ∧ Forall is_byte (retired_through p);
  ty_receipt k r : t_receipts t !! k = Some r → Forall is_byte k ∧ Forall is_byte (accept_order r) ∧
    ((r_state r = 0 ∧ ack_token r = None) ∨ (r_state r = 1 ∧ ∃ token, ack_token r = Some token ∧ is_bytes 56 token));
  ty_unique k k' r r' : t_receipts t !! k = Some r → t_receipts t !! k' = Some r' → accept_order r = accept_order r' → k = k';
}.

Lemma is_bytes_len (n : nat) bs : len bs = Z.of_nat n → Forall is_byte bs → is_bytes n bs.
Proof. intros Hl Hb. split; [unfold len in Hl; lia|done]. Qed.

(** Consistent stores have the tables that the database guarantees. *)
Lemma put_is_byte v : Forall is_byte (putUint64 v).
Proof. apply put_bytes. Qed.

Lemma concat_put_is_byte vs : Forall is_byte (concat (putUint64 <$> vs)).
Proof. induction vs as [|v vs IH]; [constructor|]. cbn [fmap list_fmap concat]. apply Forall_app. split; [apply put_is_byte|done]. Qed.

Lemma encodeID_is_byte id : id_ok id → Forall is_byte (encodeID id).
Proof. intros [[_ Hb] _]. apply Forall_app. split; [done|apply put_is_byte]. Qed.

Lemma store_ok_typed hash t m : store_ok hash t m → typed_tables t.
Proof.
  intros [Hrows _ Hdur Hmeta]. constructor.
  - intros k v Hk. rewrite Hmeta in Hk. apply elem_of_list_to_map_2 in Hk. pose proof (policy_ok _ (proj1 (ro_policy _ _ _ Hrows))) as (Hprof & _).
    repeat (apply elem_of_cons in Hk as [[= -> ->]|Hk];
      [first [apply put_is_byte|apply concat_put_is_byte|apply (ro_uuid _ _ _ Hrows)|rewrite Hprof; by repeat constructor|
              constructor; [unfold is_byte, ProcessCrash in *; lia|constructor]]|]). by apply not_elem_of_nil in Hk.
  - intros k p Hp. destruct (ro_producer _ _ _ Hrows _ _ Hp) as [[_ Hk] Hpo]. split; [done|].
    destruct Hpo as [(_ & -> & _)|(_ & (f & _ & ->) & _)]; apply put_is_byte.
  - intros k r Hr. destruct (ro_receipt _ _ _ Hrows _ _ Hr) as (id & p & Hid & -> & _ & _ & (o & _ & ->) & Hst).
    split; [by apply encodeID_is_byte|]. split; [apply put_is_byte|].
    destruct Hst as [(H0 & Ha & _)|(H1 & _ & _ & epoch & attempt & _ & _ & Htok)]; [by left|]. right. split; [done|].
    eexists. split; [done|]. destruct (ro_uuid _ _ _ Hrows) as [Hl Hb]. split.
    + unfold encodeToken. by rewrite !length_app, Hl, encodeID_length.
    + unfold encodeToken. rewrite !Forall_app. split_and!; [done|apply put_is_byte|by apply encodeID_is_byte|apply put_is_byte].
  - apply (ro_unique _ _ _ Hrows).
Qed.

(** ** Metadata *)

Lemma metadataLoop_sound rows : ∀ count values count' values',
  0 <= count → metadataLoop rows count values = inr (count', values') →
  count' = count + len rows ∧
  (∀ i k v, rows !! i = Some (k, v) → k = count + Z.of_nat i + 1 ∧ k <= 15 ∧ len v = expectedLength k) ∧
  values' = foldl (λ values x, <[Z.to_nat (x.1 - 1) := x.2]> values) values rows.
Proof.
  induction rows as [|[key value] rows IH]; intros count values count' values' Hc; cbn [metadataLoop foldl].
  { intros [= <- <-]. split; [unfold len; cbn; lia|]. done. }
  cbv zeta. destruct (negb (key =? count + 1) || (15 <? key)) eqn:Hkey; [done|].
  destruct (negb (len value =? expectedLength key)) eqn:Hlen; [done|].
  apply orb_false_iff in Hkey as [Hk%negb_false_iff%Z.eqb_eq H15%Z.ltb_ge]. apply negb_false_iff, Z.eqb_eq in Hlen.
  intros Hloop. destruct (IH (count + 1) _ count' values' ltac:(lia) Hloop) as (-> & Hrows & ->).
  split; [unfold len; cbn [length]; lia|]. split; [|done]. intros [|i] k v Hi.
  - injection Hi as <- <-. split; [lia|done].
  - destruct (Hrows i k v Hi) as (H1 & H2 & H3). split; [lia|done].
Qed.

(** Eight bytes are the encoding of the number they stand for. *)
Lemma encode_decode v : len v = 8 → Forall is_byte v → encodeUint64 (bigEndian v) = v ∧ is_u64 (bigEndian v).
Proof. intros Hl Hb. assert (is_bytes 8 v) by (by apply is_bytes_len). split; [by apply put_bigEndian|by apply bigEndian_range]. Qed.

(** A stored policy is the encoding of what it is decoded to. *)
Lemma decodePolicy_sound profile encoded policy :
  Forall is_byte encoded → decodePolicy profile encoded = inr policy →
  Profile policy = profile ∧ encodePolicy policy = encoded ∧ validatePolicy policy = None ∧ 0 <= MaxCodec policy.
Proof.
  intros Hb. unfold decodePolicy. destruct (validateProfile profile); [done|].
  destruct (negb (len encoded =? 56)) eqn:Hl; [done|]. apply negb_false_iff, Z.eqb_eq in Hl. cbv zeta.
  case_match; [done|]. case_match eqn:Hv; [done|]. intros [= <-]. cbn [Profile MaxCodec].
  assert (is_bytes 56 encoded) as H56 by (by apply is_bytes_len).
  assert (∀ i, 0 <= i <= 6 → putUint64 (bigEndian (sub encoded (i * 8) ((i + 1) * 8))) = sub encoded (i * 8) ((i + 1) * 8)) as Hput.
  { intros i Hi. apply put_bigEndian. replace 8%nat with (Z.to_nat ((i + 1) * 8 - i * 8)) by lia. apply (sub_bytes 56); [done|lia..]. }
  split; [done|]. split; [|split; [done|]].
  - unfold encodePolicy. cbn [fmap list_fmap MaxPayload MaxCodec MaxPendingItems MaxPendingPayload MaxReceipts MaxProducers DatabaseLimit concat].
    rewrite !Hput by lia. cbn [Z.mul Z.add Pos.mul Pos.add]. rewrite app_nil_r.
    rewrite <- !sub_split by lia. unfold sub. rewrite drop_0. apply take_ge. destruct H56. lia.
  - assert (is_u64 (bigEndian (sub encoded (1 * 8) ((1 + 1) * 8)))) as [? _]; [|done].
    apply bigEndian_range. apply (sub_bytes 56 encoded 8 16); [done|lia..].
Qed.
(** What the metadata that were read satisfy. *)
Record metadata_ok (m : storeMetadata) : Prop := {
  mo_policy : validatePolicy (m_policy m) = None ∧ 0 <= MaxCodec (m_policy m);
  mo_uuid : is_bytes 16 (m_uuid m);
  mo_epoch : 0 <= m_epoch m < 2 ^ 64;
  mo_order : 0 <= m_lastOrder m < 2 ^ 64;
  mo_durability : 0 <= m_durability m <= ProcessCrash;
  mo_limits : limits_ok m;
}.

(** [decodeMetadata] on fifteen values. *)
Lemma decodeMetadata_values v1 v2 v3 v4 v5 v6 v7 v8 v9 v10 v11 v12 v13 v14 v15 :
  decodeMetadata [v1; v2; v3; v4; v5; v6; v7; v8; v9; v10; v11; v12; v13; v14; v15] =
  if negb ((bigEndian v1 =? 1) && ((bigEndian v3 =? 1) && ((bigEndian v4 =? 1) && true))) then inl ErrUnsupported
  else
    try policy := decodePolicy v2 v6 in
    if ProcessCrash <? default 0 (head v7) then inl ErrUnsupported
    else if (MaxPendingItems policy <? bigEndian v10) || (MaxPendingPayload policy <? bigEndian v11) || (MaxReceipts policy <? bigEndian v12) ||
         (MaxProducers policy <? bigEndian v13) || (bigEndian v13 <? bigEndian v14) || (bigEndian v14 <? bigEndian v15)
    then inl (corrupt "count limits")
    else inr (Metadata v5 policy (default 0 (head v7)) (bigEndian v8) (bigEndian v9)
           (Counts (u32 (bigEndian v10)) (bigEndian v11) (u32 (bigEndian v12)) (u32 (bigEndian v13)) (u32 (bigEndian v14)) (u32 (bigEndian v15)))).
Proof. reflexivity. Qed.

Lemma decodeMetadata_sound (rows : list (Z * bytes)) m :
  len rows = 15 → (∀ i k v, rows !! i = Some (k, v) → k = 0 + Z.of_nat i + 1 ∧ k <= 15 ∧ len v = expectedLength k) →
  (∀ k v, (k, v) ∈ rows → Forall is_byte v) → decodeMetadata rows.*2 = inr m → rows = meta_list m ∧ metadata_ok m.
Proof.
  intros Hlen Hrows Hbytes.
  assert (∀ i k v, rows !! i = Some (k, v) → k = Z.of_nat i + 1 ∧ is_bytes (Z.to_nat (expectedLength (Z.of_nat i + 1))) v) as Hv.
  { intros i k v Hi. destruct (Hrows i k v Hi) as (-> & _ & Hl). split; [lia|]. rewrite Z.add_0_l in Hl. apply is_bytes_len.
    - rewrite Hl, Z2Nat.id; [done|]. unfold len in Hl. lia.
    - eapply Hbytes, list_elem_of_lookup_2, Hi. }
  assert (∀ i k v, rows !! i = Some (k, v) → Z.to_nat (expectedLength (Z.of_nat i + 1)) = 8%nat →
    encodeUint64 (bigEndian v) = v ∧ is_u64 (bigEndian v)) as Hw.
  { intros i k v Hi H8. destruct (Hv i k v Hi) as [_ Hb]. rewrite H8 in Hb. split; [by apply put_bigEndian|by apply bigEndian_range]. }
  unfold len in Hlen. clear Hrows Hbytes.
  do 15 (destruct rows as [|[? ?] rows]; [cbn in Hlen; lia|]). destruct rows; [|cbn [length] in Hlen; lia]. clear Hlen.
  pose proof (Hv 0%nat _ _ eq_refl) as [-> _]. pose proof (Hv 1%nat _ _ eq_refl) as [-> _]. pose proof (Hv 2%nat _ _ eq_refl) as [-> _].
  pose proof (Hv 3%nat _ _ eq_refl) as [-> _]. pose proof (Hv 4%nat _ _ eq_refl) as [-> B5]. pose proof (Hv 5%nat _ _ eq_refl) as [-> [_ B6]].
  pose proof (Hv 6%nat _ _ eq_refl) as [-> [L7 B7]]. pose proof (Hv 7%nat _ _ eq_refl) as [-> _]. pose proof (Hv 8%nat _ _ eq_refl) as [-> _].
  pose proof (Hv 9%nat _ _ eq_refl) as [-> _]. pose proof (Hv 10%nat _ _ eq_refl) as [-> _]. pose proof (Hv 11%nat _ _ eq_refl) as [-> _].
  pose proof (Hv 12%nat _ _ eq_refl) as [-> _]. pose proof (Hv 13%nat _ _ eq_refl) as [-> _]. pose proof (Hv 14%nat _ _ eq_refl) as [-> _].
  pose proof (Hw 0%nat _ _ eq_refl eq_refl) as [W1 _]. pose proof (Hw 2%nat _ _ eq_refl eq_refl) as [W3 _].
  pose proof (Hw 3%nat _ _ eq_refl eq_refl) as [W4 _]. pose proof (Hw 7%nat _ _ eq_refl eq_refl) as [W8 R8].
  pose proof (Hw 8%nat _ _ eq_refl eq_refl) as [W9 R9]. pose proof (Hw 9%nat _ _ eq_refl eq_refl) as [W10 R10].
  pose proof (Hw 10%nat _ _ eq_refl eq_refl) as [W11 R11]. pose proof (Hw 11%nat _ _ eq_refl eq_refl) as [W12 R12].
  pose proof (Hw 12%nat _ _ eq_refl eq_refl) as [W13 R13]. pose proof (Hw 13%nat _ _ eq_refl eq_refl) as [W14 R14].
  pose proof (Hw 14%nat _ _ eq_refl eq_refl) as [W15 R15]. clear Hv Hw.
  cbn [fmap list_fmap snd]. rewrite decodeMetadata_values.
  destruct (negb _) eqn:Hver; [done|]. destruct (decodePolicy _ _) as [|policy] eqn:Hpol; [done|].
  destruct (decodePolicy_sound _ _ _ B6 Hpol) as (P1 & P2 & P3 & P4). pose proof (policy_ok _ P3) as Hlim.
  destruct (ProcessCrash <? _) eqn:Hd; [done|]. destruct (_ || _) eqn:Hc; [done|]. intros [= <-].
  rewrite !orb_false_iff, !Z.ltb_ge in Hc. rewrite negb_false_iff, !andb_true_iff, !Z.eqb_eq in Hver.
  destruct Hver as (V1 & V3 & V4 & _). rewrite V1 in W1. rewrite V3 in W3. rewrite V4 in W4. apply Z.ltb_ge in Hd.
  destruct b5 as [|d [|? ?]]; [done| |done]. cbn [head default from_option id] in Hd. inversion B7 as [|? ? Hbyte _]; subst.
  unfold is_u64 in *. rewrite !u32_small by (unfold is_u32; lia). split.
  - unfold meta_list. cbn [m_uuid m_policy m_durability m_epoch m_lastOrder m_counts PendingItems PendingPayload Receipts Producers
      RetiredProducers CleanupMarkers]. by rewrite W8, W9, W10, W11, W12, W13, W14, W15.
  - unfold is_byte, ProcessCrash in *. constructor; cbn; [done|done|lia|lia|unfold ProcessCrash; lia|unfold limits_ok; cbn; lia].
Qed.

(** The rows of the meta table, and the values that the loop collects from fifteen of them. *)
Lemma elem_of_meta_rows (t : gmap Z bytes) k v : (k, v) ∈ meta_rows t → t !! k = Some v.
Proof.
  unfold meta_rows. intros (k' & _ & Hk)%list_elem_of_omap. destruct (t !! k') as [v'|] eqn:Hv; [|done]. by injection Hk as <- <-.
Qed.

Lemma fill_values (rows : list (Z * bytes)) :
  len rows = 15 → (∀ i k v, rows !! i = Some (k, v) → k = 0 + Z.of_nat i + 1 ∧ k <= 15 ∧ len v = expectedLength k) →
  rows.*2 = foldl (λ values x, <[Z.to_nat (x.1 - 1) := x.2]> values) (replicate 15 []) rows.
Proof.
  intros Hlen Hrows. assert (∀ i k v, rows !! i = Some (k, v) → k = Z.of_nat i + 1) as Hk
    by (intros i k v Hi; destruct (Hrows i k v Hi) as [-> _]; lia). clear Hrows. unfold len in Hlen.
  do 15 (destruct rows as [|[? ?] rows]; [cbn in Hlen; lia|]). destruct rows; [|cbn [length] in Hlen; lia].
  rewrite (Hk 0%nat _ _ eq_refl), (Hk 1%nat _ _ eq_refl), (Hk 2%nat _ _ eq_refl), (Hk 3%nat _ _ eq_refl), (Hk 4%nat _ _ eq_refl),
    (Hk 5%nat _ _ eq_refl), (Hk 6%nat _ _ eq_refl), (Hk 7%nat _ _ eq_refl), (Hk 8%nat _ _ eq_refl), (Hk 9%nat _ _ eq_refl),
    (Hk 10%nat _ _ eq_refl), (Hk 11%nat _ _ eq_refl), (Hk 12%nat _ _ eq_refl), (Hk 13%nat _ _ eq_refl), (Hk 14%nat _ _ eq_refl).
  reflexivity.
Qed.

(** ** Reading, whatever fails *)

Section sound.
Context {C : Type} `{!Connection C} (hash : bytes → bytes) (ctx_err : prog C (option error)).
Context (ctx_keeps : ∀ c, ends ctx_err c (λ _ c', c' = c)).

Lemma ends_ask {A} (q : query A) t c (Q : error + A → C → Prop) :
  idle t c → (∀ c', idle t c' → Q (inr (ask q t)) c') → (∀ e c', idle t c' → Q (inl e) c') → ends (Query q) c Q.
Proof.
  intros Hc Hok Hfail. eapply (ends_read (λ _, True)); [|done|done|by intros; apply Hfail].
  intros A' q' c'. eapply ends_mono; [apply query_law|done].
Qed.

(** Rows that were read without an error are all the rows. *)
Lemma ends_all_rows {R} (q : query (list R)) t c (Q : error + list R * option error → C → Prop) :
  idle t c → (∀ c', idle t c' → Q (inr (ask q t, None)) c') →
  (∀ e k c', idle t c' → Q (inr (take k (ask q t), Some e)) c') → (∀ e c', idle t c' → Q (inl e) c') → ends (Rows q) c Q.
Proof.
  intros Hc Hok Hpart Hfail. eapply (ends_rows (λ _, True)); [|done|done|by intros; apply Hpart|by intros; apply Hfail].
  intros R' q' c'. eapply ends_mono; [apply rows_law|]. by intros [e|[rows [e|]]] ? _.
Qed.

Lemma readMetadata_sound t c :
  typed_tables t → idle t c →
  ends readMetadata c (λ r c', idle t c' ∧ ∀ m, r = inr m → meta_rows (t_meta t) = meta_list m ∧ metadata_ok m).
Proof.
  intros Ht Hc. unfold readMetadata. apply ends_bind. eapply (ends_all_rows SelectMeta t); [done|..].
  - intros c' Hc'. apply ends_ret. split; [done|]. intros m. change (ask SelectMeta t) with (meta_rows (t_meta t)).
    destruct (metadataLoop _ _ _) as [|[count values]] eqn:Hloop; [done|].
    destruct (metadataLoop_sound _ _ _ _ _ ltac:(done) Hloop) as (Hcount & Hrows & ->).
    destruct (negb (count =? 15)) eqn:H15; [done|]. apply negb_false_iff, Z.eqb_eq in H15.
    assert (len (meta_rows (t_meta t)) = 15) as Hlen by lia. intros Hm. apply decodeMetadata_sound; [done|done| |].
    + intros k v Hin. apply (ty_meta t Ht k). by apply elem_of_meta_rows.
    + rewrite <- Hm. f_equal. by apply fill_values.
  - intros e k c' Hc'. apply ends_ret. split; [done|]. intros m. by destruct (metadataLoop _ _ _) as [|[? ?]].
  - intros e c' Hc'. by apply ends_ret.
Qed.
(** ** Records *)

Lemma checkValidationContext_keeps t records c : idle t c → ends (checkValidationContext ctx_err records) c (λ _ c', idle t c').
Proof.
  intros Hc. unfold checkValidationContext. destruct (records mod 256 =? 0); [|by apply ends_ret].
  eapply ends_mono; [apply ctx_keeps|]. by intros err c' ->.
Qed.

(** The shape and the flags that are checked are the invariant of a producer. *)
Lemma producer_sound k p :
  Forall is_byte k → Forall is_byte (retired_through p) →
  negb (len k =? 16) || negb (len (retired_through p) =? 8) ||
    negb ((0 <=? has_retirement p) && (has_retirement p <=? 1) && (0 <=? cleanup_needed p) && (cleanup_needed p <=? 1)) = false →
  (has_retirement p =? 0) && (negb (bigEndian (retired_through p) =? 0) || negb (cleanup_needed p =? 0)) = false →
  is_bytes 16 k ∧ producer_ok p.
Proof.
  intros Hk Hp Hshape Hflag. rewrite !orb_false_iff, !negb_false_iff, !andb_true_iff in Hshape.
  destruct Hshape as ((H1%Z.eqb_eq & H2%Z.eqb_eq) & ((H3%Z.leb_le & H4%Z.leb_le) & H5%Z.leb_le) & H6%Z.leb_le).
  split; [by apply is_bytes_len|]. destruct (encode_decode _ H2 Hp) as [Henc Hr]. unfold producer_ok.
  destruct (Z.eqb_spec (has_retirement p) 0) as [H0|H0].
  - left. apply orb_false_iff in Hflag as [Hf%negb_false_iff%Z.eqb_eq Hc%negb_false_iff%Z.eqb_eq].
    rewrite Hf in Henc. done.
  - right. split; [lia|]. split; [|lia]. by eexists.
Qed.

Lemma producersLoop_sound t policy rows : ∀ counts records c,
  idle t c → (∀ k p, (k, p) ∈ rows → Forall is_byte k ∧ Forall is_byte (retired_through p)) →
  0 <= RetiredProducers counts <= Producers counts → 0 <= CleanupMarkers counts <= Producers counts →
  Producers counts <= MaxProducers policy <= 256 →
  ends (producersLoop ctx_err policy rows counts records) c (λ r c', idle t c' ∧ ∀ counts' n, r = inr (counts', n) →
    counts' = Counts (PendingItems counts) (PendingPayload counts) (Receipts counts)
      (Producers counts + len rows) (RetiredProducers counts + lsum (λ x, has_retirement x.2) rows)
      (CleanupMarkers counts + lsum (λ x, cleanup_needed x.2) rows) ∧
    ∀ k p, (k, p) ∈ rows → is_bytes 16 k ∧ producer_ok p).
Proof.
  induction rows as [|[k p] rows IH]; intros counts records c Hc Hrows H1 H2 H3; cbn [producersLoop].
  { apply ends_ret. split; [done|]. intros ? ? [= <- <-]. split; [|by intros k p ?%not_elem_of_nil].
    destruct counts. unfold len. cbn. by rewrite !Z.add_0_r. }
  cbv zeta. destruct (_ || _) eqn:Hshape; [by apply ends_ret|]. destruct ((has_retirement p =? 0) && _) eqn:Hflag; [by apply ends_ret|].
  destruct (Hrows k p ltac:(by left)) as [Hk Hp]. pose proof (producer_sound k p Hk Hp Hshape Hflag) as Hsound.
  assert (0 <= has_retirement p <= 1 ∧ 0 <= cleanup_needed p <= 1) as [Q1 Q2].
  { destruct Hsound as [_ Hpo]. unfold producer_ok in Hpo. intuition lia. }
  cbn [Producers]. rewrite !u32_small by (unfold is_u32; lia). destruct (Z.ltb_spec (MaxProducers policy) (Producers counts + 1)) as [|Hle];
    [by apply ends_ret|].
  apply ends_bind. eapply ends_mono; [by apply (checkValidationContext_keeps t)|]. intros [e|] c' Hc'; [by apply ends_ret|].
  eapply ends_mono; [apply IH; cbn [Producers RetiredProducers CleanupMarkers]; [done| |lia..]|].
  { intros k' p' Hin. apply Hrows. by right. }
  intros r c'' [Hc'' Hr]. split; [done|]. intros counts' n Hn. destruct (Hr _ _ Hn) as [-> Hall].
  assert (len ((k, p) :: rows) = 1 + len rows) as -> by (unfold len; cbn [length]; lia). rewrite !lsum_cons.
  cbn [PendingItems PendingPayload Receipts Producers RetiredProducers CleanupMarkers snd]. split; [f_equal; lia|].
  intros k' p' [[= -> ->]|Hin]%elem_of_cons; [done|by apply Hall].
Qed.

(** ** Receipts *)

(** What reading the payload of a pending receipt shows. *)
Definition payload_sound (t : tables) (policy : DurablePolicy) (key digest : bytes) (length : Z) : Prop :=
  ∃ row, t_payloads t !! key = Some row ∧ digest = entryDigest hash (p_codec row) (p_payload row) ∧
    payload_length row = len (p_payload row) ∧ len (p_codec row) <= MaxCodec policy ∧ len (p_payload row) <= MaxPayload policy ∧
    length = payload_length row.

Lemma validatePayload_sound t key digest policy c :
  idle t c →
  ends (validatePayload hash key digest policy) c (λ q c', idle t c' ∧ ∀ length, q = inr length → payload_sound t policy key digest length).
Proof.
  intros Hc. unfold validatePayload. apply ends_bind. eapply (ends_ask (SelectPayload key) t); [done|..]; [|intros e c' Hc'; by apply ends_ret].
  clear c Hc. intros c Hc. change (ask (SelectPayload key) t) with (t_payloads t !! key).
  destruct (t_payloads t !! key) as [row|] eqn:Hrow; [|by apply ends_ret]. cbv zeta. destruct (_ || _) eqn:Hshape; [by apply ends_ret|].
  rewrite !orb_false_iff, !Z.ltb_ge, negb_false_iff, Z.eqb_eq in Hshape. destruct Hshape as ((((_ & _) & H1) & H2) & H3).
  apply ends_bind. eapply (ends_ask (SelectPayload key) t); [done|..]; [|intros e c' Hc'; by apply ends_ret].
  clear c Hc. intros c Hc. change (ask (SelectPayload key) t) with (t_payloads t !! key). rewrite Hrow. apply ends_ret. split; [done|].
  case_bool_decide as Hd; [|done]. intros length [= <-]. exists row. by rewrite H3.
Qed.

(** A key and what it identifies. *)
Lemma key_sound key :
  Forall is_byte key → len key = 24 →
  let id := MkID (sub key 0 16) (bigEndian (sub key 16 24)) in id_ok id ∧ key = encodeID id ∧ putUint64 (Sequence id) = sub key 16 24.
Proof.
  intros Hb Hl. assert (is_bytes 24 key) as H24 by (by apply is_bytes_len). cbv zeta. unfold encodeID, id_ok. cbn [Producer Sequence].
  pose proof (sub_bytes 24 key 0 16 H24 ltac:(lia) ltac:(lia)) as S1. pose proof (sub_bytes 24 key 16 24 H24 ltac:(lia) ltac:(lia)) as S2.
  rewrite put_bigEndian by done. split; [split; [done|by apply bigEndian_range]|]. split; [|done].
  rewrite <- sub_split by lia. unfold sub. rewrite drop_0. symmetry. apply take_ge. destruct H24 as [-> _]. lia.
Qed.

(** A token whose parts were checked was made for the receipt that holds it. *)
Lemma token_sound m key id token :
  is_bytes 56 token → 0 <= m_epoch m < 2 ^ 64 → id_ok id → key = encodeID id →
  negb (bool_decide (sub token 0 16 = m_uuid m)) || negb (bool_decide (sub token 24 48 = key)) ||
    (bigEndian (sub token 16 24) =? 0) || (m_epoch m <? bigEndian (sub token 16 24)) || (bigEndian (sub token 48 56) =? 0) = false →
  ∃ epoch attempt, 1 <= epoch <= m_epoch m ∧ 1 <= attempt < 2 ^ 64 ∧ token = encodeToken (m_uuid m) epoch id attempt.
Proof.
  intros Ht Hep Hid -> Hc. rewrite !orb_false_iff, !negb_false_iff, !bool_decide_eq_true, !Z.eqb_neq, Z.ltb_ge in Hc.
  destruct Hc as ((((Hu & Hk) & He0) & Hem) & Ha). destruct (token_rebuild token Ht) as (Htok & Hdec & _).
  rewrite Hk, decode_encodeID in Hdec by done. injection Hdec as Hdec. rewrite <- Hdec, Hu in Htok.
  pose proof (bigEndian_range _ (sub_bytes 56 token 16 24 Ht ltac:(lia) ltac:(lia))) as R1.
  pose proof (bigEndian_range _ (sub_bytes 56 token 48 56 Ht ltac:(lia) ltac:(lia))) as R2. unfold is_u64 in *.
  exists (bigEndian (sub token 16 24)), (bigEndian (sub token 48 56)). split; [lia|]. split; [lia|done].
Qed.

(** What the checks of one receipt show. *)
Lemma receipt_sound t m key r p :
  typed_tables t → metadata_ok m → t_receipts t !! key = Some r → len key = 24 → len (r_digest r) = 32 → len (accept_order r) = 8 →
  bigEndian (accept_order r) ≠ 0 → bigEndian (accept_order r) <= m_lastOrder m →
  t_producers t !! sub key 0 16 = Some p → producer_ok p → receiptRelations m key r p = None →
  (r_state r = 0 → ∃ length, payload_sound t (m_policy m) key (r_digest r) length) →
  (r_state r = 1 → t_payloads t !! key = None) → receipt_ok hash t m key r.
Proof.
  intros Ht Hm Hr Hlk Hld Hlo Ho1 Ho2 Hp Hpo Hrel Hpay Hack. destruct (ty_receipt t Ht key r Hr) as (Hbk & Hbo & Hst).
  destruct (key_sound key Hbk Hlk) as (Hid & Hkey & Hseq). set (id := MkID _ _) in *.
  assert (below p id = (has_retirement p =? 1) && negb (bool_decide (bytes_compare (sub key 16 24) (retired_through p) = Gt))) as Hbelow.
  { unfold below. destruct Hpo as [(-> & _)|(-> & (f & Hf & ->) & _)]; [done|]. cbn [Z.eqb Pos.eqb andb]. rewrite <- Hseq.
    unfold encodeUint64. rewrite compare_put, bigEndian_put by (done || apply Hid). rewrite Z.leb_compare. by destruct (Sequence id ?= f). }
  exists id, p. split; [done|]. split; [done|]. split; [done|]. split; [unfold len in Hld; lia|]. split.
  { destruct (encode_decode _ Hlo Hbo) as [He [? ?]]. exists (bigEndian (accept_order r)). split; [lia|done]. }
  unfold receiptRelations in Hrel. rewrite <- Hbelow in Hrel. destruct Hst as [[H0 Hnone]|(H1 & token & Htok & Hbytes)].
  - left. split; [done|]. split; [done|]. rewrite H0 in Hrel. split; [by destruct (below p id)|].
    destruct (Hpay H0) as (length & row & Hrow & Hd & Hl & Hc & Hmax & _). by exists row.
  - right. split; [done|]. split; [by apply Hack|]. rewrite H1, Htok in Hrel. cbn [Z.eqb orb default from_option Datatypes.id] in Hrel. split.
    + intros Hb. rewrite Hb in Hrel. cbn [andb] in Hrel. destruct Hpo as [(_ & _ & Hcl)|(_ & _ & [Hcl|Hcl])]; [by rewrite Hcl in Hrel..|done].
    + destruct (below p id && _); [done|]. cbn [Pos.eqb] in Hrel. destruct (negb (len token =? 56)); [done|].
      destruct (_ || _) eqn:Hc; [done|]. destruct (token_sound m key id token Hbytes (mo_epoch m Hm) Hid Hkey Hc) as (epoch & attempt & He & Ha & ->).
      by exists epoch, attempt.
Qed.

(** A receipt that passed: it is as the invariant says, once acknowledged receipts have no payload. *)
Definition passed (t : tables) (m : storeMetadata) (key : bytes) (r : receiptRow) : Prop :=
  (r_state r = 0 → is_Some (t_payloads t !! key)) ∧ ((r_state r = 1 → t_payloads t !! key = None) → receipt_ok hash t m key r).

Lemma receipt_payload_sound t m key r counts records c :
  idle t c → metadata_ok m → r_state r = 0 ∨ r_state r = 1 →
  0 <= PendingItems counts <= MaxPendingItems (m_policy m) → 0 <= PendingPayload counts <= MaxPendingPayload (m_policy m) →
  ends (if r_state r =? 1 then mret (inr (counts, records))
        else
          q ← validatePayload hash key (r_digest r) (m_policy m);
          match q with
          | inl err => mret (inl err)
          | inr length =>
              let records := records +64 1 in
              err ← checkValidationContext ctx_err records;
              mret match err with
                   | Some err => inl err
                   | None => inr (with_pending (PendingItems counts +32 1) (PendingPayload counts +64 length)
                       (Receipts counts) (Producers counts) counts, records)
                   end
          end) c (λ q c', idle t c' ∧ ∀ counts' n, q = inr (counts', n) →
    counts' = with_pending (PendingItems counts + pending_of t (λ _, 1) (key, r))
      (PendingPayload counts + pending_of t payload_length (key, r)) (Receipts counts) (Producers counts) counts ∧
    0 <= pending_of t (λ _, 1) (key, r) ∧ 0 <= pending_of t payload_length (key, r) ∧
    (r_state r = 0 → ∃ length, payload_sound t (m_policy m) key (r_digest r) length)).
Proof.
  intros Hc Hm Hst H1 H2. pose proof (policy_ok _ (proj1 (mo_policy m Hm))) as Hpol. unfold pending_of. cbn [fst snd].
  destruct (Z.eqb_spec (r_state r) 1) as [Hs|Hs].
  { apply ends_ret. split; [done|]. intros ? ? [= <- <-]. split; [destruct counts; cbn; by rewrite !Z.add_0_r|].
    split; [done|]. split; [done|lia]. }
  apply ends_bind. eapply ends_mono; [by apply (validatePayload_sound t)|]. intros [e|length] c' [Hc' Hp]; [by apply ends_ret|].
  cbv zeta. apply ends_bind. eapply ends_mono; [by apply (checkValidationContext_keeps t)|]. intros [e|] c'' Hc''; apply ends_ret; [done|].
  split; [done|]. intros ? ? [= <- <-]. destruct (Hp length eq_refl) as (row & Hrow & Hd & Hl & Hcod & Hmax & ->). rewrite Hrow. cbn.
  assert (0 <= len (p_payload row)) by (unfold len; lia). rewrite u32_small, u64_small by (unfold is_u32, is_u64; lia).
  split; [done|]. split; [done|]. split; [lia|]. intros _. exists (payload_length row), row. done.
Qed.

Lemma receiptsLoop_sound t m rows : ∀ counts records c,
  typed_tables t → metadata_ok m → (∀ k p, t_producers t !! k = Some p → producer_ok p) →
  idle t c → (∀ k r, (k, r) ∈ rows → t_receipts t !! k = Some r) →
  0 <= PendingItems counts <= MaxPendingItems (m_policy m) → 0 <= PendingPayload counts <= MaxPendingPayload (m_policy m) →
  0 <= Receipts counts <= MaxReceipts (m_policy m) →
  ends (receiptsLoop hash ctx_err m rows counts records) c (λ q c', idle t c' ∧ ∀ counts' n, q = inr (counts', n) →
    counts' = with_pending (PendingItems counts + lsum (pending_of t (λ _, 1)) rows)
      (PendingPayload counts + lsum (pending_of t payload_length) rows) (Receipts counts + len rows) (Producers counts) counts ∧
    ∀ k r, (k, r) ∈ rows → passed t m k r).
Proof.
  induction rows as [|[key r] rows IH]; intros counts records c Ht Hm Hprod Hc Hrows H1 H2 H3; cbn [receiptsLoop].
  { apply ends_ret. split; [done|]. intros ? ? [= <- <-]. split; [|by intros k r ?%not_elem_of_nil].
    destruct counts. unfold len. cbn. by rewrite !Z.add_0_r. }
  pose proof (policy_ok _ (proj1 (mo_policy m Hm))) as Hpol. pose proof (Hrows key r ltac:(by left)) as Hr.
  assert (r_state r = 0 ∨ r_state r = 1) as Hst by (destruct (ty_receipt t Ht key r Hr) as (_ & _ & [[? _]|[? _]]); auto).
  destruct (_ || _) eqn:Hshape; [by apply ends_ret|]. cbv zeta. destruct ((bigEndian _ =? 0) || _) eqn:Hord; [by apply ends_ret|].
  rewrite !orb_false_iff, !negb_false_iff, !Z.eqb_eq in Hshape. destruct Hshape as ((((L1 & L2) & L3) & _) & _).
  apply orb_false_iff in Hord as [Ho1%Z.eqb_neq Ho2%Z.ltb_ge].
  apply ends_bind. eapply (ends_ask (SelectProducer (sub key 0 16)) t); [done|..]; [|intros e c' Hc'; by apply ends_ret].
  clear c Hc. intros c Hc. change (ask (SelectProducer (sub key 0 16)) t) with (@lookup bytes _ _ _ (sub key 0 16) (t_producers t)).
  destruct (@lookup bytes _ _ _ (sub key 0 16) (t_producers t)) as [p|] eqn:Hp; [|by apply ends_ret].
  destruct (receiptRelations m key r p) eqn:Hrel; [by apply ends_ret|].
  apply ends_bind. eapply ends_mono; [by apply (receipt_payload_sound t m)|].
  intros [e|[counts1 records1]] c1 [Hc1 Hq]; [by apply ends_ret|]. destruct (Hq _ _ eq_refl) as (-> & N1 & N2 & Hpay). unfold with_pending.
  cbn [PendingItems PendingPayload Receipts Producers RetiredProducers CleanupMarkers]. rewrite (u32_small (_ + 1)) by (unfold is_u32; lia).
  destruct (_ || _) eqn:Hlim; [by apply ends_ret|]. rewrite !orb_false_iff, !Z.ltb_ge in Hlim. destruct Hlim as ((M1 & M2) & M3).
  apply ends_bind. eapply ends_mono; [by apply (checkValidationContext_keeps t)|]. intros [e|] c2 Hc2; [by apply ends_ret|].
  eapply ends_mono; [apply IH; cbn [PendingItems PendingPayload Receipts]; [done|done|done|done| |lia..]|].
  { intros k' r' Hin. apply Hrows. by right. }
  intros q c3 [Hc3 Hall]. split; [done|]. intros counts' n Hn. destruct (Hall _ _ Hn) as [-> Hrest].
  assert (len ((key, r) :: rows) = 1 + len rows) as -> by (unfold len; cbn [length]; lia). rewrite !lsum_cons. unfold with_pending.
  cbn [PendingItems PendingPayload Receipts Producers RetiredProducers CleanupMarkers]. split; [f_equal; lia|].
  intros k' r' [[= -> ->]|Hin]%elem_of_cons; [|by apply Hrest]. split.
  - intros H0. destruct (Hpay H0) as (length & row & Hrow & _). by rewrite Hrow.
  - exact (receipt_sound t m key r p Ht Hm Hr L1 L2 L3 Ho1 Ho2 Hp (Hprod _ _ Hp) Hrel Hpay).
Qed.

(** ** The whole store *)

(** As many payloads as pending receipts, each with its payload: the payloads are exactly theirs. *)
Lemma payloads_match t :
  (∀ k r, t_receipts t !! k = Some r → r_state r ≠ 1 → is_Some (t_payloads t !! k)) →
  Z.of_nat (size (t_payloads t)) = lsum (pending_of t (λ _, 1)) (rows_of (t_receipts t)) →
  pending_keys t ≡ₚ (rows_of (t_payloads t)).*1.
Proof.
  intros Hsome Hsize. assert (∀ k, k ∈ pending_keys t → is_Some (t_payloads t !! k)) as Hkeys.
  { intros k (r & Hr & Hst)%elem_of_pending_keys. by apply (Hsome k r). }
  rewrite lsum_pending_keys, (lsum_ext _ (λ _, 1)), <- len_lsum in Hsize.
  2: { intros k Hk. by destruct (Hkeys k Hk) as [row ->]. }
  apply submseteq_length_Permutation.
  - apply NoDup_submseteq; [apply pending_keys_nodup|]. intros k Hk. destruct (Hkeys k Hk) as [row Hrow].
    apply list_elem_of_fmap. exists (k, row). by rewrite elem_of_rows_of.
  - rewrite length_fmap, rows_of_permutation, length_map_to_list. unfold len in Hsize. lia.
Qed.

Lemma rows_ok_of t m :
  typed_tables t → metadata_ok m →
  (∀ k p, t_producers t !! k = Some p → is_bytes 16 k ∧ producer_ok p) →
  (∀ k r, t_receipts t !! k = Some r → passed t m k r) →
  Z.of_nat (size (t_payloads t)) = lsum (pending_of t (λ _, 1)) (rows_of (t_receipts t)) →
  m_counts m = Counts (lsum (pending_of t (λ _, 1)) (rows_of (t_receipts t))) (lsum (pending_of t payload_length) (rows_of (t_receipts t)))
    (len (rows_of (t_receipts t))) (len (rows_of (t_producers t)))
    (lsum (λ x, has_retirement x.2) (rows_of (t_producers t))) (lsum (λ x, cleanup_needed x.2) (rows_of (t_producers t))) →
  rows_ok hash t m.
Proof.
  intros Ht Hm Hprod Hrec Hsize Hcounts. assert (∀ k r, t_receipts t !! k = Some r → r_state r = 0 ∨ r_state r = 1) as Hst
    by (intros k r Hr; destruct (ty_receipt t Ht k r Hr) as (_ & _ & [[? _]|[? _]]); auto).
  assert (pending_keys t ≡ₚ (rows_of (t_payloads t)).*1) as Hperm.
  { apply payloads_match; [|done]. intros k r Hr Hne. apply (Hrec k r Hr). destruct (Hst k r Hr); [done|by destruct Hne]. }
  assert (∀ f, lsum (pending_of t f) (rows_of (t_receipts t)) = msum f (t_payloads t)) as Hsum
    by (intros f; rewrite lsum_pending_keys, <- lsum_payload_keys; by apply lsum_permutation).
  assert (∀ k row, t_payloads t !! k = Some row → ∃ r, t_receipts t !! k = Some r ∧ r_state r ≠ 1) as Hpay.
  { intros k row Hrow. apply elem_of_pending_keys. rewrite Hperm. apply list_elem_of_fmap. exists (k, row). by rewrite elem_of_rows_of. }
  constructor; try (rewrite Hcounts; cbn [PendingItems PendingPayload Receipts Producers RetiredProducers CleanupMarkers];
    first [apply Hsum|apply len_rows|exact (lsum_rows _ _)]); try apply Hm.
  - apply Hprod.
  - intros k r Hr. destruct (Hrec k r Hr) as [_ Hok]. apply Hok. intros H1. destruct (t_payloads t !! k) as [row|] eqn:Hrow; [|done].
    destruct (Hpay k row Hrow) as (r' & Hr' & Hne). congruence.
  - intros k row Hrow. destruct (Hpay k row Hrow) as (r & Hr & Hne). exists r. split; [done|]. by destruct (Hst k r Hr).
  - apply (ty_unique t Ht).
Qed.

(** All producers, or the first of them when reading fails. *)
Lemma producers_sound t m k records c :
  typed_tables t → metadata_ok m → idle t c →
  ends (producersLoop ctx_err (m_policy m) (take k (rows_of (t_producers t))) zeroCounts records) c (λ r c', idle t c' ∧
    ∀ counts n, r = inr (counts, n) → take k (rows_of (t_producers t)) = rows_of (t_producers t) →
      counts = Counts 0 0 0 (len (rows_of (t_producers t))) (lsum (λ x, has_retirement x.2) (rows_of (t_producers t)))
        (lsum (λ x, cleanup_needed x.2) (rows_of (t_producers t))) ∧
      ∀ k p, t_producers t !! k = Some p → is_bytes 16 k ∧ producer_ok p).
Proof.
  intros Ht Hm Hc. pose proof (policy_ok _ (proj1 (mo_policy m Hm))) as Hpol.
  eapply ends_mono; [apply (producersLoop_sound t); cbn [zeroCounts RetiredProducers Producers CleanupMarkers]; [done| |lia..]|].
  { intros key p Hin%elem_of_take_rows. by apply (ty_producer t Ht). }
  intros r c' [Hc' Hq]. split; [done|]. intros counts n Hr Hall. destruct (Hq _ _ Hr) as [-> Hprod]. rewrite Hall in *. split; [done|].
  intros key p Hk. apply Hprod. by rewrite elem_of_rows_of.
Qed.

Lemma receipts_sound t m k producers retired cleanup records c :
  typed_tables t → metadata_ok m → idle t c → (∀ k p, t_producers t !! k = Some p → producer_ok p) →
  ends (receiptsLoop hash ctx_err m (take k (rows_of (t_receipts t))) (Counts 0 0 0 producers retired cleanup) records) c (λ r c', idle t c' ∧
    ∀ counts n, r = inr (counts, n) → take k (rows_of (t_receipts t)) = rows_of (t_receipts t) →
      counts = Counts (lsum (pending_of t (λ _, 1)) (rows_of (t_receipts t))) (lsum (pending_of t payload_length) (rows_of (t_receipts t)))
        (len (rows_of (t_receipts t))) producers retired cleanup ∧
      ∀ k r, t_receipts t !! k = Some r → passed t m k r).
Proof.
  intros Ht Hm Hc Hp. pose proof (policy_ok _ (proj1 (mo_policy m Hm))) as Hpol.
  eapply ends_mono; [apply (receiptsLoop_sound t m); cbn [PendingItems PendingPayload Receipts]; [done..| |lia|lia|lia]|].
  { intros key r. by apply elem_of_take_rows. }
  intros r c' [Hc' Hq]. split; [done|]. intros counts n Hr Hall. destruct (Hq _ _ Hr) as [-> Hrec]. rewrite Hall in *. split; [done|].
  intros key row Hk. apply Hrec. by rewrite elem_of_rows_of.
Qed.

Lemma validateRecords_sound t m c :
  typed_tables t → metadata_ok m → idle t c →
  ends (validateRecords hash ctx_err m) c (λ r c', idle t c' ∧ ∀ counts n, r = inr (counts, n) → counts = m_counts m → rows_ok hash t m).
Proof.
  intros Ht Hm Hc. unfold validateRecords. apply ends_bind.
  eapply (ends_all_rows SelectProducers t); [done|..]; [|intros e k c' Hc'|intros e c' Hc'; by apply ends_ret].
  2: { apply ends_bind. eapply ends_mono; [by apply (producers_sound t m)|]. intros [e'|[? ?]] c1 [Hc1 _]; by apply ends_ret. }
  clear c Hc. intros c Hc. change (ask SelectProducers t) with (rows_of (t_producers t)). apply ends_bind.
  rewrite <- (firstn_all (rows_of (t_producers t))). eapply ends_mono; [by apply (producers_sound t m)|].
  clear c Hc. intros [e|[counts records]] c [Hc Hq]; [by apply ends_ret|].
  rewrite firstn_all in Hq. destruct (Hq _ _ eq_refl eq_refl) as [-> Hprod]. clear Hq.
  assert (∀ k p, t_producers t !! k = Some p → producer_ok p) as Hp by (intros k p Hk; by apply (Hprod k p)).
  apply ends_bind. eapply (ends_all_rows SelectReceipts t); [done|..]; [|intros e k c' Hc'|intros e c' Hc'; by apply ends_ret].
  2: { apply ends_bind. eapply ends_mono; [by apply (receipts_sound t m)|]. intros [e'|[? ?]] c1 [Hc1 _]; by apply ends_ret. }
  clear c Hc. intros c Hc. change (ask SelectReceipts t) with (rows_of (t_receipts t)). apply ends_bind.
  rewrite <- (firstn_all (rows_of (t_receipts t))). eapply ends_mono; [by apply (receipts_sound t m)|].
  clear c Hc. intros [e|[counts records']] c [Hc Hq]; [by apply ends_ret|].
  rewrite firstn_all in Hq. destruct (Hq _ _ eq_refl eq_refl) as [-> Hrec]. clear Hq.
  apply ends_bind. eapply (ends_ask CountPayloads t); [done|..]; [|intros e c' Hc'; by apply ends_ret].
  clear c Hc. intros c Hc. apply ends_ret. split; [done|]. change (ask CountPayloads t) with (Z.of_nat (size (t_payloads t))). cbn [PendingItems].
  destruct (Z.eqb_spec (Z.of_nat (size (t_payloads t))) (lsum (pending_of t (λ _, 1)) (rows_of (t_receipts t)))) as [Hsize|]; [|done].
  intros ? ? [= <- <-] Hcounts. by apply rows_ok_of.
Qed.

Lemma meta_rows_inj (t t' : gmap Z bytes) : meta_rows t = meta_rows t' → t = t'.
Proof.
  intros He. assert (∀ (t : gmap Z bytes) k v, t !! k = Some v → (k, v) ∈ meta_rows t) as Hin.
  { clear. intros t k v Hk. unfold meta_rows. apply list_elem_of_omap. exists k. rewrite Hk. split; [|done].
    rewrite merge_sort_Permutation. apply list_elem_of_fmap. exists (k, v). by rewrite elem_of_map_to_list. }
  apply map_eq. intros k. apply option_eq. intros v. split; intros Hk.
  - apply elem_of_meta_rows. rewrite <- He. by apply Hin.
  - apply elem_of_meta_rows. rewrite He. by apply Hin.
Qed.

(** C9. Validation accepts only consistent stores: when it returns metadata, then whatever the tables
    held, they satisfy the invariant of the durable queue with these metadata: every receipt has a
    producer, pending receipts have their payloads and no other receipt has one, tokens and digests
    belong to their entries, and the counts are exact. It changes nothing. What SQLite checks itself
    (bytes, the shape of acknowledgement tokens, unique acceptance orders) is assumed of the tables. *)
Theorem validate_sound t c :
  typed_tables t → idle t c →
  ends (validate hash ctx_err) c (λ r c', idle t c' ∧ ∀ m n, r = inr (m, n) → store_ok hash t m).
Proof.
  intros Ht Hc. unfold validate. apply ends_bind. eapply ends_mono; [by apply readMetadata_sound|].
  clear c Hc. intros [e|m] c [Hc Hm]; [by apply ends_ret|]. destruct (Hm m eq_refl) as [Hmeta Hok].
  apply ends_bind. unfold validateLogicalState. apply ends_bind. eapply ends_mono; [by apply (validateRecords_sound t m)|].
  clear c Hc. intros [e|[counts records]] c [Hc Hr]; [by do 2 apply ends_ret|].
  case_bool_decide as Hcounts; cbn [negb]; do 2 apply ends_ret; [|done]. split; [done|]. intros m' n [= <- <-].
  constructor; [by apply (Hr counts records)|apply Hok|apply Hok|]. apply meta_rows_inj. by rewrite meta_rows_of.
Qed.
End sound.
End DurableSound.
