(* ===== verification/DurableDemo.v ===== *)
(** * The theorems on transactions and startup, applied (src/workq/durable)

    A small store on the connection in memory, where every statement may fail: the hypotheses of the
    theorems hold there, and transactions run. *)

From Stdlib Require Import ZArith Lia.
From stdpp Require Import prelude list gmap strings sorting.
From S2P Require Import Prelude Prog DurableCore DurableSpec DurableStore DurableInv DurableTx DurableGroup DurableCleanup DurableMem DurableOpen DurableStart DurableSound.

Module DurableDemo.
Import Prog Durable DurableSpec DurableStore DurableInv DurableTx DurableGroup DurableCleanup DurableMem DurableOpen DurableStart DurableSound.

(** A function with results of 32 bytes. *)
Definition demo_hash (input : bytes) : bytes := replicate 31 0 ++ [foldl (λ a b, (a + b) mod 256) 0 input].
Lemma demo_hash_length input : length (demo_hash input) = 32%nat.
Proof. done. Qed.

Definition demo_uuid : UUID := replicate 16 5.
Definition demo_created : storeMetadata := fresh_metadata small_config demo_uuid.
Definition demo_metadata : storeMetadata := with_epoch 1 demo_created.
Definition demo_tables : tables := set_meta (meta_of demo_metadata) empty_tables.
Definition demo_connection (t : tables) : memory := Memory t t false.
Definition demo_session : session memory := Session (demo_connection demo_tables) demo_metadata (replicate 8 zero_claim) 0.

Lemma demo_created_ok : store_ok demo_hash (set_meta (meta_of demo_created) empty_tables) demo_created.
Proof. apply fresh_ok; [by vm_compute|by vm_compute|by vm_compute|]. split; [done|]. by apply Forall_replicate. Qed.

Lemma demo_store_ok : store_ok demo_hash demo_tables demo_metadata.
Proof. exact (store_ok_epoch demo_hash _ _ demo_created_ok eq_refl). Qed.

Lemma demo_session_ok : session_ok demo_hash small_config demo_session.
Proof. split; [done|apply demo_store_ok|done|done]. Qed.

Definition demo_id : ID := MkID (replicate 16 7) 3.
Lemma demo_id_ok : id_ok demo_id.
Proof. split; [split; [done|by apply Forall_replicate]|done]. Qed.

(** A submission, a retirement at its identity (which the pending entry refuses) and one below it. *)
Definition demo_commands : list mutation :=
  [CommandSubmit [MkEntry demo_id [1] [2; 3]]; CommandRetire demo_id; CommandRetire (MkID (replicate 16 7) 2)].

Lemma demo_commands_ok : Forall (command_ok small_config) demo_commands.
Proof.
  repeat constructor; try done; try (by apply Forall_replicate); try apply demo_id_ok.
  eexists. by vm_compute.
Qed.

(** One run: the first and the last command are applied, the second is refused. *)
Example group_run :
  (λ x, (x.2, m_counts (metadata x.1), kind_of (state_of (saved (conn x.1)) demo_id))) <$>
    Prog.exec 200 (executeTransaction demo_hash demo_commands) demo_session =
  Some (None, [(Applied, None); (NotApplied, Some ErrConflict); (Applied, None)], Counts 1 2 1 1 1 1, Pending).
Proof. by vm_compute. Qed.

(** The group of three commands is atomic, wherever it fails. *)
Lemma executeTransaction_atomic_witness :
  ends (executeTransaction demo_hash demo_commands) demo_session (λ '(err, results) s', length results = 3%nat ∧
    if err then not_committed demo_hash demo_session demo_commands results s'
    else committed demo_hash small_config demo_session demo_commands results s').
Proof.
  apply (executeTransaction_atomic demo_hash small_config demo_hash_length ltac:(by vm_compute) ltac:(by vm_compute)
    demo_session demo_commands demo_session_ok demo_commands_ok).
Defined.

(** A store with a marker to clean. *)
Definition marked_metadata : storeMetadata := count_retire None demo_metadata.
Definition marked_session : session memory :=
  Session (demo_connection (set_meta (meta_of marked_metadata) (retire_rows demo_id demo_tables))) marked_metadata [] 0.

Lemma marked_session_ok : session_ok demo_hash small_config marked_session.
Proof.
  split; [done| |done|done]. split; [|by vm_compute|by vm_compute|done]. apply rows_ok_meta.
  apply (retire_ok demo_hash demo_tables demo_metadata demo_id); [apply demo_store_ok|apply demo_id_ok|]. by split.
Qed.

Example marked_run :
  (λ x, (x.2, CleanupMarkers (m_counts (metadata x.1)))) <$> Prog.exec 100 (cleanupTransaction small_config) marked_session = Some (None, 0).
Proof. by vm_compute. Qed.

Lemma cleanupTransaction_keeps_witness :
  ends (cleanupTransaction small_config) marked_session (λ err s', kept demo_hash marked_session s' ∧
    if err then metadata s' = marked_metadata else session_ok demo_hash small_config s' ∧ 0 <= cleanup_left (metadata s') < 1).
Proof.
  apply (cleanupTransaction_keeps demo_hash small_config marked_session ltac:(by vm_compute) ltac:(by vm_compute) marked_session_ok).
Defined.

(** ** Startup *)

(** The context may be cancelled at any time. *)
Definition demo_ctx : prog memory (option error) := Act (λ c, [(c, None); (c, Some Canceled)]) Ret.
Definition demo_errors (e : error) : Prop := e = ErrIO ∨ e = Canceled.

Ltac reports := intros; apply ends_choose; [done|]; intros ? ? Hin;
  repeat (apply elem_of_cons in Hin as [[= -> ->]|Hin]; [unfold demo_errors; naive_solver|]); by apply not_elem_of_nil in Hin.

Lemma demo_query A (q : query A) c : ends (Query q) c (λ r _, ∀ e, r = inl e → demo_errors e).
Proof. reports. Qed.
Lemma demo_rows R (q : query (list R)) c : ends (Rows q) c (λ r _, match r with inl e => demo_errors e | inr (_, Some e) => demo_errors e | _ => True end).
Proof.
  apply ends_choose; [done|]. intros c' r Hin. apply elem_of_cons in Hin as [[= -> ->]|Hin]; [done|].
  apply elem_of_cons in Hin as [[= -> ->]|Hin]; [by left|]. apply list_elem_of_fmap in Hin as (k & [= -> ->] & _). by left.
Qed.
Lemma demo_exec st c : ends (Exec st) c (λ err _, ∀ e, err = Some e → demo_errors e).
Proof.
  apply ends_choose; [by destruct (run _ _)|]. intros c' err Hin. apply elem_of_app in Hin as [Hin|Hin].
  - destruct (run st (mem_view c)); [|by apply not_elem_of_nil in Hin]. apply list_elem_of_singleton in Hin as [= -> ->]. done.
  - repeat (apply elem_of_cons in Hin as [[= -> ->]|Hin]; [unfold demo_errors; naive_solver|]). by apply not_elem_of_nil in Hin.
Qed.
Lemma demo_begin c : ends Begin c (λ err _, ∀ e, err = Some e → demo_errors e).
Proof. reports. Qed.
Lemma demo_commit c : ends Commit c (λ err _, ∀ e, err = Some e → demo_errors e).
Proof. reports. Qed.
Lemma demo_rollback c : ends Rollback c (λ err _, ∀ e, err = Some e → demo_errors e).
Proof. reports. Qed.
Lemma demo_ctx_keeps c : ends demo_ctx c (λ err c', c' = c ∧ ∀ e, err = Some e → demo_errors e).
Proof. reports. Qed.

(** Opening the store again, with [demo_metadata] in epoch 1, gives epoch 2. *)
Example reopen_run :
  (λ x, match x.2 with inr m => m_epoch m | inl _ => 0 end) <$>
    Prog.exec 200 (startStore demo_hash demo_ctx false small_config (inl ErrIO)) (demo_connection demo_tables) = Some 2.
Proof. by vm_compute. Qed.

Lemma startStore_reopens_witness :
  ends (startStore demo_hash demo_ctx false small_config (inl ErrIO)) (demo_connection demo_tables) (λ r c',
    reopened demo_hash demo_tables demo_metadata c' ∧
    match r with
    | inr m' => m' = with_epoch (1 + 1) demo_metadata ∧ opened demo_hash small_config m' c'
    | inl e => reported demo_errors e ∨ (e = ErrConfigMismatch ∧ ¬ (small_policy = small_policy ∧ Synchronized = Synchronized)) ∨
        (e = ErrExhausted ∧ 1 = maxUint64)
    end).
Proof.
  apply (startStore_reopens demo_hash demo_ctx demo_errors demo_query demo_rows demo_ctx_keeps demo_exec demo_begin demo_commit demo_rollback
    small_config (inl ErrIO) demo_tables demo_metadata (demo_connection demo_tables) demo_store_ok). by split.
Defined.

Definition demo_random : error + UUID := inr demo_uuid.

Lemma startStore_creates_witness :
  ends (startStore demo_hash demo_ctx true small_config demo_random) (demo_connection empty_tables) (λ r c',
    agree (state_of (saved c')) (λ _, SAbsent) ∧
    match r with
    | inr m => ∃ uuid, demo_random = inr uuid ∧ m = with_epoch 1 (fresh_metadata small_config uuid) ∧ opened demo_hash small_config m c'
    | inl e => reported demo_errors e ∧ (saved c' = empty_tables ∨ ∃ m, store_ok demo_hash (saved c') m)
    end).
Proof.
  apply (startStore_creates demo_hash demo_ctx demo_errors demo_query demo_rows demo_ctx_keeps demo_exec demo_begin demo_commit demo_rollback
    small_config demo_random (demo_connection empty_tables)); [by vm_compute|by vm_compute|done|done| |by split].
  intros uuid [= <-]. split; [done|by apply Forall_replicate].
Defined.

(** ** Validation *)

(** A store with one pending entry. *)
Definition demo_entry : Entry := MkEntry demo_id [1] [2; 3].
Definition pending_metadata : storeMetadata := count_entry demo_tables demo_entry demo_metadata.
Definition pending_rows : tables := insert_entry demo_hash demo_entry (m_lastOrder demo_metadata + 1) demo_tables.
Definition pending_tables : tables := set_meta (meta_of pending_metadata) pending_rows.

Lemma pending_store_ok : store_ok demo_hash pending_tables pending_metadata.
Proof.
  split; [|by vm_compute|by vm_compute|done]. apply rows_ok_meta.
  apply (accept_ok demo_hash demo_hash_length demo_tables demo_metadata demo_entry); [apply demo_store_ok| |done|by vm_compute|by vm_compute].
  split; [apply demo_id_ok|by vm_compute].
Qed.

(** The store passes; without its payload, or with a count that is wrong, it does not. *)
Definition demo_validated (t : tables) : option (error + Z) :=
  (λ x, match x.2 with inl e => inl e | inr (m, _) => inr (PendingItems (m_counts m)) end) <$>
    Prog.exec 200 (validate demo_hash demo_ctx) (demo_connection t).

Example pending_passes : demo_validated pending_tables = Some (inr 1).
Proof. by vm_compute. Qed.
Example missing_payload : demo_validated (set_payloads ∅ pending_tables) = Some (inl (corrupt "missing pending payload")).
Proof. by vm_compute. Qed.
Example wrong_counts : demo_validated (set_meta (meta_of demo_metadata) (Tables ∅ (t_producers pending_tables) ∅ ∅)) = Some (inl (corrupt "stored counts")).
Proof. by vm_compute. Qed.

Lemma demo_ctx_frame c : ends demo_ctx c (λ _ c', c' = c).
Proof. eapply ends_mono; [apply demo_ctx_keeps|]. by intros err c' [-> _]. Qed.

Lemma validate_sound_witness :
  ends (validate demo_hash demo_ctx) (demo_connection pending_tables) (λ r c',
    idle pending_tables c' ∧ ∀ m n, r = inr (m, n) → store_ok demo_hash pending_tables m).
Proof.
  apply (validate_sound demo_hash demo_ctx demo_ctx_frame pending_tables (demo_connection pending_tables)); [|by split].
  exact (store_ok_typed demo_hash _ _ pending_store_ok).
Defined.
End DurableDemo.
